(* ===== verification/_CoqProject ===== *)
-Q . S2P
Prelude.v
Bytes.v
Loops.v
SchedLifecycle.v
SchedTopology.v
SchedState.v
SchedInv.v
SchedTheorems.v
CpuBits.v
CpuArith.v
CpuState.v
CpuVector.v
DecodeTable.v
DecodeControl.v
DecodeSystem.v
DecodeInteger.v
DecodeMemory.v
DecodeFpSimd.v
DecodeAllocation.v
DecodeFpOperands.v
DecodeA64.v
SimdInteger.v
SimdSpec.v
SimdClaims.v
FpFloat.v
FpConvert.v
FpRound.v
FpPack.v
FpAdd.v
FpMulDiv.v
FpFused.v
FpConvertSpec.v
FpInteger.v
FpTotal.v
FpSimdExec.v
FpSimdExecSpec.v
FpSimdShape.v
InterpInteger.v
MemBase.v
MemInvalidation.v
CpuMemory.v
MemCommon.v
MemSynthetic.v
MemSyntheticSpec.v
MemSyntheticCpu.v
MemSyntheticProcess.v
MemSyntheticTx.v
MemSyntheticGrow.v
MemSyntheticQuery.v
MemSyntheticClaims.v
CpuA64Sem.v
InterpCore.v
InterpControl.v
InterpSystem.v
InterpMemory.v
InterpMemorySpec.v
InterpFpSimd.v
InterpFpSimdSpec.v
Interp.v
CpuExecution.v
InterpProcess.v
InterpProcessSpec.v
InterpProcessClaims.v
RtEvent.v
RtPriorityWait.v
RtAddressWait.v
RtHandle.v
RtSession.v
RtPort.v
RtVirtualTime.v
GpuPacket.v
GpuMme.v
GpuMmeDirect.v
GpuMmeState.v
LoadStorage.v
LoadCrypto.v
LoadArchive.v
LoadRomFs.v
LoadNca.v
LoadBktr.v
