(* ===== verification/Prelude.v ===== *)
(** * Nixe: a verification library for the emulator core

    Nixe (src/) is a Nintendo Switch emulator written in Rust.  A deterministic
    scheduler leases guest threads to virtual CPUs; a virtual CPU runs A64 code
    in slices through a decoder and an engine, whose reference is the direct
    interpreter; the engine reaches guest memory through one contract, of which
    the synthetic memory is one implementation; the runtime gives processes
    their kernel objects: handles, events, address waits, sessions and ports,
    a clock; the GPU front end decodes the guest's command words and expands its
    macros; the loaders open the archives programs come in, as views over views
    of one file.  This library models those parts as executable definitions and
    proves what makes them correct, alone and composed.

    ** Files and what they model

    - [Prelude]: outcomes of Rust code ([Result] with a [Panic] distinct from
      [Err]), the state monad [SM] in which every [&mut self] method is written,
      its weakest preconditions [wp], ordered-map iteration, and machine
      integers as [Z] with the wrap-around written out.  [Bytes]: little-endian
      byte lists.  [Loops]: a [loop] with binary fuel, its invariant and
      termination rules.
    - [SchedLifecycle], [SchedTopology], [SchedState] (crates/scheduler/src):
      the lifecycle tables, the machine profile and core sets, and
      [SchedulerState] with its fourteen commands; one definition per Rust
      method, with the names of the source.  [SchedInv] states the
      well-formedness invariant and proves it command by command,
      [SchedTheorems] has the properties.
    - [CpuBits], [CpuArith], [CpuVector] (crates/cpu/src/semantics): bit vectors,
      add with carry, conditions, shifts, logical immediates, vector lanes and
      floating-point types.  [CpuState] (crates/cpu/src/state/a64.rs): the
      architectural registers.
    - [DecodeTable] (crates/cpu/src/decode/table.rs, mod.rs): patterns, their
      validation, compilation into 256 buckets, decoding.  One file per family
      ([DecodeControl], [DecodeSystem], [DecodeInteger], [DecodeMemory],
      [DecodeFpSimd]) hold the catalog the program ships; [DecodeAllocation]
      (decode/allocation.rs) the allocation rules; [DecodeFpOperands]
      (decode/a64/fp_simd.rs) the operands of the FP/SIMD family; [DecodeA64]
      the aggregate catalog and [normalize].
    - [SimdInteger], [FpFloat], [FpConvert], [FpSimdExec]
      (crates/cpu/src/semantics/a64_fp_simd.rs): the integer SIMD operations,
      the integer-only IEEE arithmetic, the conversions, and [execute], which
      runs one FP/SIMD instruction outside memory.  [SimdSpec]
      and [SimdClaims] are about the first; [FpRound] states
      IEEE rounding on exact rationals and roots, [FpPack] relates the packing
      code and the operands to it, [FpAdd], [FpMulDiv], [FpFused],
       [FpConvertSpec] and [FpInteger] prove the operations; [FpTotal]
      and [FpSimdExecSpec] that the primitives and the instructions return;
      [FpSimdShape] that the allocation rules give them executable operands.
    - [MemBase], [MemInvalidation] (crates/memory/src): addresses, generations,
      permissions, device declarations, and the bounded invalidation ring.
      [CpuMemory] and [MemCommon] (crates/cpu/src/memory/contracts.rs, common.rs,
      exclusive.rs): access descriptions, values, atomic transforms, mapping
      requests, and the [CpuMemory] trait as a type class whose laws are
      [CpuMemoryLaws].
    - [MemSynthetic] and [MemSyntheticProcess] (crates/cpu/src/memory/
      synthetic.rs): the synthetic memory, its CPU accesses and its process
      operations; [MemSyntheticSpec], [MemSyntheticCpu], [MemSyntheticTx],
      [MemSyntheticGrow], [MemSyntheticQuery] and
      [MemSyntheticClaims] prove them, and that it is an instance of the laws.
    - [CpuA64Sem] (crates/cpu/src/semantics/a64.rs): the decisions the engines
      share.  [InterpCore], [InterpInteger], [InterpControl], [InterpSystem],
      [InterpMemory], [InterpFpSimd] (crates/cpu-interpreter/src/interpreter):
      the machine and the handlers of the five families; [InterpMemorySpec] and
      [InterpFpSimdSpec] hold the properties of the last two.  [Interp]
      composes decoder and handlers into one step, [execute_one_with_context].
    - [CpuExecution] (crates/cpu/src/execution.rs): exits, reports, faults and
      the control word.  [InterpProcess] (crates/cpu-interpreter/src/process.rs):
      the process, the thread and the run loop, with what other threads do
      between its turns as an explicit environment, and the abstract machine the
      loop refines; [InterpProcessSpec] and [InterpProcessClaims] its properties.
    - [RtEvent] (crates/runtime/src/handle/event.rs): events as a heap of shared
      states, their methods, and the laws the other objects use; then the same
      methods as interleaved steps of host threads.
    - [RtPriorityWait] and [RtAddressWait] (runtime/src/address_wait): priority
      waits by address, with their list specification and its refinement; mutex
      and condition waits, owners and the exit of a thread, with the registry's
      invariant and properties.
    - [RtHandle] (runtime/src/handle.rs): handle tables and transfer.
      [RtSession], [RtPort] (handle/session.rs, port.rs): session transport,
      refining a specification without ids; ports.
      [RtVirtualTime] (virtual_time.rs): the pausable clock.
    - [GpuPacket] (crates/gpu-maxwell/src/pushbuffer/packet.rs, packet/
      methods.rs): command words to packets, and their expansion to methods.
      [GpuMme] (engines/threed/mme.rs): the macro processor's paged program
      memory, instruction decoder and interpreter, over a host given as a type
      class.  [GpuMmeDirect] (mme/direct.rs): the compiler of straight-line
      macros.  [GpuMmeState] (mme.rs, state.rs, mod.rs): the channel's macro
      state, with the shared, cached program memory as a store of cells, the
      loads, and the shadow registers.
    - [LoadStorage] (crates/loader/storage/src, loader/content/src/binary.rs):
      the [Storage] trait as a record of its two operations, views and local
      files; [Represents s b], "the source [s] holds the bytes [b]", is the
      contract every loader is proved against and every view re-establishes,
      [Lawful] the weaker one of a source that may fail.  [LoadCrypto]
      (loader/content/src/crypto.rs): AES-CTR and AES-XTS views.  [LoadArchive]
      (pfs0.rs, hfs0.rs): partition archives.  [LoadRomFs] (romfs.rs): the file
      tree.  [LoadNca] (nca.rs, integrity.rs, keys.rs): content archives, their
      sections and hash hierarchies.  [LoadBktr] (bktr.rs): an update composed
      over its base.

    ** What the theorems show

    - Scheduler: on well-formed states no command panics and the invariant is
      kept; a leased thread is running, unqueued and leased once; selection is
      by priority, then first in first out, and is work conserving; leases and
      wake tokens are single use.  [MakeReady] is safe only for threads that hold neither a
      lease nor a wait; two theorems show what happens otherwise.
    - Decoder: the bucketed table is equivalent to a linear scan, picks the
      highest-priority allocated entry, and with the shipped catalog is total on
      every word, each entry being reachable by its own fixture.
    - Arithmetic and integer instructions: the Rust bit manipulations equal
      their arithmetic meaning at every width; the results and flags of the
      integer family are the architectural ones.  One theorem shows the form in
      which they are not (ADD to the zero register writes SP), another a word
      of a different group that executes as RBIT.
    - Control, system and memory instructions: no panic over any lawful memory,
      the register-file invariant, and precise faults; branch targets, system
      register round trips, addressing forms, failed store-exclusives.
    - FP/SIMD: addition, multiplication, division, square root and the
      conversions round the exact result once, in every mode and both formats,
      with the IEEE flags and flushing, the operands being read off their bits
      ([operand_bits] of [FpAdd]); fused multiply-add does so except when
      its 128-bit sum overflows, which one theorem characterises.  Lane-wise
      SIMD instructions, comparisons with zero included, compute the architectural
      function of each lane; zip and unzip are inverse.
    - One step: the composition of decoder and handlers is safe on every 32-bit
      word, except that a reserved DUP encoding, which the allocation rules let
      through, panics, and that arithmetic overflow panics in a build with
      overflow checks ([BuildProfile]).
    - Synthetic memory: every reachable state is well formed and no operation
      panics on it, but for the removal of an alias whose destination begins
      inside its source, which one theorem shows to panic; failures are atomic;
      reads return what was written through any alias; exclusives succeed
      exactly when the page was not stored to; the invalidation ring refines an
      unbounded history.
    - Run loop: a slice is a run of the abstract machine of single-step
      instructions and acknowledged requests, its report counts the completed
      instructions, it ends within a stated number of turns once the others stop
      asking, and preemption requested at any point of a turn is served by its
      control check or the next one.
    - Runtime objects: no interleaving loses a wake-up of an event, and a
      published signal ends a wait even if the event is cleared; address waits
      behave like a list in arrival order woken by priority, and never panic; the
      registry of mutex, condition and priority waits keeps them apart, and the
      exit of a thread cancels exactly the waits on its mutexes and removes its
      own waits of every kind; handles are
      allocated lowest first and moved atomically; a session hands each reply to
      the owner of its request; a port respects its limit; the clock leaves out
      exactly the paused time.
    - GPU front end: the packet decoder accepts exactly the grammar of the
      pushbuffer and its run-length provenance expands to the location of every
      word; it ends on every source.  The macro interpreter ends within its
      limits on every program and host; a compiled macro does exactly what the
      interpreter does, errors and partial output included; sharing the program
      memory and caching the compiled macros is invisible.
    - Loaders: no file makes a parser panic or run on; PFS0 and HFS0 archives are
      accepted exactly when they are images of the format, a RomFS image lists
      exactly the tree its metadata spell; every view, nested, decrypting or
      composed of a base and an update, answers each read with a slice of one
      determined image; an integrity report is valid exactly when the hashes
      match, and then two images of one length with the same root agree, or two
      blocks of theirs collide.  The plaintext of a section is tied to the keys and
      the counter of the archive's own header.

    ** Bounds and fuel

    Most recursion is structural.  [replicate_loop] has fuel 128, the widest
    bit vector, and at least one bit is added per round; [reverse_each] has the
    number of bytes as fuel and consumes at least one; the binary search has the
    length of the slice.  The loops of the memory queries and allocators have
    binary fuel beyond 2^64, above the number of values their counter can take,
    and the square root's Newton iteration decreases a 128-bit integer; each is
    proved to end, and so are the loops of [expire] and [release_thread], whose
    fuel is the number of deadlines and of waits.  The packet decoder has one turn
    more than it has words, each turn consuming one; the macro interpreter has one
    turn more than its instruction limit.  The walk of a RomFS
    tree has as fuel the number of entries its two tables can hold, which the
    visited sets bound; a read split at range boundaries has the number of
    ranges; hashing has the number of buffers.  The run loop takes its fuel as
    an argument, and the theorems say how much is enough.  Machine integers keep their width through [wrap]
    and [in_range].

    ** Code outside src/

    The [aes] and [sha2] crates are arguments of the loaders' definitions.  Of
    the cipher only the types are used (a block is sixteen bytes), so the
    theorems hold for whatever image the mode defines with it; of the hasher,
    that feeding it in pieces is feeding it the concatenation, which is its
    documented contract.  The host clocks, the macro processor's host and the
    operating system's answers to file operations are arguments as well.

    ** What is not modelled

    Execution memory and direct memory, which act on host mappings, are
    represented by the laws of the contract; text produced for diagnostics; the
    weaker [Ordering]s of host atomics, which are sequentially consistent here;
    lock poisoning outside files; allocation failure, and conversions between
    [u64] and [usize], which are the identity on the 64-bit hosts the program
    runs on; and the other crates and parts: the runtime's coordinator and
    launcher, Horizon services, executables, metadata records, compressed
    packages (which need a zstd decoder) and the title catalogue, the key set
    read from text files, the engines, resources and scheduling of the GPU,
    recompilers, user interface.  Next in order: the executable formats and the
    metadata records over the same storage contract, then the coordinator. *)

From stdpp Require Export base tactics list sorting gmap numbers strings.
From Stdlib Require Export ZArith Lia Sorted.

#[global] Open Scope Z_scope.

(** ** Outcomes of Rust code

    A Rust function of type [Result<A, E>] has three observable outcomes: it
    returns [Ok], returns [Err], or panics ([expect], [unreachable!], a
    [debug_assert!] or an out-of-range index).  [Panic] is kept apart from
    [Err] so that "never panics" is a theorem and not an encoding choice. *)
Inductive Result (E A : Type) : Type :=
| Ok (value : A)
| Err (error : E)
| Panic.
Arguments Ok {E A} value.
Arguments Err {E A} error.
Arguments Panic {E A}.

#[export] Instance Result_eq_dec {E A} `{EqDecision E} `{EqDecision A} :
  EqDecision (Result E A).
Proof. solve_decision. Defined.

Definition is_panic {E A} (r : Result E A) : bool :=
  match r with Panic => true | _ => false end.

Definition is_ok {E A} (r : Result E A) : bool :=
  match r with Ok _ => true | _ => false end.

Definition result_bind {E A B} (r : Result E A) (k : A -> Result E B) : Result E B :=
  match r with
  | Ok a => k a
  | Err e => Err e
  | Panic => Panic
  end.

(** [?] on a [Result] whose error is replaced by [map_err]. *)
Definition map_err {E F A} (f : E -> F) (r : Result E A) : Result F A :=
  match r with
  | Ok a => Ok a
  | Err e => Err (f e)
  | Panic => Panic
  end.

(** ** Methods taking [&mut self]

    A method [fn f(&mut self) -> Result<A, E>] is a function from the state to
    an outcome and the state it leaves behind.  An [Err] keeps the mutations
    made before it, exactly as [&mut] does: that errors are atomic is therefore
    something to prove. *)
Definition SM (S E A : Type) : Type := S -> Result E A * S.

Section StateMethods.
Context {S E : Type}.

Definition ret {A} (a : A) : SM S E A := fun s => (Ok a, s).
Definition throw {A} (e : E) : SM S E A := fun s => (Err e, s).
Definition panic {A} : SM S E A := fun s => (Panic, s).

Definition bind {A B} (m : SM S E A) (k : A -> SM S E B) : SM S E B :=
  fun s =>
    match m s with
    | (Ok a, s') => k a s'
    | (Err e, s') => (Err e, s')
    | (Panic, s') => (Panic, s')
    end.

Definition get : SM S E S := fun s => (Ok s, s).
Definition put (s : S) : SM S E unit := fun _ => (Ok tt, s).
Definition modify (f : S -> S) : SM S E unit := fun s => (Ok tt, f s).

(** [opt.ok_or(e)?] *)
Definition ok_or {A} (o : option A) (e : E) : SM S E A :=
  match o with Some a => ret a | None => throw e end.

(** [opt.expect(..)] *)
Definition expect {A} (o : option A) : SM S E A :=
  match o with Some a => ret a | None => panic end.

(** [res.expect(..)] on a pure [Result]. *)
Definition expect_ok {F A} (r : Result F A) : SM S E A :=
  match r with Ok a => ret a | _ => panic end.

(** [if c { return Err(e) }] *)
Definition guard (c : bool) (e : E) : SM S E unit :=
  if c then throw e else ret tt.

(** [debug_assert!(c)] *)
Definition debug_assert (c : bool) : SM S E unit :=
  if c then ret tt else panic.
End StateMethods.

Declare Scope nixe_scope.
Delimit Scope nixe_scope with nixe.
Notation "'let!' x ':=' m 'in' k" := (bind m (fun x => k))
  (at level 10, x name, m at level 200, k at level 200,
   format "'[v' 'let!'  x  ':='  m  'in' '/' k ']'") : nixe_scope.
Notation "'do!' m 'in' k" := (bind m (fun _ => k))
  (at level 10, m at level 200, k at level 200,
   format "'[v' 'do!'  m  'in' '/' k ']'") : nixe_scope.
Notation "'let?' x ':=' m 'in' k" := (result_bind m (fun x => k))
  (at level 10, x name, m at level 200, k at level 200,
   format "'[v' 'let?'  x  ':='  m  'in' '/' k ']'") : nixe_scope.
#[global] Open Scope nixe_scope.

(** ** Weakest preconditions for state methods

    [wp m Q R s]: run from [s], [m] does not panic; an [Ok] result and its state
    satisfy [Q], an [Err] result and its state satisfy [R]. *)
Definition wp {S E A} (m : SM S E A) (Q : A -> S -> Prop) (R : E -> S -> Prop) (s : S) : Prop :=
  match m s with
  | (Ok a, s') => Q a s'
  | (Err e, s') => R e s'
  | (Panic, _) => False
  end.

Section WeakestPre.
Context {S E : Type} (R : E -> S -> Prop).

Lemma wp_bind {A B} (m : SM S E A) (k : A -> SM S E B) Q s :
  wp m (fun a s' => wp (k a) Q R s') R s -> wp (bind m k) Q R s.
Proof. unfold wp, bind. destruct (m s) as [[] ?]; auto. Qed.

Lemma wp_ret {A} (a : A) (Q : A -> S -> Prop) s : Q a s -> wp (ret a) Q R s.
Proof. done. Qed.

Lemma wp_throw {A} (e : E) (Q : A -> S -> Prop) s : R e s -> wp (throw e) Q R s.
Proof. done. Qed.

Lemma wp_get (Q : S -> S -> Prop) s : Q s s -> wp get Q R s.
Proof. done. Qed.

Lemma wp_modify f (Q : unit -> S -> Prop) s : Q tt (f s) -> wp (modify f) Q R s.
Proof. done. Qed.

Lemma wp_ok_or {A} (o : option A) (e : E) (Q : A -> S -> Prop) s :
  (o = None -> R e s) -> (forall a, o = Some a -> Q a s) -> wp (ok_or o e) Q R s.
Proof. destruct o; unfold wp; simpl; auto. Qed.

Lemma wp_expect {A} (o : option A) (Q : A -> S -> Prop) a s :
  o = Some a -> Q a s -> wp (expect o) Q R s.
Proof. by intros ->. Qed.

Lemma wp_guard (c : bool) (e : E) (Q : unit -> S -> Prop) s :
  (c = true -> R e s) -> (c = false -> Q tt s) -> wp (guard c e) Q R s.
Proof. destruct c; unfold wp; simpl; auto. Qed.

Lemma wp_debug_assert (c : bool) (Q : unit -> S -> Prop) s :
  c = true -> Q tt s -> wp (debug_assert c) Q R s.
Proof. by intros ->. Qed.

Lemma wp_mono {A} (m : SM S E A) (Q Q' : A -> S -> Prop) (R' : E -> S -> Prop) s :
  wp m Q R s -> (forall a s', Q a s' -> Q' a s') -> (forall e s', R e s' -> R' e s') ->
  wp m Q' R' s.
Proof. unfold wp. destruct (m s) as [[] ?]; auto. Qed.
End WeakestPre.

(** ** Stable predicates

    [stable P m]: whatever [m] does from a state satisfying [P], the state it
    leaves satisfies [P] (also after [Err], and up to the point of a panic).
    Closed under the monad's operations, so most proofs are syntactic. *)
Definition stable {S E A} (P : S -> Prop) (m : SM S E A) : Prop :=
  forall s, P s -> P (snd (m s)).

Section Stable.
Context {S E : Type} (P : S -> Prop).

Lemma stable_ret {A} (a : A) : stable (E := E) P (ret a).
Proof. by intros s. Qed.
Lemma stable_throw {A} (e : E) : stable (A := A) P (throw e).
Proof. by intros s. Qed.
Lemma stable_panic {A} : stable (E := E) (A := A) P panic.
Proof. by intros s. Qed.
Lemma stable_get : stable (E := E) P get.
Proof. by intros s. Qed.
Lemma stable_modify f : (forall s, P s -> P (f s)) -> stable (E := E) P (modify f).
Proof. intros Hf s Hs. by apply Hf. Qed.
Lemma stable_ok_or {A} (o : option A) (e : E) : stable P (ok_or o e).
Proof. by destruct o; intros s. Qed.
Lemma stable_expect {A} (o : option A) : stable (E := E) P (expect o).
Proof. by destruct o; intros s. Qed.
Lemma stable_expect_ok {F A} (r : Result F A) : stable (E := E) P (expect_ok r).
Proof. by destruct r; intros s. Qed.
Lemma stable_guard c (e : E) : stable P (guard c e).
Proof. by destruct c; intros s. Qed.
Lemma stable_debug_assert c : stable (E := E) P (debug_assert c).
Proof. by destruct c; intros s. Qed.
Lemma stable_bind {A B} (m : SM S E A) (k : A -> SM S E B) :
  stable P m -> (forall a, stable P (k a)) -> stable P (bind m k).
Proof.
  intros Hm Hk s Hs. specialize (Hm s Hs). unfold bind.
  destruct (m s) as [[] s']; [by apply Hk|done..].
Qed.

(** The bind rule when the first method also establishes a fact on its result. *)
Lemma stable_bind_with {A B} (C : A -> Prop) (m : SM S E A) (k : A -> SM S E B) :
  (forall s, P s -> P (snd (m s)) /\ forall a, fst (m s) = Ok a -> C a) ->
  (forall a, C a -> stable P (k a)) -> stable P (bind m k).
Proof.
  intros Hm Hk s Hs. destruct (Hm s Hs) as [Hm' Ha]. unfold bind.
  destruct (m s) as [[] s']; [|done..]. apply Hk; [|done]. by apply Ha.
Qed.
End Stable.

Create HintDb nixe_stable.
#[export] Hint Resolve stable_ret stable_throw stable_panic stable_get stable_ok_or
  stable_expect stable_expect_ok stable_guard stable_debug_assert : nixe_stable.

(** Structural step: split binds, branch on matches, close leaves by hints. *)
Ltac stable_step :=
  lazymatch goal with
  | |- stable _ (bind _ _) => apply stable_bind; [|intros ?]
  | |- stable _ (if ?b then _ else _) => destruct b
  | |- stable _ (match ?x with _ => _ end) => destruct x
  | |- stable _ (modify _) => apply stable_modify; auto
  | |- stable _ _ => solve [auto with nixe_stable]
  end.

(** ** [BTreeMap] iteration: entries in increasing key order *)

Definition entry_le {V} (a b : Z * V) : Prop := fst a <= fst b.
#[export] Instance entry_le_dec {V} (a b : Z * V) : Decision (entry_le a b).
Proof. unfold entry_le. apply _. Defined.

Definition btree_iter {V} (m : gmap Z V) : list (Z * V) := merge_sort entry_le (map_to_list m).

Lemma btree_iter_elem {V} (m : gmap Z V) k v : (k, v) ∈ btree_iter m <-> m !! k = Some v.
Proof. unfold btree_iter. by rewrite merge_sort_Permutation, elem_of_map_to_list. Qed.

(** ** Fixed-width integers

    A [w]-bit unsigned integer is a [Z] in [0, 2^w).  [wrap] is the reduction
    every wrapping operation and every narrowing [as] cast performs. *)
Definition wrap (w z : Z) : Z := z mod 2 ^ w.
Definition in_range (w z : Z) : Prop := 0 <= z < 2 ^ w.
Definition umax (w : Z) : Z := 2 ^ w - 1.

(** [x as iN] for an unsigned [x]: two's complement reading. *)
Definition to_signed (w z : Z) : Z :=
  if z <? 2 ^ (w - 1) then z else z - 2 ^ w.

(** [!x], [x << n], [x >> n] on an unsigned [w]-bit integer ([n < w]). *)
Definition unot (w x : Z) : Z := wrap w (Z.lnot x).
Definition shl (w x n : Z) : Z := wrap w (Z.shiftl x n).
Definition shr (x n : Z) : Z := Z.shiftr x n.

(** [x & mask != 0] *)
Definition bit_set (x mask : Z) : bool := negb (Z.land x mask =? 0).

(** [u8::from(b)] and friends. *)
Definition b2z (b : bool) : Z := if b then 1 else 0.

Definition u64_max : Z := Eval vm_compute in 2 ^ 64 - 1.

(** [u64::checked_add] *)
Definition checked_add (w x y : Z) : option Z :=
  if x + y <? 2 ^ w then Some (x + y) else None.

(** *** Bits of fixed-width integers *)

Lemma testbit_wrap w z i : 0 <= w -> 0 <= i -> Z.testbit (wrap w z) i = (i <? w) && Z.testbit z i.
Proof.
  intros Hw Hi. unfold wrap. destruct (Z.ltb_spec i w).
  - by rewrite Z.mod_pow2_bits_low.
  - by rewrite Z.mod_pow2_bits_high by lia.
Qed.

Lemma testbit_unot w z i :
  0 <= w -> 0 <= i -> Z.testbit (unot w z) i = (i <? w) && negb (Z.testbit z i).
Proof. intros Hw Hi. unfold unot. by rewrite testbit_wrap, Z.lnot_spec. Qed.

Lemma testbit_shl w x n i :
  0 <= w -> 0 <= i -> Z.testbit (shl w x n) i = (i <? w) && Z.testbit x (i - n).
Proof. intros Hw Hi. unfold shl. by rewrite testbit_wrap, Z.shiftl_spec. Qed.

Lemma testbit_ones w i : 0 <= w -> 0 <= i -> Z.testbit (Z.ones w) i = (i <? w).
Proof. intros Hw Hi. rewrite Z.testbit_ones_nonneg by lia. done. Qed.

Lemma wrap_range w z : 0 <= w -> in_range w (wrap w z).
Proof. intros Hw. apply Z.mod_pos_bound. lia. Qed.

Lemma wrap_small w z : in_range w z -> wrap w z = z.
Proof. apply Z.mod_small. Qed.

Lemma wrap_wrap w z : wrap w (wrap w z) = wrap w z.
Proof. apply Zmod_mod. Qed.

Lemma wrap_wrap_le v w z : 0 <= v <= w -> wrap v (wrap w z) = wrap v z.
Proof.
  intros Hvw. apply Z.bits_inj'. intros i Hi. rewrite !testbit_wrap by lia.
  destruct (Z.ltb_spec i v), (Z.ltb_spec i w); simpl; try done; lia.
Qed.

Lemma in_range_le v w z : 0 <= v <= w -> in_range v z -> in_range w z.
Proof.
  intros Hvw [? ?]. split; [done|]. eapply Z.lt_le_trans; [done|].
  apply Z.pow_le_mono_r; lia.
Qed.

Lemma land_ones_wrap w z : 0 <= w -> Z.land z (Z.ones w) = wrap w z.
Proof. apply Z.land_ones. Qed.

Lemma testbit_high w z i : 0 <= w <= i -> in_range w z -> Z.testbit z i = false.
Proof.
  intros Hi [Hz Hlt]. destruct (Z.eq_dec z 0) as [->|]; [apply Z.bits_0|].
  apply Z.bits_above_log2; [done|]. apply Z.log2_lt_pow2; [lia|].
  eapply Z.lt_le_trans; [done|]. apply Z.pow_le_mono_r; lia.
Qed.

(** The top bit of a [w]-bit integer, arithmetically. *)
Lemma testbit_top w z :
  1 <= w -> in_range w z -> Z.testbit z (w - 1) = (2 ^ (w - 1) <=? z).
Proof.
  intros Hw [Hz Hlt]. assert (H2 : 2 ^ w = 2 * 2 ^ (w - 1)).
  { replace w with (Z.succ (w - 1)) at 1 by lia. apply Z.pow_succ_r. lia. }
  apply Bool.eq_true_iff_eq. rewrite Z.leb_le.
  rewrite Z.testbit_true by lia.
  assert (0 < 2 ^ (w - 1)) by (apply Z.pow_pos_nonneg; lia).
  assert (Hdiv : z / 2 ^ (w - 1) = 0 \/ z / 2 ^ (w - 1) = 1).
  { assert (0 <= z / 2 ^ (w - 1) < 2); [|lia]. split; [by apply Z.div_pos|].
    apply Z.div_lt_upper_bound; lia. }
  pose proof (Z.div_mod z (2 ^ (w - 1)) ltac:(lia)) as Hdm.
  pose proof (Z.mod_pos_bound z (2 ^ (w - 1)) ltac:(lia)).
  destruct Hdiv as [Hd|Hd]; rewrite Hd in *; split; intros; try done; try lia.
Qed.

Lemma bit_set_pow2 x k : 0 <= k -> bit_set x (2 ^ k) = Z.testbit x k.
Proof.
  intros Hk. unfold bit_set. destruct (Z.testbit x k) eqn:Hb.
  - apply negb_true_iff, Z.eqb_neq. intros H0.
    assert (Ht : Z.testbit (Z.land x (2 ^ k)) k = true).
    { by rewrite Z.land_spec, Hb, Z.pow2_bits_true. }
    by rewrite H0, Z.bits_0 in Ht.
  - apply negb_false_iff, Z.eqb_eq. apply Z.bits_inj'. intros i Hi.
    rewrite Z.land_spec, Z.bits_0. destruct (Z.eq_dec i k) as [->|].
    + by rewrite Hb.
    + rewrite Z.pow2_bits_false by lia. apply andb_false_r.
Qed.

(** Extensionality at a width: only the low bits matter. *)
Lemma in_range_bits_ext w x y :
  0 <= w -> in_range w x -> in_range w y ->
  (forall i, 0 <= i < w -> Z.testbit x i = Z.testbit y i) -> x = y.
Proof.
  intros Hw Hx Hy H. apply Z.bits_inj'. intros i Hi. destruct (Z.lt_ge_cases i w); [auto|].
  by rewrite !(testbit_high w) by (try lia; done).
Qed.

(** A nonnegative integer with no bit at or above [w] is a [w]-bit integer. *)
Lemma in_range_of_bits w z :
  0 <= w -> 0 <= z -> (forall i, w <= i -> Z.testbit z i = false) -> in_range w z.
Proof.
  intros Hw Hz Hb. split; [done|]. replace z with (wrap w z); [by apply wrap_range|].
  apply Z.bits_inj'. intros i Hi. rewrite testbit_wrap by lia.
  destruct (Z.ltb_spec i w); [done|]. by rewrite Hb by lia.
Qed.

Lemma in_range_land w x y : 0 <= w -> in_range w x -> 0 <= y -> in_range w (Z.land x y).
Proof.
  intros Hw Hx Hy. apply in_range_of_bits; [done|apply Z.land_nonneg; left; apply Hx|].
  intros i Hi. rewrite Z.land_spec, (testbit_high w x); [done|lia|done].
Qed.

Lemma in_range_lor w x y : 0 <= w -> in_range w x -> in_range w y -> in_range w (Z.lor x y).
Proof.
  intros Hw Hx Hy. apply in_range_of_bits; [done|apply Z.lor_nonneg; split; [apply Hx|apply Hy]|].
  intros i Hi. rewrite Z.lor_spec, !(testbit_high w) by (try lia; done). done.
Qed.

Lemma in_range_lxor w x y : 0 <= w -> in_range w x -> in_range w y -> in_range w (Z.lxor x y).
Proof.
  intros Hw Hx Hy. apply in_range_of_bits; [done|apply Z.lxor_nonneg|].
  - destruct Hx, Hy. split; lia.
  - intros i Hi. rewrite Z.lxor_spec, !(testbit_high w) by (try lia; done). done.
Qed.

Lemma in_range_shr w x n : 0 <= w -> 0 <= n -> in_range w x -> in_range w (shr x n).
Proof.
  intros Hw Hn [Hx1 Hx2]. unfold shr. split; [by apply Z.shiftr_nonneg|].
  rewrite Z.shiftr_div_pow2 by done. eapply Z.le_lt_trans; [|exact Hx2].
  apply Z.div_le_upper_bound; [apply Z.pow_pos_nonneg; lia|].
  assert (1 <= 2 ^ n) by (assert (0 < 2 ^ n) by (apply Z.pow_pos_nonneg; lia); lia). nia.
Qed.

Lemma unot_arith w x : 0 <= w -> in_range w x -> unot w x = 2 ^ w - 1 - x.
Proof.
  intros Hw [Hx1 Hx2]. unfold unot, wrap. replace (Z.lnot x) with (- x - 1) by (unfold Z.lnot; lia).
  replace (- x - 1) with (2 ^ w - 1 - x + (-1) * 2 ^ w) by lia.
  rewrite Z_mod_plus_full. apply Z.mod_small. lia.
Qed.

Lemma to_signed_range w z :
  1 <= w -> in_range w z -> - 2 ^ (w - 1) <= to_signed w z < 2 ^ (w - 1).
Proof.
  intros Hw [? ?]. assert (2 ^ w = 2 * 2 ^ (w - 1)).
  { replace w with (Z.succ (w - 1)) at 1 by lia. apply Z.pow_succ_r. lia. }
  unfold to_signed. destruct (Z.ltb_spec z (2 ^ (w - 1))); lia.
Qed.

Lemma wrap_to_signed w z : in_range w z -> wrap w (to_signed w z) = z.
Proof.
  intros Hz. unfold to_signed, wrap. case_match; [by apply Z.mod_small|].
  replace (z - 2 ^ w) with (z + (-1) * 2 ^ w) by lia. rewrite Z.mod_add; [by apply Z.mod_small|].
  destruct Hz. lia.
Qed.

(** A value inside the signed range is recovered from its [w]-bit pattern. *)
Lemma to_signed_wrap w z :
  1 <= w -> - 2 ^ (w - 1) <= z < 2 ^ (w - 1) -> to_signed w (wrap w z) = z.
Proof.
  intros Hw Hz. assert (H2 : 2 ^ w = 2 * 2 ^ (w - 1)).
  { replace w with (Z.succ (w - 1)) at 1 by lia. apply Z.pow_succ_r. lia. }
  unfold to_signed, wrap. destruct (Z.lt_ge_cases z 0).
  - assert (Hm : z mod 2 ^ w = z + 2 ^ w).
    { rewrite <- (Z_mod_plus_full z 1), Z.mul_1_l. apply Z.mod_small. lia. }
    rewrite Hm. destruct (Z.ltb_spec (z + 2 ^ w) (2 ^ (w - 1))); lia.
  - rewrite Z.mod_small by lia. destruct (Z.ltb_spec z (2 ^ (w - 1))); lia.
Qed.

Create HintDb nixe_range.
#[export] Hint Resolve wrap_range in_range_land in_range_lor in_range_lxor in_range_shr : nixe_range.

(** ** First elements of ordered collections

    [BTreeMap::first_entry], [BTreeSet::first] and [BTreeSet::pop_first] on the
    finite maps and sets that model ordered tables. *)

(** The least element of a list under a total order. *)
Section Least.
Context {A : Type} (le : A -> A -> Prop) `{!RelDecision le} `{!PreOrder le} `{!Total le}.

Definition least (l : list A) : option A := head (merge_sort le l).

Lemma least_spec l x : least l = Some x -> x ∈ l /\ forall y, y ∈ l -> le x y.
Proof.
  unfold least. intros Hx. pose proof (merge_sort_Permutation le l) as Hperm.
  pose proof (StronglySorted_merge_sort le l) as Hs.
  destruct (merge_sort le l) as [|y s]; [done|]. cbn in Hx. simplify_eq.
  inversion Hs as [|? ? _ Hall]; subst. split.
  - rewrite <- Hperm. by left.
  - intros y. rewrite <- Hperm, elem_of_cons. intros [->|Hy]; [reflexivity|].
    by eapply Forall_forall in Hall.
Qed.

Lemma least_none l : least l = None -> l = [].
Proof.
  unfold least. intros Hx. pose proof (merge_sort_Permutation le l) as Hperm.
  destruct (merge_sort le l); [|done]. by apply Permutation_nil in Hperm.
Qed.
End Least.

(** *** [BTreeMap] *)

Definition first_key {V} (m : gmap Z V) : option Z := least Z.le (elements (dom m)).

Definition first_entry {V} (m : gmap Z V) : option (Z * V) :=
  k ← first_key m; v ← m !! k; Some (k, v).

Lemma first_entry_spec {V} (m : gmap Z V) k v :
  first_entry m = Some (k, v) ->
  m !! k = Some v /\ forall k', is_Some (m !! k') -> k <= k'.
Proof.
  unfold first_entry, first_key. intros H.
  apply bind_Some in H as (k0 & Hk & H). apply least_spec in Hk as [_ Hle]; [|apply _..].
  apply bind_Some in H as (v0 & Hv & H). simplify_eq. split; [done|].
  intros k' Hk'. apply Hle. by rewrite elem_of_elements, elem_of_dom.
Qed.

Lemma first_entry_some {V} (m : gmap Z V) : m <> ∅ -> exists k v, first_entry m = Some (k, v).
Proof.
  intros Hm. unfold first_entry, first_key.
  destruct (least Z.le (elements (dom m))) as [k|] eqn:Hk.
  - apply least_spec in Hk as [Hin _]; [|apply _..]. rewrite elem_of_elements, elem_of_dom in Hin.
    destruct Hin as [v Hv]. exists k, v. cbn. by rewrite Hv.
  - exfalso. apply least_none, elements_empty_inv in Hk. apply Hm. apply dom_empty_iff_L. by apply leibniz_equiv.
Qed.

(** *** [BTreeSet] *)

Definition set_first (X : gset Z) : option Z := least Z.le (elements X).

Lemma set_first_spec X x : set_first X = Some x -> x ∈ X /\ forall y, y ∈ X -> x <= y.
Proof.
  unfold set_first. intros [Hin Hle]%least_spec; [|apply _..]. split; [by rewrite <- elem_of_elements|].
  intros y Hy. apply Hle. by rewrite elem_of_elements.
Qed.

Lemma set_first_none X : set_first X = None -> X = ∅.
Proof. unfold set_first. intros H%least_none%elements_empty_inv. by apply leibniz_equiv. Qed.

(** The derived lexicographic order of a pair. *)
Definition pair_le (a b : Z * Z) : Prop := a.1 < b.1 \/ (a.1 = b.1 /\ a.2 <= b.2).

#[export] Instance pair_le_dec : RelDecision pair_le.
Proof. intros a b. unfold pair_le. apply _. Defined.

#[export] Instance pair_le_preorder : PreOrder pair_le.
Proof.
  split.
  - intros [a b]. unfold pair_le. cbn. lia.
  - intros [a b] [c d] [e f]. unfold pair_le. cbn. lia.
Qed.

#[export] Instance pair_le_total : Total pair_le.
Proof. intros [a b] [c d]. unfold pair_le. cbn. lia. Qed.

Definition pairs_first (X : gset (Z * Z)) : option (Z * Z) := least pair_le (elements X).

Lemma pairs_first_spec X x : pairs_first X = Some x -> x ∈ X /\ forall y, y ∈ X -> pair_le x y.
Proof.
  unfold pairs_first. intros [Hin Hle]%least_spec; [|apply _..]. split.
  - by rewrite <- elem_of_elements.
  - intros y Hy. apply Hle. by rewrite elem_of_elements.
Qed.

Lemma pairs_first_none X : pairs_first X = None -> X = ∅.
Proof.
  unfold pairs_first. intros H%least_none%elements_empty_inv. by apply leibniz_equiv.
Qed.

(** ** Partitioned slices *)

(** [slice::partition_point] on a slice whose prefix satisfies [p]. *)
Fixpoint partition_point {A} (p : A -> bool) (l : list A) : nat :=
  match l with
  | [] => O
  | x :: rest => if p x then S (partition_point p rest) else O
  end.

Lemma partition_point_le {A} (p : A -> bool) l : (partition_point p l <= length l)%nat.
Proof. induction l as [|x l IH]; cbn; [lia|]. destruct (p x); lia. Qed.

Lemma partition_point_snoc {A} (p : A -> bool) l x :
  p x = false -> partition_point p (l ++ [x]) = partition_point p l.
Proof. intros Hx. induction l as [|y l IH]; cbn; [by rewrite Hx|]. by rewrite IH. Qed.

Lemma partition_point_all {A} (p : A -> bool) l :
  Forall (fun x => p x = true) l -> partition_point p l = length l.
Proof. induction 1 as [|x l Hx _ IH]; [done|]. cbn. by rewrite Hx, IH. Qed.
