(* ===== verification/Bytes.v ===== *)
(** * Byte sequences

    Little-endian encoding of machine integers ([uN::to_le_bytes] and
    [uN::from_le_bytes]) and checked slices of byte arrays: [&l[off..off + n]]
    and [l[off..off + n].copy_from_slice(b)], where [None] is the panic of a
    range outside the array. *)

From S2P Require Import Prelude.

Definition to_le_bytes (count v : Z) : list Z := map (fun i => wrap 8 (shr v (8 * i))) (seqZ 0 count).
Definition from_le_bytes (l : list Z) : Z := foldr (fun b acc => Z.lor b (Z.shiftl acc 8)) 0 l.

Definition slice (l : list Z) (offset count : Z) : option (list Z) :=
  if (0 <=? offset) && (0 <=? count) && (offset + count <=? Z.of_nat (length l))
  then Some (take (Z.to_nat count) (drop (Z.to_nat offset) l)) else None.

Definition splice (l : list Z) (offset : Z) (bytes : list Z) : option (list Z) :=
  if (0 <=? offset) && (offset + Z.of_nat (length bytes) <=? Z.of_nat (length l))
  then Some (take (Z.to_nat offset) l ++ bytes ++ drop (Z.to_nat offset + length bytes) l) else None.

(** Bytes of an array: all in range. *)
Notation bytes_ok := (Forall (in_range 8)).

(** ** Encoding *)

Lemma from_le_bytes_range l : bytes_ok l -> in_range (8 * Z.of_nat (length l)) (from_le_bytes l).
Proof.
  induction 1 as [|b l Hb Hl IH]; [split; simpl; lia|].
  change (from_le_bytes (b :: l)) with (Z.lor b (Z.shiftl (from_le_bytes l) 8)).
  apply in_range_lor; [lia|apply (in_range_le 8); [simpl length; lia|done]|].
  rewrite Z.shiftl_mul_pow2 by lia. destruct IH as [IH1 IH2].
  replace (8 * Z.of_nat (length (b :: l))) with (8 * Z.of_nat (length l) + 8) by (simpl length; lia).
  split; [lia|]. rewrite Z.pow_add_r by lia. nia.
Qed.

Lemma to_le_bytes_range c v : bytes_ok (to_le_bytes c v).
Proof. apply Forall_forall. intros x [i [-> _]]%list_elem_of_fmap. apply wrap_range. lia. Qed.

Lemma to_le_bytes_length c v : length (to_le_bytes c v) = Z.to_nat c.
Proof. unfold to_le_bytes. by rewrite length_map, length_seqZ. Qed.

Lemma from_le_bytes_bits l i : bytes_ok l -> 0 <= i ->
  Z.testbit (from_le_bytes l) i = Z.testbit (default 0 (l !! Z.to_nat (i / 8))) (i mod 8).
Proof.
  intros Hl. revert i. induction Hl as [|b l Hb Hl IH]; intros i Hi.
  { simpl. by rewrite !Z.bits_0. }
  change (from_le_bytes (b :: l)) with (Z.lor b (Z.shiftl (from_le_bytes l) 8)).
  rewrite Z.lor_spec. destruct (Z.lt_ge_cases i 8).
  - rewrite Z.shiftl_spec_low, orb_false_r by lia. rewrite Z.div_small, Z.mod_small by lia. done.
  - rewrite Z.shiftl_spec_high, (testbit_high 8 b) by (done || lia). cbn [orb].
    rewrite IH by lia. assert (Hq : 1 <= i / 8) by (apply Z.div_le_lower_bound; lia).
    replace (i - 8) with (i + (-1) * 8) by lia. rewrite Z.div_add, Z_mod_plus_full by lia.
    replace (Z.to_nat (i / 8)) with (S (Z.to_nat (i / 8 + -1))) by lia. done.
Qed.

Lemma byte_bits v k j : 0 <= k -> 0 <= j < 8 -> Z.testbit (wrap 8 (shr v (8 * k))) j = Z.testbit v (8 * k + j).
Proof.
  intros Hk Hj. rewrite testbit_wrap by lia. unfold shr. rewrite Z.shiftr_spec by lia.
  destruct (Z.ltb_spec j 8); [|lia]. simpl. f_equal. lia.
Qed.

Lemma to_le_bytes_lookup c v k :
  0 <= k < c -> to_le_bytes c v !! Z.to_nat k = Some (wrap 8 (shr v (8 * k))).
Proof.
  intros Hk. unfold to_le_bytes. rewrite list_lookup_fmap, lookup_seqZ_lt by lia. simpl. do 3 f_equal. lia.
Qed.

(** Decoding an encoding truncates. *)
Lemma from_to_le_bytes c v : 0 <= c -> from_le_bytes (to_le_bytes c v) = wrap (8 * c) v.
Proof.
  intros Hc. apply Z.bits_inj'. intros i Hi. rewrite from_le_bytes_bits by (done || apply to_le_bytes_range).
  rewrite testbit_wrap by lia. pose proof (Z.mod_pos_bound i 8 ltac:(lia)). pose proof (Z.div_mod i 8 ltac:(lia)) as Hdm.
  assert (0 <= i / 8) by (apply Z.div_pos; lia).
  destruct (Z.ltb_spec i (8 * c)).
  - rewrite to_le_bytes_lookup by lia. cbn [from_option id]. rewrite byte_bits by lia. cbn [andb]. f_equal. lia.
  - rewrite lookup_ge_None_2 by (rewrite to_le_bytes_length; lia). cbn [from_option id andb]. apply Z.bits_0.
Qed.

(** Encoding a decoding is the identity. *)
Lemma to_from_le_bytes l : bytes_ok l -> to_le_bytes (Z.of_nat (length l)) (from_le_bytes l) = l.
Proof.
  intros Hl. apply list_eq. intros k. destruct (decide (k < length l)%nat) as [Hk|Hk].
  - replace k with (Z.to_nat (Z.of_nat k)) at 1 by lia. rewrite to_le_bytes_lookup by lia.
    destruct (lookup_lt_is_Some_2 l k Hk) as [b Hb]. rewrite Hb. f_equal.
    pose proof (Forall_lookup_1 _ _ _ _ Hl Hb) as Hr.
    apply (in_range_bits_ext 8); [lia|apply wrap_range; lia|done|]. intros i Hi.
    rewrite byte_bits by lia. rewrite from_le_bytes_bits by (done || lia).
    replace (8 * Z.of_nat k + i) with (i + Z.of_nat k * 8) by lia. rewrite Z.div_add, Z_mod_plus_full by lia.
    rewrite Z.div_small, Z.mod_small by lia. rewrite Z.add_0_l, Nat2Z.id, Hb. done.
  - rewrite !lookup_ge_None_2; [done|lia|rewrite to_le_bytes_length; lia].
Qed.

(** ** Slices *)

Lemma slice_some l off n :
  0 <= off -> 0 <= n -> off + n <= Z.of_nat (length l) ->
  slice l off n = Some (take (Z.to_nat n) (drop (Z.to_nat off) l)).
Proof. intros. unfold slice. rewrite !(proj2 (Z.leb_le _ _)) by lia. done. Qed.

Lemma slice_length l off n b : slice l off n = Some b -> length b = Z.to_nat n.
Proof.
  unfold slice. destruct (_ && _) eqn:E; [|done]. rewrite !andb_true_iff, !Z.leb_le in E. intros [= <-].
  rewrite length_take, length_drop. lia.
Qed.

Lemma slice_ok l off n b : bytes_ok l -> slice l off n = Some b -> bytes_ok b.
Proof.
  unfold slice. intros Hl. destruct (_ && _); [|done]. intros [= <-]. by apply Forall_take, Forall_drop.
Qed.

Lemma splice_some l off b :
  0 <= off -> off + Z.of_nat (length b) <= Z.of_nat (length l) ->
  splice l off b = Some (take (Z.to_nat off) l ++ b ++ drop (Z.to_nat off + length b) l).
Proof. intros. unfold splice. rewrite !(proj2 (Z.leb_le _ _)) by lia. done. Qed.

Lemma splice_inv l off b l' :
  splice l off b = Some l' ->
  0 <= off /\ off + Z.of_nat (length b) <= Z.of_nat (length l) /\
  l' = take (Z.to_nat off) l ++ b ++ drop (Z.to_nat off + length b) l.
Proof. unfold splice. destruct (_ && _) eqn:E; [|done]. rewrite andb_true_iff, !Z.leb_le in E. intros [= <-]. naive_solver. Qed.

Lemma splice_length l off b l' : splice l off b = Some l' -> length l' = length l.
Proof. intros (? & ? & ->)%splice_inv. rewrite !length_app, length_take, length_drop. lia. Qed.

Lemma splice_ok l off b l' : bytes_ok l -> bytes_ok b -> splice l off b = Some l' -> bytes_ok l'.
Proof. intros Hl Hb (? & ? & ->)%splice_inv. rewrite !Forall_app. by auto using Forall_take, Forall_drop. Qed.

(** The byte at [k] after a splice: a new one inside the range, the old one outside. *)
Lemma splice_lookup l off b l' k :
  splice l off b = Some l' -> 0 <= k ->
  l' !! Z.to_nat k = if (off <=? k) && (k <? off + Z.of_nat (length b))
                     then b !! Z.to_nat (k - off) else l !! Z.to_nat k.
Proof.
  intros (Ho & Hl & ->)%splice_inv Hk. destruct (Z.leb_spec off k) as [Hge|Hlt]; cbn [andb].
  - rewrite lookup_app_r by (rewrite length_take; lia). rewrite length_take, Nat.min_l by lia.
    destruct (Z.ltb_spec k (off + Z.of_nat (length b))).
    + rewrite lookup_app_l by lia. f_equal. lia.
    + rewrite lookup_app_r by lia. rewrite lookup_drop. f_equal. lia.
  - rewrite lookup_app_l by (rewrite length_take; lia). rewrite lookup_take. by rewrite decide_True by lia.
Qed.

Lemma slice_lookup l off n b k :
  slice l off n = Some b -> 0 <= k < n -> b !! Z.to_nat k = l !! Z.to_nat (off + k).
Proof.
  unfold slice. destruct (_ && _) eqn:E; [|done]. rewrite !andb_true_iff, !Z.leb_le in E. intros [= <-] Hk.
  rewrite lookup_take, decide_True, lookup_drop by lia. f_equal. lia.
Qed.

(** Reading what was just written. *)
Lemma slice_splice l off b l' :
  splice l off b = Some l' -> slice l' off (Z.of_nat (length b)) = Some b.
Proof.
  intros Hs. pose proof (splice_length _ _ _ _ Hs) as Hlen. pose proof (splice_inv _ _ _ _ Hs) as (Ho & Hl & ->).
  rewrite slice_some by lia. f_equal. rewrite drop_app_ge by (rewrite length_take; lia).
  rewrite length_take, Nat.min_l, Nat.sub_diag by lia. rewrite drop_0, Nat2Z.id. apply take_app_length.
Qed.
