(* ===== verification/Loops.v ===== *)
(** * Loops with early exit

    [loop p step s] runs [step] at most [p] times: [inl] goes on with a new
    state, [inr] leaves the loop.  The fuel is a binary number, so that a bound
    such as [2^64] can be given and an early exit still evaluates at once. *)

From S2P Require Import Prelude.

Section Loop.
Context {S A : Type} (step : S -> S + A).

Definition and_then (r : S + A) (k : S -> S + A) : S + A :=
  match r with inl s => k s | inr a => inr a end.

Fixpoint loop (p : positive) (s : S) : S + A :=
  match p with
  | xH => step s
  | xO p => and_then (loop p s) (loop p)
  | xI p => and_then (and_then (step s) (loop p)) (loop p)
  end.

Fixpoint loop_nat (n : nat) (s : S) : S + A :=
  match n with
  | O => inl s
  | Datatypes.S n => and_then (step s) (loop_nat n)
  end.

Lemma loop_nat_add n m s : loop_nat (n + m) s = and_then (loop_nat n s) (loop_nat m).
Proof.
  revert s. induction n as [|n IH]; intros s; [done|]. cbn [Nat.add loop_nat].
  destruct (step s) as [s'|a]; cbn [and_then]; [apply IH|done].
Qed.

Lemma loop_is_loop_nat p s : loop p s = loop_nat (Pos.to_nat p) s.
Proof.
  revert s. induction p as [p IH|p IH|]; intros s; cbn [loop].
  - rewrite Pos2Nat.inj_xI. cbn [loop_nat]. destruct (step s) as [s'|a]; cbn [and_then]; [|done].
    replace (2 * Pos.to_nat p)%nat with (Pos.to_nat p + Pos.to_nat p)%nat by lia.
    rewrite loop_nat_add, <- IH. destruct (loop p s'); cbn [and_then]; [apply IH|done].
  - rewrite Pos2Nat.inj_xO. replace (2 * Pos.to_nat p)%nat with (Pos.to_nat p + Pos.to_nat p)%nat by lia.
    rewrite loop_nat_add, <- IH. destruct (loop p s); cbn [and_then]; [apply IH|done].
  - change (loop_nat (Pos.to_nat 1) s) with (and_then (step s) (fun s => inl s)). unfold and_then. by case_match.
Qed.

(** An invariant of the turns holds when the loop leaves. *)
Lemma loop_invariant (I : S -> Prop) (Q : A -> Prop) (p : positive) s a :
  (forall s, I s -> match step s with inl s' => I s' | inr a => Q a end) -> I s -> loop p s = inr a -> Q a.
Proof.
  intros Hstep. rewrite loop_is_loop_nat. generalize (Pos.to_nat p) as n. intros n. revert s.
  induction n as [|n IH]; intros s HI; [done|]. cbn [loop_nat]. specialize (Hstep s HI).
  destruct (step s) as [s'|b]; cbn [and_then]; [by apply IH|]. by intros [= <-].
Qed.

(** A loop whose measure decreases and starts below the fuel leaves with a
    result: [I] is its invariant, [Q] the property of the result. *)
Lemma loop_terminates (I : S -> Prop) (Q : A -> Prop) (measure : S -> Z) (p : positive) s :
  (forall s, I s -> 0 <= measure s /\
     match step s with inl s' => I s' /\ measure s' < measure s | inr a => Q a end) ->
  I s -> measure s < Z.pos p -> exists a, loop p s = inr a /\ Q a.
Proof.
  intros Hstep. rewrite loop_is_loop_nat. replace (Z.pos p) with (Z.of_nat (Pos.to_nat p)) by lia.
  generalize (Pos.to_nat p) as n. intros n. revert s. induction n as [|n IH]; intros s HI Hm.
  - destruct (Hstep s HI). lia.
  - destruct (Hstep s HI) as [Hge Hs]. cbn [loop_nat]. destruct (step s) as [s'|a]; cbn [and_then].
    + destruct Hs. apply IH; [done|lia].
    + by exists a.
Qed.
End Loop.
