(* ===== verification/SchedLifecycle.v ===== *)
(** * Process and thread life cycles (crates/scheduler/src/lifecycle.rs)

    The two life-cycle state machines and their table-driven transition
    functions.  A transition function takes the current state and the target
    and returns the state it leaves behind with its result, as the [&mut]
    parameter of the source does. *)

From S2P Require Import Prelude.

Inductive ProcessLifecycle : Set :=
| PCreated | PRunning | PTerminating | PExited | PFaulted.

Inductive ThreadLifecycle : Set :=
| Created | Ready | Running | Waiting | Preempted | Suspended
| Terminating | Exited | Faulted.

#[export] Instance ProcessLifecycle_eq_dec : EqDecision ProcessLifecycle.
Proof. solve_decision. Defined.
#[export] Instance ThreadLifecycle_eq_dec : EqDecision ThreadLifecycle.
Proof. solve_decision. Defined.

Inductive LifecycleTransitionError (S : Type) : Type :=
| Duplicate (target : S)
| Illegal (current target : S).
Arguments Duplicate {S} target.
Arguments Illegal {S} current target.

Definition process_allowed (current target : ProcessLifecycle) : bool :=
  match current, target with
  | PCreated, PRunning | PCreated, PTerminating | PCreated, PFaulted
  | PRunning, PTerminating | PRunning, PFaulted
  | PTerminating, PExited => true
  | _, _ => false
  end.

Definition transition_process (target : ProcessLifecycle) :
    SM ProcessLifecycle (LifecycleTransitionError ProcessLifecycle) unit :=
  let! state := get in
  if decide (state = target) then throw (Duplicate target)
  else if process_allowed state target then put target
  else throw (Illegal state target).

Definition thread_allowed (current target : ThreadLifecycle) : bool :=
  match current, target with
  | Created, Ready | Created, Terminating
  | Ready, Running | Ready, Terminating | Ready, Suspended
  | Running, Ready | Running, Waiting | Running, Preempted
  | Running, Terminating | Running, Faulted
  | Waiting, Ready | Waiting, Terminating | Waiting, Faulted
  | Preempted, Ready | Preempted, Running | Preempted, Terminating
  | Suspended, Ready | Suspended, Terminating
  | Terminating, Exited => true
  | _, _ => false
  end.

Definition transition_thread (target : ThreadLifecycle) :
    SM ThreadLifecycle (LifecycleTransitionError ThreadLifecycle) unit :=
  let! state := get in
  if decide (state = target) then throw (Duplicate target)
  else if thread_allowed state target then put target
  else throw (Illegal state target).

(** ** Runs of transition requests *)

(** The state reached by a sequence of transition requests, rejected requests
    included: a rejected request leaves whatever state it leaves. *)
Definition run_requests {S E} (step : S -> SM S E unit) (targets : list S) (s : S) : S :=
  foldl (fun cur t => snd (step t cur)) s targets.

(** Distance to the end of a process's life: every accepted request lowers it. *)
Definition process_rank (s : ProcessLifecycle) : nat :=
  match s with
  | PCreated => 3 | PRunning => 2 | PTerminating => 1 | PExited => 0 | PFaulted => 0
  end.

(** The number of requests of a sequence that are accepted. *)
Fixpoint accepted_requests (targets : list ProcessLifecycle) (s : ProcessLifecycle) : nat :=
  match targets with
  | [] => 0
  | t :: rest =>
    match transition_process t s with
    | (Ok _, s') => S (accepted_requests rest s')
    | (_, s') => accepted_requests rest s'
    end
  end.

Lemma transition_process_spec target s :
  transition_process target s =
    if decide (s = target) then (Err (Duplicate target), s)
    else if process_allowed s target then (Ok tt, target)
    else (Err (Illegal s target), s).
Proof. unfold transition_process, bind, get. repeat case_decide; by repeat case_match. Qed.

Lemma transition_thread_spec target s :
  transition_thread target s =
    if decide (s = target) then (Err (Duplicate target), s)
    else if thread_allowed s target then (Ok tt, target)
    else (Err (Illegal s target), s).
Proof. unfold transition_thread, bind, get. repeat case_decide; by repeat case_match. Qed.

Lemma transition_thread_ok target s :
  thread_allowed s target = true -> transition_thread target s = (Ok tt, target).
Proof.
  intros H. rewrite transition_thread_spec, H. case_decide; [|done].
  subst. by destruct target.
Qed.

Lemma transition_thread_inv target s s' :
  transition_thread target s = (Ok tt, s') -> thread_allowed s target = true /\ s' = target.
Proof. rewrite transition_thread_spec. repeat case_match; naive_solver. Qed.

Lemma process_accept_lowers_rank target s s' :
  transition_process target s = (Ok tt, s') -> (process_rank s' < process_rank s)%nat.
Proof.
  rewrite transition_process_spec. case_decide; [done|].
  destruct s, target; simpl; intros ?; simplify_eq; simpl; lia.
Qed.

(** A process accepts at most as many requests as its rank, so at most three
    from creation: its life cycle always ends. *)
Lemma accepted_requests_rank targets s :
  (accepted_requests targets s <= process_rank s)%nat.
Proof.
  revert s. induction targets as [|t rest IH]; intros s; simpl; [lia|].
  destruct (transition_process t s) as [r s'] eqn:Ht.
  destruct r as [[]|e|].
  - pose proof (process_accept_lowers_rank _ _ _ Ht). specialize (IH s'). lia.
  - rewrite transition_process_spec in Ht. repeat case_match; simplify_eq; auto.
  - rewrite transition_process_spec in Ht. by repeat case_match.
Qed.

Lemma thread_terminal_stuck target s :
  s = Exited \/ s = Faulted -> snd (transition_thread target s) = s.
Proof. rewrite transition_thread_spec. intros [-> | ->]; by destruct target. Qed.

Lemma run_requests_terminal targets s :
  s = Exited \/ s = Faulted -> run_requests transition_thread targets s = s.
Proof.
  intros Hs. induction targets as [|t rest IH]; simpl; [done|].
  unfold run_requests in *. simpl. by rewrite thread_terminal_stuck.
Qed.
