(* ===== verification/SchedTopology.v ===== *)
(** * Machine topology, priorities and core sets (crates/scheduler/src/topology.rs)

    Profiles and core sets keep their identifiers in sorted slices and answer
    membership with [slice::binary_search], modelled here as the halving loop
    of the Rust standard library on the remaining window. *)

From S2P Require Import Prelude.

Abbreviation ProcessId := Z (only parsing).
Abbreviation GuestThreadId := Z (only parsing).
Abbreviation VirtualCpuId := Z (only parsing).

Record PriorityRange := mkPriorityRange { highest : Z; lowest : Z }.

Record VirtualCpuDescriptor := mkVcpu { vcpu_id : VirtualCpuId; cluster : Z }.

#[export] Instance VirtualCpuDescriptor_eq_dec : EqDecision VirtualCpuDescriptor.
Proof. solve_decision. Defined.

Record MachineSchedulerProfile := mkProfile {
  vcpus_of : list VirtualCpuDescriptor;
  priorities : PriorityRange;
  default_timeslice_instructions : Z;
}.

Record CoreSet := mkCoreSet { cores : list VirtualCpuId }.

#[export] Instance CoreSet_eq_dec : EqDecision CoreSet.
Proof. solve_decision. Defined.

Inductive MachineSchedulerProfileError : Type :=
| EmptyTopology
| DuplicateVirtualCpu (id : VirtualCpuId)
| InvalidPriorityRange (h l : Z)
| ZeroTimeslice.

Inductive CoreSetError : Type :=
| EmptyCoreSet
| UnknownCore (id : VirtualCpuId).

Definition priority_range_new (h l : Z) : Result MachineSchedulerProfileError PriorityRange :=
  if l <? h then Err (InvalidPriorityRange h l) else Ok (mkPriorityRange h l).

Definition priority_contains (r : PriorityRange) (priority : Z) : bool :=
  (highest r <=? priority) && (priority <=? lowest r).

(** [slice::binary_search]: [window] is the part of the slice still searched,
    [base] its index in the slice. *)
Fixpoint binary_search_from (fuel : nat) (window : list Z) (base : nat) (key : Z) : option nat :=
  match window with
  | [] => None
  | x :: rest =>
    match fuel, rest with
    | S fuel', _ :: _ =>
      let half := (length window / 2)%nat in
      if nth half window 0 >? key
      then binary_search_from fuel' (take (length window - half) window) base key
      else binary_search_from fuel' (drop half window) (base + half) key
    | _, _ => if x =? key then Some base else None
    end
  end.

Definition binary_search (slice : list Z) (key : Z) : option nat :=
  binary_search_from (length slice) slice 0 key.

Definition is_found (o : option nat) : bool :=
  match o with Some _ => true | None => false end.

Definition ids (p : list VirtualCpuDescriptor) : list VirtualCpuId := vcpu_id <$> p.

(** First adjacent pair with equal identifiers ([windows(2).find]). *)
Fixpoint adjacent_duplicate (l : list Z) : option Z :=
  match l with
  | x :: ((y :: _) as rest) => if x =? y then Some x else adjacent_duplicate rest
  | _ => None
  end.

Definition descriptor_le (a b : VirtualCpuDescriptor) : Prop := vcpu_id a <= vcpu_id b.
#[export] Instance descriptor_le_dec a b : Decision (descriptor_le a b).
Proof. unfold descriptor_le. apply _. Defined.

#[export] Instance descriptor_le_total : Total descriptor_le.
Proof. intros a b. unfold descriptor_le. lia. Qed.
#[export] Instance descriptor_le_trans : Transitive descriptor_le.
Proof. intros a b c. unfold descriptor_le. lia. Qed.

Definition profile_new (vcpus : list VirtualCpuDescriptor) (prio : PriorityRange)
    (timeslice : Z) : Result MachineSchedulerProfileError MachineSchedulerProfile :=
  match vcpus with
  | [] => Err EmptyTopology
  | _ =>
    if timeslice =? 0 then Err ZeroTimeslice
    else
      let sorted := merge_sort descriptor_le vcpus in
      match adjacent_duplicate (ids sorted) with
      | Some d => Err (DuplicateVirtualCpu d)
      | None => Ok (mkProfile sorted prio timeslice)
      end
  end.

Definition profile_contains (p : MachineSchedulerProfile) (id : VirtualCpuId) : bool :=
  is_found (binary_search (ids (vcpus_of p)) id).

Definition all_cores (p : MachineSchedulerProfile) : CoreSet :=
  mkCoreSet (ids (vcpus_of p)).

(** [Vec::dedup] *)
Fixpoint dedup (l : list Z) : list Z :=
  match l with
  | x :: rest =>
    match rest with
    | y :: _ => if x =? y then dedup rest else x :: dedup rest
    | [] => [x]
    end
  | [] => []
  end.

Definition core_set_new (p : MachineSchedulerProfile) (requested : list VirtualCpuId) :
    Result CoreSetError CoreSet :=
  let cs := dedup (merge_sort Z.le requested) in
  match cs with
  | [] => Err EmptyCoreSet
  | _ =>
    match List.find (fun c => negb (profile_contains p c)) cs with
    | Some c => Err (UnknownCore c)
    | None => Ok (mkCoreSet cs)
    end
  end.

Definition core_contains (s : CoreSet) (id : VirtualCpuId) : bool :=
  is_found (binary_search (cores s) id).

(** ** Well-formedness and lemmas *)

Definition strictly_sorted (l : list Z) : Prop := StronglySorted Z.lt l.

Definition profile_wf (p : MachineSchedulerProfile) : Prop :=
  strictly_sorted (ids (vcpus_of p)) /\ vcpus_of p <> [].

Definition core_set_wf (s : CoreSet) : Prop := strictly_sorted (cores s).

Lemma strictly_sorted_lookup l i j x y :
  strictly_sorted l -> l !! i = Some x -> l !! j = Some y -> (i < j)%nat -> x < y.
Proof.
  intros Hs. revert i j. induction Hs as [|a l Hs IH Hall]; intros i j Hi Hj Hij; [done|].
  destruct j as [|j]; [lia|]. destruct i as [|i]; simpl in *; simplify_eq.
  - rewrite Forall_forall in Hall. eapply Hall, list_elem_of_lookup_2, Hj.
  - eapply IH; eauto with lia.
Qed.

Lemma strictly_sorted_of_lookup l :
  (forall i j x y, l !! i = Some x -> l !! j = Some y -> (i < j)%nat -> x < y) ->
  strictly_sorted l.
Proof.
  induction l as [|a l IH]; intros H; constructor.
  - apply IH. intros i j x y Hi Hj ?. apply (H (S i) (S j)); simpl; auto with lia.
  - apply Forall_forall. intros x [i Hi]%list_elem_of_lookup.
    apply (H 0%nat (S i)); simpl; auto with lia.
Qed.

Lemma strictly_sorted_take n l : strictly_sorted l -> strictly_sorted (take n l).
Proof.
  intros Hs. apply strictly_sorted_of_lookup. intros i j x y Hi Hj ?.
  apply lookup_take_Some in Hi as [Hi _], Hj as [Hj _].
  by eapply strictly_sorted_lookup.
Qed.

Lemma strictly_sorted_drop n l : strictly_sorted l -> strictly_sorted (drop n l).
Proof.
  intros Hs. apply strictly_sorted_of_lookup. intros i j x y Hi Hj ?.
  rewrite lookup_drop in Hi, Hj. eapply strictly_sorted_lookup; eauto with lia.
Qed.

Lemma search_low half key w m :
  strictly_sorted w -> w !! half = Some m -> key < m -> (2 * half <= length w)%nat ->
  key ∈ take (length w - half) w <-> key ∈ w.
Proof.
  intros Hs Hm Hlt Hh. split.
  - intros Hin. rewrite <- (take_drop (length w - half) w). apply elem_of_app. by left.
  - intros [i Hi]%list_elem_of_lookup. apply list_elem_of_lookup. exists i.
    apply lookup_take_Some. split; [done|].
    destruct (decide (i < half)%nat); [lia|].
    destruct (decide (i = half)); [subst; simplify_eq; lia|].
    pose proof (strictly_sorted_lookup _ half i _ _ Hs Hm Hi ltac:(lia)). lia.
Qed.

Lemma search_high half key w m :
  strictly_sorted w -> w !! half = Some m -> m <= key ->
  key ∈ drop half w <-> key ∈ w.
Proof.
  intros Hs Hm Hle. split.
  - intros Hin. rewrite <- (take_drop half w). apply elem_of_app. by right.
  - intros [i Hi]%list_elem_of_lookup. apply list_elem_of_lookup.
    destruct (decide (i < half)%nat).
    + pose proof (strictly_sorted_lookup _ i half _ _ Hs Hi Hm ltac:(lia)). lia.
    + exists (i - half)%nat. rewrite lookup_drop. by replace (half + (i - half))%nat with i by lia.
Qed.

Lemma binary_search_from_found fuel window base key :
  (length window <= fuel)%nat -> strictly_sorted window ->
  is_Some (binary_search_from fuel window base key) <-> key ∈ window.
Proof.
  revert window base. induction fuel as [|fuel IH]; intros window base Hlen Hs.
  { destruct window; simpl in *; [|lia]. rewrite elem_of_nil. split; [by intros []|done]. }
  destruct window as [|x [|y rest]]; cbn [binary_search_from].
  { rewrite elem_of_nil. split; [by intros []|done]. }
  { rewrite list_elem_of_singleton. destruct (Z.eqb_spec x key); split; eauto; try congruence.
    by intros []. }
  set (w := x :: y :: rest) in *. set (half := (length w / 2)%nat).
  assert (Hhalf : (1 <= half < length w)%nat).
  { subst half w. cbn [length]. split.
    - apply Nat.div_le_lower_bound; lia.
    - apply Nat.div_lt; lia. }
  assert (Hh2 : (2 * half <= length w)%nat) by (subst half; apply Nat.Div0.mul_div_le).
  destruct (lookup_lt_is_Some_2 w half ltac:(lia)) as [m Hm].
  rewrite (nth_lookup_Some _ _ 0 _ Hm).
  destruct (Z.gtb_spec m key).
  - rewrite IH; [by eapply search_low|rewrite length_take; lia|by apply strictly_sorted_take].
  - rewrite IH; [by eapply search_high|rewrite length_drop; lia|by apply strictly_sorted_drop].
Qed.

Lemma binary_search_found slice key :
  strictly_sorted slice -> is_found (binary_search slice key) = true <-> key ∈ slice.
Proof.
  intros Hs. rewrite <- (binary_search_from_found (length slice) slice 0 key); [|lia|done].
  unfold is_found, binary_search.
  destruct (binary_search_from _ _ _ _); split; eauto; try done; by intros [].
Qed.

Lemma core_contains_spec s id : core_set_wf s -> core_contains s id = true <-> id ∈ cores s.
Proof. apply binary_search_found. Qed.

Lemma profile_contains_spec p id :
  profile_wf p -> profile_contains p id = true <-> id ∈ ids (vcpus_of p).
Proof. intros [H _]. by apply binary_search_found. Qed.

Lemma sorted_no_duplicate l :
  StronglySorted Z.le l -> adjacent_duplicate l = None -> strictly_sorted l.
Proof.
  induction 1 as [|x l Hs IH Hall]; [constructor|]. destruct l as [|y l].
  { constructor; constructor. }
  cbn [adjacent_duplicate]. destruct (Z.eqb_spec x y); [done|]. intros Hn.
  specialize (IH Hn). constructor; [done|].
  inversion Hall; inversion IH as [|? ? ? Hy]; subst. constructor; [lia|].
  eapply Forall_impl; [exact Hy|]. simpl. lia.
Qed.

Lemma dedup_elem x l : x ∈ dedup l <-> x ∈ l.
Proof.
  induction l as [|a l IH]; [done|]. destruct l as [|b l]; [done|].
  cbn [dedup] in *. destruct (Z.eqb_spec a b) as [->|Hne]; rewrite ?IH, ?elem_of_cons, ?IH;
    [naive_solver|]. by rewrite !elem_of_cons.
Qed.

Lemma dedup_sorted l : StronglySorted Z.le l -> strictly_sorted (dedup l).
Proof.
  induction 1 as [|x l Hs IH Hall]; [constructor|]. destruct l as [|y l].
  { constructor; constructor. }
  cbn [dedup] in *. destruct (Z.eqb_spec x y); [done|]. constructor; [done|].
  apply Forall_forall. intros z Hz. rewrite (dedup_elem z (y :: l)) in Hz.
  rewrite Forall_forall in Hall. pose proof (Hall z Hz) as Hxz.
  pose proof (Hall y ltac:(left)).
  apply elem_of_cons in Hz as [->|Hz]; [lia|].
  inversion Hs as [|? ? ? Hy]; subst. rewrite Forall_forall in Hy. specialize (Hy _ Hz). lia.
Qed.

Lemma find_none_forall {A} (f : A -> bool) l :
  List.find f l = None <-> forall x, x ∈ l -> f x = false.
Proof.
  split.
  - intros H x Hx. apply (List.find_none f l H). by apply list_elem_of_In.
  - intros H. destruct (List.find f l) eqn:E; [|done].
    apply List.find_some in E as [Hin Hf]. apply list_elem_of_In, H in Hin. congruence.
Qed.

Lemma profile_new_wf vcpus prio ts p :
  profile_new vcpus prio ts = Ok p -> profile_wf p.
Proof.
  unfold profile_new. destruct vcpus as [|v vs] eqn:Hv; [done|]. rewrite <- Hv.
  case_match; [done|]. case_match eqn:Hd; [done|]. intros ?; simplify_eq.
  split; simpl.
  - apply sorted_no_duplicate; [|done].
    pose proof (StronglySorted_merge_sort descriptor_le (v :: vs)) as Hs.
    unfold ids. clear Hd.
    induction Hs as [|a l Hs IH Hall]; simpl; constructor; [done|].
    by apply Forall_fmap.
  - intros Hnil. pose proof (merge_sort_Permutation descriptor_le (v :: vs)) as Hp.
    rewrite Hnil in Hp. by apply Permutation_nil_cons in Hp.
Qed.

Lemma core_set_new_wf p requested cs :
  core_set_new p requested = Ok cs ->
  core_set_wf cs /\ cores cs <> [] /\
  (forall id, id ∈ cores cs <-> id ∈ requested) /\
  (forall id, id ∈ cores cs -> profile_contains p id = true).
Proof.
  unfold core_set_new. set (l := dedup (merge_sort Z.le requested)).
  assert (Hel : forall id, id ∈ l <-> id ∈ requested).
  { intros id. unfold l. by rewrite dedup_elem, merge_sort_Permutation. }
  assert (Hs : strictly_sorted l) by (apply dedup_sorted, StronglySorted_merge_sort; apply _).
  clearbody l. destruct l as [|c l'] eqn:Hl; [done|]. rewrite <- Hl in *.
  case_match eqn:Hf; [done|]. intros ?; simplify_eq.
  rewrite find_none_forall in Hf. unfold core_set_wf. cbn [cores].
  repeat split; try done; try by apply Hel.
  intros id Hin. specialize (Hf id Hin). by apply negb_false_iff.
Qed.
