(* ===== verification/SchedState.v ===== *)
(** * The deterministic scheduler (crates/scheduler/src/scheduler.rs)

    The scheduler's data, and every command of [SchedulerState::apply] as a
    state method.  [threads] and [vcpus] are [BTreeMap]s, modelled as finite
    maps; [ready] is a [BTreeSet<ReadyKey>] that the code iterates in order,
    modelled as the list of its keys in increasing order with the set's
    [insert] and [remove].  The [expect]s and [debug_assert!]s of the source are
    kept and yield [Panic]. *)

From S2P Require Import Prelude SchedLifecycle SchedTopology.

Record ScheduledThreadConfig := mkConfig {
  process : ProcessId;
  thread : GuestThreadId;
  base_priority : Z;
  effective_priority : Z;
  ideal_vcpu : option VirtualCpuId;
  affinity : CoreSet;
}.

Record Lease := mkLease {
  lease_process : ProcessId;
  lease_thread : GuestThreadId;
  lease_vcpu : VirtualCpuId;
  lease_generation : Z;
}.
#[export] Instance Lease_eq_dec : EqDecision Lease.
Proof. solve_decision. Defined.

Record WakeToken := mkToken { token_thread : GuestThreadId; token_generation : Z }.
#[export] Instance WakeToken_eq_dec : EqDecision WakeToken.
Proof. solve_decision. Defined.

Inductive Readiness : Set := ReadinessReady | ReadinessPending.

Inductive Completion : Set := CReady | CPreempted | CWaiting | CExited | CFaulted.

Inductive MigrationEffect : Type :=
| NoEffect
| ClearOldLocalExclusive (old_vcpu : VirtualCpuId).

Inductive SchedulerCommand : Type :=
| Register (config : ScheduledThreadConfig)
| Unregister (id : GuestThreadId)
| MakeReady (id : GuestThreadId)
| SelectNext
| Select (vcpu : VirtualCpuId)
| Complete (lease : Lease) (outcome : Completion)
| RegisterWait (id : GuestThreadId) (readiness : Readiness)
| Wake (token : WakeToken)
| CancelWait (token : WakeToken)
| Terminate (id : GuestThreadId) (faulted : bool)
| Migrate (id : GuestThreadId) (ideal : option VirtualCpuId) (aff : CoreSet)
| SetPriority (id : GuestThreadId) (priority : Z)
| SetEffectivePriority (id : GuestThreadId) (priority : Z)
| SetActivity (id : GuestThreadId) (paused : bool).

Inductive SchedulerDecision : Type :=
| Registered (id : GuestThreadId)
| Unregistered (id : GuestThreadId)
| Enqueued (id : GuestThreadId) (sequence : Z)
| Selected (lease : option Lease)
| Completed (id : GuestThreadId)
| WaitRegistered (token : WakeToken)
| ReadyImmediately (id : GuestThreadId)
| Woken (id : GuestThreadId)
| WaitCancelled (id : GuestThreadId)
| Terminated (id : GuestThreadId)
| Migrated (id : GuestThreadId) (effect : MigrationEffect)
| PriorityChanged (id : GuestThreadId)
| ActivityChanged (id : GuestThreadId).

Inductive SchedulerError : Type :=
| DuplicateThread (id : GuestThreadId)
| UnknownThread (id : GuestThreadId)
| UnknownVirtualCpu (vcpu : VirtualCpuId)
| InvalidPriority (priority : Z)
| IdealOutsideAffinity (id : GuestThreadId) (ideal : VirtualCpuId)
| InvalidThreadState (id : GuestThreadId) (state : ThreadLifecycle)
| ThreadLeased (id : GuestThreadId)
| VirtualCpuBusy (vcpu : VirtualCpuId)
| StaleLease (lease : Lease)
| DuplicateWait (id : GuestThreadId)
| StaleWake (token : WakeToken)
| SequenceExhausted
| LeaseGenerationExhausted
| WakeGenerationExhausted.

Record ReadyKey := mkKey { key_priority : Z; key_sequence : Z; key_thread : GuestThreadId }.
#[export] Instance ReadyKey_eq_dec : EqDecision ReadyKey.
Proof. solve_decision. Defined.

(** [#[derive(Ord)]]: priority first, then sequence, then thread. *)
Definition key_lt (a b : ReadyKey) : Prop :=
  key_priority a < key_priority b \/
  (key_priority a = key_priority b /\
    (key_sequence a < key_sequence b \/
     (key_sequence a = key_sequence b /\ key_thread a < key_thread b))).
#[export] Instance key_lt_dec a b : Decision (key_lt a b).
Proof. unfold key_lt. apply _. Defined.

Record ScheduledThread := mkThread {
  config : ScheduledThreadConfig;
  lifecycle : ThreadLifecycle;
  ready_key : option ReadyKey;
  active_lease : option Lease;
  active_wait : option WakeToken;
  last_vcpu : option VirtualCpuId;
}.

Record VirtualCpuSlot := mkSlot { slot_lease : option Lease }.

Record SchedulerState := mkState {
  profile : MachineSchedulerProfile;
  threads : gmap Z ScheduledThread;
  ready : list ReadyKey;
  vcpus : gmap Z VirtualCpuSlot;
  next_sequence : Z;
  next_lease_generation : Z;
  next_wake_generation : Z;
}.

Definition new (p : MachineSchedulerProfile) : SchedulerState :=
  mkState p ∅ []
    (list_to_map ((fun d => (vcpu_id d, mkSlot None)) <$> vcpus_of p)) 1 1 1.

(** ** Field updates *)

Definition set_threads (f : gmap Z ScheduledThread -> gmap Z ScheduledThread) (s : SchedulerState) :=
  mkState (profile s) (f (threads s)) (ready s) (vcpus s)
    (next_sequence s) (next_lease_generation s) (next_wake_generation s).
Definition set_ready (l : list ReadyKey) (s : SchedulerState) :=
  mkState (profile s) (threads s) l (vcpus s)
    (next_sequence s) (next_lease_generation s) (next_wake_generation s).
Definition set_vcpus (f : gmap Z VirtualCpuSlot -> gmap Z VirtualCpuSlot) (s : SchedulerState) :=
  mkState (profile s) (threads s) (ready s) (f (vcpus s))
    (next_sequence s) (next_lease_generation s) (next_wake_generation s).
Definition set_next_sequence (n : Z) (s : SchedulerState) :=
  mkState (profile s) (threads s) (ready s) (vcpus s)
    n (next_lease_generation s) (next_wake_generation s).
Definition set_next_lease (n : Z) (s : SchedulerState) :=
  mkState (profile s) (threads s) (ready s) (vcpus s)
    (next_sequence s) n (next_wake_generation s).
Definition set_next_wake (n : Z) (s : SchedulerState) :=
  mkState (profile s) (threads s) (ready s) (vcpus s)
    (next_sequence s) (next_lease_generation s) n.

Definition with_lifecycle (lc : ThreadLifecycle) (t : ScheduledThread) :=
  mkThread (config t) lc (ready_key t) (active_lease t) (active_wait t) (last_vcpu t).
Definition with_ready_key (k : option ReadyKey) (t : ScheduledThread) :=
  mkThread (config t) (lifecycle t) k (active_lease t) (active_wait t) (last_vcpu t).
Definition with_lease (l : option Lease) (t : ScheduledThread) :=
  mkThread (config t) (lifecycle t) (ready_key t) l (active_wait t) (last_vcpu t).
Definition with_wait (w : option WakeToken) (t : ScheduledThread) :=
  mkThread (config t) (lifecycle t) (ready_key t) (active_lease t) w (last_vcpu t).
Definition with_last (v : option VirtualCpuId) (t : ScheduledThread) :=
  mkThread (config t) (lifecycle t) (ready_key t) (active_lease t) (active_wait t) v.
Definition with_config (c : ScheduledThreadConfig) (t : ScheduledThread) :=
  mkThread c (lifecycle t) (ready_key t) (active_lease t) (active_wait t) (last_vcpu t).

(** ** [BTreeSet::insert] and [BTreeSet::remove] on the ordered key list *)

Fixpoint ready_insert (k : ReadyKey) (l : list ReadyKey) : list ReadyKey :=
  match l with
  | [] => [k]
  | x :: rest =>
    if decide (key_lt k x) then k :: l
    else if decide (k = x) then l
    else x :: ready_insert k rest
  end.

Definition ready_remove (k : ReadyKey) (l : list ReadyKey) : list ReadyKey :=
  filter (fun x => x <> k) l.

Definition M := SM SchedulerState SchedulerError.

(** [let inserted = self.ready.insert(key); debug_assert!(inserted);] *)
Definition insert_ready (k : ReadyKey) : M unit :=
  let! s := get in
  do! debug_assert (bool_decide (k ∉ ready s)) in
  modify (set_ready (ready_insert k (ready s))).

(** [self.ready.remove(&key);] *)
Definition remove_ready (k : ReadyKey) : M unit :=
  let! s := get in
  modify (set_ready (ready_remove k (ready s))).

Definition remove_ready_opt (k : option ReadyKey) : M unit :=
  match k with Some key => remove_ready key | None => ret tt end.

(** [*self.threads.get_mut(&id).expect(..) = f(..)] *)
Definition update_thread (id : GuestThreadId) (f : ScheduledThread -> ScheduledThread) : M unit :=
  let! s := get in
  let! t := expect (threads s !! id) in
  modify (set_threads (insert id (f t))).

(** [transition_thread(&mut cell, target)] as a function on the cell's value. *)
Definition step_lifecycle (cur target : ThreadLifecycle) :
    Result (LifecycleTransitionError ThreadLifecycle) ThreadLifecycle :=
  match transition_thread target cur with
  | (Ok _, next) => Ok next
  | (Err e, _) => Err e
  | (Panic, _) => Panic
  end.

(** [transition_thread(&mut thread.lifecycle, target).expect(..)] in place. *)
Definition transition_in_place (id : GuestThreadId) (target : ThreadLifecycle) : M unit :=
  let! s := get in
  let! t := expect (threads s !! id) in
  let! lc := expect_ok (step_lifecycle (lifecycle t) target) in
  update_thread id (with_lifecycle lc).

(** [transition_thread(&mut copy, target).map_err(|_| InvalidThreadState ..)?] *)
Definition checked_step (id : GuestThreadId) (reported cur target : ThreadLifecycle) :
    M ThreadLifecycle :=
  match step_lifecycle cur target with
  | Ok lc => ret lc
  | Err _ => throw (InvalidThreadState id reported)
  | Panic => panic
  end.

(** ** Identifier allocation *)

Definition allocate_sequence : M Z :=
  let! s := get in
  let value := next_sequence s in
  let! next := ok_or (checked_add 64 value 1) SequenceExhausted in
  do! modify (set_next_sequence next) in
  ret value.

Definition allocate_lease_generation : M Z :=
  let! s := get in
  let value := next_lease_generation s in
  let! next := ok_or (checked_add 64 value 1) LeaseGenerationExhausted in
  do! modify (set_next_lease next) in
  ret value.

Definition allocate_wake_generation : M Z :=
  let! s := get in
  let value := next_wake_generation s in
  let! next := ok_or (checked_add 64 value 1) WakeGenerationExhausted in
  do! modify (set_next_wake next) in
  ret value.

(** ** Commands *)

Definition validate_policy (c : ScheduledThreadConfig) : M unit :=
  let! s := get in
  do! match List.find (fun v => negb (profile_contains (profile s) v)) (cores (affinity c)) with
      | Some v => throw (UnknownVirtualCpu v)
      | None => ret tt
      end in
  do! guard (negb (priority_contains (priorities (profile s)) (base_priority c)))
        (InvalidPriority (base_priority c)) in
  do! guard (negb (priority_contains (priorities (profile s)) (effective_priority c)))
        (InvalidPriority (effective_priority c)) in
  match ideal_vcpu c with
  | Some ideal =>
    guard (negb (core_contains (affinity c) ideal)) (IdealOutsideAffinity (thread c) ideal)
  | None => ret tt
  end.

Definition register (c : ScheduledThreadConfig) : M SchedulerDecision :=
  let! s := get in
  do! guard (bool_decide (is_Some (threads s !! thread c))) (DuplicateThread (thread c)) in
  do! validate_policy c in
  do! modify (set_threads (insert (thread c) (mkThread c Created None None None None))) in
  ret (Registered (thread c)).

Definition unregister (id : GuestThreadId) : M SchedulerDecision :=
  let! s := get in
  let! t := ok_or (threads s !! id) (UnknownThread id) in
  do! guard (bool_decide (is_Some (active_lease t))) (ThreadLeased id) in
  do! remove_ready_opt (ready_key t) in
  do! modify (set_threads (delete id)) in
  ret (Unregistered id).

Definition make_ready (id : GuestThreadId) : M SchedulerDecision :=
  let! s := get in
  let! t := ok_or (threads s !! id) (UnknownThread id) in
  let! lc := checked_step id (lifecycle t) (lifecycle t) Ready in
  let! sequence := allocate_sequence in
  let key := mkKey (effective_priority (config t)) sequence id in
  do! update_thread id (fun t => with_ready_key (Some key) (with_lifecycle lc t)) in
  do! insert_ready key in
  ret (Enqueued id sequence).

Definition slot_idle (s : SchedulerState) (v : VirtualCpuId) : bool :=
  match vcpus s !! v with
  | Some slot => bool_decide (slot_lease slot = None)
  | None => false
  end.

(** The test of [select]'s queue scan. *)
Definition eligible (s : SchedulerState) (vcpu : VirtualCpuId) (key : ReadyKey) : bool :=
  match threads s !! key_thread key with
  | Some t => core_contains (affinity (config t)) vcpu
  | None => false
  end.

Definition select (vcpu : VirtualCpuId) : M SchedulerDecision :=
  let! s := get in
  let! slot := ok_or (vcpus s !! vcpu) (UnknownVirtualCpu vcpu) in
  do! guard (bool_decide (is_Some (slot_lease slot))) (VirtualCpuBusy vcpu) in
  match List.find (eligible s vcpu) (ready s) with
  | None => ret (Selected None)
  | Some key =>
    let! generation := allocate_lease_generation in
    do! debug_assert (bool_decide (key ∈ ready s)) in
    do! remove_ready key in
    do! transition_in_place (key_thread key) Running in
    do! update_thread (key_thread key) (with_ready_key None) in
    let! s' := get in
    let! t := expect (threads s' !! key_thread key) in
    let lease := mkLease (process (config t)) (key_thread key) vcpu generation in
    do! update_thread (key_thread key) (with_lease (Some lease)) in
    let! s'' := get in
    let! _slot := expect (vcpus s'' !! vcpu) in
    do! modify (set_vcpus (insert vcpu (mkSlot (Some lease)))) in
    ret (Selected (Some lease))
  end.

Definition opt_filter (f : VirtualCpuId -> bool) (o : option VirtualCpuId) : option VirtualCpuId :=
  match o with Some v => if f v then Some v else None | None => None end.

Definition opt_or (a b : option VirtualCpuId) : option VirtualCpuId :=
  match a with Some v => Some v | None => b end.

(** A ready thread some idle virtual CPU may run. *)
Definition placeable (s : SchedulerState) (key : ReadyKey) : bool :=
  match threads s !! key_thread key with
  | Some t => existsb (slot_idle s) (cores (affinity (config t)))
  | None => false
  end.

(** [ideal.or(local).or_else(..)] in [select_next]. *)
Definition placement (s : SchedulerState) (t : ScheduledThread) : option VirtualCpuId :=
  let ideal := opt_filter (slot_idle s) (ideal_vcpu (config t)) in
  let local := opt_filter (fun v => core_contains (affinity (config t)) v && slot_idle s v)
                 (last_vcpu t) in
  opt_or (opt_or ideal local) (List.find (slot_idle s) (cores (affinity (config t)))).

Definition select_next : M SchedulerDecision :=
  let! s := get in
  match List.find (placeable s) (ready s) with
  | None => ret (Selected None)
  | Some key =>
    let! t := expect (threads s !! key_thread key) in
    let! vcpu := expect (placement s t) in
    select vcpu
  end.

Definition enqueue_existing_with_sequence (id : GuestThreadId) (sequence : Z) : M unit :=
  let! s := get in
  let! t := expect (threads s !! id) in
  let key := mkKey (effective_priority (config t)) sequence id in
  do! update_thread id (with_ready_key (Some key)) in
  insert_ready key.

Definition requeues (outcome : Completion) : bool :=
  match outcome with CReady | CPreempted => true | _ => false end.

Definition complete (lease : Lease) (outcome : Completion) : M SchedulerDecision :=
  let! s := get in
  let! t := ok_or (threads s !! lease_thread lease) (UnknownThread (lease_thread lease)) in
  do! guard (bool_decide (active_lease t <> Some lease)) (StaleLease lease) in
  do! guard (bool_decide
         ((vcpus s !! lease_vcpu lease) ≫= slot_lease <> Some lease)) (StaleLease lease) in
  let! ready_sequence :=
    (if requeues outcome
     then (let! n := allocate_sequence in ret (Some n))
     else ret None) in
  let! s1 := get in
  let! _slot := expect (vcpus s1 !! lease_vcpu lease) in
  do! modify (set_vcpus (insert (lease_vcpu lease) (mkSlot None))) in
  do! update_thread (lease_thread lease)
        (fun t => with_last (Some (lease_vcpu lease)) (with_lease None t)) in
  do! match outcome with
      | CReady => transition_in_place (lease_thread lease) Ready
      | CPreempted =>
        do! transition_in_place (lease_thread lease) Preempted in
        transition_in_place (lease_thread lease) Ready
      | CWaiting => transition_in_place (lease_thread lease) Waiting
      | CExited =>
        do! transition_in_place (lease_thread lease) Terminating in
        transition_in_place (lease_thread lease) Exited
      | CFaulted => transition_in_place (lease_thread lease) Faulted
      end in
  do! match ready_sequence with
      | Some n => enqueue_existing_with_sequence (lease_thread lease) n
      | None => ret tt
      end in
  ret (Completed (lease_thread lease)).

Definition register_wait (id : GuestThreadId) (readiness : Readiness) : M SchedulerDecision :=
  let! s := get in
  let! t := ok_or (threads s !! id) (UnknownThread id) in
  do! guard (bool_decide (lifecycle t <> Waiting)) (InvalidThreadState id (lifecycle t)) in
  do! guard (bool_decide (is_Some (active_wait t))) (DuplicateWait id) in
  match readiness with
  | ReadinessReady =>
    let! sequence := allocate_sequence in
    do! transition_in_place id Ready in
    do! enqueue_existing_with_sequence id sequence in
    ret (ReadyImmediately id)
  | ReadinessPending =>
    let! generation := allocate_wake_generation in
    let token := mkToken id generation in
    do! update_thread id (with_wait (Some token)) in
    ret (WaitRegistered token)
  end.

Definition finish_wait (token : WakeToken) (cancelled : bool) : M SchedulerDecision :=
  let! s := get in
  let! t := ok_or (threads s !! token_thread token) (UnknownThread (token_thread token)) in
  do! guard (bool_decide (active_wait t <> Some token)) (StaleWake token) in
  let! sequence := allocate_sequence in
  do! update_thread (token_thread token) (with_wait None) in
  do! transition_in_place (token_thread token) Ready in
  do! enqueue_existing_with_sequence (token_thread token) sequence in
  ret (if cancelled then WaitCancelled (token_thread token) else Woken (token_thread token)).

Definition migrate (id : GuestThreadId) (ideal : option VirtualCpuId) (aff : CoreSet) :
    M SchedulerDecision :=
  do! match ideal with
      | Some v => guard (negb (core_contains aff v)) (IdealOutsideAffinity id v)
      | None => ret tt
      end in
  let! s := get in
  do! match List.find (fun v => negb (profile_contains (profile s) v)) (cores aff) with
      | Some v => throw (UnknownVirtualCpu v)
      | None => ret tt
      end in
  let! t := ok_or (threads s !! id) (UnknownThread id) in
  do! guard (bool_decide (is_Some (active_lease t))) (ThreadLeased id) in
  let effect :=
    match last_vcpu t with
    | Some old => if core_contains aff old then NoEffect else ClearOldLocalExclusive old
    | None => NoEffect
    end in
  let c := config t in
  do! update_thread id (with_config (mkConfig (process c) (thread c) (base_priority c)
                          (effective_priority c) ideal aff)) in
  ret (Migrated id effect).

(** The part [set_priority] and [set_effective_priority] share: the old ready
    key leaves the queue, the configuration changes, and a queued thread is
    queued again under the new priority with its old sequence. *)
Definition change_priority (id : GuestThreadId) (priority : Z)
    (f : ScheduledThreadConfig -> ScheduledThreadConfig) : M SchedulerDecision :=
  let! s := get in
  do! guard (negb (priority_contains (priorities (profile s)) priority))
        (InvalidPriority priority) in
  let! t := ok_or (threads s !! id) (UnknownThread id) in
  let old_key := ready_key t in
  do! remove_ready_opt old_key in
  do! update_thread id (fun t => with_config (f (config t)) t) in
  do! match old_key with
      | Some k =>
        let key := mkKey priority (key_sequence k) (key_thread k) in
        do! update_thread id (with_ready_key (Some key)) in
        insert_ready key
      | None => ret tt
      end in
  ret (PriorityChanged id).

Definition set_priority (id : GuestThreadId) (priority : Z) : M SchedulerDecision :=
  change_priority id priority (fun c =>
    mkConfig (process c) (thread c) priority priority (ideal_vcpu c) (affinity c)).

Definition set_effective_priority (id : GuestThreadId) (priority : Z) : M SchedulerDecision :=
  change_priority id priority (fun c =>
    mkConfig (process c) (thread c) (base_priority c) priority (ideal_vcpu c) (affinity c)).

Definition set_activity (id : GuestThreadId) (paused : bool) : M SchedulerDecision :=
  let! s := get in
  let! t := ok_or (threads s !! id) (UnknownThread id) in
  let invalid := InvalidThreadState id (lifecycle t) in
  do! guard (bool_decide (is_Some (active_lease t))
             || (paused && bool_decide (lifecycle t = Suspended))
             || (negb paused && bool_decide (lifecycle t = Ready))) invalid in
  do! guard (paused && bool_decide (lifecycle t <> Ready)) invalid in
  do! guard (negb paused && bool_decide (lifecycle t <> Suspended)) invalid in
  do! (if paused then
         do! remove_ready_opt (ready_key t) in
         do! update_thread id (with_ready_key None) in
         transition_in_place id Suspended
       else
         let! sequence := allocate_sequence in
         do! transition_in_place id Ready in
         enqueue_existing_with_sequence id sequence) in
  ret (ActivityChanged id).

Definition terminate (id : GuestThreadId) (faulted : bool) : M SchedulerDecision :=
  let! s := get in
  let! t := ok_or (threads s !! id) (UnknownThread id) in
  do! guard (bool_decide (is_Some (active_lease t))) (ThreadLeased id) in
  do! guard (bool_decide (lifecycle t = Exited) || bool_decide (lifecycle t = Faulted))
        (InvalidThreadState id (lifecycle t)) in
  let! lc :=
    (if faulted then checked_step id (lifecycle t) (lifecycle t) Faulted
     else
       let! lc1 := checked_step id (lifecycle t) (lifecycle t) Terminating in
       expect_ok (step_lifecycle lc1 Exited)) in
  do! remove_ready_opt (ready_key t) in
  do! update_thread id
        (fun t => with_lifecycle lc (with_wait None (with_ready_key None t))) in
  ret (Terminated id).

Definition apply (command : SchedulerCommand) : M SchedulerDecision :=
  match command with
  | Register c => register c
  | Unregister id => unregister id
  | MakeReady id => make_ready id
  | SelectNext => select_next
  | Select v => select v
  | Complete l o => complete l o
  | RegisterWait id r => register_wait id r
  | Wake token => finish_wait token false
  | CancelWait token => finish_wait token true
  | Terminate id f => terminate id f
  | Migrate id ideal aff => migrate id ideal aff
  | SetPriority id p => set_priority id p
  | SetEffectivePriority id p => set_effective_priority id p
  | SetActivity id p => set_activity id p
  end.

(** ** Queries *)

Record ScheduledThreadView := mkView {
  view_process : ProcessId;
  view_thread : GuestThreadId;
  view_lifecycle : ThreadLifecycle;
  view_base_priority : Z;
  view_effective_priority : Z;
  view_ideal_vcpu : option VirtualCpuId;
  view_affinity : CoreSet;
  view_last_vcpu : option VirtualCpuId;
  view_paused : bool;
  view_active_wait : option WakeToken;
}.

Definition thread_view (s : SchedulerState) (id : GuestThreadId) : option ScheduledThreadView :=
  (fun t => mkView (process (config t)) (thread (config t)) (lifecycle t)
     (base_priority (config t)) (effective_priority (config t)) (ideal_vcpu (config t))
     (affinity (config t)) (last_vcpu t) (bool_decide (lifecycle t = Suspended))
     (active_wait t)) <$> threads s !! id.

Definition lease_for_vcpu (s : SchedulerState) (id : VirtualCpuId) : option Lease :=
  vcpus s !! id ≫= slot_lease.

Definition idle_vcpus (s : SchedulerState) : list VirtualCpuId :=
  fst <$> filter (fun e => slot_lease (snd e) = None) (btree_iter (vcpus s)).

Definition active_leases (s : SchedulerState) : list Lease :=
  omap (fun e => slot_lease (snd e)) (btree_iter (vcpus s)).

Definition thread_count (s : SchedulerState) : nat := size (threads s).

Definition active_waits (s : SchedulerState) : list WakeToken :=
  omap (fun e => active_wait (snd e)) (btree_iter (threads s)).

Definition active_wait_count (s : SchedulerState) : nat :=
  length (filter (fun e => is_Some (active_wait (snd e))) (btree_iter (threads s))).
