(* ===== verification/SchedInv.v ===== *)
(** * The scheduler's invariant and its preservation

    [frame o ...] is the invariant of the whole state when [o = None], and the
    invariant of everything but thread [id] when [o = Some id]: no queue key and
    no lease mentions [id].  A command detaches the thread it works on
    ([detach_*]), computes its new record, and attaches it again ([attach_*]);
    each command's preservation proof is a sequence of these steps. *)

From S2P Require Import Prelude SchedLifecycle SchedTopology SchedState.

(** ** Per-thread well-formedness *)

Record policy_ok (p : MachineSchedulerProfile) (c : ScheduledThreadConfig) : Prop := {
  po_affinity_sorted : core_set_wf (affinity c);
  po_affinity_known : forall v, v ∈ cores (affinity c) -> profile_contains p v = true;
  po_base : priority_contains (priorities p) (base_priority c) = true;
  po_effective : priority_contains (priorities p) (effective_priority c) = true;
  po_ideal : forall v, ideal_vcpu c = Some v -> v ∈ cores (affinity c);
}.

Record lease_ok (vc : gmap Z VirtualCpuSlot) (nl : Z) (id : Z) (c : ScheduledThreadConfig)
    (l : Lease) : Prop := {
  lo_slot : vc !! lease_vcpu l = Some (mkSlot (Some l));
  lo_thread : lease_thread l = id;
  lo_process : lease_process l = process c;
  lo_generation : lease_generation l < nl;
  lo_affinity : lease_vcpu l ∈ cores (affinity c);
}.

Record key_ok (rd : list ReadyKey) (id : Z) (c : ScheduledThreadConfig) (k : ReadyKey) : Prop := {
  ko_queued : k ∈ rd;
  ko_thread : key_thread k = id;
  ko_priority : key_priority k = effective_priority c;
}.

Definition token_ok (nw id : Z) (w : WakeToken) : Prop :=
  token_thread w = id /\ token_generation w < nw.

(** What a thread's life-cycle state says about its key, lease and wait. *)
Definition links_ok (rd : list ReadyKey) (vc : gmap Z VirtualCpuSlot) (nl nw id : Z)
    (t : ScheduledThread) : Prop :=
  match lifecycle t with
  | Ready => active_lease t = None /\ active_wait t = None /\
      exists k, ready_key t = Some k /\ key_ok rd id (config t) k
  | Running => ready_key t = None /\ active_wait t = None /\
      exists l, active_lease t = Some l /\ lease_ok vc nl id (config t) l
  | Waiting => ready_key t = None /\ active_lease t = None /\
      forall w, active_wait t = Some w -> token_ok nw id w
  | Created | Suspended | Exited | Faulted =>
      ready_key t = None /\ active_lease t = None /\ active_wait t = None
  | Preempted | Terminating => False
  end.

Lemma links_queued rd vc nl nw id t k :
  links_ok rd vc nl nw id t -> ready_key t = Some k ->
  lifecycle t = Ready /\ active_lease t = None /\ active_wait t = None /\
  key_ok rd id (config t) k.
Proof.
  unfold links_ok. intros Hl Hk. destruct (lifecycle t); try (destruct Hl as (? & ? & ?); congruence); try done.
  destruct Hl as (? & ? & k' & ? & ?). by simplify_eq.
Qed.

Lemma links_leased rd vc nl nw id t l :
  links_ok rd vc nl nw id t -> active_lease t = Some l ->
  lifecycle t = Running /\ ready_key t = None /\ active_wait t = None /\
  lease_ok vc nl id (config t) l.
Proof.
  unfold links_ok. intros Hl Hk. destruct (lifecycle t); try (destruct Hl as (? & ? & ?); congruence); try done.
  destruct Hl as (? & ? & l' & ? & ?). by simplify_eq.
Qed.

Lemma links_waiting rd vc nl nw id t w :
  links_ok rd vc nl nw id t -> active_wait t = Some w ->
  lifecycle t = Waiting /\ ready_key t = None /\ active_lease t = None /\ token_ok nw id w.
Proof.
  unfold links_ok. intros Hl Hk. destruct (lifecycle t); try (destruct Hl as (? & ? & ?); congruence); try done.
  destruct Hl as (? & ? & ?). eauto.
Qed.

Record thread_ok p rd vc nl nw (id : Z) (t : ScheduledThread) : Prop := {
  to_id : thread (config t) = id;
  to_policy : policy_ok p (config t);
  to_links : links_ok rd vc nl nw id t;
}.

(** ** The invariant, possibly excluding one thread *)

Record frame (o : option Z) (p : MachineSchedulerProfile) (ths : gmap Z ScheduledThread)
    (rd : list ReadyKey) (vc : gmap Z VirtualCpuSlot) (ns nl nw : Z) : Prop := {
  fr_profile : profile_wf p;
  fr_vcpus : forall v, is_Some (vc !! v) <-> v ∈ ids (vcpus_of p);
  fr_sorted : StronglySorted key_lt rd;
  fr_bound : forall k, k ∈ rd -> key_sequence k < ns;
  fr_inj : forall k1 k2, k1 ∈ rd -> k2 ∈ rd -> key_sequence k1 = key_sequence k2 -> k1 = k2;
  fr_owner : forall k, k ∈ rd -> Some (key_thread k) <> o /\
    exists t, ths !! key_thread k = Some t /\ ready_key t = Some k;
  fr_slots : forall v l, vc !! v = Some (mkSlot (Some l)) ->
    Some (lease_thread l) <> o /\ lease_vcpu l = v /\
    exists t, ths !! lease_thread l = Some t /\ active_lease t = Some l;
  fr_threads : forall i t, Some i <> o -> ths !! i = Some t -> thread_ok p rd vc nl nw i t;
}.

Definition wf (s : SchedulerState) : Prop :=
  frame None (profile s) (threads s) (ready s) (vcpus s)
    (next_sequence s) (next_lease_generation s) (next_wake_generation s).

(** ** The ordered key list *)

#[export] Instance key_lt_trans : Transitive key_lt.
Proof. intros a b c. unfold key_lt. lia. Qed.

Lemma key_lt_irrefl k : ~ key_lt k k.
Proof. unfold key_lt. lia. Qed.

Lemma key_lt_total a b : key_lt a b \/ a = b \/ key_lt b a.
Proof.
  destruct a as [p1 s1 t1], b as [p2 s2 t2]. unfold key_lt; simpl.
  destruct (Z.lt_trichotomy p1 p2) as [|[->|]]; [lia| |lia].
  destruct (Z.lt_trichotomy s1 s2) as [|[->|]]; [lia| |lia].
  destruct (Z.lt_trichotomy t1 t2) as [|[->|]]; [lia|auto|lia].
Qed.

Lemma ready_insert_elem x k l : x ∈ ready_insert k l <-> x = k \/ x ∈ l.
Proof.
  induction l as [|y l IH]; cbn [ready_insert].
  { rewrite list_elem_of_singleton, elem_of_nil. tauto. }
  case_decide; [by rewrite elem_of_cons|]. case_decide as He.
  { subst. rewrite !elem_of_cons. tauto. }
  rewrite !elem_of_cons, IH. tauto.
Qed.

Lemma ready_insert_sorted k l :
  StronglySorted key_lt l -> StronglySorted key_lt (ready_insert k l).
Proof.
  induction 1 as [|x l Hs IH Hall]; cbn [ready_insert].
  { repeat constructor. }
  case_decide as Hlt.
  { constructor; [by constructor|]. constructor; [done|].
    eapply Forall_impl; [exact Hall|]. intros y Hy. by etrans. }
  case_decide as He; [by constructor|].
  constructor; [done|]. apply Forall_forall. intros y [->|Hy]%ready_insert_elem.
  - destruct (key_lt_total k x) as [|[|]]; done.
  - by eapply Forall_forall in Hall.
Qed.

Lemma ready_remove_elem x k l : x ∈ ready_remove k l <-> x <> k /\ x ∈ l.
Proof. unfold ready_remove. by rewrite list_elem_of_filter. Qed.

Lemma ready_remove_sorted k l :
  StronglySorted key_lt l -> StronglySorted key_lt (ready_remove k l).
Proof.
  unfold ready_remove. induction 1 as [|x l Hs IH Hall]; [constructor|].
  rewrite filter_cons. case_decide; [|done]. constructor; [done|].
  apply Forall_forall. intros y [_ Hy]%list_elem_of_filter.
  by eapply Forall_forall in Hall.
Qed.

(** The first key of a sorted queue satisfying a test is the least such key. *)
Lemma find_sorted_least (f : ReadyKey -> bool) l k :
  StronglySorted key_lt l -> List.find f l = Some k ->
  k ∈ l /\ f k = true /\ forall k', k' ∈ l -> f k' = true -> k' = k \/ key_lt k k'.
Proof.
  induction 1 as [|x l Hs IH Hall]; simpl; [done|]. destruct (f x) eqn:Hf.
  - intros ?; simplify_eq. split; [left|]. split; [done|].
    intros k' [->|Hin]%elem_of_cons _; [by left|]. right.
    by eapply Forall_forall in Hall.
  - intros Hk. destruct (IH Hk) as (Hin & Hfk & Hmin). split; [by right|]. split; [done|].
    intros k' [->|Hin']%elem_of_cons Hk'; [congruence|auto].
Qed.

(** Overwriting a slot that exists keeps the map's domain. *)
Lemma slot_overwrite_dom (vc : gmap Z VirtualCpuSlot) v v' old fresh :
  vc !! v' = Some old -> is_Some (<[v' := fresh]> vc !! v) <-> is_Some (vc !! v).
Proof.
  intros Hv'. destruct (decide (v = v')) as [->|].
  - rewrite lookup_insert_eq, Hv'. by split.
  - by rewrite lookup_insert_ne.
Qed.

(** ** Detaching and attaching a thread *)

(** A record without a link and a record with one belong to different threads. *)
Lemma distinct_threads {A} (f : ScheduledThread -> option A)
    (ths : gmap Z ScheduledThread) i id t t' x :
  ths !! id = Some t -> f t = None -> ths !! i = Some t' -> f t' = Some x ->
  Some i <> Some id.
Proof. intros Ht Hf Ht' Hf' [= ->]. rewrite Ht in Ht'. by simplify_eq. Qed.

Section Frames.
Context {p : MachineSchedulerProfile} {ths : gmap Z ScheduledThread}
  {rd : list ReadyKey} {vc : gmap Z VirtualCpuSlot} {ns nl nw : Z}.

Lemma thread_ok_transport rd' vc' nl' nw' i t :
  (forall k, ready_key t = Some k -> k ∈ rd -> k ∈ rd') ->
  (forall l, active_lease t = Some l -> vc !! lease_vcpu l = Some (mkSlot (Some l)) ->
     vc' !! lease_vcpu l = Some (mkSlot (Some l))) ->
  nl <= nl' -> nw <= nw' ->
  thread_ok p rd vc nl nw i t -> thread_ok p rd' vc' nl' nw' i t.
Proof.
  intros Hrd Hvc Hnl Hnw [Hid Hp Hl]. split; [done..|].
  unfold links_ok in *. destruct (lifecycle t); try done.
  - destruct Hl as (? & ? & k & Hk & [Hq ? ?]). repeat split; try done.
    exists k. split; [done|]. split; auto.
  - destruct Hl as (? & ? & l & Hl & [? ? ? ? ?]). repeat split; try done.
    exists l. split; [done|]. split; auto with lia.
  - destruct Hl as (? & ? & Hw). repeat split; try done; intros; apply Hw in H1; [apply H1|].
    destruct H1. lia.
Qed.

Lemma frame_counters o ns' nl' nw' :
  ns <= ns' -> nl <= nl' -> nw <= nw' ->
  frame o p ths rd vc ns nl nw -> frame o p ths rd vc ns' nl' nw'.
Proof.
  intros ? ? ? [? ? ? Hb ? ? ? Ht]. split; try done.
  - intros k Hk. apply Hb in Hk. lia.
  - intros i t Hi Hit. eapply thread_ok_transport; [..|by eapply Ht]; auto.
Qed.

(** A thread that is neither queued nor leased is not mentioned anywhere. *)
Lemma detach_idle id t :
  frame None p ths rd vc ns nl nw -> ths !! id = Some t ->
  ready_key t = None -> active_lease t = None ->
  frame (Some id) p ths rd vc ns nl nw.
Proof.
  intros [Hp Hv Hs Hb Hi Ho Hsl Ht] Hid Hk Hl. split; try done.
  - intros k Hin. destruct (Ho k Hin) as (_ & t' & Ht' & Hk').
    split; [exact (distinct_threads ready_key _ _ _ _ _ _ Hid Hk Ht' Hk')|eauto].
  - intros v l Hin. destruct (Hsl v l Hin) as (_ & ? & t' & Ht' & Hl').
    split; [exact (distinct_threads active_lease _ _ _ _ _ _ Hid Hl Ht' Hl')|eauto].
  - intros i t' _ Hi'. by apply Ht.
Qed.

(** A queued thread is detached by removing its key. *)
Lemma detach_ready id t k :
  frame None p ths rd vc ns nl nw -> ths !! id = Some t -> ready_key t = Some k ->
  frame (Some id) p ths (ready_remove k rd) vc ns nl nw.
Proof.
  intros [Hp Hv Hs Hb Hi Ho Hsl Ht] Hid Hk.
  pose proof (Ht id t ltac:(done) Hid) as [_ _ Hlinks].
  destruct (links_queued _ _ _ _ _ _ _ Hlinks Hk) as (_ & Hl & _ & [Hin Hkt _]).
  split; try done.
  - by apply ready_remove_sorted.
  - intros k' [_ Hk']%ready_remove_elem. auto.
  - intros k1 k2 [_ H1]%ready_remove_elem [_ H2]%ready_remove_elem. auto.
  - intros k' [Hne Hk']%ready_remove_elem. destruct (Ho k' Hk') as (_ & t' & Ht' & Hk2).
    split; [|eauto]. intros [= He]. rewrite He, Hid in Ht'. simplify_eq.
  - intros v l Hvl. destruct (Hsl v l Hvl) as (_ & ? & t' & Ht' & Hl').
    split; [exact (distinct_threads active_lease _ _ _ _ _ _ Hid Hl Ht' Hl')|eauto].
  - intros i t' Hi' Hit. eapply thread_ok_transport; [..|by eapply Ht]; try lia; auto.
    intros k' Hk' Hin'. apply ready_remove_elem. split; [|done]. intros ->.
    pose proof (Ht i t' ltac:(done) Hit) as [_ _ Hl2].
    destruct (links_queued _ _ _ _ _ _ _ Hl2 Hk') as (_ & _ & _ & [_ Hkt' _]).
    apply Hi'. by rewrite <- Hkt, Hkt'.
Qed.

(** A running thread is detached by clearing its virtual CPU's slot. *)
Lemma detach_running id t l :
  frame None p ths rd vc ns nl nw -> ths !! id = Some t -> active_lease t = Some l ->
  frame (Some id) p ths rd (<[lease_vcpu l := mkSlot None]> vc) ns nl nw.
Proof.
  intros [Hp Hv Hs Hb Hi Ho Hsl Ht] Hid Hl.
  pose proof (Ht id t ltac:(done) Hid) as [_ _ Hlinks].
  destruct (links_leased _ _ _ _ _ _ _ Hlinks Hl) as (_ & Hk & _ & [Hslot Hlt _ _ _]).
  split; try done.
  - intros v. rewrite <- Hv. by apply (slot_overwrite_dom _ _ _ (mkSlot (Some l))).
  - intros k Hin. destruct (Ho k Hin) as (_ & t' & Ht' & Hk').
    split; [exact (distinct_threads ready_key _ _ _ _ _ _ Hid Hk Ht' Hk')|eauto].
  - intros v l' [[_ ?]|[Hne Hvl]]%lookup_insert_Some; [done|].
    destruct (Hsl v l' Hvl) as (_ & Hv' & t' & Ht' & Hl'). split; [|eauto].
    intros [= He]. rewrite He in Ht'. simplify_eq.
  - intros i t' Hi' Hit. eapply thread_ok_transport; [..|by eapply Ht]; try lia; auto.
    intros l' Hl' Hvl'. rewrite lookup_insert_ne; [done|]. intros Heq.
    rewrite <- Heq, Hslot in Hvl'. simplify_eq.
    pose proof (Ht i t' ltac:(done) Hit) as [_ _ Hlk].
    destruct (links_leased _ _ _ _ _ _ _ Hlk Hl') as (_ & _ & _ & [_ Hlt' _ _ _]).
    apply Hi'. by rewrite Hlt'.
Qed.

(** Changing the detached thread's record, or removing it, keeps the frame. *)
Lemma frame_insert id t :
  frame (Some id) p ths rd vc ns nl nw -> frame (Some id) p (<[id := t]> ths) rd vc ns nl nw.
Proof.
  intros [Hp Hv Hs Hb Hi Ho Hsl Ht]. split; try done.
  - intros k Hk. destruct (Ho k Hk) as (Hne & t' & ? & ?). split; [done|]. exists t'.
    rewrite lookup_insert_ne by (intros ->; by apply Hne). eauto.
  - intros v l Hl. destruct (Hsl v l Hl) as (Hne & ? & t' & ? & ?). split_and!; try done.
    exists t'. rewrite lookup_insert_ne by (intros ->; by apply Hne). eauto.
  - intros i t' Hne. rewrite lookup_insert_ne by (intros ->; by apply Hne). auto.
Qed.

Lemma attach_delete id :
  frame (Some id) p ths rd vc ns nl nw -> frame None p (delete id ths) rd vc ns nl nw.
Proof.
  intros [Hp Hv Hs Hb Hi Ho Hsl Ht]. split; try done.
  - intros k Hk. destruct (Ho k Hk) as (Hne & t' & ? & ?). split; [done|]. exists t'.
    rewrite lookup_delete_ne by (intros ->; by apply Hne). eauto.
  - intros v l Hl. destruct (Hsl v l Hl) as (Hne & ? & t' & ? & ?). split_and!; try done.
    exists t'. rewrite lookup_delete_ne by (intros ->; by apply Hne). eauto.
  - intros i t' _ [Hne Hit]%lookup_delete_Some. apply Ht; [by intros [= ->]|done].
Qed.

Lemma attach_idle id t :
  frame (Some id) p ths rd vc ns nl nw -> thread_ok p rd vc nl nw id t ->
  ready_key t = None -> active_lease t = None ->
  frame None p (<[id := t]> ths) rd vc ns nl nw.
Proof.
  intros Hf Hok Hk Hl. pose proof (frame_insert id t Hf) as [? ? ? ? ? Ho Hsl _].
  split; try done.
  - intros k Hin. destruct (Ho k Hin) as [_ ?]. done.
  - intros v l Hvl. destruct (Hsl v l Hvl) as (_ & ?). done.
  - intros i t' _ [[-> ->]|[Hne Hit]]%lookup_insert_Some; [done|].
    apply (fr_threads _ _ _ _ _ _ _ _ Hf); [by intros [= ->]|done].
Qed.

Lemma attach_ready id t k :
  frame (Some id) p ths rd vc ns nl nw ->
  thread (config t) = id -> policy_ok p (config t) ->
  lifecycle t = Ready -> active_lease t = None -> active_wait t = None ->
  ready_key t = Some k -> key_thread k = id ->
  key_priority k = effective_priority (config t) ->
  key_sequence k < ns -> (forall k', k' ∈ rd -> key_sequence k' <> key_sequence k) ->
  frame None p (<[id := t]> ths) (ready_insert k rd) vc ns nl nw.
Proof.
  intros Hf Hid Hp Hlc Hl Hw Hk Hkt Hkp Hks Hfresh.
  pose proof (frame_insert id t Hf) as [? ? Hs Hb Hi Ho Hsl _]. split; try done.
  - by apply ready_insert_sorted.
  - intros k' [->|Hk']%ready_insert_elem; auto.
  - intros k1 k2 [->|H1]%ready_insert_elem [->|H2]%ready_insert_elem Heq; auto.
    + by destruct (Hfresh k2).
    + by destruct (Hfresh k1).
  - intros k' [->|Hk']%ready_insert_elem.
    + split; [done|]. exists t. by rewrite Hkt, lookup_insert_eq.
    + destruct (Ho k' Hk') as [_ ?]. done.
  - intros v l Hvl. destruct (Hsl v l Hvl) as (_ & ?). done.
  - intros i t' _ [[<- <-]|[Hne Hit]]%lookup_insert_Some.
    + split; [done..|]. unfold links_ok. rewrite Hlc. repeat split; try done.
      exists k. split; [done|]. split; [|done..]. apply ready_insert_elem. by left.
    + eapply thread_ok_transport;
        [..|by eapply (fr_threads _ _ _ _ _ _ _ _ Hf); [intros [= ->]|]]; try done.
      intros. apply ready_insert_elem. by right.
Qed.

Lemma attach_running id t l :
  frame (Some id) p ths rd vc ns nl nw ->
  thread (config t) = id -> policy_ok p (config t) ->
  lifecycle t = Running -> ready_key t = None -> active_wait t = None ->
  active_lease t = Some l -> lease_thread l = id -> lease_process l = process (config t) ->
  lease_generation l < nl -> lease_vcpu l ∈ cores (affinity (config t)) ->
  vc !! lease_vcpu l = Some (mkSlot None) ->
  frame None p (<[id := t]> ths) rd (<[lease_vcpu l := mkSlot (Some l)]> vc) ns nl nw.
Proof.
  intros Hf Hid Hp Hlc Hk Hw Hl Hlt Hlp Hlg Hla Hv.
  pose proof (frame_insert id t Hf) as [? Hvc ? ? ? Ho Hsl _]. split; try done.
  - intros v. rewrite <- Hvc. by apply (slot_overwrite_dom _ _ _ (mkSlot None)).
  - intros k Hin. destruct (Ho k Hin) as [_ ?]. done.
  - intros v l' [[<- [= <-]]|[Hne Hvl]]%lookup_insert_Some.
    + split_and!; [done..|]. exists t. by rewrite Hlt, lookup_insert_eq.
    + destruct (Hsl v l' Hvl) as (_ & ?). done.
  - intros i t' _ [[<- <-]|[Hne Hit]]%lookup_insert_Some.
    + split; [done..|]. unfold links_ok. rewrite Hlc. repeat split; try done.
      exists l. split; [done|]. split; try done. by rewrite lookup_insert_eq.
    + eapply thread_ok_transport;
        [..|by eapply (fr_threads _ _ _ _ _ _ _ _ Hf); [intros [= ->]|]]; try done.
      intros l' _ Hl'. rewrite lookup_insert_ne; [done|]. intros Heq.
      rewrite Heq, Hl' in Hv. done.
Qed.
End Frames.

(** ** Weakest preconditions of the scheduler's helpers *)

Section Helpers.
Context (R : SchedulerError -> SchedulerState -> Prop).
Implicit Types (s : SchedulerState) (Q : unit -> SchedulerState -> Prop).

Lemma wp_allocate_sequence (Q : Z -> SchedulerState -> Prop) s :
  R SequenceExhausted s ->
  (next_sequence s + 1 < 2 ^ 64 ->
   Q (next_sequence s) (set_next_sequence (next_sequence s + 1) s)) ->
  wp allocate_sequence Q R s.
Proof.
  intros HR HQ. unfold allocate_sequence, checked_add. apply wp_bind, wp_get, wp_bind, wp_ok_or.
  - intros _. done.
  - intros a. case_match; [|done]. intros [= <-]. apply HQ. lia.
Qed.

Lemma wp_allocate_lease_generation (Q : Z -> SchedulerState -> Prop) s :
  R LeaseGenerationExhausted s ->
  (next_lease_generation s + 1 < 2 ^ 64 ->
   Q (next_lease_generation s) (set_next_lease (next_lease_generation s + 1) s)) ->
  wp allocate_lease_generation Q R s.
Proof.
  intros HR HQ. unfold allocate_lease_generation, checked_add.
  apply wp_bind, wp_get, wp_bind, wp_ok_or.
  - intros _. done.
  - intros a. case_match; [|done]. intros [= <-]. apply HQ. lia.
Qed.

Lemma wp_allocate_wake_generation (Q : Z -> SchedulerState -> Prop) s :
  R WakeGenerationExhausted s ->
  (next_wake_generation s + 1 < 2 ^ 64 ->
   Q (next_wake_generation s) (set_next_wake (next_wake_generation s + 1) s)) ->
  wp allocate_wake_generation Q R s.
Proof.
  intros HR HQ. unfold allocate_wake_generation, checked_add.
  apply wp_bind, wp_get, wp_bind, wp_ok_or.
  - intros _. done.
  - intros a. case_match; [|done]. intros [= <-]. apply HQ. lia.
Qed.

Lemma wp_update_thread id f t Q s :
  threads s !! id = Some t -> Q tt (set_threads (insert id (f t)) s) ->
  wp (update_thread id f) Q R s.
Proof. intros Ht HQ. unfold update_thread, wp, bind, get. by rewrite Ht. Qed.

Lemma wp_transition id target t Q s :
  threads s !! id = Some t -> thread_allowed (lifecycle t) target = true ->
  Q tt (set_threads (insert id (with_lifecycle target t)) s) ->
  wp (transition_in_place id target) Q R s.
Proof.
  intros Ht Ha HQ. unfold transition_in_place, step_lifecycle, update_thread, wp, bind, get.
  rewrite Ht. simpl. rewrite (transition_thread_ok _ _ Ha). simpl. by rewrite Ht.
Qed.

Lemma wp_insert_ready k Q s :
  k ∉ ready s -> Q tt (set_ready (ready_insert k (ready s)) s) -> wp (insert_ready k) Q R s.
Proof.
  intros Hk HQ. unfold insert_ready, wp, bind, get.
  rewrite bool_decide_eq_true_2 by done. done.
Qed.

Lemma wp_enqueue id n t Q s :
  threads s !! id = Some t ->
  mkKey (effective_priority (config t)) n id ∉ ready s ->
  Q tt (set_ready (ready_insert (mkKey (effective_priority (config t)) n id) (ready s))
          (set_threads (insert id
             (with_ready_key (Some (mkKey (effective_priority (config t)) n id)) t)) s)) ->
  wp (enqueue_existing_with_sequence id n) Q R s.
Proof.
  intros Ht Hk HQ. unfold enqueue_existing_with_sequence.
  apply wp_bind, wp_get, wp_bind. eapply wp_expect; [done|]. apply wp_bind.
  eapply wp_update_thread; [done|]. by apply wp_insert_ready.
Qed.

Lemma wp_remove_ready_opt o Q s :
  Q tt (match o with Some k => set_ready (ready_remove k (ready s)) s | None => s end) ->
  wp (remove_ready_opt o) Q R s.
Proof. by destruct o. Qed.

Lemma wp_checked_step id reported cur target (Q : ThreadLifecycle -> SchedulerState -> Prop) s :
  (forall e, R (InvalidThreadState id e) s) ->
  (thread_allowed cur target = true -> Q target s) ->
  wp (checked_step id reported cur target) Q R s.
Proof.
  intros HR HQ. unfold checked_step, step_lifecycle. rewrite transition_thread_spec.
  repeat case_match; simplify_eq; try (by apply HR); by apply HQ.
Qed.
End Helpers.

(** * Every scheduler command preserves the invariant

    For each command: from a well-formed state it does not panic, an [Ok] result
    leaves a well-formed state, and an [Err] result leaves the state it found. *)

Definition preserves (m : M SchedulerDecision) : Prop :=
  forall s, wf s -> wp m (fun _ s' => wf s') (fun _ s' => s' = s) s.

(** One step of symbolic execution; stops at the scheduler's own helpers. *)
Ltac wp_step :=
  lazymatch goal with
  | |- wp (bind _ _) _ _ _ => apply wp_bind
  | |- wp get _ _ _ => apply wp_get
  | |- wp (ret _) _ _ _ => apply wp_ret
  | |- wp (throw _) _ _ _ => apply wp_throw
  | |- wp (modify _) _ _ _ => apply wp_modify
  | |- wp (guard _ _) _ _ _ => apply wp_guard; [intros ?; reflexivity|intros ?]
  | |- wp (ok_or _ _) _ _ _ => apply wp_ok_or; [intros ?; reflexivity|intros ? ?]
  | |- wp allocate_sequence _ _ _ => apply wp_allocate_sequence; [reflexivity|intros ?]
  | |- wp allocate_lease_generation _ _ _ =>
      apply wp_allocate_lease_generation; [reflexivity|intros ?]
  | |- wp allocate_wake_generation _ _ _ =>
      apply wp_allocate_wake_generation; [reflexivity|intros ?]
  | |- wp (remove_ready_opt _) _ _ _ => apply wp_remove_ready_opt
  | |- wp (checked_step _ _ _ _) _ _ _ => apply wp_checked_step; [reflexivity|intros ?]
  end.

Ltac wp_run := repeat (wp_step; cbn [set_next_sequence set_next_lease set_next_wake threads ready vcpus profile]).

Lemma bool_decide_false_not (P : Prop) `{Decision P} : bool_decide P = false -> ~ P.
Proof. apply bool_decide_eq_false. Qed.

Lemma not_is_some_none {A} (o : option A) : bool_decide (is_Some o) = false -> o = None.
Proof. intros H%bool_decide_eq_false. by apply eq_None_not_Some. Qed.

(** A fresh sequence number is not in the queue. *)
Lemma fresh_key_not_queued o p ths rd vc ns nl nw prio id :
  frame o p ths rd vc ns nl nw -> mkKey prio ns id ∉ rd.
Proof. intros Hf Hin. apply (fr_bound _ _ _ _ _ _ _ _ Hf) in Hin. simpl in Hin. lia. Qed.

Lemma validate_policy_wp c Q s :
  profile_wf (profile s) -> core_set_wf (affinity c) ->
  (policy_ok (profile s) c -> Q tt s) ->
  wp (validate_policy c) Q (fun _ s' => s' = s) s.
Proof.
  intros Hp Hc HQ. unfold validate_policy. do 3 wp_step.
  destruct (List.find _ _) eqn:Hf; wp_step; [done|].
  do 4 wp_step.
  assert (Hok : (forall v, ideal_vcpu c = Some v -> v ∈ cores (affinity c)) -> Q tt s).
  { intros Hi. apply HQ. split; try done.
    - intros v Hv. rewrite find_none_forall in Hf. by apply negb_false_iff, Hf.
    - by apply negb_false_iff.
    - by apply negb_false_iff. }
  destruct (ideal_vcpu c) as [v|] eqn:Hi; wp_step; apply Hok; intros v' ?; simplify_eq.
  apply core_contains_spec; [done|]. by apply negb_false_iff.
Qed.

Lemma frame_absent p ths rd vc ns nl nw id :
  frame None p ths rd vc ns nl nw -> ths !! id = None -> frame (Some id) p ths rd vc ns nl nw.
Proof.
  intros [Hp Hv Hs Hb Hi Ho Hsl Ht] Hid. split; try done.
  - intros k Hk. destruct (Ho k Hk) as (_ & t & Hkt & ?). split; [|eauto].
    intros [= He]. rewrite He, Hid in Hkt. done.
  - intros v l Hl. destruct (Hsl v l Hl) as (_ & ? & t & Hlt & ?). split; [|eauto].
    intros [= He]. rewrite He, Hid in Hlt. done.
  - intros i t _ Hit. by apply Ht.
Qed.

Lemma register_preserves c : core_set_wf (affinity c) -> preserves (register c).
Proof.
  intros Hc s Hwf. unfold register. do 4 wp_step. wp_step.
  apply validate_policy_wp; [apply Hwf|done|]. intros Hp. wp_run.
  destruct s as [p ths rd vc ns nl nw]. unfold wf in *; simpl in *.
  apply attach_idle; [|split; [done..|]; split; done|done..].
  apply frame_absent; [done|]. by apply not_is_some_none.
Qed.

(** Detaching the thread a command works on, whatever its queue membership. *)
Lemma detach_unleased p ths rd vc ns nl nw id t :
  frame None p ths rd vc ns nl nw -> ths !! id = Some t -> active_lease t = None ->
  frame (Some id) p ths
    (match ready_key t with Some k => ready_remove k rd | None => rd end) vc ns nl nw.
Proof.
  intros Hf Ht Hl. destruct (ready_key t) eqn:Hk;
    [by eapply detach_ready|by eapply detach_idle].
Qed.

Lemma set_ready_opt (o : option ReadyKey) s :
  match o with Some k => set_ready (ready_remove k (ready s)) s | None => s end =
  set_ready (match o with Some k => ready_remove k (ready s) | None => ready s end) s.
Proof. by destruct o, s. Qed.

Lemma unregister_preserves id : preserves (unregister id).
Proof.
  intros s Hwf. unfold unregister. wp_run. rewrite set_ready_opt.
  destruct s as [p ths rd vc ns nl nw]. unfold wf in *; simpl in *.
  apply attach_delete. eapply detach_unleased; [done..|]. by apply not_is_some_none.
Qed.

(** The thread [MakeReady] may be applied to: not running, no registered wait.
    The source does not check it (see [SchedTheorems]). *)
Definition may_make_ready (s : SchedulerState) (id : GuestThreadId) : Prop :=
  forall t, threads s !! id = Some t -> lifecycle t <> Running /\ active_wait t = None.

(** A thread that leaves its state for [Ready] has no key yet. *)
Lemma unqueued rd vc nl nw id t :
  links_ok rd vc nl nw id t -> thread_allowed (lifecycle t) Ready = true ->
  lifecycle t <> Running -> ready_key t = None /\ active_lease t = None.
Proof. unfold links_ok. intros Hl Ha Hr. destruct (lifecycle t); naive_solver. Qed.

(** Queueing a detached thread under a fresh sequence number. *)
Lemma attach_fresh p ths rd vc ns nl nw id t :
  frame (Some id) p ths rd vc ns nl nw ->
  thread (config t) = id -> policy_ok p (config t) ->
  lifecycle t = Ready -> active_lease t = None -> active_wait t = None ->
  ready_key t = Some (mkKey (effective_priority (config t)) ns id) ->
  frame None p (<[id := t]> ths)
    (ready_insert (mkKey (effective_priority (config t)) ns id) rd) vc (ns + 1) nl nw.
Proof.
  intros Hf Hid Hp Hlc Hl Hw Hk. eapply attach_ready; try done; simpl; try lia.
  - eapply frame_counters; [..|done]; lia.
  - intros k' Hk'. apply (fr_bound _ _ _ _ _ _ _ _ Hf) in Hk'. lia.
Qed.

Lemma make_ready_preserves id s :
  wf s -> may_make_ready s id ->
  wp (make_ready id) (fun _ s' => wf s') (fun _ s' => s' = s) s.
Proof.
  intros Hwf Hmay. unfold make_ready. wp_run.
  destruct s as [p ths rd vc ns nl nw]. unfold wf, may_make_ready in *; simpl in *.
  destruct (Hmay _ H) as [Hrun Hw].
  pose proof (fr_threads _ _ _ _ _ _ _ _ Hwf id a ltac:(done) H) as [Hid Hp Hl].
  destruct (unqueued _ _ _ _ _ _ Hl ltac:(done) Hrun) as [Hk Hle].
  eapply wp_update_thread; [done|]. wp_step.
  apply wp_insert_ready; [by eapply fresh_key_not_queued|]. wp_step. simpl.
  apply (attach_fresh _ _ _ _ _ _ _ _
    (with_ready_key (Some (mkKey (effective_priority (config a)) ns id)) (with_lifecycle Ready a)));
    try done. by eapply detach_idle.
Qed.

Lemma select_preserves v : preserves (select v).
Proof.
  intros s Hwf. unfold select. do 4 wp_step. wp_step.
  destruct (List.find _ _) as [k|] eqn:Hfind; wp_run; [|done].
  destruct s as [p ths rd vc ns nl nw]. unfold wf in *; simpl in *.
  destruct (find_sorted_least _ _ _ (fr_sorted _ _ _ _ _ _ _ _ Hwf) Hfind) as (Hin & Hfk & _).
  destruct (fr_owner _ _ _ _ _ _ _ _ Hwf k Hin) as (_ & t & Ht & Hk). unfold eligible in Hfk. simpl in Hfk. rewrite Ht in Hfk.
  pose proof (fr_threads _ _ _ _ _ _ _ _ Hwf _ t ltac:(done) Ht) as [Hid Hp Hl].
  destruct (links_queued _ _ _ _ _ _ _ Hl Hk) as (Hlc & Hle & Hw & Hko).
  apply wp_debug_assert; [by apply bool_decide_eq_true_2|].
  unfold remove_ready. wp_run.
  eapply wp_transition; [done|by rewrite Hlc|]. wp_step.
  eapply wp_update_thread; [apply lookup_insert_eq|]. do 3 wp_step. simpl.
  eapply wp_expect; [apply lookup_insert_eq|]. wp_step.
  eapply wp_update_thread; [apply lookup_insert_eq|]. do 3 wp_step.
  eapply wp_expect; [done|]. wp_run. simpl. rewrite !insert_insert_eq.
  apply (attach_running _ _ (mkLease (process (config t)) (key_thread k) v nl));
    try done; simpl; try lia.
  - eapply frame_counters; [..|by eapply detach_ready]; lia.
  - by apply core_contains_spec; [apply Hp|].
  - apply not_is_some_none in H0. destruct a; simpl in *; by subst.
Qed.

Lemma opt_filter_Some f o v : opt_filter f o = Some v <-> o = Some v /\ f v = true.
Proof.
  destruct o as [x|]; simpl; [|split; [done|by intros [? _]]].
  destruct (f x) eqn:Hf; split.
  - by intros [= ->].
  - by intros [[= ->] _].
  - done.
  - intros [[= ->] ?]. congruence.
Qed.

(** A placeable thread has a placement: an idle virtual CPU of its affinity. *)
Lemma placement_some s k t :
  wf s -> threads s !! key_thread k = Some t -> placeable s k = true ->
  exists v, placement s t = Some v /\ slot_idle s v = true /\ v ∈ cores (affinity (config t)).
Proof.
  intros Hwf Ht Hpl. unfold placeable in Hpl. rewrite Ht in Hpl.
  pose proof (fr_threads _ _ _ _ _ _ _ _ Hwf _ t ltac:(done) Ht) as [_ [Hs _ _ _ Hi] _].
  set (P := fun v => slot_idle s v = true /\ v ∈ cores (affinity (config t))).
  enough (Hopt : forall o, placement s t = o -> match o with Some v => P v | None => False end).
  { specialize (Hopt _ eq_refl). destruct (placement s t); [|done]. unfold P in Hopt. eauto. }
  intros o <-. unfold placement.
  destruct (opt_filter (slot_idle s) (ideal_vcpu (config t))) as [v|] eqn:Hide; simpl.
  { apply opt_filter_Some in Hide as [? ?]. split; auto. }
  destruct (opt_filter _ (last_vcpu t)) as [v|] eqn:Hloc; simpl.
  { apply opt_filter_Some in Hloc as [_ [Hc ?]%andb_true_iff]. split; [done|].
    by apply core_contains_spec. }
  apply existsb_exists in Hpl as (v & Hv & Hv').
  destruct (List.find _ _) as [v0|] eqn:Hfi.
  - apply List.find_some in Hfi as [? ?]. split; [done|]. by apply list_elem_of_In.
  - apply (List.find_none _ _ Hfi) in Hv. congruence.
Qed.

Lemma select_next_preserves : preserves select_next.
Proof.
  intros s Hwf. unfold select_next. do 2 wp_step.
  destruct (List.find _ _) as [k|] eqn:Hfind; [|by wp_run].
  destruct (find_sorted_least _ _ _ (fr_sorted _ _ _ _ _ _ _ _ Hwf) Hfind) as (Hin & Hfk & _).
  destruct (fr_owner _ _ _ _ _ _ _ _ Hwf k Hin) as (_ & t & Ht & _).
  wp_step. eapply wp_expect; [done|]. wp_step.
  destruct (placement_some _ _ _ Hwf Ht Hfk) as (v & Hv & _).
  eapply wp_expect; [exact Hv|]. by apply select_preserves.
Qed.

Lemma register_wait_preserves id r : preserves (register_wait id r).
Proof.
  intros s Hwf. unfold register_wait. do 8 wp_step.
  destruct s as [p ths rd vc ns nl nw]. unfold wf in *; simpl in *.
  pose proof (fr_threads _ _ _ _ _ _ _ _ Hwf id a ltac:(done) H) as [Hid Hp Hl].
  apply bool_decide_eq_false, dec_stable in H0. apply not_is_some_none in H1.
  assert (ready_key a = None /\ active_lease a = None) as [Hk Hle].
  { unfold links_ok in Hl. rewrite H0 in Hl. by destruct Hl as (? & ? & ?). }
  assert (Hf : frame (Some id) p ths rd vc ns nl nw) by (by eapply detach_idle).
  destruct r; wp_run.
  - eapply wp_transition; [done|by rewrite H0|]. wp_step.
    eapply wp_enqueue; [apply lookup_insert_eq|by eapply fresh_key_not_queued|].
    wp_run. simpl. rewrite insert_insert_eq.
    apply (attach_fresh _ _ _ _ _ _ _ _ (with_ready_key
      (Some (mkKey (effective_priority (config a)) ns id)) (with_lifecycle Ready a))); done.
  - eapply wp_update_thread; [done|]. wp_run. simpl.
    apply attach_idle; [|split; [done..|]|done..].
    + eapply frame_counters; [..|done]; lia.
    + unfold links_ok. simpl. rewrite H0. repeat split; try done; intros; simplify_eq; simpl; lia.
Qed.

Lemma finish_wait_preserves token c : preserves (finish_wait token c).
Proof.
  intros s Hwf. unfold finish_wait. wp_run.
  destruct s as [p ths rd vc ns nl nw]. unfold wf in *; simpl in *.
  pose proof (fr_threads _ _ _ _ _ _ _ _ Hwf _ a ltac:(done) H) as [Hid Hp Hl].
  apply bool_decide_eq_false, dec_stable in H0.
  destruct (links_waiting _ _ _ _ _ _ _ Hl H0) as (Hlc & Hk & Hle & _).
  eapply wp_update_thread; [done|]. wp_step.
  eapply wp_transition; [apply lookup_insert_eq|by simpl; rewrite Hlc|]. wp_step.
  eapply wp_enqueue; [apply lookup_insert_eq|by eapply fresh_key_not_queued|].
  wp_run. simpl. rewrite !insert_insert_eq.
  apply (attach_fresh _ _ _ _ _ _ _ _ (with_ready_key
    (Some (mkKey (effective_priority (config a)) ns (token_thread token)))
    (with_lifecycle Ready (with_wait None a)))); try done.
  by eapply detach_idle.
Qed.

(** Changing a thread's placement policy in place leaves its links alone. *)
Lemma frame_reconfigure p ths rd vc ns nl nw id t c :
  frame None p ths rd vc ns nl nw -> ths !! id = Some t -> active_lease t = None ->
  thread c = id -> policy_ok p c -> effective_priority c = effective_priority (config t) ->
  frame None p (<[id := with_config c t]> ths) rd vc ns nl nw.
Proof.
  intros Hf Ht Hle Hid Hp He. pose proof Hf as [Hpr Hv Hs Hb Hi Ho Hsl Hth]. split; try done.
  - intros k Hk. destruct (Ho k Hk) as (_ & t' & Ht' & Hk'). split; [done|].
    destruct (decide (key_thread k = id)) as [Heq|].
    + rewrite Heq, Ht in Ht'. injection Ht' as <-. rewrite Heq, lookup_insert_eq. by eexists.
    + rewrite lookup_insert_ne by done. eauto.
  - intros v l Hl. destruct (Hsl v l Hl) as (_ & ? & t' & Ht' & Hl'). split_and!; try done.
    assert (Hne := distinct_threads active_lease _ _ _ _ _ _ Ht Hle Ht' Hl').
    rewrite lookup_insert_ne by (intros E; apply Hne; by rewrite E). eauto.
  - intros i t' _ [[<- <-]|[Hne Hit]]%lookup_insert_Some; [|by apply Hth].
    pose proof (Hth _ t ltac:(done) Ht) as [_ _ Hl]. split; [done..|].
    unfold links_ok in *. simpl. rewrite Hle in *. destruct (lifecycle t); try done.
    + destruct Hl as (? & ? & k & ? & [? ? ?]). split_and!; try done.
      exists k. split; [done|]. split; try done. simpl. congruence.
    + by destruct Hl as (? & ? & l & ? & ?).
Qed.

Lemma migrate_preserves id ideal aff : core_set_wf aff -> preserves (migrate id ideal aff).
Proof.
  intros Hc s Hwf. unfold migrate. wp_step.
  assert (Hcont : (forall v, ideal = Some v -> v ∈ cores aff) ->
    wp (let! s := get in
        do! match List.find (fun v => negb (profile_contains (profile s) v)) (cores aff) with
            | Some v => throw (UnknownVirtualCpu v) | None => ret tt end in
        let! t := ok_or (threads s !! id) (UnknownThread id) in
        do! guard (bool_decide (is_Some (active_lease t))) (ThreadLeased id) in
        do! update_thread id (with_config (mkConfig (process (config t)) (thread (config t))
              (base_priority (config t)) (effective_priority (config t)) ideal aff)) in
        ret (Migrated id match last_vcpu t with
                         | Some old => if core_contains aff old then NoEffect
                                       else ClearOldLocalExclusive old
                         | None => NoEffect end))
       (fun _ s' => wf s') (fun _ s' => s' = s) s).
  { intros Hi. do 3 wp_step. destruct (List.find _ _) eqn:Hf; wp_run; [done|].
    destruct s as [p ths rd vc ns nl nw]. unfold wf in *; simpl in *.
    eapply wp_update_thread; [done|]. wp_run. simpl. apply not_is_some_none in H0.
    pose proof (fr_threads _ _ _ _ _ _ _ _ Hwf id a ltac:(done) H) as [Hid [Hp1 Hp2 Hp3 Hp4 Hp5] Hl].
    assert (Hp : policy_ok p (mkConfig (process (config a)) (thread (config a))
              (base_priority (config a)) (effective_priority (config a)) ideal aff)).
    { split; try done. intros v Hv. rewrite find_none_forall in Hf. by apply negb_false_iff, Hf. }
    by eapply frame_reconfigure. }
  destruct ideal as [v|]; wp_step; (eapply wp_mono; [apply Hcont|..]); try done.
  intros v' [= <-]. apply core_contains_spec; [done|]. by apply negb_false_iff.
Qed.

Lemma frame_lookup p ths rd vc ns nl nw id t :
  frame None p ths rd vc ns nl nw -> ths !! id = Some t -> thread_ok p rd vc nl nw id t.
Proof. intros Hf Ht. by apply (fr_threads _ _ _ _ _ _ _ _ Hf). Qed.

Lemma change_priority_preserves id priority f :
  (forall c, thread (f c) = thread c /\ process (f c) = process c /\ affinity (f c) = affinity c /\
     ideal_vcpu (f c) = ideal_vcpu c /\ effective_priority (f c) = priority /\
     (base_priority (f c) = base_priority c \/ base_priority (f c) = priority)) ->
  preserves (change_priority id priority f).
Proof.
  intros Hcfg s Hwf. unfold change_priority. wp_run. rewrite set_ready_opt.
  destruct s as [p ths rd vc ns nl nw]. unfold wf in *; simpl in *.
  apply negb_false_iff in H.
  eapply wp_update_thread; [done|]. wp_step. simpl.
  pose proof (frame_lookup _ _ _ _ _ _ _ _ _ Hwf H0) as [Hid [Hp1 Hp2 Hp3 Hp4 Hp5] Hl].
  destruct (Hcfg (config a)) as (Ef1 & Ef2 & Ef3 & Ef4 & Ef5 & Ef6).
  assert (Hp : policy_ok p (f (config a))).
  { split; rewrite ?Ef3, ?Ef4, ?Ef5; try done. by destruct Ef6 as [-> | ->]. }
  destruct (ready_key a) as [k|] eqn:Hk.
  - destruct (links_queued _ _ _ _ _ _ _ Hl Hk) as (Hlc & Hle & Hw & [Hin Hkt Hkp]).
    assert (Hfresh : forall k', k' ∈ ready_remove k rd -> key_sequence k' <> key_sequence k).
    { intros k' [Hne Hk']%ready_remove_elem Heq. apply Hne.
      by apply (fr_inj _ _ _ _ _ _ _ _ Hwf). }
    wp_step. eapply wp_update_thread; [apply lookup_insert_eq|].
    apply wp_insert_ready.
    { simpl. intros Hbad. by apply (Hfresh _ Hbad). }
    wp_run. simpl. rewrite insert_insert_eq.
    apply (attach_ready _ (with_ready_key (Some (mkKey priority (key_sequence k) (key_thread k)))
      (with_config (f (config a)) a))); simpl; try done; try congruence.
    + by eapply detach_ready.
    + by apply (fr_bound _ _ _ _ _ _ _ _ Hwf).
  - wp_run. simpl. destruct (active_lease a) as [l|] eqn:Hle.
    + destruct (links_leased _ _ _ _ _ _ _ Hl Hle) as (Hlc & _ & Hw & [Hs1 Hs2 Hs3 Hs4 Hs5]).
      pose proof (detach_running _ _ _ Hwf H0 Hle) as Hf.
      apply (attach_running _ (with_config (f (config a)) a) l) in Hf;
        simpl; rewrite ?Ef1, ?Ef2, ?Ef3; try done.
      * by rewrite insert_insert_eq, (insert_id vc) in Hf.
      * by rewrite lookup_insert_eq.
    + apply attach_idle; [by eapply detach_idle| |done..]. split; simpl; rewrite ?Ef1; [done..|].
      unfold links_ok in *. simpl. destruct (lifecycle a); try done.
      * destruct Hl as (_ & _ & k & ? & _). congruence.
      * destruct Hl as (_ & _ & l & ? & _). congruence.
Qed.

Lemma set_priority_preserves id priority : preserves (set_priority id priority).
Proof. apply change_priority_preserves. simpl. auto 10. Qed.

Lemma set_effective_priority_preserves id priority :
  preserves (set_effective_priority id priority).
Proof. apply change_priority_preserves. simpl. auto 10. Qed.

Lemma set_activity_preserves id paused : preserves (set_activity id paused).
Proof.
  intros s Hwf. unfold set_activity. do 10 wp_step.
  destruct s as [p ths rd vc ns nl nw]. unfold wf in *; simpl in *.
  pose proof (frame_lookup _ _ _ _ _ _ _ _ _ Hwf H) as [Hid Hp Hl]. wp_step.
  destruct paused; simpl in *.
  - apply bool_decide_eq_false, dec_stable in H1.
    assert (exists k, ready_key a = Some k) as [k Hk].
    { unfold links_ok in Hl. rewrite H1 in Hl. destruct Hl as (_ & _ & k & ? & _). eauto. }
    destruct (links_queued _ _ _ _ _ _ _ Hl Hk) as (_ & Hle & Hw & _).
    rewrite Hk. wp_run. eapply wp_update_thread; [done|].
    eapply wp_transition; [apply lookup_insert_eq|by simpl; rewrite H1|].
    wp_run. simpl. rewrite insert_insert_eq.
    apply attach_idle; [by eapply detach_ready| |done..]. by split; [done..|].
  - apply bool_decide_eq_false, dec_stable in H2. wp_run.
    assert (ready_key a = None /\ active_lease a = None /\ active_wait a = None) as (Hk & Hle & Hw).
    { unfold links_ok in Hl. by rewrite H2 in Hl. }
    eapply wp_transition; [done|by rewrite H2|].
    eapply wp_enqueue; [apply lookup_insert_eq|by eapply fresh_key_not_queued|].
    wp_run. simpl. rewrite insert_insert_eq.
    apply (attach_fresh _ _ _ _ _ _ _ _ (with_ready_key
      (Some (mkKey (effective_priority (config a)) ns id)) (with_lifecycle Ready a))); try done.
    by eapply detach_idle.
Qed.

Lemma terminate_preserves id faulted : preserves (terminate id faulted).
Proof.
  intros s Hwf. unfold terminate. do 8 wp_step.
  apply not_is_some_none in H0. wp_step.
  assert (Hend : forall lc, lc = Exited \/ lc = Faulted ->
    wp (do! remove_ready_opt (ready_key a) in
        do! update_thread id (fun t => with_lifecycle lc (with_wait None (with_ready_key None t))) in
        ret (Terminated id)) (fun _ s' => wf s') (fun _ s' => s' = s) s).
  { intros lc Hlc. wp_run. rewrite set_ready_opt.
    destruct s as [p ths rd vc ns nl nw]. unfold wf in *; simpl in *.
    pose proof (frame_lookup _ _ _ _ _ _ _ _ _ Hwf H) as [Hid Hp _].
    eapply wp_update_thread; [done|]. wp_run. simpl.
    apply attach_idle; [by apply detach_unleased| |done..]. split; [done..|].
    unfold links_ok. simpl. by destruct Hlc as [-> | ->]. }
  destruct faulted; wp_step; [by apply Hend; right|]. wp_step.
  unfold expect_ok, step_lifecycle. rewrite transition_thread_spec. simpl. wp_step.
  by apply Hend; left.
Qed.

(** A completed thread that is queued again, or not, is attached again. *)
Lemma complete_tail p ths rd vc ns nl nw id t v outcome seq (s0 : SchedulerState) :
  frame (Some id) p ths rd vc ns nl nw -> ths !! id = Some t ->
  thread (config t) = id -> policy_ok p (config t) ->
  lifecycle t = Running -> ready_key t = None -> active_lease t = None -> active_wait t = None ->
  (if requeues outcome then seq = Some (ns - 1) /\ frame (Some id) p ths rd vc (ns - 1) nl nw
   else seq = None) ->
  wp (do! match outcome with
      | CReady => transition_in_place id Ready
      | CPreempted =>
        do! transition_in_place id Preempted in
        transition_in_place id Ready
      | CWaiting => transition_in_place id Waiting
      | CExited =>
        do! transition_in_place id Terminating in
        transition_in_place id Exited
      | CFaulted => transition_in_place id Faulted
      end in
      do! match seq with
          | Some n => enqueue_existing_with_sequence id n
          | None => ret tt
          end in
      ret v) (fun (_ : SchedulerDecision) s' => wf s') (fun _ s' => s' = s0)
    (mkState p ths rd vc ns nl nw).
Proof.
  intros Hf Ht Hid Hp Hlc Hk Hle Hw Hseq. wp_step.
  destruct outcome; simpl in Hseq; first [subst seq | destruct Hseq as [-> Hf']].
  1, 2: repeat first [wp_step | eapply wp_transition; [(done || apply lookup_insert_eq)
    |by simpl; rewrite ?Hlc|]]; simpl;
    (eapply wp_enqueue; [apply lookup_insert_eq|by eapply fresh_key_not_queued|]);
    wp_run; unfold wf; simpl; rewrite !insert_insert_eq;
    replace ns with (ns - 1 + 1) at 3 by lia;
    (apply (attach_fresh _ _ _ _ _ _ _ _ (with_ready_key
      (Some (mkKey (effective_priority (config t)) (ns - 1) id)) (with_lifecycle Ready t)));
     done).
  all: repeat first [wp_step | eapply wp_transition; [(done || apply lookup_insert_eq)
    |by simpl; rewrite ?Hlc|]]; unfold wf; simpl; rewrite ?insert_insert_eq;
    (apply attach_idle; [done| |done..]; split; [done..|]; unfold links_ok; simpl; split_and!; try done).
  intros w ?. congruence.
Qed.

Lemma complete_preserves l outcome : preserves (complete l outcome).
Proof.
  intros s Hwf. unfold complete. do 8 wp_step.
  apply bool_decide_eq_false, dec_stable in H0, H1.
  destruct s as [p ths rd vc ns nl nw]. unfold wf in Hwf; simpl in *.
  pose proof (frame_lookup _ _ _ _ _ _ _ _ _ Hwf H) as [Hid Hp Hl].
  destruct (links_leased _ _ _ _ _ _ _ Hl H0) as (Hlc & Hk & Hw & [Hslot _ _ _ _]).
  pose proof (frame_insert _ (with_last (Some (lease_vcpu l)) (with_lease None a))
    (detach_running _ _ _ Hwf H H0)) as Hf.
  wp_step. destruct (requeues outcome) eqn:Hreq; wp_run; simpl;
    (eapply wp_expect; [done|]); wp_run;
    (eapply wp_update_thread; [done|]); unfold set_threads; simpl.
  - eapply (complete_tail _ _ _ _ _ _ _ _ _ _ outcome (Some ns));
      [|apply lookup_insert_eq|..]; simpl; rewrite ?Hreq; try done.
    + eapply frame_counters; [..|exact Hf]; lia.
    + by replace (ns + 1 - 1) with ns by lia.
  - eapply (complete_tail _ _ _ _ _ _ _ _ _ _ outcome None);
      [|apply lookup_insert_eq|..]; simpl; rewrite ?Hreq; try done.
Qed.
