(* ===== verification/SchedTheorems.v ===== *)
(** * Scheduler theorems

    The scheduler's contract: the invariant is preserved and no [expect] fires
    ([apply_safe], [reachable_wf]); a thread is leased to at most one virtual CPU
    ([lease_exclusive]); dispatch picks the least eligible key of the ready queue
    and is work conserving ([select_best], [select_next_best]); leases and wake
    tokens are single use ([lease_single_use], [wake_token_single_use]).

    [MakeReady] is only sound on threads that are neither running nor have a
    registered wait; the source accepts both, and the two [make_ready_*] theorems
    show what happens then. *)

From S2P Require Import Prelude SchedLifecycle SchedTopology SchedState SchedInv.

(** ** Commands, runs and reachable states *)

(** Preconditions the callers of [apply] establish: core sets come from
    [CoreSet::new], and [MakeReady] names a thread that may be made ready. *)
Definition command_ok (s : SchedulerState) (c : SchedulerCommand) : Prop :=
  match c with
  | Register cfg => core_set_wf (affinity cfg)
  | Migrate _ _ aff => core_set_wf aff
  | MakeReady id => may_make_ready s id
  | _ => True
  end.

Inductive reachable (p : MachineSchedulerProfile) : SchedulerState -> Prop :=
| reach_new : reachable p (new p)
| reach_step s c :
    reachable p s -> command_ok s c -> reachable p (snd (apply c s)).

Definition run (cmds : list SchedulerCommand) (s : SchedulerState) : SchedulerState :=
  foldl (fun s c => snd (apply c s)) s cmds.

Lemma apply_preserves c s :
  wf s -> command_ok s c -> wp (apply c) (fun _ s' => wf s') (fun _ s' => s' = s) s.
Proof.
  intros Hwf Hc. destruct c; simpl in *.
  - by apply register_preserves.
  - by apply unregister_preserves.
  - by apply make_ready_preserves.
  - by apply select_next_preserves.
  - by apply select_preserves.
  - by apply complete_preserves.
  - by apply register_wait_preserves.
  - by apply finish_wait_preserves.
  - by apply finish_wait_preserves.
  - by apply terminate_preserves.
  - by apply migrate_preserves.
  - by apply set_priority_preserves.
  - by apply set_effective_priority_preserves.
  - by apply set_activity_preserves.
Qed.

Lemma apply_wf c s : wf s -> command_ok s c -> wf (snd (apply c s)).
Proof.
  intros Hwf Hc. pose proof (apply_preserves c s Hwf Hc) as H. unfold wp in H.
  destruct (apply c s) as [[] ?]; simpl; by subst.
Qed.

Lemma new_slots l (v : Z) (sl : VirtualCpuSlot) :
  (list_to_map ((fun d => (vcpu_id d, mkSlot None)) <$> l) : gmap Z VirtualCpuSlot) !! v = Some sl
  -> sl = mkSlot None.
Proof.
  induction l as [|d l IH]; simpl; [by rewrite lookup_empty|].
  intros [[_ <-]|[_ ?]]%lookup_insert_Some; auto.
Qed.

Lemma new_slots_dom l (v : Z) :
  is_Some ((list_to_map ((fun d => (vcpu_id d, mkSlot None)) <$> l) : gmap Z VirtualCpuSlot) !! v)
  <-> v ∈ ids l.
Proof.
  induction l as [|d l IH]; simpl.
  - rewrite lookup_empty, elem_of_nil. split; [by intros []|done].
  - rewrite lookup_insert_is_Some, elem_of_cons, IH. destruct (decide (vcpu_id d = v)); naive_solver.
Qed.

Lemma new_wf p : profile_wf p -> wf (new p).
Proof.
  intros Hp. unfold wf, new; simpl. split; simpl; try done; try (intros; by rewrite ?elem_of_nil in *).
  - intros v. apply new_slots_dom.
  - constructor.
  - intros v l Hl. apply new_slots in Hl. done.
Qed.

Lemma reachable_wf_lemma p s : profile_wf p -> reachable p s -> wf s.
Proof.
  intros Hp. induction 1; [by apply new_wf|by apply apply_wf].
Qed.

(** ** Single use of tokens and leases *)

Definition dead_token (tok : WakeToken) (s : SchedulerState) : Prop :=
  token_generation tok < next_wake_generation s /\
  forall id t, threads s !! id = Some t -> active_wait t <> Some tok.

Definition dead_lease (l : Lease) (s : SchedulerState) : Prop :=
  lease_generation l < next_lease_generation s /\
  forall id t, threads s !! id = Some t -> active_lease t <> Some l.

(** What the two predicates have in common: they constrain one field of every
    thread record and one counter. *)
Section StablePredicates.
Context (P : SchedulerState -> Prop).
Hypothesis P_ready : forall l s, P s -> P (set_ready l s).
Hypothesis P_vcpus : forall f s, P s -> P (set_vcpus f s).
Hypothesis P_sequence : forall n s, P s -> P (set_next_sequence n s).
Hypothesis P_delete : forall id s, P s -> P (set_threads (delete id) s).

Definition keeps (f : ScheduledThread -> ScheduledThread) : Prop :=
  forall id t s, P s -> threads s !! id = Some t -> P (set_threads (insert id (f t)) s).

Lemma stable_update id f : keeps f -> stable P (update_thread id f).
Proof.
  intros Hf s Hs. unfold update_thread, bind, get, expect.
  destruct (threads s !! id) eqn:Ht; simpl; auto.
Qed.

Lemma stable_insert_ready k : stable P (insert_ready k).
Proof.
  apply stable_bind; [apply stable_get|]. intros s.
  apply stable_bind; [apply stable_debug_assert|]. intros _. apply stable_modify. auto.
Qed.

Lemma stable_remove_ready k : stable P (remove_ready k).
Proof. apply stable_bind; [apply stable_get|]. intros s. apply stable_modify. auto. Qed.

Lemma stable_remove_ready_opt o : stable P (remove_ready_opt o).
Proof. destruct o; [apply stable_remove_ready|apply stable_ret]. Qed.

Lemma stable_allocate_sequence : stable P allocate_sequence.
Proof.
  apply stable_bind; [apply stable_get|]. intros s.
  apply stable_bind; [apply stable_ok_or|]. intros n.
  apply stable_bind; [apply stable_modify; auto|]. intros _. apply stable_ret.
Qed.

Lemma stable_checked_step id r c t : stable P (checked_step id r c t).
Proof. unfold checked_step. destruct (step_lifecycle c t); auto with nixe_stable. Qed.

Hypothesis P_lifecycle : forall lc, keeps (with_lifecycle lc).
Hypothesis P_key : forall k, keeps (with_ready_key k).

Lemma stable_transition id target : stable P (transition_in_place id target).
Proof.
  unfold transition_in_place. repeat stable_step. by apply stable_update.
Qed.

Lemma stable_enqueue id n : stable P (enqueue_existing_with_sequence id n).
Proof.
  unfold enqueue_existing_with_sequence. repeat stable_step.
  - by apply stable_update.
  - apply stable_insert_ready.
Qed.

Lemma keeps_comp f g : keeps f -> keeps g -> keeps (fun t => f (g t)).
Proof.
  intros Hf Hg id t s Hs Ht. specialize (Hf id (g t) _ (Hg id t s Hs Ht)).
  unfold set_threads in Hf; simpl in Hf. rewrite insert_insert_eq in Hf.
  apply Hf, lookup_insert_eq.
Qed.

Hypothesis P_wait : keeps (with_wait None).
Hypothesis P_lease : keeps (with_lease None).
Hypothesis P_last : forall v, keeps (with_last v).
Hypothesis P_config : forall c, keeps (with_config c).
Hypothesis P_fresh : forall id c s, P s -> threads s !! id = None ->
  P (set_threads (insert id (mkThread c Created None None None None)) s).
Hypothesis P_select : forall v, stable P (select v).
Hypothesis P_register_wait : forall id r, stable P (register_wait id r).

Lemma keeps_config_of (f : ScheduledThreadConfig -> ScheduledThreadConfig) :
  keeps (fun t => with_config (f (config t)) t).
Proof. intros id t. exact (P_config (f (config t)) id t). Qed.

Lemma keeps_requeue k lc : keeps (fun t => with_ready_key k (with_lifecycle lc t)).
Proof. by apply (keeps_comp (with_ready_key k) (with_lifecycle lc)). Qed.

Lemma keeps_release v : keeps (fun t => with_last v (with_lease None t)).
Proof. by apply (keeps_comp (with_last v) (with_lease None)). Qed.

Lemma keeps_end lc :
  keeps (fun t => with_lifecycle lc (with_wait None (with_ready_key None t))).
Proof.
  apply (keeps_comp (with_lifecycle lc) (fun t => with_wait None (with_ready_key None t)));
    [done|]. by apply (keeps_comp (with_wait None) (with_ready_key None)).
Qed.

Hint Resolve keeps_requeue keeps_release keeps_end : nixe_stable.
Hint Resolve stable_update stable_insert_ready stable_remove_ready stable_remove_ready_opt
  stable_allocate_sequence stable_checked_step stable_transition stable_enqueue
  P_lifecycle P_key P_wait P_lease P_last P_config keeps_config_of : nixe_stable.

Lemma stable_register c : stable P (register c).
Proof.
  intros s Hs. unfold register, bind at 1, get.
  destruct (threads s !! thread c) eqn:Ht.
  { by rewrite bool_decide_eq_true_2 by (by eexists). }
  rewrite bool_decide_eq_false_2 by (by intros []). unfold bind at 1; simpl.
  unfold bind at 1. assert (Hv : snd (validate_policy c s) = s).
  { unfold validate_policy, bind, get, guard, throw, ret. repeat (case_match; simplify_eq; try done). }
  destruct (validate_policy c s) as [[] s'] eqn:E; simpl in *; subst; try done. by apply P_fresh.
Qed.

Lemma stable_change_priority id pr f : stable P (change_priority id pr f).
Proof. unfold change_priority. repeat stable_step. Qed.

Lemma stable_apply c : stable P (apply c).
Proof.
  destruct c; simpl; try apply stable_register; auto.
  - unfold unregister. repeat stable_step.
  - unfold make_ready. repeat stable_step.
  - unfold select_next. repeat stable_step.
  - unfold complete. repeat stable_step.
  - unfold finish_wait. repeat stable_step.
  - unfold finish_wait. repeat stable_step.
  - unfold terminate. repeat stable_step.
  - unfold migrate. repeat stable_step.
  - unfold set_priority. apply stable_change_priority.
  - unfold set_effective_priority. apply stable_change_priority.
  - unfold set_activity. repeat stable_step.
Qed.

Lemma stable_run cmds s : P s -> P (run cmds s).
Proof.
  revert s. induction cmds as [|c cmds IH]; intros s Hs; simpl; [done|].
  apply IH. by apply stable_apply.
Qed.
End StablePredicates.

(** ** The two instances *)

Ltac split_lookup H :=
  apply lookup_insert_Some in H as [[? ?]|[? ?]]; subst; simpl in *; eauto.

Lemma dead_token_keeps tok f :
  (forall t, active_wait (f t) = active_wait t \/ active_wait (f t) = None) ->
  keeps (dead_token tok) f.
Proof.
  intros Hf id t s [Hg Hd] Ht. split; [done|]. simpl. intros i t' Hi. split_lookup Hi.
  destruct (Hf t) as [-> | ->]; eauto.
Qed.

Lemma dead_lease_keeps l f :
  (forall t, active_lease (f t) = active_lease t \/ active_lease (f t) = None) ->
  keeps (dead_lease l) f.
Proof.
  intros Hf id t s [Hg Hd] Ht. split; [done|]. simpl. intros i t' Hi. split_lookup Hi.
  destruct (Hf t) as [-> | ->]; eauto.
Qed.

Lemma dead_token_fresh tok s :
  dead_token tok s ->
  dead_token tok (snd (allocate_wake_generation s)) /\
  forall g, fst (allocate_wake_generation s) = Ok g -> token_generation tok < g.
Proof.
  intros [Hg Hd]. unfold allocate_wake_generation, bind, get, checked_add, modify, ok_or; simpl.
  destruct (_ <? _); simpl; (split; [split; simpl; [lia|done]|]); intros g [= <-]. done.
Qed.

Lemma dead_lease_fresh l s :
  dead_lease l s ->
  dead_lease l (snd (allocate_lease_generation s)) /\
  forall g, fst (allocate_lease_generation s) = Ok g -> lease_generation l < g.
Proof.
  intros [Hg Hd]. unfold allocate_lease_generation, bind, get, checked_add, modify, ok_or; simpl.
  destruct (_ <? _); simpl; (split; [split; simpl; [lia|done]|]); intros g [= <-]. done.
Qed.

(** A wait registered from now on carries a later generation. *)
Lemma dead_token_register_wait tok id r : stable (dead_token tok) (register_wait id r).
Proof.
  unfold register_wait. do 4 (stable_step; [solve [auto with nixe_stable]|]).
  destruct r.
  - repeat stable_step.
    + by apply stable_allocate_sequence.
    + apply stable_transition; intros; apply dead_token_keeps; auto.
    + apply stable_enqueue; try done; intros; apply dead_token_keeps; auto.
  - apply (stable_bind_with _ (fun g => token_generation tok < g)); [apply dead_token_fresh|].
    intros g Hg. repeat stable_step. apply stable_update.
    intros i t s [Hg' Hd] Ht. split; [done|]. simpl. intros j t' Hj. split_lookup Hj.
    intros [= <-]. simpl in Hg. lia.
Qed.

(** A lease granted from now on carries a later generation. *)
Lemma dead_lease_select l v : stable (dead_lease l) (select v).
Proof.
  unfold select. do 3 (stable_step; [solve [auto with nixe_stable]|]).
  stable_step; [|auto with nixe_stable].
  apply (stable_bind_with _ (fun g => lease_generation l < g)); [apply dead_lease_fresh|].
  intros g Hg. repeat stable_step.
  - by apply stable_remove_ready.
  - apply stable_transition; intros; apply dead_lease_keeps; auto.
  - apply stable_update, dead_lease_keeps. auto.
  - apply stable_update. intros i t s [Hg' Hd] Ht. split; [done|]. simpl.
    intros j t' Hj. split_lookup Hj. intros [= <-]. simpl in Hg. lia.
Qed.

Lemma dead_token_run tok cmds s : dead_token tok s -> dead_token tok (run cmds s).
Proof.
  apply stable_run; try (intros; apply dead_token_keeps; intros; simpl; auto; done); try done.
  - intros id s' [Hg Hd]. split; [done|]. simpl. intros i t [_ Hi]%lookup_delete_Some. eauto.
  - intros id c s' [Hg Hd] _. split; [done|]. simpl. intros i t Hi. by split_lookup Hi.
  - intros v. unfold select. repeat stable_step.
    all: try (apply stable_update; apply dead_token_keeps; auto).
    all: try (apply stable_transition; intros; apply dead_token_keeps; auto).
    + intros s1 [Hg Hd]. unfold allocate_lease_generation, bind, get, checked_add, modify, ok_or; simpl.
      by destruct (_ <? _).
    + by apply stable_remove_ready.
  - apply dead_token_register_wait.
Qed.

Lemma dead_lease_run l cmds s : dead_lease l s -> dead_lease l (run cmds s).
Proof.
  apply stable_run; try (intros; apply dead_lease_keeps; intros; simpl; auto; done); try done.
  - intros id s' [Hg Hd]. split; [done|]. simpl. intros i t [_ Hi]%lookup_delete_Some. eauto.
  - intros id c s' [Hg Hd] _. split; [done|]. simpl. intros i t Hi. by split_lookup Hi.
  - apply dead_lease_select.
  - intros id r. unfold register_wait. repeat stable_step.
    all: try (apply stable_update; apply dead_lease_keeps; auto).
    all: try (apply stable_transition; intros; apply dead_lease_keeps; auto).
    + by apply stable_allocate_sequence.
    + apply stable_enqueue; try done; intros; apply dead_lease_keeps; auto.
    + intros s1 [Hg Hd]. unfold allocate_wake_generation, bind, get, checked_add, modify, ok_or; simpl.
      by destruct (_ <? _).
Qed.

(** ** Dispatch *)

(** [k] is the least key of the queue that passes the test [f]. *)
Definition least_key (f : ReadyKey -> bool) (l : list ReadyKey) (k : ReadyKey) : Prop :=
  k ∈ l /\ f k = true /\ forall k', k' ∈ l -> f k' = true -> k' = k \/ key_lt k k'.

Lemma least_key_unique f l k1 k2 : least_key f l k1 -> least_key f l k2 -> k1 = k2.
Proof.
  intros (Hi1 & Hf1 & Hm1) (Hi2 & Hf2 & Hm2).
  destruct (Hm1 k2 Hi2 Hf2) as [|H12]; [done|]. destruct (Hm2 k1 Hi1 Hf1) as [|H21]; [done|].
  destruct (key_lt_irrefl k1). by etrans.
Qed.

(** The state change of a successful dispatch of [k] to [v] under lease [l]. *)
Definition dispatched (s s' : SchedulerState) (v : VirtualCpuId) (k : ReadyKey) (l : Lease) : Prop :=
  lease_thread l = key_thread k /\ lease_vcpu l = v /\
  lease_generation l = next_lease_generation s /\
  lease_for_vcpu s' v = Some l /\
  view_lifecycle <$> thread_view s' (key_thread k) = Some Running /\
  ready s' = ready_remove k (ready s).

Definition select_error (s : SchedulerState) (v : VirtualCpuId) (e : SchedulerError) : Prop :=
  (e = UnknownVirtualCpu v /\ vcpus s !! v = None) \/
  (e = VirtualCpuBusy v /\ is_Some (lease_for_vcpu s v)) \/
  (e = LeaseGenerationExhausted /\ 2 ^ 64 <= next_lease_generation s + 1).

Lemma select_wp v s :
  wf s ->
  wp (select v)
    (fun d s' =>
       match d with
       | Selected (Some l) => exists k, least_key (eligible s v) (ready s) k /\ dispatched s s' v k l
       | Selected None => s' = s /\ forall k, k ∈ ready s -> eligible s v k = false
       | _ => False
       end)
    (fun e s' => s' = s /\ select_error s v e) s.
Proof.
  intros Hwf. unfold select. do 2 wp_step. wp_step.
  apply wp_ok_or; [intros ?; split; [done|]; left; done|]. intros slot Hslot. wp_step.
  apply wp_guard.
  { intros Hb%bool_decide_eq_true. split; [done|]. right; left. split; [done|].
    unfold lease_for_vcpu. by rewrite Hslot. }
  intros Hidle%not_is_some_none.
  destruct (List.find _ _) as [k|] eqn:Hfind; [|wp_step; split; [done|]; by apply find_none_forall].
  pose proof (find_sorted_least _ _ _ (fr_sorted _ _ _ _ _ _ _ _ Hwf) Hfind) as Hleast.
  destruct (fr_owner _ _ _ _ _ _ _ _ Hwf k (proj1 Hleast)) as (_ & t & Ht & Hk).
  pose proof (fr_threads _ _ _ _ _ _ _ _ Hwf _ t ltac:(done) Ht) as [_ _ Hl].
  destruct (links_queued _ _ _ _ _ _ _ Hl Hk) as (Hlc & _).
  wp_step. unfold allocate_lease_generation. do 3 wp_step.
  apply wp_ok_or; unfold checked_add; destruct (Z.ltb_spec (next_lease_generation s + 1) (2 ^ 64));
    [done| |intros g [= <-]|done].
  { intros _. split; [done|]. right; right. done. }
  wp_run. apply wp_debug_assert; [by apply bool_decide_eq_true_2, Hleast|].
  unfold remove_ready. wp_run.
  eapply wp_transition; [done|by rewrite Hlc|]. wp_step.
  eapply wp_update_thread; [apply lookup_insert_eq|]. do 3 wp_step. simpl.
  eapply wp_expect; [apply lookup_insert_eq|]. wp_step.
  eapply wp_update_thread; [apply lookup_insert_eq|]. do 3 wp_step.
  eapply wp_expect; [done|]. wp_run.
  exists k. split; [exact Hleast|]. unfold dispatched, lease_for_vcpu, thread_view. simpl.
  rewrite !lookup_insert_eq. done.
Qed.

Lemma select_next_wp s :
  wf s ->
  wp select_next
    (fun d s' =>
       match d with
       | Selected (Some l) => exists k t, least_key (placeable s) (ready s) k /\
           threads s !! key_thread k = Some t /\ placement s t = Some (lease_vcpu l) /\
           slot_idle s (lease_vcpu l) = true /\ dispatched s s' (lease_vcpu l) k l
       | Selected None => s' = s /\ forall k, k ∈ ready s -> placeable s k = false
       | _ => False
       end)
    (fun e s' => s' = s /\ e = LeaseGenerationExhausted) s.
Proof.
  intros Hwf. unfold select_next. do 2 wp_step.
  destruct (List.find _ _) as [k|] eqn:Hfind; [|wp_step; split; [done|]; by apply find_none_forall].
  pose proof (find_sorted_least _ _ _ (fr_sorted _ _ _ _ _ _ _ _ Hwf) Hfind) as Hleast.
  destruct (fr_owner _ _ _ _ _ _ _ _ Hwf k (proj1 Hleast)) as (_ & t & Ht & _).
  wp_step. eapply wp_expect; [done|]. wp_step.
  destruct (placement_some _ _ _ Hwf Ht (proj1 (proj2 Hleast))) as (v & Hv & Hidle & Hin).
  eapply wp_expect; [exact Hv|].
  assert (Hel : forall k' t', threads s !! key_thread k' = Some t' ->
    eligible s v k' = true <-> v ∈ cores (affinity (config t'))).
  { intros k' t' Ht'. unfold eligible. rewrite Ht'. apply core_contains_spec.
    by pose proof (fr_threads _ _ _ _ _ _ _ _ Hwf _ t' ltac:(done) Ht') as [_ [? _ _ _ _] _]. }
  assert (Hk : least_key (eligible s v) (ready s) k).
  { split; [apply Hleast|]. split; [by apply (Hel k t)|]. intros k' Hin' He.
    apply Hleast; [done|].
    destruct (fr_owner _ _ _ _ _ _ _ _ Hwf k' Hin') as (_ & t' & Ht' & _).
    unfold placeable. rewrite Ht'. apply existsb_exists. exists v. split; [|done].
    by apply list_elem_of_In, (Hel k' t'). }
  eapply wp_mono; [by apply select_wp|..].
  - intros [ | | |[l|]| | | | | | | | | ] s'; try done.
    + intros (k' & Hk' & Hd). pose proof (least_key_unique _ _ _ _ Hk Hk') as <-.
      pose proof Hd as (_ & <- & _). exists k, t. done.
    + intros [-> Hnone]. destruct Hk as (Hk1 & Hk2 & _). by rewrite Hnone in Hk2.
  - intros e s' [-> He]. split; [done|]. unfold slot_idle in Hidle.
    destruct He as [[_ He]|[[_ He]|[He _]]]; [by rewrite He in Hidle| |done].
    unfold lease_for_vcpu in He. destruct (vcpus s !! v); [|done]. simpl in He.
    apply bool_decide_eq_true in Hidle. rewrite Hidle in He. by destruct He.
Qed.

(** ** What an accepted token or lease leaves behind *)

Lemma token_owner s i t tok :
  wf s -> threads s !! i = Some t -> active_wait t = Some tok ->
  token_thread tok = i /\ token_generation tok < next_wake_generation s.
Proof.
  intros Hwf Ht Hw. destruct (fr_threads _ _ _ _ _ _ _ _ Hwf i t ltac:(done) Ht) as [_ _ Hl].
  by destruct (links_waiting _ _ _ _ _ _ _ Hl Hw) as (_ & _ & _ & ?).
Qed.

Lemma lease_owner s i t l :
  wf s -> threads s !! i = Some t -> active_lease t = Some l ->
  lease_thread l = i /\ lease_generation l < next_lease_generation s.
Proof.
  intros Hwf Ht Hw. destruct (fr_threads _ _ _ _ _ _ _ _ Hwf i t ltac:(done) Ht) as [_ _ Hl].
  by destruct (links_leased _ _ _ _ _ _ _ Hl Hw) as (_ & _ & _ & [_ ? _ ? _]).
Qed.

Lemma dead_token_intro s s' t t' tok :
  wf s -> threads s !! token_thread tok = Some t -> active_wait t = Some tok ->
  threads s' = <[token_thread tok := t']> (threads s) -> active_wait t' = None ->
  next_wake_generation s' = next_wake_generation s -> dead_token tok s'.
Proof.
  intros Hwf Ht Hw Hths Hw' Hn. split.
  - rewrite Hn. by eapply token_owner.
  - rewrite Hths. intros i t2 [[<- <-]|[Hne Hi]]%lookup_insert_Some; [by rewrite Hw'|].
    intros Hw2. destruct (token_owner s i t2 tok Hwf Hi Hw2) as [? _]. done.
Qed.

Lemma dead_lease_intro s s' t t' l :
  wf s -> threads s !! lease_thread l = Some t -> active_lease t = Some l ->
  threads s' = <[lease_thread l := t']> (threads s) -> active_lease t' = None ->
  next_lease_generation s' = next_lease_generation s -> dead_lease l s'.
Proof.
  intros Hwf Ht Hw Hths Hw' Hn. split.
  - rewrite Hn. by eapply lease_owner.
  - rewrite Hths. intros i t2 [[<- <-]|[Hne Hi]]%lookup_insert_Some; [by rewrite Hw'|].
    intros Hw2. destruct (lease_owner s i t2 l Hwf Hi Hw2) as [? _]. done.
Qed.

Lemma finish_wait_kills tok c s :
  wf s -> wp (finish_wait tok c) (fun _ s' => dead_token tok s') (fun _ _ => True) s.
Proof.
  intros Hwf. unfold finish_wait. wp_step; wp_step; wp_step.
  apply wp_ok_or; [done|]. intros t Ht. wp_step. apply wp_guard; [done|].
  intros Hw%bool_decide_eq_false%dec_stable. wp_step.
  apply wp_allocate_sequence; [done|]. intros _. wp_step.
  destruct (fr_threads _ _ _ _ _ _ _ _ Hwf _ t ltac:(done) Ht) as [_ _ Hl].
  destruct (links_waiting _ _ _ _ _ _ _ Hl Hw) as (Hlc & _).
  eapply wp_update_thread; [done|]. wp_step.
  eapply wp_transition; [apply lookup_insert_eq|by simpl; rewrite Hlc|]. wp_step.
  eapply wp_enqueue; [apply lookup_insert_eq| |].
  { simpl. eapply fresh_key_not_queued, Hwf. }
  wp_step. eapply (dead_token_intro s _ t); simpl; rewrite ?insert_insert_eq; done.
Qed.

Lemma complete_kills l o s :
  wf s -> wp (complete l o) (fun _ s' => dead_lease l s') (fun _ _ => True) s.
Proof.
  intros Hwf. unfold complete. wp_step; wp_step; wp_step.
  apply wp_ok_or; [done|]. intros t Ht. wp_step. apply wp_guard; [done|].
  intros Hw%bool_decide_eq_false%dec_stable. wp_step. apply wp_guard; [done|]. intros _.
  destruct (fr_threads _ _ _ _ _ _ _ _ Hwf _ t ltac:(done) Ht) as [_ _ Hl].
  destruct (links_leased _ _ _ _ _ _ _ Hl Hw) as (Hlc & _ & _ & [Hslot _ _ _ _]).
  wp_step. destruct o; simpl; repeat first
    [ wp_step
    | apply wp_allocate_sequence; [done|intros _]
    | eapply wp_expect; [exact Hslot|]
    | eapply wp_update_thread; [exact Ht|]
    | eapply wp_transition; [apply lookup_insert_eq|by simpl; rewrite ?Hlc|]
    | eapply wp_enqueue; [apply lookup_insert_eq|simpl; eapply fresh_key_not_queued, Hwf|] ];
    eapply (dead_lease_intro s _ t); simpl; rewrite ?insert_insert_eq; done.
Qed.

(** A dead token or lease is refused. *)
Lemma dead_token_refused tok c s :
  dead_token tok s -> is_ok (fst (finish_wait tok c s)) = false.
Proof.
  intros [_ Hd]. unfold finish_wait, bind at 1, get.
  destruct (threads s !! token_thread tok) as [t|] eqn:Ht; [|done].
  unfold bind at 1; simpl. unfold bind at 1, guard. rewrite bool_decide_eq_true_2; [done|]. eauto.
Qed.

Lemma dead_lease_refused l o s : dead_lease l s -> is_ok (fst (complete l o s)) = false.
Proof.
  intros [_ Hd]. unfold complete, bind at 1, get.
  destruct (threads s !! lease_thread l) as [t|] eqn:Ht; [|done].
  unfold bind at 1; simpl. unfold bind at 1, guard. rewrite bool_decide_eq_true_2; [done|]. eauto.
Qed.

(** ** A concrete machine, for witnesses *)

Definition demo_profile : MachineSchedulerProfile :=
  mkProfile [mkVcpu 0 0; mkVcpu 1 0; mkVcpu 2 0] (mkPriorityRange 0 63) 100.

Definition demo_config (id priority : Z) : ScheduledThreadConfig :=
  mkConfig 1 id priority priority (Some 0) (mkCoreSet [0; 1; 2]).

Definition demo_token : WakeToken := mkToken 7 1.

Definition demo_lease : Lease := mkLease 1 7 0 1.

(** Thread 7 registered, queued, dispatched to virtual CPU 0. *)
Definition demo_running : SchedulerState :=
  run [Register (demo_config 7 20); MakeReady 7; Select 0] (new demo_profile).

(** Then blocked with a registered wait. *)
Definition demo_waiting : SchedulerState :=
  run [Complete demo_lease CWaiting; RegisterWait 7 ReadinessPending] demo_running.

(** Threads 7, 8 and 9 queued with priorities 20, 10 and 20. *)
Definition demo_queue : SchedulerState :=
  run [Register (demo_config 7 20); Register (demo_config 8 10); Register (demo_config 9 20);
       MakeReady 7; MakeReady 8; MakeReady 9] (new demo_profile).

Lemma demo_profile_wf : profile_wf demo_profile.
Proof. split; [|done]. repeat constructor; simpl; lia. Qed.

Lemma demo_cores_wf : core_set_wf (mkCoreSet [0; 1; 2]).
Proof. repeat constructor; simpl; lia. Qed.

Ltac demo_may :=
  let t := fresh in let H := fresh in
  intros t H; vm_compute in H; injection H as <-; split; [discriminate|reflexivity].

(** Adding one command to a run. *)
Lemma reachable_run p s cmds c :
  reachable p (run cmds s) -> command_ok (run cmds s) c -> reachable p (run (cmds ++ [c]) s).
Proof. intros Hr Hc. unfold run. rewrite foldl_app. simpl. by apply reach_step. Qed.

Ltac demo_step cmds c :=
  refine (reachable_run _ _ cmds c _ _);
  [|first [exact I|apply demo_cores_wf|demo_may]].

Lemma demo_running_reachable : reachable demo_profile demo_running.
Proof.
  demo_step [Register (demo_config 7 20); MakeReady 7] (Select 0).
  demo_step [Register (demo_config 7 20)] (MakeReady 7).
  demo_step ([] : list SchedulerCommand) (Register (demo_config 7 20)). apply reach_new.
Qed.

Lemma demo_waiting_reachable : reachable demo_profile demo_waiting.
Proof.
  demo_step [Complete demo_lease CWaiting] (RegisterWait 7 ReadinessPending).
  demo_step ([] : list SchedulerCommand) (Complete demo_lease CWaiting).
  apply demo_running_reachable.
Qed.

Lemma demo_queue_reachable : reachable demo_profile demo_queue.
Proof.
  demo_step [Register (demo_config 7 20); Register (demo_config 8 10); Register (demo_config 9 20);
    MakeReady 7; MakeReady 8] (MakeReady 9).
  demo_step [Register (demo_config 7 20); Register (demo_config 8 10); Register (demo_config 9 20);
    MakeReady 7] (MakeReady 8).
  demo_step [Register (demo_config 7 20); Register (demo_config 8 10); Register (demo_config 9 20)]
    (MakeReady 7).
  demo_step [Register (demo_config 7 20); Register (demo_config 8 10)] (Register (demo_config 9 20)).
  demo_step [Register (demo_config 7 20)] (Register (demo_config 8 10)).
  demo_step ([] : list SchedulerCommand) (Register (demo_config 7 20)). apply reach_new.
Qed.

(** ** Claims *)

(** C1. Every command of [SchedulerState::apply] issued on a well-formed state
    (core sets from [CoreSet::new]; [MakeReady] on a thread that is not running
    and has no registered wait) returns without panicking, so no [expect] and no
    [debug_assert!] fires, leaves a well-formed state, and on an error leaves the
    state exactly as it was. *)
Theorem apply_safe (c : SchedulerCommand) (s : SchedulerState)
    (Hwf : wf s) (Hc : command_ok s c) :
  fst (apply c s) <> Panic /\ wf (snd (apply c s)) /\
  (forall e, fst (apply c s) = Err e -> snd (apply c s) = s).
Proof.
  pose proof (apply_preserves c s Hwf Hc) as H. unfold wp in H.
  destruct (apply c s) as [[d|e|] s']; simpl; [by split_and!|subst; by split_and!|done].
Qed.

Lemma apply_safe_witness :
  wf demo_waiting /\ fst (apply (Wake demo_token) demo_waiting) <> Panic.
Proof.
  assert (Hw : wf demo_waiting)
    by (eapply reachable_wf_lemma; [apply demo_profile_wf|apply demo_waiting_reachable]).
  split; [exact Hw|]. apply (apply_safe (Wake demo_token) demo_waiting Hw). exact I.
Defined.

(** C2. Take a valid machine profile and any sequence of commands from
    [SchedulerState::new] in which core sets are well formed (what [CoreSet::new]
    builds) and every [MakeReady] names a thread that is neither [Running] nor
    waiting with a registered wait; without that obligation of the caller the
    property fails ([make_ready_leases_a_running_thread_twice]).  In every state
    so reached, a lease held by a virtual CPU names that CPU and a thread that
    has the same lease, is [Running] and has no entry in the ready queue; and no
    other virtual CPU holds a lease of that thread. *)
Theorem lease_exclusive (p : MachineSchedulerProfile) (s : SchedulerState)
    (Hp : profile_wf p) (Hr : reachable p s) :
  forall v l, lease_for_vcpu s v = Some l ->
    lease_vcpu l = v /\
    (exists t, threads s !! lease_thread l = Some t /\ active_lease t = Some l /\
       lifecycle t = Running /\ ready_key t = None) /\
    (forall k, k ∈ ready s -> key_thread k <> lease_thread l) /\
    forall v' l', lease_for_vcpu s v' = Some l' -> lease_thread l' = lease_thread l -> v' = v /\ l' = l.
Proof.
  intros v l Hl. pose proof (reachable_wf_lemma p s Hp Hr) as Hwf.
  assert (Hslot : forall v l, lease_for_vcpu s v = Some l -> vcpus s !! v = Some (mkSlot (Some l))).
  { intros v0 l0. unfold lease_for_vcpu. destruct (vcpus s !! v0) as [[]|]; simpl; congruence. }
  apply Hslot in Hl. destruct (fr_slots _ _ _ _ _ _ _ _ Hwf _ _ Hl) as (_ & Hv & t & Ht & Ha).
  pose proof (fr_threads _ _ _ _ _ _ _ _ Hwf _ t ltac:(done) Ht) as Hok.
  destruct (links_leased _ _ _ _ _ _ _ (to_links _ _ _ _ _ _ _ Hok) Ha) as (Hrun & Hkey & _).
  split; [done|]. split; [by exists t|]. split.
  - intros k Hk Heq. destruct (fr_owner _ _ _ _ _ _ _ _ Hwf k Hk) as (_ & t' & Ht' & Hk').
    rewrite Heq in Ht'. congruence.
  - intros v' l' Hl' Heq. apply Hslot in Hl'. destruct (fr_slots _ _ _ _ _ _ _ _ Hwf _ _ Hl') as (_ & Hv' & t' & Ht' & Ha').
    rewrite Heq in Ht'. simplify_eq. done.
Qed.

Lemma lease_exclusive_witness :
  exists l, lease_for_vcpu demo_running 0 = Some l /\
  (exists t, threads demo_running !! lease_thread l = Some t /\ lifecycle t = Running) /\
  (forall k, k ∈ ready demo_running -> key_thread k <> lease_thread l) /\
  (forall v2 l2, lease_for_vcpu demo_running v2 = Some l2 -> lease_thread l2 = lease_thread l -> v2 = 0).
Proof.
  exists demo_lease. split; [reflexivity|].
  destruct (lease_exclusive demo_profile demo_running demo_profile_wf demo_running_reachable 0 demo_lease eq_refl)
    as (_ & (t & Ht & _ & Hrun & _) & Hq & Hu).
  split; [exists t; split; assumption|]. split; [exact Hq|]. intros v2 l2 H2 Heq. exact (proj1 (Hu v2 l2 H2 Heq)).
Defined.

(** [Select(vcpu)] is total on well-formed states: it dispatches the least
    key (priority, then queueing order, then thread) among the ready threads whose
    affinity contains the virtual CPU, moves it from the queue to [Running] under
    a fresh lease, answers [Selected(None)] exactly when no ready thread is
    eligible, and reports an error only for an unknown or busy virtual CPU or an
    exhausted lease counter, leaving the state unchanged. *)
Theorem select_best (v : VirtualCpuId) (s : SchedulerState) (Hwf : wf s) :
  match select v s with
  | (Ok (Selected (Some l)), s') =>
      exists k, least_key (eligible s v) (ready s) k /\ dispatched s s' v k l
  | (Ok (Selected None), s') => s' = s /\ forall k, k ∈ ready s -> eligible s v k = false
  | (Err e, s') => s' = s /\ select_error s v e
  | _ => False
  end.
Proof.
  pose proof (select_wp v s Hwf) as H. unfold wp in H.
  destruct (select v s) as [[d|e|] s']; [|done|done]. by destruct d.
Qed.

Lemma select_best_witness :
  wf demo_queue /\ exists l, fst (select 1 demo_queue) = Ok (Selected (Some l)) /\
  least_key (eligible demo_queue 1) (ready demo_queue) (mkKey 10 2 8) /\ lease_thread l = 8.
Proof.
  assert (Hw : wf demo_queue)
    by (eapply reachable_wf_lemma; [apply demo_profile_wf|apply demo_queue_reachable]).
  split; [exact Hw|]. exists (mkLease 1 8 1 1). split; [reflexivity|].
  pose proof (select_best 1 demo_queue Hw) as H.
  change (select 1 demo_queue) with
    (Ok (E := SchedulerError) (Selected (Some (mkLease 1 8 1 1))), snd (select 1 demo_queue)) in H.
  destruct H as (k & Hk & Hd). split; [|reflexivity].
  replace (mkKey 10 2 8) with k; [exact Hk|].
  destruct Hk as (Hin & _). destruct Hd as (Ht & _). vm_compute in Hin, Ht.
  repeat (apply elem_of_cons in Hin as [->|Hin]; [first [reflexivity|discriminate]|]).
  by apply elem_of_nil in Hin.
Defined.

(** [SelectNext] is total and work conserving on well-formed states: it
    answers [Selected(None)] exactly when no ready thread has an idle virtual CPU
    in its affinity; otherwise it dispatches the least such thread, on the idle
    virtual CPU its placement rule chooses (ideal, then last, then first idle). *)
Theorem select_next_best (s : SchedulerState) (Hwf : wf s) :
  match select_next s with
  | (Ok (Selected (Some l)), s') =>
      exists k t, least_key (placeable s) (ready s) k /\ threads s !! key_thread k = Some t /\
        placement s t = Some (lease_vcpu l) /\ slot_idle s (lease_vcpu l) = true /\
        dispatched s s' (lease_vcpu l) k l
  | (Ok (Selected None), s') => s' = s /\ forall k, k ∈ ready s -> placeable s k = false
  | (Err e, s') => s' = s /\ e = LeaseGenerationExhausted
  | _ => False
  end.
Proof.
  pose proof (select_next_wp s Hwf) as H. unfold wp in H.
  destruct (select_next s) as [[d|e|] s']; [|done|done]. by destruct d.
Qed.

Lemma select_next_best_witness :
  wf demo_queue /\ exists k, least_key (placeable demo_queue) (ready demo_queue) k /\
    key_thread k = 8.
Proof.
  assert (Hw : wf demo_queue)
    by (eapply reachable_wf_lemma; [apply demo_profile_wf|apply demo_queue_reachable]).
  split; [exact Hw|]. pose proof (select_next_best demo_queue Hw) as H.
  change (select_next demo_queue) with
    (Ok (E := SchedulerError) (Selected (Some (mkLease 1 8 0 1))), snd (select_next demo_queue)) in H.
  destruct H as (k & t & Hk & _ & _ & _ & Hd). exists k. split; [exact Hk|].
  destruct Hd as (Hd & _). symmetry. exact Hd.
Defined.

(** A wake token is single use: once [Wake] or [CancelWait] has accepted it on
    a well-formed state, no later [Wake] or [CancelWait] accepts it, whatever
    commands run in between. *)
Theorem wake_token_single_use (tok : WakeToken) (c1 c2 : bool) (s s' : SchedulerState)
    (d : SchedulerDecision) (cmds : list SchedulerCommand)
    (Hwf : wf s) (Hok : finish_wait tok c1 s = (Ok d, s')) :
  is_ok (fst (finish_wait tok c2 (run cmds s'))) = false.
Proof.
  apply dead_token_refused, dead_token_run.
  pose proof (finish_wait_kills tok c1 s Hwf) as H. unfold wp in H. by rewrite Hok in H.
Qed.

Lemma wake_token_single_use_witness :
  is_ok (fst (finish_wait demo_token true
    (run [Select 1] (snd (finish_wait demo_token false demo_waiting))))) = false.
Proof.
  apply (wake_token_single_use demo_token false true demo_waiting
    (snd (finish_wait demo_token false demo_waiting)) (Woken 7) [Select 1]).
  - eapply reachable_wf_lemma; [apply demo_profile_wf|apply demo_waiting_reachable].
  - vm_compute. reflexivity.
Defined.

(** A lease is single use: once [Complete] has accepted it on a well-formed
    state, no later [Complete] accepts it, whatever commands run in between (the
    same thread and virtual CPU included). *)
Theorem lease_single_use (l : Lease) (o1 o2 : Completion) (s s' : SchedulerState)
    (d : SchedulerDecision) (cmds : list SchedulerCommand)
    (Hwf : wf s) (Hok : complete l o1 s = (Ok d, s')) :
  is_ok (fst (complete l o2 (run cmds s'))) = false.
Proof.
  apply dead_lease_refused, dead_lease_run.
  pose proof (complete_kills l o1 s Hwf) as H. unfold wp in H. by rewrite Hok in H.
Qed.

Lemma lease_single_use_witness :
  is_ok (fst (complete demo_lease CExited
    (run [Select 0] (snd (complete demo_lease CPreempted demo_running))))) = false.
Proof.
  apply (lease_single_use demo_lease CPreempted CExited demo_running
    (snd (complete demo_lease CPreempted demo_running)) (Completed 7) [Select 0]).
  - eapply reachable_wf_lemma; [apply demo_profile_wf|apply demo_running_reachable].
  - vm_compute. reflexivity.
Defined.

(** [MakeReady] accepts a running thread and queues it while it still holds its
    lease, so the next [Select] leases it a second time: from
    [SchedulerState::new], after Register, MakeReady, Select(0), MakeReady,
    Select(1), virtual CPUs 0 and 1 both hold a lease of the same thread. *)
Theorem make_ready_leases_a_running_thread_twice :
  let s := run [MakeReady 7; Select 1] demo_running in
  exists l0 l1, lease_for_vcpu s 0 = Some l0 /\ lease_for_vcpu s 1 = Some l1 /\
    lease_thread l0 = 7 /\ lease_thread l1 = 7.
Proof. exists (mkLease 1 7 0 1), (mkLease 1 7 1 2). vm_compute. by split_and!. Qed.

(** [MakeReady] accepts a waiting thread with a registered wait and leaves the
    wake token active; the later [Wake] of that token then panics at
    [expect("a registered waiter is waiting")]. *)
Theorem make_ready_then_wake_panics :
  fst (apply (MakeReady 7) demo_waiting) = Ok (Enqueued 7 2) /\
  fst (apply (Wake demo_token) (run [MakeReady 7] demo_waiting)) = Panic.
Proof. split; by vm_compute. Qed.

(** A thread that a sequence of requests has brought to [Exited] or [Faulted]
    stays there, and a process accepts at most three life-cycle requests from its
    creation, whatever is requested. *)
Theorem lifecycles_end (t : ThreadLifecycle) (treq : list ThreadLifecycle)
    (preq : list ProcessLifecycle) (Ht : t = Exited \/ t = Faulted) :
  run_requests transition_thread treq t = t /\
  (accepted_requests preq PCreated <= 3)%nat.
Proof.
  split; [by apply run_requests_terminal|]. apply (accepted_requests_rank preq PCreated).
Qed.

Lemma lifecycles_end_witness :
  run_requests transition_thread [Ready; Running; Exited] Faulted = Faulted /\
  (accepted_requests [PRunning; PExited; PTerminating; PExited] PCreated <= 3)%nat.
Proof. apply (lifecycles_end Faulted). right. reflexivity. Defined.

(** [CoreSet::new] keeps exactly the requested identifiers, sorted and without
    duplicates, all of them known to the profile; on such a set, and on the
    profile, the binary-search membership test decides membership. *)
Theorem core_set_membership (p : MachineSchedulerProfile) (requested : list VirtualCpuId)
    (cs : CoreSet) (Hp : profile_wf p) (Hcs : core_set_new p requested = Ok cs) :
  forall id, (core_contains cs id = true <-> id ∈ requested) /\
    (id ∈ requested -> profile_contains p id = true /\ id ∈ ids (vcpus_of p)).
Proof.
  destruct (core_set_new_wf p requested cs Hcs) as (Hwf & _ & Hel & Hk). intros id. split.
  - rewrite core_contains_spec by done. apply Hel.
  - intros Hin. apply Hel, Hk in Hin. split; [done|]. by apply profile_contains_spec.
Qed.

Lemma core_set_membership_witness :
  (core_contains (mkCoreSet [0; 2]) 2 = true) <-> (2 ∈ [2; 0; 2]).
Proof.
  apply (core_set_membership demo_profile [2; 0; 2] (mkCoreSet [0; 2])).
  - apply demo_profile_wf.
  - vm_compute. reflexivity.
Defined.
