(* ===== verification/CpuBits.v ===== *)
(** * Fixed-width bit-vector primitives (crates/cpu/src/semantics/bits.rs)

    A [BitWidth] is its number of bits; [BitWidth_new] is the only constructor,
    so widths are in 1..=128 ([width_ok]).  [u128] values are integers below
    [2^128]; shifts and complements keep that width. *)

From S2P Require Import Prelude.

Inductive BitError : Type :=
| InvalidWidth (bits : Z)
| RangeOutsideValue (lsb width value_width : Z)
| ExtensionNarrows (source_width destination_width : Z)
| NonIntegralReplication (pattern_width destination_width : Z).

Definition BitWidth_new (bits : Z) : Result BitError Z :=
  if (bits =? 0) || (128 <? bits) then Err (InvalidWidth bits) else Ok bits.

Definition width_ok (w : Z) : Prop := 1 <= w <= 128.

(** [BitWidth::mask] *)
Definition mask (w : Z) : Z :=
  if w =? 128 then umax 128 else shl 128 1 w - 1.

(** [BitWidth::truncate] *)
Definition truncate (w value : Z) : Z := Z.land value (mask w).

Definition checked_range (lsb width value_width : Z) : Result BitError unit :=
  if value_width <? lsb + width then Err (RangeOutsideValue lsb width value_width) else Ok tt.

Definition extract (value value_width lsb field_width : Z) : Result BitError Z :=
  let? _u := checked_range lsb field_width value_width in
  Ok (Z.land (shr value lsb) (mask field_width)).

Definition insert_field (base value_width field lsb field_width : Z) : Result BitError Z :=
  let? _u := checked_range lsb field_width value_width in
  let field_mask := shl 128 (mask field_width) lsb in
  Ok (Z.land (Z.lor (Z.land base (unot 128 field_mask))
                    (shl 128 (Z.land field (mask field_width)) lsb))
             (mask value_width)).

Definition sign_extend (value source_width destination_width : Z) : Result BitError Z :=
  if destination_width <? source_width
  then Err (ExtensionNarrows source_width destination_width)
  else
    let value := truncate source_width value in
    let sign := shl 128 1 (source_width - 1) in
    let extended :=
      if Z.land value sign =? 0 then value
      else Z.lor value (Z.land (mask destination_width) (unot 128 (mask source_width))) in
    Ok (truncate destination_width extended).

Definition rotate_right (value w amount : Z) : Z :=
  let amount := amount mod w in
  let value := truncate w value in
  if amount =? 0 then value
  else truncate w (Z.lor (shr value amount) (shl 128 value (w - amount))).

Definition rotate_left (value w amount : Z) : Z :=
  rotate_right value w (w - amount mod w).

(** The [while offset < destination_width] loop of [replicate]. *)
Fixpoint replicate_loop (fuel : nat) (pattern pattern_width destination offset result : Z) : Z :=
  match fuel with
  | O => result
  | S fuel' =>
    if offset <? destination
    then replicate_loop fuel' pattern pattern_width destination (offset + pattern_width)
           (Z.lor result (shl 128 pattern offset))
    else result
  end.

(** 128 iterations are enough: every iteration advances [offset] by at least 1. *)
Definition replicate (pattern pattern_width destination_width : Z) : Result BitError Z :=
  if negb (destination_width mod pattern_width =? 0)
  then Err (NonIntegralReplication pattern_width destination_width)
  else
    let pattern := truncate pattern_width pattern in
    Ok (truncate destination_width
          (replicate_loop 128 pattern pattern_width destination_width 0 0)).

(** ** Masks and truncation *)

Lemma mask_ones w : width_ok w -> mask w = Z.ones w.
Proof.
  intros [Hw1 Hw2]. unfold mask, umax. destruct (Z.eqb_spec w 128) as [->|Hne]; [done|].
  unfold shl. rewrite wrap_small.
  - rewrite Z.ones_equiv, Z.shiftl_mul_pow2, Z.mul_1_l by lia. lia.
  - rewrite Z.shiftl_mul_pow2, Z.mul_1_l by lia. split; [apply Z.pow_nonneg; lia|].
    apply Z.pow_lt_mono_r; lia.
Qed.

Lemma truncate_wrap w z : width_ok w -> truncate w z = wrap w z.
Proof. intros Hw. unfold truncate. rewrite mask_ones by done. apply land_ones_wrap. destruct Hw. lia. Qed.

Lemma testbit_truncate w z i :
  width_ok w -> 0 <= i -> Z.testbit (truncate w z) i = (i <? w) && Z.testbit z i.
Proof. intros Hw Hi. rewrite truncate_wrap by done. apply testbit_wrap; destruct Hw; lia. Qed.

Lemma truncate_range w z : width_ok w -> in_range w (truncate w z).
Proof. intros Hw. rewrite truncate_wrap by done. apply wrap_range. destruct Hw. lia. Qed.

Lemma truncate_small w z : width_ok w -> in_range w z -> truncate w z = z.
Proof. intros Hw Hz. rewrite truncate_wrap by done. by apply wrap_small. Qed.

Lemma mask_range w : width_ok w -> in_range w (mask w).
Proof.
  intros Hw. rewrite mask_ones by done. destruct Hw. rewrite Z.ones_equiv. split; [|lia].
  assert (0 < 2 ^ w) by (apply Z.pow_pos_nonneg; lia). lia.
Qed.

Lemma testbit_mask w i : width_ok w -> 0 <= i -> Z.testbit (mask w) i = (i <? w).
Proof. intros Hw Hi. rewrite mask_ones by done. apply testbit_ones; destruct Hw; lia. Qed.

(** Rewrites every bit operation to its bits; side conditions by [lia]. *)
Ltac bits :=
  repeat first
    [ rewrite Z.land_spec | rewrite Z.lor_spec | rewrite Z.lxor_spec
    | rewrite testbit_shl by lia | rewrite testbit_unot by lia
    | rewrite testbit_mask by (try lia; done)
    | rewrite testbit_truncate by (try lia; done)
    | rewrite testbit_wrap by lia | rewrite Z.shiftr_spec by lia
    | rewrite Z.bits_0 ].

(** Case analysis on the bounds tests of bit indices. *)
Ltac bounds :=
  repeat match goal with |- context [?a <? ?b] => destruct (Z.ltb_spec a b); try lia end;
  rewrite ?andb_false_r, ?andb_true_r, ?orb_false_r, ?andb_false_l; simpl.

(** ** Rotation *)

(** Bit [i] of a right rotation is bit [(i + amount) mod w] of the value. *)
Lemma testbit_rotate_right value w amount i :
  width_ok w -> 0 <= amount -> 0 <= i < w ->
  Z.testbit (rotate_right value w amount) i = Z.testbit value ((i + amount) mod w).
Proof.
  intros Hw Ha Hi. pose proof Hw as [Hw1 Hw2]. unfold rotate_right.
  pose proof (Z.mod_pos_bound amount w ltac:(lia)) as Hr.
  assert (Hmod : (i + amount) mod w = (i + amount mod w) mod w) by (by rewrite Zplus_mod_idemp_r).
  rewrite Hmod. set (r := amount mod w) in *. clearbody r.
  assert (Hsum : (i + r) mod w = if i + r <? w then i + r else i + r - w).
  { destruct (Z.ltb_spec (i + r) w); [apply Z.mod_small; lia|].
    replace (i + r) with (i + r - w + 1 * w) at 1 by lia. rewrite Z_mod_plus_full.
    apply Z.mod_small. lia. }
  rewrite Hsum. destruct (Z.eqb_spec r 0) as [->|Hr0].
  - bits. bounds. f_equal. lia.
  - unfold shr. bits. destruct (Z.ltb_spec (i + r) w); bounds.
    + rewrite (Z.testbit_neg_r _ (i - (w - r))) by lia. apply orb_false_r.
    + bits. bounds. f_equal. lia.
Qed.

Lemma rotate_right_range value w amount : width_ok w -> in_range w (rotate_right value w amount).
Proof. intros Hw. unfold rotate_right. case_match; by apply truncate_range. Qed.

(** ** Replication *)

Lemma replicate_loop_bits fuel pattern pw dw offset result i :
  width_ok pw -> width_ok dw -> dw mod pw = 0 -> in_range pw pattern -> 0 <= i < dw ->
  0 <= offset <= dw -> offset mod pw = 0 -> dw - offset <= Z.of_nat fuel ->
  (forall j, 0 <= j < offset -> Z.testbit result j = Z.testbit pattern (j mod pw)) ->
  (forall j, offset <= j -> Z.testbit result j = false) ->
  Z.testbit (replicate_loop fuel pattern pw dw offset result) i = Z.testbit pattern (i mod pw).
Proof.
  intros Hpw Hdw Hdiv Hpat Hi. pose proof Hpw as [Hp1 Hp2]. pose proof Hdw as [Hd1 Hd2].
  revert offset result. induction fuel as [|fuel IH]; intros offset result Hoff Hmod Hfuel Hlow Hhigh.
  { simpl. apply Hlow. lia. }
  cbn [replicate_loop]. destruct (Z.ltb_spec offset dw) as [Hlt|Hge]; [|apply Hlow; lia].
  apply Z.mod_divide in Hmod as [q Hq]; [|lia]. apply Z.mod_divide in Hdiv as [d Hd]; [|lia].
  assert (Hqd : q < d) by nia. assert (Hnext : offset + pw <= dw) by nia.
  apply IH; try lia.
  - rewrite Hq. replace (q * pw + pw) with ((q + 1) * pw) by lia. apply Z.mod_mul. lia.
  - intros j Hj. bits. destruct (Z.lt_ge_cases j offset).
    + rewrite Hlow by lia. rewrite (Z.testbit_neg_r pattern (j - offset)) by lia.
      by rewrite andb_false_r, orb_false_r.
    + rewrite Hhigh by lia. bounds. rewrite <- (Z.mod_small (j - offset) pw) by lia. f_equal.
      rewrite Hq. replace (j - q * pw) with (j + (- q) * pw) by lia. apply Z_mod_plus_full.
  - intros j Hj. bits. rewrite Hhigh by lia. simpl.
    rewrite (testbit_high pw); [by rewrite andb_false_r|lia|done].
Qed.

#[global] Arguments replicate_loop : simpl never.

Lemma replicate_ok pattern pw dw :
  width_ok pw -> width_ok dw -> dw mod pw = 0 ->
  exists r, replicate pattern pw dw = Ok r /\ in_range dw r /\
    forall i, 0 <= i < dw -> Z.testbit r i = Z.testbit pattern (i mod pw).
Proof.
  intros Hpw Hdw Hdiv. unfold replicate. rewrite Hdiv. simpl.
  eexists. split; [reflexivity|]. split; [by apply truncate_range|].
  intros i Hi. rewrite testbit_truncate by (try lia; done). bounds.
  pose proof Hpw as [? ?]. pose proof Hdw as [? ?].
  rewrite (replicate_loop_bits 128); try done; try lia; try by apply truncate_range.
  - pose proof (Z.mod_pos_bound i pw ltac:(lia)). rewrite testbit_truncate by (try lia; done).
    by bounds.
  - intros j Hj. apply Z.bits_0.
Qed.

(** ** Fields and extension *)

Lemma insert_field_bits base vw field lsb fw r i :
  width_ok vw -> width_ok fw -> 0 <= lsb -> insert_field base vw field lsb fw = Ok r -> 0 <= i ->
  Z.testbit r i = (i <? vw) &&
    (if (lsb <=? i) && (i <? lsb + fw) then Z.testbit field (i - lsb) else Z.testbit base i).
Proof.
  intros Hvw Hfw Hl Hr Hi. unfold insert_field, checked_range in Hr.
  destruct (Z.ltb_spec vw (lsb + fw)) as [|Hle]; simpl in Hr; [done|]. injection Hr as <-.
  pose proof Hvw as [? ?]. pose proof Hfw as [? ?].
  destruct (Z.leb_spec lsb i).
  - bits. destruct (Z.ltb_spec i vw); simpl; [|by rewrite andb_false_r]. rewrite andb_true_r.
    bounds; destruct (Z.testbit field (i - lsb)), (Z.testbit base i); done.
  - bits. rewrite !(Z.testbit_neg_r _ (i - lsb)) by lia. bits.
    destruct (Z.ltb_spec i vw); simpl; [|by rewrite andb_false_r]. rewrite andb_true_r.
    bounds; by destruct (Z.testbit base i).
Qed.

Lemma field_range w z : width_ok w -> in_range w (Z.land z (mask w)).
Proof. intros Hw. by apply truncate_range. Qed.

(** Two's complement value of a bit-vector whose high bits repeat the sign. *)
Lemma sign_extend_arith value sw dw :
  width_ok sw -> width_ok dw -> sw <= dw ->
  sign_extend value sw dw = Ok (wrap dw (to_signed sw (wrap sw value))).
Proof.
  intros Hsw Hdw Hle. unfold sign_extend.
  destruct (Z.ltb_spec dw sw); [lia|]. f_equal.
  pose proof Hsw as [? ?]. pose proof Hdw as [? ?].
  rewrite (truncate_wrap sw) by done. set (v := wrap sw value).
  assert (Hv : in_range sw v) by (apply wrap_range; lia). clearbody v.
  assert (Hsign : shl 128 1 (sw - 1) = 2 ^ (sw - 1)).
  { unfold shl. rewrite Z.shiftl_mul_pow2, Z.mul_1_l by lia. apply wrap_small.
    split; [apply Z.pow_nonneg; lia|apply Z.pow_lt_mono_r; lia]. }
  rewrite Hsign, truncate_wrap by done.
  assert (Hb : (Z.land v (2 ^ (sw - 1)) =? 0) = negb (Z.testbit v (sw - 1))).
  { rewrite <- bit_set_pow2 by lia. unfold bit_set. by rewrite negb_involutive. }
  rewrite Hb, testbit_top by (done || lia). unfold to_signed.
  assert (Hlt2 : (v <? 2 ^ (sw - 1)) = negb (2 ^ (sw - 1) <=? v)) by apply Z.ltb_antisym.
  rewrite Hlt2. destruct (2 ^ (sw - 1) <=? v); simpl; [|done].
  apply Z.bits_inj'. intros i Hi. bits.
  destruct (Z.ltb_spec i dw); simpl; [|done]. bounds.
  - rewrite <- (Z.mod_pow2_bits_low (v - 2 ^ sw) sw) by lia.
    replace (v - 2 ^ sw) with (v + (-1) * 2 ^ sw) by lia.
    rewrite Z_mod_plus_full, Z.mod_pow2_bits_low by lia. done.
  - rewrite (testbit_high sw v) by (done || lia). simpl. symmetry.
    replace (v - 2 ^ sw) with (- (2 ^ sw - v)) by lia. destruct Hv as [Hv1 Hv2].
    rewrite Z.bits_opp by lia. apply negb_true_iff, (testbit_high sw); [lia|split; lia].
Qed.

Lemma sign_extend_to_signed value sw dw r :
  width_ok sw -> width_ok dw -> sign_extend value sw dw = Ok r ->
  to_signed dw r = to_signed sw (wrap sw value).
Proof.
  intros Hsw Hdw Hr. pose proof Hsw as [? ?]. pose proof Hdw as [? ?].
  destruct (Z.le_gt_cases sw dw) as [Hle|Hgt].
  - rewrite sign_extend_arith in Hr by done. injection Hr as <-.
    apply to_signed_wrap; [lia|].
    pose proof (to_signed_range sw (wrap sw value) ltac:(lia) ltac:(apply wrap_range; lia)).
    pose proof (Z.pow_le_mono_r 2 (sw - 1) (dw - 1) ltac:(lia) ltac:(lia)). lia.
  - unfold sign_extend in Hr. destruct (Z.ltb_spec dw sw); [done|lia].
Qed.

Lemma extract_bits value vw lsb fw r i :
  width_ok fw -> 0 <= lsb -> extract value vw lsb fw = Ok r -> 0 <= i ->
  Z.testbit r i = (i <? fw) && Z.testbit value (i + lsb).
Proof.
  intros Hfw Hl Hr Hi. unfold extract, checked_range in Hr.
  destruct (Z.ltb_spec vw (lsb + fw)); simpl in Hr; [done|]. injection Hr as <-.
  unfold shr. bits. apply andb_comm.
Qed.

(** ** Claims *)

(** Field insertion and extraction are inverse on every legal field: when
    [insert] succeeds, extracting the same field returns the inserted value
    truncated to the field, extracting any disjoint field returns what the base
    held there, and the result stays inside the value's width. *)
Theorem insert_extract_roundtrip base vw field lsb fw r :
  width_ok vw -> width_ok fw -> 0 <= lsb -> insert_field base vw field lsb fw = Ok r ->
  in_range vw r /\ extract r vw lsb fw = Ok (truncate fw field) /\
  forall lsb' fw', width_ok fw' -> 0 <= lsb' -> lsb' + fw' <= vw ->
    lsb' + fw' <= lsb \/ lsb + fw <= lsb' ->
    extract r vw lsb' fw' = extract base vw lsb' fw'.
Proof.
  intros Hvw Hfw Hl Hr. pose proof Hvw as [? ?]. pose proof Hfw as [? ?].
  assert (Hb : forall i, 0 <= i -> _) by (intros i; exact (insert_field_bits _ _ _ _ _ _ i Hvw Hfw Hl Hr)).
  assert (Hfit : lsb + fw <= vw).
  { unfold insert_field, checked_range in Hr. destruct (Z.ltb_spec vw (lsb + fw)); [done|lia]. }
  split_and!.
  - unfold insert_field, checked_range in Hr. destruct (Z.ltb_spec vw (lsb + fw)); [done|].
    injection Hr as <-. by apply field_range.
  - unfold extract, checked_range. destruct (Z.ltb_spec vw (lsb + fw)); [lia|]. cbn. f_equal.
    apply Z.bits_inj'. intros i Hi. unfold shr. bits. destruct (Z.ltb_spec i fw); simpl;
      [rewrite andb_true_r|apply andb_false_r].
    rewrite Hb by lia. bounds. destruct (Z.leb_spec lsb (i + lsb)); [|lia]. simpl. f_equal. lia.
  - intros lsb' fw' Hfw' Hl' Hfit' Hdis. pose proof Hfw' as [? ?].
    unfold extract, checked_range. destruct (Z.ltb_spec vw (lsb' + fw')); [lia|]. cbn. f_equal.
    apply Z.bits_inj'. intros i Hi. unfold shr. bits. destruct (Z.ltb_spec i fw'); simpl;
      [rewrite !andb_true_r|by rewrite !andb_false_r].
    rewrite Hb by lia. bounds; destruct (Z.leb_spec lsb (i + lsb')); done || lia.
Qed.

Lemma insert_extract_roundtrip_witness :
  insert_field 255 8 0 2 4 = Ok 195 /\ extract 195 8 2 4 = Ok 0.
Proof.
  split; [reflexivity|]. unshelve eapply (insert_extract_roundtrip 255 8 0 2 4 195 _ _ _ _);
    [split; lia|split; lia|lia|reflexivity].
Defined.

(** [rotate_left] undoes [rotate_right] at every width and for every
    amount, reduced or not, up to the truncation both apply to their operand. *)
Theorem rotate_left_right value w amount :
  width_ok w -> 0 <= amount ->
  in_range w (rotate_right value w amount) /\
  rotate_left (rotate_right value w amount) w amount = truncate w value.
Proof.
  intros Hw Ha. pose proof Hw as [? ?]. split; [by apply rotate_right_range|].
  pose proof (Z.mod_pos_bound amount w ltac:(lia)) as Hm. unfold rotate_left.
  apply (in_range_bits_ext w); [lia|by apply rotate_right_range|by apply truncate_range|].
  intros i Hi. rewrite testbit_rotate_right by (done || lia).
  pose proof (Z.mod_pos_bound (i + (w - amount mod w)) w ltac:(lia)).
  rewrite testbit_rotate_right by (done || lia). bits. bounds. f_equal.
  rewrite Zplus_mod_idemp_l. rewrite <- (Zplus_mod_idemp_r amount).
  replace (i + (w - amount mod w) + amount mod w) with (i + 1 * w) by lia.
  rewrite Z_mod_plus_full. apply Z.mod_small. lia.
Qed.

Lemma rotate_left_right_witness :
  rotate_right 129 8 9 = 192 /\ rotate_left (rotate_right 129 8 9) 8 9 = truncate 8 129.
Proof. split; [reflexivity|]. apply (rotate_left_right 129 8 9); [split; lia|lia]. Defined.

(** Sign extension to an equal or wider width succeeds and preserves the
    two's complement value; narrowing is reported as an error. *)
Theorem sign_extend_spec value sw dw :
  width_ok sw -> width_ok dw ->
  (sw <= dw -> exists r, sign_extend value sw dw = Ok r /\ in_range dw r /\
     to_signed dw r = to_signed sw (wrap sw value)) /\
  (dw < sw -> sign_extend value sw dw = Err (ExtensionNarrows sw dw)).
Proof.
  intros Hsw Hdw. split; intros Hc.
  - pose proof (sign_extend_arith value sw dw Hsw Hdw Hc) as Hr. eexists. split; [exact Hr|].
    split; [destruct Hdw; apply wrap_range; lia|]. by eapply sign_extend_to_signed.
  - unfold sign_extend. destruct (Z.ltb_spec dw sw); [done|lia].
Qed.

Lemma sign_extend_spec_witness :
  sign_extend 128 8 16 = Ok 65408 /\
  (8 <= 16 -> exists r, sign_extend 128 8 16 = Ok r /\ in_range 16 r /\
     to_signed 16 r = to_signed 8 (wrap 8 128)).
Proof. split; [reflexivity|]. apply (sign_extend_spec 128 8 16); split; lia. Defined.
