(* ===== verification/CpuArith.v ===== *)
(** * Integer arithmetic, conditions, shifts and logical immediates

    Models crates/cpu/src/semantics/arithmetic.rs, conditions.rs, shifts.rs and
    immediate.rs on top of the bit-vector primitives of [CpuBits].  Every
    operation is stated at the width the code gives it: [u128] arithmetic wraps
    at 128 bits, masks are complemented at their own width. *)

From S2P Require Import Prelude CpuBits.

(** ** arithmetic.rs *)

Record AddWithCarryResult := mkAWC {
  awc_result : Z;
  awc_carry_out : bool;
  awc_overflow : bool
}.

(** [u128::overflowing_add] *)
Definition overflowing_add (w a b : Z) : Z * bool := (wrap w (a + b), 2 ^ w <=? a + b).

Definition add_with_carry (lhs rhs : Z) (carry_in : bool) (width : Z) : AddWithCarryResult :=
  let lhs := truncate width lhs in
  let rhs := truncate width rhs in
  let carry := b2z carry_in in
  let '(partial, first_carry) := overflowing_add 128 lhs rhs in
  let '(sum, second_carry) := overflowing_add 128 partial carry in
  let result := truncate width sum in
  let carry_out := if width =? 128 then first_carry || second_carry else mask width <? sum in
  let sign := shl 128 1 (width - 1) in
  let overflow :=
    negb (Z.land (Z.land (unot 128 (Z.lxor lhs rhs)) (Z.lxor lhs result)) sign =? 0) in
  mkAWC result carry_out overflow.

Definition subtract_with_carry (lhs rhs : Z) (carry_in : bool) (width : Z) : AddWithCarryResult :=
  add_with_carry lhs (unot 128 (truncate width rhs)) carry_in width.

Definition subtract (lhs rhs width : Z) : AddWithCarryResult :=
  subtract_with_carry lhs rhs true width.

(** ** conditions.rs *)

Inductive Condition :=
| CEq | CNe | CCs | CCc | CMi | CPl | CVs | CVc | CHi | CLs | CGe | CLt | CGt | CLe | CAl | CNv.

#[global] Instance Condition_eq_dec : EqDecision Condition.
Proof. solve_decision. Defined.

Definition Condition_from_encoding (encoding : Z) : Condition :=
  match Z.land encoding 15 with
  | 0 => CEq | 1 => CNe | 2 => CCs | 3 => CCc | 4 => CMi | 5 => CPl | 6 => CVs | 7 => CVc
  | 8 => CHi | 9 => CLs | 10 => CGe | 11 => CLt | 12 => CGt | 13 => CLe | 14 => CAl
  | _ => CNv
  end.

(** [self as u8]: the position of the variant. *)
Definition Condition_encoding (c : Condition) : Z :=
  match c with
  | CEq => 0 | CNe => 1 | CCs => 2 | CCc => 3 | CMi => 4 | CPl => 5 | CVs => 6 | CVc => 7
  | CHi => 8 | CLs => 9 | CGe => 10 | CLt => 11 | CGt => 12 | CLe => 13 | CAl => 14 | CNv => 15
  end.

Record Nzcv := mkNzcv { negative : bool; zero : bool; carry : bool; overflow : bool }.

Definition from_a64_nzcv (value : Z) : Nzcv :=
  mkNzcv (bit_set value (2 ^ 31)) (bit_set value (2 ^ 30))
         (bit_set value (2 ^ 29)) (bit_set value (2 ^ 28)).

Definition packed (f : Nzcv) : Z :=
  Z.lor (Z.lor (Z.lor (shl 32 (b2z f.(negative)) 31) (shl 32 (b2z f.(zero)) 30))
               (shl 32 (b2z f.(carry)) 29))
        (shl 32 (b2z f.(overflow)) 28).

Definition base_condition (flags : Nzcv) (condition : Condition) : bool :=
  match condition with
  | CEq | CNe => flags.(zero)
  | CCs | CCc => flags.(carry)
  | CMi | CPl => flags.(negative)
  | CVs | CVc => flags.(overflow)
  | CHi | CLs => flags.(carry) && negb flags.(zero)
  | CGe | CLt => Bool.eqb flags.(negative) flags.(overflow)
  | CGt | CLe => negb flags.(zero) && Bool.eqb flags.(negative) flags.(overflow)
  | CAl | CNv => true
  end.

Definition inverted (condition : Condition) : bool :=
  match condition with
  | CNe | CCc | CPl | CVc | CLs | CLt | CLe => true
  | _ => false
  end.

Definition evaluate_a64 (condition : Condition) (nzcv : Z) : bool :=
  let flags := from_a64_nzcv nzcv in
  let result := base_condition flags condition in
  if inverted condition then negb result else result.

(** ** shifts.rs *)

Inductive ShiftError := InvalidA64Width (width : Z).

Inductive ShiftKind := LogicalLeft | LogicalRight | ArithmeticRight | RotateRight.

Record ShiftWithCarryResult := mkShift { shift_result : Z; shift_carry_out : bool }.

Definition shift (value width : Z) (kind : ShiftKind) (amount : Z) (carry_in : bool)
  : ShiftWithCarryResult :=
  let bits := width in
  let value := truncate width value in
  if amount =? 0 then mkShift value carry_in
  else match kind with
  | LogicalLeft =>
      let carry_out := (amount <=? bits) && bit_set value (shl 128 1 (bits - amount)) in
      let result := if bits <=? amount then 0 else truncate width (shl 128 value amount) in
      mkShift result carry_out
  | LogicalRight =>
      let carry_out := (amount <=? bits) && bit_set value (shl 128 1 (amount - 1)) in
      let result := if bits <=? amount then 0 else shr value amount in
      mkShift result carry_out
  | ArithmeticRight =>
      let negative := bit_set value (shl 128 1 (bits - 1)) in
      if bits <=? amount
      then mkShift (if negative then mask width else 0) negative
      else
        let logical := shr value amount in
        let fill := if negative then shl 128 (mask width) (bits - amount) else 0 in
        mkShift (truncate width (Z.lor logical fill)) (bit_set value (shl 128 1 (amount - 1)))
  | RotateRight =>
      let result := rotate_right value width amount in
      mkShift result (bit_set result (shl 128 1 (bits - 1)))
  end.

Definition a64_shift_with_carry (value width : Z) (kind : ShiftKind) (amount : Z) (carry_in : bool)
  : Result ShiftError ShiftWithCarryResult :=
  if negb ((width =? 32) || (width =? 64)) then Err (InvalidA64Width width)
  else Ok (shift value width kind amount carry_in).

(** ** immediate.rs *)

Inductive ImmediateError := FieldOutOfRange | InvalidDataSize (size : Z) | ReservedEncoding.

Record A64BitMasks := mkMasks { write_mask : Z; test_mask : Z }.

(** [(0..=6).rev().find(|bit| combined & (1 << bit) != 0)] *)
Definition highest_bit (combined : Z) : option Z :=
  List.find (fun bit => negb (Z.land combined (shl 8 1 bit) =? 0)) [6; 5; 4; 3; 2; 1; 0].

Definition ones_u128 (count : Z) : Z :=
  if count =? 128 then umax 128 else shl 128 1 count - 1.

(** [Result::expect] on the two calls whose arguments are already validated. *)
Definition expect_result {E F A} (r : Result E A) : Result F A :=
  match r with Ok a => Ok a | _ => Panic end.

Definition decode_a64_bit_masks (imm_n : bool) (imm_r imm_s data_size : Z) (immediate : bool)
  : Result ImmediateError A64BitMasks :=
  if (64 <=? imm_r) || (64 <=? imm_s) then Err FieldOutOfRange
  else if negb ((data_size =? 32) || (data_size =? 64)) then Err (InvalidDataSize data_size)
  else
    let combined := Z.lor (shl 8 (b2z imm_n) 6) (Z.land (unot 8 imm_s) 63) in
    match highest_bit combined with
    | None => Err ReservedEncoding
    | Some length =>
      if length <? 1 then Err ReservedEncoding
      else
        let element_size := shl 8 1 length in
        if data_size <? element_size then Err ReservedEncoding
        else
          let levels := element_size - 1 in
          let s := Z.land imm_s levels in
          let r := Z.land imm_r levels in
          if immediate && (s =? levels) then Err ReservedEncoding
          else
            let? element_width := expect_result (BitWidth_new element_size) in
            let? data_width := expect_result (BitWidth_new data_size) in
            let write_element := rotate_right (ones_u128 (s + 1)) element_width r in
            let diff := Z.land (wrap 8 (s - r)) levels in
            let test_element := ones_u128 (diff + 1) in
            let? wm := expect_result (replicate write_element element_width data_width) in
            let? tm := expect_result (replicate test_element element_width data_width) in
            Ok (mkMasks (wrap 64 wm) (wrap 64 tm))
    end.

Definition decode_a64_logical_immediate (imm_n : bool) (imm_r imm_s data_size : Z)
  : Result ImmediateError Z :=
  let? masks := decode_a64_bit_masks imm_n imm_r imm_s data_size true in
  Ok masks.(write_mask).

(** ** Addition and subtraction *)

Lemma pow2_double w : 1 <= w -> 2 ^ w = 2 * 2 ^ (w - 1).
Proof. intros Hw. replace w with (Z.succ (w - 1)) at 1 by lia. apply Z.pow_succ_r. lia. Qed.

Lemma b2z_range b : 0 <= b2z b <= 1.
Proof. destruct b; simpl; lia. Qed.

(** [1 << (w - 1)] is the sign bit. *)
Lemma shl_one w k : 0 <= k < w -> shl w 1 k = 2 ^ k.
Proof.
  intros Hk. unfold shl. rewrite Z.shiftl_mul_pow2, Z.mul_1_l by lia. apply wrap_small.
  split; [apply Z.pow_nonneg; lia|apply Z.pow_lt_mono_r; lia].
Qed.

(** The overflow expression reads the sign bits of the operands and the result. *)
Lemma overflow_bits w l r x :
  width_ok w -> in_range w l -> in_range w r -> in_range w x ->
  negb (Z.land (Z.land (unot 128 (Z.lxor l r)) (Z.lxor l x)) (shl 128 1 (w - 1)) =? 0) =
  Bool.eqb (2 ^ (w - 1) <=? l) (2 ^ (w - 1) <=? r) &&
  negb (Bool.eqb (2 ^ (w - 1) <=? l) (2 ^ (w - 1) <=? x)).
Proof.
  intros Hw Hl Hr Hx. pose proof Hw as [? ?]. rewrite shl_one by lia.
  pose proof (bit_set_pow2 (Z.land (unot 128 (Z.lxor l r)) (Z.lxor l x)) (w - 1) ltac:(lia)) as Hb.
  unfold bit_set in Hb. rewrite Hb, <- !testbit_top by (done || lia).
  bits. destruct (Z.ltb_spec (w - 1) 128); [|lia].
  by destruct (Z.testbit l (w - 1)), (Z.testbit r (w - 1)), (Z.testbit x (w - 1)).
Qed.

(** The mathematical sum of two [w]-bit integers and a carry, modulo [2^w]. *)
Lemma wrap_sum w s : 0 <= s < 2 * 2 ^ w -> wrap w s = if 2 ^ w <=? s then s - 2 ^ w else s.
Proof.
  intros Hs. unfold wrap. destruct (Z.leb_spec (2 ^ w) s).
  - replace s with (s - 2 ^ w + 1 * 2 ^ w) at 1 by lia. rewrite Z_mod_plus_full.
    apply Z.mod_small. lia.
  - apply Z.mod_small. lia.
Qed.

Lemma signed_overflow w l r c :
  1 <= w -> in_range w l -> in_range w r -> 0 <= c <= 1 ->
  Bool.eqb (2 ^ (w - 1) <=? l) (2 ^ (w - 1) <=? r) &&
  negb (Bool.eqb (2 ^ (w - 1) <=? l) (2 ^ (w - 1) <=? wrap w (l + r + c))) =
  negb ((- 2 ^ (w - 1) <=? to_signed w l + to_signed w r + c) &&
        (to_signed w l + to_signed w r + c <? 2 ^ (w - 1))).
Proof.
  intros Hw [Hl1 Hl2] [Hr1 Hr2] Hc. pose proof (pow2_double w Hw) as H2.
  rewrite wrap_sum by lia. unfold to_signed.
  destruct (Z.leb_spec (2 ^ w) (l + r + c));
  destruct (Z.leb_spec (2 ^ (w - 1)) l), (Z.leb_spec (2 ^ (w - 1)) r);
  destruct (Z.ltb_spec l (2 ^ (w - 1))), (Z.ltb_spec r (2 ^ (w - 1))); try lia; simpl;
  repeat match goal with
  | |- context [?a <=? ?b] => destruct (Z.leb_spec a b)
  | |- context [?a <? ?b] => destruct (Z.ltb_spec a b)
  end; simpl; lia || done.
Qed.

Lemma add_with_carry_arith lhs rhs c w :
  width_ok w ->
  let l := wrap w lhs in let r := wrap w rhs in let s := l + r + b2z c in
  let signed := to_signed w l + to_signed w r + b2z c in
  add_with_carry lhs rhs c w =
    mkAWC (wrap w s) (2 ^ w <=? s)
          (negb ((- 2 ^ (w - 1) <=? signed) && (signed <? 2 ^ (w - 1)))).
Proof.
  intros Hw l r s signed. pose proof Hw as [? ?]. unfold add_with_carry, overflowing_add.
  rewrite !(truncate_wrap w) by done. fold l r.
  assert (Hl : in_range w l) by (apply wrap_range; lia).
  assert (Hr : in_range w r) by (apply wrap_range; lia).
  pose proof (b2z_range c) as Hc.
  assert (Hsum : wrap w (wrap 128 (wrap 128 (l + r) + b2z c)) = wrap w s).
  { rewrite wrap_wrap_le by lia. unfold wrap at 2. unfold s, wrap.
    assert (Hd : (2 ^ w | 2 ^ 128)).
    { exists (2 ^ (128 - w)). rewrite <- Z.pow_add_r by lia. f_equal. lia. }
    rewrite <- Zplus_mod_idemp_l. rewrite Z.mod_mod_divide by done.
    by rewrite Zplus_mod_idemp_l. }
  cbn beta iota zeta. rewrite Hsum.
  f_equal; [| rewrite overflow_bits by (done || (apply wrap_range; lia)); by apply signed_overflow; [lia|..]].
  destruct Hl as [Hl1 Hl2], Hr as [Hr1 Hr2].
  destruct (Z.eqb_spec w 128) as [->|Hne].
  - rewrite (wrap_sum 128 (l + r)) by lia. apply Bool.eq_true_iff_eq. unfold s.
    rewrite orb_true_iff, !Z.leb_le. destruct (Z.leb_spec (2 ^ 128) (l + r)); lia.
  - assert (Hp : 2 * 2 ^ w <= 2 ^ 128).
    { rewrite <- Z.pow_succ_r by lia. apply Z.pow_le_mono_r; lia. }
    rewrite (wrap_small 128 (l + r)) by (split; lia).
    rewrite wrap_small by (split; lia). rewrite mask_ones, Z.ones_equiv by done.
    unfold s. apply Bool.eq_true_iff_eq. rewrite Z.ltb_lt, Z.leb_le. lia.
Qed.

Lemma subtract_with_carry_arith lhs rhs c w :
  width_ok w ->
  let l := wrap w lhs in let r := wrap w rhs in let borrow := b2z (negb c) in
  let signed := to_signed w l - to_signed w r - borrow in
  subtract_with_carry lhs rhs c w =
    mkAWC (wrap w (l - r - borrow)) (r + borrow <=? l)
          (negb ((- 2 ^ (w - 1) <=? signed) && (signed <? 2 ^ (w - 1)))).
Proof.
  intros Hw l r borrow signed. pose proof Hw as [? ?]. unfold subtract_with_carry.
  rewrite add_with_carry_arith by done. cbn zeta. fold l.
  assert (Hr : in_range w r) by (apply wrap_range; lia).
  assert (Hn : wrap w (unot 128 (truncate w rhs)) = 2 ^ w - 1 - r).
  { rewrite truncate_wrap by done. fold r. unfold unot. rewrite wrap_wrap_le by lia.
    change (wrap w (Z.lnot r)) with (unot w r). apply unot_arith; [lia|done]. }
  rewrite Hn. destruct Hr as [Hr1 Hr2]. pose proof (pow2_double w ltac:(lia)) as H2.
  assert (Hb : b2z c = 1 - borrow) by (unfold borrow; by destruct c).
  assert (Hs : to_signed w (2 ^ w - 1 - r) = - 1 - to_signed w r).
  { unfold to_signed. destruct (Z.ltb_spec (2 ^ w - 1 - r) (2 ^ (w - 1))),
      (Z.ltb_spec r (2 ^ (w - 1))); lia. }
  rewrite Hs, Hb. f_equal.
  - replace (l + (2 ^ w - 1 - r) + (1 - borrow)) with (l - r - borrow + 1 * 2 ^ w) by lia.
    unfold wrap. apply Z_mod_plus_full.
  - apply Bool.eq_true_iff_eq. rewrite !Z.leb_le. lia.
  - unfold signed. do 2 f_equal; f_equal; lia.
Qed.

(** ** Shifts *)

Lemma truncate_shl w v a :
  width_ok w -> 0 <= a -> truncate w (shl 128 v a) = wrap w (v * 2 ^ a).
Proof.
  intros Hw Ha. pose proof Hw as [? ?]. rewrite truncate_wrap by done. unfold shl.
  rewrite wrap_wrap_le, Z.shiftl_mul_pow2 by lia. done.
Qed.

Lemma wrap_mul_pow2_ge w v a : 0 <= w <= a -> wrap w (v * 2 ^ a) = 0.
Proof.
  intros Ha. unfold wrap. replace a with (a - w + w) by lia.
  rewrite Z.pow_add_r, Z.mul_assoc by lia. apply Z.mod_mul. assert (0 < 2 ^ w); [|lia].
  apply Z.pow_pos_nonneg; lia.
Qed.

(** Bits of an arithmetic right shift: the sign is repeated above. *)
Lemma testbit_asr w v a i :
  1 <= w -> in_range w v -> 0 <= a -> 0 <= i ->
  Z.testbit (to_signed w v / 2 ^ a) i =
  if i + a <? w then Z.testbit v (i + a) else Z.testbit v (w - 1).
Proof.
  intros Hw Hv Ha Hi. rewrite <- Z.shiftr_div_pow2, Z.shiftr_spec by lia.
  rewrite testbit_top by done. unfold to_signed. rewrite Z.ltb_antisym.
  destruct (Z.leb_spec (2 ^ (w - 1)) v) as [Hn|Hp]; simpl; destruct (Z.ltb_spec (i + a) w).
  - rewrite <- (Z.mod_pow2_bits_low (v - 2 ^ w) w) by lia.
    replace (v - 2 ^ w) with (v + (-1) * 2 ^ w) by lia.
    by rewrite Z_mod_plus_full, Z.mod_pow2_bits_low by lia.
  - replace (v - 2 ^ w) with (- (2 ^ w - v)) by lia. destruct Hv as [Hv1 Hv2].
    rewrite Z.bits_opp by lia. apply negb_true_iff, (testbit_high w); [lia|split; lia].
  - done.
  - by apply (testbit_high w); [lia|].
Qed.

Lemma shift_asr w v a :
  width_ok w -> in_range w v -> 0 < a < w ->
  truncate w (Z.lor (shr v a)
    (if bit_set v (shl 128 1 (w - 1)) then shl 128 (mask w) (w - a) else 0)) =
  wrap w (to_signed w v / 2 ^ a).
Proof.
  intros Hw Hv Ha. pose proof Hw as [? ?]. rewrite shl_one, bit_set_pow2 by lia.
  apply (in_range_bits_ext w); [lia|by apply truncate_range|apply wrap_range; lia|].
  intros i Hi. rewrite testbit_wrap, testbit_asr by (done || lia). unfold shr. bits.
  destruct (Z.ltb_spec i w); [|lia]. simpl. destruct (Z.ltb_spec (i + a) w).
  - destruct (Z.testbit v (w - 1)); bits; [|by rewrite orb_false_r].
    rewrite (Z.testbit_neg_r _ (i - (w - a))) by lia. by rewrite andb_false_r, orb_false_r.
  - rewrite (testbit_high w v (i + a)) by (done || lia).
    destruct (Z.testbit v (w - 1)); bits; [|done]. by bounds.
Qed.

Lemma div_pow2_ge w v a : in_range w v -> 0 <= w <= a -> v / 2 ^ a = 0.
Proof.
  intros Hv Ha. apply Z.div_small. destruct (in_range_le w a v Ha Hv). lia.
Qed.

(** An arithmetic shift by the width or more leaves only the sign. *)
Lemma asr_ge w v a :
  1 <= w -> in_range w v -> w <= a ->
  wrap w (to_signed w v / 2 ^ a) = if Z.testbit v (w - 1) then Z.ones w else 0.
Proof.
  intros Hw Hv Ha. apply Z.bits_inj'. intros i Hi. rewrite testbit_wrap, testbit_asr by (done || lia).
  destruct (Z.ltb_spec (i + a) w); [lia|].
  destruct (Z.testbit v (w - 1)); [|by rewrite Z.bits_0, andb_false_r].
  rewrite testbit_ones by lia. apply andb_true_r.
Qed.

(** The result of [shift] for every kind and every amount, reduced or not. *)
Lemma shift_arith value w kind a c :
  width_ok w -> 0 <= a ->
  let v := wrap w value in
  match kind with
  | LogicalLeft => shift_result (shift value w kind a c) = wrap w (v * 2 ^ a)
  | LogicalRight => shift_result (shift value w kind a c) = v / 2 ^ a
  | ArithmeticRight => shift_result (shift value w kind a c) = wrap w (to_signed w v / 2 ^ a)
  | RotateRight => shift_result (shift value w kind a c) = rotate_right v w a
  end.
Proof.
  intros Hw Ha v. pose proof Hw as [? ?]. assert (Hv : in_range w v) by (apply wrap_range; lia).
  unfold shift. rewrite truncate_wrap by done. fold v. destruct (Z.eqb_spec a 0) as [->|Hne].
  - destruct kind; simpl.
    + by rewrite Z.mul_1_r, wrap_small.
    + by rewrite Z.div_1_r.
    + by rewrite Z.div_1_r, wrap_to_signed.
    + unfold rotate_right. rewrite Z.mod_0_l by lia. by rewrite truncate_small.
  - destruct kind; [| |destruct (Z.leb_spec w a)|]; cbn [shift_result].
    + destruct (Z.leb_spec w a); [by rewrite wrap_mul_pow2_ge by lia|by apply truncate_shl].
    + destruct (Z.leb_spec w a); [by rewrite (div_pow2_ge w) by (done || lia)|].
      unfold shr. by apply Z.shiftr_div_pow2.
    + rewrite shl_one, bit_set_pow2, asr_ge, mask_ones by (done || lia). done.
    + apply shift_asr; [done|done|lia].
    + done.
Qed.

(** ** Logical immediates *)

Lemma ones_u128_bits n i : 0 <= n <= 128 -> 0 <= i -> Z.testbit (ones_u128 n) i = (i <? n).
Proof.
  intros Hn Hi. unfold ones_u128, umax. assert (Hone : (if n =? 128 then 2 ^ 128 - 1 else shl 128 1 n - 1) = Z.ones n).
  { rewrite Z.ones_equiv. destruct (Z.eqb_spec n 128) as [->|]; [done|]. rewrite shl_one by lia. lia. }
  rewrite Hone. apply testbit_ones; lia.
Qed.

(** [BitWidth::new] accepts exactly the widths in 1..=128. *)
Lemma BitWidth_new_ok w : width_ok w -> BitWidth_new w = Ok w.
Proof.
  intros [? ?]. unfold BitWidth_new. destruct (Z.eqb_spec w 0), (Z.ltb_spec 128 w); done || lia.
Qed.

(** Either mask: a run of ones rotated inside an element, tiled over the data. *)
Definition is_tiled_run (e ds count rot v : Z) : Prop :=
  in_range ds v /\
  forall i, 0 <= i < ds -> Z.testbit v i = ((i + rot) mod e <? count).

Lemma replicate_run e ds count rot :
  width_ok e -> width_ok ds -> ds mod e = 0 -> 0 <= count <= e -> 0 <= rot ->
  exists v, replicate (rotate_right (ones_u128 count) e rot) e ds = Ok v /\
    is_tiled_run e ds count rot v.
Proof.
  intros He Hds Hdiv Hc Hr. pose proof He as [? ?]. pose proof Hds as [? ?].
  destruct (replicate_ok (rotate_right (ones_u128 count) e rot) e ds He Hds Hdiv)
    as (v & Hv & Hrange & Hbits).
  exists v. split; [done|]. split; [done|]. intros i Hi. rewrite Hbits by done.
  pose proof (Z.mod_pos_bound i e ltac:(lia)).
  rewrite testbit_rotate_right by (done || lia).
  pose proof (Z.mod_pos_bound (i mod e + rot) e ltac:(lia)).
  rewrite ones_u128_bits by lia. by rewrite Zplus_mod_idemp_l.
Qed.

Lemma replicate_ones e ds count :
  width_ok e -> width_ok ds -> ds mod e = 0 -> 0 <= count <= e ->
  exists v, replicate (ones_u128 count) e ds = Ok v /\ is_tiled_run e ds count 0 v.
Proof.
  intros He Hds Hdiv Hc. pose proof He as [? ?]. pose proof Hds as [? ?].
  destruct (replicate_ok (ones_u128 count) e ds He Hds Hdiv) as (v & Hv & Hrange & Hbits).
  exists v. split; [done|]. split; [done|]. intros i Hi. rewrite Hbits by done.
  pose proof (Z.mod_pos_bound i e ltac:(lia)). rewrite ones_u128_bits by lia.
  by rewrite Z.add_0_r.
Qed.

(** The element size selected by the [N:NOT(imms)] field. *)
Definition element_length (imm_n : bool) (imm_s : Z) : option Z :=
  highest_bit (Z.lor (shl 8 (b2z imm_n) 6) (Z.land (unot 8 imm_s) 63)).

Lemma highest_bit_range c l : highest_bit c = Some l -> 0 <= l <= 6.
Proof.
  intros H. apply List.find_some in H as [Hin _]. simpl in Hin.
  destruct Hin as [<-|[<-|[<-|[<-|[<-|[<-|[<-|[]]]]]]]]; lia.
Qed.

Lemma land_pow2_mod x k : 0 <= k -> Z.land x (2 ^ k - 1) = x mod 2 ^ k.
Proof.
  intros Hk. replace (2 ^ k - 1) with (Z.ones k) by (rewrite Z.ones_equiv; lia).
  by apply Z.land_ones.
Qed.

Lemma decode_masks_ok imm_n r s ds immediate len :
  0 <= r < 64 -> 0 <= s < 64 -> ds = 32 \/ ds = 64 ->
  element_length imm_n s = Some len -> 1 <= len -> 2 ^ len <= ds ->
  immediate && (s mod 2 ^ len =? 2 ^ len - 1) = false ->
  exists wm tm, decode_a64_bit_masks imm_n r s ds immediate = Ok (mkMasks wm tm) /\
    is_tiled_run (2 ^ len) ds (s mod 2 ^ len + 1) (r mod 2 ^ len) wm /\
    is_tiled_run (2 ^ len) ds ((s - r) mod 2 ^ len + 1) 0 tm.
Proof.
  intros Hr Hs Hds Hlen Hlen1 Hle Himm. unfold decode_a64_bit_masks.
  fold (element_length imm_n s). rewrite Hlen.
  pose proof (highest_bit_range _ _ Hlen) as Hl6.
  assert (Hg : (64 <=? r) || (64 <=? s) = false) by (destruct (Z.leb_spec 64 r), (Z.leb_spec 64 s); simpl; lia || done).
  assert (Hd : negb ((ds =? 32) || (ds =? 64)) = false) by (destruct Hds as [->| ->]; done).
  rewrite Hg, Hd, shl_one by lia. clear Hg Hd.
  destruct (Z.ltb_spec len 1); [lia|]. destruct (Z.ltb_spec ds (2 ^ len)); [lia|].
  assert (Hpow : 2 <= 2 ^ len <= 64).
  { split; [apply (Z.pow_le_mono_r 2 1); lia|apply (Z.pow_le_mono_r 2 len 6); lia]. }
  assert (He : width_ok (2 ^ len)) by (split; lia).
  assert (Hdw : width_ok ds) by (split; lia).
  assert (Hdiv : ds mod 2 ^ len = 0).
  { assert (Hcases : len = 1 \/ len = 2 \/ len = 3 \/ len = 4 \/ len = 5 \/ len = 6) by lia.
    destruct Hds as [->| ->]; destruct Hcases as [->|[->|[->|[->|[->| ->]]]]]; done || lia. }
  rewrite !land_pow2_mod by lia.
  rewrite Himm, !BitWidth_new_ok by done. cbn [expect_result result_bind].
  pose proof (Z.mod_pos_bound s (2 ^ len) ltac:(lia)). pose proof (Z.mod_pos_bound r (2 ^ len) ltac:(lia)).
  assert (Hdiff : wrap 8 (s mod 2 ^ len - r mod 2 ^ len) mod 2 ^ len = (s - r) mod 2 ^ len).
  { change (wrap len (wrap 8 (s mod 2 ^ len - r mod 2 ^ len)) = wrap len (s - r)).
    rewrite wrap_wrap_le by lia. unfold wrap. by rewrite <- Zminus_mod. }
  rewrite Hdiff. pose proof (Z.mod_pos_bound (s - r) (2 ^ len) ltac:(lia)).
  destruct (replicate_run (2 ^ len) ds (s mod 2 ^ len + 1) (r mod 2 ^ len)) as (wm & Hwm & Hwmt);
    try (done || lia).
  destruct (replicate_ones (2 ^ len) ds ((s - r) mod 2 ^ len + 1)) as (tm & Htm & Htmt);
    try (done || lia).
  rewrite Hwm, Htm. cbn [expect_result result_bind].
  exists wm, tm. split; [|by split].
  pose proof (in_range_le ds 64) as Hup.
  rewrite !wrap_small; [done|apply Hup; [lia|apply Htmt]|apply Hup; [lia|apply Hwmt]].
Qed.

(** Every pair (element size, run length) has an encoding of [N:imms]. *)
Definition run_encoding (len count : Z) : bool * Z :=
  if len =? 6 then (true, count - 1) else (false, 64 - 2 ^ (len + 1) + (count - 1)).

Lemma run_encoding_length len count :
  1 <= len <= 6 -> 1 <= count < 2 ^ len ->
  element_length (run_encoding len count).1 (run_encoding len count).2 = Some len /\
  0 <= (run_encoding len count).2 < 64 /\ (run_encoding len count).2 mod 2 ^ len = count - 1.
Proof.
  intros Hlen Hcount.
  set (ok l c := bool_decide (element_length (run_encoding l c).1 (run_encoding l c).2 = Some l) &&
                 bool_decide (0 <= (run_encoding l c).2 < 64) &&
                 bool_decide ((run_encoding l c).2 mod 2 ^ l = c - 1)).
  assert (Hall : forallb (fun l => forallb (ok l) (seqZ 1 (2 ^ l - 1))) (seqZ 1 6) = true)
    by (vm_compute; reflexivity).
  rewrite forallb_forall in Hall.
  specialize (Hall len ltac:(apply list_elem_of_In, elem_of_seqZ; lia)).
  rewrite forallb_forall in Hall.
  specialize (Hall count ltac:(apply list_elem_of_In, elem_of_seqZ; lia)).
  unfold ok in Hall. apply andb_true_iff in Hall as [Hall H3]. apply andb_true_iff in Hall as [H1 H2].
  by rewrite !bool_decide_eq_true in *.
Qed.

Lemma decode_masks_never_panics imm_n r s ds immediate :
  0 <= r -> 0 <= s -> is_panic (decode_a64_bit_masks imm_n r s ds immediate) = false.
Proof.
  intros Hr Hs. destruct (decide (r < 64 /\ s < 64)) as [[Hr' Hs']|Hn].
  2:{ unfold decode_a64_bit_masks. destruct (Z.leb_spec 64 r), (Z.leb_spec 64 s); simpl; done || lia. }
  destruct (decide (ds = 32 \/ ds = 64)) as [Hds|Hn].
  2:{ unfold decode_a64_bit_masks. destruct (Z.leb_spec 64 r), (Z.leb_spec 64 s); try lia. simpl.
      destruct (Z.eqb_spec ds 32), (Z.eqb_spec ds 64); simpl; done || lia. }
  destruct (element_length imm_n s) as [len|] eqn:Hlen.
  2:{ unfold decode_a64_bit_masks. fold (element_length imm_n s). rewrite Hlen.
      by repeat case_match. }
  pose proof (highest_bit_range _ _ Hlen) as Hl6.
  destruct (decide (1 <= len /\ 2 ^ len <= ds /\ immediate && (s mod 2 ^ len =? 2 ^ len - 1) = false))
    as [(? & ? & ?)|Hn].
  - destruct (decode_masks_ok imm_n r s ds immediate len) as (wm & tm & -> & _); done.
  - unfold decode_a64_bit_masks. fold (element_length imm_n s). rewrite Hlen, shl_one by lia.
    rewrite !land_pow2_mod by lia.
    destruct (Z.leb_spec 64 r), (Z.leb_spec 64 s); try lia. cbn [orb].
    destruct (negb _); [done|]. destruct (Z.ltb_spec len 1); [done|].
    destruct (Z.ltb_spec ds (2 ^ len)); [done|].
    destruct (immediate && _) eqn:Hi; [done|]. naive_solver lia.
Qed.

(** The inverse direction of [decode_masks_ok]: what an accepted encoding satisfies. *)
Lemma decode_masks_inv imm_n r s ds immediate m :
  0 <= r -> 0 <= s -> decode_a64_bit_masks imm_n r s ds immediate = Ok m ->
  exists len, element_length imm_n s = Some len /\ 1 <= len <= 6 /\ 2 ^ len <= ds /\
    r < 64 /\ s < 64 /\ (ds = 32 \/ ds = 64) /\
    immediate && (s mod 2 ^ len =? 2 ^ len - 1) = false /\
    is_tiled_run (2 ^ len) ds (s mod 2 ^ len + 1) (r mod 2 ^ len) m.(write_mask) /\
    is_tiled_run (2 ^ len) ds ((s - r) mod 2 ^ len + 1) 0 m.(test_mask).
Proof.
  intros Hr Hs Hm. pose proof Hm as Hm'. unfold decode_a64_bit_masks in Hm.
  fold (element_length imm_n s) in Hm.
  destruct (Z.leb_spec 64 r), (Z.leb_spec 64 s); try done. cbn [orb] in Hm.
  destruct (negb ((ds =? 32) || (ds =? 64))) eqn:Hds; [done|].
  assert (Hds' : ds = 32 \/ ds = 64) by (apply negb_false_iff, orb_true_iff in Hds; lia).
  destruct (element_length imm_n s) as [len|] eqn:Hlen; [|done].
  pose proof (highest_bit_range _ _ Hlen) as Hl6. rewrite shl_one in Hm by lia.
  destruct (Z.ltb_spec len 1); [done|]. destruct (Z.ltb_spec ds (2 ^ len)); [done|].
  rewrite !land_pow2_mod in Hm by lia. destruct (immediate && _) eqn:Hi; [done|]. clear Hm.
  destruct (decode_masks_ok imm_n r s ds immediate len) as (wm & tm & Heq & Hw & Ht); try done; try lia.
  rewrite Heq in Hm'. injection Hm' as <-. exists len. split_and!; done || lia.
Qed.

(** ** Flags *)

Lemma bit_set_testbit v k : 0 <= k -> bit_set v (2 ^ k) = Z.testbit v k.
Proof. apply bit_set_pow2. Qed.

Lemma from_packed f : from_a64_nzcv (packed f) = f.
Proof. by destruct f as [[] [] [] []]. Qed.

(** ** Claims *)

(** [AddWithCarry] at every width up to 128 bits: the result is the sum
    modulo [2^w], the carry says that the unsigned sum does not fit, the
    overflow says that the signed sum does not fit; for the subtracting form
    the result is the difference less the borrow, the carry says that no
    borrow occurred and the overflow that the signed difference does not fit. *)
Theorem add_subtract_with_carry_spec lhs rhs c w :
  width_ok w ->
  let l := wrap w lhs in let r := wrap w rhs in let borrow := b2z (negb c) in
  let fits z := (- 2 ^ (w - 1) <=? z) && (z <? 2 ^ (w - 1)) in
  add_with_carry lhs rhs c w =
    mkAWC (wrap w (l + r + b2z c)) (2 ^ w <=? l + r + b2z c)
          (negb (fits (to_signed w l + to_signed w r + b2z c))) /\
  subtract_with_carry lhs rhs c w =
    mkAWC (wrap w (l - r - borrow)) (r + borrow <=? l)
          (negb (fits (to_signed w l - to_signed w r - borrow))).
Proof.
  intros Hw. split; [by apply add_with_carry_arith|by apply subtract_with_carry_arith].
Qed.

Lemma add_subtract_with_carry_spec_witness :
  add_with_carry 2147483647 1 false 32 = mkAWC 2147483648 false true /\
  subtract_with_carry 0 1 true 32 = mkAWC 4294967295 false false.
Proof.
  destruct (add_subtract_with_carry_spec 2147483647 1 false 32 ltac:(split; lia)) as [Ha _].
  destruct (add_subtract_with_carry_spec 0 1 true 32 ltac:(split; lia)) as [_ Hs].
  split; [rewrite Ha|rewrite Hs]; reflexivity.
Defined.

(** A64 shifts: at 32 and 64 bits, for every amount (below, at or above the
    width), LSL multiplies, LSR divides, ASR divides the signed value rounding
    down, ROR rotates; the carry of a left or right shift by a nonzero amount
    is the last bit shifted out; any other width is an error. *)
Theorem a64_shift_spec value w kind a c :
  width_ok w -> 0 <= a ->
  let v := wrap w value in
  if (w =? 32) || (w =? 64) then
    exists r, a64_shift_with_carry value w kind a c = Ok r /\
    match kind with
    | LogicalLeft => r.(shift_result) = wrap w (v * 2 ^ a) /\
        r.(shift_carry_out) = if a =? 0 then c else (a <=? w) && Z.testbit v (w - a)
    | LogicalRight => r.(shift_result) = v / 2 ^ a /\
        r.(shift_carry_out) = if a =? 0 then c else (a <=? w) && Z.testbit v (a - 1)
    | ArithmeticRight => r.(shift_result) = wrap w (to_signed w v / 2 ^ a)
    | RotateRight => in_range w r.(shift_result) /\ forall i, 0 <= i < w ->
        Z.testbit r.(shift_result) i = Z.testbit v ((i + a) mod w)
    end
  else a64_shift_with_carry value w kind a c = Err (InvalidA64Width w).
Proof.
  intros Hw Ha v. unfold a64_shift_with_carry. pose proof Hw as [? ?].
  destruct ((w =? 32) || (w =? 64)); cbn [negb]; [|done]. eexists; split; [done|].
  pose proof (shift_arith value w kind a c Hw Ha) as Hs. cbn zeta in Hs. fold v in Hs.
  assert (Hhi : forall k, w <= k -> Z.testbit v k = false).
  { intros k Hk. apply (testbit_high w); [lia|apply wrap_range; lia]. }
  destruct kind; rewrite Hs.
  - split; [done|]. unfold shift. rewrite truncate_wrap by done. fold v.
    destruct (Z.eqb_spec a 0); [done|]. cbn. destruct (Z.leb_spec a w); [|done].
    by rewrite shl_one, bit_set_pow2 by lia.
  - split; [done|]. unfold shift. rewrite truncate_wrap by done. fold v.
    destruct (Z.eqb_spec a 0); [done|]. cbn. destruct (Z.leb_spec a w); [|done].
    by rewrite shl_one, bit_set_pow2 by lia.
  - done.
  - split; [by apply rotate_right_range|]. intros i Hi. by apply testbit_rotate_right.
Qed.

Lemma a64_shift_spec_witness :
  exists r, a64_shift_with_carry 2147483648 32 ArithmeticRight 40 false = Ok r /\
            r.(shift_result) = 4294967295.
Proof.
  destruct (a64_shift_spec 2147483648 32 ArithmeticRight 40 false ltac:(split; lia) ltac:(lia))
    as (r & Hr & Heq).
  exists r. split; [exact Hr|]. rewrite Heq. reflexivity.
Defined.

(** The A64 logical-immediate decoder accepts exactly the bitmask
    immediates of the architecture: every accepted encoding yields a run of
    [count] ones ([1 <= count < 2^len]) rotated inside a [2^len]-bit element
    and tiled over the data size (so never all zeros or all ones), every such
    pattern has an encoding that is accepted, and no encoding panics. *)
Theorem logical_immediate_spec ds :
  ds = 32 \/ ds = 64 ->
  (forall n r s v, 0 <= r -> 0 <= s -> decode_a64_logical_immediate n r s ds = Ok v ->
     exists len count rot, 1 <= len <= 6 /\ 2 ^ len <= ds /\ 1 <= count < 2 ^ len /\
       0 <= rot < 2 ^ len /\ is_tiled_run (2 ^ len) ds count rot v) /\
  (forall len count rot v, 1 <= len <= 6 -> 2 ^ len <= ds -> 1 <= count < 2 ^ len ->
     0 <= rot < 2 ^ len -> is_tiled_run (2 ^ len) ds count rot v ->
     exists n r s, 0 <= r < 64 /\ 0 <= s < 64 /\ decode_a64_logical_immediate n r s ds = Ok v) /\
  (forall n r s, 0 <= r -> 0 <= s -> is_panic (decode_a64_logical_immediate n r s ds) = false).
Proof.
  intros Hds. unfold decode_a64_logical_immediate. split_and!.
  - intros n r s v Hr Hs Hv.
    destruct (decode_a64_bit_masks n r s ds true) as [m| |] eqn:Hm; [|done|done]. injection Hv as <-.
    destruct (decode_masks_inv _ _ _ _ _ _ Hr Hs Hm) as (len & _ & ? & ? & _ & _ & _ & Hi & Hw & _).
    assert (0 < 2 ^ len) by (apply Z.pow_pos_nonneg; lia).
    exists len, (s mod 2 ^ len + 1), (r mod 2 ^ len).
    pose proof (Z.mod_pos_bound s (2 ^ len) ltac:(lia)). pose proof (Z.mod_pos_bound r (2 ^ len) ltac:(lia)).
    apply Z.eqb_neq in Hi. split_and!; done || lia.
  - intros len count rot v Hlen Hle Hc Hrot [Hv Hbits].
    destruct (run_encoding_length len count Hlen Hc) as (Hel & Hs & Hsm).
    assert (2 ^ len <= 64) by lia.
    exists (run_encoding len count).1, rot, (run_encoding len count).2.
    split_and!; try lia.
    destruct (decode_masks_ok (run_encoding len count).1 rot (run_encoding len count).2 ds true len)
      as (wm & tm & -> & [Hwr Hwb] & _); try done; try lia.
    cbn. f_equal. apply (in_range_bits_ext ds); [lia|done|done|]. intros i Hi.
    rewrite Hwb, Hbits, Hsm by done. rewrite (Z.mod_small rot) by lia. f_equal. lia.
  - intros n r s Hr Hs. pose proof (decode_masks_never_panics n r s ds true Hr Hs).
    by destruct (decode_a64_bit_masks n r s ds true).
Qed.

Lemma logical_immediate_spec_witness :
  decode_a64_logical_immediate false 0 56 64 = Ok 1229782938247303441 /\
  exists len count rot, 1 <= len <= 6 /\ 2 ^ len <= 64 /\ 1 <= count < 2 ^ len /\
       0 <= rot < 2 ^ len /\ is_tiled_run (2 ^ len) 64 count rot 1229782938247303441.
Proof.
  split; [reflexivity|]. destruct (logical_immediate_spec 64 ltac:(lia)) as [H _].
  apply (H false 0 56); [lia|lia|reflexivity].
Defined.
