(* ===== verification/CpuState.v ===== *)
(** * A64 architectural state (crates/cpu/src/state/a64.rs)

    [A64State] has the fields of the Rust struct; arrays are lists whose
    lengths are part of the invariant [state_ok].  The register access helpers
    of crates/cpu-interpreter/src/interpreter/a64/mod.rs and the two decoding
    helpers of crates/cpu/src/semantics/a64.rs used by the integer family are
    here too. *)

From S2P Require Import Prelude CpuBits CpuArith.

Definition GENERAL_REGISTER_COUNT : Z := 31.
Definition VECTOR_REGISTER_COUNT : Z := 32.

(** [A64GeneralRegister::new]: a validated X0-X30 index. *)
Definition A64GeneralRegister_new (index : Z) : option Z :=
  if index <? GENERAL_REGISTER_COUNT then Some index else None.

Inductive A64Register := General (index : Z) | StackPointer | Zero.

(** [state::a64::Nzcv] keeps the flags in their architectural positions. *)
Module StateNzcv.
Definition MASK : Z := 0xf0000000.
Definition N : Z := 2 ^ 31.
Definition Z_ : Z := 2 ^ 30.
Definition C : Z := 2 ^ 29.
Definition V : Z := 2 ^ 28.
Definition from_bits (bits : Z) : Z := Z.land bits MASK.
Definition carry (nzcv : Z) : bool := bit_set nzcv C.
End StateNzcv.

Record A64State := mkA64State {
  x : list Z;
  sp : Z;
  pc : Z;
  vector : list (Z * Z);
  tpidr_el0 : Z;
  tpidrro_el0 : Z;
  nzcv : Z;
  fpcr : Z;
  fpsr : Z
}.

(** [A64State::default()] *)
Definition A64State_default : A64State :=
  mkA64State (repeat 0 31) 0 0 (repeat (0, 0) 32) 0 0 0 0 0.

Definition read_x (s : A64State) (register : A64Register) : Z :=
  match register with
  | General index => default 0 (s.(x) !! Z.to_nat index)
  | StackPointer => s.(sp)
  | Zero => 0
  end.

Definition set_x (s : A64State) (v : list Z) : A64State :=
  mkA64State v s.(sp) s.(pc) s.(vector) s.(tpidr_el0) s.(tpidrro_el0) s.(nzcv) s.(fpcr) s.(fpsr).
Definition set_sp (s : A64State) (v : Z) : A64State :=
  mkA64State s.(x) v s.(pc) s.(vector) s.(tpidr_el0) s.(tpidrro_el0) s.(nzcv) s.(fpcr) s.(fpsr).
Definition set_pc (s : A64State) (v : Z) : A64State :=
  mkA64State s.(x) s.(sp) v s.(vector) s.(tpidr_el0) s.(tpidrro_el0) s.(nzcv) s.(fpcr) s.(fpsr).
Definition set_nzcv (s : A64State) (v : Z) : A64State :=
  mkA64State s.(x) s.(sp) s.(pc) s.(vector) s.(tpidr_el0) s.(tpidrro_el0) v s.(fpcr) s.(fpsr).
Definition set_vectors (s : A64State) (v : list (Z * Z)) : A64State :=
  mkA64State s.(x) s.(sp) s.(pc) v s.(tpidr_el0) s.(tpidrro_el0) s.(nzcv) s.(fpcr) s.(fpsr).
Definition set_fpcr (s : A64State) (v : Z) : A64State :=
  mkA64State s.(x) s.(sp) s.(pc) s.(vector) s.(tpidr_el0) s.(tpidrro_el0) s.(nzcv) v s.(fpsr).
Definition set_fpsr (s : A64State) (v : Z) : A64State :=
  mkA64State s.(x) s.(sp) s.(pc) s.(vector) s.(tpidr_el0) s.(tpidrro_el0) s.(nzcv) s.(fpcr) v.
Definition set_tpidr_el0 (s : A64State) (v : Z) : A64State :=
  mkA64State s.(x) s.(sp) s.(pc) s.(vector) v s.(tpidrro_el0) s.(nzcv) s.(fpcr) s.(fpsr).
Definition set_tpidrro_el0_from_runtime (s : A64State) (v : Z) : A64State :=
  mkA64State s.(x) s.(sp) s.(pc) s.(vector) s.(tpidr_el0) v s.(nzcv) s.(fpcr) s.(fpsr).

Definition write_x (s : A64State) (register : A64Register) (value : Z) : A64State :=
  match register with
  | General index => set_x s (<[Z.to_nat index := value]> s.(x))
  | StackPointer => set_sp s value
  | Zero => s
  end.

Definition read_w (s : A64State) (register : A64Register) : Z := wrap 32 (read_x s register).

Definition write_w (s : A64State) (register : A64Register) (value : Z) : A64State :=
  write_x s register value.

(** [A64State::vector]: the two lanes joined into a [u128]. *)
Definition vector_value (s : A64State) (index : Z) : option Z :=
  lanes ← s.(vector) !! Z.to_nat index; Some (Z.lor lanes.1 (shl 128 lanes.2 64)).

Definition set_vector (s : A64State) (index value : Z) : A64State * bool :=
  match s.(vector) !! Z.to_nat index with
  | None => (s, false)
  | Some _ =>
      (set_vectors s (<[Z.to_nat index := (wrap 64 value, wrap 64 (shr value 64))]> s.(vector)), true)
  end.

(** [RegisterContext]: the compact diagnostic copy. *)
Record RegisterContext := mkRegisterContext {
  ctx_x : list Z; ctx_sp : Z; ctx_pc : Z; ctx_nzcv : Z
}.
Definition register_context (s : A64State) : RegisterContext :=
  mkRegisterContext s.(x) s.(sp) s.(pc) s.(nzcv).

(** ** semantics/a64.rs: two helpers of the integer family *)

Definition shift_kind (encoded : Z) (allow_rotate : bool) : option ShiftKind :=
  match encoded with
  | 0 => Some LogicalLeft
  | 1 => Some LogicalRight
  | 2 => Some ArithmeticRight
  | 3 => if allow_rotate then Some RotateRight else None
  | _ => None
  end.

(** [((value << shift) as i64) >> shift]: the result is a signed [i64]. *)
Definition signed_immediate (value bits : Z) : Z :=
  let shift := 64 - bits in
  Z.shiftr (to_signed 64 (shl 64 value shift)) shift.

(** ** interpreter/a64/mod.rs: register access *)

Definition advance (s : A64State) : A64State := set_pc s (wrap 64 (s.(pc) + 4)).

Definition zero_register (index : Z) : A64Register :=
  match A64GeneralRegister_new index with Some i => General i | None => Zero end.

Definition stack_pointer_register (index : Z) : A64Register :=
  match A64GeneralRegister_new index with Some i => General i | None => StackPointer end.

Definition select_register (index : Z) (register31_is_sp : bool) : A64Register :=
  if register31_is_sp then stack_pointer_register index else zero_register index.

Definition read (s : A64State) (index width : Z) (register31_is_sp : bool) : Z :=
  let register := select_register index register31_is_sp in
  if width =? 64 then read_x s register else read_w s register.

Definition write (s : A64State) (index width : Z) (register31_is_sp : bool) (value : Z) : A64State :=
  let register := select_register index register31_is_sp in
  if width =? 64 then write_x s register value else write_w s register (wrap 32 value).

(** [register_offset_address]: [None] is an unallocated extension option. *)
Definition register_offset_address (s : A64State) (base_register offset_register option_ : Z)
    (scaled : bool) (scale : Z) : option Z :=
  if Z.land option_ 2 =? 0 then None
  else
    let raw := read s offset_register 64 false in
    let source_width := if Z.land option_ 1 =? 0 then 32 else 64 in
    let offset := if source_width =? 32 then wrap 32 raw else raw in
    let offset := if negb (Z.land option_ 4 =? 0)
                  then wrap 64 (signed_immediate offset source_width) else offset in
    let offset := if scaled then shl 64 offset (scale mod 64) else offset in
    Some (wrap 64 (read s base_register 64 true + offset)).

(** ** Invariant *)

Definition lanes_ok (l : Z * Z) : Prop := in_range 64 l.1 /\ in_range 64 l.2.

Record state_ok (s : A64State) : Prop := {
  ok_x_len : length s.(x) = 31%nat;
  ok_x : Forall (in_range 64) s.(x);
  ok_sp : in_range 64 s.(sp);
  ok_pc : in_range 64 s.(pc);
  ok_vector_len : length s.(vector) = 32%nat;
  ok_vector : Forall lanes_ok s.(vector);
  ok_tpidr : in_range 64 s.(tpidr_el0);
  ok_tpidrro : in_range 64 s.(tpidrro_el0);
  ok_nzcv : Z.land s.(nzcv) StateNzcv.MASK = s.(nzcv);
  ok_fpcr : in_range 32 s.(fpcr);
  ok_fpsr : in_range 32 s.(fpsr)
}.

Lemma in_range_0 w : 0 <= w -> in_range w 0.
Proof. intros Hw. split; [lia|]. apply Z.pow_pos_nonneg; lia. Qed.

Lemma A64State_default_ok : state_ok A64State_default.
Proof.
  assert (H64 : in_range 64 0) by (apply in_range_0; lia).
  assert (H32 : in_range 32 0) by (apply in_range_0; lia).
  assert (Hr : forall A (P : A -> Prop) a n, P a -> Forall P (repeat a n)).
  { intros A P a n Ha. induction n; simpl; by constructor. }
  split; cbn [A64State_default x sp pc vector tpidr_el0 tpidrro_el0 nzcv fpcr fpsr];
    try exact H64; try exact H32; try reflexivity; apply Hr; [done|by split].
Qed.

(** ** Register access lemmas *)

Definition reg_valid (r : A64Register) : Prop :=
  match r with General i => 0 <= i < 31 | _ => True end.

Lemma select_register_valid i is_sp : 0 <= i -> reg_valid (select_register i is_sp).
Proof.
  intros Hi. unfold select_register, stack_pointer_register, zero_register, A64GeneralRegister_new,
    GENERAL_REGISTER_COUNT. destruct is_sp, (Z.ltb_spec i 31); simpl; lia || done.
Qed.

Lemma select_register_general i is_sp : 0 <= i < 31 -> select_register i is_sp = General i.
Proof.
  intros Hi. unfold select_register, stack_pointer_register, zero_register, A64GeneralRegister_new,
    GENERAL_REGISTER_COUNT. destruct is_sp, (Z.ltb_spec i 31); simpl; lia || done.
Qed.

Lemma read_x_range s r : state_ok s -> in_range 64 (read_x s r).
Proof.
  intros Hs. destruct r as [i| |]; simpl; [|apply Hs|by apply in_range_0].
  destruct (s.(x) !! Z.to_nat i) eqn:Hx; simpl; [|by apply in_range_0].
  eapply Forall_lookup_1; [apply Hs|done].
Qed.

Lemma read_range s i w is_sp : state_ok s -> w = 32 \/ w = 64 -> in_range w (read s i w is_sp).
Proof.
  intros Hs [-> | ->]; unfold read; simpl; [by apply wrap_range|by apply read_x_range].
Qed.

Lemma in_range_32_64 z : in_range 32 z -> in_range 64 z.
Proof. apply in_range_le. lia. Qed.

Lemma read_range_64 s i w is_sp : state_ok s -> in_range 64 (read s i w is_sp).
Proof.
  intros Hs. unfold read. case_match; [by apply read_x_range|].
  apply in_range_32_64, wrap_range. lia.
Qed.

Lemma write_x_ok s r v : state_ok s -> in_range 64 v -> state_ok (write_x s r v).
Proof.
  intros [] Hv. destruct r; simpl; [|by split|by split].
  split; simpl; try done; [by rewrite length_insert|by apply Forall_insert].
Qed.

Lemma write_ok s i w is_sp v : state_ok s -> in_range 64 v -> state_ok (write s i w is_sp v).
Proof.
  intros Hs Hv. unfold write. case_match; [by apply write_x_ok|].
  apply write_x_ok; [done|]. apply in_range_32_64, wrap_range. lia.
Qed.

Lemma advance_ok s : state_ok s -> state_ok (advance s).
Proof. intros []. split; simpl; try done. apply wrap_range. lia. Qed.

Lemma set_pc_ok s v : state_ok s -> in_range 64 v -> state_ok (set_pc s v).
Proof. intros [] Hv. by split. Qed.

Lemma from_bits_idemp b : Z.land (StateNzcv.from_bits b) StateNzcv.MASK = StateNzcv.from_bits b.
Proof. unfold StateNzcv.from_bits. by rewrite <- Z.land_assoc, Z.land_diag. Qed.

Lemma set_nzcv_ok s b : state_ok s -> state_ok (set_nzcv s (StateNzcv.from_bits b)).
Proof. intros []. split; simpl; try done. apply from_bits_idemp. Qed.

Create HintDb nixe_state.
#[export] Hint Resolve write_ok advance_ok set_pc_ok set_nzcv_ok write_x_ok read_range_64 : nixe_state.

(** Reading back a register that was written. *)
Lemma read_x_write_x s r v :
  state_ok s -> reg_valid r -> r <> Zero -> read_x (write_x s r v) r = v.
Proof.
  intros Hs Hr Hz. destruct r as [i| |]; simpl in *; [|done|done].
  rewrite list_lookup_insert_eq; [done|]. rewrite (ok_x_len _ Hs). lia.
Qed.

Lemma read_x_write_x_ne s r r' v :
  reg_valid r -> reg_valid r' -> r <> r' -> read_x (write_x s r v) r' = read_x s r'.
Proof.
  intros Hr Hr' Hne. destruct r as [i| |], r' as [j| |]; simpl in *; try done.
  rewrite list_lookup_insert_ne; [done|]. intros Heq. apply Hne. f_equal. lia.
Qed.

#[global] Arguments read_x : simpl never.
#[global] Arguments write_x : simpl never.

(** A general register read back at the width it was written with. *)
Lemma read_write_same s i w is_sp is_sp' v :
  state_ok s -> 0 <= i < 31 -> w = 32 \/ w = 64 -> in_range w v ->
  read (write s i w is_sp v) i w is_sp' = v.
Proof.
  intros Hs Hi Hw Hv. unfold read, write. rewrite !select_register_general by done.
  destruct Hw as [-> | ->]; simpl.
  - unfold read_w, write_w. rewrite read_x_write_x by done.
    rewrite wrap_wrap. by apply wrap_small.
  - by apply read_x_write_x.
Qed.

(** A 32-bit write clears the upper half. *)
Lemma read_64_write_32 s i is_sp v :
  state_ok s -> 0 <= i < 31 -> read (write s i 32 is_sp v) i 64 false = wrap 32 v.
Proof.
  intros Hs Hi. unfold read, write. rewrite !select_register_general by done. simpl.
  by apply read_x_write_x.
Qed.

Lemma read_write_other s i j w w' is_sp is_sp' v :
  0 <= i < 31 -> 0 <= j -> i <> j -> read (write s i w is_sp v) j w' is_sp' = read s j w' is_sp'.
Proof.
  intros Hi Hj Hne. unfold read, write. rewrite (select_register_general i) by done.
  pose proof (select_register_valid j is_sp' Hj) as Hv.
  assert (Hr : General i <> select_register j is_sp').
  { intros Heq. unfold select_register, stack_pointer_register, zero_register,
      A64GeneralRegister_new in Heq. destruct is_sp', (j <? GENERAL_REGISTER_COUNT); by simplify_eq. }
  unfold read_w, write_w. repeat case_match; rewrite ?read_x_write_x_ne; done.
Qed.

Lemma write_pc s i w is_sp v : (write s i w is_sp v).(pc) = s.(pc).
Proof.
  unfold write, write_w, write_x. repeat case_match; done.
Qed.

Lemma write_nzcv s i w is_sp v : (write s i w is_sp v).(nzcv) = s.(nzcv).
Proof. unfold write, write_w, write_x. repeat case_match; done. Qed.

(** ** Immediates *)

Lemma signed_immediate_arith v b :
  1 <= b <= 64 -> signed_immediate v b = to_signed b (wrap b v).
Proof.
  intros Hb. unfold signed_immediate.
  apply Z.bits_inj'. intros i Hi. rewrite Z.shiftr_spec by lia.
  pose proof (wrap_range 64 (Z.shiftl v (64 - b)) ltac:(lia)) as Hr1.
  pose proof (wrap_range b v ltac:(lia)) as Hr2.
  pose proof (testbit_asr 64 (shl 64 v (64 - b)) 0 (i + (64 - b)) ltac:(lia) Hr1 ltac:(lia) ltac:(lia)) as H1.
  pose proof (testbit_asr b (wrap b v) 0 i ltac:(lia) Hr2 ltac:(lia) Hi) as H2.
  rewrite Z.pow_0_r, Z.div_1_r, !Z.add_0_r in H1, H2. rewrite H1, H2.
  destruct (Z.ltb_spec (i + (64 - b)) 64), (Z.ltb_spec i b); try lia; bits; bounds; f_equal; lia.
Qed.

Lemma signed_immediate_range v b :
  1 <= b <= 64 -> - 2 ^ (b - 1) <= signed_immediate v b < 2 ^ (b - 1).
Proof.
  intros Hb. rewrite signed_immediate_arith by done. apply to_signed_range; [lia|].
  apply wrap_range. lia.
Qed.
