(* ===== verification/CpuVector.v ===== *)
(** * Vector lanes and floating-point value types

    crates/cpu/src/semantics/vector.rs (lane widths, arrangements, lane access,
    saturation) and crates/cpu/src/semantics/floating_point.rs (formats, rounding
    modes, status), and the loop over lanes that the Advanced SIMD operations
    share. *)

From S2P Require Import Prelude CpuBits.

Inductive LaneWidth := Bits8 | Bits16 | Bits32 | Bits64.

Definition lane_bits (w : LaneWidth) : Z := match w with Bits8 => 8 | Bits16 => 16 | Bits32 => 32 | Bits64 => 64 end.
Definition lane_width_mask (w : LaneWidth) : Z := shl 128 1 (lane_bits w) - 1.

Inductive VectorError :=
| InvalidVectorWidth (width : Z)
| InvalidArrangement (vector_bits lane_bits : Z)
| LaneOutOfRange (lane lane_count : Z).

Record VectorArrangement := mkArrangement { va_bits : Z; va_lane : LaneWidth }.

Definition VectorArrangement_new (vector_bits : Z) (w : LaneWidth) : Result VectorError VectorArrangement :=
  if negb ((vector_bits =? 64) || (vector_bits =? 128)) then Err (InvalidVectorWidth vector_bits)
  else if negb (vector_bits mod lane_bits w =? 0) then Err (InvalidArrangement vector_bits (lane_bits w))
  else Ok (mkArrangement vector_bits w).

Definition lane_count (a : VectorArrangement) : Z := a.(va_bits) / lane_bits a.(va_lane).

Definition extract_lane (vector : Z) (a : VectorArrangement) (lane : Z) : Result VectorError Z :=
  if lane_count a <=? lane then Err (LaneOutOfRange lane (lane_count a))
  else
    let offset := lane * lane_bits a.(va_lane) in
    Ok (wrap 64 (Z.land (shr vector offset) (lane_width_mask a.(va_lane)))).

Definition insert_lane (vector : Z) (a : VectorArrangement) (lane value : Z) : Result VectorError Z :=
  if lane_count a <=? lane then Err (LaneOutOfRange lane (lane_count a))
  else
    let offset := lane * lane_bits a.(va_lane) in
    let mask := shl 128 (lane_width_mask a.(va_lane)) offset in
    let vector_mask := if a.(va_bits) =? 128 then umax 128 else umax 64 in
    Ok (Z.land (Z.lor (Z.land vector (unot 128 mask))
                      (shl 128 (Z.land value (lane_width_mask a.(va_lane))) offset)) vector_mask).

Record SaturationResult := mkSaturation { sat_value : Z; saturated : bool }.

(** [value] is an [i128]. *)
Definition saturate_unsigned (value : Z) (w : LaneWidth) : SaturationResult :=
  let maximum := lane_width_mask w in
  if value <? 0 then mkSaturation 0 true
  else if maximum <? value then mkSaturation (wrap 64 maximum) true
  else mkSaturation (wrap 64 value) false.

Definition saturate_signed (value : Z) (w : LaneWidth) : SaturationResult :=
  let minimum := - Z.shiftl 1 (lane_bits w - 1) in
  let maximum := Z.shiftl 1 (lane_bits w - 1) - 1 in
  let '(value, sat) :=
    if value <? minimum then (minimum, true)
    else if maximum <? value then (maximum, true)
    else (value, false) in
  mkSaturation (wrap 64 (Z.land (wrap 128 value) (lane_width_mask w))) sat.

(** floating_point.rs *)
Inductive FpFormat := Binary16 | Binary32 | Binary64.
Definition fp_bits (f : FpFormat) : Z := match f with Binary16 => 16 | Binary32 => 32 | Binary64 => 64 end.
Inductive FpRoundingMode := TiesToEven | TowardPositive | TowardNegative | TowardZero | TiesAway | ToOdd.
Record FpStatus := mkStatus {
  invalid_operation : bool; divide_by_zero : bool; overflow : bool;
  underflow : bool; inexact : bool; input_denormal : bool
}.
Definition FpStatus_default : FpStatus := mkStatus false false false false false false.

#[global] Instance FpRoundingMode_eq_dec : EqDecision FpRoundingMode.
Proof. solve_decision. Defined.

(** ** The loop over lanes

    [for lane in 0..count { result |= f(lane) << (lane * bits) }] from 0. *)
Definition gather (count bits : Z) (f : Z -> Z) : Z :=
  fold_left (fun result lane => Z.lor result (shl 128 (f lane) (lane * bits))) (seqZ 0 count) 0.

(** The bits of one lane. *)
Definition lane_at (vector bits lane : Z) : Z := wrap bits (shr vector (lane * bits)).

(** [(vector >> shift) & ((1 << bits) - 1)] *)
Definition lane_mask (bits : Z) : Z := shl 128 1 bits - 1.
Definition masked_lane (vector bits lane : Z) : Z := Z.land (shr vector (lane * bits)) (lane_mask bits).

(** ** Lemmas *)

Lemma lane_mask_ones b : 0 <= b < 128 -> lane_mask b = Z.ones b.
Proof.
  intros Hb. unfold lane_mask, shl. rewrite Z.shiftl_mul_pow2, Z.mul_1_l by lia. rewrite wrap_small.
  - rewrite Z.ones_equiv. lia.
  - split; [apply Z.pow_nonneg; lia|apply Z.pow_lt_mono_r; lia].
Qed.

Lemma masked_lane_at v b i : 0 <= b < 128 -> masked_lane v b i = lane_at v b i.
Proof. intros Hb. unfold masked_lane, lane_at. rewrite lane_mask_ones by done. apply land_ones_wrap. lia. Qed.

Lemma lane_at_range v b i : 0 <= b -> in_range b (lane_at v b i).
Proof. intros Hb. apply wrap_range. lia. Qed.

Lemma testbit_lane_at v b i k : 0 <= b -> 0 <= i -> 0 <= k -> Z.testbit (lane_at v b i) k = (k <? b) && Z.testbit v (i * b + k).
Proof.
  intros Hb Hi Hk. unfold lane_at. rewrite testbit_wrap by lia. unfold shr. rewrite Z.shiftr_spec by lia.
  by rewrite (Z.add_comm k).
Qed.

(** A bit of the gathered vector is a bit of its lane. *)
Lemma testbit_gather_nat (n : nat) bits f k :
  0 < bits -> Z.of_nat n * bits <= 128 -> (forall i, 0 <= i < Z.of_nat n -> in_range bits (f i)) -> 0 <= k ->
  Z.testbit (gather (Z.of_nat n) bits f) k = (k / bits <? Z.of_nat n) && Z.testbit (f (k / bits)) (k mod bits).
Proof.
  intros Hb. revert k. induction n as [|n IH]; intros k Hn Hf Hk.
  - unfold gather. change (seqZ 0 (Z.of_nat 0)) with (@nil Z). cbn [fold_left]. rewrite Z.testbit_0_l.
    rewrite (proj2 (Z.ltb_ge _ _)) by (apply Z.div_pos; lia). done.
  - replace (Z.of_nat (S n)) with (Z.of_nat n + 1) in * by lia. unfold gather in *.
    rewrite seqZ_app, fold_left_app by lia. change (seqZ (0 + Z.of_nat n) 1) with [Z.of_nat n]. cbn [fold_left].
    rewrite Z.lor_spec, IH by (lia || intros i Hi; apply Hf; lia).
    pose proof (Z.div_mod k bits ltac:(lia)) as Hdm. pose proof (Z.mod_pos_bound k bits Hb) as Hm.
    unfold shl. rewrite testbit_wrap by lia.
    assert (Hfn : in_range bits (f (Z.of_nat n))) by (apply Hf; lia).
    destruct (Z_lt_le_dec k (Z.of_nat n * bits)) as [Hlt|Hge].
    + rewrite Z.shiftl_spec_low by lia. rewrite andb_false_r, orb_false_r.
      assert (k / bits < Z.of_nat n) by (apply Z.div_lt_upper_bound; lia).
      by rewrite !(proj2 (Z.ltb_lt _ _)) by lia.
    + rewrite Z.shiftl_spec_high by lia. assert (Hq : Z.of_nat n <= k / bits) by (apply Z.div_le_lower_bound; lia).
      rewrite (proj2 (Z.ltb_ge _ _)) by lia. cbn [andb orb].
      destruct (Z_lt_le_dec k ((Z.of_nat n + 1) * bits)) as [Hlt'|Hge'].
      * assert (Hq' : k / bits = Z.of_nat n) by (symmetry; apply Z.div_unique_pos with (k - Z.of_nat n * bits); lia).
        rewrite Hq', !(proj2 (Z.ltb_lt _ _)) by lia. cbn [andb]. f_equal. rewrite Z.mod_eq, Hq' by lia. lia.
      * assert (Z.of_nat n + 1 <= k / bits) by (apply Z.div_le_lower_bound; lia).
        rewrite (proj2 (Z.ltb_ge (k / bits) _)) by lia. rewrite (testbit_high bits) by (done || lia). apply andb_false_r.
Qed.

Lemma testbit_gather n bits f k :
  0 <= n -> 0 < bits -> n * bits <= 128 -> (forall i, 0 <= i < n -> in_range bits (f i)) -> 0 <= k ->
  Z.testbit (gather n bits f) k = (k / bits <? n) && Z.testbit (f (k / bits)) (k mod bits).
Proof. intros Hn. rewrite <- (Z2Nat.id n Hn). intros. by apply testbit_gather_nat. Qed.

Lemma gather_nonneg n bits f : (forall i, 0 <= i < n -> 0 <= f i) -> 0 <= gather n bits f.
Proof.
  intros Hf. unfold gather.
  assert (Hl : Forall (fun i => 0 <= f i) (seqZ 0 n)) by (apply Forall_forall; intros i Hi%elem_of_seqZ; apply Hf; lia).
  assert (Hg : forall l acc, Forall (fun i => 0 <= f i) l -> 0 <= acc -> 0 <= fold_left (fun r i => Z.lor r (shl 128 (f i) (i * bits))) l acc).
  { induction l as [|i l IH]; intros acc Hfl Ha; [done|]. inversion_clear Hfl. cbn. apply IH; [done|].
    apply Z.lor_nonneg. split; [done|]. unfold shl, wrap. apply Z.mod_pos_bound. lia. }
  by apply Hg.
Qed.

(** The lanes of a gathered vector, and its width. *)
Lemma lane_at_gather n bits f i :
  0 < bits -> n * bits <= 128 -> (forall i, 0 <= i < n -> in_range bits (f i)) -> 0 <= i < n ->
  lane_at (gather n bits f) bits i = f i.
Proof.
  intros Hb Hn Hf Hi. apply Z.bits_inj'. intros k Hk. rewrite testbit_lane_at by lia.
  rewrite testbit_gather by (done || lia).
  destruct (Z.ltb_spec k bits); cbn [andb].
  - assert (Hq : (i * bits + k) / bits = i) by (symmetry; apply Z.div_unique_pos with k; lia).
    rewrite Hq, (proj2 (Z.ltb_lt _ _)) by lia. cbn [andb]. f_equal. rewrite Z.mod_eq, Hq by lia. lia.
  - symmetry. apply (testbit_high bits); [lia|by apply Hf].
Qed.

Lemma gather_range n bits f :
  0 <= n -> 0 < bits -> n * bits <= 128 -> (forall i, 0 <= i < n -> in_range bits (f i)) -> in_range (n * bits) (gather n bits f).
Proof.
  intros Hn Hb Hnb Hf. apply in_range_of_bits; [nia| |].
  - apply gather_nonneg. intros i Hi. destruct (Hf i Hi). done.
  - intros k Hk. rewrite testbit_gather by (done || lia). rewrite (proj2 (Z.ltb_ge _ _)); [done|].
    apply Z.div_le_lower_bound; lia.
Qed.
