(* ===== verification/DecodeTable.v ===== *)
(** * Indexed decode tables (crates/cpu/src/decode/table.rs)

    A table is compiled from declarative mask/value patterns into 256 buckets
    keyed by one byte of the encoding; decoding scans one bucket in priority
    order.  The allocation rules of decode/allocation.rs are the argument
    [validate] of this file, instantiated by [DecodeAllocation].

    The theorems relate the compiled table to its specification: among the
    patterns that match the word and are allocated, the one of highest priority
    is chosen, and there is at most one such pattern. *)

From S2P Require Import Prelude.

Definition BUCKET_COUNT : Z := 256.
Definition MAX_OPERANDS : nat := 8.

Inductive DecodeSupport := Ready | RecognizedUnimplemented.

Inductive AllocationStatus :=
| Allocated
| Reserved (reason : string)
| Unallocated (reason : string).

Inductive OperandId := Destination | FirstSource | SecondSource | Immediate | ConditionId.

#[global] Instance OperandId_eq_dec : EqDecision OperandId.
Proof. solve_decision. Defined.

(** [field.id as usize] *)
Definition OperandId_index (id : OperandId) : Z :=
  match id with
  | Destination => 0 | FirstSource => 1 | SecondSource => 2 | Immediate => 3 | ConditionId => 4
  end.

Inductive OperandKind :=
| KindUnsigned
| KindSignedScaled (scale : Z)
| KindRegister.

Record OperandField := mkField { f_id : OperandId; f_lsb : Z; f_width : Z; f_kind : OperandKind }.

Record InstructionPattern := mkPattern {
  p_name : string;
  p_mask : Z;
  p_value : Z;
  p_operands : list OperandField;
  p_coverage_id : Z;
  p_priority : Z;
  p_decoder : DecodeSupport;
  p_regression_fixture : option Z
}.

(** The builder methods [fixture32] and [recognized_unimplemented]. *)
Definition fixture32 (bits : Z) (p : InstructionPattern) : InstructionPattern :=
  mkPattern p.(p_name) p.(p_mask) p.(p_value) p.(p_operands) p.(p_coverage_id) p.(p_priority)
    p.(p_decoder) (Some bits).
Definition recognized_unimplemented (p : InstructionPattern) : InstructionPattern :=
  mkPattern p.(p_name) p.(p_mask) p.(p_value) p.(p_operands) p.(p_coverage_id) p.(p_priority)
    RecognizedUnimplemented p.(p_regression_fixture).

Inductive OperandValue :=
| UnsignedValue (value : Z)
| SignedValue (value : Z)
| RegisterValue (index : Z).

Record DecodedOpcode := mkOpcode { o_pattern : InstructionPattern; o_bits : Z }.

Inductive TableError :=
| EmptyTable
| TooManyPatterns
| InvalidPattern (name reason : string)
| Overlap (first second : string)
| DuplicateCoverageId (id : Z).

Record DecoderTable := mkTable {
  t_patterns : list InstructionPattern;
  t_index_shift : Z;
  t_buckets : list (list Z)
}.

Inductive DecodeResult :=
| Decoded (opcode : DecodedOpcode)
| DecodeUnallocated (reason : string)
| DecodeReserved (name reason : string)
| DecodeRecognizedUnimplemented (opcode : DecodedOpcode).

Definition low_mask (width : Z) : Z := if width =? 32 then umax 32 else shl 32 1 width - 1.

(** One iteration of [extract_operands]. *)
Definition extract_operand (field : OperandField) (bits : Z) : OperandValue :=
  let raw := Z.land (shr bits field.(f_lsb)) (low_mask field.(f_width)) in
  match field.(f_kind) with
  | KindUnsigned => UnsignedValue raw
  | KindRegister => RegisterValue (wrap 8 raw)
  | KindSignedScaled scale =>
      let shift := 64 - field.(f_width) in
      let signed := Z.shiftr (to_signed 64 (shl 64 raw shift)) shift in
      SignedValue (to_signed 64 (wrap 64 (Z.shiftl signed scale)))
  end.

(** [extract_operands]: storing past the eighth slot would panic. *)
Definition extract_operands (pattern : InstructionPattern) (bits : Z)
  : Result Empty_set (list (OperandId * OperandValue)) :=
  foldl (fun acc field =>
           let? values := acc in
           if Nat.ltb (length values) MAX_OPERANDS
           then Ok (values ++ [(field.(f_id), extract_operand field bits)])
           else Panic)
        (Ok []) pattern.(p_operands).

(** ** Validation *)

(** The fields of one pattern: [operand_bits] and [seen] are the loop state. *)
Fixpoint validate_fields (name : string) (fields : list OperandField) (operand_bits : Z)
    (seen : list Z) : Result TableError unit :=
  match fields with
  | [] => Ok tt
  | field :: rest =>
    let end_ := field.(f_lsb) + field.(f_width) in
    if (field.(f_width) =? 0) || (255 <? end_) || (32 <? end_)
    then Err (InvalidPattern name "operand field lies outside encoding")
    else
      let? _k := match field.(f_kind) with
                | KindRegister =>
                    if 5 <? field.(f_width)
                    then Err (InvalidPattern name "A64 register field exceeds five bits") else Ok tt
                | KindSignedScaled scale =>
                    if (255 <? field.(f_width) + scale) || (63 <? field.(f_width) + scale)
                    then Err (InvalidPattern name "signed scaled operand does not fit i64") else Ok tt
                | KindUnsigned => Ok tt
                end in
      let field_mask := shl 32 (low_mask field.(f_width)) field.(f_lsb) in
      if negb (Z.land operand_bits field_mask =? 0)
      then Err (InvalidPattern name "operand fields overlap")
      else
        let id := OperandId_index field.(f_id) in
        if bool_decide (id ∈ seen)
        then Err (InvalidPattern name "duplicate operand role")
        else validate_fields name rest (Z.lor operand_bits field_mask) (id :: seen)
  end.

Definition validate_pattern (pattern : InstructionPattern) : Result TableError unit :=
  if negb (Z.land pattern.(p_value) (unot 32 pattern.(p_mask)) =? 0) ||
     negb (Z.land pattern.(p_mask) (unot 32 (umax 32)) =? 0)
  then Err (InvalidPattern pattern.(p_name) "mask/value exceeds width or value has unmasked bits")
  else if Nat.ltb MAX_OPERANDS (length pattern.(p_operands))
  then Err (InvalidPattern pattern.(p_name) "too many operands")
  else
    let? _f := validate_fields pattern.(p_name) pattern.(p_operands) 0 [] in
    match pattern.(p_regression_fixture) with
    | Some fixture =>
        if negb (Z.land fixture pattern.(p_mask) =? pattern.(p_value))
        then Err (InvalidPattern pattern.(p_name)
                    "regression fixture does not match its decoder entry")
        else Ok tt
    | None => Ok tt
    end.

Fixpoint validate_each (patterns : list InstructionPattern) : Result TableError unit :=
  match patterns with
  | [] => Ok tt
  | pattern :: rest => let? _u := validate_pattern pattern in validate_each rest
  end.

Definition overlap (left_ right_ : InstructionPattern) : bool :=
  Z.land (Z.lxor left_.(p_value) right_.(p_value)) (Z.land left_.(p_mask) right_.(p_mask)) =? 0.

Definition validate_pair (left_ right_ : InstructionPattern) : Result TableError unit :=
  if left_.(p_coverage_id) =? right_.(p_coverage_id)
  then Err (DuplicateCoverageId left_.(p_coverage_id))
  else if overlap left_ right_ && (left_.(p_priority) =? right_.(p_priority))
  then Err (Overlap left_.(p_name) right_.(p_name))
  else Ok tt.

Fixpoint validate_against (left_ : InstructionPattern) (rights : list InstructionPattern)
  : Result TableError unit :=
  match rights with
  | [] => Ok tt
  | right_ :: rest => let? _u := validate_pair left_ right_ in validate_against left_ rest
  end.

Fixpoint validate_pairs (patterns : list InstructionPattern) : Result TableError unit :=
  match patterns with
  | [] => Ok tt
  | left_ :: rest => let? _u := validate_against left_ rest in validate_pairs rest
  end.

Definition validate_patterns (patterns : list InstructionPattern) : Result TableError unit :=
  if Nat.eqb (length patterns) 0 then Err EmptyTable
  else if 65536 <? Z.of_nat (length patterns) then Err TooManyPatterns
  else
    let? _u := validate_each patterns in
    validate_pairs patterns.

(** ** Compilation *)

Definition bucket_can_match (pattern : InstructionPattern) (shift byte : Z) : bool :=
  let m := wrap 8 (Z.land (shr pattern.(p_mask) shift) 255) in
  let v := wrap 8 (Z.land (shr pattern.(p_value) shift) 255) in
  Z.land byte m =? v.

(** [u8::MIN..=u8::MAX] *)
Definition all_bytes : list Z := seqZ 0 BUCKET_COUNT.

Definition bucket_count (patterns : list InstructionPattern) (shift byte : Z) : Z :=
  Z.of_nat (length (filter (fun p => bucket_can_match p shift byte = true) patterns)).

Definition index_cost (patterns : list InstructionPattern) (shift : Z) : Z :=
  let '(maximum, total) :=
    foldl (fun '(maximum, total) byte =>
             let count := bucket_count patterns shift byte in
             (Z.max maximum count, total + count)) (0, 0) all_bytes in
  maximum * BUCKET_COUNT + total.

(** The [for shift in (0..32).step_by(8)] loop, from [best_cost = usize::MAX]. *)
Definition best_shift (patterns : list InstructionPattern) : Z :=
  (foldl (fun '(best, best_cost) shift =>
            let cost := index_cost patterns shift in
            if cost <? best_cost then (shift, cost) else (best, best_cost))
         (0, u64_max) [0; 8; 16; 24]).1.

(** [slice::sort_by_key] is stable; [Reverse(priority)] sorts highest first. *)
Fixpoint insert_by_priority (priority : Z -> Z) (index : Z) (l : list Z) : list Z :=
  match l with
  | [] => [index]
  | y :: l' =>
      if priority y <=? priority index then index :: l
      else y :: insert_by_priority priority index l'
  end.
Definition sort_by_priority (priority : Z -> Z) (l : list Z) : list Z :=
  foldr (insert_by_priority priority) [] l.

(** [patterns[usize::from(index)]] for an index that is in range. *)
Definition pattern_at (patterns : list InstructionPattern) (index : Z) : option InstructionPattern :=
  patterns !! Z.to_nat index.

Definition priority_at (patterns : list InstructionPattern) (index : Z) : Z :=
  from_option p_priority 0 (pattern_at patterns index).

(** The indices pushed into the bucket of [byte], in pattern order. *)
Definition bucket_indices (patterns : list InstructionPattern) (shift byte : Z) : list Z :=
  filter (fun i => from_option (fun p => bucket_can_match p shift byte) false
                     (pattern_at patterns i) = true)
         (seqZ 0 (Z.of_nat (length patterns))).

Definition compile (patterns : list InstructionPattern) : Result TableError DecoderTable :=
  let? _u := validate_patterns patterns in
  let shift := best_shift patterns in
  let buckets :=
    map (fun byte => sort_by_priority (priority_at patterns) (bucket_indices patterns shift byte))
        all_bytes in
  Ok (mkTable patterns shift buckets).

(** ** Decoding *)

Section Decode.
Variable validate : Z -> Z -> AllocationStatus.

(** The [match allocation_rejection] at the end of [decode]. *)
Definition finish (rejection : option (bool * string * string)) : DecodeResult :=
  match rejection with
  | Some (true, name, reason) => DecodeReserved name reason
  | Some (false, _, reason) => DecodeUnallocated reason
  | None => DecodeUnallocated "no allocated instruction pattern matched"
  end.

(** [Option::get_or_insert] *)
Definition get_or_insert {A} (o : option A) (a : A) : option A :=
  match o with Some _ => o | None => Some a end.

(** The loop over one bucket; an index outside the table would panic. *)
Fixpoint scan (patterns : list InstructionPattern) (indices : list Z) (bits : Z)
    (rejection : option (bool * string * string)) : Result Empty_set DecodeResult :=
  match indices with
  | [] => Ok (finish rejection)
  | index :: rest =>
    match pattern_at patterns index with
    | None => Panic
    | Some pattern =>
      if negb (Z.land bits pattern.(p_mask) =? pattern.(p_value))
      then scan patterns rest bits rejection
      else
        match validate pattern.(p_coverage_id) bits with
        | Reserved reason =>
            scan patterns rest bits (get_or_insert rejection (true, pattern.(p_name), reason))
        | Unallocated reason =>
            scan patterns rest bits (get_or_insert rejection (false, pattern.(p_name), reason))
        | Allocated =>
            let decoded := mkOpcode pattern bits in
            Ok (match pattern.(p_decoder) with
                | Ready => Decoded decoded
                | RecognizedUnimplemented => DecodeRecognizedUnimplemented decoded
                end)
        end
    end
  end.

Definition table_decode (t : DecoderTable) (bits : Z) : Result Empty_set DecodeResult :=
  let bucket := Z.land (shr bits t.(t_index_shift)) 255 in
  match t.(t_buckets) !! Z.to_nat bucket with
  | None => Panic
  | Some indices => scan t.(t_patterns) indices bits None
  end.
End Decode.

(** ** Stable priority sort *)

Section Sorting.
Context (priority : Z -> Z).

Definition descending (l : list Z) : Prop :=
  StronglySorted (fun a b => priority b <= priority a) l.

Lemma insert_by_priority_elem a l b : b ∈ insert_by_priority priority a l <-> b = a \/ b ∈ l.
Proof.
  induction l as [|y l IH]; simpl; [set_solver|]. case_match; set_solver.
Qed.

Lemma sort_by_priority_elem l b : b ∈ sort_by_priority priority l <-> b ∈ l.
Proof.
  induction l as [|y l IH]; simpl; [done|]. rewrite insert_by_priority_elem. set_solver.
Qed.

Lemma insert_by_priority_sorted a l : descending l -> descending (insert_by_priority priority a l).
Proof.
  intros Hl. induction Hl as [|y l Hl IH Hall]; simpl; [repeat constructor|].
  destruct (Z.leb_spec (priority y) (priority a)) as [Hle|Hgt].
  - constructor; [by constructor|]. constructor; [done|].
    eapply Forall_impl; [exact Hall|]. simpl. lia.
  - constructor; [done|]. apply Forall_forall. intros b [-> |Hb]%insert_by_priority_elem; [lia|].
    rewrite Forall_forall in Hall. by apply Hall.
Qed.

Lemma sort_by_priority_sorted l : descending (sort_by_priority priority l).
Proof. induction l; simpl; [constructor|]. by apply insert_by_priority_sorted. Qed.

Context (P : Z -> bool).
Let keep (l : list Z) : list Z := filter (fun i => P i = true) l.

Lemma keep_cons_true a l : P a = true -> keep (a :: l) = a :: keep l.
Proof. intros H. unfold keep. by rewrite filter_cons_True. Qed.
Lemma keep_cons_false a l : P a = false -> keep (a :: l) = keep l.
Proof. intros H. unfold keep. rewrite filter_cons_False; [done|]. by rewrite H. Qed.

Lemma insert_first a l :
  Forall (fun y => priority y <= priority a) l -> insert_by_priority priority a l = a :: l.
Proof.
  intros Hl. destruct Hl as [|y l Hy _]; simpl; [done|].
  by destruct (Z.leb_spec (priority y) (priority a)); [|lia].
Qed.

Lemma keep_insert a l :
  descending l ->
  keep (insert_by_priority priority a l) =
  if P a then insert_by_priority priority a (keep l) else keep l.
Proof.
  intros Hl. induction Hl as [|y l Hl IH Hall]; simpl.
  { unfold keep. rewrite filter_cons. destruct (P a); by case_decide. }
  destruct (Z.leb_spec (priority y) (priority a)) as [Hle|Hgt].
  - assert (Hfa : Forall (fun z => priority z <= priority a) (keep (y :: l))).
    { apply Forall_forall. intros z [_ [->|Hz]%elem_of_cons]%list_elem_of_filter; [done|].
      rewrite Forall_forall in Hall. specialize (Hall z Hz). simpl in Hall. lia. }
    destruct (P a) eqn:Ha; [|by apply keep_cons_false].
    rewrite insert_first by done. by apply keep_cons_true.
  - destruct (P y) eqn:Hy.
    + rewrite !keep_cons_true by done. rewrite IH. destruct (P a); [|done]. simpl.
      by destruct (Z.leb_spec (priority y) (priority a)); [lia|].
    + by rewrite !keep_cons_false by done.
Qed.

(** Filtering commutes with the stable sort. *)
Lemma keep_sort l : keep (sort_by_priority priority l) = sort_by_priority priority (keep l).
Proof.
  induction l as [|a l IH]; simpl; [done|].
  rewrite keep_insert by apply sort_by_priority_sorted. rewrite IH.
  destruct (P a) eqn:Ha; [by rewrite keep_cons_true|by rewrite keep_cons_false].
Qed.
End Sorting.

(** ** Validation gives pairwise facts *)

Lemma result_bind_ok {E A B} (r : Result E A) (k : A -> Result E B) b :
  result_bind r k = Ok b -> exists a, r = Ok a /\ k a = Ok b.
Proof. destruct r; simpl; try done. eauto. Qed.

Lemma Ok_inj {E A} (a b : A) : @Ok E A a = Ok b -> a = b.
Proof. by intros [= ->]. Qed.

Lemma validate_pair_sound p q u :
  validate_pair p q = Ok u -> p.(p_coverage_id) <> q.(p_coverage_id) /\
    (overlap p q = true -> p.(p_priority) <> q.(p_priority)).
Proof.
  unfold validate_pair. destruct (Z.eqb_spec p.(p_coverage_id) q.(p_coverage_id)); [done|].
  destruct (overlap p q); simpl; [|done]. destruct (Z.eqb_spec p.(p_priority) q.(p_priority)); done.
Qed.

Lemma validate_against_sound p l u :
  validate_against p l = Ok u -> Forall (fun q => validate_pair p q = Ok tt) l.
Proof.
  induction l as [|q l IH]; simpl; [constructor|].
  intros ([] & Hq & Hl)%result_bind_ok. constructor; auto.
Qed.

Lemma validate_pairs_sound l i j p q u :
  validate_pairs l = Ok u -> l !! i = Some p -> l !! j = Some q -> (i < j)%nat ->
  validate_pair p q = Ok tt.
Proof.
  revert i j. induction l as [|r l IH]; intros i j Hl Hi Hj Hij; [done|].
  simpl in Hl. apply result_bind_ok in Hl as ([] & Hr & Hl).
  destruct i as [|i], j as [|j]; simpl in *; try lia.
  - simplify_eq. apply validate_against_sound in Hr. by eapply Forall_lookup_1 in Hr.
  - apply (IH i j); try done. lia.
Qed.

(** In a validated table a coverage identity names one entry. *)
Lemma validate_pairs_unique l p q :
  validate_pairs l = Ok tt -> p ∈ l -> q ∈ l -> p.(p_coverage_id) = q.(p_coverage_id) -> p = q.
Proof.
  intros Hv [i Hi]%list_elem_of_lookup [j Hj]%list_elem_of_lookup Heq.
  destruct (Nat.lt_total i j) as [Hlt|[->|Hgt]]; [|congruence|].
  - destruct (validate_pair_sound p q tt) as [Hne _]; [|done].
    by apply (validate_pairs_sound l i j p q tt).
  - destruct (validate_pair_sound q p tt) as [Hne _]; [|done].
    by apply (validate_pairs_sound l j i q p tt).
Qed.

(** ** The compiled buckets *)

Lemma compile_inv patterns t :
  compile patterns = Ok t ->
  t.(t_patterns) = patterns /\ validate_pairs patterns = Ok tt /\
  0 <= t.(t_index_shift) <= 24 /\
  forall byte, 0 <= byte < 256 -> t.(t_buckets) !! Z.to_nat byte =
    Some (sort_by_priority (priority_at patterns)
            (bucket_indices patterns t.(t_index_shift) byte)).
Proof.
  intros ([] & Hv & Ht)%result_bind_ok. apply Ok_inj in Ht as <-. cbn [t_patterns t_index_shift t_buckets].
  split; [done|]. split; [|split].
  - unfold validate_patterns in Hv. destruct (Nat.eqb _ _); [done|].
    destruct (_ <? _); [done|]. by apply result_bind_ok in Hv as ([] & _ & Hv).
  - unfold best_shift. cbn [foldl].
    repeat match goal with |- context [if ?b then _ else _] => destruct b end; simpl; lia.
  - intros byte Hb. etransitivity; [apply list_lookup_fmap|]. unfold all_bytes, BUCKET_COUNT.
    rewrite lookup_seqZ_lt by lia. cbn [fmap option_fmap option_map]. do 3 f_equal. lia.
Qed.

Lemma land_255_wrap z : Z.land z 255 = wrap 8 z.
Proof. change 255 with (Z.ones 8). apply land_ones_wrap. lia. Qed.

(** A pattern that matches a word can match the bucket of the word's byte. *)
Lemma matches_bucket p bits shift :
  0 <= shift -> Z.land bits p.(p_mask) = p.(p_value) ->
  bucket_can_match p shift (Z.land (shr bits shift) 255) = true.
Proof.
  intros Hs Hm. unfold bucket_can_match. rewrite !land_255_wrap, !wrap_wrap. apply Z.eqb_eq.
  rewrite <- Hm. apply Z.bits_inj'. intros i Hi. unfold shr.
  rewrite Z.land_spec, !testbit_wrap, !Z.shiftr_spec, Z.land_spec by lia.
  by destruct (i <? 8).
Qed.

Section DecodeProofs.
Context (validate : Z -> Z -> AllocationStatus).

(** The reference decoder: a scan of the whole table in priority order. *)
Definition linear_decode (patterns : list InstructionPattern) (bits : Z) : Result Empty_set DecodeResult :=
  scan validate patterns
    (sort_by_priority (priority_at patterns) (seqZ 0 (Z.of_nat (length patterns)))) bits None.

Definition matches (bits : Z) (p : InstructionPattern) : bool :=
  Z.land bits p.(p_mask) =? p.(p_value).

Definition is_allocated (bits : Z) (p : InstructionPattern) : bool :=
  match validate p.(p_coverage_id) bits with Allocated => true | _ => false end.

Definition candidate (bits : Z) (p : InstructionPattern) : bool :=
  matches bits p && is_allocated bits p.

(** Dropping indices that do not match does not change the scan. *)
Lemma scan_keep patterns (P : Z -> bool) l bits rej :
  (forall i, i ∈ l -> exists p, pattern_at patterns i = Some p /\ (P i = false -> matches bits p = false)) ->
  scan validate patterns (filter (fun i => P i = true) l) bits rej =
  scan validate patterns l bits rej.
Proof.
  revert rej. induction l as [|i l IH]; intros rej Hl; [done|].
  destruct (Hl i ltac:(by left)) as (p & Hp & Hn).
  assert (Hl' : forall j, j ∈ l -> exists p, pattern_at patterns j = Some p /\ (P j = false -> matches bits p = false))
    by (intros j Hj; apply Hl; by right).
  destruct (P i) eqn:HPi.
  - rewrite filter_cons_True by done. simpl. rewrite Hp.
    case_match; [by apply IH|]. case_match; [done|by apply IH|by apply IH].
  - rewrite filter_cons_False by (by rewrite HPi). rewrite IH by done. simpl. rewrite Hp.
    specialize (Hn eq_refl). unfold matches in Hn. by rewrite Hn.
Qed.

Definition outcome (p : InstructionPattern) (bits : Z) : DecodeResult :=
  match p.(p_decoder) with
  | Ready => Decoded (mkOpcode p bits)
  | RecognizedUnimplemented => DecodeRecognizedUnimplemented (mkOpcode p bits)
  end.

(** The scan returns the first candidate, or a rejection when there is none. *)
Lemma scan_first patterns l bits rej :
  (forall i, i ∈ l -> is_Some (pattern_at patterns i)) ->
  (exists l1 i l2 p, l = l1 ++ i :: l2 /\ pattern_at patterns i = Some p /\ candidate bits p = true /\
     (forall j q, j ∈ l1 -> pattern_at patterns j = Some q -> candidate bits q = false) /\
     scan validate patterns l bits rej = Ok (outcome p bits)) \/
  ((forall j q, j ∈ l -> pattern_at patterns j = Some q -> candidate bits q = false) /\
   exists rej', scan validate patterns l bits rej = Ok (finish rej')).
Proof.
  revert rej. induction l as [|i l IH]; intros rej Hl.
  { right. split; [set_solver|]. by exists rej. }
  destruct (Hl i ltac:(by left)) as [p Hp]. simpl. rewrite Hp.
  destruct (candidate bits p) eqn:Hc.
  - left. exists [], i, l, p. split_and!; try done; [set_solver|].
    unfold candidate, matches, is_allocated in Hc. apply andb_true_iff in Hc as [-> Hc]. simpl.
    by destruct (validate _ _).
  - assert (Hstep : exists rej', (if negb (Z.land bits p.(p_mask) =? p.(p_value))
                    then scan validate patterns l bits rej
                    else match validate p.(p_coverage_id) bits with
                    | Reserved reason => scan validate patterns l bits (get_or_insert rej (true, p.(p_name), reason))
                    | Unallocated reason => scan validate patterns l bits (get_or_insert rej (false, p.(p_name), reason))
                    | Allocated => Ok (outcome p bits) end) = scan validate patterns l bits rej').
    { unfold candidate, matches, is_allocated in Hc.
      destruct (Z.land bits p.(p_mask) =? p.(p_value)); simpl in *; [|by eexists].
      destruct (validate _ _); [done|by eexists|by eexists]. }
    destruct Hstep as [rej' Hstep]. fold (outcome p bits). rewrite Hstep.
    destruct (IH rej' ltac:(intros j Hj; apply Hl; by right))
      as [(l1 & k & l2 & q & -> & Hq & Hcq & Hfirst & Heq)|[Hnone Heq]].
    + left. exists (i :: l1), k, l2, q. split_and!; try done.
      intros j r [->|Hj]%elem_of_cons Hr; [by simplify_eq|by eapply Hfirst].
    + right. split; [|done]. intros j r [->|Hj]%elem_of_cons Hr; [by simplify_eq|by eapply Hnone].
Qed.

Lemma bucket_scan patterns t bits :
  compile patterns = Ok t -> table_decode validate t bits = linear_decode patterns bits.
Proof.
  intros Ht. destruct (compile_inv _ _ Ht) as (Hp & _ & Hs & Hb). unfold table_decode, linear_decode.
  assert (Hbyte : 0 <= Z.land (shr bits t.(t_index_shift)) 255 < 256)
    by (rewrite land_255_wrap; by apply wrap_range).
  rewrite Hb, Hp by done. unfold bucket_indices.
  rewrite <- (keep_sort (priority_at patterns)
    (fun i => from_option (fun p => bucket_can_match p t.(t_index_shift)
               (Z.land (shr bits t.(t_index_shift)) 255)) false (pattern_at patterns i))).
  apply scan_keep. intros i [Hi1 Hi2]%sort_by_priority_elem%elem_of_seqZ.
  destruct (lookup_lt_is_Some_2 patterns (Z.to_nat i)) as [p Hpi]; [lia|].
  exists p. unfold pattern_at. rewrite Hpi. split; [done|]. simpl. intros Hn.
  apply not_true_is_false. intros Hm%Z.eqb_eq.
  by rewrite (matches_bucket p bits t.(t_index_shift)) in Hn by (done || lia).
Qed.
End DecodeProofs.

Lemma overlap_of_match bits p q :
  matches bits p = true -> matches bits q = true -> overlap p q = true.
Proof.
  unfold matches, overlap. rewrite !Z.eqb_eq. intros <- <-. apply Z.bits_inj'. intros i Hi.
  rewrite !Z.land_spec, Z.lxor_spec, !Z.land_spec, Z.bits_0.
  by destruct (Z.testbit bits i), (Z.testbit (p_mask p) i), (Z.testbit (p_mask q) i).
Qed.

(** In a validated table two distinct entries that match one word have
    different priorities. *)
Lemma match_priorities_differ patterns bits i j p q :
  validate_pairs patterns = Ok tt -> patterns !! i = Some p -> patterns !! j = Some q ->
  matches bits p = true -> matches bits q = true -> i <> j -> p.(p_priority) <> q.(p_priority).
Proof.
  intros Hv Hi Hj Hp Hq Hne. destruct (Nat.lt_ge_cases i j).
  - destruct (validate_pair_sound p q tt) as [_ Ho]; [by eapply validate_pairs_sound|].
    by eapply Ho, overlap_of_match.
  - destruct (validate_pair_sound q p tt) as [_ Ho]; [apply (validate_pairs_sound patterns j i q p tt); try done; lia|].
    apply not_eq_sym. by eapply Ho, overlap_of_match.
Qed.

Lemma StronglySorted_app_inv {A} (R : A -> A -> Prop) l1 a l2 :
  StronglySorted R (l1 ++ a :: l2) -> Forall (R a) l2.
Proof.
  induction l1 as [|b l1 IH]; simpl; intros H; inversion H; subst; auto.
Qed.

(** ** Claims *)

(** C34. The compiled table decodes every word exactly as a linear scan of all
    patterns in priority order: the byte index and the buckets are only an
    optimisation, for any pattern list that [compile] accepts and any
    allocation rules. *)
Theorem table_decode_linear validate patterns t bits :
  compile patterns = Ok t -> table_decode validate t bits = linear_decode validate patterns bits.
Proof. apply bucket_scan. Qed.

Definition witness_patterns : list InstructionPattern :=
  [mkPattern "wide" 0xff000000 0x11000000 [] 1 10 Ready None;
   mkPattern "narrow" 0xffff0000 0x11220000 [] 2 20 Ready None].

Definition witness_validate (id bits : Z) : AllocationStatus :=
  if (id =? 2) && (bits =? 0x11220000) then Reserved "zero" else Allocated.

Lemma table_decode_linear_witness :
  exists t, compile witness_patterns = Ok t /\
    table_decode witness_validate t 0x11220001 = linear_decode witness_validate witness_patterns 0x11220001.
Proof.
  eexists. split; [vm_compute; reflexivity|].
  apply table_decode_linear. vm_compute. reflexivity.
Defined.

(** Decoding never panics and picks the best entry: the result is the
    outcome of a pattern that matches the word and is allocated, and every
    other such pattern has a strictly lower priority; if no pattern qualifies
    the word is classified as reserved or unallocated. *)
Theorem decode_highest_priority validate patterns t bits :
  compile patterns = Ok t ->
  (exists i p, patterns !! i = Some p /\ candidate validate bits p = true /\
     table_decode validate t bits = Ok (outcome p bits) /\
     forall j q, patterns !! j = Some q -> candidate validate bits q = true ->
       j = i \/ q.(p_priority) < p.(p_priority)) \/
  ((forall p, p ∈ patterns -> candidate validate bits p = false) /\
   exists rejection, table_decode validate t bits = Ok (finish rejection)).
Proof.
  intros Ht. destruct (compile_inv _ _ Ht) as (_ & Hv & _). rewrite (bucket_scan _ _ _ _ Ht).
  unfold linear_decode. set (l := sort_by_priority _ _).
  assert (Hin : forall n p, patterns !! n = Some p -> Z.of_nat n ∈ l).
  { intros n p Hn. apply sort_by_priority_elem, elem_of_seqZ. apply lookup_lt_Some in Hn. lia. }
  destruct (scan_first validate patterns l bits None) as [(l1 & i & l2 & p & Hl & Hp & Hc & Hfirst & Heq)|[Hnone Heq]].
  { intros i [Hi1 Hi2]%sort_by_priority_elem%elem_of_seqZ. apply lookup_lt_is_Some_2. lia. }
  - left. exists (Z.to_nat i), p. split_and!; try done. intros j q Hj Hcq.
    destruct (decide (j = Z.to_nat i)) as [|Hne]; [by left|right].
    assert (Hpj : pattern_at patterns (Z.of_nat j) = Some q)
      by (unfold pattern_at; by rewrite Nat2Z.id).
    pose proof (Hin j q Hj) as Hjl. rewrite Hl in Hjl.
    apply elem_of_app in Hjl as [Hj1|[Hje|Hj2]%elem_of_cons].
    + by rewrite (Hfirst _ _ Hj1 Hpj) in Hcq.
    + exfalso. apply Hne. lia.
    + pose proof (sort_by_priority_sorted (priority_at patterns) (seqZ 0 (Z.of_nat (length patterns)))) as Hs.
      unfold descending in Hs. fold l in Hs. rewrite Hl in Hs. apply StronglySorted_app_inv in Hs.
      rewrite Forall_forall in Hs. specialize (Hs _ Hj2). unfold priority_at in Hs.
      rewrite Hp, Hpj in Hs. simpl in Hs.
      apply andb_true_iff in Hc as [Hm _]. apply andb_true_iff in Hcq as [Hmq _].
      pose proof (match_priorities_differ _ bits _ _ _ _ Hv Hj Hp Hmq Hm Hne). lia.
  - right. split; [|done]. intros p [n Hn]%list_elem_of_lookup. apply (Hnone (Z.of_nat n)); [by eapply Hin|].
    unfold pattern_at. by rewrite Nat2Z.id.
Qed.

Lemma decode_highest_priority_witness :
  exists t, compile witness_patterns = Ok t /\
  ((exists i p, witness_patterns !! i = Some p /\ candidate witness_validate 0x11220000 p = true /\
     table_decode witness_validate t 0x11220000 = Ok (outcome p 0x11220000) /\
     forall j q, witness_patterns !! j = Some q -> candidate witness_validate 0x11220000 q = true ->
       j = i \/ q.(p_priority) < p.(p_priority)) \/
  ((forall p, p ∈ witness_patterns -> candidate witness_validate 0x11220000 p = false) /\
   exists rejection, table_decode witness_validate t 0x11220000 = Ok (finish rejection))).
Proof.
  eexists. split; [vm_compute; reflexivity|]. apply decode_highest_priority. vm_compute. reflexivity.
Defined.

(** * Shared parts of the A64 instruction catalog (crates/cpu/src/decode/a64/mod.rs)

    The [pattern] builder every family uses, and the bit-field notations of the
    normalizers: [field bits lsb m] is [(bits >> lsb) & m], [flag bits k] is
    [bits & (1 << k) != 0]. *)

(** [pattern]: ready entries whose default fixture is the pattern's own value. *)
Definition pattern (name : string) (mask value id priority : Z) (operands : list OperandField)
  : InstructionPattern :=
  mkPattern name mask value operands id priority Ready (Some value).

Definition field (bits lsb m : Z) : Z := Z.land (shr bits lsb) m.

Definition flag (bits k : Z) : bool := negb (Z.land bits (shl 32 1 k) =? 0).

Lemma field_bound bits lsb k : 0 <= k -> 0 <= field bits lsb (Z.ones k) < 2 ^ k.
Proof.
  intros Hk. unfold field. rewrite land_ones_wrap by done. by apply wrap_range.
Qed.

(** The bounds of the operand fields the normalizers extract. *)
Lemma field_1f bits lsb : 0 <= field bits lsb 31 < 32.
Proof. apply (field_bound bits lsb 5). lia. Qed.
Lemma field_3f bits lsb : 0 <= field bits lsb 63 < 64.
Proof. apply (field_bound bits lsb 6). lia. Qed.
Lemma field_f bits lsb : 0 <= field bits lsb 15 < 16.
Proof. apply (field_bound bits lsb 4). lia. Qed.
Lemma field_7 bits lsb : 0 <= field bits lsb 7 < 8.
Proof. apply (field_bound bits lsb 3). lia. Qed.
Lemma field_3 bits lsb : 0 <= field bits lsb 3 < 4.
Proof. apply (field_bound bits lsb 2). lia. Qed.
Lemma field_7f bits lsb : 0 <= field bits lsb 127 < 128.
Proof. apply (field_bound bits lsb 7). lia. Qed.
Lemma field_1ff bits lsb : 0 <= field bits lsb 511 < 512.
Proof. apply (field_bound bits lsb 9). lia. Qed.
Lemma field_fff bits lsb : 0 <= field bits lsb 4095 < 4096.
Proof. apply (field_bound bits lsb 12). lia. Qed.
Lemma field_ffff bits lsb : 0 <= field bits lsb 65535 < 65536.
Proof. apply (field_bound bits lsb 16). lia. Qed.
Lemma field_7ffff bits lsb : 0 <= field bits lsb 524287 < 524288.
Proof. apply (field_bound bits lsb 19). lia. Qed.

Create HintDb nixe_field.
#[export] Hint Resolve field_1f field_3f field_f field_7 field_3 field_7f field_1ff field_fff
  field_ffff field_7ffff : nixe_field.
