(* ===== verification/DecodeControl.v ===== *)
(** * Control-flow family (crates/cpu/src/decode/a64/control.rs)

    Catalog entries, normalized operands and the normalizer. [Panic] is the
    [unreachable!] of a wrongly routed identity. *)

From S2P Require Import Prelude DecodeTable.

Definition B_FIELDS : list OperandField := [mkField Immediate 0 26 (KindSignedScaled 2)].

Definition PATTERNS : list InstructionPattern :=
  [ fixture32 0xd503201f (pattern "nop" 0xffffffff 0xd503201f 0x1 200 [])
  ; fixture32 0x14000000 (pattern "b" 0xfc000000 0x14000000 0x2 199 B_FIELDS)
  ; fixture32 0x94000000 (pattern "bl" 0xfc000000 0x94000000 0x4 198 [])
  ; fixture32 0xd61f0000 (pattern "br" 0xfffffc1f 0xd61f0000 0x5 194 [])
  ; fixture32 0xd63f0000 (pattern "blr" 0xfffffc1f 0xd63f0000 0x44 194 [])
  ; fixture32 0xd65f03c0 (pattern "ret" 0xfffffc1f 0xd65f0000 0x45 194 [])
  ; recognized_unimplemented (pattern "eret" 0xffffffff 0xd69f03e0 0x46 194 [])
  ; recognized_unimplemented (pattern "drps" 0xffffffff 0xd6bf03e0 0x47 194 [])
  ; fixture32 0x54000000 (pattern "b.cond" 0xff000010 0x54000000 0x6 197 [])
  ; fixture32 0x34000000 (pattern "compare-branch" 0x7e000000 0x34000000 0x7 78 [])
  ; fixture32 0x36000000 (pattern "test-branch" 0x7e000000 0x36000000 0x8 77 [])
  ; fixture32 0xd4000001 (pattern "svc" 0xffe0001f 0xd4000001 0x9 196 [])
  ; fixture32 0xd4200000 (pattern "brk" 0xffe0001f 0xd4200000 0xa 195 []) ].

Record Operands := mkOperands {
  rd : Z; rn : Z; condition : Z; bit_index : Z; branch_register_key : Z;
  immediate_14 : Z; immediate_16 : Z; immediate_19 : Z; immediate_26 : Z;
  nonzero : bool; width_64 : bool
}.

Inductive Instruction :=
| Nop (value : Operands)
| BranchImmediate (value : Operands)
| BranchLinkImmediate (value : Operands)
| BranchRegister (value : Operands)
| ConditionalBranch (value : Operands)
| CompareBranch (value : Operands)
| TestBranch (value : Operands)
| SupervisorCall (value : Operands)
| Breakpoint (value : Operands).

Definition operands (i : Instruction) : Operands :=
  match i with
  | Nop value | BranchImmediate value | BranchLinkImmediate value | BranchRegister value
  | ConditionalBranch value | CompareBranch value | TestBranch value | SupervisorCall value
  | Breakpoint value => value
  end.

Definition normalize_operands (bits : Z) : Operands := {|
  rd := field bits 0 31;
  rn := field bits 5 31;
  condition := field bits 0 15;
  bit_index := Z.lor (shl 32 (field bits 31 1) 5) (field bits 19 31);
  branch_register_key := Z.land bits 0xfffffc1f;
  immediate_14 := field bits 5 0x3fff;
  immediate_16 := field bits 5 0xffff;
  immediate_19 := field bits 5 0x7ffff;
  immediate_26 := field bits 0 0x03ffffff;
  nonzero := flag bits 24;
  width_64 := flag bits 31
|}.

Definition normalize (instruction_id bits : Z) : Result Empty_set Instruction :=
  let operands := normalize_operands bits in
  match instruction_id with
  | 0x1 => Ok (Nop operands)
  | 0x2 => Ok (BranchImmediate operands)
  | 0x4 => Ok (BranchLinkImmediate operands)
  | 0x5 | 0x44 | 0x45 | 0x46 | 0x47 => Ok (BranchRegister operands)
  | 0x6 => Ok (ConditionalBranch operands)
  | 0x7 => Ok (CompareBranch operands)
  | 0x8 => Ok (TestBranch operands)
  | 0x9 => Ok (SupervisorCall operands)
  | 0xa => Ok (Breakpoint operands)
  | _ => Panic
  end.
