(* ===== verification/DecodeSystem.v ===== *)
(** * System family (crates/cpu/src/decode/a64/system.rs)

    Hints, system registers, barriers and cache maintenance. *)

From S2P Require Import Prelude DecodeTable.

Definition PATTERNS : list InstructionPattern :=
  [ fixture32 0xd503203f (pattern "hint" 0xfffff01f 0xd503201f 0xb 190 [])
  ; fixture32 0xd5033f5f (pattern "clear-exclusive" 0xfffff0ff 0xd503305f 0x1e 191 [])
  ; fixture32 0xd53b4200 (pattern "mrs" 0xfff00000 0xd5300000 0xc 70 [])
  ; fixture32 0xd51b4200 (pattern "msr-register" 0xfff00000 0xd5100000 0xd 69 [])
  ; fixture32 0xd5033bbf (pattern "barrier" 0xfffff01f 0xd503301f 0xe 189 [])
  ; fixture32 0xd5087500 (pattern "system" 0xffc00000 0xd5000000 0xf 20 []) ].

Record Operands := mkOperands {
  rt : Z; hint : Z; barrier_opcode : Z; barrier_option : Z; system_key : Z
}.

Inductive Instruction :=
| Hint (value : Operands)
| ReadRegister (value : Operands)
| WriteRegister (value : Operands)
| Barrier (value : Operands)
| ClearExclusive (value : Operands)
| System (value : Operands).

Definition operands (i : Instruction) : Operands :=
  match i with
  | Hint value | ReadRegister value | WriteRegister value | Barrier value
  | ClearExclusive value | System value => value
  end.

Definition normalize_operands (bits : Z) : Operands := {|
  rt := field bits 0 31;
  hint := field bits 5 127;
  barrier_opcode := field bits 5 7;
  barrier_option := field bits 8 15;
  system_key := Z.land bits 0xffffffe0
|}.

Definition normalize (instruction_id bits : Z) : Result Empty_set Instruction :=
  let operands := normalize_operands bits in
  match instruction_id with
  | 0xb => Ok (Hint operands)
  | 0xc => Ok (ReadRegister operands)
  | 0xd => Ok (WriteRegister operands)
  | 0xe => Ok (Barrier operands)
  | 0xf => Ok (System operands)
  | 0x1e => Ok (ClearExclusive operands)
  | _ => Panic
  end.
