(* ===== verification/DecodeInteger.v ===== *)
(** * Integer family (crates/cpu/src/decode/a64/integer.rs)

    Data-processing and address-generation instructions. *)

From S2P Require Import Prelude DecodeTable.

Definition PATTERNS : list InstructionPattern :=
  [ fixture32 0x91000000 (pattern "add-sub-immediate" 0x1f000000 0x11000000 0x3 80 [])
  ; pattern "move-wide" 0x1f800000 0x12800000 0x10 79 []
  ; pattern "add-sub-shifted" 0x1f200000 0x0b000000 0x11 66 []
  ; pattern "add-sub-extended" 0x1f200000 0x0b200000 0x12 67 []
  ; pattern "add-sub-carry" 0x1fe0fc00 0x1a000000 0x13 150 []
  ; pattern "logical-immediate" 0x1f800000 0x12000000 0x14 75 []
  ; pattern "logical-shifted" 0x1f000000 0x0a000000 0x15 65 []
  ; pattern "bitfield" 0x1f800000 0x13000000 0x16 74 []
  ; pattern "extract" 0x1f800000 0x13800000 0x17 73 []
  ; fixture32 0x9ac12000 (pattern "data-processing-two-source" 0x1fe00000 0x1ac00000 0x18 72 [])
  ; pattern "conditional-compare-register" 0x1fe00c00 0x1a400000 0x19 149 []
  ; pattern "conditional-compare-immediate" 0x1fe00c00 0x1a400800 0x1a 148 []
  ; pattern "conditional-select" 0x1fe00000 0x1a800000 0x1b 71 []
  ; fixture32 0x9b010800 (pattern "data-processing-three-source" 0x1f000000 0x1b000000 0x1c 64 [])
  ; fixture32 0xdac01000 (pattern "data-processing-one-source" 0x5fe00000 0x5ac00000 0x1d 76 [])
  ; pattern "adr" 0x9f000000 0x10000000 0x20 63 []
  ; pattern "adrp" 0x9f000000 0x90000000 0x21 62 [] ].

Record Operands := mkOperands {
  rd : Z; rn : Z; ra : Z; rm : Z; nzcv : Z; condition : Z; shift_amount : Z; small_shift : Z;
  shift_kind : Z; immediate_6_high : Z; immediate_12 : Z; immediate_16 : Z; extension : Z;
  opcode_2 : Z; opcode_3 : Z; n : bool; bit10 : bool; invert : bool; immediate_form : bool;
  subtract_product : bool; set_flags : bool; subtract : bool; width_64 : bool; adr_immediate : Z
}.

Inductive Instruction :=
| MoveWide (value : Operands)
| AddSubImmediate (value : Operands)
| AddSubShifted (value : Operands)
| AddSubExtended (value : Operands)
| AddSubCarry (value : Operands)
| LogicalImmediate (value : Operands)
| LogicalShifted (value : Operands)
| Bitfield (value : Operands)
| Extract (value : Operands)
| TwoSource (value : Operands)
| ConditionalCompareRegister (value : Operands)
| ConditionalCompareImmediate (value : Operands)
| ConditionalSelect (value : Operands)
| ThreeSource (value : Operands)
| OneSource (value : Operands)
| Adr (value : Operands)
| Adrp (value : Operands).

Definition operands (i : Instruction) : Operands :=
  match i with
  | MoveWide value
  | AddSubImmediate value
  | AddSubShifted value
  | AddSubExtended value
  | AddSubCarry value
  | LogicalImmediate value
  | LogicalShifted value
  | Bitfield value
  | Extract value
  | TwoSource value
  | ConditionalCompareRegister value
  | ConditionalCompareImmediate value
  | ConditionalSelect value
  | ThreeSource value
  | OneSource value
  | Adr value
  | Adrp value => value
  end.

Definition normalize_operands (bits : Z) : Operands := {|
  rd := field bits 0 31;
  rn := field bits 5 31;
  ra := field bits 10 31;
  rm := field bits 16 31;
  nzcv := field bits 0 15;
  condition := field bits 12 15;
  shift_amount := field bits 10 63;
  small_shift := field bits 10 7;
  shift_kind := field bits 22 3;
  immediate_6_high := field bits 16 63;
  immediate_12 := field bits 10 4095;
  immediate_16 := field bits 5 65535;
  extension := field bits 13 7;
  opcode_2 := field bits 21 3;
  opcode_3 := field bits 21 7;
  n := flag bits 22;
  bit10 := flag bits 10;
  invert := flag bits 21;
  immediate_form := flag bits 11;
  subtract_product := flag bits 15;
  set_flags := flag bits 29;
  subtract := flag bits 30;
  width_64 := flag bits 31;
  adr_immediate := Z.lor (field bits 3 0x1ffffc) (field bits 29 3)
|}.

Definition normalize (instruction_id bits : Z) : Result Empty_set Instruction :=
  let operands := normalize_operands bits in
  match instruction_id with
  | 0x10 => Ok (MoveWide operands)
  | 0x3 => Ok (AddSubImmediate operands)
  | 0x11 => Ok (AddSubShifted operands)
  | 0x12 => Ok (AddSubExtended operands)
  | 0x13 => Ok (AddSubCarry operands)
  | 0x14 => Ok (LogicalImmediate operands)
  | 0x15 => Ok (LogicalShifted operands)
  | 0x16 => Ok (Bitfield operands)
  | 0x17 => Ok (Extract operands)
  | 0x18 => Ok (TwoSource operands)
  | 0x19 => Ok (ConditionalCompareRegister operands)
  | 0x1a => Ok (ConditionalCompareImmediate operands)
  | 0x1b => Ok (ConditionalSelect operands)
  | 0x1c => Ok (ThreeSource operands)
  | 0x1d => Ok (OneSource operands)
  | 0x20 => Ok (Adr operands)
  | 0x21 => Ok (Adrp operands)
  | _ => Panic
  end.
