(* ===== verification/DecodeMemory.v ===== *)
(** * Memory family (crates/cpu/src/decode/a64/memory.rs)

    Scalar loads, stores, exclusives and atomics.  [Register_] is the variant
    [Register] (a reserved word here). *)

From S2P Require Import Prelude DecodeTable.

Definition PATTERNS : list InstructionPattern :=
  [ pattern "load-literal" 0x3f000000 0x18000000 0x22 61 []
  ; pattern "load-store-unsigned" 0x3f000000 0x39000000 0x23 60 []
  ; pattern "load-store-unscaled" 0x3f200c00 0x38000000 0x24 120 []
  ; fixture32 0x38000401 (pattern "load-store-post-index" 0x3f200c00 0x38000400 0x25 119 [])
  ; fixture32 0x38000c01 (pattern "load-store-pre-index" 0x3f200c00 0x38000c00 0x26 118 [])
  ; fixture32 0xf8616800 (pattern "load-store-register" 0x3f200c00 0x38200800 0x27 117 [])
  ; pattern "load-store-pair" 0x3e000000 0x28000000 0x28 59 []
  ; pattern "load-acquire" 0x3fe0fc00 0x08c0fc00 0x29 147 []
  ; pattern "store-release" 0x3fe0fc00 0x0880fc00 0x2a 146 []
  ; pattern "load-exclusive" 0x3fe07c00 0x08407c00 0x2b 145 []
  ; pattern "store-exclusive" 0x3f207c00 0x08007c00 0x2c 144 []
  ; fixture32 0xc87f0c20 (pattern "load-exclusive-pair" 0xbfe00000 0x88600000 0x5e 150 [])
  ; fixture32 0xc8220c20 (pattern "store-exclusive-pair" 0xbf200000 0x88200000 0x5f 149 [])
  ; fixture32 0xb8e00041 (pattern "atomic-read-modify-write" 0x3f200c00 0x38200000 0x2d 151 [])
  ; fixture32 0x88e0fc41 (pattern "compare-and-swap" 0x3fa07c00 0x08a07c00 0x2e 153 [])
  ; fixture32 0x4860fc82 (pattern "compare-and-swap-pair" 0xbfa07c00 0x08207c00 0x2f 152 []) ].

Record Operands := mkOperands {
  rt : Z; rn : Z; rt2 : Z; rm : Z; size : Z; opc : Z; mode : Z; option_ : Z;
  immediate_7 : Z; immediate_9 : Z; immediate_12 : Z; immediate_19 : Z;
  load : bool; ordered : bool; scaled : bool; acquire : bool; release : bool;
  atomic_opcode : Z
}.

Inductive Instruction :=
| Literal (value : Operands)
| Unsigned (value : Operands)
| Unscaled (value : Operands)
| PostIndex (value : Operands)
| PreIndex (value : Operands)
| Register_ (value : Operands)
| Pair (value : Operands)
| LoadAcquire (value : Operands)
| StoreRelease (value : Operands)
| LoadExclusive (value : Operands)
| StoreExclusive (value : Operands)
| LoadExclusivePair (value : Operands)
| StoreExclusivePair (value : Operands)
| AtomicReadModifyWrite (value : Operands)
| CompareAndSwap (value : Operands)
| CompareAndSwapPair (value : Operands).

Definition operands (i : Instruction) : Operands :=
  match i with
  | Literal value
  | Unsigned value
  | Unscaled value
  | PostIndex value
  | PreIndex value
  | Register_ value
  | Pair value
  | LoadAcquire value
  | StoreRelease value
  | LoadExclusive value
  | StoreExclusive value
  | LoadExclusivePair value
  | StoreExclusivePair value
  | AtomicReadModifyWrite value
  | CompareAndSwap value
  | CompareAndSwapPair value => value
  end.

Definition is_prefetch (i : Instruction) : bool :=
  match i with
  | Literal f => f.(size) =? 3
  | Unsigned f | Unscaled f | Register_ f => (f.(size) =? 3) && (f.(opc) =? 2)
  | _ => false
  end.

Definition normalize_ordering (instruction_id bits : Z) : bool * bool :=
  match instruction_id with
  | 0x2d => (flag bits 23, flag bits 22)
  | 0x2e | 0x2f => (flag bits 22, flag bits 15)
  | _ => (false, false)
  end.

Definition normalize_operands (instruction_id bits : Z) : Operands := {|
  rt := field bits 0 31;
  rn := field bits 5 31;
  rt2 := field bits 10 31;
  rm := field bits 16 31;
  size := wrap 8 (shr bits 30);
  opc := field bits 22 3;
  mode := field bits 23 3;
  option_ := field bits 13 7;
  immediate_7 := field bits 15 127;
  immediate_9 := field bits 12 511;
  immediate_12 := field bits 10 4095;
  immediate_19 := field bits 5 0x7ffff;
  load := flag bits 22;
  ordered := flag bits 15;
  scaled := flag bits 12;
  acquire := (normalize_ordering instruction_id bits).1;
  release := (normalize_ordering instruction_id bits).2;
  atomic_opcode := field bits 12 15
|}.

Definition normalize (instruction_id bits : Z) : Result Empty_set Instruction :=
  let operands := normalize_operands instruction_id bits in
  match instruction_id with
  | 0x22 => Ok (Literal operands)
  | 0x23 => Ok (Unsigned operands)
  | 0x24 => Ok (Unscaled operands)
  | 0x25 => Ok (PostIndex operands)
  | 0x26 => Ok (PreIndex operands)
  | 0x27 => Ok (Register_ operands)
  | 0x28 => Ok (Pair operands)
  | 0x29 => Ok (LoadAcquire operands)
  | 0x2a => Ok (StoreRelease operands)
  | 0x2b => Ok (LoadExclusive operands)
  | 0x2c => Ok (StoreExclusive operands)
  | 0x5e => Ok (LoadExclusivePair operands)
  | 0x5f => Ok (StoreExclusivePair operands)
  | 0x2d => Ok (AtomicReadModifyWrite operands)
  | 0x2e => Ok (CompareAndSwap operands)
  | 0x2f => Ok (CompareAndSwapPair operands)
  | _ => Panic
  end.
