(* ===== verification/DecodeFpSimd.v ===== *)
(** * Floating-point and SIMD family (crates/cpu/src/decode/a64/fp_simd.rs)

    The catalog entries, in the order of the source (one definition per run of
    entries), and the variant each identity normalizes to. *)

From S2P Require Import Prelude DecodeTable.

Definition PATTERNS_1 : list InstructionPattern :=
  [ fixture32 0x0e020000 (pattern "simd-table-lookup" 0xbfe09c00 0x0e000000 0xc7 202 [])
  ; fixture32 0x4e027000 (pattern "simd-table-lookup-extension" 0xbfe09c00 0x0e001000 0xc8 202 [])
  ; fixture32 0x7ea2d463 (pattern "fp-scalar-absolute-difference" 0xffa0fc00 0x7ea0d400 0xc5 201 [])
  ; fixture32 0x6ea2d463 (pattern "fp-vector-absolute-difference" 0xbfa0fc00 0x2ea0d400 0xc6 201 [])
  ; fixture32 0x0e616802 (pattern "simd-float-convert-narrow-double" 0xbffffc00 0x0e616800 0xc4 200 [])
  ; fixture32 0x6ea0b800 (pattern "simd-integer-sign" 0x9f3ffc00 0x0e20b800 0xc2 199 [])
  ; fixture32 0x7ee0b800 (pattern "simd-scalar-integer-sign" 0xdffffc00 0x5ee0b800 0xc3 199 [])
  ; fixture32 0x6e205800 (pattern "simd-not" 0xbffffc00 0x2e205800 0xb2 193 [])
  ; fixture32 0x4e010c20 (pattern "simd-duplicate-general" 0xbfe0fc00 0x0e000c00 0x48 130 [])
  ; fixture32 0x0e0407ff (pattern "simd-duplicate-element" 0xbfe0fc00 0x0e000400 0x8c 174 [])
  ; fixture32 0x5e0c0402 (pattern "simd-duplicate-scalar-element" 0xffe0fc00 0x5e000400 0xac 190 [])
  ; pattern "fp-simd-load-store-pair" 0x3e000000 0x2c000000 0x49 131 []
  ; pattern "simd-bitwise" 0x9f20fc00 0x0e201c00 0x30 110 []
  ; pattern "simd-integer" 0x9f20fc00 0x0e208400 0x31 58 [] ].

Definition PATTERNS_2 : list InstructionPattern :=
  [ fixture32 0x0ea09c40 (pattern "simd-integer-multiply" 0xbf20fc00 0x0e209c00 0xb5 194 [])
  ; pattern "simd-signed-max-across" 0xbf3ffc00 0x0e30a800 0xb6 195 []
  ; pattern "simd-signed-min-across" 0xbf3ffc00 0x0e31a800 0xb7 195 []
  ; pattern "simd-unsigned-max-across" 0xbf3ffc00 0x2e30a800 0xb8 195 []
  ; pattern "simd-unsigned-min-across" 0xbf3ffc00 0x2e31a800 0xb9 195 []
  ; fixture32 0x0e617821 (pattern "simd-floating-point-convert-long-single" 0xbffffc00 0x0e617800 0xba 196 [])
  ; pattern "simd-scalar-signed-greater" 0xffe0fc00 0x5ee03400 0xbb 197 []
  ; pattern "simd-scalar-unsigned-greater" 0xffe0fc00 0x7ee03400 0xbc 197 []
  ; pattern "simd-scalar-signed-greater-equal" 0xffe0fc00 0x5ee03c00 0xbd 197 []
  ; pattern "simd-scalar-unsigned-greater-equal" 0xffe0fc00 0x7ee03c00 0xbe 197 []
  ; pattern "simd-scalar-bit-test" 0xffe0fc00 0x5ee08c00 0xbf 197 []
  ; pattern "simd-scalar-equal" 0xffe0fc00 0x7ee08c00 0xc0 197 []
  ; fixture32 0x6e701063 (pattern "simd-integer-add-wide" 0x9f20fc00 0x0e201000 0xc1 198 [])
  ; pattern "simd-add-pairwise" 0xbf20fc00 0x0e20bc00 0x59 151 []
  ; pattern "simd-signed-max-pairwise" 0xbf20fc00 0x0e20a400 0x5a 152 [] ].

Definition PATTERNS_3 : list InstructionPattern :=
  [ pattern "simd-signed-min-pairwise" 0xbf20fc00 0x0e20ac00 0x5b 153 []
  ; pattern "simd-unsigned-max-pairwise" 0xbf20fc00 0x2e20a400 0x5c 154 []
  ; pattern "simd-unsigned-min-pairwise" 0xbf20fc00 0x2e20ac00 0x5d 155 []
  ; pattern "simd-signed-max" 0xbf20fc00 0x0e206400 0x66 156 []
  ; pattern "simd-signed-min" 0xbf20fc00 0x0e206c00 0x67 157 []
  ; pattern "simd-unsigned-max" 0xbf20fc00 0x2e206400 0x68 158 []
  ; pattern "simd-unsigned-min" 0xbf20fc00 0x2e206c00 0x69 159 []
  ; pattern "simd-compare-signed-greater-than" 0xbf20fc00 0x0e203400 0x4e 140 []
  ; pattern "simd-compare-unsigned-higher" 0xbf20fc00 0x2e203400 0x4f 141 []
  ; pattern "simd-compare-signed-greater-equal" 0xbf20fc00 0x0e203c00 0x50 142 []
  ; pattern "simd-compare-unsigned-higher-same" 0xbf20fc00 0x2e203c00 0x51 143 []
  ; pattern "simd-compare-test-nonzero" 0xbf20fc00 0x0e208c00 0x52 144 []
  ; pattern "simd-compare-equal" 0xbf20fc00 0x2e208c00 0x53 145 []
  ; pattern "simd-compare-zero-signed-greater-than" 0xbf3ffc00 0x0e208800 0x54 146 []
  ; pattern "simd-compare-zero-signed-greater-equal" 0xbf3ffc00 0x2e208800 0x55 147 []
  ; pattern "simd-compare-zero-equal" 0xbf3ffc00 0x0e209800 0x56 148 [] ].

Definition PATTERNS_4 : list InstructionPattern :=
  [ pattern "simd-compare-zero-signed-less-equal" 0xbf3ffc00 0x2e209800 0x57 149 []
  ; pattern "simd-compare-zero-signed-less-than" 0xbf3ffc00 0x0e20a800 0x58 150 []
  ; recognized_unimplemented (fixture32 0x1ee04800 (pattern "fp-scalar-two-source" 0x5f200c00 0x1e200800 0x32 30 []))
  ; pattern "fp-simd-load-store-unsigned" 0x3f000000 0x3d000000 0x33 122 []
  ; pattern "fp-simd-load-store-unscaled" 0x3f200c00 0x3c000000 0x34 121 []
  ; pattern "fp-scalar-move" 0xffbffc00 0x1e204000 0x35 109 []
  ; pattern "fp-scalar-move-half" 0xfffffc00 0x1ee04000 0x89 110 []
  ; pattern "fp-scalar-absolute" 0xffbffc00 0x1e20c000 0x8d 175 []
  ; pattern "fp-scalar-negate" 0xffbffc00 0x1e214000 0x8e 175 []
  ; pattern "fp-scalar-absolute-half" 0xfffffc00 0x1ee0c000 0x8f 176 []
  ; pattern "fp-scalar-negate-half" 0xfffffc00 0x1ee14000 0x90 176 []
  ; pattern "simd-floating-point-absolute" 0xbfbffc00 0x0ea0f800 0x9c 210 []
  ; pattern "simd-floating-point-negate" 0xbfbffc00 0x2ea0f800 0x9d 210 []
  ; pattern "fp-scalar-square-root" 0xffbffc00 0x1e21c000 0x98 208 []
  ; pattern "fp-compare-register" 0xffa0fc0f 0x1e202000 0x36 108 []
  ; pattern "fp-compare-zero" 0xffbffc0f 0x1e202008 0x37 107 [] ].

Definition PATTERNS_5 : list InstructionPattern :=
  [ pattern "fp-scalar-floating-point-conditional-compare" 0xffa00c00 0x1e200400 0x9b 209 []
  ; pattern "simd-modified-immediate" 0x9ff80c00 0x0f000400 0x4a 132 []
  ; pattern "simd-floating-point-immediate" 0x9ff8fc00 0x0f00f400 0x86 201 []
  ; fixture32 0x4e083c01 (pattern "simd-unsigned-move-to-general" 0xbfe0fc00 0x0e003c00 0x4b 133 [])
  ; fixture32 0x6e0307be (pattern "simd-insert-element" 0xffe08400 0x6e000400 0x60 160 [])
  ; fixture32 0x4e031d28 (pattern "simd-insert-general" 0xffe0fc00 0x4e001c00 0x61 159 [])
  ; fixture32 0x4e1d3bde (pattern "simd-permute-two-source" 0xbf208c00 0x0e000800 0x64 161 [])
  ; pattern "simd-extract" 0xbf208400 0x2e000000 0x85 171 []
  ; fixture32 0x0f0c8400 (pattern "simd-shift-right-narrow" 0xbf80fc00 0x0f008400 0x65 162 [])
  ; fixture32 0x7f6007fe (pattern "simd-scalar-shift-right-immediate" 0xdf80ec00 0x5f000400 0x91 203 [])
  ; fixture32 0x2f0f0420 (pattern "simd-vector-shift-right-immediate" 0x9f80ec00 0x0f000400 0x92 202 [])
  ; fixture32 0x5f6057de (pattern "simd-scalar-shift-left-immediate" 0xff80fc00 0x5f005400 0x99 208 []) ].

Definition PATTERNS_6 : list InstructionPattern :=
  [ fixture32 0x4f3f556a (pattern "simd-vector-shift-left-immediate" 0xbf80fc00 0x0f005400 0x9a 207 [])
  ; fixture32 0x0f20a7fe (pattern "simd-shift-left-long" 0x9f80fc00 0x0f00a400 0xa0 210 [])
  ; pattern "simd-signed-shift-left-register" 0xbf20fc00 0x0e204400 0x95 206 []
  ; pattern "simd-unsigned-shift-left-register" 0xbf20fc00 0x2e204400 0x96 206 []
  ; pattern "simd-count-bits" 0xbffffc00 0x0e205800 0x93 204 []
  ; fixture32 0x0ea00800 (pattern "simd-reverse-64" 0xbf3ffc00 0x0e200800 0xa9 204 [])
  ; fixture32 0x2e2008e7 (pattern "simd-reverse-32" 0xbf3ffc00 0x2e200800 0xb1 204 [])
  ; pattern "simd-add-across-vector" 0xbf3ffc00 0x0e31b800 0x94 205 []
  ; pattern "simd-unsigned-add-long-across-vector" 0xbf3ffc00 0x2e303800 0xa6 205 []
  ; pattern "simd-extract-narrow" 0xbf3ffc00 0x0e212800 0x88 172 []
  ; fixture32 0x4c40a020 (pattern "simd-load-store-multiple-structures" 0xbfbf0000 0x0c000000 0x4c 135 [])
  ; fixture32 0x4cdfa041 (pattern "simd-load-store-multiple-structures-post-index" 0xbfa00000 0x0c800000 0x4d 136 [])
  ; fixture32 0x0d40183d (pattern "simd-load-store-single-structure" 0xbf9f0000 0x0d000000 0x62 158 []) ].

Definition PATTERNS_7 : list InstructionPattern :=
  [ fixture32 0x0ddf1e30 (pattern "simd-load-store-single-structure-post-index" 0xbf800000 0x0d800000 0x63 157 [])
  ; fixture32 0x4ea1b841 (pattern "simd-vector-float-to-signed-int" 0xbfbffc00 0x0ea1b800 0xaf 195 [])
  ; fixture32 0x6ee1b820 (pattern "simd-vector-float-to-unsigned-int" 0xbfbffc00 0x2ea1b800 0xb0 195 [])
  ; pattern "simd-signed-int-to-float" 0xbfbffc00 0x0e21d800 0x6a 160 []
  ; pattern "simd-unsigned-int-to-float" 0xbfbffc00 0x2e21d800 0x6b 160 []
  ; pattern "simd-scalar-signed-int-to-float" 0xffbffc00 0x5e21d800 0x8a 173 []
  ; pattern "simd-scalar-unsigned-int-to-float" 0xffbffc00 0x7e21d800 0x8b 173 []
  ; pattern "simd-floating-point-divide" 0xbfa0fc00 0x2e20fc00 0x6c 161 []
  ; fixture32 0x6e3cdfbd (pattern "simd-floating-point-multiply" 0xbfa0fc00 0x2e20dc00 0xa3 213 [])
  ; fixture32 0x4f9693fb (pattern "simd-floating-point-multiply-by-element" 0xbf00f400 0x0f009000 0xa1 211 [])
  ; fixture32 0x5f809003 (pattern "scalar-floating-point-multiply-by-element" 0xff80f400 0x5f809000 0xad 215 [])
  ; fixture32 0x5fa01043 (pattern "scalar-floating-point-fused-multiply-by-element" 0xff80b400 0x5f801000 0xae 215 [])
  ; fixture32 0x4f9912fb (pattern "simd-floating-point-fused-multiply-element" 0xbf80b400 0x0f801000 0xa2 212 [])
  ; fixture32 0x4e3ccfbf (pattern "simd-floating-point-fused-multiply-vector" 0xbf20fc00 0x0e20cc00 0xa4 214 []) ].

Definition PATTERNS_8 : list InstructionPattern :=
  [ fixture32 0x4e37d7ff (pattern "simd-floating-point-add-subtract-vector" 0xbf20fc00 0x0e20d400 0xa5 215 [])
  ; pattern "fp-scalar-immediate" 0xffa01fe0 0x1e201000 0x6d 163 []
  ; pattern "fp-scalar-immediate-half" 0xffe01fe0 0x1ee01000 0x6e 164 []
  ; pattern "fp-convert-single-to-double" 0xfffffc00 0x1e22c000 0x6f 165 []
  ; pattern "fp-convert-double-to-single" 0xfffffc00 0x1e624000 0x70 165 []
  ; pattern "fp-scalar-floating-point-divide" 0xffa0fc00 0x1e201800 0x71 166 []
  ; pattern "fp-scalar-maximum" 0xffa0fc00 0x1e204800 0xb3 193 []
  ; pattern "fp-scalar-minimum" 0xffa0fc00 0x1e205800 0xb4 193 []
  ; pattern "fp-scalar-maximum-number" 0xffa0fc00 0x1e206800 0xa7 168 []
  ; pattern "fp-scalar-minimum-number" 0xffa0fc00 0x1e207800 0xa8 168 []
  ; pattern "fp-scalar-floating-point-add" 0xffa0fc00 0x1e202800 0x79 168 []
  ; pattern "fp-scalar-floating-point-subtract" 0xffa0fc00 0x1e203800 0x7a 168 []
  ; pattern "fp-scalar-floating-point-multiply" 0xffa0fc00 0x1e200800 0x7b 169 []
  ; pattern "fp-scalar-floating-point-negated-multiply" 0xffa0fc00 0x1e208800 0x7c 169 [] ].

Definition PATTERNS_9 : list InstructionPattern :=
  [ pattern "fp-scalar-fused-multiply-add" 0xff800000 0x1f000000 0x97 207 []
  ; pattern "fp-scalar-floating-point-conditional-select" 0xffa00c00 0x1e200c00 0x87 170 []
  ; pattern "fp-scalar-round-nearest-even" 0xffbffc00 0x1e244000 0x72 167 []
  ; pattern "fp-scalar-round-positive" 0xffbffc00 0x1e24c000 0x73 167 []
  ; pattern "fp-scalar-round-negative" 0xffbffc00 0x1e254000 0x74 167 []
  ; pattern "fp-scalar-round-zero" 0xffbffc00 0x1e25c000 0x75 167 []
  ; pattern "fp-scalar-round-nearest-away" 0xffbffc00 0x1e264000 0x76 167 []
  ; pattern "fp-scalar-round-exact" 0xffbffc00 0x1e274000 0x77 167 []
  ; pattern "fp-scalar-round-current-mode" 0xffbffc00 0x1e27c000 0x78 167 []
  ; fixture32 0x0e200c00 (recognized_unimplemented (pattern "advanced-simd-unsupported" 0x1e000000 0x0e000000 0x38 2 []))
  ; recognized_unimplemented (pattern "floating-point-unsupported" 0x1f000000 0x1e000000 0x39 1 [])
  ; pattern "fp-signed-int-to-float" 0x5fbffc00 0x1e220000 0x3a 106 []
  ; pattern "fp-unsigned-int-to-float" 0x5fbffc00 0x1e230000 0x3b 105 []
  ; fixture32 0x1e428000 (pattern "fp-signed-fixed-int-to-float" 0x7fbf0000 0x1e020000 0xc9 176 [])
  ; fixture32 0x1e438000 (pattern "fp-unsigned-fixed-int-to-float" 0x7fbf0000 0x1e030000 0xca 175 []) ].

Definition PATTERNS_10 : list InstructionPattern :=
  [ pattern "fp-float-to-signed-int" 0x5fbffc00 0x1e380000 0x3c 104 []
  ; pattern "fp-float-to-unsigned-int" 0x5fbffc00 0x1e390000 0x3d 103 []
  ; fixture32 0x1e18e027 (pattern "fp-float-to-signed-fixed-int" 0x7fbf0000 0x1e180000 0x9e 176 [])
  ; fixture32 0x1e19e027 (pattern "fp-float-to-unsigned-fixed-int" 0x7fbf0000 0x1e190000 0x9f 175 [])
  ; fixture32 0x5ea1b823 (pattern "simd-scalar-float-to-signed-int" 0xffbffc00 0x5ea1b800 0xaa 210 [])
  ; fixture32 0x7ee1b83f (pattern "simd-scalar-float-to-unsigned-int" 0xffbffc00 0x7ea1b800 0xab 210 [])
  ; pattern "fp-float-to-signed-int-nearest-even" 0x5fbffc00 0x1e200000 0x7d 170 []
  ; pattern "fp-float-to-unsigned-int-nearest-even" 0x5fbffc00 0x1e210000 0x7e 170 []
  ; pattern "fp-float-to-signed-int-nearest-away" 0x5fbffc00 0x1e240000 0x7f 170 []
  ; pattern "fp-float-to-unsigned-int-nearest-away" 0x5fbffc00 0x1e250000 0x80 170 []
  ; pattern "fp-float-to-signed-int-positive" 0x5fbffc00 0x1e280000 0x81 170 []
  ; pattern "fp-float-to-unsigned-int-positive" 0x5fbffc00 0x1e290000 0x82 170 []
  ; pattern "fp-float-to-signed-int-negative" 0x5fbffc00 0x1e300000 0x83 170 []
  ; pattern "fp-float-to-unsigned-int-negative" 0x5fbffc00 0x1e310000 0x84 170 []
  ; pattern "fp-move-to-general" 0x5f37fc00 0x1e260000 0x3e 102 [] ].

Definition PATTERNS_11 : list InstructionPattern :=
  [ pattern "fp-move-from-general" 0x5f37fc00 0x1e270000 0x3f 101 []
  ; pattern "fp-simd-load-store-post-index" 0x3f200c00 0x3c000400 0x40 120 []
  ; pattern "fp-simd-load-store-pre-index" 0x3f200c00 0x3c000c00 0x41 119 []
  ; fixture32 0x3c224820 (pattern "fp-simd-load-store-register" 0x3f200c00 0x3c200800 0x42 118 [])
  ; recognized_unimplemented (pattern "fp-simd-load-literal" 0x3f000000 0x1c000000 0x43 123 []) ].

Definition PATTERNS : list InstructionPattern :=
  PATTERNS_1 ++ PATTERNS_2 ++ PATTERNS_3 ++ PATTERNS_4 ++ PATTERNS_5 ++ PATTERNS_6 ++ PATTERNS_7 ++ PATTERNS_8 ++ PATTERNS_9 ++ PATTERNS_10 ++ PATTERNS_11.

Inductive Variant :=
| DuplicateGeneral
| DuplicateElement
| DuplicateScalarElement
| MemoryPair
| Bitwise
| Integer
| IntegerMultiply
| IntegerWideAdd
| IntegerSign
| ScalarIntegerSign
| ScalarMove
| ScalarAbsolute
| ScalarNegate
| VectorFloatAbsolute
| VectorFloatNegate
| CompareRegister
| CompareZero
| ConditionalCompare
| ModifiedImmediate
| UnsignedMoveToGeneral
| InsertElement
| InsertGeneral
| SignedIntToFloat
| UnsignedIntToFloat
| FloatToSignedInt
| VectorFloatToSignedInt
| VectorFloatToUnsignedInt
| ScalarVectorFloatToSignedInt
| ScalarVectorFloatToUnsignedInt
| FloatToUnsignedInt
| MoveToGeneral
| MoveFromGeneral
| MemoryUnsigned
| MemoryUnscaled
| MemoryPostIndex
| MemoryPreIndex
| MemoryRegister
| MemoryMultipleStructures
| MemoryMultipleStructuresPostIndex
| MemorySingleStructure
| MemorySingleStructurePostIndex
| PermuteTwoSource
| TableLookup
| TableLookupExtension
| Extract
| IntegerCompare
| ScalarIntegerCompare
| IntegerPairwise
| IntegerMinMax
| IntegerMinMaxAcross
| ShiftRightNarrow
| ScalarShiftRightImmediate
| VectorShiftRightImmediate
| ScalarShiftLeftImmediate
| VectorShiftLeftImmediate
| ShiftLeftLong
| VectorSignedShiftRegister
| VectorUnsignedShiftRegister
| CountBits
| Reverse64
| Reverse32
| AddAcrossVector
| UnsignedAddLongAcrossVector
| ExtractNarrow
| VectorSignedIntToFloat
| VectorUnsignedIntToFloat
| ScalarVectorSignedIntToFloat
| ScalarVectorUnsignedIntToFloat
| VectorFloatDivide
| VectorFloatMultiply
| VectorFloatMultiplyElement
| VectorFloatFusedElement
| VectorFloatFused
| VectorFloatAdd
| VectorFloatImmediate
| ScalarFloatImmediate
| ScalarFloatConvert
| VectorFloatConvertLong
| VectorFloatConvertNarrow
| ScalarFloatDivide
| ScalarFloatRound
| ScalarFloatAdd
| ScalarFloatMaxNumber
| ScalarFloatMinNumber
| ScalarFloatMax
| ScalarFloatMin
| ScalarFloatMultiply
| ScalarFloatMultiplyElement
| ScalarFloatFusedMultiplyAdd
| ScalarFloatFusedElement
| ScalarFloatSquareRoot
| ScalarFloatConditionalSelect.

(** The variant selected by [normalize]; the [Operands] record of this family is
    not modelled. *)
Definition normalize_variant (instruction_id : Z) : Result Empty_set Variant :=
  match instruction_id with
  | 0x48 => Ok DuplicateGeneral
  | 0x8c => Ok DuplicateElement
  | 0xac => Ok DuplicateScalarElement
  | 0x49 => Ok MemoryPair
  | 0x30 | 0xb2 => Ok Bitwise
  | 0x31 => Ok Integer
  | 0xb5 => Ok IntegerMultiply
  | 0xc1 => Ok IntegerWideAdd
  | 0xc2 => Ok IntegerSign
  | 0xc3 => Ok ScalarIntegerSign
  | 0x35 | 0x89 => Ok ScalarMove
  | 0x8d | 0x8f => Ok ScalarAbsolute
  | 0x8e | 0x90 => Ok ScalarNegate
  | 0x9c => Ok VectorFloatAbsolute
  | 0x9d => Ok VectorFloatNegate
  | 0x36 => Ok CompareRegister
  | 0x37 => Ok CompareZero
  | 0x9b => Ok ConditionalCompare
  | 0x4a => Ok ModifiedImmediate
  | 0x4b => Ok UnsignedMoveToGeneral
  | 0x60 => Ok InsertElement
  | 0x61 => Ok InsertGeneral
  | 0x3a | 0xc9 => Ok SignedIntToFloat
  | 0x3b | 0xca => Ok UnsignedIntToFloat
  | 0x3c | 0x7d | 0x7f | 0x81 | 0x83 | 0x9e => Ok FloatToSignedInt
  | 0x3d | 0x7e | 0x80 | 0x82 | 0x84 | 0x9f => Ok FloatToUnsignedInt
  | 0x3e => Ok MoveToGeneral
  | 0x3f => Ok MoveFromGeneral
  | 0x33 => Ok MemoryUnsigned
  | 0x34 => Ok MemoryUnscaled
  | 0x40 => Ok MemoryPostIndex
  | 0x41 => Ok MemoryPreIndex
  | 0x42 => Ok MemoryRegister
  | 0x4c => Ok MemoryMultipleStructures
  | 0x4d => Ok MemoryMultipleStructuresPostIndex
  | 0x62 => Ok MemorySingleStructure
  | 0x63 => Ok MemorySingleStructurePostIndex
  | 0x64 => Ok PermuteTwoSource
  | 0xc7 => Ok TableLookup
  | 0xc8 => Ok TableLookupExtension
  | 0x85 => Ok Extract
  | 0x4e | 0x4f | 0x50 | 0x51 | 0x52 | 0x53 | 0x54 | 0x55 | 0x56 | 0x57 | 0x58 => Ok IntegerCompare
  | 0xbb | 0xbc | 0xbd | 0xbe | 0xbf | 0xc0 => Ok ScalarIntegerCompare
  | 0x59 | 0x5a | 0x5b | 0x5c | 0x5d => Ok IntegerPairwise
  | 0x65 => Ok ShiftRightNarrow
  | 0x91 => Ok ScalarShiftRightImmediate
  | 0x92 => Ok VectorShiftRightImmediate
  | 0x99 => Ok ScalarShiftLeftImmediate
  | 0x9a => Ok VectorShiftLeftImmediate
  | 0xa0 => Ok ShiftLeftLong
  | 0x95 => Ok VectorSignedShiftRegister
  | 0x96 => Ok VectorUnsignedShiftRegister
  | 0x93 => Ok CountBits
  | 0xa9 => Ok Reverse64
  | 0xb1 => Ok Reverse32
  | 0xaf => Ok VectorFloatToSignedInt
  | 0xb0 => Ok VectorFloatToUnsignedInt
  | 0xaa => Ok ScalarVectorFloatToSignedInt
  | 0xab => Ok ScalarVectorFloatToUnsignedInt
  | 0x94 => Ok AddAcrossVector
  | 0xa6 => Ok UnsignedAddLongAcrossVector
  | 0x88 => Ok ExtractNarrow
  | 0x66 | 0x67 | 0x68 | 0x69 => Ok IntegerMinMax
  | 0xb6 | 0xb7 | 0xb8 | 0xb9 => Ok IntegerMinMaxAcross
  | 0x6a => Ok VectorSignedIntToFloat
  | 0x6b => Ok VectorUnsignedIntToFloat
  | 0x8a => Ok ScalarVectorSignedIntToFloat
  | 0x8b => Ok ScalarVectorUnsignedIntToFloat
  | 0x6c => Ok VectorFloatDivide
  | 0xa3 => Ok VectorFloatMultiply
  | 0xa1 => Ok VectorFloatMultiplyElement
  | 0xa2 => Ok VectorFloatFusedElement
  | 0xa4 => Ok VectorFloatFused
  | 0xa5 => Ok VectorFloatAdd
  | 0x86 => Ok VectorFloatImmediate
  | 0x6d | 0x6e => Ok ScalarFloatImmediate
  | 0x6f | 0x70 => Ok ScalarFloatConvert
  | 0xba => Ok VectorFloatConvertLong
  | 0xc4 => Ok VectorFloatConvertNarrow
  | 0x71 => Ok ScalarFloatDivide
  | 0x72 | 0x73 | 0x74 | 0x75 | 0x76 | 0x77 | 0x78 => Ok ScalarFloatRound
  | 0xa8 => Ok ScalarFloatMinNumber
  | 0xb3 => Ok ScalarFloatMax
  | 0xb4 => Ok ScalarFloatMin
  | 0xa7 => Ok ScalarFloatMaxNumber
  | 0x79 | 0x7a | 0xc5 => Ok ScalarFloatAdd
  | 0xc6 => Ok VectorFloatAdd
  | 0x7b | 0x7c => Ok ScalarFloatMultiply
  | 0xad => Ok ScalarFloatMultiplyElement
  | 0x97 => Ok ScalarFloatFusedMultiplyAdd
  | 0xae => Ok ScalarFloatFusedElement
  | 0x98 => Ok ScalarFloatSquareRoot
  | 0x87 => Ok ScalarFloatConditionalSelect
  | _ => Panic
  end.
