(* ===== verification/DecodeAllocation.v ===== *)
(** * Architectural allocation rules (crates/cpu/src/decode/allocation.rs)

    [validate_a64] is one chain of conditionals in the order of the arms of the
    Rust [match], guards included: an arm whose guard fails falls through to the
    arms after it. *)

From S2P Require Import Prelude CpuArith DecodeTable.

(** [bits & m == v] *)
Definition masked (bits m v : Z) : bool := Z.land bits m =? v.

Definition one_of (v : Z) (l : list Z) : bool := existsb (Z.eqb v) l.

Definition between (v lo hi : Z) : bool := (lo <=? v) && (v <=? hi).

(** [u8::trailing_zeros] *)
Definition trailing_zeros_8 (v : Z) : Z :=
  from_option id 8 (List.find (fun k => Z.testbit v k) [0; 1; 2; 3; 4; 5; 6; 7]).

(** [u8::is_power_of_two] *)
Definition is_power_of_two_8 (v : Z) : bool := one_of v [1; 2; 4; 8; 16; 32; 64; 128].

Definition validate_a64_simd_shift_right_immediate (scalar : bool) (bits : Z) : AllocationStatus :=
  let immediate_high := field bits 19 15 in
  let vector_128 := flag bits 30 in
  if immediate_high =? 0 then Unallocated "SIMD right shift has no element-size bit"
  else if scalar && (Z.land immediate_high 8 =? 0)
  then Unallocated "scalar SIMD right shift requires a 64-bit element"
  else if negb scalar && negb vector_128 && negb (Z.land immediate_high 8 =? 0)
  then Reserved "64-bit SIMD lanes require a 128-bit vector"
  else Allocated.

Definition validate_a64_simd_shift_left_immediate (scalar : bool) (bits : Z) : AllocationStatus :=
  let immediate_high := field bits 19 15 in
  let vector_128 := flag bits 30 in
  if immediate_high =? 0 then Unallocated "SIMD left shift has no element-size bit"
  else if scalar && (Z.land immediate_high 8 =? 0)
  then Unallocated "scalar SIMD left shift requires a 64-bit element"
  else if negb scalar && negb vector_128 && negb (Z.land immediate_high 8 =? 0)
  then Reserved "64-bit SIMD lanes require a 128-bit vector"
  else Allocated.

Definition validate_a64_simd_shift_register (bits : Z) : AllocationStatus :=
  let lane_size := field bits 22 3 in
  let vector_128 := flag bits 30 in
  if (lane_size =? 3) && negb vector_128
  then Reserved "64-bit SIMD lanes require a 128-bit vector"
  else Allocated.

Definition validate_a64_simd_add_across_vector (bits : Z) : AllocationStatus :=
  let size := field bits 22 3 in
  let vector_128 := flag bits 30 in
  if size =? 3 then Unallocated "across-vector reduction has no 64-bit element form"
  else if (size =? 2) && negb vector_128
  then Reserved "across-vector reduction with 32-bit elements requires a 128-bit vector"
  else Allocated.

Definition validate_a64_fp_move_general (bits : Z) : AllocationStatus :=
  let general_64 := flag bits 31 in
  let fp_type := field bits 22 3 in
  match general_64, fp_type with
  | false, 0 | false, 3 | true, 1 | true, 2 => Allocated
  | _, _ => Unallocated "floating-point move register widths do not form an allocated encoding"
  end.

Definition validate_a64_simd_add_sub (bits : Z) : AllocationStatus :=
  if (field bits 22 3 =? 3) && negb (flag bits 30)
  then Reserved "64-bit SIMD vector cannot contain a 64-bit lane"
  else Allocated.

Definition validate_a64_simd_integer_to_float (bits : Z) : AllocationStatus :=
  if flag bits 22 && negb (flag bits 30)
  then Reserved "64-bit SIMD conversion requires a 128-bit vector"
  else Allocated.

Definition validate_a64_simd_float_vector (bits : Z) : AllocationStatus :=
  if flag bits 22 && negb (flag bits 30)
  then Reserved "64-bit floating-point lanes require a 128-bit vector"
  else Allocated.

Definition validate_a64_simd_float_immediate (bits : Z) : AllocationStatus :=
  let quad := flag bits 30 in
  let double_precision := flag bits 29 in
  if double_precision && negb quad
  then Unallocated "64-bit vector floating-point immediate requires a 128-bit vector"
  else Allocated.

Definition validate_a64_simd_extract_narrow (bits : Z) : AllocationStatus :=
  if field bits 22 3 =? 3 then Reserved "invalid SIMD extract-narrow element size" else Allocated.

Definition validate_a64_simd_duplicate_element (bits : Z) : AllocationStatus :=
  let immediate := field bits 16 31 in
  let quad := flag bits 30 in
  if Z.land immediate 15 =? 0 then Reserved "SIMD duplicate element has no element size"
  else if (trailing_zeros_8 immediate =? 3) && negb quad
  then Reserved "64-bit SIMD duplicate requires a 128-bit vector"
  else Allocated.

Definition validate_a64_simd_add_pairwise (bits : Z) : AllocationStatus :=
  if (field bits 22 3 =? 3) && negb (flag bits 30)
  then Reserved "64-bit SIMD vector cannot contain a pair of 64-bit lanes"
  else Allocated.

Definition validate_a64_simd_min_max_pairwise (bits : Z) : AllocationStatus :=
  if field bits 22 3 =? 3
  then Reserved "pairwise integer minimum/maximum has no 64-bit lane form"
  else Allocated.

Definition validate_a64_simd_integer_compare (bits : Z) : AllocationStatus :=
  if (field bits 22 3 =? 3) && negb (flag bits 30)
  then Reserved "64-bit SIMD vector cannot contain a 64-bit lane"
  else Allocated.

Definition is_a64_simd_integer_compare (bits : Z) : bool :=
  one_of (Z.land bits 0xbf20fc00)
    [0x0e203400; 0x2e203400; 0x0e203c00; 0x2e203c00; 0x0e208c00; 0x2e208c00].

Definition is_a64_simd_integer_compare_zero (bits : Z) : bool :=
  one_of (Z.land bits 0xbf3ffc00) [0x0e208800; 0x2e208800; 0x0e209800; 0x2e209800; 0x0e20a800].

Definition validate_a64_umov (bits : Z) : AllocationStatus :=
  let immediate := field bits 16 31 in
  let destination_64 := flag bits 30 in
  if (immediate =? 0) || (3 <? trailing_zeros_8 immediate)
  then Reserved "invalid SIMD element size"
  else if negb (Bool.eqb destination_64 (trailing_zeros_8 immediate =? 3))
  then Reserved "UMOV destination width does not match element size"
  else Allocated.

Definition validate_a64_simd_insert (id bits : Z) : AllocationStatus :=
  let immediate_5 := field bits 16 31 in
  if (immediate_5 =? 0) || (3 <? trailing_zeros_8 immediate_5)
  then Reserved "invalid SIMD insert element size"
  else if (id =? 0x60) &&
          negb (Z.land (field bits 11 15) (shl 32 1 (trailing_zeros_8 immediate_5) - 1) =? 0)
  then Reserved "SIMD insert source index is misaligned for its element size"
  else Allocated.

Definition validate_a64_simd_extract (bits : Z) : AllocationStatus :=
  let vector_128 := flag bits 30 in
  let immediate := field bits 11 15 in
  if negb vector_128 && (8 <=? immediate)
  then Reserved "64-bit SIMD EXT byte index is outside the vector"
  else Allocated.

(** The last arm of the Rust match is [unreachable!] for a three-bit field; the
    default here returns the same value as the arm for 6 and 7. *)
Definition validate_a64_simd_single_structure (bits : Z) : AllocationStatus :=
  let opcode := field bits 13 7 in
  let s := flag bits 12 in
  let size := field bits 10 3 in
  match opcode with
  | 0 | 1 => Allocated
  | 2 | 3 =>
      if Z.land size 1 =? 0 then Allocated
      else Reserved "16-bit single-structure lane requires size<0> == 0"
  | 4 | 5 =>
      if (size =? 0) || ((size =? 1) && negb s) then Allocated
      else Reserved "invalid 32-bit or 64-bit single-structure lane index"
  | _ =>
      if flag bits 22 then Allocated
      else Unallocated "replicate single-structure operation is load-only"
  end.

Definition validate_a64_simd_permute_two_source (bits : Z) : AllocationStatus :=
  let operation := field bits 12 7 in
  if negb (one_of operation [1; 2; 3; 5; 6; 7])
  then Unallocated "unallocated Advanced SIMD two-source permute operation"
  else if (field bits 22 3 =? 3) && negb (flag bits 30)
  then Reserved "64-bit SIMD vector cannot contain two 64-bit lanes"
  else Allocated.

(** Arms 0x10 to 0x2d: integer and scalar memory families.  [None] falls through. *)
Definition validate_integer_memory (id bits : Z) : option AllocationStatus :=
  let sf := negb (shr bits 31 =? 0) in
  let immr := field bits 16 63 in
  let imms := field bits 10 63 in
  if id =? 0x10 then
    let opc := field bits 29 3 in
    let hw := field bits 21 3 in
    Some (if opc =? 1 then Unallocated "unallocated move-wide opcode"
          else if negb sf && (2 <=? hw) then Reserved "32-bit move-wide halfword is reserved"
          else Allocated)
  else if id =? 0x11 then
    let shift := field bits 22 3 in
    let amount := field bits 10 63 in
    Some (if (shift =? 3) || (negb sf && (32 <=? amount))
          then Reserved "invalid add/subtract shifted-register shift" else Allocated)
  else if (id =? 0x12) && (4 <? field bits 10 7) then
    Some (Reserved "extended-register shift exceeds four")
  else if id =? 0x14 then
    Some (if is_ok (decode_a64_logical_immediate (flag bits 22) immr imms (if sf then 64 else 32))
          then Allocated else Reserved "invalid logical-immediate bitmask")
  else if (id =? 0x15) && negb sf && (32 <=? field bits 10 63) then
    Some (Reserved "32-bit logical shift exceeds register width")
  else if id =? 0x16 then
    let n := flag bits 22 in
    let opc := field bits 29 3 in
    Some (if negb (Bool.eqb n sf) || (negb sf && ((32 <=? immr) || (32 <=? imms)))
          then Reserved "invalid bitfield width fields"
          else if opc =? 3 then Unallocated "unallocated bitfield opcode" else Allocated)
  else if id =? 0x17 then
    let n := flag bits 22 in
    Some (if negb (Bool.eqb n sf) || (negb sf && (32 <=? imms))
          then Reserved "invalid extract width fields" else Allocated)
  else if between id 0x23 0x27 then
    let size := shr bits 30 in
    let opc := field bits 22 3 in
    Some (if ((opc =? 3) && (2 <=? size)) ||
             ((size =? 3) && (opc =? 2) && one_of id [0x25; 0x26])
          then Unallocated "unallocated scalar load/store opcode"
          else if (id =? 0x27) && negb (flag bits 14)
          then Unallocated "invalid scalar load/store register extension" else Allocated)
  else if (id =? 0x2d) && (8 <? field bits 12 15) then
    Some (Unallocated "unallocated LSE atomic read-modify-write opcode")
  else None.

(** The SIMD arms from 0x48 to 0xb5. *)
Definition validate_simd_first (id bits : Z) : option AllocationStatus :=
  if id =? 0x48 then
    let immediate := field bits 16 31 in
    let quad := flag bits 30 in
    Some (if negb (is_power_of_two_8 immediate)
          then Reserved "SIMD duplicate element size is not one-hot"
          else if (immediate =? 8) && negb quad
          then Reserved "64-bit SIMD duplicate requires a 128-bit vector" else Allocated)
  else if one_of id [0x8c; 0xac] then Some (validate_a64_simd_duplicate_element bits)
  else if (id =? 0x49) && (shr bits 30 =? 3) then Some (Reserved "invalid SIMD pair transfer size")
  else if (id =? 0x4a) && (field bits 12 15 =? 15) then
    Some (Unallocated "floating-point immediate belongs to a different instruction family")
  else if id =? 0x86 then Some (validate_a64_simd_float_immediate bits)
  else if one_of id [0x3e; 0x3f] then Some (validate_a64_fp_move_general bits)
  else if id =? 0xc6 then Some (validate_a64_simd_float_vector bits)
  else if one_of id [0x31; 0xc2] then Some (validate_a64_simd_add_sub bits)
  else if between id 0xb6 0xb9 then Some (validate_a64_simd_add_across_vector bits)
  else if (id =? 0xc1) && (field bits 22 3 =? 3) then
    Some (Reserved "SIMD add-wide has no 64-bit source lane encoding")
  else if (id =? 0xb5) && (field bits 22 3 =? 3) then
    Some (Reserved "SIMD integer multiply has no 64-bit lane encoding")
  else None.

(** The arms guarded on 0x38 and 0x39, the recognized-unimplemented SIMD space. *)
Definition validate_simd_unsupported (id bits : Z) : option AllocationStatus :=
  let simd := id =? 0x38 in
  if simd && masked bits 0x9f20fc00 0x0e208400 then Some (validate_a64_simd_add_sub bits)
  else if simd && masked bits 0xbf3ffc00 0x0e31b800 then
    Some (validate_a64_simd_add_across_vector bits)
  else if simd && masked bits 0xbf20fc00 0x0e20bc00 then Some (validate_a64_simd_add_pairwise bits)
  else if simd && one_of (Z.land bits 0xbf20fc00) [0x0e20a400; 0x0e20ac00; 0x2e20a400; 0x2e20ac00]
  then Some (validate_a64_simd_min_max_pairwise bits)
  else if simd && is_a64_simd_integer_compare bits then Some (validate_a64_simd_integer_compare bits)
  else if simd && is_a64_simd_integer_compare_zero bits then
    Some (validate_a64_simd_integer_compare bits)
  else if simd && masked bits 0xbf208c00 0x0e000800 then
    Some (validate_a64_simd_permute_two_source bits)
  else if simd && masked bits 0xbf208400 0x2e000000 then Some (validate_a64_simd_extract bits)
  else if simd && masked bits 0x9f80fc00 0x0f000400 then
    Some (validate_a64_simd_shift_right_immediate false bits)
  else if simd && masked bits 0xbf80fc00 0x0f005400 then
    Some (validate_a64_simd_shift_left_immediate false bits)
  else if simd && one_of (Z.land bits 0xbf20fc00) [0x0e204400; 0x2e204400] then
    Some (validate_a64_simd_shift_register bits)
  else if simd && one_of (Z.land bits 0xbfbffc00) [0x0e21d800; 0x2e21d800] then
    Some (validate_a64_simd_integer_to_float bits)
  else if simd && masked bits 0xbfa0fc00 0x2e20fc00 then Some (validate_a64_simd_float_vector bits)
  else if simd && one_of (Z.land bits 0xbfbffc00) [0x0ea0f800; 0x2ea0f800] then
    Some (validate_a64_simd_float_vector bits)
  else if simd && masked bits 0x9ff8fc00 0x0f00f400 then
    Some (validate_a64_simd_float_immediate bits)
  else if simd && masked bits 0xbf3ffc00 0x0e212800 then Some (validate_a64_simd_extract_narrow bits)
  else if simd && masked bits 0xbf20fc00 0x0e000400 then
    Some (validate_a64_simd_duplicate_element bits)
  else if (id =? 0x39) && masked bits 0xff201fe0 0x1e201000 then
    Some (Unallocated "unallocated scalar floating-point immediate type")
  else if simd && masked bits 0xbfe0fc00 0x0e003c00 then Some (validate_a64_umov bits)
  else None.

(** The remaining arms, from 0x4b to the wildcard. *)
Definition validate_simd_rest (id bits : Z) : AllocationStatus :=
  let sf := negb (shr bits 31 =? 0) in
  if id =? 0x4b then validate_a64_umov bits
  else if one_of id [0x60; 0x61] then validate_a64_simd_insert id bits
  else if between id 0x4e 0x58 then validate_a64_simd_integer_compare bits
  else if id =? 0x59 then validate_a64_simd_add_pairwise bits
  else if between id 0x5a 0x5d then validate_a64_simd_min_max_pairwise bits
  else if one_of id [0x4c; 0x4d] then
    if one_of (field bits 12 15) [0; 2; 4; 6; 7; 8; 10] then Allocated
    else Unallocated "unallocated Advanced SIMD multiple-structures opcode"
  else if one_of id [0x62; 0x63] then validate_a64_simd_single_structure bits
  else if id =? 0x64 then validate_a64_simd_permute_two_source bits
  else if id =? 0x85 then validate_a64_simd_extract bits
  else if id =? 0x65 then
    if field bits 19 15 =? 0 then Reserved "SIMD narrow shift has no element-size bit" else Allocated
  else if one_of id [0x91; 0x92] then validate_a64_simd_shift_right_immediate (id =? 0x91) bits
  else if one_of id [0x99; 0x9a] then validate_a64_simd_shift_left_immediate (id =? 0x99) bits
  else if id =? 0xa0 then
    if field bits 19 15 =? 0 then Unallocated "SIMD long shift has no element-size bit" else Allocated
  else if one_of id [0x9c; 0x9d] then validate_a64_simd_float_vector bits
  else if one_of id [0xa1; 0xad] then
    if flag bits 22 && flag bits 21
    then Reserved "double-precision by-element multiply requires L=0"
    else if id =? 0xa1 then validate_a64_simd_float_vector bits else Allocated
  else if one_of id [0xa2; 0xae] then
    if flag bits 22 && flag bits 21
    then Reserved "double-precision by-element FMA requires L=0"
    else if id =? 0xa2 then validate_a64_simd_float_vector bits else Allocated
  else if one_of id [0x9e; 0x9f; 0xc9; 0xca] then
    if negb sf && (field bits 10 63 <? 32)
    then Reserved "32-bit fixed-point floating conversion exceeds 32 fractional bits"
    else Allocated
  else if id =? 0xb1 then
    if 2 <=? field bits 22 3 then Reserved "REV32 element width must be below 32 bits" else Allocated
  else if id =? 0xa9 then
    if field bits 22 3 =? 3 then Reserved "REV64 element width must be below 64 bits" else Allocated
  else if one_of id [0x95; 0x96] then validate_a64_simd_shift_register bits
  else if one_of id [0x94; 0xa6] then validate_a64_simd_add_across_vector bits
  else if id =? 0x88 then validate_a64_simd_extract_narrow bits
  else if between id 0x66 0x69 then validate_a64_simd_min_max_pairwise bits
  else if one_of id [0x6a; 0x6b; 0xaf; 0xb0] then validate_a64_simd_integer_to_float bits
  else if (id =? 0x6c) || between id 0xa3 0xa5 then validate_a64_simd_float_vector bits
  else if between id 0x6d 0x84 || (id =? 0x87) || between id 0x89 0x90 then Allocated
  else if one_of id [0x33; 0x34] || between id 0x40 0x42 then
    let size := shr bits 30 in
    let opc := field bits 22 3 in
    if negb (Z.land opc 2 =? 0) && negb (size =? 0)
    then Reserved "invalid 128-bit SIMD transfer size"
    else if (id =? 0x42) && (Z.land (shr bits 13) 2 =? 0)
    then Reserved "invalid SIMD register-offset extension"
    else Allocated
  else Allocated.

Definition validate_a64 (id bits : Z) : AllocationStatus :=
  match validate_integer_memory id bits with
  | Some status => status
  | None =>
    match validate_simd_first id bits with
    | Some status => status
    | None =>
      match validate_simd_unsupported id bits with
      | Some status => status
      | None => validate_simd_rest id bits
      end
    end
  end.

Definition validate (id bits : Z) : AllocationStatus := validate_a64 id bits.
