(* ===== verification/DecodeFpOperands.v ===== *)
(** * Operands of the FP/SIMD family (crates/cpu/src/decode/a64/fp_simd.rs)

    The operand record of a normalized FP/SIMD instruction and its normalizer:
    which fields of the word, under which identity, become which operand. *)

From S2P Require Import Prelude DecodeTable DecodeFpSimd DecodeAllocation.

Inductive BitwiseOperation := BNot | BAnd | BBitClear | BOr | BOrNot | BExclusiveOr | BSelect | BInsertIfTrue | BInsertIfFalse.

Inductive IntegerComparison :=
| SignedGreaterThan | UnsignedGreaterThan | SignedGreaterThanOrEqual | UnsignedGreaterThanOrEqual
| SignedLessThan | SignedLessThanOrEqual | NonzeroBitTest | Equal.

Inductive PairwiseOperation := PAdd | PSignedMaximum | PSignedMinimum | PUnsignedMaximum | PUnsignedMinimum.

Inductive PermuteOperation :=
| UnzipPrimary | UnzipSecondary | TransposePrimary | TransposeSecondary | ZipPrimary | ZipSecondary.

Inductive FloatConversion := SingleToDouble | DoubleToSingle.

Inductive FloatToIntegerRounding := ToNearestEven | ToNearestAway | ToPositive | ToNegative | ToZero.

Inductive FloatRoundOperation :=
| RoundNearestEven | RoundTowardPositive | RoundTowardNegative | RoundTowardZero | RoundNearestAway
| RoundExact | RoundCurrentMode.

Inductive FloatAddOperation := FAdd | FSubtract | FAbsoluteDifference.

Inductive FloatMultiplyOperation := FMultiply | FNegatedMultiply.

Inductive FloatFusedMultiplyOperation :=
| MultiplyAdd | MultiplySubtract | NegatedMultiplyAdd | NegatedMultiplySubtract.

Record Operands := mkOperands {
  rd : Z; rn : Z; rm : Z; ra : Z;
  size : Z; opc : Z; option_ : Z;
  immediate_9 : Z; immediate_12 : Z; immediate_19 : Z;
  load : bool; quad : bool; vector_128 : bool; subtract : bool; scaled : bool;
  immediate_5 : Z; rt2 : Z; immediate_7 : Z;
  shift_immediate : Z; shift_accumulate : bool;
  mode : Z; immediate_8 : Z; cmode : Z;
  structure_opcode : Z; structure_r : bool; table_register_count : Z;
  bitwise_operation_of : option BitwiseOperation;
  integer_comparison_of : option IntegerComparison;
  pairwise_operation_of : option PairwiseOperation;
  permute_operation_of : option PermuteOperation;
  compare_with_zero : bool; signaling_compare : bool; operation_bit : bool;
  immediate_4 : Z; nzcv_immediate : Z; condition : Z; element_size : Z;
  fp_immediate_8 : Z; fp_element_lane : Z;
  float_conversion : option FloatConversion;
  float_to_integer_rounding : option FloatToIntegerRounding;
  fixed_point_fraction_bits : option Z;
  float_round_operation : option FloatRoundOperation;
  float_add_operation : option FloatAddOperation;
  float_multiply_operation : option FloatMultiplyOperation;
  float_fused_multiply_operation : option FloatFusedMultiplyOperation
}.

Definition permute_operation (bits : Z) : option PermuteOperation :=
  match field bits 12 7 with
  | 1 => Some UnzipPrimary
  | 2 => Some TransposePrimary
  | 3 => Some ZipPrimary
  | 5 => Some UnzipSecondary
  | 6 => Some TransposeSecondary
  | 7 => Some ZipSecondary
  | _ => None
  end.

Definition bitwise_operation (bits : Z) : option BitwiseOperation :=
  match Z.lor (Z.shiftl (field bits 29 1) 2) (field bits 22 3) with
  | 0 => Some BAnd
  | 1 => Some BBitClear
  | 2 => Some BOr
  | 3 => Some BOrNot
  | 4 => Some BExclusiveOr
  | 5 => Some BSelect
  | 6 => Some BInsertIfTrue
  | 7 => Some BInsertIfFalse
  | _ => None
  end.

Definition integer_comparison (instruction_id : Z) : option IntegerComparison :=
  match instruction_id with
  | 0x4e | 0xbb => Some SignedGreaterThan
  | 0x4f | 0xbc => Some UnsignedGreaterThan
  | 0x50 | 0xbd => Some SignedGreaterThanOrEqual
  | 0x51 | 0xbe => Some UnsignedGreaterThanOrEqual
  | 0x52 | 0xbf => Some NonzeroBitTest
  | 0x53 | 0xc0 => Some Equal
  | 0x54 => Some SignedGreaterThan
  | 0x55 => Some SignedGreaterThanOrEqual
  | 0x56 => Some Equal
  | 0x57 => Some SignedLessThanOrEqual
  | 0x58 => Some SignedLessThan
  | _ => None
  end.

Definition pairwise_operation (instruction_id : Z) : option PairwiseOperation :=
  match instruction_id with
  | 0x59 => Some PAdd
  | 0x5a => Some PSignedMaximum
  | 0x5b => Some PSignedMinimum
  | 0x5c => Some PUnsignedMaximum
  | 0x5d => Some PUnsignedMinimum
  | 0x66 | 0xb6 => Some PSignedMaximum
  | 0x67 | 0xb7 => Some PSignedMinimum
  | 0x68 | 0xb8 => Some PUnsignedMaximum
  | 0x69 | 0xb9 => Some PUnsignedMinimum
  | _ => None
  end.

Definition bitwise_of (instruction_id bits : Z) : option BitwiseOperation :=
  match instruction_id with
  | 0xb2 => Some BNot
  | 0x30 => bitwise_operation bits
  | _ => None
  end.

Definition conversion_of (instruction_id : Z) : option FloatConversion :=
  match instruction_id with
  | 0x6f => Some SingleToDouble
  | 0x70 => Some DoubleToSingle
  | _ => None
  end.

Definition integer_rounding_of (instruction_id : Z) : option FloatToIntegerRounding :=
  match instruction_id with
  | 0x7d | 0x7e => Some ToNearestEven
  | 0x7f | 0x80 => Some ToNearestAway
  | 0x81 | 0x82 => Some ToPositive
  | 0x83 | 0x84 => Some ToNegative
  | 0x3c | 0x3d | 0x9e | 0x9f | 0xaa | 0xab | 0xaf | 0xb0 => Some ToZero
  | _ => None
  end.

Definition round_of (instruction_id : Z) : option FloatRoundOperation :=
  match instruction_id with
  | 0x72 => Some RoundNearestEven
  | 0x73 => Some RoundTowardPositive
  | 0x74 => Some RoundTowardNegative
  | 0x75 => Some RoundTowardZero
  | 0x76 => Some RoundNearestAway
  | 0x77 => Some RoundExact
  | 0x78 => Some RoundCurrentMode
  | _ => None
  end.

Definition add_of (instruction_id bits : Z) : option FloatAddOperation :=
  match instruction_id with
  | 0xa5 => Some (if negb (flag bits 23) then FAdd else FSubtract)
  | 0xc5 | 0xc6 => Some FAbsoluteDifference
  | 0x79 => Some FAdd
  | 0x7a => Some FSubtract
  | _ => None
  end.

Definition multiply_of (instruction_id : Z) : option FloatMultiplyOperation :=
  match instruction_id with
  | 0x7b | 0xad => Some FMultiply
  | 0x7c => Some FNegatedMultiply
  | _ => None
  end.

(** The last arm of the source is unreachable on two bits. *)
Definition fused_of (instruction_id bits : Z) : option FloatFusedMultiplyOperation :=
  match instruction_id with
  | 0xae => Some (if flag bits 14 then MultiplySubtract else MultiplyAdd)
  | 0x97 =>
      Some (match Z.lor (Z.land (Z.shiftr bits 20) 2) (field bits 15 1) with
            | 0 => MultiplyAdd
            | 1 => MultiplySubtract
            | 2 => NegatedMultiplyAdd
            | _ => NegatedMultiplySubtract
            end)
  | _ => None
  end.

(** The lane of the by-element forms. *)
Definition element_lane_of (instruction_id bits : Z) : Z :=
  if one_of instruction_id [0xa1; 0xa2; 0xad; 0xae]
  then if negb (flag bits 22) then Z.lor (field bits 21 1) (Z.shiftl (field bits 11 1) 1) else field bits 11 1
  else 0.

Definition normalize_operands (instruction_id bits : Z) : Result Empty_set Operands :=
  let permute := permute_operation bits in
  if (instruction_id =? 0x64) && bool_decide (permute = None) then Panic
  else Ok {|
    rd := field bits 0 0x1f;
    rn := field bits 5 0x1f;
    rm := field bits 16 0x1f;
    ra := if instruction_id =? 0xae then field bits 0 0x1f else field bits 10 0x1f;
    size := field bits 30 3;
    opc := if one_of instruction_id [0xa1; 0xa2; 0xa4; 0xa5; 0xaa; 0xab; 0xad; 0xae; 0xaf; 0xb0; 0xc5; 0xc6]
           then field bits 22 1 else field bits 22 3;
    option_ := field bits 13 7;
    immediate_9 := field bits 12 0x1ff;
    immediate_12 := field bits 10 0xfff;
    immediate_19 := field bits 5 0x7ffff;
    load := flag bits 22;
    quad := flag bits 23;
    vector_128 := flag bits 30;
    subtract := flag bits (if one_of instruction_id [0xa2; 0xae] then 14 else if instruction_id =? 0xa4 then 23 else 29);
    scaled := flag bits 12;
    immediate_5 := field bits 16 0x1f;
    rt2 := field bits 10 0x1f;
    immediate_7 := field bits 15 0x7f;
    shift_immediate := field bits 16 0x7f;
    shift_accumulate := one_of instruction_id [0x91; 0x92] && flag bits 12;
    mode := field bits 23 3;
    immediate_8 := Z.lor (Z.shiftl (field bits 16 7) 5) (field bits 5 0x1f);
    cmode := field bits 12 0xf;
    structure_opcode := field bits 12 0xf;
    structure_r := flag bits 21;
    table_register_count := field bits 13 3 + 1;
    bitwise_operation_of := bitwise_of instruction_id bits;
    integer_comparison_of := integer_comparison instruction_id;
    pairwise_operation_of := pairwise_operation instruction_id;
    permute_operation_of := if instruction_id =? 0x64 then permute else None;
    compare_with_zero := between instruction_id 0x54 0x58;
    signaling_compare := flag bits 4;
    operation_bit := flag bits 29;
    immediate_4 := field bits 11 0xf;
    nzcv_immediate := field bits 0 0xf;
    condition := field bits 12 0xf;
    element_size := field bits 10 3;
    fp_immediate_8 := field bits 13 0xff;
    fp_element_lane := element_lane_of instruction_id bits;
    float_conversion := conversion_of instruction_id;
    float_to_integer_rounding := integer_rounding_of instruction_id;
    fixed_point_fraction_bits :=
      if one_of instruction_id [0x9e; 0x9f; 0xc9; 0xca] then Some (64 - field bits 10 0x3f) else None;
    float_round_operation := round_of instruction_id;
    float_add_operation := add_of instruction_id bits;
    float_multiply_operation := multiply_of instruction_id;
    float_fused_multiply_operation := fused_of instruction_id bits
  |}.

Definition normalize (instruction_id bits : Z) : Result Empty_set (Variant * Operands) :=
  let? operands := normalize_operands instruction_id bits in
  let? v := normalize_variant instruction_id in
  Ok (v, operands).
