(* ===== verification/DecodeA64.v ===== *)
(** * The A64 catalog and its normalizer (crates/cpu/src/decode/a64/mod.rs)

    The aggregate catalog of the five families, the table compiled from it, and
    [normalize], which routes a decoded identity to its family.  The theorems
    are about the catalog the program ships. *)

From S2P Require Import Prelude CpuArith DecodeTable DecodeControl DecodeSystem.
From S2P Require Import DecodeFpSimd DecodeAllocation DecodeFpOperands DecodeInteger DecodeMemory.

Inductive A64Instruction :=
| Control (i : DecodeControl.Instruction)
| System (i : DecodeSystem.Instruction)
| Integer (i : DecodeInteger.Instruction)
| Memory (i : DecodeMemory.Instruction)
| FpSimd (v : DecodeFpSimd.Variant) (operands : DecodeFpOperands.Operands)
| RecognizedUnsupported (coverage_id : Z).

Definition normalize (opcode : DecodedOpcode) (bits : Z) : Result Empty_set A64Instruction :=
  let instruction_id := opcode.(o_pattern).(p_coverage_id) in
  match opcode.(o_pattern).(p_decoder) with
  | RecognizedUnimplemented => Ok (RecognizedUnsupported instruction_id)
  | Ready =>
    if one_of instruction_id [0x1; 0x2] || between instruction_id 0x4 0xa || between instruction_id 0x44 0x47
    then let? i := DecodeControl.normalize instruction_id bits in Ok (Control i)
    else if between instruction_id 0xb 0xf || (instruction_id =? 0x1e)
    then let? i := DecodeSystem.normalize instruction_id bits in Ok (System i)
    else if (instruction_id =? 0x3) || between instruction_id 0x10 0x1d || between instruction_id 0x20 0x21
    then let? i := DecodeInteger.normalize instruction_id bits in Ok (Integer i)
    else if between instruction_id 0x22 0x2f || between instruction_id 0x5e 0x5f
    then let? i := DecodeMemory.normalize instruction_id bits in Ok (Memory i)
    else if between instruction_id 0x30 0x43 || between instruction_id 0x48 0x5d || between instruction_id 0x60 0xca
    then let? i := DecodeFpOperands.normalize instruction_id bits in Ok (FpSimd i.1 i.2)
    else Panic
  end.

(** [patterns]: the stable aggregate catalog. *)
Definition patterns : list InstructionPattern :=
  DecodeControl.PATTERNS ++ DecodeSystem.PATTERNS ++ DecodeInteger.PATTERNS ++
  DecodeMemory.PATTERNS ++ DecodeFpSimd.PATTERNS.

Inductive TargetPlatform := Switch1 | Switch2.

(** [platform_table]: the table is compiled once per platform, from the same
    catalog; a compilation error would be a panic. *)
Definition platform_table (platform : TargetPlatform) : Result Empty_set DecoderTable :=
  expect_result (compile patterns).

Definition decode (platform : TargetPlatform) (bits : Z) : Result Empty_set DecodeResult :=
  let? t := platform_table platform in
  table_decode validate t bits.

(** ** The catalog is valid *)

Lemma patterns_valid : validate_patterns patterns = Ok tt.
Proof. vm_compute. reflexivity. Qed.

Lemma compile_ok l : validate_patterns l = Ok tt -> exists t, compile l = Ok t.
Proof. intros Hl. unfold compile. rewrite Hl. cbn [result_bind]. eexists. reflexivity. Qed.

Lemma catalog_compiles : exists t, compile patterns = Ok t.
Proof. apply compile_ok, patterns_valid. Qed.

Lemma platform_table_ok platform :
  exists t, platform_table platform = Ok t /\ compile patterns = Ok t.
Proof.
  destruct catalog_compiles as [t Ht]. exists t. split; [|exact Ht].
  unfold platform_table. by rewrite Ht.
Qed.

(** Decoding is the linear scan of the catalog. *)
Lemma decode_linear platform bits : decode platform bits = linear_decode validate patterns bits.
Proof.
  destruct (platform_table_ok platform) as (t & Hp & Ht). unfold decode. rewrite Hp.
  cbn [result_bind]. by apply bucket_scan.
Qed.

(** The catalog in scan order. *)
Definition scan_order : list Z :=
  Eval vm_compute in sort_by_priority (priority_at patterns) (seqZ 0 (Z.of_nat (length patterns))).

Lemma scan_order_eq :
  sort_by_priority (priority_at patterns) (seqZ 0 (Z.of_nat (length patterns))) = scan_order.
Proof. vm_compute. reflexivity. Qed.

Lemma decode_scan platform bits : decode platform bits = scan validate patterns scan_order bits None.
Proof. rewrite decode_linear. unfold linear_decode. by rewrite scan_order_eq. Qed.

(** ** Every decoded identity has a family *)

(** A word with every field in range for the operand extraction that can fail. *)
Definition routable : Z := 0x1000.
Definition normalizes (p : InstructionPattern) : bool :=
  negb (is_panic (normalize (mkOpcode p 0) routable)).

Lemma catalog_normalizes : forallb normalizes patterns = true.
Proof. vm_compute. reflexivity. Qed.

(** The only operand whose extraction can fail is the permutation. *)
Definition permutes (p : InstructionPattern) (bits : Z) : bool :=
  negb (p.(p_coverage_id) =? 0x64) || bool_decide (is_Some (permute_operation bits)).

Lemma normalize_operands_returns id bits :
  negb (id =? 0x64) || bool_decide (is_Some (permute_operation bits)) = true -> exists f, DecodeFpOperands.normalize_operands id bits = Ok f.
Proof.
  intros Hp. unfold DecodeFpOperands.normalize_operands. destruct (id =? 0x64); cbn [negb andb orb] in *; [|by eexists].
  apply bool_decide_eq_true in Hp as [o Ho]. rewrite Ho. rewrite bool_decide_eq_false_2 by done. by eexists.
Qed.

(** Whether an identity is routed does not depend on the other operand bits. *)
Lemma normalize_panic_bits p b b' b'' : permutes p b' = true ->
  is_panic (normalize (mkOpcode p b) b') = is_panic (normalize (mkOpcode p b'') routable).
Proof.
  intros Hperm. unfold normalize, permutes in *. cbn [o_pattern]. destruct (p.(p_decoder)); [|done].
  revert Hperm. generalize p.(p_coverage_id). intros id Hperm.
  assert (Hfp : is_panic (let? i := DecodeFpOperands.normalize id b' in Ok (FpSimd i.1 i.2)) =
    is_panic (let? i := DecodeFpOperands.normalize id routable in Ok (FpSimd i.1 i.2))).
  { unfold DecodeFpOperands.normalize. destruct (normalize_operands_returns id b' Hperm) as [f ->].
    destruct (normalize_operands_returns id routable) as [g ->]; [apply orb_true_r|]. cbn [result_bind]. by destruct (normalize_variant id). }
  repeat match goal with |- context [if ?c then _ else _] => destruct c end; try done; try exact Hfp; clear Hfp Hperm;
  unfold DecodeControl.normalize, DecodeSystem.normalize, DecodeInteger.normalize, DecodeMemory.normalize;
  cbv zeta; (destruct id as [|q|q]; [done| |done]); do 7 (destruct q as [q|q|]; try done).
Qed.

(** An allocated permute word encodes a permutation. *)
Lemma allocated_permutes p bits : validate p.(p_coverage_id) bits = Allocated -> permutes p bits = true.
Proof.
  unfold permutes, validate. destruct (Z.eqb_spec p.(p_coverage_id) 0x64) as [->|]; [|done]. cbn [negb orb].
  change (validate_a64 0x64 bits) with (validate_a64_simd_permute_two_source bits). unfold validate_a64_simd_permute_two_source, permute_operation.
  pose proof (field_7 bits 12) as Hf. destruct (one_of (field bits 12 7) _) eqn:Ho; [|done]. intros _. unfold one_of in Ho. cbn [existsb] in Ho.
  rewrite !orb_true_iff, !Z.eqb_eq in Ho. apply bool_decide_eq_true.
  destruct Ho as [-> |[-> |[-> |[-> |[-> |[-> |]]]]]]; [eexists; reflexivity..|done].
Qed.

(** Every allocated word of a pattern whose support is [Ready] has a family. *)
Lemma catalog_family p b b' : p ∈ patterns -> validate p.(p_coverage_id) b' = Allocated -> is_panic (normalize (mkOpcode p b) b') = false.
Proof.
  intros Hp Ha. pose proof catalog_normalizes as Hall. rewrite forallb_forall in Hall.
  specialize (Hall p ltac:(by apply list_elem_of_In)). unfold normalizes in Hall.
  rewrite (normalize_panic_bits p b b' 0) by (by apply allocated_permutes). by apply negb_true_iff in Hall.
Qed.

(** Each entry's fixture decodes to that entry. *)
Definition same_identity (p q : InstructionPattern) : bool :=
  (p.(p_coverage_id) =? q.(p_coverage_id)) &&
  match p.(p_decoder), q.(p_decoder) with
  | Ready, Ready | RecognizedUnimplemented, RecognizedUnimplemented => true
  | _, _ => false
  end.

Definition fixture_decodes (p : InstructionPattern) : bool :=
  match p.(p_regression_fixture) with
  | None => false
  | Some bits =>
    match scan validate patterns scan_order bits None with
    | Ok (Decoded op) => same_identity op.(o_pattern) p &&
        match p.(p_decoder) with Ready => true | _ => false end
    | Ok (DecodeRecognizedUnimplemented op) => same_identity op.(o_pattern) p &&
        match p.(p_decoder) with Ready => false | _ => true end
    | _ => false
    end
  end.

Lemma catalog_fixtures : forallb fixture_decodes patterns = true.
Proof. vm_compute. reflexivity. Qed.

(** The routed instruction comes from its family's normalizer. *)
Lemma normalize_family op bits i :
  normalize op bits = Ok i ->
  match i with
  | Control c => exists id, DecodeControl.normalize id bits = Ok c
  | System c => exists id, DecodeSystem.normalize id bits = Ok c
  | Integer c => exists id, DecodeInteger.normalize id bits = Ok c
  | Memory c => exists id, DecodeMemory.normalize id bits = Ok c
  | FpSimd v f => DecodeFpOperands.normalize op.(o_pattern).(p_coverage_id) bits = Ok (v, f)
  | RecognizedUnsupported _ => op.(o_pattern).(p_decoder) = RecognizedUnimplemented
  end.
Proof.
  unfold normalize. set (id := op.(o_pattern).(p_coverage_id)).
  destruct op.(o_pattern).(p_decoder); [|intros Hn; by injection Hn as <-].
  intros Hn. repeat match type of Hn with (if ?c then _ else _) = _ => destruct c end; [..|discriminate Hn].
  - destruct (DecodeControl.normalize id bits) eqn:E; [|discriminate Hn..]. injection Hn as <-. by exists id.
  - destruct (DecodeSystem.normalize id bits) eqn:E; [|discriminate Hn..]. injection Hn as <-. by exists id.
  - destruct (DecodeInteger.normalize id bits) eqn:E; [|discriminate Hn..]. injection Hn as <-. by exists id.
  - destruct (DecodeMemory.normalize id bits) eqn:E; [|discriminate Hn..]. injection Hn as <-. by exists id.
  - destruct (DecodeFpOperands.normalize id bits) as [[v f]| |] eqn:E; [|discriminate Hn..]. by injection Hn as <-.
Qed.

#[local] Opaque validate decode normalize.

Lemma in_one_of_coverage p q :
  p ∈ patterns -> q ∈ patterns -> p.(p_coverage_id) = q.(p_coverage_id) -> p = q.
Proof.
  destruct catalog_compiles as [t Ht]. apply compile_inv in Ht as (_ & Hv & _).
  exact (validate_pairs_unique patterns p q Hv).
Qed.

Lemma decode_from_catalog platform bits op :
  decode platform bits = Ok (Decoded op) \/ decode platform bits = Ok (DecodeRecognizedUnimplemented op) ->
  op.(o_bits) = bits /\ op.(o_pattern) ∈ patterns /\
  candidate validate bits op.(o_pattern) = true /\
  decode platform bits = Ok (outcome op.(o_pattern) bits).
Proof.
  intros Hd. rewrite decode_linear in *. unfold linear_decode in *.
  destruct (scan_first validate patterns
    (sort_by_priority (priority_at patterns) (seqZ 0 (Z.of_nat (length patterns)))) bits None)
    as [(l1 & i & l2 & p & _ & Hp & Hc & _ & Heq)|[_ [rej Heq]]].
  { intros i [Hi1 Hi2]%sort_by_priority_elem%elem_of_seqZ. apply lookup_lt_is_Some_2. lia. }
  - rewrite Heq in *. unfold outcome in *.
    assert (Hop : op = mkOpcode p bits) by (destruct (p.(p_decoder)); destruct Hd as [Hd|Hd]; congruence).
    subst op. cbn [o_bits o_pattern]. split; [reflexivity|]. split; [|split; [exact Hc|reflexivity]].
    eapply list_elem_of_lookup_2. exact Hp.
  - rewrite Heq in Hd. unfold finish in Hd. destruct rej as [[[[] ?] ?]|]; destruct Hd; congruence.
Qed.

(** No word makes the decoder panic. *)
Lemma decode_returns platform bits : exists r, decode platform bits = Ok r.
Proof.
  rewrite decode_linear. unfold linear_decode.
  destruct (scan_first validate patterns
    (sort_by_priority (priority_at patterns) (seqZ 0 (Z.of_nat (length patterns)))) bits None)
    as [(? & ? & ? & ? & _ & _ & _ & _ & Heq)|[_ [? Heq]]]; [|by eexists|by eexists].
  intros i [Hi1 Hi2]%sort_by_priority_elem%elem_of_seqZ. apply lookup_lt_is_Some_2. lia.
Qed.

Lemma catalog_routed op bits : op.(o_pattern) ∈ patterns -> candidate validate bits op.(o_pattern) = true -> exists i, normalize op bits = Ok i.
Proof.
  intros Hin Hc. unfold candidate, is_allocated in Hc. apply andb_true_iff in Hc as [_ Ha].
  pose proof (catalog_family op.(o_pattern) op.(o_bits) bits Hin ltac:(by destruct (validate _ _))) as Hf.
  destruct op as [p b]. cbn [o_pattern o_bits] in *.
  destruct (normalize (mkOpcode p b) bits) as [i|[]|]; [exists i; reflexivity|discriminate Hf].
Qed.

(** ** Claims *)

(** C33. Decoding the shipped catalog is total: on both platforms every word is
    classified without a panic, the table is accepted by [compile], and a word
    reported as decoded belongs to a ready catalog entry that it matches and
    that is allocated, for which [normalize] finds the family. *)
Theorem decode_total platform bits :
  exists r, decode platform bits = Ok r /\
    forall op, r = Decoded op ->
      op.(o_bits) = bits /\ op.(o_pattern) ∈ patterns /\ op.(o_pattern).(p_decoder) = Ready /\
      Z.land bits op.(o_pattern).(p_mask) = op.(o_pattern).(p_value) /\
      validate op.(o_pattern).(p_coverage_id) bits = Allocated /\
      exists i, normalize op bits = Ok i.
Proof.
  destruct (decode_returns platform bits) as [r Hr]. exists r. split; [exact Hr|]. intros op ->.
  destruct (decode_from_catalog platform bits op (or_introl Hr)) as (Hb & Hin & Hc & Ho).
  unfold candidate, matches, is_allocated in Hc. apply andb_true_iff in Hc as [Hm Ha].
  split; [exact Hb|]. split; [exact Hin|]. split; [|split; [|split]].
  - rewrite Hr in Ho. unfold outcome in Ho.
    destruct (op.(o_pattern).(p_decoder)); [reflexivity|discriminate Ho].
  - apply Z.eqb_eq, Hm.
  - destruct (validate _ _); [reflexivity|discriminate Ha|discriminate Ha].
  - apply catalog_routed; [done|]. unfold candidate, matches, is_allocated. by rewrite Hm, Ha.
Qed.

(** Every catalog entry has a regression fixture, and decoding that fixture
    on either platform returns that very entry with its support level: no entry
    is shadowed by another one or rejected by the allocation rules. *)
Theorem catalog_fixtures_decode platform p :
  p ∈ patterns ->
  exists bits, p.(p_regression_fixture) = Some bits /\ decode platform bits = Ok (outcome p bits).
Proof.
  intros Hp. pose proof catalog_fixtures as Hall. rewrite forallb_forall in Hall.
  specialize (Hall p ltac:(by apply list_elem_of_In)). unfold fixture_decodes in Hall.
  destruct (p.(p_regression_fixture)) as [bits|]; [|discriminate Hall].
  exists bits. split; [reflexivity|].
  rewrite <- (decode_scan platform) in Hall.
  destruct (decode platform bits) as [[op| | |op]| |] eqn:Hd; try discriminate Hall.
  1: destruct (decode_from_catalog platform bits op (or_introl Hd)) as (Hb & Hin & _ & Ho).
  2: destruct (decode_from_catalog platform bits op (or_intror Hd)) as (Hb & Hin & _ & Ho).
  all: rewrite <- Hd, Ho; do 2 f_equal; apply in_one_of_coverage; [exact Hin|exact Hp|];
    apply andb_true_iff in Hall as [Hid _]; apply andb_true_iff in Hid as [Hid _]; apply Z.eqb_eq, Hid.
Qed.

Lemma catalog_fixtures_decode_witness :
  exists p bits, p ∈ patterns /\ p.(p_regression_fixture) = Some bits /\
    decode Switch1 bits = Ok (outcome p bits).
Proof.
  set (p := fixture32 0xd503201f (pattern "nop" 0xffffffff 0xd503201f 0x1 200 [])).
  assert (Hp : p ∈ patterns) by (unfold patterns; apply list_elem_of_here).
  destruct (catalog_fixtures_decode Switch1 p Hp) as (bits & Hf & Hd).
  exists p, bits. split; [exact Hp|]. split; [exact Hf|exact Hd].
Defined.
