(* ===== verification/SimdInteger.v ===== *)
(** * Integer Advanced SIMD operations (crates/cpu/src/semantics/a64_fp_simd.rs)

    Moves, duplications, immediates, lane arithmetic, comparisons, permutations,
    shifts and reductions.  Every operation reads its sources from the register
    file, computes with unsigned 128-bit integers, and writes one register; a
    failed [assert!], [expect] or [unreachable!], and a shift by the width of its
    type or more, is a panic. *)

From S2P Require Import Prelude CpuBits CpuArith CpuState CpuVector Bytes DecodeAllocation DecodeFpOperands.

Inductive A64FpSimdError := Trap | UnsupportedFpSimd.

Notation FS := (SM A64State A64FpSimdError).

(** [state.vector(index).expect(..)] *)
Definition vec (index : Z) : FS Z := fun s =>
  match vector_value s index with Some v => (Ok v, s) | None => (Panic, s) end.

(** [assert!(state.set_vector(index, value))] *)
Definition put (index value : Z) : FS unit := fun s =>
  let '(s, ok) := set_vector s index value in (if ok then Ok tt else Panic, s).

(** [state.set_vector(index, value);] *)
Definition put_unchecked (index value : Z) : FS unit := fun s => (Ok tt, (set_vector s index value).1).

(** What must hold for the code to go on: the bound of a shift, an assertion. *)
Definition check (b : bool) : FS unit := if b then ret tt else panic.

(** [read] and [write] of the provider: they never address SP. *)
Definition read_general (index width : Z) : FS Z := fun s => (Ok (read s index width false), s).
Definition write_general (index width value : Z) : FS unit := fun s => (Ok tt, write s index width false value).

Definition vector_bits (f : Operands) : Z := if f.(vector_128) then 128 else 64.
Definition active_mask (f : Operands) : Z := if f.(vector_128) then umax 128 else umax 64.

(** [8 << size] *)
Definition lane_width (f : Operands) : Z := Z.shiftl 8 f.(opc).

(** [sign_extend(lane as u64, bits)]: [signed_immediate] of semantics/a64.rs. *)
Definition sign_extend_lane (value bits : Z) : Z := signed_immediate value bits.

(** The precision of the scalar moves. *)
Definition scalar_width (f : Operands) : FS Z :=
  match f.(opc) with 0 => ret 32 | 1 => ret 64 | 3 => ret 16 | _ => panic end.

Definition scalar_move (f : Operands) : FS unit :=
  let! width := scalar_width f in
  let mask := shl 128 1 width - 1 in
  let! source := vec f.(rn) in
  put f.(rd) (Z.land source mask).

Definition scalar_sign_operation (f : Operands) (negate : bool) : FS unit :=
  let! width := scalar_width f in
  let mask := shl 128 1 width - 1 in
  let sign := shl 128 1 (width - 1) in
  let! source := vec f.(rn) in
  let source := Z.land source mask in
  put f.(rd) (if negate then Z.lxor source sign else Z.land source (unot 128 sign)).

Definition vector_float_sign_operation (f : Operands) (negate : bool) : FS unit :=
  let bits := if Z.land f.(opc) 1 =? 0 then 32 else 64 in
  let sign := shl 128 1 (bits - 1) in
  let! source := vec f.(rn) in
  put f.(rd) (gather (vector_bits f / bits) bits (fun i =>
    let lane := masked_lane source bits i in
    if negate then Z.lxor lane sign else Z.land lane (unot 128 sign))).

Definition duplicate_general (f : Operands) : FS unit :=
  let shift := trailing_zeros_8 f.(immediate_5) in
  do! check (shift <? 8) in
  let bits := shl 8 8 shift in
  let! source := read_general f.(rn) bits in
  let! lane := expect_ok (BitWidth_new bits) in
  let! width := expect_ok (BitWidth_new (vector_bits f)) in
  let! value := expect_ok (replicate source lane width) in
  put f.(rd) value.

Definition duplicate_element (f : Operands) (scalar : bool) : FS unit :=
  let size_shift := trailing_zeros_8 f.(immediate_5) in
  let bits := Z.shiftl 8 size_shift in
  do! check (size_shift + 1 <? 8) in
  let lane := shr f.(immediate_5) (size_shift + 1) in
  let! source := vec f.(rn) in
  do! check ((lane * bits <? 128) && (bits <? 128)) in
  let element := Z.land (shr source (lane * bits)) (lane_mask bits) in
  let! value :=
    if scalar then ret element
    else let! width := expect_ok (BitWidth_new bits) in
         let! destination := expect_ok (BitWidth_new (vector_bits f)) in
         expect_ok (replicate element width destination) in
  put f.(rd) value.

(** [expand_modified_immediate]; [None] is its [unreachable!]. *)
Definition expand_modified_immediate (cmode immediate : Z) (operation_bit : bool) : option Z :=
  let value :=
    if cmode <=? 7 then
      let lane := shl 64 immediate (shr cmode 1 * 8) in Some (Z.lor lane (shl 64 lane 32))
    else if cmode <=? 11 then
      let lane := shl 64 immediate (Z.land (shr cmode 1) 1 * 8) in
      Some (Z.lor (Z.lor (Z.lor lane (shl 64 lane 16)) (shl 64 lane 32)) (shl 64 lane 48))
    else if cmode =? 12 then
      let lane := Z.lor (shl 64 immediate 8) 0xff in Some (Z.lor lane (shl 64 lane 32))
    else if cmode =? 13 then
      let lane := Z.lor (shl 64 immediate 16) 0xffff in Some (Z.lor lane (shl 64 lane 32))
    else if cmode =? 14 then
      if negb operation_bit then Some (immediate * 0x0101010101010101)
      else Some (fold_left (fun result bit =>
             if negb (Z.land immediate (Z.shiftl 1 bit) =? 0) then Z.lor result (shl 64 0xff (bit * 8)) else result)
             (seqZ 0 8) 0)
    else None in
  option_map (fun v => if operation_bit && negb (cmode =? 14) then unot 64 v else v) value.

Definition modified_immediate (f : Operands) : FS unit :=
  let! immediate := expect (expand_modified_immediate f.(cmode) f.(immediate_8) f.(operation_bit)) in
  let replicated := Z.lor immediate (shl 128 immediate 64) in
  let! previous := vec f.(rd) in
  let value :=
    if (f.(cmode) <=? 11) && negb (Z.land f.(cmode) 1 =? 0) then
      if f.(operation_bit) then Z.land previous replicated else Z.lor previous replicated
    else replicated in
  put f.(rd) (Z.land value (active_mask f)).

Definition unsigned_move_to_general (f : Operands) : FS unit :=
  let size_shift := trailing_zeros_8 f.(immediate_5) in
  let! width :=
    match size_shift with
    | 0 => ret Bits8 | 1 => ret Bits16 | 2 => ret Bits32 | 3 => ret Bits64 | _ => panic
    end in
  let lane := shr f.(immediate_5) (size_shift + 1) in
  let! arrangement := expect_ok (VectorArrangement_new 128 width) in
  let! vector := vec f.(rn) in
  let! value := expect_ok (extract_lane vector arrangement lane) in
  write_general f.(rd) (if f.(vector_128) then 64 else 32) value.

(** [insert_lane_shape]: the lane width and the destination lane. *)
Definition insert_lane_shape (immediate_5 : Z) : FS (Z * Z) :=
  let size_shift := trailing_zeros_8 immediate_5 in
  do! check (size_shift + 1 <? 8) in
  ret (Z.shiftl 8 size_shift, shr immediate_5 (size_shift + 1)).

Definition insert_lane (register lane bits value : Z) : FS unit :=
  let shift := lane * bits in
  do! check ((shift <? 128) && (bits <? 128)) in
  let mask := lane_mask bits in
  let! previous := vec register in
  put register (Z.lor (Z.land previous (unot 128 (shl 128 mask shift))) (shl 128 (Z.land value mask) shift)).

Definition insert_element (f : Operands) : FS unit :=
  let! shape := insert_lane_shape f.(immediate_5) in
  let '(bits, destination_lane) := shape in
  let size_shift := Z.log2 bits - 3 in
  let source_lane := shr f.(immediate_4) size_shift in
  do! check ((source_lane * bits <? 128) && (bits <? 128)) in
  let! source := vec f.(rn) in
  let lane := Z.land (shr source (source_lane * bits)) (lane_mask bits) in
  insert_lane f.(rd) destination_lane bits lane.

Definition insert_general (f : Operands) : FS unit :=
  let! shape := insert_lane_shape f.(immediate_5) in
  let '(bits, destination_lane) := shape in
  let! lane := read_general f.(rn) (wrap 8 bits) in
  insert_lane f.(rd) destination_lane bits lane.

Definition floating_move_to_general (f : Operands) : FS unit :=
  let! vector := vec f.(rn) in
  match negb (Z.land f.(size) 2 =? 0), f.(opc) with
  | false, 0 => write_general f.(rd) 32 (wrap 64 vector)
  | false, 3 => write_general f.(rd) 32 (wrap 16 vector)
  | true, 1 => write_general f.(rd) 64 (wrap 64 vector)
  | true, 2 => write_general f.(rd) 64 (wrap 64 (shr vector 64))
  | _, _ => panic
  end.

Definition floating_move_from_general (f : Operands) : FS unit :=
  let general_64 := negb (Z.land f.(size) 2 =? 0) in
  let! value := read_general f.(rn) (if general_64 then 64 else 32) in
  let! vector :=
    match general_64, f.(opc) with
    | false, 0 => ret (wrap 32 value)
    | false, 3 => ret (wrap 16 value)
    | true, 1 => ret value
    | true, 2 => let! previous := vec f.(rd) in ret (Z.lor (Z.land previous (umax 64)) (shl 128 value 64))
    | _, _ => panic
    end in
  put f.(rd) vector.

Definition expand_vfp_immediate (immediate exponent_bits fraction_bits : Z) : Z :=
  let sign := shr immediate 7 in
  let exponent_control := Z.land (shr immediate 6) 1 in
  let exponent_tail := Z.land (shr immediate 4) 3 in
  let fraction_head := Z.land immediate 0xf in
  let sign_shift := exponent_bits + fraction_bits in
  let repeated_count := exponent_bits - 3 in
  let repeated := if exponent_control =? 0 then 0 else shl 64 1 repeated_count - 1 in
  Z.lor (Z.lor (Z.lor (Z.lor (shl 64 sign sign_shift) (shl 64 (Z.lxor exponent_control 1) (sign_shift - 1)))
    (shl 64 repeated (fraction_bits + 2))) (shl 64 exponent_tail fraction_bits)) (shl 64 fraction_head (fraction_bits - 4)).

Definition scalar_float_immediate (f : Operands) : FS unit :=
  let! shape := match f.(opc) with 0 => ret (8, 23) | 1 => ret (11, 52) | 3 => ret (5, 10) | _ => panic end in
  put f.(rd) (expand_vfp_immediate f.(fp_immediate_8) shape.1 shape.2).

Definition vector_float_immediate (f : Operands) : FS unit :=
  let '(lane, bits) :=
    if f.(operation_bit) then (expand_vfp_immediate f.(immediate_8) 11 52, 64)
    else (expand_vfp_immediate f.(immediate_8) 8 23, 32) in
  let! width := expect_ok (BitWidth_new bits) in
  let! destination := expect_ok (BitWidth_new (vector_bits f)) in
  let! value := expect_ok (replicate lane width destination) in
  put f.(rd) value.

Definition integer_arithmetic (f : Operands) (multiply : bool) : FS unit :=
  let bits := lane_width f in
  let! lhs := vec f.(rn) in
  let! rhs := vec f.(rm) in
  put f.(rd) (gather (vector_bits f / bits) bits (fun i =>
    let lhs := masked_lane lhs bits i in let rhs := masked_lane rhs bits i in
    Z.land (wrap 128 (if multiply then lhs * rhs else if f.(subtract) then lhs - rhs else lhs + rhs)) (lane_mask bits))).

Definition integer_sign (f : Operands) (scalar : bool) : FS unit :=
  let width := lane_width f in
  let active := if negb scalar && f.(vector_128) then 128 else 64 in
  let! source := vec f.(rn) in
  put f.(rd) (gather (active / width) width (fun i =>
    let value := masked_lane source width i in
    if f.(operation_bit) || bit_set value (shl 128 1 (width - 1))
    then Z.land (wrap 128 (- value)) (lane_mask width) else value)).

Definition integer_add_wide (f : Operands) : FS unit :=
  let narrow := lane_width f in
  let wide := narrow * 2 in
  do! check (wide <? 128) in
  let! lhs := vec f.(rn) in
  let! rhs := vec f.(rm) in
  let first := if f.(vector_128) then 64 else 0 in
  put f.(rd) (gather (128 / wide) wide (fun i =>
    let value := Z.land (shr rhs (first + i * narrow)) (lane_mask narrow) in
    let value := if f.(operation_bit) then value else wrap 128 (sign_extend_lane value narrow) in
    Z.land (wrap 128 (masked_lane lhs wide i + value)) (lane_mask wide))).

Definition reduce_pair (operation : PairwiseOperation) (bits lhs rhs : Z) : Z :=
  match operation with
  | PAdd => Z.land (wrap 128 (lhs + rhs)) (lane_mask bits)
  | PSignedMaximum => if sign_extend_lane rhs bits <=? sign_extend_lane lhs bits then lhs else rhs
  | PSignedMinimum => if sign_extend_lane lhs bits <=? sign_extend_lane rhs bits then lhs else rhs
  | PUnsignedMaximum => Z.max lhs rhs
  | PUnsignedMinimum => Z.min lhs rhs
  end.

(** The two loops over the sources are one loop over the destination lanes. *)
Definition integer_pairwise (f : Operands) (operation : PairwiseOperation) : FS unit :=
  let bits := lane_width f in
  let! first := vec f.(rn) in
  let! second := vec f.(rm) in
  let lanes_per_source := vector_bits f / bits in
  let half := lanes_per_source / 2 in
  put f.(rd) (gather (2 * half) bits (fun i =>
    let source := if i <? half then first else second in
    let pair := if i <? half then i else i - half in
    reduce_pair operation bits (masked_lane source bits (2 * pair)) (masked_lane source bits (2 * pair + 1)))).

Definition integer_min_max_across (f : Operands) : FS unit :=
  let width := lane_width f in
  let! source := vec f.(rn) in
  let! operation := expect f.(pairwise_operation_of) in
  let signed := match operation with PSignedMaximum | PSignedMinimum => true | _ => false end in
  let minimum := match operation with PSignedMinimum | PUnsignedMinimum => true | _ => false end in
  let result := fold_left (fun result i =>
    let value := masked_lane source width i in
    let less := if signed then sign_extend_lane value width <? sign_extend_lane result width else value <? result in
    if Bool.eqb less minimum then value else result)
    (seqZ 1 (vector_bits f / width - 1)) (masked_lane source width 0) in
  put f.(rd) result.

Definition integer_min_max (f : Operands) (operation : PairwiseOperation) : FS unit :=
  let bits := lane_width f in
  let! lhs := vec f.(rn) in
  let! rhs := vec f.(rm) in
  do! check (match operation with PAdd => false | _ => true end) in
  put f.(rd) (gather (vector_bits f / bits) bits (fun i =>
    reduce_pair operation bits (masked_lane lhs bits i) (masked_lane rhs bits i))).

Definition table_lookup (f : Operands) (extend : bool) : FS unit :=
  let! indices := vec f.(rm) in
  let! table0 := vec (Z.land (wrap 8 f.(rn)) 31) in
  let! table1 := vec (Z.land (wrap 8 (f.(rn) + 1)) 31) in
  let! table2 := vec (Z.land (wrap 8 (f.(rn) + 2)) 31) in
  let! table3 := vec (Z.land (wrap 8 (f.(rn) + 3)) 31) in
  let! previous := vec f.(rd) in
  let table := [table0; table1; table2; table3] in
  let byte i :=
    let index := lane_at indices 8 i in
    if index <? f.(table_register_count) * 16
    then wrap 8 (shr (default 0 (table !! Z.to_nat (index / 16))) (index mod 16 * 8))
    else if extend then lane_at previous 8 i else 0 in
  do! check (f.(table_register_count) <=? 4) in
  put_unchecked f.(rd) (gather (if f.(vector_128) then 16 else 8) 8 byte).

(** The source and the lane that [permute_two_source] copies to a lane. *)
Definition permute_source (operation : PermuteOperation) (half destination_lane : Z) : bool * Z :=
  match operation with
  | UnzipPrimary | UnzipSecondary =>
      let odd := match operation with UnzipSecondary => 1 | _ => 0 end in
      if destination_lane <? half then (false, destination_lane * 2 + odd)
      else (true, (destination_lane - half) * 2 + odd)
  | TransposePrimary | TransposeSecondary =>
      let odd := match operation with TransposeSecondary => 1 | _ => 0 end in
      (negb (Z.land destination_lane 1 =? 0), destination_lane / 2 * 2 + odd)
  | ZipPrimary | ZipSecondary =>
      let upper := match operation with ZipSecondary => 1 | _ => 0 end in
      (negb (Z.land destination_lane 1 =? 0), destination_lane / 2 + upper * half)
  end.

Definition permute_two_source (f : Operands) (operation : PermuteOperation) : FS unit :=
  let bits := lane_width f in
  let count := vector_bits f / bits in
  let half := count / 2 in
  let! first := vec f.(rn) in
  let! second := vec f.(rm) in
  put f.(rd) (gather count bits (fun i =>
    let '(from_second, source_lane) := permute_source operation half i in
    masked_lane (if from_second then second else first) bits source_lane)).

Definition extract_vector (f : Operands) : FS unit :=
  let byte_count := if f.(vector_128) then 16 else 8 in
  let offset := f.(immediate_4) in
  let! first := vec f.(rn) in
  let! second := vec f.(rm) in
  put f.(rd) (gather byte_count 8 (fun i =>
    let source_byte := i + offset in
    Z.land (if source_byte <? byte_count then shr first (source_byte * 8) else shr second ((source_byte - byte_count) * 8)) 0xff)).

(** [8 << (31 - immediate_high.leading_zeros())]; no bit set underflows. *)
Definition immediate_lane_bits (immediate_high : Z) : FS Z :=
  do! check (0 <? immediate_high) in ret (Z.shiftl 8 (Z.log2 immediate_high)).

Definition shift_right_narrow (f : Operands) : FS unit :=
  let immediate_high := shr f.(shift_immediate) 3 in
  let immediate_low := Z.land f.(shift_immediate) 7 in
  let! destination_bits := immediate_lane_bits immediate_high in
  let source_bits := destination_bits * 2 in
  let immediate := Z.lor (Z.shiftl immediate_high 3) immediate_low in
  do! check ((immediate <=? source_bits) && (destination_bits <? 128)) in
  let shift := source_bits - immediate in
  let! source := vec f.(rn) in
  do! check (shift <? 128) in
  let narrowed := gather (128 / source_bits) destination_bits (fun i =>
    Z.land (shr (shr source (i * source_bits)) shift) (lane_mask destination_bits)) in
  let! result :=
    if f.(vector_128) then let! previous := vec f.(rd) in ret (Z.lor (Z.land previous (umax 64)) (shl 128 narrowed 64))
    else ret narrowed in
  put f.(rd) result.

(** An arithmetic shift right of a negative lane, through [i128]. *)
Definition shift_right_lane (value shift bits : Z) (signed : bool) : Z :=
  if signed && bit_set value (shl 128 1 (bits - 1))
  then wrap 128 (Z.shiftr (to_signed 128 (Z.lor value (unot 128 (lane_mask bits)))) shift)
  else shr value shift.

Definition shift_right_immediate (f : Operands) (scalar : bool) : FS unit :=
  let immediate := f.(shift_immediate) in
  let! bits := immediate_lane_bits (shr immediate 3) in
  do! check ((immediate <=? 2 * bits) && (bits <? 128)) in
  let shift := 2 * bits - immediate in
  let active_bits := if scalar || negb f.(vector_128) then 64 else 128 in
  let! source := vec f.(rn) in
  let! accumulator := vec f.(rd) in
  do! check (shift <? 128) in
  put f.(rd) (gather (active_bits / bits) bits (fun i =>
    let shifted := shift_right_lane (masked_lane source bits i) shift bits (negb f.(operation_bit)) in
    let value := if f.(shift_accumulate) then wrap 128 (shifted + masked_lane accumulator bits i) else shifted in
    Z.land value (lane_mask bits))).

Definition shift_left_immediate (f : Operands) (scalar : bool) : FS unit :=
  let immediate := f.(shift_immediate) in
  let! bits := immediate_lane_bits (shr immediate 3) in
  do! check ((bits <=? immediate) && (bits <? 128)) in
  let shift := immediate - bits in
  let active_bits := if scalar || negb f.(vector_128) then 64 else 128 in
  let! source := vec f.(rn) in
  put f.(rd) (gather (active_bits / bits) bits (fun i =>
    Z.land (shl 128 (masked_lane source bits i) shift) (lane_mask bits))).

(** [(1_u128 << bits) - 1]: a shift by 128 panics in a build with overflow checks,
    and is a shift by zero in one without them. *)
Definition wide_lane_mask (overflow_checks : bool) (bits : Z) : FS Z :=
  if bits <? 128 then ret (lane_mask bits) else if overflow_checks then panic else ret (lane_mask (bits mod 128)).

Definition shift_left_long (overflow_checks : bool) (f : Operands) : FS unit :=
  let immediate := f.(shift_immediate) in
  let! source_bits := immediate_lane_bits (shr immediate 3) in
  let destination_bits := source_bits * 2 in
  do! check (source_bits <=? immediate) in
  let shift := immediate - source_bits in
  let! destination_mask := wide_lane_mask overflow_checks destination_bits in
  let first_source_bit := if f.(vector_128) then 64 else 0 in
  let! source := vec f.(rn) in
  put f.(rd) (gather (64 / source_bits) destination_bits (fun i =>
    let value := Z.land (shr source (first_source_bit + i * source_bits)) (lane_mask source_bits) in
    let extended := if negb f.(operation_bit) && bit_set value (shl 128 1 (source_bits - 1))
                    then Z.lor value (unot 128 (lane_mask source_bits)) else value in
    Z.land (shl 128 extended shift) destination_mask)).

(** [shift_lane]: [distance] is an [i8]. *)
Definition shift_lane (value distance bits : Z) (signed : bool) : Z :=
  if 0 <=? distance then
    if bits <=? distance then 0 else Z.land (shl 128 value distance) (lane_mask bits)
  else
    let distance := - distance in
    if signed && bit_set value (shl 128 1 (bits - 1)) then
      if bits <=? distance then lane_mask bits
      else Z.land (wrap 128 (Z.shiftr (to_signed 128 (Z.lor value (unot 128 (lane_mask bits)))) distance)) (lane_mask bits)
    else if bits <=? distance then 0
    else shr value distance.

Definition shift_register (f : Operands) (signed : bool) : FS unit :=
  let bits := lane_width f in
  let! values := vec f.(rn) in
  let! shifts := vec f.(rm) in
  put f.(rd) (gather (vector_bits f / bits) bits (fun i =>
    shift_lane (masked_lane values bits i) (to_signed 8 (Z.land (shr shifts (i * bits)) 0xff)) bits signed)).

Definition reverse_elements (f : Operands) (container_bytes : Z) : FS unit :=
  let element_bytes := Z.shiftl 1 f.(opc) in
  let! source := vec f.(rn) in
  do! check (element_bytes <=? container_bytes) in
  put f.(rd) (gather (if f.(vector_128) then 16 else 8) 8 (fun index =>
    let container := index / container_bytes * container_bytes in
    let element := index mod container_bytes / element_bytes in
    lane_at source 8 (container + (container_bytes / element_bytes - 1 - element) * element_bytes + index mod element_bytes))).

(** [count_ones] of a byte. *)
Definition count_ones_8 (v : Z) : Z := fold_left (fun n k => n + b2z (Z.testbit v k)) (seqZ 0 8) 0.

Definition count_bits (f : Operands) : FS unit :=
  let! source := vec f.(rn) in
  put f.(rd) (gather (if f.(vector_128) then 16 else 8) 8 (fun i => count_ones_8 (Z.land (shr source (i * 8)) 0xff))).

Definition add_across_vector (f : Operands) (widen : bool) : FS unit :=
  let bits := lane_width f in
  let result_bits := if widen then bits * 2 else bits in
  do! check (result_bits <? 128) in
  let! source := vec f.(rn) in
  let result := fold_left (fun result i => result + masked_lane source bits i) (seqZ 0 (vector_bits f / bits)) 0 in
  put f.(rd) (Z.land result (lane_mask result_bits)).

Definition extract_narrow (f : Operands) : FS unit :=
  let destination_bits := lane_width f in
  let source_bits := destination_bits * 2 in
  let! source := vec f.(rn) in
  let! previous := vec f.(rd) in
  let narrowed := gather (128 / source_bits) destination_bits (fun i =>
    Z.land (shr source (i * source_bits)) (lane_mask destination_bits)) in
  put f.(rd) (if f.(vector_128) then Z.lor (Z.land previous (umax 64)) (shl 128 narrowed 64) else narrowed).

Definition bitwise (f : Operands) (operation : BitwiseOperation) : FS unit :=
  let! first := vec f.(rn) in
  let! second := vec f.(rm) in
  let! destination := vec f.(rd) in
  let result :=
    match operation with
    | BNot => unot 128 first
    | BAnd => Z.land first second
    | BBitClear => Z.land first (unot 128 second)
    | BOr => Z.lor first second
    | BOrNot => Z.lor first (unot 128 second)
    | BExclusiveOr => Z.lxor first second
    | BSelect => Z.lor (Z.land destination first) (Z.land (unot 128 destination) second)
    | BInsertIfTrue => Z.lor (Z.land destination (unot 128 second)) (Z.land first second)
    | BInsertIfFalse => Z.lor (Z.land destination second) (Z.land first (unot 128 second))
    end in
  put f.(rd) (Z.land result (active_mask f)).

Definition compare_lanes (comparison : IntegerComparison) (bits lhs rhs : Z) : bool :=
  match comparison with
  | SignedGreaterThan => sign_extend_lane rhs bits <? sign_extend_lane lhs bits
  | UnsignedGreaterThan => rhs <? lhs
  | SignedGreaterThanOrEqual => sign_extend_lane rhs bits <=? sign_extend_lane lhs bits
  | UnsignedGreaterThanOrEqual => rhs <=? lhs
  | SignedLessThan => sign_extend_lane lhs bits <? sign_extend_lane rhs bits
  | SignedLessThanOrEqual => sign_extend_lane lhs bits <=? sign_extend_lane rhs bits
  | NonzeroBitTest => negb (Z.land lhs rhs =? 0)
  | Equal => lhs =? rhs
  end.

Definition integer_compare (f : Operands) (comparison : IntegerComparison) (scalar : bool) : FS unit :=
  let bits := lane_width f in
  let vector_bits := if negb scalar && f.(vector_128) then 128 else 64 in
  let! lhs := vec f.(rn) in
  let! rhs := if f.(compare_with_zero) then ret 0 else vec f.(rm) in
  put f.(rd) (gather (vector_bits / bits) bits (fun i =>
    if compare_lanes comparison bits (masked_lane lhs bits i) (masked_lane rhs bits i) then lane_mask bits else 0)).
