(* ===== verification/SimdSpec.v ===== *)
(** * The vector register file under the SIMD operations

    Reading and writing whole vector registers, the weakest preconditions of the
    register accesses of [SimdInteger], and the tactic that runs an operation. *)

From S2P Require Import Prelude CpuBits CpuArith CpuState CpuVector DecodeAllocation DecodeFpOperands SimdInteger DecodeTable.

(** The value of a vector register, and the state with one replaced. *)
Definition vreg (s : A64State) (i : Z) : Z := default 0 (vector_value s i).
Definition vset (s : A64State) (i v : Z) : A64State := (set_vector s i v).1.

Lemma join_lanes_range lo hi : in_range 64 lo -> in_range 64 hi -> in_range 128 (Z.lor lo (shl 128 hi 64)).
Proof.
  intros Hl Hh. apply in_range_lor; [lia| |unfold shl; apply wrap_range; lia]. by apply (in_range_le 64); [lia|].
Qed.

Lemma shl_join hi : in_range 64 hi -> shl 128 hi 64 = hi * 2 ^ 64.
Proof. intros [H1 H2]. unfold shl. rewrite Z.shiftl_mul_pow2 by lia. apply wrap_small. split; [lia|]. change (2 ^ 128) with (2 ^ 64 * 2 ^ 64). nia. Qed.

Lemma split_join v : in_range 128 v -> Z.lor (wrap 64 v) (shl 128 (wrap 64 (shr v 64)) 64) = v.
Proof.
  intros Hv. apply Z.bits_inj'. intros k Hk. rewrite Z.lor_spec. unfold shl. rewrite !testbit_wrap by lia.
  destruct (Z.ltb_spec k 64); cbn [andb orb].
  - rewrite Z.shiftl_spec_low by lia. rewrite andb_false_r. apply orb_false_r.
  - rewrite Z.shiftl_spec by lia. destruct (Z.ltb_spec k 128); cbn [andb]; [|symmetry; by apply (testbit_high 128)].
    rewrite testbit_wrap by lia. rewrite (proj2 (Z.ltb_lt _ _)) by lia. unfold shr. rewrite Z.shiftr_spec by lia. cbn [andb]. f_equal. lia.
Qed.

Lemma vector_value_ok s i : state_ok s -> 0 <= i < 32 -> vector_value s i = Some (vreg s i) /\ in_range 128 (vreg s i).
Proof.
  intros Hs Hi. unfold vreg, vector_value. assert (Hlt : (Z.to_nat i < length s.(vector))%nat) by (rewrite (ok_vector_len s Hs); lia).
  destruct (lookup_lt_is_Some_2 _ _ Hlt) as [[lo hi] Hv]. rewrite Hv. cbn. split; [done|].
  pose proof (ok_vector s Hs) as Hall. rewrite Forall_lookup in Hall. destruct (Hall _ _ Hv). by apply join_lanes_range.
Qed.

Lemma set_vector_ok s i v : state_ok s -> 0 <= i < 32 -> set_vector s i v = (vset s i v, true).
Proof.
  intros Hs Hi. unfold vset, set_vector. assert (Hlt : (Z.to_nat i < length s.(vector))%nat) by (rewrite (ok_vector_len s Hs); lia).
  destruct (lookup_lt_is_Some_2 _ _ Hlt) as [l Hl]. by rewrite Hl.
Qed.

Lemma vset_ok s i v : state_ok s -> state_ok (vset s i v).
Proof.
  intros Hs. unfold vset, set_vector. destruct (s.(vector) !! Z.to_nat i); [|done]. destruct Hs. split; cbn; try done.
  - by rewrite length_insert.
  - apply Forall_insert; [done|]. split; apply wrap_range; lia.
Qed.

Lemma vreg_vset s i v : state_ok s -> 0 <= i < 32 -> in_range 128 v -> vreg (vset s i v) i = v.
Proof.
  intros Hs Hi Hv. unfold vset, set_vector, vreg, vector_value.
  assert (Hlt : (Z.to_nat i < length s.(vector))%nat) by (rewrite (ok_vector_len s Hs); lia).
  destruct (lookup_lt_is_Some_2 _ _ Hlt) as [l Hl]. rewrite Hl. cbn. rewrite list_lookup_insert_eq by done. cbn. by apply split_join.
Qed.

Lemma vreg_vset_ne s i j v : 0 <= i -> 0 <= j -> i <> j -> vreg (vset s i v) j = vreg s j.
Proof.
  intros Hi Hj Hne. unfold vset, set_vector, vreg, vector_value. destruct (s.(vector) !! Z.to_nat i); [|done]. cbn.
  by rewrite list_lookup_insert_ne by lia.
Qed.

(** ** Register accesses *)

Lemma wp_vec {B} i (k : Z -> FS B) (Q : B -> A64State -> Prop) (R : A64FpSimdError -> A64State -> Prop) s :
  state_ok s -> 0 <= i < 32 -> (in_range 128 (vreg s i) -> wp (k (vreg s i)) Q R s) -> wp (let! v := vec i in k v) Q R s.
Proof. intros Hs Hi Hk. destruct (vector_value_ok s i Hs Hi) as [Hv Hr]. apply wp_bind. unfold wp, vec. rewrite Hv. by apply Hk. Qed.

Lemma wp_put i v (Q : unit -> A64State -> Prop) (R : A64FpSimdError -> A64State -> Prop) s :
  state_ok s -> 0 <= i < 32 -> Q tt (vset s i v) -> wp (put i v) Q R s.
Proof. intros Hs Hi Hq. unfold wp, put. by rewrite set_vector_ok. Qed.

Lemma wp_check {B} (b : bool) (k : FS B) (Q : B -> A64State -> Prop) (R : A64FpSimdError -> A64State -> Prop) s :
  b = true -> wp k Q R s -> wp (do! check b in k) Q R s.
Proof. intros -> Hk. apply wp_bind. exact Hk. Qed.

Lemma wp_read_general {B} i width (k : Z -> FS B) (Q : B -> A64State -> Prop) (R : A64FpSimdError -> A64State -> Prop) s :
  wp (k (read s i width false)) Q R s -> wp (let! v := read_general i width in k v) Q R s.
Proof. intros Hk. by apply wp_bind. Qed.

Lemma wp_write_general i width v (Q : unit -> A64State -> Prop) (R : A64FpSimdError -> A64State -> Prop) s :
  Q tt (write s i width false v) -> wp (write_general i width v) Q R s.
Proof. done. Qed.

Lemma wp_some {A B} (o : option A) a (k : A -> FS B) (Q : B -> A64State -> Prop) (R : A64FpSimdError -> A64State -> Prop) s :
  o = Some a -> wp (k a) Q R s -> wp (let! v := expect o in k v) Q R s.
Proof. intros -> Hk. by apply wp_bind. Qed.

Lemma wp_ok {F A B} (r : Result F A) a (k : A -> FS B) (Q : B -> A64State -> Prop) (R : A64FpSimdError -> A64State -> Prop) s :
  r = Ok a -> wp (k a) Q R s -> wp (let! v := expect_ok r in k v) Q R s.
Proof. intros -> Hk. by apply wp_bind. Qed.

(** Run an operation as far as its register accesses go. *)
Ltac simd_step :=
  match goal with
  | |- wp (bind (vec _) _) _ _ _ => apply wp_vec; [assumption|first [assumption|lia]|intros ?]
  | |- wp (bind (read_general _ _) _) _ _ _ => apply wp_read_general
  | |- wp (bind (check _) _) _ _ _ => apply wp_check
  | |- wp (put _ _) _ _ _ => apply wp_put; [assumption|first [assumption|lia]|]
  | |- wp (bind (ret _) _) _ _ _ => apply wp_bind, wp_ret
  end.

(** * The integer SIMD operations are total on allocated shapes, and what they compute

    Every operation of [SimdInteger] runs to completion on the operand shapes
    that allocated words have, and writes exactly its destination register; the
    lane-wise operations compute the architectural function of each lane. *)

(** The ranges of the normalized fields. *)
Record operands_ok (f : Operands) : Prop := {
  fr_rd : 0 <= f.(rd) < 32;
  fr_rn : 0 <= f.(rn) < 32;
  fr_rm : 0 <= f.(rm) < 32;
  fr_ra : 0 <= f.(ra) < 32;
  fr_rt2 : 0 <= f.(rt2) < 32;
  fr_size : 0 <= f.(size) < 4;
  fr_opc : 0 <= f.(opc) < 4;
  fr_immediate_4 : 0 <= f.(immediate_4) < 16;
  fr_immediate_5 : 0 <= f.(immediate_5) < 32;
  fr_immediate_8 : 0 <= f.(immediate_8) < 256;
  fr_fp_immediate_8 : 0 <= f.(fp_immediate_8) < 256;
  fr_cmode : 0 <= f.(cmode) < 16;
  fr_shift : 0 <= f.(shift_immediate) < 128;
  fr_table : 1 <= f.(table_register_count) <= 4;
  fr_lane : 0 <= f.(fp_element_lane) < 4;
  fr_condition : 0 <= f.(condition) < 16;
  fr_nzcv : 0 <= f.(nzcv_immediate) < 16;
  fr_structure : 0 <= f.(structure_opcode) < 16;
  fr_element : 0 <= f.(element_size) < 4
}.

Lemma field_mask_1 bits lsb : 0 <= field bits lsb 1 < 2.
Proof. apply (field_bound bits lsb 1). lia. Qed.
Lemma field_mask_ff bits lsb : 0 <= field bits lsb 255 < 256.
Proof. apply (field_bound bits lsb 8). lia. Qed.

Lemma lor_shift_bound a b k n : 0 <= k <= n -> 0 <= a < 2 ^ k -> 0 <= b < 2 ^ (n - k) -> 0 <= Z.lor a (Z.shiftl b k) < 2 ^ n.
Proof.
  intros Hk Ha Hb. apply in_range_lor; [lia|apply (in_range_le k); [lia|done]|]. rewrite Z.shiftl_mul_pow2 by lia.
  split; [nia|]. replace n with (n - k + k) by lia. rewrite Z.pow_add_r by lia. nia.
Qed.

(** The fields [normalize] extracts from any word. *)
Lemma normalize_operands_ok instruction_id bits f : normalize_operands instruction_id bits = Ok f -> operands_ok f.
Proof.
  unfold normalize_operands. case_match; [done|]. intros [= <-].
  pose proof (field_1f bits) as H1f. pose proof (field_f bits) as Hf. pose proof (field_3 bits) as H3. pose proof (field_7f bits) as H7f.
  pose proof (field_mask_1 bits) as H1. pose proof (field_mask_ff bits) as Hff. pose proof (field_7 bits) as H7.
  split; cbn [rd rn rm ra rt2 size opc immediate_4 immediate_5 immediate_8 fp_immediate_8 cmode shift_immediate table_register_count fp_element_lane
    condition nzcv_immediate structure_opcode element_size]; try done.
  - by case_match.
  - case_match; [specialize (H1 22); lia|done].
  - rewrite Z.lor_comm. apply (lor_shift_bound _ _ 5 8); [lia|apply H1f|apply H7].
  - specialize (H3 13). lia.
  - unfold element_lane_of. repeat case_match; try lia.
    + apply (lor_shift_bound _ _ 1 2); [lia|apply H1..].
    + specialize (H1 11). lia.
Qed.

(** The effect of an operation: one register. *)
Definition vector_result (s : A64State) (f : Operands) (s' : A64State) : Prop := exists v, s' = vset s f.(rd) v.
Definition general_result (s : A64State) (f : Operands) (s' : A64State) : Prop :=
  exists width v, in_range 64 v /\ s' = write s f.(rd) width false v.

Definition no_error : A64FpSimdError -> A64State -> Prop := fun _ _ => False.
Notation writes_vector op f s := (wp op (fun _ s' => vector_result s f s') no_error s).
Notation writes_general op f s := (wp op (fun _ s' => general_result s f s') no_error s).

Ltac simd_run := cbv zeta; repeat (simd_step; cbv zeta); try (eexists; reflexivity).

Section Totality.
Context (f : Operands) (Hf : operands_ok f) (s : A64State) (Hs : state_ok s).

Let Hrd := fr_rd f Hf.
Let Hrn := fr_rn f Hf.
Let Hrm := fr_rm f Hf.

Definition scalar_shape (f : Operands) : bool := one_of f.(opc) [0; 1; 3].

Lemma scalar_width_ok : scalar_shape f = true -> exists w, scalar_width f = ret w.
Proof using.
  unfold scalar_shape, scalar_width, one_of. cbn [existsb]. rewrite !orb_true_iff, !Z.eqb_eq.
  intros [->|[->|[->|]]]; [eauto..|done].
Qed.

Lemma scalar_move_ok : scalar_shape f = true -> writes_vector (scalar_move f) f s.
Proof using Hf Hs. intros Hsh. destruct (scalar_width_ok Hsh) as [w Hw]. unfold scalar_move. rewrite Hw. simd_run. Qed.

Lemma scalar_sign_ok negate : scalar_shape f = true -> writes_vector (scalar_sign_operation f negate) f s.
Proof using Hf Hs. intros Hsh. destruct (scalar_width_ok Hsh) as [w Hw]. unfold scalar_sign_operation. rewrite Hw. simd_run. Qed.

Lemma vector_float_sign_ok negate : writes_vector (vector_float_sign_operation f negate) f s.
Proof using Hf Hs. unfold vector_float_sign_operation. simd_run. Qed.

Lemma vector_bits_cases : vector_bits f = 64 \/ vector_bits f = 128.
Proof using. unfold vector_bits. destruct (vector_128 f); auto. Qed.

(** [immediate_5] with an element size of at most 64 bits. *)
Definition element_shape (f : Operands) : bool := trailing_zeros_8 f.(immediate_5) <=? 3.

Definition element_facts (i : Z) : bool :=
  let t := trailing_zeros_8 i in
  implb (t <=? 3) ((0 <=? t) && one_of (Z.shiftl 8 t) [8; 16; 32; 64] && (Z.log2 (Z.shiftl 8 t) - 3 =? t) &&
    (shr i (t + 1) * Z.shiftl 8 t <? 128) && (shr i (t + 1) <? 128 / Z.shiftl 8 t)).

Lemma element_facts_all : forallb element_facts (seqZ 0 32) = true.
Proof using. vm_compute. reflexivity. Qed.

Lemma element_shape_facts : element_shape f = true ->
  let t := trailing_zeros_8 f.(immediate_5) in
  0 <= t <= 3 /\ (Z.shiftl 8 t = 8 \/ Z.shiftl 8 t = 16 \/ Z.shiftl 8 t = 32 \/ Z.shiftl 8 t = 64) /\
  Z.log2 (Z.shiftl 8 t) - 3 = t /\
  shr f.(immediate_5) (t + 1) * Z.shiftl 8 t < 128 /\ shr f.(immediate_5) (t + 1) < 128 / Z.shiftl 8 t.
Proof using Hf.
  intros Hsh t. unfold element_shape in Hsh. pose proof element_facts_all as Hall. rewrite forallb_forall in Hall.
  specialize (Hall f.(immediate_5)). assert (Hin : List.In f.(immediate_5) (seqZ 0 32)).
  { apply list_elem_of_In, elem_of_seqZ. destruct (fr_immediate_5 f Hf). lia. }
  specialize (Hall Hin). unfold element_facts in Hall. fold t in Hsh, Hall. rewrite Hsh in Hall. cbn [implb] in Hall.
  rewrite !andb_true_iff, Z.leb_le, Z.eqb_eq, !Z.ltb_lt in Hall. unfold one_of in Hall. cbn [existsb] in Hall.
  rewrite !orb_true_iff, !Z.eqb_eq in Hall. apply Z.leb_le in Hsh. destruct Hall as ((((H1 & H2) & H3) & H4) & H5).
  split; [lia|]. split; [|done]. destruct H2 as [H2|[H2|[H2|[H2|H2]]]]; [auto..|done].
Qed.

Lemma replicate_exact p w d : BitWidth_new w = Ok w -> d mod w = 0 -> exists v, replicate p w d = Ok v.
Proof using. intros _ Hm. unfold replicate. rewrite Hm. cbn. eauto. Qed.

Lemma bit_width_ok w : 1 <= w <= 128 -> BitWidth_new w = Ok w.
Proof using. intros Hw. unfold BitWidth_new. by rewrite (proj2 (Z.eqb_neq _ _)), (proj2 (Z.ltb_ge _ _)) by lia. Qed.

Lemma duplicate_general_ok : element_shape f = true -> writes_vector (duplicate_general f) f s.
Proof using Hf Hs.
  intros Hsh. destruct (element_shape_facts Hsh) as (Ht & Hb & _). unfold duplicate_general.
  set (t := trailing_zeros_8 f.(immediate_5)) in *. cbv zeta.
  assert (Hshl : shl 8 8 t = Z.shiftl 8 t) by (unfold shl; apply wrap_small; split; [destruct Hb as [->|[->|[->| ->]]]; lia|destruct Hb as [->|[->|[->| ->]]]; reflexivity]).
  rewrite Hshl. apply wp_check; [apply Z.ltb_lt; lia|]. apply wp_read_general.
  assert (Hbw : 1 <= Z.shiftl 8 t <= 128) by (destruct Hb as [->|[->|[->| ->]]]; lia).
  pose proof vector_bits_cases as Hv. eapply wp_ok; [by apply bit_width_ok|].
  eapply wp_ok; [apply bit_width_ok; destruct Hv as [->| ->]; lia|].
  destruct (replicate_exact (read s (rn f) (Z.shiftl 8 t) false) (Z.shiftl 8 t) (vector_bits f)) as [v Hr]; [by apply bit_width_ok| |].
  { destruct Hb as [->|[->|[->| ->]]], Hv as [->| ->]; reflexivity. }
  eapply wp_ok; [exact Hr|]. simd_run.
Qed.

(** The reserved element size of 128 bits, which the allocation rules let
    through: a whole quadword register takes it, a doubleword one panics. *)
Lemma duplicate_reserved : f.(immediate_5) = 16 ->
  if f.(vector_128) then writes_vector (duplicate_general f) f s else duplicate_general f s = (Panic, s).
Proof using Hf Hs.
  intros Hi. unfold duplicate_general, vector_bits. rewrite Hi. destruct (f.(vector_128)); [|reflexivity].
  change (trailing_zeros_8 16) with 4. cbv zeta. apply wp_check; [done|]. apply wp_read_general.
  destruct (replicate_exact (read s (rn f) 128 false) 128 128) as [v Hr]; [done|done|].
  eapply wp_ok; [reflexivity|]. eapply wp_ok; [reflexivity|]. eapply wp_ok; [exact Hr|]. simd_run.
Qed.

(** DUP (general) runs for these operands. *)
Definition duplicate_shape (f : Operands) : bool := element_shape f || ((f.(immediate_5) =? 16) && f.(vector_128)).

Lemma duplicate_shape_ok : duplicate_shape f = true -> writes_vector (duplicate_general f) f s.
Proof using Hf Hs.
  unfold duplicate_shape. destruct (element_shape f) eqn:E; [intros _; by apply duplicate_general_ok|]. cbn [orb].
  rewrite andb_true_iff, Z.eqb_eq. intros [Hi Hv]. pose proof (duplicate_reserved Hi) as Hd. by rewrite Hv in Hd.
Qed.

Lemma duplicate_element_ok scalar : element_shape f = true -> writes_vector (duplicate_element f scalar) f s.
Proof using Hf Hs.
  intros Hsh. destruct (element_shape_facts Hsh) as (Ht & Hb & _ & Hl & _). unfold duplicate_element.
  set (t := trailing_zeros_8 f.(immediate_5)) in *. cbv zeta.
  apply wp_check; [apply Z.ltb_lt; lia|]. simd_step.
  apply wp_check. { rewrite andb_true_iff, !Z.ltb_lt. split; [done|]. destruct Hb as [->|[->|[->| ->]]]; lia. }
  destruct scalar; [simd_run|]. pose proof vector_bits_cases as Hv.
  apply wp_bind. eapply wp_ok; [apply bit_width_ok; destruct Hb as [->|[->|[->| ->]]]; lia|].
  eapply wp_ok; [apply bit_width_ok; destruct Hv as [->| ->]; lia|].
  match goal with |- context [replicate ?p ?w ?d] => destruct (replicate_exact p w d) as [v Hr] end.
  - apply bit_width_ok. destruct Hb as [->|[->|[->| ->]]]; lia.
  - destruct Hb as [->|[->|[->| ->]]], Hv as [->| ->]; reflexivity.
  - unfold expect_ok. rewrite Hr. apply wp_ret. simd_run.
Qed.

Definition immediate_shape (f : Operands) : bool := f.(cmode) <=? 14.

Lemma modified_immediate_ok : immediate_shape f = true -> writes_vector (modified_immediate f) f s.
Proof using Hf Hs.
  intros Hsh. apply Z.leb_le in Hsh. pose proof (fr_cmode f Hf) as Hc. unfold modified_immediate.
  assert (He : exists v, expand_modified_immediate f.(cmode) f.(immediate_8) f.(operation_bit) = Some v).
  { unfold expand_modified_immediate. destruct (Z.leb_spec f.(cmode) 7); [cbn [option_map]; eauto|].
    destruct (Z.leb_spec f.(cmode) 11); [cbn [option_map]; eauto|]. destruct (Z.eqb_spec f.(cmode) 12); [cbn [option_map]; eauto|].
    destruct (Z.eqb_spec f.(cmode) 13); [cbn [option_map]; eauto|]. destruct (Z.eqb_spec f.(cmode) 14); [|lia].
    destruct f.(operation_bit); cbn [option_map negb]; eauto. }
  destruct He as [v He]. eapply wp_some; [exact He|]. simd_run.
Qed.

Lemma unsigned_move_ok : element_shape f = true -> writes_general (unsigned_move_to_general f) f s.
Proof using Hf Hs.
  intros Hsh. destruct (element_shape_facts Hsh) as (Ht & _ & _ & _ & Hl). unfold unsigned_move_to_general.
  set (t := trailing_zeros_8 f.(immediate_5)) in *. cbv zeta.
  assert (Hw : exists w, match t with 0 => ret Bits8 | 1 => ret Bits16 | 2 => ret Bits32 | 3 => ret Bits64 | _ => panic end = (ret w : FS LaneWidth) /\ lane_bits w = Z.shiftl 8 t).
  { assert (t = 0 \/ t = 1 \/ t = 2 \/ t = 3) as [->|[->|[->| ->]]] by lia; eexists; split; reflexivity. }
  destruct Hw as (w & -> & Hlb). apply wp_bind, wp_ret. eapply (wp_ok _ (mkArrangement 128 w)); [by destruct w|]. simd_step.
  eapply wp_ok. { unfold extract_lane, lane_count. cbn [va_bits va_lane]. rewrite Hlb, (proj2 (Z.leb_gt _ _)) by lia. reflexivity. }
  apply wp_write_general. do 2 eexists. split; [|reflexivity]. apply wrap_range. lia.
Qed.

Lemma insert_lane_ok register lane bits value :
  register = f.(rd) -> lane * bits < 128 -> bits < 128 -> writes_vector (insert_lane register lane bits value) f s.
Proof using Hf Hs.
  intros -> Hl Hb. unfold insert_lane. cbv zeta. apply wp_check; [by rewrite andb_true_iff, !Z.ltb_lt|]. simd_run.
Qed.

Lemma insert_element_ok : element_shape f = true -> writes_vector (insert_element f) f s.
Proof using Hf Hs.
  intros Hsh. destruct (element_shape_facts Hsh) as (Ht & Hb & Hlog & Hl & _). unfold insert_element, insert_lane_shape.
  set (t := trailing_zeros_8 f.(immediate_5)) in *. cbv zeta. apply wp_bind, wp_check; [apply Z.ltb_lt; lia|]. apply wp_ret.
  cbv beta iota zeta. rewrite Hlog. apply wp_check.
  { rewrite andb_true_iff, !Z.ltb_lt. split; [|destruct Hb as [->|[->|[->| ->]]]; lia].
    pose proof (fr_immediate_4 f Hf). unfold shr. rewrite Z.shiftr_div_pow2, Z.shiftl_mul_pow2 by lia.
    pose proof (Z.mul_div_le f.(immediate_4) (2 ^ t) ltac:(apply Z.pow_pos_nonneg; lia)). lia. }
  simd_step. apply insert_lane_ok; [done|done|]. destruct Hb as [->|[->|[->| ->]]]; lia.
Qed.

Lemma insert_general_ok : element_shape f = true -> writes_vector (insert_general f) f s.
Proof using Hf Hs.
  intros Hsh. destruct (element_shape_facts Hsh) as (Ht & Hb & Hlog & Hl & _). unfold insert_general, insert_lane_shape.
  set (t := trailing_zeros_8 f.(immediate_5)) in *. cbv zeta. apply wp_bind, wp_check; [apply Z.ltb_lt; lia|]. apply wp_ret.
  cbv beta iota zeta. simd_step. apply insert_lane_ok; [done|done|]. destruct Hb as [->|[->|[->| ->]]]; lia.
Qed.

Definition general_move_shape (f : Operands) : bool :=
  if negb (Z.land f.(size) 2 =? 0) then one_of f.(opc) [1; 2] else one_of f.(opc) [0; 3].

Lemma general_move_cases : general_move_shape f = true ->
  (negb (Z.land f.(size) 2 =? 0) = true /\ (f.(opc) = 1 \/ f.(opc) = 2)) \/ (negb (Z.land f.(size) 2 =? 0) = false /\ (f.(opc) = 0 \/ f.(opc) = 3)).
Proof using.
  unfold general_move_shape, one_of. destruct (negb _); cbn [existsb]; rewrite !orb_true_iff, !Z.eqb_eq;
    intros [H|[H|H]]; try discriminate H; auto.
Qed.

Lemma move_to_general_ok : general_move_shape f = true -> writes_general (floating_move_to_general f) f s.
Proof using Hf Hs.
  intros Hsh. unfold floating_move_to_general. simd_step.
  assert (H16 : in_range 64 (wrap 16 (vreg s f.(rn)))) by (apply (in_range_le 16); [lia|apply wrap_range; lia]).
  destruct (general_move_cases Hsh) as [[-> [->| ->]]|[-> [->| ->]]]; apply wp_write_general; do 2 eexists;
    (split; [|reflexivity]); (exact H16 || (apply wrap_range; lia)).
Qed.

Lemma move_from_general_ok : general_move_shape f = true -> writes_vector (floating_move_from_general f) f s.
Proof using Hf Hs.
  intros Hsh. unfold floating_move_from_general. cbv zeta. simd_step.
  destruct (general_move_cases Hsh) as [[-> [->| ->]]|[-> [->| ->]]]; apply wp_bind; [apply wp_ret; simd_run| |apply wp_ret; simd_run..].
  simd_step. apply wp_ret. simd_run.
Qed.

Lemma scalar_float_immediate_ok : scalar_shape f = true -> writes_vector (scalar_float_immediate f) f s.
Proof using Hf Hs.
  unfold scalar_shape, scalar_float_immediate, one_of. cbn [existsb]. rewrite !orb_true_iff, !Z.eqb_eq.
  intros [->|[->|[->|]]]; [simd_run..|done].
Qed.

Lemma vector_float_immediate_ok : writes_vector (vector_float_immediate f) f s.
Proof using Hf Hs.
  unfold vector_float_immediate. pose proof vector_bits_cases as Hv.
  assert (Hgo : forall lane bits, bits = 32 \/ bits = 64 -> writes_vector (let! width := expect_ok (BitWidth_new bits) in
    let! destination := expect_ok (BitWidth_new (vector_bits f)) in let! value := expect_ok (replicate lane width destination) in put f.(rd) value) f s).
  { intros lane bits Hb. eapply wp_ok; [apply bit_width_ok; lia|]. eapply wp_ok; [apply bit_width_ok; destruct Hv as [->| ->]; lia|].
    destruct (replicate_exact lane bits (vector_bits f)) as [v Hr]; [apply bit_width_ok; lia|destruct Hb as [->| ->], Hv as [->| ->]; reflexivity|].
    eapply wp_ok; [exact Hr|]. simd_run. }
  destruct f.(operation_bit); apply Hgo; auto.
Qed.

Lemma integer_arithmetic_ok multiply : writes_vector (integer_arithmetic f multiply) f s.
Proof using Hf Hs. unfold integer_arithmetic. simd_run. Qed.

Lemma integer_sign_ok scalar : writes_vector (integer_sign f scalar) f s.
Proof using Hf Hs. unfold integer_sign. simd_run. Qed.

Definition narrow_shape (f : Operands) : bool := negb (f.(opc) =? 3).

Lemma narrow_width : narrow_shape f = true -> lane_width f = 8 \/ lane_width f = 16 \/ lane_width f = 32.
Proof using Hf.
  intros Hsh%negb_true_iff%Z.eqb_neq. pose proof (fr_opc f Hf). unfold lane_width.
  assert (f.(opc) = 0 \/ f.(opc) = 1 \/ f.(opc) = 2) as [->|[->| ->]] by lia; auto.
Qed.

Lemma integer_add_wide_ok : narrow_shape f = true -> writes_vector (integer_add_wide f) f s.
Proof using Hf Hs.
  intros Hsh. unfold integer_add_wide. cbv zeta. apply wp_check; [|simd_run]. apply Z.ltb_lt. destruct (narrow_width Hsh) as [->|[->| ->]]; lia.
Qed.

Lemma integer_pairwise_ok operation : writes_vector (integer_pairwise f operation) f s.
Proof using Hf Hs. unfold integer_pairwise. simd_run. Qed.

Lemma integer_min_max_across_ok : f.(pairwise_operation_of) <> None -> writes_vector (integer_min_max_across f) f s.
Proof using Hf Hs.
  intros Hp. unfold integer_min_max_across. cbv zeta. simd_step. destruct f.(pairwise_operation_of) as [op|] eqn:E; [|done].
  eapply wp_some; [reflexivity|]. simd_run.
Qed.

Lemma integer_min_max_ok operation : operation <> PAdd -> writes_vector (integer_min_max f operation) f s.
Proof using Hf Hs. intros Hp. unfold integer_min_max. cbv zeta. do 2 simd_step. apply wp_check; [by destruct operation|]. simd_run. Qed.

Lemma table_lookup_ok extend : writes_vector (table_lookup f extend) f s.
Proof using Hf Hs.
  pose proof (fr_table f Hf). unfold table_lookup. cbv zeta.
  assert (Hr : forall k, 0 <= Z.land (wrap 8 k) 31 < 32).
  { intros k. change 31 with (Z.ones 5). rewrite Z.land_ones by lia. apply Z.mod_pos_bound. lia. }
  do 6 (apply wp_vec; [assumption|first [assumption|apply Hr]|intros ?]). apply wp_check; [apply Z.leb_le; lia|].
  unfold wp, put_unchecked. by eexists.
Qed.

Lemma permute_ok operation : writes_vector (permute_two_source f operation) f s.
Proof using Hf Hs. unfold permute_two_source. simd_run. Qed.

Lemma extract_vector_ok : writes_vector (extract_vector f) f s.
Proof using Hf Hs. unfold extract_vector. simd_run. Qed.

(** The shift immediate: [immh] selects the element, of at most 64 bits. *)
Definition shift_shape (limit : Z) (f : Operands) : bool := (8 <=? f.(shift_immediate)) && (f.(shift_immediate) <? limit).

Definition shift_facts (i : Z) : bool :=
  let bits := Z.shiftl 8 (Z.log2 (shr i 3)) in
  implb (8 <=? i) ((0 <? shr i 3) && one_of bits [8; 16; 32; 64] && (bits <=? i) && (i <? 2 * bits) &&
    (Z.lor (Z.shiftl (shr i 3) 3) (Z.land i 7) =? i) && implb (i <? 64) (bits <? 64)).

Lemma shift_facts_all : forallb shift_facts (seqZ 0 128) = true.
Proof using. vm_compute. reflexivity. Qed.

Lemma shift_shape_facts limit : shift_shape limit f = true -> limit <= 128 ->
  let i := f.(shift_immediate) in
  exists bits, immediate_lane_bits (shr i 3) = ret bits /\ (bits = 8 \/ bits = 16 \/ bits = 32 \/ bits = 64) /\
    bits <= i < 2 * bits /\ Z.lor (Z.shiftl (shr i 3) 3) (Z.land i 7) = i /\ (limit <= 64 -> bits < 64).
Proof using Hf.
  intros Hsh Hlim i. unfold shift_shape in Hsh. apply andb_true_iff in Hsh as [H8 Hl]. fold i in H8, Hl.
  pose proof shift_facts_all as Hall. rewrite forallb_forall in Hall. specialize (Hall i).
  assert (Hin : List.In i (seqZ 0 128)) by (apply list_elem_of_In, elem_of_seqZ; pose proof (fr_shift f Hf); unfold i; lia).
  specialize (Hall Hin). unfold shift_facts in Hall. rewrite H8 in Hall. cbn [implb] in Hall.
  set (bits := Z.shiftl 8 (Z.log2 (shr i 3))) in *. exists bits.
  rewrite !andb_true_iff in Hall. destruct Hall as (((((Hp & Hone) & Hle) & Hlt) & Heq) & Himp).
  apply Z.leb_le in Hle. apply Z.ltb_lt in Hlt. apply Z.eqb_eq in Heq. unfold immediate_lane_bits. fold bits. unfold check. rewrite Hp.
  split; [done|]. unfold one_of in Hone. cbn [existsb] in Hone. rewrite !orb_true_iff, !Z.eqb_eq in Hone.
  split; [destruct Hone as [H1|[H1|[H1|[H1|H1]]]]; [auto..|done]|]. split; [lia|]. split; [done|].
  intros Hl64. apply Z.ltb_lt in Hl. rewrite (proj2 (Z.ltb_lt _ _)) in Himp by lia. cbn [implb] in Himp. by apply Z.ltb_lt in Himp.
Qed.

Lemma shift_right_narrow_ok : shift_shape 128 f = true -> writes_vector (shift_right_narrow f) f s.
Proof using Hf Hs.
  intros Hsh. destruct (shift_shape_facts 128 Hsh) as (bits & Hb & Hc & Hi & Heq & _); [lia|]. unfold shift_right_narrow. cbv zeta.
  rewrite Hb. simd_step. rewrite Heq. apply wp_check; [rewrite andb_true_iff, Z.leb_le, Z.ltb_lt; lia|]. simd_step.
  apply wp_check; [apply Z.ltb_lt; lia|]. apply wp_bind. destruct f.(vector_128); [simd_step|]; apply wp_ret; simd_run.
Qed.

Lemma shift_right_immediate_ok scalar : shift_shape 128 f = true -> writes_vector (shift_right_immediate f scalar) f s.
Proof using Hf Hs.
  intros Hsh. destruct (shift_shape_facts 128 Hsh) as (bits & Hb & Hc & Hi & _); [lia|]. unfold shift_right_immediate. cbv zeta.
  rewrite Hb. simd_step. apply wp_check; [rewrite andb_true_iff, Z.leb_le, Z.ltb_lt; lia|]. do 2 simd_step.
  apply wp_check; [apply Z.ltb_lt; lia|]. simd_run.
Qed.

Lemma shift_left_immediate_ok scalar : shift_shape 128 f = true -> writes_vector (shift_left_immediate f scalar) f s.
Proof using Hf Hs.
  intros Hsh. destruct (shift_shape_facts 128 Hsh) as (bits & Hb & Hc & Hi & _); [lia|]. unfold shift_left_immediate. cbv zeta.
  rewrite Hb. simd_step. apply wp_check; [rewrite andb_true_iff, Z.leb_le, Z.ltb_lt; lia|]. simd_run.
Qed.

Lemma shift_left_long_ok : shift_shape 128 f = true -> writes_vector (shift_left_long false f) f s.
Proof using Hf Hs.
  intros Hsh. destruct (shift_shape_facts 128 Hsh) as (bits & Hb & Hc & Hi & _); [lia|]. unfold shift_left_long. cbv zeta.
  rewrite Hb. simd_step. apply wp_check; [apply Z.leb_le; lia|]. apply wp_bind. unfold wide_lane_mask. destruct (_ <? 128); apply wp_ret; simd_run.
Qed.

(** A source lane of 64 bits, which the allocation rule of SSHLL and USHLL lets
    through: the mask of the 128-bit result lane overflows. *)
Lemma shift_left_long_reserved checks : f.(shift_immediate) = 64 ->
  shift_left_long checks f s = if checks then (Panic, s) else (Ok tt, vset s f.(rd) 0).
Proof using Hf Hs.
  intros Hi. unfold shift_left_long. rewrite Hi. cbv zeta. change (immediate_lane_bits (shr 64 3)) with (ret (S := A64State) (E := A64FpSimdError) 64).
  unfold bind, ret. cbn [Z.leb Z.compare Pos.compare Pos.compare_cont check]. unfold wide_lane_mask. destruct checks; [reflexivity|].
  change (64 * 2 <? 128) with false. cbv iota. unfold ret, vec. destruct (vector_value_ok s f.(rn) Hs (fr_rn f Hf)) as [-> _].
  assert (Hg : forall e : Z -> Z, gather (64 / 64) (64 * 2) (fun i => Z.land (e i) (lane_mask (64 * 2 mod 128))) = 0).
  { intros e. change (Z.lor 0 (shl 128 (Z.land (e 0) 0) 0) = 0). by rewrite Z.land_0_r. }
  rewrite Hg. unfold put. by rewrite (set_vector_ok s f.(rd) _ Hs (fr_rd f Hf)).
Qed.

Lemma shift_register_ok signed : writes_vector (shift_register f signed) f s.
Proof using Hf Hs. unfold shift_register. simd_run. Qed.

Lemma reverse_elements_ok container : Z.shiftl 1 f.(opc) <= container -> writes_vector (reverse_elements f container) f s.
Proof using Hf Hs. intros Hc. unfold reverse_elements. cbv zeta. simd_step. apply wp_check; [by apply Z.leb_le|]. simd_run. Qed.

Lemma count_bits_ok : writes_vector (count_bits f) f s.
Proof using Hf Hs. unfold count_bits. simd_run. Qed.

Lemma add_across_ok widen : narrow_shape f = true -> writes_vector (add_across_vector f widen) f s.
Proof using Hf Hs.
  intros Hsh. unfold add_across_vector. cbv zeta. apply wp_check; [|simd_run]. apply Z.ltb_lt.
  destruct (narrow_width Hsh) as [->|[->| ->]], widen; lia.
Qed.

Lemma extract_narrow_ok : writes_vector (extract_narrow f) f s.
Proof using Hf Hs. unfold extract_narrow. simd_run. Qed.

Lemma bitwise_ok operation : writes_vector (bitwise f operation) f s.
Proof using Hf Hs. unfold bitwise. simd_run. Qed.

Lemma integer_compare_ok comparison scalar : writes_vector (integer_compare f comparison scalar) f s.
Proof using Hf Hs. unfold integer_compare. cbv zeta. simd_step. apply wp_bind. destruct f.(compare_with_zero); [apply wp_ret; simd_run|].
  destruct (vector_value_ok s f.(rm) Hs Hrm) as [Hv _]. unfold wp at 1, vec. rewrite Hv. simd_run.
Qed.
End Totality.
