(* ===== verification/SimdClaims.v ===== *)
(** * What the integer SIMD operations compute

    Lane by lane, the two-source operations are the architectural functions of
    the lanes of the sources, whatever registers coincide; the permutations
    undo each other. *)

From S2P Require Import Prelude CpuBits CpuArith CpuState CpuVector DecodeAllocation DecodeFpOperands SimdInteger SimdSpec.

(** The two-source operations that work on lanes. *)
Inductive LaneOperation :=
| LaneArithmetic (multiply : bool)
| LaneMinMax (operation : PairwiseOperation)
| LaneCompare (comparison : IntegerComparison) (scalar : bool)
| LaneShift (signed : bool).

Definition lane_instruction (f : Operands) (k : LaneOperation) : FS unit :=
  match k with
  | LaneArithmetic multiply => integer_arithmetic f multiply
  | LaneMinMax operation => integer_min_max f operation
  | LaneCompare comparison scalar => integer_compare f comparison scalar
  | LaneShift signed => shift_register f signed
  end.

(** The second source: the comparisons with zero read no register. *)
Definition second_source (f : Operands) (k : LaneOperation) (s : A64State) : Z :=
  match k with LaneCompare _ _ => if f.(compare_with_zero) then 0 else vreg s f.(rm) | _ => vreg s f.(rm) end.

(** The bits an operation writes: a scalar comparison has one 64-bit element. *)
Definition active_bits (f : Operands) (k : LaneOperation) : Z :=
  match k with LaneCompare _ true => 64 | _ => vector_bits f end.

(** The architectural function of two lanes of [w] bits. *)
Definition lane_function (k : LaneOperation) (subtracts : bool) (w a b : Z) : Z :=
  let sa := to_signed w a in
  let sb := to_signed w b in
  match k with
  | LaneArithmetic true => wrap w (a * b)
  | LaneArithmetic false => wrap w (if subtracts then a - b else a + b)
  | LaneMinMax PAdd => wrap w (a + b)
  | LaneMinMax PSignedMaximum => wrap w (Z.max sa sb)
  | LaneMinMax PSignedMinimum => wrap w (Z.min sa sb)
  | LaneMinMax PUnsignedMaximum => Z.max a b
  | LaneMinMax PUnsignedMinimum => Z.min a b
  | LaneCompare c _ =>
      let holds := match c with
        | SignedGreaterThan => sb <? sa
        | UnsignedGreaterThan => b <? a
        | SignedGreaterThanOrEqual => sb <=? sa
        | UnsignedGreaterThanOrEqual => b <=? a
        | SignedLessThan => sa <? sb
        | SignedLessThanOrEqual => sa <=? sb
        | NonzeroBitTest => negb (Z.land a b =? 0)
        | Equal => a =? b
        end in
      if holds then Z.ones w else 0
  | LaneShift signed =>
      let distance := to_signed 8 (wrap 8 b) in
      let value := if signed then sa else a in
      wrap w (if 0 <=? distance then value * 2 ^ distance else value / 2 ^ (- distance))
  end.

Lemma lane_width_cases f : operands_ok f -> lane_width f = 8 \/ lane_width f = 16 \/ lane_width f = 32 \/ lane_width f = 64.
Proof.
  intros [_ _ _ _ _ _ Hopc]. unfold lane_width. assert (Hc : f.(opc) = 0 \/ f.(opc) = 1 \/ f.(opc) = 2 \/ f.(opc) = 3) by lia.
  destruct Hc as [-> |[-> |[-> | ->]]]; vm_compute; auto.
Qed.

Section Lane.
Context (w : Z) (Hw : w = 8 \/ w = 16 \/ w = 32 \/ w = 64).

Lemma lane_wrap v : Z.land (wrap 128 v) (lane_mask w) = wrap w v.
Proof using Hw. rewrite lane_mask_ones by lia. rewrite land_ones_wrap by lia. apply wrap_wrap_le. lia. Qed.

Lemma lane_signed a : in_range w a -> sign_extend_lane a w = to_signed w a.
Proof using Hw. intros Ha. unfold sign_extend_lane. rewrite signed_immediate_arith by lia. by rewrite wrap_small. Qed.

Lemma reduce_pair_spec operation subtracts a b : in_range w a -> in_range w b ->
  reduce_pair operation w a b = lane_function (LaneMinMax operation) subtracts w a b.
Proof using Hw.
  intros Ha Hb. unfold reduce_pair, lane_function. rewrite !lane_signed by done.
  destruct operation; [apply lane_wrap| | |done|done].
  - destruct (Z.leb_spec (to_signed w b) (to_signed w a)); [rewrite Z.max_l by lia|rewrite Z.max_r by lia]; by rewrite wrap_to_signed.
  - destruct (Z.leb_spec (to_signed w a) (to_signed w b)); [rewrite Z.min_l by lia|rewrite Z.min_r by lia]; by rewrite wrap_to_signed.
Qed.

Lemma compare_lanes_spec c scalar subtracts a b : in_range w a -> in_range w b ->
  (if compare_lanes c w a b then lane_mask w else 0) = lane_function (LaneCompare c scalar) subtracts w a b.
Proof using Hw. intros Ha Hb. unfold compare_lanes, lane_function. rewrite lane_mask_ones, !lane_signed by (done || lia). by destruct c. Qed.

Lemma shift_left_lane v d : 0 <= d <= 127 -> (if w <=? d then 0 else Z.land (shl 128 v d) (lane_mask w)) = wrap w (v * 2 ^ d).
Proof using Hw.
  intros Hd. destruct (Z.leb_spec w d).
  - unfold wrap. replace d with (d - w + w) by lia. rewrite Z.pow_add_r by lia. rewrite Z.mul_assoc. by rewrite Z.mod_mul by (apply Z.pow_nonzero; lia).
  - unfold shl. rewrite lane_wrap, Z.shiftl_mul_pow2 by lia. done.
Qed.

Lemma to_signed_top a : in_range w a -> bit_set a (shl 128 1 (w - 1)) = (2 ^ (w - 1) <=? a).
Proof using Hw.
  intros Ha. assert (Hs : shl 128 1 (w - 1) = 2 ^ (w - 1)) by (destruct Hw as [-> |[-> |[-> | ->]]]; reflexivity).
  rewrite Hs, bit_set_pow2, testbit_top by (done || lia). done.
Qed.

Lemma lor_high a : in_range w a -> 2 ^ (w - 1) <= a -> to_signed 128 (Z.lor a (unot 128 (lane_mask w))) = to_signed w a.
Proof using Hw.
  intros [Ha1 Ha2] Ht. assert (Hu : unot 128 (lane_mask w) = Z.shiftl (2 ^ (128 - w) - 1) w) by (destruct Hw as [-> |[-> |[-> | ->]]]; reflexivity).
  assert (Hz : Z.land a (Z.shiftl (2 ^ (128 - w) - 1) w) = 0).
  { apply Z.bits_inj'. intros k Hk. rewrite Z.land_spec, Z.testbit_0_l. destruct (Z.lt_ge_cases k w).
    - rewrite Z.shiftl_spec_low by lia. apply andb_false_r.
    - by rewrite (testbit_high w) by (lia || done). }
  rewrite Hu, <- Z.lxor_lor, <- Z.add_nocarry_lxor by done. rewrite Z.shiftl_mul_pow2 by lia. unfold to_signed.
  rewrite (proj2 (Z.ltb_ge a _)) by lia. destruct Hw as [-> |[-> |[-> | ->]]]; cbn in *; case_match; lia.
Qed.

Lemma shift_lane_spec signed subtracts a b : in_range w a -> in_range w b ->
  shift_lane a (to_signed 8 (wrap 8 b)) w signed = lane_function (LaneShift signed) subtracts w a b.
Proof using Hw.
  intros Ha Hb. pose proof (to_signed_range 8 (wrap 8 b) ltac:(lia) ltac:(apply wrap_range; lia)) as Hd.
  unfold shift_lane, lane_function. set (d := to_signed 8 (wrap 8 b)) in *. destruct (Z.leb_spec 0 d) as [H0|H0].
  - rewrite shift_left_lane by lia. destruct signed; [|done]. rewrite <- (wrap_to_signed w a Ha) at 1. unfold wrap. apply Zmult_mod_idemp_l.
  - rewrite to_signed_top by done. pose proof (to_signed_range w a ltac:(lia) Ha) as Hsr. pose proof Ha as [Ha1 Ha2].
    assert (Hp : 0 < 2 ^ - d) by (apply Z.pow_pos_nonneg; lia).
    assert (Hbig : w <= - d -> 2 ^ w <= 2 ^ (- d)) by (intros; apply Z.pow_le_mono_r; lia).
    assert (Hww : 2 ^ w = 2 * 2 ^ (w - 1)) by (rewrite <- Z.pow_succ_r by lia; f_equal; lia).
    assert (Hpos : signed && (2 ^ (w - 1) <=? a) = false -> (if w <=? - d then 0 else shr a (- d)) = wrap w ((if signed then to_signed w a else a) / 2 ^ (- d))).
    { intros Hs. assert (Hv : (if signed then to_signed w a else a) = a).
      { destruct signed; [|done]. cbn in Hs. apply Z.leb_gt in Hs. unfold to_signed. by rewrite (proj2 (Z.ltb_lt _ _)) by lia. }
      rewrite Hv. unfold shr. rewrite Z.shiftr_div_pow2 by lia. destruct (Z.leb_spec w (- d)).
      - rewrite Z.div_small by lia. done.
      - symmetry. apply wrap_small. split; [apply Z.div_pos; lia|]. apply Z.div_lt_upper_bound; nia. }
    destruct (signed && (2 ^ (w - 1) <=? a)) eqn:Hs; [|by apply Hpos]. apply andb_true_iff in Hs as [-> Ht]. apply Z.leb_le in Ht.
    destruct (Z.leb_spec w (- d)).
    + rewrite lane_mask_ones by lia. assert (Hneg : to_signed w a / 2 ^ (- d) = -1).
      { symmetry. apply Z.div_unique_pos with (to_signed w a + 2 ^ (- d)); [|lia]. unfold to_signed in *. rewrite (proj2 (Z.ltb_ge a _)) in * by lia. lia. }
      rewrite Hneg. unfold wrap. rewrite Z.ones_equiv. apply Z.mod_unique_pos with (-1); lia.
    + rewrite lor_high, lane_wrap, Z.shiftr_div_pow2 by (done || lia). done.
Qed.
End Lane.

(** A register holding [count] lanes of [w] bits, and zeros above. *)
Definition holds_lanes (v count w : Z) (lane : Z -> Z) : Prop :=
  in_range (count * w) v /\ forall i, 0 <= i < count -> lane_at v w i = lane i.

Lemma lane_function_range k subtracts w a b : 8 <= w -> in_range w a -> in_range w b -> in_range w (lane_function k subtracts w a b).
Proof.
  intros Hw [Ha1 Ha2] [Hb1 Hb2]. assert (Hr : forall v, in_range w (wrap w v)) by (intros; apply wrap_range; lia).
  assert (Ho : in_range w (Z.ones w) /\ in_range w 0) by (pose proof (Z.pow_pos_nonneg 2 w); rewrite Z.ones_equiv; split; split; lia).
  unfold lane_function. destruct k as [[]|[]|[]|]; try apply Hr; try (split; lia); case_match; apply Ho.
Qed.

Lemma gather_lanes n w lane : 0 <= n -> 0 < w -> n * w <= 128 -> (forall i, 0 <= i < n -> in_range w (lane i)) ->
  holds_lanes (gather n w lane) n w lane.
Proof. intros. split; [by apply gather_range|]. intros. by apply lane_at_gather. Qed.

Lemma count_width f : operands_ok f -> vector_bits f / lane_width f * lane_width f = vector_bits f /\ 0 <= vector_bits f / lane_width f.
Proof.
  intros Hf. unfold vector_bits. destruct (lane_width_cases f Hf) as [-> |[-> |[-> | ->]]], (vector_128 f); vm_compute; done.
Qed.

Lemma active_count f k : operands_ok f ->
  active_bits f k / lane_width f * lane_width f = active_bits f k /\ 0 <= active_bits f k / lane_width f /\ 0 <= active_bits f k <= 128.
Proof.
  intros Hf. assert (H : active_bits f k = 64 \/ active_bits f k = 128).
  { unfold active_bits, vector_bits. destruct k as [| |c []|], (vector_128 f); auto. }
  destruct (lane_width_cases f Hf) as [-> |[-> |[-> | ->]]], H as [-> | ->]; vm_compute; split_and!; (reflexivity || discriminate).
Qed.

Lemma gather_ext n w lane lane' : (forall i, 0 <= i < n -> lane i = lane' i) -> gather n w lane = gather n w lane'.
Proof.
  intros H. unfold gather. assert (Hl : Forall (fun i => lane i = lane' i) (seqZ 0 n)) by (apply Forall_forall; intros i Hi%elem_of_seqZ; apply H; lia).
  generalize 0 at 2 4. induction Hl as [|i l Hi _ IH]; intros acc; [done|]. cbn. by rewrite Hi.
Qed.

(** C40. The lane-wise SIMD instructions (ADD, SUB, MUL, signed and unsigned
    minimum and maximum, the eight comparisons, of two registers or of a register
    with zero, vector and scalar, SSHL and USHL) complete and write the
    architectural function of the two source lanes to each lane of the
    destination, with zeros above the active vector, and change no other state,
    for every lane width and whichever registers coincide.  The comparisons of a
    register with zero do not read Vm. *)
Theorem lane_instruction_spec f k s :
  operands_ok f -> state_ok s -> k <> LaneMinMax PAdd ->
  exists v, lane_instruction f k s = (Ok tt, vset s f.(rd) v) /\
    let w := lane_width f in
    holds_lanes v (active_bits f k / w) w
      (fun i => lane_function k f.(subtract) w (lane_at (vreg s f.(rn)) w i) (lane_at (second_source f k s) w i)).
Proof.
  intros Hf Hs Hk. pose proof (lane_width_cases f Hf) as Hw. destruct (active_count f k Hf) as (Hc & Hn & Hb). set (w := lane_width f) in *.
  set (F := fun i => lane_function k f.(subtract) w (lane_at (vreg s f.(rn)) w i) (lane_at (second_source f k s) w i)).
  assert (Hr : forall v i, in_range w (lane_at v w i)) by (intros; apply lane_at_range; lia).
  exists (gather (active_bits f k / w) w F). split; [|cbv zeta; apply gather_lanes; [done|lia|lia|]].
  - pose proof (fr_rd f Hf). pose proof (fr_rn f Hf). pose proof (fr_rm f Hf).
    assert (Hrun : wp (lane_instruction f k) (fun _ s' => s' = vset s f.(rd) (gather (active_bits f k / w) w F)) no_error s).
    { destruct k as [multiply|operation|comparison scalar|signed]; cbn [lane_instruction active_bits].
      - unfold integer_arithmetic. simd_run. f_equal. apply gather_ext. intros i Hi. fold w. rewrite !masked_lane_at by lia. rewrite lane_wrap by done.
        unfold F. by destruct multiply, (subtract f).
      - unfold integer_min_max. simd_run; [by destruct operation|]. f_equal. apply gather_ext. intros i Hi. fold w. rewrite !masked_lane_at by lia.
        by apply reduce_pair_spec.
      - assert (Hend : forall rhs, rhs = second_source f (LaneCompare comparison scalar) s ->
          gather ((if negb scalar && f.(vector_128) then 128 else 64) / w) w (fun i =>
            if compare_lanes comparison w (masked_lane (vreg s f.(rn)) w i) (masked_lane rhs w i) then lane_mask w else 0)
          = gather ((if scalar then 64 else vector_bits f) / w) w F).
        { intros rhs ->. unfold vector_bits. destruct scalar; cbn [negb andb]; apply gather_ext; intros i Hi;
            rewrite !masked_lane_at by lia; by apply compare_lanes_spec. }
        unfold integer_compare. cbv zeta. simd_step. apply wp_bind.
        destruct f.(compare_with_zero) eqn:Hz; [apply wp_ret; simd_run|].
        + f_equal. apply Hend. cbn [second_source]. by rewrite Hz.
        + destruct (vector_value_ok s f.(rm) Hs ltac:(done)) as [Hv _]. unfold wp, vec. rewrite Hv. change (wp (put f.(rd) (gather ((if negb scalar && f.(vector_128) then 128 else 64) / w) w (fun i =>
            if compare_lanes comparison w (masked_lane (vreg s f.(rn)) w i) (masked_lane (vreg s f.(rm)) w i) then lane_mask w else 0)))
            (fun _ s' => s' = vset s f.(rd) (gather ((if scalar then 64 else vector_bits f) / w) w F)) no_error s).
          simd_run. f_equal. apply Hend. cbn [second_source]. by rewrite Hz.
      - unfold shift_register. simd_run. f_equal. apply gather_ext. intros i Hi. fold w. rewrite masked_lane_at by lia.
        replace (Z.land (shr (vreg s (rm f)) (i * w)) 255) with (wrap 8 (lane_at (vreg s (rm f)) w i)); [by apply shift_lane_spec|].
        change 255 with (Z.ones 8). rewrite land_ones_wrap by lia. unfold lane_at. apply wrap_wrap_le. lia. }
    unfold wp in Hrun. destruct (lane_instruction f k s) as [[[]|[]|] s'] eqn:E; try done. all: by subst.
  - intros i Hi. apply lane_function_range; [lia|apply Hr..].
Qed.

(** CMLT V2.16B, V0.16B, #0 with every lane of V0 negative. *)
Lemma lane_instruction_spec_witness :
  let s := vset A64State_default 0 (2 ^ 128 - 1) in
  exists f v, normalize_operands 0x57 0x4e20a802 = Ok f /\ f.(compare_with_zero) = true /\
    lane_instruction f (LaneCompare SignedLessThan false) s = (Ok tt, vset s 2 v) /\ lane_at v 8 15 = 255.
Proof.
  intros s. destruct (normalize_operands 0x57 0x4e20a802) as [f|[]|] eqn:E; [|vm_compute in E; discriminate E]. exists f.
  pose proof (normalize_operands_ok _ _ _ E) as Hf. assert (Hv : f.(compare_with_zero) = true /\ f.(rd) = 2 /\ vector_bits f = 128 /\ lane_width f = 8 /\ f.(rn) = 0)
    by (vm_compute in E; injection E as <-; vm_compute; auto 10).
  destruct Hv as (Hz & Hrd & Hvb & Hlw & Hrn).
  destruct (lane_instruction_spec f (LaneCompare SignedLessThan false) s Hf (vset_ok _ _ _ A64State_default_ok) ltac:(discriminate)) as (v & Hrun & Hl).
  exists v. rewrite Hrd in Hrun. split; [done|]. split; [done|]. split; [done|]. cbv zeta in Hl. cbn [active_bits second_source] in Hl.
  rewrite Hvb, Hlw, Hrn, Hz in Hl. destruct Hl as [_ Hl].
  rewrite (Hl 15) by (vm_compute; split; [discriminate|reflexivity]). vm_compute. reflexivity.
Defined.

Lemma lanes_ext n w u v : 0 <= n -> 0 < w -> in_range (n * w) u -> in_range (n * w) v -> (forall i, 0 <= i < n -> lane_at u w i = lane_at v w i) -> u = v.
Proof.
  intros Hn Hw Hu Hv H. apply Z.bits_inj'. intros k Hk. destruct (Z.lt_ge_cases k (n * w)) as [Hlt|Hge].
  - pose proof (Z.div_mod k w ltac:(lia)) as Hdm. pose proof (Z.mod_pos_bound k w Hw) as Hm.
    assert (Hq : 0 <= k / w < n) by (split; [apply Z.div_pos; lia|apply Z.div_lt_upper_bound; lia]).
    pose proof (f_equal (fun z => Z.testbit z (k mod w)) (H _ Hq)) as Hb. cbv beta in Hb.
    rewrite !testbit_lane_at, (proj2 (Z.ltb_lt _ _)) in Hb by lia. replace (k / w * w + k mod w) with k in Hb by lia. done.
  - by rewrite !(testbit_high (n * w)) by (done || nia).
Qed.

(** The vector a permutation gathers. *)
Definition permuted (f : Operands) (operation : PermuteOperation) (first second : Z) : Z :=
  gather (vector_bits f / lane_width f) (lane_width f) (fun i =>
    let '(from_second, source) := permute_source operation (vector_bits f / lane_width f / 2) i in
    lane_at (if from_second then second else first) (lane_width f) source).

Lemma permute_run f operation s : operands_ok f -> state_ok s ->
  permute_two_source f operation s = (Ok tt, vset s f.(rd) (permuted f operation (vreg s f.(rn)) (vreg s f.(rm)))).
Proof.
  intros Hf Hs. pose proof (fr_rd f Hf). pose proof (fr_rn f Hf). pose proof (fr_rm f Hf). pose proof (lane_width_cases f Hf).
  assert (Hrun : wp (permute_two_source f operation)
    (fun _ s' => s' = vset s f.(rd) (permuted f operation (vreg s f.(rn)) (vreg s f.(rm)))) no_error s).
  { unfold permute_two_source. simd_run. f_equal. apply gather_ext. intros i Hi. destruct (permute_source _ _ i). apply masked_lane_at. lia. }
  unfold wp in Hrun. destruct (permute_two_source f operation s) as [[[]|[]|] s'] eqn:E; try done. all: by subst.
Qed.

Lemma permuted_lanes f operation first second : operands_ok f ->
  holds_lanes (permuted f operation first second) (vector_bits f / lane_width f) (lane_width f) (fun i =>
    let '(from_second, source) := permute_source operation (vector_bits f / lane_width f / 2) i in
    lane_at (if from_second then second else first) (lane_width f) source).
Proof.
  intros Hf. pose proof (lane_width_cases f Hf). destruct (count_width f Hf). apply gather_lanes; [done|lia| |].
  - unfold vector_bits in *. destruct (vector_128 f); lia.
  - intros i Hi. destruct (permute_source _ _ i). apply lane_at_range. lia.
Qed.

Lemma count_even f : operands_ok f -> f.(vector_128) || (f.(opc) <? 3) = true ->
  let n := vector_bits f / lane_width f in n = 2 * (n / 2) /\ 0 < n / 2.
Proof.
  intros Hf Hsh. cbv zeta. pose proof (fr_opc f Hf). unfold vector_bits, lane_width.
  assert (Hc : f.(opc) = 0 \/ f.(opc) = 1 \/ f.(opc) = 2 \/ f.(opc) = 3) by lia.
  destruct (vector_128 f), Hc as [-> |[-> |[-> | Ho]]]; try rewrite Ho in *; vm_compute; try done; by rewrite Ho in Hsh.
Qed.

Definition active (f : Operands) (v : Z) : Z := wrap (vector_bits f) v.

Lemma lane_at_active f v i : operands_ok f -> 0 <= i < vector_bits f / lane_width f -> lane_at (active f v) (lane_width f) i = lane_at v (lane_width f) i.
Proof.
  intros Hf Hi. pose proof (lane_width_cases f Hf). destruct (count_width f Hf). apply Z.bits_inj'. intros k Hk. rewrite !testbit_lane_at by lia.
  destruct (Z.ltb_spec k (lane_width f)); cbn [andb]; [|done]. unfold active. rewrite testbit_wrap by (unfold vector_bits; destruct (vector_128 f); lia).
  rewrite (proj2 (Z.ltb_lt _ _)); [done|]. nia.
Qed.

Lemma active_range f v : in_range (vector_bits f) (active f v).
Proof. apply wrap_range. unfold vector_bits. destruct (vector_128 f); lia. Qed.

(** Unzipping the two halves of a zip gives the sources back. *)
Lemma unzip_zip f (second : bool) a b : operands_ok f -> f.(vector_128) || (f.(opc) <? 3) = true ->
  permuted f (if second then UnzipSecondary else UnzipPrimary) (permuted f ZipPrimary a b) (permuted f ZipSecondary a b) =
  active f (if second then b else a).
Proof.
  intros Hf Hsh. pose proof (lane_width_cases f Hf) as Hw. destruct (count_width f Hf) as [Hc Hn]. destruct (count_even f Hf Hsh) as [He Hh].
  destruct (permuted_lanes f (if second then UnzipSecondary else UnzipPrimary) (permuted f ZipPrimary a b) (permuted f ZipSecondary a b) Hf) as [Hr Hl].
  apply (lanes_ext (vector_bits f / lane_width f) (lane_width f)); [done|lia|done|rewrite Hc; apply active_range|].
  intros i Hi. rewrite Hl, lane_at_active by done. destruct (permuted_lanes f ZipPrimary a b Hf) as [_ H1]. destruct (permuted_lanes f ZipSecondary a b Hf) as [_ H2].
  set (n := vector_bits f / lane_width f) in *. set (h := n / 2) in *. cbn [permute_source] in H1, H2.
  assert (Hland : forall j c, (c = 0 \/ c = 1) -> negb (Z.land (j * 2 + c) 1 =? 0) = (c =? 1) /\ (j * 2 + c) / 2 = j).
  { intros j c Hc'. change 1 with (Z.ones 1) at 1. rewrite Z.land_ones, Z.pow_1_r by lia. rewrite Z.add_comm, Z.mod_add, Z.div_add by lia.
    destruct Hc' as [-> | ->]; split; try reflexivity; cbn; lia. }
  set (c := if second then 1 else 0). assert (Hcc : c = 0 \/ c = 1) by (unfold c; destruct second; lia).
  replace (permute_source (if second then UnzipSecondary else UnzipPrimary) h i) with (if i <? h then (false, i * 2 + c) else (true, (i - h) * 2 + c))
    by (unfold c; by destruct second).
  destruct (Z.ltb_spec i h); [rewrite H1 by lia|rewrite H2 by lia].
  - destruct (Hland i c Hcc) as [-> ->]. unfold c. destruct second; cbn; f_equal; lia.
  - destruct (Hland (i - h) c Hcc) as [-> ->]. unfold c. destruct second; cbn; f_equal; lia.
Qed.

(** Zip and unzip are inverse: ZIP1 and ZIP2 of two registers into two fresh
    registers, then UZP1 and UZP2 of those, complete and give back the active
    parts of the two sources, for every lane width with more than one lane. *)
Theorem zip_unzip_roundtrip f1 f2 f3 f4 s :
  Forall operands_ok [f1; f2; f3; f4] -> state_ok s -> f1.(vector_128) || (f1.(opc) <? 3) = true ->
  Forall (fun f => f.(opc) = f1.(opc) /\ f.(vector_128) = f1.(vector_128)) [f2; f3; f4] ->
  f2.(rn) = f1.(rn) -> f2.(rm) = f1.(rm) -> f1.(rd) <> f1.(rn) -> f1.(rd) <> f1.(rm) -> f1.(rd) <> f2.(rd) ->
  Forall (fun f => f.(rn) = f1.(rd) /\ f.(rm) = f2.(rd)) [f3; f4] -> f3.(rd) <> f1.(rd) -> f3.(rd) <> f2.(rd) -> f3.(rd) <> f4.(rd) ->
  exists s', (do! permute_two_source f1 ZipPrimary in do! permute_two_source f2 ZipSecondary in
              do! permute_two_source f3 UnzipPrimary in permute_two_source f4 UnzipSecondary) s = (Ok tt, s') /\
    vreg s' f3.(rd) = active f1 (vreg s f1.(rn)) /\ vreg s' f4.(rd) = active f1 (vreg s f1.(rm)).
Proof.
  intros Hall Hs Hsh Hshape En Em D1 D2 D3 Hsrc D4 D5 D6. rewrite !Forall_cons in Hall. destruct Hall as (O1 & O2 & O3 & O4 & _).
  rewrite !Forall_cons in Hshape. destruct Hshape as ((So2 & Sv2) & (So3 & Sv3) & (So4 & Sv4) & _).
  rewrite !Forall_cons in Hsrc. destruct Hsrc as ((N3 & M3) & (N4 & M4) & _).
  assert (Hp : forall f op, f.(opc) = f1.(opc) -> f.(vector_128) = f1.(vector_128) -> permuted f op = permuted f1 op)
    by (intros f op Ho Hv; unfold permuted, lane_width, vector_bits; by rewrite Ho, Hv).
  assert (Hr : forall op a b, in_range 128 (permuted f1 op a b)).
  { intros op a b. destruct (permuted_lanes f1 op a b O1) as [Hr _]. destruct (count_width f1 O1) as [Hc _]. rewrite Hc in Hr.
    apply (in_range_le (vector_bits f1)); [unfold vector_bits; destruct (vector_128 f1); lia|done]. }
  pose proof (fr_rd f1 O1). pose proof (fr_rd f2 O2). pose proof (fr_rd f3 O3). pose proof (fr_rd f4 O4). pose proof (fr_rn f1 O1). pose proof (fr_rm f1 O1).
  set (z1 := permuted f1 ZipPrimary (vreg s f1.(rn)) (vreg s f1.(rm))). set (s1 := vset s f1.(rd) z1).
  set (z2 := permuted f1 ZipSecondary (vreg s f1.(rn)) (vreg s f1.(rm))). set (s2 := vset s1 f2.(rd) z2).
  set (s3 := vset s2 f3.(rd) (active f1 (vreg s f1.(rn)))). set (s4 := vset s3 f4.(rd) (active f1 (vreg s f1.(rm)))).
  assert (K1 : state_ok s1) by (by apply vset_ok). assert (K2 : state_ok s2) by (by apply vset_ok). assert (K3 : state_ok s3) by (by apply vset_ok).
  assert (Z12 : vreg s2 f1.(rd) = z1 /\ vreg s2 f2.(rd) = z2).
  { unfold s2, s1. split; [rewrite vreg_vset_ne by lia; apply vreg_vset|apply vreg_vset]; try done; apply Hr. }
  destruct Z12 as [Z1 Z2]. assert (Ha : forall v, in_range 128 (active f1 v)).
  { intros v. apply (in_range_le (vector_bits f1)); [unfold vector_bits; destruct (vector_128 f1); lia|apply active_range]. }
  exists s4. split; [|split].
  - assert (E1 : permute_two_source f1 ZipPrimary s = (Ok tt, s1)) by (by apply permute_run).
    assert (E2 : permute_two_source f2 ZipSecondary s1 = (Ok tt, s2)).
    { rewrite permute_run, Hp, En, Em by done. assert (Hv : forall i, 0 <= i -> f1.(rd) <> i -> vreg s1 i = vreg s i) by (intros; apply vreg_vset_ne; lia). by rewrite !Hv by lia. }
    assert (E3 : permute_two_source f3 UnzipPrimary s2 = (Ok tt, s3)).
    { rewrite permute_run, Hp, N3, M3, Z1, Z2 by done. unfold s3. do 2 f_equal. apply (unzip_zip f1 false); done. }
    assert (E4 : permute_two_source f4 UnzipSecondary s3 = (Ok tt, s4)).
    { rewrite permute_run, Hp, N4, M4 by done. assert (Hv : forall i, 0 <= i -> f3.(rd) <> i -> vreg s3 i = vreg s2 i) by (intros; apply vreg_vset_ne; lia). rewrite !Hv, Z1, Z2 by lia. unfold s4. do 2 f_equal. apply (unzip_zip f1 true); done. }
    unfold bind. by rewrite E1, E2, E3, E4.
  - unfold s4, s3. rewrite vreg_vset_ne by lia. by apply vreg_vset.
  - unfold s4. by apply vreg_vset.
Qed.

(** On V0..V5.16B with V0 = 1 and V1 = 2. *)
Lemma zip_unzip_roundtrip_witness :
  let s := vset (vset A64State_default 0 1) 1 2 in
  exists f1 f2 f3 f4 s', normalize_operands 0x64 0x4e013802 = Ok f1 /\
    (do! permute_two_source f1 ZipPrimary in do! permute_two_source f2 ZipSecondary in
     do! permute_two_source f3 UnzipPrimary in permute_two_source f4 UnzipSecondary) s = (Ok tt, s') /\ vreg s' 5 = 2.
Proof.
  intros s. assert (Hs : state_ok s) by (apply vset_ok, vset_ok, A64State_default_ok).
  destruct (normalize_operands 0x64 0x4e013802) as [f1|[]|] eqn:E1; [|vm_compute in E1; discriminate E1].
  destruct (normalize_operands 0x64 0x4e017803) as [f2|[]|] eqn:E2; [|vm_compute in E2; discriminate E2].
  destruct (normalize_operands 0x64 0x4e031844) as [f3|[]|] eqn:E3; [|vm_compute in E3; discriminate E3].
  destruct (normalize_operands 0x64 0x4e035845) as [f4|[]|] eqn:E4; [|vm_compute in E4; discriminate E4].
  pose proof (normalize_operands_ok _ _ _ E1). pose proof (normalize_operands_ok _ _ _ E2).
  pose proof (normalize_operands_ok _ _ _ E3). pose proof (normalize_operands_ok _ _ _ E4).
  assert (O1 : f1.(rd) = 2 /\ f1.(rn) = 0 /\ f1.(rm) = 1 /\ f1.(opc) = 0 /\ f1.(vector_128) = true) by (vm_compute in E1; injection E1 as <-; auto 10).
  assert (O2 : f2.(rd) = 3 /\ f2.(rn) = 0 /\ f2.(rm) = 1 /\ f2.(opc) = 0 /\ f2.(vector_128) = true) by (vm_compute in E2; injection E2 as <-; auto 10).
  assert (O3 : f3.(rd) = 4 /\ f3.(rn) = 2 /\ f3.(rm) = 3 /\ f3.(opc) = 0 /\ f3.(vector_128) = true) by (vm_compute in E3; injection E3 as <-; auto 10).
  assert (O4 : f4.(rd) = 5 /\ f4.(rn) = 2 /\ f4.(rm) = 3 /\ f4.(opc) = 0 /\ f4.(vector_128) = true) by (vm_compute in E4; injection E4 as <-; auto 10).
  destruct O1 as (D1 & N1 & M1 & C1 & V1), O2 as (D2 & N2 & M2 & C2 & V2), O3 as (D3 & N3 & M3 & C3 & V3), O4 as (D4 & N4 & M4 & C4 & V4).
  destruct (zip_unzip_roundtrip f1 f2 f3 f4 s) as (s' & Hrun & _ & Hb); try congruence.
  - by rewrite !Forall_cons.
  - by rewrite V1.
  - rewrite !Forall_cons; repeat split; try congruence; apply Forall_nil_2.
  - rewrite !Forall_cons; repeat split; try congruence; apply Forall_nil_2.
  - exists f1, f2, f3, f4, s'. split; [done|]. split; [done|]. rewrite D4 in Hb. rewrite Hb. unfold active, vector_bits. rewrite V1, M1. vm_compute. reflexivity.
Defined.
