(* ===== verification/FpFloat.v ===== *)
(** * Integer-only IEEE arithmetic (crates/cpu/src/semantics/a64_fp_simd.rs)

    Formats, decoded operands, rounding and packing, and the arithmetic of one
    lane: conversions, addition, multiplication, division, fused multiply-add,
    square root, minimum and maximum, rounding to an integer, comparison.

    [None] is a panic: an [unreachable!], a failed [debug_assert!], a shift by
    the width of its type or more, or an overflowing addition in a build with
    overflow checks.  Exponents are
    [i32] values within a few thousands, their arithmetic is that of [Z].  A
    [FpLaneOutcome] and an [ExactFpOutcome] differ in the type of [bits] only,
    and [exact_value] converts between them: both are [FpOutcome] here. *)

From S2P Require Import Prelude Loops CpuVector DecodeFpOperands.

Record BinaryFormat := mkFormat { total_bits : Z; fraction_bits : Z; exponent_bits : Z; exponent_bias : Z }.

Definition BinaryFormat_new (format : FpFormat) : option BinaryFormat :=
  match format with
  | Binary32 => Some (mkFormat 32 23 8 127)
  | Binary64 => Some (mkFormat 64 52 11 1023)
  | Binary16 => None
  end.

Definition fp_format (bits : Z) : option FpFormat :=
  match bits with 32 => Some Binary32 | 64 => Some Binary64 | _ => None end.

Definition sign_mask (f : BinaryFormat) : Z := shl 64 1 (f.(total_bits) - 1).
Definition fraction_mask (f : BinaryFormat) : Z := shl 64 1 f.(fraction_bits) - 1.
Definition exponent_mask (f : BinaryFormat) : Z := shl 64 (shl 64 1 f.(exponent_bits) - 1) f.(fraction_bits).
Definition exponent_max (f : BinaryFormat) : Z := shl 64 1 f.(exponent_bits) - 1.
Definition quiet_nan_bit (f : BinaryFormat) : Z := shl 64 1 (f.(fraction_bits) - 1).
Definition default_nan (f : BinaryFormat) : Z := Z.lor (exponent_mask f) (quiet_nan_bit f).

Record DecodedFloat := mkFloat {
  df_bits : Z; df_sign : bool; df_exponent_field : Z; df_fraction : Z; df_significand : Z; df_scale : Z
}.

Definition DecodedFloat_new (bits : Z) (f : BinaryFormat) : DecodedFloat :=
  let sign := bit_set bits (sign_mask f) in
  let exponent_field := shr (Z.land bits (exponent_mask f)) f.(fraction_bits) in
  let fraction := Z.land bits (fraction_mask f) in
  let '(significand, scale) :=
    if exponent_field =? 0 then (fraction, 1 - f.(exponent_bias) - f.(fraction_bits))
    else (Z.lor (shl 64 1 f.(fraction_bits)) fraction, exponent_field - f.(exponent_bias) - f.(fraction_bits)) in
  mkFloat bits sign exponent_field fraction significand scale.

Definition is_zero (x : DecodedFloat) : bool := (x.(df_exponent_field) =? 0) && (x.(df_fraction) =? 0).
Definition is_subnormal (x : DecodedFloat) : bool := (x.(df_exponent_field) =? 0) && negb (x.(df_fraction) =? 0).
Definition is_infinite (x : DecodedFloat) (f : BinaryFormat) : bool :=
  (x.(df_exponent_field) =? exponent_max f) && (x.(df_fraction) =? 0).
Definition is_nan (x : DecodedFloat) (f : BinaryFormat) : bool :=
  (x.(df_exponent_field) =? exponent_max f) && negb (x.(df_fraction) =? 0).
Definition is_signaling_nan (x : DecodedFloat) (f : BinaryFormat) : bool :=
  is_nan x f && (Z.land x.(df_fraction) (quiet_nan_bit f) =? 0).

(** [x.bits ^= sign_mask; x.sign = !x.sign] *)
Definition negate (f : BinaryFormat) (x : DecodedFloat) : DecodedFloat :=
  mkFloat (Z.lxor x.(df_bits) (sign_mask f)) (negb x.(df_sign)) x.(df_exponent_field) x.(df_fraction) x.(df_significand) x.(df_scale).

Record FpOutcome := mkOutcome { out_bits : Z; out_status : FpStatus }.

(** Assignments to one field of the status. *)
Definition with_invalid (b : bool) (s : FpStatus) : FpStatus :=
  mkStatus b s.(divide_by_zero) s.(overflow) s.(underflow) s.(inexact) s.(input_denormal).
Definition with_divide_by_zero (b : bool) (s : FpStatus) : FpStatus :=
  mkStatus s.(invalid_operation) b s.(overflow) s.(underflow) s.(inexact) s.(input_denormal).
Definition with_overflow (b : bool) (s : FpStatus) : FpStatus :=
  mkStatus s.(invalid_operation) s.(divide_by_zero) b s.(underflow) s.(inexact) s.(input_denormal).
Definition with_underflow (b : bool) (s : FpStatus) : FpStatus :=
  mkStatus s.(invalid_operation) s.(divide_by_zero) s.(overflow) b s.(inexact) s.(input_denormal).
Definition with_inexact (b : bool) (s : FpStatus) : FpStatus :=
  mkStatus s.(invalid_operation) s.(divide_by_zero) s.(overflow) s.(underflow) b s.(input_denormal).
Definition with_input_denormal (b : bool) (s : FpStatus) : FpStatus :=
  mkStatus s.(invalid_operation) s.(divide_by_zero) s.(overflow) s.(underflow) s.(inexact) b.

Definition merge_fp_status (destination source : FpStatus) : FpStatus :=
  mkStatus (destination.(invalid_operation) || source.(invalid_operation))
    (destination.(divide_by_zero) || source.(divide_by_zero)) (destination.(overflow) || source.(overflow))
    (destination.(underflow) || source.(underflow)) (destination.(inexact) || source.(inexact))
    (destination.(input_denormal) || source.(input_denormal)).

Definition fp_status_bits (s : FpStatus) : Z :=
  Z.lor (Z.lor (Z.lor (Z.lor (Z.lor (b2z s.(invalid_operation)) (Z.shiftl (b2z s.(divide_by_zero)) 1))
    (Z.shiftl (b2z s.(overflow)) 2)) (Z.shiftl (b2z s.(underflow)) 3)) (Z.shiftl (b2z s.(inexact)) 4))
    (Z.shiftl (b2z s.(input_denormal)) 7).

Definition fp_status_traps (s : FpStatus) (fpcr : Z) : bool :=
  let enables := Z.lor (Z.land (shr fpcr 8) 0x1f) (Z.shiftl (Z.land (shr fpcr 15) 1) 7) in
  negb (Z.land (fp_status_bits s) enables =? 0).

(** The control fields of FPCR: [FpAddControl], [FpConvertControl] and
    [FpDivideControl] have the same three. *)
Definition fpcr_rounding_mode (fpcr : Z) : FpRoundingMode :=
  match Z.land (shr fpcr 22) 3 with 0 => TiesToEven | 1 => TowardPositive | 2 => TowardNegative | _ => TowardZero end.

Record FpControl := mkControl { rounding : FpRoundingMode; control_default_nan : bool; flush_to_zero : bool }.

Definition from_fpcr (fpcr : Z) : FpControl :=
  mkControl (fpcr_rounding_mode fpcr) (bit_set fpcr (2 ^ 25)) (bit_set fpcr (2 ^ 24)).

(** [63 - x.leading_zeros()] as an [i32], and the same at 128 bits. *)
Definition top_bit (x : Z) : Z := if x =? 0 then -1 else Z.log2 x.

(** [x << n] when [n] is not below the width of the type: a panic. *)
Definition shl_checked (w x n : Z) : option Z := if (0 <=? n) && (n <? w) then Some (shl w x n) else None.

(** [x + y] of a [w]-bit type: a sum that does not fit is a panic in a build with
    overflow checks, and wraps in one without them. *)
Definition add_checked (overflow_checks : bool) (w x y : Z) : option Z :=
  if x + y <? 2 ^ w then Some (x + y) else if overflow_checks then None else Some (wrap w (x + y)).

(** ** Rounding *)

Definition should_round (retained remainder denominator : Z) (negative : bool) (rounding : FpRoundingMode) : option bool :=
  if remainder =? 0 then Some false
  else match rounding with
  | TiesToEven =>
      let twice := shl 128 remainder 1 in
      Some ((denominator <? twice) || ((twice =? denominator) && negb (Z.land retained 1 =? 0)))
  | TowardPositive => Some (negb negative)
  | TowardNegative => Some negative
  | TowardZero => Some false
  | TiesAway | ToOdd => None
  end.

Definition overflow_result (sign_bits : Z) (f : BinaryFormat) (rounding : FpRoundingMode) : option Z :=
  let infinity := Z.lor sign_bits (exponent_mask f) in
  let maximum_finite := Z.lor (Z.lor sign_bits (shl 64 (exponent_max f - 1) f.(fraction_bits))) (fraction_mask f) in
  match rounding with
  | TiesToEven => Some infinity
  | TowardPositive => Some (if sign_bits =? 0 then infinity else maximum_finite)
  | TowardNegative => Some (if negb (sign_bits =? 0) then infinity else maximum_finite)
  | TowardZero => Some maximum_finite
  | TiesAway | ToOdd => None
  end.

Definition scale_integer_for_pack (value shift : Z) : option (Z * Z * Z) :=
  if shift <=? 0 then v ← shl_checked 128 value (- shift); Some (wrap 64 v, 0, 1)
  else if shift <? 128 then
    let denominator := shl 128 1 shift in Some (wrap 64 (shr value shift), Z.land value (denominator - 1), denominator)
  else Some (0, value, umax 128).

Definition sign_bits_of (negative : bool) (f : BinaryFormat) : Z := shl 64 (b2z negative) (f.(total_bits) - 1).

(** A rounded normal result, or the overflow result. *)
Definition pack_normal (sign_bits significand exponent : Z) (is_inexact : bool) (f : BinaryFormat) (rounding : FpRoundingMode)
  (status : FpStatus) : option FpOutcome :=
  let '(significand, exponent) :=
    if significand =? shl 64 1 (f.(fraction_bits) + 1) then (shr significand 1, exponent + 1) else (significand, exponent) in
  if f.(exponent_bias) <? exponent then
    bits ← overflow_result sign_bits f rounding;
    Some (mkOutcome bits (with_inexact true (with_overflow true status)))
  else
    Some (mkOutcome (Z.lor (Z.lor sign_bits (shl 64 (wrap 64 (exponent + f.(exponent_bias))) f.(fraction_bits)))
                           (Z.land significand (fraction_mask f))) (with_inexact is_inexact status)).

(** A rounded subnormal result. *)
Definition pack_subnormal (sign_bits fraction : Z) (is_inexact : bool) (f : BinaryFormat) (status : FpStatus) : FpOutcome :=
  let status := with_underflow is_inexact (with_inexact is_inexact status) in
  if fraction =? shl 64 1 f.(fraction_bits) then mkOutcome (Z.lor sign_bits (shl 64 1 f.(fraction_bits))) status
  else mkOutcome (Z.lor sign_bits fraction) status.

Definition pack_float_sum (magnitude scale : Z) (negative : bool) (f : BinaryFormat) (control : FpControl)
  (status : FpStatus) : option FpOutcome :=
  let sign_bits := sign_bits_of negative f in
  let top := top_bit magnitude in
  let exponent := scale + top in
  let minimum_normal := 1 - f.(exponent_bias) in
  if minimum_normal <=? exponent then
    '(significand, remainder, denominator) ← scale_integer_for_pack magnitude (top - f.(fraction_bits));
    up ← should_round significand remainder denominator negative control.(rounding);
    pack_normal sign_bits (significand + b2z up) exponent (negb (remainder =? 0)) f control.(rounding) status
  else if control.(flush_to_zero) then Some (mkOutcome sign_bits (with_underflow true status))
  else
    let minimum_subnormal := minimum_normal - f.(fraction_bits) in
    '(fraction, remainder, denominator) ← scale_integer_for_pack magnitude (minimum_subnormal - scale);
    up ← should_round fraction remainder denominator negative control.(rounding);
    Some (pack_subnormal sign_bits (fraction + b2z up) (negb (remainder =? 0)) f status).

Definition shift_right_jam (value distance : Z) : Z :=
  if distance =? 0 then value
  else if distance <? 128 then Z.lor (shr value distance) (b2z (negb (Z.land value (shl 128 1 distance - 1) =? 0)))
  else b2z (negb (value =? 0)).

(** ** NaN selection and flushing of inputs *)

Definition propagate_nan (lhs rhs : DecodedFloat) (f : BinaryFormat) (use_default : bool) : Z :=
  if use_default then default_nan f
  else
    let selected :=
      if is_signaling_nan lhs f then lhs
      else if is_signaling_nan rhs f then rhs
      else if is_nan lhs f then lhs else rhs in
    Z.lor selected.(df_bits) (quiet_nan_bit f).

Definition propagate_nan_three (first second third : DecodedFloat) (f : BinaryFormat) (use_default : bool) : option Z :=
  if use_default then Some (default_nan f)
  else
    let operands := [third; first; second] in
    match List.find (fun x => is_signaling_nan x f) operands with
    | Some x => Some (Z.lor x.(df_bits) (quiet_nan_bit f))
    | None => option_map df_bits (List.find (fun x => is_nan x f) operands)
    end.

(** One turn of [for operand in [&mut lhs, &mut rhs]]. *)
Definition flush (f : BinaryFormat) (enabled : bool) (x : DecodedFloat) (status : FpStatus) : DecodedFloat * FpStatus :=
  if enabled && is_subnormal x
  then (DecodedFloat_new (Z.land x.(df_bits) (sign_mask f)) f, with_input_denormal true status)
  else (x, status).

(** The same loop as the division writes it, field by field. *)
Definition flush_fields (f : BinaryFormat) (enabled : bool) (x : DecodedFloat) (status : FpStatus) : DecodedFloat * FpStatus :=
  if enabled && is_subnormal x
  then (mkFloat (Z.land x.(df_bits) (sign_mask f)) x.(df_sign) 0 0 0 x.(df_scale), with_input_denormal true status)
  else (x, status).

(** ** Addition *)

Definition add_ieee_lane (lhs_bits rhs_bits : Z) (format : FpFormat) (fpcr : Z) (subtract : bool) : option FpOutcome :=
  f ← BinaryFormat_new format;
  let control := from_fpcr fpcr in
  let '(lhs, status) := flush f control.(flush_to_zero) (DecodedFloat_new lhs_bits f) FpStatus_default in
  let '(rhs, status) := flush f control.(flush_to_zero) (DecodedFloat_new rhs_bits f) status in
  if is_nan lhs f || is_nan rhs f then
    Some (mkOutcome (propagate_nan lhs rhs f control.(control_default_nan))
                    (with_invalid (is_signaling_nan lhs f || is_signaling_nan rhs f) status))
  else
  let rhs := if subtract then negate f rhs else rhs in
  if is_infinite lhs f || is_infinite rhs f then
    if is_infinite lhs f && is_infinite rhs f && negb (Bool.eqb lhs.(df_sign) rhs.(df_sign))
    then Some (mkOutcome (default_nan f) (with_invalid true status))
    else Some (mkOutcome (if is_infinite lhs f then lhs.(df_bits) else rhs.(df_bits)) status)
  else
  let toward_negative := match control.(rounding) with TowardNegative => true | _ => false end in
  if is_zero lhs && is_zero rhs then
    let negative := if Bool.eqb lhs.(df_sign) rhs.(df_sign) then lhs.(df_sign) else toward_negative in
    Some (mkOutcome (sign_bits_of negative f) status)
  else if is_zero lhs then Some (mkOutcome rhs.(df_bits) status)
  else if is_zero rhs then Some (mkOutcome lhs.(df_bits) status)
  else
  let common_scale := Z.max lhs.(df_scale) rhs.(df_scale) in
  let lhs_magnitude := shift_right_jam (shl 128 lhs.(df_significand) 3) (common_scale - lhs.(df_scale)) in
  let rhs_magnitude := shift_right_jam (shl 128 rhs.(df_significand) 3) (common_scale - rhs.(df_scale)) in
  let pack negative magnitude := pack_float_sum magnitude (common_scale - 3) negative f control status in
  if Bool.eqb lhs.(df_sign) rhs.(df_sign) then pack lhs.(df_sign) (lhs_magnitude + rhs_magnitude)
  else if rhs_magnitude <? lhs_magnitude then pack lhs.(df_sign) (lhs_magnitude - rhs_magnitude)
  else if lhs_magnitude <? rhs_magnitude then pack rhs.(df_sign) (rhs_magnitude - lhs_magnitude)
  else Some (mkOutcome (sign_bits_of toward_negative f) status).

Definition exact_scalar_float_add (lhs rhs precision : Z) (operation : FloatAddOperation) (fpcr : Z) : option FpOutcome :=
  format ← fp_format precision;
  outcome ← add_ieee_lane lhs rhs format fpcr (match operation with FAdd => false | _ => true end);
  Some (match operation with
        | FAbsoluteDifference => mkOutcome (Z.land outcome.(out_bits) (shl 128 1 (precision - 1) - 1)) outcome.(out_status)
        | _ => outcome
        end).

(** ** Multiplication *)

Definition multiply_ieee_lane (lhs_bits rhs_bits : Z) (format : FpFormat) (fpcr : Z) : option FpOutcome :=
  f ← BinaryFormat_new format;
  let control := from_fpcr fpcr in
  let lhs := DecodedFloat_new lhs_bits f in
  let rhs := DecodedFloat_new rhs_bits f in
  if is_nan lhs f || is_nan rhs f then
    Some (mkOutcome (propagate_nan lhs rhs f control.(control_default_nan))
                    (with_invalid (is_signaling_nan lhs f || is_signaling_nan rhs f) FpStatus_default))
  else
  let '(lhs, status) := flush f control.(flush_to_zero) lhs FpStatus_default in
  let '(rhs, status) := flush f control.(flush_to_zero) rhs status in
  let negative := xorb lhs.(df_sign) rhs.(df_sign) in
  let sign_bits := sign_bits_of negative f in
  if (is_infinite lhs f && is_zero rhs) || (is_infinite rhs f && is_zero lhs)
  then Some (mkOutcome (default_nan f) (with_invalid true status))
  else if is_infinite lhs f || is_infinite rhs f then Some (mkOutcome (Z.lor sign_bits (exponent_mask f)) status)
  else if is_zero lhs || is_zero rhs then Some (mkOutcome sign_bits status)
  else pack_float_sum (lhs.(df_significand) * rhs.(df_significand)) (lhs.(df_scale) + rhs.(df_scale)) negative f control status.

Definition exact_scalar_float_multiply (lhs rhs precision : Z) (operation : FloatMultiplyOperation) (fpcr : Z)
  : option FpOutcome :=
  format ← fp_format precision;
  f ← BinaryFormat_new format;
  outcome ← multiply_ieee_lane lhs rhs format fpcr;
  Some (match operation with
        | FNegatedMultiply => mkOutcome (Z.lxor outcome.(out_bits) (sign_mask f)) outcome.(out_status)
        | FMultiply => outcome
        end).

(** ** Division *)

Definition scaled_quotient (numerator denominator shift : Z) : option (Z * Z * Z) :=
  if 0 <=? shift then
    let denominator_bits := top_bit denominator + 1 in
    if 127 <? denominator_bits + shift then Some (0, 1, 3)
    else
      let scaled_denominator := shl 128 denominator shift in
      Some (wrap 64 (numerator / scaled_denominator), numerator mod scaled_denominator, scaled_denominator)
  else if top_bit numerator + 1 - shift <=? 127 then
    let scaled_numerator := shl 128 numerator (- shift) in
    Some (wrap 64 (scaled_numerator / denominator), scaled_numerator mod denominator, denominator)
  else None.

Definition divide_finite (lhs rhs : DecodedFloat) (sign_bits : Z) (f : BinaryFormat) (control : FpControl) (status : FpStatus)
  : option FpOutcome :=
  let lhs_top := top_bit lhs.(df_significand) in
  let rhs_top := top_bit rhs.(df_significand) in
  let ratio_exponent := lhs_top - rhs_top -
    b2z (shl 128 lhs.(df_significand) rhs_top <? shl 128 rhs.(df_significand) lhs_top) in
  let exponent := lhs.(df_scale) - rhs.(df_scale) + ratio_exponent in
  let minimum_normal := 1 - f.(exponent_bias) in
  let negative := negb (sign_bits =? 0) in
  if minimum_normal <=? exponent then
    let shift := rhs.(df_scale) - lhs.(df_scale) + exponent - f.(fraction_bits) in
    '(significand, remainder, denominator) ← scaled_quotient lhs.(df_significand) rhs.(df_significand) shift;
    up ← should_round significand remainder denominator negative control.(rounding);
    pack_normal sign_bits (significand + b2z up) exponent (negb (remainder =? 0)) f control.(rounding) status
  else if control.(flush_to_zero) then Some (mkOutcome sign_bits (with_underflow true status))
  else
    let minimum_subnormal := minimum_normal - f.(fraction_bits) in
    let shift := rhs.(df_scale) - lhs.(df_scale) + minimum_subnormal in
    '(fraction, remainder, denominator) ← scaled_quotient lhs.(df_significand) rhs.(df_significand) shift;
    up ← should_round fraction remainder denominator negative control.(rounding);
    Some (pack_subnormal sign_bits (fraction + b2z up) (negb (remainder =? 0)) f status).

Definition divide_ieee_lane (lhs_bits rhs_bits : Z) (format : FpFormat) (control : FpControl) : option FpOutcome :=
  f ← BinaryFormat_new format;
  let lhs := DecodedFloat_new lhs_bits f in
  let rhs := DecodedFloat_new rhs_bits f in
  if is_nan lhs f || is_nan rhs f then
    Some (mkOutcome (propagate_nan lhs rhs f control.(control_default_nan))
                    (with_invalid (is_signaling_nan lhs f || is_signaling_nan rhs f) FpStatus_default))
  else
  let '(lhs, status) := flush_fields f control.(flush_to_zero) lhs FpStatus_default in
  let '(rhs, status) := flush_fields f control.(flush_to_zero) rhs status in
  let sign_bits := sign_bits_of (xorb lhs.(df_sign) rhs.(df_sign)) f in
  if (is_zero lhs && is_zero rhs) || (is_infinite lhs f && is_infinite rhs f)
  then Some (mkOutcome (default_nan f) (with_invalid true status))
  else if is_infinite lhs f then Some (mkOutcome (Z.lor sign_bits (exponent_mask f)) status)
  else if is_infinite rhs f || is_zero lhs then Some (mkOutcome sign_bits status)
  else if is_zero rhs then Some (mkOutcome (Z.lor sign_bits (exponent_mask f)) (with_divide_by_zero true status))
  else divide_finite lhs rhs sign_bits f control status.

Definition exact_scalar_float_divide (lhs rhs precision fpcr : Z) : option FpOutcome :=
  format ← fp_format precision; divide_ieee_lane lhs rhs format (from_fpcr fpcr).

(** ** Fused multiply-add *)

Definition shift_fits_u128 (value distance : Z) : bool :=
  (value =? 0) || ((distance <? 128) && (distance <=? 127 - top_bit value)).

Definition align_fused_operands (product product_scale addend addend_scale : Z) : Z * Z * Z :=
  if product =? 0 then (0, addend, addend_scale)
  else if addend =? 0 then (product, 0, product_scale)
  else
  let exact_scale := Z.min product_scale addend_scale in
  let product_shift := product_scale - exact_scale in
  let addend_shift := addend_scale - exact_scale in
  if shift_fits_u128 product product_shift && shift_fits_u128 addend addend_shift
  then (shl 128 product product_shift, shl 128 addend addend_shift, exact_scale)
  else
    let maximum_scale := Z.max product_scale addend_scale in
    (shift_right_jam (shl 128 product 3) (maximum_scale - product_scale),
     shift_right_jam (shl 128 addend 3) (maximum_scale - addend_scale), maximum_scale - 3).

Definition negates_product (operation : FloatFusedMultiplyOperation) : bool :=
  match operation with MultiplySubtract | NegatedMultiplyAdd => true | _ => false end.
Definition negates_addend (operation : FloatFusedMultiplyOperation) : bool :=
  match operation with NegatedMultiplyAdd | NegatedMultiplySubtract => true | _ => false end.

(** The part after the special cases: both magnitudes are finite. *)
Definition fused_finite (overflow_checks : bool) (multiplicand multiplier addend : DecodedFloat) (f : BinaryFormat) (control : FpControl)
  (status : FpStatus) : option FpOutcome :=
  let product_sign := xorb multiplicand.(df_sign) multiplier.(df_sign) in
  let product_magnitude := multiplicand.(df_significand) * multiplier.(df_significand) in
  let addend_magnitude := addend.(df_significand) in
  let toward_negative := match control.(rounding) with TowardNegative => true | _ => false end in
  if (product_magnitude =? 0) && (addend_magnitude =? 0) then
    let sign := if Bool.eqb product_sign addend.(df_sign) then product_sign else toward_negative in
    Some (mkOutcome (sign_bits_of sign f) status)
  else
  let product_scale := multiplicand.(df_scale) + multiplier.(df_scale) in
  let '(product, aligned_addend, common_scale) :=
    align_fused_operands product_magnitude product_scale addend_magnitude addend.(df_scale) in
  let pack negative magnitude := pack_float_sum magnitude common_scale negative f control status in
  if Bool.eqb product_sign addend.(df_sign) then
    sum ← add_checked overflow_checks 128 product aligned_addend; pack product_sign sum
  else if aligned_addend <? product then pack product_sign (product - aligned_addend)
  else if product <? aligned_addend then pack addend.(df_sign) (aligned_addend - product)
  else Some (mkOutcome (sign_bits_of toward_negative f) status).

Definition exact_scalar_float_fused_multiply_add (overflow_checks : bool) (multiplicand multiplier addend precision : Z)
  (operation : FloatFusedMultiplyOperation) (fpcr : Z) : option FpOutcome :=
  format ← fp_format precision;
  f ← BinaryFormat_new format;
  let multiplicand := DecodedFloat_new multiplicand f in
  let multiplier := DecodedFloat_new multiplier f in
  let addend := DecodedFloat_new addend f in
  let addend := if negates_addend operation then negate f addend else addend in
  let multiplicand := if negates_product operation then negate f multiplicand else multiplicand in
  let control := from_fpcr fpcr in
  let '(multiplicand, status) := flush f control.(flush_to_zero) multiplicand FpStatus_default in
  let '(multiplier, status) := flush f control.(flush_to_zero) multiplier status in
  let '(addend, status) := flush f control.(flush_to_zero) addend status in
  let invalid_product := (is_infinite multiplicand f && is_zero multiplier) || (is_infinite multiplier f && is_zero multiplicand) in
  if is_nan multiplicand f || is_nan multiplier f || is_nan addend f then
    let status := with_invalid (invalid_product || is_signaling_nan multiplicand f || is_signaling_nan multiplier f ||
                                is_signaling_nan addend f) status in
    bits ← (if invalid_product && negb (is_signaling_nan addend f) then Some (default_nan f)
            else propagate_nan_three multiplicand multiplier addend f control.(control_default_nan));
    Some (mkOutcome bits status)
  else if invalid_product then Some (mkOutcome (default_nan f) (with_invalid true status))
  else
  let product_sign := xorb multiplicand.(df_sign) multiplier.(df_sign) in
  if is_infinite multiplicand f || is_infinite multiplier f then
    if is_infinite addend f && negb (Bool.eqb addend.(df_sign) product_sign)
    then Some (mkOutcome (default_nan f) (with_invalid true status))
    else Some (mkOutcome (Z.lor (sign_bits_of product_sign f) (exponent_mask f)) status)
  else if is_infinite addend f
  then Some (mkOutcome (Z.lor (sign_bits_of addend.(df_sign) f) (exponent_mask f)) status)
  else fused_finite overflow_checks multiplicand multiplier addend f control status.

(** ** Square root *)

(** One turn of the Newton iteration. *)
Definition square_root_step (value root : Z) : Z + Z * Z :=
  let next := shr (root + value / root) 1 in
  if root <=? next then inr (root, value - root * root) else inl next.

(** [div_ceil(2)] *)
Definition half_up (n : Z) : Z := (n + 1) / 2.

(** The fuel bounds the first guess, and the guesses decrease. *)
Definition integer_square_root (value : Z) : option (Z * Z) :=
  if value =? 0 then None
  else match loop (square_root_step value) (2 ^ 65) (shl 128 1 (half_up (top_bit value + 1))) with
  | inr r => Some r
  | inl _ => None
  end.

(** The part after the special cases. *)
Definition square_root_finite (source : DecodedFloat) (f : BinaryFormat) (control : FpControl) (status : FpStatus)
  : option FpOutcome :=
  let '(significand, scale) :=
    if negb (Z.land source.(df_scale) 1 =? 0) then (shl 128 source.(df_significand) 1, source.(df_scale) - 1)
    else (source.(df_significand), source.(df_scale)) in
  let target_root_bits := f.(fraction_bits) + 4 in
  let current_root_bits := half_up (top_bit significand + 1) in
  if target_root_bits <? current_root_bits then None
  else
  let extra_root_bits := target_root_bits - current_root_bits in
  radicand ← shl_checked 128 significand (extra_root_bits * 2);
  '(root, remainder) ← integer_square_root radicand;
  let root := if negb (remainder =? 0) then Z.lor root 1 else root in
  pack_float_sum root (Z.quot scale 2 - extra_root_bits) false f control status.

Definition exact_scalar_float_square_root (source precision fpcr : Z) : option FpOutcome :=
  format ← fp_format precision;
  f ← BinaryFormat_new format;
  let source := DecodedFloat_new source f in
  let control := from_fpcr fpcr in
  if is_nan source f then
    Some (mkOutcome (if control.(control_default_nan) then default_nan f else Z.lor source.(df_bits) (quiet_nan_bit f))
                    (with_invalid (is_signaling_nan source f) FpStatus_default))
  else
  let '(source, status) := flush f control.(flush_to_zero) source FpStatus_default in
  if is_zero source then Some (mkOutcome source.(df_bits) status)
  else if source.(df_sign) then Some (mkOutcome (default_nan f) (with_invalid true status))
  else if is_infinite source f then Some (mkOutcome source.(df_bits) status)
  else square_root_finite source f control status.
