(* ===== verification/FpConvert.v ===== *)
(** * Conversions, selection and comparison of floating-point values

    The rest of the value primitives of crates/cpu/src/semantics/a64_fp_simd.rs:
    integer and format conversions, minimum and maximum, rounding to an integral
    value, comparison, and the lane loops of the vector forms. *)

From S2P Require Import Prelude CpuVector DecodeFpOperands FpFloat.

(** ** Integers to floating point *)

Definition integer_sign_and_magnitude (value width : Z) (signed : bool) : bool * Z :=
  if negb signed then (false, value)
  else
    let value := to_signed (if width =? 32 then 32 else 64) (if width =? 32 then wrap 32 value else value) in
    (value <? 0, Z.abs value).

(** The increment of a rounding step on [discarded] bits below [halfway * 2]. *)
Definition rounds_up (retained discarded halfway : Z) (negative : bool) (rounding : FpRoundingMode) : option bool :=
  match rounding with
  | TiesToEven => Some ((halfway <? discarded) || ((discarded =? halfway) && negb (Z.land retained 1 =? 0)))
  | TowardPositive => Some (negb negative && negb (discarded =? 0))
  | TowardNegative => Some (negative && negb (discarded =? 0))
  | TowardZero => Some false
  | TiesAway | ToOdd => None
  end.

Definition integer_magnitude_to_ieee (magnitude : Z) (negative : bool) (format_bits : Z) (rounding : FpRoundingMode)
  (fractional_bits : Z) : option (Z * bool) :=
  if magnitude =? 0 then Some (0, false)
  else
  let '(fraction_bits, exponent_bias) := if format_bits =? 32 then (23, 127) else (52, 1023) in
  let leading_bit := Z.log2 magnitude in
  let exponent := leading_bit + exponent_bias - fractional_bits in
  '(significand, is_inexact) ←
    (if leading_bit <=? fraction_bits then Some (shl 64 magnitude (fraction_bits - leading_bit), false)
     else
       let discarded_bits := leading_bit - fraction_bits in
       let retained := shr magnitude discarded_bits in
       let discarded := Z.land magnitude (shl 64 1 discarded_bits - 1) in
       increment ← rounds_up retained discarded (shl 64 1 (discarded_bits - 1)) negative rounding;
       Some (retained + b2z increment, negb (discarded =? 0)));
  let precision := fraction_bits + 1 in
  let '(significand, exponent) :=
    if significand =? shl 64 1 precision then (shr significand 1, exponent + 1) else (significand, exponent) in
  let sign := shl 64 (b2z negative) (format_bits - 1) in
  Some (Z.lor (Z.lor sign (shl 64 exponent fraction_bits)) (Z.land significand (shl 64 1 fraction_bits - 1)), is_inexact).

Definition exact_scalar_vector_integer_to_float (source lane_bits : Z) (signed : bool) (fpcr : Z) : option (Z * bool) :=
  let '(negative, magnitude) := integer_sign_and_magnitude source lane_bits signed in
  integer_magnitude_to_ieee magnitude negative lane_bits (fpcr_rounding_mode fpcr) 0.

Definition exact_scalar_integer_to_float (source source_bits destination_bits : Z) (signed : bool) (fpcr fractional_bits : Z)
  : option (Z * bool) :=
  let '(negative, magnitude) := integer_sign_and_magnitude source source_bits signed in
  integer_magnitude_to_ieee magnitude negative destination_bits (fpcr_rounding_mode fpcr) fractional_bits.

(** [for shift in (0..vector_bits).step_by(lane_bits)]: the shifts of the lanes. *)
Definition lane_shifts (vector_bits lane_bits : Z) : list Z := map (fun i => i * lane_bits) (seqZ 0 (vector_bits / lane_bits)).

(** The mask of a 32-bit or 64-bit lane. *)
Definition float_mask (lane_bits : Z) : Z := if lane_bits =? 64 then umax 64 else umax 32.

Definition exact_vector_integer_to_float (source lane_bits vector_bits : Z) (signed : bool) (fpcr : Z) : option (Z * bool) :=
  foldr (fun shift k (acc : Z * bool) =>
    let lane := Z.land (shr source shift) (float_mask lane_bits) in
    '(converted, is_inexact) ← exact_scalar_vector_integer_to_float lane lane_bits signed fpcr;
    k (Z.lor acc.1 (shl 128 converted shift), acc.2 || is_inexact))
    Some (lane_shifts vector_bits lane_bits) (0, false).

(** ** Floating point to integers *)

Record ExactIntegerOutcome := mkInteger { int_value : Z; int_width : Z; int_status : FpStatus }.

Definition saturated_integer (width : Z) (signed negative : bool) : Z :=
  if signed then
    if negative then shl 64 1 (width - 1)
    else if width =? 64 then umax 63 else umax 31
  else if negative then 0
  else if width =? 64 then umax 64 else umax 32.

(** The magnitude, whether bits were discarded, and how they relate to one half. *)
Definition integer_magnitude (significand shift : Z) : Z * bool * comparison :=
  if 0 <=? shift then
    if (128 <=? shift) || (shr (umax 128) shift <? significand) then (umax 128, false, Lt)
    else (shl 128 significand shift, false, Lt)
  else
    let right := - shift in
    if 128 <=? right then (0, negb (significand =? 0), Lt)
    else
      let remainder := Z.land significand (shl 128 1 right - 1) in
      (shr significand right, negb (remainder =? 0), remainder ?= shl 128 1 (right - 1)).

Definition integer_increment (magnitude : Z) (relation : comparison) (sign : bool) (rounding : FloatToIntegerRounding) : bool :=
  match rounding with
  | ToNearestEven => match relation with Gt => true | Eq => negb (Z.land magnitude 1 =? 0) | Lt => false end
  | ToNearestAway => match relation with Lt => false | _ => true end
  | ToPositive => negb sign
  | ToNegative => sign
  | ToZero => false
  end.

Definition float_bits_to_integer (source : Z) (f : BinaryFormat) (width : Z) (signed : bool) (rounding : FloatToIntegerRounding)
  (fractional_bits fpcr : Z) : ExactIntegerOutcome :=
  let sign := bit_set source (sign_mask f) in
  let exponent := shr (Z.land source (exponent_mask f)) f.(fraction_bits) in
  let fraction := Z.land source (fraction_mask f) in
  let positive_limit := if signed then shl 128 1 (width - 1) - 1 else shl 128 1 width - 1 in
  let negative_limit := if signed then shl 128 1 (width - 1) else 0 in
  if exponent =? exponent_max f then
    mkInteger (if negb (fraction =? 0) then 0 else saturated_integer width signed sign) width (with_invalid true FpStatus_default)
  else if (exponent =? 0) && negb (fraction =? 0) && bit_set fpcr (2 ^ 24) then
    mkInteger 0 width (with_input_denormal true FpStatus_default)
  else
  let '(significand, unbiased_exponent) :=
    if exponent =? 0 then (fraction, 1 - f.(exponent_bias))
    else (Z.lor (shl 64 1 f.(fraction_bits)) fraction, exponent - f.(exponent_bias)) in
  let shift := unbiased_exponent - f.(fraction_bits) + fractional_bits in
  let '(magnitude, discarded, relation_to_half) := integer_magnitude significand shift in
  let increment := discarded && integer_increment magnitude relation_to_half sign rounding in
  let magnitude := Z.min (umax 128) (magnitude + b2z increment) in
  let out_of_range :=
    if sign then if signed then negative_limit <? magnitude else negb (magnitude =? 0)
    else positive_limit <? magnitude in
  if out_of_range then mkInteger (saturated_integer width signed sign) width (with_invalid true FpStatus_default)
  else
    mkInteger (if sign && negb (magnitude =? 0) then wrap 64 (- wrap 64 magnitude) else wrap 64 magnitude) width
      (with_inexact discarded FpStatus_default).

Definition exact_float_to_integer (source source_bits width : Z) (signed : bool) (rounding : FloatToIntegerRounding)
  (fractional_bits fpcr : Z) : option ExactIntegerOutcome :=
  format ← fp_format source_bits;
  f ← BinaryFormat_new format;
  Some (float_bits_to_integer source f width signed rounding fractional_bits fpcr).

(** A lane loop that merges the status of the lanes. *)
Definition vector_outcomes (lane : Z -> option FpOutcome) (shifts : list (Z * Z)) : option FpOutcome :=
  foldr (fun '(source, destination) k (acc : FpOutcome) =>
    outcome ← lane source;
    k (mkOutcome (Z.lor acc.(out_bits) (shl 128 outcome.(out_bits) destination))
                 (merge_fp_status acc.(out_status) outcome.(out_status))))
    Some shifts (mkOutcome 0 FpStatus_default).

(** The lanes of the source and of the destination at the same places. *)
Definition in_place (vector_bits lane_bits : Z) : list (Z * Z) := map (fun s => (s, s)) (lane_shifts vector_bits lane_bits).

Definition float_lane (vector shift lane_bits : Z) : Z := Z.land (wrap 64 (shr vector shift)) (float_mask lane_bits).

Definition exact_vector_float_to_integer (source lane_bits vector_bits : Z) (signed : bool) (fpcr : Z) : option FpOutcome :=
  vector_outcomes (fun shift =>
    outcome ← exact_float_to_integer (float_lane source shift lane_bits) lane_bits lane_bits signed ToZero 0 fpcr;
    Some (mkOutcome (Z.land outcome.(int_value) (float_mask lane_bits)) outcome.(int_status)))
    (in_place vector_bits lane_bits).

(** ** Format conversion *)

(** The arms of [match rounding] with the guards on the shift. *)
Definition round_shift_right (value shift : Z) (negative : bool) (rounding : FpRoundingMode) : option (Z * bool) :=
  if shift =? 0 then Some (value, false)
  else
  let retained := if shift <? 64 then shr value shift else 0 in
  let discarded := if shift <? 64 then Z.land value (shl 64 1 shift - 1) else value in
  if discarded =? 0 then Some (retained, false)
  else
  increment ←
    match rounding with
    | TiesToEven =>
        if shift <? 64 then
          let halfway := shl 64 1 (shift - 1) in
          Some ((halfway <? discarded) || ((discarded =? halfway) && negb (Z.land retained 1 =? 0)))
        else if shift =? 64 then Some (shl 64 1 63 <? discarded)
        else Some false
    | TowardPositive => Some (negb negative)
    | TowardNegative => Some negative
    | TowardZero => Some false
    | TiesAway | ToOdd => None
    end;
  Some (retained + b2z increment, true).

Definition convert_nan (source : DecodedFloat) (source_format destination_format : BinaryFormat) (use_default : bool) : Z :=
  if use_default then default_nan destination_format
  else
  let source_payload := Z.lor source.(df_fraction) (quiet_nan_bit source_format) in
  let payload :=
    if destination_format.(fraction_bits) <? source_format.(fraction_bits)
    then shr source_payload (source_format.(fraction_bits) - destination_format.(fraction_bits))
    else shl 64 source_payload (destination_format.(fraction_bits) - source_format.(fraction_bits)) in
  Z.lor (Z.lor (Z.lor (sign_bits_of source.(df_sign) destination_format) (exponent_mask destination_format))
    (Z.land payload (fraction_mask destination_format))) (quiet_nan_bit destination_format).

Definition convert_finite_format (source : DecodedFloat) (sign_bits : Z) (f : BinaryFormat) (control : FpControl)
  (status : FpStatus) : option FpOutcome :=
  let source_top := top_bit source.(df_significand) in
  let exponent := source.(df_scale) + source_top in
  let minimum_normal := 1 - f.(exponent_bias) in
  if minimum_normal <=? exponent then
    let destination_precision := f.(fraction_bits) + 1 in
    let source_precision := source_top + 1 in
    '(significand, is_inexact) ←
      (if destination_precision <? source_precision
       then round_shift_right source.(df_significand) (source_precision - destination_precision) source.(df_sign) control.(rounding)
       else Some (shl 64 source.(df_significand) (destination_precision - source_precision), false));
    pack_normal sign_bits significand exponent is_inexact f control.(rounding) status
  else if control.(flush_to_zero) then Some (mkOutcome sign_bits (with_underflow true status))
  else
    let minimum_subnormal := minimum_normal - f.(fraction_bits) in
    let scale_difference := source.(df_scale) - minimum_subnormal in
    '(fraction, is_inexact) ←
      (if 0 <=? scale_difference
       then v ← shl_checked 64 source.(df_significand) scale_difference; Some (v, false)
       else round_shift_right source.(df_significand) (- scale_difference) source.(df_sign) control.(rounding));
    Some (pack_subnormal sign_bits fraction is_inexact f status).

(** [source.significand = 0; source.fraction = 0] on a subnormal. *)
Definition flush_significand (enabled : bool) (x : DecodedFloat) (status : FpStatus) : DecodedFloat * FpStatus :=
  if enabled && is_subnormal x
  then (mkFloat x.(df_bits) x.(df_sign) x.(df_exponent_field) 0 0 x.(df_scale), with_input_denormal true status)
  else (x, status).

Definition convert_ieee_format (source_bits : Z) (source_fp_format destination_fp_format : FpFormat) (control : FpControl)
  : option FpOutcome :=
  source_format ← BinaryFormat_new source_fp_format;
  destination_format ← BinaryFormat_new destination_fp_format;
  let source := DecodedFloat_new source_bits source_format in
  if is_nan source source_format then
    Some (mkOutcome (convert_nan source source_format destination_format control.(control_default_nan))
                    (with_invalid (is_signaling_nan source source_format) FpStatus_default))
  else
  let sign_bits := sign_bits_of source.(df_sign) destination_format in
  let '(source, status) := flush_significand control.(flush_to_zero) source FpStatus_default in
  if is_zero source then Some (mkOutcome sign_bits status)
  else if is_infinite source source_format then Some (mkOutcome (Z.lor sign_bits (exponent_mask destination_format)) status)
  else convert_finite_format source sign_bits destination_format control status.

Definition exact_float_convert (source : Z) (conversion : FloatConversion) (fpcr : Z) : option FpOutcome :=
  match conversion with
  | SingleToDouble => convert_ieee_format source Binary32 Binary64 (from_fpcr fpcr)
  | DoubleToSingle => convert_ieee_format source Binary64 Binary32 (from_fpcr fpcr)
  end.

Definition exact_vector_float_convert_long (source : Z) (upper : bool) (fpcr : Z) : option FpOutcome :=
  let first := if upper then 64 else 0 in
  vector_outcomes (fun shift => exact_float_convert (Z.land (wrap 64 (shr source shift)) (umax 32)) SingleToDouble fpcr)
    (map (fun lane => (first + lane * 32, lane * 64)) [0; 1]).

Definition exact_vector_float_convert_narrow (source fpcr : Z) : option FpOutcome :=
  vector_outcomes (fun shift => exact_float_convert (wrap 64 (shr source shift)) DoubleToSingle fpcr)
    (map (fun lane => (lane * 64, lane * 32)) [0; 1]).

(** ** The vector forms of the arithmetic *)

Definition exact_vector_float_add (lhs rhs lane_bits vector_bits : Z) (operation : FloatAddOperation) (fpcr : Z)
  : option FpOutcome :=
  vector_outcomes (fun shift =>
    exact_scalar_float_add (float_lane lhs shift lane_bits) (float_lane rhs shift lane_bits) lane_bits operation fpcr)
    (in_place vector_bits lane_bits).

Definition exact_vector_float_divide (lhs rhs lane_bits vector_bits fpcr : Z) : option FpOutcome :=
  format ← fp_format lane_bits;
  vector_outcomes (fun shift =>
    divide_ieee_lane (Z.land (shr lhs shift) (float_mask lane_bits)) (Z.land (shr rhs shift) (float_mask lane_bits))
      format (from_fpcr fpcr))
    (in_place vector_bits lane_bits).

Definition exact_vector_float_multiply (lhs rhs lane_bits vector_bits : Z) (lane : option Z) (fpcr : Z) : option FpOutcome :=
  format ← fp_format lane_bits;
  let rhs :=
    match lane with
    | Some lane => wrap 128 (Z.land (shr rhs (lane * lane_bits)) (float_mask lane_bits) * (umax 128 / float_mask lane_bits))
    | None => rhs
    end in
  vector_outcomes (fun shift =>
    multiply_ieee_lane (Z.land (shr lhs shift) (float_mask lane_bits)) (Z.land (shr rhs shift) (float_mask lane_bits)) format fpcr)
    (in_place vector_bits lane_bits).

Definition exact_vector_float_fused (overflow_checks : bool) (lhs rhs accumulator lane_bits vector_bits : Z) (lane : option Z) (subtract : bool)
  (fpcr : Z) : option FpOutcome :=
  let operation := if subtract then MultiplySubtract else MultiplyAdd in
  vector_outcomes (fun shift =>
    let multiplier_shift := match lane with Some lane => lane * lane_bits | None => shift end in
    exact_scalar_float_fused_multiply_add overflow_checks (float_lane lhs shift lane_bits) (float_lane rhs multiplier_shift lane_bits)
      (float_lane accumulator shift lane_bits) lane_bits operation fpcr)
    (in_place vector_bits lane_bits).

(** ** Minimum and maximum *)

(** Integer keys in numerical order, with -0 below +0. *)
Definition order_key (f : BinaryFormat) (precision : Z) (x : DecodedFloat) : Z :=
  Z.land (if x.(df_sign) then unot 64 x.(df_bits) else Z.lor x.(df_bits) (sign_mask f))
         (if precision =? 32 then umax 32 else umax 64).

Definition exact_scalar_float_min_max (lhs rhs precision : Z) (minimum number : bool) (fpcr : Z) : option FpOutcome :=
  format ← fp_format precision;
  f ← BinaryFormat_new format;
  let control := from_fpcr fpcr in
  let '(lhs, status) := flush f control.(flush_to_zero) (DecodedFloat_new lhs f) FpStatus_default in
  let '(rhs, status) := flush f control.(flush_to_zero) (DecodedFloat_new rhs f) status in
  let invalid := is_signaling_nan lhs f || is_signaling_nan rhs f in
  let bits :=
    if invalid || (is_nan lhs f && is_nan rhs f) || (negb number && (is_nan lhs f || is_nan rhs f))
    then propagate_nan lhs rhs f control.(control_default_nan)
    else if is_nan lhs f then rhs.(df_bits)
    else if is_nan rhs f then lhs.(df_bits)
    else
      let select_lhs := if minimum then order_key f precision lhs <? order_key f precision rhs
                        else order_key f precision rhs <? order_key f precision lhs in
      if select_lhs then lhs.(df_bits) else rhs.(df_bits) in
  Some (mkOutcome bits (with_invalid invalid status)).

(** ** Rounding to an integral value *)

Definition round_integral_magnitude (significand shift : Z) (negative : bool) (rounding : FpRoundingMode) : option (Z * bool) :=
  let retained := if shift <? 64 then shr significand shift else 0 in
  let discarded := if shift <? 64 then Z.land significand (shl 64 1 shift - 1) else significand in
  if discarded =? 0 then Some (retained, false)
  else
  let halfway := shl 64 1 (shift - 1) in
  increment ←
    match rounding with
    | TiesToEven =>
        Some ((shift <? 64) && ((halfway <? discarded) || ((discarded =? halfway) && negb (Z.land retained 1 =? 0))))
    | TiesAway => Some ((shift <? 64) && (halfway <=? discarded))
    | TowardPositive => Some (negb negative)
    | TowardNegative => Some negative
    | TowardZero => Some false
    | ToOdd => None
    end;
  Some (retained + b2z increment, true).

(** The rounding mode of an operation, and whether it reports inexact results. *)
Definition round_mode (operation : FloatRoundOperation) (fpcr : Z) : FpRoundingMode * bool :=
  match operation with
  | RoundNearestEven => (TiesToEven, false)
  | RoundTowardPositive => (TowardPositive, false)
  | RoundTowardNegative => (TowardNegative, false)
  | RoundTowardZero => (TowardZero, false)
  | RoundNearestAway => (TiesAway, false)
  | RoundExact => (fpcr_rounding_mode fpcr, true)
  | RoundCurrentMode => (fpcr_rounding_mode fpcr, false)
  end.

Definition exact_scalar_float_round (source precision : Z) (operation : FloatRoundOperation) (fpcr : Z) : option FpOutcome :=
  format ← fp_format precision;
  f ← BinaryFormat_new format;
  let source := DecodedFloat_new source f in
  if is_nan source f then
    Some (mkOutcome (if bit_set fpcr (2 ^ 25) then default_nan f else Z.lor source.(df_bits) (quiet_nan_bit f))
                    (with_invalid (is_signaling_nan source f) FpStatus_default))
  else if is_infinite source f || is_zero source then Some (mkOutcome source.(df_bits) FpStatus_default)
  else if bit_set fpcr (2 ^ 24) && is_subnormal source
  then Some (mkOutcome (Z.land source.(df_bits) (sign_mask f)) (with_input_denormal true FpStatus_default))
  else
  let exponent := source.(df_exponent_field) - f.(exponent_bias) in
  if f.(fraction_bits) <=? exponent then Some (mkOutcome source.(df_bits) FpStatus_default)
  else
  let '(rounding, exact) := round_mode operation fpcr in
  '(magnitude, is_inexact) ← round_integral_magnitude source.(df_significand) (f.(fraction_bits) - exponent) source.(df_sign) rounding;
  bits ←
    (if magnitude =? 0 then Some (Z.land source.(df_bits) (sign_mask f))
     else option_map fst (integer_magnitude_to_ieee magnitude source.(df_sign) f.(total_bits) rounding 0));
  Some (mkOutcome bits (with_inexact (exact && is_inexact) FpStatus_default)).

(** ** Comparison *)

Record ExactCompareOutcome := mkCompare { cmp_nzcv : Z; cmp_status : FpStatus }.

Definition exact_scalar_float_compare (lhs rhs precision : Z) (signaling : bool) (fpcr : Z) : option ExactCompareOutcome :=
  format ← fp_format precision;
  f ← BinaryFormat_new format;
  let lhs := DecodedFloat_new lhs f in
  let rhs := DecodedFloat_new rhs f in
  if is_nan lhs f || is_nan rhs f then
    Some (mkCompare (Z.lor (2 ^ 29) (2 ^ 28))
      (with_invalid (signaling || is_signaling_nan lhs f || is_signaling_nan rhs f) FpStatus_default))
  else
  let '(lhs, status) := flush f (bit_set fpcr (2 ^ 24)) lhs FpStatus_default in
  let '(rhs, status) := flush f (bit_set fpcr (2 ^ 24)) rhs status in
  let equal := (is_zero lhs && is_zero rhs) || (lhs.(df_bits) =? rhs.(df_bits)) in
  let less :=
    if equal then false
    else if negb (Bool.eqb lhs.(df_sign) rhs.(df_sign)) then lhs.(df_sign)
    else if lhs.(df_sign) then
      Z.land rhs.(df_bits) (unot 64 (sign_mask f)) <? Z.land lhs.(df_bits) (unot 64 (sign_mask f))
    else lhs.(df_bits) <? rhs.(df_bits) in
  Some (mkCompare (if equal then Z.lor (2 ^ 30) (2 ^ 29) else if less then 2 ^ 31 else 2 ^ 29) status).
