(* ===== verification/FpRound.v ===== *)
(** * Correct rounding: the specification, and packing a rounded result

    The exact result of an operation is only known through comparisons: an
    [Exact] value [X] answers how twice the result compares with an integer, the
    unit being the least subnormal.  [round_pattern] rounds it to a bit pattern
    as if the exponent range were unbounded and [ieee_result] adds overflow,
    underflow, inexactness and the flushing of tiny results.  The lemmas show
    that [pack_normal], [pack_subnormal] and [pack_float_sum] implement it. *)

From S2P Require Import Prelude CpuArith CpuVector DecodeFpOperands FpFloat.

Definition Exact := Z -> comparison.

(** The exact results of the operations: a quotient, and a square root. *)
Definition ratio (num den : Z) : Exact := fun h => 2 * num ?= h * den.
Definition root (square : Z) : Exact := fun h => if h <? 0 then Gt else 4 * square ?= h * h.

(** The value of the bit pattern [k] of a positive number, in units of the least
    subnormal; the exponent range is unbounded. *)
Definition units (f : BinaryFormat) (k : Z) : Z :=
  if k <? 2 ^ f.(fraction_bits) then k
  else (2 ^ f.(fraction_bits) + k mod 2 ^ f.(fraction_bits)) * 2 ^ (k / 2 ^ f.(fraction_bits) - 1).

(** The result lies between the patterns [k] and [k + 1]. *)
Definition brackets (f : BinaryFormat) (X : Exact) (k : Z) : Prop :=
  0 <= k /\ X (2 * units f k) <> Lt /\ X (2 * units f (k + 1)) = Lt.

Definition inexact_at (f : BinaryFormat) (X : Exact) (k : Z) : bool := match X (2 * units f k) with Eq => false | _ => true end.

(** Whether the mode selects [k + 1]. *)
Definition round_up (f : BinaryFormat) (mode : FpRoundingMode) (negative : bool) (X : Exact) (k : Z) : bool :=
  match mode with
  | TiesToEven => match X (units f k + units f (k + 1)) with Gt => true | Eq => Z.odd k | Lt => false end
  | TowardPositive => negb negative && inexact_at f X k
  | TowardNegative => negative && inexact_at f X k
  | _ => false
  end.

Definition round_pattern (f : BinaryFormat) (mode : FpRoundingMode) (negative : bool) (X : Exact) (r : Z) : Prop :=
  exists k, brackets f X k /\ r = k + b2z (round_up f mode negative X k).

(** The pattern of infinity, and what an overflow becomes. *)
Definition infinity (f : BinaryFormat) : Z := (2 ^ f.(exponent_bits) - 1) * 2 ^ f.(fraction_bits).
Definition overflow_pattern (f : BinaryFormat) (mode : FpRoundingMode) (negative : bool) : Z :=
  match mode with
  | TiesToEven => infinity f
  | TowardPositive => if negative then infinity f - 1 else infinity f
  | TowardNegative => if negative then infinity f else infinity f - 1
  | _ => infinity f - 1
  end.

(** Below the least normal number. *)
Definition tiny (f : BinaryFormat) (X : Exact) : bool := match X (2 * 2 ^ f.(fraction_bits)) with Lt => true | _ => false end.

Definition sign_pattern (f : BinaryFormat) (negative : bool) : Z := b2z negative * 2 ^ (f.(total_bits) - 1).

(** The outcome of an operation whose exact result is not zero. *)
Definition ieee_result (f : BinaryFormat) (control : FpControl) (negative : bool) (X : Exact) (status : FpStatus) (o : FpOutcome)
  : Prop :=
  if control.(flush_to_zero) && tiny f X
  then o = mkOutcome (sign_pattern f negative) (with_underflow true status)
  else exists r, round_pattern f control.(rounding) negative X r /\
    if r <? infinity f then
      let inexact := inexact_at f X r in
      o = mkOutcome (sign_pattern f negative + r) (with_inexact inexact (with_underflow (tiny f X && inexact) status))
    else o = mkOutcome (sign_pattern f negative + overflow_pattern f control.(rounding) negative)
                       (with_inexact true (with_overflow true status)).

(** ** Formats *)

Record format_ok (f : BinaryFormat) : Prop := {
  fo_fraction : 2 <= f.(fraction_bits) <= 52;
  fo_exponent : 2 <= f.(exponent_bits) <= 11;
  fo_total : f.(total_bits) = f.(fraction_bits) + f.(exponent_bits) + 1;
  fo_width : f.(total_bits) <= 64;
  fo_bias : f.(exponent_bias) = 2 ^ (f.(exponent_bits) - 1) - 1;
  fo_range : f.(fraction_bits) + 3 <= f.(exponent_bias)
}.

Lemma format_ok_new format f : BinaryFormat_new format = Some f -> format_ok f.
Proof. destruct format; cbn; [done|..]; intros [= <-]; split; cbn; lia. Qed.

Lemma lor_add a b n : 0 <= n -> 0 <= b < 2 ^ n -> Z.lor (a * 2 ^ n) b = a * 2 ^ n + b.
Proof.
  intros Hn Hb. rewrite Z.add_nocarry_lxor, Z.lxor_lor; [done|..]; apply Z.bits_inj'; intros k Hk;
    rewrite Z.land_spec, Z.testbit_0_l, Z.mul_pow2_bits by lia;
    (destruct (Z_lt_le_dec k n); [by rewrite Z.testbit_neg_r by lia|];
     rewrite (testbit_high n b) by (done || lia); apply andb_false_r).
Qed.

(** A shift that fits. *)
Lemma shl_fits w x n : 0 <= n -> 0 <= x -> x * 2 ^ n < 2 ^ w -> shl w x n = x * 2 ^ n.
Proof. intros Hn Hx Hlt. unfold shl. rewrite Z.shiftl_mul_pow2 by lia. apply wrap_small. split; [apply Z.mul_nonneg_nonneg; [lia|apply Z.pow_nonneg; lia]|done]. Qed.

Section Format.
Context (f : BinaryFormat) (Hf : format_ok f).
Notation fb := f.(fraction_bits).
Notation eb := f.(exponent_bits).
Let Hfb := fo_fraction f Hf.
Let Heb := fo_exponent f Hf.
Let Htotal := fo_total f Hf.
Let Hwidth := fo_width f Hf.
Let Hbias := fo_bias f Hf.

Lemma pow_fb : 4 <= 2 ^ fb.
Proof using Hf. change 4 with (2 ^ 2). apply Z.pow_le_mono_r; lia. Qed.

Lemma pow_eb : 2 ^ eb = 2 * 2 ^ (eb - 1) /\ 2 <= 2 ^ (eb - 1).
Proof using Hf.
  split; [apply pow2_double; lia|]. change 2 with (2 ^ 1) at 1. apply Z.pow_le_mono_r; lia.
Qed.

Lemma pow_total : 2 ^ (f.(total_bits) - 1) = 2 ^ eb * 2 ^ fb.
Proof using Hf. rewrite Htotal, <- Z.pow_add_r by lia. f_equal. lia. Qed.

Lemma sign_mask_eq : sign_mask f = 2 ^ (f.(total_bits) - 1).
Proof using Hf. unfold sign_mask. apply shl_one. lia. Qed.

Lemma fraction_mask_eq : fraction_mask f = 2 ^ fb - 1.
Proof using Hf. unfold fraction_mask. by rewrite shl_one by lia. Qed.

Lemma exponent_max_eq : exponent_max f = 2 ^ eb - 1.
Proof using Hf. unfold exponent_max. by rewrite shl_one by lia. Qed.

Lemma pow_total_64 : 2 ^ eb * 2 ^ fb * 2 <= 2 ^ 64.
Proof using Hf. rewrite <- pow_total, Z.mul_comm, <- pow2_double by lia. apply Z.pow_le_mono_r; lia. Qed.

Lemma exponent_mask_eq : exponent_mask f = infinity f.
Proof using Hf.
  unfold exponent_mask, infinity. rewrite shl_one by lia. pose proof pow_fb. pose proof pow_eb. pose proof pow_total_64.
  apply shl_fits; nia.
Qed.

Lemma sign_bits_eq negative : sign_bits_of negative f = sign_pattern f negative.
Proof using Hf.
  unfold sign_bits_of, sign_pattern. destruct negative; cbn [b2z]; [by rewrite shl_one, Z.mul_1_l by lia|].
  unfold shl. by rewrite Z.shiftl_0_l.
Qed.

(** A pattern below the sign bit is added to the sign. *)
Lemma lor_sign negative p : 0 <= p < 2 ^ eb * 2 ^ fb -> Z.lor (sign_bits_of negative f) p = sign_pattern f negative + p.
Proof using Hf. intros Hp. rewrite sign_bits_eq. unfold sign_pattern. apply lor_add; [lia|]. by rewrite pow_total. Qed.

Lemma infinity_range : 2 ^ fb <= infinity f < 2 ^ eb * 2 ^ fb.
Proof using Hf. unfold infinity. pose proof pow_fb. pose proof pow_eb. nia. Qed.

Lemma sign_bits_zero negative : (sign_bits_of negative f =? 0) = negb negative.
Proof using Hf.
  rewrite sign_bits_eq. unfold sign_pattern. destruct negative; cbn [b2z negb]; [|done].
  apply Z.eqb_neq. rewrite Z.mul_1_l. pose proof (Z.pow_pos_nonneg 2 (f.(total_bits) - 1) ltac:(lia) ltac:(lia)). lia.
Qed.

(** ** Patterns and their values *)

Lemma units_normal q n : 0 <= q -> 2 ^ fb <= n <= 2 ^ (fb + 1) -> units f (q * 2 ^ fb + n) = n * 2 ^ q.
Proof using Hf.
  intros Hq Hn. pose proof pow_fb as Hp. rewrite Z.pow_add_r, Z.pow_1_r in Hn by lia. unfold units.
  rewrite (proj2 (Z.ltb_ge _ _)) by nia. destruct (Z.eq_dec n (2 ^ fb * 2)) as [->|Hne].
  - replace (q * 2 ^ fb + 2 ^ fb * 2) with ((q + 2) * 2 ^ fb) by lia. rewrite Z.mod_mul, Z.div_mul by lia.
    replace (q + 2 - 1) with (q + 1) by lia. rewrite Z.pow_add_r by lia. lia.
  - replace (q * 2 ^ fb + n) with ((n - 2 ^ fb) + (q + 1) * 2 ^ fb) by lia.
    rewrite Z.mod_add, Z.div_add, Z.mod_small, Z.div_small by lia.
    replace (0 + (q + 1) - 1) with q by lia. lia.
Qed.

Lemma units_subnormal n : 0 <= n <= 2 ^ fb -> units f n = n.
Proof using Hf.
  intros Hn. pose proof pow_fb. destruct (Z.eq_dec n (2 ^ fb)) as [->|Hne].
  - pose proof (units_normal 0 (2 ^ fb)) as H1. rewrite Z.mul_0_l, Z.add_0_l, Z.mul_1_r in H1. apply H1; [lia|].
    rewrite Z.pow_add_r by lia. lia.
  - unfold units. by rewrite (proj2 (Z.ltb_lt _ _)) by lia.
Qed.

(** Every pattern is a significand and an exponent. *)
Lemma pattern_cases k : 0 <= k ->
  k < 2 ^ fb \/ exists q n, 0 <= q /\ 2 ^ fb <= n < 2 ^ (fb + 1) /\ k = q * 2 ^ fb + n.
Proof using Hf.
  intros Hk. pose proof pow_fb. destruct (Z_lt_le_dec k (2 ^ fb)) as [Hlt|Hge]; [by left|]. right.
  exists (k / 2 ^ fb - 1), (2 ^ fb + k mod 2 ^ fb). pose proof (Z.div_mod k (2 ^ fb) ltac:(lia)) as Hdm.
  pose proof (Z.mod_pos_bound k (2 ^ fb) ltac:(lia)). assert (1 <= k / 2 ^ fb) by (apply Z.div_le_lower_bound; lia).
  rewrite Z.pow_add_r, Z.pow_1_r by lia. split; [lia|]. split; [lia|]. lia.
Qed.

Lemma units_step k : 0 <= k -> units f k < units f (k + 1).
Proof using Hf.
  intros Hk. destruct (pattern_cases k Hk) as [Hlt|(q & n & Hq & Hn & ->)].
  - rewrite !units_subnormal by lia. lia.
  - rewrite <- Z.add_assoc, !units_normal by lia. pose proof (Z.pow_pos_nonneg 2 q). nia.
Qed.

Lemma units_mono j k : 0 <= j <= k -> units f j <= units f k.
Proof using Hf.
  intros [Hj Hjk]. replace k with (j + Z.of_nat (Z.to_nat (k - j))) by lia.
  induction (Z.to_nat (k - j)) as [|n IH]; [by rewrite Z.add_0_r|].
  pose proof (units_step (j + Z.of_nat n) ltac:(lia)). replace (j + Z.of_nat (S n)) with (j + Z.of_nat n + 1) by lia. lia.
Qed.

Lemma units_lt j k : 0 <= j -> 0 <= k -> units f j < units f k -> j < k.
Proof using Hf. intros Hj Hk Hlt. destruct (Z_lt_le_dec j k); [done|]. pose proof (units_mono k j ltac:(lia)). lia. Qed.

(** ** Packing *)

(** The modes FPCR can select. *)
Definition fpcr_mode (mode : FpRoundingMode) : bool := match mode with TiesAway | ToOdd => false | _ => true end.

Lemma should_round_spec mode negative (X : Exact) k n remainder denominator :
  fpcr_mode mode = true -> Z.odd n = Z.odd k -> 0 <= remainder < 2 ^ 127 -> 0 < denominator ->
  (remainder =? 0) = negb (inexact_at f X k) -> (2 * remainder ?= denominator) = X (units f k + units f (k + 1)) ->
  should_round n remainder denominator negative mode = Some (round_up f mode negative X k).
Proof using Hf.
  intros Hmode Hodd Hr Hd Hz Hx. unfold should_round, round_up. rewrite <- Hx.
  destruct (Z.eqb_spec remainder 0) as [->|Hne]; rewrite <- (negb_involutive (inexact_at f X k)), <- Hz; cbn [negb].
  - rewrite !andb_false_r. replace (2 * 0 ?= denominator) with Lt by (symmetry; apply Z.compare_lt_iff; lia). by destruct mode.
  - rewrite !andb_true_r. rewrite shl_fits by (change (2 ^ 128) with (2 ^ 127 * 2 ^ 1); lia). rewrite Z.pow_1_r, (Z.mul_comm remainder).
    destruct mode; try done. f_equal. rewrite <- Hodd. change 1 with (Z.ones 1) at 1. rewrite Z.land_ones, Z.pow_1_r, Zmod_odd by lia.
    destruct (Z.compare_spec (2 * remainder) denominator) as [He|He|He];
      [rewrite He, Z.ltb_irrefl, Z.eqb_refl; by destruct (Z.odd n)| |by rewrite (proj2 (Z.ltb_lt _ _)) by done].
    by rewrite (proj2 (Z.ltb_ge _ _)), (proj2 (Z.eqb_neq _ _)) by lia.
Qed.

Lemma round_up_exact mode negative X k : brackets f X k -> inexact_at f X k = false -> X (units f k + units f (k + 1)) = Lt ->
  round_up f mode negative X k = false.
Proof using Hf. intros _ He Hm. unfold round_up. rewrite He, Hm, !andb_false_r. by destruct mode. Qed.

(** Inexactness at the rounded pattern is inexactness at the lower one. *)
Lemma inexact_rounded mode negative X k :
  brackets f X k -> (round_up f mode negative X k = true -> inexact_at f X k = true) ->
  inexact_at f X (k + b2z (round_up f mode negative X k)) = inexact_at f X k.
Proof using Hf.
  intros (_ & _ & Hhi) Hup. destruct (round_up f mode negative X k); cbn [b2z]; [|by rewrite Z.add_0_r].
  rewrite Hup by done. unfold inexact_at. by rewrite Hhi.
Qed.

Lemma overflow_result_spec mode negative : fpcr_mode mode = true ->
  overflow_result (sign_bits_of negative f) f mode = Some (sign_pattern f negative + overflow_pattern f mode negative).
Proof using Hf.
  intros Hmode. unfold overflow_result. rewrite exponent_mask_eq, exponent_max_eq, fraction_mask_eq by done.
  pose proof infinity_range as Hi. pose proof (pow_fb) as Hp. pose proof pow_eb as [He1 He2]. pose proof pow_total_64 as H64.
  assert (Hshl : shl 64 (2 ^ eb - 1 - 1) fb = (2 ^ eb - 2) * 2 ^ fb) by (rewrite shl_fits; nia).
  assert (Hmax : Z.lor (Z.lor (sign_bits_of negative f) (shl 64 (2 ^ eb - 1 - 1) fb)) (2 ^ fb - 1) =
    sign_pattern f negative + (infinity f - 1)).
  { rewrite Hshl, <- Z.lor_assoc, (lor_add _ _ fb) by lia. rewrite lor_sign by (unfold infinity in *; nia). unfold infinity. lia. }
  rewrite Hmax, lor_sign, sign_bits_zero by lia. unfold overflow_pattern. by destruct mode, negative.
Qed.

(** The mode rounds up only an inexact result: the middle is above an exact one. *)
Definition middle_above (X : Exact) (k : Z) : Prop := inexact_at f X k = false -> X (units f k + units f (k + 1)) = Lt.

Lemma round_up_inexact mode negative X k : middle_above X k -> round_up f mode negative X k = true -> inexact_at f X k = true.
Proof using Hf.
  intros Hm. unfold middle_above, round_up in *. destruct (inexact_at f X k); [done|]. rewrite Hm by done. rewrite !andb_false_r. by destruct mode.
Qed.

Lemma pack_normal_spec mode negative X q n control status :
  fpcr_mode mode = true -> control.(rounding) = mode -> 0 <= q -> 2 ^ fb <= n < 2 ^ (fb + 1) ->
  brackets f X (q * 2 ^ fb + n) -> middle_above X (q * 2 ^ fb + n) -> tiny f X = false -> status.(underflow) = false ->
  exists o, pack_normal (sign_bits_of negative f) (n + b2z (round_up f mode negative X (q * 2 ^ fb + n)))
      (q + 1 - f.(exponent_bias)) (inexact_at f X (q * 2 ^ fb + n)) f mode status = Some o /\
    ieee_result f control negative X status o.
Proof using Hf.
  intros Hmode Hc Hq Hn Hb Hmid Ht Hu. set (k := q * 2 ^ fb + n) in *. pose proof (pow_fb) as Hp. pose proof pow_eb as [He1 He2].
  pose proof pow_total_64 as H64. pose proof (round_up_inexact mode negative X k Hmid) as Hex.
  pose proof (inexact_rounded mode negative X k Hb Hex) as Hri.
  set (up := round_up f mode negative X k) in *. set (r := k + b2z up) in *.
  assert (Hpow : 2 ^ (fb + 1) = 2 * 2 ^ fb) by (rewrite Z.pow_add_r by lia; lia).
  assert (Hr : round_pattern f mode negative X r) by (by exists k).
  unfold ieee_result. rewrite Hc, Ht, andb_false_r. unfold pack_normal. rewrite shl_one by lia.
  set (c := n + b2z up =? 2 ^ (fb + 1)).
  set (m := if c then shr (n + b2z up) 1 else n + b2z up). set (p := if c then q + 1 else q).
  assert (Hpair : (if c then (shr (n + b2z up) 1, q + 1 - exponent_bias f + 1) else (n + b2z up, q + 1 - exponent_bias f)) =
    (m, p + 1 - exponent_bias f)) by (unfold m, p; destruct c; f_equal; lia).
  rewrite Hpair. assert (Hm : 2 ^ fb <= m < 2 * 2 ^ fb /\ p * 2 ^ fb + m = r /\ 0 <= p).
  { unfold m, p, r, k, c. pose proof (b2z_range up). destruct (Z.eqb_spec (n + b2z up) (2 ^ (fb + 1))) as [He|He].
    - rewrite He. unfold shr. rewrite Z.shiftr_div_pow2, Z.pow_1_r, Hpow by lia. rewrite Z.mul_comm, Z.div_mul by lia. lia.
    - lia. }
  destruct Hm as (Hm & Hrp & Hp0). assert (Hov : (exponent_bias f <? p + 1 - exponent_bias f) = negb (r <? infinity f)).
  { apply eq_true_iff_eq. rewrite negb_true_iff, Z.ltb_lt, Z.ltb_ge, Hbias. unfold infinity. rewrite <- Hrp. split; intros; nia. }
  rewrite Hov. destruct (Z.ltb_spec r (infinity f)) as [Hlt|Hge]; cbn [negb].
  - eexists. split; [reflexivity|]. exists r. split; [done|]. rewrite (proj2 (Z.ltb_lt _ _)) by done. cbv zeta. rewrite Hri. f_equal.
    + rewrite fraction_mask_eq by done. unfold infinity in Hlt.
      replace (p + 1 - exponent_bias f + exponent_bias f) with (p + 1) by lia.
      assert (Hp1 : p + 1 < 2 ^ eb) by nia. assert (Hp64 : p + 1 < 2 ^ 64) by nia. rewrite wrap_small by (split; [lia|done]).
      rewrite shl_fits by nia. replace (2 ^ fb - 1) with (Z.ones fb) by (rewrite Z.ones_equiv; lia).
      rewrite Z.land_ones by lia. replace (m mod 2 ^ fb) with (m - 2 ^ fb) by (apply Z.mod_unique_pos with 1; lia).
      rewrite <- Z.lor_assoc, lor_add by lia. rewrite lor_sign by nia. lia.
    + destruct status. cbn in *. by subst.
  - rewrite overflow_result_spec by done. eexists. split; [reflexivity|]. exists r. split; [done|].
    by rewrite (proj2 (Z.ltb_ge _ _)) by done.
Qed.

Lemma pack_subnormal_spec mode negative X n control status :
  control.(rounding) = mode -> control.(flush_to_zero) = false -> 0 <= n < 2 ^ fb ->
  brackets f X n -> middle_above X n -> tiny f X = true ->
  ieee_result f control negative X status
    (pack_subnormal (sign_bits_of negative f) (n + b2z (round_up f mode negative X n)) (inexact_at f X n) f status).
Proof using Hf.
  intros Hc Hz Hn Hb Hmid Ht. pose proof (pow_fb) as Hp. pose proof pow_eb as [He1 He2]. pose proof infinity_range as Hi.
  pose proof (round_up_inexact mode negative X n Hmid) as Hex. pose proof (inexact_rounded mode negative X n Hb Hex) as Hri.
  unfold ieee_result. rewrite Hz, Hc. cbn [andb]. set (r := n + b2z (round_up f mode negative X n)) in *.
  pose proof (b2z_range (round_up f mode negative X n)) as Hb2.
  exists r. split; [by exists n|]. rewrite (proj2 (Z.ltb_lt _ _)) by (unfold infinity, r in *; nia). cbv zeta.
  unfold pack_subnormal. rewrite shl_one by lia. rewrite Ht, Hri. cbn [andb].
  assert (Hr : 0 <= r < 2 ^ eb * 2 ^ fb) by (unfold r; nia).
  destruct (Z.eqb_spec r (2 ^ fb)) as [He|He]; [rewrite <- He|]; rewrite lor_sign by lia; by destruct status.
Qed.
End Format.
