(* ===== verification/FpPack.v ===== *)
(** * Packing an integer magnitude is correct rounding

    [pack_float_sum] receives a magnitude and its scale.  The magnitude is the
    exact result, or it carries a sticky bit that keeps its order against even
    integers; in both cases the packed outcome is the IEEE result. *)

From S2P Require Import Prelude CpuArith CpuVector DecodeFpOperands FpFloat FpRound.

(** [X] is [m * 2^e] units. *)
Definition is_exact (m e : Z) (X : Exact) : Prop :=
  forall h, X h = (2 * m * 2 ^ Z.max 0 e ?= h * 2 ^ Z.max 0 (- e)).

(** [X] compares with the even multiples of [2^e] as [m] does. *)
Definition is_sticky (m e : Z) (X : Exact) : Prop :=
  forall c h, Z.even c = true -> h * 2 ^ Z.max 0 (- e) = 2 * c * 2 ^ Z.max 0 e -> X h = (m ?= c).

Lemma compare_mul_pos_r p a b : 0 < p -> (a * p ?= b * p) = (a ?= b).
Proof. intros Hp. symmetry. apply Zmult_compare_compat_r. lia. Qed.

(** The scale of one unit. *)
Definition minimum_subnormal (f : BinaryFormat) : Z := 1 - f.(exponent_bias) - f.(fraction_bits).

Lemma exact_point m e X c h : is_exact m e X -> h * 2 ^ Z.max 0 (- e) = 2 * c * 2 ^ Z.max 0 e -> X h = (m ?= c).
Proof.
  intros HX Hh. rewrite HX, Hh. rewrite compare_mul_pos_r by (apply Z.pow_pos_nonneg; lia).
  rewrite !(Z.mul_comm 2). by apply compare_mul_pos_r.
Qed.

Lemma exact_sticky m e X : is_exact m e X -> is_sticky m e X.
Proof. intros HX c h _ Hh. by apply (exact_point m e). Qed.

(** A multiple of [2^q] as a multiple of [2^e]. *)
Lemma rescale e q s t : 0 <= q -> 0 <= q - e + s -> 0 <= q + s -> t * 2 ^ (q + s) * 2 ^ Z.max 0 (- e) = t * 2 ^ (q - e + s) * 2 ^ Z.max 0 e.
Proof.
  intros Hq Hs Hqs. rewrite <- !Z.mul_assoc, <- !Z.pow_add_r by lia. do 2 f_equal. lia.
Qed.

Section Pack.
Context (f : BinaryFormat) (Hf : format_ok f).
Notation fb := f.(fraction_bits).

(** What the code knows of the result after it has split off [n]. *)
Record splits (X : Exact) (k n remainder denominator : Z) : Prop := {
  sp_odd : Z.odd n = Z.odd k;
  sp_brackets : brackets f X k;
  sp_middle : middle_above f X k;
  sp_zero : (remainder =? 0) = negb (inexact_at f X k);
  sp_half : (2 * remainder ?= denominator) = X (units f k + units f (k + 1));
  sp_range : 0 <= remainder < 2 ^ 127;
  sp_denominator : 0 < denominator
}.

(** From the three comparisons that decide the rounding. *)
Lemma splits_of X k n remainder denominator :
  0 <= k -> Z.odd n = Z.odd k -> 0 <= remainder < 2 ^ 127 -> remainder < denominator ->
  X (2 * units f k) = (remainder ?= 0) -> X (2 * units f (k + 1)) = Lt ->
  X (units f k + units f (k + 1)) = (2 * remainder ?= denominator) -> splits X k n remainder denominator.
Proof using.
  intros Hk Hodd Hr Hd Hlow Hhi Hmid. assert (Hi : inexact_at f X k = negb (remainder =? 0)).
  { unfold inexact_at. rewrite Hlow. destruct (Z.compare_spec remainder 0), (Z.eqb_spec remainder 0); (done || lia). }
  split; [done|..|done|lia].
  - split; [done|]. split; [|done]. rewrite Hlow. apply Z.compare_ge_iff. lia.
  - unfold middle_above. rewrite Hi. intros Hz%negb_false_iff%Z.eqb_eq. rewrite Hmid, Hz. apply Z.compare_lt_iff. lia.
  - rewrite Hi. by rewrite negb_involutive.
  - by rewrite Hmid.
Qed.

(** [k] is the pattern of [n * 2^q]. *)
Definition pattern_of (k n q : Z) : Prop :=
  0 <= k /\ 0 <= n < 2 ^ (fb + 1) /\ 0 <= q /\ units f k = n * 2 ^ q /\ units f (k + 1) = (n + 1) * 2 ^ q /\ Z.odd n = Z.odd k.

Lemma pattern_of_normal q n : 0 <= q -> 2 ^ fb <= n < 2 ^ (fb + 1) -> pattern_of (q * 2 ^ fb + n) n q.
Proof using Hf.
  intros Hq Hn. pose proof (pow_fb f Hf). pose proof (fo_fraction f Hf). split; [nia|]. split; [lia|]. split; [done|].
  rewrite <- Z.add_assoc, !units_normal by (done || lia). split; [done|]. split; [done|].
  rewrite Z.odd_add, Z.odd_mul, (Z.odd_pow 2) by lia. cbn [Z.odd]. by rewrite andb_false_r.
Qed.

Lemma pattern_of_subnormal n : 0 <= n < 2 ^ fb -> pattern_of n n 0.
Proof using Hf.
  intros Hn. pose proof (fo_fraction f Hf). split; [lia|]. split; [rewrite Z.pow_add_r by lia; lia|]. split; [done|].
  rewrite !units_subnormal by (done || lia). split; [lia|]. by split; [lia|].
Qed.

Lemma scale_splits m e X k n q :
  0 < m < 2 ^ 128 -> is_exact m e X \/ (is_sticky m e X /\ 2 <= q - e) -> (128 <= q - e -> m < 2 ^ 127) ->
  - fb <= q - e -> pattern_of k n q ->
  (0 <= q - e -> n = m / 2 ^ (q - e)) -> (q - e < 0 -> n = m * 2 ^ (e - q)) ->
  exists remainder denominator, scale_integer_for_pack m (q - e) = Some (n, remainder, denominator) /\
    splits X k n remainder denominator.
Proof using Hf.
  intros Hm HX H127 Hlow (Hk & Hn & Hq & Hu0 & Hu1 & Hodd) Hdiv Hmul. pose proof (fo_fraction f Hf) as Hfb.
  assert (Hn64 : wrap 64 n = n).
  { apply wrap_small. split; [lia|]. apply Z.lt_le_trans with (2 ^ (fb + 1)); [lia|]. apply Z.pow_le_mono_r; lia. }
  unfold scale_integer_for_pack. destruct (Z.leb_spec (q - e) 0) as [Hsh|Hsh].
  - assert (Hex : is_exact m e X) by (destruct HX as [?|[_ ?]]; [done|lia]).
    assert (Hnm : n = m * 2 ^ (e - q)).
    { destruct (Z.eq_dec (q - e) 0) as [He|He]; [|apply Hmul; lia]. rewrite Hdiv by lia. rewrite He. replace (e - q) with 0 by lia. by rewrite Z.div_1_r, Z.mul_1_r. }
    unfold shl_checked. rewrite (proj2 (Z.leb_le 0 _)), (proj2 (Z.ltb_lt _ 128)) by lia. cbn [andb mbind option_bind].
    replace (- (q - e)) with (e - q) by lia. assert (Hn128 : n < 2 ^ 128) by (apply Z.lt_le_trans with (2 ^ (fb + 1)); [lia|]; apply Z.pow_le_mono_r; lia).
    rewrite shl_fits, <- Hnm by (rewrite <- ?Hnm; lia).
    rewrite Hn64. do 2 eexists. split; [reflexivity|].
    assert (He0 : 0 <= e) by lia.
    assert (Hpt : forall h, X h = (2 * (n * 2 ^ q) ?= h)).
    { intros h. rewrite Hex, (Z.max_r 0 e), (Z.max_l 0 (- e)) by lia. rewrite Z.mul_1_r, Hnm. f_equal.
      rewrite <- !Z.mul_assoc, <- Z.pow_add_r by lia. do 3 f_equal. lia. }
    pose proof (Z.pow_pos_nonneg 2 q ltac:(lia) Hq).
    apply splits_of; [done|done|lia|lia|..]; rewrite Hpt, ?Hu0, ?Hu1; [by apply Z.compare_eq_iff|apply Z.compare_lt_iff; lia|].
    transitivity Lt; [apply Z.compare_lt_iff; lia|done].
  - specialize (Hdiv ltac:(lia)). set (sh := q - e) in *. pose proof (Z.pow_pos_nonneg 2 sh ltac:(lia) ltac:(lia)) as Hpsh.
    assert (Hpts : forall t, X (2 * (t * 2 ^ q)) = (m ?= t * 2 ^ sh)).
    { intros t. assert (Heq : 2 * (t * 2 ^ q) * 2 ^ Z.max 0 (- e) = 2 * (t * 2 ^ sh) * 2 ^ Z.max 0 e).
      { pose proof (rescale e q 0 (2 * t)) as Hr. rewrite !Z.add_0_r in Hr. rewrite Z.mul_assoc, Hr by lia. fold sh. lia. }
      destruct HX as [Hex|[Hst H2]]; [by apply (exact_point m e)|]. apply Hst; [|done].
      rewrite Z.even_mul, Z.even_pow by lia. apply orb_true_r. }
    assert (Hmidp : X (n * 2 ^ q + (n + 1) * 2 ^ q) = (m ?= (2 * n + 1) * 2 ^ (sh - 1))).
    { assert (Heq : (n * 2 ^ q + (n + 1) * 2 ^ q) * 2 ^ Z.max 0 (- e) = 2 * ((2 * n + 1) * 2 ^ (sh - 1)) * 2 ^ Z.max 0 e).
      { replace (n * 2 ^ q + (n + 1) * 2 ^ q) with ((2 * n + 1) * 2 ^ q) by lia.
        pose proof (rescale e q 0 (2 * n + 1)) as Hr. rewrite !Z.add_0_r in Hr. rewrite Hr by lia. fold sh.
        replace sh with (1 + (sh - 1)) at 1 by lia. rewrite Z.pow_add_r by lia. lia. }
      destruct HX as [Hex|[Hst H2]]; [by apply (exact_point m e)|]. apply Hst; [|done].
      rewrite Z.even_mul, Z.even_pow by lia. apply orb_true_r. }
    pose proof (Z.div_mod m (2 ^ sh) ltac:(lia)) as Hdm. pose proof (Z.mod_pos_bound m (2 ^ sh) Hpsh) as Hmb. rewrite <- Hdiv in Hdm.
    assert (Hpow : 2 ^ sh = 2 * 2 ^ (sh - 1)) by (replace sh with (1 + (sh - 1)) at 1 by lia; rewrite Z.pow_add_r by lia; lia).
    assert (Hlowc : X (2 * units f k) = (m mod 2 ^ sh ?= 0)).
    { rewrite Hu0, Hpts. transitivity (n * 2 ^ sh + m mod 2 ^ sh ?= n * 2 ^ sh + 0); [f_equal; lia|apply Z.add_compare_mono_l]. }
    assert (Hhic : X (2 * units f (k + 1)) = Lt) by (rewrite Hu1, Hpts; apply Z.compare_lt_iff; lia).
    assert (Hmidc : X (units f k + units f (k + 1)) = (2 * (m mod 2 ^ sh) ?= 2 ^ sh)).
    { rewrite Hu0, Hu1, Hmidp. rewrite <- (compare_mul_pos_r 2 m) by lia.
      transitivity (2 * n * 2 ^ sh + 2 * (m mod 2 ^ sh) ?= 2 * n * 2 ^ sh + 2 ^ sh); [f_equal; lia|apply Z.add_compare_mono_l]. }
    destruct (Z.ltb_spec sh 128) as [H128|H128].
    + rewrite shl_one by lia. unfold shr. rewrite Z.shiftr_div_pow2, <- Hdiv, Hn64 by lia.
      replace (2 ^ sh - 1) with (Z.ones sh) by (rewrite Z.ones_equiv; lia). rewrite Z.land_ones by lia.
      do 2 eexists. split; [reflexivity|]. apply splits_of; [done|done| |lia|done|done|done].
      split; [lia|]. apply Z.lt_le_trans with (2 ^ sh); [lia|]. apply Z.pow_le_mono_r; lia.
    + specialize (H127 H128). assert (Hbig : 2 ^ 128 <= 2 ^ sh) by (apply Z.pow_le_mono_r; lia).
      assert (Hn0 : n = 0) by (rewrite Hdiv; apply Z.div_small; lia). assert (Hmm : m mod 2 ^ sh = m) by (apply Z.mod_small; lia).
      rewrite Hmm in *. do 2 eexists. split; [by rewrite Hn0|].
      apply splits_of; [done|done|lia|unfold umax; lia|done|done|]. rewrite Hmidc.
      transitivity Lt; [apply Z.compare_lt_iff; change (2 ^ 128) with (2 * 2 ^ 127) in Hbig; lia|].
      symmetry. apply Z.compare_lt_iff. unfold umax. change (2 ^ 128) with (2 * 2 ^ 127). lia.
Qed.

(** Once below an integer, below the larger ones. *)
Definition ordered (X : Exact) : Prop := forall h h', h <= h' -> X h = Lt -> X h' = Lt.

Lemma splits_round mode negative X k n remainder denominator :
  fpcr_mode mode = true -> splits X k n remainder denominator ->
  should_round n remainder denominator negative mode = Some (round_up f mode negative X k) /\
  negb (remainder =? 0) = inexact_at f X k.
Proof using Hf.
  intros Hmode []. split; [|rewrite sp_zero0; apply negb_involutive]. by apply should_round_spec.
Qed.

(** A rounded significand is packed as a normal number, a rounded fraction as a
    subnormal one. *)
Lemma finish_normal control negative X q n remainder denominator status :
  fpcr_mode control.(rounding) = true -> ordered X -> status.(underflow) = false -> 0 <= q -> 2 ^ fb <= n < 2 ^ (fb + 1) ->
  splits X (q * 2 ^ fb + n) n remainder denominator ->
  exists o, (up ← should_round n remainder denominator negative control.(rounding);
             pack_normal (sign_bits_of negative f) (n + b2z up) (q + 1 - f.(exponent_bias)) (negb (remainder =? 0)) f
               control.(rounding) status) = Some o /\ ieee_result f control negative X status o.
Proof using Hf.
  intros Hmode Hord Hu Hq Hn Hsp. destruct (splits_round _ negative _ _ _ _ _ Hmode Hsp) as [Hr Hi]. rewrite Hr, Hi.
  cbn [mbind option_bind]. apply pack_normal_spec; try done; [apply Hsp|apply Hsp|].
  unfold tiny. destruct (X (2 * 2 ^ fb)) eqn:Ht; [done| |done]. destruct (sp_brackets _ _ _ _ _ Hsp) as (_ & Hge & _). destruct Hge.
  apply (Hord (2 * 2 ^ fb)); [|done]. pose proof (Z.pow_pos_nonneg 2 q). pose proof (pow_fb f Hf).
  rewrite units_normal by (done || lia). nia.
Qed.

Lemma splits_tiny X n remainder denominator :
  ordered X -> 0 <= n < 2 ^ fb -> splits X n n remainder denominator -> tiny f X = true.
Proof using Hf.
  intros Hord Hn Hsp. unfold tiny. rewrite (Hord (2 * units f (n + 1))); [done| |apply Hsp]. rewrite units_subnormal by (done || lia). lia.
Qed.

Lemma finish_subnormal control negative X n remainder denominator status :
  fpcr_mode control.(rounding) = true -> ordered X -> control.(flush_to_zero) = false -> 0 <= n < 2 ^ fb ->
  splits X n n remainder denominator ->
  exists o, (up ← should_round n remainder denominator negative control.(rounding);
             Some (pack_subnormal (sign_bits_of negative f) (n + b2z up) (negb (remainder =? 0)) f status)) = Some o /\
    ieee_result f control negative X status o.
Proof using Hf.
  intros Hmode Hord Hz Hn Hsp. destruct (splits_round _ negative _ _ _ _ _ Hmode Hsp) as [Hr Hi]. rewrite Hr, Hi.
  cbn [mbind option_bind]. eexists. split; [reflexivity|]. apply pack_subnormal_spec; try done; [apply Hsp|apply Hsp|].
  by apply (splits_tiny X n remainder denominator).
Qed.

(** A tiny result with flushing. *)
Lemma finish_flushed control negative X status :
  control.(flush_to_zero) = true -> tiny f X = true ->
  ieee_result f control negative X status (mkOutcome (sign_bits_of negative f) (with_underflow true status)).
Proof using Hf. intros Hz Ht. unfold ieee_result. by rewrite Hz, Ht, sign_bits_eq. Qed.

(** [pack_float_sum] rounds correctly: the magnitude is exact, or sticky with at
    least two bits below the rounding position. *)
Lemma pack_float_sum_spec control negative m s X status :
  fpcr_mode control.(rounding) = true -> ordered X -> status.(underflow) = false -> 0 < m < 2 ^ 128 ->
  let e := s - minimum_subnormal f in
  is_exact m e X \/ (is_sticky m e X /\ if 1 - f.(exponent_bias) <=? s + Z.log2 m then fb + 2 <= Z.log2 m else e <= -2) ->
  (128 <= - e -> m < 2 ^ 127) ->
  exists o, pack_float_sum m s negative f control status = Some o /\ ieee_result f control negative X status o.
Proof using Hf.
  intros Hmode Hord Hu Hm e HX H127. pose proof (fo_fraction f Hf) as Hfb. pose proof (Z.log2_spec m ltac:(lia)) as Hlog.
  pose proof (Z.log2_nonneg m) as Hl0. unfold pack_float_sum, top_bit. rewrite (proj2 (Z.eqb_neq m 0)) by lia. cbv zeta.
  unfold minimum_subnormal in e. set (l := Z.log2 m) in *.
  destruct (Z.leb_spec (1 - exponent_bias f) (s + l)) as [Hnorm|Hsub].
  - set (q := s + l + exponent_bias f - 1). replace (l - fb) with (q - e) by (unfold q, e; lia).
    assert (Hsh : q - e = l - fb) by (unfold q, e; lia).
    set (n := if 0 <=? q - e then m / 2 ^ (q - e) else m * 2 ^ (e - q)).
    assert (Hn : 2 ^ fb <= n < 2 ^ (fb + 1)).
    { unfold n. destruct (Z.leb_spec 0 (q - e)) as [H0|H0].
      - replace (2 ^ l) with (2 ^ fb * 2 ^ (q - e)) in Hlog by (rewrite <- Z.pow_add_r by lia; f_equal; lia).
        replace (2 ^ Z.succ l) with (2 ^ (fb + 1) * 2 ^ (q - e)) in Hlog by (rewrite <- Z.pow_add_r by lia; f_equal; lia).
        pose proof (Z.pow_pos_nonneg 2 (q - e)). split; [apply Z.div_le_lower_bound; lia|apply Z.div_lt_upper_bound; lia].
      - replace (2 ^ fb) with (2 ^ l * 2 ^ (e - q)) by (rewrite <- Z.pow_add_r by lia; f_equal; lia).
        replace (2 ^ (fb + 1)) with (2 ^ Z.succ l * 2 ^ (e - q)) by (rewrite <- Z.pow_add_r by lia; f_equal; lia).
        pose proof (Z.pow_pos_nonneg 2 (e - q)). nia. }
    assert (Hl128 : l < 128) by (apply Z.log2_lt_pow2; lia).
    destruct (scale_splits m e X (q * 2 ^ fb + n) n q) as (r & d & Hsc & Hsp).
    { done. } { destruct HX as [?|[? ?]]; [by left|right; split; [done|lia]]. } { lia. } { lia. }
    { apply pattern_of_normal; unfold q; lia. } { intros H0. unfold n. by rewrite (proj2 (Z.leb_le _ _)) by done. }
    { intros H0. unfold n. by rewrite (proj2 (Z.leb_gt _ _)) by done. }
    rewrite Hsc. cbn [mbind option_bind]. replace (s + l) with (q + 1 - exponent_bias f) by (unfold q; lia).
    apply (finish_normal control negative X q n r d); try done. unfold q. lia.
  - set (n := if 0 <=? - e then m / 2 ^ (- e) else m * 2 ^ e).
    assert (Hn : 0 <= n < 2 ^ fb /\ (e > 0 -> e <= fb)).
    { unfold n. destruct (Z.leb_spec 0 (- e)) as [H0|H0].
      - split; [|lia]. pose proof (Z.pow_pos_nonneg 2 (- e)). split; [apply Z.div_pos; lia|]. apply Z.div_lt_upper_bound; [lia|].
        apply Z.lt_le_trans with (2 ^ Z.succ l); [lia|]. rewrite <- Z.pow_add_r by lia. apply Z.pow_le_mono_r; unfold e in *; lia.
      - assert (e <= fb) by (unfold e in *; lia). split; [|done]. pose proof (Z.pow_pos_nonneg 2 e). split; [nia|].
        apply Z.lt_le_trans with (2 ^ Z.succ l * 2 ^ e); [nia|]. rewrite <- Z.pow_add_r by lia. apply Z.pow_le_mono_r; unfold e in *; lia. }
    destruct Hn as [Hn He]. destruct (scale_splits m e X n n 0) as (r & d & Hsc & Hsp).
    { done. } { destruct HX as [?|[? ?]]; [by left|right; split; [done|lia]]. } { intros. apply H127. lia. } { lia. }
    { by apply pattern_of_subnormal. } { intros H0. unfold n. by rewrite (proj2 (Z.leb_le _ _)) by lia. }
    { intros H0. unfold n. rewrite (proj2 (Z.leb_gt _ _)) by lia. by rewrite Z.sub_0_r. }
    destruct control.(flush_to_zero) eqn:Hz.
    + eexists. split; [reflexivity|]. apply finish_flushed; [done|]. by apply (splits_tiny X n r d).
    + replace (1 - exponent_bias f - fb - s) with (0 - e) by (unfold e; lia). rewrite Hsc. cbn [mbind option_bind].
      by apply (finish_subnormal control negative X n r d).
Qed.
End Pack.

(** * Decoded operands, and the alignment of two of them

    What [DecodedFloat_new] extracts from a bit pattern, and the lemmas about
    sticky shifts that the addition and the fused multiply-add share. *)

(** The exact value [num / den]. *)
Lemma ratio_exact num den m e : 0 < den -> m * 2 ^ Z.max 0 e * den = num * 2 ^ Z.max 0 (- e) -> is_exact m e (ratio num den).
Proof.
  intros Hd Heq h. unfold ratio. pose proof (Z.pow_pos_nonneg 2 (Z.max 0 (- e)) ltac:(lia) ltac:(lia)).
  rewrite <- (compare_mul_pos_r (2 ^ Z.max 0 (- e))) by done. rewrite <- (compare_mul_pos_r den (2 * m * _)) by done. f_equal; lia.
Qed.

Lemma ratio_ordered num den : 0 < den -> ordered (ratio num den).
Proof. intros Hd h h' Hh. unfold ratio. rewrite !Z.compare_lt_iff. intros. nia. Qed.

(** The three positions of a scale and of a larger one around zero. *)
Ltac scale_cases p d :=
  destruct (Z_le_gt_dec 0 p), (Z_le_gt_dec 0 (p + d)); try lia;
  [rewrite ?(Z.max_r 0 p), ?(Z.max_l 0 (- p)), ?(Z.max_r 0 (p + d)), ?(Z.max_l 0 (- (p + d))) in * by lia
  |rewrite ?(Z.max_l 0 p), ?(Z.max_r 0 (- p)), ?(Z.max_r 0 (p + d)), ?(Z.max_l 0 (- (p + d))) in * by lia
  |rewrite ?(Z.max_l 0 p), ?(Z.max_r 0 (- p)), ?(Z.max_l 0 (p + d)), ?(Z.max_r 0 (- (p + d))) in * by lia].

Lemma compare_shift k a b a' b' : a = k + a' -> b = k + b' -> (a ?= b) = (a' ?= b').
Proof. intros -> ->. apply Z.add_compare_mono_l. Qed.

Lemma exact_shift m d p X : 0 <= d -> is_exact (m * 2 ^ d) p X -> is_exact m (p + d) X.
Proof.
  intros Hd HX h. rewrite HX. clear HX. scale_cases p d.
  - rewrite Z.pow_add_r by lia. f_equal; lia.
  - rewrite <- (compare_mul_pos_r (2 ^ (- p)) _ (h * 2 ^ 0)) by (apply Z.pow_pos_nonneg; lia). f_equal; [|lia].
    replace (2 ^ d) with (2 ^ (p + d) * 2 ^ (- p)) by (rewrite <- Z.pow_add_r by lia; f_equal; lia). lia.
  - rewrite <- (compare_mul_pos_r (2 ^ d) (2 * m * 2 ^ 0)) by (apply Z.pow_pos_nonneg; lia). f_equal; [lia|].
    rewrite <- Z.mul_assoc, <- Z.pow_add_r by lia. do 2 f_equal. lia.
Qed.

(** ** Sticky shifts *)

Lemma land_pow2 v d : 0 <= d < 128 -> Z.land v (shl 128 1 d - 1) = v mod 2 ^ d.
Proof. intros Hd. rewrite shl_one by lia. replace (2 ^ d - 1) with (Z.ones d) by (rewrite Z.ones_equiv; lia). apply Z.land_ones. lia. Qed.

Lemma lor_one q : Z.lor q 1 = if Z.odd q then q else q + 1.
Proof.
  apply Z.bits_inj'. intros k Hk. rewrite Z.lor_spec. destruct (Z.eq_dec k 0) as [->|Hne].
  - rewrite !Z.bit0_odd, orb_true_r. destruct (Z.odd q) eqn:Ho; [by rewrite Ho|]. by rewrite Z.odd_add, Ho.
  - assert (Z.testbit 1 k = false) as -> by (apply (testbit_high 1); [lia|split; lia]). rewrite orb_false_r.
    destruct (Z.odd q) eqn:Ho; [done|]. replace (q + 1) with (1 + 2 * (q / 2)).
    + replace q with (0 + 2 * (q / 2)) at 1 by (rewrite (Z.div_mod q 2) at 2 by lia; rewrite Zmod_odd, Ho; lia).
      replace k with (Z.succ (k - 1)) by lia. rewrite Z.add_0_l, (Z.add_comm 1), Z.testbit_even_succ, Z.testbit_odd_succ by lia. done.
    + rewrite (Z.div_mod q 2) at 2 by lia. rewrite Zmod_odd, Ho. lia.
Qed.

(** A sticky shift keeps the order against even integers. *)
Lemma jam_even v d c : 0 <= v < 2 ^ 128 -> 0 <= d -> Z.even c = true -> (shift_right_jam v d ?= c) = (v ?= c * 2 ^ d).
Proof.
  intros Hv Hd [j ->]%Z.even_spec. unfold shift_right_jam.
  destruct (Z.eqb_spec d 0) as [->|Hd0]; [by rewrite Z.mul_1_r|]. pose proof (Z.pow_pos_nonneg 2 d ltac:(lia) Hd) as Hp.
  destruct (Z.ltb_spec d 128) as [Hlt|Hge].
  - rewrite land_pow2 by lia. unfold shr. rewrite Z.shiftr_div_pow2 by lia.
    pose proof (Z.div_mod v (2 ^ d) ltac:(lia)) as Hdm. pose proof (Z.mod_pos_bound v (2 ^ d) Hp) as Hm.
    set (q := v / 2 ^ d) in *. set (r := v mod 2 ^ d) in *. destruct (Z.eqb_spec r 0) as [Hr|Hr]; cbn [negb b2z].
    + rewrite Z.lor_0_r. rewrite <- (compare_mul_pos_r (2 ^ d)) by done. f_equal. lia.
    + rewrite lor_one. pose proof (Zmod_odd q) as Hq. pose proof (Z.div_mod q 2 ltac:(lia)) as Hq2.
      destruct (Z_lt_le_dec q (2 * j)) as [Hc|Hc].
      * transitivity Lt; [apply Z.compare_lt_iff; destruct (Z.odd q); lia|symmetry; apply Z.compare_lt_iff; nia].
      * transitivity Gt; [apply Z.compare_gt_iff; destruct (Z.odd q); lia|symmetry; apply Z.compare_gt_iff; nia].
  - assert (2 ^ 128 <= 2 ^ d) by (apply Z.pow_le_mono_r; lia). destruct (Z.eqb_spec v 0) as [->|Hv0]; cbn [negb b2z].
    + rewrite <- (compare_mul_pos_r (2 ^ d)) by done. f_equal.
    + destruct (Z_lt_le_dec j 1) as [Hj|Hj].
      * transitivity Gt; [apply Z.compare_gt_iff; lia|symmetry; apply Z.compare_gt_iff; nia].
      * transitivity Lt; [apply Z.compare_lt_iff; lia|symmetry; apply Z.compare_lt_iff; nia].
Qed.

Lemma jam_exact v d : 0 <= v < 2 ^ 128 -> 0 <= d < 128 -> v mod 2 ^ d = 0 -> shift_right_jam v d * 2 ^ d = v.
Proof.
  intros Hv Hd Hm. unfold shift_right_jam. destruct (Z.eqb_spec d 0) as [->|Hd0]; [lia|].
  rewrite (proj2 (Z.ltb_lt _ _)), land_pow2, Hm by lia. cbn [negb Z.eqb b2z]. rewrite Z.lor_0_r. unfold shr.
  rewrite Z.shiftr_div_pow2 by lia. pose proof (Z.div_mod v (2 ^ d)). pose proof (Z.pow_pos_nonneg 2 d). lia.
Qed.

Lemma jam_bound v d b : 0 <= v < 2 ^ 128 -> 0 <= d -> v <= b * 2 ^ d -> Z.even b = true -> 0 <= shift_right_jam v d <= b.
Proof.
  intros Hv Hd Hb He. pose proof (jam_even v d 0 Hv Hd eq_refl) as H0. pose proof (jam_even v d b Hv Hd He) as H1.
  destruct (Z.compare_spec (shift_right_jam v d) 0), (Z.compare_spec v (0 * 2 ^ d)); try done; try lia;
  destruct (Z.compare_spec (shift_right_jam v d) b), (Z.compare_spec v (b * 2 ^ d)); (done || lia).
Qed.

Lemma sticky_of m d T p X :
  0 <= d -> is_exact T p X -> (forall c, Z.even c = true -> (m ?= c) = (T ?= c * 2 ^ d)) -> is_sticky m (p + d) X.
Proof.
  intros Hd HX Hm c h Hc Hh. rewrite Hm by done. apply (exact_point T p); [done|].
  scale_cases p d.
  - rewrite !Z.pow_add_r in Hh by lia. lia.
  - replace (2 ^ d) with (2 ^ (p + d) * 2 ^ (- p)) by (rewrite <- Z.pow_add_r by lia; f_equal; lia). lia.
  - replace (2 ^ (- p)) with (2 ^ (- (p + d)) * 2 ^ d) by (rewrite <- Z.pow_add_r by lia; f_equal; lia). lia.
Qed.

Lemma sticky_sum A B d p X : 0 <= B < 2 ^ 128 -> 0 <= d -> Z.even A = true ->
  is_exact (A * 2 ^ d + B) p X -> is_sticky (A + shift_right_jam B d) (p + d) X.
Proof.
  intros HB Hd HA HX. apply (sticky_of _ d (A * 2 ^ d + B)); [done..|]. intros c Hc.
  transitivity (shift_right_jam B d ?= c - A); [apply (compare_shift A); lia|].
  rewrite jam_even by (done || by rewrite Z.even_sub, Hc, HA).
  symmetry. apply (compare_shift (A * 2 ^ d)); lia.
Qed.

Lemma sticky_difference A B d p X : 0 <= B < 2 ^ 128 -> 0 <= d -> Z.even A = true ->
  is_exact (A * 2 ^ d - B) p X -> is_sticky (A - shift_right_jam B d) (p + d) X.
Proof.
  intros HB Hd HA HX. apply (sticky_of _ d (A * 2 ^ d - B)); [done..|]. intros c Hc.
  transitivity (A - c ?= shift_right_jam B d);
    [apply (compare_shift (c - shift_right_jam B d)); lia|].
  rewrite Z.compare_antisym, jam_even by (done || by rewrite Z.even_sub, Hc, HA). rewrite <- Z.compare_antisym.
  apply (compare_shift (B - c * 2 ^ d)); lia.
Qed.

(** ** What the specification of rounding amounts to *)

(** Rounding to nearest: no pattern is closer to the exact result. *)
Lemma round_pattern_nearest f num den negative r j : format_ok f -> 0 < den -> 0 <= j ->
  round_pattern f TiesToEven negative (ratio num den) r ->
  Z.abs (units f r * den - num) <= Z.abs (units f j * den - num).
Proof.
  intros Hf Hd Hj (k & (Hk & Hlo & Hhi) & ->). unfold ratio, round_up, ratio in *. pose proof (units_step f Hf k Hk) as Hstep.
  assert (Hlo' : units f k * den <= num) by (destruct (Z.compare_spec (2 * num) (2 * units f k * den)); (done || lia)).
  assert (Hhi' : num < units f (k + 1) * den) by (destruct (Z.compare_spec (2 * num) (2 * units f (k + 1) * den)); (done || lia)).
  assert (Hcase : units f j * den <= units f k * den \/ units f (k + 1) * den <= units f j * den).
  { destruct (Z_le_gt_dec j k); [left; pose proof (units_mono f Hf j k)|right; pose proof (units_mono f Hf (k + 1) j)]; nia. }
  destruct (Z.compare_spec (2 * num) ((units f k + units f (k + 1)) * den)) as [He|He|He]; cbn [b2z]; rewrite ?Z.add_0_r; [|lia..].
  destruct (Z.odd k); cbn [b2z]; rewrite ?Z.add_0_r; lia.
Qed.

(** ** Decoded operands *)

(** The pattern of an operand without its sign, and its magnitude in units. *)
Definition pattern (f : BinaryFormat) (x : DecodedFloat) : Z := x.(df_exponent_field) * 2 ^ f.(fraction_bits) + x.(df_fraction).
Definition magnitude (f : BinaryFormat) (x : DecodedFloat) : Z := units f (pattern f x).
Definition value (f : BinaryFormat) (x : DecodedFloat) : Z := if x.(df_sign) then - magnitude f x else magnitude f x.
Definition is_finite (f : BinaryFormat) (x : DecodedFloat) : bool := negb (x.(df_exponent_field) =? exponent_max f).

Record float_ok (f : BinaryFormat) (x : DecodedFloat) : Prop := {
  fl_exponent : 0 <= x.(df_exponent_field) < 2 ^ f.(exponent_bits);
  fl_fraction : 0 <= x.(df_fraction) < 2 ^ f.(fraction_bits);
  fl_bits : x.(df_bits) = sign_pattern f x.(df_sign) + pattern f x;
  fl_significand : x.(df_significand) = if x.(df_exponent_field) =? 0 then x.(df_fraction) else 2 ^ f.(fraction_bits) + x.(df_fraction);
  fl_scale : x.(df_scale) = minimum_subnormal f + Z.max 0 (x.(df_exponent_field) - 1)
}.

Section Operand.
Context (f : BinaryFormat) (Hf : format_ok f).
Notation fb := f.(fraction_bits).
Notation eb := f.(exponent_bits).

Lemma decoded_ok bits : in_range f.(total_bits) bits -> float_ok f (DecodedFloat_new bits f).
Proof using Hf.
  intros Hb. pose proof (fo_fraction f Hf) as Hfb. pose proof (fo_exponent f Hf) as Heb. pose proof (fo_total f Hf) as Ht.
  pose proof (pow_fb f Hf) as Hp. unfold DecodedFloat_new.
  rewrite fraction_mask_eq, exponent_mask_eq, sign_mask_eq by done.
  replace (2 ^ fb - 1) with (Z.ones fb) by (rewrite Z.ones_equiv; lia). rewrite Z.land_ones by lia.
  rewrite bit_set_pow2 by lia.
  assert (Hexp : shr (Z.land bits (infinity f)) fb = bits / 2 ^ fb mod 2 ^ eb).
  { unfold infinity, shr. replace (2 ^ eb - 1) with (Z.ones eb) by (rewrite Z.ones_equiv; lia). rewrite <- Z.shiftl_mul_pow2 by lia.
    rewrite Z.shiftr_land, Z.shiftr_shiftl_l, Z.sub_diag, Z.shiftl_0_r, Z.land_ones, Z.shiftr_div_pow2 by lia. done. }
  rewrite Hexp. set (ef := bits / 2 ^ fb mod 2 ^ eb). pose proof (Z.mod_pos_bound (bits / 2 ^ fb) (2 ^ eb) ltac:(lia)) as Hef. fold ef in Hef.
  pose proof (Z.mod_pos_bound bits (2 ^ fb) ltac:(lia)) as Hfr. rewrite shl_one by lia.
  assert (Hsplit : bits = sign_pattern f (Z.testbit bits (total_bits f - 1)) + (ef * 2 ^ fb + bits mod 2 ^ fb)).
  { pose proof (testbit_top (total_bits f) bits ltac:(lia) Hb) as Htop.
    pose proof (Z.div_mod bits (2 ^ fb) ltac:(lia)) as Hdm. pose proof (Z.div_mod (bits / 2 ^ fb) (2 ^ eb) ltac:(lia)) as Hdm2. fold ef in Hdm2.
    unfold sign_pattern. rewrite (pow_total f Hf). destruct Hb as [Hb0 Hb1].
    assert (Hq : bits / 2 ^ fb / 2 ^ eb = b2z (Z.testbit bits (total_bits f - 1))).
    { rewrite Z.div_div, <- Z.pow_add_r by lia. replace (fb + eb) with (total_bits f - 1) by lia.
      rewrite <- Z.shiftr_div_pow2 by lia. rewrite Htop. rewrite Z.shiftr_div_pow2 by lia.
      rewrite (pow2_double (total_bits f)) in Hb1 by lia.
      destruct (Z.leb_spec (2 ^ (total_bits f - 1)) bits); cbn [b2z]; [symmetry; apply Z.div_unique_pos with (bits - 2 ^ (total_bits f - 1)); lia|apply Z.div_small; lia]. }
    rewrite Hq in Hdm2. nia. }
  destruct (Z.eqb_spec ef 0) as [He|He]; split; cbn; try done; unfold minimum_subnormal.
  - by rewrite He.
  - lia.
  - rewrite (proj2 (Z.eqb_neq _ _)) by done. rewrite <- (Z.mul_1_l (2 ^ fb)) at 1. rewrite lor_add by lia. lia.
  - lia.
Qed.

Context (x : DecodedFloat) (Hx : float_ok f x).

Lemma pattern_range : 0 <= pattern f x < 2 ^ eb * 2 ^ fb.
Proof using Hf Hx. destruct Hx. unfold pattern. pose proof (pow_fb f Hf). nia. Qed.

Lemma magnitude_eq : magnitude f x = x.(df_significand) * 2 ^ (x.(df_scale) - minimum_subnormal f).
Proof using Hf Hx.
  destruct Hx as [He Hfr _ Hs Hsc]. unfold magnitude, pattern. rewrite Hs, Hsc. pose proof (pow_fb f Hf). pose proof (fo_fraction f Hf).
  destruct (Z.eqb_spec x.(df_exponent_field) 0) as [->|Hne].
  - rewrite Z.mul_0_l, Z.add_0_l, units_subnormal by (done || lia). rewrite Z.max_l by lia. rewrite Z.add_simpl_l. lia.
  - rewrite Z.max_r by lia. rewrite Z.add_simpl_l.
    replace (_ * 2 ^ fb + _) with ((df_exponent_field x - 1) * 2 ^ fb + (2 ^ fb + df_fraction x)) by lia.
    apply units_normal; [done|lia|]. rewrite Z.pow_add_r by lia. lia.
Qed.

Lemma significand_range : 0 <= x.(df_significand) < 2 ^ (fb + 1).
Proof using Hf Hx.
  destruct Hx as [He Hfr _ Hs _]. rewrite Hs. pose proof (fo_fraction f Hf). rewrite Z.pow_add_r by lia. destruct (_ =? 0); lia.
Qed.

Lemma scale_range : minimum_subnormal f <= x.(df_scale) < minimum_subnormal f + 2 ^ eb.
Proof using Hf Hx. destruct Hx as [He _ _ _ Hs]. rewrite Hs. pose proof (pow_eb f Hf). lia. Qed.

(** Above the least scale, the number is normal. *)
Lemma scaled_normal : minimum_subnormal f < x.(df_scale) -> 2 ^ fb <= x.(df_significand).
Proof using Hf Hx.
  destruct Hx as [He Hfr _ Hs Hsc]. rewrite Hsc, Hs. intros Hlt. rewrite (proj2 (Z.eqb_neq _ _)) by lia. lia.
Qed.

Lemma is_zero_significand : is_zero x = (x.(df_significand) =? 0).
Proof using Hf Hx.
  destruct Hx as [He Hfr _ Hs _]. unfold is_zero. rewrite Hs. pose proof (pow_fb f Hf).
  destruct (Z.eqb_spec x.(df_exponent_field) 0); cbn [andb]; [done|]. symmetry. apply Z.eqb_neq. lia.
Qed.

Lemma magnitude_nonneg : 0 <= magnitude f x.
Proof using Hf Hx. rewrite magnitude_eq. pose proof significand_range. apply Z.mul_nonneg_nonneg; [lia|]. apply Z.pow_nonneg. lia. Qed.

Lemma is_zero_magnitude : is_zero x = (magnitude f x =? 0).
Proof using Hf Hx.
  rewrite is_zero_significand, magnitude_eq. pose proof scale_range. pose proof (Z.pow_pos_nonneg 2 (x.(df_scale) - minimum_subnormal f) ltac:(lia) ltac:(lia)).
  apply eq_true_iff_eq. rewrite !Z.eqb_eq. nia.
Qed.

Lemma negate_ok : float_ok f (negate f x) /\ value f (negate f x) = - value f x.
Proof using Hf Hx.
  pose proof pattern_range as Hp. pose proof (fo_total f Hf) as Ht. pose proof (fo_fraction f Hf). pose proof (fo_exponent f Hf).
  split; [|unfold value, magnitude, pattern; unfold negate; cbn [df_sign df_exponent_field df_fraction]; destruct (df_sign x); cbn [negb]; lia].
  destruct Hx as [He Hfr Hb Hs Hsc]. split; cbn; try done. unfold pattern in *. cbn. rewrite Hb, sign_mask_eq by done.
  unfold sign_pattern, pattern. rewrite <- (pow_total f Hf) in Hp. set (k := _ + df_fraction x) in *. set (t := total_bits f - 1) in *. assert (Ht0 : 0 <= t) by (unfold t; lia).
  assert (Hx0 : forall a, Z.lxor (a * 2 ^ t + k) (2 ^ t) = Z.lxor a 1 * 2 ^ t + k).
  { intros a. rewrite <- !(lor_add _ k t) by lia. rewrite <- !Z.shiftl_mul_pow2 by lia. replace (2 ^ t) with (Z.shiftl 1 t) by (rewrite Z.shiftl_mul_pow2; lia).
    rewrite Z.shiftl_lxor. apply Z.bits_inj'. intros i Hi. rewrite !Z.lxor_spec, !Z.lor_spec, Z.lxor_spec.
    destruct (Z_lt_le_dec i t); [rewrite !(Z.shiftl_spec_low _ t i) by lia; by destruct (Z.testbit k i)|].
    rewrite (testbit_high t k) by (done || lia). by rewrite !orb_false_r. }
  rewrite Hx0. destruct (df_sign x); reflexivity.
Qed.
End Operand.
