(* ===== verification/FpAdd.v ===== *)
(** * Addition and subtraction are correctly rounded

    [add_ieee_lane] on finite operands: the exact sum is rounded once, in every
    mode FPCR can select, with and without flushing; a zero sum has the
    architectural sign. *)

From S2P Require Import Prelude CpuArith CpuVector DecodeFpOperands FpFloat FpRound FpPack.

(** Boolean tests of integers as propositions. *)
Ltac decide_eqb :=
  repeat match goal with
  | H : (_ =? _) = true |- _ => apply Z.eqb_eq in H
  | H : (_ =? _) = false |- _ => apply Z.eqb_neq in H
  end.

(** The sign bit of a pattern, and whether it is subnormal: exponent field zero,
    fraction not. *)
Definition sign_bit (f : BinaryFormat) (bits : Z) : bool := Z.testbit bits (f.(total_bits) - 1).
Definition subnormal_pattern (f : BinaryFormat) (bits : Z) : bool :=
  (bits / 2 ^ f.(fraction_bits) mod 2 ^ f.(exponent_bits) =? 0) && negb (bits mod 2 ^ f.(fraction_bits) =? 0).
Definition finite_bits (f : BinaryFormat) (bits : Z) : Prop :=
  bits / 2 ^ f.(fraction_bits) mod 2 ^ f.(exponent_bits) <> 2 ^ f.(exponent_bits) - 1.

(** What FPCR lets an operation see of an operand: with flushing, a subnormal is
    the zero of its sign.  [denormals] is the status of reading the operands. *)
Definition operand_bits (f : BinaryFormat) (fpcr bits : Z) : Z :=
  if (from_fpcr fpcr).(flush_to_zero) && subnormal_pattern f bits then sign_pattern f (sign_bit f bits) else bits.
Definition operand (f : BinaryFormat) (fpcr bits : Z) : DecodedFloat := DecodedFloat_new (operand_bits f fpcr bits) f.
Definition denormals (f : BinaryFormat) (fpcr : Z) (operands : list Z) : FpStatus :=
  with_input_denormal (existsb (fun b => (from_fpcr fpcr).(flush_to_zero) && subnormal_pattern f b) operands)
    FpStatus_default.

(** The value of a finite pattern, in units of the least subnormal. *)
Definition pattern_value (f : BinaryFormat) (bits : Z) : Z :=
  let m := units f (bits mod 2 ^ (f.(total_bits) - 1)) in if sign_bit f bits then - m else m.

(** The sign of a zero sum of two operands. *)
Definition zero_sign (control : FpControl) (lhs rhs : bool) : bool :=
  if Bool.eqb lhs rhs then lhs else match control.(rounding) with TowardNegative => true | _ => false end.

Lemma from_fpcr_mode fpcr : fpcr_mode (from_fpcr fpcr).(rounding) = true.
Proof. cbn. unfold fpcr_rounding_mode. by repeat case_match. Qed.

Section Add.
Context (f : BinaryFormat) (Hf : format_ok f).
Notation fb := f.(fraction_bits).
Notation eb := f.(exponent_bits).

Lemma df_bits_new bits : (DecodedFloat_new bits f).(df_bits) = bits.
Proof using. unfold DecodedFloat_new. by destruct (_ =? 0). Qed.

Lemma decoded_fields bits : in_range f.(total_bits) bits ->
  let x := DecodedFloat_new bits f in
  x.(df_sign) = sign_bit f bits /\ x.(df_exponent_field) = bits / 2 ^ fb mod 2 ^ eb /\ x.(df_fraction) = bits mod 2 ^ fb /\
  pattern f x = bits mod 2 ^ (total_bits f - 1).
Proof using Hf.
  intros Hb x. pose proof (fo_fraction f Hf). pose proof (fo_exponent f Hf). pose proof (fo_total f Hf). pose proof (pow_fb f Hf).
  pose proof (decoded_ok f Hf bits Hb) as Hx. fold x in Hx. destruct (fl_exponent f x Hx), (fl_fraction f x Hx).
  pose proof (fl_bits f x Hx) as Hbits. pose proof (pattern_range f Hf x Hx) as Hp.
  assert (Hxb : df_bits x = bits) by apply df_bits_new. rewrite Hxb in Hbits. unfold sign_pattern in Hbits.
  rewrite <- (pow_total f Hf) in Hp. split.
  { unfold x, DecodedFloat_new, sign_bit. rewrite sign_mask_eq, bit_set_pow2 by (done || lia). by destruct (_ =? 0). }
  assert (Hpat : bits mod 2 ^ (total_bits f - 1) = pattern f x).
  { symmetry. apply Z.mod_unique with (b2z (df_sign x)); lia. }
  assert (Hlow : bits / 2 ^ fb = b2z (df_sign x) * 2 ^ eb + df_exponent_field x /\ bits mod 2 ^ fb = df_fraction x).
  { rewrite (pow_total f Hf) in Hbits. unfold pattern in Hbits.
    assert (E : bits = 2 ^ fb * (b2z (df_sign x) * 2 ^ eb + df_exponent_field x) + df_fraction x) by lia.
    split; [symmetry; apply Z.div_unique with (df_fraction x); lia|].
    symmetry; apply Z.mod_unique with (b2z (df_sign x) * 2 ^ eb + df_exponent_field x); lia. }
  destruct Hlow as [-> ->]. split; [|by rewrite Hpat].
  rewrite Z.add_comm, Z_mod_plus_full, Z.mod_small by lia. done.
Qed.

Lemma decoded_subnormal bits : in_range f.(total_bits) bits -> is_subnormal (DecodedFloat_new bits f) = subnormal_pattern f bits.
Proof using Hf. intros Hb. destruct (decoded_fields bits Hb) as (_ & He & Hr & _). unfold is_subnormal, subnormal_pattern. by rewrite He, Hr. Qed.

Lemma decoded_finite bits : in_range f.(total_bits) bits -> finite_bits f bits -> is_finite f (DecodedFloat_new bits f) = true.
Proof using Hf.
  intros Hb Hfin. destruct (decoded_fields bits Hb) as (_ & He & _). unfold is_finite. rewrite He, exponent_max_eq by done.
  by apply negb_true_iff, Z.eqb_neq.
Qed.

Lemma decoded_value bits : in_range f.(total_bits) bits -> value f (DecodedFloat_new bits f) = pattern_value f bits.
Proof using Hf. intros Hb. destruct (decoded_fields bits Hb) as (Hs & _ & _ & Hp). unfold value, magnitude, pattern_value. by rewrite Hs, Hp. Qed.

Lemma sign_masked bits : in_range f.(total_bits) bits -> Z.land bits (sign_mask f) = sign_pattern f (sign_bit f bits).
Proof using Hf.
  intros Hb. pose proof (fo_fraction f Hf). pose proof (fo_exponent f Hf). pose proof (fo_total f Hf).
  rewrite sign_mask_eq by done. unfold sign_pattern, sign_bit. apply Z.bits_inj'. intros k Hk. rewrite Z.land_spec, Z.pow2_bits_eqb by lia.
  destruct (Z.eqb_spec (total_bits f - 1) k) as [<-|Hne].
  - rewrite andb_true_r. destruct (Z.testbit bits (total_bits f - 1)); cbn [b2z]; [by rewrite Z.mul_1_l, Z.pow2_bits_true by lia|by rewrite Z.testbit_0_l].
  - rewrite andb_false_r. destruct (Z.testbit bits (total_bits f - 1)); cbn [b2z]; [by rewrite Z.mul_1_l, Z.pow2_bits_false by lia|by rewrite Z.testbit_0_l].
Qed.

Lemma sign_pattern_range (b : bool) : in_range f.(total_bits) (sign_pattern f b) /\ sign_bit f (sign_pattern f b) = b.
Proof using Hf.
  pose proof (fo_fraction f Hf). pose proof (fo_exponent f Hf). pose proof (fo_total f Hf). unfold sign_pattern, sign_bit.
  pose proof (pow2_double (total_bits f) ltac:(lia)). pose proof (Z.pow_pos_nonneg 2 (total_bits f - 1)).
  split; [split; destruct b; cbn [b2z]; lia|]. destruct b; cbn [b2z]; [by rewrite Z.mul_1_l, Z.pow2_bits_true by lia|by rewrite Z.testbit_0_l].
Qed.

Lemma operand_bits_ok fpcr bits : in_range f.(total_bits) bits ->
  in_range f.(total_bits) (operand_bits f fpcr bits) /\ sign_bit f (operand_bits f fpcr bits) = sign_bit f bits.
Proof using Hf. intros Hb. unfold operand_bits. destruct (_ && _); [|done]. apply sign_pattern_range. Qed.

(** The code's flush reads the operand. *)
Lemma flush_operand fpcr bits status : in_range f.(total_bits) bits ->
  flush f (from_fpcr fpcr).(flush_to_zero) (DecodedFloat_new bits f) status =
    (operand f fpcr bits, if (from_fpcr fpcr).(flush_to_zero) && subnormal_pattern f bits then with_input_denormal true status else status).
Proof using Hf.
  intros Hb. unfold flush, operand, operand_bits. rewrite decoded_subnormal, df_bits_new, sign_masked by done. by destruct (_ && _).
Qed.

Lemma sign_only bits : in_range f.(total_bits) bits ->
  let x := DecodedFloat_new (Z.land bits (sign_mask f)) f in
  float_ok f x /\ x.(df_sign) = (DecodedFloat_new bits f).(df_sign) /\ x.(df_exponent_field) = 0 /\ x.(df_fraction) = 0.
Proof using Hf.
  intros Hb x. pose proof (fo_fraction f Hf). pose proof (fo_exponent f Hf). pose proof (fo_total f Hf). pose proof (pow_fb f Hf).
  pose proof (sign_masked bits Hb) as Hbits. unfold sign_bit in Hbits.
  assert (Hx : float_ok f x).
  { apply decoded_ok; [done|]. rewrite Hbits. unfold sign_pattern. pose proof (pow2_double (total_bits f) ltac:(lia)). pose proof (Z.pow_pos_nonneg 2 (total_bits f - 1)).
    split; destruct (Z.testbit _ _); cbn [b2z]; lia. }
  split; [done|]. pose proof (fl_bits f x Hx) as Hxb. pose proof (pattern_range f Hf x Hx) as Hp. rewrite <- (pow_total f Hf) in Hp.
  assert (Hs : df_sign (DecodedFloat_new bits f) = Z.testbit bits (total_bits f - 1)).
  { unfold DecodedFloat_new. rewrite sign_mask_eq, bit_set_pow2 by (done || lia). by destruct (_ =? 0). }
  assert (Hxbits : df_bits x = Z.land bits (sign_mask f)) by (unfold x, DecodedFloat_new; by destruct (_ =? 0)).
  rewrite Hxbits, Hbits in Hxb. rewrite Hs. unfold sign_pattern in Hxb.
  assert (Hpat : df_sign x = Z.testbit bits (total_bits f - 1) /\ pattern f x = 0).
  { destruct (df_sign x), (Z.testbit bits (total_bits f - 1)); cbn [b2z] in Hxb; (split; [try done; lia|lia]). }
  destruct Hpat as [-> Hp0]. split; [done|]. destruct (fl_exponent f x Hx), (fl_fraction f x Hx). unfold pattern in Hp0. nia.
Qed.

Lemma flush_ok enabled bits status : in_range f.(total_bits) bits ->
  let x := DecodedFloat_new bits f in
  let y := (flush f enabled x status).1 in
  float_ok f y /\ y.(df_sign) = x.(df_sign) /\ (enabled = true -> is_subnormal y = false) /\ is_finite f y = is_finite f x /\
  (flush f enabled x status).2 = (if enabled && is_subnormal x then with_input_denormal true status else status).
Proof using Hf.
  intros Hb x y. subst y. unfold flush. destruct (enabled && is_subnormal x) eqn:He; cbn [fst snd].
  - destruct (sign_only bits Hb) as (Hok & Hs & He0 & Hf0). apply andb_true_iff in He as [-> Hsub].
    assert (Hxb : df_bits x = bits) by (unfold x, DecodedFloat_new; by destruct (_ =? 0)). rewrite Hxb.
    split; [done|]. split; [done|]. unfold is_subnormal, is_finite in *. rewrite He0, Hf0.
    apply andb_true_iff in Hsub as [Hx0 _]. apply Z.eqb_eq in Hx0. by rewrite Hx0.
  - split; [by apply decoded_ok|]. split; [done|]. split; [|done]. intros ->. done.
Qed.

(** An exact result that the format has. *)
Lemma representable_result control negative k status :
  0 <= k < infinity f -> (control.(flush_to_zero) = true -> 2 ^ fb <= k) -> status.(inexact) = false -> status.(underflow) = false ->
  ieee_result f control negative (ratio (units f k) 1) status (mkOutcome (sign_pattern f negative + k) status).
Proof using Hf.
  intros Hk Hz Hi Hu. set (X := ratio (units f k) 1). pose proof (units_step f Hf k ltac:(lia)) as Hstep.
  assert (Hex : inexact_at f X k = false) by (unfold inexact_at, X, ratio; by rewrite Z.mul_1_r, Z.compare_refl).
  assert (Hb : brackets f X k).
  { split; [lia|]. unfold X, ratio. rewrite !Z.mul_1_r, Z.compare_refl. split; [done|]. apply Z.compare_lt_iff. lia. }
  assert (Hup : round_up f control.(rounding) negative X k = false).
  { apply round_up_exact; [done..|]. unfold X, ratio. apply Z.compare_lt_iff. lia. }
  assert (Hflush : control.(flush_to_zero) && tiny f X = false).
  { destruct control.(flush_to_zero); [|done]. cbn [andb]. unfold tiny, X, ratio. specialize (Hz eq_refl).
    pose proof (units_mono f Hf (2 ^ fb) k) as Hm. rewrite (units_subnormal f Hf (2 ^ fb)) in Hm by (pose proof (pow_fb f Hf); lia).
    pose proof (pow_fb f Hf). destruct (Z.compare_spec (2 * units f k) (2 * 2 ^ fb * 1)); (done || lia). }
  unfold ieee_result. rewrite Hflush. exists k. split; [exists k; by rewrite Hup, Z.add_0_r|].
  rewrite (proj2 (Z.ltb_lt _ _)) by lia. cbv zeta. rewrite Hex, andb_false_r. f_equal. destruct status. cbn in *. by subst.
Qed.

(** The precondition of packing, for a magnitude [m] at scale [s]. *)
Definition packs (m s : Z) (X : Exact) : Prop :=
  forall control negative status, fpcr_mode control.(rounding) = true -> status.(underflow) = false ->
  exists o, pack_float_sum m s negative f control status = Some o /\ ieee_result f control negative X status o.

Section Aligned.
Context (x y : DecodedFloat) (Hx : float_ok f x) (Hy : float_ok f y).
Context (Hx0 : 0 < x.(df_significand)) (Hy0 : 0 < y.(df_significand)) (Hscale : y.(df_scale) <= x.(df_scale)).
Let d := x.(df_scale) - y.(df_scale).
Let A := 8 * x.(df_significand).
Let B := 8 * y.(df_significand).
Let p := y.(df_scale) - 3 - minimum_subnormal f.

Lemma aligned_range : 0 < A < 2 ^ 57 /\ 0 < B < 2 ^ 57.
Proof using Hf Hx Hy Hx0 Hy0 Hscale.
  pose proof (significand_range f Hf x Hx). pose proof (significand_range f Hf y Hy). pose proof (fo_fraction f Hf).
  assert (2 ^ (fb + 1) <= 2 ^ 53) by (apply Z.pow_le_mono_r; lia). subst A B. change (2 ^ 57) with (2 ^ 53 * 16). lia.
Qed.

Lemma aligned_exact sign : sign = 1 \/ sign = -1 -> is_exact (A * 2 ^ d + sign * B) p (ratio (magnitude f x + sign * magnitude f y) 1).
Proof using Hf Hx Hy Hx0 Hy0 Hscale.
  intros Hs. apply ratio_exact; [lia|]. rewrite (magnitude_eq f Hf x Hx), (magnitude_eq f Hf y Hy). pose proof (scale_range f Hf y Hy) as Hr.
  replace (df_scale x - minimum_subnormal f) with (d + (df_scale y - minimum_subnormal f)) by (unfold d; lia).
  set (ey := df_scale y - minimum_subnormal f) in *. assert (Hp : p = ey - 3) by (unfold p, ey; lia). rewrite Hp.
  rewrite Z.pow_add_r by (unfold d, ey; lia). subst A B. destruct (Z_le_gt_dec 3 ey).
  - rewrite Z.max_r, Z.max_l by lia. replace ey with (3 + (ey - 3)) at 2 3 by lia. rewrite Z.pow_add_r by lia. lia.
  - rewrite Z.max_l, Z.max_r by lia. replace (2 ^ (- (ey - 3))) with (2 ^ (3 - ey)) by (f_equal; lia).
    assert (H8 : 2 ^ ey * 2 ^ (3 - ey) = 8) by (rewrite <- Z.pow_add_r by (unfold ey; lia); replace (ey + (3 - ey)) with 3 by lia; done). nia.
Qed.

(** The larger scale dominates as soon as bits are shifted out. *)
Lemma aligned_far : 3 < d -> 0 <= shift_right_jam B d <= 2 ^ fb /\ 8 * 2 ^ fb <= A /\ minimum_subnormal f + 4 <= x.(df_scale).
Proof using Hf Hx Hy Hx0 Hy0 Hscale.
  intros Hd. pose proof (scale_range f Hf y Hy) as Hr. pose proof (fo_fraction f Hf).
  pose proof (scaled_normal f Hf x Hx ltac:(unfold d in Hd; lia)). pose proof (significand_range f Hf y Hy) as Hys.
  rewrite Z.pow_add_r, Z.pow_1_r in Hys by lia. split; [|subst A; unfold d in Hd; lia]. apply jam_bound; [..|rewrite Z.even_pow; [done|lia]].
  - subst B. assert (2 ^ fb <= 2 ^ 52) by (apply Z.pow_le_mono_r; lia). change (2 ^ 128) with (2 ^ 52 * 2 ^ 76). lia.
  - lia.
  - assert (2 ^ 4 <= 2 ^ d) by (apply Z.pow_le_mono_r; lia). subst B. nia.
Qed.

Lemma aligned_near : d <= 3 -> shift_right_jam B d * 2 ^ d = B.
Proof using Hf Hx Hy Hx0 Hy0 Hscale.
  intros Hd. pose proof aligned_range. assert (0 <= d) by (unfold d; lia). apply jam_exact; [|lia|].
  - assert (2 ^ 57 < 2 ^ 128) by (apply Z.pow_lt_mono_r; lia). lia.
  - subst B. replace 8 with (2 ^ (3 - d) * 2 ^ d) by (rewrite <- Z.pow_add_r by lia; replace (3 - d + d) with 3 by lia; done).
    rewrite <- Z.mul_assoc, (Z.mul_comm (2 ^ d)), Z.mul_assoc. apply Z.mod_mul. pose proof (Z.pow_pos_nonneg 2 d). lia.
Qed.

Lemma aligned_packs sign m : sign = 1 \/ sign = -1 -> m = A + sign * shift_right_jam B d -> 0 < m ->
  packs m (x.(df_scale) - 3) (ratio (magnitude f x + sign * magnitude f y) 1).
Proof using Hf Hx Hy Hx0 Hy0 Hscale.
  intros Hs Hm Hm0 control negative status Hmode Hu. pose proof (aligned_exact sign Hs) as HX. pose proof aligned_range as [HA HB].
  assert (Hd0 : 0 <= d) by (unfold d; lia). pose proof (fo_fraction f Hf).
  assert (HB128 : 0 <= B < 2 ^ 128) by (assert (2 ^ 57 < 2 ^ 128) by (apply Z.pow_lt_mono_r; lia); lia).
  assert (HAe : Z.even A = true) by (subst A; by rewrite Z.even_mul).
  assert (He : p + d = df_scale x - 3 - minimum_subnormal f) by (unfold p, d; lia).
  assert (Hj : 0 <= shift_right_jam B d <= 2 ^ 57).
  { apply jam_bound; [done|done| |done]. pose proof (Z.pow_pos_nonneg 2 d ltac:(lia) Hd0). nia. }
  assert (Hsmall : m < 2 ^ 127) by (assert (2 ^ 57 * 4 <= 2 ^ 127) by (change (2 ^ 57 * 4) with (2 ^ 59); apply Z.pow_le_mono_r; lia); destruct Hs as [-> | ->]; lia).
  apply pack_float_sum_spec; [done|done|apply ratio_ordered; lia|done| | |intros; lia].
  { split; [done|]. assert (2 ^ 127 < 2 ^ 128) by (apply Z.pow_lt_mono_r; lia). lia. }
  rewrite <- He. destruct (Z_le_gt_dec d 3) as [Hd|Hd].
  - left. apply exact_shift; [done|]. pose proof (aligned_near Hd) as Hn. replace (m * 2 ^ d) with (A * 2 ^ d + sign * B); [done|].
    by rewrite Hm, Z.mul_add_distr_r, <- Z.mul_assoc, Hn.
  - right. destruct (aligned_far ltac:(lia)) as (Hjf & HAf & Hsc). pose proof (pow_fb f Hf).
    assert (Hm4 : 2 ^ (fb + 2) <= m) by (rewrite Z.pow_add_r by lia; destruct Hs as [-> | ->]; lia).
    assert (Hlog : fb + 2 <= Z.log2 m) by (apply Z.log2_le_pow2; lia). split.
    + rewrite Hm. destruct Hs as [-> | ->]; rewrite ?Z.mul_1_l in *; [by apply sticky_sum|].
      replace (A + -1 * shift_right_jam B d) with (A - shift_right_jam B d) by lia. apply sticky_difference; [done..|].
      by replace (A * 2 ^ d - B) with (A * 2 ^ d + -1 * B) by lia.
    + rewrite (proj2 (Z.leb_le _ _)); [done|]. unfold minimum_subnormal in *. lia.
Qed.

(** The order of the aligned magnitudes is that of the operands. *)
Lemma aligned_order : (shift_right_jam B d ?= A) = (magnitude f y ?= magnitude f x).
Proof using Hf Hx Hy Hx0 Hy0 Hscale.
  pose proof aligned_range as [HA HB]. rewrite jam_even; [| |unfold d; lia|subst A; by rewrite Z.even_mul].
  - rewrite (magnitude_eq f Hf x Hx), (magnitude_eq f Hf y Hy). pose proof (scale_range f Hf y Hy).
    replace (df_scale x - minimum_subnormal f) with (d + (df_scale y - minimum_subnormal f)) by (unfold d; lia).
    rewrite Z.pow_add_r by (unfold d; lia). rewrite Z.mul_assoc, compare_mul_pos_r by (apply Z.pow_pos_nonneg; lia).
    rewrite <- (compare_mul_pos_r 8 (df_significand y)) by lia. subst A B. f_equal; lia.
  - assert (2 ^ 57 < 2 ^ 128) by (apply Z.pow_lt_mono_r; lia). lia.
Qed.
End Aligned.

Lemma finite_cases x : is_finite f x = true -> is_nan x f = false /\ is_infinite x f = false.
Proof using Hf. unfold is_finite, is_nan, is_infinite. rewrite negb_true_iff. intros ->. done. Qed.

(** The value of a finite operand with its own pattern. *)
Lemma finite_pattern x : float_ok f x -> is_finite f x = true -> 0 <= pattern f x < infinity f.
Proof using Hf.
  intros Hx Hfin. destruct (fl_exponent f x Hx), (fl_fraction f x Hx). unfold is_finite in Hfin. rewrite exponent_max_eq in Hfin by done.
  apply negb_true_iff, Z.eqb_neq in Hfin. unfold pattern, infinity. nia.
Qed.

Lemma normal_pattern x : float_ok f x -> is_subnormal x = false -> is_zero x = false -> 2 ^ fb <= pattern f x.
Proof using Hf.
  intros Hx Hs Hz. destruct (fl_exponent f x Hx), (fl_fraction f x Hx). unfold is_subnormal, is_zero in *. unfold pattern.
  destruct (Z.eqb_spec (df_exponent_field x) 0) as [He|He]; cbn [andb] in *; [|nia]. by destruct (df_fraction x =? 0).
Qed.

(** Reading two operands. *)
Lemma flush_pair fpcr a b : in_range f.(total_bits) a -> in_range f.(total_bits) b -> let control := from_fpcr fpcr in
  flush f control.(flush_to_zero) (DecodedFloat_new a f) FpStatus_default =
    (operand f fpcr a, (flush f control.(flush_to_zero) (DecodedFloat_new a f) FpStatus_default).2) /\
  flush f control.(flush_to_zero) (DecodedFloat_new b f) (flush f control.(flush_to_zero) (DecodedFloat_new a f) FpStatus_default).2 =
    (operand f fpcr b, denormals f fpcr [a; b]).
Proof using Hf.
  intros Ha Hb control. subst control. rewrite !flush_operand by done. cbn [snd]. split; [done|]. unfold denormals. cbn [existsb].
  by destruct (_ && subnormal_pattern f a), (_ && subnormal_pattern f b).
Qed.

Lemma operand_ok fpcr bits : in_range f.(total_bits) bits ->
  float_ok f (operand f fpcr bits) /\ ((from_fpcr fpcr).(flush_to_zero) = true -> is_subnormal (operand f fpcr bits) = false).
Proof using Hf.
  intros Hb. pose proof (flush_ok (from_fpcr fpcr).(flush_to_zero) bits FpStatus_default Hb) as Hok. cbv zeta in Hok.
  rewrite flush_operand in Hok by done. by destruct Hok as (H1 & _ & H2 & _).
Qed.

Lemma operand_finite fpcr bits : in_range f.(total_bits) bits -> is_finite f (operand f fpcr bits) = is_finite f (DecodedFloat_new bits f).
Proof using Hf.
  intros Hb. pose proof (flush_ok (from_fpcr fpcr).(flush_to_zero) bits FpStatus_default Hb) as Hok. cbv zeta in Hok.
  rewrite flush_operand in Hok by done. by destruct Hok as (_ & _ & _ & H1 & _).
Qed.

Lemma denormals_flags fpcr l : (denormals f fpcr l).(underflow) = false /\ (denormals f fpcr l).(inexact) = false.
Proof using. done. Qed.

(** The finite part of the addition, operand by operand. *)
Definition add_finite (lhs rhs : DecodedFloat) (control : FpControl) (status : FpStatus) : option FpOutcome :=
  let toward_negative := match control.(rounding) with TowardNegative => true | _ => false end in
  if is_zero lhs && is_zero rhs then
    let negative := if Bool.eqb lhs.(df_sign) rhs.(df_sign) then lhs.(df_sign) else toward_negative in
    Some (mkOutcome (sign_bits_of negative f) status)
  else if is_zero lhs then Some (mkOutcome rhs.(df_bits) status)
  else if is_zero rhs then Some (mkOutcome lhs.(df_bits) status)
  else
  let common_scale := Z.max lhs.(df_scale) rhs.(df_scale) in
  let lhs_magnitude := shift_right_jam (shl 128 lhs.(df_significand) 3) (common_scale - lhs.(df_scale)) in
  let rhs_magnitude := shift_right_jam (shl 128 rhs.(df_significand) 3) (common_scale - rhs.(df_scale)) in
  let pack negative magnitude := pack_float_sum magnitude (common_scale - 3) negative f control status in
  if Bool.eqb lhs.(df_sign) rhs.(df_sign) then pack lhs.(df_sign) (lhs_magnitude + rhs_magnitude)
  else if rhs_magnitude <? lhs_magnitude then pack lhs.(df_sign) (lhs_magnitude - rhs_magnitude)
  else if lhs_magnitude <? rhs_magnitude then pack rhs.(df_sign) (rhs_magnitude - lhs_magnitude)
  else Some (mkOutcome (sign_bits_of toward_negative f) status).

(** The outcome for an exact sum [v / den], zero or not. *)
Definition sum_result (control : FpControl) (lhs rhs : bool) (v den : Z) (status : FpStatus) (o : FpOutcome) : Prop :=
  if v =? 0 then o = mkOutcome (sign_pattern f (zero_sign control lhs rhs)) status
  else ieee_result f control (v <? 0) (ratio (Z.abs v) den) status o.

(** Two magnitudes [mx] and [my] at scale [s] stand for [vx / den] and [vy / den]. *)
Record aligned (vx vy den s mx my : Z) : Prop := {
  al_sum : mx + my < 2 ^ 128 -> packs (mx + my) s (ratio (vx + vy) den);
  al_order : (my ?= mx) = (vy ?= vx);
  al_left : my < mx -> packs (mx - my) s (ratio (vx - vy) den);
  al_right : mx < my -> packs (my - mx) s (ratio (vy - vx) den)
}.

Lemma aligned_swap vx vy den s mx my : aligned vy vx den s my mx -> aligned vx vy den s mx my.
Proof using.
  intros [H1 H2 H3 H4]. split; [by rewrite (Z.add_comm mx), (Z.add_comm vx)| |done|done].
  by rewrite Z.compare_antisym, H2, <- Z.compare_antisym.
Qed.

Lemma aligned_left x y : float_ok f x -> float_ok f y -> 0 < x.(df_significand) -> 0 < y.(df_significand) ->
  y.(df_scale) <= x.(df_scale) ->
  aligned (magnitude f x) (magnitude f y) 1 (x.(df_scale) - 3) (8 * x.(df_significand))
    (shift_right_jam (8 * y.(df_significand)) (x.(df_scale) - y.(df_scale))).
Proof using Hf.
  intros Hx Hy Hx0 Hy0 Hs. pose proof (aligned_order x y Hx Hy Hx0 Hy0 Hs) as Hord. pose proof (fo_fraction f Hf) as Hfb.
  assert (Hj : 0 <= shift_right_jam (8 * df_significand y) (df_scale x - df_scale y) <= 2 ^ 57).
  { destruct (aligned_range x y Hx Hy Hx0 Hy0 Hs) as [_ HB]. pose proof (Z.pow_pos_nonneg 2 (df_scale x - df_scale y) ltac:(lia) ltac:(lia)).
    apply jam_bound; [|lia|nia|done]. assert (2 ^ 57 < 2 ^ 128) by (apply Z.pow_lt_mono_r; lia). lia. }
  pose proof (aligned_packs x y Hx Hy Hx0 Hy0 Hs) as Hp. split; [| exact Hord| |].
  - intros _. specialize (Hp 1 _ (or_introl eq_refl) eq_refl). rewrite !Z.mul_1_l in Hp. apply Hp. lia.
  - intros Hlt. specialize (Hp (-1) _ (or_intror eq_refl) eq_refl).
    replace (magnitude f x - magnitude f y) with (magnitude f x + -1 * magnitude f y) by lia.
    replace (_ - _) with (8 * df_significand x + -1 * shift_right_jam (8 * df_significand y) (df_scale x - df_scale y)) at 1 by lia. apply Hp. lia.
  - intros Hlt. destruct (Z.eq_dec (df_scale x) (df_scale y)) as [He|Hne].
    + rewrite He, Z.sub_diag in *. change (shift_right_jam (8 * df_significand y) 0) with (8 * df_significand y) in *.
      pose proof (aligned_packs y x Hy Hx Hy0 Hx0 ltac:(lia) (-1) _ (or_intror eq_refl) eq_refl) as Hp'. rewrite He, Z.sub_diag in Hp'.
      change (shift_right_jam (8 * df_significand x) 0) with (8 * df_significand x) in Hp'.
      replace (magnitude f y - magnitude f x) with (magnitude f y + -1 * magnitude f x) by lia.
      replace (_ - _) with (8 * df_significand y + -1 * (8 * df_significand x)) at 1 by lia. apply Hp'. lia.
    + exfalso. rewrite (proj2 (Z.compare_gt_iff _ _) Hlt) in Hord. symmetry in Hord. apply Z.compare_gt_iff in Hord.
      rewrite (magnitude_eq f Hf x Hx), (magnitude_eq f Hf y Hy) in Hord. pose proof (scale_range f Hf y Hy).
      pose proof (scaled_normal f Hf x Hx ltac:(lia)). pose proof (significand_range f Hf y Hy) as Hys. rewrite Z.pow_add_r, Z.pow_1_r in Hys by lia.
      replace (df_scale x - minimum_subnormal f) with (1 + (df_scale x - df_scale y - 1) + (df_scale y - minimum_subnormal f)) in Hord by lia.
      rewrite !Z.pow_add_r in Hord by lia. pose proof (Z.pow_pos_nonneg 2 (df_scale x - df_scale y - 1) ltac:(lia) ltac:(lia)).
      pose proof (Z.pow_pos_nonneg 2 (df_scale y - minimum_subnormal f) ltac:(lia) ltac:(lia)).
      set (u := 2 ^ (df_scale x - df_scale y - 1)) in *. set (w := 2 ^ (df_scale y - minimum_subnormal f)) in *. 
      assert (df_significand y < df_significand x * (2 ^ 1 * u)) by nia. nia.
Qed.

Lemma aligned_max x y : float_ok f x -> float_ok f y -> 0 < x.(df_significand) -> 0 < y.(df_significand) ->
  let c := Z.max x.(df_scale) y.(df_scale) in
  aligned (magnitude f x) (magnitude f y) 1 (c - 3)
    (shift_right_jam (8 * x.(df_significand)) (c - x.(df_scale))) (shift_right_jam (8 * y.(df_significand)) (c - y.(df_scale))).
Proof using Hf.
  intros Hx Hy Hx0 Hy0. cbv zeta. destruct (Z_le_gt_dec (df_scale y) (df_scale x)) as [Hs|Hs].
  - rewrite Z.max_l, Z.sub_diag by lia. by apply aligned_left.
  - rewrite Z.max_r, Z.sub_diag by lia. apply aligned_swap. apply aligned_left; (done || lia).
Qed.

Lemma aligned_small x y : float_ok f x -> float_ok f y ->
  let c := Z.max x.(df_scale) y.(df_scale) in
  shift_right_jam (8 * x.(df_significand)) (c - x.(df_scale)) + shift_right_jam (8 * y.(df_significand)) (c - y.(df_scale)) <= 2 ^ 60.
Proof using Hf.
  intros Hx Hy. cbv zeta. assert (Hb : forall z d, float_ok f z -> 0 <= d -> shift_right_jam (8 * df_significand z) d <= 2 ^ 57).
  { intros z d Hz Hd. pose proof (significand_range f Hf z Hz). pose proof (fo_fraction f Hf). pose proof (Z.pow_pos_nonneg 2 d ltac:(lia) Hd).
    assert (2 ^ (fb + 1) <= 2 ^ 53) by (apply Z.pow_le_mono_r; lia). assert (2 ^ 53 * 8 <= 2 ^ 57) by (change 8 with (2 ^ 3); rewrite <- Z.pow_add_r by lia; apply Z.pow_le_mono_r; lia).
    assert (2 ^ 57 < 2 ^ 128) by (apply Z.pow_lt_mono_r; lia). apply jam_bound; [lia|lia|nia|done]. }
  pose proof (Hb x (Z.max (df_scale x) (df_scale y) - df_scale x) Hx ltac:(lia)). pose proof (Hb y (Z.max (df_scale x) (df_scale y) - df_scale y) Hy ltac:(lia)).
  change (2 ^ 60) with (2 ^ 57 * 8). lia.
Qed.

(** An operand is its own correctly rounded value. *)
Lemma representable_operand control status z :
  float_ok f z -> is_finite f z = true -> is_zero z = false -> (control.(flush_to_zero) = true -> is_subnormal z = false) ->
  status.(underflow) = false -> status.(inexact) = false ->
  value f z <> 0 /\ ieee_result f control (value f z <? 0) (ratio (Z.abs (value f z)) 1) status (mkOutcome z.(df_bits) status).
Proof using Hf.
  intros Hz Hfz Hzz Hsz Hu Hi. pose proof (is_zero_magnitude f Hf z Hz) as Hzm. rewrite Hzz in Hzm. symmetry in Hzm. apply Z.eqb_neq in Hzm.
  pose proof (magnitude_nonneg f Hf z Hz). split; [unfold value; destruct (df_sign z); lia|].
  replace (value f z <? 0) with (df_sign z) by (unfold value; destruct (df_sign z); symmetry; [apply Z.ltb_lt|apply Z.ltb_ge]; lia).
  replace (Z.abs (value f z)) with (units f (pattern f z)) by (unfold value, magnitude in *; destruct (df_sign z); lia).
  rewrite (fl_bits f z Hz). apply representable_result; [by apply finite_pattern| |done|done]. intros Hft. apply normal_pattern; [done|by apply Hsz|done].
Qed.

(** The sum of operands of the same sign, and of opposite signs. *)
Lemma sum_spec vx vy den s mx my control status sign :
  aligned vx vy den s mx my -> 0 <= vx -> 0 <= vy -> 0 < vx + vy -> mx + my < 2 ^ 128 ->
  fpcr_mode control.(rounding) = true -> status.(underflow) = false ->
  exists o, pack_float_sum (mx + my) s sign f control status = Some o /\
    sum_result control sign sign ((if sign then -1 else 1) * (vx + vy)) den status o.
Proof using Hf.
  intros Hal Hx Hy Hpos Hlt Hmode Hu. destruct (al_sum _ _ _ _ _ _ Hal Hlt control sign status Hmode Hu) as (o & Ho & Hr). exists o.
  split; [done|]. unfold sum_result. rewrite (proj2 (Z.eqb_neq _ _)) by (destruct sign; lia).
  replace (_ <? 0) with sign by (destruct sign; symmetry; [apply Z.ltb_lt|apply Z.ltb_ge]; lia).
  by replace (Z.abs _) with (vx + vy) by (destruct sign; lia).
Qed.

Lemma difference_spec vx vy den s mx my control status sign :
  aligned vx vy den s mx my -> fpcr_mode control.(rounding) = true -> status.(underflow) = false ->
  exists o, (if my <? mx then pack_float_sum (mx - my) s sign f control status
             else if mx <? my then pack_float_sum (my - mx) s (negb sign) f control status
             else Some (mkOutcome (sign_bits_of (match control.(rounding) with TowardNegative => true | _ => false end) f) status)) = Some o /\
    sum_result control sign (negb sign) ((if sign then -1 else 1) * (vx - vy)) den status o.
Proof using Hf.
  intros [_ Hord Hl Hr] Hmode Hu. unfold sum_result, zero_sign.
  destruct (Z.ltb_spec my mx) as [H1|H1]; [|destruct (Z.ltb_spec mx my) as [H2|H2]].
  - rewrite (proj2 (Z.compare_lt_iff _ _) H1) in Hord. symmetry in Hord. assert (vy < vx) by done.
    destruct (Hl H1 control sign status Hmode Hu) as (o & Ho & Hres). exists o. split; [done|]. rewrite (proj2 (Z.eqb_neq _ _)) by (destruct sign; lia).
    replace (_ <? 0) with sign by (destruct sign; symmetry; [apply Z.ltb_lt|apply Z.ltb_ge]; lia). by replace (Z.abs _) with (vx - vy) by (destruct sign; lia).
  - rewrite (proj2 (Z.compare_gt_iff _ _) H2) in Hord. symmetry in Hord. rewrite Z.compare_gt_iff in Hord.
    destruct (Hr H2 control (negb sign) status Hmode Hu) as (o & Ho & Hres). exists o. split; [done|]. rewrite (proj2 (Z.eqb_neq _ _)) by (destruct sign; lia).
    replace (_ <? 0) with (negb sign) by (destruct sign; symmetry; [apply Z.ltb_ge|apply Z.ltb_lt]; lia). by replace (Z.abs _) with (vy - vx) by (destruct sign; lia).
  - assert (my = mx) as -> by lia. rewrite Z.compare_refl in Hord. symmetry in Hord. apply Z.compare_eq_iff in Hord. rewrite Hord, Z.sub_diag, Z.mul_0_r.
    eexists. split; [reflexivity|]. rewrite sign_bits_eq by done. by destruct sign.
Qed.

Lemma add_finite_spec x y control status :
  float_ok f x -> float_ok f y -> is_finite f x = true -> is_finite f y = true -> fpcr_mode control.(rounding) = true ->
  (control.(flush_to_zero) = true -> is_subnormal x = false /\ is_subnormal y = false) ->
  status.(underflow) = false -> status.(inexact) = false ->
  exists o, add_finite x y control status = Some o /\ sum_result control x.(df_sign) y.(df_sign) (value f x + value f y) 1 status o.
Proof using Hf.
  intros Hx Hy Hfx Hfy Hmode Hsub Hu Hi. unfold add_finite.
  pose proof (is_zero_magnitude f Hf x Hx) as Hzx. pose proof (is_zero_magnitude f Hf y Hy) as Hzy.
  pose proof (magnitude_nonneg f Hf x Hx) as Hnx. pose proof (magnitude_nonneg f Hf y Hy) as Hny.
  pose proof (is_zero_significand f Hf x Hx) as Hsx. pose proof (is_zero_significand f Hf y Hy) as Hsy.
  pose proof (significand_range f Hf x Hx) as Hrx. pose proof (significand_range f Hf y Hy) as Hry.
  destruct (is_zero x) eqn:Ezx, (is_zero y) eqn:Ezy; cbn [andb]; symmetry in Hzx, Hzy, Hsx, Hsy; decide_eqb.
  - eexists. split; [reflexivity|]. unfold sum_result.
    rewrite (proj2 (Z.eqb_eq _ _)) by (unfold value; rewrite Hzx, Hzy; by destruct (df_sign x), (df_sign y)). by rewrite sign_bits_eq.
  - destruct (representable_operand control status y) as [Hne Hr]; [done..|intros H1; by apply Hsub|done|done|]. eexists. split; [reflexivity|]. unfold sum_result.
    replace (value f x) with 0 by (unfold value; rewrite Hzx; by destruct (df_sign x)). by rewrite Z.add_0_l, (proj2 (Z.eqb_neq _ _)).
  - destruct (representable_operand control status x) as [Hne Hr]; [done..|intros H1; by apply Hsub|done|done|]. eexists. split; [reflexivity|]. unfold sum_result.
    replace (value f y) with 0 by (unfold value; rewrite Hzy; by destruct (df_sign y)). by rewrite Z.add_0_r, (proj2 (Z.eqb_neq _ _)).
  - cbv zeta. pose proof (fo_fraction f Hf).
    assert (2 ^ (fb + 1) * 2 ^ 3 < 2 ^ 128) by (rewrite <- Z.pow_add_r by lia; apply Z.pow_lt_mono_r; lia).
    rewrite !shl_fits, !(Z.mul_comm _ (2 ^ 3)) by lia. change (2 ^ 3) with 8.
    pose proof (aligned_max x y Hx Hy ltac:(lia) ltac:(lia)) as Hal. cbv zeta in Hal.
    set (mx := shift_right_jam (8 * df_significand x) _) in *. set (my := shift_right_jam (8 * df_significand y) _) in *.
    destruct (Bool.eqb (df_sign x) (df_sign y)) eqn:Esign.
    + apply eqb_prop in Esign. destruct (sum_spec _ _ _ _ mx my control status (df_sign x) Hal Hnx Hny) as (o & Ho & Hr); [lia| |done|done|].
      { pose proof (aligned_small x y Hx Hy) as Hsmall. cbv zeta in Hsmall. fold mx my in Hsmall. assert (2 ^ 60 < 2 ^ 128) by (apply Z.pow_lt_mono_r; lia). lia. }
      exists o. split; [done|]. unfold value. rewrite <- Esign in *.
      by replace (_ + _) with ((if df_sign x then -1 else 1) * (magnitude f x + magnitude f y)) by (destruct (df_sign x); lia).
    + destruct (difference_spec _ _ _ _ mx my control status (df_sign x) Hal Hmode Hu) as (o & Ho & Hr). exists o.
      assert (Hneg : df_sign y = negb (df_sign x)) by (by destruct (df_sign x), (df_sign y)). rewrite Hneg in *. split; [exact Ho|].
      replace (value f x + value f y) with ((if df_sign x then -1 else 1) * (magnitude f x - magnitude f y)); [done|].
      unfold value. rewrite Hneg. destruct (df_sign x); cbn [negb]; lia.
Qed.
End Add.

(** C35. Floating-point addition and subtraction round correctly.  For finite
    operands of either format the result is the exact sum rounded once in the
    selected mode, with the overflow, underflow and inexact flags of IEEE 754 and
    flushing of tiny results.  The operands are read off their bits: with flushing
    a subnormal one is the zero of its own sign and raises input denormal.  An
    exact zero has the sign of the operands if they agree, and otherwise is
    negative only when rounding toward minus infinity. *)
Theorem add_correctly_rounded format f a b fpcr (subtract : bool) :
  BinaryFormat_new format = Some f -> in_range f.(total_bits) a -> in_range f.(total_bits) b ->
  finite_bits f a -> finite_bits f b ->
  let x := operand_bits f fpcr a in
  let y := operand_bits f fpcr b in
  exists o, add_ieee_lane a b format fpcr subtract = Some o /\
    sum_result f (from_fpcr fpcr) (sign_bit f a) (xorb subtract (sign_bit f b))
      (pattern_value f x + (if subtract then - pattern_value f y else pattern_value f y)) 1 (denormals f fpcr [a; b]) o.
Proof.
  intros Hnew Ha Hb Hfa Hfb x' y'. pose proof (format_ok_new _ _ Hnew) as Hf.
  apply (decoded_finite f Hf a Ha) in Hfa. apply (decoded_finite f Hf b Hb) in Hfb.
  destruct (operand_bits_ok f Hf fpcr a Ha) as [Hra Hsga]. destruct (operand_bits_ok f Hf fpcr b Hb) as [Hrb Hsgb].
  set (x := operand f fpcr a). set (y := if subtract then negate f (operand f fpcr b) else operand f fpcr b).
  rewrite <- (operand_finite f Hf fpcr) in Hfa, Hfb by done.
  destruct (operand_ok f Hf fpcr a Ha) as [Hxa Hsa]. destruct (operand_ok f Hf fpcr b Hb) as [Hxb Hsb].
  assert (Hy : float_ok f y /\ is_finite f y = true /\ ((from_fpcr fpcr).(flush_to_zero) = true -> is_subnormal y = false)).
  { subst y. destruct subtract; [|done]. split; [by apply negate_ok|done]. }
  destruct Hy as (Hy & Hfy & Hsy).
  destruct (add_finite_spec f Hf x y (from_fpcr fpcr) (denormals f fpcr [a; b])) as (o & Ho & Hr); try done;
    [apply from_fpcr_mode|intros Hft; split; auto|].
  exists o. split.
  - unfold add_ieee_lane. rewrite Hnew. cbn [mbind option_bind].
    destruct (flush_pair f Hf fpcr a b Ha Hb) as [H1 H2]. rewrite H1, H2.
    destruct (finite_cases f Hf _ Hfa) as [-> Hia]. destruct (finite_cases f Hf _ Hfb) as [-> Hib]. cbn [orb].
    fold x in Hia |- *. fold y. destruct (finite_cases f Hf _ Hfy) as [_ Hiy]. rewrite Hia, Hiy. cbn [orb]. exact Ho.
  - destruct (decoded_fields f Hf x' Hra) as (Hsx & _). destruct (decoded_fields f Hf y' Hrb) as (Hsy' & _).
    pose proof (decoded_value f Hf x' Hra) as Hvx. pose proof (decoded_value f Hf y' Hrb) as Hvy.
    change (DecodedFloat_new x' f) with x in Hsx, Hvx. change (DecodedFloat_new y' f) with (operand f fpcr b) in Hsy', Hvy.
    rewrite <- Hvx, <- Hvy, <- Hsga, <- Hsgb. fold x' y'. rewrite <- Hsx, <- Hsy'. subst y. destruct subtract; [|done].
    destruct (negate_ok f Hf _ Hxb) as [_ Hn]. by rewrite <- Hn.
Qed.

(** A double and three quarters of its last place, rounding upward. *)
Lemma add_correctly_rounded_witness :
  match BinaryFormat_new Binary64 with
  | Some f => exists o, add_ieee_lane 0x3ff0000000000001 0x3ca8000000000000 Binary64 0x400000 false = Some o /\ sum_result f (from_fpcr 0x400000) false false
      (pattern_value f 0x3ff0000000000001 + pattern_value f 0x3ca8000000000000) 1 (denormals f 0x400000 [0x3ff0000000000001; 0x3ca8000000000000]) o
  | None => False
  end.
Proof. exact (add_correctly_rounded Binary64 _ 0x3ff0000000000001 0x3ca8000000000000 0x400000 false eq_refl ltac:(vm_compute; split; [discriminate|reflexivity]) ltac:(vm_compute; split; [discriminate|reflexivity]) ltac:(vm_compute; discriminate) ltac:(vm_compute; discriminate)). Defined.
