(* ===== verification/FpMulDiv.v ===== *)
(** * Multiplication and division are correctly rounded

    The product of two significands is exact and packed once; the quotient is
    computed to the last bit with its remainder.  Both are the exact result
    rounded once. *)

From S2P Require Import Prelude CpuArith CpuVector DecodeFpOperands FpFloat FpRound FpPack FpAdd Loops.

Section MulDiv.
Context (f : BinaryFormat) (Hf : format_ok f).
Notation fb := f.(fraction_bits).
Notation ms := (minimum_subnormal f).

Lemma minimum_subnormal_neg : ms < 0.
Proof using Hf. unfold minimum_subnormal. rewrite (fo_bias f Hf). pose proof (pow_eb f Hf). pose proof (fo_fraction f Hf). lia. Qed.

(** The outcome of a product or a quotient of sign [negative]. *)
Definition magnitude_result (control : FpControl) (negative : bool) (num den : Z) (status : FpStatus) (o : FpOutcome) : Prop :=
  if num =? 0 then o = mkOutcome (sign_pattern f negative) status
  else ieee_result f control negative (ratio num den) status o.

Section Finite.
Context (x y : DecodedFloat) (Hx : float_ok f x) (Hy : float_ok f y).
Context (Hx0 : 0 < x.(df_significand)) (Hy0 : 0 < y.(df_significand)).

Lemma significand_53 z : float_ok f z -> z.(df_significand) < 2 ^ 53.
Proof using Hf.
  intros Hz. pose proof (significand_range f Hf z Hz). pose proof (fo_fraction f Hf).
  apply Z.lt_le_trans with (2 ^ (fb + 1)); [lia|]. apply Z.pow_le_mono_r; lia.
Qed.

Lemma product_packs : packs f (x.(df_significand) * y.(df_significand)) (x.(df_scale) + y.(df_scale))
  (ratio (magnitude f x * magnitude f y) (2 ^ (- ms))).
Proof using Hf Hx Hy Hx0 Hy0.
  intros control negative status Hmode Hu. pose proof minimum_subnormal_neg as Hms. pose proof (significand_53 x Hx). pose proof (significand_53 y Hy).
  assert (Hden : 0 < 2 ^ (- ms)) by (apply Z.pow_pos_nonneg; lia).
  assert (Hm : 0 < x.(df_significand) * y.(df_significand) < 2 ^ 106) by (change (2 ^ 106) with (2 ^ 53 * 2 ^ 53); nia).
  assert (2 ^ 106 < 2 ^ 127) by (apply Z.pow_lt_mono_r; lia). assert (2 ^ 127 < 2 ^ 128) by (apply Z.pow_lt_mono_r; lia).
  apply pack_float_sum_spec; [done|done|by apply ratio_ordered|done|lia| |lia]. left.
  pose proof (scale_range f Hf x Hx). pose proof (scale_range f Hf y Hy).
  apply ratio_exact; [done|]. rewrite (magnitude_eq f Hf x Hx), (magnitude_eq f Hf y Hy).
  set (e := df_scale x + df_scale y - ms). replace (df_scale x - ms) with (e - df_scale y) by (unfold e; lia).
  rewrite <- (Z.mul_assoc _ (2 ^ Z.max 0 e)), <- Z.pow_add_r by lia.
  transitivity (df_significand x * df_significand y * (2 ^ (e - df_scale y) * 2 ^ (df_scale y - ms) * 2 ^ Z.max 0 (- e))); [|lia].
  f_equal. rewrite <- !Z.pow_add_r by (unfold e; lia). f_equal. lia.
Qed.

(** ** Division *)

Notation X := (ratio (magnitude f x * 2 ^ (- ms)) (magnitude f y)).

Lemma magnitude_y_pos : 0 < magnitude f y.
Proof using Hf Hy Hy0. rewrite (magnitude_eq f Hf y Hy). pose proof (scale_range f Hf y Hy). pose proof (Z.pow_pos_nonneg 2 (df_scale y - ms)). nia. Qed.

(** The quotient against [t / 2] times [2^q]. *)
Lemma quotient_point t q sh : 0 <= q -> sh = q - (x.(df_scale) - y.(df_scale) - ms) ->
  X (t * 2 ^ q) = (2 * x.(df_significand) * 2 ^ Z.max 0 (- sh) ?= t * y.(df_significand) * 2 ^ Z.max 0 sh).
Proof using Hf Hx Hy.
  intros Hq Hsh. unfold ratio. rewrite (magnitude_eq f Hf x Hx), (magnitude_eq f Hf y Hy). pose proof minimum_subnormal_neg.
  pose proof (scale_range f Hf x Hx). pose proof (scale_range f Hf y Hy). set (w := Z.min (df_scale x - ms - ms) (q + (df_scale y - ms))).
  assert (Hw : 0 <= w) by (unfold w; lia). rewrite <- (compare_mul_pos_r (2 ^ w) (2 * _ * _)) by (apply Z.pow_pos_nonneg; lia). f_equal.
  - transitivity (2 * df_significand x * (2 ^ (df_scale x - ms) * 2 ^ (- ms))); [lia|]. rewrite <- (Z.mul_assoc (2 * _)). f_equal.
    rewrite <- !Z.pow_add_r by lia. f_equal. lia.
  - transitivity (t * df_significand y * (2 ^ q * 2 ^ (df_scale y - ms))); [lia|]. rewrite <- (Z.mul_assoc (t * _)). f_equal.
    rewrite <- !Z.pow_add_r by lia. f_equal. lia.
Qed.

(** The three comparisons that decide the rounding, in terms of the remainder. *)
Lemma quotient_compare k n q sh N D :
  sh = q - (x.(df_scale) - y.(df_scale) - ms) -> pattern_of f k n q ->
  N = x.(df_significand) * 2 ^ Z.max 0 (- sh) -> D = y.(df_significand) * 2 ^ Z.max 0 sh -> n = N / D -> 0 < D ->
  X (2 * units f k) = (N mod D ?= 0) /\ X (2 * units f (k + 1)) = Lt /\ X (units f k + units f (k + 1)) = (2 * (N mod D) ?= D).
Proof using Hf Hx Hy.
  intros Hsh (_ & _ & Hq & Hu0 & Hu1 & _) HN HD Hdiv HD0.
  pose proof (Z.div_mod N D ltac:(lia)) as Hdm. pose proof (Z.mod_pos_bound N D HD0) as Hmb. rewrite <- Hdiv in Hdm.
  assert (Hpt : forall t, X (t * 2 ^ q) = (2 * N ?= t * D)).
  { intros t. rewrite (quotient_point t q sh Hq Hsh). rewrite HN, HD. f_equal; lia. }
  rewrite Hu0, Hu1. replace (2 * (n * 2 ^ q)) with (2 * n * 2 ^ q) by lia. replace (2 * ((n + 1) * 2 ^ q)) with ((2 * n + 2) * 2 ^ q) by lia.
  replace (n * 2 ^ q + (n + 1) * 2 ^ q) with ((2 * n + 1) * 2 ^ q) by lia. rewrite !Hpt. split; [|split; [apply Z.compare_lt_iff; lia|]].
  - rewrite <- (compare_mul_pos_r 2 (N mod D) 0) by lia. apply (compare_shift (2 * n * D)); lia.
  - apply (compare_shift (2 * n * D)); lia.
Qed.

Lemma quotient_splits k n q sh :
  sh = q - (x.(df_scale) - y.(df_scale) - ms) -> pattern_of f k n q ->
  n = x.(df_significand) * 2 ^ Z.max 0 (- sh) / (y.(df_significand) * 2 ^ Z.max 0 sh) ->
  exists remainder denominator, scaled_quotient x.(df_significand) y.(df_significand) sh = Some (n, remainder, denominator) /\
    splits f X k n remainder denominator.
Proof using Hf Hx Hy Hx0 Hy0.
  intros Hsh Hpat Hdiv. pose proof (fo_fraction f Hf) as Hfb. pose proof (significand_53 x Hx) as Hx53. pose proof (significand_53 y Hy) as Hy53.
  assert (HD0 : 0 < df_significand y * 2 ^ Z.max 0 sh) by (pose proof (Z.pow_pos_nonneg 2 (Z.max 0 sh)); nia).
  destruct (quotient_compare k n q sh _ _ Hsh Hpat eq_refl eq_refl Hdiv HD0) as (C1 & C2 & C3). destruct Hpat as (Hk & Hn & _ & _ & _ & Hodd).
  set (sx := df_significand x) in *. set (sy := df_significand y) in *.
  assert (Hn64 : wrap 64 n = n).
  { apply wrap_small. split; [lia|]. apply Z.lt_le_trans with (2 ^ (fb + 1)); [lia|]. apply Z.pow_le_mono_r; lia. }
  unfold scaled_quotient, top_bit. rewrite (proj2 (Z.eqb_neq sy 0)), (proj2 (Z.eqb_neq sx 0)) by lia.
  pose proof (Z.log2_spec sx Hx0) as Hlx. pose proof (Z.log2_spec sy Hy0) as Hly. pose proof (Z.log2_nonneg sy).
  assert (H127 : 2 ^ 106 < 2 ^ 127) by (apply Z.pow_lt_mono_r; lia). assert (H128 : 2 ^ 127 < 2 ^ 128) by (apply Z.pow_lt_mono_r; lia).
  assert (H53 : 2 * 2 ^ 53 < 2 ^ 106) by (change (2 * 2 ^ 53) with (2 ^ 54); apply Z.pow_lt_mono_r; lia).
  destruct (Z.leb_spec 0 sh) as [H0|H0].
  - rewrite (Z.max_l 0 (- sh)), (Z.max_r 0 sh), Z.mul_1_r in * by lia. pose proof (Z.pow_pos_nonneg 2 sh ltac:(lia) H0) as Hp.
    destruct (Z.ltb_spec 127 (Z.log2 sy + 1 + sh)) as [Hbig|Hbig].
    + assert (HDbig : 2 ^ 127 <= sy * 2 ^ sh).
      { apply Z.le_trans with (2 ^ (Z.log2 sy + sh)); [apply Z.pow_le_mono_r; lia|]. rewrite Z.pow_add_r by lia. nia. }
      assert (Hn0 : n = 0) by (rewrite Hdiv; apply Z.div_small; lia). rewrite (Z.mod_small sx) in C1, C3 by lia.
      do 2 eexists. split; [by rewrite Hn0|]. apply splits_of; [done|done|lia|lia| |done|].
      * rewrite C1. by apply Z.compare_gt_iff.
      * rewrite C3. transitivity Lt; [|done]. apply Z.compare_lt_iff. lia.
    + assert (HDs : sy * 2 ^ sh < 2 ^ 127).
      { apply Z.lt_le_trans with (2 ^ Z.succ (Z.log2 sy) * 2 ^ sh); [nia|]. rewrite <- Z.pow_add_r by lia. apply Z.pow_le_mono_r; lia. }
      rewrite shl_fits by lia. rewrite <- Hdiv, Hn64. do 2 eexists. split; [reflexivity|].
      pose proof (Z.mod_pos_bound sx (sy * 2 ^ sh) HD0). apply splits_of; try done; lia.
  - rewrite (Z.max_r 0 (- sh)), (Z.max_l 0 sh), Z.mul_1_r in * by lia. pose proof (Z.pow_pos_nonneg 2 (- sh) ltac:(lia) ltac:(lia)) as Hp.
    pose proof (Z.mod_pos_bound (sx * 2 ^ (- sh)) sy Hy0) as Hmb. assert (Hnum : sx * 2 ^ (- sh) < 2 ^ 106).
    { pose proof (Z.div_mod (sx * 2 ^ (- sh)) sy ltac:(lia)) as Hdm. rewrite <- Hdiv in Hdm.
      assert (2 ^ (fb + 1) <= 2 ^ 53) by (apply Z.pow_le_mono_r; lia). change (2 ^ 106) with (2 ^ 53 * 2 ^ 53). nia. }
    rewrite (proj2 (Z.leb_le _ 127)).
    2: { assert (Hlt : 2 ^ (Z.log2 sx + - sh) < 2 ^ 106) by (rewrite Z.pow_add_r by (pose proof (Z.log2_nonneg sx); lia); nia).
         apply Z.pow_lt_mono_r_iff in Hlt; lia. }
    rewrite shl_fits by lia. rewrite <- Hdiv, Hn64. do 2 eexists. split; [reflexivity|]. apply splits_of; try done; lia.
Qed.

(** The exponent of the quotient of the significands. *)
Definition ratio_exponent (sx sy : Z) : Z := Z.log2 sx - Z.log2 sy - b2z (sx * 2 ^ Z.log2 sy <? sy * 2 ^ Z.log2 sx).

Lemma ratio_exponent_spec sx sy : 0 < sx -> 0 < sy -> let r := ratio_exponent sx sy in
  sy * 2 ^ Z.max 0 r <= sx * 2 ^ Z.max 0 (- r) < 2 * (sy * 2 ^ Z.max 0 r).
Proof using.
  intros Hsx Hsy r. pose proof (Z.log2_spec sx Hsx) as Hlx. pose proof (Z.log2_spec sy Hsy) as Hly.
  pose proof (Z.log2_nonneg sx) as H0x. pose proof (Z.log2_nonneg sy) as H0y. rewrite Z.pow_succ_r in Hlx, Hly by lia.
  unfold r, ratio_exponent. clear r. set (a := Z.log2 sx) in *. set (b := Z.log2 sy) in *.
  pose proof (Z.pow_pos_nonneg 2 a ltac:(lia) H0x) as Hpa. pose proof (Z.pow_pos_nonneg 2 b ltac:(lia) H0y) as Hpb.
  set (r := a - b - b2z (sx * 2 ^ b <? sy * 2 ^ a)).
  assert (Hkey : sy * 2 ^ (b + r + 1) <= 2 * (sx * 2 ^ b) < 2 * (sy * 2 ^ (b + r + 1))).
  { unfold r. destruct (Z.ltb_spec (sx * 2 ^ b) (sy * 2 ^ a)); cbn [b2z].
    - replace (b + (a - b - 1) + 1) with a by lia. nia.
    - replace (b + (a - b - 0) + 1) with (a + 1) by lia. rewrite Z.pow_add_r by lia. nia. }
  assert (Hr : 0 <= b + r + 1) by (unfold r; destruct (_ <? _); cbn [b2z]; lia). clearbody r.
  assert (Hsplit : 2 ^ Z.max 0 r * 2 ^ (b + 1) = 2 ^ (b + r + 1) * 2 ^ Z.max 0 (- r)) by (rewrite <- !Z.pow_add_r by lia; f_equal; lia).
  assert (Hb1 : 2 ^ (b + 1) = 2 * 2 ^ b) by (rewrite Z.pow_add_r by lia; lia). rewrite Hb1 in Hsplit.
  pose proof (Z.pow_pos_nonneg 2 (Z.max 0 (- r)) ltac:(lia) ltac:(lia)) as Hpw. set (w := 2 ^ Z.max 0 (- r)) in *.
  set (u := 2 ^ Z.max 0 r) in *. set (v := 2 ^ (b + r + 1)) in *.
  assert (sy * u * (2 * 2 ^ b) = sy * v * w) by nia. assert (sx * w * (2 * 2 ^ b) = 2 * (sx * 2 ^ b) * w) by lia. nia.
Qed.

(** The floor of the quotient at the exponent [r - fb], and below. *)
Lemma quotient_significand sx sy r sh : 0 < sy -> sh = r - fb ->
  sy * 2 ^ Z.max 0 r <= sx * 2 ^ Z.max 0 (- r) < 2 * (sy * 2 ^ Z.max 0 r) ->
  2 ^ fb <= sx * 2 ^ Z.max 0 (- sh) / (sy * 2 ^ Z.max 0 sh) < 2 ^ (fb + 1).
Proof using Hf.
  intros Hsy Hsh Hr. pose proof (fo_fraction f Hf). rewrite Z.pow_add_r, Z.pow_1_r by lia.
  assert (Heq : 2 ^ Z.max 0 r * 2 ^ Z.max 0 (- sh) = 2 ^ fb * 2 ^ Z.max 0 sh * 2 ^ Z.max 0 (- r)) by (rewrite <- !Z.pow_add_r by lia; f_equal; lia).
  pose proof (Z.pow_pos_nonneg 2 (Z.max 0 (- r)) ltac:(lia) ltac:(lia)). pose proof (Z.pow_pos_nonneg 2 (Z.max 0 sh) ltac:(lia) ltac:(lia)).
  pose proof (Z.pow_pos_nonneg 2 (Z.max 0 (- sh)) ltac:(lia) ltac:(lia)).
  set (rp := 2 ^ Z.max 0 r) in *. set (rn := 2 ^ Z.max 0 (- r)) in *. set (sp := 2 ^ Z.max 0 sh) in *. set (sn := 2 ^ Z.max 0 (- sh)) in *.
  assert (Hm1 : sy * rp * sn <= sx * rn * sn < 2 * (sy * rp) * sn) by nia.
  assert (Hm2 : sy * rp * sn = (sy * sp * 2 ^ fb) * rn) by nia.
  split; [apply Z.div_le_lower_bound; nia|apply Z.div_lt_upper_bound; nia].
Qed.

Lemma quotient_fraction sx sy r sh : 0 < sy -> 0 <= sx -> r < sh + fb ->
  sx * 2 ^ Z.max 0 (- r) < 2 * (sy * 2 ^ Z.max 0 r) ->
  0 <= sx * 2 ^ Z.max 0 (- sh) / (sy * 2 ^ Z.max 0 sh) < 2 ^ fb.
Proof using Hf.
  intros Hsy Hsx Hsh Hr. pose proof (fo_fraction f Hf).
  assert (Hle : 2 * 2 ^ Z.max 0 r * 2 ^ Z.max 0 (- sh) <= 2 ^ fb * 2 ^ Z.max 0 sh * 2 ^ Z.max 0 (- r)).
  { rewrite <- (Z.pow_1_r 2) at 1. rewrite <- !Z.pow_add_r by lia. apply Z.pow_le_mono_r; lia. }
  pose proof (Z.pow_pos_nonneg 2 (Z.max 0 (- r)) ltac:(lia) ltac:(lia)). pose proof (Z.pow_pos_nonneg 2 (Z.max 0 sh) ltac:(lia) ltac:(lia)).
  pose proof (Z.pow_pos_nonneg 2 (Z.max 0 (- sh)) ltac:(lia) ltac:(lia)).
  set (rp := 2 ^ Z.max 0 r) in *. set (rn := 2 ^ Z.max 0 (- r)) in *. set (sp := 2 ^ Z.max 0 sh) in *. set (sn := 2 ^ Z.max 0 (- sh)) in *.
  split; [apply Z.div_pos; nia|]. apply Z.div_lt_upper_bound; [nia|].
  assert (Hm1 : sx * rn * sn < 2 * (sy * rp) * sn) by nia. assert (Hm2 : 2 * (sy * rp) * sn <= sy * sp * 2 ^ fb * rn) by nia. nia.
Qed.

Lemma divide_finite_spec control negative status :
  fpcr_mode control.(rounding) = true -> status.(underflow) = false ->
  exists o, divide_finite x y (sign_bits_of negative f) f control status = Some o /\ ieee_result f control negative X status o.
Proof using Hf Hx Hy Hx0 Hy0.
  intros Hmode Hu. pose proof (significand_53 x Hx). pose proof (significand_53 y Hy). pose proof (fo_fraction f Hf).
  pose proof (ratio_exponent_spec _ _ Hx0 Hy0) as Hr. pose proof (ratio_ordered (magnitude f x * 2 ^ (- ms)) _ magnitude_y_pos) as Hord.
  assert (Htop : forall z, 0 < df_significand z -> df_significand z < 2 ^ 53 -> top_bit (df_significand z) = Z.log2 (df_significand z) /\ 0 <= Z.log2 (df_significand z) < 53).
  { intros z Hz1 Hz2. unfold top_bit. rewrite (proj2 (Z.eqb_neq _ _)) by lia. split; [done|]. split; [apply Z.log2_nonneg|apply Z.log2_lt_pow2; lia]. }
  destruct (Htop x) as [Tx Lx]; [done..|]. destruct (Htop y) as [Ty Ly]; [done..|]. unfold divide_finite. rewrite Tx, Ty.
  assert (Hfit : forall u n, 0 < u < 2 ^ 53 -> 0 <= n < 53 -> shl 128 u n = u * 2 ^ n).
  { intros u n Hu1 Hn2. apply shl_fits; [lia..|]. assert (2 ^ n <= 2 ^ 53) by (apply Z.pow_le_mono_r; lia).
    assert (2 ^ 53 * 2 ^ 53 < 2 ^ 128) by (rewrite <- Z.pow_add_r by lia; apply Z.pow_lt_mono_r; lia). nia. }
  rewrite !Hfit by lia. fold (ratio_exponent (df_significand x) (df_significand y)). set (r := ratio_exponent _ _) in *. cbv zeta in Hr |- *.
  rewrite sign_bits_zero, negb_involutive by done. destruct (Z.leb_spec (1 - exponent_bias f) (df_scale x - df_scale y + r)) as [Hn|Hn].
  - set (q := df_scale x - df_scale y + r + exponent_bias f - 1). set (sh := r - fb).
    assert (Hsh : sh = q - (df_scale x - df_scale y - ms)) by (unfold sh, q, minimum_subnormal; lia).
    replace (df_scale y - df_scale x + (df_scale x - df_scale y + r) - fb) with sh by (unfold sh; lia).
    pose proof (quotient_significand _ _ r sh Hy0 eq_refl Hr) as Hsig. assert (Hq : 0 <= q) by (unfold q; lia).
    destruct (quotient_splits _ _ q sh Hsh (pattern_of_normal f Hf q _ Hq Hsig) eq_refl) as (rem & den & Hsq & Hsp).
    rewrite Hsq. cbn [mbind option_bind]. replace (df_scale x - df_scale y + r) with (q + 1 - exponent_bias f) by (unfold q; lia).
    by apply (finish_normal f Hf control negative X q).
  - set (sh := df_scale y - df_scale x + ms). assert (Hsh : sh = 0 - (df_scale x - df_scale y - ms)) by (unfold sh; lia).
    pose proof (quotient_fraction (df_significand x) (df_significand y) r sh Hy0 ltac:(lia) ltac:(unfold sh, minimum_subnormal; lia) (proj2 Hr)) as Hsig.
    destruct (quotient_splits _ _ 0 sh Hsh (pattern_of_subnormal f Hf _ Hsig) eq_refl) as (rem & den & Hsq & Hsp).
    destruct control.(flush_to_zero) eqn:Hz; cbv iota.
    + eexists. split; [reflexivity|]. apply finish_flushed; [done|done|]. exact (splits_tiny f Hf _ _ _ _ Hord Hsig Hsp).
    + fold (ms). fold sh. rewrite Hsq. cbn [mbind option_bind]. by apply (finish_subnormal f Hf control negative X).
Qed.
End Finite.

Lemma significand_pos x : float_ok f x -> is_zero x = false -> 0 < x.(df_significand).
Proof using Hf.
  intros Hx Hz. rewrite (is_zero_significand f Hf x Hx) in Hz. apply Z.eqb_neq in Hz. pose proof (significand_range f Hf x Hx). lia.
Qed.

Lemma zero_magnitude x : float_ok f x -> is_zero x = true -> magnitude f x = 0.
Proof using Hf. intros Hx Hz. rewrite (is_zero_magnitude f Hf x Hx) in Hz. by apply Z.eqb_eq in Hz. Qed.

Lemma nonzero_magnitude x : float_ok f x -> is_zero x = false -> 0 < magnitude f x.
Proof using Hf.
  intros Hx Hz. rewrite (is_zero_magnitude f Hf x Hx) in Hz. apply Z.eqb_neq in Hz. pose proof (magnitude_nonneg f Hf x Hx). lia.
Qed.

(** Clearing the fields of a subnormal operand reads it as a zero. *)
Lemma flush_fields_operand fpcr bits status : in_range f.(total_bits) bits ->
  let ftz := (from_fpcr fpcr).(flush_to_zero) in
  let z := (flush_fields f ftz (DecodedFloat_new bits f) status).1 in
  let w := operand f fpcr bits in
  z.(df_sign) = w.(df_sign) /\ is_zero z = is_zero w /\ (is_zero w = false -> z = w) /\ (is_finite f w = true -> is_infinite z f = false) /\
  (flush_fields f ftz (DecodedFloat_new bits f) status).2 = (flush f ftz (DecodedFloat_new bits f) status).2.
Proof using Hf.
  intros Hb ftz z w. destruct (sign_only f Hf bits Hb) as (_ & Hs & He0 & Hf0). subst z w.
  pose proof (flush_operand f Hf fpcr bits status Hb) as Hop. fold ftz in Hop. apply (f_equal fst) in Hop. cbn [fst] in Hop. rewrite <- Hop. unfold flush_fields, flush.
  set (x := DecodedFloat_new bits f) in *. assert (Hxb : df_bits x = bits) by (unfold x, DecodedFloat_new; by destruct (_ =? 0)).
  destruct (ftz && is_subnormal x) eqn:He; cbn [fst snd].
  - rewrite Hxb. split; [by rewrite Hs|]. unfold is_zero, is_infinite. rewrite He0, Hf0. split; [done|]. split; [done|]. split; [|done].
    intros _. cbn [df_exponent_field df_fraction]. rewrite exponent_max_eq by done. pose proof (pow_eb f Hf). by rewrite (proj2 (Z.eqb_neq _ _)) by lia.
  - split; [done|]. split; [done|]. split; [done|]. split; [|done]. intros Hfin. by apply finite_cases.
Qed.

End MulDiv.

(** Floating-point multiplication rounds correctly: for finite operands the
    product is the exact product rounded once, with the sign of the operands, the
    IEEE flags and the flushing FPCR asks for; a zero product is a signed zero. *)
Theorem multiply_correctly_rounded format f a b fpcr :
  BinaryFormat_new format = Some f -> in_range f.(total_bits) a -> in_range f.(total_bits) b ->
  is_finite f (DecodedFloat_new a f) = true -> is_finite f (DecodedFloat_new b f) = true ->
  let x := operand f fpcr a in
  let y := operand f fpcr b in
  exists o, multiply_ieee_lane a b format fpcr = Some o /\
    magnitude_result f (from_fpcr fpcr) (xorb x.(df_sign) y.(df_sign))
      (magnitude f x * magnitude f y) (2 ^ (- minimum_subnormal f)) (denormals f fpcr [a; b]) o.
Proof.
  intros Hnew Ha Hb Hfa Hfb x y. pose proof (format_ok_new _ _ Hnew) as Hf.
  destruct (operand_ok f Hf fpcr a Ha) as [Hx _]. destruct (operand_ok f Hf fpcr b Hb) as [Hy _]. fold x in Hx. fold y in Hy.
  unfold multiply_ieee_lane. rewrite Hnew. cbn [mbind option_bind].
  destruct (finite_cases f Hf _ Hfa) as [-> _]. destruct (finite_cases f Hf _ Hfb) as [-> _]. cbn [orb].
  destruct (flush_pair f Hf fpcr a b Ha Hb) as [H1 H2]. rewrite H1, H2. fold x y.
  assert (Hfx : is_finite f x = true) by (unfold x; by rewrite operand_finite).
  assert (Hfy : is_finite f y = true) by (unfold y; by rewrite operand_finite).
  destruct (finite_cases f Hf _ Hfx) as [_ ->]. destruct (finite_cases f Hf _ Hfy) as [_ ->]. cbn [orb andb].
  unfold magnitude_result. destruct (is_zero x) eqn:Hzx; [|destruct (is_zero y) eqn:Hzy]; cbn [orb].
  - eexists. split; [reflexivity|]. rewrite (zero_magnitude f Hf x Hx Hzx). by rewrite sign_bits_eq.
  - eexists. split; [reflexivity|]. rewrite (zero_magnitude f Hf y Hy Hzy), Z.mul_0_r. by rewrite sign_bits_eq.
  - rewrite (proj2 (Z.eqb_neq _ _)) by (pose proof (nonzero_magnitude f Hf x Hx Hzx); pose proof (nonzero_magnitude f Hf y Hy Hzy); nia).
    apply product_packs; try done; try (by apply (significand_pos f Hf)). apply from_fpcr_mode.
Qed.

(** C36. Floating-point division rounds correctly: for finite operands and a
    divisor that is not zero, the quotient is the exact quotient rounded once,
    with the IEEE flags and the flushing FPCR asks for; the result is computed
    without host floating point, from the integer quotient and its remainder. *)
Theorem divide_correctly_rounded format f a b fpcr :
  BinaryFormat_new format = Some f -> in_range f.(total_bits) a -> in_range f.(total_bits) b ->
  is_finite f (DecodedFloat_new a f) = true -> is_finite f (DecodedFloat_new b f) = true ->
  let x := operand f fpcr a in
  let y := operand f fpcr b in
  magnitude f y <> 0 ->
  exists o, divide_ieee_lane a b format (from_fpcr fpcr) = Some o /\
    magnitude_result f (from_fpcr fpcr) (xorb x.(df_sign) y.(df_sign))
      (magnitude f x * 2 ^ (- minimum_subnormal f)) (magnitude f y) (denormals f fpcr [a; b]) o.
Proof.
  intros Hnew Ha Hb Hfa Hfb x y Hny. pose proof (format_ok_new _ _ Hnew) as Hf.
  destruct (operand_ok f Hf fpcr a Ha) as [Hx _]. destruct (operand_ok f Hf fpcr b Hb) as [Hy _]. fold x in Hx. fold y in Hy.
  unfold divide_ieee_lane. rewrite Hnew. cbn [mbind option_bind].
  destruct (finite_cases f Hf _ Hfa) as [-> _]. destruct (finite_cases f Hf _ Hfb) as [-> _]. cbn [orb].
  assert (Hzy : is_zero y = false) by (rewrite (is_zero_magnitude f Hf y Hy); by apply Z.eqb_neq).
  assert (Hfx : is_finite f x = true) by (unfold x; by rewrite operand_finite).
  assert (Hfy : is_finite f y = true) by (unfold y; by rewrite operand_finite).
  destruct (flush_pair f Hf fpcr a b Ha Hb) as [H1 H2].
  destruct (flush_fields_operand f Hf fpcr a FpStatus_default Ha) as (Sa & Za & Ea & Ia & Ta). fold x in Sa, Za, Ea, Ia.
  destruct (flush_fields f _ (DecodedFloat_new a f) FpStatus_default) as [zx st]. cbn [fst snd] in Sa, Za, Ea, Ia, Ta. subst st.
  destruct (flush_fields_operand f Hf fpcr b (flush f (from_fpcr fpcr).(flush_to_zero) (DecodedFloat_new a f) FpStatus_default).2 Hb) as (Sb & Zb & Eb & Ib & Tb).
  fold y in Sb, Zb, Eb, Ib. rewrite H2 in Tb. cbn [snd] in Tb.
  destruct (flush_fields f _ (DecodedFloat_new b f) _) as [zy st]. cbn [fst snd] in Sb, Zb, Eb, Ib, Tb. subst st. rewrite (Eb Hzy) in *.
  rewrite Sa, (Ia Hfx), (Ib Hfy), Za, Hzy, andb_false_r. cbn [orb andb]. unfold magnitude_result. destruct (is_zero x) eqn:Hzx.
  - eexists. split; [reflexivity|]. rewrite (zero_magnitude f Hf x Hx Hzx). by rewrite sign_bits_eq.
  - rewrite (Ea eq_refl). pose proof (nonzero_magnitude f Hf x Hx Hzx). pose proof (minimum_subnormal_neg f Hf).
    rewrite (proj2 (Z.eqb_neq _ _)) by (pose proof (Z.pow_pos_nonneg 2 (- minimum_subnormal f) ltac:(lia) ltac:(lia)); nia).
    apply divide_finite_spec; try done; try (by apply (significand_pos f Hf)). apply from_fpcr_mode.
Qed.

Lemma multiply_correctly_rounded_witness :
  match BinaryFormat_new Binary64 with
  | Some f => exists o, multiply_ieee_lane 0x3ff0000000000001 0x3ca8000000000000 Binary64 0 = Some o /\ magnitude_result f (from_fpcr 0) false
      (magnitude f (operand f 0 0x3ff0000000000001) * magnitude f (operand f 0 0x3ca8000000000000)) (2 ^ (- minimum_subnormal f)) (denormals f 0 [0x3ff0000000000001; 0x3ca8000000000000]) o
  | None => False
  end.
Proof. exact (multiply_correctly_rounded Binary64 _ 0x3ff0000000000001 0x3ca8000000000000 0 eq_refl ltac:(vm_compute; split; [discriminate|reflexivity]) ltac:(vm_compute; split; [discriminate|reflexivity]) eq_refl eq_refl). Defined.

Lemma divide_correctly_rounded_witness :
  match BinaryFormat_new Binary64 with
  | Some f => exists o, divide_ieee_lane 0x3ff0000000000001 0x3ca8000000000000 Binary64 (from_fpcr 0) = Some o /\ magnitude_result f (from_fpcr 0) false
      (magnitude f (operand f 0 0x3ff0000000000001) * 2 ^ (- minimum_subnormal f)) (magnitude f (operand f 0 0x3ca8000000000000)) (denormals f 0 [0x3ff0000000000001; 0x3ca8000000000000]) o
  | None => False
  end.
Proof. exact (divide_correctly_rounded Binary64 _ 0x3ff0000000000001 0x3ca8000000000000 0 eq_refl ltac:(vm_compute; split; [discriminate|reflexivity]) ltac:(vm_compute; split; [discriminate|reflexivity]) eq_refl eq_refl ltac:(vm_compute; discriminate)). Defined.

(** * The square root is correctly rounded

    The Newton iteration returns the integer square root and its remainder; the
    root of the scaled significand has three bits more than the format and a
    sticky bit, which is enough for every rounding mode. *)

(** ** The integer square root *)

Lemma newton_above value root : 0 < value -> 0 < root -> Z.sqrt value <= (root + value / root) / 2.
Proof.
  intros Hv Hr. pose proof (Z.sqrt_spec value ltac:(lia)) as Hs. cbv zeta in Hs. pose proof (Z.sqrt_nonneg value) as H0. set (s := Z.sqrt value) in *.
  apply Z.div_le_lower_bound; [lia|]. pose proof (Z.div_mod value root ltac:(lia)) as Hdm. pose proof (Z.mod_pos_bound value root Hr) as Hm.
  set (q := value / root) in *. destruct (Z_le_gt_dec (2 * s) (root + q)) as [|Hlt]; [done|]. exfalso.
  assert (root * (q + 1) <= root * (2 * s - root)) by nia. pose proof (Z.square_nonneg (s - root)).
  assert (root * (2 * s - root) = s * s - (s - root) * (s - root)) by ring. lia.
Qed.

Lemma newton_below value root : 0 < value -> 0 < root -> Z.sqrt value < root -> (root + value / root) / 2 < root.
Proof.
  intros Hv Hr Hlt. pose proof (Z.sqrt_spec value ltac:(lia)) as Hs. cbv zeta in Hs. apply Z.div_lt_upper_bound; [lia|].
  assert (value / root < root) by (apply Z.div_lt_upper_bound; [lia|nia]). lia.
Qed.

Lemma integer_square_root_spec value : 0 < value < 2 ^ 128 ->
  integer_square_root value = Some (Z.sqrt value, value - Z.sqrt value * Z.sqrt value).
Proof.
  intros Hv. unfold integer_square_root. rewrite (proj2 (Z.eqb_neq _ _)) by lia. unfold top_bit. rewrite (proj2 (Z.eqb_neq _ _)) by lia.
  pose proof (Z.log2_spec value ltac:(lia)) as Hl. pose proof (Z.log2_nonneg value) as Hl0. assert (Hl128 : Z.log2 value < 128) by (apply Z.log2_lt_pow2; lia).
  set (l := Z.log2 value) in *. unfold half_up. set (g := (l + 1 + 1) / 2).
  assert (Hg : l + 1 <= 2 * g <= l + 2) by (unfold g; pose proof (Z.div_mod (l + 1 + 1) 2 ltac:(lia)); pose proof (Z.mod_pos_bound (l + 1 + 1) 2); lia).
  rewrite shl_one by lia. destruct (loop_terminates (square_root_step value) (fun r => Z.sqrt value <= r /\ 0 < r)
    (fun r => r = (Z.sqrt value, value - Z.sqrt value * Z.sqrt value)) (fun r => r) (2 ^ 65) (2 ^ g)) as (r & Hr & ->); [| | |by rewrite Hr].
  - intros r [Hs Hr]. split; [lia|]. unfold square_root_step, shr. rewrite Z.shiftr_div_pow2, Z.pow_1_r by lia.
    destruct (Z.leb_spec r ((r + value / r) / 2)) as [Hge|Hlt].
    + destruct (Z.eq_dec (Z.sqrt value) r) as [He|Hne]; [by rewrite He|]. pose proof (newton_below value r ltac:(lia) Hr ltac:(lia)). lia.
    + pose proof (newton_above value r ltac:(lia) Hr). pose proof (Z.sqrt_pos value). lia.
  - pose proof (Z.pow_pos_nonneg 2 g ltac:(lia) ltac:(lia)) as Hp. split; [|done]. pose proof (Z.sqrt_spec value ltac:(lia)) as Hs. cbv zeta in Hs.
    assert (Hle : 2 ^ Z.succ l <= 2 ^ g * 2 ^ g) by (rewrite <- Z.pow_add_r by lia; apply Z.pow_le_mono_r; lia).
    pose proof (Z.sqrt_nonneg value). nia.
  - apply Z.lt_le_trans with (2 ^ 65); [apply Z.pow_lt_mono_r; lia|done].
Qed.

(** ** Rounding *)

Lemma root_ordered square : 0 <= square -> ordered (root square).
Proof.
  intros Hs h h' Hh. unfold root. destruct (Z.ltb_spec h 0); [done|]. rewrite (proj2 (Z.ltb_ge _ _)) by lia.
  rewrite !Z.compare_lt_iff. nia.
Qed.

(** The root with a sticky bit keeps its order against even integers. *)
Lemma root_sticky radicand c : 0 < radicand -> Z.even c = true ->
  let r := Z.sqrt radicand in
  let m := if negb (radicand - r * r =? 0) then Z.lor r 1 else r in
  (m ?= c) = if c <? 0 then Gt else radicand ?= c * c.
Proof.
  intros Hr [j ->]%Z.even_spec r m. pose proof (Z.sqrt_spec radicand ltac:(lia)) as Hs. cbv zeta in Hs. fold r in Hs. pose proof (Z.sqrt_nonneg radicand) as H0. fold r in H0.
  assert (Hm : r <= m <= r + 1 /\ (radicand = r * r -> m = r) /\ (radicand <> r * r -> m mod 2 = 1)).
  { unfold m. destruct (Z.eqb_spec (radicand - r * r) 0); cbn [negb]; [lia|]. rewrite lor_one. pose proof (Zmod_odd r) as Ho.
    destruct (Z.odd r) eqn:E; [lia|]. split; [lia|]. split; [lia|]. intros _. by rewrite Zmod_odd, Z.odd_add, E. }
  destruct Hm as (Hm & Hex & Hin). destruct (Z.ltb_spec (2 * j) 0) as [Hc|Hc]; [apply Z.compare_gt_iff; lia|].
  destruct (Z.eq_dec radicand (r * r)) as [He|Hne].
  - rewrite (Hex He), He. destruct (Z.compare_spec r (2 * j)); symmetry; [apply Z.compare_eq_iff|apply Z.compare_lt_iff|apply Z.compare_gt_iff]; nia.
  - specialize (Hin Hne). pose proof (Z.div_mod m 2 ltac:(lia)) as Hd. destruct (Z_lt_le_dec r (2 * j)) as [Hlt|Hge].
    + assert (Z.succ r * Z.succ r <= 2 * j * (2 * j)) by (apply Z.square_le_mono_nonneg; lia).
      transitivity Lt; [apply Z.compare_lt_iff; lia|symmetry; apply Z.compare_lt_iff; lia].
    + assert (2 * j * (2 * j) <= r * r) by (apply Z.square_le_mono_nonneg; lia).
      transitivity Gt; [apply Z.compare_gt_iff; lia|symmetry; apply Z.compare_gt_iff; lia].
Qed.

Section Root.
Context (f : BinaryFormat) (Hf : format_ok f).
Notation fb := f.(fraction_bits).
Notation ms := (minimum_subnormal f).

(** A significand at an even scale, and its root to [fb + 4] bits. *)
Lemma scaled_root_packs significand scale half square : 0 < significand < 2 ^ (fb + 2) -> scale = 2 * half -> ms - 1 <= scale ->
  square = significand * 2 ^ (scale - 2 * ms) ->
  let cur := half_up (top_bit significand + 1) in
  let extra := fb + 4 - cur in
  let radicand := significand * 2 ^ (extra * 2) in
  let r := Z.sqrt radicand in
  cur <= fb + 4 /\ 0 <= extra * 2 < 128 /\ 0 < radicand < 2 ^ 128 /\
  packs f (if negb (radicand - r * r =? 0) then Z.lor r 1 else r) (half - extra) (root square).
Proof using Hf.
  intros Hsig Hscale Hms Hsq cur extra radicand r. pose proof (fo_fraction f Hf) as Hfb. pose proof (minimum_subnormal_neg f Hf) as Hneg.
  pose proof (fo_range f Hf) as Hrange. pose proof (Z.log2_spec significand ltac:(lia)) as Hl. pose proof (Z.log2_nonneg significand) as Hl0.
  assert (Hlt : Z.log2 significand < fb + 2) by (apply Z.log2_lt_pow2; lia). set (l := Z.log2 significand) in *.
  assert (Hcur : l + 1 <= 2 * cur <= l + 2).
  { unfold cur, half_up, top_bit. rewrite (proj2 (Z.eqb_neq _ _)) by lia. fold l. pose proof (Z.div_mod (l + 1 + 1) 2 ltac:(lia)). pose proof (Z.mod_pos_bound (l + 1 + 1) 2). lia. }
  assert (Hex : 0 <= extra /\ 2 * extra <= 2 * fb + 7 - l /\ 2 * fb + 6 - l <= 2 * extra) by (unfold extra; lia). destruct Hex as (Hex0 & Hex1 & Hex2).
  split; [unfold extra in *; lia|]. split; [lia|].
  assert (HR : 2 ^ (2 * fb + 6) <= radicand < 2 ^ (2 * fb + 8)).
  { unfold radicand. pose proof (Z.pow_pos_nonneg 2 (extra * 2) ltac:(lia) ltac:(lia)). split.
    - apply Z.le_trans with (2 ^ l * 2 ^ (extra * 2)); [|nia]. rewrite <- Z.pow_add_r by lia. apply Z.pow_le_mono_r; lia.
    - apply Z.lt_le_trans with (2 ^ Z.succ l * 2 ^ (extra * 2)); [nia|]. rewrite <- Z.pow_add_r by lia. apply Z.pow_le_mono_r; lia. }
  assert (HR128 : 2 ^ (2 * fb + 8) < 2 ^ 128) by (apply Z.pow_lt_mono_r; lia). pose proof (Z.pow_pos_nonneg 2 (2 * fb + 6) ltac:(lia) ltac:(lia)) as HR0.
  split; [lia|]. pose proof (Z.sqrt_spec radicand ltac:(lia)) as Hs. cbv zeta in Hs. fold r in Hs. pose proof (Z.sqrt_nonneg radicand) as Hr0. fold r in Hr0.
  assert (Hlow : 2 ^ (fb + 3) <= r).
  { replace (2 * fb + 6) with ((fb + 3) + (fb + 3)) in HR by lia. rewrite Z.pow_add_r in HR by lia.
    apply Z.sqrt_le_square; [lia|apply Z.pow_nonneg; lia|lia]. }
  assert (Hhigh : r < 2 ^ (fb + 4)).
  { replace (2 * fb + 8) with ((fb + 4) + (fb + 4)) in HR by lia. rewrite (Z.pow_add_r 2 (fb + 4)) in HR by lia.
    apply Z.sqrt_lt_square; [lia|apply Z.pow_nonneg; lia|lia]. }
  set (m := if negb (radicand - r * r =? 0) then Z.lor r 1 else r).
  assert (Hm : r <= m <= r + 1) by (unfold m; destruct (_ =? 0); cbn [negb]; [lia|]; rewrite lor_one; destruct (Z.odd r); lia).
  assert (Hm127 : 2 ^ (fb + 4) < 2 ^ 127) by (apply Z.pow_lt_mono_r; lia). assert (H128 : 2 ^ 127 < 2 ^ 128) by (apply Z.pow_lt_mono_r; lia).
  pose proof (Z.pow_pos_nonneg 2 (fb + 3) ltac:(lia) ltac:(lia)) as Hp3.
  assert (Hlog : fb + 3 <= Z.log2 m) by (apply Z.log2_le_pow2; lia).
  intros control negative status Hmode Hu. assert (Hsq0 : 0 <= square) by (rewrite Hsq; apply Z.mul_nonneg_nonneg; [lia|apply Z.pow_nonneg; lia]).
  apply pack_float_sum_spec; [done|done|by apply root_ordered|done|lia| |lia]. right. set (e := half - extra - ms).
  assert (Hkey : square * 2 ^ (2 * Z.max 0 (- e)) = radicand * 2 ^ (2 * Z.max 0 e)).
  { rewrite Hsq. unfold radicand. rewrite <- !Z.mul_assoc, <- !Z.pow_add_r by lia. do 2 f_equal. unfold e. lia. }
  split.
  - intros c h Hc Hh. assert (Hrad : 0 < radicand) by lia.
    pose proof (root_sticky radicand c Hrad Hc) as Hrs. cbv zeta in Hrs. fold r m in Hrs. rewrite Hrs. unfold root.
    pose proof (Z.pow_pos_nonneg 2 (Z.max 0 (- e)) ltac:(lia) ltac:(lia)) as Hpn. pose proof (Z.pow_pos_nonneg 2 (Z.max 0 e) ltac:(lia) ltac:(lia)) as Hpp.
    assert (Hsign : (h <? 0) = (c <? 0)) by (apply eq_true_iff_eq; rewrite !Z.ltb_lt; clear - Hpn Hpp Hh; nia). rewrite Hsign. destruct (c <? 0); [done|].
    rewrite !Z.pow_twice_r in Hkey. set (u := 2 ^ Z.max 0 (- e)) in *. set (v := 2 ^ Z.max 0 e) in *.
    rewrite <- (compare_mul_pos_r (u * u) (4 * square)) by nia. rewrite <- (compare_mul_pos_r (4 * (v * v)) radicand) by nia. f_equal; [lia|].
    transitivity (h * u * (h * u)); [lia|]. rewrite Hh. lia.
  - rewrite (proj2 (Z.leb_le _ _)); [lia|]. unfold extra, minimum_subnormal in *. lia.
Qed.

Lemma square_root_finite_spec x control status :
  float_ok f x -> 0 < x.(df_significand) -> fpcr_mode control.(rounding) = true -> status.(underflow) = false ->
  exists o, square_root_finite x f control status = Some o /\
    ieee_result f control false (root (magnitude f x * 2 ^ (- ms))) status o.
Proof using Hf.
  intros Hx Hpos Hmode Hu. pose proof (significand_range f Hf x Hx) as Hsr. pose proof (scale_range f Hf x Hx) as Hsc.
  pose proof (fo_fraction f Hf) as Hfb. pose proof (minimum_subnormal_neg f Hf) as Hneg. unfold square_root_finite.
  replace (Z.land (df_scale x) 1) with (df_scale x mod 2) by (symmetry; apply (Z.land_ones _ 1); lia). rewrite Zmod_odd.
  set (significand := if Z.odd (df_scale x) then 2 * df_significand x else df_significand x).
  set (half := df_scale x / 2).
  assert (Hhalf : df_scale x = 2 * half + b2z (Z.odd (df_scale x))).
  { unfold half. rewrite (Z.div_mod (df_scale x) 2) at 1 by lia. rewrite Zmod_odd. by destruct (Z.odd _). }
  assert (Hpair : (if negb ((if Z.odd (df_scale x) then 1 else 0) =? 0) then (shl 128 (df_significand x) 1, df_scale x - 1)
    else (df_significand x, df_scale x)) = (significand, 2 * half)).
  { unfold significand. destruct (Z.odd (df_scale x)); cbn [negb Z.eqb b2z] in *; f_equal; [|lia..].
    rewrite shl_fits; [lia..|]. apply Z.lt_le_trans with (2 ^ (fb + 1) * 2 ^ 1); [lia|]. rewrite <- Z.pow_add_r by lia. apply Z.pow_le_mono_r; lia. }
  rewrite Hpair. assert (Hsig : 0 < significand < 2 ^ (fb + 2)).
  { replace (fb + 2) with (fb + 1 + 1) by lia. rewrite (Z.pow_add_r 2 (fb + 1)) by lia. unfold significand. destruct (Z.odd _); lia. }
  assert (Hsq : magnitude f x * 2 ^ (- ms) = significand * 2 ^ (2 * half - 2 * ms)).
  { rewrite (magnitude_eq f Hf x Hx), <- Z.mul_assoc, <- Z.pow_add_r by lia. unfold significand. destruct (Z.odd (df_scale x)); cbn [b2z] in Hhalf.
    - replace (df_scale x - ms + - ms) with (1 + (2 * half - 2 * ms)) by lia. rewrite Z.pow_add_r by lia. lia.
    - do 2 f_equal. lia. }
  destruct (scaled_root_packs significand (2 * half) half _ Hsig eq_refl ltac:(destruct (Z.odd _); cbn [b2z] in Hhalf; lia) Hsq) as (Hcur & Hex & HR & Hp).
  rewrite (proj2 (Z.ltb_ge _ _)) by done. unfold shl_checked. rewrite (proj2 (Z.leb_le 0 _)), (proj2 (Z.ltb_lt _ 128)) by lia. cbn [andb mbind option_bind].
  rewrite shl_fits by (try lia; apply HR). rewrite integer_square_root_spec by done. cbn [mbind option_bind].
  replace (Z.quot (2 * half) 2) with half by (rewrite Z.mul_comm, Z.quot_mul; lia). by apply Hp.
Qed.
End Root.

(** C37. The square root rounds correctly: for a finite operand that is not
    negative the result is the exact real square root rounded once, with the IEEE
    flags and the flushing FPCR asks for; a zero is returned as it is, sign
    included.  The Newton iteration terminates with the integer square root. *)
Theorem square_root_correctly_rounded format f precision a fpcr :
  fp_format precision = Some format -> BinaryFormat_new format = Some f -> in_range f.(total_bits) a ->
  is_finite f (DecodedFloat_new a f) = true ->
  let x := operand f fpcr a in
  x.(df_sign) = false \/ magnitude f x = 0 ->
  exists o, exact_scalar_float_square_root a precision fpcr = Some o /\
    if magnitude f x =? 0 then o = mkOutcome (sign_pattern f x.(df_sign)) (denormals f fpcr [a])
    else ieee_result f (from_fpcr fpcr) false (root (magnitude f x * 2 ^ (- minimum_subnormal f))) (denormals f fpcr [a]) o.
Proof.
  intros Hprec Hnew Ha Hfa x Hsign. pose proof (format_ok_new _ _ Hnew) as Hf.
  destruct (operand_ok f Hf fpcr a Ha) as [Hx _]. fold x in Hx. unfold exact_scalar_float_square_root. rewrite Hprec. cbn [mbind option_bind].
  rewrite Hnew. cbn [mbind option_bind]. destruct (finite_cases f Hf _ Hfa) as [-> _].
  assert (Hfl : flush f (from_fpcr fpcr).(flush_to_zero) (DecodedFloat_new a f) FpStatus_default = (x, denormals f fpcr [a])).
  { rewrite flush_operand by done. unfold denormals. cbn [existsb]. fold x. by destruct (_ && subnormal_pattern f a). }
  rewrite Hfl. assert (Hfx : is_finite f x = true) by (unfold x; by rewrite operand_finite).
  rewrite <- (is_zero_magnitude f Hf x Hx). destruct (is_zero x) eqn:Hz.
  - eexists. split; [reflexivity|]. rewrite (fl_bits f x Hx). f_equal. unfold is_zero in Hz. apply andb_true_iff in Hz as [H1 H2].
    apply Z.eqb_eq in H1, H2. unfold pattern. rewrite H1, H2. lia.
  - destruct Hsign as [-> |Hm]; [|by rewrite (is_zero_magnitude f Hf x Hx), Hm in Hz].
    destruct (finite_cases f Hf _ Hfx) as [_ ->]. apply square_root_finite_spec; try done; [by apply (significand_pos f Hf)|apply from_fpcr_mode].
Qed.

Lemma square_root_correctly_rounded_witness :
  match BinaryFormat_new Binary64 with
  | Some f => exists o, exact_scalar_float_square_root 0x3ff0000000000001 64 0 = Some o /\
      ieee_result f (from_fpcr 0) false (root (magnitude f (operand f 0 0x3ff0000000000001) * 2 ^ (- minimum_subnormal f))) (denormals f 0 [0x3ff0000000000001]) o
  | None => False
  end.
Proof. exact (square_root_correctly_rounded Binary64 _ 64 0x3ff0000000000001 0 eq_refl eq_refl ltac:(vm_compute; split; [discriminate|reflexivity]) eq_refl (or_introl eq_refl)). Defined.
