(* ===== verification/FpFused.v ===== *)
(** * Fused multiply-add is correctly rounded, when the aligned sum fits

    The exact product and the addend are aligned in 128 bits, or the smaller one
    is reduced to a sticky bit.  The sum is rounded once; the exception is an
    aligned sum of 128 bits that carries out, which the code does not provide
    for. *)

From S2P Require Import Prelude CpuArith CpuVector DecodeFpOperands FpFloat FpRound FpPack FpAdd FpMulDiv.

(** Whether the addition of the aligned magnitudes overflows 128 bits. *)
Definition fused_overflows (multiplicand multiplier addend : DecodedFloat) : bool :=
  let '(product, aligned_addend, _) :=
    align_fused_operands (multiplicand.(df_significand) * multiplier.(df_significand)) (multiplicand.(df_scale) + multiplier.(df_scale))
      addend.(df_significand) addend.(df_scale) in
  Bool.eqb (xorb multiplicand.(df_sign) multiplier.(df_sign)) addend.(df_sign) && (2 ^ 128 <=? product + aligned_addend).

Section Fused.
Context (f : BinaryFormat) (Hf : format_ok f).
Notation fb := f.(fraction_bits).
Notation ms := (minimum_subnormal f).

(** A magnitude at scale [s] in the unit of the product. *)
Definition scaled (m s : Z) : Z := m * 2 ^ (s - 2 * ms).

Lemma scaled_exact m s : 2 * ms <= s -> is_exact m (s - ms) (ratio (scaled m s) (2 ^ (- ms))).
Proof using Hf.
  intros Hs. pose proof (minimum_subnormal_neg f Hf). apply ratio_exact; [apply Z.pow_pos_nonneg; lia|]. unfold scaled.
  rewrite <- !Z.mul_assoc, <- !Z.pow_add_r by lia. do 2 f_equal. lia.
Qed.

(** The same with three more bits. *)
Lemma scaled_exact_8 m s v : 2 * ms <= s -> 8 * v = scaled m s -> is_exact m (s - 3 - ms) (ratio v (2 ^ (- ms))).
Proof using Hf.
  intros Hs Hv. pose proof (minimum_subnormal_neg f Hf). apply ratio_exact; [apply Z.pow_pos_nonneg; lia|].
  apply (Z.mul_cancel_r _ _ 8); [lia|]. transitivity (m * (2 ^ Z.max 0 (s - 3 - ms) * 2 ^ (- ms) * 2 ^ 3)); [lia|].
  transitivity (scaled m s * 2 ^ Z.max 0 (- (s - 3 - ms))); [|lia]. unfold scaled.
  rewrite <- !Z.mul_assoc, <- !Z.pow_add_r by lia. do 2 f_equal. lia.
Qed.

(** ** Exact alignment *)

Lemma exact_packs m s : 0 < m < 2 ^ 128 -> 2 * ms <= s -> (128 <= ms - s -> m < 2 ^ 127) -> packs f m s (ratio (scaled m s) (2 ^ (- ms))).
Proof using Hf.
  intros Hm Hs H127 control negative status Hmode Hu. pose proof (minimum_subnormal_neg f Hf).
  apply pack_float_sum_spec; [done|done|apply ratio_ordered, Z.pow_pos_nonneg; lia|done|done|left; by apply scaled_exact|].
  intros. apply H127. lia.
Qed.

Lemma exact_aligned p a s : 0 <= p < 2 ^ 128 -> 0 <= a < 2 ^ 128 -> 0 < p + a -> 2 * ms <= s -> (128 <= ms - s -> p < 2 ^ 126 /\ a < 2 ^ 126) ->
  aligned f (scaled p s) (scaled a s) (2 ^ (- ms)) s p a.
Proof using Hf.
  intros Hp Ha Hpos Hs H126. pose proof (Z.pow_pos_nonneg 2 (s - 2 * ms) ltac:(lia) ltac:(lia)) as Hp2.
  assert (H127 : 2 ^ 127 = 2 * 2 ^ 126) by (change (2 * 2 ^ 126) with (2 ^ 1 * 2 ^ 126); rewrite <- Z.pow_add_r; [done|lia..]).
  split.
  - intros Hlt. replace (scaled p s + scaled a s) with (scaled (p + a) s) by (unfold scaled; lia). apply exact_packs; [lia|done|]. intros Hms. specialize (H126 Hms). lia.
  - unfold scaled. by rewrite compare_mul_pos_r.
  - intros Hlt. replace (scaled p s - scaled a s) with (scaled (p - a) s) by (unfold scaled; lia). apply exact_packs; [lia|done|]. intros Hms. specialize (H126 Hms). lia.
  - intros Hlt. replace (scaled a s - scaled p s) with (scaled (a - p) s) by (unfold scaled; lia). apply exact_packs; [lia|done|]. intros Hms. specialize (H126 Hms). lia.
Qed.

(** ** Distant operands: the smaller is reduced to guard and sticky bits *)

Section Distant.
Context (b c sb d : Z) (Hb : 0 < b < 2 ^ 120) (Hc : 0 < c < 2 ^ 120) (Hd : 0 <= d) (Hsc : 2 * ms <= sb - d) (Hdom : c < b * 2 ^ d).
Context (Hbig : (2 ^ fb <= b /\ ms < sb /\ 8 * c <= 2 ^ fb * 2 ^ d) \/ sb = ms).
Let jam := shift_right_jam (8 * c) d.

Lemma jam_below : 0 <= jam < 8 * b.
Proof using Hf Hb Hc Hd Hsc Hdom Hbig.
  assert (H128 : 8 * 2 ^ 120 < 2 ^ 128) by (change 8 with (2 ^ 3); rewrite <- Z.pow_add_r by lia; apply Z.pow_lt_mono_r; lia).
  split; [apply (jam_bound (8 * c) d (8 * c)); [lia|done|pose proof (Z.pow_pos_nonneg 2 d); nia|by rewrite Z.even_mul]|].
  pose proof (jam_even (8 * c) d (8 * b) ltac:(lia) Hd ltac:(by rewrite Z.even_mul)) as He.
  rewrite (proj2 (Z.compare_lt_iff (8 * c) (8 * b * 2 ^ d))) in He by lia. exact He.
Qed.

Lemma distant_packs sign m : sign = 1 \/ sign = -1 -> m = 8 * b + sign * jam ->
  packs f m (sb - 3) (ratio (scaled b sb + sign * scaled c (sb - d)) (2 ^ (- ms))).
Proof using Hf Hb Hc Hd Hsc Hdom Hbig.
  intros Hs Hm control negative status Hmode Hu. pose proof jam_below as Hj. pose proof (minimum_subnormal_neg f Hf) as Hneg.
  assert (H124 : 8 * 2 ^ 120 = 2 ^ 123) by (change 8 with (2 ^ 3); by rewrite <- Z.pow_add_r by lia).
  assert (H127 : 2 * 2 ^ 123 < 2 ^ 127) by (change 2 with (2 ^ 1) at 1; rewrite <- Z.pow_add_r by lia; apply Z.pow_lt_mono_r; lia).
  assert (H128 : 2 ^ 127 < 2 ^ 128) by (apply Z.pow_lt_mono_r; lia). assert (Hpos : 0 < m < 2 ^ 127) by (destruct Hs as [-> | ->]; lia).
  apply pack_float_sum_spec; [done|done|apply ratio_ordered, Z.pow_pos_nonneg; lia|done|lia| |lia]. right.
  set (X := ratio _ _). assert (HX : is_exact (8 * b * 2 ^ d + sign * (8 * c)) (sb - d - 3 - ms) X).
  { apply scaled_exact_8; [done|]. unfold scaled. replace (sb - 2 * ms) with (d + (sb - d - 2 * ms)) by lia. rewrite Z.pow_add_r by lia. lia. }
  assert (He : sb - d - 3 - ms + d = sb - 3 - ms) by lia. split.
  - rewrite Hm, <- He. assert (Heven : Z.even (8 * b) = true) by (by rewrite Z.even_mul).
    destruct Hs as [-> | ->]; rewrite ?Z.mul_1_l in *; [apply sticky_sum; (done || lia)|].
    replace (8 * b + -1 * jam) with (8 * b - jam) by lia. apply sticky_difference; [lia|done..|].
    by replace (8 * b * 2 ^ d - 8 * c) with (8 * b * 2 ^ d + -1 * (8 * c)) by lia.
  - pose proof (fo_fraction f Hf). pose proof (pow_fb f Hf). destruct Hbig as [(Hb1 & Hb2 & Hb3)|Hb1].
    + assert (Hjb : jam <= 2 ^ fb) by (apply (jam_bound (8 * c) d (2 ^ fb)); [lia|done|done|rewrite Z.even_pow; [done|lia]]).
      assert (Hlog : fb + 2 <= Z.log2 m) by (apply Z.log2_le_pow2; [lia|]; rewrite Z.pow_add_r by lia; destruct Hs as [-> | ->]; lia).
      rewrite (proj2 (Z.leb_le _ _)); [done|]. unfold minimum_subnormal in *. lia.
    + destruct (Z.leb_spec (1 - exponent_bias f) (sb - 3 + Z.log2 m)); unfold minimum_subnormal in *; lia.
Qed.

Lemma distant_aligned : aligned f (scaled b sb) (scaled c (sb - d)) (2 ^ (- ms)) (sb - 3) (8 * b) jam.
Proof using Hf Hb Hc Hd Hsc Hdom Hbig.
  pose proof jam_below as Hj. split.
  - intros _. pose proof (distant_packs 1 _ (or_introl eq_refl) eq_refl) as Hp. by rewrite !Z.mul_1_l in Hp.
  - transitivity Lt; [apply Z.compare_lt_iff; lia|symmetry; apply Z.compare_lt_iff]. unfold scaled.
    replace (sb - 2 * ms) with (d + (sb - d - 2 * ms)) by lia. rewrite Z.pow_add_r by lia.
    pose proof (Z.pow_pos_nonneg 2 (sb - d - 2 * ms)). nia.
  - intros _. pose proof (distant_packs (-1) _ (or_intror eq_refl) eq_refl) as Hp.
    by replace (8 * b + -1 * jam) with (8 * b - jam) in Hp by lia;
       replace (scaled b sb + -1 * scaled c (sb - d)) with (scaled b sb - scaled c (sb - d)) in Hp by lia.
  - lia.
Qed.
End Distant.

Lemma shift_fits_spec v n : 0 < v -> 0 <= n -> shift_fits_u128 v n = (n + Z.log2 v <? 128).
Proof using Hf.
  intros Hv Hn. unfold shift_fits_u128, top_bit. rewrite (proj2 (Z.eqb_neq _ _)) by lia. cbn [orb]. pose proof (Z.log2_nonneg v).
  apply eq_true_iff_eq. rewrite andb_true_iff, !Z.ltb_lt, Z.leb_le. lia.
Qed.

Lemma shift_fits_bound v n : 0 < v -> 0 <= n -> n + Z.log2 v < 128 -> 0 < v * 2 ^ n < 2 ^ 128.
Proof using Hf.
  intros Hv Hn Hfit. pose proof (Z.log2_spec v Hv). pose proof (Z.log2_nonneg v). pose proof (Z.pow_pos_nonneg 2 n ltac:(lia) Hn). split; [nia|].
  apply Z.lt_le_trans with (2 ^ Z.succ (Z.log2 v) * 2 ^ n); [nia|]. rewrite <- Z.pow_add_r by lia. apply Z.pow_le_mono_r; lia.
Qed.

Lemma shift_unfits_bound v n : 0 < v -> 0 <= n -> 128 <= n + Z.log2 v -> 2 ^ 128 <= v * 2 ^ n.
Proof using Hf.
  intros Hv Hn Hfit. pose proof (Z.log2_spec v Hv). pose proof (Z.log2_nonneg v). pose proof (Z.pow_pos_nonneg 2 n ltac:(lia) Hn).
  apply Z.le_trans with (2 ^ Z.log2 v * 2 ^ n); [|nia]. rewrite <- Z.pow_add_r by lia. apply Z.pow_le_mono_r; lia.
Qed.

Section Align.
Context (x y z : DecodedFloat) (Hx : float_ok f x) (Hy : float_ok f y) (Hz : float_ok f z).
Notation P := (x.(df_significand) * y.(df_significand)).
Notation C := z.(df_significand).
Notation ps := (x.(df_scale) + y.(df_scale)).
Notation cs := z.(df_scale).

Lemma product_range : 0 <= P < 2 ^ (2 * fb + 2).
Proof using Hf Hx Hy.
  pose proof (significand_range f Hf x Hx). pose proof (significand_range f Hf y Hy). pose proof (fo_fraction f Hf).
  replace (2 * fb + 2) with ((fb + 1) + (fb + 1)) by lia. rewrite Z.pow_add_r by lia. nia.
Qed.

(** A product above the least scale has a normal factor. *)
Lemma product_normal : 0 < P -> ms < ps -> 2 ^ fb <= P.
Proof using Hf Hx Hy.
  intros Hpos Hps. pose proof (scale_range f Hf x Hx). pose proof (scale_range f Hf y Hy). pose proof (minimum_subnormal_neg f Hf).
  pose proof (significand_range f Hf x Hx). pose proof (significand_range f Hf y Hy). pose proof (pow_fb f Hf).
  assert (0 < df_significand x /\ 0 < df_significand y) by (clear - Hpos H2 H3; nia). destruct (Z_le_gt_dec (df_scale x) ms).
  - pose proof (scaled_normal f Hf y Hy ltac:(lia)). nia.
  - pose proof (scaled_normal f Hf x Hx ltac:(lia)). nia.
Qed.

Lemma align_exact : 0 < P -> 0 < C ->
  let s := Z.min ps cs in
  shift_fits_u128 P (ps - s) && shift_fits_u128 C (cs - s) = true ->
  aligned f (scaled P ps) (scaled C cs) (2 ^ (- ms)) s (shl 128 P (ps - s)) (shl 128 C (cs - s)).
Proof using Hf Hx Hy Hz.
  intros HP HC s Hfit. pose proof (scale_range f Hf x Hx). pose proof (scale_range f Hf y Hy). pose proof (scale_range f Hf z Hz).
  pose proof (minimum_subnormal_neg f Hf). assert (Hs : 2 * ms <= s) by (unfold s; lia).
  rewrite !shift_fits_spec, andb_true_iff, !Z.ltb_lt in Hfit by (unfold s; lia). destruct Hfit as [Hfp Hfc].
  pose proof (shift_fits_bound P (ps - s) HP ltac:(unfold s; lia) Hfp) as Hbp. pose proof (shift_fits_bound C (cs - s) HC ltac:(unfold s; lia) Hfc) as Hbc.
  rewrite !shl_fits by first [apply Hbp|apply Hbc|unfold s; lia].
  assert (Hsc : forall m w, s <= w -> scaled m w = scaled (m * 2 ^ (w - s)) s).
  { intros m w Hw. unfold scaled. rewrite <- Z.mul_assoc, <- Z.pow_add_r by lia. do 2 f_equal. lia. }
  rewrite (Hsc P ps), (Hsc C cs) by (unfold s; lia). apply exact_aligned; try lia. intros Hfar. exfalso. pose proof (Z.log2_nonneg C). unfold s in *. lia.
Qed.

Lemma align_distant : 0 < P -> 0 < C ->
  let s := Z.min ps cs in
  shift_fits_u128 P (ps - s) && shift_fits_u128 C (cs - s) = false ->
  let m := Z.max ps cs in
  aligned f (scaled P ps) (scaled C cs) (2 ^ (- ms)) (m - 3)
    (shift_right_jam (shl 128 P 3) (m - ps)) (shift_right_jam (shl 128 C 3) (m - cs)).
Proof using Hf Hx Hy Hz.
  intros HP HC s Hfit m. pose proof (scale_range f Hf x Hx). pose proof (scale_range f Hf y Hy). pose proof (scale_range f Hf z Hz) as Hcz.
  pose proof (minimum_subnormal_neg f Hf). pose proof product_range as HPr. pose proof (significand_range f Hf z Hz) as HCr. pose proof (fo_fraction f Hf).
  assert (Hp106 : 2 ^ (2 * fb + 2) <= 2 ^ 106) by (apply Z.pow_le_mono_r; lia). assert (Hc53 : 2 ^ (fb + 1) <= 2 ^ 53) by (apply Z.pow_le_mono_r; lia).
  assert (H120 : 2 ^ 106 < 2 ^ 120) by (apply Z.pow_lt_mono_r; lia). assert (H53 : 2 ^ 53 < 2 ^ 106) by (apply Z.pow_lt_mono_r; lia).
  assert (H128 : 2 ^ 106 * 8 < 2 ^ 128) by (change 8 with (2 ^ 3); rewrite <- Z.pow_add_r by lia; apply Z.pow_lt_mono_r; lia).
  assert (Hlp : Z.log2 P < 106) by (apply Z.log2_lt_pow2; lia). assert (Hlc : Z.log2 C < fb + 1) by (apply Z.log2_lt_pow2; lia).
  rewrite !shift_fits_spec, andb_false_iff, !Z.ltb_ge in Hfit by (unfold s; lia).
  rewrite !shl_fits by (change (2 ^ 3) with 8; lia). change (2 ^ 3) with 8. rewrite !(Z.mul_comm _ 8).
  destruct (Z_lt_le_dec cs ps) as [Hord|Hord].
  - assert (Hm : m = ps) by (unfold m; lia). rewrite Hm, Z.sub_diag. change (shift_right_jam (8 * P) 0) with (8 * P).
    replace (scaled C cs) with (scaled C (ps - (ps - cs))) by (f_equal; lia). assert (Hbig : 128 <= (ps - cs) + Z.log2 P) by (unfold s in Hfit; lia).
    pose proof (shift_unfits_bound P (ps - cs) HP ltac:(lia) Hbig). apply distant_aligned; try lia. left.
    split; [apply product_normal; lia|]. split; [lia|]. rewrite Z.pow_add_r in HCr by lia.
    assert (2 ^ 4 <= 2 ^ (ps - cs)) by (apply Z.pow_le_mono_r; lia). nia.
  - assert (Hm : m = cs) by (unfold m; lia). rewrite Hm, Z.sub_diag. change (shift_right_jam (8 * C) 0) with (8 * C). apply aligned_swap.
    replace (scaled P ps) with (scaled P (cs - (cs - ps))) by (f_equal; lia). assert (Hbig : 128 <= (cs - ps) + Z.log2 C) by (unfold s in Hfit; lia).
    pose proof (shift_unfits_bound C (cs - ps) HC ltac:(lia) Hbig). apply distant_aligned; try lia.
    destruct (Z_le_gt_dec cs ms); [right; lia|left]. split; [apply (scaled_normal f Hf z Hz); lia|]. split; [lia|].
    apply Z.le_trans with (2 ^ 128); [lia|]. rewrite <- Z.pow_add_r by lia. apply Z.pow_le_mono_r; lia.
Qed.

Lemma product_scaled : magnitude f x * magnitude f y = scaled P ps.
Proof using Hf Hx Hy.
  pose proof (scale_range f Hf x Hx). pose proof (scale_range f Hf y Hy). rewrite (magnitude_eq f Hf x Hx), (magnitude_eq f Hf y Hy). unfold scaled.
  replace (ps - 2 * ms) with ((df_scale x - ms) + (df_scale y - ms)) by lia. rewrite Z.pow_add_r by lia. lia.
Qed.

Lemma addend_scaled : magnitude f z * 2 ^ (- ms) = scaled C cs.
Proof using Hf Hz.
  pose proof (scale_range f Hf z Hz). pose proof (minimum_subnormal_neg f Hf). rewrite (magnitude_eq f Hf z Hz). unfold scaled.
  rewrite <- Z.mul_assoc, <- Z.pow_add_r by lia. do 2 f_equal. lia.
Qed.

(** The alignment of the fused operation. *)
Lemma align_spec : 0 < P + C ->
  let '(product, addend, s) := align_fused_operands P ps C cs in
  aligned f (magnitude f x * magnitude f y) (magnitude f z * 2 ^ (- ms)) (2 ^ (- ms)) s product addend.
Proof using Hf Hx Hy Hz.
  intros Hpos. pose proof (scale_range f Hf x Hx). pose proof (scale_range f Hf y Hy). pose proof (scale_range f Hf z Hz).
  pose proof (minimum_subnormal_neg f Hf) as Hneg. pose proof product_range as HPr. pose proof (significand_range f Hf z Hz) as HCr. pose proof (fo_fraction f Hf).
  assert (Hp106 : 2 ^ (2 * fb + 2) <= 2 ^ 106) by (apply Z.pow_le_mono_r; lia). assert (Hc53 : 2 ^ (fb + 1) <= 2 ^ 106) by (apply Z.pow_le_mono_r; lia).
  assert (H126 : 2 ^ 106 < 2 ^ 126) by (apply Z.pow_lt_mono_r; lia). assert (H128 : 2 ^ 126 < 2 ^ 128) by (apply Z.pow_lt_mono_r; lia).
  rewrite product_scaled, addend_scaled. unfold align_fused_operands. destruct (Z.eqb_spec P 0) as [HP|HP].
  - rewrite HP. replace (scaled 0 ps) with (scaled 0 cs) by done. apply exact_aligned; lia.
  - destruct (Z.eqb_spec C 0) as [HC|HC].
    + rewrite HC. replace (scaled 0 cs) with (scaled 0 ps) by done. apply exact_aligned; lia.
    + destruct (_ && _) eqn:Hfit; [apply align_exact|apply align_distant]; (done || lia).
Qed.

Lemma scaled_pos m s : 2 * ms <= s -> 0 < m -> 0 < scaled m s.
Proof using. intros Hs Hm. unfold scaled. pose proof (Z.pow_pos_nonneg 2 (s - 2 * ms)). nia. Qed.

Lemma fused_finite_spec checks control status :
  fpcr_mode control.(rounding) = true -> status.(underflow) = false ->
  if fused_overflows x y z then checks = true -> fused_finite checks x y z f control status = None
  else exists o, fused_finite checks x y z f control status = Some o /\
    sum_result f control (xorb x.(df_sign) y.(df_sign)) z.(df_sign) (value f x * value f y + value f z * 2 ^ (- ms)) (2 ^ (- ms)) status o.
Proof using Hf Hx Hy Hz.
  intros Hmode Hu. pose proof product_range as HPr. pose proof (significand_range f Hf z Hz) as HCr. pose proof (minimum_subnormal_neg f Hf) as Hneg.
  pose proof (scale_range f Hf x Hx). pose proof (scale_range f Hf y Hy). pose proof (scale_range f Hf z Hz).
  set (sp := xorb (df_sign x) (df_sign y)). set (vp := magnitude f x * magnitude f y). set (vc := magnitude f z * 2 ^ (- ms)).
  assert (Hv : value f x * value f y + value f z * 2 ^ (- ms) = (if sp then -1 else 1) * vp + (if df_sign z then -1 else 1) * vc).
  { unfold value, sp, vp, vc. destruct (df_sign x), (df_sign y), (df_sign z); cbn [xorb]; lia. }
  rewrite Hv. unfold fused_overflows, fused_finite. fold sp.
  destruct (Z.eq_dec (P + C) 0) as [Hpc|Hpc].
  - assert (HP : P = 0) by lia. assert (HC : C = 0) by lia. rewrite HP, HC. cbn [align_fused_operands Z.eqb andb].
    change (2 ^ 128 <=? 0 + 0) with false. rewrite andb_false_r. eexists. split; [reflexivity|].
    assert (vp = 0) as -> by (unfold vp; by rewrite product_scaled, HP). assert (vc = 0) as -> by (unfold vc; by rewrite addend_scaled, HC).
    unfold sum_result. rewrite !Z.mul_0_r. by rewrite sign_bits_eq.
  - rewrite (proj2 (andb_false_iff _ _)) by (destruct (Z.eq_dec P 0); [right|left]; apply Z.eqb_neq; lia).
    pose proof (align_spec ltac:(lia)) as Hal. fold vp vc in Hal. destruct (align_fused_operands P ps C cs) as [[p a] s].
    assert (Hvp : 0 <= vp) by (unfold vp; pose proof (magnitude_nonneg f Hf x Hx); pose proof (magnitude_nonneg f Hf y Hy); nia).
    assert (Hvc : 0 <= vc) by (unfold vc; pose proof (magnitude_nonneg f Hf z Hz); pose proof (Z.pow_nonneg 2 (- ms)); nia).
    assert (Hpos : 0 < vp + vc).
    { destruct (Z.eq_dec P 0) as [HP|HP]; [pose proof (scaled_pos C cs ltac:(lia) ltac:(lia)) as Hs; rewrite <- addend_scaled in Hs; unfold vc in *; lia|].
      pose proof (scaled_pos P ps ltac:(lia) ltac:(lia)) as Hs. rewrite <- product_scaled in Hs. unfold vp in *. lia. }
    destruct (Bool.eqb sp (df_sign z)) eqn:Es; cbn [andb].
    + apply eqb_prop in Es. unfold add_checked. destruct (Z.leb_spec (2 ^ 128) (p + a)) as [Hov|Hov].
      * rewrite (proj2 (Z.ltb_ge _ _)) by done. by intros ->.
      * rewrite (proj2 (Z.ltb_lt _ _)) by done. cbn [mbind option_bind].
        destruct (sum_spec f Hf vp vc _ s p a control status sp Hal Hvp Hvc Hpos Hov Hmode Hu) as (o & Ho & Hr). exists o. split; [done|].
        rewrite <- Es. by replace ((if sp then -1 else 1) * vp + (if sp then -1 else 1) * vc) with ((if sp then -1 else 1) * (vp + vc)) by lia.
    + destruct (difference_spec f Hf vp vc _ s p a control status sp Hal Hmode Hu) as (o & Ho & Hr). exists o.
      assert (Hsz : df_sign z = negb sp) by (by destruct sp, (df_sign z)). rewrite Hsz in *. split; [exact Ho|].
      by replace ((if sp then -1 else 1) * vp + (if negb sp then -1 else 1) * vc) with ((if sp then -1 else 1) * (vp - vc)) by (destruct sp; cbn [negb]; lia).
Qed.
End Align.

(** ** Operands whose sign the operation changes *)

Lemma float_unique x y : float_ok f x -> float_ok f y -> x.(df_bits) = y.(df_bits) -> x = y.
Proof using Hf.
  intros Hx Hy Hb. pose proof (pattern_range f Hf x Hx) as Px. pose proof (pattern_range f Hf y Hy) as Py. rewrite <- (pow_total f Hf) in Px, Py.
  pose proof Hb as Hb'. rewrite (fl_bits f x Hx), (fl_bits f y Hy) in Hb'. unfold sign_pattern in Hb'.
  assert (Hs : df_sign x = df_sign y /\ pattern f x = pattern f y) by (destruct (df_sign x), (df_sign y); cbn [b2z] in Hb'; (split; [done || lia|lia])).
  destruct Hs as [Hs Hp]. destruct Hx as [Hex Hfx _ Hsx Hcx], Hy as [Hey Hfy _ Hsy Hcy]. unfold pattern in Hp. pose proof (pow_fb f Hf).
  assert (He : df_exponent_field x = df_exponent_field y) by nia. assert (Hfr : df_fraction x = df_fraction y) by nia.
  rewrite <- He, <- Hfr in Hsy. rewrite <- He in Hcy. destruct x, y. cbn in *. congruence.
Qed.

Definition negated (change : bool) (bits : Z) : Z := if change then Z.lxor bits (sign_mask f) else bits.

Lemma negated_operand (change : bool) bits : in_range f.(total_bits) bits -> in_range f.(total_bits) (negated change bits) /\
  (if change then negate f (DecodedFloat_new bits f) else DecodedFloat_new bits f) = DecodedFloat_new (negated change bits) f.
Proof using Hf.
  intros Hb. destruct change; [|done]. cbn [negated]. assert (Hr : in_range (total_bits f) (Z.lxor bits (sign_mask f))).
  { apply in_range_lxor; [pose proof (fo_total f Hf); pose proof (fo_fraction f Hf); pose proof (fo_exponent f Hf); lia|done|].
    rewrite sign_mask_eq by done. pose proof (fo_total f Hf). pose proof (fo_fraction f Hf). pose proof (fo_exponent f Hf).
    split; [apply Z.pow_nonneg; lia|apply Z.pow_lt_mono_r; lia]. }
  split; [done|]. assert (Hbits : forall b, df_bits (DecodedFloat_new b f) = b) by (intros b; unfold DecodedFloat_new; by destruct (_ =? 0)).
  apply float_unique; [apply negate_ok; [done|by apply decoded_ok]|by apply decoded_ok|]. rewrite Hbits. unfold negate. cbn [df_bits]. by rewrite Hbits.
Qed.
End Fused.

(** C38. Fused multiply-add rounds once and correctly, but for one overflow.  For
    finite operands and each of the four operations, the outcome is the exact
    [a * b + c], with the signs the operation selects, rounded once with the IEEE
    flags and flushing; a zero sum has the sign IEEE 754 gives it.  The exception
    is exactly when the aligned 128-bit magnitudes have the same sign and their
    sum does not fit: then the addition in the source overflows, which panics in a
    build with overflow checks. *)
Theorem fused_correctly_rounded checks format f precision a b c operation fpcr :
  fp_format precision = Some format -> BinaryFormat_new format = Some f ->
  in_range f.(total_bits) a -> in_range f.(total_bits) b -> in_range f.(total_bits) c ->
  forallb (fun bits => is_finite f (DecodedFloat_new bits f)) [negated f (negates_product operation) a; b; negated f (negates_addend operation) c] = true ->
  let x := operand f fpcr (negated f (negates_product operation) a) in
  let y := operand f fpcr b in
  let z := operand f fpcr (negated f (negates_addend operation) c) in
  let den := 2 ^ (- minimum_subnormal f) in
  let status := denormals f fpcr [negated f (negates_product operation) a; b; negated f (negates_addend operation) c] in
  if fused_overflows x y z then checks = true -> exact_scalar_float_fused_multiply_add checks a b c precision operation fpcr = None
  else exists o, exact_scalar_float_fused_multiply_add checks a b c precision operation fpcr = Some o /\
    sum_result f (from_fpcr fpcr) (xorb x.(df_sign) y.(df_sign)) z.(df_sign) (value f x * value f y + value f z * den) den status o.
Proof.
  intros Hprec Hnew Ha Hb Hc Hfin x y z den status. pose proof (format_ok_new _ _ Hnew) as Hf.
  destruct (negated_operand f Hf (negates_product operation) a Ha) as [Ha' Ea]. destruct (negated_operand f Hf (negates_addend operation) c Hc) as [Hc' Ec].
  set (a' := negated f (negates_product operation) a) in *. set (c' := negated f (negates_addend operation) c) in *.
  cbn [forallb] in Hfin. rewrite andb_true_r, !andb_true_iff in Hfin. destruct Hfin as (Fa & Fb & Fc).
  assert (Heq : exact_scalar_float_fused_multiply_add checks a b c precision operation fpcr = fused_finite checks x y z f (from_fpcr fpcr) status).
  { unfold exact_scalar_float_fused_multiply_add. rewrite Hprec. cbn [mbind option_bind]. rewrite Hnew. cbn [mbind option_bind].
    rewrite Ea, Ec. destruct (flush_pair f Hf fpcr a' b Ha' Hb) as [H1 H2]. rewrite H1, H2.
    assert (H3 : flush f (from_fpcr fpcr).(flush_to_zero) (DecodedFloat_new c' f) (denormals f fpcr [a'; b]) = (z, status)).
    { rewrite flush_operand by done. unfold z, status, denormals. cbn [existsb].
      by destruct (_ && subnormal_pattern f a'), (_ && subnormal_pattern f b), (_ && subnormal_pattern f c'). }
    rewrite H3. fold x y. rewrite <- (operand_finite f Hf fpcr) in Fa, Fb, Fc by done. fold x in Fa. fold y in Fb. fold z in Fc.
    destruct (finite_cases f Hf _ Fa) as [-> ->]. destruct (finite_cases f Hf _ Fb) as [-> ->]. destruct (finite_cases f Hf _ Fc) as [-> ->]. done. }
  rewrite Heq. destruct (operand_ok f Hf fpcr a' Ha') as [Hx _]. destruct (operand_ok f Hf fpcr b Hb) as [Hy _]. destruct (operand_ok f Hf fpcr c' Hc') as [Hz _].
  apply (fused_finite_spec f Hf x y z Hx Hy Hz); [apply from_fpcr_mode|done].
Qed.

(** ** When the aligned sum fits

    In single precision it always does; in double precision it does not, for
    ordinary operands. *)

Definition single : BinaryFormat := mkFormat 32 23 8 127.

(** A shifted magnitude leaves its low bits free. *)
Lemma shifted_sum v n w : 0 < v -> 0 <= n -> n + Z.log2 v < 128 -> 0 <= w < 2 ^ n -> v * 2 ^ n + w < 2 ^ 128.
Proof.
  intros Hv Hn Hfit Hw. pose proof (Z.log2_spec v Hv). pose proof (Z.log2_nonneg v).
  assert (Hle : 2 ^ Z.succ (Z.log2 v) * 2 ^ n <= 2 ^ 128) by (rewrite <- Z.pow_add_r by lia; apply Z.pow_le_mono_r; lia). nia.
Qed.

Lemma fused_single_fits x y z : float_ok single x -> float_ok single y -> float_ok single z -> fused_overflows x y z = false.
Proof.
  intros Hx Hy Hz. assert (Hf : format_ok single) by (apply (format_ok_new Binary32); reflexivity).
  pose proof (product_range single Hf x y Hx Hy) as HP. pose proof (significand_range single Hf z Hz) as HC. cbn [single fraction_bits] in HP, HC.
  change (2 * 23 + 2) with 48 in HP. change (23 + 1) with 24 in HC. unfold fused_overflows. set (P := df_significand x * df_significand y) in *. set (C := df_significand z) in *.
  set (ps := df_scale x + df_scale y). set (cs := df_scale z).
  assert (Hsum : forall p a s, align_fused_operands P ps C cs = (p, a, s) -> p + a < 2 ^ 128).
  { assert (H52 : 2 ^ 48 * 16 < 2 ^ 128) by (change 16 with (2 ^ 4); rewrite <- Z.pow_add_r by lia; apply Z.pow_lt_mono_r; lia).
    assert (H24 : 2 ^ 24 < 2 ^ 48) by (apply Z.pow_lt_mono_r; lia).
    intros p a s. unfold align_fused_operands. destruct (Z.eqb_spec P 0); [intros [= <- <- <-]; lia|]. destruct (Z.eqb_spec C 0); [intros [= <- <- <-]; lia|].
    assert (HlP : Z.log2 P < 48) by (apply Z.log2_lt_pow2; lia). assert (HlC : Z.log2 C < 24) by (apply Z.log2_lt_pow2; lia).
    destruct (_ && _) eqn:Hfit; intros [= <- <- <-].
    - rewrite !(shift_fits_spec single Hf), andb_true_iff, !Z.ltb_lt in Hfit by lia. destruct Hfit as [Hp Hc].
      assert (Hbp := shift_fits_bound single Hf P (ps - Z.min ps cs) ltac:(lia) ltac:(lia) Hp).
      assert (Hbc := shift_fits_bound single Hf C (cs - Z.min ps cs) ltac:(lia) ltac:(lia) Hc).
      rewrite !shl_fits by (lia || apply Hbp || apply Hbc). destruct (Z_le_gt_dec cs ps) as [Hle|Hgt].
      + rewrite Z.min_r, Z.sub_diag, Z.mul_1_r in * by lia. destruct (Z_lt_le_dec (ps - cs) 48) as [Hd|Hd].
        * assert (P * 2 ^ (ps - cs) <= 2 ^ 48 * 2 ^ 48) by (assert (2 ^ (ps - cs) <= 2 ^ 48) by (apply Z.pow_le_mono_r; lia); nia).
          assert (2 ^ 48 * 2 ^ 48 + 2 ^ 48 < 2 ^ 128) by (change (2 ^ 48 * 2 ^ 48 + 2 ^ 48) with (2 ^ 48 * (2 ^ 48 + 1)); vm_compute; reflexivity). lia.
        * apply shifted_sum; [lia|lia|done|]. assert (2 ^ 48 <= 2 ^ (ps - cs)) by (apply Z.pow_le_mono_r; lia). lia.
      + rewrite Z.min_l, Z.sub_diag, Z.mul_1_r in * by lia. rewrite Z.add_comm. destruct (Z_lt_le_dec (cs - ps) 48) as [Hd|Hd].
        * assert (C * 2 ^ (cs - ps) <= 2 ^ 48 * 2 ^ 48) by (assert (2 ^ (cs - ps) <= 2 ^ 48) by (apply Z.pow_le_mono_r; lia); nia).
          assert (2 ^ 48 * 2 ^ 48 + 2 ^ 48 < 2 ^ 128) by (vm_compute; reflexivity). lia.
        * apply shifted_sum; [lia|lia|done|]. assert (2 ^ 48 <= 2 ^ (cs - ps)) by (apply Z.pow_le_mono_r; lia). lia.
    - rewrite !shl_fits by (change (2 ^ 3) with 8; lia). change (2 ^ 3) with 8.
      assert (Hj : forall v d, 0 <= v < 2 ^ 48 -> 0 <= d -> shift_right_jam (v * 8) d <= v * 8).
      { intros v d Hv Hd. apply jam_bound; [lia|done|pose proof (Z.pow_pos_nonneg 2 d); nia|rewrite Z.even_mul; apply orb_true_r]. }
      pose proof (Hj P (Z.max ps cs - ps) ltac:(lia) ltac:(lia)). pose proof (Hj C (Z.max ps cs - cs) ltac:(lia) ltac:(lia)). lia. }
  destruct (align_fused_operands P ps C cs) as [[p a] s]. specialize (Hsum _ _ _ eq_refl). by rewrite (proj2 (Z.leb_gt _ _)), andb_false_r.
Qed.

(** [2^-12 * 2^-11 + (2 - 2^-52)]: the aligned sum needs 129 bits.  A build with
    overflow checks panics; one without them wraps and returns about [2^-23] for
    a value that rounds to 2. *)
Theorem fused_double_overflow :
  exact_scalar_float_fused_multiply_add true 0x3f30000000000000 0x3f40000000000000 0x3fffffffffffffff 64 MultiplyAdd 0 = None /\
  exists o, exact_scalar_float_fused_multiply_add false 0x3f30000000000000 0x3f40000000000000 0x3fffffffffffffff 64 MultiplyAdd 0 = Some o /\
    o.(out_bits) = 0x3e7fffffff000000.
Proof. vm_compute. split; [reflexivity|]. eexists. split; reflexivity. Qed.

(** The square of a single minus itself, rounded once. *)
Lemma fused_correctly_rounded_witness :
  match BinaryFormat_new Binary32 with
  | Some f => exists o, exact_scalar_float_fused_multiply_add true 0x3f800001 0x3f800001 0x3f800001 32 NegatedMultiplySubtract 0 = Some o /\
      sum_result f (from_fpcr 0) false true (value f (operand f 0 0x3f800001) * value f (operand f 0 0x3f800001) + value f (operand f 0 (negated f true 0x3f800001)) * 2 ^ (- minimum_subnormal f))
        (2 ^ (- minimum_subnormal f)) (denormals f 0 [0x3f800001; 0x3f800001; negated f true 0x3f800001]) o
  | None => False
  end.
Proof. exact (fused_correctly_rounded true Binary32 _ 32 0x3f800001 0x3f800001 0x3f800001 NegatedMultiplySubtract 0 eq_refl eq_refl ltac:(vm_compute; split; [discriminate|reflexivity]) ltac:(vm_compute; split; [discriminate|reflexivity]) ltac:(vm_compute; split; [discriminate|reflexivity]) eq_refl). Defined.
