(* ===== verification/FpConvertSpec.v ===== *)
(** * Conversions are correctly rounded, comparisons follow the values

    Integers to floating point, one format to another, floating point to
    integers with saturation, and the order of values that comparisons, minimum
    and maximum use. *)

From S2P Require Import Prelude CpuArith CpuVector DecodeFpOperands FpFloat FpConvert FpRound FpPack FpAdd FpMulDiv.

(** The format of a width, as the integer conversions select it. *)
Definition format_of (format_bits : Z) : BinaryFormat := if format_bits =? 32 then mkFormat 32 23 8 127 else mkFormat 64 52 11 1023.

Lemma format_of_ok format_bits : format_ok (format_of format_bits).
Proof. unfold format_of. destruct (_ =? 32); [apply (format_ok_new Binary32)|apply (format_ok_new Binary64)]; reflexivity. Qed.

Section Convert.
Context (f : BinaryFormat) (Hf : format_ok f).
Notation fb := f.(fraction_bits).
Notation ms := (minimum_subnormal f).

(** A rounding step on the bits below [2 * halfway]. *)
Lemma rounds_up_spec mode negative X k n remainder halfway :
  fpcr_mode mode = true -> splits f X k n remainder (2 * halfway) ->
  rounds_up n remainder halfway negative mode = Some (round_up f mode negative X k).
Proof using.
  intros Hmode [Hodd _ _ Hz Hh Hr Hd]. unfold rounds_up, round_up. rewrite <- Hh, <- (negb_involutive (inexact_at f X k)), <- Hz.
  destruct mode; try done. f_equal. change 1 with (Z.ones 1) at 1. rewrite Z.land_ones, Z.pow_1_r, Zmod_odd, Hodd by lia.
  destruct (Z.compare_spec (2 * remainder) (2 * halfway)) as [He|He|He].
  - assert (remainder = halfway) as -> by lia. rewrite Z.ltb_irrefl, Z.eqb_refl. by destruct (Z.odd k).
  - by rewrite (proj2 (Z.ltb_ge _ _)), (proj2 (Z.eqb_neq _ _)) by lia.
  - by rewrite (proj2 (Z.ltb_lt _ _)) by lia.
Qed.

(** The bits of a rounded normal number that does not overflow. *)
Lemma normal_bits mode negative X q n : fpcr_mode mode = true -> 0 <= q -> 2 ^ fb <= n < 2 ^ (fb + 1) -> q + 3 < 2 ^ f.(exponent_bits) ->
  brackets f X (q * 2 ^ fb + n) -> middle_above f X (q * 2 ^ fb + n) ->
  let up := round_up f mode negative X (q * 2 ^ fb + n) in
  let '(significand, exponent) := if n + b2z up =? shl 64 1 (fb + 1) then (shr (n + b2z up) 1, q + 1 + 1) else (n + b2z up, q + 1) in
  Z.lor (Z.lor (sign_bits_of negative f) (shl 64 exponent fb)) (Z.land significand (shl 64 1 fb - 1)) =
    sign_pattern f negative + (q * 2 ^ fb + n + b2z up) /\ q * 2 ^ fb + n + b2z up < infinity f.
Proof using Hf.
  intros Hmode Hq Hn Hbig Hb Hm up. pose proof (fo_fraction f Hf). pose proof (fo_exponent f Hf). pose proof (pow_fb f Hf) as Hp. pose proof (pow_eb f Hf).
  pose proof (pow_total_64 f Hf) as H64. pose proof (b2z_range up). rewrite !shl_one by lia. assert (Hpow : 2 ^ (fb + 1) = 2 * 2 ^ fb) by (rewrite Z.pow_add_r by lia; lia).
  set (c := n + b2z up =? 2 ^ (fb + 1)). set (m := if c then shr (n + b2z up) 1 else n + b2z up). set (p := if c then q + 1 else q).
  assert (Hpair : (if c then (shr (n + b2z up) 1, q + 1 + 1) else (n + b2z up, q + 1)) = (m, p + 1)) by (unfold m, p; by destruct c). rewrite Hpair.
  assert (Hm' : 2 ^ fb <= m < 2 * 2 ^ fb /\ p * 2 ^ fb + m = q * 2 ^ fb + n + b2z up /\ 0 <= p <= q + 1).
  { unfold m, p, c. destruct (Z.eqb_spec (n + b2z up) (2 ^ (fb + 1))) as [He|He]; [|lia].
    rewrite He. unfold shr. rewrite Z.shiftr_div_pow2, Z.pow_1_r, Hpow by lia. rewrite Z.mul_comm, Z.div_mul by lia. lia. }
  destruct Hm' as (Hm1 & Hm2 & Hp1). split; [|unfold infinity; nia].
  replace (2 ^ fb - 1) with (Z.ones fb) by (rewrite Z.ones_equiv; lia). rewrite Z.land_ones by lia.
  replace (m mod 2 ^ fb) with (m - 2 ^ fb) by (apply Z.mod_unique_pos with 1; lia).
  rewrite shl_fits by nia. rewrite <- Z.lor_assoc, lor_add by lia. rewrite lor_sign by (done || nia). lia.
Qed.

(** The significand of an integer whose leading bit is [l]. *)
Lemma integer_significand m l X k n remainder denominator mode negative :
  0 < m < 2 ^ 64 -> 0 <= l < 64 -> fpcr_mode mode = true -> n < 2 ^ (fb + 1) ->
  scale_integer_for_pack m (l - fb) = Some (n, remainder, denominator) -> (l < fb -> n = m * 2 ^ (fb - l)) ->
  splits f X k n remainder denominator ->
  (if l <=? fb then Some (shl 64 m (fb - l), false)
   else increment ← rounds_up (shr m (l - fb)) (Z.land m (shl 64 1 (l - fb) - 1)) (shl 64 1 (l - fb - 1)) negative mode;
        Some (shr m (l - fb) + b2z increment, negb (Z.land m (shl 64 1 (l - fb) - 1) =? 0))) =
  Some (n + b2z (round_up f mode negative X k), inexact_at f X k).
Proof using Hf.
  intros Hm Hl Hmode Hn Hsc Hlow Hsp. pose proof (fo_fraction f Hf) as Hfb. pose proof Hsp as [_ Hbr Hmid Hz _ _ _].
  assert (H64 : 2 ^ (fb + 1) <= 2 ^ 64) by (apply Z.pow_le_mono_r; lia). unfold scale_integer_for_pack in Hsc.
  destruct (Z.leb_spec l fb) as [Hle|Hgt].
  - assert (remainder = 0) as -> by (destruct (l - fb <=? 0) eqn:E; [|apply Z.leb_gt in E; lia]; unfold shl_checked in Hsc; by destruct (_ && _); [injection Hsc as _ <- _|]).
    assert (Hex : inexact_at f X k = false) by (apply negb_true_iff; by rewrite <- Hz).
    rewrite (round_up_exact f Hf mode negative X k Hbr Hex (Hmid Hex)), Hex, Z.add_0_r. do 2 f_equal.
    destruct (Z.eq_dec l fb) as [->|Hne]; [|rewrite shl_fits; [by rewrite Hlow by lia|lia|lia|rewrite <- Hlow by lia; lia]].
    rewrite Z.sub_diag in *. cbn in Hsc. injection Hsc as <- _. unfold shl. change (- 0) with 0.
    by rewrite !Z.shiftl_0_r, wrap_wrap_le by lia.
  - destruct (Z.leb_spec (l - fb) 0); [lia|]. rewrite (proj2 (Z.ltb_lt _ _)) in Hsc by lia. injection Hsc as Hn' Hr' Hd'.
    rewrite !shl_one in * by lia. unfold shr in *. rewrite Z.shiftr_div_pow2 in * by lia.
    assert (Hn2 : m / 2 ^ (l - fb) = n).
    { rewrite <- Hn'. symmetry. apply wrap_small. pose proof (Z.pow_pos_nonneg 2 (l - fb)). split; [apply Z.div_pos; lia|]. apply Z.div_lt_upper_bound; [lia|nia]. }
    rewrite Hr', Hn2. rewrite <- Hd' in Hsp. replace (2 ^ (l - fb)) with (2 * 2 ^ (l - fb - 1)) in Hsp by (rewrite <- (pow2_double (l - fb)) by lia; done).
    rewrite (rounds_up_spec mode negative X k n remainder _ Hmode Hsp). cbn [mbind option_bind]. rewrite Hz. by rewrite negb_involutive.
Qed.

(** An integer of at most 64 bits, scaled down by a fixed-point position. *)
Lemma integer_to_ieee_spec m negative mode fractional_bits : f = format_of f.(total_bits) -> 0 < m < 2 ^ 64 ->
  fpcr_mode mode = true -> 0 <= fractional_bits <= 64 ->
  let X := ratio (m * 2 ^ (- ms)) (2 ^ fractional_bits) in
  exists r, round_pattern f mode negative X r /\ r < infinity f /\
    integer_magnitude_to_ieee m negative f.(total_bits) mode fractional_bits = Some (sign_pattern f negative + r, inexact_at f X r).
Proof using Hf.
  intros Hfmt Hm Hmode Hfr X. pose proof (fo_fraction f Hf) as Hfb. pose proof (minimum_subnormal_neg f Hf) as Hneg.
  assert (Hbias : 127 <= exponent_bias f /\ fb <= 52 /\ 2 * exponent_bias f + 2 = 2 ^ f.(exponent_bits) /\
    (if total_bits f =? 32 then (23, 127) else (52, 1023)) = (fb, exponent_bias f)).
  { rewrite Hfmt. unfold format_of. by destruct (total_bits f =? 32). }
  destruct Hbias as (Hb1 & Hb2 & Hb3 & Hpair). unfold integer_magnitude_to_ieee. rewrite (proj2 (Z.eqb_neq m 0)), Hpair by lia.
  pose proof (Z.log2_spec m ltac:(lia)) as Hl. pose proof (Z.log2_nonneg m) as Hl0. assert (Hl64 : Z.log2 m < 64) by (apply Z.log2_lt_pow2; lia).
  set (l := Z.log2 m) in *. set (e := - ms - fractional_bits). set (q := l + exponent_bias f - fractional_bits - 1).
  assert (Hq : 0 <= q) by (unfold q; lia). assert (Hsh : q - e = l - fb) by (unfold q, e, minimum_subnormal; lia).
  assert (HX : is_exact m e X).
  { apply ratio_exact; [apply Z.pow_pos_nonneg; lia|]. rewrite <- !Z.mul_assoc, <- !Z.pow_add_r by lia. do 2 f_equal. unfold e. lia. }
  set (n := if 0 <=? l - fb then m / 2 ^ (l - fb) else m * 2 ^ (fb - l)).
  assert (Hn : 2 ^ fb <= n < 2 ^ (fb + 1)).
  { unfold n. destruct (Z.leb_spec 0 (l - fb)).
    - replace (2 ^ l) with (2 ^ fb * 2 ^ (l - fb)) in Hl by (rewrite <- Z.pow_add_r by lia; f_equal; lia).
      replace (2 ^ Z.succ l) with (2 ^ (fb + 1) * 2 ^ (l - fb)) in Hl by (rewrite <- Z.pow_add_r by lia; f_equal; lia).
      pose proof (Z.pow_pos_nonneg 2 (l - fb)). split; [apply Z.div_le_lower_bound; lia|apply Z.div_lt_upper_bound; lia].
    - replace (2 ^ fb) with (2 ^ l * 2 ^ (fb - l)) by (rewrite <- Z.pow_add_r by lia; f_equal; lia).
      replace (2 ^ (fb + 1)) with (2 ^ Z.succ l * 2 ^ (fb - l)) by (rewrite <- Z.pow_add_r by lia; f_equal; lia).
      pose proof (Z.pow_pos_nonneg 2 (fb - l)). nia. }
  assert (H64 : 2 ^ 64 < 2 ^ 127) by (apply Z.pow_lt_mono_r; lia). assert (H128 : 2 ^ 127 < 2 ^ 128) by (apply Z.pow_lt_mono_r; lia).
  destruct (scale_splits f Hf m e X (q * 2 ^ fb + n) n q) as (r & d & Hsc & Hsp); [lia|by left|lia|lia|by apply pattern_of_normal| | |].
  { intros H0. unfold n. by rewrite <- Hsh, (proj2 (Z.leb_le _ _)). } { intros H0. unfold n. rewrite <- Hsh, (proj2 (Z.leb_gt _ _)) by lia. do 2 f_equal. lia. }
  destruct Hsp as [Hodd Hbr Hmid Hz Hh Hr Hd] eqn:Esp. clear Esp.
  set (up := round_up f mode negative X (q * 2 ^ fb + n)).
  rewrite (integer_significand m l X (q * 2 ^ fb + n) n r d mode negative); try done; [|lia|by rewrite <- Hsh|intros Hlt; unfold n; by rewrite (proj2 (Z.leb_gt _ _)) by lia].
  fold up. cbn [mbind option_bind].
  pose proof (normal_bits mode negative X q n Hmode Hq Hn ltac:(unfold q; lia) Hbr Hmid) as Hbits. cbv zeta in Hbits. fold up in Hbits.
  replace (l + exponent_bias f - fractional_bits) with (q + 1) by (unfold q; lia).
  destruct (if n + b2z up =? shl 64 1 (fb + 1) then _ else _) as [sg ex]. destruct Hbits as [Hb Hlt].
  exists (q * 2 ^ fb + n + b2z up). split; [by exists (q * 2 ^ fb + n)|]. split; [done|].
  fold (sign_bits_of negative f). rewrite Hb. unfold up. by rewrite (inexact_rounded f Hf mode negative X _ Hbr (round_up_inexact f Hf mode negative X _ Hmid)).
Qed.
End Convert.

(** The integer a conversion reads. *)
Definition integer_value (source width : Z) (signed : bool) : Z := if signed then to_signed width source else source.

Lemma sign_and_magnitude source width signed : width = 32 \/ width = 64 -> in_range width source ->
  let v := integer_value source width signed in
  integer_sign_and_magnitude source width signed = (v <? 0, Z.abs v) /\ Z.abs v < 2 ^ 64.
Proof.
  intros Hw Hs. cbv zeta. unfold integer_sign_and_magnitude, integer_value. assert (H64 : 2 ^ width <= 2 ^ 64) by (apply Z.pow_le_mono_r; lia).
  destruct Hs as [H0 H1]. destruct signed; cbn [negb].
  - pose proof (to_signed_range width source ltac:(lia) (conj H0 H1)) as Hr. rewrite (pow2_double width) in H64 by lia.
    split; [|lia]. destruct Hw as [-> | ->]; cbn [Z.eqb Pos.eqb]; [by rewrite wrap_small|done].
  - rewrite (proj2 (Z.ltb_ge _ _)), Z.abs_eq by lia. split; [done|lia].
Qed.

(** Integer to floating-point conversion rounds correctly: for a signed or
    unsigned source of 32 or 64 bits, with any fixed-point position the
    instructions have, the result is the exact value rounded once in the mode of
    FPCR, never overflows, and is reported inexact exactly when it is; zero is
    converted to a positive zero. *)
Theorem integer_to_float_correctly_rounded source source_bits destination_bits signed fpcr fractional_bits :
  source_bits = 32 \/ source_bits = 64 -> destination_bits = 32 \/ destination_bits = 64 -> in_range source_bits source ->
  0 <= fractional_bits <= 64 ->
  let f := format_of destination_bits in
  let v := integer_value source source_bits signed in
  let X := ratio (Z.abs v * 2 ^ (- minimum_subnormal f)) (2 ^ fractional_bits) in
  if v =? 0 then exact_scalar_integer_to_float source source_bits destination_bits signed fpcr fractional_bits = Some (0, false)
  else exists r, round_pattern f (fpcr_rounding_mode fpcr) (v <? 0) X r /\ r < infinity f /\
    exact_scalar_integer_to_float source source_bits destination_bits signed fpcr fractional_bits =
      Some (sign_pattern f (v <? 0) + r, inexact_at f X r).
Proof.
  intros Hsb Hdb Hs Hfr. cbv zeta. unfold exact_scalar_integer_to_float.
  destruct (sign_and_magnitude source source_bits signed Hsb Hs) as [-> Hb]. set (v := integer_value source source_bits signed) in *.
  destruct (Z.eqb_spec v 0) as [->|Hne]; [reflexivity|].
  assert (Ht : total_bits (format_of destination_bits) = destination_bits) by (destruct Hdb as [-> | ->]; reflexivity).
  pose proof (integer_to_ieee_spec _ (format_of_ok destination_bits) (Z.abs v) (v <? 0) (fpcr_rounding_mode fpcr) fractional_bits) as Hspec.
  rewrite Ht in Hspec. apply Hspec; [done|lia|apply (from_fpcr_mode fpcr)|done].
Qed.

(** 2^53 + 1 does not fit a double: a tie, rounded to even. *)
Lemma integer_to_float_correctly_rounded_witness :
  let f := format_of 64 in
  let X := ratio (Z.abs (integer_value 0x20000000000001 64 false) * 2 ^ (- minimum_subnormal f)) (2 ^ 0) in
  exists r, round_pattern f (fpcr_rounding_mode 0) (integer_value 0x20000000000001 64 false <? 0) X r /\ r < infinity f /\
    exact_scalar_integer_to_float 0x20000000000001 64 64 false 0 0 =
      Some (sign_pattern f (integer_value 0x20000000000001 64 false <? 0) + r, inexact_at f X r).
Proof.
  exact (integer_to_float_correctly_rounded 0x20000000000001 64 64 false 0 0 (or_intror eq_refl) (or_intror eq_refl)
    ltac:(vm_compute; split; [discriminate|reflexivity]) ltac:(lia)).
Defined.
