(* ===== verification/FpInteger.v ===== *)
(** * Floating point to integers: rounding, saturation and status

    [float_bits_to_integer] is the nearest integer in the encoded direction,
    clamped to the destination, with the exceptions of the architecture. *)

From S2P Require Import Prelude CpuArith CpuVector DecodeFpOperands FpFloat FpConvert FpRound FpPack FpAdd FpMulDiv FpConvertSpec.

(** The integer nearest to [num / den] in each direction. *)
Definition round_integer (rounding : FloatToIntegerRounding) (num den : Z) : Z :=
  match rounding with
  | ToZero => Z.quot num den
  | ToNegative => num / den
  | ToPositive => - (- num / den)
  | ToNearestEven =>
      match 2 * (num mod den) ?= den with
      | Lt => num / den
      | Gt => num / den + 1
      | Eq => if Z.even (num / den) then num / den else num / den + 1
      end
  | ToNearestAway => Z.sgn num * ((2 * Z.abs num + den) / (2 * den))
  end.

Definition lower_bound (width : Z) (signed : bool) : Z := if signed then - 2 ^ (width - 1) else 0.
Definition upper_bound (width : Z) (signed : bool) : Z := if signed then 2 ^ (width - 1) - 1 else 2 ^ width - 1.
Definition clamp (lo hi i : Z) : Z := Z.max lo (Z.min hi i).

(** The increment of the magnitude is the rounding of the signed value. *)
Lemma round_magnitude rounding (sign : bool) A D : 0 <= A -> 0 < D ->
  round_integer rounding ((if sign then -1 else 1) * A) D =
  (if sign then -1 else 1) * (A / D + b2z (negb (A mod D =? 0) && integer_increment (A / D) (2 * (A mod D) ?= D) sign rounding)).
Proof.
  intros HA HD. pose proof (Z.div_mod A D ltac:(lia)) as Hdm. pose proof (Z.mod_pos_bound A D HD) as Hm.
  assert (Hq : 0 <= A / D) by (apply Z.div_pos; lia). set (M := A / D) in *. set (r := A mod D) in *.
  assert (Hneg : (- A) / D = - M - b2z (negb (r =? 0)) /\ (- A) mod D = if r =? 0 then 0 else D - r).
  { destruct (Z.eqb_spec r 0) as [Hr|Hr]; cbn [negb b2z].
    - split; [symmetry; apply Z.div_unique_pos with 0; lia|symmetry; apply Z.mod_unique_pos with (- M); lia].
    - split; [symmetry; apply Z.div_unique_pos with (D - r); lia|symmetry; apply Z.mod_unique_pos with (- M - 1); lia]. }
  destruct Hneg as [Hnd Hnm]. assert (Hodd : negb (Z.land M 1 =? 0) = negb (Z.even M)).
  { change 1 with (Z.ones 1). rewrite Z.land_ones, Z.pow_1_r, Zmod_odd, <- Z.negb_odd by lia. by destruct (Z.odd M). }
  assert (Haway : (2 * A + D) / (2 * D) = M + b2z (negb (r =? 0) && match 2 * r ?= D with Lt => false | _ => true end)).
  { destruct (Z.compare_spec (2 * r) D) as [He|He|He].
    - rewrite (proj2 (Z.eqb_neq _ _)) by lia. cbn [negb andb b2z]. symmetry. apply Z.div_unique_pos with 0; lia.
    - rewrite andb_false_r. cbn [b2z]. symmetry. apply Z.div_unique_pos with (2 * r + D); lia.
    - rewrite (proj2 (Z.eqb_neq _ _)) by lia. cbn [negb andb b2z]. symmetry. apply Z.div_unique_pos with (2 * r - D); lia. }
  destruct sign; rewrite ?Z.mul_1_l; [replace (-1 * A) with (- A) by lia|]; unfold round_integer, integer_increment.
  - destruct rounding.
    + rewrite Hnd, Hnm, Hodd. destruct (Z.eqb_spec r 0) as [Hr|Hr]; cbn [negb andb b2z].
      * rewrite (proj2 (Z.compare_lt_iff (2 * 0) D)) by lia. lia.
      * destruct (Z.compare_spec (2 * r) D) as [He|He|He].
        -- rewrite (proj2 (Z.compare_eq_iff (2 * (D - r)) D)) by lia. replace (- M - 1) with (- (M + 1)) by lia. rewrite Z.even_opp, Z.even_add. destruct (Z.even M); cbn; lia.
        -- rewrite (proj2 (Z.compare_gt_iff (2 * (D - r)) D)) by lia. cbn. lia.
        -- rewrite (proj2 (Z.compare_lt_iff (2 * (D - r)) D)) by lia. cbn. lia.
    + rewrite Z.sgn_opp, Z.abs_opp, (Z.abs_eq A), Haway by lia. destruct (Z.eq_dec A 0) as [H0|H0]; [|rewrite Z.sgn_pos by lia; lia].
      assert (M = 0) as -> by nia. assert (r = 0) as -> by lia. rewrite H0. done.
    + replace (- - A) with A by lia. fold M. rewrite andb_false_r. cbn. lia.
    + rewrite Hnd, andb_true_r. lia.
    + rewrite Z.quot_opp_l, Z.quot_div_nonneg by lia. fold M. rewrite andb_false_r. cbn. lia.
  - destruct rounding.
    + fold M r. rewrite Hodd. destruct (Z.eqb_spec r 0) as [Hr|Hr]; cbn [negb andb b2z].
      * rewrite Hr, (proj2 (Z.compare_lt_iff (2 * 0) D)) by lia. lia.
      * destruct (2 * r ?= D); cbn; [|lia|lia]. destruct (Z.even M); cbn; lia.
    + rewrite (Z.abs_eq A), Haway by lia. destruct (Z.eq_dec A 0) as [H0|H0]; [|rewrite Z.sgn_pos by lia; lia].
      assert (M = 0) as -> by nia. assert (r = 0) as -> by lia. rewrite H0. done.
    + rewrite Hnd. cbn [negb]. rewrite andb_true_r. lia.
    + fold M. rewrite andb_false_r. cbn. lia.
    + rewrite Z.quot_div_nonneg by lia. fold M. rewrite andb_false_r. cbn. lia.
Qed.

(** Only the quotient matters. *)
Lemma round_integer_scale rounding num den w : 0 < den -> 0 < w -> round_integer rounding (num * w) (den * w) = round_integer rounding num den.
Proof.
  intros Hd Hw. unfold round_integer. rewrite <- !Z.mul_opp_l, !Z.div_mul_cancel_r, Z.mul_mod_distr_r, Z.quot_mul_cancel_r by lia.
  destruct rounding; try done.
  - rewrite Z.mul_assoc. by rewrite compare_mul_pos_r.
  - rewrite Z.sgn_mul, (Z.sgn_pos w), Z.mul_1_r, Z.abs_mul, (Z.abs_eq w) by lia. f_equal.
    replace (2 * (Z.abs num * w) + den * w) with ((2 * Z.abs num + den) * w) by lia. replace (2 * (den * w)) with (2 * den * w) by lia.
    apply Z.div_mul_cancel_r; lia.
Qed.

(** The magnitude the code computes, against [A / D = significand * 2^shift]. *)
Lemma integer_magnitude_spec significand shift : 0 <= significand < 2 ^ 64 -> (0 <= shift -> 0 < significand) ->
  let A := significand * 2 ^ Z.max 0 shift in
  let D := 2 ^ Z.max 0 (- shift) in
  exists m relation, integer_magnitude significand shift = (m, negb (A mod D =? 0), relation) /\
    (A mod D <> 0 -> relation = (2 * (A mod D) ?= D)) /\ (m = A / D \/ (A mod D = 0 /\ m = umax 128 /\ umax 128 < A / D)).
Proof.
  intros Hs Hpos. cbv zeta. unfold integer_magnitude. destruct (Z.leb_spec 0 shift) as [H0|H0].
  - specialize (Hpos H0). rewrite (Z.max_r 0 shift), (Z.max_l 0 (- shift)) by lia. rewrite Z.mod_1_r, Z.div_1_r. pose proof (Z.pow_pos_nonneg 2 shift ltac:(lia) H0) as Hp.
    assert (Hfit : (128 <=? shift) || (shr (umax 128) shift <? significand) = (2 ^ 128 <=? significand * 2 ^ shift)).
    { unfold shr, umax. rewrite Z.shiftr_div_pow2 by lia. apply eq_true_iff_eq. rewrite orb_true_iff, !Z.leb_le, Z.ltb_lt. split.
      - intros [Hb|Hb]; [assert (2 ^ 128 <= 2 ^ shift) by (apply Z.pow_le_mono_r; lia); nia|].
        pose proof (Z.div_mod (2 ^ 128 - 1) (2 ^ shift) ltac:(lia)). pose proof (Z.mod_pos_bound (2 ^ 128 - 1) (2 ^ shift) Hp). nia.
      - intros Hb. right. apply Z.div_lt_upper_bound; lia. }
    rewrite Hfit. destruct (Z.leb_spec (2 ^ 128) (significand * 2 ^ shift)) as [Hb|Hb]; do 2 eexists; (split; [reflexivity|]); (split; [done|]);
      [right; unfold umax; lia|left]. apply shl_fits; lia.
  - rewrite (Z.max_l 0 shift), (Z.max_r 0 (- shift)), Z.mul_1_r by lia. pose proof (Z.pow_pos_nonneg 2 (- shift) ltac:(lia) ltac:(lia)) as Hp.
    destruct (Z.leb_spec 128 (- shift)) as [Hb|Hb].
    + assert (2 ^ 128 <= 2 ^ (- shift)) by (apply Z.pow_le_mono_r; lia). assert (2 * 2 ^ 64 < 2 ^ 128) by (vm_compute; reflexivity).
      rewrite Z.mod_small, Z.div_small by lia. do 2 eexists. split; [reflexivity|]. split; [|by left]. intros _. symmetry. apply Z.compare_lt_iff. lia.
    + rewrite !shl_one by lia. replace (2 ^ (- shift) - 1) with (Z.ones (- shift)) by (rewrite Z.ones_equiv; lia). rewrite Z.land_ones by lia. unfold shr.
      rewrite Z.shiftr_div_pow2 by lia. do 2 eexists. split; [reflexivity|]. split; [|by left]. intros _.
      pose proof (pow2_double (- shift) ltac:(lia)) as Hd. rewrite <- (compare_mul_pos_r 2 (significand mod _)) by lia. f_equal; lia.
Qed.

Section ToInteger.
Context (f : BinaryFormat) (Hf : format_ok f) (width : Z) (Hw : width = 32 \/ width = 64) (signed : bool).
Notation lo := (lower_bound width signed).
Notation hi := (upper_bound width signed).

Lemma bounds_range : - 2 ^ 63 <= lo <= 0 /\ 0 <= hi < 2 ^ 64 /\ shl 128 1 (width - 1) = 2 ^ (width - 1) /\ shl 128 1 width = 2 ^ width.
Proof using Hw. unfold lower_bound, upper_bound. destruct Hw as [-> | ->], signed; vm_compute; repeat split; discriminate. Qed.

Lemma saturated_bound negative : wrap width (saturated_integer width signed negative) = wrap width (if negative then lo else hi).
Proof using Hw. unfold lower_bound, upper_bound. destruct Hw as [-> | ->], signed, negative; vm_compute; reflexivity. Qed.

(** Range check and sign of a magnitude. *)
Lemma saturate_spec (sign : bool) (m i : Z) status :
  0 <= m -> i = (if sign then -1 else 1) * m \/ (m = umax 128 /\ umax 128 < (if sign then -1 else 1) * i) ->
  let out_of_range := if sign then if signed then shl 128 1 (width - 1) <? m else negb (m =? 0)
                      else (if signed then shl 128 1 (width - 1) - 1 else shl 128 1 width - 1) <? m in
  let o := if out_of_range then mkInteger (saturated_integer width signed sign) width (with_invalid true FpStatus_default)
           else mkInteger (if sign && negb (m =? 0) then wrap 64 (- wrap 64 m) else wrap 64 m) width status in
  wrap width o.(int_value) = wrap width (clamp lo hi i) /\ o.(int_width) = width /\
  o.(int_status) = if (lo <=? i) && (i <=? hi) then status else with_invalid true FpStatus_default.
Proof using Hw.
  intros Hm Hi. cbv zeta. destruct bounds_range as (Hlo & Hhi & -> & ->).
  assert (Hout : (if sign then if signed then 2 ^ (width - 1) <? m else negb (m =? 0) else (if signed then 2 ^ (width - 1) - 1 else 2 ^ width - 1) <? m)
    = negb ((lo <=? i) && (i <=? hi))).
  { assert (Hu : umax 128 > 2 ^ 64) by (vm_compute; reflexivity). unfold lower_bound, upper_bound in *.
    apply eq_true_iff_eq. rewrite negb_true_iff, andb_false_iff, !Z.leb_gt. destruct sign, signed; rewrite ?Z.ltb_lt, ?negb_true_iff, ?Z.eqb_neq; lia. }
  rewrite Hout. destruct ((lo <=? i) && (i <=? hi)) eqn:Hin; cbn [negb int_value int_width int_status]; (split; [|done]).
  - apply andb_true_iff in Hin as [H1 H2]. apply Z.leb_le in H1, H2. unfold clamp. rewrite Z.min_r, Z.max_r by lia.
    assert (Hu : umax 128 > 2 ^ 64) by (vm_compute; reflexivity). assert (Hi' : i = (if sign then -1 else 1) * m) by (destruct sign; lia).
    assert (Hww : forall z, wrap width (wrap 64 z) = wrap width z) by (intros z; apply wrap_wrap_le; lia).
    assert (Hopp : wrap 64 (- wrap 64 m) = wrap 64 (- m)) by (unfold wrap; by rewrite <- (Z.sub_0_l (m mod _)), Zminus_mod_idemp_r, Z.sub_0_l).
    destruct sign; cbn [andb]; [|rewrite Hww, Hi'; f_equal; lia]. destruct (Z.eqb_spec m 0) as [H0|H0]; cbn [negb].
    + rewrite Hww, Hi', H0. done.
    + rewrite Hopp, Hww, Hi'. f_equal; lia.
  - rewrite saturated_bound. apply andb_false_iff in Hin. rewrite !Z.leb_gt in Hin. unfold clamp.
    assert (Hu : umax 128 > 2 ^ 64) by (vm_compute; reflexivity). f_equal. destruct sign; lia.
Qed.
End ToInteger.

(** What the conversion must do, by the class of the operand. *)
Definition conversion_result (f : BinaryFormat) (width : Z) (signed : bool) (rounding : FloatToIntegerRounding) (fractional_bits fpcr : Z)
  (x : DecodedFloat) (o : ExactIntegerOutcome) : Prop :=
  let lo := lower_bound width signed in
  let hi := upper_bound width signed in
  let invalid := with_invalid true FpStatus_default in
  o.(int_width) = width /\
  if is_nan x f then wrap width o.(int_value) = 0 /\ o.(int_status) = invalid
  else if is_infinite x f then wrap width o.(int_value) = wrap width (if x.(df_sign) then lo else hi) /\ o.(int_status) = invalid
  else if (from_fpcr fpcr).(flush_to_zero) && is_subnormal x
  then wrap width o.(int_value) = 0 /\ o.(int_status) = with_input_denormal true FpStatus_default
  else
    let num := value f x * 2 ^ fractional_bits in
    let den := 2 ^ (- minimum_subnormal f) in
    let i := round_integer rounding num den in
    wrap width o.(int_value) = wrap width (clamp lo hi i) /\
    o.(int_status) = if (lo <=? i) && (i <=? hi) then with_inexact (negb (num mod den =? 0)) FpStatus_default else invalid.

(** C39. Floating point to integer conversion: the operand, scaled by the
    fixed-point position, is rounded in the encoded direction and clamped to the
    destination, signed or unsigned, of 32 or 64 bits; a clamped value, an
    infinity or a NaN (which gives zero) raises invalid operation and nothing
    else, an unclamped inexact one raises inexact, a flushed operand is a zero
    that raises input denormal. *)
Theorem float_to_integer_rounds_and_saturates format f source width signed rounding fractional_bits fpcr :
  BinaryFormat_new format = Some f -> in_range f.(total_bits) source -> width = 32 \/ width = 64 -> 0 <= fractional_bits <= 64 ->
  conversion_result f width signed rounding fractional_bits fpcr (DecodedFloat_new source f)
    (float_bits_to_integer source f width signed rounding fractional_bits fpcr).
Proof.
  intros Hnew Hs Hw Hfr. pose proof (format_ok_new _ _ Hnew) as Hf. pose proof (decoded_ok f Hf source Hs) as Hx.
  set (x := DecodedFloat_new source f) in *. unfold conversion_result, float_bits_to_integer. cbv zeta.
  assert (Hfields : bit_set source (sign_mask f) = df_sign x /\ shr (Z.land source (exponent_mask f)) (fraction_bits f) = df_exponent_field x /\
    Z.land source (fraction_mask f) = df_fraction x) by (unfold x, DecodedFloat_new; by destruct (_ =? 0)).
  destruct Hfields as (-> & -> & ->). unfold is_nan, is_infinite.
  destruct (df_exponent_field x =? exponent_max f) eqn:Emax; cbn [andb].
  { split; [done|]. destruct (df_fraction x =? 0); cbn [negb int_value int_status]; [|by split; [unfold wrap; rewrite Z.mod_0_l by (destruct Hw as [-> | ->]; done)|]].
    split; [|done]. by apply saturated_bound. }
  assert (Hflush : (df_exponent_field x =? 0) && negb (df_fraction x =? 0) && bit_set fpcr (2 ^ 24) = (from_fpcr fpcr).(flush_to_zero) && is_subnormal x)
    by (unfold is_subnormal; cbn [from_fpcr flush_to_zero]; apply andb_comm).
  rewrite Hflush. destruct (_ && is_subnormal x); [by split; [|split; [unfold wrap; rewrite Z.mod_0_l by (destruct Hw as [-> | ->]; done)|]]|].
  assert (Hpair : (if df_exponent_field x =? 0 then (df_fraction x, 1 - exponent_bias f)
    else (Z.lor (shl 64 1 (fraction_bits f)) (df_fraction x), df_exponent_field x - exponent_bias f)) = (df_significand x, df_scale x + fraction_bits f)).
  { unfold x, DecodedFloat_new. set (e := shr _ _). destruct (e =? 0) eqn:He; cbn; rewrite He; f_equal; lia. }
  rewrite Hpair. replace (df_scale x + fraction_bits f - fraction_bits f + fractional_bits) with (df_scale x + fractional_bits) by lia.
  set (sh := df_scale x + fractional_bits). pose proof (significand_53 f Hf x Hx) as H53. pose proof (significand_range f Hf x Hx) as Hsr.
  pose proof (scale_range f Hf x Hx) as Hsc. pose proof (minimum_subnormal_neg f Hf) as Hneg. assert (H64 : 2 ^ 53 < 2 ^ 64) by (apply Z.pow_lt_mono_r; lia).
  assert (Hms : minimum_subnormal f + 64 < 0).
  { destruct format; [done|injection Hnew as <-..]; vm_compute; reflexivity. }
  assert (Hposs : 0 <= sh -> 0 < df_significand x).
  { intros H0. pose proof (pow_fb f Hf). pose proof (scaled_normal f Hf x Hx ltac:(unfold sh in H0; lia)). lia. }
  destruct (integer_magnitude_spec (df_significand x) sh ltac:(lia) Hposs) as (m & rel & Him & Hrel & Hm). rewrite Him.
  set (A := df_significand x * 2 ^ Z.max 0 sh) in *. set (D := 2 ^ Z.max 0 (- sh)) in *.
  assert (HA : 0 <= A) by (apply Z.mul_nonneg_nonneg; [lia|apply Z.pow_nonneg; lia]). assert (HD : 0 < D) by (apply Z.pow_pos_nonneg; lia).
  set (w := 2 ^ Z.min (sh - minimum_subnormal f) (- minimum_subnormal f)). assert (Hwp : 0 < w) by (apply Z.pow_pos_nonneg; unfold sh; lia).
  assert (Hden : 2 ^ (- minimum_subnormal f) = D * w) by (unfold D, w; rewrite <- Z.pow_add_r by (unfold sh; lia); f_equal; lia).
  assert (Hnum : value f x * 2 ^ fractional_bits = (if df_sign x then -1 else 1) * A * w).
  { unfold value, A, w. rewrite (magnitude_eq f Hf x Hx).
    assert (Hpw : 2 ^ Z.max 0 sh * 2 ^ Z.min (sh - minimum_subnormal f) (- minimum_subnormal f) = 2 ^ (df_scale x - minimum_subnormal f) * 2 ^ fractional_bits)
      by (rewrite <- !Z.pow_add_r by (unfold sh; lia); f_equal; unfold sh; lia).
    rewrite <- !Z.mul_assoc, Hpw. destruct (df_sign x); lia. }
  rewrite Hnum, Hden, round_integer_scale, round_magnitude by done.
  assert (Hinc : negb (A mod D =? 0) && integer_increment m rel (df_sign x) rounding =
    negb (A mod D =? 0) && integer_increment (A / D) (2 * (A mod D) ?= D) (df_sign x) rounding).
  { destruct (Z.eqb_spec (A mod D) 0) as [|Hne]; [done|]. cbn [negb andb]. rewrite (Hrel Hne). destruct Hm as [-> |[? _]]; done. }
  rewrite Hinc. set (inc := b2z _). assert (Hinc1 : 0 <= inc <= 1) by apply b2z_range.
  assert (Hmod : negb ((if df_sign x then -1 else 1) * A * w mod (D * w) =? 0) = negb (A mod D =? 0)).
  { rewrite Z.mul_mod_distr_r by lia. f_equal. apply eq_true_iff_eq. rewrite !Z.eqb_eq, Z.mul_eq_0.
    destruct (df_sign x); rewrite ?Z.mul_1_l; [|lia]. replace (-1 * A) with (- A) by lia.
    rewrite !Z.mod_divide, Z.divide_opp_r by lia. intuition lia. }
  rewrite Hmod. set (mag := umax 128 `min` (m + inc)). set (i := _ * (A / D + inc)).
  assert (Hmag : 0 <= mag /\ (i = (if df_sign x then -1 else 1) * mag \/ (mag = umax 128 /\ umax 128 < (if df_sign x then -1 else 1) * i))).
  { assert (Hq : 0 <= A / D) by (apply Z.div_pos; lia). assert (Hu : 0 < umax 128) by (vm_compute; reflexivity). unfold mag, i. revert Hm Hq Hinc1 Hu. clearbody inc. generalize (umax 128), (A / D), (A mod D). clear. intros u q r Hm Hq Hinc Hu. destruct (df_sign x); lia. }
  pose proof (saturate_spec width Hw signed (df_sign x) mag i (with_inexact (negb (A mod D =? 0)) FpStatus_default) (proj1 Hmag) (proj2 Hmag)) as Hsat.
  cbv zeta in Hsat. destruct signed; (split; [apply Hsat|split; apply Hsat]).
Qed.

(** -1.5 to a 32-bit signed integer, ties to even. *)
Lemma float_to_integer_rounds_and_saturates_witness :
  match BinaryFormat_new Binary64 with
  | Some f => conversion_result f 32 true ToNearestEven 0 0 (DecodedFloat_new 0xbff8000000000000 f)
                (float_bits_to_integer 0xbff8000000000000 f 32 true ToNearestEven 0 0)
  | None => False
  end.
Proof.
  exact (float_to_integer_rounds_and_saturates Binary64 _ 0xbff8000000000000 32 true ToNearestEven 0 0 eq_refl
    ltac:(vm_compute; split; [discriminate|reflexivity]) (or_introl eq_refl) ltac:(lia)).
Defined.
