(* ===== verification/FpTotal.v ===== *)
(** * The floating-point primitives are total

    On operands of their format and whatever FPCR holds, no value primitive
    reaches an [unreachable!], a shift by the width of its type or an overflow; a
    fused multiply-add is total in a build without overflow checks. *)

From S2P Require Import Prelude CpuArith CpuVector DecodeFpOperands FpFloat FpConvert FpRound FpPack FpAdd FpMulDiv FpFused FpConvertSpec.

Lemma is_Some_intro {A} (a : A) : is_Some (Some a).
Proof. by eexists. Qed.
#[local] Hint Resolve is_Some_intro : core.

Lemma is_Some_bind {A B} (o : option A) (k : A -> option B) : is_Some o -> (forall a, o = Some a -> is_Some (k a)) -> is_Some (a ← o; k a).
Proof. intros [a ->] Hk. by apply Hk. Qed.

Lemma should_round_total retained remainder denominator negative mode : fpcr_mode mode = true ->
  is_Some (should_round retained remainder denominator negative mode).
Proof. intros Hm. unfold should_round. destruct (remainder =? 0); [done|]. by destruct mode. Qed.

Lemma overflow_result_total sign_bits f mode : fpcr_mode mode = true -> is_Some (overflow_result sign_bits f mode).
Proof. intros Hm. unfold overflow_result. by destruct mode. Qed.

Lemma pack_normal_total sign_bits significand exponent i f mode status : fpcr_mode mode = true ->
  is_Some (pack_normal sign_bits significand exponent i f mode status).
Proof.
  intros Hm. unfold pack_normal. destruct (if significand =? _ then _ else _) as [s e]. destruct (_ <? e); [|done].
  apply is_Some_bind; [by apply overflow_result_total|done].
Qed.

Section Total.
Context (f : BinaryFormat) (Hf : format_ok f).
Notation fb := (fraction_bits f).

Lemma scale_integer_total value shift : - 128 < shift -> is_Some (scale_integer_for_pack value shift).
Proof using.
  intros Hs. unfold scale_integer_for_pack, shl_checked. destruct (Z.leb_spec shift 0); [|by destruct (_ <? _)].
  rewrite (proj2 (Z.leb_le _ _)), (proj2 (Z.ltb_lt _ _)) by lia. done.
Qed.

Lemma top_bit_range v : 0 <= v < 2 ^ 128 -> - 1 <= top_bit v < 128.
Proof using.
  intros Hv. unfold top_bit. destruct (Z.eqb_spec v 0); [lia|]. pose proof (Z.log2_nonneg v). assert (Z.log2 v < 128) by (apply Z.log2_lt_pow2; lia). lia.
Qed.

Lemma pack_float_sum_total m s negative control status : 0 <= m < 2 ^ 128 -> fpcr_mode control.(rounding) = true ->
  is_Some (pack_float_sum m s negative f control status).
Proof using Hf.
  intros Hm Hmode. pose proof (top_bit_range m Hm) as Ht. pose proof (fo_fraction f Hf) as Hfr. unfold pack_float_sum.
  destruct (Z.leb_spec (1 - exponent_bias f) (s + top_bit m)) as [He|He].
  - apply is_Some_bind; [apply scale_integer_total; lia|]. intros [[significand remainder] denominator] _.
    apply is_Some_bind; [by apply should_round_total|]. intros up _. by apply pack_normal_total.
  - destruct (flush_to_zero control); [done|]. apply is_Some_bind; [apply scale_integer_total; lia|]. intros [[fraction remainder] denominator] _.
    apply is_Some_bind; [by apply should_round_total|done].
Qed.

Lemma flushed_ok enabled bits status : in_range f.(total_bits) bits -> float_ok f (flush f enabled (DecodedFloat_new bits f) status).1.
Proof using Hf. intros Hb. apply (flush_ok f Hf enabled bits status Hb). Qed.

Lemma jam_small x k d : float_ok f x -> 0 <= d -> k = 3 -> 0 <= shift_right_jam (shl 128 x.(df_significand) k) d <= 2 ^ 57.
Proof using Hf.
  intros Hx Hd ->. pose proof (significand_53 f Hf x Hx) as H53. pose proof (significand_range f Hf x Hx) as Hr.
  assert (H56 : 2 ^ 53 * 2 ^ 3 = 2 ^ 56) by reflexivity. assert (H128 : 2 ^ 56 < 2 ^ 128) by (apply Z.pow_lt_mono_r; lia).
  assert (H57 : 2 ^ 56 < 2 ^ 57) by (apply Z.pow_lt_mono_r; lia).
  rewrite shl_fits by nia. apply jam_bound; [nia|done| |reflexivity]. pose proof (Z.pow_pos_nonneg 2 d). nia.
Qed.

Lemma add_lane_total format a b fpcr (subtract : bool) : BinaryFormat_new format = Some f ->
  in_range f.(total_bits) a -> in_range f.(total_bits) b -> is_Some (add_ieee_lane a b format fpcr subtract).
Proof using Hf.
  intros Hnew Ha Hb. unfold add_ieee_lane. rewrite Hnew. cbn [mbind option_bind].
  pose proof (flushed_ok (flush_to_zero (from_fpcr fpcr)) a FpStatus_default Ha) as Hx.
  destruct (flush f _ (DecodedFloat_new a f) _) as [x st]. pose proof (flushed_ok (flush_to_zero (from_fpcr fpcr)) b st Hb) as Hy.
  destruct (flush f _ (DecodedFloat_new b f) st) as [y st']. cbn [fst] in Hx, Hy. destruct (is_nan x f || is_nan y f); [done|].
  assert (Hy' : float_ok f (if subtract then negate f y else y)) by (destruct subtract; [by apply negate_ok|done]).
  set (z := if subtract then negate f y else y) in *. destruct (is_infinite x f || is_infinite z f); [by destruct (_ && _)|].
  destruct (is_zero x && is_zero z); [done|]. destruct (is_zero x); [done|]. destruct (is_zero z); [done|].
  pose proof (jam_small x 3 (Z.max (df_scale x) (df_scale z) - df_scale x) Hx ltac:(lia) eq_refl) as H1.
  pose proof (jam_small z 3 (Z.max (df_scale x) (df_scale z) - df_scale z) Hy' ltac:(lia) eq_refl) as H2.
  set (l := shift_right_jam _ (_ - df_scale x)) in *. set (r := shift_right_jam _ (_ - df_scale z)) in *.
  assert (H128 : 2 ^ 57 + 2 ^ 57 < 2 ^ 128) by (vm_compute; reflexivity).
  pose proof (from_fpcr_mode fpcr) as Hm. destruct (Bool.eqb _ _); [apply pack_float_sum_total; [lia|done]|].
  destruct (Z.ltb_spec r l); [apply pack_float_sum_total; [lia|done]|]. destruct (Z.ltb_spec l r); [apply pack_float_sum_total; [lia|done]|done].
Qed.

Lemma product_bound x y : float_ok f x -> float_ok f y -> 0 <= x.(df_significand) * y.(df_significand) < 2 ^ 128.
Proof using Hf.
  intros Hx Hy. pose proof (significand_53 f Hf x Hx). pose proof (significand_53 f Hf y Hy).
  pose proof (significand_range f Hf x Hx). pose proof (significand_range f Hf y Hy). assert (2 ^ 53 * 2 ^ 53 < 2 ^ 128) by (vm_compute; reflexivity). nia.
Qed.

Lemma multiply_lane_total format a b fpcr : BinaryFormat_new format = Some f ->
  in_range f.(total_bits) a -> in_range f.(total_bits) b -> is_Some (multiply_ieee_lane a b format fpcr).
Proof using Hf.
  intros Hnew Ha Hb. unfold multiply_ieee_lane. rewrite Hnew. cbn [mbind option_bind]. destruct (_ || _); [done|].
  pose proof (flushed_ok (flush_to_zero (from_fpcr fpcr)) a FpStatus_default Ha) as Hx.
  destruct (flush f _ (DecodedFloat_new a f) _) as [x st]. pose proof (flushed_ok (flush_to_zero (from_fpcr fpcr)) b st Hb) as Hy.
  destruct (flush f _ (DecodedFloat_new b f) st) as [y st']. cbn [fst] in Hx, Hy. repeat (destruct (_ || _); [done|]).
  apply pack_float_sum_total; [by apply product_bound|apply from_fpcr_mode].
Qed.

Lemma divide_lane_total format a b fpcr : BinaryFormat_new format = Some f ->
  in_range f.(total_bits) a -> in_range f.(total_bits) b -> is_Some (divide_ieee_lane a b format (from_fpcr fpcr)).
Proof using Hf.
  intros Hnew Ha Hb. unfold divide_ieee_lane. rewrite Hnew. cbn [mbind option_bind]. destruct (_ || _); [done|].
  destruct (flush_fields_operand f Hf fpcr a FpStatus_default Ha) as (_ & Za & Ea & _ & Ta).
  assert (Hst : forall z st, st.(underflow) = false -> (flush f (flush_to_zero (from_fpcr fpcr)) z st).2.(underflow) = false)
    by (intros z st Hst; unfold flush; by destruct (_ && _)).
  pose proof (Hst (DecodedFloat_new a f) FpStatus_default eq_refl) as Hu. rewrite <- Ta in Hu.
  destruct (flush_fields f _ (DecodedFloat_new a f) _) as [x st]. cbn [fst snd] in *.
  destruct (flush_fields_operand f Hf fpcr b st Hb) as (_ & Zb & Eb & _ & Tb).
  pose proof (Hst (DecodedFloat_new b f) st Hu) as Hu'. rewrite <- Tb in Hu'.
  destruct (flush_fields f _ (DecodedFloat_new b f) st) as [y st']. cbn [fst snd] in *.
  destruct (_ || _); [done|]. destruct (is_infinite x f); [done|]. destruct (is_infinite y f || is_zero x) eqn:Hzx; [done|].
  apply orb_false_iff in Hzx as [_ Hzx]. destruct (is_zero y) eqn:Hy0; [done|]. rewrite Za in Hzx. assert (Hzy : is_zero (operand f fpcr b) = false) by congruence.
  rewrite (Ea Hzx), (Eb Hzy). destruct (operand_ok f Hf fpcr a Ha) as [Hx _]. destruct (operand_ok f Hf fpcr b Hb) as [Hy _].
  destruct (divide_finite_spec f Hf _ _ Hx Hy (significand_pos f Hf _ Hx Hzx) (significand_pos f Hf _ Hy Hzy) (from_fpcr fpcr)
    (xorb (df_sign (operand f fpcr a)) (df_sign (operand f fpcr b))) st' (from_fpcr_mode fpcr) Hu') as (o & -> & _). done.
Qed.

Lemma square_root_total format precision a fpcr : fp_format precision = Some format -> BinaryFormat_new format = Some f ->
  in_range f.(total_bits) a -> is_Some (exact_scalar_float_square_root a precision fpcr).
Proof using Hf.
  intros Hp Hnew Ha. unfold exact_scalar_float_square_root. rewrite Hp. cbn [mbind option_bind]. rewrite Hnew. cbn [mbind option_bind].
  destruct (is_nan _ f); [done|]. pose proof (flushed_ok (flush_to_zero (from_fpcr fpcr)) a FpStatus_default Ha) as Hx.
  assert (Hu : (flush f (flush_to_zero (from_fpcr fpcr)) (DecodedFloat_new a f) FpStatus_default).2.(underflow) = false)
    by (unfold flush; by destruct (_ && _)).
  destruct (flush f _ (DecodedFloat_new a f) _) as [x st]. cbn [fst snd] in *.
  destruct (is_zero x) eqn:Hz; [done|]. destruct (df_sign x); [done|]. destruct (is_infinite x f); [done|].
  destruct (square_root_finite_spec f Hf x (from_fpcr fpcr) st Hx (significand_pos f Hf x Hx Hz) (from_fpcr_mode fpcr) Hu) as (o & -> & _). done.
Qed.

(** The aligned magnitudes of a fused multiply-add fit 128 bits. *)
Lemma jam_range v d : 0 <= v < 2 ^ 128 -> 0 <= d -> 0 <= shift_right_jam v d < 2 ^ 128.
Proof using.
  intros Hv Hd. unfold shift_right_jam. destruct (Z.eqb_spec d 0); [done|]. assert (H1 : forall b, in_range 128 (b2z b)) by (intros []; split; vm_compute; congruence).
  destruct (Z.ltb_spec d 128); [|apply H1]. apply in_range_lor; [lia| |apply H1]. unfold shr. rewrite Z.shiftr_div_pow2 by lia.
  split; [apply Z.div_pos; [lia|apply Z.pow_pos_nonneg; lia]|]. apply Z.le_lt_trans with v; [|lia]. apply Z.div_le_upper_bound; [apply Z.pow_pos_nonneg; lia|].
  pose proof (Z.pow_pos_nonneg 2 d). nia.
Qed.

Lemma align_total P ps C cs : 0 <= P < 2 ^ 128 -> 0 <= C < 2 ^ 128 ->
  let '(p, a, _) := align_fused_operands P ps C cs in 0 <= p < 2 ^ 128 /\ 0 <= a < 2 ^ 128.
Proof using.
  intros HP HC. unfold align_fused_operands. assert (Hs : forall v n, 0 <= shl 128 v n < 2 ^ 128) by (intros; apply wrap_range; lia).
  destruct (P =? 0); [done|]. destruct (C =? 0); [done|]. destruct (_ && _); [by split; apply Hs|].
  split; apply jam_range; (apply Hs || lia).
Qed.

Lemma fused_finite_total x y z control status : float_ok f x -> float_ok f y -> float_ok f z -> fpcr_mode control.(rounding) = true ->
  is_Some (fused_finite false x y z f control status).
Proof using Hf.
  intros Hx Hy Hz Hm. unfold fused_finite. destruct (_ && _); [done|].
  pose proof (align_total (df_significand x * df_significand y) (df_scale x + df_scale y) (df_significand z) (df_scale z) (product_bound x y Hx Hy)) as Hal.
  pose proof (significand_range f Hf z Hz) as Hr. pose proof (significand_53 f Hf z Hz) as H53. assert (2 ^ 53 < 2 ^ 128) by (apply Z.pow_lt_mono_r; lia).
  specialize (Hal ltac:(lia)). destruct (align_fused_operands _ _ _ _) as [[p a] s]. destruct Hal as [Hp Ha].
  destruct (Bool.eqb _ _).
  - unfold add_checked. destruct (Z.ltb_spec (p + a) (2 ^ 128)); apply pack_float_sum_total; try done; [lia|apply wrap_range; lia].
  - destruct (Z.ltb_spec a p); [apply pack_float_sum_total; [lia|done]|]. destruct (Z.ltb_spec p a); [apply pack_float_sum_total; [lia|done]|done].
Qed.

Lemma propagate_three_total x y z use_default : is_nan x f || is_nan y f || is_nan z f = true -> is_Some (propagate_nan_three x y z f use_default).
Proof using.
  intros Hn. unfold propagate_nan_three. destruct use_default; [done|]. cbn [List.find]. repeat (destruct (is_signaling_nan _ f); [done|]).
  destruct (is_nan z f); [done|]. destruct (is_nan x f); [done|]. destruct (is_nan y f); [done|]. done.
Qed.

Lemma fused_total format precision a b c operation fpcr : fp_format precision = Some format -> BinaryFormat_new format = Some f ->
  in_range f.(total_bits) a -> in_range f.(total_bits) b -> in_range f.(total_bits) c ->
  is_Some (exact_scalar_float_fused_multiply_add false a b c precision operation fpcr).
Proof using Hf.
  intros Hp Hnew Ha Hb Hc. unfold exact_scalar_float_fused_multiply_add. rewrite Hp. cbn [mbind option_bind]. rewrite Hnew. cbn [mbind option_bind].
  destruct (negated_operand f Hf (negates_product operation) a Ha) as [Ha' ->]. destruct (negated_operand f Hf (negates_addend operation) c Hc) as [Hc' ->].
  pose proof (flushed_ok (flush_to_zero (from_fpcr fpcr)) _ FpStatus_default Ha') as Hx. destruct (flush f _ _ FpStatus_default) as [x st].
  pose proof (flushed_ok (flush_to_zero (from_fpcr fpcr)) b st Hb) as Hy. destruct (flush f _ (DecodedFloat_new b f) st) as [y st'].
  pose proof (flushed_ok (flush_to_zero (from_fpcr fpcr)) _ st' Hc') as Hz. destruct (flush f _ _ st') as [z st'']. cbn [fst] in *.
  destruct (is_nan x f || is_nan y f || is_nan z f) eqn:Hn.
  - apply is_Some_bind; [|done]. destruct (_ && _); [done|by apply propagate_three_total].
  - destruct (is_infinite x f && is_zero y || is_infinite y f && is_zero x); [done|].
    destruct (is_infinite x f || is_infinite y f); [by destruct (is_infinite z f && _)|]. destruct (is_infinite z f); [done|].
    apply fused_finite_total; try done. apply from_fpcr_mode.
Qed.
End Total.

(** ** By precision *)

Definition precision_ok (p : Z) : Prop := p = 32 \/ p = 64.

Lemma precision_format p : precision_ok p -> exists format f, fp_format p = Some format /\ BinaryFormat_new format = Some f /\ format_ok f /\ f.(total_bits) = p.
Proof.
  intros [-> | ->]; [exists Binary32|exists Binary64]; eexists; (split; [reflexivity|]); (split; [reflexivity|]); split;
    [exact (format_ok_new Binary32 _ eq_refl)|reflexivity|exact (format_ok_new Binary64 _ eq_refl)|reflexivity].
Qed.

Ltac by_format Hp := destruct (precision_format _ Hp) as (format & f & Efmt & Enew & Hf & <-).

Lemma float_mask_range v p : precision_ok p -> in_range p (Z.land v (float_mask p)).
Proof.
  intros [-> | ->]; unfold float_mask, umax; cbn [Z.eqb Pos.eqb]; [change (2 ^ 32 - 1) with (Z.ones 32)|change (2 ^ 64 - 1) with (Z.ones 64)];
    rewrite land_ones_wrap by lia; apply wrap_range; lia.
Qed.

Lemma integer_to_ieee_total m negative format_bits mode fractional : 
  fpcr_mode mode = true \/ Z.log2 m <= (if format_bits =? 32 then 23 else 52) -> is_Some (integer_magnitude_to_ieee m negative format_bits mode fractional).
Proof.
  intros Hm. unfold integer_magnitude_to_ieee. destruct (m =? 0); [done|]. 
  assert (Hb : (if format_bits =? 32 then (23, 127) else (52, 1023)) = ((if format_bits =? 32 then 23 else 52), (if format_bits =? 32 then 127 else 1023)))
    by (by destruct (_ =? 32)).
  rewrite Hb. set (fb := if format_bits =? 32 then 23 else 52) in *. apply is_Some_bind.
  - destruct (Z.leb_spec (Z.log2 m) fb); [done|]. destruct Hm as [Hm|Hm]; [|lia]. apply is_Some_bind; [|done]. unfold rounds_up. by destruct mode.
  - intros [s i] _. by destruct (s =? _).
Qed.

Lemma scalar_integer_to_float_total source source_bits destination_bits signed fpcr fractional :
  is_Some (exact_scalar_integer_to_float source source_bits destination_bits signed fpcr fractional).
Proof.
  unfold exact_scalar_integer_to_float. destruct (integer_sign_and_magnitude _ _ _) as [n m]. apply integer_to_ieee_total. left. apply (from_fpcr_mode fpcr).
Qed.

Lemma lane_integer_to_float_total source lane_bits signed fpcr : is_Some (exact_scalar_vector_integer_to_float source lane_bits signed fpcr).
Proof.
  unfold exact_scalar_vector_integer_to_float. destruct (integer_sign_and_magnitude _ _ _) as [n m]. apply integer_to_ieee_total. left. apply (from_fpcr_mode fpcr).
Qed.

Lemma vector_integer_to_float_total source lane_bits vector_bits signed fpcr :
  is_Some (exact_vector_integer_to_float source lane_bits vector_bits signed fpcr).
Proof.
  unfold exact_vector_integer_to_float. generalize (lane_shifts vector_bits lane_bits), (0, false). intros l. induction l as [|shift l IH]; intros acc; [done|].
  cbn. apply is_Some_bind; [apply lane_integer_to_float_total|]. intros [c i] _. apply IH.
Qed.

Lemma vector_outcomes_total lane shifts : (forall s d, (s, d) ∈ shifts -> is_Some (lane s)) -> is_Some (vector_outcomes lane shifts).
Proof.
  intros Hl. unfold vector_outcomes. generalize (mkOutcome 0 FpStatus_default). induction shifts as [|[s d] shifts IH]; intros acc; [done|].
  cbn. apply is_Some_bind; [apply (Hl s d); by left|]. intros o _. apply IH. intros s' d' Hin. apply (Hl s' d'). by right.
Qed.

Lemma round_mode_not_odd operation fpcr : (round_mode operation fpcr).1 <> ToOdd.
Proof.
  pose proof (from_fpcr_mode fpcr) as Hm. cbn [from_fpcr rounding] in Hm. destruct operation; cbn; try discriminate; intros E; rewrite E in Hm; discriminate Hm.
Qed.

Section Precision.
Context (p : Z) (Hp : precision_ok p).

Lemma float_lane_range v s : in_range p (float_lane v s p).
Proof using Hp. by apply float_mask_range. Qed.

Lemma scalar_add_total a b operation fpcr : in_range p a -> in_range p b -> is_Some (exact_scalar_float_add a b p operation fpcr).
Proof using Hp.
  by_format Hp. intros Ha Hb. unfold exact_scalar_float_add. rewrite Efmt. cbn [mbind option_bind]. apply is_Some_bind; [by apply (add_lane_total f Hf)|done].
Qed.

Lemma scalar_multiply_total a b operation fpcr : in_range p a -> in_range p b -> is_Some (exact_scalar_float_multiply a b p operation fpcr).
Proof using Hp.
  by_format Hp. intros Ha Hb. unfold exact_scalar_float_multiply. rewrite Efmt. cbn [mbind option_bind]. rewrite Enew. cbn [mbind option_bind].
  apply is_Some_bind; [by apply (multiply_lane_total f Hf)|done].
Qed.

Lemma scalar_divide_total a b fpcr : in_range p a -> in_range p b -> is_Some (exact_scalar_float_divide a b p fpcr).
Proof using Hp.
  by_format Hp. intros Ha Hb. unfold exact_scalar_float_divide. rewrite Efmt. cbn [mbind option_bind]. by apply (divide_lane_total f Hf).
Qed.

Lemma scalar_fused_total a b c operation fpcr : in_range p a -> in_range p b -> in_range p c ->
  is_Some (exact_scalar_float_fused_multiply_add false a b c p operation fpcr).
Proof using Hp. by_format Hp. intros. by apply (fused_total f Hf format). Qed.

Lemma scalar_square_root_total a fpcr : in_range p a -> is_Some (exact_scalar_float_square_root a p fpcr).
Proof using Hp. by_format Hp. intros. by apply (square_root_total f Hf format). Qed.

Lemma scalar_min_max_total a b minimum number fpcr : is_Some (exact_scalar_float_min_max a b p minimum number fpcr).
Proof using Hp.
  by_format Hp. unfold exact_scalar_float_min_max. rewrite Efmt. cbn [mbind option_bind]. rewrite Enew. cbn [mbind option_bind].
  destruct (flush f _ _ FpStatus_default) as [x st]. by destruct (flush f _ _ st).
Qed.

Lemma scalar_compare_total a b signaling fpcr : is_Some (exact_scalar_float_compare a b p signaling fpcr).
Proof using Hp.
  by_format Hp. unfold exact_scalar_float_compare. rewrite Efmt. cbn [mbind option_bind]. rewrite Enew. cbn [mbind option_bind].
  destruct (_ || _); [done|]. destruct (flush f _ _ FpStatus_default) as [x st]. by destruct (flush f _ _ st).
Qed.

(** The integral magnitude of a value below [2^fraction_bits] needs no rounding. *)
Lemma scalar_round_total a operation fpcr : in_range p a -> is_Some (exact_scalar_float_round a p operation fpcr).
Proof using Hp.
  by_format Hp. intros Ha. unfold exact_scalar_float_round. rewrite Efmt. cbn [mbind option_bind]. rewrite Enew. cbn [mbind option_bind].
  destruct (is_nan _ f); [done|]. destruct (_ || _); [done|]. destruct (_ && _); [done|]. pose proof (decoded_ok f Hf a Ha) as Hx. set (x := DecodedFloat_new a f) in *.
  destruct (Z.leb_spec (fraction_bits f) (df_exponent_field x - exponent_bias f)) as [He|He]; [done|].
  pose proof (fo_fraction f Hf) as Hfb. set (sh := fraction_bits f - _) in *. assert (Hsh : 1 <= sh) by (unfold sh; lia).
  destruct (round_mode operation fpcr) as [mode exact] eqn:Hmode.
  assert (Hnot : mode <> ToOdd) by (pose proof (round_mode_not_odd operation fpcr) as Hn; by rewrite Hmode in Hn).
  pose proof (significand_range f Hf x Hx) as Hs. assert (Hpow : 2 ^ (fraction_bits f + 1) = 2 * 2 ^ fraction_bits f) by (rewrite Z.pow_add_r by lia; lia).
  assert (Hret : 0 <= (if sh <? 64 then shr (df_significand x) sh else 0) <= 2 ^ fraction_bits f - 1).
  { pose proof (pow_fb f Hf). destruct (sh <? 64); [|lia]. unfold shr. rewrite Z.shiftr_div_pow2 by lia. pose proof (Z.pow_pos_nonneg 2 sh ltac:(lia) ltac:(lia)).
    split; [apply Z.div_pos; lia|]. apply Z.lt_le_pred, Z.div_lt_upper_bound; [lia|]. assert (2 ^ 1 <= 2 ^ sh) by (apply Z.pow_le_mono_r; lia). nia. }
  apply is_Some_bind.
  - unfold round_integral_magnitude. destruct (_ =? 0); [done|]. apply is_Some_bind; [by destruct mode|done].
  - intros [m i] Hm. apply is_Some_bind; [|done]. destruct (m =? 0); [done|].
    assert (Hmb : 0 <= m <= 2 ^ fraction_bits f).
    { unfold round_integral_magnitude in Hm. destruct (_ =? 0) in Hm; [injection Hm as <- _; lia|].
      match type of Hm with context [mbind _ ?o] => destruct o as [inc|] end; [|done]. cbn in Hm. injection Hm as <- _. pose proof (b2z_range inc). lia. }
    destruct (integer_to_ieee_total m (df_sign x) (total_bits f) mode 0) as [r ->]; [|done]. right.
    assert (Hlog : Z.log2 m <= fraction_bits f) by (rewrite <- (Z.log2_pow2 (fraction_bits f)) by lia; apply Z.log2_le_mono; lia).
    destruct format; [done|..]; injection Enew as <-; exact Hlog.
Qed.
End Precision.

(** ** Conversions and vectors *)

Lemma round_shift_total value shift negative mode : fpcr_mode mode = true -> is_Some (round_shift_right value shift negative mode).
Proof.
  intros Hm. unfold round_shift_right. destruct (shift =? 0); [done|]. destruct (_ =? 0); [done|]. apply is_Some_bind; [|done].
  destruct mode; try done. destruct (shift <? 64); [done|]. by destruct (shift =? 64).
Qed.

Lemma convert_finite_total source sign_bits f control status : format_ok f -> 0 < source.(df_significand) -> fpcr_mode control.(rounding) = true ->
  is_Some (convert_finite_format source sign_bits f control status).
Proof.
  intros Hf Hs Hm. pose proof (fo_fraction f Hf). unfold convert_finite_format.
  assert (Ht : 0 <= top_bit (df_significand source)) by (unfold top_bit; rewrite (proj2 (Z.eqb_neq _ _)) by lia; apply Z.log2_nonneg).
  destruct (Z.leb_spec (1 - exponent_bias f) (df_scale source + top_bit (df_significand source))).
  - apply is_Some_bind; [|intros [s i] _; by apply pack_normal_total]. destruct (_ <? _); [by apply round_shift_total|done].
  - destruct (flush_to_zero control); [done|]. apply is_Some_bind; [|by intros [s i] _].
    destruct (Z.leb_spec 0 (df_scale source - (1 - exponent_bias f - fraction_bits f))); [|by apply round_shift_total].
    unfold shl_checked. rewrite (proj2 (Z.leb_le _ _)), (proj2 (Z.ltb_lt _ _)) by lia. done.
Qed.

Lemma convert_total source conversion fpcr :
  in_range (match conversion with SingleToDouble => 32 | DoubleToSingle => 64 end) source -> is_Some (exact_float_convert source conversion fpcr).
Proof.
  intros Hs. assert (Hgo : forall sf df s d, BinaryFormat_new sf = Some s -> BinaryFormat_new df = Some d -> in_range s.(total_bits) source ->
    is_Some (convert_ieee_format source sf df (from_fpcr fpcr))).
  { intros sf df s d Es Ed Hr. unfold convert_ieee_format. rewrite Es. cbn [mbind option_bind]. rewrite Ed. cbn [mbind option_bind].
    pose proof (format_ok_new _ _ Es) as Hfs. pose proof (format_ok_new _ _ Ed) as Hfd. pose proof (decoded_ok s Hfs source Hr) as Hx.
    destruct (is_nan _ s); [done|]. unfold flush_significand. destruct (_ && is_subnormal _) eqn:Hfl.
    - apply andb_true_iff in Hfl as [_ Hfl]. unfold is_subnormal in Hfl. apply andb_true_iff in Hfl as [He _]. unfold is_zero. cbn [df_exponent_field df_fraction].
      by rewrite He.
    - destruct (is_zero _) eqn:Hz; [done|]. destruct (is_infinite _ s); [done|].
      apply convert_finite_total; [done|by apply (significand_pos s Hfs)|apply from_fpcr_mode]. }
  destruct conversion; by eapply Hgo.
Qed.

Lemma float_to_integer_total source source_bits width signed mode fractional fpcr : precision_ok source_bits -> precision_ok width ->
  exists o, exact_float_to_integer source source_bits width signed mode fractional fpcr = Some o /\ o.(int_width) = width /\ in_range 64 o.(int_value).
Proof.
  intros Hp Hw. by_format Hp. unfold exact_float_to_integer. rewrite Efmt. cbn [mbind option_bind]. rewrite Enew. cbn [mbind option_bind].
  eexists. split; [reflexivity|]. assert (Hsat : forall n, in_range 64 (saturated_integer width signed n))
    by (intros n; unfold saturated_integer; destruct Hw as [-> | ->], signed, n; vm_compute; split; congruence).
  assert (Hwr : forall z, in_range 64 (wrap 64 z)) by (intros; apply wrap_range; lia). assert (H0 : in_range 64 0) by (vm_compute; split; congruence).
  unfold float_bits_to_integer. cbv zeta. destruct (_ =? exponent_max f); [cbn [int_width int_value]; split; [done|]; destruct (negb _); auto|]. destruct (_ && bit_set fpcr _); [done|].
  destruct (if _ =? 0 then _ else _) as [sg ue]. destruct (integer_magnitude _ _) as [[m d] r].
  match goal with |- context [if ?b then mkInteger (saturated_integer _ _ _) _ _ else _] => destruct b end; cbn [int_width int_value]; (split; [done|]); [auto|]. destruct (_ && _); auto.
Qed.

Section Vector.
Context (p : Z) (Hp : precision_ok p) (n fpcr : Z).

Lemma vector_add_total a b operation : is_Some (exact_vector_float_add a b p n operation fpcr).
Proof using Hp. apply vector_outcomes_total. intros s d _. apply scalar_add_total; [done|by apply float_lane_range..]. Qed.

Lemma vector_divide_total a b : is_Some (exact_vector_float_divide a b p n fpcr).
Proof using Hp.
  pose proof (fun v => float_mask_range v p Hp) as Hr. revert Hr. by_format Hp. intros Hr. unfold exact_vector_float_divide. rewrite Efmt. cbn [mbind option_bind].
  apply vector_outcomes_total. intros s d _. by apply (divide_lane_total f Hf).
Qed.

Lemma vector_multiply_total a b lane : is_Some (exact_vector_float_multiply a b p n lane fpcr).
Proof using Hp.
  pose proof (fun v => float_mask_range v p Hp) as Hr. revert Hr. by_format Hp. intros Hr. unfold exact_vector_float_multiply. rewrite Efmt. cbn [mbind option_bind].
  apply vector_outcomes_total. intros s d _. by apply (multiply_lane_total f Hf).
Qed.

Lemma vector_fused_total a b c lane subtract : is_Some (exact_vector_float_fused false a b c p n lane subtract fpcr).
Proof using Hp. apply vector_outcomes_total. intros s d _. apply scalar_fused_total; [done|by apply float_lane_range..]. Qed.

Lemma vector_to_integer_total a signed : is_Some (exact_vector_float_to_integer a p n signed fpcr).
Proof using Hp.
  apply vector_outcomes_total. intros s d _. destruct (float_to_integer_total (float_lane a s p) p p signed ToZero 0 fpcr Hp Hp) as (o & -> & _). done.
Qed.

Lemma vector_convert_long_total a upper : is_Some (exact_vector_float_convert_long a upper fpcr).
Proof using.
  apply vector_outcomes_total. intros s d _. apply convert_total. change (umax 32) with (float_mask 32). apply (float_mask_range _ 32). by left.
Qed.

Lemma vector_convert_narrow_total a : is_Some (exact_vector_float_convert_narrow a fpcr).
Proof using. apply vector_outcomes_total. intros s d _. apply convert_total. apply wrap_range. lia. Qed.
End Vector.
