(* ===== verification/FpSimdExec.v ===== *)
(** * FP/SIMD execution (crates/cpu/src/semantics/a64_fp_simd.rs)

    [execute]: one normalized instruction outside memory, on the register state.
    The scalar wrappers read the operands; [commit_fp] is the end of every
    floating-point arm of the source, which raises an enabled exception before
    anything is written.  The fused forms and the long shift take the profile of
    the build, with or without overflow checks. *)

From S2P Require Import Prelude CpuBits CpuArith CpuState CpuVector DecodeFpSimd DecodeAllocation DecodeFpOperands.
From S2P Require Import SimdInteger FpFloat FpConvert.

(** [if fields.opc == 0 { 32 } else { 64 }] *)
Definition float_bits (f : Operands) : Z := if f.(opc) =? 0 then 32 else 64.

(** [state.vector(register).expect(..) as u64 & mask] *)
Definition scalar_source (register bits : Z) : FS Z :=
  let! v := vec register in ret (Z.land (wrap 64 v) (float_mask bits)).

(** [(state.vector(register) >> (lane * bits)) as u64 & mask] *)
Definition element_source (register bits lane : Z) : FS Z :=
  let! v := vec register in ret (Z.land (wrap 64 (shr v (lane * bits))) (float_mask bits)).

Definition fpcr_now : FS Z := fun s => (Ok s.(fpcr), s).

(** A value primitive; [None] is its panic. *)
Definition outcome_of {A} (o : option A) : FS A := fun s => match o with Some a => (Ok a, s) | None => (Panic, s) end.

Definition accumulate_fpsr (bits : Z) : FS unit := fun s => (Ok tt, set_fpsr s (Z.lor s.(fpsr) bits)).

(** The trap check, the writes, and the cumulative status. *)
Definition commit_fp (status : FpStatus) (writes : FS unit) : FS unit :=
  let! control := fpcr_now in
  if fp_status_traps status control then throw Trap
  else do! writes in accumulate_fpsr (fp_status_bits status).

(** [u128::from(outcome.bits)] of a scalar result. *)
Definition commit_scalar (f : Operands) (o : FpOutcome) : FS unit := commit_fp o.(out_status) (put f.(rd) (wrap 64 o.(out_bits))).
Definition commit_vector (f : Operands) (o : FpOutcome) : FS unit := commit_fp o.(out_status) (put f.(rd) o.(out_bits)).

(** FPCR.IXE traps an inexact conversion. *)
Definition commit_inexact (f : Operands) (value : Z) (is_inexact : bool) : FS unit :=
  let! control := fpcr_now in
  if is_inexact && bit_set control (2 ^ 12) then throw Trap
  else do! put f.(rd) value in if is_inexact then accumulate_fpsr (2 ^ 4) else ret tt.

(** ** Integers to floating point *)

Definition vector_integer_to_float (f : Operands) (signed : bool) : FS (Z * bool) :=
  let! source := vec f.(rn) in
  let! control := fpcr_now in
  outcome_of (exact_vector_integer_to_float source (float_bits f) (vector_bits f) signed control).

Definition scalar_vector_integer_to_float (f : Operands) (signed : bool) : FS (Z * bool) :=
  let! source := vec f.(rn) in
  let! control := fpcr_now in
  outcome_of (exact_scalar_vector_integer_to_float (wrap 64 (Z.land source (float_mask (float_bits f)))) (float_bits f) signed control).

(** The destination format of the conversions between registers. *)
Definition conversion_bits (f : Operands) : FS Z := match f.(opc) with 0 => ret 32 | 1 => ret 64 | _ => panic end.

Definition scalar_integer_to_float (f : Operands) (signed : bool) : FS (Z * bool) :=
  let source_bits := if negb (Z.land f.(size) 2 =? 0) then 64 else 32 in
  let! destination_bits := conversion_bits f in
  let! source := read_general f.(rn) source_bits in
  let! control := fpcr_now in
  outcome_of (exact_scalar_integer_to_float source source_bits destination_bits signed control (default 0 f.(fixed_point_fraction_bits))).

(** ** Floating point to integers *)

Definition scalar_float_to_integer (f : Operands) (signed : bool) (rounding : FloatToIntegerRounding) : FS ExactIntegerOutcome :=
  let width := if negb (Z.land f.(size) 2 =? 0) then 64 else 32 in
  let! bits := conversion_bits f in
  let! source := scalar_source f.(rn) bits in
  let! control := fpcr_now in
  outcome_of (exact_float_to_integer source bits width signed rounding (default 0 f.(fixed_point_fraction_bits)) control).

Definition float_to_integer (f : Operands) (signed : bool) : FS unit :=
  let! rounding := expect f.(float_to_integer_rounding) in
  let! outcome := scalar_float_to_integer f signed rounding in
  commit_fp outcome.(int_status) (write_general f.(rd) outcome.(int_width) outcome.(int_value)).

Definition vector_float_to_integer (f : Operands) (signed : bool) : FS unit :=
  let! source := vec f.(rn) in
  let! control := fpcr_now in
  let! outcome := outcome_of (exact_vector_float_to_integer source (float_bits f) (vector_bits f) signed control) in
  commit_vector f outcome.

Definition scalar_vector_float_to_integer (f : Operands) (signed : bool) : FS unit :=
  let width := float_bits f in
  let! source := vec f.(rn) in
  let! control := fpcr_now in
  let! outcome := outcome_of (exact_float_to_integer (wrap 64 source) width width signed ToZero 0 control) in
  commit_fp outcome.(int_status)
    (put f.(rd) (if width =? 32 then wrap 32 outcome.(int_value) else outcome.(int_value))).

(** ** Arithmetic *)

Definition vector_float_add (f : Operands) : FS unit :=
  let! lhs := vec f.(rn) in
  let! rhs := vec f.(rm) in
  let! operation := expect f.(float_add_operation) in
  let! control := fpcr_now in
  let! outcome := outcome_of (exact_vector_float_add lhs rhs (float_bits f) (vector_bits f) operation control) in
  commit_fp outcome.(out_status) (put_unchecked f.(rd) outcome.(out_bits)).

Definition vector_float_divide (f : Operands) : FS FpOutcome :=
  let bits := if Z.land f.(opc) 1 =? 0 then 32 else 64 in
  let! lhs := vec f.(rn) in
  let! rhs := vec f.(rm) in
  let! control := fpcr_now in
  outcome_of (exact_vector_float_divide lhs rhs bits (vector_bits f) control).

Definition vector_float_multiply (f : Operands) (lane : option Z) : FS FpOutcome :=
  let! lhs := vec f.(rn) in
  let! rhs := vec f.(rm) in
  let! control := fpcr_now in
  outcome_of (exact_vector_float_multiply lhs rhs (float_bits f) (vector_bits f) lane control).

Definition vector_float_fused (overflow_checks : bool) (f : Operands) (lane : option Z) : FS unit :=
  let! lhs := vec f.(rn) in
  let! rhs := vec f.(rm) in
  let! accumulator := vec f.(rd) in
  let! control := fpcr_now in
  let! outcome := outcome_of (exact_vector_float_fused overflow_checks lhs rhs accumulator (float_bits f) (vector_bits f) lane
                                f.(subtract) control) in
  commit_vector f outcome.

Definition scalar_float_divide (f : Operands) : FS FpOutcome :=
  let bits := float_bits f in
  let! lhs := scalar_source f.(rn) bits in
  let! rhs := scalar_source f.(rm) bits in
  let! control := fpcr_now in
  outcome_of (exact_scalar_float_divide lhs rhs bits control).

Definition scalar_float_multiply (f : Operands) (operation : FloatMultiplyOperation) (lane : option Z) : FS FpOutcome :=
  let bits := float_bits f in
  let! lhs := scalar_source f.(rn) bits in
  let! rhs := element_source f.(rm) bits (default 0 lane) in
  let! control := fpcr_now in
  outcome_of (exact_scalar_float_multiply lhs rhs bits operation control).

Definition scalar_float_fused_multiply_add (overflow_checks : bool) (f : Operands) (operation : FloatFusedMultiplyOperation)
  (lane : option Z) : FS FpOutcome :=
  let bits := float_bits f in
  let! multiplicand := scalar_source f.(rn) bits in
  let! multiplier := element_source f.(rm) bits (default 0 lane) in
  let! addend := scalar_source f.(ra) bits in
  let! control := fpcr_now in
  outcome_of (exact_scalar_float_fused_multiply_add overflow_checks multiplicand multiplier addend bits operation control).

Definition scalar_float_square_root (f : Operands) : FS FpOutcome :=
  let bits := float_bits f in
  let! source := scalar_source f.(rn) bits in
  let! control := fpcr_now in
  outcome_of (exact_scalar_float_square_root source bits control).

Definition scalar_float_add (f : Operands) (operation : FloatAddOperation) : FS FpOutcome :=
  let bits := float_bits f in
  let! lhs := scalar_source f.(rn) bits in
  let! rhs := scalar_source f.(rm) bits in
  let! control := fpcr_now in
  outcome_of (exact_scalar_float_add lhs rhs bits operation control).

Definition scalar_float_min_max (f : Operands) (minimum number : bool) : FS unit :=
  let bits := float_bits f in
  let! lhs := scalar_source f.(rn) bits in
  let! rhs := scalar_source f.(rm) bits in
  let! control := fpcr_now in
  let! outcome := outcome_of (exact_scalar_float_min_max lhs rhs bits minimum number control) in
  commit_vector f outcome.

Definition scalar_float_round (f : Operands) (operation : FloatRoundOperation) : FS FpOutcome :=
  let bits := float_bits f in
  let! source := scalar_source f.(rn) bits in
  let! control := fpcr_now in
  outcome_of (exact_scalar_float_round source bits operation control).

(** ** Conversions between formats *)

Definition scalar_float_convert (f : Operands) (conversion : FloatConversion) : FS FpOutcome :=
  let! source := scalar_source f.(rn) (match conversion with SingleToDouble => 32 | DoubleToSingle => 64 end) in
  let! control := fpcr_now in
  outcome_of (exact_float_convert source conversion control).

Definition vector_float_convert_narrow (f : Operands) : FS unit :=
  let! source := vec f.(rn) in
  let! control := fpcr_now in
  let! outcome := outcome_of (exact_vector_float_convert_narrow source control) in
  commit_fp outcome.(out_status)
    (let! result := (if f.(vector_128)
                     then let! previous := vec f.(rd) in ret (Z.lor (Z.land previous (umax 64)) (shl 128 outcome.(out_bits) 64))
                     else ret outcome.(out_bits)) in
     put f.(rd) result).

Definition vector_float_convert_long (f : Operands) : FS unit :=
  let! source := vec f.(rn) in
  let! control := fpcr_now in
  let! outcome := outcome_of (exact_vector_float_convert_long source f.(vector_128) control) in
  commit_vector f outcome.

(** ** Comparison and selection *)

Definition condition_holds (f : Operands) : FS bool := fun s => (Ok (evaluate_a64 (Condition_from_encoding f.(condition)) s.(nzcv)), s).

Definition scalar_float_conditional_select (f : Operands) : FS unit :=
  let! holds := condition_holds f in
  let! v := vec (if holds then f.(rn) else f.(rm)) in
  put f.(rd) (Z.land v (if f.(opc) =? 0 then umax 32 else umax 64)).

Definition scalar_float_compare (f : Operands) (with_zero : bool) : FS ExactCompareOutcome :=
  let bits := float_bits f in
  let! lhs := scalar_source f.(rn) bits in
  let! rhs := if with_zero then ret 0 else scalar_source f.(rm) bits in
  let! control := fpcr_now in
  outcome_of (exact_scalar_float_compare lhs rhs bits f.(signaling_compare) control).

Definition set_flags (bits : Z) : FS unit := fun s => (Ok tt, set_nzcv s (StateNzcv.from_bits bits)).

Definition commit_compare (o : ExactCompareOutcome) : FS unit := commit_fp o.(cmp_status) (set_flags o.(cmp_nzcv)).

Definition scalar_float_conditional_compare (f : Operands) : FS unit :=
  let! holds := condition_holds f in
  if negb holds then set_flags (shl 32 f.(nzcv_immediate) 28)
  else let! outcome := scalar_float_compare f false in commit_compare outcome.

(** ** The dispatch *)

(** [.then_some(fields.fp_element_lane)] *)
Definition element (selected : bool) (f : Operands) : option Z := if selected then Some f.(fp_element_lane) else None.

Definition execute (overflow_checks : bool) (v : Variant) (f : Operands) : FS unit :=
  match v with
  | DuplicateGeneral => duplicate_general f
  | DuplicateElement => duplicate_element f false
  | DuplicateScalarElement => duplicate_element f true
  | ModifiedImmediate => modified_immediate f
  | UnsignedMoveToGeneral => unsigned_move_to_general f
  | InsertElement => insert_element f
  | InsertGeneral => insert_general f
  | MoveToGeneral => floating_move_to_general f
  | MoveFromGeneral => floating_move_from_general f
  | ScalarMove => scalar_move f
  | ScalarAbsolute => scalar_sign_operation f false
  | ScalarNegate => scalar_sign_operation f true
  | Integer => integer_arithmetic f false
  | IntegerMultiply => integer_arithmetic f true
  | IntegerSign => integer_sign f false
  | ScalarIntegerSign => integer_sign f true
  | IntegerWideAdd => integer_add_wide f
  | Bitwise => let! operation := expect f.(bitwise_operation_of) in bitwise f operation
  | IntegerCompare => let! comparison := expect f.(integer_comparison_of) in integer_compare f comparison false
  | ScalarIntegerCompare => let! comparison := expect f.(integer_comparison_of) in integer_compare f comparison true
  | IntegerPairwise => let! operation := expect f.(pairwise_operation_of) in integer_pairwise f operation
  | IntegerMinMaxAcross => integer_min_max_across f
  | IntegerMinMax => let! operation := expect f.(pairwise_operation_of) in integer_min_max f operation
  | TableLookup => table_lookup f false
  | TableLookupExtension => table_lookup f true
  | PermuteTwoSource => let! operation := expect f.(permute_operation_of) in permute_two_source f operation
  | Extract => extract_vector f
  | ShiftRightNarrow => shift_right_narrow f
  | ScalarShiftRightImmediate => shift_right_immediate f true
  | VectorShiftRightImmediate => shift_right_immediate f false
  | ScalarShiftLeftImmediate => shift_left_immediate f true
  | VectorShiftLeftImmediate => shift_left_immediate f false
  | ShiftLeftLong => shift_left_long overflow_checks f
  | VectorSignedShiftRegister => shift_register f true
  | VectorUnsignedShiftRegister => shift_register f false
  | Reverse64 => reverse_elements f 8
  | Reverse32 => reverse_elements f 4
  | CountBits => count_bits f
  | AddAcrossVector => add_across_vector f false
  | UnsignedAddLongAcrossVector => add_across_vector f true
  | ExtractNarrow => extract_narrow f
  | VectorSignedIntToFloat | VectorUnsignedIntToFloat =>
      let! r := vector_integer_to_float f (match v with VectorSignedIntToFloat => true | _ => false end) in
      commit_inexact f r.1 r.2
  | ScalarVectorSignedIntToFloat | ScalarVectorUnsignedIntToFloat =>
      let! r := scalar_vector_integer_to_float f (match v with ScalarVectorSignedIntToFloat => true | _ => false end) in
      commit_inexact f r.1 r.2
  | SignedIntToFloat | UnsignedIntToFloat =>
      let! r := scalar_integer_to_float f (match v with SignedIntToFloat => true | _ => false end) in
      commit_inexact f r.1 r.2
  | VectorFloatToSignedInt => vector_float_to_integer f true
  | VectorFloatToUnsignedInt => vector_float_to_integer f false
  | ScalarVectorFloatToSignedInt => scalar_vector_float_to_integer f true
  | ScalarVectorFloatToUnsignedInt => scalar_vector_float_to_integer f false
  | FloatToSignedInt => float_to_integer f true
  | FloatToUnsignedInt => float_to_integer f false
  | VectorFloatAdd => vector_float_add f
  | VectorFloatDivide => let! o := vector_float_divide f in commit_vector f o
  | VectorFloatMultiply => let! o := vector_float_multiply f (element false f) in commit_vector f o
  | VectorFloatMultiplyElement => let! o := vector_float_multiply f (element true f) in commit_vector f o
  | VectorFloatFused => vector_float_fused overflow_checks f (element false f)
  | VectorFloatFusedElement => vector_float_fused overflow_checks f (element true f)
  | VectorFloatImmediate => vector_float_immediate f
  | VectorFloatAbsolute => vector_float_sign_operation f false
  | VectorFloatNegate => vector_float_sign_operation f true
  | ScalarFloatImmediate => scalar_float_immediate f
  | VectorFloatConvertNarrow => vector_float_convert_narrow f
  | VectorFloatConvertLong => vector_float_convert_long f
  | ScalarFloatConvert =>
      let! conversion := expect f.(float_conversion) in
      let! o := scalar_float_convert f conversion in commit_scalar f o
  | ScalarFloatDivide => let! o := scalar_float_divide f in commit_scalar f o
  | ScalarFloatRound =>
      let! operation := expect f.(float_round_operation) in
      let! o := scalar_float_round f operation in commit_scalar f o
  | ScalarFloatMaxNumber => scalar_float_min_max f false true
  | ScalarFloatMinNumber => scalar_float_min_max f true true
  | ScalarFloatMax => scalar_float_min_max f false false
  | ScalarFloatMin => scalar_float_min_max f true false
  | ScalarFloatAdd =>
      let! operation := expect f.(float_add_operation) in
      let! o := scalar_float_add f operation in commit_scalar f o
  | ScalarFloatMultiply =>
      let! operation := expect f.(float_multiply_operation) in
      let! o := scalar_float_multiply f operation (element false f) in commit_scalar f o
  | ScalarFloatMultiplyElement =>
      let! operation := expect f.(float_multiply_operation) in
      let! o := scalar_float_multiply f operation (element true f) in commit_scalar f o
  | ScalarFloatFusedMultiplyAdd =>
      let! operation := expect f.(float_fused_multiply_operation) in
      let! o := scalar_float_fused_multiply_add overflow_checks f operation (element false f) in commit_scalar f o
  | ScalarFloatFusedElement =>
      let! operation := expect f.(float_fused_multiply_operation) in
      let! o := scalar_float_fused_multiply_add overflow_checks f operation (element true f) in commit_scalar f o
  | ScalarFloatSquareRoot => let! o := scalar_float_square_root f in commit_scalar f o
  | ScalarFloatConditionalSelect => scalar_float_conditional_select f
  | ConditionalCompare => scalar_float_conditional_compare f
  | CompareRegister => let! o := scalar_float_compare f false in commit_compare o
  | CompareZero => let! o := scalar_float_compare f true in commit_compare o
  | MemoryPair | MemoryUnsigned | MemoryUnscaled | MemoryPostIndex | MemoryPreIndex | MemoryRegister
  | MemoryMultipleStructures | MemoryMultipleStructuresPostIndex | MemorySingleStructure | MemorySingleStructurePostIndex =>
      throw UnsupportedFpSimd
  end.
