(* ===== verification/FpSimdExecSpec.v ===== *)
(** * FP/SIMD instructions complete or trap

    Every shape of operands that allocated words have runs to completion, writes
    only the destination, the flags and the cumulative status, or raises an
    enabled floating-point exception with nothing written. *)

From S2P Require Import Prelude CpuBits CpuArith CpuState CpuVector DecodeFpSimd DecodeAllocation DecodeFpOperands.
From S2P Require Import SimdInteger SimdSpec FpFloat FpConvert FpTotal FpSimdExec.

Definition present {A} (o : option A) : bool := if o then true else false.

(** What the operands of an allocated word of each variant satisfy. *)
Definition variant_shape (v : Variant) (f : Operands) : bool :=
  match v with
  | DuplicateGeneral => duplicate_shape f
  | DuplicateElement | DuplicateScalarElement | UnsignedMoveToGeneral | InsertElement | InsertGeneral => element_shape f
  | ModifiedImmediate => immediate_shape f
  | MoveToGeneral | MoveFromGeneral => general_move_shape f
  | ScalarMove | ScalarAbsolute | ScalarNegate | ScalarFloatImmediate => scalar_shape f
  | IntegerWideAdd | AddAcrossVector | UnsignedAddLongAcrossVector => narrow_shape f
  | Bitwise => present f.(bitwise_operation_of)
  | IntegerCompare | ScalarIntegerCompare => present f.(integer_comparison_of)
  | IntegerPairwise | IntegerMinMaxAcross => present f.(pairwise_operation_of)
  | IntegerMinMax => match f.(pairwise_operation_of) with None | Some PAdd => false | _ => true end
  | PermuteTwoSource => present f.(permute_operation_of)
  | ShiftRightNarrow | ShiftLeftLong
  | ScalarShiftRightImmediate | VectorShiftRightImmediate | ScalarShiftLeftImmediate | VectorShiftLeftImmediate => shift_shape 128 f
  | Reverse64 => f.(opc) <=? 3
  | Reverse32 => f.(opc) <=? 2
  | SignedIntToFloat | UnsignedIntToFloat => one_of f.(opc) [0; 1]
  | FloatToSignedInt | FloatToUnsignedInt => one_of f.(opc) [0; 1] && present f.(float_to_integer_rounding)
  | ScalarFloatConvert => present f.(float_conversion)
  | ScalarFloatRound => present f.(float_round_operation)
  | ScalarFloatAdd | VectorFloatAdd => present f.(float_add_operation)
  | ScalarFloatMultiply | ScalarFloatMultiplyElement => present f.(float_multiply_operation)
  | ScalarFloatFusedMultiplyAdd | ScalarFloatFusedElement => present f.(float_fused_multiply_operation)
  | MemoryPair => negb (f.(size) =? 3)
  | MemoryUnsigned | MemoryUnscaled | MemoryPostIndex | MemoryPreIndex | MemoryRegister => (Z.land f.(opc) 2 =? 0) || (f.(size) =? 0)
  | _ => true
  end.

(** The forms that belong to the memory interpreter. *)
Definition is_memory (v : Variant) : bool :=
  match v with
  | MemoryPair | MemoryUnsigned | MemoryUnscaled | MemoryPostIndex | MemoryPreIndex | MemoryRegister
  | MemoryMultipleStructures | MemoryMultipleStructuresPostIndex | MemorySingleStructure | MemorySingleStructurePostIndex => true
  | _ => false
  end.

(** What an instruction leaves alone. *)
Definition fp_frame (s s' : A64State) : Prop :=
  state_ok s' /\ s'.(pc) = s.(pc) /\ s'.(sp) = s.(sp) /\ s'.(fpcr) = s.(fpcr) /\
  s'.(tpidr_el0) = s.(tpidr_el0) /\ s'.(tpidrro_el0) = s.(tpidrro_el0).

Definition trapped (s : A64State) (e : A64FpSimdError) (s' : A64State) : Prop := e = Trap /\ s' = s.

Notation completes op s := (wp op (fun _ s' => fp_frame s s') (trapped s) s).

Lemma fp_frame_refl s : state_ok s -> fp_frame s s.
Proof. done. Qed.

Lemma frame_vset s i v : state_ok s -> fp_frame s (vset s i v).
Proof. intros Hs. split; [by apply vset_ok|]. unfold vset, set_vector. by destruct (_ !! _). Qed.

Lemma frame_trans s s' s'' : fp_frame s s' -> fp_frame s' s'' -> fp_frame s s''.
Proof. intros (_ & ? & ? & ? & ? & ?) (? & ? & ? & ? & ? & ?). split; [done|]. repeat split; congruence. Qed.

Lemma fp_frame_write s i width v : state_ok s -> in_range 64 v -> fp_frame s (write s i width false v).
Proof.
  intros Hs Hv. split; [by apply write_ok|]. unfold write, select_register, zero_register, write_x, write_w. 
  destruct (width =? 64), (A64GeneralRegister_new i); done.
Qed.

Lemma status_bits_range status : in_range 32 (fp_status_bits status).
Proof. destruct status as [[] [] [] [] [] []]; vm_compute; split; congruence. Qed.

Lemma frame_fpsr s bits : state_ok s -> in_range 32 bits -> fp_frame s (set_fpsr s (Z.lor s.(fpsr) bits)).
Proof.
  intros Hs Hb. split; [|done]. destruct Hs. split; cbn; try done. by apply in_range_lor.
Qed.

Lemma frame_flags s bits : state_ok s -> fp_frame s (set_nzcv s (StateNzcv.from_bits bits)).
Proof. intros Hs. split; [by apply set_nzcv_ok|done]. Qed.

(** ** Weakest preconditions of the steps *)

Lemma completes_vector (op : FS unit) f s : state_ok s -> writes_vector op f s -> completes op s.
Proof. intros Hs Hw. eapply wp_mono; [exact Hw|intros [] s' [v ->]; by apply frame_vset|done]. Qed.

Lemma completes_general (op : FS unit) f s : state_ok s -> writes_general op f s -> completes op s.
Proof. intros Hs Hw. eapply wp_mono; [exact Hw|intros [] s' (w & v & Hv & ->); by apply fp_frame_write|done]. Qed.

Section Steps.
Context (s : A64State) (Hs : state_ok s).

Lemma wp_scalar_source {B} r p (k : Z -> FS B) (Q : B -> A64State -> Prop) R : 0 <= r < 32 -> precision_ok p ->
  (forall a, in_range p a -> wp (k a) Q R s) -> wp (let! a := scalar_source r p in k a) Q R s.
Proof using Hs.
  intros Hr Hp Hk. apply wp_bind. unfold scalar_source. apply wp_vec; [done..|]. intros _. apply wp_ret, Hk. by apply float_mask_range.
Qed.

Lemma wp_element_source {B} r p lane (k : Z -> FS B) (Q : B -> A64State -> Prop) R : 0 <= r < 32 -> precision_ok p ->
  (forall a, in_range p a -> wp (k a) Q R s) -> wp (let! a := element_source r p lane in k a) Q R s.
Proof using Hs.
  intros Hr Hp Hk. apply wp_bind. unfold element_source. apply wp_vec; [done..|]. intros _. apply wp_ret, Hk. by apply float_mask_range.
Qed.

Lemma wp_fpcr {B} (k : Z -> FS B) (Q : B -> A64State -> Prop) R : wp (k s.(fpcr)) Q R s -> wp (let! c := fpcr_now in k c) Q R s.
Proof using. intros Hk. by apply wp_bind. Qed.

Lemma wp_outcome {A B} (o : option A) (k : A -> FS B) (Q : B -> A64State -> Prop) R : is_Some o ->
  (forall a, wp (k a) Q R s) -> wp (let! a := outcome_of o in k a) Q R s.
Proof using. intros [a ->] Hk. apply wp_bind. exact (Hk a). Qed.

Lemma wp_outcome_last {A} (o : option A) (Q : A -> A64State -> Prop) (R : A64FpSimdError -> A64State -> Prop) : is_Some o ->
  (forall a, Q a s) -> wp (outcome_of o) Q R s.
Proof using. intros [a ->] Hk. exact (Hk a). Qed.

Lemma wp_present {A B} (o : option A) (k : A -> FS B) (Q : B -> A64State -> Prop) R : present o = true ->
  (forall a, o = Some a -> wp (k a) Q R s) -> wp (let! a := expect o in k a) Q R s.
Proof using. destruct o as [a|]; [|done]. intros _ Hk. apply wp_bind. exact (Hk a eq_refl). Qed.

Lemma wp_commit status (writes : FS unit) : wp writes (fun _ s' => fp_frame s s') (trapped s) s -> completes (commit_fp status writes) s.
Proof using Hs.
  intros Hw. unfold commit_fp. apply wp_fpcr. destruct (fp_status_traps _ _); [by apply wp_throw|]. apply wp_bind. eapply wp_mono; [exact Hw| |done].
  intros [] s' Hfr. unfold wp, accumulate_fpsr. eapply frame_trans; [exact Hfr|]. apply frame_fpsr; [apply Hfr|apply status_bits_range].
Qed.

Lemma completes_put i v : 0 <= i < 32 -> completes (put i v) s.
Proof using Hs. intros Hi. apply wp_put; [done..|]. by apply frame_vset. Qed.

Lemma completes_inexact f v b : operands_ok f -> completes (commit_inexact f v b) s.
Proof using Hs.
  intros Hf. unfold commit_inexact. apply wp_fpcr. destruct (b && _); [by apply wp_throw|]. apply wp_bind. apply wp_put; [done|apply (fr_rd f Hf)|].
  destruct b; [|by apply wp_ret, frame_vset]. unfold wp, accumulate_fpsr. eapply frame_trans; [by apply frame_vset|].
  apply frame_fpsr; [by apply vset_ok|vm_compute; split; congruence].
Qed.
End Steps.

Lemma float_bits_ok f : precision_ok (float_bits f).
Proof. unfold float_bits. destruct (_ =? 0); [by left|by right]. Qed.

Lemma conversion_bits_ok f : one_of f.(opc) [0; 1] = true -> exists p, conversion_bits f = ret p /\ precision_ok p.
Proof.
  unfold one_of, conversion_bits. cbn [existsb]. rewrite !orb_true_iff, !Z.eqb_eq. intros [->|[->|]]; [exists 32|exists 64|done]; (split; [done|]); [by left|by right].
Qed.

(** ** Every arm *)

Section Execute.
Context (f : Operands) (Hf : operands_ok f) (s : A64State) (Hs : state_ok s).

Let Hrd := fr_rd f Hf.
Let Hrn := fr_rn f Hf.
Let Hrm := fr_rm f Hf.
Let Hra := fr_ra f Hf.

Lemma completes_scalar o : completes (commit_scalar f o) s.
Proof using Hf Hs. apply wp_commit; [done|]. by apply completes_put. Qed.

Lemma completes_wide o : completes (commit_vector f o) s.
Proof using Hf Hs. apply wp_commit; [done|]. by apply completes_put. Qed.

(** Run the reads of an arm, with its value primitive total. *)
Ltac fp_step :=
  cbv zeta;
  match goal with
  | |- wp (bind (scalar_source _ _) _) _ _ _ => apply wp_scalar_source; [assumption|assumption|first [assumption|apply float_bits_ok]|intros ? ?]
  | |- wp (bind (element_source _ _ _) _) _ _ _ => apply wp_element_source; [assumption|assumption|first [assumption|apply float_bits_ok]|intros ? ?]
  | |- wp (bind (vec _) _) _ _ _ => apply wp_vec; [assumption|assumption|intros ?]
  | |- wp (bind fpcr_now _) _ _ _ => apply wp_fpcr
  | |- wp (bind (outcome_of _) _) _ _ _ => apply wp_outcome; [|intros ?]
  | |- wp (outcome_of _) _ _ _ => apply wp_outcome_last; [|intros ?]
  | |- wp (bind (ret _) _) _ _ _ => apply wp_bind, wp_ret
  | |- wp (bind ?op _) _ _ _ => apply wp_bind
  end.

Lemma arm_scalar (op : FS FpOutcome) : wp op (fun _ s' => s' = s) (trapped s) s -> completes (let! o := op in commit_scalar f o) s.
Proof using Hf Hs. intros Hw. apply wp_bind. eapply wp_mono; [exact Hw| |done]. intros o s' ->. apply completes_scalar. Qed.

Lemma arm_vector (op : FS FpOutcome) : wp op (fun _ s' => s' = s) (trapped s) s -> completes (let! o := op in commit_vector f o) s.
Proof using Hf Hs. intros Hw. apply wp_bind. eapply wp_mono; [exact Hw| |done]. intros o s' ->. apply completes_wide. Qed.

Lemma arm_inexact (op : FS (Z * bool)) : wp op (fun _ s' => s' = s) (trapped s) s -> completes (let! r := op in commit_inexact f r.1 r.2) s.
Proof using Hf Hs. intros Hw. apply wp_bind. eapply wp_mono; [exact Hw| |done]. intros o s' ->. by apply completes_inexact. Qed.

Lemma arm_compare (op : FS ExactCompareOutcome) : wp op (fun _ s' => s' = s) (trapped s) s -> completes (let! o := op in commit_compare o) s.
Proof using Hs. intros Hw. apply wp_bind. eapply wp_mono; [exact Hw| |done]. intros o s' ->. apply wp_commit; [done|]. by apply frame_flags. Qed.

Lemma divide_arm : wp (scalar_float_divide f) (fun _ s' => s' = s) (trapped s) s.
Proof using Hf Hs. unfold scalar_float_divide. repeat fp_step; [|done]. apply scalar_divide_total; [apply float_bits_ok|done..]. Qed.

Lemma add_arm operation : wp (scalar_float_add f operation) (fun _ s' => s' = s) (trapped s) s.
Proof using Hf Hs. unfold scalar_float_add. repeat fp_step; [|done]. apply scalar_add_total; [apply float_bits_ok|done..]. Qed.

Lemma multiply_arm operation lane : wp (scalar_float_multiply f operation lane) (fun _ s' => s' = s) (trapped s) s.
Proof using Hf Hs. unfold scalar_float_multiply. repeat fp_step; [|done]. apply scalar_multiply_total; [apply float_bits_ok|done..]. Qed.

Lemma fused_arm operation lane : wp (scalar_float_fused_multiply_add false f operation lane) (fun _ s' => s' = s) (trapped s) s.
Proof using Hf Hs. unfold scalar_float_fused_multiply_add. repeat fp_step; [|done]. apply scalar_fused_total; [apply float_bits_ok|done..]. Qed.

Lemma square_root_arm : wp (scalar_float_square_root f) (fun _ s' => s' = s) (trapped s) s.
Proof using Hf Hs. unfold scalar_float_square_root. repeat fp_step; [|done]. apply scalar_square_root_total; [apply float_bits_ok|done..]. Qed.

Lemma round_arm operation : wp (scalar_float_round f operation) (fun _ s' => s' = s) (trapped s) s.
Proof using Hf Hs. unfold scalar_float_round. repeat fp_step; [|done]. apply scalar_round_total; [apply float_bits_ok|done..]. Qed.

Lemma convert_arm conversion : wp (scalar_float_convert f conversion) (fun _ s' => s' = s) (trapped s) s.
Proof using Hf Hs.
  unfold scalar_float_convert. apply wp_scalar_source; [done|done|destruct conversion; [by left|by right]|]. intros a Ha. repeat fp_step; [|done]. by apply convert_total.
Qed.

Lemma compare_arm with_zero : wp (scalar_float_compare f with_zero) (fun _ s' => s' = s) (trapped s) s.
Proof using Hf Hs. unfold scalar_float_compare. fp_step. destruct with_zero; repeat fp_step; try done; apply scalar_compare_total, float_bits_ok. Qed.

Lemma vector_divide_arm : wp (vector_float_divide f) (fun _ s' => s' = s) (trapped s) s.
Proof using Hf Hs. unfold vector_float_divide. repeat fp_step; [|done]. apply vector_divide_total. destruct (_ =? 0); [by left|by right]. Qed.

Lemma vector_multiply_arm lane : wp (vector_float_multiply f lane) (fun _ s' => s' = s) (trapped s) s.
Proof using Hf Hs. unfold vector_float_multiply. repeat fp_step; [|done]. apply vector_multiply_total, float_bits_ok. Qed.

Lemma vector_fused_arm lane : completes (vector_float_fused false f lane) s.
Proof using Hf Hs. unfold vector_float_fused. repeat fp_step; [apply vector_fused_total, float_bits_ok|]. apply completes_wide. Qed.

Lemma vector_add_arm : present f.(float_add_operation) = true -> completes (vector_float_add f) s.
Proof using Hf Hs.
  intros Hp. unfold vector_float_add. do 2 fp_step. apply wp_present; [done|]. intros operation _. repeat fp_step; [apply vector_add_total, float_bits_ok|].
  apply wp_commit; [done|]. by apply frame_vset.
Qed.

Lemma min_max_arm minimum number : completes (scalar_float_min_max f minimum number) s.
Proof using Hf Hs. unfold scalar_float_min_max. repeat fp_step; [apply scalar_min_max_total, float_bits_ok|]. apply completes_wide. Qed.

Lemma vector_to_integer_arm signed : completes (vector_float_to_integer f signed) s.
Proof using Hf Hs. unfold vector_float_to_integer. repeat fp_step; [apply vector_to_integer_total, float_bits_ok|]. apply completes_wide. Qed.

Lemma lane_to_integer_arm signed : completes (scalar_vector_float_to_integer f signed) s.
Proof using Hf Hs.
  unfold scalar_vector_float_to_integer. repeat fp_step.
  - destruct (float_to_integer_total (wrap 64 (vreg s (rn f))) (float_bits f) (float_bits f) signed ToZero 0 (fpcr s) (float_bits_ok f) (float_bits_ok f)) as (o & -> & _). by eexists.
  - apply wp_commit; [done|]. by apply completes_put.
Qed.

Lemma to_integer_arm signed : one_of f.(opc) [0; 1] && present f.(float_to_integer_rounding) = true -> completes (float_to_integer f signed) s.
Proof using Hf Hs.
  intros Hsh. apply andb_true_iff in Hsh as [Ho Hp]. destruct (conversion_bits_ok f Ho) as (p & Hb & Hpo). unfold float_to_integer. apply wp_present; [done|].
  intros rounding _. unfold scalar_float_to_integer. rewrite Hb. fp_step. fp_step. apply wp_scalar_source; [done..|]. intros a _. fp_step.
  set (width := if negb _ then 64 else 32). assert (Hw : precision_ok width) by (unfold width; destruct (negb _); [by right|by left]).
  destruct (float_to_integer_total a p width signed rounding (default 0 (fixed_point_fraction_bits f)) (fpcr s) Hpo Hw) as (o & -> & _ & Hv).
  apply wp_commit; [done|]. by apply fp_frame_write.
Qed.

Lemma from_integer_arm signed : one_of f.(opc) [0; 1] = true -> wp (scalar_integer_to_float f signed) (fun _ s' => s' = s) (trapped s) s.
Proof using Hs.
  intros Ho. destruct (conversion_bits_ok f Ho) as (p & Hb & _). unfold scalar_integer_to_float. rewrite Hb. fp_step. cbv zeta. apply wp_read_general.
  repeat fp_step; [apply scalar_integer_to_float_total|done].
Qed.

Lemma vector_from_integer_arm signed : wp (vector_integer_to_float f signed) (fun _ s' => s' = s) (trapped s) s.
Proof using Hf Hs. unfold vector_integer_to_float. repeat fp_step; [apply vector_integer_to_float_total|done]. Qed.

Lemma lane_from_integer_arm signed : wp (scalar_vector_integer_to_float f signed) (fun _ s' => s' = s) (trapped s) s.
Proof using Hf Hs. unfold scalar_vector_integer_to_float. repeat fp_step; [apply lane_integer_to_float_total|done]. Qed.

Lemma narrow_arm : completes (vector_float_convert_narrow f) s.
Proof using Hf Hs.
  unfold vector_float_convert_narrow. repeat fp_step; [apply vector_convert_narrow_total|]. apply wp_commit; [done|].
  destruct (vector_128 f); repeat fp_step; by apply completes_put.
Qed.

Lemma long_arm : completes (vector_float_convert_long f) s.
Proof using Hf Hs. unfold vector_float_convert_long. repeat fp_step; [apply vector_convert_long_total|]. apply completes_wide. Qed.

Lemma select_arm : completes (scalar_float_conditional_select f) s.
Proof using Hf Hs.
  unfold scalar_float_conditional_select. apply wp_bind. unfold wp at 1, condition_holds. apply wp_vec; [done|by destruct (evaluate_a64 _ _)|]. intros _. by apply completes_put.
Qed.

Lemma conditional_compare_arm : completes (scalar_float_conditional_compare f) s.
Proof using Hf Hs.
  unfold scalar_float_conditional_compare. apply wp_bind. unfold wp at 1, condition_holds. destruct (negb _); [by apply frame_flags|]. apply arm_compare, compare_arm.
Qed.

Lemma reverse_arm container : f.(opc) <=? container = true -> 0 <= container -> completes (reverse_elements f (Z.shiftl 1 container)) s.
Proof using Hf Hs.
  intros Ho Hc. apply Z.leb_le in Ho. apply (completes_vector _ f); [done|]. apply reverse_elements_ok; [done..|]. pose proof (fr_opc f Hf).
  rewrite !Z.shiftl_mul_pow2, !Z.mul_1_l by lia. apply Z.pow_le_mono_r; lia.
Qed.

Lemma min_max_operation_arm : match f.(pairwise_operation_of) with None | Some PAdd => false | _ => true end = true ->
  completes (let! operation := expect f.(pairwise_operation_of) in integer_min_max f operation) s.
Proof using Hf Hs.
  intros Ho. destruct (pairwise_operation_of f) as [op|]; [|done]. apply wp_bind. apply (completes_vector _ f); [done|].
  apply integer_min_max_ok; [done..|]. by destruct op.
Qed.

#[local] Hint Resolve duplicate_shape_ok duplicate_element_ok modified_immediate_ok insert_element_ok insert_general_ok move_from_general_ok
  scalar_move_ok scalar_sign_ok integer_arithmetic_ok integer_sign_ok integer_add_wide_ok table_lookup_ok extract_vector_ok shift_right_narrow_ok
  shift_right_immediate_ok shift_left_immediate_ok shift_left_long_ok shift_register_ok count_bits_ok add_across_ok extract_narrow_ok
  vector_float_immediate_ok vector_float_sign_ok scalar_float_immediate_ok bitwise_ok integer_compare_ok integer_pairwise_ok permute_ok : simd.

Theorem execute_completes v : variant_shape v f = true -> is_memory v = false -> completes (execute false v f) s.
Proof using Hf Hs.
  intros Hsh Hm. destruct v; try discriminate Hm; cbn [variant_shape] in Hsh; cbn [execute element];
    try (apply (completes_vector _ f); [done|solve [auto with simd]]);
    try (apply wp_present; [done|intros ? _]; apply (completes_vector _ f); [done|solve [auto with simd]]);
    try (apply arm_inexact; auto using vector_from_integer_arm, lane_from_integer_arm, from_integer_arm; fail);
    try (apply wp_present; [done|intros ? _]; apply arm_scalar; auto using convert_arm, round_arm, add_arm, multiply_arm, fused_arm; fail).
  - apply arm_compare, compare_arm.
  - apply arm_compare, compare_arm.
  - apply conditional_compare_arm.
  - apply (completes_general _ f); [done|]. by apply unsigned_move_ok.
  - by apply to_integer_arm.
  - apply vector_to_integer_arm.
  - apply vector_to_integer_arm.
  - apply lane_to_integer_arm.
  - apply lane_to_integer_arm.
  - by apply to_integer_arm.
  - apply (completes_general _ f); [done|]. by apply move_to_general_ok.
  - by apply min_max_operation_arm.
  - apply (completes_vector _ f); [done|]. apply integer_min_max_across_ok; [done..|]. by destruct (pairwise_operation_of f).
  - by apply (reverse_arm 3).
  - by apply (reverse_arm 2).
  - apply arm_vector, vector_divide_arm.
  - apply arm_vector, vector_multiply_arm.
  - apply arm_vector, vector_multiply_arm.
  - apply vector_fused_arm.
  - apply vector_fused_arm.
  - by apply vector_add_arm.
  - apply long_arm.
  - apply narrow_arm.
  - apply arm_scalar, divide_arm.
  - apply min_max_arm.
  - apply min_max_arm.
  - apply min_max_arm.
  - apply min_max_arm.
  - apply arm_scalar, square_root_arm.
  - apply select_arm.
Qed.
End Execute.
