(* ===== verification/FpSimdShape.v ===== *)
(** * Allocated FP/SIMD words have executable operands

    The catalog entry a word matches and the allocation rules together guarantee
    the shape of operands that [FpSimdExecSpec] asks for. *)

From S2P Require Import Prelude CpuArith DecodeTable DecodeFpSimd DecodeAllocation DecodeFpOperands DecodeA64.
From S2P Require Import SimdSpec FpSimdExecSpec.

(** ** What the fixed bits of an entry say about the precision field *)

Definition precision_choices (id : Z) : list Z :=
  if one_of id [0x35; 0x89; 0x8d; 0x8e; 0x8f; 0x90; 0x6d; 0x6e] then [0; 1; 3]
  else if one_of id [0x3a; 0xc9; 0x3b; 0xca; 0x3c; 0x7d; 0x7f; 0x81; 0x83; 0x9e; 0x3d; 0x7e; 0x80; 0x82; 0x84; 0x9f] then [0; 1]
  else [0; 1; 2; 3].

(** A value of the two-bit field at 22 is one the entry's fixed bits admit. *)
Definition admits (p : InstructionPattern) (o : Z) : bool :=
  Z.land (Z.shiftl o 22) p.(p_mask) =? Z.land p.(p_value) (Z.shiftl 3 22).

Definition precision_checked (p : InstructionPattern) : bool :=
  forallb (fun o => implb (admits p o) (one_of o (precision_choices p.(p_coverage_id)))) [0; 1; 2; 3].

Lemma catalog_precision : forallb precision_checked patterns = true.
Proof. vm_compute. reflexivity. Qed.

Lemma matched_precision p bits : p ∈ patterns -> matches bits p = true -> one_of (field bits 22 3) (precision_choices p.(p_coverage_id)) = true.
Proof.
  intros Hp Hm. pose proof catalog_precision as Hall. rewrite forallb_forall in Hall. specialize (Hall p ltac:(by apply list_elem_of_In)).
  unfold precision_checked in Hall. rewrite forallb_forall in Hall. pose proof (field_3 bits 22) as Hf.
  assert (Hin : List.In (field bits 22 3) [0; 1; 2; 3]) by (cbn; lia). specialize (Hall _ Hin).
  assert (Ha : admits p (field bits 22 3) = true).
  { unfold admits, matches in *. apply Z.eqb_eq in Hm. apply Z.eqb_eq. rewrite <- Hm. apply Z.bits_inj'. intros k Hk. unfold field, shr.
    rewrite !Z.land_spec. destruct (Z_lt_le_dec k 22) as [Hlt|Hge]; [rewrite !Z.shiftl_spec_low by lia; by rewrite andb_false_r|].
    rewrite !Z.shiftl_spec by lia. rewrite Z.land_spec, Z.shiftr_spec by lia. replace (k - 22 + 22) with k by lia.
    destruct (Z.testbit bits k), (Z.testbit 3 (k - 22)), (Z.testbit (p_mask p) k); done. }
  by rewrite Ha in Hall.
Qed.

(** ** The allocation rules, identity by identity *)

(** DUP (general) of a 128-bit element into a 64-bit vector: a reserved encoding
    that the allocation rule of identity 0x48 lets through. *)
Definition reserved_duplicate (id bits : Z) : bool := (id =? 0x48) && ((field bits 16 0x1f =? 16) && negb (flag bits 30)).

Lemma normalize_inv id bits v f : DecodeFpOperands.normalize id bits = Ok (v, f) ->
  normalize_variant id = Ok v /\ DecodeFpOperands.normalize_operands id bits = Ok f.
Proof.
  unfold DecodeFpOperands.normalize. destruct (DecodeFpOperands.normalize_operands id bits) as [g|[]|]; [|done]. cbn [result_bind].
  destruct (normalize_variant id) as [w|[]|]; [|done]. by intros [= <- <-].
Qed.

Lemma shift_field bits : field bits 19 15 <> 0 -> 8 <= field bits 16 0x7f < 128.
Proof.
  intros Hz. pose proof (field_7f bits 16) as Hf. split; [|lia]. destruct (Z_le_gt_dec 8 (field bits 16 0x7f)); [done|]. destruct Hz.
  assert (Heq : field bits 19 15 = Z.shiftr (field bits 16 0x7f) 3).
  { unfold field, shr. change 0x7f with (Z.ones 7). change 15 with (Z.ones 4). rewrite !Z.land_ones by lia. rewrite !Z.shiftr_div_pow2 by lia.
    change (2 ^ 19) with (2 ^ 16 * 2 ^ 3). rewrite <- Z.div_div by lia. change (2 ^ 7) with (2 ^ 3 * 2 ^ 4).
    rewrite (Z.rem_mul_r _ (2 ^ 3) (2 ^ 4)) by lia. rewrite Z.mul_comm, Z.div_add by lia. rewrite (Z.div_small (_ mod 2 ^ 3)); [lia|]. apply Z.mod_pos_bound. lia. }
  rewrite Heq, Z.shiftr_div_pow2 by lia. apply Z.div_small. lia.
Qed.

Lemma shift_field_shape bits f : f.(shift_immediate) = field bits 16 0x7f -> field bits 19 15 <> 0 -> shift_shape 128 f = true.
Proof. intros Hf Hz. pose proof (shift_field bits Hz). unfold shift_shape. rewrite Hf. apply andb_true_iff. lia. Qed.

(** Facts about the five-bit element field, by enumeration. *)
Lemma five_bits (P : Z -> bool) bits : forallb P (seqZ 0 32) = true -> P (field bits 16 31) = true.
Proof. intros Hall. rewrite forallb_forall in Hall. apply Hall, list_elem_of_In, elem_of_seqZ. pose proof (field_1f bits 16). lia. Qed.

Lemma umov_element bits : validate_a64_umov bits = Allocated -> trailing_zeros_8 (field bits 16 31) <=? 3 = true.
Proof. unfold validate_a64_umov. destruct (_ || _) eqn:E; [done|]. apply orb_false_iff in E as [_ E]. lia. Qed.

Lemma insert_element_alloc id bits : validate_a64_simd_insert id bits = Allocated -> trailing_zeros_8 (field bits 16 31) <=? 3 = true.
Proof. unfold validate_a64_simd_insert. destruct (_ || _) eqn:E; [done|]. apply orb_false_iff in E as [_ E]. lia. Qed.

Lemma duplicate_element_alloc bits : validate_a64_simd_duplicate_element bits = Allocated -> trailing_zeros_8 (field bits 16 31) <=? 3 = true.
Proof.
  unfold validate_a64_simd_duplicate_element. destruct (Z.land (field bits 16 31) 15 =? 0) eqn:E; [done|]. intros _.
  pose proof (five_bits (fun v => implb (negb (Z.land v 15 =? 0)) (trailing_zeros_8 v <=? 3)) bits eq_refl) as H. cbv beta in H. by rewrite E in H.
Qed.

Lemma duplicate_general_alloc bits f : f.(immediate_5) = field bits 16 31 -> f.(vector_128) = flag bits 30 ->
  validate 0x48 bits = Allocated -> (field bits 16 31 =? 16) && negb (flag bits 30) = false -> duplicate_shape f = true.
Proof.
  intros Hi Hq Ha Hn. change (validate 0x48 bits) with (if negb (is_power_of_two_8 (field bits 16 31))
    then Reserved "SIMD duplicate element size is not one-hot"
    else if (field bits 16 31 =? 8) && negb (flag bits 30) then Reserved "64-bit SIMD duplicate requires a 128-bit vector" else Allocated) in Ha.
  unfold duplicate_shape, element_shape. rewrite Hi, Hq.
  pose proof (five_bits (fun v => implb (is_power_of_two_8 v) ((trailing_zeros_8 v <=? 3) || (v =? 16))) bits eq_refl) as H. cbv beta in H.
  destruct (is_power_of_two_8 _); [cbn [implb] in H|discriminate Ha]. destruct (_ <=? 3); [done|]. cbn [orb] in *. rewrite H in *.
  by destruct (flag bits 30).
Qed.

Lemma general_move_alloc bits f : f.(size) = field bits 30 3 -> f.(opc) = field bits 22 3 -> validate_a64_fp_move_general bits = Allocated ->
  general_move_shape f = true.
Proof.
  intros Hz Ho. unfold validate_a64_fp_move_general, general_move_shape. rewrite Hz, Ho.
  assert (Hb : negb (Z.land (field bits 30 3) 2 =? 0) = flag bits 31).
  { unfold field, flag, shr, shl. change (wrap 32 (Z.shiftl 1 31)) with (2 ^ 31). rewrite <- Z.land_assoc. change (Z.land 3 2) with (2 ^ 1).
    change (bit_set (Z.shiftr bits 30) (2 ^ 1) = bit_set bits (2 ^ 31)). rewrite !bit_set_pow2 by lia. by rewrite Z.shiftr_spec. }
  rewrite Hb. pose proof (field_3 bits 22) as Hf. destruct (flag bits 31);
    (destruct (field bits 22 3) as [|[[]|[]|]|]; try discriminate; try reflexivity; lia).
Qed.

Lemma narrow_alloc bits : validate_a64_simd_add_across_vector bits = Allocated -> negb (field bits 22 3 =? 3) = true.
Proof. unfold validate_a64_simd_add_across_vector. by destruct (field bits 22 3 =? 3). Qed.

Lemma size_field bits : in_range 32 bits -> shr bits 30 = field bits 30 3.
Proof.
  intros [H0 H1]. unfold field, shr. change 3 with (Z.ones 2). rewrite Z.land_ones by lia. rewrite Z.mod_small; [done|].
  rewrite Z.shiftr_div_pow2 by lia. split; [apply Z.div_pos; lia|]. apply Z.div_lt_upper_bound; lia.
Qed.

(** A rule that is one rejected condition. *)
Lemma rejected_false (c : bool) st : st <> Allocated -> (if c then st else Allocated) = Allocated -> c = false.
Proof. by destruct c. Qed.

Lemma shift_alloc scalar bits : validate_a64_simd_shift_right_immediate scalar bits = Allocated -> field bits 19 15 <> 0.
Proof. unfold validate_a64_simd_shift_right_immediate. by destruct (Z.eqb_spec (field bits 19 15) 0). Qed.

Lemma shift_left_alloc scalar bits : validate_a64_simd_shift_left_immediate scalar bits = Allocated -> field bits 19 15 <> 0.
Proof. unfold validate_a64_simd_shift_left_immediate. by destruct (Z.eqb_spec (field bits 19 15) 0). Qed.

Lemma transfer_alloc opc size rest : (if negb (Z.land opc 2 =? 0) && negb (size =? 0) then Reserved "invalid 128-bit SIMD transfer size" else rest) = Allocated ->
  (Z.land opc 2 =? 0) || (size =? 0) = true.
Proof. by destruct (_ =? 0), (_ =? 0). Qed.

Lemma bitwise_operation_total bits : present (bitwise_operation bits) = true.
Proof.
  unfold bitwise_operation. pose proof (field_mask_1 bits 29) as H1. pose proof (field_3 bits 22) as H3.
  assert (field bits 29 1 = 0 \/ field bits 29 1 = 1) as [-> | ->] by lia;
  assert (field bits 22 3 = 0 \/ field bits 22 3 = 1 \/ field bits 22 3 = 2 \/ field bits 22 3 = 3) as [-> |[-> |[-> | ->]]] by lia; reflexivity.
Qed.

(** The rules that are one rejected field value, seen through [validate]. *)
Ltac unfold_rules Ha := unfold validate, validate_a64, validate_simd_first, validate_simd_rest in Ha.

Lemma reverse_32_alloc bits : validate 0xb1 bits = Allocated -> field bits 22 3 <=? 2 = true.
Proof. intros Ha. unfold_rules Ha. destruct (2 <=? field bits 22 3) eqn:E; [discriminate Ha|lia]. Qed.

Lemma add_wide_alloc bits : validate 0xc1 bits = Allocated -> negb (field bits 22 3 =? 3) = true.
Proof. intros Ha. unfold_rules Ha. destruct (field bits 22 3 =? 3); [discriminate Ha|reflexivity]. Qed.

Lemma pair_alloc bits : validate 0x49 bits = Allocated -> negb (shr bits 30 =? 3) = true.
Proof. intros Ha. unfold_rules Ha. destruct (shr bits 30 =? 3); [discriminate Ha|reflexivity]. Qed.

Lemma immediate_alloc bits : validate 0x4a bits = Allocated -> field bits 12 15 <=? 14 = true.
Proof.
  intros Ha. unfold_rules Ha. pose proof (field_f bits 12). destruct (Z.eqb_spec (field bits 12 15) 15); [discriminate Ha|lia].
Qed.

Lemma permute_present bits f : DecodeFpOperands.normalize_operands 0x64 bits = Ok f -> present f.(permute_operation_of) = true.
Proof.
  unfold DecodeFpOperands.normalize_operands. cbv zeta. cbn [Z.eqb Pos.eqb andb]. intros Hf.
  destruct (permute_operation bits); [rewrite bool_decide_eq_false_2 in Hf by done|rewrite bool_decide_eq_true_2 in Hf by done; discriminate Hf].
  by injection Hf as <-.
Qed.

(** The operands of an allocated word have the shape its variant needs. *)
Lemma allocated_shape id bits v f : in_range 32 bits -> one_of (field bits 22 3) (precision_choices id) = true -> validate id bits = Allocated ->
  normalize_variant id = Ok v -> DecodeFpOperands.normalize_operands id bits = Ok f -> reserved_duplicate id bits = false ->
  variant_shape v f = true.
Proof.
  intros Hb Hc Ha Hv Hf Hr. pose proof (size_field bits Hb) as Hsize.
  assert (Hp : id = 0x64 -> present f.(permute_operation_of) = true) by (intros ->; exact (permute_present bits f Hf)).
  unfold DecodeFpOperands.normalize_operands in Hf. destruct (_ && _) in Hf; [discriminate Hf|]. apply Ok_inj in Hf. subst f.
  destruct id as [|q|q]; [discriminate Hv| |discriminate Hv].
  do 8 (try (destruct q as [q|q|]; try discriminate Hv)); (injection Hv as <-); try reflexivity.
  all: lazymatch goal with
  | |- variant_shape PermuteTwoSource _ = _ => exact (Hp eq_refl)
  | |- variant_shape ScalarMove _ = _ => exact Hc
  | |- variant_shape ScalarAbsolute _ = _ => exact Hc
  | |- variant_shape ScalarNegate _ = _ => exact Hc
  | |- variant_shape ScalarFloatImmediate _ = _ => exact Hc
  | |- variant_shape SignedIntToFloat _ = _ => exact Hc
  | |- variant_shape UnsignedIntToFloat _ = _ => exact Hc
  | |- variant_shape FloatToSignedInt _ = _ => cbn [variant_shape]; apply andb_true_iff; split; [exact Hc|reflexivity]
  | |- variant_shape FloatToUnsignedInt _ = _ => cbn [variant_shape]; apply andb_true_iff; split; [exact Hc|reflexivity]
  | |- variant_shape UnsignedMoveToGeneral _ = _ => exact (umov_element bits Ha)
  | |- variant_shape InsertElement _ = _ => exact (insert_element_alloc 0x60 bits Ha)
  | |- variant_shape InsertGeneral _ = _ => exact (insert_element_alloc 0x61 bits Ha)
  | |- variant_shape DuplicateElement _ = _ => exact (duplicate_element_alloc bits Ha)
  | |- variant_shape DuplicateScalarElement _ = _ => exact (duplicate_element_alloc bits Ha)
  | |- variant_shape DuplicateGeneral _ = _ => apply (duplicate_general_alloc bits); [reflexivity|reflexivity|exact Ha|exact Hr]
  | |- variant_shape MoveToGeneral _ = _ => apply (general_move_alloc bits); [reflexivity|reflexivity|exact Ha]
  | |- variant_shape MoveFromGeneral _ = _ => apply (general_move_alloc bits); [reflexivity|reflexivity|exact Ha]
  | |- variant_shape AddAcrossVector _ = _ => exact (narrow_alloc bits Ha)
  | |- variant_shape UnsignedAddLongAcrossVector _ = _ => exact (narrow_alloc bits Ha)
  | |- variant_shape IntegerWideAdd _ = _ => exact (add_wide_alloc bits Ha)
  | |- variant_shape Bitwise _ = _ => exact (bitwise_operation_total bits)
  | |- variant_shape ModifiedImmediate _ = _ => exact (immediate_alloc bits Ha)
  | |- variant_shape Reverse32 _ = _ => exact (reverse_32_alloc bits Ha)
  | |- variant_shape Reverse64 _ = _ => cbn [variant_shape opc]; apply Z.leb_le; pose proof (field_3 bits 22); cbn [one_of existsb Z.eqb Pos.eqb orb]; lia
  | |- variant_shape MemoryPair _ = _ => cbn [variant_shape size]; rewrite <- Hsize; exact (pair_alloc bits Ha)
  | |- variant_shape MemoryUnsigned _ = _ =>
      cbn [variant_shape size]; rewrite <- Hsize; exact (transfer_alloc (field bits 22 3) (shr bits 30) _ Ha)
  | |- variant_shape MemoryUnscaled _ = _ =>
      cbn [variant_shape size]; rewrite <- Hsize; exact (transfer_alloc (field bits 22 3) (shr bits 30) _ Ha)
  | |- variant_shape MemoryPostIndex _ = _ =>
      cbn [variant_shape size]; rewrite <- Hsize; exact (transfer_alloc (field bits 22 3) (shr bits 30) _ Ha)
  | |- variant_shape MemoryPreIndex _ = _ =>
      cbn [variant_shape size]; rewrite <- Hsize; exact (transfer_alloc (field bits 22 3) (shr bits 30) _ Ha)
  | |- variant_shape MemoryRegister _ = _ =>
      cbn [variant_shape size]; rewrite <- Hsize; exact (transfer_alloc (field bits 22 3) (shr bits 30) _ Ha)
  | |- variant_shape ScalarShiftRightImmediate _ = _ => apply (shift_field_shape bits); [reflexivity|exact (shift_alloc true bits Ha)]
  | |- variant_shape VectorShiftRightImmediate _ = _ => apply (shift_field_shape bits); [reflexivity|exact (shift_alloc false bits Ha)]
  | |- variant_shape ScalarShiftLeftImmediate _ = _ => apply (shift_field_shape bits); [reflexivity|exact (shift_left_alloc true bits Ha)]
  | |- variant_shape VectorShiftLeftImmediate _ = _ => apply (shift_field_shape bits); [reflexivity|exact (shift_left_alloc false bits Ha)]
  | |- variant_shape ShiftRightNarrow _ = _ =>
      apply (shift_field_shape bits); [reflexivity|apply Z.eqb_neq; refine (rejected_false (field bits 19 15 =? 0) _ _ Ha); discriminate]
  | |- variant_shape ShiftLeftLong _ = _ =>
      apply (shift_field_shape bits); [reflexivity|apply Z.eqb_neq; refine (rejected_false (field bits 19 15 =? 0) _ _ Ha); discriminate]
  end.
Qed.

(** The words of DUP (general) with the reserved element size and Q = 0, and the
    entry they match. *)
Definition reserved_word (bits : Z) : bool := masked bits 0xbffffc00 0x0e100c00 && negb (flag bits 30).

Definition duplicate_entry (p : InstructionPattern) : bool :=
  implb (p.(p_coverage_id) =? 0x48) ((p.(p_mask) =? 0xbfe0fc00) && (p.(p_value) =? 0x0e000c00)).

Lemma catalog_duplicate : forallb duplicate_entry patterns = true.
Proof. vm_compute. reflexivity. Qed.

Lemma reserved_duplicate_word p bits : p ∈ patterns -> matches bits p = true -> reserved_duplicate p.(p_coverage_id) bits = true -> reserved_word bits = true.
Proof.
  intros Hp Hm Hr. pose proof catalog_duplicate as Hall. rewrite forallb_forall in Hall. specialize (Hall p ltac:(by apply list_elem_of_In)).
  unfold reserved_duplicate, duplicate_entry in *. apply andb_true_iff in Hr as [Hid [Hf Hq]%andb_true_iff]. rewrite Hid in Hall.
  apply andb_true_iff in Hall as [Hk Hv]. apply Z.eqb_eq in Hk, Hv, Hf. unfold matches in Hm. apply Z.eqb_eq in Hm. rewrite Hk, Hv in Hm.
  unfold reserved_word, masked. rewrite Hq, andb_true_r. apply Z.eqb_eq. change 0xbffffc00 with (Z.lor 0xbfe0fc00 (Z.shiftl 0x1f 16)). rewrite Z.land_lor_distr_r, Hm.
  assert (Hs : Z.land bits (Z.shiftl 0x1f 16) = Z.shiftl (field bits 16 0x1f) 16).
  { apply Z.bits_inj'. intros k Hk'. unfold field, shr. rewrite Z.land_spec. destruct (Z_lt_le_dec k 16).
    - rewrite !Z.shiftl_spec_low by lia. apply andb_false_r.
    - rewrite !Z.shiftl_spec by lia. rewrite Z.land_spec, Z.shiftr_spec by lia. do 2 f_equal. lia. }
  rewrite Hs, Hf. reflexivity.
Qed.

(** A decoded FP/SIMD word has executable operands, or it is one of those. *)
Lemma decoded_operands p bits v f : in_range 32 bits -> p ∈ patterns -> candidate validate bits p = true ->
  DecodeFpOperands.normalize p.(p_coverage_id) bits = Ok (v, f) ->
  operands_ok f /\ (variant_shape v f = true \/
    reserved_word bits = true /\ v = DuplicateGeneral /\ f.(immediate_5) = 16 /\ f.(vector_128) = false).
Proof.
  intros Hb Hp Hc Hn. apply normalize_inv in Hn as [Hv Hf]. unfold candidate, is_allocated in Hc. apply andb_true_iff in Hc as [Hm Ha].
  split; [by eapply normalize_operands_ok|]. destruct (reserved_duplicate p.(p_coverage_id) bits) eqn:E.
  - right. split; [by apply (reserved_duplicate_word p)|]. unfold reserved_duplicate in E. apply andb_true_iff in E as [Hid [Hi Hq]%andb_true_iff].
    apply Z.eqb_eq in Hid, Hi. apply negb_true_iff in Hq. rewrite Hid in Hv, Hf. injection Hv as <-. apply Ok_inj in Hf. by subst f.
  - left. eapply allocated_shape; [done|by apply (matched_precision p)| |done..]. by destruct (validate _ _).
Qed.
