(* ===== verification/InterpInteger.v ===== *)
(** * Integer instruction semantics (crates/cpu-interpreter/src/interpreter/a64/integer.rs)

    One definition per Rust function.  A handler [fn f(state: &mut A64State, ..)
    -> bool] is a function returning its outcome and the state it leaves: [Ok
    true] executed, [Ok false] not supported, [Panic] an [unreachable!] or a
    failed [expect].  Values are [u64] (or [u128] where the code widens). *)

From S2P Require Import Prelude Bytes CpuBits CpuArith CpuState DecodeTable DecodeInteger DecodeAllocation.

Definition Handler : Type := SM A64State Empty_set bool.

Definition width (fields : Operands) : Z := if fields.(width_64) then 64 else 32.

(** [BitWidth::new(width(fields)).expect(..)]: both widths are legal. *)
Definition bit_width (fields : Operands) : Z := width fields.

Definition mask (fields : Operands) : Z := if fields.(width_64) then umax 64 else umax 32.

Definition set_arithmetic_flags (state : A64State) (result : Z) (carry overflow : bool) (bits : Z)
  : A64State :=
  let sign := shl 64 1 (bits - 1) in
  let packed :=
    Z.lor (Z.lor (Z.lor (if negb (Z.land result sign =? 0) then StateNzcv.N else 0)
                        (if result =? 0 then StateNzcv.Z_ else 0))
                 (if carry then StateNzcv.C else 0))
          (if overflow then StateNzcv.V else 0) in
  set_nzcv state (StateNzcv.from_bits packed).

Definition set_logical_flags (state : A64State) (result bits : Z) : A64State :=
  let sign := shl 64 1 (bits - 1) in
  set_nzcv state (StateNzcv.from_bits
    (Z.lor (if negb (Z.land result sign =? 0) then StateNzcv.N else 0)
           (if result =? 0 then StateNzcv.Z_ else 0))).

(** [u8::from(fields.subtract) * 2 + u8::from(fields.set_flags)] *)
Definition opcode_of (fields : Operands) : Z := b2z fields.(subtract) * 2 + b2z fields.(set_flags).

Definition move_wide (fields : Operands) : Handler := fun state =>
  let bits := width fields in
  let halfword := fields.(opcode_2) in
  if (bits =? 32) && (2 <=? halfword) then (Ok false, state)
  else
    let shift := halfword * 16 in
    let immediate := shl 64 fields.(immediate_16) shift in
    let value :=
      match opcode_of fields with
      | 0 => Some (Z.land (unot 64 immediate) (mask fields))
      | 2 => Some immediate
      | 3 => let old := read state fields.(rd) bits false in
             Some (Z.lor (Z.land old (unot 64 (shl 64 0xffff shift))) immediate)
      | _ => None
      end in
    match value with
    | None => (Ok false, state)
    | Some value => (Ok true, write state fields.(rd) bits false value)
    end.

Definition apply_add_sub (state : A64State) (fields : Operands) (lhs rhs : Z) (carry : bool)
  : A64State :=
  let bw := bit_width fields in
  let result := if fields.(subtract) then subtract_with_carry lhs rhs carry bw
                else add_with_carry lhs rhs carry bw in
  let value := wrap 64 result.(awc_result) in
  let state := write state fields.(rd) (width fields)
                 (negb fields.(set_flags) && (fields.(rd) =? 31)) value in
  if fields.(set_flags)
  then set_arithmetic_flags state value result.(awc_carry_out) result.(awc_overflow) (width fields)
  else state.

Definition add_sub_immediate (fields : Operands) : Handler := fun state =>
  let lhs := read state fields.(rn) (width fields) true in
  let rhs := shl 64 fields.(immediate_12) (if fields.(n) then 12 else 0) in
  (Ok true, apply_add_sub state fields lhs rhs fields.(subtract)).

(** [None] is the early [return None]; a failed [expect] is [Panic]. *)
Definition shifted (value : Z) (fields : Operands) (allow_rotate : bool)
  : Result Empty_set (option Z) :=
  if (width fields =? 32) && (32 <=? fields.(shift_amount)) then Ok None
  else match CpuState.shift_kind fields.(shift_kind) allow_rotate with
  | None => Ok None
  | Some kind =>
      let? r := expect_result (a64_shift_with_carry value (bit_width fields) kind
                                 fields.(shift_amount) false) in
      Ok (Some (wrap 64 r.(shift_result)))
  end.

Definition add_sub_shifted (fields : Operands) : Handler := fun state =>
  match shifted (read state fields.(rm) (width fields) false) fields false with
  | Ok None => (Ok false, state)
  | Ok (Some rhs) =>
      let lhs := read state fields.(rn) (width fields) false in
      (Ok true, apply_add_sub state fields lhs rhs fields.(subtract))
  | _ => (Panic, state)
  end.

Definition extend_register (value option_ shift destination_width : Z) : option Z :=
  if (4 <? shift) || (7 <? option_) then None
  else
    let source_width :=
      match Z.land option_ 3 with 0 => 8 | 1 => 16 | 2 => 32 | _ => 64 end in
    if (source_width =? 64) && (destination_width =? 32) then None
    else
      let source_mask := if source_width =? 64 then umax 64 else shl 64 1 source_width - 1 in
      let truncated := Z.land value source_mask in
      let extended :=
        if (Z.land option_ 4 =? 0) || (source_width =? 64) then truncated
        else wrap 64 (signed_immediate truncated source_width) in
      Some (Z.land (shl 64 extended shift)
                   (if destination_width =? 64 then umax 64 else umax 32)).

Definition add_sub_extended (fields : Operands) : Handler := fun state =>
  let bits := width fields in
  let rm_value := read state fields.(rm) bits false in
  match extend_register rm_value fields.(extension) fields.(small_shift) bits with
  | None => (Ok false, state)
  | Some rhs =>
      let lhs := read state fields.(rn) bits true in
      (Ok true, apply_add_sub state fields lhs rhs fields.(subtract))
  end.

Definition add_sub_carry (fields : Operands) : Handler := fun state =>
  let lhs := read state fields.(rn) (width fields) false in
  let rhs := read state fields.(rm) (width fields) false in
  (Ok true, apply_add_sub state fields lhs rhs (StateNzcv.carry state.(CpuState.nzcv))).

Definition logical (opcode lhs rhs : Z) : Result Empty_set Z :=
  match opcode with
  | 0 | 3 => Ok (Z.land lhs rhs)
  | 1 => Ok (Z.lor lhs rhs)
  | 2 => Ok (Z.lxor lhs rhs)
  | _ => Panic
  end.

Definition logical_immediate (fields : Operands) : Handler := fun state =>
  let bits := width fields in
  match decode_a64_logical_immediate fields.(n) fields.(immediate_6_high) fields.(shift_amount) bits with
  | Panic => (Panic, state)
  | Err _ => (Ok false, state)
  | Ok immediate =>
    let opcode := opcode_of fields in
    match logical opcode (read state fields.(rn) bits false) immediate with
    | Ok r =>
        let result := Z.land r (mask fields) in
        let state := write state fields.(rd) bits (negb (opcode =? 3)) result in
        (Ok true, if opcode =? 3 then set_logical_flags state result bits else state)
    | _ => (Panic, state)
    end
  end.

Definition logical_shifted (fields : Operands) : Handler := fun state =>
  let bits := width fields in
  match shifted (read state fields.(rm) bits false) fields true with
  | Ok None => (Ok false, state)
  | Ok (Some rhs) =>
    let rhs := if fields.(invert) then Z.land (unot 64 rhs) (mask fields) else rhs in
    let opcode := opcode_of fields in
    match logical opcode (read state fields.(rn) bits false) rhs with
    | Ok r =>
        let result := Z.land r (mask fields) in
        let state := write state fields.(rd) bits false result in
        (Ok true, if opcode =? 3 then set_logical_flags state result bits else state)
    | _ => (Panic, state)
    end
  | _ => (Panic, state)
  end.

Definition bitfield (fields : Operands) : Handler := fun state =>
  let bits := width fields in
  if negb (Bool.eqb fields.(n) fields.(width_64)) ||
     (negb fields.(width_64) && fields.(subtract_product)) then (Ok false, state)
  else
    let opcode := opcode_of fields in
    if opcode =? 3 then (Ok false, state)
    else
      match decode_a64_bit_masks fields.(n) fields.(immediate_6_high) fields.(shift_amount) bits false with
      | Panic => (Panic, state)
      | Err _ => (Ok false, state)
      | Ok masks =>
        let source := read state fields.(rn) bits false in
        let destination := read state fields.(rd) bits false in
        let rotated := wrap 64 (rotate_right source (bit_width fields) fields.(immediate_6_high)) in
        let bottom :=
          match opcode with
          | 1 => Z.lor (Z.land destination (unot 64 masks.(write_mask)))
                       (Z.land rotated masks.(write_mask))
          | _ => Z.land rotated masks.(write_mask)
          end in
        let top :=
          if (opcode =? 0) && negb (Z.land source (shl 64 1 fields.(shift_amount)) =? 0)
          then mask fields
          else if opcode =? 1 then destination else 0 in
        let result := Z.land (Z.lor (Z.land top (unot 64 masks.(test_mask)))
                                    (Z.land bottom masks.(test_mask))) (mask fields) in
        (Ok true, write state fields.(rd) bits false result)
      end.

Definition extract (fields : Operands) : Handler := fun state =>
  let bits := width fields in
  let lsb := fields.(shift_amount) in
  if negb (Bool.eqb fields.(n) fields.(width_64)) || ((bits =? 32) && (32 <=? lsb))
  then (Ok false, state)
  else
    let low := read state fields.(rm) bits false in
    let high := read state fields.(rn) bits false in
    let result := Z.land (if lsb =? 0 then low else Z.lor (shr low lsb) (shl 64 high (bits - lsb)))
                         (mask fields) in
    (Ok true, write state fields.(rd) bits false result).

(** [wrapping_div] truncates toward zero; [MIN / -1] wraps. *)
Definition signed_divide (lhs rhs bits : Z) : Z :=
  if bits =? 32 then
    let lhs := to_signed 32 (wrap 32 lhs) in
    let rhs := to_signed 32 (wrap 32 rhs) in
    if rhs =? 0 then 0 else wrap 32 (Z.quot lhs rhs)
  else
    let lhs := to_signed 64 lhs in
    let rhs := to_signed 64 rhs in
    if rhs =? 0 then 0 else wrap 64 (Z.quot lhs rhs).

Definition arithmetic_shift_right (value amount bits : Z) : Z :=
  if bits =? 32 then wrap 32 (Z.shiftr (to_signed 32 (wrap 32 value)) amount)
  else wrap 64 (Z.shiftr (to_signed 64 value) amount).

Definition two_source (fields : Operands) : Handler := fun state =>
  let bits := width fields in
  let lhs := read state fields.(rn) bits false in
  let rhs := read state fields.(rm) bits false in
  let shift := wrap 8 (Z.land rhs (bits - 1)) in
  let result :=
    match fields.(shift_amount) with
    | 2 => Some (if rhs =? 0 then 0 else lhs / rhs)
    | 3 => Some (signed_divide lhs rhs bits)
    | 8 => Some (shl 64 lhs (shift mod 64))
    | 9 => Some (shr lhs (shift mod 64))
    | 10 => Some (arithmetic_shift_right lhs shift bits)
    | 11 => Some (wrap 64 (rotate_right lhs (bit_width fields) shift))
    | _ => None
    end in
  match result with
  | None => (Ok false, state)
  | Some r => (Ok true, write state fields.(rd) bits false (Z.land r (mask fields)))
  end.

Definition conditional_compare (fields : Operands) : Handler := fun state =>
  if negb (evaluate_a64 (Condition_from_encoding fields.(condition)) state.(CpuState.nzcv))
  then (Ok true, set_nzcv state (StateNzcv.from_bits (shl 32 fields.(nzcv) 28)))
  else
    let bits := width fields in
    let lhs := read state fields.(rn) bits false in
    let rhs := if fields.(immediate_form) then fields.(rm) else read state fields.(rm) bits false in
    let result := if fields.(subtract) then subtract_with_carry lhs rhs true (bit_width fields)
                  else add_with_carry lhs rhs false (bit_width fields) in
    (Ok true, set_arithmetic_flags state (wrap 64 result.(awc_result)) result.(awc_carry_out)
                result.(awc_overflow) bits).

Definition conditional_select (fields : Operands) : Handler := fun state =>
  let bits := width fields in
  let value :=
    if evaluate_a64 (Condition_from_encoding fields.(condition)) state.(CpuState.nzcv)
    then read state fields.(rn) bits false
    else
      let value := read state fields.(rm) bits false in
      let value := if fields.(subtract) then unot 64 value else value in
      let value := if fields.(bit10) then wrap 64 (value + 1) else value in
      Z.land value (mask fields) in
  (Ok true, write state fields.(rd) bits false value).

(** [addend.wrapping_sub(product)] or [addend.wrapping_add(product)] *)
Definition accumulate (fields : Operands) (addend product : Z) : Z :=
  if fields.(subtract_product) then wrap 64 (addend - product) else wrap 64 (addend + product).

Definition three_source (fields : Operands) : Handler := fun state =>
  let result :=
    match fields.(opcode_3) with
    | 1 =>
        let product := to_signed 64 (wrap 64
          (to_signed 32 (wrap 32 (read state fields.(rn) 32 false)) *
           to_signed 32 (wrap 32 (read state fields.(rm) 32 false)))) in
        let addend := to_signed 64 (read state fields.(ra) 64 false) in
        Some (accumulate fields addend product)
    | 2 =>
        if (fields.(ra) =? 31) && negb fields.(subtract_product) then
          let product := to_signed 64 (read state fields.(rn) 64 false) *
                         to_signed 64 (read state fields.(rm) 64 false) in
          Some (wrap 64 (Z.shiftr product 64))
        else None
    | 5 =>
        let product := wrap 64 (wrap 32 (read state fields.(rn) 32 false) *
                                wrap 32 (read state fields.(rm) 32 false)) in
        let addend := read state fields.(ra) 64 false in
        Some (accumulate fields addend product)
    | 6 =>
        if (fields.(ra) =? 31) && negb fields.(subtract_product) then
          let product := read state fields.(rn) 64 false * read state fields.(rm) 64 false in
          Some (wrap 64 (Z.shiftr product 64))
        else None
    | _ => None
    end in
  if fields.(opcode_3) =? 0 then
    let bits := width fields in
    let product := wrap 64 (read state fields.(rn) bits false * read state fields.(rm) bits false) in
    let addend := read state fields.(ra) bits false in
    let value := Z.land (accumulate fields addend product) (mask fields) in
    (Ok true, write state fields.(rd) bits false value)
  else match result with
  | None => (Ok false, state)
  | Some r => (Ok true, write state fields.(rd) 64 false r)
  end.

(** [uN::reverse_bits] *)
Definition reverse_bits (w v : Z) : Z :=
  foldr (fun i acc => Z.lor (shl w (b2z (Z.testbit v i)) (w - 1 - i)) acc) 0 (seqZ 0 w).

(** [uN::leading_zeros] *)
Definition leading_zeros (w v : Z) : Z := if v =? 0 then w else w - 1 - Z.log2 v.

(** [swap_bytes] *)
Definition swap_bytes (w v : Z) : Z := from_le_bytes (rev (to_le_bytes (w / 8) v)).

(** [slice.chunks_mut(size)], each chunk reversed; the fuel is the slice length. *)
Fixpoint reverse_each (fuel size : nat) (l : list Z) : list Z :=
  match fuel with
  | O => l
  | S fuel' =>
    match l with
    | [] => []
    | _ => rev (take size l) ++ reverse_each fuel' size (drop size l)
    end
  end.

Definition reverse_chunks (value bits : Z) (chunk_bytes : nat) : Z :=
  let bytes := to_le_bytes 8 value in
  let front := take (Z.to_nat (bits / 8)) bytes in
  from_le_bytes (reverse_each (length front) chunk_bytes front ++ drop (Z.to_nat (bits / 8)) bytes).

Definition one_source (fields : Operands) : Handler := fun state =>
  let bits := width fields in
  let input := read state fields.(rn) bits false in
  let value := if bits =? 64 then input else wrap 32 input in
  let result :=
    match fields.(shift_amount) with
    | 0 => Some (reverse_bits bits value)
    | 1 => Some (reverse_chunks input bits 2)
    | 2 => Some (reverse_chunks input bits 4)
    | 3 => Some (swap_bytes bits value)
    | 4 => Some (leading_zeros bits value)
    | 5 =>
        let count := if shr value (bits - 1) =? 0 then leading_zeros bits value
                     else leading_zeros bits (unot bits value) in
        Some (Z.max 0 (count - 1))
    | _ => None
    end in
  match result with
  | None => (Ok false, state)
  | Some r => (Ok true, write state fields.(rd) bits false r)
  end.

(** [adr]: [source_pc] is [decoded.location.pc]. *)
Definition adr (source_pc : Z) (fields : Operands) (page : bool) : Handler := fun state =>
  let displacement := signed_immediate fields.(adr_immediate) 21 in
  let base := if page then Z.land source_pc (unot 64 0xfff) else source_pc in
  let offset := if page then to_signed 64 (wrap 64 (Z.shiftl displacement 12)) else displacement in
  (Ok true, write state fields.(rd) 64 false (wrap 64 (base + offset))).

(** The [match] of [execute]. *)
Definition dispatch (source_pc : Z) (instruction : Instruction) : Handler :=
  let fields := operands instruction in
  match instruction with
  | MoveWide _ => move_wide fields
  | AddSubImmediate _ => add_sub_immediate fields
  | AddSubShifted _ => add_sub_shifted fields
  | AddSubExtended _ => add_sub_extended fields
  | AddSubCarry _ => add_sub_carry fields
  | LogicalImmediate _ => logical_immediate fields
  | LogicalShifted _ => logical_shifted fields
  | Bitfield _ => bitfield fields
  | Extract _ => extract fields
  | TwoSource _ => two_source fields
  | ConditionalCompareRegister _ | ConditionalCompareImmediate _ => conditional_compare fields
  | ConditionalSelect _ => conditional_select fields
  | ThreeSource _ => three_source fields
  | OneSource _ => one_source fields
  | Adr _ => adr source_pc fields false
  | Adrp _ => adr source_pc fields true
  end.

Inductive StepError := UnsupportedInstruction.

(** [execute]: advance the program counter after a supported instruction. *)
Definition execute (source_pc : Z) (instruction : Instruction) : SM A64State StepError unit := fun state =>
  match dispatch source_pc instruction state with
  | (Ok true, state) => (Ok tt, advance state)
  | (Ok false, state) => (Err UnsupportedInstruction, state)
  | (_, state) => (Panic, state)
  end.

(** ** Safety: no panic, invariant, frame *)

(** What the normalizer guarantees of the operand fields. *)
Record fields_ok (f : Operands) : Prop := {
  ok_rd : 0 <= f.(rd) < 32;
  ok_rn : 0 <= f.(rn) < 32;
  ok_ra : 0 <= f.(ra) < 32;
  ok_rm : 0 <= f.(rm) < 32;
  ok_fnzcv : 0 <= f.(nzcv) < 16;
  ok_shift_amount : 0 <= f.(shift_amount) < 64;
  ok_small_shift : 0 <= f.(small_shift) < 8;
  ok_shift_kind : 0 <= f.(shift_kind) < 4;
  ok_immr : 0 <= f.(immediate_6_high) < 64;
  ok_imm12 : 0 <= f.(immediate_12) < 4096;
  ok_imm16 : 0 <= f.(immediate_16) < 65536;
  ok_extension : 0 <= f.(extension) < 8;
  ok_opcode_2 : 0 <= f.(opcode_2) < 4;
  ok_opcode_3 : 0 <= f.(opcode_3) < 8
}.

Lemma normalize_fields_ok bits : fields_ok (normalize_operands bits).
Proof.
  split; cbv beta iota delta [normalize_operands rd rn ra rm nzcv shift_amount small_shift shift_kind
    immediate_6_high immediate_12 immediate_16 extension opcode_2 opcode_3]; auto with nixe_field.
Qed.

(** What an integer instruction may touch: register [rd] (SP when [rd] is 31)
    and the flags. *)
Record integer_frame (rd : Z) (s s' : A64State) : Prop := {
  fr_x : forall j, 0 <= j < 31 -> j <> rd -> read_x s' (General j) = read_x s (General j);
  fr_sp : rd <> 31 -> s'.(sp) = s.(sp);
  fr_pc : s'.(pc) = s.(pc);
  fr_vector : s'.(vector) = s.(vector);
  fr_tpidr : s'.(tpidr_el0) = s.(tpidr_el0);
  fr_tpidrro : s'.(tpidrro_el0) = s.(tpidrro_el0);
  fr_fpcr : s'.(fpcr) = s.(fpcr);
  fr_fpsr : s'.(fpsr) = s.(fpsr)
}.

Lemma frame_refl r s : integer_frame r s s.
Proof. by split. Qed.

Lemma frame_write r s w is_sp v : 0 <= r < 32 -> integer_frame r s (write s r w is_sp v).
Proof.
  intros Hr. unfold write, write_w, write_x.
  assert (Hsel : (0 <= r < 31 /\ select_register r is_sp = General r) \/
                 (r = 31 /\ (select_register r is_sp = StackPointer \/ select_register r is_sp = Zero))).
  { destruct (decide (r = 31)) as [->|]; [right; destruct is_sp; auto|left].
    split; [lia|]. apply select_register_general. lia. }
  destruct Hsel as [[Hr' ->]|[-> [-> | ->]]]; split; try (by destruct (w =? 64)); intros j Hj Hne.
  all: try (by destruct (w =? 64)).
  assert (Hd : Z.to_nat r <> Z.to_nat j) by lia.
  destruct (w =? 64); unfold read_x; cbn [x set_x]; by rewrite list_lookup_insert_ne.
Qed.

Lemma frame_nzcv r s s' v : integer_frame r s s' -> integer_frame r s (set_nzcv s' v).
Proof. intros []. by split. Qed.

(** The outcome of a handler that is safe and respects the frame. *)
Definition handled (f : Operands) (s : A64State) (r : Result Empty_set bool * A64State) : Prop :=
  exists b, r.1 = Ok b /\ state_ok r.2 /\ integer_frame f.(rd) s r.2 /\ (b = false -> r.2 = s).

Section Safety.
Context (f : Operands) (s : A64State) (Hf : fields_ok f) (Hs : state_ok s).

Lemma handled_false : handled f s (Ok false, s).
Proof using Hs. exists false. by split_and!. Qed.

Lemma handled_write w is_sp v : in_range 64 v -> handled f s (Ok true, write s f.(rd) w is_sp v).
Proof using Hf Hs.
  intros Hv. exists true. split_and!; [done|by apply write_ok|apply frame_write, Hf|done].
Qed.

Lemma handled_write_flags w is_sp v nz :
  in_range 64 v ->
  handled f s (Ok true, set_nzcv (write s f.(rd) w is_sp v) (StateNzcv.from_bits nz)).
Proof using Hf Hs.
  intros Hv. exists true. split_and!; [done|by apply set_nzcv_ok, write_ok|apply frame_nzcv, frame_write, Hf|done].
Qed.

Lemma handled_flags nz : handled f s (Ok true, set_nzcv s (StateNzcv.from_bits nz)).
Proof using Hf Hs.
  exists true. split_and!; [done|by apply set_nzcv_ok|apply frame_nzcv, frame_refl|done].
Qed.

Lemma mask_range_64 : in_range 64 (mask f).
Proof using. unfold mask, umax. destruct (f.(width_64)); split; lia. Qed.

Lemma masked_range v : 0 <= v -> in_range 64 (Z.land v (mask f)).
Proof using. intros Hv. rewrite Z.land_comm. apply in_range_land; [lia|apply mask_range_64|done]. Qed.

Lemma width_cases : width f = 32 \/ width f = 64.
Proof using. unfold width. destruct (f.(width_64)); auto. Qed.

Lemma handled_add_sub lhs rhs c : handled f s (Ok true, apply_add_sub s f lhs rhs c).
Proof using Hf Hs.
  unfold apply_add_sub, set_arithmetic_flags. destruct (f.(set_flags)).
  - apply handled_write_flags. apply wrap_range. lia.
  - apply handled_write. apply wrap_range. lia.
Qed.
End Safety.

Lemma shl_range w v k : 0 <= w -> in_range w (shl w v k).
Proof. intros Hw. apply wrap_range. done. Qed.

Lemma unot_range w v : 0 <= w -> in_range w (unot w v).
Proof. intros Hw. apply wrap_range. done. Qed.

#[export] Hint Resolve shl_range unot_range mask_range_64 read_range_64 : nixe_range.

Lemma in_range_nonneg w v : in_range w v -> 0 <= v.
Proof. by intros [? ?]. Qed.

Lemma in_range_land_r w x y : 0 <= w -> 0 <= x -> in_range w y -> in_range w (Z.land x y).
Proof. intros Hw Hx Hy. rewrite Z.land_comm. by apply in_range_land. Qed.

(** [width] is a legal bit-vector width. *)
Lemma width_legal f : width_ok (width f).
Proof. destruct (width_cases f) as [-> | ->]; split; lia. Qed.

Lemma shifted_ok f v allow :
  exists r, shifted v f allow = Ok r /\ (forall z, r = Some z -> in_range 64 z).
Proof.
  unfold shifted. destruct (_ && _); [by exists None|].
  destruct (CpuState.shift_kind _ _); [|by exists None].
  unfold a64_shift_with_carry, bit_width.
  assert (Hw : negb ((width f =? 32) || (width f =? 64)) = false)
    by (by destruct (width_cases f) as [-> | ->]).
  rewrite Hw. cbn. eexists. split; [done|]. intros z [= <-]. apply wrap_range. lia.
Qed.

Lemma logical_ok opcode a b :
  0 <= opcode < 4 -> 0 <= a -> 0 <= b -> exists r, logical opcode a b = Ok r /\ 0 <= r.
Proof.
  intros Ho Ha Hb. assert (opcode = 0 \/ opcode = 1 \/ opcode = 2 \/ opcode = 3) as Hc by lia.
  destruct Hc as [->|[->|[->| ->]]]; eexists; split; try reflexivity;
    rewrite ?Z.lor_nonneg, ?Z.land_nonneg, ?Z.lxor_nonneg; auto; tauto.
Qed.

Lemma opcode_of_range f : 0 <= opcode_of f < 4.
Proof. unfold opcode_of. destruct (f.(subtract)), (f.(set_flags)); simpl; lia. Qed.

(** ** Every handler is safe *)

Section Handlers.
Context (f : Operands) (s : A64State) (Hf : fields_ok f) (Hs : state_ok s).
Let nonneg_read i w sp : 0 <= read s i w sp := in_range_nonneg 64 _ (read_range_64 s i w sp Hs).

Lemma move_wide_handled : handled f s (move_wide f s).
Proof using Hf Hs.
  unfold move_wide. destruct (_ && _); [by apply handled_false|].
  pose proof (opcode_of_range f) as Ho.
  assert (opcode_of f = 0 \/ opcode_of f = 1 \/ opcode_of f = 2 \/ opcode_of f = 3) as Hc by lia.
  destruct Hc as [->|[->|[->| ->]]]; [|by apply handled_false| |]; apply handled_write; try done.
  - apply masked_range, (in_range_nonneg 64), unot_range. lia.
  - apply shl_range. lia.
  - apply in_range_lor; [lia| |apply shl_range; lia].
    apply in_range_land; [lia|by apply read_range_64|]. apply (in_range_nonneg 64), unot_range. lia.
Qed.

Lemma add_sub_shifted_handled : handled f s (add_sub_shifted f s).
Proof using Hf Hs.
  unfold add_sub_shifted.
  destruct (shifted_ok f (read s f.(rm) (width f) false) false) as ([rhs|] & -> & _).
  - by apply handled_add_sub.
  - by apply handled_false.
Qed.

Lemma add_sub_extended_handled : handled f s (add_sub_extended f s).
Proof using Hf Hs.
  unfold add_sub_extended. destruct (extend_register _ _ _ _); [|by apply handled_false].
  by apply handled_add_sub.
Qed.

(** The common tail of the logical instructions. *)
Lemma logical_tail_handled a b is_sp :
  0 <= a -> 0 <= b ->
  handled f s
    match logical (opcode_of f) a b with
    | Ok r =>
        let result := Z.land r (mask f) in
        let s' := write s f.(rd) (width f) is_sp result in
        (Ok true, if opcode_of f =? 3 then set_logical_flags s' result (width f) else s')
    | _ => (Panic, s)
    end.
Proof using Hf Hs.
  intros Ha Hb. destruct (logical_ok (opcode_of f) a b (opcode_of_range f) Ha Hb) as (r & -> & Hr).
  cbn zeta. pose proof (masked_range f r Hr). unfold set_logical_flags.
  destruct (opcode_of f =? 3); [by apply handled_write_flags|by apply handled_write].
Qed.

Lemma logical_immediate_handled : handled f s (logical_immediate f s).
Proof using Hf Hs.
  unfold logical_immediate, decode_a64_logical_immediate. destruct Hf.
  pose proof (decode_masks_never_panics f.(n) f.(immediate_6_high) f.(shift_amount) (width f) true
    ltac:(lia) ltac:(lia)) as Hp.
  destruct (decode_a64_bit_masks f.(n) f.(immediate_6_high) f.(shift_amount) (width f) true) as [m|e|]
    eqn:Hm; cbn [result_bind]; [|by apply handled_false|done].
  apply logical_tail_handled; [apply nonneg_read|].
  destruct (decode_masks_inv f.(n) f.(immediate_6_high) f.(shift_amount) (width f) true m
    ltac:(lia) ltac:(lia) Hm) as (len & _ & _ & _ & _ & _ & _ & _ & [Hr _] & _).
  by apply (in_range_nonneg (width f)).
Qed.

Lemma logical_shifted_handled : handled f s (logical_shifted f s).
Proof using Hf Hs.
  unfold logical_shifted.
  destruct (shifted_ok f (read s f.(rm) (width f) false) true) as ([rhs|] & -> & Hr);
    [|by apply handled_false].
  apply logical_tail_handled; [apply nonneg_read|]. specialize (Hr rhs eq_refl).
  destruct (f.(invert)); [|by apply (in_range_nonneg 64)].
  apply (in_range_nonneg 64), masked_range, (in_range_nonneg 64), unot_range. lia.
Qed.

Lemma bitfield_handled : handled f s (bitfield f s).
Proof using Hf Hs.
  unfold bitfield. destruct (_ || _); [by apply handled_false|].
  destruct (opcode_of f =? 3); [by apply handled_false|].
  pose proof (ok_immr f Hf). pose proof (ok_shift_amount f Hf).
  pose proof (decode_masks_never_panics f.(n) f.(immediate_6_high) f.(shift_amount) (width f) false
    ltac:(lia) ltac:(lia)) as Hp.
  destruct (decode_a64_bit_masks _ _ _ _ _) as [m|e|] eqn:Hm; [|by apply handled_false|done].
  destruct (decode_masks_inv f.(n) f.(immediate_6_high) f.(shift_amount) (width f) false m
    ltac:(lia) ltac:(lia) Hm) as (len & _ & _ & _ & _ & _ & _ & _ & _ & [Ht _]).
  apply handled_write; [done|done|]. apply in_range_land_r; [lia| |apply mask_range_64].
  apply Z.lor_nonneg. split; apply Z.land_nonneg; right;
    [apply (in_range_nonneg 64), unot_range; lia|by apply (in_range_nonneg (width f))].
Qed.

Lemma extract_handled : handled f s (extract f s).
Proof using Hf Hs.
  unfold extract. destruct (_ || _); [by apply handled_false|].
  apply handled_write; [done|done|]. apply masked_range.
  destruct (f.(shift_amount) =? 0); [apply nonneg_read|]. apply Z.lor_nonneg. split.
  - apply Z.shiftr_nonneg, nonneg_read.
  - apply (in_range_nonneg 64), shl_range. lia.
Qed.

Lemma two_source_handled : handled f s (two_source f s).
Proof using Hf Hs.
  unfold two_source.
  set (r := match f.(shift_amount) with 2 => _ | _ => _ end).
  assert (Hr : forall z, r = Some z -> 0 <= z).
  { pose proof (nonneg_read f.(rn) (width f) false). pose proof (nonneg_read f.(rm) (width f) false).
    assert (Hw : forall v, 0 <= wrap 64 v) by (intros v; apply (in_range_nonneg 64), wrap_range; lia).
    assert (Hw32 : forall v, 0 <= wrap 32 v) by (intros v; apply (in_range_nonneg 32), wrap_range; lia).
    intros z Hz. unfold r in Hz.
    repeat match type of Hz with
    | Some _ = Some _ => injection Hz as <-
    | None = Some _ => discriminate Hz
    | match ?v with _ => _ end = Some _ => destruct v
    end; unfold signed_divide, arithmetic_shift_right;
    repeat match goal with |- context [if ?b then _ else _] => destruct b eqn:? end;
    try apply Hw; try apply Hw32; try lia;
    first [apply Z.shiftr_nonneg; done | apply Z.div_pos; lia]. }
  destruct r as [z|]; [|by apply handled_false].
  apply handled_write; [done|done|]. apply masked_range. by apply Hr.
Qed.

Lemma conditional_compare_handled : handled f s (conditional_compare f s).
Proof using Hf Hs.
  unfold conditional_compare. destruct (negb _); by apply handled_flags.
Qed.

Lemma conditional_select_handled : handled f s (conditional_select f s).
Proof using Hf Hs.
  unfold conditional_select. apply handled_write; [done|done|].
  destruct (evaluate_a64 _ _); [by apply read_range_64|]. apply masked_range.
  assert (Hn : forall v, 0 <= unot 64 v) by (intros v; apply (in_range_nonneg 64), unot_range; lia).
  destruct (f.(bit10)); [apply (in_range_nonneg 64), wrap_range; lia|].
  destruct (f.(subtract)); [apply Hn|apply nonneg_read].
Qed.

Lemma three_source_handled : handled f s (three_source f s).
Proof using Hf Hs.
  unfold three_source. set (r := match f.(opcode_3) with 1 => _ | _ => _ end).
  assert (Hacc : forall a p, in_range 64 (accumulate f a p)).
  { intros a p. unfold accumulate. destruct (f.(subtract_product)); apply wrap_range; lia. }
  assert (Hr : forall z, r = Some z -> in_range 64 z).
  { intros z Hz. unfold r in Hz.
    repeat match type of Hz with
    | Some _ = Some _ => injection Hz as <-
    | None = Some _ => discriminate Hz
    | match ?v with _ => _ end = Some _ => destruct v
    end; try apply Hacc; apply wrap_range; lia. }
  destruct (f.(opcode_3) =? 0).
  - apply handled_write; [done|done|]. apply masked_range. by apply (in_range_nonneg 64).
  - destruct r as [z|]; [|by apply handled_false]. apply handled_write; [done|done|]. by apply Hr.
Qed.

Lemma adr_handled source_pc page : handled f s (adr source_pc f page s).
Proof using Hf Hs. unfold adr. apply handled_write; [done|done|]. apply wrap_range. lia. Qed.
End Handlers.

(** ** Bytes *)

Lemma reverse_each_forall (P : Z -> Prop) fuel size l :
  Forall P l -> Forall P (reverse_each fuel size l).
Proof.
  revert l. induction fuel as [|fuel IH]; intros l Hl; [done|]. cbn [reverse_each].
  destruct l as [|b l]; [done|]. apply Forall_app. split; [|by apply IH, Forall_drop].
  apply Forall_rev. by apply Forall_take.
Qed.

Lemma reverse_each_length fuel size l : length (reverse_each fuel size l) = length l.
Proof.
  revert l. induction fuel as [|fuel IH]; intros l; [done|]. cbn [reverse_each].
  destruct l as [|b l]; [done|]. rewrite length_app, length_rev, IH, <- length_app. by rewrite take_drop.
Qed.

Lemma reverse_chunks_range v bits c : in_range 64 (reverse_chunks v bits c).
Proof.
  unfold reverse_chunks.
  set (l := reverse_each _ _ _ ++ _).
  assert (Hlen : length l = 8%nat).
  { unfold l. rewrite length_app, reverse_each_length, <- length_app, take_drop. apply to_le_bytes_length. }
  replace 64 with (8 * Z.of_nat (length l)) by lia. apply from_le_bytes_range.
  pose proof (to_le_bytes_range 8 v). apply Forall_app. split; [|by apply Forall_drop].
  apply reverse_each_forall. by apply Forall_take.
Qed.

Lemma swap_bytes_range w v : w = 32 \/ w = 64 -> in_range w (swap_bytes w v).
Proof.
  intros Hw. unfold swap_bytes.
  assert (Hlen : w = 8 * Z.of_nat (length (rev (to_le_bytes (w / 8) v)))).
  { rewrite length_rev, to_le_bytes_length. by destruct Hw as [-> | ->]. }
  rewrite Hlen at 1. apply from_le_bytes_range, Forall_rev, to_le_bytes_range.
Qed.

(** Bit [j] of a reversal is bit [w - 1 - j] of the value. *)
Lemma testbit_reverse_bits w v j :
  0 <= w -> 0 <= j -> Z.testbit (reverse_bits w v) j = (j <? w) && Z.testbit v (w - 1 - j).
Proof.
  intros Hw Hj. unfold reverse_bits.
  assert (Hgen : forall l, Forall (fun i => 0 <= i < w) l ->
    Z.testbit (foldr (fun i acc => Z.lor (shl w (b2z (Z.testbit v i)) (w - 1 - i)) acc) 0 l) j =
    existsb (fun i => (j =? w - 1 - i) && Z.testbit v i) l).
  { induction 1 as [|i l Hi Hl IH]; [apply Z.bits_0|]. cbn [foldr existsb].
    rewrite Z.lor_spec, IH, testbit_shl by lia. f_equal.
    destruct (Z.eqb_spec j (w - 1 - i)) as [->|Hne].
    - rewrite Z.sub_diag. destruct (Z.ltb_spec (w - 1 - i) w); [|lia]. by destruct (Z.testbit v i).
    - destruct (Z.ltb_spec j w); [|done]. destruct (Z.testbit v i); [|by rewrite Z.bits_0].
      destruct (Z.lt_ge_cases (j - (w - 1 - i)) 0); [by rewrite Z.testbit_neg_r|].
      apply (testbit_high 1); [lia|split; simpl; lia]. }
  rewrite Hgen by (apply Forall_forall; intros i Hi%elem_of_seqZ; lia).
  apply Bool.eq_true_iff_eq. rewrite existsb_exists, andb_true_iff, Z.ltb_lt. split.
  - intros (i & Hi & Hb). apply list_elem_of_In, elem_of_seqZ in Hi.
    apply andb_true_iff in Hb as [->%Z.eqb_eq Hb]. split; [lia|].
    by replace (w - 1 - (w - 1 - i)) with i by lia.
  - intros [Hlt Hb]. exists (w - 1 - j). split; [apply list_elem_of_In, elem_of_seqZ; lia|].
    rewrite Hb. replace (w - 1 - (w - 1 - j)) with j by lia. by rewrite Z.eqb_refl.
Qed.

Lemma reverse_bits_range w v : 0 <= w -> in_range w (reverse_bits w v).
Proof.
  intros Hw. apply in_range_of_bits; [done| |].
  - unfold reverse_bits. generalize (seqZ 0 w). intros l.
    induction l as [|i l IH]; simpl; [done|]. apply Z.lor_nonneg. split; [|done].
    apply (in_range_nonneg w), shl_range. done.
  - intros i Hi. rewrite testbit_reverse_bits by lia. by destruct (Z.ltb_spec i w); [lia|].
Qed.

Lemma leading_zeros_range w v : 1 <= w -> in_range w v -> 0 <= leading_zeros w v <= w.
Proof.
  intros Hw [Hv1 Hv2]. unfold leading_zeros. destruct (Z.eqb_spec v 0); [lia|].
  pose proof (Z.log2_nonneg v). assert (Z.log2 v < w) by (apply Z.log2_lt_pow2; lia). lia.
Qed.

Lemma one_source_handled f s : fields_ok f -> state_ok s -> handled f s (one_source f s).
Proof.
  intros Hf Hs. unfold one_source. set (v := if width f =? 64 then _ else _).
  assert (Hv : in_range (width f) v).
  { unfold v. destruct (width_cases f) as [Hw|Hw]; rewrite Hw; simpl; [apply wrap_range; lia|].
    by apply read_range_64. }
  pose proof (width_cases f) as Hw. assert (Hw1 : 1 <= width f <= 64) by lia.
  assert (Hup : forall z, in_range (width f) z -> in_range 64 z)
    by (intros z; apply in_range_le; lia).
  assert (Hsmall : forall z, 0 <= z <= width f -> in_range 64 z) by (intros z Hz; split; lia).
  pose proof (leading_zeros_range (width f) v ltac:(lia) Hv) as Hlz.
  pose proof (leading_zeros_range (width f) (unot (width f) v) ltac:(lia)
    ltac:(apply unot_range; lia)) as Hlz'.
  set (r := match f.(shift_amount) with 0 => _ | _ => _ end).
  assert (Hr : forall z, r = Some z -> in_range 64 z).
  { intros z Hz. unfold r in Hz.
    repeat match type of Hz with
    | Some _ = Some _ => injection Hz as <-
    | None = Some _ => discriminate Hz
    | match ?q with _ => _ end = Some _ => destruct q
    end; try apply reverse_chunks_range; try (by apply Hup, swap_bytes_range);
    try (apply Hup, reverse_bits_range; lia); apply Hsmall; repeat case_match; lia. }
  destruct r as [z|]; [|by apply handled_false]. apply handled_write; [done|done|]. by apply Hr.
Qed.

(** Every integer instruction: no panic, invariant and frame. *)
Lemma dispatch_handled source_pc i s :
  fields_ok (operands i) -> state_ok s -> handled (operands i) s (dispatch source_pc i s).
Proof.
  intros Hf Hs. unfold dispatch. destruct i; cbn [operands] in *.
  all: first [ by apply move_wide_handled | by apply add_sub_shifted_handled
    | by apply add_sub_extended_handled | by apply logical_immediate_handled
    | by apply logical_shifted_handled | by apply bitfield_handled | by apply extract_handled
    | by apply two_source_handled | by apply conditional_compare_handled
    | by apply conditional_select_handled | by apply three_source_handled
    | by apply one_source_handled | by apply adr_handled | by apply handled_add_sub ].
Qed.

(** * What the integer instructions compute

    The functional behaviour of the handlers of [InterpInteger] against the
    arithmetic the architecture prescribes: registers as integers modulo [2^w],
    signed readings with [to_signed], results by their bits where the
    instruction permutes bits. *)

(** ** Flags *)

Lemma nzcv_of_bits (b1 b2 b3 b4 : bool) :
  from_a64_nzcv (StateNzcv.from_bits
    (Z.lor (Z.lor (Z.lor (if b1 then StateNzcv.N else 0) (if b2 then StateNzcv.Z_ else 0))
                  (if b3 then StateNzcv.C else 0)) (if b4 then StateNzcv.V else 0))) =
  mkNzcv b1 b2 b3 b4.
Proof. by destruct b1, b2, b3, b4. Qed.

Lemma sign_bit_test r w : 1 <= w <= 64 ->
  negb (Z.land r (shl 64 1 (w - 1)) =? 0) = Z.testbit r (w - 1).
Proof. intros Hw. rewrite shl_one by lia. apply bit_set_pow2. lia. Qed.

Lemma arithmetic_flags s r c o w : 1 <= w <= 64 ->
  from_a64_nzcv (set_arithmetic_flags s r c o w).(CpuState.nzcv) =
  mkNzcv (Z.testbit r (w - 1)) (r =? 0) c o.
Proof.
  intros Hw. unfold set_arithmetic_flags. cbn [CpuState.nzcv set_nzcv].
  rewrite sign_bit_test by done. apply nzcv_of_bits.
Qed.

(** The flags of a comparison decide every ordering of the operands. *)
Lemma subtract_conditions w lhs rhs :
  width_ok w ->
  let l := wrap w lhs in let r := wrap w rhs in
  let res := subtract_with_carry lhs rhs true w in
  let flags := mkNzcv (Z.testbit res.(awc_result) (w - 1)) (res.(awc_result) =? 0)
                      res.(awc_carry_out) res.(awc_overflow) in
  base_condition flags CEq = (l =? r) /\
  base_condition flags CCs = (r <=? l) /\
  base_condition flags CHi = (r <? l) /\
  base_condition flags CGe = (to_signed w r <=? to_signed w l) /\
  base_condition flags CGt = (to_signed w r <? to_signed w l).
Proof.
  intros Hw l r res flags. pose proof Hw as [Hw1 Hw2].
  assert (Hl : in_range w l) by (apply wrap_range; lia).
  assert (Hr : in_range w r) by (apply wrap_range; lia).
  pose proof (to_signed_range w l ltac:(lia) Hl) as Hsl. pose proof (to_signed_range w r ltac:(lia) Hr) as Hsr.
  pose proof (pow2_double w ltac:(lia)) as H2.
  unfold flags, res. rewrite subtract_with_carry_arith by done. fold l r. cbn -[Z.pow Z.leb Z.ltb Z.eqb].
  rewrite testbit_top by (lia || (apply wrap_range; lia)).
  assert (Hd : wrap w (l - r - 0) = if r <=? l then l - r else l - r + 2 ^ w).
  { unfold wrap. destruct Hl, Hr. destruct (Z.leb_spec r l).
    - rewrite Z.sub_0_r. apply Z.mod_small. lia.
    - rewrite Z.sub_0_r, <- (Z_mod_plus_full _ 1), Z.mul_1_l. apply Z.mod_small. lia. }
  rewrite Hd. destruct Hl as [Hl1 Hl2], Hr as [Hr1 Hr2]. rewrite Z.add_0_r, Z.sub_0_r. clear Hd.
  unfold to_signed in *.
  destruct (Z.ltb_spec l (2 ^ (w - 1))), (Z.ltb_spec r (2 ^ (w - 1))), (Z.leb_spec r l); split_and!;
    repeat match goal with
    | |- context [?a <=? ?b] => destruct (Z.leb_spec a b)
    | |- context [?a <? ?b] => destruct (Z.ltb_spec a b)
    | |- context [?a =? ?b] => destruct (Z.eqb_spec a b)
    end; simpl; lia || done.
Qed.

(** ** Addition and subtraction *)

(** The value and flags of [apply_add_sub] on [w]-bit operands. *)
Definition add_sub_value (f : Operands) (lhs rhs : Z) (c : bool) : Z :=
  if f.(subtract) then wrap (width f) (lhs - rhs - b2z (negb c))
  else wrap (width f) (lhs + rhs + b2z c).

Lemma add_sub_result_value f lhs rhs c :
  in_range (width f) lhs -> in_range (width f) rhs ->
  wrap 64 (awc_result (if f.(subtract) then subtract_with_carry lhs rhs c (bit_width f)
                       else add_with_carry lhs rhs c (bit_width f))) = add_sub_value f lhs rhs c.
Proof.
  intros Hl Hr. unfold add_sub_value, bit_width. pose proof (width_legal f) as Hw.
  pose proof (width_cases f) as Hc.
  destruct (f.(subtract)); [rewrite subtract_with_carry_arith by done|rewrite add_with_carry_arith by done];
    cbn [awc_result]; rewrite !(wrap_small (width f) lhs), !(wrap_small (width f) rhs) by done;
    apply wrap_small, (in_range_le (width f)); try lia; apply wrap_range; lia.
Qed.

(** A frame-respecting write of a general register. *)
Lemma apply_add_sub_general s f lhs rhs c :
  state_ok s -> 0 <= f.(rd) < 31 -> in_range (width f) lhs -> in_range (width f) rhs ->
  read (apply_add_sub s f lhs rhs c) f.(rd) 64 false = add_sub_value f lhs rhs c.
Proof.
  intros Hs Hrd Hl Hr. unfold apply_add_sub. rewrite add_sub_result_value by done.
  set (v := add_sub_value f lhs rhs c).
  assert (Hv : in_range (width f) v).
  { unfold v, add_sub_value. pose proof (width_cases f). destruct (f.(subtract)); apply wrap_range; lia. }
  assert (Hw : read (write s f.(rd) (width f) (negb f.(set_flags) && (f.(rd) =? 31)) v) f.(rd) 64 false = v).
  { destruct (width_cases f) as [Hw|Hw]; rewrite Hw in *.
    - rewrite read_64_write_32 by done. by apply wrap_small.
    - by apply read_write_same; auto. }
  destruct (f.(set_flags)); [|exact Hw]. unfold set_arithmetic_flags. exact Hw.
Qed.

(** ** Bit fields *)

(** With [N = sf] and [imms] below the width the element is the whole register. *)
Lemma element_length_full (w64 : bool) (s : Z) :
  0 <= s < (if w64 then 64 else 32) -> element_length w64 s = Some (if w64 then 6 else 5).
Proof.
  intros Hs.
  set (ok (b : bool) i := bool_decide (element_length b i = Some (if b then 6 else 5))).
  assert (Hall : forallb (ok true) (seqZ 0 64) && forallb (ok false) (seqZ 0 32) = true)
    by (vm_compute; reflexivity).
  apply andb_true_iff in Hall as [H64 H32]. rewrite forallb_forall in H64, H32.
  destruct w64.
  - specialize (H64 s ltac:(apply list_elem_of_In, elem_of_seqZ; lia)).
    by apply bool_decide_eq_true in H64.
  - specialize (H32 s ltac:(apply list_elem_of_In, elem_of_seqZ; lia)).
    by apply bool_decide_eq_true in H32.
Qed.

(** The bit [i] that BFM ([op = 1]), SBFM ([op = 0]) and UBFM ([op = 2]) produce:
    with [imms >= immr] a field of the source moves down to bit 0, otherwise the
    low bits of the source move up to bit [w - immr]. *)
Definition bitfield_bit (op w immr imms src dst i : Z) : bool :=
  let fill := if op =? 0 then Z.testbit src imms else if op =? 1 then Z.testbit dst i else false in
  if immr <=? imms
  then if i <=? imms - immr then Z.testbit src (i + immr) else fill
  else if i <? w - immr then (if op =? 1 then Z.testbit dst i else false)
  else if i <=? w - immr + imms then Z.testbit src (i - (w - immr))
  else fill.

Lemma mask_bits f i : 0 <= i -> Z.testbit (mask f) i = (i <? width f).
Proof.
  intros Hi. unfold mask, width, umax.
  destruct (f.(width_64)); [change (2 ^ 64 - 1) with (Z.ones 64)|change (2 ^ 32 - 1) with (Z.ones 32)];
    apply testbit_ones; lia.
Qed.

Lemma width_pow f : 2 ^ (if f.(width_64) then 6 else 5) = width f.
Proof. unfold width. by destruct (f.(width_64)). Qed.

Lemma rotate_index w i r : 0 < w -> 0 <= i < w -> 0 <= r < w ->
  (i + r) mod w = if i <? w - r then i + r else i - (w - r).
Proof.
  intros Hw Hi Hr. destruct (Z.ltb_spec i (w - r)); [apply Z.mod_small; lia|].
  replace (i + r) with (i - (w - r) + 1 * w) by lia. rewrite Z_mod_plus_full. apply Z.mod_small. lia.
Qed.

Lemma diff_index w s r : 0 < w -> 0 <= s < w -> 0 <= r < w ->
  (s - r) mod w = if r <=? s then s - r else s - r + w.
Proof.
  intros Hw Hs Hr. destruct (Z.leb_spec r s); [apply Z.mod_small; lia|].
  rewrite <- (Z_mod_plus_full _ 1), Z.mul_1_l. apply Z.mod_small. lia.
Qed.

(** The mask expression of [bitfield], bit by bit. *)
Lemma bitfield_mask_bits f op src dst rot wm tm immr imms i :
  0 <= i < width f -> 0 <= immr < width f -> 0 <= imms < width f -> op = 0 \/ op = 1 \/ op = 2 ->
  Z.testbit rot i = Z.testbit src ((i + immr) mod width f) ->
  Z.testbit wm i = ((i + immr) mod width f <? imms + 1) ->
  Z.testbit tm i = (i <? (imms - immr) mod width f + 1) ->
  Z.testbit (Z.land (Z.lor
     (Z.land (if (op =? 0) && negb (Z.land src (shl 64 1 imms) =? 0) then mask f
              else if op =? 1 then dst else 0) (unot 64 tm))
     (Z.land (match op with
              | 1 => Z.lor (Z.land dst (unot 64 wm)) (Z.land rot wm)
              | _ => Z.land rot wm end) tm)) (mask f)) i =
  bitfield_bit op (width f) immr imms src dst i.
Proof.
  intros Hi Hr Hs Hop Hrot Hwm Htm. pose proof (width_cases f) as Hw.
  assert (Hsign : negb (Z.land src (shl 64 1 imms) =? 0) = Z.testbit src imms)
    by (rewrite shl_one by lia; apply bit_set_pow2; lia).
  rewrite Hsign. unfold bitfield_bit.
  rewrite rotate_index in Hrot, Hwm by lia. rewrite diff_index in Htm by lia.
  destruct Hop as [->|[->| ->]]; cbn [Z.eqb andb Pos.eqb];
    [destruct (Z.testbit src imms)| |];
    rewrite ?Z.land_spec, ?Z.lor_spec, ?Z.land_spec, ?Z.lor_spec, ?Z.land_spec, !testbit_unot, ?mask_bits, ?Z.bits_0 by lia;
    rewrite ?Hrot, ?Hwm, Htm; clear Hrot Hwm Htm;
    destruct (Z.leb_spec immr imms), (Z.ltb_spec i (width f - immr));
    repeat match goal with
    | |- context [?a <? ?b] => destruct (Z.ltb_spec a b); try lia
    | |- context [?a <=? ?b] => destruct (Z.leb_spec a b); try lia
    end; rewrite ?andb_false_r, ?andb_true_r, ?orb_false_r, ?orb_false_l; try done;
    repeat f_equal; lia.
Qed.

Lemma bitfield_result f s :
  state_ok s -> fields_ok f -> f.(n) = f.(width_64) ->
  f.(immediate_6_high) < width f -> f.(shift_amount) < width f -> opcode_of f <> 3 ->
  f.(subtract_product) = (32 <=? f.(shift_amount)) ->
  exists v, bitfield f s = (Ok true, write s f.(rd) (width f) false v) /\ in_range (width f) v /\
    forall i, 0 <= i < width f ->
      Z.testbit v i = bitfield_bit (opcode_of f) (width f) f.(immediate_6_high) f.(shift_amount)
        (read s f.(rn) (width f) false) (read s f.(rd) (width f) false) i.
Proof.
  intros Hs Hf Hn Hr Hsa Hop Hsp. pose proof (ok_immr f Hf). pose proof (ok_shift_amount f Hf).
  pose proof (width_cases f) as Hw. unfold bitfield. rewrite Hn, Bool.eqb_reflx. cbn [negb orb].
  assert (Hg : negb f.(width_64) && f.(subtract_product) = false).
  { rewrite Hsp. unfold width in Hsa. destruct (f.(width_64)); [done|]. simpl. apply Z.leb_gt. lia. }
  rewrite Hg. destruct (Z.eqb_spec (opcode_of f) 3); [done|].
  destruct (decode_masks_ok f.(width_64) f.(immediate_6_high) f.(shift_amount) (width f) false
    (if f.(width_64) then 6 else 5)) as (wm & tm & -> & [_ Hwm] & [_ Htm]); try done; try lia.
  { apply element_length_full. unfold width in Hsa. lia. }
  { by destruct (f.(width_64)). }
  { rewrite width_pow. lia. }
  rewrite width_pow in Hwm, Htm. rewrite !(Z.mod_small f.(shift_amount)), !(Z.mod_small f.(immediate_6_high)) in Hwm by lia.
  eexists. split; [reflexivity|]. cbn [write_mask test_mask]. split.
  - unfold mask, umax, width. rewrite Z.land_comm.
    destruct (f.(width_64)); [change (2 ^ 64 - 1) with (Z.ones 64)|change (2 ^ 32 - 1) with (Z.ones 32)];
      rewrite Z.land_comm, land_ones_wrap by lia; apply wrap_range; lia.
  - intros i Hi. pose proof (opcode_of_range f). apply bitfield_mask_bits; try lia.
    + rewrite testbit_wrap by lia. destruct (Z.ltb_spec i 64); [|lia]. simpl. unfold bit_width.
      by apply testbit_rotate_right; [apply width_legal|lia|].
    + rewrite Hwm by done. done.
    + rewrite Htm by done. by rewrite Z.add_0_r, (Z.mod_small i) by lia.
Qed.

(** ** Masking with the operation width *)

Lemma land_mask f v : Z.land v (mask f) = wrap (width f) v.
Proof.
  unfold mask, width, umax.
  destruct (f.(width_64)); [change (2 ^ 64 - 1) with (Z.ones 64)|change (2 ^ 32 - 1) with (Z.ones 32)];
    apply land_ones_wrap; lia.
Qed.

Lemma wrap_width_64 f v : wrap (width f) (wrap 64 v) = wrap (width f) v.
Proof. apply wrap_wrap_le. destruct (width_cases f) as [-> | ->]; lia. Qed.

(** A value that agrees with [b] modulo [2^w] is written as [b]. *)
Lemma written_value {A} w (g : Z -> A) a b :
  wrap w a = wrap w b -> in_range w b -> (Ok true, g (wrap w a)) = (@Ok Empty_set bool true, g b) /\ in_range w b.
Proof. intros Ha Hb. rewrite Ha, wrap_small by done. done. Qed.

Lemma in_range_div_pow2 w v k : 0 <= w -> 0 <= k -> in_range w v -> in_range w (v / 2 ^ k).
Proof. intros Hw Hk Hv. rewrite <- Z.shiftr_div_pow2 by done. by apply in_range_shr. Qed.

(** ** Two-source: division and variable shifts *)

Definition two_source_value (op w l r : Z) : option Z :=
  match op with
  | 2 => Some (if r =? 0 then 0 else l / r)
  | 3 => Some (if r =? 0 then 0 else wrap w (Z.quot (to_signed w l) (to_signed w r)))
  | 8 => Some (wrap w (l * 2 ^ (r mod w)))
  | 9 => Some (l / 2 ^ (r mod w))
  | 10 => Some (wrap w (to_signed w l / 2 ^ (r mod w)))
  | 11 => Some (rotate_right l w (r mod w))
  | _ => None
  end.

Lemma shift_operand w r : w = 32 \/ w = 64 -> wrap 8 (Z.land r (w - 1)) = r mod w.
Proof.
  intros Hw. assert (Hp : w = 2 ^ (Z.log2 w)) by (by destruct Hw as [-> | ->]).
  rewrite Hp at 1. rewrite land_pow2_mod by apply Z.log2_nonneg. rewrite <- Hp. apply wrap_small.
  pose proof (Z.mod_pos_bound r w ltac:(lia)). split; [lia|]. change (2 ^ 8) with 256. lia.
Qed.

Lemma to_signed_zero w r : 1 <= w -> in_range w r -> (to_signed w r =? 0) = (r =? 0).
Proof.
  intros Hw [Hr1 Hr2]. unfold to_signed. pose proof (pow2_double w Hw).
  destruct (Z.ltb_spec r (2 ^ (w - 1))); [done|].
  destruct (Z.eqb_spec (r - 2 ^ w) 0), (Z.eqb_spec r 0); lia.
Qed.

Lemma signed_divide_spec w l r :
  w = 32 \/ w = 64 -> in_range w l -> in_range w r ->
  signed_divide l r w = if r =? 0 then 0 else wrap w (Z.quot (to_signed w l) (to_signed w r)).
Proof.
  intros Hw Hl Hr. unfold signed_divide.
  destruct Hw as [-> | ->]; cbn [Z.eqb Pos.eqb]; rewrite ?(wrap_small 32 l), ?(wrap_small 32 r) by done;
    by rewrite to_signed_zero by (done || lia).
Qed.

Lemma two_source_result f s :
  state_ok s ->
  let w := width f in
  match two_source_value f.(shift_amount) w (read s f.(rn) w false) (read s f.(rm) w false) with
  | Some v => two_source f s = (Ok true, write s f.(rd) w false v) /\ in_range w v
  | None => two_source f s = (Ok false, s)
  end.
Proof.
  intros Hs w. pose proof (width_cases f) as Hw. fold w in Hw. unfold two_source. fold w.
  pose proof (read_range s f.(rn) w false Hs Hw) as Hl. pose proof (read_range s f.(rm) w false Hs Hw) as Hr.
  set (l := read s f.(rn) w false) in *. set (r := read s f.(rm) w false) in *.
  rewrite shift_operand by done. pose proof (Z.mod_pos_bound r w ltac:(lia)) as Hm.
  rewrite (Z.mod_small (r mod w) 64) by lia.
  assert (Hmask : forall v, Z.land v (mask f) = wrap w v) by (intros v; apply land_mask).
  unfold two_source_value, bit_width. fold w.
  repeat match goal with |- context [match ?v with _ => _ end] =>
    match v with f.(shift_amount) => idtac | Zpos ?p => idtac | _ => is_var v end; destruct v end; try done.
  all: rewrite Hmask; apply (written_value w (fun v => write s f.(rd) w false v)).
  - by rewrite (wrap_width_64 f).
  - apply rotate_right_range, width_legal.
  - unfold shr. by rewrite Z.shiftr_div_pow2 by lia.
  - apply in_range_div_pow2; [lia|lia|done].
  - by rewrite signed_divide_spec.
  - destruct (r =? 0); [apply in_range_0; lia|apply wrap_range; lia].
  - unfold arithmetic_shift_right. destruct Hw as [Hw|Hw]; rewrite Hw in *; cbn [Z.eqb Pos.eqb];
      rewrite ?(wrap_small 32 l) by done; by rewrite Z.shiftr_div_pow2 by lia.
  - apply wrap_range. lia.
  - unfold shl. rewrite Z.shiftl_mul_pow2 by lia. by rewrite (wrap_width_64 f), wrap_wrap.
  - apply wrap_range. lia.
  - done.
  - destruct (Z.eqb_spec r 0); [apply in_range_0; lia|]. destruct Hl, Hr. split; [by apply Z.div_pos; lia|].
    clearbody l r. apply (Z.le_lt_trans _ l); [|done]. apply Z.div_le_upper_bound; [lia|].
    assert (1 <= r) by lia. nia.
Qed.

(** ** Three-source: multiply-accumulate and high halves *)

Definition three_source_value (f : Operands) (s : A64State) : option (Z * Z) :=
  let acc (a p : Z) := if f.(subtract_product) then a - p else a + p in
  let w := width f in
  let x64 r := read s r 64 false in
  let x32 r := read s r 32 false in
  let high_ok := (f.(ra) =? 31) && negb f.(subtract_product) in
  match f.(opcode_3) with
  | 0 => Some (w, wrap w (acc (read s f.(ra) w false)
                             (read s f.(rn) w false * read s f.(rm) w false)))
  | 1 => Some (64, wrap 64 (acc (x64 f.(ra)) (to_signed 32 (x32 f.(rn)) * to_signed 32 (x32 f.(rm)))))
  | 2 => if high_ok
         then Some (64, wrap 64 (to_signed 64 (x64 f.(rn)) * to_signed 64 (x64 f.(rm)) / 2 ^ 64))
         else None
  | 5 => Some (64, wrap 64 (acc (x64 f.(ra)) (x32 f.(rn) * x32 f.(rm))))
  | 6 => if high_ok then Some (64, x64 f.(rn) * x64 f.(rm) / 2 ^ 64) else None
  | _ => None
  end.

Lemma wrap_sub_l w a b : wrap w (wrap w a - b) = wrap w (a - b).
Proof. unfold wrap. by rewrite Zminus_mod_idemp_l. Qed.
Lemma wrap_sub_r w a b : wrap w (a - wrap w b) = wrap w (a - b).
Proof. unfold wrap. by rewrite Zminus_mod_idemp_r. Qed.
Lemma wrap_add_l w a b : wrap w (wrap w a + b) = wrap w (a + b).
Proof. unfold wrap. by rewrite Zplus_mod_idemp_l. Qed.
Lemma wrap_add_r w a b : wrap w (a + wrap w b) = wrap w (a + b).
Proof. unfold wrap. by rewrite Zplus_mod_idemp_r. Qed.

(** A signed reading does not matter modulo [2^w]. *)
Lemma wrap_signed_sum w a b :
  in_range w a -> wrap w (to_signed w a + b) = wrap w (a + b).
Proof. intros Ha. by rewrite <- wrap_add_l, wrap_to_signed. Qed.

Lemma wrap_signed_diff w a b :
  in_range w a -> wrap w (to_signed w a - b) = wrap w (a - b).
Proof. intros Ha. by rewrite <- wrap_sub_l, wrap_to_signed. Qed.

Lemma product_fits a b :
  - 2 ^ 31 <= a < 2 ^ 31 -> - 2 ^ 31 <= b < 2 ^ 31 -> - 2 ^ 63 <= a * b < 2 ^ 63.
Proof.
  intros Ha Hb. assert (Hp : 2 ^ 62 = 2 ^ 31 * 2 ^ 31) by reflexivity. change (2 ^ 63) with (2 * 2 ^ 62).
  rewrite Hp. generalize dependent (2 ^ 31). intros m Ha Hb _. nia.
Qed.

Lemma high_half_range a b : in_range 64 a -> in_range 64 b -> in_range 64 (a * b / 2 ^ 64).
Proof.
  unfold in_range. assert (Hp : 0 < 2 ^ 64) by lia. generalize dependent (2 ^ 64).
  intros m Hm [Ha1 Ha2] [Hb1 Hb2]. split; [apply Z.div_pos; nia|]. apply Z.div_lt_upper_bound; nia.
Qed.

Lemma three_source_result f s :
  state_ok s -> fields_ok f ->
  match three_source_value f s with
  | Some (w, v) => three_source f s = (Ok true, write s f.(rd) w false v) /\ in_range w v
  | None => three_source f s = (Ok false, s)
  end.
Proof.
  intros Hs Hf. pose proof (ok_opcode_3 f Hf) as Ho. pose proof (width_cases f) as Hw.
  assert (Hread : forall i w, w = 32 \/ w = 64 -> in_range w (read s i w false))
    by (intros; by apply read_range).
  unfold three_source, three_source_value, accumulate.
  assert (f.(opcode_3) = 0 \/ f.(opcode_3) = 1 \/ f.(opcode_3) = 2 \/ f.(opcode_3) = 3 \/
          f.(opcode_3) = 4 \/ f.(opcode_3) = 5 \/ f.(opcode_3) = 6 \/ f.(opcode_3) = 7) as Hc by lia.
  destruct Hc as [-> |[->|[->|[->|[->|[->|[->| ->]]]]]]]; cbn [Z.eqb Pos.eqb]; try done.
  - rewrite land_mask. split; [|apply wrap_range; lia]. do 2 f_equal.
    destruct (f.(subtract_product)); rewrite wrap_width_64;
      [rewrite <- wrap_sub_r|rewrite <- wrap_add_r]; rewrite wrap_width_64;
      [by rewrite wrap_sub_r|by rewrite wrap_add_r].
  - split; [|apply wrap_range; lia]. do 2 f_equal. rewrite !(wrap_small 32) by auto.
    pose proof (to_signed_range 32 (read s f.(rn) 32 false) ltac:(lia) ltac:(auto)).
    pose proof (to_signed_range 32 (read s f.(rm) 32 false) ltac:(lia) ltac:(auto)).
    rewrite to_signed_wrap by (lia || by apply product_fits).
    destruct (f.(subtract_product)); [apply wrap_signed_diff|apply wrap_signed_sum]; auto.
  - destruct (_ && _); [|done]. split; [|apply wrap_range; lia]. by rewrite Z.shiftr_div_pow2 by lia.
  - split; [|apply wrap_range; lia]. do 2 f_equal. rewrite !(wrap_small 32) by auto.
    destruct (f.(subtract_product)); [by rewrite wrap_sub_r|by rewrite wrap_add_r].
  - destruct (_ && _); [|done]. rewrite Z.shiftr_div_pow2 by lia.
    assert (Hv : in_range 64 (read s f.(rn) 64 false * read s f.(rm) 64 false / 2 ^ 64))
      by (apply high_half_range; auto).
    rewrite wrap_small by done. by split.
Qed.

(** ** Extraction from a register pair *)

Lemma concat_bits w h l j : 0 <= w -> in_range w l -> 0 <= j ->
  Z.testbit (h * 2 ^ w + l) j = if j <? w then Z.testbit l j else Z.testbit h (j - w).
Proof.
  intros Hw Hl Hj. destruct (Z.ltb_spec j w).
  - rewrite <- (Z.mod_pow2_bits_low _ w) by lia. rewrite Z.add_comm, Z_mod_plus_full.
    by rewrite Z.mod_small.
  - replace j with (j - w + w) at 1 by lia. rewrite <- Z.div_pow2_bits by lia.
    assert (0 < 2 ^ w) by (apply Z.pow_pos_nonneg; lia).
    rewrite Z.div_add_l by lia. by rewrite Z.div_small, Z.add_0_r.
Qed.

Lemma extract_result f s :
  state_ok s -> 0 <= f.(shift_amount) < width f -> f.(n) = f.(width_64) ->
  let w := width f in
  extract f s = (Ok true, write s f.(rd) w false
    (wrap w ((read s f.(rn) w false * 2 ^ w + read s f.(rm) w false) / 2 ^ f.(shift_amount)))).
Proof.
  intros Hs Hsa Hn w. unfold extract. fold w in Hsa |- *. rewrite Hn, Bool.eqb_reflx. cbn [negb orb].
  pose proof (width_cases f) as Hw. fold w in Hw.
  assert (Hg : (w =? 32) && (32 <=? f.(shift_amount)) = false).
  { destruct (Z.eqb_spec w 32); [|done]. apply Z.leb_gt. lia. }
  rewrite Hg, land_mask. fold w. do 2 f_equal.
  pose proof (read_range s f.(rm) w false Hs Hw) as Hl.
  set (l := read s f.(rm) w false) in *. set (h := read s f.(rn) w false).
  apply (in_range_bits_ext w); [lia|apply wrap_range; lia|apply wrap_range; lia|].
  intros i Hi. rewrite !testbit_wrap by lia. destruct (Z.ltb_spec i w); [|lia]. cbn [andb].
  rewrite Z.div_pow2_bits, concat_bits by (done || lia).
  destruct (Z.eqb_spec f.(shift_amount) 0) as [->|].
  - rewrite Z.add_0_r. by destruct (Z.ltb_spec i w); [|lia].
  - unfold shr. bits. destruct (Z.ltb_spec i 64); [|lia]. cbn [andb].
    destruct (Z.ltb_spec (i + f.(shift_amount)) w).
    + rewrite (Z.testbit_neg_r h) by lia. apply orb_false_r.
    + rewrite (testbit_high w l) by (done || lia). cbn [orb]. f_equal. lia.
Qed.

(** ** Byte and bit reversal, counting *)

(** The byte that lands at byte [k] when each [c]-byte chunk is reversed. *)
Definition reversed_byte (c k : Z) : Z := c * (k / c) + (c - 1 - k mod c).

Ltac byte_cases i :=
  let k := fresh "k" in let Hk := fresh "Hk" in
  pose proof (Z.mod_pos_bound i 8 ltac:(lia));
  assert (Hk : 0 <= i / 8 < 8) by (split; [apply Z.div_pos; lia|apply Z.div_lt_upper_bound; lia]);
  assert (i / 8 = 0 \/ i / 8 = 1 \/ i / 8 = 2 \/ i / 8 = 3 \/ i / 8 = 4 \/ i / 8 = 5 \/ i / 8 = 6 \/ i / 8 = 7)
    as [k|[k|[k|[k|[k|[k|[k|k]]]]]]] by lia;
  rewrite k;
  try match goal with |- _ = Z.testbit ?v (8 * ?e + _) =>
    let e' := eval vm_compute in e in exact (byte_bits v e' (i mod 8) ltac:(lia) ltac:(lia)) end.

Lemma reverse_chunks_bits v w c i :
  w = 32 \/ w = 64 -> c = 2 \/ c = 4 -> 0 <= i < w ->
  Z.testbit (reverse_chunks v w (Z.to_nat c)) i = Z.testbit v (8 * reversed_byte c (i / 8) + i mod 8).
Proof.
  intros Hw Hc Hi. unfold reverse_chunks. rewrite from_le_bytes_bits; [|
    pose proof (to_le_bytes_range 8 v); apply Forall_app; split;
      [by apply reverse_each_forall, Forall_take|by apply Forall_drop] |lia].
  assert (Hb : to_le_bytes 8 v = map (fun k => wrap 8 (shr v (8 * k))) [0;1;2;3;4;5;6;7]) by reflexivity.
  rewrite Hb. unfold reversed_byte.
  destruct Hw as [-> | ->], Hc as [-> | ->]; byte_cases i;
    exfalso; assert (i / 8 < 4) by (apply Z.div_lt_upper_bound; lia); lia.
Qed.

Lemma swap_bytes_bits v w i :
  w = 32 \/ w = 64 -> 0 <= i < w ->
  Z.testbit (swap_bytes w v) i = Z.testbit v (8 * reversed_byte (w / 8) (i / 8) + i mod 8).
Proof.
  intros Hw Hi. unfold swap_bytes. rewrite from_le_bytes_bits;
    [|apply Forall_rev, to_le_bytes_range|lia]. unfold reversed_byte.
  destruct Hw as [-> | ->]; byte_cases i;
    exfalso; assert (i / 8 < 4) by (apply Z.div_lt_upper_bound; lia); lia.
Qed.

(** [leading_zeros]: the bits above are clear and the next one is set. *)
Lemma leading_zeros_spec w v :
  1 <= w -> in_range w v ->
  let z := leading_zeros w v in
  0 <= z <= w /\ (forall i, w - z <= i < w -> Z.testbit v i = false) /\
  (z < w -> Z.testbit v (w - 1 - z) = true).
Proof.
  intros Hw Hv z. split; [by apply leading_zeros_range|]. unfold z, leading_zeros. destruct Hv as [Hv1 Hv2].
  destruct (Z.eqb_spec v 0) as [->|Hne]; [split; [intros; apply Z.bits_0|lia]|].
  split.
  - intros i Hi. apply Z.bits_above_log2; lia.
  - intros _. replace (w - 1 - (w - 1 - Z.log2 v)) with (Z.log2 v) by lia. apply Z.bit_log2. lia.
Qed.

(** The sign-run length that CLS returns. *)
Lemma count_leading_sign w v :
  1 <= w -> in_range w v ->
  let sign := Z.testbit v (w - 1) in
  let c := Z.max 0 ((if shr v (w - 1) =? 0 then leading_zeros w v else leading_zeros w (unot w v)) - 1) in
  0 <= c < w /\ (forall i, w - 1 - c <= i < w -> Z.testbit v i = sign) /\
  (c < w - 1 -> Z.testbit v (w - 2 - c) = negb sign).
Proof.
  intros Hw Hv sign.
  assert (Hs : (shr v (w - 1) =? 0) = negb sign).
  { unfold sign, shr. rewrite testbit_top, Z.shiftr_div_pow2 by (done || lia). destruct Hv as [Hv1 Hv2].
    assert (0 < 2 ^ (w - 1)) by (apply Z.pow_pos_nonneg; lia).
    destruct (Z.leb_spec (2 ^ (w - 1)) v); simpl.
    - apply Z.eqb_neq. assert (1 <= v / 2 ^ (w - 1)) by (apply Z.div_le_lower_bound; lia). lia.
    - apply Z.eqb_eq, Z.div_small. lia. }
  rewrite Hs. destruct sign eqn:Hsign; cbn [negb].
  - pose proof (leading_zeros_spec w (unot w v) Hw ltac:(apply unot_range; lia)) as (Hr & Hhi & Hlo).
    set (z := leading_zeros w (unot w v)) in *. cbn zeta in *.
    assert (Hnot : forall i, 0 <= i < w -> Z.testbit (unot w v) i = negb (Z.testbit v i)).
    { intros i Hi. rewrite testbit_unot by lia. by destruct (Z.ltb_spec i w); [|lia]. }
    assert (Hz : 1 <= z).
    { destruct (Z.eq_dec z 0) as [H0|]; [|lia]. exfalso. rewrite H0 in Hlo. specialize (Hlo ltac:(lia)).
      rewrite Z.sub_0_r, Hnot in Hlo by lia. unfold sign in Hsign. by rewrite Hsign in Hlo. }
    rewrite Z.max_r by lia. split; [lia|]. split.
    + intros i Hi. specialize (Hhi i ltac:(lia)). rewrite Hnot in Hhi by lia. by apply negb_false_iff in Hhi.
    + intros Hlt. specialize (Hlo ltac:(lia)). rewrite Hnot in Hlo by lia.
      replace (w - 2 - (z - 1)) with (w - 1 - z) by lia. by apply negb_true_iff in Hlo.
  - pose proof (leading_zeros_spec w v Hw Hv) as (Hr & Hhi & Hlo).
    set (z := leading_zeros w v) in *. cbn zeta in *.
    assert (Hz : 1 <= z).
    { destruct (Z.eq_dec z 0) as [H0|]; [|lia]. exfalso. rewrite H0 in Hlo. specialize (Hlo ltac:(lia)).
      rewrite Z.sub_0_r in Hlo. unfold sign in Hsign. by rewrite Hsign in Hlo. }
    rewrite Z.max_r by lia. split; [lia|]. split.
    + intros i Hi. apply Hhi. lia.
    + intros Hlt. replace (w - 2 - (z - 1)) with (w - 1 - z) by lia. apply Hlo. lia.
Qed.

(** ** Operand fields of a decoded word *)

Lemma normalize_operands_of id bits i :
  normalize id bits = Ok i -> operands i = normalize_operands bits.
Proof.
  unfold normalize. cbv zeta. intros H.
  repeat match type of H with
  | Ok _ = Ok _ => injection H as <-
  | Panic = Ok _ => discriminate H
  | match ?v with _ => _ end = Ok _ => destruct v
  end; reflexivity.
Qed.

Lemma flag_testbit bits k : 0 <= k < 32 -> flag bits k = Z.testbit bits k.
Proof. intros Hk. unfold flag. rewrite shl_one by lia. apply (bit_set_pow2 bits k). lia. Qed.

(** Bit 15 is the top bit of [imms]. *)
Lemma imms_top bits : flag bits 15 = (32 <=? field bits 10 63).
Proof.
  rewrite flag_testbit by lia. pose proof (field_3f bits 10) as Hr.
  change 32 with (2 ^ (6 - 1)). rewrite <- testbit_top by (done || lia).
  unfold field, shr. rewrite Z.land_spec, Z.shiftr_spec by lia. change 63 with (Z.ones 6).
  rewrite testbit_ones by lia. cbn [Z.ltb]. by rewrite andb_true_r.
Qed.

(** [bits >> 31 != 0] is the [sf] flag of a 32-bit word. *)
Lemma sf_flag bits : in_range 32 bits -> negb (shr bits 31 =? 0) = flag bits 31.
Proof.
  intros Hb. rewrite flag_testbit by lia. change 31 with (32 - 1) at 2. rewrite testbit_top by (done || lia).
  unfold shr. rewrite Z.shiftr_div_pow2 by lia. destruct Hb as [Hb1 Hb2]. change (32 - 1) with 31.
  destruct (Z.leb_spec (2 ^ 31) bits).
  - apply negb_true_iff, Z.eqb_neq. assert (1 <= bits / 2 ^ 31) by (apply Z.div_le_lower_bound; lia). lia.
  - apply negb_false_iff, Z.eqb_eq, Z.div_small. lia.
Qed.

(** Two-bit field made of the flags 29 and 30. *)
Lemma opc_field bits : field bits 29 3 = b2z (flag bits 30) * 2 + b2z (flag bits 29).
Proof.
  rewrite !flag_testbit by lia. apply Z.bits_inj'. intros i Hi. unfold field, shr.
  rewrite Z.land_spec, Z.shiftr_spec by lia. change 3 with (Z.ones 2). rewrite testbit_ones by lia.
  destruct (Z.eq_dec i 0) as [->|]; [|destruct (Z.eq_dec i 1) as [->|]].
  - change (0 + 29) with 29. by destruct (Z.testbit bits 29), (Z.testbit bits 30).
  - change (1 + 29) with 30. by destruct (Z.testbit bits 29), (Z.testbit bits 30).
  - destruct (Z.ltb_spec i 2); [lia|]. rewrite andb_false_r. symmetry. apply (testbit_high 2); [lia|].
    destruct (Z.testbit bits 29), (Z.testbit bits 30); split; simpl; lia.
Qed.

Lemma allocated_bitfield bits :
  in_range 32 bits -> validate_a64 0x16 bits = Allocated ->
  let f := normalize_operands bits in
  f.(n) = f.(width_64) /\ f.(immediate_6_high) < width f /\ f.(shift_amount) < width f /\ opcode_of f <> 3.
Proof.
  intros Hb Ha.
  assert (Heq : validate_a64 0x16 bits =
    if negb (Bool.eqb (flag bits 22) (negb (shr bits 31 =? 0))) ||
       (negb (negb (shr bits 31 =? 0)) && ((32 <=? field bits 16 63) || (32 <=? field bits 10 63)))
    then Reserved "invalid bitfield width fields"
    else if field bits 29 3 =? 3 then Unallocated "unallocated bitfield opcode" else Allocated) by reflexivity.
  rewrite Heq, sf_flag in Ha by done. clear Heq. unfold width, opcode_of.
  cbn [normalize_operands n width_64 immediate_6_high shift_amount subtract set_flags].
  pose proof (field_3f bits 16). pose proof (field_3f bits 10). rewrite opc_field in Ha.
  destruct (flag bits 22), (flag bits 31); cbn [Bool.eqb negb orb andb] in Ha; try discriminate Ha.
  - destruct (Z.eqb_spec (b2z (flag bits 30) * 2 + b2z (flag bits 29)) 3); [discriminate Ha|].
    split_and!; [done|lia|lia|done].
  - destruct (Z.leb_spec 32 (field bits 16 63)), (Z.leb_spec 32 (field bits 10 63)); try discriminate Ha.
    cbn [orb] in Ha. destruct (Z.eqb_spec (b2z (flag bits 30) * 2 + b2z (flag bits 29)) 3); [discriminate Ha|].
    split_and!; [done|lia|lia|done].
Qed.

Lemma allocated_move_wide bits :
  in_range 32 bits -> validate_a64 0x10 bits = Allocated ->
  let f := normalize_operands bits in 16 * f.(opcode_2) + 16 <= width f /\ opcode_of f <> 1.
Proof.
  intros Hb Ha.
  assert (Heq : validate_a64 0x10 bits =
    if field bits 29 3 =? 1 then Unallocated "unallocated move-wide opcode"
    else if negb (negb (shr bits 31 =? 0)) && (2 <=? field bits 21 3)
    then Reserved "32-bit move-wide halfword is reserved" else Allocated) by reflexivity.
  rewrite Heq, sf_flag, opc_field in Ha by done. clear Heq. unfold width, opcode_of.
  cbn [normalize_operands opcode_2 width_64 subtract set_flags]. pose proof (field_3 bits 21).
  destruct (Z.eqb_spec (b2z (flag bits 30) * 2 + b2z (flag bits 29)) 1); [discriminate Ha|].
  destruct (flag bits 31); cbn [negb andb] in Ha; [split; [lia|done]|].
  destruct (Z.leb_spec 2 (field bits 21 3)); [discriminate Ha|]. split; [lia|done].
Qed.

(** ** Wide moves *)

Lemma move_wide_result f s :
  state_ok s -> fields_ok f -> 16 * f.(opcode_2) + 16 <= width f -> opcode_of f <> 1 ->
  let w := width f in let shift := 16 * f.(opcode_2) in
  exists v, move_wide f s = (Ok true, write s f.(rd) w false v) /\ in_range w v /\
    (opcode_of f = 2 -> v = f.(immediate_16) * 2 ^ shift) /\
    (opcode_of f = 0 -> v = 2 ^ w - 1 - f.(immediate_16) * 2 ^ shift) /\
    (opcode_of f = 3 -> forall i, 0 <= i < w -> Z.testbit v i =
       if (shift <=? i) && (i <? shift + 16) then Z.testbit f.(immediate_16) (i - shift)
       else Z.testbit (read s f.(rd) w false) i).
Proof.
  intros Hs Hf Hfit Hop w shift. pose proof (width_cases f) as Hw. fold w in Hw, Hfit.
  pose proof (ok_opcode_2 f Hf) as Ho. pose proof (ok_imm16 f Hf) as Hi.
  unfold move_wide. fold w.
  assert (Hg : (w =? 32) && (2 <=? f.(opcode_2)) = false).
  { destruct (Z.eqb_spec w 32); [|done]. apply Z.leb_gt. lia. }
  rewrite Hg. replace (f.(opcode_2) * 16) with shift by (unfold shift; lia).
  assert (Hrange : in_range w (f.(immediate_16) * 2 ^ shift)).
  { split; [apply Z.mul_nonneg_nonneg; [lia|apply Z.pow_nonneg; lia]|].
    apply (Z.lt_le_trans _ (2 ^ 16 * 2 ^ shift)).
    - apply Z.mul_lt_mono_pos_r; [apply Z.pow_pos_nonneg; lia|lia].
    - rewrite <- Z.pow_add_r by lia. apply Z.pow_le_mono_r; lia. }
  assert (Hshl : shl 64 f.(immediate_16) shift = f.(immediate_16) * 2 ^ shift).
  { unfold shl. rewrite Z.shiftl_mul_pow2 by lia. apply wrap_small, (in_range_le w); [lia|done]. }
  pose proof (opcode_of_range f) as Hrng.
  assert (opcode_of f = 0 \/ opcode_of f = 2 \/ opcode_of f = 3) as Hc by lia.
  destruct Hc as [Hc|[Hc|Hc]]; rewrite Hc; eexists; (split; [reflexivity|]); rewrite ?Hshl.
  - rewrite land_mask. fold w. rewrite unot_arith by (lia || (apply (in_range_le w); [lia|done])).
    assert (Heq : wrap w (2 ^ 64 - 1 - f.(immediate_16) * 2 ^ shift) = 2 ^ w - 1 - f.(immediate_16) * 2 ^ shift).
    { unfold wrap. replace (2 ^ 64 - 1 - f.(immediate_16) * 2 ^ shift) with
        (2 ^ w - 1 - f.(immediate_16) * 2 ^ shift + (2 ^ (64 - w) - 1) * 2 ^ w).
      - rewrite Z_mod_plus_full. apply Z.mod_small. destruct Hrange. lia.
      - rewrite Z.mul_sub_distr_r, <- Z.pow_add_r by lia. replace (64 - w + w) with 64 by lia. lia. }
    rewrite Heq. split; [destruct Hrange; split; lia|]. split_and!; [lia|done|lia].
  - split; [done|]. split_and!; [done|lia|lia].
  - pose proof (read_range s f.(rd) w false Hs Hw) as Hold.
    split; [|split; [lia|split; [lia|]]].
    + apply in_range_lor; [lia| |done]. apply in_range_land; [lia|done|].
      apply (in_range_nonneg 64), unot_range. lia.
    + intros _ i Hi'. rewrite <- Hshl. bits. destruct (Z.ltb_spec i 64); [|lia]. cbn [andb].
      destruct (Z.leb_spec shift i); [|rewrite !(Z.testbit_neg_r _ (i - shift)) by lia;
        by rewrite orb_false_r, andb_true_r].
      change 65535 with (Z.ones 16). rewrite testbit_ones by lia.
      destruct (Z.ltb_spec i (shift + 16)), (Z.ltb_spec (i - shift) 16); try lia; cbn [negb andb].
      * by rewrite andb_false_r.
      * rewrite (testbit_high 16 f.(immediate_16)); [by rewrite andb_true_r, orb_false_r|lia|split; lia].
Qed.

(** ** Claims *)

(** The outcome of every instruction of the family; the client of this file is [Interp]. *)
Lemma integer_execute_outcome source_pc id bits i s :
  normalize id bits = Ok i -> state_ok s ->
  exists r s', execute source_pc i s = (r, s') /\ state_ok s' /\
    ((r = Ok tt /\ s'.(pc) = wrap 64 (s.(pc) + 4) /\
      integer_frame (field bits 0 31) s (set_pc s' s.(pc))) \/
     (r = Err UnsupportedInstruction /\ s' = s)).
Proof.
  intros Hi Hs. pose proof (normalize_operands_of id bits i Hi) as Hop.
  assert (Hf : fields_ok (operands i)) by (rewrite Hop; apply normalize_fields_ok).
  destruct (dispatch_handled source_pc i s Hf Hs) as (b & Hb & Hok & Hfr & Hsame).
  unfold execute. destruct (dispatch source_pc i s) as [r s1]. cbn [fst snd] in *. subst r.
  rewrite Hop in Hfr. destruct b.
  - do 2 eexists. split; [reflexivity|]. split; [by apply advance_ok|]. left.
    split; [done|]. split; [cbn; by rewrite (fr_pc _ _ _ Hfr)|]. destruct Hfr. by split.
  - rewrite (Hsame eq_refl). do 2 eexists. split; [reflexivity|]. split; [done|]. by right.
Qed.

(** Every word the integer normalizer accepts executes safely from a
    well-formed state: no panic, the register-file invariant is kept, an
    executed instruction changes at most register [Rd] (or SP when [Rd] is 31)
    and the flags and advances the PC by 4, and an unsupported one changes
    nothing. *)
Theorem integer_execute_safe source_pc id bits i s :
  normalize id bits = Ok i -> state_ok s ->
  exists r s', execute source_pc i s = (r, s') /\ state_ok s' /\
    ((r = Ok tt /\ s'.(pc) = wrap 64 (s.(pc) + 4) /\
      integer_frame (field bits 0 31) s (set_pc s' s.(pc))) \/
     (r = Err UnsupportedInstruction /\ s' = s)).
Proof. exact (integer_execute_outcome source_pc id bits i s). Qed.

Lemma integer_execute_safe_witness :
  exists i, normalize 0x11 0x8b020020 = Ok i /\
  exists r s', execute 0 i A64State_default = (r, s') /\ state_ok s' /\
    ((r = Ok tt /\ s'.(pc) = wrap 64 (A64State_default.(pc) + 4) /\
      integer_frame (field 0x8b020020 0 31) A64State_default (set_pc s' A64State_default.(pc))) \/
     (r = Err UnsupportedInstruction /\ s' = A64State_default)).
Proof.
  eexists. split; [reflexivity|]. apply (integer_execute_safe 0 0x11 0x8b020020).
  - reflexivity.
  - apply A64State_default_ok.
Defined.

(** Compare and branch agree: after any flag-setting subtraction of two
    [w]-bit operands (SUBS/CMP in every form end in [apply_add_sub]), the
    conditions EQ/NE, CS/CC, HI/LS, GE/LT and GT/LE evaluated by a branch or a
    select decide equality, unsigned and signed ordering of the operands. *)
Theorem compare_decides f s lhs rhs :
  f.(subtract) = true -> f.(set_flags) = true ->
  in_range (width f) lhs -> in_range (width f) rhs ->
  let flags := (apply_add_sub s f lhs rhs true).(CpuState.nzcv) in
  let signed := to_signed (width f) in
  (evaluate_a64 CEq flags = (lhs =? rhs) /\ evaluate_a64 CNe flags = negb (lhs =? rhs)) /\
  (evaluate_a64 CCs flags = (rhs <=? lhs) /\ evaluate_a64 CCc flags = (lhs <? rhs)) /\
  (evaluate_a64 CHi flags = (rhs <? lhs) /\ evaluate_a64 CLs flags = (lhs <=? rhs)) /\
  (evaluate_a64 CGe flags = (signed rhs <=? signed lhs) /\ evaluate_a64 CLt flags = (signed lhs <? signed rhs)) /\
  (evaluate_a64 CGt flags = (signed rhs <? signed lhs) /\ evaluate_a64 CLe flags = (signed lhs <=? signed rhs)).
Proof.
  intros Hsub Hset Hl Hr flags signed. unfold flags, apply_add_sub. rewrite Hsub, Hset.
  pose proof (width_legal f) as Hw. pose proof (width_cases f) as Hc.
  destruct (subtract_conditions (width f) lhs rhs Hw) as (H1 & H2 & H3 & H4 & H5).
  rewrite !(wrap_small (width f)) in H1, H2, H3, H4, H5 by done.
  unfold bit_width in *. set (res := subtract_with_carry lhs rhs true (width f)) in *.
  assert (Hres : wrap 64 res.(awc_result) = res.(awc_result)).
  { apply wrap_small, (in_range_le (width f)); [lia|]. unfold res.
    rewrite subtract_with_carry_arith by done. apply wrap_range. lia. }
  rewrite Hres. unfold evaluate_a64. rewrite arithmetic_flags by lia. cbn [inverted].
  change (base_condition ?fl CNe) with (base_condition fl CEq).
  change (base_condition ?fl CCc) with (base_condition fl CCs).
  change (base_condition ?fl CLs) with (base_condition fl CHi).
  change (base_condition ?fl CLt) with (base_condition fl CGe).
  change (base_condition ?fl CLe) with (base_condition fl CGt).
  rewrite H1, H2, H3, H4, H5. rewrite !(Z.ltb_antisym _ _), ?negb_involutive. by split_and!.
Qed.

Lemma compare_decides_witness :
  let f := normalize_operands 0xeb02003f in
  evaluate_a64 CLt (apply_add_sub A64State_default f (2 ^ 64 - 1) 0 true).(CpuState.nzcv) = true /\
  evaluate_a64 CHi (apply_add_sub A64State_default f (2 ^ 64 - 1) 0 true).(CpuState.nzcv) = true.
Proof.
  destruct (compare_decides (normalize_operands 0xeb02003f) A64State_default (2 ^ 64 - 1) 0
    eq_refl eq_refl ltac:(vm_compute; split; [discriminate|reflexivity])
    ltac:(vm_compute; split; [discriminate|reflexivity])) as (_ & _ & [Hhi _] & [_ Hlt] & _).
  cbn zeta. split; [rewrite Hlt|rewrite Hhi]; reflexivity.
Defined.

(** Addition and subtraction write [Rd] (a general register): the
    immediate form adds the possibly shifted 12-bit immediate to [Rn] or SP,
    the shifted form applies LSL, LSR or ASR to [Rm], the carry form adds the
    carry flag; a 32-bit operation clears the upper half of [Rd]. *)
Theorem add_sub_result f s :
  state_ok s -> fields_ok f -> f.(rd) <> 31 ->
  let w := width f in
  let rn_sp := read s f.(rn) w true in let rn_zr := read s f.(rn) w false in
  let rm_zr := read s f.(rm) w false in
  (exists s', add_sub_immediate f s = (Ok true, s') /\ read s' f.(rd) 64 false =
     add_sub_value f rn_sp (f.(immediate_12) * (if f.(n) then 4096 else 1)) f.(subtract)) /\
  (exists s', add_sub_carry f s = (Ok true, s') /\ read s' f.(rd) 64 false =
     add_sub_value f rn_zr rm_zr (StateNzcv.carry s.(CpuState.nzcv))) /\
  (f.(shift_amount) < w -> f.(shift_kind) <> 3 ->
   exists s', add_sub_shifted f s = (Ok true, s') /\ read s' f.(rd) 64 false =
     add_sub_value f rn_zr
       (match f.(shift_kind) with
        | 0 => wrap w (rm_zr * 2 ^ f.(shift_amount))
        | 1 => rm_zr / 2 ^ f.(shift_amount)
        | _ => wrap w (to_signed w rm_zr / 2 ^ f.(shift_amount))
        end) f.(subtract)).
Proof.
  intros Hs Hf Hrd w rn_sp rn_zr rm_zr. pose proof (width_cases f) as Hw.
  pose proof (ok_rd f Hf). pose proof (ok_imm12 f Hf). pose proof (ok_shift_kind f Hf). pose proof (ok_shift_amount f Hf).
  assert (Hread : forall i b, in_range (width f) (read s i (width f) b)) by (intros; by apply read_range).
  split_and!.
  - eexists. split; [reflexivity|]. rewrite apply_add_sub_general; [|done|lia|apply Hread|].
    + f_equal. unfold shl. rewrite Z.shiftl_mul_pow2 by (destruct (f.(n)); lia).
      destruct (f.(n)); apply wrap_small; split; lia.
    + unfold shl. rewrite Z.shiftl_mul_pow2 by (destruct (f.(n)); lia).
      destruct (f.(n)); rewrite wrap_small by (split; lia);
        apply (in_range_le 32); try lia; split; lia.
  - eexists. split; [reflexivity|]. apply apply_add_sub_general; [done|lia|apply Hread|apply Hread].
  - intros Hsa Hk. unfold add_sub_shifted, shifted.
    assert (Hg : (width f =? 32) && (32 <=? f.(shift_amount)) = false).
    { fold w. destruct (Z.eqb_spec w 32); [|done]. apply Z.leb_gt. lia. }
    rewrite Hg. pose proof (Hread f.(rm) false) as Hm.
    assert (Hws : forall kind, a64_shift_with_carry (read s f.(rm) (width f) false) (bit_width f) kind
                    f.(shift_amount) false = Ok (shift (read s f.(rm) (width f) false) (width f) kind f.(shift_amount) false)).
    { intros kind. unfold a64_shift_with_carry, bit_width. by destruct Hw as [-> | ->]. }
    assert (f.(shift_kind) = 0 \/ f.(shift_kind) = 1 \/ f.(shift_kind) = 2) as Hc by lia.
    destruct Hc as [Hc|[Hc|Hc]]; rewrite Hc; cbn [CpuState.shift_kind]; rewrite Hws; cbn [expect_result result_bind];
      eexists; (split; [reflexivity|]);
      [pose proof (shift_arith (read s f.(rm) (width f) false) (width f) LogicalLeft f.(shift_amount) false (width_legal f) ltac:(lia)) as Hsh
      |pose proof (shift_arith (read s f.(rm) (width f) false) (width f) LogicalRight f.(shift_amount) false (width_legal f) ltac:(lia)) as Hsh
      |pose proof (shift_arith (read s f.(rm) (width f) false) (width f) ArithmeticRight f.(shift_amount) false (width_legal f) ltac:(lia)) as Hsh];
      cbn zeta in Hsh; rewrite (wrap_small (width f) (read s f.(rm) (width f) false)) in Hsh by done;
      rewrite Hsh.
    all: match goal with |- context [wrap 64 ?v] =>
      assert (Hv : in_range (width f) v) by (first [apply wrap_range; lia | apply in_range_div_pow2; [lia|lia|done]]);
      rewrite (wrap_small 64 v) by (apply (in_range_le (width f)); [lia|done]) end.
    all: apply apply_add_sub_general; [done|lia|apply Hread|done].
Qed.

Lemma add_sub_result_witness :
  let g := normalize_operands 0x91004020 in
  exists s', add_sub_immediate g A64State_default = (Ok true, s') /\
    read s' g.(rd) 64 false = 16.
Proof.
  cbn zeta. destruct (add_sub_result (normalize_operands 0x91004020) A64State_default
    A64State_default_ok (normalize_fields_ok _) ltac:(vm_compute; discriminate)) as [(s' & He & Hv) _].
  exists s'. split; [exact He|]. rewrite Hv. vm_compute. reflexivity.
Defined.

(** Every allocated bitfield word (SBFM, BFM, UBFM and their aliases: LSL,
    LSR, ASR, SXTB, UXTH, BFI, BFXIL, SBFX, UBFX) executes and produces, bit by
    bit, the field moved from [Rn], zero- or sign-extended or merged with [Rd]. *)
Theorem bitfield_spec bits s :
  in_range 32 bits -> validate_a64 0x16 bits = Allocated -> state_ok s ->
  let f := normalize_operands bits in let w := width f in
  exists v, bitfield f s = (Ok true, write s f.(rd) w false v) /\ in_range w v /\
    forall i, 0 <= i < w -> Z.testbit v i =
      bitfield_bit (opcode_of f) w f.(immediate_6_high) f.(shift_amount)
        (read s f.(rn) w false) (read s f.(rd) w false) i.
Proof.
  intros Hb Ha Hs f w. destruct (allocated_bitfield bits Hb Ha) as (Hn & Hr & Hsa & Hop).
  apply bitfield_result; try done; [apply normalize_fields_ok|apply imms_top].
Qed.

Lemma bitfield_spec_witness :
  validate_a64 0x16 0xd3441c20 = Allocated /\
  exists v, bitfield (normalize_operands 0xd3441c20) A64State_default =
    (Ok true, write A64State_default 0 64 false v).
Proof.
  split; [reflexivity|].
  destruct (bitfield_spec 0xd3441c20 A64State_default ltac:(split; [lia|reflexivity]) ltac:(reflexivity)
    A64State_default_ok) as (v & Hv & _).
  exists v. exact Hv.
Defined.

(** Every allocated wide move executes: MOVZ writes the shifted 16-bit
    immediate, MOVN its complement at the operation width, MOVK replaces
    exactly the addressed 16-bit lane of [Rd]. *)
Theorem move_wide_spec bits s :
  in_range 32 bits -> validate_a64 0x10 bits = Allocated -> state_ok s ->
  let f := normalize_operands bits in let w := width f in let shift := 16 * f.(opcode_2) in
  exists v, move_wide f s = (Ok true, write s f.(rd) w false v) /\ in_range w v /\
    (opcode_of f = 2 -> v = f.(immediate_16) * 2 ^ shift) /\
    (opcode_of f = 0 -> v = 2 ^ w - 1 - f.(immediate_16) * 2 ^ shift) /\
    (opcode_of f = 3 -> forall i, 0 <= i < w -> Z.testbit v i =
       if (shift <=? i) && (i <? shift + 16) then Z.testbit f.(immediate_16) (i - shift)
       else Z.testbit (read s f.(rd) w false) i).
Proof.
  intros Hb Ha Hs f w shift. destruct (allocated_move_wide bits Hb Ha) as [Hfit Hop].
  apply move_wide_result; try done. apply normalize_fields_ok.
Qed.

Lemma move_wide_spec_witness :
  validate_a64 0x10 0x12800000 = Allocated /\
  exists v, move_wide (normalize_operands 0x12800000) A64State_default =
    (Ok true, write A64State_default 0 32 false v) /\ v = 2 ^ 32 - 1.
Proof.
  split; [reflexivity|].
  destruct (move_wide_spec 0x12800000 A64State_default ltac:(split; [lia|reflexivity]) ltac:(reflexivity)
    A64State_default_ok) as (v & Hv & _ & _ & H0 & _).
  exists v. split; [exact Hv|]. rewrite (H0 ltac:(reflexivity)). reflexivity.
Defined.

(** Two-source instructions: UDIV and SDIV return 0 for a zero divisor and
    otherwise the quotient truncated toward zero (with [MIN / -1] wrapping),
    the variable shifts use the amount modulo the width, every other opcode is
    refused without a change; three-source instructions: MADD/MSUB,
    SMADDL/SMSUBL, UMADDL/UMSUBL modulo [2^w], SMULH and UMULH the exact high
    half of the 128-bit product. *)
Theorem multiply_divide_spec f s :
  state_ok s -> fields_ok f ->
  let w := width f in
  match two_source_value f.(shift_amount) w (read s f.(rn) w false) (read s f.(rm) w false) with
  | Some v => two_source f s = (Ok true, write s f.(rd) w false v) /\ in_range w v
  | None => two_source f s = (Ok false, s)
  end /\
  match three_source_value f s with
  | Some (w', v) => three_source f s = (Ok true, write s f.(rd) w' false v) /\ in_range w' v
  | None => three_source f s = (Ok false, s)
  end.
Proof. intros Hs Hf w. split; [by apply two_source_result|by apply three_source_result]. Qed.

Lemma multiply_divide_spec_witness :
  two_source (normalize_operands 0x1ac10c00) A64State_default =
    (Ok true, write A64State_default 0 32 false 0).
Proof.
  destruct (multiply_divide_spec (normalize_operands 0x1ac10c00) A64State_default A64State_default_ok
    (normalize_fields_ok _)) as [H _].
  apply H.
Defined.

(** One-source instructions: RBIT reverses the bits, REV16/REV32/REV
    reverse the bytes of each 2-, 4- or 8-byte chunk, CLZ counts the clear bits
    above the highest set one and CLS the bits below the sign that equal it. *)
Theorem one_source_spec f s :
  state_ok s ->
  let w := width f in let v := read s f.(rn) w false in
  let writes (op : Z) (P : Z -> Prop) := f.(shift_amount) = op ->
    exists r, one_source f s = (Ok true, write s f.(rd) w false r) /\ P r in
  writes 0 (fun r => in_range w r /\ forall i, 0 <= i < w -> Z.testbit r i = Z.testbit v (w - 1 - i)) /\
  writes 1 (fun r => forall i, 0 <= i < w -> Z.testbit r i = Z.testbit v (8 * reversed_byte 2 (i / 8) + i mod 8)) /\
  writes 2 (fun r => forall i, 0 <= i < w -> Z.testbit r i = Z.testbit v (8 * reversed_byte 4 (i / 8) + i mod 8)) /\
  writes 3 (fun r => forall i, 0 <= i < w -> Z.testbit r i = Z.testbit v (8 * reversed_byte (w / 8) (i / 8) + i mod 8)) /\
  writes 4 (fun r => 0 <= r <= w /\ (forall i, w - r <= i < w -> Z.testbit v i = false) /\
                     (r < w -> Z.testbit v (w - 1 - r) = true)) /\
  writes 5 (fun r => 0 <= r < w /\ (forall i, w - 1 - r <= i < w -> Z.testbit v i = Z.testbit v (w - 1)) /\
                     (r < w - 1 -> Z.testbit v (w - 2 - r) = negb (Z.testbit v (w - 1)))).
Proof.
  intros Hs w v writes. pose proof (width_cases f) as Hw. fold w in Hw.
  pose proof (read_range s f.(rn) w false Hs Hw) as Hv. fold v in Hv.
  assert (Hval : (if w =? 64 then v else wrap 32 v) = v).
  { destruct Hw as [Hw|Hw]; rewrite Hw in *; cbn [Z.eqb Pos.eqb]; [by apply wrap_small|done]. }
  unfold writes, one_source. fold w v. rewrite Hval.
  split_and!; intros ->; eexists; (split; [reflexivity|]).
  - split; [apply reverse_bits_range; lia|]. intros i Hi. rewrite testbit_reverse_bits by lia.
    by destruct (Z.ltb_spec i w); [|lia].
  - intros i Hi. by apply (reverse_chunks_bits v w 2); auto.
  - intros i Hi. by apply (reverse_chunks_bits v w 4); auto.
  - intros i Hi. by apply swap_bytes_bits.
  - apply leading_zeros_spec; [lia|done].
  - apply count_leading_sign; [lia|done].
Qed.

Lemma one_source_spec_witness :
  let f := normalize_operands 0xdac01020 in
  exists r, one_source f A64State_default = (Ok true, write A64State_default f.(rd) (width f) false r) /\
    0 <= r <= width f.
Proof.
  cbn zeta. destruct (one_source_spec (normalize_operands 0xdac01020) A64State_default A64State_default_ok)
    as (_ & _ & _ & _ & H & _).
  destruct (H ltac:(reflexivity)) as (r & Hr & Hb & _). exists r. split; [exact Hr|exact Hb].
Defined.

(** EXTR returns the low [w] bits of the register pair [Rn:Rm] shifted
    right by the immediate, and the conditional selects return [Rn] when the
    condition holds and otherwise [Rm], [Rm + 1], [~Rm] or [-Rm] at the
    operation width. *)
Theorem extract_select_spec f s :
  state_ok s ->
  let w := width f in
  let a := read s f.(rn) w false in let b := read s f.(rm) w false in
  (0 <= f.(shift_amount) < w -> f.(n) = f.(width_64) ->
   extract f s = (Ok true, write s f.(rd) w false (wrap w ((a * 2 ^ w + b) / 2 ^ f.(shift_amount))))) /\
  conditional_select f s = (Ok true, write s f.(rd) w false
    (if evaluate_a64 (Condition_from_encoding f.(condition)) s.(CpuState.nzcv) then a
     else match f.(subtract), f.(bit10) with
          | false, false => b
          | false, true => wrap w (b + 1)
          | true, false => 2 ^ w - 1 - b
          | true, true => wrap w (- b)
          end)).
Proof.
  intros Hs w a b. split; [intros; by apply extract_result|].
  pose proof (width_cases f) as Hw. fold w in Hw.
  pose proof (read_range s f.(rm) w false Hs Hw) as Hb. fold b in Hb.
  unfold conditional_select. fold w a b. do 2 f_equal.
  destruct (evaluate_a64 _ _); [done|]. rewrite land_mask. fold w.
  assert (Hnot : wrap w (unot 64 b) = 2 ^ w - 1 - b).
  { unfold unot. rewrite wrap_wrap_le by lia. change (wrap w (Z.lnot b)) with (unot w b).
    apply unot_arith; [lia|done]. }
  destruct (f.(subtract)), (f.(bit10)).
  - rewrite wrap_wrap_le by lia. rewrite <- wrap_add_l, Hnot.
    replace (2 ^ w - 1 - b + 1) with (- b + 1 * 2 ^ w) by lia. unfold wrap. apply Z_mod_plus_full.
  - done.
  - by rewrite wrap_wrap_le by lia.
  - by apply wrap_small.
Qed.

Lemma extract_select_spec_witness :
  let f := normalize_operands 0x93c10c00 in
  extract f A64State_default = (Ok true, write A64State_default 0 64 false 0).
Proof.
  destruct (extract_select_spec (normalize_operands 0x93c10c00) A64State_default A64State_default_ok) as [H _].
  apply H; [vm_compute; split; [discriminate|reflexivity]|reflexivity].
Defined.
