(* ===== verification/MemBase.v ===== *)
(** * Guest-memory identities (crates/memory/src/lib.rs, crates/memory/src/access.rs)

    Addresses, page and address-space identities and generations are [u64]
    newtypes, modelled as [Z] with checked arithmetic. *)

From S2P Require Import Prelude.

(** [GuestVirtualAddress] *)
Definition address_checked_add (address offset : Z) : option Z := checked_add 64 address offset.

Definition address_checked_sub (address offset : Z) : option Z :=
  if offset <=? address then Some (address - offset) else None.

Definition is_power_of_two (v : Z) : bool := (0 <? v) && (Z.land v (v - 1) =? 0).

Definition is_aligned_to (address alignment : Z) : bool :=
  is_power_of_two alignment && (Z.land address (alignment - 1) =? 0).

(** [ContentGeneration::next] and [MappingGeneration::next]; [None] is [GenerationExhausted]. *)
Definition generation_next (g : Z) : option Z := checked_add 64 g 1.
Definition GENERATION_INITIAL : Z := 0.

(** [MemoryPermissions] *)
Definition PERM_NONE : Z := 0.
Definition PERM_READ : Z := 1.
Definition PERM_WRITE : Z := 2.
Definition PERM_EXECUTE : Z := 4.
Definition PERM_READ_WRITE_EXECUTE : Z := 7.

Definition permissions_from_bits (bits : Z) : option Z :=
  if Z.land bits (unot 8 PERM_READ_WRITE_EXECUTE) =? 0 then Some bits else None.

Definition permissions_contain (permissions required : Z) : bool :=
  Z.land permissions required =? required.

(** [DeviceAccessDeclaration] *)
Inductive DeviceAccessKind := DeviceRead | DeviceWrite | DeviceReadWrite.

Definition device_reads (k : DeviceAccessKind) : bool :=
  match k with DeviceRead | DeviceReadWrite => true | DeviceWrite => false end.
Definition device_writes (k : DeviceAccessKind) : bool :=
  match k with DeviceWrite | DeviceReadWrite => true | DeviceRead => false end.

Record DeviceAccessDeclaration := mkDeclaration {
  decl_device : Z;
  decl_kind : DeviceAccessKind;
  device_visible_at : Z;
  cpu_visible_at : option Z
}.

Definition declaration_new (device : Z) (kind : DeviceAccessKind) (visible : Z) (cpu_visible : option Z)
  : option DeviceAccessDeclaration :=
  let reversed := match cpu_visible with Some point => point <? visible | None => false end in
  if negb (Bool.eqb (device_writes kind) (bool_decide (is_Some cpu_visible))) || reversed then None
  else Some (mkDeclaration device kind visible cpu_visible).

Definition declaration_read (device visible : Z) : DeviceAccessDeclaration :=
  mkDeclaration device DeviceRead visible None.
Definition declaration_write (device visible cpu_visible : Z) : option DeviceAccessDeclaration :=
  declaration_new device DeviceWrite visible (Some cpu_visible).
Definition declaration_read_write (device visible cpu_visible : Z) : option DeviceAccessDeclaration :=
  declaration_new device DeviceReadWrite visible (Some cpu_visible).

(** ** Lemmas *)

Lemma checked_add_some w x y z : checked_add w x y = Some z <-> z = x + y /\ x + y < 2 ^ w.
Proof. unfold checked_add. case_match; naive_solver lia. Qed.

Lemma generation_next_some g g' : generation_next g = Some g' -> g' = g + 1 /\ g + 1 < 2 ^ 64.
Proof. intros H. by apply checked_add_some in H. Qed.

Lemma is_aligned_pow2 a k : 0 <= k -> is_aligned_to a (2 ^ k) = (a mod 2 ^ k =? 0).
Proof.
  intros Hk. assert (0 < 2 ^ k) by (apply Z.pow_pos_nonneg; lia).
  assert (Hones : 2 ^ k - 1 = Z.ones k) by (rewrite Z.ones_equiv; lia).
  unfold is_aligned_to, is_power_of_two. rewrite Hones, !Z.land_ones by lia.
  rewrite Z.mod_same by lia. destruct (Z.ltb_spec 0 (2 ^ k)); [done|lia].
Qed.

Lemma contains_union p q r :
  permissions_contain p (Z.lor q r) = true -> permissions_contain p q = true /\ permissions_contain p r = true.
Proof.
  unfold permissions_contain. rewrite !Z.eqb_eq. intros Hp. split.
  - apply Z.bits_inj'. intros i Hi. rewrite Z.land_spec. apply (f_equal (fun z => Z.testbit z i)) in Hp.
    rewrite Z.land_spec, Z.lor_spec in Hp. destruct (Z.testbit p i), (Z.testbit q i), (Z.testbit r i); done.
  - apply Z.bits_inj'. intros i Hi. rewrite Z.land_spec. apply (f_equal (fun z => Z.testbit z i)) in Hp.
    rewrite Z.land_spec, Z.lor_spec in Hp. destruct (Z.testbit p i), (Z.testbit q i), (Z.testbit r i); done.
Qed.
