(* ===== verification/MemInvalidation.v ===== *)
(** * The bounded invalidation stream (crates/memory/src/invalidation.rs)

    [MemoryInvalidationLog] publishes memory changes to the CPU engines through
    a ring of [MEMORY_INVALIDATION_CAPACITY] records: a producer reserves the
    next cursors while its change can still fail and commits them afterwards, a
    consumer reads what was published since its own cursor.

    The lock is held from a reservation to its commit, so a reservation is a
    value computed from the log and a commit is a function of that log.  The
    allocation failure of the reader ([ResourceExhausted]) is not modelled.  The
    second half of the file is the abstract specification, an unbounded history,
    and the proof that the ring implements it. *)

From S2P Require Import Prelude MemBase.

Definition MEMORY_INVALIDATION_CAPACITY : Z := 1024.

Inductive MemoryInvalidationKind :=
| MappingChanged (address_space start size : Z)
| ExecutableContent (first : Z) (second : option Z)
| InstructionCache (address_space : Z).

Inductive MemoryInvalidationOrigin :=
| OriginMapping | OriginDeviceWrite | OriginHostWrite | OriginCacheMaintenance | OriginUnknown.

Record MemoryInvalidation := mkInvalidation {
  inv_cursor : Z;
  inv_kind : MemoryInvalidationKind;
  inv_origin : MemoryInvalidationOrigin
}.

Inductive MemoryInvalidationError :=
| CursorAhead (requested latest : Z)
| HistoryLost (requested oldest latest : Z)
| CursorExhausted
| ResourceExhausted.

(** The ring and the latest cursor; [records] is an array of
    [MEMORY_INVALIDATION_CAPACITY] entries. *)
Record MemoryInvalidationLog := mkLog {
  log_latest : Z;
  log_records : list (option MemoryInvalidation);
  log_count : Z
}.

Definition log_default : MemoryInvalidationLog :=
  mkLog 0 (replicate (Z.to_nat MEMORY_INVALIDATION_CAPACITY) None) 0.

Definition log_cursor (log : MemoryInvalidationLog) : Z := log.(log_latest).

Definition slot (cursor : Z) : Z := (cursor - 1) mod MEMORY_INVALIDATION_CAPACITY.

Definition default_origin (kind : MemoryInvalidationKind) : MemoryInvalidationOrigin :=
  match kind with
  | MappingChanged _ _ _ => OriginMapping
  | InstructionCache _ => OriginCacheMaintenance
  | ExecutableContent _ _ => OriginUnknown
  end.

(** [MemoryInvalidationReservation] is the record that will be committed. *)
Definition reserve_with_origin (log : MemoryInvalidationLog) (kind : MemoryInvalidationKind)
    (origin : MemoryInvalidationOrigin) : Result MemoryInvalidationError MemoryInvalidation :=
  match checked_add 64 (log_cursor log) 1 with
  | Some cursor => Ok (mkInvalidation cursor kind origin)
  | None => Err CursorExhausted
  end.

Definition reserve (log : MemoryInvalidationLog) (kind : MemoryInvalidationKind)
  : Result MemoryInvalidationError MemoryInvalidation :=
  reserve_with_origin log kind (default_origin kind).

(** One ring entry: the record goes to its slot and the count saturates. *)
Definition ring_push (log : MemoryInvalidationLog) (record : MemoryInvalidation) : MemoryInvalidationLog :=
  mkLog log.(log_latest) (<[Z.to_nat (slot record.(inv_cursor)) := Some record]> log.(log_records))
    (Z.min (log.(log_count) + 1) MEMORY_INVALIDATION_CAPACITY).

Definition with_latest (log : MemoryInvalidationLog) (latest : Z) : MemoryInvalidationLog :=
  mkLog latest log.(log_records) log.(log_count).

Definition commit (log : MemoryInvalidationLog) (record : MemoryInvalidation) : Z * MemoryInvalidationLog :=
  let cursor := record.(inv_cursor) in
  (cursor, with_latest (ring_push log record) cursor).

(** [MemoryInvalidationBatchReservation] *)
Record MemoryInvalidationBatchReservation := mkBatch {
  batch_kinds : list MemoryInvalidationKind;
  batch_first : Z;
  batch_origin : option MemoryInvalidationOrigin
}.

Definition reserve_many_with_origin (log : MemoryInvalidationLog) (kinds : list MemoryInvalidationKind)
    (origin : option MemoryInvalidationOrigin) : Result MemoryInvalidationError MemoryInvalidationBatchReservation :=
  let count := Z.of_nat (length kinds) in
  match checked_add 64 (log_cursor log) 1 with
  | None => Err CursorExhausted
  | Some first =>
      match checked_add 64 first (Z.max 0 (count - 1)) with
      | None => Err CursorExhausted
      | Some _ => Ok (mkBatch kinds first origin)
      end
  end.

Definition reserve_many (log : MemoryInvalidationLog) (kinds : list MemoryInvalidationKind) :=
  reserve_many_with_origin log kinds None.
Definition reserve_many_from (log : MemoryInvalidationLog) (kinds : list MemoryInvalidationKind)
    (origin : MemoryInvalidationOrigin) :=
  reserve_many_with_origin log kinds (Some origin).

(** The loop of the batch commit: [value] is [self.first + index]. *)
Fixpoint push_kinds (log : MemoryInvalidationLog) (origin : option MemoryInvalidationOrigin) (value : Z)
    (kinds : list MemoryInvalidationKind) : MemoryInvalidationLog :=
  match kinds with
  | [] => log
  | kind :: kinds =>
      push_kinds (ring_push log (mkInvalidation value kind (default (default_origin kind) origin)))
        origin (value + 1) kinds
  end.

(** [MemoryInvalidationBatchReservation::commit].  The closing expression
    [first + kinds.len() as u64 - 1] adds before it subtracts: the overflow
    check of the addition is a panic. *)
Definition commit_many (log : MemoryInvalidationLog) (batch : MemoryInvalidationBatchReservation)
  : Result Empty_set Z * MemoryInvalidationLog :=
  match batch.(batch_kinds) with
  | [] => (Ok (log_cursor log), log)
  | kinds =>
      let log := push_kinds log batch.(batch_origin) batch.(batch_first) kinds in
      match checked_add 64 batch.(batch_first) (Z.of_nat (length kinds)) with
      | None => (Panic, log)
      | Some sum => (Ok (sum - 1), with_latest log (sum - 1))
      end
  end.

(** The reading loop of [read_since] over the cursors [value..=latest];
    [expect] and [debug_assert_eq!] are its panics. *)
Fixpoint read_records (records : list (option MemoryInvalidation)) (values : list Z) (output : list MemoryInvalidation)
  : Result MemoryInvalidationError (list MemoryInvalidation) :=
  match values with
  | [] => Ok output
  | value :: values =>
      match records !! Z.to_nat (slot value) with
      | Some (Some record) =>
          if record.(inv_cursor) =? value then read_records records values (output ++ [record]) else Panic
      | _ => Panic
      end
  end.

Definition read_since (log : MemoryInvalidationLog) (after : Z) (output : list MemoryInvalidation)
  : Result MemoryInvalidationError (Z * list MemoryInvalidation) :=
  let latest := log_cursor log in
  if latest <? after then Err (CursorAhead after latest)
  else if after =? latest then Ok (latest, output)
  else
    let retained := Z.max 0 (log.(log_count) - 1) in
    if latest <? retained then Panic
    else
      let oldest := latest - retained in
      if Z.min (after + 1) (umax 64) <? oldest then Err (HistoryLost after oldest latest)
      else let? output := read_records log.(log_records) (seqZ (after + 1) (latest - after)) output in
           Ok (latest, output).

(** ** The abstract specification: an unbounded history *)

Notation History := (list (MemoryInvalidationKind * MemoryInvalidationOrigin)).

(** Numbered records of a history whose first entry has cursor [first]. *)
Fixpoint numbered (first : Z) (h : History) : list MemoryInvalidation :=
  match h with
  | [] => []
  | (kind, origin) :: h => mkInvalidation first kind origin :: numbered (first + 1) h
  end.

Inductive LogOp :=
| Publish (kind : MemoryInvalidationKind) (origin : MemoryInvalidationOrigin)
| PublishMany (kinds : list MemoryInvalidationKind) (origin : option MemoryInvalidationOrigin)
| ReadSince (after : Z).

Inductive LogAnswer :=
| Published (cursor : Z)
| Read (latest : Z) (records : list MemoryInvalidation)
| Rejected (error : MemoryInvalidationError)
| Panicked.

Definition batch_entries (kinds : list MemoryInvalidationKind) (origin : option MemoryInvalidationOrigin) : History :=
  map (fun kind => (kind, default (default_origin kind) origin)) kinds.

(** What each operation answers in terms of the whole history. *)
Definition spec_step (h : History) (op : LogOp) : LogAnswer * History :=
  match op with
  | Publish kind origin => (Published (Z.of_nat (length h) + 1), h ++ [(kind, origin)])
  | PublishMany kinds origin =>
      (Published (Z.of_nat (length h + length kinds)), h ++ batch_entries kinds origin)
  | ReadSince after =>
      let latest := Z.of_nat (length h) in
      (if latest <? after then Rejected (CursorAhead after latest)
       else if MEMORY_INVALIDATION_CAPACITY <? latest - after
            then Rejected (HistoryLost after (latest - MEMORY_INVALIDATION_CAPACITY + 1) latest)
            else Read latest (numbered (after + 1) (drop (Z.to_nat after) h)), h)
  end.

(** The same operation on the ring. *)
Definition log_step (log : MemoryInvalidationLog) (op : LogOp) : LogAnswer * MemoryInvalidationLog :=
  match op with
  | Publish kind origin =>
      match reserve_with_origin log kind origin with
      | Ok record => let '(cursor, log) := commit log record in (Published cursor, log)
      | Err e => (Rejected e, log)
      | Panic => (Panicked, log)
      end
  | PublishMany kinds origin =>
      match reserve_many_with_origin log kinds origin with
      | Ok batch =>
          match commit_many log batch with
          | (Ok cursor, log) => (Published cursor, log)
          | (_, log) => (Panicked, log)
          end
      | Err e => (Rejected e, log)
      | Panic => (Panicked, log)
      end
  | ReadSince after =>
      (match read_since log after [] with
       | Ok (latest, records) => Read latest records
       | Err e => Rejected e
       | Panic => Panicked
       end, log)
  end.

Fixpoint run {S : Type} (step : S -> LogOp -> LogAnswer * S) (s : S) (ops : list LogOp) : list LogAnswer :=
  match ops with
  | [] => []
  | op :: ops => let '(answer, s) := step s op in answer :: run step s ops
  end.

(** Records published by a sequence, and the cursors it asks for. *)
Fixpoint published (ops : list LogOp) : Z :=
  match ops with
  | [] => 0
  | Publish _ _ :: ops => 1 + published ops
  | PublishMany kinds _ :: ops => Z.of_nat (length kinds) + published ops
  | ReadSince _ :: ops => published ops
  end.

Definition asks_u64 (op : LogOp) : Prop :=
  match op with ReadSince after => in_range 64 after | _ => True end.

(** ** The ring holds the tail of the history *)

Record ring_holds (log : MemoryInvalidationLog) (h : History) : Prop := {
  rep_count : log.(log_count) = Z.min (Z.of_nat (length h)) MEMORY_INVALIDATION_CAPACITY;
  rep_length : length log.(log_records) = Z.to_nat MEMORY_INVALIDATION_CAPACITY;
  rep_entry i kind origin :
    h !! i = Some (kind, origin) -> Z.of_nat (length h) - MEMORY_INVALIDATION_CAPACITY <= Z.of_nat i ->
    log.(log_records) !! Z.to_nat (slot (Z.of_nat i + 1)) = Some (Some (mkInvalidation (Z.of_nat i + 1) kind origin))
}.

Definition represents (log : MemoryInvalidationLog) (h : History) : Prop :=
  log.(log_latest) = Z.of_nat (length h) /\ ring_holds log h.

Lemma represents_default : represents log_default [].
Proof. split; [done|]. split; [done|done|]. intros i kind origin Hi. done. Qed.

Lemma slot_bound c : 0 <= slot c < MEMORY_INVALIDATION_CAPACITY.
Proof. unfold slot, MEMORY_INVALIDATION_CAPACITY. apply Z.mod_pos_bound. lia. Qed.

(** Two cursors less than a ring apart share no slot. *)
Lemma slot_inj a b : 0 < a - b < MEMORY_INVALIDATION_CAPACITY -> slot a <> slot b.
Proof.
  unfold slot, MEMORY_INVALIDATION_CAPACITY. intros Hab Heq.
  pose proof (Z.div_mod (a - 1) 1024 ltac:(lia)). pose proof (Z.div_mod (b - 1) 1024 ltac:(lia)). nia.
Qed.

Lemma ring_push_holds log h kind origin :
  ring_holds log h ->
  ring_holds (ring_push log (mkInvalidation (Z.of_nat (length h) + 1) kind origin)) (h ++ [(kind, origin)]).
Proof.
  intros [Hc Hl He]. split; cbn [ring_push log_count log_records inv_cursor].
  - rewrite Hc, length_app. cbn [length]. unfold MEMORY_INVALIDATION_CAPACITY. lia.
  - by rewrite length_insert.
  - intros i k o Hi. rewrite length_app. cbn [length]. intros Hold.
    pose proof (lookup_lt_Some _ _ _ Hi) as Hlt. rewrite length_app in Hlt. cbn [length] in Hlt.
    destruct (decide (i = length h)) as [->|Hne].
    + rewrite lookup_app_r, Nat.sub_diag in Hi by lia. injection Hi as <- <-.
      rewrite list_lookup_insert_eq; [done|]. rewrite Hl. pose proof (slot_bound (Z.of_nat (length h) + 1)). lia.
    + rewrite lookup_app_l in Hi by lia. rewrite list_lookup_insert_ne.
      * apply He; [done|lia].
      * pose proof (slot_bound (Z.of_nat (length h) + 1)). pose proof (slot_bound (Z.of_nat i + 1)).
        intros Heq%Z2Nat.inj; [|lia..]. revert Heq. apply slot_inj. lia.
Qed.

Lemma push_kinds_holds kinds origin : forall log h,
  ring_holds log h ->
  ring_holds (push_kinds log origin (Z.of_nat (length h) + 1) kinds) (h ++ batch_entries kinds origin).
Proof.
  induction kinds as [|kind kinds IH]; intros log h Hh; cbn [push_kinds batch_entries map]; [by rewrite app_nil_r|].
  rewrite cons_middle, app_assoc.
  replace (Z.of_nat (length h) + 1 + 1) with (Z.of_nat (length (h ++ [(kind, default (default_origin kind) origin)])) + 1)
    by (rewrite length_app; cbn [length]; lia).
  apply IH. by apply ring_push_holds.
Qed.

Lemma ring_holds_latest log h latest : ring_holds log h -> ring_holds (with_latest log latest) h.
Proof. by intros [? ? ?]. Qed.

(** The loop reads the numbered tail of the history. *)
Lemma read_records_tail log h : ring_holds log h -> forall k i output,
  (i + k)%nat = length h -> Z.of_nat (length h) - MEMORY_INVALIDATION_CAPACITY <= Z.of_nat i ->
  read_records log.(log_records) (seqZ (Z.of_nat i + 1) (Z.of_nat k)) output =
    Ok (output ++ numbered (Z.of_nat i + 1) (drop i h)).
Proof.
  intros Hh k. induction k as [|k IH]; intros i output Hik Hold.
  - rewrite drop_ge by lia. cbn. by rewrite app_nil_r.
  - rewrite seqZ_cons by lia. cbn [read_records].
    destruct (lookup_lt_is_Some_2 h i ltac:(lia)) as [[kind origin] Hi].
    rewrite (rep_entry _ _ Hh _ _ _ Hi Hold). cbn [inv_cursor]. rewrite Z.eqb_refl.
    rewrite (drop_S _ _ _ Hi). cbn [numbered].
    replace (Z.succ (Z.of_nat i + 1)) with (Z.of_nat (S i) + 1) by lia.
    replace (Z.pred (Z.of_nat (S k))) with (Z.of_nat k) by lia.
    rewrite IH by lia. rewrite <- app_assoc. cbn [app]. do 4 f_equal. lia.
Qed.

Lemma read_since_refines log h after :
  represents log h -> in_range 64 after -> Z.of_nat (length h) < 2 ^ 64 ->
  (log_step log (ReadSince after)).1 = (spec_step h (ReadSince after)).1.
Proof.
  intros [Hl Hh] [Ha1 Ha2] Hlen. cbn [log_step spec_step fst]. unfold read_since, log_cursor.
  rewrite Hl, (rep_count _ _ Hh). destruct (Z.ltb_spec (Z.of_nat (length h)) after) as [|Hle]; [done|].
  unfold MEMORY_INVALIDATION_CAPACITY, umax in *. destruct (Z.eqb_spec after (Z.of_nat (length h))) as [->|Hne].
  { rewrite Nat2Z.id, drop_ge by lia. destruct (Z.ltb_spec 1024 (Z.of_nat (length h) - Z.of_nat (length h))); [lia|done]. }
  destruct (Z.ltb_spec (Z.of_nat (length h)) (Z.max 0 (Z.min (Z.of_nat (length h)) 1024 - 1))); [lia|].
  destruct (Z.ltb_spec 1024 (Z.of_nat (length h) - after)).
  - destruct (Z.ltb_spec (Z.min (after + 1) (2 ^ 64 - 1))
      (Z.of_nat (length h) - Z.max 0 (Z.min (Z.of_nat (length h)) 1024 - 1))); [|lia]. do 2 f_equal. lia.
  - destruct (Z.ltb_spec (Z.min (after + 1) (2 ^ 64 - 1))
      (Z.of_nat (length h) - Z.max 0 (Z.min (Z.of_nat (length h)) 1024 - 1))); [lia|].
    pose proof (read_records_tail log h Hh (length h - Z.to_nat after)%nat (Z.to_nat after) [] ltac:(lia)) as Hr.
    unfold MEMORY_INVALIDATION_CAPACITY in Hr. rewrite Nat2Z.inj_sub, Z2Nat.id in Hr by lia.
    rewrite Hr by lia. done.
Qed.

Lemma reserve_outcome log h kind origin :
  represents log h ->
  (reserve_with_origin log kind origin = Err CursorExhausted /\ 2 ^ 64 <= Z.of_nat (length h) + 1) \/
  exists record, reserve_with_origin log kind origin = Ok record /\ Z.of_nat (length h) + 1 < 2 ^ 64 /\
    commit log record = (Z.of_nat (length h) + 1, (commit log record).2) /\
    represents (commit log record).2 (h ++ [(kind, origin)]).
Proof.
  intros [Hl Hh]. unfold reserve_with_origin, log_cursor, checked_add. rewrite Hl.
  destruct (Z.ltb_spec (Z.of_nat (length h) + 1) (2 ^ 64)) as [Hlt|Hge]; [right|by left].
  eexists. split; [reflexivity|]. split; [done|]. split; [done|].
  split; [cbn; rewrite length_app; cbn; lia|]. by apply ring_holds_latest, ring_push_holds.
Qed.

(** A batch that leaves a cursor free commits. *)
Lemma reserve_many_outcome log h kinds origin :
  represents log h ->
  reserve_many_with_origin log kinds origin = Err CursorExhausted \/
  exists batch, reserve_many_with_origin log kinds origin = Ok batch /\
    (Z.of_nat (length h + length kinds) < 2 ^ 64 - 1 ->
     exists log', commit_many log batch = (Ok (Z.of_nat (length h + length kinds)), log') /\
       represents log' (h ++ batch_entries kinds origin)).
Proof.
  intros Hrep. pose proof Hrep as [Hl Hh]. unfold reserve_many_with_origin, log_cursor, checked_add. rewrite Hl.
  destruct (Z.ltb_spec (Z.of_nat (length h) + 1) (2 ^ 64)); [|by left].
  destruct (Z.ltb_spec (Z.of_nat (length h) + 1 + Z.max 0 (Z.of_nat (length kinds) - 1)) (2 ^ 64)); [|by left].
  right. eexists. split; [reflexivity|]. intros Hlen.
  unfold commit_many. cbn [batch_kinds batch_first batch_origin]. destruct kinds as [|kind kinds].
  { eexists. unfold log_cursor. cbn [batch_entries map length]. rewrite Hl, app_nil_r, Nat.add_0_r. by split. }
  rewrite (proj2 (checked_add_some _ _ _ _)) by (split; [reflexivity|lia]).
  eexists. split; [do 2 f_equal; lia|]. split.
  - cbn [with_latest log_latest]. unfold batch_entries. rewrite length_app, length_map. lia.
  - by apply ring_holds_latest, push_kinds_holds.
Qed.

(** One operation: equal answers, related states. *)
Lemma log_step_refines log h op :
  represents log h -> asks_u64 op -> Z.of_nat (length h) + published [op] < 2 ^ 64 - 1 ->
  (log_step log op).1 = (spec_step h op).1 /\ represents (log_step log op).2 (spec_step h op).2.
Proof.
  intros Hrep Hu Hlen. destruct op as [kind origin|kinds origin|after]; cbn [published] in Hlen; cbn [log_step spec_step].
  - destruct (reserve_outcome log h kind origin Hrep) as [[_ ?]|(record & -> & _ & -> & Hr)]; [lia|]. by split.
  - destruct (reserve_many_outcome log h kinds origin Hrep) as [He|(batch & -> & Hc)].
    + unfold reserve_many_with_origin, log_cursor, checked_add in He. rewrite (proj1 Hrep) in He.
      destruct (Z.ltb_spec (Z.of_nat (length h) + 1) (2 ^ 64)); [|lia].
      destruct (Z.ltb_spec (Z.of_nat (length h) + 1 + Z.max 0 (Z.of_nat (length kinds) - 1)) (2 ^ 64)); [done|lia].
    + destruct Hc as (log' & -> & Hr); [lia|]. by split.
  - split; [|done]. apply read_since_refines; [done|done|lia].
Qed.

Lemma run_refines ops : forall log h,
  represents log h -> Forall asks_u64 ops -> Z.of_nat (length h) + published ops < 2 ^ 64 - 1 ->
  run log_step log ops = run spec_step h ops.
Proof.
  induction ops as [|op ops IH]; intros log h Hrep Hu Hlen; [done|].
  apply Forall_cons_1 in Hu as [Hu Hus].
  assert (Hpos : forall l, 0 <= published l) by (intros l; induction l as [|[]]; cbn [published]; lia).
  pose proof (Hpos ops). assert (Hsplit : published (op :: ops) = published [op] + published ops) by (destruct op; cbn [published]; lia).
  destruct (log_step_refines log h op Hrep Hu ltac:(lia)) as [Ha Hr].
  cbn [run]. destruct (log_step log op) as [a log'], (spec_step h op) as [a' h'] eqn:Hs. cbn [fst snd] in *. subst a'.
  f_equal. apply IH; [done|done|].
  assert (Z.of_nat (length h') = Z.of_nat (length h) + published [op]); [|lia].
  unfold spec_step in Hs. destruct op; simplify_eq; cbn [published]; rewrite ?length_app; unfold batch_entries;
    rewrite ?length_map; cbn [length]; lia.
Qed.

(** ** Claims *)

(** C12. The bounded ring implements the unbounded history.  For every sequence
    of publications, single or batched, and reads from any cursor, the ring
    answers exactly as a history that never forgets, except that a reader more
    than 1024 records behind is told so ([HistoryLost] with the oldest cursor
    still retained): every record after the reader's cursor is delivered once
    and in order, a cursor from the future is rejected, and no slot is ever
    missing or stale (the reader's panics are unreachable). *)
Theorem invalidation_log_refines_history ops :
  Forall asks_u64 ops -> published ops < 2 ^ 64 - 1 ->
  run log_step log_default ops = run spec_step [] ops.
Proof. intros Hu Hlen. apply run_refines; [apply represents_default|done|]. cbn [length]. lia. Qed.

Lemma invalidation_log_refines_history_witness :
  run log_step log_default [Publish (InstructionCache 1) OriginUnknown; PublishMany [ExecutableContent 7 None] None; ReadSince 1; ReadSince 9] =
  [Published 1; Published 2; Read 2 [mkInvalidation 2 (ExecutableContent 7 None) OriginUnknown]; Rejected (CursorAhead 9 2)].
Proof.
  apply (invalidation_log_refines_history
    [Publish (InstructionCache 1) OriginUnknown; PublishMany [ExecutableContent 7 None] None; ReadSince 1; ReadSince 9]).
  - repeat constructor; vm_compute; discriminate.
  - reflexivity.
Defined.

(** A batch may reserve the last cursor, but its commit computes one past it:
    with [latest + n = 2^64 - 1] the reservation succeeds and the commit
    overflows. *)
Lemma batch_commit_overflow log kinds :
  log.(log_latest) = 2 ^ 64 - 1 - Z.of_nat (length kinds) -> kinds <> [] ->
  exists batch, reserve_many log kinds = Ok batch /\ (commit_many log batch).1 = Panic.
Proof.
  intros Hl Hk. destruct kinds as [|kind kinds]; [done|]. unfold reserve_many, reserve_many_with_origin, log_cursor.
  cbn [length] in *. rewrite Hl, (proj2 (checked_add_some _ _ _ _)) by (split; [reflexivity|lia]).
  rewrite (proj2 (checked_add_some _ _ _ _)) by (split; [reflexivity|lia]).
  eexists. split; [reflexivity|]. unfold commit_many. cbn [batch_kinds batch_first length].
  unfold checked_add. destruct (Z.ltb_spec (2 ^ 64 - 1 - Z.of_nat (S (length kinds)) + 1 + Z.of_nat (S (length kinds))) (2 ^ 64)); [lia|done].
Qed.
