(* ===== verification/CpuMemory.v ===== *)
(** * The CPU memory contract (crates/cpu/src/memory/contracts.rs, crates/cpu/src/exclusive.rs)

    Typed values, access descriptions, the fixed-width atomic transforms, and
    the [CpuMemory] trait as a type class over the implementation's state [M]:
    every method threads that state.  [CpuMemoryLaws] is what the interpreter
    relies on; clients are proved against the class. *)

From S2P Require Import Prelude CpuBits CpuArith.

Inductive MemoryAccessSize := Byte | Halfword | Word | Doubleword | Quadword.

#[global] Instance MemoryAccessSize_eq_dec : EqDecision MemoryAccessSize.
Proof. solve_decision. Defined.

Definition size_bytes (s : MemoryAccessSize) : Z :=
  match s with Byte => 1 | Halfword => 2 | Word => 4 | Doubleword => 8 | Quadword => 16 end.

Inductive MemoryAlignment := Unaligned | Natural | Bytes2 | Bytes4 | Bytes8 | Bytes16.

Definition alignment_bytes (a : MemoryAlignment) (size : MemoryAccessSize) : Z :=
  match a with
  | Unaligned => 1
  | Natural => size_bytes size
  | Bytes2 => 2
  | Bytes4 => 4
  | Bytes8 => 8
  | Bytes16 => 16
  end.

Inductive MemoryOrdering := Relaxed | Acquire | Release | AcquireRelease | SequentiallyConsistent.

#[global] Instance MemoryOrdering_eq_dec : EqDecision MemoryOrdering.
Proof. solve_decision. Defined.

Definition has_release (o : MemoryOrdering) : bool :=
  match o with Release | AcquireRelease | SequentiallyConsistent => true | _ => false end.
Definition has_acquire (o : MemoryOrdering) : bool :=
  match o with Acquire | AcquireRelease | SequentiallyConsistent => true | _ => false end.

Inductive BarrierDomain := NonShareable | InnerShareable | OuterShareable | FullSystem.
Inductive BarrierAccess := Reads | Writes | ReadsAndWrites.
Inductive BarrierOperation :=
| DataMemory (domain : BarrierDomain) (access : BarrierAccess)
| DataSynchronization (domain : BarrierDomain) (access : BarrierAccess)
| InstructionSynchronization.

Inductive AtomicRmwKind :=
| Add | Clear | Xor | Set_ | SignedMaximum | SignedMinimum | UnsignedMaximum | UnsignedMinimum | Swap.

Inductive MemoryAccessClass := Normal | Atomic | Exclusive | Volatile.

#[global] Instance MemoryAccessClass_eq_dec : EqDecision MemoryAccessClass.
Proof. solve_decision. Defined.

Record MemoryAccess := mkAccess {
  a_size : MemoryAccessSize;
  a_alignment : MemoryAlignment;
  a_ordering : MemoryOrdering;
  a_class : MemoryAccessClass
}.

Inductive MemoryValue := U8 (v : Z) | U16 (v : Z) | U32 (v : Z) | U64 (v : Z) | U128 (v : Z).

Definition value_size (v : MemoryValue) : MemoryAccessSize :=
  match v with
  | U8 _ => Byte | U16 _ => Halfword | U32 _ => Word | U64 _ => Doubleword | U128 _ => Quadword
  end.

Definition value_bits (v : MemoryValue) : Z :=
  match v with U8 v | U16 v | U32 v | U64 v | U128 v => v end.

Definition value_from_bits (size : MemoryAccessSize) (bits : Z) : MemoryValue :=
  match size with
  | Byte => U8 (wrap 8 bits)
  | Halfword => U16 (wrap 16 bits)
  | Word => U32 (wrap 32 bits)
  | Doubleword => U64 (wrap 64 bits)
  | Quadword => U128 bits
  end.

(** [AtomicRmwKind::apply] *)
Definition rmw_apply (kind : AtomicRmwKind) (current operand : MemoryValue) : option MemoryValue :=
  if negb (bool_decide (value_size current = value_size operand)) then None
  else
    let size := value_size current in
    let bits := size_bytes size * 8 in
    let mask := if bits =? 128 then umax 128 else shl 128 1 bits - 1 in
    let current_bits := value_bits current in
    let operand_bits := value_bits operand in
    let signed_key value := Z.lxor value (shl 128 1 (bits - 1)) in
    let result :=
      match kind with
      | Add => Z.land (wrap 128 (current_bits + operand_bits)) mask
      | Clear => Z.land (Z.land current_bits (unot 128 operand_bits)) mask
      | Xor => Z.lxor current_bits operand_bits
      | Set_ => Z.lor current_bits operand_bits
      | SignedMaximum =>
          if signed_key operand_bits <=? signed_key current_bits then current_bits else operand_bits
      | SignedMinimum =>
          if signed_key current_bits <=? signed_key operand_bits then current_bits else operand_bits
      | UnsignedMaximum => Z.max current_bits operand_bits
      | UnsignedMinimum => Z.min current_bits operand_bits
      | Swap => operand_bits
      end in
    Some (value_from_bits size result).

Inductive DataAccessKind := ReadAccess | WriteAccess.

Inductive DataAccessFaultReason :=
| Unmapped
| ReadPermissionDenied
| WritePermissionDenied
| Misaligned (required_alignment : Z)
| AddressOverflow
| ValueSizeMismatch
| InvalidAtomicAccess
| AtomicRegionUnsupported
| MixedRegions
| ContentGenerationExhausted
| HostBacking (detail : string)
| Device (detail : string)
| Injected (detail : string).

Record DataAccessFault := mkFault {
  fault_address_space : Z;
  fault_address : Z;
  fault_kind : DataAccessKind;
  fault_reason : DataAccessFaultReason
}.

Inductive CacheMaintenanceKind :=
| InstructionInvalidate | DataInvalidate | DataClean | DataCleanAndInvalidate | InstructionPrefetch.

(** [exclusive.rs]: the reservation captured by a load-exclusive. *)
Record ExclusiveReservation := mkReservation {
  r_page : Z; r_byte_offset : Z; r_access_size : Z; r_version : Z
}.

(** [ExclusiveMonitorState]: the local monitor, empty or holding one reservation. *)
Definition ExclusiveMonitorState : Type := option ExclusiveReservation.
Definition monitor_reserve (_ : ExclusiveMonitorState) (r : ExclusiveReservation) : ExclusiveMonitorState := Some r.
Definition monitor_clear (_ : ExclusiveMonitorState) : ExclusiveMonitorState := None.

(** The methods of [CpuMemory] an engine's scalar instructions call.  The
    [region] of a result is not used by the interpreter and not kept. *)
Class CpuMemory (M : Type) := {
  mem_read : Z -> Z -> MemoryAccess -> SM M DataAccessFault MemoryValue;
  mem_write : Z -> Z -> MemoryAccess -> MemoryValue -> SM M DataAccessFault unit;
  mem_atomic_rmw : Z -> Z -> MemoryAccess -> AtomicRmwKind -> MemoryValue -> SM M DataAccessFault MemoryValue;
  mem_atomic_cas : Z -> Z -> MemoryAccess -> MemoryValue -> MemoryValue -> SM M DataAccessFault MemoryValue;
  mem_barrier : BarrierOperation -> M -> M;
  mem_maintain_cache : Z -> CacheMaintenanceKind -> option Z -> SM M DataAccessFault unit;
  mem_load_exclusive : Z -> Z -> MemoryAccess -> SM M DataAccessFault (MemoryValue * ExclusiveReservation);
  mem_store_exclusive : Z -> Z -> MemoryAccess -> MemoryValue -> ExclusiveReservation -> SM M DataAccessFault bool
}.

(** A value of the requested size, inside its width. *)
Definition value_ok (size : MemoryAccessSize) (v : MemoryValue) : Prop :=
  value_size v = size /\ in_range (8 * size_bytes size) (value_bits v).

(** An outcome that is not a panic, whose value satisfies [P] and which leaves
    the memory in a state satisfying [I]. *)
Definition returns {M E A} (I : M -> Prop) (P : A -> Prop) (r : Result E A * M) : Prop :=
  I r.2 /\ match r.1 with Ok a => P a | Err _ => True | Panic => False end.

(** What the contract documents and the engines rely on, for the states
    [mem_ok] the implementation stays in: no method panics, and a value read
    has the width of the access. *)
Class CpuMemoryLaws (M : Type) `{CpuMemory M} := {
  mem_ok : M -> Prop;
  read_law a addr acc m : mem_ok m -> returns mem_ok (value_ok acc.(a_size)) (mem_read a addr acc m);
  write_law a addr acc v m : mem_ok m -> returns mem_ok (fun _ => True) (mem_write a addr acc v m);
  rmw_law a addr acc k v m : mem_ok m -> returns mem_ok (value_ok acc.(a_size)) (mem_atomic_rmw a addr acc k v m);
  cas_law a addr acc v v' m : mem_ok m -> returns mem_ok (value_ok acc.(a_size)) (mem_atomic_cas a addr acc v v' m);
  barrier_law b m : mem_ok m -> mem_ok (mem_barrier b m);
  cache_law a k addr m : mem_ok m -> returns mem_ok (fun _ => True) (mem_maintain_cache a k addr m);
  ldx_law a addr acc m :
    mem_ok m -> returns mem_ok (fun vr => value_ok acc.(a_size) vr.1) (mem_load_exclusive a addr acc m);
  stx_law a addr acc v r m : mem_ok m -> returns mem_ok (fun _ => True) (mem_store_exclusive a addr acc v r m)
}.

(** ** Values *)

Lemma size_bits_width s : width_ok (8 * size_bytes s).
Proof. destruct s; split; simpl; lia. Qed.

Lemma value_from_bits_ok size bits :
  in_range 128 bits -> value_ok size (value_from_bits size bits).
Proof. intros Hb. destruct size; split; try done; apply wrap_range; lia. Qed.

Lemma value_from_bits_bits size bits :
  in_range (8 * size_bytes size) bits -> value_bits (value_from_bits size bits) = bits.
Proof. intros Hb. destruct size; simpl in *; try (by apply wrap_small). done. Qed.

Lemma mask_of_bits b : 1 <= b <= 128 -> (if b =? 128 then umax 128 else shl 128 1 b - 1) = Z.ones b.
Proof. intros Hb. apply (mask_ones b). split; lia. Qed.

(** Flipping the sign bit turns the unsigned order into the signed one. *)
Lemma signed_key_order b x y :
  1 <= b <= 128 -> in_range b x -> in_range b y ->
  (Z.lxor x (shl 128 1 (b - 1)) <=? Z.lxor y (shl 128 1 (b - 1))) = (to_signed b x <=? to_signed b y).
Proof.
  intros Hb Hx Hy. rewrite shl_one by lia.
  assert (Hkey : forall v, in_range b v -> Z.lxor v (2 ^ (b - 1)) = to_signed b v + 2 ^ (b - 1)).
  { intros v Hv. pose proof (pow2_double b ltac:(lia)) as H2. pose proof Hv as [Hv1 Hv2].
    unfold to_signed. rewrite Z.ltb_antisym, <- testbit_top by (done || lia).
    destruct (Z.testbit v (b - 1)) eqn:Ht; cbn [negb].
    - assert (Hsplit : v = Z.lxor (v - 2 ^ (b - 1)) (2 ^ (b - 1))).
      { rewrite <- Z.add_nocarry_lxor; [lia|]. apply Z.bits_inj'. intros i Hi.
        rewrite Z.land_spec, Z.bits_0. destruct (Z.eq_dec i (b - 1)) as [->|].
        - rewrite (testbit_high (b - 1)); [done|lia|]. rewrite testbit_top in Ht by (done || lia).
          apply Z.leb_le in Ht. split; lia.
        - rewrite Z.pow2_bits_false by lia. apply andb_false_r. }
      rewrite Hsplit at 1. rewrite Z.lxor_assoc, Z.lxor_nilpotent, Z.lxor_0_r. lia.
    - rewrite <- Z.add_nocarry_lxor; [lia|]. apply Z.bits_inj'. intros i Hi.
      rewrite Z.land_spec, Z.bits_0. destruct (Z.eq_dec i (b - 1)) as [->|]; [by rewrite Ht|].
      rewrite Z.pow2_bits_false by lia. apply andb_false_r. }
  rewrite !Hkey by done. apply Bool.eq_true_iff_eq. rewrite !Z.leb_le. lia.
Qed.

(** ** Claims *)

(** The atomic read-modify-write transforms: for equal widths the result
    has that width and equals the architectural function of the two operands
    (addition modulo [2^w], bit clear, exclusive or, or, signed and unsigned
    minimum and maximum, swap); unequal widths are rejected. *)
Theorem rmw_apply_spec kind size cur op :
  value_ok size cur -> value_ok size op ->
  let w := 8 * size_bytes size in let c := value_bits cur in let o := value_bits op in
  exists r, rmw_apply kind cur op = Some r /\ value_ok size r /\
    value_bits r = match kind with
    | Add => wrap w (c + o)
    | Clear => Z.ldiff c o
    | Xor => Z.lxor c o
    | Set_ => Z.lor c o
    | SignedMaximum => if to_signed w o <=? to_signed w c then c else o
    | SignedMinimum => if to_signed w c <=? to_signed w o then c else o
    | UnsignedMaximum => Z.max c o
    | UnsignedMinimum => Z.min c o
    | Swap => o
    end.
Proof.
  intros [Hc Hcr] [Ho Hor] w c o. unfold rmw_apply. rewrite Hc, Ho, bool_decide_true by done. cbn [negb].
  pose proof (size_bits_width size) as [Hw1 Hw2]. fold w in Hcr, Hor, Hw1, Hw2. fold c in Hcr. fold o in Hor.
  fold c o. replace (size_bytes size * 8) with w by (unfold w; lia).
  rewrite mask_of_bits by lia. rewrite !signed_key_order by (done || lia).
  set (spec := match kind with Add => wrap w (c + o) | Clear => Z.ldiff c o | Xor => Z.lxor c o
    | Set_ => Z.lor c o | SignedMaximum => _ | SignedMinimum => _ | UnsignedMaximum => Z.max c o
    | UnsignedMinimum => Z.min c o | Swap => o end).
  assert (Hspec : in_range w spec).
  { destruct Hcr, Hor. unfold spec. destruct kind; try (by destruct (_ <=? _)).
    - apply wrap_range. lia.
    - apply in_range_of_bits; [lia|apply Z.ldiff_nonneg; auto|]. intros i Hi.
      rewrite Z.ldiff_spec, (testbit_high w c) by (lia || done). done.
    - by apply in_range_lxor; [lia|split|split].
    - by apply in_range_lor; [lia|split|split].
    - split; lia.
    - split; lia.
    - done. }
  match goal with |- exists r, Some (value_from_bits size ?v) = _ /\ _ => assert (Heq : v = spec) end.
  { unfold spec. destruct kind; try done.
    - rewrite land_ones_wrap by lia. rewrite wrap_wrap_le by lia. done.
    - apply Z.bits_inj'. intros i Hi.
      rewrite !Z.land_spec, Z.ldiff_spec, testbit_unot, testbit_ones by lia.
      destruct (Z.ltb_spec i w); [destruct (Z.ltb_spec i 128); [|lia]; by rewrite andb_true_r|].
      rewrite (testbit_high w c) by (done || lia). done. }
  rewrite Heq. eexists. split; [reflexivity|]. split.
  - apply value_from_bits_ok. by apply (in_range_le w); [lia|].
  - by apply value_from_bits_bits.
Qed.

Lemma rmw_apply_spec_witness :
  exists r, rmw_apply SignedMinimum (U8 0x80) (U8 0x7f) = Some r /\ value_bits r = 0x80.
Proof.
  destruct (rmw_apply_spec SignedMinimum Byte (U8 0x80) (U8 0x7f)) as (r & Hr & _ & Hv).
  - split; [reflexivity|vm_compute; split; [discriminate|reflexivity]].
  - split; [reflexivity|vm_compute; split; [discriminate|reflexivity]].
  - exists r. split; [exact Hr|]. rewrite Hv. reflexivity.
Defined.
