(* ===== verification/MemCommon.v ===== *)
(** * Rules shared by the memory backends (crates/cpu/src/memory/{contracts,common}.rs)

    The remaining types of the memory contract and the pure rules of
    [common.rs]: page ranges, installation requests, physical-page identities,
    access resolution, attribute masks and query results. *)

From stdpp Require Import pretty.
From S2P Require Import Prelude Loops Bytes MemBase MemInvalidation CpuMemory.

Definition SYNTHETIC_PAGE_SIZE : Z := 4096.
Definition PAGE_SIZE : Z := SYNTHETIC_PAGE_SIZE.

(** ** Contract types *)

Inductive SyntheticInstallStage := Preflight | Allocation | Initialization | Publication.

Record SyntheticRamPage := mkRamPage {
  rp_virtual_address : Z;
  rp_bytes : list Z;
  rp_permissions : Z
}.

Record SyntheticInstallError := mkInstallError {
  ie_stage : SyntheticInstallStage;
  ie_address : option Z;
  ie_reason : string
}.

Inductive MemoryRegionKind := Ram | DeviceRegion.

Inductive MemoryMappingPurpose :=
| PurposeNormal | CodeStatic | CodeMutable | ModuleCodeStatic | ModuleCodeMutable
| ThreadLocal | Stack | Heap | SharedMemory.

Definition is_code (p : MemoryMappingPurpose) : bool :=
  match p with CodeStatic | CodeMutable | ModuleCodeStatic | ModuleCodeMutable => true | _ => false end.
Definition allows_reprotect (p : MemoryMappingPurpose) : bool :=
  match p with CodeMutable | ModuleCodeMutable | Heap => true | _ => false end.
Definition allows_attribute_change (p : MemoryMappingPurpose) : bool :=
  match p with CodeMutable | ModuleCodeMutable | Heap => true | _ => false end.

(** [MemoryAttributes] is a [u32] of flag bits. *)
Definition ATTR_NONE : Z := 0.
Definition ATTR_UNCACHED : Z := 8.
Definition ATTR_PERMISSION_LOCKED : Z := 16.
Definition ATTR_KNOWN : Z := 24.
Definition attributes_from_bits (bits : Z) : option Z :=
  if Z.land bits (unot 32 ATTR_KNOWN) =? 0 then Some bits else None.
Definition attributes_contain (attributes required : Z) : bool := Z.land attributes required =? required.

Record MemoryMappingProperties := mkProperties {
  mp_permissions : Z;
  mp_purpose : MemoryMappingPurpose;
  mp_attributes : Z
}.

Record MemoryAliasRequest := mkAliasRequest {
  al_address_space : Z;
  al_destination : Z;
  al_source : Z;
  al_size : Z;
  al_source_before : MemoryMappingProperties;
  al_source_after : MemoryMappingProperties;
  al_destination_properties : MemoryMappingProperties
}.

Record MemoryQueryResult := mkQuery {
  q_base : Z;
  q_size : Z;
  q_region : option MemoryRegionKind;
  q_permissions : Z;
  q_attributes : Z;
  q_purpose : MemoryMappingPurpose
}.

Record DataReadResult := mkRead { dr_value : MemoryValue; dr_region : MemoryRegionKind }.
Record DataWriteResult := mkWrite { dw_region : MemoryRegionKind }.
Record AtomicMemoryResult := mkAtomic {
  am_previous : MemoryValue; am_stored : bool; am_region : MemoryRegionKind
}.

Inductive MemoryAliasErrorReason :=
| AliasInvalidRange | SourceStateMismatch | DestinationStateMismatch | PhysicalIdentityMismatch
| AliasResourceExhausted | AliasGenerationExhausted.

Inductive MemoryMappingErrorReason :=
| MappingInvalidRange | AlreadyMapped | MappingStateMismatch | MappingWritableExecutable
| MappingResourceExhausted | MappingGenerationExhausted.

Inductive MemoryProtectionErrorReason :=
| ProtectionInvalidRange | ProtectionUnmapped | ProtectionWritableExecutable | UnsupportedPermissions
| PermissionLocked | ProtectionGenerationExhausted.

(** The three error structures share one shape: space, address, reason. *)
Record MemoryError (R : Type) := mkMemoryError { me_address_space : Z; me_address : Z; me_reason : R }.
Arguments mkMemoryError {R}.
Notation MemoryAliasError := (MemoryError MemoryAliasErrorReason).
Notation MemoryMappingError := (MemoryError MemoryMappingErrorReason).
Notation MemoryProtectionError := (MemoryError MemoryProtectionErrorReason).

(** crates/cpu/src/error.rs *)
Inductive InstructionFetchFaultReason :=
| FetchUnmapped | ExecutePermissionDenied | FetchMisaligned | IncompleteCrossPageFetch
| FetchAddressOverflow | FetchMemory (detail : string).

Record InstructionFetchFault := mkFetchFault {
  ff_address_space : Z; ff_address : Z; ff_reason : InstructionFetchFaultReason
}.

Record FetchedInstruction := mkFetched { fi_bits : Z; fi_physical_page : Z }.

(** [SyntheticMmio]: the callbacks of a device page, written elsewhere. *)
Class SyntheticMmio (Dev : Type) := {
  mmio_read : Z -> MemoryAccess -> SM Dev string MemoryValue;
  mmio_write : Z -> MemoryAccess -> MemoryValue -> SM Dev string unit
}.

#[global] Instance SyntheticInstallStage_eq_dec : EqDecision SyntheticInstallStage.
Proof. solve_decision. Defined.
#[global] Instance MemoryRegionKind_eq_dec : EqDecision MemoryRegionKind.
Proof. solve_decision. Defined.
#[global] Instance MemoryMappingPurpose_eq_dec : EqDecision MemoryMappingPurpose.
Proof. solve_decision. Defined.
#[global] Instance MemoryMappingProperties_eq_dec : EqDecision MemoryMappingProperties.
Proof. solve_decision. Defined.
#[global] Instance MemoryValue_eq_dec : EqDecision MemoryValue.
Proof. solve_decision. Defined.
#[global] Instance ExclusiveReservation_eq_dec : EqDecision ExclusiveReservation.
Proof. solve_decision. Defined.
#[global] Instance DataAccessKind_eq_dec : EqDecision DataAccessKind.
Proof. solve_decision. Defined.
#[global] Instance DataAccessKind_countable : Countable DataAccessKind.
Proof.
  refine (inj_countable' (fun k => match k with ReadAccess => true | WriteAccess => false end)
    (fun b : bool => if b then ReadAccess else WriteAccess) _).
  by intros [].
Defined.

(** [Display for MemoryInvalidationError] *)
Definition invalidation_error_to_string (e : MemoryInvalidationError) : string :=
  match e with
  | CursorAhead requested latest =>
      "memory invalidation cursor " +:+ pretty requested +:+ " is newer than latest " +:+ pretty latest
  | HistoryLost requested oldest latest =>
      "memory invalidations after " +:+ pretty requested +:+ " are no longer retained (oldest " +:+
      pretty oldest +:+ ", latest " +:+ pretty latest +:+ ")"
  | CursorExhausted => "memory invalidation cursor is exhausted"
  | ResourceExhausted => "memory invalidation consumer allocation failed"
  end.

(** [MemoryValue::from_le_slice]: the slice is zero-extended to 16 bytes, the
    copy panicking on a longer slice. *)
Definition from_le_slice (size : MemoryAccessSize) (bytes : list Z) : option MemoryValue :=
  match splice (replicate 16 0) 0 bytes with
  | Some value => Some (value_from_bits size (from_le_bytes value))
  | None => None
  end.

(** [MemoryValue::copy_le_bytes] into a destination of [count] bytes. *)
Definition copy_le_bytes (v : MemoryValue) (count : Z) : option (list Z) :=
  slice (to_le_bytes 16 (value_bits v)) 0 count.

(** ** [common.rs] *)

Record PageRange := mkRange { range_first : Z; range_end : Z }.

Definition page_offset (address : Z) : Z := address mod SYNTHETIC_PAGE_SIZE.
Definition virtual_page (address : Z) : Z := address / PAGE_SIZE.
(** [page * PAGE_SIZE] for a page of a [u64] address. *)
Definition page_address (page : Z) : Z := page * PAGE_SIZE.

Definition PageRange_new (start size : Z) : option PageRange :=
  if negb (is_aligned_to start PAGE_SIZE) || negb (size mod PAGE_SIZE =? 0) then None
  else match checked_add 64 start size with
       | None => None
       | Some end_ => Some (mkRange (virtual_page start) (end_ / PAGE_SIZE))
       end.

Definition range_is_empty (r : PageRange) : bool := r.(range_first) =? r.(range_end).
(** [range.first..range.end] *)
Definition range_pages (r : PageRange) : list Z := seqZ r.(range_first) (r.(range_end) - r.(range_first)).

Definition MappingState : Type := MemoryRegionKind * Z * MemoryMappingPurpose * Z.
#[global] Instance MappingState_eq_dec : EqDecision MappingState.
Proof. unfold MappingState. solve_decision. Defined.

Record ResolvedDataAccess (M : Type) := mkResolved {
  ra_first : M; ra_second : option M; ra_first_bytes : Z; ra_region : MemoryRegionKind
}.
Arguments mkResolved {M}.
Arguments ra_first {M}.
Arguments ra_second {M}.
Arguments ra_first_bytes {M}.
Arguments ra_region {M}.

Definition install_error (stage : SyntheticInstallStage) (address : option Z) (reason : string)
  : SyntheticInstallError := mkInstallError stage address reason.

(** The generation taken, and what is left in [next]. *)
Definition take_mapping_generation (next : option Z) : option (Z * option Z) :=
  match next with
  | None => None
  | Some generation => Some (generation, generation_next generation)
  end.

Definition validate_install_request (request : SyntheticRamPage) (unique_virtual_pages : gset Z)
  : Result SyntheticInstallError (Z * gset Z) :=
  let error reason := Err (install_error Preflight (Some request.(rp_virtual_address)) reason) in
  if negb (is_aligned_to request.(rp_virtual_address) PAGE_SIZE)
  then error "virtual address is not page aligned"%string
  else if negb (Z.of_nat (length request.(rp_bytes)) =? SYNTHETIC_PAGE_SIZE)
  then error "page contents do not match the synthetic page size"%string
  else if bool_decide (address_checked_add request.(rp_virtual_address) (SYNTHETIC_PAGE_SIZE - 1) = None)
  then error "virtual page range overflows"%string
  else
    let page := virtual_page request.(rp_virtual_address) in
    if bool_decide (page ∈ unique_virtual_pages) then error "request contains a duplicate virtual page"%string
    else Ok (page, {[page]} ∪ unique_virtual_pages).

(** The search of [allocate_page_id]; the result is the page, [None] for
    exhaustion, with the final [next]. *)
Definition allocate_step (exists_ : Z -> bool) (next : Z) : Z + (option Z * Z) :=
  if exists_ next then
    match checked_add 64 next 1 with
    | Some next => inl next
    | None => inr (None, next)
    end
  else
    match checked_add 64 next 1 with
    | Some next' => inr (Some next, next')
    | None => inr (None, next)
    end.

(** [next] grows at every turn and stays below [2^64], the fuel. *)
Definition U64_FUEL : positive := Eval vm_compute in (2 ^ 64)%positive.
Definition allocate_page_id (next : Z) (exists_ : Z -> bool) : Z + (option Z * Z) :=
  loop (allocate_step exists_) U64_FUEL next.

Definition writable_executable (permissions : Z) : bool :=
  permissions_contain permissions PERM_WRITE && permissions_contain permissions PERM_EXECUTE.

Definition masked_attributes (current mask value : Z) : option Z :=
  if negb (Z.land value (unot 32 mask) =? 0) then None
  else attributes_from_bits (Z.lor (Z.land current (unot 32 mask)) value).

Section Resolve.
Context {M : Type} (address_space address : Z) (access : MemoryAccess) (kind : DataAccessKind).
Context (resolve : Z -> option (M * Z * MemoryRegionKind)).

Definition data_fault {A} (current : Z) (reason : DataAccessFaultReason) : Result DataAccessFault A :=
  Err (mkFault address_space current kind reason).

Definition resolve_checked (current : Z) : Result DataAccessFault (M * MemoryRegionKind) :=
  let required := match kind with ReadAccess => PERM_READ | WriteAccess => PERM_WRITE end in
  match resolve current with
  | None => data_fault current Unmapped
  | Some (mapping, permissions, region) =>
      if negb (permissions_contain permissions required)
      then data_fault current (match kind with ReadAccess => ReadPermissionDenied | WriteAccess => WritePermissionDenied end)
      else Ok (mapping, region)
  end.

Definition resolve_data_access : Result DataAccessFault (ResolvedDataAccess M) :=
  let required_alignment := alignment_bytes access.(a_alignment) access.(a_size) in
  if negb (is_aligned_to address required_alignment) then data_fault address (Misaligned required_alignment)
  else
    let byte_count := size_bytes access.(a_size) in
    match address_checked_add address (byte_count - 1) with
    | None => data_fault address AddressOverflow
    | Some _ =>
        let first_bytes := Z.min (SYNTHETIC_PAGE_SIZE - page_offset address) byte_count in
        let? second_address :=
          if first_bytes <? byte_count
          then match address_checked_add address first_bytes with Some a => Ok (Some a) | None => Panic end
          else Ok None in
        let? first := resolve_checked address in
        let '(first, region) := first in
        match second_address with
        | None => Ok (mkResolved first None first_bytes region)
        | Some second_address =>
            let? second := resolve_checked second_address in
            let '(second, second_region) := second in
            if negb (bool_decide (region = second_region)) then data_fault second_address MixedRegions
            else Ok (mkResolved first (Some second) first_bytes region)
        end
    end.
End Resolve.

(** The two scans of [coalesce_mapped_pages]. *)
Section Coalesce.
Context (state : MappingState) (state_at : Z -> option MappingState).

Definition same_state (page : Z) : bool := bool_decide (state_at page = Some state).
Definition coalesce_down_step (first : Z) : Z + Z :=
  if (0 <? first) && same_state (first - 1) then inl (first - 1) else inr first.
Definition coalesce_up_step (end_page end_ : Z) : Z + Z :=
  if (end_ <? end_page) && same_state end_ then inl (end_ + 1) else inr end_.

(** The bound of the loop, where it was left or cut off. *)
Definition scan_end (r : Z + Z) : Z := match r with inl z | inr z => z end.

Definition coalesce_mapped_pages (page end_page : Z) : Z * Z :=
  (scan_end (loop coalesce_down_step U64_FUEL page),
   scan_end (loop (coalesce_up_step end_page) U64_FUEL (page + 1))).
End Coalesce.

(** [u64::checked_mul] *)
Definition checked_mul (w x y : Z) : option Z := if x * y <? 2 ^ w then Some (x * y) else None.

Definition memory_query_result (first_page end_page : Z) (state : option MappingState) : option MemoryQueryResult :=
  match checked_mul 64 first_page PAGE_SIZE, checked_mul 64 end_page PAGE_SIZE with
  | Some base, Some end_ =>
      let '(region, permissions, purpose, attributes) :=
        match state with
        | Some (region, permissions, purpose, attributes) => (Some region, permissions, purpose, attributes)
        | None => (None, PERM_NONE, PurposeNormal, ATTR_NONE)
        end in
      match address_checked_sub end_ base with
      | None => None
      | Some size => Some (mkQuery base size region permissions attributes purpose)
      end
  | _, _ => None
  end.

(** ** Values as bytes *)

Lemma from_le_bytes_app_zeros l k : from_le_bytes (l ++ replicate k 0) = from_le_bytes l.
Proof.
  induction l as [|b l IH]; cbn [app].
  - induction k as [|k IH]; [done|]. change (from_le_bytes (replicate (S k) 0)) with (Z.lor 0 (Z.shiftl (from_le_bytes (replicate k 0)) 8)).
    cbn [app] in IH. by rewrite IH.
  - change (from_le_bytes (b :: ?x)) with (Z.lor b (Z.shiftl (from_le_bytes x) 8)). by rewrite IH.
Qed.

Lemma from_le_slice_some size bytes :
  (length bytes <= 16)%nat -> from_le_slice size bytes = Some (value_from_bits size (from_le_bytes bytes)).
Proof.
  intros Hl. unfold from_le_slice. rewrite splice_some by (rewrite ?length_replicate; lia).
  change (Z.to_nat 0) with 0%nat. rewrite drop_replicate, take_0. cbn [app]. by rewrite from_le_bytes_app_zeros.
Qed.

Lemma take_to_le_bytes count width v : 0 <= count <= width -> take (Z.to_nat count) (to_le_bytes width v) = to_le_bytes count v.
Proof.
  intros Hc. apply list_eq. intros i. rewrite lookup_take. case_decide.
  - replace i with (Z.to_nat (Z.of_nat i)) by lia. by rewrite !to_le_bytes_lookup by lia.
  - rewrite lookup_ge_None_2; [done|]. rewrite to_le_bytes_length. lia.
Qed.

Lemma copy_le_bytes_some v count : 0 <= count <= 16 -> copy_le_bytes v count = Some (to_le_bytes count (value_bits v)).
Proof.
  intros Hc. unfold copy_le_bytes. rewrite slice_some by (rewrite ?to_le_bytes_length; lia).
  change (Z.to_nat 0) with 0%nat. rewrite drop_0. by rewrite take_to_le_bytes.
Qed.

Lemma size_bytes_bounds s : 1 <= size_bytes s <= 16.
Proof. destruct s; cbn; lia. Qed.

Lemma from_le_value_ok size bytes :
  bytes_ok bytes -> Z.of_nat (length bytes) = size_bytes size -> value_ok size (value_from_bits size (from_le_bytes bytes)).
Proof.
  intros Hb Hl. pose proof (size_bytes_bounds size). apply value_from_bits_ok.
  pose proof (from_le_bytes_range bytes Hb) as Hr. rewrite Hl in Hr. by apply (in_range_le (8 * size_bytes size)); [lia|].
Qed.

(** A value survives its byte encoding. *)
Lemma value_bytes_roundtrip size v :
  value_ok size v -> value_from_bits size (from_le_bytes (to_le_bytes (size_bytes size) (value_bits v))) = v.
Proof.
  intros [Hs Hr]. pose proof (size_bytes_bounds size). rewrite from_to_le_bytes, wrap_small by (lia || done).
  subst size. destruct v; cbn [value_size value_bits value_from_bits size_bytes] in *; by rewrite ?wrap_small.
Qed.

(** ** Pages *)

Lemma page_offset_bound address : 0 <= page_offset address < SYNTHETIC_PAGE_SIZE.
Proof. unfold page_offset, SYNTHETIC_PAGE_SIZE. apply Z.mod_pos_bound. lia. Qed.

Lemma page_split address : address = virtual_page address * 4096 + page_offset address.
Proof.
  unfold page_offset, virtual_page, PAGE_SIZE, SYNTHETIC_PAGE_SIZE.
  pose proof (Z.div_mod address 4096 ltac:(lia)). lia.
Qed.

Lemma virtual_page_unique p off : 0 <= off < 4096 -> virtual_page (p * 4096 + off) = p.
Proof.
  intros Ho. unfold virtual_page, PAGE_SIZE, SYNTHETIC_PAGE_SIZE. rewrite Z.div_add_l, Z.div_small by lia. lia.
Qed.

Lemma page_offset_unique p off : 0 <= off < 4096 -> page_offset (p * 4096 + off) = off.
Proof.
  intros Ho. unfold page_offset, SYNTHETIC_PAGE_SIZE. rewrite Z.add_comm, Z_mod_plus_full. by apply Z.mod_small.
Qed.

(** Addresses inside one page. *)
Lemma same_page a i :
  0 <= page_offset a + i < 4096 ->
  virtual_page (a + i) = virtual_page a /\ page_offset (a + i) = page_offset a + i.
Proof.
  intros Hi. pose proof (page_split a) as Ha.
  assert (Hai : a + i = virtual_page a * 4096 + (page_offset a + i)) by lia.
  rewrite Hai. by rewrite virtual_page_unique, page_offset_unique.
Qed.

(** The first address of the next page. *)
Lemma next_page a n :
  page_offset a + n = 4096 -> virtual_page (a + n) = virtual_page a + 1 /\ page_offset (a + n) = 0.
Proof.
  intros Hn. pose proof (page_split a) as Ha.
  assert (Han : a + n = (virtual_page a + 1) * 4096 + 0) by lia. rewrite Han.
  by rewrite virtual_page_unique, page_offset_unique by lia.
Qed.

Lemma page_aligned a : is_aligned_to a PAGE_SIZE = (page_offset a =? 0).
Proof. apply (is_aligned_pow2 a 12). lia. Qed.

Lemma PageRange_new_some start size r :
  PageRange_new start size = Some r ->
  page_offset start = 0 /\ size mod 4096 = 0 /\ start + size < 2 ^ 64 /\
  r = mkRange (start / 4096) (start / 4096 + size / 4096).
Proof.
  unfold PageRange_new. rewrite page_aligned. destruct (Z.eqb_spec (page_offset start) 0) as [Ho|]; [|done].
  destruct (Z.eqb_spec (size mod PAGE_SIZE) 0) as [Hs|]; [|done]. cbn [negb orb].
  unfold checked_add. destruct (Z.ltb_spec (start + size) (2 ^ 64)); [|done]. intros [= <-].
  repeat (split; [done|]). unfold virtual_page, page_offset, PAGE_SIZE, SYNTHETIC_PAGE_SIZE in *. f_equal.
  pose proof (Z.div_mod start 4096 ltac:(lia)). rewrite Ho in *.
  replace (start + size) with (start / 4096 * 4096 + size) by lia. by rewrite Z.div_add_l by lia.
Qed.

(** ** Physical-page identities *)

(** The search always ends; a page it returns is the first unused identity at
    or after [next], and [next] moves just past it. *)
Lemma allocate_page_id_outcome next exists_ :
  in_range 64 next ->
  exists r next', allocate_page_id next exists_ = inr (r, next') /\ in_range 64 next' /\ next <= next' /\
    match r with
    | Some page => next' = page + 1 /\ next <= page /\ exists_ page = false /\ forall q, next <= q < page -> exists_ q = true
    | None => forall q, next <= q < 2 ^ 64 - 1 -> exists_ q = true
    end.
Proof.
  intros Hn.
  destruct (loop_terminates (allocate_step exists_)
    (fun cur => in_range 64 cur /\ next <= cur /\ forall q, next <= q < cur -> exists_ q = true)
    (fun '(r, next') => in_range 64 next' /\ next <= next' /\
      match r with
      | Some page => next' = page + 1 /\ next <= page /\ exists_ page = false /\ forall q, next <= q < page -> exists_ q = true
      | None => forall q, next <= q < 2 ^ 64 - 1 -> exists_ q = true
      end)
    (fun cur => 2 ^ 64 - 1 - cur) U64_FUEL next) as [[r next'] [Hl HQ]].
  - intros cur (Hc & Hle & Hall). pose proof Hc as [Hc1 Hc2]. split; [lia|].
    unfold allocate_step, checked_add. destruct (exists_ cur) eqn:He; destruct (Z.ltb_spec (cur + 1) (2 ^ 64)).
    + split; [|lia]. split; [split; lia|]. split; [lia|]. intros q Hq.
      destruct (decide (q = cur)) as [->|]; [done|apply Hall; lia].
    + split; [done|]. split; [done|]. intros q Hq. apply Hall. lia.
    + split; [split; lia|]. split; [lia|]. by repeat split.
    + split; [done|]. split; [done|]. intros q Hq. apply Hall. lia.
  - split; [done|]. split; [lia|]. intros q Hq. lia.
  - destruct Hn. change (Z.pos U64_FUEL) with (2 ^ 64). lia.
  - exists r, next'. split; [exact Hl|done].
Qed.

(** ** Access resolution *)

Section ResolveSpec.
Context {M : Type} (address_space address : Z) (access : MemoryAccess) (kind : DataAccessKind).
Context (resolve : Z -> option (M * Z * MemoryRegionKind)).

Definition permitted (permissions : Z) : Prop :=
  permissions_contain permissions (match kind with ReadAccess => PERM_READ | WriteAccess => PERM_WRITE end) = true.

Lemma resolve_checked_cases current :
  match resolve_checked address_space kind resolve current with
  | Ok (m, region) => exists p, resolve current = Some (m, p, region) /\ permitted p
  | Err f => f.(fault_address_space) = address_space /\ f.(fault_kind) = kind
  | Panic => False
  end.
Proof.
  unfold resolve_checked, data_fault, permitted. destruct (resolve current) as [[[m p] region]|]; [|done].
  destruct (permissions_contain _ _) eqn:E; cbn [negb]; [|done]. by exists p.
Qed.

(** A resolved access: permitted on the page of its first byte, and on the next
    page when it crosses; both pages are of one kind. *)
Definition resolved_ok (r : ResolvedDataAccess M) : Prop :=
  let count := size_bytes access.(a_size) in
  is_aligned_to address (alignment_bytes access.(a_alignment) access.(a_size)) = true /\
  address + count <= 2 ^ 64 /\
  (exists p, resolve address = Some (r.(ra_first), p, r.(ra_region)) /\ permitted p) /\
  match r.(ra_second) with
  | None => r.(ra_first_bytes) = count /\ page_offset address + count <= 4096
  | Some second =>
      r.(ra_first_bytes) = 4096 - page_offset address /\ 0 < r.(ra_first_bytes) < count /\
      exists p, resolve (address + r.(ra_first_bytes)) = Some (second, p, r.(ra_region)) /\ permitted p
  end.

Lemma resolve_data_access_outcome :
  match resolve_data_access address_space address access kind resolve with
  | Ok r => resolved_ok r
  | Err f => f.(fault_address_space) = address_space /\ f.(fault_kind) = kind
  | Panic => False
  end.
Proof.
  unfold resolve_data_access. destruct (is_aligned_to _ _) eqn:Hal; cbn [negb]; [|done].
  pose proof (size_bytes_bounds access.(a_size)) as Hc. pose proof (page_offset_bound address) as Ho.
  unfold address_checked_add, checked_add, SYNTHETIC_PAGE_SIZE in *.
  destruct (Z.ltb_spec (address + (size_bytes access.(a_size) - 1)) (2 ^ 64)); [|done].
  set (count := size_bytes access.(a_size)) in *. set (first := Z.min (4096 - page_offset address) count) in *.
  destruct (Z.ltb_spec first count).
  - destruct (Z.ltb_spec (address + first) (2 ^ 64)); [|lia]. cbn [result_bind].
    pose proof (resolve_checked_cases address) as Hr1.
    destruct (resolve_checked address_space kind resolve address) as [[m1 r1]|f|]; cbn [result_bind]; [|done|done].
    pose proof (resolve_checked_cases (address + first)) as Hr2.
    destruct (resolve_checked address_space kind resolve (address + first)) as [[m2 r2]|f|]; cbn [result_bind]; [|done|done].
    destruct (bool_decide_reflect (r1 = r2)) as [->|]; cbn [negb]; [|done].
    split; [done|]. split; [unfold count in *; lia|]. cbn. split; [done|].
    fold count. split; [lia|]. split; [lia|]. done.
  - cbn [result_bind]. pose proof (resolve_checked_cases address) as Hr1.
    destruct (resolve_checked address_space kind resolve address) as [[m1 r1]|f|]; cbn [result_bind]; [|done|done].
    split; [done|]. split; [unfold count in *; lia|]. cbn. split; [done|]. fold count. split; lia.
Qed.
End ResolveSpec.

(** ** Attributes *)

Lemma attributes_from_bits_some bits a : attributes_from_bits bits = Some a -> a = bits /\ attributes_from_bits a = Some a.
Proof. unfold attributes_from_bits. intros H. case_match eqn:E; [|done]. injection H as <-. by rewrite E. Qed.

(** A mask that is valid on empty attributes is valid on any known ones. *)
Lemma masked_attributes_total current mask value :
  attributes_from_bits current = Some current -> masked_attributes ATTR_NONE mask value <> None ->
  exists a, masked_attributes current mask value = Some a /\ attributes_from_bits a = Some a.
Proof.
  unfold masked_attributes, attributes_from_bits. destruct (negb _); [done|]. intros Hc Hn.
  destruct (Z.eqb_spec (Z.land current (unot 32 ATTR_KNOWN)) 0) as [Hc0|]; [|done].
  destruct (Z.eqb_spec (Z.land (Z.lor (Z.land ATTR_NONE (unot 32 mask)) value) (unot 32 ATTR_KNOWN)) 0) as [Hv0|]; [|done].
  change ATTR_NONE with 0 in Hv0. rewrite Z.land_0_l, Z.lor_0_l in Hv0.
  assert (Hz : Z.land (Z.lor (Z.land current (unot 32 mask)) value) (unot 32 ATTR_KNOWN) = 0).
  { rewrite Z.land_lor_distr_l, Hv0, Z.lor_0_r. rewrite <- Z.land_assoc, (Z.land_comm (unot 32 mask)), Z.land_assoc, Hc0. done. }
  rewrite Hz. cbn. eexists. split; [reflexivity|]. by rewrite Hz.
Qed.

(** ** Query results *)

Lemma coalesce_down state state_at page :
  in_range 64 page ->
  let first := scan_end (loop (coalesce_down_step state state_at) U64_FUEL page) in
  0 <= first <= page /\ (forall q, first <= q < page -> state_at q = Some state) /\
  (first = 0 \/ state_at (first - 1) <> Some state).
Proof.
  intros Hp. destruct (loop_terminates (coalesce_down_step state state_at)
    (fun cur => 0 <= cur <= page /\ forall q, cur <= q < page -> state_at q = Some state)
    (fun first => 0 <= first <= page /\ (forall q, first <= q < page -> state_at q = Some state) /\
       (first = 0 \/ state_at (first - 1) <> Some state))
    (fun cur => cur) U64_FUEL page) as [first [-> HQ]]; [| |destruct Hp; change (Z.pos U64_FUEL) with (2 ^ 64); lia|exact HQ].
  - intros cur [Hc Hall]. split; [lia|]. unfold coalesce_down_step, same_state.
    destruct (Z.ltb_spec 0 cur); cbn [andb].
    + destruct (bool_decide_reflect (state_at (cur - 1) = Some state)) as [He|He].
      * split; [|lia]. split; [lia|]. intros q Hq. destruct (decide (q = cur - 1)) as [->|]; [done|]. apply Hall. lia.
      * split; [lia|]. split; [done|]. by right.
    + split; [lia|]. split; [done|]. left. lia.
  - destruct Hp. split; [lia|]. intros q Hq. lia.
Qed.

Lemma coalesce_up state state_at end_page start :
  0 <= start -> in_range 64 end_page ->
  let end_ := scan_end (loop (coalesce_up_step state state_at end_page) U64_FUEL start) in
  start <= end_ <= Z.max start end_page /\ (forall q, start <= q < end_ -> state_at q = Some state) /\
  (end_page <= end_ \/ state_at end_ <> Some state).
Proof.
  intros Hs Hp. destruct (loop_terminates (coalesce_up_step state state_at end_page)
    (fun cur => start <= cur <= Z.max start end_page /\ forall q, start <= q < cur -> state_at q = Some state)
    (fun end_ => start <= end_ <= Z.max start end_page /\ (forall q, start <= q < end_ -> state_at q = Some state) /\
       (end_page <= end_ \/ state_at end_ <> Some state))
    (fun cur => Z.max 0 (end_page - cur)) U64_FUEL start) as [end_ [-> HQ]];
    [| |destruct Hp; change (Z.pos U64_FUEL) with (2 ^ 64); lia|exact HQ].
  - intros cur [Hc Hall]. split; [lia|]. unfold coalesce_up_step, same_state.
    destruct (Z.ltb_spec cur end_page); cbn [andb].
    + destruct (bool_decide_reflect (state_at cur = Some state)) as [He|He].
      * split; [|lia]. split; [lia|]. intros q Hq. destruct (decide (q = cur)) as [->|]; [done|]. apply Hall. lia.
      * split; [lia|]. split; [done|]. by right.
    + split; [lia|]. split; [done|]. left. lia.
  - split; [lia|]. intros q Hq. lia.
Qed.
