(* ===== verification/MemSynthetic.v ===== *)
(** * The synthetic memory backend (crates/cpu/src/memory/synthetic.rs)

    [SyntheticMemory]: page-granular virtual mappings per address space onto
    physical RAM and device pages, with content generations for exclusive
    accesses, mapping generations, injected faults and the invalidation log.
    This file holds the state, the fixture operations and the [InstructionMemory]
    and [CpuMemory] methods; [MemSyntheticProcess] holds the [ProcessMemory]
    ones.

    Every method runs under one lock, so it is a state transformer.  Host
    ordering fences and allocation failures of the host are not modelled; device
    handlers are a parameter ([SyntheticMmio]). *)

From S2P Require Import Prelude Bytes MemBase MemInvalidation CpuMemory MemCommon.

Record Mapping := mkMapping {
  physical_page : Z;
  mapping_generation : Z;
  permissions : Z;
  purpose : MemoryMappingPurpose;
  attributes : Z
}.

Definition mapping_properties (m : Mapping) : MemoryMappingProperties :=
  mkProperties m.(permissions) m.(purpose) m.(attributes).

(** [bytes] is [None] for a page that was never written: it reads as zeros. *)
Inductive PhysicalPage (Dev : Type) :=
| RamPage (bytes : option (list Z)) (generation : Z)
| MmioPage (handler : Dev).
Arguments RamPage {Dev}.
Arguments MmioPage {Dev}.

Record SyntheticMemory (Dev : Type) := mkSynthetic {
  mappings : gmap (Z * Z) Mapping;
  pages : gmap Z (PhysicalPage Dev);
  instruction_faults : gmap (Z * Z) string;
  data_faults : gmap (Z * Z * DataAccessKind) string;
  next_page_id : Z;
  next_mapping_generation : option Z;
  install_failure : option (SyntheticInstallStage * Z * string);
  invalidations : MemoryInvalidationLog
}.
Arguments mkSynthetic {Dev}.
Arguments mappings {Dev}.
Arguments pages {Dev}.
Arguments instruction_faults {Dev}.
Arguments data_faults {Dev}.
Arguments next_page_id {Dev}.
Arguments next_mapping_generation {Dev}.
Arguments install_failure {Dev}.
Arguments invalidations {Dev}.

Definition SyntheticMemory_new {Dev} : SyntheticMemory Dev :=
  mkSynthetic ∅ ∅ ∅ ∅ 1 (Some 1) None log_default.

Definition ZERO_PAGE : list Z := replicate (Z.to_nat SYNTHETIC_PAGE_SIZE) 0.

Section Synthetic.
Context {Dev : Type}.
Notation Mem := (SyntheticMemory Dev).

(** ** State updates *)

Definition set_mappings (f : gmap (Z * Z) Mapping -> gmap (Z * Z) Mapping) (s : Mem) : Mem :=
  mkSynthetic (f s.(mappings)) s.(pages) s.(instruction_faults) s.(data_faults) s.(next_page_id)
    s.(next_mapping_generation) s.(install_failure) s.(invalidations).
Definition set_pages (f : gmap Z (PhysicalPage Dev) -> gmap Z (PhysicalPage Dev)) (s : Mem) : Mem :=
  mkSynthetic s.(mappings) (f s.(pages)) s.(instruction_faults) s.(data_faults) s.(next_page_id)
    s.(next_mapping_generation) s.(install_failure) s.(invalidations).
Definition set_instruction_faults (f : gmap (Z * Z) string -> gmap (Z * Z) string) (s : Mem) : Mem :=
  mkSynthetic s.(mappings) s.(pages) (f s.(instruction_faults)) s.(data_faults) s.(next_page_id)
    s.(next_mapping_generation) s.(install_failure) s.(invalidations).
Definition set_data_faults (f : gmap (Z * Z * DataAccessKind) string -> gmap (Z * Z * DataAccessKind) string)
    (s : Mem) : Mem :=
  mkSynthetic s.(mappings) s.(pages) s.(instruction_faults) (f s.(data_faults)) s.(next_page_id)
    s.(next_mapping_generation) s.(install_failure) s.(invalidations).
Definition set_next_page_id (n : Z) (s : Mem) : Mem :=
  mkSynthetic s.(mappings) s.(pages) s.(instruction_faults) s.(data_faults) n
    s.(next_mapping_generation) s.(install_failure) s.(invalidations).
Definition set_next_mapping_generation (g : option Z) (s : Mem) : Mem :=
  mkSynthetic s.(mappings) s.(pages) s.(instruction_faults) s.(data_faults) s.(next_page_id)
    g s.(install_failure) s.(invalidations).
Definition set_install_failure (o : option (SyntheticInstallStage * Z * string)) (s : Mem) : Mem :=
  mkSynthetic s.(mappings) s.(pages) s.(instruction_faults) s.(data_faults) s.(next_page_id)
    s.(next_mapping_generation) o s.(invalidations).
Definition set_invalidations (l : MemoryInvalidationLog) (s : Mem) : Mem :=
  mkSynthetic s.(mappings) s.(pages) s.(instruction_faults) s.(data_faults) s.(next_page_id)
    s.(next_mapping_generation) s.(install_failure) l.

(** [if !c { return Err(e) }] *)
Definition require {E} (c : bool) (e : E) : SM Mem E unit := guard (negb c) e.

(** [?] on a pure result. *)
Definition lift {E A} (r : Result E A) : SM Mem E A := fun s => (r, s).

(** ** Lookups *)

Definition mapping_at (s : Mem) (address_space address : Z) : option Mapping :=
  s.(mappings) !! (address_space, virtual_page address).

Definition region_of (page : PhysicalPage Dev) : MemoryRegionKind :=
  match page with RamPage _ _ => Ram | MmioPage _ => DeviceRegion end.

Definition synthetic_mapping_state (s : Mem) (address_space page : Z) : option MappingState :=
  match s.(mappings) !! (address_space, page) with
  | None => None
  | Some mapping =>
      match s.(pages) !! mapping.(physical_page) with
      | None => None
      | Some p => Some (region_of p, mapping.(permissions), mapping.(purpose), mapping.(attributes))
      end
  end.

(** The closure [resolve_access] gives to [resolve_data_access]. *)
Definition resolve_mapping (s : Mem) (address_space current : Z) : option (Mapping * Z * MemoryRegionKind) :=
  match mapping_at s address_space current with
  | None => None
  | Some mapping =>
      match s.(pages) !! mapping.(physical_page) with
      | None => None
      | Some p => Some (mapping, mapping.(permissions), region_of p)
      end
  end.

Definition resolve_access (s : Mem) (address_space address : Z) (access : MemoryAccess) (kind : DataAccessKind)
  : Result DataAccessFault (ResolvedDataAccess Mapping) :=
  resolve_data_access address_space address access kind (resolve_mapping s address_space).

(** A mapping through which a page may be observed as code. *)
Definition code_observes (page : Z) (mapping : Mapping) : bool :=
  (mapping.(physical_page) =? page) &&
  (permissions_contain mapping.(permissions) PERM_EXECUTE || is_code mapping.(purpose)).

Definition any_mapping (s : Mem) (P : Mapping -> bool) : bool := existsb (fun kv => P kv.2) (map_to_list s.(mappings)).

Definition executable_page (s : Mem) (page : Z) : option Z :=
  if any_mapping s (code_observes page) then Some page else None.

(** ** RAM contents *)

(** Bytes read from a page; an unwritten page leaves the zeroed buffer. *)
Definition ram_slice (bytes : option (list Z)) (offset count : Z) : option (list Z) :=
  match bytes with
  | Some l => slice l offset count
  | None => Some (replicate (Z.to_nat count) 0)
  end.

(** [get_or_insert_with] a zeroed page. *)
Definition ram_contents (bytes : option (list Z)) : list Z := default ZERO_PAGE bytes.

Definition get_ram {E} (page : Z) : SM Mem E (option (list Z) * Z) := fun s =>
  match s.(pages) !! page with
  | Some (RamPage bytes generation) => (Ok (bytes, generation), s)
  | _ => (Panic, s)
  end.

Definition read_ram {E} (page offset count : Z) : SM Mem E (list Z) :=
  let! ram := get_ram page in expect (ram_slice ram.1 offset count).

Definition put_ram {E} (page : Z) (bytes : option (list Z)) (generation : Z) : SM Mem E unit :=
  modify (set_pages (insert page (RamPage bytes generation))).

(** [contents[offset..offset + n].copy_from_slice(data)], the generation kept. *)
Definition write_ram {E} (page offset : Z) (data : list Z) : SM Mem E unit :=
  let! ram := get_ram page in
  let! contents := expect (splice (ram_contents ram.1) offset data) in
  put_ram page (Some contents) ram.2.

Definition set_generation {E} (page generation : Z) : SM Mem E unit :=
  let! ram := get_ram page in put_ram page ram.1 generation.

(** ** Faults *)

Definition fault_of (address_space address : Z) (kind : DataAccessKind) (reason : DataAccessFaultReason) : DataAccessFault :=
  mkFault address_space address kind reason.

(** An injected fault at exactly this operation. *)
Definition check_injected (address_space address : Z) (kind : DataAccessKind) : SM Mem DataAccessFault unit := fun s =>
  match s.(data_faults) !! (address_space, address, kind) with
  | Some reason => (Err (fault_of address_space address kind (Injected reason)), s)
  | None => (Ok tt, s)
  end.

Definition next_generation (address_space address generation : Z) : SM Mem DataAccessFault Z :=
  ok_or (generation_next generation) (fault_of address_space address WriteAccess ContentGenerationExhausted).

(** ** [CpuMemory] *)

Section Access.
Context `{SyntheticMmio Dev} (address_space address : Z) (access : MemoryAccess).
Let count := size_bytes access.(a_size).
Let offset := page_offset address.

Definition resolve_m (kind : DataAccessKind) : SM Mem DataAccessFault (ResolvedDataAccess Mapping) := fun s =>
  (resolve_access s address_space address access kind, s).

(** A call of a device handler: the device keeps the state it is left in,
    also after an error; a page that is not a device is [unreachable!]. *)
Definition call_device {A} (page : Z) (kind : DataAccessKind) (op : SM Dev string A) : SM Mem DataAccessFault A := fun s =>
  match s.(pages) !! page with
  | Some (MmioPage handler) =>
      let '(r, handler) := op handler in
      (map_err (fun reason => fault_of address_space address kind (Device reason)) r,
       set_pages (insert page (MmioPage handler)) s)
  | _ => (Panic, s)
  end.

Definition read : SM Mem DataAccessFault DataReadResult :=
  let! resolved := resolve_m ReadAccess in
  do! check_injected address_space address ReadAccess in
  match resolved.(ra_region) with
  | DeviceRegion =>
      do! require (bool_decide (resolved.(ra_second) = None)) (fault_of address_space address ReadAccess MixedRegions) in
      let! value := call_device resolved.(ra_first).(physical_page) ReadAccess (mmio_read offset access) in
      do! require (bool_decide (value_size value = access.(a_size))) (fault_of address_space address ReadAccess ValueSizeMismatch) in
      ret (mkRead value DeviceRegion)
  | Ram =>
      let! bytes :=
        match resolved.(ra_second) with
        | None => read_ram resolved.(ra_first).(physical_page) offset count
        | Some second =>
            let! low := read_ram resolved.(ra_first).(physical_page) offset resolved.(ra_first_bytes) in
            let! high := read_ram second.(physical_page) 0 (count - resolved.(ra_first_bytes)) in
            ret (low ++ high)
        end in
      let! value := expect (from_le_slice access.(a_size) bytes) in
      ret (mkRead value Ram)
  end.

(** The write into one page, generation check first. *)
Definition write_single (page : Z) (bytes : list Z) : SM Mem DataAccessFault unit :=
  let! ram := get_ram page in
  let! next := next_generation address_space address ram.2 in
  let! contents := expect (splice (ram_contents ram.1) offset bytes) in
  put_ram page (Some contents) next.

(** The write across two pages: both generations are checked before any byte. *)
Definition write_crossing (first second first_bytes : Z) (bytes : list Z) : SM Mem DataAccessFault unit :=
  let! ram := get_ram first in
  let! next_first := next_generation address_space address ram.2 in
  let! next_second :=
    if second =? first then ret None
    else let! ram := get_ram second in
         let! next := next_generation address_space address ram.2 in
         ret (Some next) in
  do! write_ram first offset (take (Z.to_nat first_bytes) bytes) in
  do! write_ram second 0 (drop (Z.to_nat first_bytes) bytes) in
  do! set_generation first next_first in
  match next_second with
  | Some next => set_generation second next
  | None => ret tt
  end.

Definition write (value : MemoryValue) : SM Mem DataAccessFault DataWriteResult :=
  do! require (bool_decide (value_size value = access.(a_size))) (fault_of address_space address WriteAccess ValueSizeMismatch) in
  let! resolved := resolve_m WriteAccess in
  do! check_injected address_space address WriteAccess in
  match resolved.(ra_region) with
  | DeviceRegion =>
      do! require (bool_decide (resolved.(ra_second) = None)) (fault_of address_space address WriteAccess MixedRegions) in
      do! call_device resolved.(ra_first).(physical_page) WriteAccess (mmio_write offset access value) in
      ret (mkWrite DeviceRegion)
  | Ram =>
      let! bytes := expect (copy_le_bytes value count) in
      do! match resolved.(ra_second) with
          | None => write_single resolved.(ra_first).(physical_page) bytes
          | Some second =>
              write_crossing resolved.(ra_first).(physical_page) second.(physical_page) resolved.(ra_first_bytes) bytes
          end in
      ret (mkWrite Ram)
  end.

Definition atomic_transaction_locked (operation : MemoryValue -> Result DataAccessFault (MemoryValue * bool))
  : SM Mem DataAccessFault AtomicMemoryResult :=
  do! require (bool_decide (access.(a_class) = Atomic) && match access.(a_alignment) with Natural => true | _ => false end)
        (fault_of address_space address WriteAccess InvalidAtomicAccess) in
  do! resolve_m ReadAccess in
  let! resolved := resolve_m WriteAccess in
  do! require (bool_decide (resolved.(ra_second) = None) && bool_decide (resolved.(ra_region) = Ram))
        (fault_of address_space address WriteAccess AtomicRegionUnsupported) in
  do! check_injected address_space address ReadAccess in
  do! check_injected address_space address WriteAccess in
  let page := resolved.(ra_first).(physical_page) in
  let! previous_bytes := read_ram page offset count in
  let! previous := expect (from_le_slice access.(a_size) previous_bytes) in
  let! result := lift (operation previous) in
  let '(replacement, stored) := result in
  do! require (bool_decide (value_size replacement = access.(a_size)))
        (fault_of address_space address WriteAccess ValueSizeMismatch) in
  do! (if stored then
         let! bytes := expect (copy_le_bytes replacement count) in
         write_single page bytes
       else ret tt) in
  ret (mkAtomic previous stored Ram).

Definition atomic_read_modify_write (kind : AtomicRmwKind) (operand : MemoryValue)
  : SM Mem DataAccessFault AtomicMemoryResult :=
  do! require (bool_decide (value_size operand = access.(a_size))) (fault_of address_space address WriteAccess ValueSizeMismatch) in
  atomic_transaction_locked (fun previous =>
    match rmw_apply kind previous operand with Some v => Ok (v, true) | None => Panic end).

Definition atomic_compare_exchange (expected replacement : MemoryValue) : SM Mem DataAccessFault AtomicMemoryResult :=
  do! require (bool_decide (value_size expected = access.(a_size)) && bool_decide (value_size replacement = access.(a_size)))
        (fault_of address_space address WriteAccess ValueSizeMismatch) in
  atomic_transaction_locked (fun previous =>
    if bool_decide (previous = expected) then Ok (replacement, true) else Ok (previous, false)).

Definition load_exclusive : SM Mem DataAccessFault (DataReadResult * ExclusiveReservation) :=
  let! resolved := resolve_m ReadAccess in
  do! require (bool_decide (resolved.(ra_second) = None)) (fault_of address_space address ReadAccess MixedRegions) in
  let page := resolved.(ra_first).(physical_page) in
  let! s := get in
  match s.(pages) !! page with
  | None => panic
  | Some (MmioPage _) => throw (fault_of address_space address ReadAccess MixedRegions)
  | Some (RamPage bytes generation) =>
      let! value_bytes := expect (ram_slice bytes offset count) in
      let! value := expect (from_le_slice access.(a_size) value_bytes) in
      ret (mkRead value Ram, mkReservation page offset count generation)
  end.

Definition store_exclusive (value : MemoryValue) (reservation : ExclusiveReservation)
  : SM Mem DataAccessFault (DataWriteResult * bool) :=
  do! require (bool_decide (value_size value = access.(a_size))) (fault_of address_space address WriteAccess ValueSizeMismatch) in
  let! resolved := resolve_m WriteAccess in
  do! require (bool_decide (resolved.(ra_second) = None)) (fault_of address_space address WriteAccess MixedRegions) in
  let page := resolved.(ra_first).(physical_page) in
  let! s := get in
  match s.(pages) !! page with
  | Some (RamPage _ generation) =>
      let matches := (reservation.(r_page) =? page) && (reservation.(r_byte_offset) =? offset) &&
                     (reservation.(r_access_size) =? count) in
      if negb matches then ret (mkWrite Ram, false)
      else if negb (generation =? reservation.(r_version)) then ret (mkWrite Ram, false)
      else
        do! check_injected address_space address WriteAccess in
        let! bytes := expect (copy_le_bytes value count) in
        do! write_single page bytes in
        ret (mkWrite Ram, true)
  | _ => throw (fault_of address_space address WriteAccess MixedRegions)
  end.
End Access.

(** [InstructionMemory::fetch32] *)
Fixpoint find_instruction_fault (s : Mem) (address_space address : Z) (indices : list Z) : option (Z * string) :=
  match indices with
  | [] => None
  | index :: indices =>
      match address_checked_add address index with
      | Some current =>
          match s.(instruction_faults) !! (address_space, current) with
          | Some reason => Some (current, reason)
          | None => find_instruction_fault s address_space address indices
          end
      | None => find_instruction_fault s address_space address indices
      end
  end.

Definition fetch32 (address_space address : Z) : SM Mem InstructionFetchFault FetchedInstruction :=
  do! require (is_aligned_to address 4) (mkFetchFault address_space address FetchMisaligned) in
  let! s := get in
  match find_instruction_fault s address_space address [0; 1; 2; 3] with
  | Some (fault_address, reason) => throw (mkFetchFault address_space fault_address (FetchMemory reason))
  | None =>
      let! mapping := ok_or (mapping_at s address_space address) (mkFetchFault address_space address FetchUnmapped) in
      do! require (permissions_contain mapping.(permissions) PERM_EXECUTE)
            (mkFetchFault address_space address ExecutePermissionDenied) in
      match s.(pages) !! mapping.(physical_page) with
      | Some (RamPage bytes _) =>
          let! word := expect (ram_slice bytes (page_offset address) 4) in
          ret (mkFetched (from_le_bytes word) mapping.(physical_page))
      | _ => throw (mkFetchFault address_space address (FetchMemory "executable mapping is not RAM"%string))
      end
  end.

(** Publication of one reserved record. *)
Definition publish {E} (kind : MemoryInvalidationKind) (origin : MemoryInvalidationOrigin)
    (error : MemoryInvalidationError -> E) : SM Mem E unit := fun s =>
  match reserve_with_origin s.(invalidations) kind origin with
  | Ok record => (Ok tt, set_invalidations (commit s.(invalidations) record).2 s)
  | Err e => (Err (error e), s)
  | Panic => (Panic, s)
  end.

Definition maintain_cache (address_space : Z) (kind : CacheMaintenanceKind) (address : option Z)
  : SM Mem DataAccessFault unit :=
  let backing a e := fault_of address_space a ReadAccess (HostBacking (invalidation_error_to_string e)) in
  match kind, address with
  | InstructionInvalidate, None =>
      publish (InstructionCache address_space) (default_origin (InstructionCache address_space)) (backing 0)
  | _, None => throw (fault_of address_space 0 ReadAccess AddressOverflow)
  | _, Some address =>
      let! s := get in
      let! mapping := ok_or (mapping_at s address_space address) (fault_of address_space address ReadAccess Unmapped) in
      match s.(pages) !! mapping.(physical_page) with
      | Some (RamPage _ _) =>
          match kind with
          | InstructionInvalidate =>
              publish (ExecutableContent mapping.(physical_page) None) OriginCacheMaintenance (backing address)
          | _ => ret tt
          end
      | _ => throw (fault_of address_space address ReadAccess (Device "cache maintenance requires RAM"%string))
      end
  end.

Definition query_page (s : Mem) (address_space address : Z) : option (MemoryRegionKind * MemoryMappingProperties) :=
  match synthetic_mapping_state s address_space (virtual_page address) with
  | None => None
  | Some (region, permissions, purpose, attributes) => Some (region, mkProperties permissions purpose attributes)
  end.

(** The order of the keys [(AddressSpaceId, u64)] of the mapping table. *)
Definition key_lt (a b : Z * Z) : bool := (a.1 <? b.1) || ((a.1 =? b.1) && (a.2 <? b.2)).

(** [range(..key).next_back()] *)
Definition last_key_before (s : Mem) (key : Z * Z) : option (Z * Z) :=
  foldr (fun kv best =>
    if key_lt kv.1 key && match best with None => true | Some b => key_lt b kv.1 end then Some kv.1 else best)
    None (map_to_list s.(mappings)).
(** [range(key..).next()] *)
Definition first_key_from (s : Mem) (key : Z * Z) : option (Z * Z) :=
  foldr (fun kv best =>
    if negb (key_lt kv.1 key) && match best with None => true | Some b => key_lt kv.1 b end then Some kv.1 else best)
    None (map_to_list s.(mappings)).

Definition in_space (address_space : Z) (key : option (Z * Z)) : option Z :=
  match key with
  | Some (space, page) => if space =? address_space then Some page else None
  | None => None
  end.

Definition query_memory (s : Mem) (address_space address end_exclusive : Z) : option MemoryQueryResult :=
  if end_exclusive <=? address then None
  else
    let page := virtual_page address in
    let end_page := virtual_page end_exclusive in
    let state := synthetic_mapping_state s address_space page in
    let '(first_page, last_page_exclusive) :=
      match state with
      | Some state => coalesce_mapped_pages state (synthetic_mapping_state s address_space) page end_page
      | None =>
          let previous := match in_space address_space (last_key_before s (address_space, page)) with
                          | Some mapped_page => Z.min (mapped_page + 1) (umax 64)
                          | None => 0
                          end in
          let next := Z.min (default end_page
            (in_space address_space (first_key_from s (address_space, Z.min (page + 1) (umax 64))))) end_page in
          (Z.min previous page, Z.max next (page + 1))
      end in
    memory_query_result first_page last_page_exclusive state.
End Synthetic.
