(* ===== verification/MemSyntheticSpec.v ===== *)
(** * The synthetic memory backend keeps its contract

    The invariant of [SyntheticMemory] (whole pages of bytes, mappings that
    point at existing pages, known attributes, a ring that represents its
    history), the physical view of memory, and the [CpuMemory] methods against
    it: no method panics, reads and writes are those of a byte array shared by
    all aliases, and the contract [CpuMemoryLaws] holds. *)

From S2P Require Import Prelude Bytes MemBase MemInvalidation CpuMemory MemCommon MemSynthetic.

(** What a device handler promises: it does not panic, and a value it returns
    fits its type. *)
Class SyntheticMmioLaws (Dev : Type) `{SyntheticMmio Dev} := {
  dev_ok : Dev -> Prop;
  mmio_read_law offset acc d :
    dev_ok d -> returns dev_ok (fun v => value_ok (value_size v) v) (mmio_read offset acc d);
  mmio_write_law offset acc v d : dev_ok d -> returns dev_ok (fun _ => True) (mmio_write offset acc v d)
}.

Definition page_bytes_ok (l : list Z) : Prop := Z.of_nat (length l) = SYNTHETIC_PAGE_SIZE /\ bytes_ok l.

Definition log_ok (log : MemoryInvalidationLog) : Prop :=
  exists h, represents log h /\ Z.of_nat (length h) < 2 ^ 64.

Section Spec.
Context {Dev : Type} `{SyntheticMmio Dev} {dev_laws : SyntheticMmioLaws Dev}.
Notation Mem := (SyntheticMemory Dev).

Definition page_ok (p : PhysicalPage Dev) : Prop :=
  match p with
  | RamPage bytes generation => page_bytes_ok (ram_contents bytes) /\ in_range 64 generation
  | MmioPage handler => dev_ok handler
  end.

Record synthetic_ok (s : Mem) : Prop := {
  syn_pages page p : s.(pages) !! page = Some p -> page_ok p;
  syn_mapped key m : s.(mappings) !! key = Some m -> is_Some (s.(pages) !! m.(physical_page));
  syn_attributes key m : s.(mappings) !! key = Some m -> attributes_from_bits m.(attributes) = Some m.(attributes);
  syn_next_page : in_range 64 s.(next_page_id);
  syn_log : log_ok s.(invalidations)
}.

(** ** Physical locations *)

(** The physical page and offset behind a virtual address. *)
Definition locate (s : Mem) (address_space address : Z) : option (Z * Z) :=
  option_map (fun m => (m.(physical_page), page_offset address)) (mapping_at s address_space address).

(** The RAM byte of a physical location. *)
Definition phys_byte (s : Mem) (page offset : Z) : option Z :=
  match s.(pages) !! page with
  | Some (RamPage bytes _) => ram_contents bytes !! Z.to_nat offset
  | _ => None
  end.

Definition byte_at (s : Mem) (address_space address : Z) : option Z :=
  match locate s address_space address with
  | Some (page, offset) => phys_byte s page offset
  | None => None
  end.

Definition generation_of (s : Mem) (page : Z) : option Z :=
  match s.(pages) !! page with
  | Some (RamPage _ generation) => Some generation
  | _ => None
  end.

Lemma zero_page_ok : page_bytes_ok ZERO_PAGE.
Proof using. split; [done|]. apply Forall_replicate. split; lia. Qed.

Lemma ram_slice_contents bytes offset count :
  page_bytes_ok (ram_contents bytes) -> 0 <= offset -> 0 <= count -> offset + count <= 4096 ->
  ram_slice bytes offset count = slice (ram_contents bytes) offset count.
Proof using.
  intros [Hl _] Ho Hc Hsum. destruct bytes as [l|]; [done|]. cbn [ram_slice ram_contents from_option].
  unfold ZERO_PAGE, SYNTHETIC_PAGE_SIZE. rewrite slice_some by (rewrite ?length_replicate; lia).
  rewrite drop_replicate, take_replicate. do 2 f_equal. lia.
Qed.

(** A read inside a page. *)
Lemma wp_read_ram {E} page offset count (Q : list Z -> Mem -> Prop) (R : E -> Mem -> Prop) s bytes g :
  s.(pages) !! page = Some (RamPage bytes g) -> page_bytes_ok (ram_contents bytes) ->
  0 <= offset -> 0 <= count -> offset + count <= 4096 ->
  (forall l, slice (ram_contents bytes) offset count = Some l -> bytes_ok l -> Z.of_nat (length l) = count -> Q l s) ->
  wp (read_ram page offset count) Q R s.
Proof using.
  intros Hp Hok Ho Hc Hsum HQ. unfold read_ram, get_ram, wp, bind. rewrite Hp. cbn [fst].
  rewrite ram_slice_contents by done. destruct Hok as [Hl Hb].
  destruct (slice (ram_contents bytes) offset count) as [l|] eqn:Hs.
  - apply HQ; [done|by eapply slice_ok|]. rewrite (slice_length _ _ _ _ Hs). lia.
  - rewrite slice_some in Hs; [done|lia|lia|]. unfold SYNTHETIC_PAGE_SIZE in Hl. lia.
Qed.

Lemma splice_page l offset data :
  page_bytes_ok l -> bytes_ok data -> 0 <= offset -> offset + Z.of_nat (length data) <= 4096 ->
  exists l', splice l offset data = Some l' /\ page_bytes_ok l' /\
    forall k, 0 <= k -> l' !! Z.to_nat k = if (offset <=? k) && (k <? offset + Z.of_nat (length data))
                                 then data !! Z.to_nat (k - offset) else l !! Z.to_nat k.
Proof using.
  intros [Hl Hb] Hd Ho Hsum. unfold SYNTHETIC_PAGE_SIZE in *.
  destruct (splice l offset data) as [l'|] eqn:Hs.
  - exists l'. split; [done|]. split; [split|].
    + by rewrite (splice_length _ _ _ _ Hs).
    + exact (splice_ok _ _ _ _ Hb Hd Hs).
    + intros k Hk. by apply splice_lookup.
  - rewrite splice_some in Hs by lia. done.
Qed.

(** ** Stores *)

(** [s'] is [s] after the bytes [d1] at [(p1, o1)] and [d2] at [(p2, 0)] were
    stored: the generations of both pages advance once, nothing else changes. *)
Record stored (s s' : Mem) (p1 o1 : Z) (d1 : list Z) (p2 : Z) (d2 : list Z) : Prop := {
  st_state : s' = set_pages (fun _ => s'.(pages)) s;
  st_frame page : page <> p1 -> page <> p2 -> s'.(pages) !! page = s.(pages) !! page;
  st_page page : page = p1 \/ page = p2 -> exists bytes g l,
    s.(pages) !! page = Some (RamPage bytes g) /\ s'.(pages) !! page = Some (RamPage (Some l) (g + 1)) /\
    g + 1 < 2 ^ 64 /\ page_bytes_ok l;
  st_byte page o : 0 <= o ->
    phys_byte s' page o =
      if (page =? p1) && (o1 <=? o) && (o <? o1 + Z.of_nat (length d1)) then d1 !! Z.to_nat (o - o1)
      else if (page =? p2) && (o <? Z.of_nat (length d2)) then d2 !! Z.to_nat o
      else phys_byte s page o
}.

Lemma stored_ok s s' p1 o1 d1 p2 d2 : synthetic_ok s -> stored s s' p1 o1 d1 p2 d2 -> synthetic_ok s'.
Proof using.
  intros [Hp Hm Ha Hn Hl] [Hst Hf Hpg _].
  assert (Hcase : forall page, s'.(pages) !! page = s.(pages) !! page \/
    exists bytes g l, s.(pages) !! page = Some (RamPage bytes g) /\ s'.(pages) !! page = Some (RamPage (Some l) (g + 1)) /\
      g + 1 < 2 ^ 64 /\ page_bytes_ok l).
  { intros page. destruct (decide (page = p1)); [right; apply Hpg; auto|].
    destruct (decide (page = p2)); [right; apply Hpg; auto|]. left. by apply Hf. }
  split; rewrite Hst; cbn [set_pages pages mappings next_page_id invalidations]; [| |done..].
  - intros page p Hpage. destruct (Hcase page) as [E|(b & g & l & E1 & E2 & Hg & Hl')].
    + rewrite E in Hpage. by eapply Hp.
    + rewrite E2 in Hpage. injection Hpage as <-. destruct (Hp _ _ E1) as [_ [Hg0 _]]. split; [done|]. split; lia.
  - intros key m Hkey. specialize (Hm key m Hkey). destruct (Hcase m.(physical_page)) as [->|(b & g & l & _ & -> & _)]; [done|eauto].
Qed.

Lemma stored_generation s s' p1 o1 d1 p2 d2 page g :
  stored s s' p1 o1 d1 p2 d2 -> generation_of s page = Some g ->
  generation_of s' page = Some (if (page =? p1) || (page =? p2) then g + 1 else g).
Proof using.
  intros [_ Hf Hpg _]. unfold generation_of. intros Hg.
  destruct (Z.eqb_spec page p1) as [E1|E1], (Z.eqb_spec page p2) as [E2|E2]; cbn [orb];
    try (destruct (Hpg page ltac:(auto)) as (b & g' & l & Ep & -> & _); rewrite Ep in Hg; by simplify_eq).
  by rewrite Hf.
Qed.

Section Write.
Context (address_space address : Z) (R : DataAccessFault -> Mem -> Prop) (s : Mem).
Context (Hs : synthetic_ok s)
        (Hfault : R (fault_of address_space address WriteAccess ContentGenerationExhausted) s).

Lemma wp_next_generation g (Q : Z -> Mem -> Prop) :
  (g + 1 < 2 ^ 64 -> Q (g + 1) s) -> wp (next_generation address_space address g) Q R s.
Proof using Hfault.
  intros HQ. apply wp_ok_or; [intros _; exact Hfault|]. intros g' Hg. apply generation_next_some in Hg as [-> Hg]. by apply HQ.
Qed.

Lemma wp_get_ram {E} page bytes g (Q : option (list Z) * Z -> Mem -> Prop) (R' : E -> Mem -> Prop) s' :
  s'.(pages) !! page = Some (RamPage bytes g) -> Q (bytes, g) s' -> wp (get_ram page) Q R' s'.
Proof using. intros Hp HQ. unfold wp, get_ram. by rewrite Hp. Qed.

Lemma phys_byte_insert s' page g l o p :
  phys_byte (set_pages (insert page (RamPage (Some l) g)) s') p o =
    if p =? page then l !! Z.to_nat o else phys_byte s' p o.
Proof using.
  unfold phys_byte. cbn [set_pages pages]. destruct (Z.eqb_spec p page) as [->|Hne].
  - by rewrite lookup_insert_eq.
  - by rewrite lookup_insert_ne by congruence.
Qed.

Lemma wp_write_single page bytes g data (Q : unit -> Mem -> Prop) :
  s.(pages) !! page = Some (RamPage bytes g) -> bytes_ok data ->
  page_offset address + Z.of_nat (length data) <= 4096 ->
  (forall s', stored s s' page (page_offset address) data page [] -> Q tt s') ->
  wp (write_single address_space address page data) Q R s.
Proof using Hfault Hs.
  intros Hp Hd Hsum HQ. pose proof (page_offset_bound address) as Hoff.
  destruct (syn_pages s Hs _ _ Hp) as [Hok Hg].
  destruct (splice_page (ram_contents bytes) (page_offset address) data Hok Hd ltac:(lia) Hsum) as (l & Hl & Hlok & Hlk).
  unfold write_single. apply wp_bind. eapply wp_get_ram; [exact Hp|]. cbn [fst snd].
  apply wp_bind, wp_next_generation. intros Hg1. apply wp_bind. eapply wp_expect; [exact Hl|].
  apply HQ. split.
  - done.
  - intros p H1 _. cbn. by rewrite lookup_insert_ne by congruence.
  - intros p Heq. assert (p = page) as -> by tauto. exists bytes, g, l. split; [done|]. cbn. by rewrite lookup_insert_eq.
  - intros p o Ho. rewrite (phys_byte_insert s page). cbn [length]. destruct (Z.eqb_spec p page) as [->|Hne].
    + cbn [andb]. rewrite Hlk by done. destruct (_ && _); [done|].
      destruct (Z.ltb_spec o (Z.of_nat 0)); [lia|]. unfold phys_byte. by rewrite Hp.
    + done.
Qed.

Lemma wp_write_ram {E} page offset data bytes g (Q : unit -> Mem -> Prop) (R' : E -> Mem -> Prop) s' :
  s'.(pages) !! page = Some (RamPage bytes g) -> page_bytes_ok (ram_contents bytes) -> bytes_ok data ->
  0 <= offset -> offset + Z.of_nat (length data) <= 4096 ->
  (forall l, page_bytes_ok l ->
     (forall k, 0 <= k -> l !! Z.to_nat k = if (offset <=? k) && (k <? offset + Z.of_nat (length data))
                                 then data !! Z.to_nat (k - offset) else ram_contents bytes !! Z.to_nat k) ->
     Q tt (set_pages (insert page (RamPage (Some l) g)) s')) ->
  wp (write_ram page offset data) Q R' s'.
Proof using.
  intros Hp Hok Hd Ho Hsum HQ. destruct (splice_page (ram_contents bytes) offset data Hok Hd Ho Hsum) as (l & Hl & Hlok & Hlk).
  unfold write_ram. apply wp_bind. eapply wp_get_ram; [exact Hp|]. apply wp_bind. eapply wp_expect; [exact Hl|].
  by apply HQ.
Qed.

Lemma wp_set_generation {E} page bytes g next (Q : unit -> Mem -> Prop) (R' : E -> Mem -> Prop) s' :
  s'.(pages) !! page = Some (RamPage bytes g) -> Q tt (set_pages (insert page (RamPage bytes next)) s') ->
  wp (set_generation page next) Q R' s'.
Proof using. intros Hp HQ. unfold set_generation. apply wp_bind. by eapply wp_get_ram. Qed.

Lemma pages_set f (s' : Mem) : pages (set_pages f s') = f s'.(pages).
Proof using. done. Qed.

Lemma wp_write_crossing p1 p2 b1 g1 b2 g2 n data (Q : unit -> Mem -> Prop) :
  s.(pages) !! p1 = Some (RamPage b1 g1) -> s.(pages) !! p2 = Some (RamPage b2 g2) -> bytes_ok data ->
  page_offset address + n = 4096 -> 0 <= n <= Z.of_nat (length data) -> Z.of_nat (length data) - n <= page_offset address ->
  (forall s', stored s s' p1 (page_offset address) (take (Z.to_nat n) data) p2 (drop (Z.to_nat n) data) -> Q tt s') ->
  wp (write_crossing address_space address p1 p2 n data) Q R s.
Proof using Hfault Hs.
  intros Hp1 Hp2 Hd Hoff Hn Hdis HQ. pose proof (page_offset_bound address) as Hb. unfold SYNTHETIC_PAGE_SIZE in Hb.
  destruct (syn_pages s Hs _ _ Hp1) as [Hok1 Hg1]. destruct (syn_pages s Hs _ _ Hp2) as [Hok2 Hg2].
  set (d1 := take (Z.to_nat n) data) in *. set (d2 := drop (Z.to_nat n) data) in *.
  assert (Hd1 : bytes_ok d1 /\ Z.of_nat (length d1) = n) by (split; [by apply Forall_take|unfold d1; rewrite length_take; lia]).
  assert (Hd2 : bytes_ok d2 /\ Z.of_nat (length d2) = Z.of_nat (length data) - n)
    by (split; [by apply Forall_drop|unfold d2; rewrite length_drop; lia]).
  destruct Hd1 as [Hd1 Hl1], Hd2 as [Hd2 Hl2].
  unfold write_crossing. apply wp_bind. eapply wp_get_ram; [exact Hp1|]. cbn [snd].
  apply wp_bind, wp_next_generation. intros Hn1. apply wp_bind. destruct (Z.eqb_spec p2 p1) as [->|Hne].
  - apply wp_ret, wp_bind. fold d1 d2. eapply wp_write_ram; [exact Hp1|done|done|lia|lia|].
    intros l Hlok Hlk. apply wp_bind. eapply wp_write_ram; [rewrite pages_set; apply lookup_insert_eq|exact Hlok|done|lia|lia|].
    intros l' Hlok' Hlk'. apply wp_bind. eapply wp_set_generation; [rewrite pages_set; apply lookup_insert_eq|].
    apply wp_ret, HQ. split.
    + done.
    + intros p Hpp _. rewrite !pages_set, !lookup_insert_ne by congruence. done.
    + intros p Heq. assert (p = p1) as -> by tauto. exists b1, g1, l'. split; [done|].
      rewrite pages_set, lookup_insert_eq. done.
    + intros p o Ho. rewrite !phys_byte_insert. destruct (Z.eqb_spec p p1) as [->|]; cbn [andb]; [|done].
      rewrite Hlk' by done. cbn [ram_contents from_option]. rewrite Hlk by done. rewrite Z.sub_0_r, Z.add_0_l.
      unfold phys_byte. rewrite Hp1.
      destruct (Z.leb_spec 0 o); [|lia]. destruct (Z.ltb_spec o (Z.of_nat (length d2))); cbn [andb]; [|done].
      destruct (Z.leb_spec (page_offset address) o); [lia|]. done.
  - apply wp_bind. eapply wp_get_ram; [exact Hp2|]. cbn [snd]. apply wp_bind, wp_next_generation. intros Hn2.
    apply wp_ret, wp_bind. fold d1 d2. eapply wp_write_ram; [exact Hp1|done|done|lia|lia|].
    intros l Hlok Hlk. apply wp_bind.
    eapply wp_write_ram; [rewrite pages_set, lookup_insert_ne by congruence; exact Hp2|exact Hok2|done|lia|lia|].
    intros l' Hlok' Hlk'. apply wp_bind.
    eapply wp_set_generation; [rewrite !pages_set, lookup_insert_ne by congruence; apply lookup_insert_eq|].
    eapply wp_set_generation; [rewrite !pages_set, lookup_insert_ne by congruence; apply lookup_insert_eq|].
    apply HQ. split.
    + done.
    + intros p Hpp1 Hpp2. rewrite !pages_set, !lookup_insert_ne by congruence. done.
    + intros p [->| ->].
      * exists b1, g1, l. split; [done|]. rewrite pages_set, lookup_insert_ne, pages_set, lookup_insert_eq by congruence. done.
      * exists b2, g2, l'. split; [done|]. rewrite pages_set, lookup_insert_eq. done.
    + intros p o Ho. rewrite !phys_byte_insert. unfold phys_byte. destruct (Z.eqb_spec p p2) as [->|].
      * destruct (Z.eqb_spec p2 p1); [done|]. cbn [andb]. rewrite Hlk', Hp2 by done. rewrite Z.sub_0_r, Z.add_0_l.
        destruct (Z.leb_spec 0 o); [done|lia].
      * destruct (Z.eqb_spec p p1) as [->|]; cbn [andb]; [|done]. by rewrite Hlk, Hp1.
Qed.
End Write.

(** ** Resolved accesses *)

Lemma resolve_mapping_some (s : Mem) address_space current m p region :
  resolve_mapping s address_space current = Some (m, p, region) ->
  mapping_at s address_space current = Some m /\ p = m.(permissions) /\
  exists pg, s.(pages) !! m.(physical_page) = Some pg /\ region = region_of pg.
Proof using.
  unfold resolve_mapping. destruct (mapping_at _ _ _) as [m'|]; [|done].
  destruct (s.(pages) !! m'.(physical_page)) as [pg|] eqn:Hpg; [|done]. intros [= <- <- <-]. eauto.
Qed.

Lemma wp_resolve address_space address access kind (Q : ResolvedDataAccess Mapping -> Mem -> Prop) R s :
  (forall r, resolved_ok address access kind (resolve_mapping s address_space) r ->
     resolve_access s address_space address access kind = Ok r -> Q r s) ->
  (forall f, f.(fault_address_space) = address_space -> f.(fault_kind) = kind -> R f s) ->
  wp (resolve_m address_space address access kind) Q R s.
Proof using.
  intros HQ HR. pose proof (resolve_data_access_outcome address_space address access kind (resolve_mapping s address_space)) as Ho.
  unfold wp, resolve_m, resolve_access in *. destruct (resolve_data_access _ _ _ _ _) as [r|f|]; [by apply HQ|by apply HR; destruct Ho|done].
Qed.

(** The RAM page behind a resolved mapping. *)
Lemma resolved_ram (s : Mem) address_space current m p :
  resolve_mapping s address_space current = Some (m, p, Ram) ->
  mapping_at s address_space current = Some m /\
  exists bytes g, s.(pages) !! m.(physical_page) = Some (RamPage bytes g).
Proof using.
  intros (Hm & _ & pg & Hpg & Hr)%resolve_mapping_some. split; [done|]. destruct pg as [bytes g|]; [eauto|done].
Qed.

Lemma resolved_device (s : Mem) address_space current m p :
  resolve_mapping s address_space current = Some (m, p, DeviceRegion) ->
  exists d, s.(pages) !! m.(physical_page) = Some (MmioPage d).
Proof using. intros (Hm & _ & pg & Hpg & Hr)%resolve_mapping_some. destruct pg as [|d]; [done|eauto]. Qed.

(** ** Byte-level behaviour of one access *)

Section Access.
Context (address_space address : Z) (access : MemoryAccess).
Notation count := (size_bytes access.(a_size)).

(** Where the bytes of a resolved access live. *)
Definition access_page2 (r : ResolvedDataAccess Mapping) : Z :=
  match r.(ra_second) with Some m => m.(physical_page) | None => r.(ra_first).(physical_page) end.

Lemma resolved_locate (s : Mem) kind r i :
  resolved_ok address access kind (resolve_mapping s address_space) r -> 0 <= i < count ->
  locate s address_space (address + i) =
    Some (if i <? r.(ra_first_bytes) then (r.(ra_first).(physical_page), page_offset address + i)
          else (access_page2 r, i - r.(ra_first_bytes))).
Proof using.
  intros (_ & _ & (p & Hf & _) & Hsec) Hi. apply resolve_mapping_some in Hf as [Hf _].
  pose proof (page_offset_bound address) as Hb. unfold SYNTHETIC_PAGE_SIZE in Hb.
  unfold locate, mapping_at, access_page2 in *.
  destruct (r.(ra_second)) as [second|].
  - destruct Hsec as (Hfb & Hlt & (p2 & Hs2 & _)). apply resolve_mapping_some in Hs2 as [Hs2 _].
    unfold mapping_at in Hs2. pose proof (size_bytes_bounds access.(a_size)).
    destruct (next_page address r.(ra_first_bytes) ltac:(lia)) as [Hnv Hno]. rewrite Hnv in Hs2.
    destruct (Z.ltb_spec i r.(ra_first_bytes)).
    + destruct (same_page address i ltac:(lia)) as [-> ->]. by rewrite Hf.
    + replace (address + i) with (address + r.(ra_first_bytes) + (i - r.(ra_first_bytes))) by lia.
      destruct (same_page (address + r.(ra_first_bytes)) (i - r.(ra_first_bytes)) ltac:(lia)) as [-> ->].
      by rewrite Hnv, Hs2, Hno, Z.add_0_l.
  - destruct Hsec as [-> Hsum]. destruct (Z.ltb_spec i count); [|lia].
    destruct (same_page address i ltac:(lia)) as [-> ->]. by rewrite Hf.
Qed.

(** The bytes an access reads. *)
Definition bytes_read (s : Mem) (bytes : list Z) : Prop :=
  Z.of_nat (length bytes) = count /\ bytes_ok bytes /\
  forall i, 0 <= i < count -> bytes !! Z.to_nat i = byte_at s address_space (address + i).

(** A value whose bytes are those of memory at the accessed addresses. *)
Definition value_at (s : Mem) (v : MemoryValue) : Prop :=
  exists bytes, bytes_read s bytes /\ v = value_from_bits access.(a_size) (from_le_bytes bytes).

Lemma value_at_ok s v : value_at s v -> value_ok access.(a_size) v.
Proof using. intros (bytes & (Hl & Hb & _) & ->). by apply from_le_value_ok. Qed.

Lemma from_le_slice_bytes s bytes :
  bytes_read s bytes -> from_le_slice access.(a_size) bytes = Some (value_from_bits access.(a_size) (from_le_bytes bytes)).
Proof using. intros (Hl & _). apply from_le_slice_some. pose proof (size_bytes_bounds access.(a_size)). lia. Qed.

(** The RAM bytes of a resolved access, read as the code reads them. *)
Lemma wp_read_resolved s kind r (Q : list Z -> Mem -> Prop) (R : DataAccessFault -> Mem -> Prop) :
  synthetic_ok s -> resolved_ok address access kind (resolve_mapping s address_space) r -> r.(ra_region) = Ram ->
  (forall bytes, bytes_read s bytes -> Q bytes s) ->
  wp (match r.(ra_second) with
      | None => read_ram r.(ra_first).(physical_page) (page_offset address) count
      | Some second =>
          let! low := read_ram r.(ra_first).(physical_page) (page_offset address) r.(ra_first_bytes) in
          let! high := read_ram second.(physical_page) 0 (count - r.(ra_first_bytes)) in
          ret (low ++ high)
      end) Q R s.
Proof using.
  intros Hs Hr Hram HQ. pose proof (fun i => resolved_locate s kind r i Hr) as Hloc. unfold access_page2 in Hloc.
  destruct Hr as (_ & _ & (p & Hf & _) & Hsec). rewrite Hram in Hf, Hsec.
  apply resolved_ram in Hf as [_ (b1 & g1 & Hp1)]. destruct (syn_pages s Hs _ _ Hp1) as [Hok1 _].
  pose proof (size_bytes_bounds access.(a_size)) as Hc. pose proof (page_offset_bound address) as Ho.
  destruct (r.(ra_second)) as [second|].
  - destruct Hsec as (Hfb & Hlt & (p2 & Hs2 & _)). apply resolved_ram in Hs2 as [_ (b2 & g2 & Hp2)].
    destruct (syn_pages s Hs _ _ Hp2) as [Hok2 _].
    apply wp_bind. eapply wp_read_ram; [exact Hp1|done|lia|lia|lia|]. intros low Hlow Hbl Hll.
    apply wp_bind. eapply wp_read_ram; [exact Hp2|done|lia|lia|lia|]. intros high Hhigh Hbh Hlh.
    apply HQ. split; [rewrite length_app; lia|]. split; [by apply Forall_app|]. intros i Hi.
    unfold byte_at. rewrite (Hloc i Hi). destruct (Z.ltb_spec i r.(ra_first_bytes)); cbn [phys_byte].
    + rewrite lookup_app_l by lia. rewrite (slice_lookup _ _ _ _ _ Hlow) by lia. unfold phys_byte. by rewrite Hp1.
    + rewrite lookup_app_r by lia. replace (Z.to_nat i - length low)%nat with (Z.to_nat (i - r.(ra_first_bytes))) by lia.
      rewrite (slice_lookup _ _ _ _ _ Hhigh) by lia. unfold phys_byte. by rewrite Hp2.
  - destruct Hsec as [Hfb Hsum]. eapply wp_read_ram; [exact Hp1|done|lia|lia|lia|]. intros bytes Hb Hbb Hlb.
    apply HQ. split; [done|]. split; [done|]. intros i Hi. unfold byte_at. rewrite (Hloc i Hi), Hfb.
    destruct (Z.ltb_spec i count); [|lia]. rewrite (slice_lookup _ _ _ _ _ Hb) by lia. unfold phys_byte. by rewrite Hp1.
Qed.

(** [s'] is [s] with the bytes [data] stored at the accessed addresses: every
    virtual byte that lives at a written location sees the new value, every
    other byte keeps its own, and only page contents and generations change. *)
Record bytes_written (s s' : Mem) (data : list Z) : Prop := {
  bw_state : s' = set_pages (fun _ => s'.(pages)) s;
  bw_new space a i : 0 <= i < Z.of_nat (length data) -> locate s address_space (address + i) <> None ->
    locate s space a = locate s address_space (address + i) -> byte_at s' space a = data !! Z.to_nat i;
  bw_old space a : (forall i, 0 <= i < Z.of_nat (length data) -> locate s space a <> locate s address_space (address + i)) ->
    byte_at s' space a = byte_at s space a;
  bw_generation page g : generation_of s page = Some g ->
    generation_of s' page = Some (if existsb (fun i => bool_decide (option_map fst (locate s address_space (address + i)) = Some page))
      (seqZ 0 (Z.of_nat (length data))) then g + 1 else g)
}.

Lemma locate_state (s s' : Mem) space a : s' = set_pages (fun _ => s'.(pages)) s -> locate s' space a = locate s space a.
Proof using. intros ->. done. Qed.

Lemma locate_offset (s : Mem) space a page o : locate s space a = Some (page, o) -> o = page_offset a.
Proof using. unfold locate. destruct (mapping_at _ _ _); [|done]. by intros [= _ <-]. Qed.

Lemma resolved_shape (s : Mem) kind r :
  resolved_ok address access kind (resolve_mapping s address_space) r ->
  0 < r.(ra_first_bytes) <= count /\ page_offset address + r.(ra_first_bytes) <= 4096 /\
  (r.(ra_second) = None -> r.(ra_first_bytes) = count) /\
  (r.(ra_first_bytes) < count -> page_offset address + r.(ra_first_bytes) = 4096).
Proof using.
  intros (_ & _ & _ & Hsec). pose proof (size_bytes_bounds access.(a_size)). pose proof (page_offset_bound address) as Ho.
  unfold SYNTHETIC_PAGE_SIZE in Ho. destruct (r.(ra_second)); [destruct Hsec as (-> & ? & _)|destruct Hsec as [-> ?]];
    repeat split; try done; lia.
Qed.

(** The three facts of [bytes_written] for the two stores of an access; [hit1]
    and [hit2] say that a physical location is in the first or second range. *)
Section Stored.
Context (s s' : Mem) (kind : DataAccessKind) (r : ResolvedDataAccess Mapping).
Context (Hr : resolved_ok address access kind (resolve_mapping s address_space) r).
Notation fb := r.(ra_first_bytes).
Notation p1 := r.(ra_first).(physical_page).

Definition hit1 (page o : Z) : bool := (page =? p1) && (page_offset address <=? o) && (o <? page_offset address + fb).
Definition hit2 (page o : Z) : bool := (page =? access_page2 r) && (o <? count - fb).

Lemma hit1_index page o : hit1 page o = true ->
  0 <= o - page_offset address < count /\ locate s address_space (address + (o - page_offset address)) = Some (page, o).
Proof using Hr.
  destruct (resolved_shape s kind r Hr) as (Hfb & _). unfold hit1. rewrite !andb_true_iff, Z.eqb_eq, Z.leb_le, Z.ltb_lt.
  intros [[-> ?] ?]. split; [lia|]. rewrite (resolved_locate s kind r) by (done || lia).
  destruct (Z.ltb_spec (o - page_offset address) fb); [|lia]. do 2 f_equal. lia.
Qed.

Lemma hit2_index page o : hit2 page o = true -> 0 <= o ->
  0 <= fb + o < count /\ locate s address_space (address + (fb + o)) = Some (page, o).
Proof using Hr.
  destruct (resolved_shape s kind r Hr) as (Hfb & _). unfold hit2. rewrite !andb_true_iff, Z.eqb_eq, Z.ltb_lt.
  intros [-> ?] Ho. split; [lia|]. rewrite (resolved_locate s kind r) by (done || lia).
  destruct (Z.ltb_spec (fb + o) fb); [lia|]. do 2 f_equal. lia.
Qed.

(** Distinct bytes of an access have distinct locations. *)
Lemma index_hits i : 0 <= i < count ->
  exists page o, locate s address_space (address + i) = Some (page, o) /\ 0 <= o /\
    ((hit1 page o = true /\ i = o - page_offset address) \/ (hit1 page o = false /\ hit2 page o = true /\ i = fb + o)).
Proof using Hr.
  destruct (resolved_shape s kind r Hr) as (Hfb & Hsum & _ & Hcross). intros Hi.
  pose proof (page_offset_bound address) as Ho. pose proof (size_bytes_bounds access.(a_size)). unfold SYNTHETIC_PAGE_SIZE in Ho.
  rewrite (resolved_locate s kind r i) by done. unfold hit1, hit2. destruct (Z.ltb_spec i fb).
  - do 2 eexists. split; [reflexivity|]. split; [lia|]. left. split; [|lia]. rewrite Z.eqb_refl.
    cbn [andb]. rewrite andb_true_iff, Z.leb_le, Z.ltb_lt. lia.
  - do 2 eexists. split; [reflexivity|]. split; [lia|]. right. split.
    + rewrite (proj2 (Z.leb_gt _ _)) by lia. by rewrite andb_false_r.
    + split; [|lia]. by rewrite Z.eqb_refl, (proj2 (Z.ltb_lt _ _)) by lia.
Qed.

Lemma written_pages page :
  (page =? p1) || (page =? access_page2 r) =
  existsb (fun i => bool_decide (option_map fst (locate s address_space (address + i)) = Some page)) (seqZ 0 count).
Proof using Hr.
  destruct (resolved_shape s kind r Hr) as (Hfb & Hsum & Hsec & Hcross).
  apply Bool.eq_true_iff_eq. rewrite orb_true_iff, !Z.eqb_eq, existsb_exists.
  assert (Hin : forall i q, 0 <= i < count -> option_map fst (locate s address_space (address + i)) = Some q ->
    exists i, In i (seqZ 0 count) /\ bool_decide (option_map fst (locate s address_space (address + i)) = Some q) = true).
  { intros i q Hi Hq. exists i. split; [apply list_elem_of_In, elem_of_seqZ; lia|by apply bool_decide_eq_true]. }
  split.
  - intros [->| ->].
    + apply (Hin 0); [lia|]. rewrite (resolved_locate s kind r) by (done || lia). by destruct (Z.ltb_spec 0 fb); [|lia].
    + destruct (decide (fb = count)) as [Hfc|Hfc].
      * apply (Hin 0); [lia|]. rewrite (resolved_locate s kind r) by (done || lia). destruct (Z.ltb_spec 0 fb); [|lia]. cbn.
        unfold access_page2. destruct Hr as (_ & _ & _ & Hsec'). destruct (r.(ra_second)); [|done]. lia.
      * apply (Hin fb); [lia|]. rewrite (resolved_locate s kind r) by (done || lia). by destruct (Z.ltb_spec fb fb); [lia|].
  - intros (i & Hi%list_elem_of_In%elem_of_seqZ & Heq%bool_decide_eq_true).
    rewrite (resolved_locate s kind r) in Heq by (done || lia). destruct (Z.ltb_spec i fb); cbn in Heq; simplify_eq; auto.
Qed.

Context (data : list Z) (Hl : Z.of_nat (length data) = count).
Context (Hst : stored s s' p1 (page_offset address) (take (Z.to_nat fb) data) (access_page2 r) (drop (Z.to_nat fb) data)).

Lemma stored_byte page o : 0 <= o ->
  phys_byte s' page o = if hit1 page o then data !! Z.to_nat (o - page_offset address)
                        else if hit2 page o then data !! Z.to_nat (fb + o) else phys_byte s page o.
Proof using Hr Hl Hst.
  destruct (resolved_shape s kind r Hr) as (Hfb & _). intros Ho.
  rewrite (st_byte _ _ _ _ _ _ _ Hst) by done. rewrite length_take, length_drop.
  replace (Z.of_nat (Z.to_nat fb `min` length data)) with fb by lia.
  replace (Z.of_nat (length data - Z.to_nat fb)) with (count - fb) by lia.
  fold (hit1 page o) (hit2 page o). destruct (hit1 page o) eqn:H1.
  - unfold hit1 in H1. rewrite !andb_true_iff, Z.leb_le, Z.ltb_lt in H1. rewrite lookup_take, decide_True by lia. done.
  - destruct (hit2 page o); [|done]. rewrite lookup_drop. f_equal. lia.
Qed.

Lemma stored_bytes_written : bytes_written s s' data.
Proof using Hr Hl Hst.
  pose proof (st_state _ _ _ _ _ _ _ Hst) as Hstate. split; [exact Hstate| | |].
  - intros space a i Hi _ Heq. rewrite Hl in Hi. unfold byte_at. rewrite (locate_state s s') by done. rewrite Heq.
    destruct (index_hits i Hi) as (page & o & -> & Ho & Hcase). rewrite stored_byte by done.
    destruct Hcase as [(-> & ->)|(-> & -> & ->)]; done.
  - intros space a Hno. unfold byte_at. rewrite (locate_state s s') by done.
    destruct (locate s space a) as [[page o]|] eqn:Hla; [|done].
    pose proof (page_offset_bound a) as Ho. rewrite <- (locate_offset _ _ _ _ _ Hla) in Ho. rewrite stored_byte by lia.
    destruct (hit1 page o) eqn:H1.
    { destruct (hit1_index page o H1) as [Hi Hloc]. destruct (Hno (o - page_offset address) ltac:(lia)). congruence. }
    destruct (hit2 page o) eqn:H2; [|done].
    destruct (hit2_index page o H2 ltac:(lia)) as [Hi Hloc]. destruct (Hno (fb + o) ltac:(lia)). congruence.
  - intros page g Hg. rewrite (stored_generation _ _ _ _ _ _ _ _ _ Hst Hg), Hl. by rewrite written_pages.
Qed.
End Stored.

(** [s'] is [s] with one device in a new state. *)
Definition device_step (s s' : Mem) : Prop :=
  exists page d d', s.(pages) !! page = Some (MmioPage d) /\ dev_ok d' /\ s' = set_pages (insert page (MmioPage d')) s.

Lemma device_step_ok s s' : synthetic_ok s -> device_step s s' -> synthetic_ok s'.
Proof using.
  intros [Hp Hm Ha Hn Hl] (page & d & d' & Hd & Hok & ->). split; cbn [set_pages pages mappings next_page_id invalidations]; [| |done..].
  - intros q p Hq. destruct (decide (q = page)) as [->|Hne].
    + rewrite lookup_insert_eq in Hq. by injection Hq as <-.
    + rewrite lookup_insert_ne in Hq by congruence. by eapply Hp.
  - intros key m Hkey. specialize (Hm key m Hkey). destruct (decide (m.(physical_page) = page)) as [->|Hne].
    + rewrite lookup_insert_eq. eauto.
    + by rewrite lookup_insert_ne by congruence.
Qed.

Lemma device_step_bytes s s' space a : device_step s s' -> byte_at s' space a = byte_at s space a.
Proof using.
  intros (page & d & d' & Hd & _ & ->). unfold byte_at, locate, mapping_at, phys_byte. cbn [set_pages pages mappings].
  destruct (s.(mappings) !! _) as [m|]; cbn; [|done]. destruct (decide (m.(physical_page) = page)) as [->|Hne].
  - by rewrite lookup_insert_eq, Hd.
  - by rewrite lookup_insert_ne by congruence.
Qed.

Lemma wp_check_injected kind (Q : unit -> Mem -> Prop) (R : DataAccessFault -> Mem -> Prop) s :
  Q tt s -> (forall f, R f s) -> wp (check_injected address_space address kind) Q R s.
Proof using. intros HQ HR. unfold wp, check_injected. destruct (s.(data_faults) !! _); [apply HR|apply HQ]. Qed.

Lemma wp_require {E} (c : bool) (e : E) (Q : unit -> Mem -> Prop) (R : E -> Mem -> Prop) s :
  (c = false -> R e s) -> (c = true -> Q tt s) -> wp (require c e) Q R s.
Proof using. intros HR HQ. apply wp_guard; destruct c; auto. Qed.

Lemma wp_call_device {A} page d kind (op : SM Dev string A) (P : A -> Prop) (Q : A -> Mem -> Prop) (R : DataAccessFault -> Mem -> Prop) s :
  s.(pages) !! page = Some (MmioPage d) -> returns dev_ok P (op d) ->
  (forall a s', P a -> device_step s s' -> Q a s') -> (forall f s', device_step s s' -> R f s') ->
  wp (call_device address_space address page kind op) Q R s.
Proof using.
  intros Hp [Hok Hr] HQ HR. unfold wp, call_device. rewrite Hp. destruct (op d) as [[a|e|] d'] eqn:Hop; cbn [fst snd map_err] in *.
  - apply HQ; [done|]. by exists page, d, d'.
  - apply HR. by exists page, d, d'.
  - done.
Qed.

(** What an access may leave behind when it does not store to RAM. *)
Definition unchanged_or_device (s s' : Mem) : Prop := s' = s \/ device_step s s'.

Lemma read_outcome s :
  synthetic_ok s ->
  wp (read address_space address access)
    (fun r s' => match r.(dr_region) with
                 | Ram => s' = s /\ value_at s r.(dr_value)
                 | DeviceRegion => device_step s s' /\ value_ok access.(a_size) r.(dr_value)
                 end) (fun _ => unchanged_or_device s) s.
Proof using dev_laws.
  intros Hs. unfold read. apply wp_bind, wp_resolve; [|by left]. intros r Hr _.
  apply wp_bind, wp_check_injected; [|by left]. destruct (r.(ra_region)) eqn:Hreg.
  - apply wp_bind. eapply wp_read_resolved; [done|exact Hr|done|]. intros bytes Hb.
    apply wp_bind. eapply wp_expect; [by eapply from_le_slice_bytes|]. apply wp_ret. split; [done|]. by exists bytes.
  - destruct Hr as (_ & _ & (p & Hf & _) & _). rewrite Hreg in Hf. apply resolved_device in Hf as [d Hd].
    apply wp_bind, wp_require; [by left|]. intros _. apply wp_bind.
    eapply wp_call_device; [exact Hd|apply mmio_read_law; exact (syn_pages s Hs _ _ Hd)| |intros f s' Hstep; by right].
    intros v s' Hv Hstep. apply wp_bind, wp_require; [by right|]. intros Hsz%bool_decide_eq_true.
    apply wp_ret. split; [done|]. by rewrite <- Hsz.
Qed.

(** A value stored into the single RAM page of a resolved access. *)
Lemma wp_store_value s kind r v (Q : unit -> Mem -> Prop) (R : DataAccessFault -> Mem -> Prop) :
  synthetic_ok s -> resolved_ok address access kind (resolve_mapping s address_space) r ->
  r.(ra_region) = Ram -> r.(ra_second) = None ->
  (forall s', bytes_written s s' (to_le_bytes count (value_bits v)) -> synthetic_ok s' -> Q tt s') -> (forall f, R f s) ->
  wp (let! bytes := expect (copy_le_bytes v count) in write_single address_space address r.(ra_first).(physical_page) bytes) Q R s.
Proof using.
  intros Hs Hr Hram Hsec HQ HR. pose proof (size_bytes_bounds access.(a_size)) as Hc.
  destruct (resolved_shape s kind r Hr) as (Hfb & Hsum & Hnone & _). specialize (Hnone Hsec).
  assert (Hpage : exists bytes g, s.(pages) !! r.(ra_first).(physical_page) = Some (RamPage bytes g)).
  { destruct Hr as (_ & _ & (p & Hf & _) & _). rewrite Hram in Hf. by apply resolved_ram in Hf as [_ ?]. }
  destruct Hpage as (bytes & g & Hp).
  apply wp_bind. eapply wp_expect; [apply copy_le_bytes_some; lia|].
  assert (Hlen : Z.of_nat (length (to_le_bytes count (value_bits v))) = count) by (rewrite to_le_bytes_length; lia).
  eapply wp_write_single; [done|apply HR|exact Hp|apply to_le_bytes_range|lia|].
  intros s' Hst. apply HQ; [|by eapply stored_ok]. eapply stored_bytes_written; [exact Hr|exact Hlen|].
  unfold access_page2. rewrite Hsec, take_ge, drop_ge by lia. exact Hst.
Qed.

Lemma write_outcome s v :
  synthetic_ok s ->
  wp (write address_space address access v)
    (fun r s' => match r.(dw_region) with
                 | Ram => value_size v = access.(a_size) /\ synthetic_ok s' /\
                          bytes_written s s' (to_le_bytes count (value_bits v))
                 | DeviceRegion => device_step s s'
                 end) (fun _ => unchanged_or_device s) s.
Proof using dev_laws.
  intros Hs. unfold write. apply wp_bind, wp_require; [by left|]. intros Hsz%bool_decide_eq_true.
  apply wp_bind, wp_resolve; [|by left]. intros r Hr _.
  apply wp_bind, wp_check_injected; [|by left]. destruct (r.(ra_region)) eqn:Hreg.
  - pose proof (size_bytes_bounds access.(a_size)) as Hc. apply wp_bind.
    eapply wp_expect; [apply copy_le_bytes_some; lia|]. apply wp_bind.
    assert (Hlen : Z.of_nat (length (to_le_bytes count (value_bits v))) = count) by (rewrite to_le_bytes_length; lia).
    destruct (resolved_shape s _ r Hr) as (Hfb & Hsum & Hnone & Hcross). pose proof Hr as (_ & _ & (p & Hf & _) & Hsec).
    rewrite Hreg in Hf, Hsec. apply resolved_ram in Hf as [_ (b1 & g1 & Hp1)].
    assert (Hdone : forall s', stored s s' r.(ra_first).(physical_page) (page_offset address)
        (take (Z.to_nat r.(ra_first_bytes)) (to_le_bytes count (value_bits v))) (access_page2 r)
        (drop (Z.to_nat r.(ra_first_bytes)) (to_le_bytes count (value_bits v))) ->
      wp (ret (mkWrite Ram)) (fun r s' => match r.(dw_region) with
        | Ram => value_size v = access.(a_size) /\ synthetic_ok s' /\ bytes_written s s' (to_le_bytes count (value_bits v))
        | DeviceRegion => device_step s s' end) (fun _ : DataAccessFault => unchanged_or_device s) s').
    { intros s' Hst. apply wp_ret. split; [done|]. split; [by eapply stored_ok|]. by eapply stored_bytes_written. }
    unfold access_page2 in Hdone. destruct (r.(ra_second)) as [second|].
    + destruct Hsec as (_ & Hlt & (p2 & Hs2 & _)). apply resolved_ram in Hs2 as [_ (b2 & g2 & Hp2)].
      eapply wp_write_crossing; [done|by left|exact Hp1|exact Hp2|apply to_le_bytes_range|lia|lia| |exact Hdone].
      pose proof (page_offset_bound address) as Ho. unfold SYNTHETIC_PAGE_SIZE in Ho. lia.
    + eapply wp_write_single; [done|by left|exact Hp1|apply to_le_bytes_range|lia|]. intros s' Hst. apply Hdone.
      destruct Hsec as [-> _]. by rewrite take_ge, drop_ge by lia.
  - destruct Hr as (_ & _ & (p & Hf & _) & _). rewrite Hreg in Hf. apply resolved_device in Hf as [d Hd].
    apply wp_bind, wp_require; [by left|]. intros _. apply wp_bind.
    eapply wp_call_device; [exact Hd|apply mmio_write_law; exact (syn_pages s Hs _ _ Hd)| |intros f s' Hstep; by right].
    intros [] s' _ Hstep. by apply wp_ret.
Qed.

Lemma wp_lift_total {E A} (r : Result E A) (Q : A -> Mem -> Prop) (R : E -> Mem -> Prop) s :
  r <> Panic -> (forall a, r = Ok a -> Q a s) -> (forall e, R e s) -> wp (lift r) Q R s.
Proof using. intros Hn HQ HR. unfold wp, lift. destruct r; [by apply HQ|apply HR|done]. Qed.

(** One transaction: the previous value, and the replacement stored or not. *)
Lemma atomic_outcome s operation :
  synthetic_ok s -> (forall v, value_ok access.(a_size) v -> operation v <> Panic) ->
  wp (atomic_transaction_locked address_space address access operation)
    (fun r s' => value_at s r.(am_previous) /\ synthetic_ok s' /\
       exists replacement, operation r.(am_previous) = Ok (replacement, r.(am_stored)) /\ value_size replacement = access.(a_size) /\
         if r.(am_stored) then bytes_written s s' (to_le_bytes count (value_bits replacement)) else s' = s)
    (fun _ s' => s' = s) s.
Proof using.
  intros Hs Hop. unfold atomic_transaction_locked. apply wp_bind, wp_require; [done|]. intros _.
  apply wp_bind, wp_resolve; [|done]. intros _ _ _. apply wp_bind, wp_resolve; [|done]. intros r Hr _.
  apply wp_bind, wp_require; [done|]. rewrite andb_true_iff, !bool_decide_eq_true. intros [Hsec Hreg].
  apply wp_bind, wp_check_injected; [|done]. apply wp_bind, wp_check_injected; [|done].
  apply wp_bind.
  pose proof (wp_read_resolved s _ r (fun bytes s' => s' = s /\ bytes_read s bytes) (fun _ s' => s' = s) Hs Hr Hreg) as Hread.
  rewrite Hsec in Hread. eapply wp_mono; [apply Hread; by split| |done]. intros bytes s1 [-> Hb].
  apply wp_bind. eapply wp_expect; [by eapply from_le_slice_bytes|].
  set (previous := value_from_bits access.(a_size) (from_le_bytes bytes)).
  assert (Hprev : value_at s previous) by (by exists bytes).
  apply wp_bind, wp_lift_total; [by apply Hop, (value_at_ok s)| |done]. intros [replacement stored_] Heq.
  apply wp_bind, wp_require; [done|]. intros Hsz%bool_decide_eq_true. apply wp_bind. destruct stored_.
  - eapply wp_store_value; [done|exact Hr|done|done| |done]. intros s' Hw Hok. apply wp_ret. cbn.
    split; [done|]. split; [done|]. by exists replacement.
  - apply wp_ret, wp_ret. cbn. split; [done|]. split; [done|]. by exists replacement.
Qed.

(** The first byte of a resolved access, and the kind of its page. *)
Lemma resolved_head (s : Mem) kind r :
  resolved_ok address access kind (resolve_mapping s address_space) r ->
  locate s address_space address = Some (r.(ra_first).(physical_page), page_offset address).
Proof using.
  intros Hr. pose proof (size_bytes_bounds access.(a_size)). destruct (resolved_shape s _ r Hr) as (Hfb & _).
  rewrite <- (Z.add_0_r address) at 1. rewrite (resolved_locate s _ r 0 Hr) by lia.
  destruct (Z.ltb_spec 0 r.(ra_first_bytes)); [|lia]. by rewrite Z.add_0_r.
Qed.

Lemma resolved_region (s : Mem) kind r pg :
  resolved_ok address access kind (resolve_mapping s address_space) r ->
  s.(pages) !! r.(ra_first).(physical_page) = Some pg -> r.(ra_region) = region_of pg.
Proof using.
  intros (_ & _ & (p & Hf & _) & _) Hp. apply resolve_mapping_some in Hf as (_ & _ & pg' & Hpg & ->). congruence.
Qed.

Lemma load_exclusive_outcome s :
  synthetic_ok s ->
  wp (load_exclusive address_space address access)
    (fun '(r, reservation) s' => s' = s /\ value_at s r.(dr_value) /\
       exists page g, locate s address_space address = Some (page, page_offset address) /\ generation_of s page = Some g /\
         reservation = mkReservation page (page_offset address) count g)
    (fun _ s' => s' = s) s.
Proof using.
  intros Hs. unfold load_exclusive. apply wp_bind, wp_resolve; [|done]. intros r Hr _.
  apply wp_bind, wp_require; [done|]. intros Hsec%bool_decide_eq_true. apply wp_bind, wp_get.
  destruct (s.(pages) !! _) as [[bytes g|d]|] eqn:Hp; [|done|].
  - pose proof (resolved_region s _ r _ Hr Hp) as Hreg. cbn [region_of] in Hreg.
    pose proof (wp_read_resolved s _ r (fun bytes s' => s' = s /\ bytes_read s bytes) (fun _ s' => s' = s) Hs Hr Hreg) as Hread.
    rewrite Hsec in Hread. specialize (Hread ltac:(by split)). unfold read_ram, get_ram, wp, bind in Hread. rewrite Hp in Hread.
    cbn [fst] in Hread. destruct (ram_slice bytes (page_offset address) count) as [l|] eqn:Hl; [|done].
    destruct Hread as [_ Hb]. apply wp_bind. eapply wp_expect; [reflexivity|].
    apply wp_bind. eapply wp_expect; [by eapply from_le_slice_bytes|]. apply wp_ret. split; [done|]. split; [by exists l|].
    exists r.(ra_first).(physical_page), g. split; [by eapply resolved_head|].
    split; [|done]. unfold generation_of. by rewrite Hp.
  - destruct Hr as (_ & _ & (p & Hf & _) & _). apply resolve_mapping_some in Hf as (_ & _ & pg & Hpg & _). congruence.
Qed.

(** A store-exclusive stores exactly when the reservation is for this very
    location and width and its page was not written since. *)
Lemma store_exclusive_outcome s v reservation :
  synthetic_ok s ->
  wp (store_exclusive address_space address access v reservation)
    (fun '(_, success) s' => synthetic_ok s' /\
       exists page g, locate s address_space address = Some (page, page_offset address) /\ generation_of s page = Some g /\
         success = bool_decide (reservation = mkReservation page (page_offset address) count g) /\
         if success then bytes_written s s' (to_le_bytes count (value_bits v)) else s' = s)
    (fun _ s' => s' = s) s.
Proof using.
  intros Hs. unfold store_exclusive. apply wp_bind, wp_require; [done|]. intros _. apply wp_bind, wp_resolve; [|done].
  intros r Hr _. apply wp_bind, wp_require; [done|]. intros Hsec%bool_decide_eq_true. apply wp_bind, wp_get.
  destruct (s.(pages) !! _) as [[bytes g|d]|] eqn:Hp; [|done..].
  pose proof (resolved_region s _ r _ Hr Hp) as Hreg. cbn [region_of] in Hreg.
  pose proof (resolved_head s _ r Hr) as Hloc.
  assert (Hgen : generation_of s r.(ra_first).(physical_page) = Some g) by (unfold generation_of; by rewrite Hp).
  set (Q := fun '(_, success) s' => _).
  assert (Hno : reservation <> mkReservation r.(ra_first).(physical_page) (page_offset address) count g ->
    wp (ret (mkWrite Ram, false)) Q (fun (_ : DataAccessFault) s' => s' = s) s).
  { intros Hne. split; [done|]. do 2 eexists. split; [exact Hloc|]. split; [exact Hgen|]. split; [|done].
    symmetry. by apply bool_decide_eq_false. }
  destruct reservation as [rp ro rs rv]. cbn [r_page r_byte_offset r_access_size r_version].
  destruct (Z.eqb_spec rp r.(ra_first).(physical_page)) as [->|]; cbn [andb negb]; [|apply Hno; congruence].
  destruct (Z.eqb_spec ro (page_offset address)) as [->|]; cbn [andb negb]; [|apply Hno; congruence].
  destruct (Z.eqb_spec rs count) as [->|]; cbn [andb negb]; [|apply Hno; congruence].
  destruct (Z.eqb_spec g rv) as [->|]; cbn [negb]; [|apply Hno; congruence].
  apply wp_bind, wp_check_injected; [|done].
  pose proof (wp_store_value s _ r v (fun _ s' => synthetic_ok s' /\ bytes_written s s' (to_le_bytes count (value_bits v)))
    (fun _ s' => s' = s) Hs Hr Hreg Hsec) as Hstore.
  specialize (Hstore ltac:(intros; by split) ltac:(done)).
  unfold wp, bind in Hstore |- *. destruct (expect (copy_le_bytes v count) s) as [[l|e|] s1]; [|done..].
  destruct (write_single _ _ _ _ _) as [[[]|e|] s2]; [|done..]. destruct Hstore as [Hok Hw]. cbn. split; [done|].
  do 2 eexists. split; [exact Hloc|]. split; [exact Hgen|]. rewrite bool_decide_eq_true_2 by done. done.
Qed.
End Access.

(** ** Instruction fetch and cache maintenance *)

Lemma fetch32_outcome address_space address s :
  synthetic_ok s ->
  wp (fetch32 address_space address)
    (fun f s' => s' = s /\ page_offset address mod 4 = 0 /\
       exists m bytes, mapping_at s address_space address = Some m /\ permissions_contain m.(permissions) PERM_EXECUTE = true /\
         f.(fi_physical_page) = m.(physical_page) /\ length bytes = 4%nat /\ bytes_ok bytes /\ f.(fi_bits) = from_le_bytes bytes /\
         forall i, 0 <= i < 4 -> bytes !! Z.to_nat i = byte_at s address_space (address + i))
    (fun _ s' => s' = s) s.
Proof using.
  intros Hs. unfold fetch32. apply wp_bind, wp_require; [done|]. intros Hal. apply wp_bind, wp_get.
  destruct (find_instruction_fault _ _ _ _) as [[fa reason]|]; [done|].
  apply wp_bind, wp_ok_or; [done|]. intros m Hm. apply wp_bind, wp_require; [done|]. intros Hx.
  destruct (s.(pages) !! m.(physical_page)) as [[bytes g|d]|] eqn:Hp; [|done..].
  change 4 with (2 ^ 2) in Hal. rewrite is_aligned_pow2, Z.eqb_eq in Hal by lia. change (2 ^ 2) with 4 in Hal.
  assert (Hoff : page_offset address mod 4 = 0).
  { unfold page_offset, SYNTHETIC_PAGE_SIZE. rewrite Z.mod_mod_divide; [done|by exists 1024]. }
  pose proof (page_offset_bound address) as Ho. unfold SYNTHETIC_PAGE_SIZE in Ho.
  assert (Hroom : page_offset address + 4 <= 4096).
  { pose proof (Z.div_mod (page_offset address) 4 ltac:(lia)). lia. }
  destruct (syn_pages s Hs _ _ Hp) as [Hok _].
  pose proof (wp_read_ram m.(physical_page) (page_offset address) 4 (fun l s' => s' = s /\ slice (ram_contents bytes) (page_offset address) 4 = Some l /\ bytes_ok l)
    (fun (_ : InstructionFetchFault) _ => True) s bytes g Hp Hok ltac:(lia) ltac:(lia) Hroom ltac:(done)) as Hread.
  unfold wp, read_ram, get_ram, bind in Hread. rewrite Hp in Hread. cbn [fst] in Hread.
  destruct (ram_slice bytes (page_offset address) 4) as [l|]; [|done]. destruct Hread as (_ & Hsl & Hlok).
  apply wp_bind. eapply wp_expect; [reflexivity|]. apply wp_ret. split; [done|]. split; [done|].
  exists m, l. repeat (split; [done|]). split; [by rewrite (slice_length _ _ _ _ Hsl)|]. split; [done|]. split; [done|].
  intros i Hi. rewrite (slice_lookup _ _ _ _ _ Hsl) by lia.
  unfold byte_at, locate. destruct (same_page address i ltac:(lia)) as [Hv Hpo].
  unfold mapping_at in *. rewrite Hv, Hm, Hpo. cbn [option_map]. unfold phys_byte. by rewrite Hp.
Qed.

Lemma log_ok_commit log kind origin record :
  log_ok log -> reserve_with_origin log kind origin = Ok record -> log_ok (commit log record).2.
Proof using.
  intros (h & Hr & Hlen) Hres. destruct (reserve_outcome log h kind origin Hr) as [[He _]|(record' & Hres' & Hlt & _ & Hrep)]; [congruence|].
  assert (record' = record) as -> by congruence. exists (h ++ [(kind, origin)]). split; [done|]. rewrite length_app. cbn [length]. lia.
Qed.

Lemma set_invalidations_ok (s : Mem) log : synthetic_ok s -> log_ok log -> synthetic_ok (set_invalidations log s).
Proof using. by intros []. Qed.

Lemma maintain_cache_outcome address_space kind address s :
  synthetic_ok s ->
  wp (maintain_cache address_space kind address)
    (fun _ s' => synthetic_ok s' /\ s' = set_invalidations s'.(invalidations) s /\
       (kind <> InstructionInvalidate -> s' = s)) (fun _ s' => s' = s) s.
Proof using.
  intros Hs.
  assert (Hpub : forall k o (e : MemoryInvalidationError -> DataAccessFault), kind = InstructionInvalidate -> wp (publish k o e)
    (fun _ s' => synthetic_ok s' /\ s' = set_invalidations s'.(invalidations) s /\
       (kind <> InstructionInvalidate -> s' = s)) (fun _ s' => s' = s) s).
  { intros k o e Hk. pose proof (log_ok_commit s.(invalidations) k o) as Hc. unfold wp, publish.
    destruct (reserve_with_origin _ _ _) as [record|err|] eqn:Hr; [|done|].
    - split; [by apply set_invalidations_ok; [|apply Hc; [apply Hs|]]|]. done.
    - unfold reserve_with_origin in Hr. by case_match. }
  unfold maintain_cache. destruct address as [a|].
  2: { destruct kind; [by apply Hpub|done..]. }
  assert (Hrest : wp (let! s0 := get in
      let! mapping := ok_or (mapping_at s0 address_space a) (fault_of address_space a ReadAccess Unmapped) in
      match s0.(pages) !! mapping.(physical_page) with
      | Some (RamPage _ _) =>
          match kind with
          | InstructionInvalidate => publish (ExecutableContent mapping.(physical_page) None) OriginCacheMaintenance
              (fun e => fault_of address_space a ReadAccess (HostBacking (invalidation_error_to_string e)))
          | _ => ret tt
          end
      | _ => throw (fault_of address_space a ReadAccess (Device "cache maintenance requires RAM"%string))
      end) (fun _ s' => synthetic_ok s' /\ s' = set_invalidations s'.(invalidations) s /\
       (kind <> InstructionInvalidate -> s' = s)) (fun _ s' => s' = s) s).
  { apply wp_bind, wp_get, wp_bind, wp_ok_or; [done|]. intros m _.
    destruct (s.(pages) !! _) as [[b g|d]|]; [|done..]. destruct kind; [by apply Hpub| | | |];
      (apply wp_ret; split; [done|]; split; [by destruct s|done]). }
  destruct kind; exact Hrest.
Qed.
End Spec.
