(* ===== verification/MemSyntheticCpu.v ===== *)
(** * The synthetic backend as CPU memory

    [SyntheticMemory] is an instance of the contract [CpuMemory] and of its laws,
    so the interpreter's theorems apply to it; sequences of CPU operations keep
    the invariant; and the claims about reads, writes, aliases and exclusive
    pairs. *)

From S2P Require Import Prelude Bytes MemBase MemInvalidation CpuMemory MemCommon MemSynthetic MemSyntheticSpec.

(** A device that answers nothing: the memories without device pages. *)
#[global] Instance NoDevice : SyntheticMmio Empty_set := {|
  mmio_read _ _ := panic;
  mmio_write _ _ _ := panic
|}.
#[global] Instance NoDeviceLaws : SyntheticMmioLaws Empty_set.
Proof. by exists (fun _ => True). Defined.

Section Cpu.
Context {Dev : Type} `{SyntheticMmio Dev} {dev_laws : SyntheticMmioLaws Dev}.
Notation Mem := (SyntheticMemory Dev).

Definition sm_map {E A B} (f : A -> B) (m : SM Mem E A) : SM Mem E B := let! a := m in ret (f a).

(** The trait methods; the host fence of [memory_barrier] has no state. *)
#[global] Instance SyntheticCpuMemory : CpuMemory Mem := {|
  mem_read a addr acc := sm_map dr_value (read a addr acc);
  mem_write a addr acc v := sm_map (fun _ => tt) (write a addr acc v);
  mem_atomic_rmw a addr acc k v := sm_map am_previous (atomic_read_modify_write a addr acc k v);
  mem_atomic_cas a addr acc e r := sm_map am_previous (atomic_compare_exchange a addr acc e r);
  mem_barrier _ s := s;
  mem_maintain_cache := maintain_cache;
  mem_load_exclusive a addr acc := sm_map (fun vr => (vr.1.(dr_value), vr.2)) (load_exclusive a addr acc);
  mem_store_exclusive a addr acc v r := sm_map snd (store_exclusive a addr acc v r)
|}.

Lemma returns_wp {E A} (I : Mem -> Prop) (P : A -> Prop) (m : SM Mem E A) s :
  wp m (fun a s' => I s' /\ P a) (fun _ s' => I s') s -> returns I P (m s).
Proof using. unfold wp, returns. destruct (m s) as [[a|e|] s']; cbn; naive_solver. Qed.

Lemma sm_map_wp {E A B} (f : A -> B) (m : SM Mem E A) Q (R : E -> Mem -> Prop) s :
  wp m (fun a s' => Q (f a) s') R s -> wp (sm_map f m) Q R s.
Proof using. intros Hm. by apply wp_bind. Qed.

Lemma unchanged_ok s s' : synthetic_ok s -> unchanged_or_device s s' -> synthetic_ok s'.
Proof using. intros Hs [->|Hd]; [done|by eapply device_step_ok]. Qed.

Lemma rmw_total kind size v operand :
  value_ok size v -> value_size operand = size -> rmw_apply kind v operand <> None.
Proof using. intros [Hv _] Ho. unfold rmw_apply. by rewrite Hv, Ho, bool_decide_true by done. Qed.

Lemma rmw_outcome s space address access kind operand :
  synthetic_ok s ->
  wp (atomic_read_modify_write space address access kind operand)
    (fun r s' => value_at space address access s r.(am_previous) /\ synthetic_ok s' /\ r.(am_stored) = true /\
       exists replacement, rmw_apply kind r.(am_previous) operand = Some replacement /\
         bytes_written space address s s' (to_le_bytes (size_bytes access.(a_size)) (value_bits replacement)))
    (fun _ s' => s' = s) s.
Proof using.
  intros Hs. unfold atomic_read_modify_write. apply wp_bind, wp_require; [done|]. intros Hsz%bool_decide_eq_true.
  eapply wp_mono; [apply atomic_outcome; [done|]| |done].
  - intros v Hv. pose proof (rmw_total kind _ v operand Hv Hsz). by destruct (rmw_apply _ _ _).
  - intros [previous stored_ region] s' (Hp & Hok & repl & Hop & _ & Hw). cbn [am_previous am_stored] in *.
    destruct (rmw_apply kind previous operand) as [v|]; [|done]. injection Hop as -> <-.
    split; [done|]. split; [done|]. split; [done|]. by exists repl.
Qed.

Lemma cas_outcome s space address access expected replacement :
  synthetic_ok s ->
  wp (atomic_compare_exchange space address access expected replacement)
    (fun r s' => value_at space address access s r.(am_previous) /\ synthetic_ok s' /\
       r.(am_stored) = bool_decide (r.(am_previous) = expected) /\
       if r.(am_stored) then bytes_written space address s s' (to_le_bytes (size_bytes access.(a_size)) (value_bits replacement))
       else s' = s)
    (fun _ s' => s' = s) s.
Proof using.
  intros Hs. unfold atomic_compare_exchange. apply wp_bind, wp_require; [done|]. intros _.
  eapply wp_mono; [apply atomic_outcome; [done|]| |done].
  - intros v _. by case_bool_decide.
  - intros [previous stored_ region] s' (Hp & Hok & repl & Hop & _ & Hw). cbn [am_previous am_stored] in *.
    split; [done|]. split; [done|]. by case_bool_decide; injection Hop as <- <-.
Qed.

(** ** The contract *)

#[global] Instance SyntheticLaws : CpuMemoryLaws Mem.
Proof using dev_laws.
  exists synthetic_ok; cbn [mem_read mem_write mem_atomic_rmw mem_atomic_cas mem_barrier mem_maintain_cache
    mem_load_exclusive mem_store_exclusive SyntheticCpuMemory].
  - intros a addr acc s Hs. apply returns_wp, sm_map_wp. eapply wp_mono; [by apply read_outcome| |by eauto using unchanged_ok].
    intros [v []] s'; cbn; [intros [-> Hv]; split; [done|by eapply value_at_ok]|].
    intros [Hd Hv]. split; [by eapply device_step_ok|done].
  - intros a addr acc v s Hs. apply returns_wp, sm_map_wp. eapply wp_mono; [by apply write_outcome| |by eauto using unchanged_ok].
    intros [[]] s'; cbn; [naive_solver|]. intros Hd. split; [by eapply device_step_ok|done].
  - intros a addr acc k v s Hs. apply returns_wp, sm_map_wp. eapply wp_mono; [by apply rmw_outcome| |by intros e s' ->].
    intros r s' (Hv & Hok & _). split; [done|by eapply value_at_ok].
  - intros a addr acc v v' s Hs. apply returns_wp, sm_map_wp. eapply wp_mono; [by apply cas_outcome| |by intros e s' ->].
    intros r s' (Hv & Hok & _). split; [done|by eapply value_at_ok].
  - done.
  - intros a k addr s Hs. apply returns_wp. eapply wp_mono; [by apply maintain_cache_outcome| |by intros e s' ->].
    intros [] s' [Hok _]. by split.
  - intros a addr acc s Hs. apply returns_wp, sm_map_wp. eapply wp_mono; [by apply load_exclusive_outcome| |by intros e s' ->].
    intros [r res] s' (-> & Hv & _). split; [done|by eapply value_at_ok].
  - intros a addr acc v r s Hs. apply returns_wp, sm_map_wp. eapply wp_mono; [by apply store_exclusive_outcome| |by intros e s' ->].
    intros [w b] s' [Hok _]. by split.
Defined.

(** ** Sequences of CPU operations *)

Inductive CpuOp :=
| OpRead (space address : Z) (access : MemoryAccess)
| OpWrite (space address : Z) (access : MemoryAccess) (value : MemoryValue)
| OpRmw (space address : Z) (access : MemoryAccess) (kind : AtomicRmwKind) (operand : MemoryValue)
| OpCas (space address : Z) (access : MemoryAccess) (expected replacement : MemoryValue)
| OpCache (space : Z) (kind : CacheMaintenanceKind) (address : option Z)
| OpLoadExclusive (space address : Z) (access : MemoryAccess)
| OpStoreExclusive (space address : Z) (access : MemoryAccess) (value : MemoryValue) (reservation : ExclusiveReservation).

(** The state after an operation, and the range it stored to when it stored to RAM. *)
Definition cpu_step (s : Mem) (op : CpuOp) : option (Z * Z * Z) * Mem :=
  match op with
  | OpRead space address access => (None, (read space address access s).2)
  | OpWrite space address access value =>
      let '(r, s') := write space address access value s in
      (match r with
       | Ok w => match w.(dw_region) with Ram => Some (space, address, size_bytes access.(a_size)) | DeviceRegion => None end
       | _ => None
       end, s')
  | OpRmw space address access kind operand =>
      let '(r, s') := atomic_read_modify_write space address access kind operand s in
      (match r with Ok a => if a.(am_stored) then Some (space, address, size_bytes access.(a_size)) else None | _ => None end, s')
  | OpCas space address access expected replacement =>
      let '(r, s') := atomic_compare_exchange space address access expected replacement s in
      (match r with Ok a => if a.(am_stored) then Some (space, address, size_bytes access.(a_size)) else None | _ => None end, s')
  | OpCache space kind address => (None, (maintain_cache space kind address s).2)
  | OpLoadExclusive space address access => (None, (load_exclusive space address access s).2)
  | OpStoreExclusive space address access value reservation =>
      let '(r, s') := store_exclusive space address access value reservation s in
      (match r with Ok (_, true) => Some (space, address, size_bytes access.(a_size)) | _ => None end, s')
  end.

(** Does a stored range touch a physical page? *)
Definition touches (s : Mem) (range : option (Z * Z * Z)) (page : Z) : bool :=
  match range with
  | Some (space, address, count) =>
      existsb (fun i => bool_decide (option_map fst (locate s space (address + i)) = Some page)) (seqZ 0 count)
  | None => false
  end.

Fixpoint cpu_run (s : Mem) (ops : list CpuOp) : Mem :=
  match ops with
  | [] => s
  | op :: ops => cpu_run (cpu_step s op).2 ops
  end.

(** How many operations of the sequence stored to the page. *)
Fixpoint store_count (s : Mem) (ops : list CpuOp) (page : Z) : Z :=
  match ops with
  | [] => 0
  | op :: ops => b2z (touches s (cpu_step s op).1 page) + store_count (cpu_step s op).2 ops page
  end.

(** What every operation does to the state: mappings stay, RAM stays RAM, and
    the generation of a page counts the stores to it. *)
Record cpu_effect (s s' : Mem) (range : option (Z * Z * Z)) : Prop := {
  ce_ok : synthetic_ok s';
  ce_locate space a : locate s' space a = locate s space a;
  ce_generation page g : generation_of s page = Some g -> generation_of s' page = Some (g + b2z (touches s range page))
}.

Lemma effect_refl s : synthetic_ok s -> cpu_effect s s None.
Proof using. intros Hs. split; [done|done|]. intros page g ->. by rewrite Z.add_0_r. Qed.

Lemma effect_device s s' : synthetic_ok s -> device_step s s' -> cpu_effect s s' None.
Proof using.
  intros Hs Hd. split; [by eapply device_step_ok| |].
  - destruct Hd as (page & d & d' & _ & _ & ->). done.
  - intros page g. destruct Hd as (q & d & d' & Hq & _ & ->). unfold generation_of. cbn [set_pages pages touches b2z].
    destruct (decide (page = q)) as [->|Hne]; [by rewrite Hq|]. rewrite lookup_insert_ne by congruence. intros ->. by rewrite Z.add_0_r.
Qed.

Lemma effect_unchanged s s' : synthetic_ok s -> unchanged_or_device s s' -> cpu_effect s s' None.
Proof using. intros Hs [->|Hd]; [by apply effect_refl|by apply effect_device]. Qed.

Lemma effect_written s s' space address access v :
  synthetic_ok s' -> bytes_written space address s s' (to_le_bytes (size_bytes access.(a_size)) v) ->
  cpu_effect s s' (Some (space, address, size_bytes access.(a_size))).
Proof using.
  intros Hok [Hst _ _ Hg]. split; [done| |].
  - intros sp a. by apply locate_state.
  - intros page g Hpage. rewrite (Hg page g Hpage). cbn [touches]. rewrite to_le_bytes_length.
    pose proof (size_bytes_bounds access.(a_size)). rewrite Z2Nat.id by lia.
    destruct (existsb _ _); cbn [b2z]; f_equal; lia.
Qed.

Lemma cpu_step_effect s op : synthetic_ok s -> cpu_effect s (cpu_step s op).2 (cpu_step s op).1.
Proof using dev_laws.
  intros Hs. destruct op as [space a acc|space a acc v|space a acc k v|space a acc e v|space k a|space a acc|space a acc v res]; cbn [cpu_step fst snd].
  - pose proof (read_outcome space a acc s Hs) as Ho. unfold wp in Ho. destruct (read _ _ _ _) as [[[v []]|e|] s']; cbn in *.
    + destruct Ho as [-> _]. by apply effect_refl.
    + destruct Ho as [Hd _]. by apply effect_device.
    + by apply effect_unchanged.
    + done.
  - pose proof (write_outcome space a acc s v Hs) as Ho. unfold wp in Ho. destruct (write _ _ _ _ _) as [[[[]]|e|] s']; cbn in *.
    + destruct Ho as (_ & Hok & Hw). by eapply effect_written.
    + by apply effect_device.
    + by apply effect_unchanged.
    + done.
  - pose proof (rmw_outcome s space a acc k v Hs) as Ho. unfold wp in Ho.
    destruct (atomic_read_modify_write _ _ _ _ _ _) as [[[p st rg]|e|] s']; cbn in *; [|subst; by apply effect_refl|done].
    destruct Ho as (_ & Hok & -> & repl & _ & Hw). by eapply effect_written.
  - pose proof (cas_outcome s space a acc e v Hs) as Ho. unfold wp in Ho.
    destruct (atomic_compare_exchange _ _ _ _ _ _) as [[[p st rg]|f|] s']; cbn in *; [|subst; by apply effect_refl|done].
    destruct Ho as (_ & Hok & _ & Hw). destruct st; [by eapply effect_written|subst; by apply effect_refl].
  - pose proof (maintain_cache_outcome space k a s Hs) as Ho. unfold wp in Ho.
    destruct (maintain_cache _ _ _ _) as [[[]|e|] s']; cbn in *; [|subst; by apply effect_refl|done].
    destruct Ho as (Hok & Hst & _). split; [done|by rewrite Hst|]. intros page g Hg. rewrite Hst, Z.add_0_r. done.
  - pose proof (load_exclusive_outcome space a acc s Hs) as Ho. unfold wp in Ho.
    destruct (load_exclusive _ _ _ _) as [[[r res]|e|] s']; cbn in *; [|subst; by apply effect_refl|done].
    destruct Ho as [-> _]. by apply effect_refl.
  - pose proof (store_exclusive_outcome space a acc s v res Hs) as Ho. unfold wp in Ho.
    destruct (store_exclusive _ _ _ _ _ _) as [[[r b]|e|] s']; cbn in *; [|subst; by apply effect_refl|done].
    destruct Ho as (Hok & _ & _ & _ & _ & _ & Hw). destruct b; [by eapply effect_written|subst; by apply effect_refl].
Qed.

Lemma cpu_run_effect ops : forall s, synthetic_ok s ->
  synthetic_ok (cpu_run s ops) /\ (forall space a, locate (cpu_run s ops) space a = locate s space a) /\
  forall page g, generation_of s page = Some g -> generation_of (cpu_run s ops) page = Some (g + store_count s ops page).
Proof using dev_laws.
  induction ops as [|op ops IH]; intros s Hs; cbn [cpu_run store_count].
  - split; [done|]. split; [done|]. intros page g ->. by rewrite Z.add_0_r.
  - destruct (cpu_step_effect s op Hs) as [Hok Hloc Hgen]. destruct (IH _ Hok) as (Hok' & Hloc' & Hgen').
    split; [done|]. split; [intros space a; by rewrite Hloc'|].
    intros page g Hg. rewrite (Hgen' page _ (Hgen page g Hg)). f_equal. lia.
Qed.

Lemma store_count_pos ops : forall s page, 0 <= store_count s ops page.
Proof using.
  induction ops as [|op ops IH]; intros s page; cbn [store_count]; [lia|]. pose proof (IH (cpu_step s op).2 page).
  destruct (touches _ _ _); cbn [b2z]; lia.
Qed.

(** A read that resolves to RAM and has no fault injected returns. *)
Lemma read_returns s space address access r :
  synthetic_ok s -> resolve_access s space address access ReadAccess = Ok r -> r.(ra_region) = Ram ->
  s.(data_faults) !! (space, address, ReadAccess) = None ->
  exists v, read space address access s = (Ok (mkRead v Ram), s) /\ value_at space address access s v.
Proof using.
  intros Hs Hr Hreg Hf.
  pose proof (resolve_data_access_outcome space address access ReadAccess (resolve_mapping s space)) as Hok.
  unfold resolve_access in Hr. rewrite Hr in Hok.
  assert (Hwp : wp (read space address access) (fun v s' => s' = s /\ exists x, v = mkRead x Ram /\ value_at space address access s x)
    (fun _ _ => False) s).
  { unfold read. apply wp_bind. unfold wp at 1, resolve_m, resolve_access. rewrite Hr. apply wp_bind.
    unfold wp at 1, check_injected. rewrite Hf, Hreg. apply wp_bind. eapply wp_read_resolved; [done|exact Hok|done|].
    intros bytes Hb. apply wp_bind. eapply wp_expect; [by eapply from_le_slice_bytes|]. apply wp_ret. split; [done|].
    eexists. split; [done|]. by exists bytes. }
  unfold wp in Hwp. destruct (read _ _ _ _) as [[v|e|] s']; [|done..]. destruct Hwp as (-> & x & -> & Hx). by exists x.
Qed.
End Cpu.

(** ** Claims *)

(** Stores reach every alias and nothing else.  A write that completes on
    RAM is exactly a store of the value's little-endian bytes: every virtual
    byte, in any address space, that lives at a written physical location reads
    the new byte, every other byte keeps its value, and only page contents and
    the generations of the pages written change.  A write that faults changes
    nothing (a device may have seen it); none panics. *)
Theorem synthetic_write_spec {Dev : Type} `{SyntheticMmio Dev, !SyntheticMmioLaws Dev}
    (s : SyntheticMemory Dev) space address access v :
  synthetic_ok s ->
  wp (write space address access v)
    (fun w s' => match w.(dw_region) with
                 | Ram => value_size v = access.(a_size) /\ synthetic_ok s' /\
                          bytes_written space address s s' (to_le_bytes (size_bytes access.(a_size)) (value_bits v))
                 | DeviceRegion => device_step s s'
                 end) (fun _ => unchanged_or_device s) s.
Proof. apply write_outcome. Qed.

(** C10. Read after write through any alias: when a write of a value completed on
    RAM, a read of the same width at addresses that map to the same physical
    bytes, from any address space, that resolves to RAM and has no injected
    fault returns that value, and leaves the memory as it is. *)
Theorem synthetic_read_after_write {Dev : Type} `{SyntheticMmio Dev, !SyntheticMmioLaws Dev}
    (s s1 : SyntheticMemory Dev) space address access v w space' address' access' r :
  synthetic_ok s -> value_ok access.(a_size) v ->
  write space address access v s = (Ok w, s1) -> w.(dw_region) = Ram ->
  access'.(a_size) = access.(a_size) ->
  (forall i, 0 <= i < size_bytes access.(a_size) -> locate s space' (address' + i) = locate s space (address + i)) ->
  resolve_access s1 space' address' access' ReadAccess = Ok r -> r.(ra_region) = Ram ->
  s1.(data_faults) !! (space', address', ReadAccess) = None ->
  read space' address' access' s1 = (Ok (mkRead v Ram), s1).
Proof.
  intros Hs Hv Hw Hram Hsz Hloc Hr Hreg Hf. pose proof (write_outcome space address access s v Hs) as Ho.
  unfold wp in Ho. rewrite Hw, Hram in Ho. destruct Ho as (_ & Hok & Hbw).
  destruct (read_returns s1 space' address' access' r Hok Hr Hreg Hf) as (x & -> & (bytes & (Hl & Hb & Hbytes) & ->)).
  rewrite Hsz in Hl, Hbytes |- *. do 3 f_equal.
  etrans; [|by apply (value_bytes_roundtrip access.(a_size))]. do 2 f_equal.
  pose proof (size_bytes_bounds access.(a_size)) as Hc. apply list_eq. intros k.
  destruct (decide (k < Z.to_nat (size_bytes access.(a_size)))%nat) as [Hk|Hk].
  - replace k with (Z.to_nat (Z.of_nat k)) by lia. rewrite Hbytes by lia.
    apply (bw_new _ _ _ _ _ Hbw); [rewrite to_le_bytes_length; lia| |apply Hloc; lia].
    assert (Hread : resolved_ok address' access' ReadAccess (resolve_mapping s1 space') r).
    { pose proof (resolve_data_access_outcome space' address' access' ReadAccess (resolve_mapping s1 space')) as Hro.
      unfold resolve_access in Hr. by rewrite Hr in Hro. }
    rewrite <- Hloc by lia. rewrite <- (locate_state s s1) by apply Hbw.
    rewrite (resolved_locate space' address' access' s1 _ r) by (done || rewrite Hsz; lia). by destruct (_ <? _).
  - rewrite !lookup_ge_None_2; [done|rewrite to_le_bytes_length; lia|lia].
Qed.

(** C11. Exclusive pairs.  After a load-exclusive, run any sequence of CPU
    operations (reads, writes through any alias, atomics, cache maintenance,
    other exclusives, faulting or not): the matching store-exclusive, unless it
    faults, succeeds exactly when none of them stored to the reserved physical
    page.  A page rewritten with its old contents still fails it (no ABA), and
    a failed store-exclusive changes nothing. *)
Theorem synthetic_exclusive_pair {Dev : Type} `{SyntheticMmio Dev, !SyntheticMmioLaws Dev}
    (s s0 s2 : SyntheticMemory Dev) space address access value ops r reservation w success :
  synthetic_ok s ->
  load_exclusive space address access s = (Ok (r, reservation), s0) ->
  store_exclusive space address access value reservation (cpu_run s0 ops) = (Ok (w, success), s2) ->
  (success = true <-> store_count s0 ops reservation.(r_page) = 0) /\
  (success = false -> s2 = cpu_run s0 ops).
Proof.
  intros Hs Hld Hst. pose proof (load_exclusive_outcome space address access s Hs) as Hl. unfold wp in Hl. rewrite Hld in Hl.
  destruct Hl as (-> & _ & page & g & Hloc & Hg & ->). cbn [r_page].
  destruct (cpu_run_effect ops s Hs) as (Hok & Hlocs & Hgs).
  pose proof (store_exclusive_outcome space address access (cpu_run s ops) value
    (mkReservation page (page_offset address) (size_bytes access.(a_size)) g) Hok) as Ho.
  unfold wp in Ho. rewrite Hst in Ho. destruct Ho as (_ & page' & g' & Hloc' & Hg' & Hsucc & Hmem).
  rewrite Hlocs, Hloc in Hloc'. injection Hloc' as <-. rewrite (Hgs _ _ Hg) in Hg'. injection Hg' as <-.
  split; [|by intros ->]. rewrite Hsucc, bool_decide_eq_true. split.
  - intros [= E]. lia.
  - intros E. f_equal. lia.
Qed.

(** ** Witnesses *)

(** One RAM page mapped twice in address space 1, at 0x1000 and 0x5000. *)
Definition alias_memory : SyntheticMemory Empty_set :=
  mkSynthetic (<[(1, 1) := mkMapping 7 1 3 PurposeNormal 0]> {[(1, 5) := mkMapping 7 2 3 PurposeNormal 0]})
    {[7 := RamPage None 1]} ∅ ∅ 8 (Some 3) None log_default.

Definition word_access : MemoryAccess := mkAccess Word Natural Relaxed Normal.

Lemma alias_memory_ok : synthetic_ok alias_memory.
Proof.
  split; cbn [alias_memory pages mappings next_page_id invalidations].
  - intros page p Hp. apply lookup_singleton_Some in Hp as [<- <-]. split; [apply zero_page_ok|split; lia].
  - intros key m [[_ <-]|[_ Hm]]%lookup_insert_Some; [eauto|]. apply lookup_singleton_Some in Hm as [_ <-]. eauto.
  - intros key m [[_ <-]|[_ Hm]]%lookup_insert_Some; [done|]. by apply lookup_singleton_Some in Hm as [_ <-].
  - split; lia.
  - exists []. split; [apply represents_default|done].
Qed.

Lemma synthetic_write_spec_witness :
  wp (write 1 0x1ffc word_access (U32 5))
    (fun w s' => match w.(dw_region) with
                 | Ram => Word = Word /\ synthetic_ok s' /\ bytes_written 1 0x1ffc alias_memory s' (to_le_bytes 4 5)
                 | DeviceRegion => device_step alias_memory s'
                 end) (fun _ => unchanged_or_device alias_memory) alias_memory.
Proof. exact (synthetic_write_spec alias_memory 1 0x1ffc word_access (U32 5) alias_memory_ok). Defined.

(** Written at 0x1004, read at 0x5004. *)
Lemma synthetic_read_after_write_witness :
  let s1 := (write 1 0x1004 word_access (U32 0xdeadbeef) alias_memory).2 in
  read 1 0x5004 word_access s1 = (Ok (mkRead (U32 0xdeadbeef) Ram), s1).
Proof.
  intros s1. apply (synthetic_read_after_write alias_memory s1 1 0x1004 word_access (U32 0xdeadbeef) (mkWrite Ram)
    1 0x5004 word_access (mkResolved (mkMapping 7 2 3 PurposeNormal 0) None 4 Ram)).
  - apply alias_memory_ok.
  - split; [reflexivity|split; [discriminate|reflexivity]].
  - unfold s1. rewrite (surjective_pairing (write 1 0x1004 word_access (U32 0xdeadbeef) alias_memory)) at 1.
    apply (f_equal (fun r => (r, _))). vm_compute. reflexivity.
  - reflexivity.
  - reflexivity.
  - intros i Hi. cbn in Hi. assert (i = 0 \/ i = 1 \/ i = 2 \/ i = 3) as [->|[->|[->| ->]]] by lia; reflexivity.
  - vm_compute. reflexivity.
  - reflexivity.
  - vm_compute. reflexivity.
Defined.

(** A store through the other alias breaks the pair. *)
Lemma synthetic_exclusive_pair_witness :
  let ops := [OpWrite 1 0x5100 word_access (U32 0)] in
  let res := mkReservation 7 4 4 1 in
  let s2 := (store_exclusive 1 0x1004 word_access (U32 9) res (cpu_run alias_memory ops)).2 in
  (false = true <-> store_count alias_memory ops 7 = 0) /\ (false = false -> s2 = cpu_run alias_memory ops).
Proof.
  intros ops res s2.
  apply (synthetic_exclusive_pair alias_memory alias_memory s2 1 0x1004 word_access (U32 9) ops
    (mkRead (U32 0) Ram) res (mkWrite Ram) false).
  - apply alias_memory_ok.
  - vm_compute. reflexivity.
  - unfold s2. rewrite (surjective_pairing (store_exclusive 1 0x1004 word_access (U32 9) res (cpu_run alias_memory ops))) at 1.
    apply (f_equal (fun r => (r, _))). vm_compute. reflexivity.
Defined.
