(* ===== verification/MemSyntheticProcess.v ===== *)
(** * The synthetic memory backend: fixtures and [ProcessMemory]
      (crates/cpu/src/memory/synthetic.rs)

    Installation of RAM pages, mapping and fault injection, the bulk copies and
    the mapping transactions of the runtime.  A transaction validates its whole
    range, reserves its invalidation and its mapping generation, and only then
    changes mappings. *)

From S2P Require Import Prelude Bytes MemBase MemInvalidation CpuMemory MemCommon MemSynthetic.

Section Process.
Context {Dev : Type}.
Notation Mem := (SyntheticMemory Dev).

(** ** Transactions *)

(** A reservation held during the transaction; [None] when nothing is published. *)
Definition reserve_kinds {E} (kinds : list MemoryInvalidationKind) (origin : option MemoryInvalidationOrigin)
    (error : MemoryInvalidationError -> E) : SM Mem E MemoryInvalidationBatchReservation := fun s =>
  (map_err error (reserve_many_with_origin s.(invalidations) kinds origin), s).

Definition commit_kinds {E} (batch : MemoryInvalidationBatchReservation) : SM Mem E unit := fun s =>
  match commit_many s.(invalidations) batch with
  | (Ok _, log) => (Ok tt, set_invalidations log s)
  | (_, log) => (Panic, set_invalidations log s)
  end.

Definition reserve_one {E} (kind : MemoryInvalidationKind) (origin : MemoryInvalidationOrigin)
    (error : MemoryInvalidationError -> E) : SM Mem E MemoryInvalidation := fun s =>
  (map_err error (reserve_with_origin s.(invalidations) kind origin), s).

Definition commit_one {E} (record : MemoryInvalidation) : SM Mem E unit :=
  modify (fun s => set_invalidations (commit s.(invalidations) record).2 s).

(** [take_mapping_generation(&mut inner.next_mapping_generation).ok_or(e)?] *)
Definition take_generation {E} (error : E) : SM Mem E Z := fun s =>
  match take_mapping_generation s.(next_mapping_generation) with
  | None => (Err error, s)
  | Some (generation, next) => (Ok generation, set_next_mapping_generation next s)
  end.

(** [for page in pages { let m = mappings.get_mut(..).expect(..); ... }], where
    the update of a mapping may have an [expect] of its own. *)
Fixpoint try_update_mappings {E} (address_space : Z) (pages : list Z) (f : Mapping -> option Mapping) : SM Mem E unit :=
  match pages with
  | [] => ret tt
  | page :: pages =>
      let! s := get in
      let! mapping := expect (s.(mappings) !! (address_space, page)) in
      let! updated := expect (f mapping) in
      do! modify (set_mappings (insert (address_space, page) updated)) in
      try_update_mappings address_space pages f
  end.
Definition update_mappings {E} (address_space : Z) (pages : list Z) (f : Mapping -> Mapping) : SM Mem E unit :=
  try_update_mappings address_space pages (fun m => Some (f m)).

(** ** Installation *)

Definition fail_install_if_requested (s : Mem) (stage : SyntheticInstallStage) (index address : Z)
  : Result SyntheticInstallError unit :=
  match s.(install_failure) with
  | Some (requested_stage, requested_index, reason) =>
      if bool_decide (requested_stage = stage) && (requested_index =? index)
      then Err (install_error stage (Some address) reason) else Ok tt
  | None => Ok tt
  end.

Fixpoint install_preflight (s : Mem) (address_space index : Z) (requests : list SyntheticRamPage)
    (unique_virtual_pages : gset Z) : Result SyntheticInstallError (list Z) :=
  match requests with
  | [] => Ok []
  | request :: requests =>
      let? _ := fail_install_if_requested s Preflight index request.(rp_virtual_address) in
      let? validated := validate_install_request request unique_virtual_pages in
      let '(page, unique_virtual_pages) := validated in
      if bool_decide (is_Some (s.(mappings) !! (address_space, page)))
      then Err (install_error Preflight (Some request.(rp_virtual_address)) "virtual page is already mapped"%string)
      else let? pages := install_preflight s address_space (index + 1) requests unique_virtual_pages in
           Ok (page :: pages)
  end.

(** The pending pages: virtual page, physical page, permissions and contents
    ([copy_from_slice] panics on a length that is not the page size); and the
    next page identity. *)
Fixpoint install_allocate (s : Mem) (index : Z) (requests : list (SyntheticRamPage * Z)) (next : Z)
  : Result SyntheticInstallError (list (Z * Z * Z * list Z) * Z) :=
  match requests with
  | [] => Ok ([], next)
  | (request, page) :: requests =>
      let? _ := fail_install_if_requested s Allocation index request.(rp_virtual_address) in
      match allocate_page_id next (fun page => bool_decide (is_Some (s.(pages) !! page))) with
      | inl _ => Panic
      | inr (None, _) =>
          Err (install_error Allocation (Some request.(rp_virtual_address)) "physical-page identities are exhausted"%string)
      | inr (Some physical_page, next) =>
          let? _ := fail_install_if_requested s Initialization index request.(rp_virtual_address) in
          if negb (Z.of_nat (length request.(rp_bytes)) =? SYNTHETIC_PAGE_SIZE) then Panic
          else let? rest := install_allocate s (index + 1) requests next in
               let '(pending, next) := rest in
               Ok ((page, physical_page, request.(rp_permissions), request.(rp_bytes)) :: pending, next)
      end
  end.

Fixpoint install_publication (s : Mem) (index : Z) (requests : list SyntheticRamPage)
  : Result SyntheticInstallError unit :=
  match requests with
  | [] => Ok tt
  | request :: requests =>
      let? _ := fail_install_if_requested s Publication index request.(rp_virtual_address) in
      install_publication s (index + 1) requests
  end.

Fixpoint install_publish {E} (address_space generation : Z) (pending : list (Z * Z * Z * list Z)) : SM Mem E unit :=
  match pending with
  | [] => ret tt
  | (page, physical_page, permissions, contents) :: pending =>
      let! s := get in
      do! modify (set_pages (insert physical_page (RamPage (Some contents) 1))) in
      do! modify (set_mappings (insert (address_space, page)
            (mkMapping physical_page generation permissions PurposeNormal ATTR_NONE))) in
      do! debug_assert (bool_decide (s.(pages) !! physical_page = None)) in
      do! debug_assert (bool_decide (s.(mappings) !! (address_space, page) = None)) in
      install_publish address_space generation pending
  end.

Definition install_ram_pages_atomic (address_space : Z) (requests : list SyntheticRamPage)
  : SM Mem SyntheticInstallError unit :=
  let first_address := option_map rp_virtual_address (head requests) in
  let! s := get in
  let! virtual_pages := lift (install_preflight s address_space 0 requests ∅) in
  let! allocated := lift (install_allocate s 0 (combine requests virtual_pages) s.(next_page_id)) in
  let '(pending, next_page_id) := allocated in
  do! lift (install_publication s 0 requests) in
  let kinds := map (fun page => MappingChanged address_space (page_address page) PAGE_SIZE) virtual_pages in
  let! invalidation :=
    if bool_decide (kinds = []) then ret None
    else let! batch := reserve_kinds kinds None
           (fun reason => install_error Publication first_address (invalidation_error_to_string reason)) in
         ret (Some batch) in
  let! generation :=
    if bool_decide (pending = []) then ret GENERATION_INITIAL
    else take_generation (install_error Allocation first_address "mapping generations are exhausted"%string) in
  do! install_publish address_space generation pending in
  do! modify (set_next_page_id next_page_id) in
  match invalidation with
  | Some batch => commit_kinds batch
  | None => ret tt
  end.

Definition inject_install_failure (stage : SyntheticInstallStage) (index : Z) (reason : string) (s : Mem) : Mem :=
  set_install_failure (Some (stage, index, reason)) s.

Record SyntheticMappingInfo := mkMappingInfo {
  info_physical_page : Z; info_mapping_generation : Z; info_permissions : Z; info_attributes : Z;
  info_purpose : MemoryMappingPurpose
}.

Definition mapping_info (s : Mem) (address_space address : Z) : option SyntheticMappingInfo :=
  option_map (fun m => mkMappingInfo m.(physical_page) m.(mapping_generation) m.(permissions) m.(attributes) m.(purpose))
    (mapping_at s address_space address).

(** [return false] of the fixture methods. *)
Definition or_false (m : SM Mem unit unit) : SM Mem Empty_set bool := fun s =>
  match m s with
  | (Ok _, s) => (Ok true, s)
  | (Err _, s) => (Ok false, s)
  | (Panic, s) => (Panic, s)
  end.

(** [PageRange::new(start, size).filter(|range| !range.is_empty())] *)
Definition nonempty_range (start size : Z) : option PageRange :=
  match PageRange_new start size with
  | Some range => if range_is_empty range then None else Some range
  | None => None
  end.

Definition mapped (s : Mem) (address_space page : Z) : bool := bool_decide (is_Some (s.(mappings) !! (address_space, page))).

(** A test of the mapping of one page, [false] where there is none. *)
Definition mapping_test (s : Mem) (address_space : Z) (P : Mapping -> bool) (page : Z) : bool :=
  match s.(mappings) !! (address_space, page) with Some m => P m | None => false end.

Definition with_generation (g : Z) (f : Mapping -> Mapping) (m : Mapping) : Mapping :=
  let m := f m in mkMapping m.(physical_page) g m.(permissions) m.(purpose) m.(attributes).

Definition set_mapping_purpose (address_space start size : Z) (new_purpose : MemoryMappingPurpose)
  : SM Mem Empty_set bool :=
  or_false (
    let! range := ok_or (nonempty_range start size) tt in
    let! s := get in
    do! require (forallb (mapped s address_space) (range_pages range)) tt in
    if forallb (mapping_test s address_space (fun m => bool_decide (m.(purpose) = new_purpose))) (range_pages range)
    then ret tt
    else
      let! record := reserve_one (MappingChanged address_space start size) OriginMapping (fun _ => tt) in
      let! generation := take_generation tt in
      do! update_mappings address_space (range_pages range) (with_generation generation
            (fun m => mkMapping m.(physical_page) m.(mapping_generation) m.(permissions) new_purpose m.(attributes))) in
      commit_one record).

Definition physical_page_count (s : Mem) : Z := Z.of_nat (size s.(pages)).

(** The insertion replaces an existing page; the answer tells whether there was one. *)
Definition add_ram_page (page : Z) (s : Mem) : bool * Mem :=
  (bool_decide (s.(pages) !! page = None), set_pages (insert page (RamPage (Some ZERO_PAGE) GENERATION_INITIAL)) s).
Definition add_mmio_page (page : Z) (handler : Dev) (s : Mem) : bool * Mem :=
  (bool_decide (s.(pages) !! page = None), set_pages (insert page (MmioPage handler)) s).

Definition map_page (address_space virtual_address physical_page permissions : Z) : SM Mem Empty_set bool :=
  or_false (
    do! require (is_aligned_to virtual_address PAGE_SIZE) tt in
    let! s := get in
    do! require (bool_decide (is_Some (s.(pages) !! physical_page))) tt in
    let page := virtual_page virtual_address in
    do! guard (mapped s address_space page) tt in
    let! record := reserve_one (MappingChanged address_space virtual_address PAGE_SIZE) OriginMapping (fun _ => tt) in
    let! generation := take_generation tt in
    do! modify (set_mappings (insert (address_space, page)
          (mkMapping physical_page generation permissions PurposeNormal ATTR_NONE))) in
    do! debug_assert (negb (mapped s address_space page)) in
    commit_one record).

(** Allocating the zeroed contents comes before the range check, so a failure
    there leaves an unwritten page materialized. *)
Definition initialize_ram (page offset : Z) (bytes : list Z) : SM Mem Empty_set bool :=
  or_false (
    let! s := get in
    match s.(pages) !! page with
    | Some (RamPage contents generation) =>
        let! end_ := ok_or (checked_add 64 offset (Z.of_nat (length bytes))) tt in
        let! invalidation :=
          if any_mapping s (code_observes page) then
            let! record := reserve_one (ExecutableContent page None) OriginHostWrite (fun _ => tt) in ret (Some record)
          else ret None in
        do! put_ram page (Some (ram_contents contents)) generation in
        let! new_contents := ok_or (splice (ram_contents contents) offset bytes) tt in
        let! next := ok_or (generation_next generation) tt in
        do! put_ram page (Some new_contents) next in
        match invalidation with Some record => commit_one record | None => ret tt end
    | _ => throw tt
    end).

Definition inject_instruction_fault (address_space address : Z) (reason : string) (s : Mem) : Mem :=
  set_instruction_faults (insert (address_space, address) reason) s.
Definition inject_data_fault (address_space address : Z) (kind : DataAccessKind) (reason : string) (s : Mem) : Mem :=
  set_data_faults (insert (address_space, address, kind) reason) s.

Definition invalidation_cursor (s : Mem) : Z := log_cursor s.(invalidations).
Definition read_invalidations_since (s : Mem) (after : Z) (output : list MemoryInvalidation) :=
  read_since s.(invalidations) after output.

(** ** Bulk copies *)

(** The lowest injected fault inside [address..end]. *)
Definition first_injected (s : Mem) (address_space address end_ : Z) (kind : DataAccessKind) : option (Z * string) :=
  foldr (fun '((space, current, k), reason) best =>
    if (space =? address_space) && bool_decide (k = kind) && (address <=? current) && (current <? end_) &&
       match best with None => true | Some (b, _) => current <? b end
    then Some (current, reason) else best) None (map_to_list s.(data_faults)).

Definition bulk_start (address_space address length_ : Z) (kind : DataAccessKind) : SM Mem DataAccessFault Z :=
  let! end_ := ok_or (checked_add 64 address length_) (fault_of address_space address kind AddressOverflow) in
  let! s := get in
  match first_injected s address_space address end_ kind with
  | Some (fault_address, reason) => throw (fault_of address_space fault_address kind (Injected reason))
  | None => ret end_
  end.

(** One page of a bulk copy: the mapping of [current], its permission, its RAM page. *)
Definition bulk_page (address_space current : Z) (kind : DataAccessKind) (required : Z) (denied : DataAccessFaultReason)
    (detail : string) : SM Mem DataAccessFault (Z * (option (list Z) * Z)) :=
  let! s := get in
  let! mapping := ok_or (mapping_at s address_space current) (fault_of address_space current kind Unmapped) in
  do! require (permissions_contain mapping.(permissions) required) (fault_of address_space current kind denied) in
  match s.(pages) !! mapping.(physical_page) with
  | None => panic
  | Some (MmioPage _) => throw (fault_of address_space current kind (Device detail))
  | Some (RamPage bytes generation) => ret (mapping.(physical_page), (bytes, generation))
  end.

(** Bytes of the page of [current] that a copy with [remaining] bytes left takes. *)
Definition bulk_count (current remaining : Z) : Z := Z.min (SYNTHETIC_PAGE_SIZE - page_offset current) remaining.

(** The copy loop; every turn copies at least one byte, so the length is fuel enough. *)
Fixpoint read_loop (fuel : nat) (address_space current remaining : Z) : SM Mem DataAccessFault (list Z) :=
  if remaining =? 0 then ret []
  else match fuel with
  | O => panic
  | S fuel =>
      let! page := bulk_page address_space current ReadAccess PERM_READ ReadPermissionDenied
                     "bulk guest-memory reads require RAM"%string in
      let count := bulk_count current remaining in
      let! bytes := expect (ram_slice page.2.1 (page_offset current) count) in
      let! rest := read_loop fuel address_space (current + count) (remaining - count) in
      ret (bytes ++ rest)
  end.

(** [read_bytes] for an output of [length_] bytes, which it returns. *)
Definition read_bytes (address_space address length_ : Z) : SM Mem DataAccessFault (list Z) :=
  do! bulk_start address_space address length_ ReadAccess in
  read_loop (Z.to_nat length_) address_space address length_.

(** The validation loop of [write_bytes] collects the next generation of every page. *)
Fixpoint write_validate (fuel : nat) (address_space current remaining : Z) (next_generations : gmap Z Z)
  : SM Mem DataAccessFault (gmap Z Z) :=
  if remaining =? 0 then ret next_generations
  else match fuel with
  | O => panic
  | S fuel =>
      let! page := bulk_page address_space current WriteAccess PERM_WRITE WritePermissionDenied
                     "bulk guest-memory writes require RAM"%string in
      let! next_generations :=
        match next_generations !! page.1 with
        | Some _ => ret next_generations
        | None => let! next := next_generation address_space current page.2.2 in
                  ret (<[page.1 := next]> next_generations)
        end in
      let count := bulk_count current remaining in
      write_validate fuel address_space (current + count) (remaining - count) next_generations
  end.

Fixpoint write_loop (fuel : nat) (address_space current : Z) (bytes : list Z) : SM Mem DataAccessFault unit :=
  match bytes with
  | [] => ret tt
  | _ =>
      match fuel with
      | O => panic
      | S fuel =>
          let! s := get in
          let! mapping := expect (mapping_at s address_space current) in
          let count := bulk_count current (Z.of_nat (length bytes)) in
          do! write_ram mapping.(physical_page) (page_offset current) (take (Z.to_nat count) bytes) in
          write_loop fuel address_space (current + count) (drop (Z.to_nat count) bytes)
      end
  end.

Fixpoint publish_generations (generations : list (Z * Z)) : SM Mem DataAccessFault unit :=
  match generations with
  | [] => ret tt
  | (page, next) :: generations => do! set_generation page next in publish_generations generations
  end.

Definition executable_kinds (s : Mem) (generations : gmap Z Z) : list MemoryInvalidationKind :=
  omap (fun entry => option_map (fun first => ExecutableContent first None) (executable_page s entry.1))
    (btree_iter generations).

Definition write_bytes (address_space address : Z) (bytes : list Z) : SM Mem DataAccessFault unit :=
  do! bulk_start address_space address (Z.of_nat (length bytes)) WriteAccess in
  let! next_generations := write_validate (length bytes) address_space address (Z.of_nat (length bytes)) ∅ in
  let! s := get in
  let kinds := executable_kinds s next_generations in
  let! invalidation :=
    if bool_decide (kinds = []) then ret None
    else let! batch := reserve_kinds kinds (Some OriginHostWrite)
           (fun reason => fault_of address_space address WriteAccess (HostBacking (invalidation_error_to_string reason))) in
         ret (Some batch) in
  do! write_loop (length bytes) address_space address bytes in
  do! publish_generations (btree_iter next_generations) in
  match invalidation with
  | Some batch => commit_kinds batch
  | None => ret tt
  end.

(** ** Mapping transactions *)

(** [for page in pages { check(page)? }] *)
Fixpoint check_pages {E} (pages : list Z) (check : Z -> Result E unit) : Result E unit :=
  match pages with
  | [] => Ok tt
  | page :: pages => let? _ := check page in check_pages pages check
  end.

Definition mapping_error {R A} (address_space address : Z) (reason : R) : Result (MemoryError R) A :=
  Err (mkMemoryError address_space address reason).

(** The two preflight loops of [resize_zeroed_mapping]. *)
Definition check_resized (s : Mem) (address_space new_permissions : Z) (new_purpose : MemoryMappingPurpose) (page : Z)
  : Result MemoryMappingError unit :=
  match s.(mappings) !! (address_space, page) with
  | None => mapping_error address_space (page_address page) MappingStateMismatch
  | Some mapping =>
      if negb (bool_decide (mapping.(purpose) = new_purpose)) || negb (mapping.(permissions) =? new_permissions)
      then mapping_error address_space (page_address page) MappingStateMismatch else Ok tt
  end.
Definition check_vacant (s : Mem) (address_space page : Z) : Result MemoryMappingError unit :=
  if mapped s address_space page then mapping_error address_space (page_address page) AlreadyMapped else Ok tt.

(** The shrinking loop: a physical page goes with its last mapping. *)
Fixpoint remove_pages {E} (address_space : Z) (page_list : list Z) : SM Mem E unit :=
  match page_list with
  | [] => ret tt
  | page :: page_list =>
      let! s := get in
      let! mapping := expect (s.(mappings) !! (address_space, page)) in
      do! modify (set_mappings (delete (address_space, page))) in
      let! s := get in
      do! (if any_mapping s (fun candidate => candidate.(physical_page) =? mapping.(physical_page)) then ret tt
           else modify (set_pages (delete mapping.(physical_page)))) in
      remove_pages address_space page_list
  end.

Fixpoint allocate_zeroed (s : Mem) (error : MemoryMappingError) (page_list : list Z) (next : Z)
  : Result MemoryMappingError (list (Z * Z) * Z) :=
  match page_list with
  | [] => Ok ([], next)
  | page :: page_list =>
      match allocate_page_id next (fun page => bool_decide (is_Some (s.(pages) !! page))) with
      | inl _ => Panic
      | inr (None, _) => Err error
      | inr (Some physical_page, next) =>
          let? rest := allocate_zeroed s error page_list next in
          let '(pending, next) := rest in
          Ok ((page, physical_page) :: pending, next)
      end
  end.

Fixpoint map_zeroed {E} (address_space generation new_permissions : Z) (new_purpose : MemoryMappingPurpose)
    (pending : list (Z * Z)) : SM Mem E unit :=
  match pending with
  | [] => ret tt
  | (page, physical_page) :: pending =>
      do! modify (set_pages (insert physical_page (RamPage None 1))) in
      do! modify (set_mappings (insert (address_space, page)
            (mkMapping physical_page generation new_permissions new_purpose ATTR_NONE))) in
      map_zeroed address_space generation new_permissions new_purpose pending
  end.

Definition resize_zeroed_mapping (address_space start old_size new_size new_permissions : Z)
    (new_purpose : MemoryMappingPurpose) : SM Mem MemoryMappingError unit :=
  let error address reason := mkMemoryError address_space address reason in
  match PageRange_new start old_size, PageRange_new start new_size with
  | Some old_range, Some new_range =>
      do! guard (writable_executable new_permissions) (error start MappingWritableExecutable) in
      let first_page := old_range.(range_first) in
      let old_end_page := old_range.(range_end) in
      let new_end_page := new_range.(range_end) in
      let! s := get in
      do! lift (check_pages (seqZ first_page (old_end_page - first_page)) (check_resized s address_space new_permissions new_purpose)) in
      do! lift (check_pages (seqZ old_end_page (new_end_page - old_end_page)) (check_vacant s address_space)) in
      let changed := MappingChanged address_space start (Z.max old_size new_size) in
      let exhausted (_ : MemoryInvalidationError) := error start MappingResourceExhausted in
      if new_end_page <? old_end_page then
        let! record := reserve_one changed OriginMapping exhausted in
        do! remove_pages address_space (seqZ new_end_page (old_end_page - new_end_page)) in
        commit_one record
      else if new_end_page =? old_end_page then ret tt
      else
        let! allocated := lift (allocate_zeroed s (error start MappingResourceExhausted)
                                  (seqZ old_end_page (new_end_page - old_end_page)) s.(next_page_id)) in
        let '(pending, next) := allocated in
        let! record := reserve_one changed OriginMapping exhausted in
        let! generation := take_generation (error start MappingGenerationExhausted) in
        do! map_zeroed address_space generation new_permissions new_purpose pending in
        do! modify (set_next_page_id next) in
        commit_one record
  | _, _ => throw (error start MappingInvalidRange)
  end.

(** [(source.first..source.end).zip(destination.first..destination.end)] *)
Definition alias_pairs (source destination : PageRange) : list (Z * Z) :=
  zip (range_pages source) (range_pages destination).

Fixpoint check_pairs {E} (pairs : list (Z * Z)) (check : Z -> Z -> Result E unit) : Result E unit :=
  match pairs with
  | [] => Ok tt
  | (source, destination) :: pairs => let? _ := check source destination in check_pairs pairs check
  end.

Definition check_map_alias (s : Mem) (request : MemoryAliasRequest) (source_page destination_page : Z)
  : Result MemoryAliasError unit :=
  let address_space := request.(al_address_space) in
  let source_error := mapping_error address_space (page_address source_page) SourceStateMismatch in
  match s.(mappings) !! (address_space, source_page) with
  | None => source_error
  | Some source_mapping =>
      if negb (bool_decide (mapping_properties source_mapping = request.(al_source_before))) ||
         negb (match s.(pages) !! source_mapping.(physical_page) with Some (RamPage _ _) => true | _ => false end)
      then source_error
      else if mapped s address_space destination_page
      then mapping_error address_space (page_address destination_page) DestinationStateMismatch
      else Ok tt
  end.

(** The new metadata of a source page. *)
Definition apply_properties (p : MemoryMappingProperties) (generation : Z) (m : Mapping) : Mapping :=
  mkMapping m.(physical_page) generation p.(mp_permissions) p.(mp_purpose) p.(mp_attributes).

Fixpoint map_pairs {E} (request : MemoryAliasRequest) (generation : Z) (pairs : list (Z * Z)) : SM Mem E unit :=
  match pairs with
  | [] => ret tt
  | (source_page, destination_page) :: pairs =>
      let space := request.(al_address_space) in
      let! s := get in
      let! source_mapping := expect (s.(mappings) !! (space, source_page)) in
      do! update_mappings space [source_page] (apply_properties request.(al_source_after) generation) in
      let! s := get in
      do! modify (set_mappings (insert (space, destination_page)
            (apply_properties request.(al_destination_properties) generation source_mapping))) in
      do! debug_assert (negb (mapped s space destination_page)) in
      map_pairs request generation pairs
  end.

Definition alias_kinds (request : MemoryAliasRequest) : list MemoryInvalidationKind :=
  [MappingChanged request.(al_address_space) request.(al_source) request.(al_size);
   MappingChanged request.(al_address_space) request.(al_destination) request.(al_size)].

(** [map_alias] and [unmap_alias] differ in their check and in their update. *)
Definition alias_transaction (request : MemoryAliasRequest)
    (check : Mem -> Z -> Z -> Result MemoryAliasError unit)
    (update : Z -> list (Z * Z) -> SM Mem MemoryAliasError unit) : SM Mem MemoryAliasError unit :=
  let source := request.(al_source) in
  let error reason := mkMemoryError request.(al_address_space) source reason in
  match PageRange_new source request.(al_size), PageRange_new request.(al_destination) request.(al_size) with
  | Some source_range, Some destination_range =>
      do! guard (range_is_empty source_range) (error AliasInvalidRange) in
      let pairs := alias_pairs source_range destination_range in
      let! s := get in
      do! lift (check_pairs pairs (check s)) in
      let! batch := reserve_kinds (alias_kinds request) None (fun _ => error AliasResourceExhausted) in
      let! generation := take_generation (error AliasGenerationExhausted) in
      do! update generation pairs in
      commit_kinds batch
  | _, _ => throw (error AliasInvalidRange)
  end.

Definition map_alias (request : MemoryAliasRequest) : SM Mem MemoryAliasError unit :=
  alias_transaction request (fun s => check_map_alias s request) (map_pairs request).

Definition check_unmap_alias (s : Mem) (request : MemoryAliasRequest) (source_page destination_page : Z)
  : Result MemoryAliasError unit :=
  let address_space := request.(al_address_space) in
  let source_error := mapping_error address_space (page_address source_page) SourceStateMismatch in
  let destination_error reason := mapping_error address_space (page_address destination_page) reason in
  match s.(mappings) !! (address_space, source_page) with
  | None => source_error
  | Some source_mapping =>
      if negb (bool_decide (mapping_properties source_mapping = request.(al_source_before))) then source_error
      else match s.(mappings) !! (address_space, destination_page) with
           | None => destination_error DestinationStateMismatch
           | Some destination_mapping =>
               if negb (bool_decide (mapping_properties destination_mapping = request.(al_destination_properties)))
               then destination_error DestinationStateMismatch
               else if negb (source_mapping.(physical_page) =? destination_mapping.(physical_page))
               then destination_error PhysicalIdentityMismatch
               else Ok tt
           end
  end.

Fixpoint unmap_pairs {E} (request : MemoryAliasRequest) (generation : Z) (pairs : list (Z * Z)) : SM Mem E unit :=
  match pairs with
  | [] => ret tt
  | (source_page, destination_page) :: pairs =>
      let space := request.(al_address_space) in
      let! s := get in
      let! removed := expect (s.(mappings) !! (space, destination_page)) in
      do! modify (set_mappings (delete (space, destination_page))) in
      let! s := get in
      do! debug_assert (any_mapping s (fun m => m.(physical_page) =? removed.(physical_page))) in
      do! update_mappings space [source_page] (apply_properties request.(al_source_after) generation) in
      unmap_pairs request generation pairs
  end.

Definition unmap_alias (request : MemoryAliasRequest) : SM Mem MemoryAliasError unit :=
  alias_transaction request (fun s => check_unmap_alias s request) (unmap_pairs request).

Definition check_protect (s : Mem) (address_space new_permissions page : Z) : Result MemoryProtectionError unit :=
  match s.(mappings) !! (address_space, page) with
  | None => mapping_error address_space (page_address page) ProtectionUnmapped
  | Some mapping =>
      if attributes_contain mapping.(attributes) ATTR_PERMISSION_LOCKED && negb (mapping.(permissions) =? new_permissions)
      then mapping_error address_space (page_address page) PermissionLocked else Ok tt
  end.

Definition set_permissions (address_space start size new_permissions : Z) : SM Mem MemoryProtectionError unit :=
  let error reason := mkMemoryError address_space start reason in
  let! range := ok_or (nonempty_range start size) (error ProtectionInvalidRange) in
  do! guard (writable_executable new_permissions) (error ProtectionWritableExecutable) in
  let! s := get in
  do! lift (check_pages (range_pages range) (check_protect s address_space new_permissions)) in
  if negb (existsb (mapping_test s address_space (fun m => negb (m.(permissions) =? new_permissions))) (range_pages range))
  then ret tt
  else
    let! record := reserve_one (MappingChanged address_space start size) OriginMapping
                     (fun _ => error ProtectionGenerationExhausted) in
    let! generation := take_generation (error ProtectionGenerationExhausted) in
    do! update_mappings address_space (range_pages range) (with_generation generation
          (fun m => mkMapping m.(physical_page) m.(mapping_generation) new_permissions m.(purpose) m.(attributes))) in
    commit_one record.

Definition check_mapped (s : Mem) (address_space page : Z) : Result MemoryProtectionError unit :=
  if mapped s address_space page then Ok tt else mapping_error address_space (page_address page) ProtectionUnmapped.

(** [any] over the range: does some page's attributes change?  Both [expect]s are panics. *)
Fixpoint attributes_change (s : Mem) (address_space mask value : Z) (page_list : list Z) : option bool :=
  match page_list with
  | [] => Some false
  | page :: page_list =>
      match s.(mappings) !! (address_space, page) with
      | None => None
      | Some mapping =>
          match masked_attributes mapping.(attributes) mask value with
          | None => None
          | Some a => if negb (mapping.(attributes) =? a) then Some true
                      else attributes_change s address_space mask value page_list
          end
      end
  end.

Definition update_attributes {E} (address_space mask value generation : Z) (page_list : list Z) : SM Mem E unit :=
  try_update_mappings address_space page_list (fun m =>
    option_map (mkMapping m.(physical_page) generation m.(permissions) m.(purpose))
      (masked_attributes m.(attributes) mask value)).

Definition set_attributes (address_space start size mask value : Z) : SM Mem MemoryProtectionError unit :=
  let error reason := mkMemoryError address_space start reason in
  let! range := ok_or (nonempty_range start size) (error ProtectionInvalidRange) in
  do! guard (bool_decide (masked_attributes ATTR_NONE mask value = None)) (error ProtectionInvalidRange) in
  let! s := get in
  do! lift (check_pages (range_pages range) (check_mapped s address_space)) in
  let! changed := expect (attributes_change s address_space mask value (range_pages range)) in
  if negb changed then ret tt
  else
    let! record := reserve_one (MappingChanged address_space start size) OriginMapping
                     (fun _ => error ProtectionGenerationExhausted) in
    let! generation := take_generation (error ProtectionGenerationExhausted) in
    do! update_attributes address_space mask value generation (range_pages range) in
    commit_one record.
End Process.
