(* ===== verification/MemSyntheticTx.v ===== *)
(** * Mapping transactions of the synthetic backend

    Every [ProcessMemory] transaction is all-or-nothing: an error leaves the
    memory exactly as it was, success changes exactly the requested range, and
    the invariant of [MemSyntheticSpec] is kept. *)

From S2P Require Import Prelude Bytes MemBase MemInvalidation CpuMemory MemCommon MemSynthetic.
From S2P Require Import MemSyntheticSpec MemSyntheticProcess.

Definition attributes_known (a : Z) : Prop := attributes_from_bits a = Some a.
Definition properties_ok (p : MemoryMappingProperties) : Prop := attributes_known p.(mp_attributes).
Definition alias_request_ok (r : MemoryAliasRequest) : Prop :=
  properties_ok r.(al_source_after) /\ properties_ok r.(al_destination_properties).

Section Tx.
Context {Dev : Type} `{SyntheticMmio Dev} {dev_laws : SyntheticMmioLaws Dev}.
Notation Mem := (SyntheticMemory Dev).

(** Space in the invalidation stream for [n] more records. *)
Definition log_room (s : Mem) (n : Z) : Prop := s.(invalidations).(log_latest) + n < 2 ^ 64 - 1.

Definition in_range_of (address_space : Z) (page_list : list Z) (key : Z * Z) : bool :=
  (key.1 =? address_space) && bool_decide (key.2 ∈ page_list).

(** ** Building blocks *)

Lemma wp_reserve_one {E} kind origin (err : MemoryInvalidationError -> E) (Q : MemoryInvalidation -> Mem -> Prop) R s :
  (forall record, reserve_with_origin s.(invalidations) kind origin = Ok record -> Q record s) -> (forall e, R (err e) s) ->
  wp (reserve_one kind origin err) Q R s.
Proof using.
  intros HQ HR. unfold wp, reserve_one. destruct (reserve_with_origin _ _ _) as [record|e|] eqn:E1; cbn [map_err]; [by apply HQ|apply HR|].
  unfold reserve_with_origin in E1. by case_match.
Qed.

Lemma wp_take_generation {E} (e : E) (Q : Z -> Mem -> Prop) (R : E -> Mem -> Prop) s :
  R e s -> (forall g next, Q g (set_next_mapping_generation next s)) -> wp (take_generation e) Q R s.
Proof using. intros HR HQ. unfold wp, take_generation, take_mapping_generation. by destruct (s.(next_mapping_generation)). Qed.

Lemma generation_state_ok s next : synthetic_ok s -> synthetic_ok (set_next_mapping_generation (Dev := Dev) next s).
Proof using. by intros []. Qed.

Lemma mappings_ok s ms :
  synthetic_ok s -> (forall key m, ms !! key = Some m -> is_Some (s.(pages) !! m.(physical_page)) /\ attributes_known m.(attributes)) ->
  synthetic_ok (set_mappings (Dev := Dev) (fun _ => ms) s).
Proof using. intros [] Hms. split; try done; intros key m Hm; by apply Hms in Hm as []. Qed.

(** A loop over distinct mapped pages updates exactly those. *)
Lemma wp_try_update {E} address_space f (R : E -> Mem -> Prop) page_list : forall (Q : unit -> Mem -> Prop) s,
  NoDup page_list ->
  (forall page, page ∈ page_list -> exists m, s.(mappings) !! (address_space, page) = Some m /\ is_Some (f m)) ->
  (forall ms, (forall key, ms !! key = if in_range_of address_space page_list key then s.(mappings) !! key ≫= f else s.(mappings) !! key) ->
     Q tt (set_mappings (fun _ => ms) s)) ->
  wp (try_update_mappings address_space page_list f) Q R s.
Proof using.
  induction page_list as [|page page_list IH]; intros Q s Hnd Hall HQ; cbn [try_update_mappings].
  - replace s with (set_mappings (fun _ => s.(mappings)) s) by by destruct s. apply wp_ret, HQ. intros key.
    unfold in_range_of. rewrite bool_decide_eq_false_2 by set_solver. by rewrite andb_false_r.
  - apply NoDup_cons in Hnd as [Hni Hnd]. destruct (Hall page ltac:(set_solver)) as (m & Hm & [m' Hf]).
    apply wp_bind, wp_get, wp_bind. eapply wp_expect; [exact Hm|]. apply wp_bind. eapply wp_expect; [exact Hf|].
    apply wp_bind, wp_modify. apply IH; [done| |].
    + intros q Hq. cbn [set_mappings mappings]. rewrite lookup_insert_ne; [|intros [=]; by subst]. apply Hall. set_solver.
    + intros ms Hms. cbn [set_mappings mappings] in *. apply HQ. intros [sp q]. rewrite Hms. unfold in_range_of. cbn [fst snd].
      destruct (Z.eqb_spec sp address_space) as [->|Hsp]; cbn [andb]; [|by rewrite lookup_insert_ne by congruence].
      destruct (decide (q = page)) as [->|Hq].
      * rewrite bool_decide_eq_false_2, (bool_decide_eq_true_2 (page ∈ page :: page_list)) by set_solver.
        by rewrite lookup_insert_eq, Hm.
      * rewrite lookup_insert_ne by congruence.
        rewrite (bool_decide_ext (q ∈ page :: page_list) (q ∈ page_list)) by set_solver. done.
Qed.

Lemma wp_update_mappings {E} address_space f (R : E -> Mem -> Prop) page_list (Q : unit -> Mem -> Prop) s :
  NoDup page_list -> (forall page, page ∈ page_list -> is_Some (s.(mappings) !! (address_space, page))) ->
  (forall ms, (forall key, ms !! key = if in_range_of address_space page_list key then f <$> s.(mappings) !! key else s.(mappings) !! key) ->
     Q tt (set_mappings (fun _ => ms) s)) ->
  wp (update_mappings address_space page_list f) Q R s.
Proof using.
  intros Hnd Hall HQ. apply wp_try_update; [done| |].
  - intros page Hp. destruct (Hall page Hp) as [m Hm]. eauto.
  - intros ms Hms. apply HQ. intros key. rewrite Hms. destruct (in_range_of _ _ _); [|done]. by destruct (s.(mappings) !! key).
Qed.

Lemma check_pages_ok {E} page_list (check : Z -> Result E unit) :
  check_pages page_list check = Ok tt -> forall page, page ∈ page_list -> check page = Ok tt.
Proof using.
  induction page_list as [|q page_list IH]; cbn [check_pages]; intros Hc page Hp; [set_solver|].
  destruct (check q) as [[]|e|] eqn:Hq; cbn [result_bind] in Hc; [|done..]. apply elem_of_cons in Hp as [->|Hp]; [done|]. by apply IH.
Qed.

Lemma check_pages_total {E} page_list (check : Z -> Result E unit) :
  (forall page, check page <> Panic) -> check_pages page_list check <> Panic.
Proof using.
  intros Hc. induction page_list as [|q page_list IH]; cbn [check_pages]; [done|].
  specialize (Hc q). by destruct (check q).
Qed.

(** A validation pass: errors change nothing, success establishes the check of every page. *)
Lemma wp_check_pages {E} page_list (check : Z -> Result E unit) (Q : unit -> Mem -> Prop) (R : E -> Mem -> Prop) s :
  (forall page, check page <> Panic) ->
  ((forall page, page ∈ page_list -> check page = Ok tt) -> Q tt s) -> (forall e, R e s) ->
  wp (lift (check_pages page_list check)) Q R s.
Proof using.
  intros Hn HQ HR. apply wp_lift_total; [by apply check_pages_total| |done]. intros [] Hc. apply HQ. by apply check_pages_ok.
Qed.

Lemma range_pages_nodup r : NoDup (range_pages r).
Proof using. apply NoDup_seqZ. Qed.

(** The end of a metadata transaction: publish after a range update. *)
Lemma wp_commit_range {E} s next ms kind origin record (Q : unit -> Mem -> Prop) (R : E -> Mem -> Prop) :
  synthetic_ok s -> reserve_with_origin s.(invalidations) kind origin = Ok record ->
  (forall key m, ms !! key = Some m -> is_Some (s.(pages) !! m.(physical_page)) /\ attributes_known m.(attributes)) ->
  (forall s', synthetic_ok s' -> s'.(pages) = s.(pages) -> s'.(mappings) = ms -> s'.(data_faults) = s.(data_faults) -> Q tt s') ->
  wp (commit_one record) Q R (set_mappings (fun _ => ms) (set_next_mapping_generation next s)).
Proof using.
  intros Hs Hr Hms HQ. apply wp_modify, HQ; [|done..].
  apply set_invalidations_ok; [|eapply log_ok_commit; [apply Hs|exact Hr]]. apply mappings_ok; [by apply generation_state_ok|done].
Qed.

(** ** Protection *)

(** [m'] is [m] with new metadata; the physical page never changes. *)
Definition remapped (m m' : Mapping) (p : Z) (u : MemoryMappingPurpose) (a : Z) : Prop :=
  m'.(physical_page) = m.(physical_page) /\ m'.(permissions) = p /\ m'.(purpose) = u /\ m'.(attributes) = a.

(** The pages of the range are remapped as [f] says, the rest is untouched. *)
Definition range_effect (s s' : Mem) (address_space : Z) (r : PageRange) (f : Mapping -> Z * MemoryMappingPurpose * Z) : Prop :=
  s'.(pages) = s.(pages) /\
  (forall page, page ∈ range_pages r -> exists m m', s.(mappings) !! (address_space, page) = Some m /\
     s'.(mappings) !! (address_space, page) = Some m' /\ remapped m m' (f m).1.1 (f m).1.2 (f m).2) /\
  (forall key, in_range_of address_space (range_pages r) key = false -> s'.(mappings) !! key = s.(mappings) !! key).

Lemma range_effect_of s s' address_space r f (g : Mapping -> Mapping) :
  s'.(pages) = s.(pages) ->
  (forall page, page ∈ range_pages r -> is_Some (s.(mappings) !! (address_space, page))) ->
  (forall key, s'.(mappings) !! key = if in_range_of address_space (range_pages r) key then g <$> s.(mappings) !! key else s.(mappings) !! key) ->
  (forall m, remapped m (g m) (f m).1.1 (f m).1.2 (f m).2) ->
  range_effect s s' address_space r f.
Proof using.
  intros Hp Hall Hms Hg. split; [done|]. split.
  - intros page Hin. destruct (Hall page Hin) as [m Hm]. exists m, (g m). split; [done|]. split; [|apply Hg].
    rewrite Hms. unfold in_range_of. cbn [fst snd]. by rewrite Z.eqb_refl, bool_decide_eq_true_2, Hm by done.
  - intros key Hk. by rewrite Hms, Hk.
Qed.

Lemma range_effect_refl s address_space r f :
  (forall page, page ∈ range_pages r -> exists m, s.(mappings) !! (address_space, page) = Some m /\
     remapped m m (f m).1.1 (f m).1.2 (f m).2) -> range_effect s s address_space r f.
Proof using. intros Hall. split; [done|]. split; [|done]. intros page Hin. destruct (Hall page Hin) as (m & Hm & Hr). by exists m, m. Qed.

(** Whatever the range update did to a mapping, the invariant's facts hold of it. *)
Lemma updated_entry (s : Mem) (address_space : Z) (page_list : list Z) (f : Mapping -> Mapping) (ms : gmap (Z * Z) Mapping) key m :
  synthetic_ok s ->
  (forall key, ms !! key = if in_range_of address_space page_list key then f <$> s.(mappings) !! key else s.(mappings) !! key) ->
  (forall m, (f m).(physical_page) = m.(physical_page)) ->
  (forall m, attributes_known m.(attributes) -> attributes_known (f m).(attributes)) ->
  ms !! key = Some m -> is_Some (s.(pages) !! m.(physical_page)) /\ attributes_known m.(attributes).
Proof using.
  intros Hs Hms Hpg Hat. rewrite Hms. destruct (in_range_of _ _ _).
  - intros (m0 & Hm0 & ->)%fmap_Some_1. rewrite Hpg. split; [by eapply syn_mapped|apply Hat; by eapply syn_attributes].
  - intros Hm. split; [by eapply syn_mapped|by eapply syn_attributes].
Qed.

Lemma set_permissions_outcome s address_space start size new_permissions :
  synthetic_ok s ->
  wp (set_permissions address_space start size new_permissions)
    (fun _ s' => synthetic_ok s' /\ exists r, nonempty_range start size = Some r /\ writable_executable new_permissions = false /\
       range_effect s s' address_space r (fun m => (new_permissions, m.(purpose), m.(attributes))) /\
       forall page m, page ∈ range_pages r -> s.(mappings) !! (address_space, page) = Some m ->
         attributes_contain m.(attributes) ATTR_PERMISSION_LOCKED = true -> m.(permissions) = new_permissions)
    (fun _ s' => s' = s) s.
Proof using.
  intros Hs. unfold set_permissions. apply wp_bind, wp_ok_or; [done|]. intros r Hr.
  apply wp_bind, wp_guard; [done|]. intros Hwx. apply wp_bind, wp_get, wp_bind, wp_check_pages; [|intros Hc|done].
  { intros page. unfold check_protect, mapping_error. by repeat case_match. }
  assert (Hm : forall page, page ∈ range_pages r -> exists m, s.(mappings) !! (address_space, page) = Some m /\
    (attributes_contain m.(attributes) ATTR_PERMISSION_LOCKED = true -> m.(permissions) = new_permissions)).
  { intros page Hp. specialize (Hc page Hp). unfold check_protect in Hc. destruct (s.(mappings) !! _) as [m|]; [|done].
    exists m. split; [done|]. intros Hl. rewrite Hl in Hc. destruct (Z.eqb_spec m.(permissions) new_permissions); done. }
  assert (Hlock : forall page m, page ∈ range_pages r -> s.(mappings) !! (address_space, page) = Some m ->
    attributes_contain m.(attributes) ATTR_PERMISSION_LOCKED = true -> m.(permissions) = new_permissions).
  { intros page m Hp Hm'. destruct (Hm page Hp) as (m0 & Hm0 & Hl). rewrite Hm0 in Hm'. by injection Hm' as <-. }
  destruct (existsb _ _) eqn:Hch; cbn [negb].
  - apply wp_bind, wp_reserve_one; [|done]. intros record Hres. apply wp_bind, wp_take_generation; [done|]. intros g next.
    apply wp_bind, wp_update_mappings; [apply range_pages_nodup| |].
    { intros page Hp. destruct (Hm page Hp) as (m & Hm0 & _). cbn. eauto. }
    intros ms Hms. cbn [set_next_mapping_generation mappings] in Hms. eapply wp_commit_range; [done|exact Hres| |].
    { intros key m. by eapply updated_entry. }
    intros s' Hok Hpg Hmp _. split; [done|]. exists r. split; [done|]. split; [done|]. split; [|exact Hlock].
    eapply range_effect_of; [done| |rewrite Hmp; exact Hms|done]. intros page Hp. destruct (Hm page Hp) as (m & Hm0 & _). eauto.
  - apply wp_ret. split; [done|]. exists r. split; [done|]. split; [done|]. split; [|exact Hlock].
    apply range_effect_refl. intros page Hp. destruct (Hm page Hp) as (m & Hm0 & _). exists m. split; [done|].
    split; [done|]. split; [|done]. cbn. destruct (Z.eqb_spec m.(permissions) new_permissions) as [|Hne]; [done|].
    exfalso. apply (f_equal negb) in Hch. cbn in Hch. apply negb_true_iff in Hch. apply not_true_iff_false in Hch. apply Hch.
    apply existsb_exists. exists page. split; [by apply list_elem_of_In|]. unfold mapping_test. rewrite Hm0.
    by destruct (Z.eqb_spec m.(permissions) new_permissions).
Qed.

(** The two answers of a fixture. *)
Lemma wp_or_false (m : SM Mem unit unit) (P R : Mem -> Prop) s :
  wp m (fun _ s' => P s') (fun _ s' => R s') s ->
  wp (or_false m) (fun b s' => if b then P s' else R s') (fun _ _ => False) s.
Proof using. unfold wp, or_false. by destruct (m s) as [[]]. Qed.

Lemma set_mapping_purpose_outcome s address_space start size new_purpose :
  synthetic_ok s ->
  wp (set_mapping_purpose address_space start size new_purpose)
    (fun b s' => if b then synthetic_ok s' /\ exists r, nonempty_range start size = Some r /\
         range_effect s s' address_space r (fun m => (m.(permissions), new_purpose, m.(attributes)))
       else s' = s) (fun _ _ => False) s.
Proof using.
  intros Hs. unfold set_mapping_purpose.
  apply (wp_or_false _ (fun s' => synthetic_ok s' /\ exists r, _ /\ _) (fun s' => s' = s)).
  apply wp_bind, wp_ok_or; [done|]. intros r Hr. apply wp_bind, wp_get, wp_bind, wp_require; [done|].
  intros Hmap. rewrite forallb_forall in Hmap.
  assert (Hm : forall page, page ∈ range_pages r -> is_Some (s.(mappings) !! (address_space, page))).
  { intros page Hp. specialize (Hmap page ltac:(by apply list_elem_of_In)). unfold mapped in Hmap. by apply bool_decide_eq_true in Hmap. }
  destruct (forallb _ _) eqn:Hall.
  - apply wp_ret. split; [done|]. exists r. split; [done|]. apply range_effect_refl. intros page Hp.
    destruct (Hm page Hp) as [m Hm0]. exists m. split; [done|]. rewrite forallb_forall in Hall.
    specialize (Hall page ltac:(by apply list_elem_of_In)). unfold mapping_test in Hall. rewrite Hm0 in Hall.
    apply bool_decide_eq_true in Hall. done.
  - apply wp_bind, wp_reserve_one; [|done]. intros record Hres. apply wp_bind, wp_take_generation; [done|]. intros g next.
    apply wp_bind, wp_update_mappings; [apply range_pages_nodup|exact Hm|].
    intros ms Hms. cbn [set_next_mapping_generation mappings] in Hms. eapply wp_commit_range; [done|exact Hres| |].
    { intros key m. by eapply updated_entry. }
    intros s' Hok Hpg Hmp _. split; [done|]. exists r. split; [done|].
    eapply range_effect_of; [done|exact Hm|rewrite Hmp; exact Hms|done].
Qed.

(** ** Attributes *)

Definition masked (mask value : Z) (m : Mapping) : Z := default 0 (masked_attributes m.(attributes) mask value).

Lemma attributes_change_total s address_space mask value page_list :
  (forall page, page ∈ page_list -> exists m, s.(mappings) !! (address_space, page) = Some m /\
     is_Some (masked_attributes m.(attributes) mask value)) ->
  exists b, attributes_change (Dev := Dev) s address_space mask value page_list = Some b /\
    (b = false -> forall page m, page ∈ page_list -> s.(mappings) !! (address_space, page) = Some m -> m.(attributes) = masked mask value m).
Proof using.
  unfold masked. induction page_list as [|q page_list IH]; intros Hall; cbn [attributes_change].
  - exists false. split; [done|]. set_solver.
  - destruct (Hall q ltac:(set_solver)) as (m & Hm & [a Ha]). rewrite Hm, Ha.
    destruct (Z.eqb_spec m.(attributes) a) as [Heq|Hne]; cbn [negb]; [|by exists true].
    destruct IH as (b & Hb & Hfalse); [intros page Hp; apply Hall; set_solver|]. exists b. split; [done|].
    intros Hb0 page m' [->|Hp]%elem_of_cons Hm'; [|by apply (Hfalse Hb0 page)]. rewrite Hm in Hm'. injection Hm' as <-. by rewrite Ha.
Qed.

Lemma set_attributes_outcome s address_space start size mask value :
  synthetic_ok s ->
  wp (set_attributes address_space start size mask value)
    (fun _ s' => synthetic_ok s' /\ exists r, nonempty_range start size = Some r /\
       range_effect s s' address_space r (fun m => (m.(permissions), m.(purpose), masked mask value m)))
    (fun _ s' => s' = s) s.
Proof using.
  intros Hs. unfold set_attributes. apply wp_bind, wp_ok_or; [done|]. intros r Hr.
  apply wp_bind, wp_guard; [done|]. intros Hmask%bool_decide_eq_false. apply wp_bind, wp_get, wp_bind, wp_check_pages; [|intros Hc|done].
  { intros page. unfold check_mapped, mapping_error. by case_match. }
  assert (Hm : forall page, page ∈ range_pages r -> exists m, s.(mappings) !! (address_space, page) = Some m /\
    is_Some (masked_attributes m.(attributes) mask value)).
  { intros page Hp. specialize (Hc page Hp). unfold check_mapped, mapped in Hc. case_bool_decide as Hi; [|done].
    destruct Hi as [m Hm]. exists m. split; [done|].
    destruct (masked_attributes_total m.(attributes) mask value) as (a & -> & _); [by eapply syn_attributes|done|eauto]. }
  destruct (attributes_change_total s address_space mask value (range_pages r) Hm) as (b & Hb & Hfalse).
  apply wp_bind. eapply wp_expect; [exact Hb|]. destruct b; cbn [negb].
  - apply wp_bind, wp_reserve_one; [|done]. intros record Hres. apply wp_bind, wp_take_generation; [done|]. intros g next.
    apply wp_bind, wp_try_update; [apply range_pages_nodup| |].
    { intros page Hp. destruct (Hm page Hp) as (m & Hm0 & [a Ha]). exists m. split; [done|]. rewrite Ha. eauto. }
    intros ms Hms. cbn [set_next_mapping_generation mappings] in Hms.
    set (upd := fun m => mkMapping m.(physical_page) g m.(permissions) m.(purpose) (masked mask value m)).
    assert (Hms' : forall key, ms !! key = if in_range_of address_space (range_pages r) key then upd <$> s.(mappings) !! key else s.(mappings) !! key).
    { intros [sp q]. rewrite Hms. destruct (in_range_of _ _ _) eqn:Hin; [|done]. unfold in_range_of in Hin. cbn [fst snd] in Hin.
      rewrite andb_true_iff, Z.eqb_eq, bool_decide_eq_true in Hin. destruct Hin as [-> Hq].
      destruct (Hm q Hq) as (m & -> & [a Ha]). cbn. unfold upd, masked. by rewrite Ha. }
    eapply wp_commit_range; [done|exact Hres| |].
    { intros key m. eapply updated_entry; [done|exact Hms'|done|]. intros m0 Hk.
      destruct (masked_attributes_total m0.(attributes) mask value Hk Hmask) as (a & Ha & Hka). cbn. unfold masked. by rewrite Ha. }
    intros s' Hok Hpg Hmp _. split; [done|]. exists r. split; [done|].
    eapply range_effect_of; [done| |rewrite Hmp; exact Hms'|done]. intros page Hp. destruct (Hm page Hp) as (m & Hm0 & _). eauto.
  - apply wp_ret. split; [done|]. exists r. split; [done|]. apply range_effect_refl. intros page Hp.
    destruct (Hm page Hp) as (m & Hm0 & _). exists m. split; [done|]. repeat (split; [done|]). by apply (Hfalse eq_refl page).
Qed.

Lemma map_page_outcome s address_space virtual_address page new_permissions :
  synthetic_ok s ->
  wp (map_page address_space virtual_address page new_permissions)
    (fun b s' => if b then synthetic_ok s' /\ s'.(pages) = s.(pages) /\ is_Some (s.(pages) !! page) /\
         page_offset virtual_address = 0 /\ s.(mappings) !! (address_space, virtual_page virtual_address) = None /\
         exists g, s'.(mappings) = <[(address_space, virtual_page virtual_address) := mkMapping page g new_permissions PurposeNormal ATTR_NONE]> s.(mappings)
       else s' = s) (fun _ _ => False) s.
Proof using.
  intros Hs. unfold map_page. apply (wp_or_false _ (fun s' => synthetic_ok s' /\ _ /\ _ /\ _ /\ _ /\ exists g, _) (fun s' => s' = s)).
  apply wp_bind, wp_require; [done|]. rewrite page_aligned. intros Hal%Z.eqb_eq. apply wp_bind, wp_get, wp_bind, wp_require; [done|].
  intros Hpg%bool_decide_eq_true. apply wp_bind, wp_guard; [done|]. intros Hnone.
  assert (Hn : s.(mappings) !! (address_space, virtual_page virtual_address) = None).
  { unfold mapped in Hnone. apply bool_decide_eq_false in Hnone. by apply eq_None_not_Some. }
  apply wp_bind, wp_reserve_one; [|done]. intros record Hres. apply wp_bind, wp_take_generation; [done|]. intros g next.
  apply wp_bind, wp_modify, wp_bind, wp_debug_assert; [by rewrite Hnone|].
  set (ms := <[(address_space, virtual_page virtual_address) := mkMapping page g new_permissions PurposeNormal ATTR_NONE]> s.(mappings)).
  change (wp (commit_one record) ?Q ?R _) with (wp (commit_one record) Q R (set_mappings (fun _ => ms) (set_next_mapping_generation next s))).
  eapply wp_commit_range; [done|exact Hres| |].
  - intros key m [[_ <-]|[_ Hm]]%lookup_insert_Some; [done|]. split; [by eapply syn_mapped|by eapply syn_attributes].
  - intros s' Hok Hp Hmp _. repeat (split; [done|]). by exists g.
Qed.

(** ** Aliases *)

(** The pages of a list of pairs, as keys of one address space. *)
Definition pair_key (space : Z) (pairs : list (Z * Z)) (key : Z * Z) : Prop :=
  key.1 = space /\ (key.2 ∈ pairs.*1 \/ key.2 ∈ pairs.*2).

(** The mapping table after the pairs were aliased. *)
Record aliased (s : Mem) (request : MemoryAliasRequest) (generation : Z) (pairs : list (Z * Z)) (ms : gmap (Z * Z) Mapping) : Prop := {
  al_pair a b : (a, b) ∈ pairs -> exists m, s.(mappings) !! (request.(al_address_space), a) = Some m /\
    ms !! (request.(al_address_space), a) = Some (apply_properties request.(al_source_after) generation m) /\
    ms !! (request.(al_address_space), b) = Some (apply_properties request.(al_destination_properties) generation m);
  al_frame key : ~ pair_key request.(al_address_space) pairs key -> ms !! key = s.(mappings) !! key
}.

(** The mapping table after the aliases were removed. *)
Record unaliased (s : Mem) (request : MemoryAliasRequest) (generation : Z) (pairs : list (Z * Z)) (ms : gmap (Z * Z) Mapping) : Prop := {
  un_pair a b : (a, b) ∈ pairs -> exists m, s.(mappings) !! (request.(al_address_space), a) = Some m /\
    ms !! (request.(al_address_space), a) = Some (apply_properties request.(al_source_after) generation m) /\
    ms !! (request.(al_address_space), b) = None;
  un_frame key : ~ pair_key request.(al_address_space) pairs key -> ms !! key = s.(mappings) !! key
}.

Lemma wp_update_one {E} space page f (Q : unit -> Mem -> Prop) (R : E -> Mem -> Prop) s m :
  s.(mappings) !! (space, page) = Some m -> Q tt (set_mappings (insert (space, page) (f m)) s) ->
  wp (update_mappings space [page] f) Q R s.
Proof using. intros Hm HQ. unfold wp, update_mappings. cbn [try_update_mappings]. unfold bind, get, expect, modify. rewrite Hm. exact HQ. Qed.

Lemma wp_map_pairs {E} request generation (R : E -> Mem -> Prop) pairs : forall (Q : unit -> Mem -> Prop) s,
  NoDup (pairs.*1) -> NoDup (pairs.*2) ->
  (forall a b, (a, b) ∈ pairs -> is_Some (s.(mappings) !! (request.(al_address_space), a)) /\
                              s.(mappings) !! (request.(al_address_space), b) = None) ->
  (forall ms, aliased s request generation pairs ms -> Q tt (set_mappings (fun _ => ms) s)) ->
  wp (map_pairs request generation pairs) Q R s.
Proof using.
  set (space := request.(al_address_space)).
  induction pairs as [|[a b] pairs IH]; intros Q s Hn1 Hn2 Hall HQ; cbn [map_pairs].
  - replace s with (set_mappings (fun _ => s.(mappings)) s) by by destruct s. apply wp_ret, HQ. split; [set_solver|done].
  - cbn [fmap list_fmap] in Hn1, Hn2. apply NoDup_cons in Hn1 as [Ha Hn1]. apply NoDup_cons in Hn2 as [Hb Hn2].
    destruct (Hall a b ltac:(set_solver)) as [[m Hm] Hnb]. assert (Hab : a <> b) by congruence.
    assert (Hsrc : forall a' b', (a', b') ∈ pairs -> a' <> a /\ a' <> b /\ b' <> b /\ b' <> a).
    { intros a' b' Hp. destruct (Hall a' b' ltac:(set_solver)) as [[m' Hm'] Hnb'].
      assert (a' ∈ pairs.*1 /\ b' ∈ pairs.*2) as [Hin1 Hin2]
        by (split; [change a' with (a', b').1|change b' with (a', b').2]; by apply list_elem_of_fmap_2).
      repeat split; try (intros ->; congruence); by intros ->. }
    apply wp_bind, wp_get, wp_bind. eapply wp_expect; [exact Hm|].
    apply wp_bind. eapply wp_update_one; [exact Hm|]. apply wp_bind, wp_get, wp_bind, wp_modify, wp_bind, wp_debug_assert.
    { unfold mapped. cbn [set_mappings mappings]. rewrite lookup_insert_ne by congruence. fold space. by rewrite Hnb. }
    apply IH; [done|done| |].
    + intros a' b' Hp. destruct (Hsrc a' b' Hp) as (H1 & H2 & H3 & H4). cbn [set_mappings mappings].
      rewrite !lookup_insert_ne by congruence. apply Hall. set_solver.
    + intros ms [Hpair Hframe]. cbn [set_mappings mappings] in *. apply HQ.
      assert (Hni : forall q, (q = a \/ q = b) -> ~ pair_key space pairs (space, q)).
      { intros q Hq [_ [Hin|Hin]]; cbn [snd] in Hin; apply list_elem_of_fmap in Hin as ([a' b'] & -> & Hp);
          destruct (Hsrc a' b' Hp) as (? & ? & ? & ?); destruct Hq; simplify_eq/=. }
      split.
      * intros a' b' [[= -> ->]|Hp]%elem_of_cons.
        -- exists m. split; [done|]. split.
           ++ rewrite Hframe by auto. rewrite lookup_insert_ne, lookup_insert_eq by congruence. done.
           ++ rewrite Hframe by auto. by rewrite lookup_insert_eq.
        -- destruct (Hpair a' b' Hp) as (m' & Hm' & Hr). destruct (Hsrc a' b' Hp) as (H1 & H2 & _).
           rewrite !lookup_insert_ne in Hm' by congruence. eauto.
      * intros key Hk. rewrite Hframe.
        -- rewrite !lookup_insert_ne; [done| |]; intros <-; apply Hk; split; cbn; set_solver.
        -- intros [Hs1 Hs2]. apply Hk. split; [done|]. cbn. set_solver.
Qed.

Lemma any_mapping_true s (P : Mapping -> bool) key m : s.(mappings) !! key = Some m -> P m = true -> any_mapping (Dev := Dev) s P = true.
Proof using.
  intros Hm HP. unfold any_mapping. apply existsb_exists. exists (key, m). split; [|done].
  by apply list_elem_of_In, elem_of_map_to_list.
Qed.

Lemma wp_unmap_pairs {E} request generation (R : E -> Mem -> Prop) pairs : forall (Q : unit -> Mem -> Prop) s,
  NoDup (pairs.*1) -> NoDup (pairs.*2) -> (forall q, q ∈ pairs.*1 -> q ∉ pairs.*2) ->
  (forall a b, (a, b) ∈ pairs -> exists ma mb, s.(mappings) !! (request.(al_address_space), a) = Some ma /\
     s.(mappings) !! (request.(al_address_space), b) = Some mb /\ ma.(physical_page) = mb.(physical_page)) ->
  (forall ms, unaliased s request generation pairs ms -> Q tt (set_mappings (fun _ => ms) s)) ->
  wp (unmap_pairs request generation pairs) Q R s.
Proof using.
  set (space := request.(al_address_space)).
  induction pairs as [|[a b] pairs IH]; intros Q s Hn1 Hn2 Hdis Hall HQ; cbn [unmap_pairs].
  - replace s with (set_mappings (fun _ => s.(mappings)) s) by by destruct s. apply wp_ret, HQ. split; [set_solver|done].
  - cbn [fmap list_fmap] in Hn1, Hn2, Hdis. apply NoDup_cons in Hn1 as [Ha Hn1]. apply NoDup_cons in Hn2 as [Hb Hn2].
    destruct (Hall a b ltac:(set_solver)) as (ma & mb & Hma & Hmb & Hphys).
    assert (Hab : a <> b) by (pose proof (Hdis a ltac:(by left)) as Hd; rewrite not_elem_of_cons in Hd; by destruct Hd).
    assert (Hsrc : forall a' b', (a', b') ∈ pairs -> a' <> a /\ a' <> b /\ b' <> b /\ b' <> a).
    { intros a' b' Hp.
      assert (a' ∈ pairs.*1 /\ b' ∈ pairs.*2) as [Hin1 Hin2]
        by (split; [change a' with (a', b').1|change b' with (a', b').2]; by apply list_elem_of_fmap_2).
      pose proof (Hdis a' ltac:(by right)) as Hda'. pose proof (Hdis a ltac:(by left)) as Hda.
      rewrite not_elem_of_cons in Hda', Hda. destruct Hda', Hda. repeat split; by intros ->. }
    apply wp_bind, wp_get, wp_bind. eapply wp_expect; [exact Hmb|]. apply wp_bind, wp_modify, wp_bind, wp_get, wp_bind, wp_debug_assert.
    { apply (any_mapping_true _ _ (space, a) ma); [|by apply Z.eqb_eq]. cbn [set_mappings mappings].
      by rewrite lookup_delete_ne by congruence. }
    apply wp_bind. eapply (wp_update_one _ _ _ _ _ _ ma); [cbn [set_mappings mappings]; by rewrite lookup_delete_ne by congruence|].
    apply IH; [done|done|intros q Hq; specialize (Hdis q ltac:(by right)); rewrite not_elem_of_cons in Hdis; by destruct Hdis| |].
    + intros a' b' Hp. destruct (Hsrc a' b' Hp) as (H1 & H2 & H3 & H4). cbn [set_mappings mappings].
      rewrite !lookup_insert_ne, !lookup_delete_ne by congruence. apply Hall. set_solver.
    + intros ms [Hpair Hframe]. cbn [set_mappings mappings] in *. apply HQ.
      assert (Hni : forall q, (q = a \/ q = b) -> ~ pair_key space pairs (space, q)).
      { intros q Hq [_ [Hin|Hin]]; cbn [snd] in Hin; apply list_elem_of_fmap in Hin as ([a' b'] & -> & Hp);
          destruct (Hsrc a' b' Hp) as (? & ? & ? & ?); destruct Hq; simplify_eq/=. }
      split.
      * intros a' b' [[= -> ->]|Hp]%elem_of_cons.
        -- exists ma. split; [done|]. split.
           ++ rewrite Hframe by auto. by rewrite lookup_insert_eq.
           ++ rewrite Hframe by auto. by rewrite lookup_insert_ne, lookup_delete_eq by congruence.
        -- destruct (Hpair a' b' Hp) as (m' & Hm' & Hr). destruct (Hsrc a' b' Hp) as (H1 & H2 & _).
           rewrite lookup_insert_ne, lookup_delete_ne in Hm' by congruence. eauto.
      * intros key Hk. rewrite Hframe.
        -- rewrite lookup_insert_ne, lookup_delete_ne; [done| |]; intros <-; apply Hk; split; cbn; set_solver.
        -- intros [Hs1 Hs2]. apply Hk. split; [done|]. cbn. set_solver.
Qed.

Lemma wp_check_pairs {E} pairs (check : Z -> Z -> Result E unit) (Q : unit -> Mem -> Prop) (R : E -> Mem -> Prop) s :
  (forall a b, check a b <> Panic) ->
  ((forall a b, (a, b) ∈ pairs -> check a b = Ok tt) -> Q tt s) -> (forall e, R e s) ->
  wp (lift (check_pairs pairs check)) Q R s.
Proof using.
  intros Hn HQ HR. apply wp_lift_total; [| |done].
  - clear HQ. induction pairs as [|[a b] pairs IH]; cbn [check_pairs]; [done|]. specialize (Hn a b). by destruct (check a b).
  - intros [] Hc. apply HQ. clear HQ. revert Hc. induction pairs as [|[a b] pairs IH]; cbn [check_pairs]; intros Hc; [set_solver|].
    destruct (check a b) as [[]|e|] eqn:Hab; cbn [result_bind] in Hc; [|done..].
    intros a' b' [[= -> ->]|Hp]%elem_of_cons; [done|]. by apply IH.
Qed.

Lemma wp_reserve_kinds {E} kinds origin (err : MemoryInvalidationError -> E) (Q : MemoryInvalidationBatchReservation -> Mem -> Prop) R s :
  (forall batch, reserve_many_with_origin s.(invalidations) kinds origin = Ok batch -> Q batch s) -> (forall e, R (err e) s) ->
  wp (reserve_kinds kinds origin err) Q R s.
Proof using.
  intros HQ HR. unfold wp, reserve_kinds. destruct (reserve_many_with_origin _ _ _) as [batch|e|] eqn:E1; cbn [map_err]; [by apply HQ|apply HR|].
  unfold reserve_many_with_origin in E1. by repeat case_match.
Qed.

Lemma wp_commit_kinds {E} log kinds origin batch (Q : unit -> Mem -> Prop) (R : E -> Mem -> Prop) s :
  log_ok log -> log.(log_latest) + Z.of_nat (length kinds) < 2 ^ 64 - 1 ->
  reserve_many_with_origin log kinds origin = Ok batch -> s.(invalidations) = log ->
  (forall log', log_ok log' -> Q tt (set_invalidations log' s)) -> wp (commit_kinds batch) Q R s.
Proof using.
  intros (h & Hrep & Hlen) Hroom Hres Hlog HQ. destruct (reserve_many_outcome log h kinds origin Hrep) as [He|(batch' & Hres' & Hc)]; [congruence|].
  assert (batch' = batch) as -> by congruence. pose proof (proj1 Hrep) as Hl. rewrite Hl in Hroom.
  destruct Hc as (log' & Hc & Hrep'); [lia|]. unfold wp, commit_kinds. rewrite Hlog, Hc. apply HQ. exists (h ++ batch_entries kinds origin).
  split; [done|]. unfold batch_entries. rewrite length_app, length_map. lia.
Qed.

(** The page pairs of two equally long ranges. *)
Lemma alias_pairs_shape source destination size sr dr :
  0 <= size -> PageRange_new source size = Some sr -> PageRange_new destination size = Some dr ->
  (alias_pairs sr dr).*1 = seqZ (source / 4096) (size / 4096) /\ (alias_pairs sr dr).*2 = seqZ (destination / 4096) (size / 4096).
Proof using.
  intros Hsz Hs Hd. apply PageRange_new_some in Hs as (_ & _ & _ & ->). apply PageRange_new_some in Hd as (_ & _ & _ & ->).
  unfold alias_pairs, range_pages. cbn [range_first range_end].
  replace (source / 4096 + size / 4096 - source / 4096) with (size / 4096) by lia.
  replace (destination / 4096 + size / 4096 - destination / 4096) with (size / 4096) by lia.
  split; [rewrite fst_zip|rewrite snd_zip]; rewrite ?length_seqZ; done.
Qed.

(** The page properties a source page must have, and its new metadata. *)
Lemma map_alias_outcome s request :
  synthetic_ok s -> alias_request_ok request -> log_room s 2 -> 0 <= request.(al_size) ->
  wp (map_alias request)
    (fun _ s' => synthetic_ok s' /\ s'.(pages) = s.(pages) /\ exists sr dr g,
       PageRange_new request.(al_source) request.(al_size) = Some sr /\ PageRange_new request.(al_destination) request.(al_size) = Some dr /\
       (forall a b, (a, b) ∈ alias_pairs sr dr -> s.(mappings) !! (request.(al_address_space), b) = None /\
          exists m, s.(mappings) !! (request.(al_address_space), a) = Some m /\ mapping_properties m = request.(al_source_before)) /\
       aliased s request g (alias_pairs sr dr) s'.(mappings))
    (fun _ s' => s' = s) s.
Proof using.
  intros Hs [Hpa Hpd] Hroom Hsz. unfold map_alias, alias_transaction.
  destruct (PageRange_new request.(al_source) _) as [sr|] eqn:Hsr; [|done].
  destruct (PageRange_new request.(al_destination) _) as [dr|] eqn:Hdr; [|done].
  destruct (alias_pairs_shape _ _ _ sr dr Hsz Hsr Hdr) as [H1 H2].
  apply wp_bind, wp_guard; [done|]. intros _. apply wp_bind, wp_get, wp_bind, wp_check_pairs; [|intros Hc|done].
  { intros a b. unfold check_map_alias, mapping_error. by repeat case_match. }
  assert (Hpairs : forall a b, (a, b) ∈ alias_pairs sr dr -> s.(mappings) !! (request.(al_address_space), b) = None /\
    exists m, s.(mappings) !! (request.(al_address_space), a) = Some m /\ mapping_properties m = request.(al_source_before)).
  { intros a b Hp. specialize (Hc a b Hp). unfold check_map_alias in Hc. destruct (s.(mappings) !! (_, a)) as [m|]; [|done].
    case_bool_decide as Hpr; cbn [negb orb] in Hc; [|done]. destruct (match s.(pages) !! _ with Some (RamPage _ _) => true | _ => false end); [|done].
    cbn [negb] in Hc. destruct (mapped _ _ _) eqn:Hb; [done|]. unfold mapped in Hb. apply bool_decide_eq_false in Hb.
    split; [by apply eq_None_not_Some|]. by exists m. }
  apply wp_bind, wp_reserve_kinds; [|done]. intros batch Hres. apply wp_bind, wp_take_generation; [done|]. intros g next.
  apply wp_bind, wp_map_pairs; [rewrite H1; apply NoDup_seqZ|rewrite H2; apply NoDup_seqZ| |].
  { intros a b Hp. destruct (Hpairs a b Hp) as (Hb & m & Hm & _). cbn. eauto. }
  intros ms Hms. eapply (wp_commit_kinds s.(invalidations) (alias_kinds request)); [apply Hs|exact Hroom|exact Hres|done|].
  assert (Hms' : aliased s request g (alias_pairs sr dr) ms) by (destruct Hms; by split).
  intros log' Hlog. split; [|split; [done|by exists sr, dr, g]].
  apply set_invalidations_ok; [|done]. apply mappings_ok; [by apply generation_state_ok|]. cbn [set_next_mapping_generation pages].
  intros key m Hm. destruct (decide (key.1 = request.(al_address_space) /\ (key.2 ∈ (alias_pairs sr dr).*1 \/ key.2 ∈ (alias_pairs sr dr).*2))) as [[Hk1 Hk2]|Hk].
  - destruct key as [sp q]. cbn [fst snd] in *. subst sp.
    destruct Hk2 as [([a b] & -> & Hp)%list_elem_of_fmap|([a b] & -> & Hp)%list_elem_of_fmap];
      destruct (al_pair _ _ _ _ _ Hms' a b Hp) as (m0 & Hm0 & Ha & Hb); cbn [fst snd] in Hm; simplify_eq;
      (split; [exact (syn_mapped s Hs _ _ Hm0)|done]).
  - rewrite (al_frame _ _ _ _ _ Hms') in Hm by done. split; [by eapply syn_mapped|by eapply syn_attributes].
Qed.

(** The two ranges of a request share no page. *)
Definition alias_disjoint (request : MemoryAliasRequest) : Prop :=
  request.(al_source) + request.(al_size) <= request.(al_destination) \/
  request.(al_destination) + request.(al_size) <= request.(al_source).

Lemma disjoint_pages request sr dr :
  0 <= request.(al_size) -> alias_disjoint request ->
  PageRange_new request.(al_source) request.(al_size) = Some sr -> PageRange_new request.(al_destination) request.(al_size) = Some dr ->
  forall q, q ∈ (alias_pairs sr dr).*1 -> q ∉ (alias_pairs sr dr).*2.
Proof using.
  intros Hsz Hdis Hsr Hdr q. destruct (alias_pairs_shape _ _ _ sr dr Hsz Hsr Hdr) as [-> ->].
  apply PageRange_new_some in Hsr as (Hs0 & Hm & _). apply PageRange_new_some in Hdr as (Hd0 & _).
  unfold page_offset, SYNTHETIC_PAGE_SIZE in *. rewrite !elem_of_seqZ. destruct Hdis; intros ? ?;
    pose proof (Z.div_mod request.(al_source) 4096 ltac:(lia)); pose proof (Z.div_mod request.(al_destination) 4096 ltac:(lia));
    pose proof (Z.div_mod request.(al_size) 4096 ltac:(lia)); lia.
Qed.

Lemma check_unmap_ok (s : Mem) request a b :
  check_unmap_alias s request a b = Ok tt ->
  exists ma mb, s.(mappings) !! (request.(al_address_space), a) = Some ma /\
    s.(mappings) !! (request.(al_address_space), b) = Some mb /\ ma.(physical_page) = mb.(physical_page).
Proof using.
  intros Hc. unfold check_unmap_alias in Hc.
  destruct (s.(mappings) !! (_, a)) as [ma|]; [|done]. case_bool_decide; cbn [negb] in Hc; [|done].
  destruct (s.(mappings) !! (_, b)) as [mb|]; [|done]. case_bool_decide; cbn [negb] in Hc; [|done].
  destruct (Z.eqb_spec ma.(physical_page) mb.(physical_page)); [|done]. eauto.
Qed.

Lemma unmap_alias_outcome s request :
  synthetic_ok s -> alias_request_ok request -> log_room s 2 -> 0 <= request.(al_size) -> alias_disjoint request ->
  wp (unmap_alias request)
    (fun _ s' => synthetic_ok s' /\ s'.(pages) = s.(pages) /\ exists sr dr g,
       PageRange_new request.(al_source) request.(al_size) = Some sr /\ PageRange_new request.(al_destination) request.(al_size) = Some dr /\
       unaliased s request g (alias_pairs sr dr) s'.(mappings))
    (fun _ s' => s' = s) s.
Proof using.
  intros Hs [Hpa Hpd] Hroom Hsz Hdis. unfold unmap_alias, alias_transaction.
  destruct (PageRange_new request.(al_source) _) as [sr|] eqn:Hsr; [|done].
  destruct (PageRange_new request.(al_destination) _) as [dr|] eqn:Hdr; [|done].
  destruct (alias_pairs_shape _ _ _ sr dr Hsz Hsr Hdr) as [H1 H2].
  apply wp_bind, wp_guard; [done|]. intros _. apply wp_bind, wp_get, wp_bind, wp_check_pairs; [|intros Hc|done].
  { intros a b. unfold check_unmap_alias, mapping_error. by repeat case_match. }
  apply wp_bind, wp_reserve_kinds; [|done]. intros batch Hres. apply wp_bind, wp_take_generation; [done|]. intros g next.
  apply wp_bind, wp_unmap_pairs; [rewrite H1; apply NoDup_seqZ|rewrite H2; apply NoDup_seqZ|by eapply disjoint_pages| |].
  { intros a b Hp. exact (check_unmap_ok s request a b (Hc a b Hp)). }
  intros ms Hms. eapply (wp_commit_kinds s.(invalidations) (alias_kinds request)); [apply Hs|exact Hroom|exact Hres|done|].
  assert (Hms' : unaliased s request g (alias_pairs sr dr) ms) by (destruct Hms; by split).
  intros log' Hlog. split; [|split; [done|by exists sr, dr, g]].
  apply set_invalidations_ok; [|done]. apply mappings_ok; [by apply generation_state_ok|]. cbn [set_next_mapping_generation pages].
  intros key m Hm. destruct (decide (key.1 = request.(al_address_space) /\ (key.2 ∈ (alias_pairs sr dr).*1 \/ key.2 ∈ (alias_pairs sr dr).*2))) as [[Hk1 Hk2]|Hk].
  - destruct key as [sp q]. cbn [fst snd] in *. subst sp.
    destruct Hk2 as [([a b] & -> & Hp)%list_elem_of_fmap|([a b] & -> & Hp)%list_elem_of_fmap];
      destruct (un_pair _ _ _ _ _ Hms' a b Hp) as (m0 & Hm0 & Ha & Hb); cbn [fst snd] in Hm; simplify_eq;
      (split; [exact (syn_mapped s Hs _ _ Hm0)|done]).
  - rewrite (un_frame _ _ _ _ _ Hms') in Hm by done. split; [by eapply syn_mapped|by eapply syn_attributes].
Qed.

(** The destination of a request does not begin inside its source. *)
Definition alias_outside (request : MemoryAliasRequest) : Prop :=
  request.(al_destination) < request.(al_source) \/
  request.(al_source) + request.(al_size) <= request.(al_destination).

(** A mapping of [ms] is one of [s], or one with the metadata the request gives. *)
Definition redescribed (s : Mem) (request : MemoryAliasRequest) (ms : gmap (Z * Z) Mapping) : Prop :=
  forall key m, ms !! key = Some m -> exists m0, s.(mappings) !! key = Some m0 /\ m.(physical_page) = m0.(physical_page) /\
    (m.(attributes) = m0.(attributes) \/ m.(attributes) = mp_attributes request.(al_source_after)).

(** A destination below its source may overlap it: each page is removed only
    after it has served as a source. *)
Lemma wp_unmap_outside {E} request generation (R : E -> Mem -> Prop) n : forall x y pairs (Q : unit -> Mem -> Prop) s,
  pairs.*1 = seqZ x n -> pairs.*2 = seqZ y n -> (y < x \/ x + n <= y) ->
  (forall a b, (a, b) ∈ pairs -> exists ma mb, s.(mappings) !! (request.(al_address_space), a) = Some ma /\
     s.(mappings) !! (request.(al_address_space), b) = Some mb /\ ma.(physical_page) = mb.(physical_page)) ->
  (forall ms, redescribed s request ms -> Q tt (set_mappings (fun _ => ms) s)) ->
  wp (unmap_pairs request generation pairs) Q R s.
Proof using.
  set (space := request.(al_address_space)).
  intros x y pairs. revert n x y. induction pairs as [|[a b] pairs IH]; intros n x y Q s H1 H2 Hout Hall HQ; cbn [unmap_pairs].
  { replace s with (set_mappings (fun _ => s.(mappings)) s) by by destruct s. apply wp_ret, HQ. intros key m Hm. exists m. auto. }
  destruct (decide (0 < n)) as [Hn|Hn]; [|by rewrite seqZ_nil in H1 by lia].
  rewrite seqZ_cons in H1, H2 by lia. cbn [fmap list_fmap] in H1, H2. injection H1 as -> H1. injection H2 as -> H2.
  destruct (Hall x y ltac:(set_solver)) as (ma & mb & Hma & Hmb & Hphys).
  assert (Hlater : forall a' b', (a', b') ∈ pairs -> x < a' < x + n /\ y < b' < y + n).
  { intros a' b' Hp. assert (a' ∈ pairs.*1 /\ b' ∈ pairs.*2) as [Hin1 Hin2]
      by (split; [change a' with (a', b').1|change b' with (a', b').2]; by apply list_elem_of_fmap_2).
    rewrite H1, elem_of_seqZ in Hin1. rewrite H2, elem_of_seqZ in Hin2. lia. }
  apply wp_bind, wp_get, wp_bind. eapply wp_expect; [exact Hmb|]. apply wp_bind, wp_modify, wp_bind, wp_get, wp_bind, wp_debug_assert.
  { apply (any_mapping_true _ _ (space, x) ma); [|by apply Z.eqb_eq]. cbn [set_mappings mappings].
    rewrite lookup_delete_ne; [done|]. intros [=]. lia. }
  apply wp_bind. eapply (wp_update_one _ _ _ _ _ _ ma); [cbn [set_mappings mappings]; rewrite lookup_delete_ne; [done|intros [=]; lia]|].
  apply (IH (Z.pred n) (Z.succ x) (Z.succ y)); [done|done|lia| |].
  - intros a' b' Hp. specialize (Hlater a' b' Hp). destruct (Hall a' b' ltac:(set_solver)) as (ma' & mb' & Hma' & Hmb' & Hph').
    cbn [set_mappings mappings].
    exists ma'. destruct (decide (b' = x)) as [->|Hbx].
    + eexists. split; [rewrite lookup_insert_ne, lookup_delete_ne; [done|intros [=]; lia..]|]. split; [apply lookup_insert_eq|].
      cbn. by assert (mb' = ma) as <- by congruence.
    + exists mb'. rewrite !lookup_insert_ne, !lookup_delete_ne; [done|intros [=]; lia..].
  - intros ms Hms. cbn [set_mappings mappings] in *. apply HQ. intros key m Hm. destruct (Hms key m Hm) as (m0 & Hm0 & Hp0 & Ha0).
    cbn [set_mappings mappings] in Hm0. apply lookup_insert_Some in Hm0 as [[<- <-]|[_ [_ Hm0]%lookup_delete_Some]]; [|eauto].
    exists ma. split; [done|]. split; [done|]. cbn in Ha0. right. by destruct Ha0.
Qed.

Lemma page_numbers request sr dr :
  alias_outside request ->
  PageRange_new request.(al_source) request.(al_size) = Some sr -> PageRange_new request.(al_destination) request.(al_size) = Some dr ->
  request.(al_destination) / 4096 < request.(al_source) / 4096 \/
  request.(al_source) / 4096 + request.(al_size) / 4096 <= request.(al_destination) / 4096.
Proof using.
  intros Hout Hsr Hdr. apply PageRange_new_some in Hsr as (Hs0 & Hm & _). apply PageRange_new_some in Hdr as (Hd0 & _).
  unfold page_offset, SYNTHETIC_PAGE_SIZE in *.
  pose proof (Z.div_mod request.(al_source) 4096 ltac:(lia)). pose proof (Z.div_mod request.(al_destination) 4096 ltac:(lia)).
  pose proof (Z.div_mod request.(al_size) 4096 ltac:(lia)). destruct Hout; lia.
Qed.

Lemma unmap_alias_safe s request :
  synthetic_ok s -> alias_request_ok request -> log_room s 2 -> 0 <= request.(al_size) -> alias_outside request ->
  wp (unmap_alias request) (fun _ s' => synthetic_ok s') (fun _ s' => s' = s) s.
Proof using.
  intros Hs [Hpa Hpd] Hroom Hsz Hout. unfold unmap_alias, alias_transaction.
  destruct (PageRange_new request.(al_source) _) as [sr|] eqn:Hsr; [|done].
  destruct (PageRange_new request.(al_destination) _) as [dr|] eqn:Hdr; [|done].
  destruct (alias_pairs_shape _ _ _ sr dr Hsz Hsr Hdr) as [H1 H2].
  apply wp_bind, wp_guard; [done|]. intros _. apply wp_bind, wp_get, wp_bind, wp_check_pairs; [|intros Hc|done].
  { intros a b. unfold check_unmap_alias, mapping_error. by repeat case_match. }
  apply wp_bind, wp_reserve_kinds; [|done]. intros batch Hres. apply wp_bind, wp_take_generation; [done|]. intros g next.
  apply wp_bind, (wp_unmap_outside _ _ _ _ _ _ _ _ _ H1 H2); [by eapply page_numbers| |].
  { intros a b Hp. specialize (Hc a b Hp). apply (check_unmap_ok s request a b Hc). }
  intros ms Hms. eapply (wp_commit_kinds s.(invalidations) (alias_kinds request)); [apply Hs|exact Hroom|exact Hres|done|].
  intros log' Hlog. apply set_invalidations_ok; [|done]. apply mappings_ok; [by apply generation_state_ok|].
  cbn [set_next_mapping_generation pages]. intros key m (m0 & Hm0 & -> & Ha)%Hms. split; [exact (syn_mapped s Hs _ _ Hm0)|].
  destruct Ha as [->| ->]; [by eapply (syn_attributes s Hs)|exact Hpa].
Qed.

(** When the destination begins inside the source, one source page has been
    removed by the time the loop comes to it. *)
Lemma unmap_pairs_missing {E} request generation pairs : forall (s : Mem) z,
  s.(mappings) !! (request.(al_address_space), z) = None -> z ∈ pairs.*1 ->
  (unmap_pairs (E := E) request generation pairs s).1 = Panic.
Proof using.
  set (space := request.(al_address_space)). induction pairs as [|[a b] pairs IH]; intros s z Hz Hin; [by apply not_elem_of_nil in Hin|].
  cbn [unmap_pairs]. unfold bind, get, modify. fold space. destruct (s.(mappings) !! (space, b)) as [mb|]; [|done].
  cbn [expect ret]. destruct (any_mapping _ _); [|done]. cbn [debug_assert ret].
  assert (Hz' : delete (space, b) s.(mappings) !! (space, z) = None) by (apply lookup_delete_None; by right).
  unfold update_mappings. cbn [try_update_mappings]. unfold bind, get, modify. cbn [set_mappings mappings].
  destruct (delete (space, b) s.(mappings) !! (space, a)) as [ma|] eqn:Hma; [|done]. cbn [expect ret].
  cbn [fmap list_fmap] in Hin. apply elem_of_cons in Hin as [->|Hin]; [unfold fst in Hz'; congruence|].
  apply (IH _ z); [|done]. cbn [set_mappings mappings]. rewrite lookup_insert_ne; [done|]. intros [= ->]. congruence.
Qed.

Lemma unmap_pairs_inside {E} request generation n x y pairs (s : Mem) :
  pairs.*1 = seqZ x n -> pairs.*2 = seqZ y n -> x <= y < x + n ->
  (unmap_pairs (E := E) request generation pairs s).1 = Panic.
Proof using.
  set (space := request.(al_address_space)). intros H1 H2 Hy. rewrite seqZ_cons in H1, H2 by lia.
  destruct pairs as [|[a b] pairs]; [done|]. cbn [fmap list_fmap] in H1, H2. injection H1 as -> H1. injection H2 as -> _.
  cbn [unmap_pairs]. unfold bind, get, modify. fold space. destruct (s.(mappings) !! (space, y)) as [mb|]; [|done].
  cbn [expect ret]. destruct (any_mapping _ _); [|done]. cbn [debug_assert ret].
  unfold update_mappings. cbn [try_update_mappings]. unfold bind, get, modify. cbn [set_mappings mappings].
  destruct (delete (space, y) s.(mappings) !! (space, x)) as [ma|] eqn:Hma; [|done]. cbn [expect ret].
  assert (x <> y) by (intros ->; by rewrite lookup_delete_eq in Hma).
  apply (unmap_pairs_missing _ _ _ _ y); [|rewrite H1; apply elem_of_seqZ; lia]. cbn [set_mappings mappings].
  rewrite lookup_insert_ne by (intros [=]; lia). apply lookup_delete_eq.
Qed.

(** Such a request is refused with nothing changed, or panics: it never
    succeeds. *)
Lemma unmap_alias_inside (s : Mem) request :
  0 <= request.(al_size) -> ~ alias_outside request ->
  match unmap_alias request s with (Ok _, _) => False | (Err _, s') => s' = s | (Panic, _) => True end.
Proof using.
  intros Hsz Hin. unfold alias_outside in Hin. unfold unmap_alias, alias_transaction.
  destruct (PageRange_new request.(al_source) _) as [sr|] eqn:Hsr; [|done].
  destruct (PageRange_new request.(al_destination) _) as [dr|] eqn:Hdr; [|done].
  destruct (alias_pairs_shape _ _ _ sr dr Hsz Hsr Hdr) as [H1 H2].
  unfold bind at 1, guard. destruct (range_is_empty sr); [done|]. cbn [ret]. unfold bind at 1, get, bind at 1, lift.
  destruct (check_pairs _ _) as [[]|e|]; [|done|done]. unfold bind at 1, reserve_kinds.
  destruct (reserve_many_with_origin _ _ _) as [batch|e|]; cbn [map_err]; [|done|done].
  unfold bind at 1, take_generation. destruct (take_mapping_generation _) as [[g next]|]; [|done].
  assert (Hy : request.(al_source) / 4096 <= request.(al_destination) / 4096 < request.(al_source) / 4096 + request.(al_size) / 4096).
  { apply PageRange_new_some in Hsr as (Hs0 & Hm & _). apply PageRange_new_some in Hdr as (Hd0 & _).
    unfold page_offset, SYNTHETIC_PAGE_SIZE in *.
    pose proof (Z.div_mod request.(al_source) 4096 ltac:(lia)). pose proof (Z.div_mod request.(al_destination) 4096 ltac:(lia)).
    pose proof (Z.div_mod request.(al_size) 4096 ltac:(lia)). lia. }
  pose proof (unmap_pairs_inside (E := MemoryAliasError) request g _ _ _ _ (set_next_mapping_generation next s) H1 H2 Hy) as Hp.
  unfold bind. destruct (unmap_pairs request g (alias_pairs sr dr) _) as [r s1]. cbn [fst] in Hp. by subst r.
Qed.
End Tx.
