(* ===== verification/MemSyntheticGrow.v ===== *)
(** * Installing, growing and shrinking mappings of the synthetic backend

    Physical-page allocation for the transactions that create or remove pages:
    [install_ram_pages_atomic] and [resize_zeroed_mapping]. *)

From S2P Require Import Prelude Bytes MemBase MemInvalidation CpuMemory MemCommon MemSynthetic MemSyntheticSpec MemSyntheticProcess MemSyntheticTx.

Section Grow.
Context {Dev : Type} `{SyntheticMmio Dev} {dev_laws : SyntheticMmioLaws Dev}.
Notation Mem := (SyntheticMemory Dev).

(** ** Removing pages *)

(** The state after the mappings of [page_list] went: a physical page goes
    exactly when a removed mapping had it and no mapping is left on it. *)
Record removed (s : Mem) (address_space : Z) (page_list : list Z) (ms : gmap (Z * Z) Mapping) (ps : gmap Z (PhysicalPage Dev)) : Prop := {
  rm_mappings key : ms !! key = if in_range_of address_space page_list key then None else s.(mappings) !! key;
  rm_kept key m : ms !! key = Some m -> ps !! m.(physical_page) = s.(pages) !! m.(physical_page);
  rm_sub p pg : ps !! p = Some pg -> s.(pages) !! p = Some pg;
  rm_other p : (forall page m, page ∈ page_list -> s.(mappings) !! (address_space, page) = Some m -> m.(physical_page) <> p) ->
    ps !! p = s.(pages) !! p;
  rm_gone page m : page ∈ page_list -> s.(mappings) !! (address_space, page) = Some m ->
    (forall key m', ms !! key = Some m' -> m'.(physical_page) <> m.(physical_page)) -> ps !! m.(physical_page) = None
}.

Lemma any_mapping_spec (s : Mem) (P : Mapping -> bool) :
  any_mapping s P = true <-> exists key m, s.(mappings) !! key = Some m /\ P m = true.
Proof using.
  unfold any_mapping. rewrite existsb_exists. split.
  - intros ([key m] & Hin & HP). exists key, m. split; [|done]. by apply list_elem_of_In, elem_of_map_to_list in Hin.
  - intros (key & m & Hm & HP). exists (key, m). split; [|done]. by apply list_elem_of_In, elem_of_map_to_list.
Qed.

(** One page: the mapping is deleted, the physical page when it was the last. *)
Definition remove_one (address_space page : Z) (m : Mapping) (s : Mem) : Mem :=
  let s1 := set_mappings (delete (address_space, page)) s in
  if any_mapping s1 (fun c => c.(physical_page) =? m.(physical_page)) then s1
  else set_pages (delete m.(physical_page)) s1.

Lemma remove_one_mappings address_space page m s : (remove_one address_space page m s).(mappings) = delete (address_space, page) s.(mappings).
Proof using. unfold remove_one. by destruct (any_mapping _ _). Qed.

Lemma remove_one_pages address_space page m s p :
  (remove_one address_space page m s).(pages) !! p =
    if (p =? m.(physical_page)) && negb (any_mapping (set_mappings (delete (address_space, page)) s) (fun c => c.(physical_page) =? m.(physical_page)))
    then None else s.(pages) !! p.
Proof using.
  unfold remove_one. destruct (any_mapping _ _); cbn [negb]; [by rewrite andb_false_r|]. rewrite andb_true_r. cbn [set_pages set_mappings pages].
  destruct (Z.eqb_spec p m.(physical_page)) as [->|]; [by rewrite lookup_delete_eq|by rewrite lookup_delete_ne by congruence].
Qed.

Lemma in_range_of_cons address_space page page_list key :
  in_range_of address_space (page :: page_list) key = bool_decide (key = (address_space, page)) || in_range_of address_space page_list key.
Proof using.
  destruct key as [sp q]. unfold in_range_of. cbn [fst snd]. destruct (Z.eqb_spec sp address_space) as [->|Hne]; cbn [andb].
  - destruct (decide (q = page)) as [->|Hq].
    + by rewrite !bool_decide_eq_true_2 by set_solver.
    + rewrite (bool_decide_eq_false_2 ((address_space, q) = _)) by congruence. cbn [orb]. apply bool_decide_ext. set_solver.
  - by rewrite bool_decide_eq_false_2 by congruence.
Qed.

Lemma removed_step (s : Mem) address_space page page_list m ms ps :
  s.(mappings) !! (address_space, page) = Some m -> page ∉ page_list ->
  removed (remove_one address_space page m s) address_space page_list ms ps ->
  removed s address_space (page :: page_list) ms ps.
Proof using.
  intros Hm Hni [Hms Hkept Hsub Hother Hgone]. rewrite remove_one_mappings in Hms.
  assert (Hms' : forall key, ms !! key = if in_range_of address_space (page :: page_list) key then None else s.(mappings) !! key).
  { intros key. rewrite Hms, in_range_of_cons. case_bool_decide as Hk; cbn [orb].
    - subst key. rewrite lookup_delete_eq. by destruct (in_range_of _ _ _).
    - by rewrite lookup_delete_ne by congruence. }
  assert (Hany : forall key m', ms !! key = Some m' -> m'.(physical_page) = m.(physical_page) ->
    any_mapping (set_mappings (delete (address_space, page)) s) (fun c => c.(physical_page) =? m.(physical_page)) = true).
  { intros key m' Hk Hp. apply any_mapping_spec. exists key, m'. split; [|by apply Z.eqb_eq]. cbn [set_mappings mappings].
    rewrite Hms in Hk. by destruct (in_range_of _ _ _). }
  split; [exact Hms'| | | |].
  - intros key m' Hk. rewrite (Hkept key m' Hk), remove_one_pages.
    destruct (Z.eqb_spec m'.(physical_page) m.(physical_page)) as [Hp|]; [|done]. by rewrite (Hany key m' Hk Hp).
  - intros p pg Hp. apply Hsub in Hp. rewrite remove_one_pages in Hp. by destruct (_ && _).
  - intros p Hno. rewrite Hother.
    + rewrite remove_one_pages. destruct (Z.eqb_spec p m.(physical_page)) as [->|]; [|done]. by destruct (Hno page m ltac:(set_solver) Hm).
    + intros q m' Hq Hm'. rewrite remove_one_mappings, lookup_delete_ne in Hm' by congruence. apply (Hno q); [set_solver|done].
  - intros q m' Hq Hm' Hlast. destruct (decide (q = page)) as [->|Hne].
    + rewrite Hm in Hm'. injection Hm' as <-.
      destruct (any_mapping (set_mappings (delete (address_space, page)) s) (fun c => c.(physical_page) =? m.(physical_page))) eqn:Ha.
      * apply any_mapping_spec in Ha as (key & m' & Hk & Hp%Z.eqb_eq). cbn [set_mappings mappings] in Hk.
        destruct (in_range_of address_space page_list key) eqn:Hin.
        -- destruct key as [sp q]. unfold in_range_of in Hin. cbn [fst snd] in Hin. rewrite andb_true_iff, Z.eqb_eq, bool_decide_eq_true in Hin.
           destruct Hin as [-> Hq']. rewrite <- Hp. apply (Hgone q m' Hq'); [by rewrite remove_one_mappings|]. by rewrite Hp.
        -- destruct (Hlast key m'); [|done]. by rewrite Hms, Hin.
      * assert (Hnone : (remove_one address_space page m s).(pages) !! m.(physical_page) = None) by (rewrite remove_one_pages, Z.eqb_refl, Ha; done).
        rewrite Hother; [done|]. intros q m' Hq' Hm' Hp. rewrite remove_one_mappings in Hm'.
        apply not_true_iff_false in Ha. apply Ha, any_mapping_spec. exists (address_space, q), m'. split; [done|by apply Z.eqb_eq].
    + apply (Hgone q m'); [set_solver| |done]. rewrite remove_one_mappings. by rewrite lookup_delete_ne by congruence.
Qed.

Lemma wp_remove_pages {E} address_space (R : E -> Mem -> Prop) page_list : forall (Q : unit -> Mem -> Prop) s,
  NoDup page_list -> (forall page, page ∈ page_list -> is_Some (s.(mappings) !! (address_space, page))) ->
  (forall ms ps, removed s address_space page_list ms ps -> Q tt (set_pages (fun _ => ps) (set_mappings (fun _ => ms) s))) ->
  wp (remove_pages address_space page_list) Q R s.
Proof using.
  induction page_list as [|page page_list IH]; intros Q s Hnd Hall HQ; cbn [remove_pages].
  - replace s with (set_pages (fun _ => s.(pages)) (set_mappings (fun _ => s.(mappings)) s)) by by destruct s. apply wp_ret, HQ.
    split; try done; try set_solver. intros key. unfold in_range_of. rewrite bool_decide_eq_false_2 by set_solver. by rewrite andb_false_r.
  - apply NoDup_cons in Hnd as [Hni Hnd]. destruct (Hall page ltac:(set_solver)) as [m Hm].
    apply wp_bind, wp_get, wp_bind. eapply wp_expect; [exact Hm|]. apply wp_bind, wp_modify, wp_bind, wp_get, wp_bind.
    assert (Hgoal : wp (remove_pages address_space page_list) Q R (remove_one address_space page m s)).
    { apply IH; [done| |].
      - intros q Hq. rewrite remove_one_mappings, lookup_delete_ne by (intros [=]; by subst). apply Hall. set_solver.
      - intros ms ps Hr. pose proof (HQ ms ps (removed_step s address_space page page_list m ms ps Hm Hni Hr)) as Hq.
        revert Hq. unfold remove_one. by destruct (any_mapping _ _). }
    unfold remove_one in Hgoal. by destruct (any_mapping _ _).
Qed.

(** ** Fresh pages *)

(** Identities handed out between [next] and [next']: increasing and unused. *)
Fixpoint fresh_ids (s : Mem) (next : Z) (ids : list Z) (next' : Z) : Prop :=
  match ids with
  | [] => next = next'
  | id :: ids => next <= id /\ s.(pages) !! id = None /\ fresh_ids s (id + 1) ids next'
  end.

Lemma fresh_ids_in s ids : forall next next' id, fresh_ids s next ids next' -> id ∈ ids -> next <= id < next' /\ s.(pages) !! id = None.
Proof using.
  induction ids as [|i ids IH]; intros next next' id Hf Hin; [set_solver|]. destruct Hf as (Hle & Hn & Hf).
  assert (Hmono : forall l n n', fresh_ids s n l n' -> n <= n') by (intros l; induction l as [|j l IHl]; cbn; intros n n'; [lia|intros (? & _ & Hl); apply IHl in Hl; lia]).
  apply elem_of_cons in Hin as [->|Hin].
  - pose proof (Hmono _ _ _ Hf). split; [lia|done].
  - destruct (IH _ _ _ Hf Hin). split; [lia|done].
Qed.

Lemma fresh_ids_nodup s ids : forall next next', fresh_ids s next ids next' -> NoDup ids.
Proof using.
  induction ids as [|i ids IH]; intros next next' Hf; [constructor|]. destruct Hf as (_ & _ & Hf). constructor; [|by eapply IH].
  intros Hin. destruct (fresh_ids_in _ _ _ _ _ Hf Hin). lia.
Qed.

(** One allocation against the pages of the memory. *)
Lemma allocate_fresh s next :
  in_range 64 next ->
  match allocate_page_id next (fun page => bool_decide (is_Some (s.(pages) !! page))) with
  | inl _ => False
  | inr (None, _) => True
  | inr (Some id, next') => next <= id /\ (s : Mem).(pages) !! id = None /\ next' = id + 1 /\ in_range 64 next'
  end.
Proof using.
  intros Hn. destruct (allocate_page_id_outcome next (fun page => bool_decide (is_Some (s.(pages) !! page))) Hn) as (r & next' & -> & Hr & _ & Hcase).
  destruct r as [id|]; [|done]. destruct Hcase as (-> & Hle & He & _). apply bool_decide_eq_false in He. apply eq_None_not_Some in He. done.
Qed.

Lemma allocate_zeroed_outcome s error page_list : forall next, in_range 64 next ->
  match allocate_zeroed s error page_list next with
  | Ok (pending, next') => pending.*1 = page_list /\ fresh_ids s next (pending.*2) next' /\ in_range 64 next'
  | Err e => e = error
  | Panic => False
  end.
Proof using.
  induction page_list as [|page page_list IH]; intros next Hn; cbn [allocate_zeroed]; [done|].
  pose proof (allocate_fresh s next Hn) as Ha. destruct (allocate_page_id _ _) as [|[[id|] next1]]; [done| |done].
  destruct Ha as (Hle & Hnone & -> & Hr). specialize (IH _ Hr). destruct (allocate_zeroed _ _ _ _) as [[pending next']|e|]; [|done..].
  destruct IH as (H1 & H2 & H3). cbn. by rewrite H1.
Qed.

(** The state after fresh zeroed pages were mapped. *)
Record grown (s : Mem) (address_space new_permissions : Z) (new_purpose : MemoryMappingPurpose) (pending : list (Z * Z))
    (ms : gmap (Z * Z) Mapping) (ps : gmap Z (PhysicalPage Dev)) : Prop := {
  gr_mapping page id : (page, id) ∈ pending -> exists g, ms !! (address_space, page) = Some (mkMapping id g new_permissions new_purpose ATTR_NONE);
  gr_page page id : (page, id) ∈ pending -> ps !! id = Some (RamPage None 1);
  gr_frame key : in_range_of address_space (pending.*1) key = false -> ms !! key = s.(mappings) !! key;
  gr_old p : p ∉ pending.*2 -> ps !! p = s.(pages) !! p
}.

Lemma wp_map_zeroed {E} address_space g new_permissions new_purpose (R : E -> Mem -> Prop) pending : forall (Q : unit -> Mem -> Prop) s,
  NoDup (pending.*1) -> NoDup (pending.*2) ->
  (forall ms ps, grown s address_space new_permissions new_purpose pending ms ps ->
     Q tt (set_pages (fun _ => ps) (set_mappings (fun _ => ms) s))) ->
  wp (map_zeroed address_space g new_permissions new_purpose pending) Q R s.
Proof using.
  induction pending as [|[page id] pending IH]; intros Q s Hn1 Hn2 HQ; cbn [map_zeroed].
  - replace s with (set_pages (fun _ => s.(pages)) (set_mappings (fun _ => s.(mappings)) s)) by by destruct s. apply wp_ret, HQ.
    split; try set_solver; done.
  - cbn [fmap list_fmap] in Hn1, Hn2. apply NoDup_cons in Hn1 as [Hp Hn1]. apply NoDup_cons in Hn2 as [Hi Hn2].
    apply wp_bind, wp_modify, wp_bind, wp_modify. apply IH; [done|done|]. intros ms ps [Hm Hpg Hfr Hold].
    cbn [set_mappings set_pages mappings pages] in *. apply HQ. split.
    + intros page' id' [[= -> ->]|Hin]%elem_of_cons; [|by apply Hm]. exists g. rewrite Hfr; [by rewrite lookup_insert_eq|].
      unfold in_range_of. cbn [fst snd]. by rewrite bool_decide_eq_false_2, andb_false_r by done.
    + intros page' id' [[= -> ->]|Hin]%elem_of_cons; [|by eapply Hpg]. rewrite Hold by done. by rewrite lookup_insert_eq.
    + intros key Hk. cbn [fmap list_fmap fst snd] in Hk. rewrite in_range_of_cons in Hk. apply orb_false_iff in Hk as [Hk1 Hk2].
      apply bool_decide_eq_false in Hk1. rewrite Hfr by done. by rewrite lookup_insert_ne by congruence.
    + intros p Hnp. cbn [fmap list_fmap fst snd] in Hnp. apply not_elem_of_cons in Hnp as [Hne Hnp]. rewrite Hold by done.
      by rewrite lookup_insert_ne by congruence.
Qed.

(** The invariant after a change of both tables. *)
Lemma tables_ok (s : Mem) ms ps :
  synthetic_ok s ->
  (forall p pg, ps !! p = Some pg -> s.(pages) !! p = Some pg \/ page_ok pg) ->
  (forall key m, ms !! key = Some m -> is_Some (ps !! m.(physical_page)) /\ attributes_known m.(attributes)) ->
  synthetic_ok (set_pages (fun _ => ps) (set_mappings (fun _ => ms) s)).
Proof using.
  intros Hs Hps Hms. split; cbn [set_pages set_mappings pages mappings next_page_id invalidations].
  - intros p pg Hp. destruct (Hps p pg Hp) as [Hold|]; [by eapply syn_pages|done].
  - intros key m Hm. by apply Hms in Hm as [].
  - intros key m Hm. by apply Hms in Hm as [].
  - apply Hs.
  - apply Hs.
Qed.

Lemma set_next_page_id_ok (s : Mem) n : synthetic_ok s -> in_range 64 n -> synthetic_ok (set_next_page_id n s).
Proof using. by intros []. Qed.

(** What a completed resize did: the pages beyond the new end are gone, or the
    pages from the old end are fresh and zero. *)
Definition resized (s s' : Mem) (address_space new_permissions : Z) (new_purpose : MemoryMappingPurpose) (old_end new_end : Z) : Prop :=
  if new_end <? old_end then removed s address_space (seqZ new_end (old_end - new_end)) s'.(mappings) s'.(pages)
  else exists pending, pending.*1 = seqZ old_end (new_end - old_end) /\ NoDup (pending.*2) /\
    (forall id, id ∈ pending.*2 -> s.(pages) !! id = None) /\
    grown s address_space new_permissions new_purpose pending s'.(mappings) s'.(pages).

Lemma resize_outcome s address_space start old_size new_size new_permissions new_purpose :
  synthetic_ok s -> 0 <= new_size ->
  wp (resize_zeroed_mapping address_space start old_size new_size new_permissions new_purpose)
    (fun _ s' => synthetic_ok s' /\ exists old_range new_range,
       PageRange_new start old_size = Some old_range /\ PageRange_new start new_size = Some new_range /\
       writable_executable new_permissions = false /\
       (forall page, page ∈ range_pages old_range ->
          exists m, s.(mappings) !! (address_space, page) = Some m /\ m.(purpose) = new_purpose /\ m.(permissions) = new_permissions) /\
       (forall page, page ∈ seqZ old_range.(range_end) (new_range.(range_end) - old_range.(range_end)) -> s.(mappings) !! (address_space, page) = None) /\
       resized s s' address_space new_permissions new_purpose old_range.(range_end) new_range.(range_end))
    (fun _ s' => s' = s) s.
Proof using.
  intros Hs Hsz. unfold resize_zeroed_mapping, resized.
  destruct (PageRange_new start old_size) as [r1|] eqn:Hr1; [|done]. destruct (PageRange_new start new_size) as [r2|] eqn:Hr2; [|done].
  apply wp_bind, wp_guard; [done|]. intros Hwx. apply wp_bind, wp_get, wp_bind, wp_check_pages; [|intros Hold|done].
  { intros page. unfold check_resized, mapping_error. by repeat case_match. }
  apply wp_bind, wp_check_pages; [|intros Hnew|done].
  { intros page. unfold check_vacant, mapping_error. by case_match. }
  assert (Hold' : forall page, page ∈ range_pages r1 ->
    exists m, s.(mappings) !! (address_space, page) = Some m /\ m.(purpose) = new_purpose /\ m.(permissions) = new_permissions).
  { intros page Hp. specialize (Hold page Hp). unfold check_resized in Hold. destruct (s.(mappings) !! _) as [m|]; [|done].
    case_bool_decide; cbn [negb orb] in Hold; [|done]. destruct (Z.eqb_spec m.(permissions) new_permissions); [|done]. eauto. }
  assert (Hnew' : forall page, page ∈ seqZ r1.(range_end) (r2.(range_end) - r1.(range_end)) -> s.(mappings) !! (address_space, page) = None).
  { intros page Hp. specialize (Hnew page Hp). unfold check_vacant, mapped in Hnew. case_bool_decide as Hi; [done|]. by apply eq_None_not_Some. }
  assert (Hfirst : r1.(range_first) <= r2.(range_end)).
  { apply PageRange_new_some in Hr1 as (_ & _ & _ & ->). apply PageRange_new_some in Hr2 as (_ & _ & _ & ->). cbn.
    pose proof (Z.div_pos new_size 4096 ltac:(lia) ltac:(lia)). lia. }
  destruct (Z.ltb_spec r2.(range_end) r1.(range_end)) as [Hlt|Hge].
  - apply wp_bind, wp_reserve_one; [|done]. intros record Hres. apply wp_bind, wp_remove_pages; [apply NoDup_seqZ| |].
    { intros page Hp%elem_of_seqZ. destruct (Hold' page) as (m & Hm & _); [|eauto]. apply elem_of_seqZ. lia. }
    intros ms ps Hrm. apply wp_modify. split; [|exists r1, r2; rewrite (proj2 (Z.ltb_lt _ _)) by done; done].
    apply set_invalidations_ok; [|eapply log_ok_commit; [apply Hs|exact Hres]]. apply tables_ok; [done| |].
    + intros p pg Hp. left. by apply (rm_sub _ _ _ _ _ Hrm).
    + intros key m Hm. rewrite (rm_kept _ _ _ _ _ Hrm key m Hm). rewrite (rm_mappings _ _ _ _ _ Hrm) in Hm.
      destruct (in_range_of _ _ _); [done|]. split; [by eapply syn_mapped|by eapply syn_attributes].
  - destruct (Z.eqb_spec r2.(range_end) r1.(range_end)) as [Heq|Hne].
    { apply wp_ret. split; [done|]. exists r1, r2. rewrite (proj2 (Z.ltb_ge _ _)) by done. repeat (split; [done|]).
      exists []. rewrite Heq, Z.sub_diag. split; [done|]. split; [constructor|]. split; [set_solver|]. split; try set_solver; done. }
    pose proof (allocate_zeroed_outcome s (mkMemoryError address_space start MappingResourceExhausted)
      (seqZ r1.(range_end) (r2.(range_end) - r1.(range_end))) s.(next_page_id) ltac:(apply Hs)) as Halloc.
    apply wp_bind, wp_lift_total; [by destruct (allocate_zeroed _ _ _ _)| |done]. intros [pending next] Hpend. rewrite Hpend in Halloc.
    destruct Halloc as (Hp1 & Hfresh & Hnext).
    apply wp_bind, wp_reserve_one; [|done]. intros record Hres. apply wp_bind, wp_take_generation; [done|]. intros g gnext.
    apply wp_bind, wp_map_zeroed; [rewrite Hp1; apply NoDup_seqZ|by eapply fresh_ids_nodup|]. intros ms ps Hgr.
    assert (Hgr' : grown s address_space new_permissions new_purpose pending ms ps) by (destruct Hgr; by split).
    assert (Hfr : forall id, id ∈ pending.*2 -> s.(pages) !! id = None) by (intros id Hid; by destruct (fresh_ids_in _ _ _ _ _ Hfresh Hid)).
    apply wp_bind, wp_modify, wp_modify. split.
    + apply set_invalidations_ok; [|eapply log_ok_commit; [apply Hs|exact Hres]]. apply set_next_page_id_ok; [|done].
      apply tables_ok; [by apply generation_state_ok|..]; cbn [set_next_mapping_generation pages].
      * intros p pg Hp. destruct (decide (p ∈ pending.*2)) as [Hin|Hin].
        -- right. apply list_elem_of_fmap in Hin as ([page id] & -> & Hin). cbn [snd] in Hp. rewrite (gr_page _ _ _ _ _ _ _ Hgr' _ _ Hin) in Hp.
           injection Hp as <-. split; [apply zero_page_ok|split; lia].
        -- left. by rewrite (gr_old _ _ _ _ _ _ _ Hgr' p Hin) in Hp.
      * intros [sp q] m Hm. destruct (in_range_of address_space (pending.*1) (sp, q)) eqn:Hin.
        -- unfold in_range_of in Hin. cbn [fst snd] in Hin. rewrite andb_true_iff, Z.eqb_eq, bool_decide_eq_true in Hin.
           destruct Hin as [-> ([page id] & -> & Hin)%list_elem_of_fmap]. cbn [fst] in Hm.
           destruct (gr_mapping _ _ _ _ _ _ _ Hgr' _ _ Hin) as [g' Hg']. rewrite Hg' in Hm. injection Hm as <-.
           cbn [physical_page attributes]. rewrite (gr_page _ _ _ _ _ _ _ Hgr' _ _ Hin). split; [eauto|done].
        -- rewrite (gr_frame _ _ _ _ _ _ _ Hgr' _ Hin) in Hm. split; [|by eapply syn_attributes].
           destruct (syn_mapped s Hs _ _ Hm) as [pg Hpg]. rewrite (gr_old _ _ _ _ _ _ _ Hgr'); [eauto|].
           intros Hid%Hfr. congruence.
    + exists r1, r2. rewrite (proj2 (Z.ltb_ge _ _)) by done. repeat (split; [done|]). exists pending.
      split; [done|]. split; [by eapply fresh_ids_nodup|]. split; [done|]. exact Hgr'.
Qed.

(** ** Installation *)

Notation Pending := (Z * Z * Z * list Z)%type.
Definition pending_page (x : Pending) : Z := x.1.1.1.
Definition pending_id (x : Pending) : Z := x.1.1.2.

(** A request the preflight accepted for a virtual page. *)
Definition request_ok (s : Mem) (address_space : Z) (request : SyntheticRamPage) (page : Z) : Prop :=
  request.(rp_virtual_address) = page_address page /\ Z.of_nat (length request.(rp_bytes)) = SYNTHETIC_PAGE_SIZE /\
  s.(mappings) !! (address_space, page) = None.

Lemma fail_install_total s stage index address : fail_install_if_requested (Dev := Dev) s stage index address <> Panic.
Proof using. unfold fail_install_if_requested. by repeat case_match. Qed.

Lemma validate_total request unique : validate_install_request request unique <> Panic.
Proof using. unfold validate_install_request. by repeat case_match. Qed.

Lemma validate_ok request unique page unique' :
  validate_install_request request unique = Ok (page, unique') ->
  request.(rp_virtual_address) = page_address page /\ Z.of_nat (length request.(rp_bytes)) = SYNTHETIC_PAGE_SIZE /\
  page ∉ unique /\ unique' = {[page]} ∪ unique.
Proof using.
  unfold validate_install_request. rewrite page_aligned.
  destruct (Z.eqb_spec (page_offset request.(rp_virtual_address)) 0) as [Ho|]; cbn [negb]; [|done].
  destruct (Z.eqb_spec (Z.of_nat (length request.(rp_bytes))) SYNTHETIC_PAGE_SIZE); cbn [negb]; [|done].
  case_bool_decide; [done|]. case_bool_decide; [done|]. intros [= <- <-]. split; [|done].
  rewrite (page_split request.(rp_virtual_address)) at 1. rewrite Ho. unfold page_address, PAGE_SIZE, SYNTHETIC_PAGE_SIZE. lia.
Qed.

Lemma install_preflight_outcome s address_space requests : forall index unique,
  match install_preflight s address_space index requests unique with
  | Ok page_list => Forall2 (request_ok s address_space) requests page_list /\ NoDup page_list /\ Forall (fun q => q ∉ unique) page_list
  | Err _ => True
  | Panic => False
  end.
Proof using.
  induction requests as [|request requests IH]; intros index unique; cbn [install_preflight].
  { split; [constructor|]. split; constructor. }
  pose proof (fail_install_total s Preflight index request.(rp_virtual_address)) as Hf.
  destruct (fail_install_if_requested _ _ _ _) as [[]|e|]; cbn [result_bind]; [|done|done].
  pose proof (validate_total request unique) as Hv.
  destruct (validate_install_request request unique) as [[page unique']|e|] eqn:Hval; cbn [result_bind]; [|done|done].
  apply validate_ok in Hval as (Ha & Hl & Hu & ->). case_bool_decide as Hm; [done|]. specialize (IH (index + 1) ({[page]} ∪ unique)).
  destruct (install_preflight _ _ _ _ _) as [page_list|e|]; cbn [result_bind]; [|done|done]. destruct IH as (H1 & H2 & H3).
  assert (Hni : page ∉ page_list) by (intros Hin; rewrite Forall_forall in H3; specialize (H3 _ Hin); set_solver).
  split; [constructor; [split; [done|]; split; [done|by apply eq_None_not_Some]|done]|]. split; [by constructor|].
  constructor; [done|]. eapply Forall_impl; [exact H3|]. intros q. set_solver.
Qed.

(** A pending page made from an accepted request. *)
Definition pending_for (request : SyntheticRamPage) (page : Z) (x : Pending) : Prop :=
  exists id, x = (page, id, request.(rp_permissions), request.(rp_bytes)).

Lemma install_allocate_outcome s requests page_list : forall index next, in_range 64 next ->
  Forall (fun request => Z.of_nat (length request.(rp_bytes)) = SYNTHETIC_PAGE_SIZE) requests ->
  length page_list = length requests ->
  match install_allocate s index (combine requests page_list) next with
  | Ok (pending, next') => Forall2 (fun rp x => pending_for rp.1 rp.2 x) (combine requests page_list) pending /\
      fresh_ids s next (pending_id <$> pending) next' /\ in_range 64 next' /\ (pending_page <$> pending) = page_list
  | Err _ => True
  | Panic => False
  end.
Proof using.
  revert page_list. induction requests as [|request requests IH]; intros [|page page_list] index next Hn Hall Hlen; try done.
  cbn [combine install_allocate]. apply Forall_cons_1 in Hall as [Hl Hall].
  pose proof (fail_install_total s Allocation index request.(rp_virtual_address)) as Hf.
  destruct (fail_install_if_requested s Allocation _ _) as [[]|e|]; cbn [result_bind]; [|done|done].
  pose proof (allocate_fresh s next Hn) as Ha. destruct (allocate_page_id _ _) as [|[[id|] next1]]; [done| |done].
  destruct Ha as (Hle & Hnone & -> & Hr).
  pose proof (fail_install_total s Initialization index request.(rp_virtual_address)) as Hf'.
  destruct (fail_install_if_requested s Initialization _ _) as [[]|e|]; cbn [result_bind]; [|done|done].
  rewrite (proj2 (Z.eqb_eq _ _)) by done. cbn [negb]. specialize (IH page_list (index + 1) _ Hr Hall ltac:(cbn in Hlen; lia)).
  destruct (install_allocate _ _ _ _) as [[pending next']|e|]; cbn [result_bind]; [|done|done]. destruct IH as (H1 & H2 & H3 & H4).
  split; [constructor; [by exists id|done]|]. cbn. by rewrite H4.
Qed.

(** The tables after installation. *)
Record installed (s : Mem) (address_space : Z) (pending : list Pending) (ms : gmap (Z * Z) Mapping) (ps : gmap Z (PhysicalPage Dev)) : Prop := {
  in_entry page id perm contents : (page, id, perm, contents) ∈ pending ->
    (exists g, ms !! (address_space, page) = Some (mkMapping id g perm PurposeNormal ATTR_NONE)) /\ ps !! id = Some (RamPage (Some contents) 1);
  in_frame key : in_range_of address_space (pending_page <$> pending) key = false -> ms !! key = s.(mappings) !! key;
  in_old p : p ∉ (pending_id <$> pending) -> ps !! p = s.(pages) !! p
}.

Lemma wp_install_publish {E} address_space g (R : E -> Mem -> Prop) pending : forall (Q : unit -> Mem -> Prop) s,
  NoDup (pending_page <$> pending) -> NoDup (pending_id <$> pending) ->
  (forall x, x ∈ pending -> s.(mappings) !! (address_space, pending_page x) = None /\ s.(pages) !! pending_id x = None) ->
  (forall ms ps, installed s address_space pending ms ps -> Q tt (set_pages (fun _ => ps) (set_mappings (fun _ => ms) s))) ->
  wp (install_publish address_space g pending) Q R s.
Proof using.
  induction pending as [|[[[page id] perm] contents] pending IH]; intros Q s Hn1 Hn2 Hall HQ; cbn [install_publish].
  - replace s with (set_pages (fun _ => s.(pages)) (set_mappings (fun _ => s.(mappings)) s)) by by destruct s. apply wp_ret, HQ.
    split; try set_solver; done.
  - cbn [fmap list_fmap] in Hn1, Hn2. apply NoDup_cons in Hn1 as [Hp Hn1]. apply NoDup_cons in Hn2 as [Hi Hn2].
    unfold pending_page at 1 in Hp. unfold pending_id at 1 in Hi. cbn [fst snd] in Hp, Hi.
    destruct (Hall (page, id, perm, contents) ltac:(by left)) as [Hm Hpg]. unfold pending_page, pending_id in Hm, Hpg. cbn [fst snd] in Hm, Hpg.
    apply wp_bind, wp_get, wp_bind, wp_modify, wp_bind, wp_modify.
    apply wp_bind, wp_debug_assert; [by apply bool_decide_eq_true|]. apply wp_bind, wp_debug_assert; [by apply bool_decide_eq_true|].
    apply IH; [done|done| |].
    + intros x Hx. destruct (Hall x ltac:(by right)) as [H1 H2]. cbn [set_mappings set_pages mappings pages].
      rewrite !lookup_insert_ne; [done| |].
      * intros ->. apply Hi. by apply list_elem_of_fmap_2.
      * intros [= ->]. apply Hp. by apply list_elem_of_fmap_2.
    + intros ms ps [Hent Hfr Hold]. cbn [set_mappings set_pages mappings pages] in *. apply HQ. split.
      * intros page' id' perm' c' [[= -> -> -> ->]|Hin]%elem_of_cons; [|by eapply Hent]. split.
        -- exists g. rewrite Hfr; [by rewrite lookup_insert_eq|]. unfold in_range_of. cbn [fst snd].
           by rewrite bool_decide_eq_false_2, andb_false_r by done.
        -- rewrite Hold by done. by rewrite lookup_insert_eq.
      * intros key Hk. cbn [fmap list_fmap] in Hk. rewrite in_range_of_cons in Hk. apply orb_false_iff in Hk as [Hk1 Hk2].
        apply bool_decide_eq_false in Hk1. rewrite Hfr by done. by rewrite lookup_insert_ne by (unfold pending_page in Hk1; cbn in Hk1; congruence).
      * intros p Hnp. cbn [fmap list_fmap] in Hnp. apply not_elem_of_cons in Hnp as [Hne Hnp]. rewrite Hold by done.
        by rewrite lookup_insert_ne by (unfold pending_id in Hne; cbn in Hne; congruence).
Qed.

Lemma wp_install_publication s requests (Q : unit -> Mem -> Prop) (R : SyntheticInstallError -> Mem -> Prop) (s0 : Mem) index :
  Q tt s -> (forall e, R e s) -> wp (lift (install_publication s0 index requests)) Q R s.
Proof using.
  intros HQ HR. apply wp_lift_total; [|by intros []|done]. revert index. induction requests as [|request requests IH]; intros index; [done|].
  cbn [install_publication]. pose proof (fail_install_total s0 Publication index request.(rp_virtual_address)) as Hf.
  destruct (fail_install_if_requested _ _ _ _) as [[]|e|]; cbn [result_bind]; [apply IH|done|done].
Qed.

Lemma installed_ok s address_space pending ms ps :
  synthetic_ok s -> installed s address_space pending ms ps ->
  (forall x, x ∈ pending -> page_bytes_ok x.2) -> (forall id, id ∈ (pending_id <$> pending) -> s.(pages) !! id = None) ->
  synthetic_ok (set_pages (fun _ => ps) (set_mappings (fun _ => ms) s)).
Proof using.
  intros Hs Hin Hbytes Hfr. apply tables_ok; [done|..].
  - intros p pg Hp. destruct (decide (p ∈ (pending_id <$> pending))) as [Hi|Hi].
    + right. apply list_elem_of_fmap in Hi as ([[[page id] perm] contents] & -> & Hx). unfold pending_id in Hp. cbn [fst snd] in Hp.
      destruct (in_entry _ _ _ _ _ Hin _ _ _ _ Hx) as [_ He]. rewrite He in Hp. injection Hp as <-.
      split; [exact (Hbytes _ Hx)|split; lia].
    + left. by rewrite (in_old _ _ _ _ _ Hin p Hi) in Hp.
  - intros [sp q] m Hm. destruct (in_range_of address_space (pending_page <$> pending) (sp, q)) eqn:Hr.
    + unfold in_range_of in Hr. cbn [fst snd] in Hr. rewrite andb_true_iff, Z.eqb_eq, bool_decide_eq_true in Hr.
      destruct Hr as [-> ([[[page id] perm] contents] & -> & Hx)%list_elem_of_fmap]. unfold pending_page in Hm. cbn [fst snd] in Hm.
      destruct (in_entry _ _ _ _ _ Hin _ _ _ _ Hx) as [[g Hg] He]. rewrite Hg in Hm. injection Hm as <-.
      cbn [physical_page attributes]. rewrite He. split; [eauto|done].
    + rewrite (in_frame _ _ _ _ _ Hin _ Hr) in Hm. split; [|by eapply syn_attributes].
      destruct (syn_mapped s Hs _ _ Hm) as [pg Hpg]. rewrite (in_old _ _ _ _ _ Hin); [eauto|]. intros Hid%Hfr. congruence.
Qed.

(** What a completed installation did. *)
Definition install_effect (s : Mem) (address_space : Z) (requests : list SyntheticRamPage) (s' : Mem) : Prop :=
  synthetic_ok s' /\ exists page_list pending, Forall2 (request_ok s address_space) requests page_list /\ NoDup page_list /\
    Forall2 (fun rp x => pending_for rp.1 rp.2 x) (combine requests page_list) pending /\
    (forall id, id ∈ (pending_id <$> pending) -> s.(pages) !! id = None) /\
    installed s address_space pending s'.(mappings) s'.(pages).

(** The publication of validated and allocated pages. *)
Section Publish.
Context (s : Mem) (address_space next : Z) (requests : list SyntheticRamPage) (page_list : list Z) (pending : list Pending).
Context (Hs : synthetic_ok s) (Hreq : Forall2 (request_ok s address_space) requests page_list) (Hnd : NoDup page_list).
Context (Hb : Forall (fun request => bytes_ok request.(rp_bytes)) requests) (Hroom : log_room s (Z.of_nat (length requests))).
Context (Hfor : Forall2 (fun rp x => pending_for rp.1 rp.2 x) (combine requests page_list) pending).
Context (Hfresh : fresh_ids s s.(next_page_id) (pending_id <$> pending) next) (Hnext : in_range 64 next).
Context (Hpages : (pending_page <$> pending) = page_list).

Lemma request_sizes : Forall (fun request => Z.of_nat (length request.(rp_bytes)) = SYNTHETIC_PAGE_SIZE) requests.
Proof using Hreq.
  apply Forall_forall. intros request Hin. destruct (list_elem_of_lookup_1 _ _ Hin) as [i Hi].
  destruct (Forall2_lookup_l _ _ _ _ _ Hreq Hi) as (page & _ & _ & Hl & _). done.
Qed.

Lemma pending_fresh id : id ∈ (pending_id <$> pending) -> s.(pages) !! id = None.
Proof using Hfresh. intros Hid. by destruct (fresh_ids_in _ _ _ _ _ Hfresh Hid). Qed.

Lemma pending_vacant x : x ∈ pending -> s.(mappings) !! (address_space, pending_page x) = None /\ s.(pages) !! pending_id x = None.
Proof using Hfresh Hpages Hreq.
  intros Hx. split; [|by apply pending_fresh, list_elem_of_fmap_2].
  assert (Hq : pending_page x ∈ page_list) by (rewrite <- Hpages; by apply list_elem_of_fmap_2).
  apply list_elem_of_lookup_1 in Hq as [i Hi]. destruct (Forall2_lookup_r _ _ _ _ _ Hreq Hi) as (r & _ & _ & _ & Hn). done.
Qed.

Lemma pending_bytes x : x ∈ pending -> page_bytes_ok x.2.
Proof using Hb Hfor Hreq.
  intros Hin. apply list_elem_of_lookup_1 in Hin as [i Hi]. destruct (Forall2_lookup_r _ _ _ _ _ Hfor Hi) as ([request page] & Hrp & id & ->).
  cbn [fst snd]. assert (Hrq : request ∈ requests) by (eapply elem_of_zip_l, list_elem_of_lookup_2, Hrp).
  pose proof request_sizes as Hsz. rewrite Forall_forall in Hb, Hsz. split; [by apply Hsz|by apply Hb].
Qed.

Lemma wp_install_end g gnext invalidation kinds :
  length kinds = length requests ->
  (match invalidation with Some batch => reserve_many_with_origin s.(invalidations) kinds None = Ok batch | None => True end) ->
  wp (do! install_publish address_space g pending in do! modify (set_next_page_id next) in
      match invalidation with Some batch => commit_kinds batch | None => ret tt end)
    (fun _ => install_effect s address_space requests) (fun (_ : SyntheticInstallError) s' => s' = s) (set_next_mapping_generation gnext s).
Proof using All.
  intros Hkl Hinv. apply wp_bind, wp_install_publish; [by rewrite Hpages|by eapply fresh_ids_nodup|exact pending_vacant|].
  intros ms ps Hin. assert (Hin' : installed s address_space pending ms ps) by (destruct Hin; by split).
  pose proof (set_next_page_id_ok _ next (installed_ok _ address_space pending ms ps (generation_state_ok s gnext Hs) Hin pending_bytes pending_fresh) Hnext) as Hok.
  pose proof pending_fresh as Hfr. apply wp_bind, wp_modify. destruct invalidation as [batch|].
  - eapply (wp_commit_kinds s.(invalidations) kinds); [apply Hs|unfold log_room in Hroom; by rewrite Hkl|exact Hinv|done|].
    intros log' Hlog. split; [by apply set_invalidations_ok|]. by exists page_list, pending.
  - apply wp_ret. split; [exact Hok|]. by exists page_list, pending.
Qed.
End Publish.

Lemma install_outcome s address_space requests :
  synthetic_ok s -> Forall (fun request => bytes_ok request.(rp_bytes)) requests -> log_room s (Z.of_nat (length requests)) ->
  wp (install_ram_pages_atomic address_space requests) (fun _ => install_effect s address_space requests) (fun _ s' => s' = s) s.
Proof using.
  intros Hs Hb Hroom. unfold install_ram_pages_atomic. apply wp_bind, wp_get.
  pose proof (install_preflight_outcome s address_space requests 0 ∅) as Hpre.
  apply wp_bind, wp_lift_total; [by destruct (install_preflight _ _ _ _ _)| |done]. intros page_list Hpl. rewrite Hpl in Hpre.
  destruct Hpre as (Hreq & Hnd & _). pose proof (Forall2_length _ _ _ Hreq) as Hlen.
  pose proof (install_allocate_outcome s requests page_list 0 s.(next_page_id) ltac:(apply Hs)
    (request_sizes s address_space requests page_list Hreq) ltac:(done)) as Hal.
  apply wp_bind, wp_lift_total; [by destruct (install_allocate _ _ _ _)| |done]. intros [pending next] Hpend. rewrite Hpend in Hal.
  destruct Hal as (Hfor & Hfresh & Hnext & Hpages). apply wp_bind, wp_install_publication; [|done].
  set (kinds := map _ page_list). assert (Hkl : length kinds = length requests) by (unfold kinds; by rewrite length_map).
  apply wp_bind.
  assert (Hgen : forall invalidation,
    (match invalidation with Some batch => reserve_many_with_origin s.(invalidations) kinds None = Ok batch | None => True end) ->
    wp (let! generation := if bool_decide (pending = []) then ret GENERATION_INITIAL
          else take_generation (install_error Allocation (option_map rp_virtual_address (head requests)) "mapping generations are exhausted"%string) in
        do! install_publish address_space generation pending in do! modify (set_next_page_id next) in
        match invalidation with Some batch => commit_kinds batch | None => ret tt end)
    (fun _ => install_effect s address_space requests) (fun (_ : SyntheticInstallError) s' => s' = s) s).
  { intros inval Hinv. apply wp_bind. case_bool_decide.
    - pose proof (wp_install_end s address_space next requests page_list pending Hs Hreq Hnd Hb Hroom Hfor Hfresh Hnext Hpages
        GENERATION_INITIAL s.(next_mapping_generation) inval kinds Hkl Hinv) as Hend.
      by destruct s.
    - apply wp_take_generation; [done|]. intros g gnext. by eapply wp_install_end. }
  destruct (bool_decide (kinds = [])); [apply wp_ret; by apply (Hgen None)|].
  apply wp_bind, wp_reserve_kinds; [|done]. intros batch Hres. apply wp_ret. by apply (Hgen (Some batch)).
Qed.
End Grow.

(** * Bulk copies of the synthetic backend

    [read_bytes] and [write_bytes]: the copy loops finish within their fuel, a
    bulk write validates the whole range before the first byte, and what it
    wrote is what a bulk read returns. *)

Section Bulk.
Context {Dev : Type} `{SyntheticMmio Dev} {dev_laws : SyntheticMmioLaws Dev}.
Notation Mem := (SyntheticMemory Dev).

(** The RAM page behind every byte of a range. *)
Definition ram_range (s : Mem) (address_space address count : Z) (P : Mapping -> Prop) : Prop :=
  forall i, 0 <= i < count -> exists m bytes g, mapping_at s address_space (address + i) = Some m /\ P m /\
    s.(pages) !! m.(physical_page) = Some (RamPage bytes g).

Lemma bulk_count_bounds current remaining :
  0 < remaining -> 0 < bulk_count current remaining <= remaining /\ page_offset current + bulk_count current remaining <= 4096.
Proof using. intros Hr. pose proof (page_offset_bound current) as Ho. unfold bulk_count, SYNTHETIC_PAGE_SIZE in *. lia. Qed.

Lemma bulk_page_wp address_space current kind required denied detail (Q : Z * (option (list Z) * Z) -> Mem -> Prop) (R : DataAccessFault -> Mem -> Prop) s :
  synthetic_ok s ->
  (forall m bytes g, mapping_at s address_space current = Some m -> permissions_contain m.(permissions) required = true ->
     s.(pages) !! m.(physical_page) = Some (RamPage bytes g) -> Q (m.(physical_page), (bytes, g)) s) ->
  (forall f, R f s) -> wp (bulk_page address_space current kind required denied detail) Q R s.
Proof using.
  intros Hs HQ HR. unfold bulk_page. apply wp_bind, wp_get, wp_bind, wp_ok_or; [intros _; apply HR|]. intros m Hm.
  apply wp_bind, wp_require; [intros _; apply HR|]. intros Hp.
  destruct (syn_mapped s Hs _ _ Hm) as [pg Hpg]. destruct (s.(pages) !! _) as [[bytes g|d]|] eqn:E; [by apply HQ|apply HR|done].
Qed.

(** The bytes of one page, seen through the mapping. *)
Lemma page_byte_at s address_space current m bytes g i :
  mapping_at (Dev := Dev) s address_space current = Some m -> s.(pages) !! m.(physical_page) = Some (RamPage bytes g) ->
  0 <= i -> page_offset current + i < 4096 ->
  byte_at s address_space (current + i) = ram_contents bytes !! Z.to_nat (page_offset current + i).
Proof using.
  intros Hm Hp Hi Ho. pose proof (page_offset_bound current).
  destruct (same_page current i ltac:(lia)) as [Hv Hpo]. unfold byte_at, locate, mapping_at in *. rewrite Hv, Hm, Hpo.
  cbn [option_map]. unfold phys_byte. by rewrite Hp.
Qed.

Lemma read_loop_outcome s address_space : synthetic_ok s -> forall fuel current remaining,
  0 <= remaining <= Z.of_nat fuel ->
  wp (read_loop fuel address_space current remaining)
    (fun bytes s' => s' = s /\ Z.of_nat (length bytes) = remaining /\
       forall i, 0 <= i < remaining -> bytes !! Z.to_nat i = byte_at s address_space (current + i))
    (fun _ s' => s' = s) s.
Proof using.
  intros Hs fuel. induction fuel as [|fuel IH]; intros current remaining Hr; cbn [read_loop]; destruct (Z.eqb_spec remaining 0) as [->|Hne];
    try (apply wp_ret; split; [done|split; [done|intros; lia]]); [lia|].
  destruct (bulk_count_bounds current remaining ltac:(lia)) as [Hc Hroom]. set (count := bulk_count current remaining) in *.
  apply wp_bind, bulk_page_wp; [done| |done]. intros m bytes g Hm _ Hp. cbn [fst snd].
  destruct (syn_pages s Hs _ _ Hp) as [Hok _]. pose proof (page_offset_bound current) as Ho.
  rewrite ram_slice_contents by (done || lia).
  destruct (slice (ram_contents bytes) (page_offset current) count) as [l|] eqn:Hl.
  2: { rewrite slice_some in Hl by (destruct Hok as [Hlen _]; unfold SYNTHETIC_PAGE_SIZE in Hlen; lia). done. }
  apply wp_bind. eapply wp_expect; [reflexivity|]. apply wp_bind. eapply wp_mono; [apply IH; lia| |done].
  intros rest s' (-> & Hlen & Hbytes). pose proof (slice_length _ _ _ _ Hl) as Hll. apply wp_ret. split; [done|].
  split; [rewrite length_app; lia|]. intros i Hi. destruct (Z.ltb_spec i count).
  - rewrite lookup_app_l by lia. rewrite (slice_lookup _ _ _ _ _ Hl) by lia. symmetry. eapply page_byte_at; [done|done|lia|lia].
  - rewrite lookup_app_r by lia. replace (Z.to_nat i - length l)%nat with (Z.to_nat (i - count)) by lia.
    rewrite Hbytes by lia. f_equal. lia.
Qed.

Lemma bulk_start_wp address_space address count kind (Q : Z -> Mem -> Prop) (R : DataAccessFault -> Mem -> Prop) s :
  (forall end_, Q end_ s) -> (forall f, R f s) -> wp (bulk_start address_space address count kind) Q R s.
Proof using.
  intros HQ HR. unfold bulk_start. apply wp_bind, wp_ok_or; [intros _; apply HR|]. intros end_ _. apply wp_bind, wp_get.
  destruct (first_injected _ _ _ _ _) as [[a reason]|]; [apply HR|apply HQ].
Qed.

Lemma read_bytes_outcome s address_space address count :
  synthetic_ok s -> 0 <= count ->
  wp (read_bytes address_space address count)
    (fun bytes s' => s' = s /\ Z.of_nat (length bytes) = count /\
       forall i, 0 <= i < count -> bytes !! Z.to_nat i = byte_at s address_space (address + i))
    (fun _ s' => s' = s) s.
Proof using.
  intros Hs Hc. unfold read_bytes. apply wp_bind, bulk_start_wp; [|done]. intros _. apply read_loop_outcome; [done|lia].
Qed.

(** ** Writing *)

(** The next generation of every page of a RAM range. *)
Definition generations_for (s : Mem) (generations : gmap Z Z) : Prop :=
  forall page next, generations !! page = Some next -> exists bytes g, s.(pages) !! page = Some (RamPage bytes g) /\
    next = g + 1 /\ next < 2 ^ 64.

Lemma write_validate_outcome s address_space : synthetic_ok s -> forall fuel current remaining generations,
  0 <= remaining <= Z.of_nat fuel -> generations_for s generations ->
  wp (write_validate fuel address_space current remaining generations)
    (fun generations' s' => s' = s /\ generations_for s generations' /\ generations ⊆ generations' /\
       ram_range s address_space current remaining (fun m => is_Some (generations' !! m.(physical_page))) /\
       Z.of_nat (size generations') <= Z.of_nat (size generations) + remaining /\
       forall page, is_Some (generations' !! page) -> is_Some (generations !! page) \/
         exists i m, 0 <= i < remaining /\ mapping_at s address_space (current + i) = Some m /\ m.(physical_page) = page)
    (fun _ s' => s' = s) s.
Proof using.
  intros Hs fuel. induction fuel as [|fuel IH]; intros current remaining gens Hr Hg; cbn [write_validate]; destruct (Z.eqb_spec remaining 0) as [->|Hne];
    try (apply wp_ret; repeat (split; [done|]); split; [intros i Hi; lia|split; [lia|by left]]); [lia|].
  destruct (bulk_count_bounds current remaining ltac:(lia)) as [Hc Hroom]. set (count := bulk_count current remaining) in *.
  apply wp_bind, bulk_page_wp; [done| |done]. intros m bytes g Hm _ Hp. cbn [fst snd]. apply wp_bind.
  assert (Hgoal : forall gens1, generations_for s gens1 -> gens ⊆ gens1 -> is_Some (gens1 !! m.(physical_page)) -> (size gens1 <= S (size gens))%nat ->
    (forall page, is_Some (gens1 !! page) -> is_Some (gens !! page) \/ page = m.(physical_page)) ->
    wp (write_validate fuel address_space (current + count) (remaining - count) gens1)
      (fun generations' s' => s' = s /\ generations_for s generations' /\ gens ⊆ generations' /\
       ram_range s address_space current remaining (fun m => is_Some (generations' !! m.(physical_page))) /\
       Z.of_nat (size generations') <= Z.of_nat (size gens) + remaining /\
       forall page, is_Some (generations' !! page) -> is_Some (gens !! page) \/
         exists i m, 0 <= i < remaining /\ mapping_at s address_space (current + i) = Some m /\ m.(physical_page) = page)
      (fun _ s' => s' = s) s).
  { intros gens1 Hg1 Hsub Hin Hsize Hnew. eapply wp_mono; [apply IH; [lia|done]| |done].
    intros gens2 s' (-> & Hg2 & Hsub2 & Hrange & Hsz & Hback). split; [done|]. split; [done|]. split; [by etrans|]. split; [|split; [lia|]].
    - intros i Hi. destruct (Z.ltb_spec i count).
      + exists m, bytes, g. pose proof (page_offset_bound current). destruct (same_page current i ltac:(lia)) as [Hv _].
        unfold mapping_at in *. rewrite Hv. split; [done|]. split; [|done]. destruct Hin as [n Hn]. exists n. by eapply lookup_weaken.
      + destruct (Hrange (i - count) ltac:(lia)) as (m' & b' & g' & Hm' & Hi' & Hp'). exists m', b', g'.
        replace (current + i) with (current + count + (i - count)) by lia. done.
    - intros page Hpage. destruct (Hback page Hpage) as [H1|(i & m' & Hi & Hm' & Hpg)].
      + destruct (Hnew page H1) as [| ->]; [by left|]. right. exists 0, m. rewrite Z.add_0_r. split; [lia|done].
      + right. exists (count + i), m'. replace (current + (count + i)) with (current + count + i) by lia. split; [lia|done]. }
  destruct (gens !! m.(physical_page)) as [n|] eqn:Hgm.
  - apply wp_ret. apply Hgoal; [done|done|by eexists|lia|by left].
  - apply wp_bind. apply wp_next_generation; [done|]. intros Hlt. apply wp_ret. apply Hgoal.
    + intros page next [[<- <-]|[_ Hn]]%lookup_insert_Some; [by exists bytes, g|by apply Hg].
    + by apply insert_subseteq.
    + rewrite lookup_insert_eq. by eexists.
    + by rewrite map_size_insert_None.
    + intros page [n [[<- _]|[_ Hn]]%lookup_insert_Some]; [by right|]. left. by eexists.
Qed.

(** Contents change, generations and everything else stay. *)
Record contents_changed (s s' : Mem) : Prop := {
  cc_state : s' = set_pages (fun _ => s'.(pages)) s;
  cc_page page : match s.(pages) !! page with
    | Some (RamPage bytes g) => exists bytes', s'.(pages) !! page = Some (RamPage bytes' g) /\ page_bytes_ok (ram_contents bytes')
    | other => s'.(pages) !! page = other
    end
}.

Lemma contents_changed_refl s : synthetic_ok s -> contents_changed s s.
Proof using.
  intros Hs. split; [by destruct s|]. intros page. destruct (s.(pages) !! page) as [[bytes g|d]|] eqn:Hp; [|done..].
  exists bytes. split; [done|]. by apply (syn_pages s Hs) in Hp as [].
Qed.

Lemma contents_changed_trans s1 s2 s3 : contents_changed s1 s2 -> contents_changed s2 s3 -> contents_changed s1 s3.
Proof using.
  intros [H1 H2] [H3 H4]. split.
  - rewrite H3 at 1. rewrite H1. done.
  - intros page. specialize (H2 page). specialize (H4 page). destruct (s1.(pages) !! page) as [[b g|d]|].
    + destruct H2 as (b' & E & _). by rewrite E in H4.
    + by rewrite H2 in H4.
    + by rewrite H2 in H4.
Qed.

Lemma contents_changed_ok s s' : synthetic_ok s -> contents_changed s s' -> synthetic_ok s'.
Proof using.
  intros Hs [H1 H2]. split; rewrite H1; cbn [set_pages pages mappings next_page_id invalidations]; [| |apply Hs..].
  - intros page p Hp. specialize (H2 page). destruct (s.(pages) !! page) as [[b g|d]|] eqn:E.
    + destruct H2 as (b' & E' & Hok). rewrite E' in Hp. injection Hp as <-. split; [done|]. by apply (syn_pages s Hs) in E as [].
    + rewrite H2 in Hp. injection Hp as <-. exact (syn_pages s Hs _ _ E).
    + congruence.
  - intros key m Hm. specialize (H2 m.(physical_page)). destruct (syn_mapped s Hs _ _ Hm) as [pg Hpg]. rewrite Hpg in H2.
    destruct pg as [b g|d]; [destruct H2 as (b' & -> & _); eauto|rewrite H2; eauto].
Qed.

Lemma contents_changed_locate s s' space a : contents_changed s s' -> locate s' space a = locate s space a.
Proof using. intros [H1 _]. by apply locate_state. Qed.

Lemma contents_changed_range s s' address_space address count P :
  contents_changed s s' -> ram_range s address_space address count P -> ram_range s' address_space address count P.
Proof using.
  intros [H1 H2] Hr i Hi. destruct (Hr i Hi) as (m & b & g & Hm & HP & Hp). specialize (H2 m.(physical_page)). rewrite Hp in H2.
  destruct H2 as (b' & Hb' & _). exists m, b', g. rewrite H1 at 1. done.
Qed.

(** The effect of one chunk of a bulk write. *)
Lemma wp_write_chunk {E} s address_space current m bytes g data (Q : unit -> Mem -> Prop) (R : E -> Mem -> Prop) :
  synthetic_ok s -> mapping_at s address_space current = Some m -> s.(pages) !! m.(physical_page) = Some (RamPage bytes g) ->
  bytes_ok data -> page_offset current + Z.of_nat (length data) <= 4096 ->
  (forall s', contents_changed s s' ->
     (forall space a i, 0 <= i < Z.of_nat (length data) -> locate s space a = locate s address_space (current + i) -> byte_at s' space a = data !! Z.to_nat i) ->
     (forall space a, (forall i, 0 <= i < Z.of_nat (length data) -> locate s space a <> locate s address_space (current + i)) -> byte_at s' space a = byte_at s space a) ->
     Q tt s') ->
  wp (write_ram m.(physical_page) (page_offset current) data) Q R s.
Proof using.
  intros Hs Hm Hp Hd Hsum HQ. destruct (syn_pages s Hs _ _ Hp) as [Hok Hg]. pose proof (page_offset_bound current) as Ho.
  eapply wp_write_ram; [exact Hp|done|done|lia|done|]. intros l Hl Hlk.
  assert (Hloc : forall i, 0 <= i < Z.of_nat (length data) -> locate s address_space (current + i) = Some (m.(physical_page), page_offset current + i)).
  { intros i Hi. destruct (same_page current i ltac:(lia)) as [Hv Hpo]. unfold locate, mapping_at in *. by rewrite Hv, Hm, Hpo. }
  apply HQ.
  - split; [done|]. intros page. cbn [set_pages pages]. destruct (decide (page = m.(physical_page))) as [->|Hne].
    + rewrite Hp, lookup_insert_eq. by exists (Some l).
    + rewrite lookup_insert_ne by congruence. destruct (s.(pages) !! page) as [[b g'|d]|] eqn:E'; [|done..]. exists b. split; [done|].
      by apply (syn_pages s Hs) in E' as [].
  - intros space a i Hi Heq. unfold byte_at. change (locate (set_pages _ s) space a) with (locate s space a). rewrite Heq, Hloc by done.
    rewrite phys_byte_insert, Z.eqb_refl, Hlk by lia. rewrite (proj2 (Z.leb_le _ _)), (proj2 (Z.ltb_lt _ _)) by lia. cbn [andb]. f_equal. lia.
  - intros space a Hno. unfold byte_at. change (locate (set_pages _ s) space a) with (locate s space a).
    destruct (locate s space a) as [[page o]|] eqn:Hla; [|done]. rewrite phys_byte_insert.
    destruct (Z.eqb_spec page m.(physical_page)) as [->|]; [|done].
    pose proof (locate_offset _ _ _ _ _ Hla) as ->. pose proof (page_offset_bound a) as Hob.
    rewrite Hlk by lia. destruct (_ && _) eqn:E'; [|unfold phys_byte; by rewrite Hp].
    rewrite andb_true_iff, Z.leb_le, Z.ltb_lt in E'. exfalso. apply (Hno (page_offset a - page_offset current)); [lia|].
    rewrite Hloc by lia. do 2 f_equal. lia.
Qed.

(** No physical byte occurs twice in the range. *)
Definition distinct_range (s : Mem) (address_space address count : Z) : Prop :=
  forall i j, 0 <= i < count -> 0 <= j < count -> locate s address_space (address + i) = locate s address_space (address + j) -> i = j.

(** The bytes of a range were replaced: nothing else changed, and without
    repeated physical bytes the range holds exactly [data]. *)
Definition range_written (s s' : Mem) (address_space address : Z) (data : list Z) : Prop :=
  (forall space a, (forall i, 0 <= i < Z.of_nat (length data) -> locate s space a <> locate s address_space (address + i)) ->
     byte_at s' space a = byte_at s space a) /\
  (distinct_range s address_space address (Z.of_nat (length data)) ->
   forall space a i, 0 <= i < Z.of_nat (length data) -> locate s space a = locate s address_space (address + i) ->
     byte_at s' space a = data !! Z.to_nat i).

Lemma range_written_app s s1 s2 address_space address low high n :
  n = Z.of_nat (length low) -> contents_changed s s1 ->
  (forall space a i, 0 <= i < n -> locate s space a = locate s address_space (address + i) -> byte_at s1 space a = low !! Z.to_nat i) ->
  (forall space a, (forall i, 0 <= i < n -> locate s space a <> locate s address_space (address + i)) -> byte_at s1 space a = byte_at s space a) ->
  range_written s1 s2 address_space (address + n) high -> range_written s s2 address_space address (low ++ high).
Proof using.
  intros -> Hcc Hnew Hold [Hold2 Hnew2]. assert (Hloc : forall sp a, locate s1 sp a = locate s sp a) by (intros; by apply contents_changed_locate).
  split.
  - intros space a Hno. rewrite length_app in Hno. rewrite Hold2.
    + apply Hold. intros i Hi. apply Hno. lia.
    + intros i Hi. rewrite !Hloc. replace (address + Z.of_nat (length low) + i) with (address + (Z.of_nat (length low) + i)) by lia. apply Hno. lia.
  - intros Hdist space a i Hi Hl. rewrite length_app in Hi, Hdist. destruct (Z.ltb_spec i (Z.of_nat (length low))).
    + rewrite lookup_app_l by lia. rewrite <- (Hnew space a i) by (done || lia). apply Hold2. intros j Hj. rewrite !Hloc, Hl.
      replace (address + Z.of_nat (length low) + j) with (address + (Z.of_nat (length low) + j)) by lia.
      intros Heq. apply Hdist in Heq; lia.
    + rewrite lookup_app_r by lia. replace (Z.to_nat i - length low)%nat with (Z.to_nat (i - Z.of_nat (length low))) by lia.
      apply Hnew2; [|lia|].
      * intros j k Hj Hk. rewrite !Hloc. replace (address + Z.of_nat (length low) + j) with (address + (Z.of_nat (length low) + j)) by lia.
        replace (address + Z.of_nat (length low) + k) with (address + (Z.of_nat (length low) + k)) by lia. intros Heq%Hdist; lia.
      * rewrite !Hloc. replace (address + Z.of_nat (length low) + (i - Z.of_nat (length low))) with (address + i) by lia. done.
Qed.

Lemma write_loop_outcome address_space fuel : forall current data s,
  synthetic_ok s -> (length data <= fuel)%nat -> bytes_ok data ->
  ram_range s address_space current (Z.of_nat (length data)) (fun _ => True) ->
  wp (write_loop fuel address_space current data)
    (fun _ s' => contents_changed s s' /\ range_written s s' address_space current data) (fun _ _ => False) s.
Proof using.
  induction fuel as [|fuel IH]; intros current data s Hs Hf Hd Hr; cbn [write_loop].
  - destruct data; [|cbn in Hf; lia]. apply wp_ret. split; [by apply contents_changed_refl|]. split; [done|]. intros _ sp a i Hi. cbn in Hi. lia.
  - destruct data as [|b data']; [apply wp_ret; split; [by apply contents_changed_refl|]; split; [done|]; intros _ sp a i Hi; cbn in Hi; lia|].
    set (data := b :: data') in *. assert (Hlen : 0 < Z.of_nat (length data)) by (cbn; lia).
    destruct (bulk_count_bounds current (Z.of_nat (length data)) Hlen) as [Hc Hroom]. set (count := bulk_count current (Z.of_nat (length data))) in *.
    destruct (Hr 0 ltac:(lia)) as (m & bytes & g & Hm & _ & Hp). rewrite Z.add_0_r in Hm.
    apply wp_bind, wp_get, wp_bind. eapply wp_expect; [exact Hm|]. apply wp_bind.
    assert (Htl : Z.of_nat (length (take (Z.to_nat count) data)) = count) by (rewrite length_take; lia).
    eapply wp_write_chunk; [done|exact Hm|exact Hp|by apply Forall_take|lia|]. rewrite Htl. intros s1 Hcc Hnew Hold.
    eapply wp_mono; [apply IH|..].
    + by eapply contents_changed_ok.
    + rewrite length_drop. lia.
    + by apply Forall_drop.
    + rewrite length_drop. eapply contents_changed_range; [done|]. intros i Hi.
      destruct (Hr (count + i) ltac:(lia)) as (m' & b' & g' & Hm' & _ & Hp'). exists m', b', g'. rewrite <- Z.add_assoc. done.
    + intros [] s2 [Hcc2 Hw2]. split; [by eapply contents_changed_trans|].
      rewrite <- (take_drop (Z.to_nat count) data). eapply range_written_app; [symmetry; exact Htl|exact Hcc|exact Hnew|exact Hold|exact Hw2].
    + done.
Qed.

(** Publishing generations keeps every byte. *)
Record generations_set (s s' : Mem) (generations : list (Z * Z)) : Prop := {
  gs_state : s' = set_pages (fun _ => s'.(pages)) s;
  gs_page page : match s.(pages) !! page with
    | Some (RamPage bytes g) => exists g', s'.(pages) !! page = Some (RamPage bytes g') /\
        (page ∉ generations.*1 -> g' = g) /\ (forall next, (page, next) ∈ generations -> g' = next)
    | other => s'.(pages) !! page = other
    end
}.

Lemma publish_generations_outcome generations : forall s,
  NoDup (generations.*1) -> (forall page next, (page, next) ∈ generations -> exists bytes g, (s : Mem).(pages) !! page = Some (RamPage bytes g)) ->
  wp (publish_generations generations) (fun _ s' => generations_set s s' generations) (fun _ _ => False) s.
Proof using.
  induction generations as [|[page next] generations IH]; intros s Hnd Hall; cbn [publish_generations].
  - apply wp_ret. split; [by destruct s|]. intros page. destruct (s.(pages) !! page) as [[b g|d]|]; [|done..]. exists g. set_solver.
  - cbn [fmap list_fmap fst] in Hnd. apply NoDup_cons in Hnd as [Hni Hnd]. destruct (Hall page next ltac:(set_solver)) as (bytes & g & Hp).
    apply wp_bind. eapply wp_set_generation; [exact Hp|]. eapply wp_mono; [apply IH; [done|]| |done].
    + intros q n Hq. cbn [set_pages pages]. rewrite lookup_insert_ne; [apply (Hall q n); set_solver|].
      intros ->. apply Hni. apply (list_elem_of_fmap_2 fst) in Hq. done.
    + intros [] s' [Hst Hpg]. split; [exact Hst|]. intros q. specialize (Hpg q). cbn [set_pages pages] in Hpg.
      destruct (decide (q = page)) as [->|Hne].
      * rewrite lookup_insert_eq in Hpg. rewrite Hp. destruct Hpg as (g' & Hg' & Hkeep & _). exists g'. split; [done|].
        rewrite (Hkeep Hni). split; [intros Hn; cbn in Hn; set_solver|]. intros n [[= ->]|Hin]%elem_of_cons; [done|].
        exfalso. apply Hni. by apply (list_elem_of_fmap_2 fst) in Hin.
      * rewrite lookup_insert_ne in Hpg by congruence. destruct (s.(pages) !! q) as [[b g0|d]|]; [|done..].
        destruct Hpg as (g' & Hg' & H1 & H2). exists g'. split; [done|]. split.
        -- intros Hn. apply H1. cbn in Hn. set_solver.
        -- intros n [[= -> ->]|Hin]%elem_of_cons; [done|]. by apply H2.
Qed.

Lemma generations_set_bytes s s' generations space a : generations_set s s' generations -> byte_at s' space a = byte_at s space a.
Proof using.
  intros [Hst Hpg]. unfold byte_at. rewrite (locate_state s s') by done. destruct (locate s space a) as [[page o]|]; [|done].
  unfold phys_byte. specialize (Hpg page). destruct (s.(pages) !! page) as [[b g|d]|]; [|by rewrite Hpg..].
  by destruct Hpg as (g' & -> & _).
Qed.

Lemma generations_set_ok s s' generations :
  synthetic_ok s -> (forall page next, (page, next) ∈ generations -> in_range 64 next) -> generations_set s s' generations -> synthetic_ok s'.
Proof using.
  intros Hs Hr [H1 H2]. split; rewrite H1; cbn [set_pages pages mappings next_page_id invalidations]; [| |apply Hs..].
  - intros page p Hp. specialize (H2 page). destruct (s.(pages) !! page) as [[b g|d]|] eqn:E.
    + destruct H2 as (g' & E' & Hkeep & Hset). rewrite E' in Hp. injection Hp as <-. apply (syn_pages s Hs) in E as [Hb Hg]. split; [done|].
      destruct (decide (page ∈ generations.*1)) as [Hin|Hin]; [|by rewrite Hkeep].
      apply list_elem_of_fmap in Hin as ([q n] & -> & Hin). rewrite (Hset n Hin). by eapply Hr.
    + rewrite H2 in Hp. injection Hp as <-. exact (syn_pages s Hs _ _ E).
    + congruence.
  - intros key m Hm. specialize (H2 m.(physical_page)). destruct (syn_mapped s Hs _ _ Hm) as [pg Hpg]. rewrite Hpg in H2.
    destruct pg as [b g|d]; [destruct H2 as (g' & -> & _); eauto|rewrite H2; eauto].
Qed.

(** The physical pages of a range. *)
Definition range_touches (s : Mem) (address_space address count page : Z) : Prop :=
  exists i m, 0 <= i < count /\ mapping_at s address_space (address + i) = Some m /\ m.(physical_page) = page.

Lemma btree_keys_nodup (m : gmap Z Z) : NoDup ((btree_iter m).*1).
Proof using. unfold btree_iter. rewrite merge_sort_Permutation. apply NoDup_fst_map_to_list. Qed.

(** The copy and the publication of [write_bytes], from a validated state. *)
Lemma wp_write_copy s address_space address data gens batch kinds :
  synthetic_ok s -> bytes_ok data -> generations_for s gens ->
  ram_range s address_space address (Z.of_nat (length data)) (fun m => is_Some (gens !! m.(physical_page))) ->
  (forall page, is_Some (gens !! page) -> range_touches s address_space address (Z.of_nat (length data)) page) ->
  (match batch with Some b => reserve_many_with_origin s.(invalidations) kinds (Some OriginHostWrite) = Ok b /\
                              log_room s (Z.of_nat (length kinds)) | None => True end) ->
  wp (do! write_loop (length data) address_space address data in do! publish_generations (btree_iter gens) in
      match batch with Some batch => commit_kinds batch | None => ret tt end)
    (fun _ s' => synthetic_ok s' /\ s'.(mappings) = s.(mappings) /\ s'.(data_faults) = s.(data_faults) /\
       range_written s s' address_space address data /\
       forall page g, generation_of s page = Some g -> exists g', generation_of s' page = Some g' /\
         (range_touches s address_space address (Z.of_nat (length data)) page -> g' = g + 1) /\
         (~ range_touches s address_space address (Z.of_nat (length data)) page -> g' = g))
    (fun _ _ => False) s.
Proof using.
  intros Hs Hd Hgens Hrange Htouch Hbatch. apply wp_bind. eapply wp_mono; [apply write_loop_outcome; [done|lia|done|]| |done].
  { intros i Hi. destruct (Hrange i Hi) as (m & b & g & Hm & _ & Hp). by exists m, b, g. }
  intros [] s1 [Hcc Hw]. pose proof (contents_changed_ok _ _ Hs Hcc) as Hs1.
  apply wp_bind. eapply wp_mono; [apply publish_generations_outcome; [apply btree_keys_nodup|]| |done].
  { intros page next Hin%btree_iter_elem. destruct (Hgens page next Hin) as (b & g & Hp & _). pose proof (cc_page _ _ Hcc page) as Hpg.
    rewrite Hp in Hpg. destruct Hpg as (b' & Hb' & _). eauto. }
  intros [] s2 Hgs.
  assert (Hs2 : synthetic_ok s2).
  { eapply generations_set_ok; [exact Hs1| |exact Hgs]. intros page next Hin%btree_iter_elem.
    destruct (Hgens page next Hin) as (b & g & Hp & -> & Hlt). apply (syn_pages s Hs) in Hp as [_ [? _]]. split; lia. }
  assert (Hst : s2 = set_pages (fun _ => s2.(pages)) s) by (rewrite (gs_state _ _ _ Hgs) at 1; by rewrite (cc_state _ _ Hcc)).
  assert (Hfinal : s2.(mappings) = s.(mappings) /\ s2.(data_faults) = s.(data_faults) /\ range_written s s2 address_space address data /\
       forall page g, generation_of s page = Some g -> exists g', generation_of s2 page = Some g' /\
         (range_touches s address_space address (Z.of_nat (length data)) page -> g' = g + 1) /\
         (~ range_touches s address_space address (Z.of_nat (length data)) page -> g' = g)).
  { split; [by rewrite Hst|]. split; [by rewrite Hst|]. split.
    - destruct Hw as [Hw1 Hw2]. split; intros; rewrite (generations_set_bytes _ _ _ _ _ Hgs); eauto.
    - intros page g Hg. unfold generation_of in *. destruct (s.(pages) !! page) as [[b g0|d]|] eqn:Hp; [|done..]. injection Hg as ->.
      pose proof (cc_page _ _ Hcc page) as Hpg. rewrite Hp in Hpg. destruct Hpg as (b' & Hb' & _).
      pose proof (gs_page _ _ _ Hgs page) as Hpg. rewrite Hb' in Hpg. destruct Hpg as (g' & -> & Hkeep & Hset). exists g'. split; [done|]. split.
      + intros (i & m & Hi & Hm & <-). destruct (Hrange i Hi) as (m' & b0 & g0 & Hm' & [n Hn] & _).
        assert (m' = m) as -> by congruence. destruct (Hgens _ _ Hn) as (b1 & g1 & Hp1 & -> & _). rewrite (Hset (g1 + 1)) by by apply btree_iter_elem.
        congruence.
      + intros Hno. apply Hkeep. intros ([q n] & -> & Hin)%list_elem_of_fmap. apply btree_iter_elem in Hin. apply Hno, Htouch. eauto. }
  destruct batch as [batch|]; [|by apply wp_ret]. destruct Hbatch as [Hres Hroom].
  eapply (wp_commit_kinds s.(invalidations) kinds); [apply Hs|exact Hroom|exact Hres|by rewrite Hst|]. intros log' Hlog.
  split; [by apply set_invalidations_ok|exact Hfinal].
Qed.

Lemma executable_kinds_length s (gens : gmap Z Z) : (length (executable_kinds (Dev := Dev) s gens) <= size gens)%nat.
Proof using.
  assert (Homap : forall (f : Z * Z -> option MemoryInvalidationKind) l, (length (omap f l) <= length l)%nat).
  { intros f l. induction l as [|x l IH]; cbn; [lia|]. destruct (f x); cbn; lia. }
  unfold executable_kinds. etrans; [apply Homap|]. unfold btree_iter. rewrite merge_sort_Permutation. by rewrite length_map_to_list.
Qed.

(** Enough room in the stream for one record per byte is room enough. *)
Lemma write_bytes_outcome s address_space address data :
  synthetic_ok s -> bytes_ok data ->
  log_room s (Z.of_nat (length data)) ->
  wp (write_bytes address_space address data)
    (fun _ s' => synthetic_ok s' /\ s'.(mappings) = s.(mappings) /\ s'.(data_faults) = s.(data_faults) /\
       range_written s s' address_space address data /\
       forall page g, generation_of s page = Some g -> exists g', generation_of s' page = Some g' /\
         (range_touches s address_space address (Z.of_nat (length data)) page -> g' = g + 1) /\
         (~ range_touches s address_space address (Z.of_nat (length data)) page -> g' = g))
    (fun _ s' => s' = s) s.
Proof using.
  intros Hs Hd Hroom. unfold write_bytes. apply wp_bind, bulk_start_wp; [|done]. intros _. apply wp_bind.
  eapply wp_mono; [apply (write_validate_outcome s address_space Hs); [lia|]| |done]; [intros p n Hn; by rewrite lookup_empty in Hn|].
  intros gens s' (-> & Hgens & _ & Hrange & Hsz & Hback). rewrite map_size_empty in Hsz. apply wp_bind, wp_get.
  assert (Htouch : forall page, is_Some (gens !! page) -> range_touches s address_space address (Z.of_nat (length data)) page).
  { intros page Hp. destruct (Hback page Hp) as [[n Hn]|Ht]; [by rewrite lookup_empty in Hn|exact Ht]. }
  set (kinds := executable_kinds s gens).
  assert (Hkroom : log_room s (Z.of_nat (length kinds))).
  { pose proof (executable_kinds_length s gens) as Hk. fold kinds in Hk. unfold log_room in *. lia. }
  assert (Hcopy : forall batch, (match batch with Some b => reserve_many_with_origin s.(invalidations) kinds (Some OriginHostWrite) = Ok b /\
                              log_room s (Z.of_nat (length kinds)) | None => True end) ->
    wp (do! write_loop (length data) address_space address data in do! publish_generations (btree_iter gens) in
      match batch with Some batch => commit_kinds batch | None => ret tt end)
    (fun _ s' => synthetic_ok s' /\ s'.(mappings) = s.(mappings) /\ s'.(data_faults) = s.(data_faults) /\
       range_written s s' address_space address data /\
       forall page g, generation_of s page = Some g -> exists g', generation_of s' page = Some g' /\
         (range_touches s address_space address (Z.of_nat (length data)) page -> g' = g + 1) /\
         (~ range_touches s address_space address (Z.of_nat (length data)) page -> g' = g))
    (fun _ s' => s' = s) s).
  { intros batch Hb. eapply wp_mono; [by eapply wp_write_copy|done|done]. }
  apply wp_bind. destruct (bool_decide (kinds = [])); [apply wp_ret; by apply (Hcopy None)|].
  apply wp_bind, wp_reserve_kinds; [|done]. intros batch Hres. apply wp_ret. by apply (Hcopy (Some batch)).
Qed.
End Bulk.
