(* ===== verification/MemSyntheticQuery.v ===== *)
(** * Memory queries of the synthetic backend

    [query_memory] answers with the maximal run of pages, below the bound of the
    address space, that share the mapping state of the queried address. *)

From S2P Require Import Prelude Loops Bytes MemBase MemInvalidation CpuMemory MemCommon MemSynthetic MemSyntheticSpec MemSyntheticCpu.

Section Query.
Context {Dev : Type} `{SyntheticMmio Dev} {dev_laws : SyntheticMmioLaws Dev}.
Notation Mem := (SyntheticMemory Dev).

Lemma key_lt_spec a b : key_lt a b = true <-> a.1 < b.1 \/ (a.1 = b.1 /\ a.2 < b.2).
Proof using. unfold key_lt. rewrite orb_true_iff, andb_true_iff, !Z.ltb_lt, Z.eqb_eq. done. Qed.

Lemma key_lt_false a b : key_lt a b = false <-> ~ (a.1 < b.1 \/ (a.1 = b.1 /\ a.2 < b.2)).
Proof using. rewrite <- key_lt_spec. by destruct (key_lt a b). Qed.

(** The fold that selects the extreme key among those satisfying [P]. *)
Lemma extreme_spec (P : Z * Z -> bool) (better : Z * Z -> Z * Z -> bool) (l : list ((Z * Z) * Mapping)) :
  (forall a b c, better a b = true -> better b c = true -> better a c = true) -> (forall a, better a a = false) ->
  match foldr (fun kv best => if P kv.1 && match best with None => true | Some b => better kv.1 b end then Some kv.1 else best) None l with
  | None => forall kv, kv ∈ l -> P kv.1 = false
  | Some k => P k = true /\ (exists m, (k, m) ∈ l) /\ forall kv, kv ∈ l -> P kv.1 = true -> better kv.1 k = false
  end.
Proof using.
  intros Htrans Hirr. induction l as [|[k0 m0] l IH]; cbn [foldr]; [set_solver|].
  destruct (foldr _ None l) as [k|]; cbn [fst].
  - destruct IH as (HP & [m Hm] & Hbest). destruct (P k0) eqn:Hk0; cbn [andb].
    + destruct (better k0 k) eqn:Hb.
      * split; [done|]. split; [exists m0; by left|]. intros kv [->|Hin]%elem_of_cons HPk; [apply Hirr|].
        destruct (better kv.1 k0) eqn:Hc; [|done]. pose proof (Htrans _ _ _ Hc Hb). by rewrite Hbest in *.
      * split; [done|]. split; [exists m; by right|]. intros kv [->|Hin]%elem_of_cons HPk; [done|by apply Hbest].
    + split; [done|]. split; [exists m; by right|]. intros kv [->|Hin]%elem_of_cons HPk; [cbn in HPk; congruence|by apply Hbest].
  - destruct (P k0) eqn:Hk0; cbn [andb].
    + split; [done|]. split; [exists m0; by left|]. intros kv [->|Hin]%elem_of_cons HPk; [apply Hirr|]. rewrite (IH kv Hin) in HPk. done.
    + intros kv [->|Hin]%elem_of_cons; [done|by apply IH].
Qed.

Lemma last_key_before_spec (s : Mem) key :
  match last_key_before s key with
  | None => forall k, is_Some (s.(mappings) !! k) -> key_lt k key = false
  | Some k => key_lt k key = true /\ is_Some (s.(mappings) !! k) /\
              forall k', is_Some (s.(mappings) !! k') -> key_lt k' key = true -> key_lt k k' = false
  end.
Proof using.
  unfold last_key_before.
  pose proof (extreme_spec (fun k => key_lt k key) (fun a b => key_lt b a) (map_to_list s.(mappings))) as Hx. cbn beta in Hx.
  destruct (foldr _ None _) as [k|].
  - destruct Hx as (HP & [m Hm] & Hbest).
    + intros a b c. rewrite !key_lt_spec. lia.
    + intros a. rewrite key_lt_false. lia.
    + apply elem_of_map_to_list in Hm. split; [done|]. split; [eauto|]. intros k' [m' Hm'] Hk'.
      apply (Hbest (k', m')); [by apply elem_of_map_to_list|done].
  - intros k [m Hm]. apply (Hx ltac:(intros a b c; rewrite !key_lt_spec; lia) ltac:(intros a; rewrite key_lt_false; lia) (k, m)).
    by apply elem_of_map_to_list.
Qed.

Lemma first_key_from_spec (s : Mem) key :
  match first_key_from s key with
  | None => forall k, is_Some (s.(mappings) !! k) -> key_lt k key = true
  | Some k => key_lt k key = false /\ is_Some (s.(mappings) !! k) /\
              forall k', is_Some (s.(mappings) !! k') -> key_lt k' key = false -> key_lt k' k = false
  end.
Proof using.
  unfold first_key_from.
  pose proof (extreme_spec (fun k => negb (key_lt k key)) key_lt (map_to_list s.(mappings))) as Hx. cbn beta in Hx.
  destruct (foldr _ None _) as [k|].
  - destruct Hx as (HP & [m Hm] & Hbest).
    + intros a b c. rewrite !key_lt_spec. lia.
    + intros a. rewrite key_lt_false. lia.
    + apply negb_true_iff in HP. apply elem_of_map_to_list in Hm. split; [done|]. split; [eauto|]. intros k' [m' Hm'] Hk'.
      apply (Hbest (k', m')); [by apply elem_of_map_to_list|]. cbn. by rewrite Hk'.
  - intros k [m Hm]. apply negb_false_iff.
    apply (Hx ltac:(intros a b c; rewrite !key_lt_spec; lia) ltac:(intros a; rewrite key_lt_false; lia) (k, m)). by apply elem_of_map_to_list.
Qed.

(** The unmapped run below and above an unmapped page. *)
Lemma unmapped_below (s : Mem) space page :
  match in_space space (last_key_before s (space, page)) with
  | Some q => q < page /\ is_Some (s.(mappings) !! (space, q)) /\ forall p, q < p < page -> s.(mappings) !! (space, p) = None
  | None => forall p, p < page -> s.(mappings) !! (space, p) = None
  end.
Proof using.
  pose proof (last_key_before_spec s (space, page)) as Hl. destruct (last_key_before s (space, page)) as [[sp q]|]; cbn [in_space].
  - destruct Hl as (Hlt & Hsome & Hbest). rewrite key_lt_spec in Hlt. cbn [fst snd] in Hlt. destruct (Z.eqb_spec sp space) as [->|Hne].
    + split; [lia|]. split; [done|]. intros p Hp. apply eq_None_not_Some. intros Hs.
      specialize (Hbest (space, p) Hs). rewrite key_lt_spec, key_lt_false in Hbest. cbn [fst snd] in Hbest. lia.
    + intros p Hp. apply eq_None_not_Some. intros Hs. specialize (Hbest (space, p) Hs). rewrite key_lt_spec, key_lt_false in Hbest. cbn [fst snd] in Hbest. lia.
  - intros p Hp. apply eq_None_not_Some. intros Hs. specialize (Hl _ Hs). rewrite key_lt_false in Hl. cbn [fst snd] in Hl. lia.
Qed.

Lemma unmapped_above (s : Mem) space page :
  match in_space space (first_key_from s (space, page)) with
  | Some q => page <= q /\ is_Some (s.(mappings) !! (space, q)) /\ forall p, page <= p < q -> s.(mappings) !! (space, p) = None
  | None => forall p, page <= p -> s.(mappings) !! (space, p) = None
  end.
Proof using.
  pose proof (first_key_from_spec s (space, page)) as Hl. destruct (first_key_from s (space, page)) as [[sp q]|]; cbn [in_space].
  - destruct Hl as (Hlt & Hsome & Hbest). rewrite key_lt_false in Hlt. cbn [fst snd] in Hlt. destruct (Z.eqb_spec sp space) as [->|Hne].
    + split; [lia|]. split; [done|]. intros p Hp. apply eq_None_not_Some. intros Hs.
      specialize (Hbest (space, p) Hs). rewrite !key_lt_false in Hbest. cbn [fst snd] in Hbest. lia.
    + intros p Hp. apply eq_None_not_Some. intros Hs. specialize (Hbest (space, p) Hs). rewrite !key_lt_false in Hbest. cbn [fst snd] in Hbest. lia.
  - intros p Hp. apply eq_None_not_Some. intros Hs. specialize (Hl _ Hs). rewrite key_lt_spec in Hl. cbn [fst snd] in Hl. lia.
Qed.

Lemma state_none (s : Mem) space page : synthetic_ok s -> (synthetic_mapping_state s space page = None <-> s.(mappings) !! (space, page) = None).
Proof using.
  intros Hs. unfold synthetic_mapping_state. destruct (s.(mappings) !! _) as [m|] eqn:Hm; [|done].
  destruct (syn_mapped s Hs _ _ Hm) as [pg ->]. split; [done|done].
Qed.

(** A maximal run of pages in one state: [first..end_] around [page], bounded by [end_page]. *)
Definition maximal_run (s : Mem) (space page end_page first end_ : Z) : Prop :=
  let state := synthetic_mapping_state s space in
  0 <= first <= page /\ page < end_ <= Z.max (page + 1) end_page /\ (forall q, first <= q < end_ -> state q = state page) /\
  (first = 0 \/ state (first - 1) <> state page) /\ (end_page <= end_ \/ state end_ <> state page).

Lemma mapped_run (s : Mem) space page end_page state :
  in_range 52 page -> in_range 52 end_page -> synthetic_mapping_state s space page = Some state ->
  let '(first, end_) := coalesce_mapped_pages state (synthetic_mapping_state s space) page end_page in
  maximal_run s space page end_page first end_.
Proof using.
  intros Hp He Hst. unfold coalesce_mapped_pages.
  destruct (coalesce_down state (synthetic_mapping_state s space) page) as (H1 & H2 & H3); [by apply (in_range_le 52); [lia|]|].
  destruct (coalesce_up state (synthetic_mapping_state s space) end_page (page + 1)) as (H4 & H5 & H6);
    [destruct Hp; lia|by apply (in_range_le 52); [lia|]|].
  set (first := scan_end (loop (coalesce_down_step _ _) _ _)) in *. set (end_ := scan_end (loop (coalesce_up_step _ _ _) _ _)) in *.
  split; [done|]. split; [lia|]. rewrite Hst. split; [|done]. intros q Hq.
  destruct (Z.lt_trichotomy q page) as [|[->|]]; [apply H2; lia|done|apply H5; lia].
Qed.

(** The page numbers of the table are [u64] values. *)
Definition keys_u64 (s : Mem) : Prop := forall space page, is_Some (s.(mappings) !! (space, page)) -> 0 <= page.

Lemma unmapped_run (s : Mem) space page end_page :
  synthetic_ok s -> keys_u64 s -> in_range 52 page -> in_range 52 end_page -> synthetic_mapping_state s space page = None ->
  maximal_run s space page end_page
    (Z.min (match in_space space (last_key_before s (space, page)) with Some q => Z.min (q + 1) (umax 64) | None => 0 end) page)
    (Z.max (Z.min (default end_page (in_space space (first_key_from s (space, Z.min (page + 1) (umax 64))))) end_page) (page + 1)).
Proof using.
  intros Hs Hkeys [Hp1 Hp2] [He1 He2] Hst. replace (Z.min (page + 1) (umax 64)) with (page + 1) by (unfold umax; lia).
  pose proof (unmapped_below s space page) as Hb. pose proof (unmapped_above s space (page + 1)) as Ha.
  assert (Hlow : exists first, Z.min (match in_space space (last_key_before s (space, page)) with Some q => Z.min (q + 1) (umax 64) | None => 0 end) page = first /\
    0 <= first <= page /\ (forall q, first <= q < page -> s.(mappings) !! (space, q) = None) /\ (first = 0 \/ s.(mappings) !! (space, first - 1) <> None)).
  { destruct (in_space space (last_key_before s (space, page))) as [q|].
    - destruct Hb as (Hq & Hqs & Hbelow). pose proof (Hkeys _ _ Hqs). exists (q + 1). split; [unfold umax; lia|]. split; [lia|].
      split; [intros p Hp; apply Hbelow; lia|]. right. replace (q + 1 - 1) with q by lia. destruct Hqs as [m ->]. done.
    - exists 0. split; [lia|]. split; [lia|]. split; [intros p Hp; apply Hb; lia|by left]. }
  assert (Hhigh : exists end_, Z.max (Z.min (default end_page (in_space space (first_key_from s (space, page + 1)))) end_page) (page + 1) = end_ /\
    page < end_ <= Z.max (page + 1) end_page /\ (forall q, page < q < end_ -> s.(mappings) !! (space, q) = None) /\ (end_page <= end_ \/ s.(mappings) !! (space, end_) <> None)).
  { destruct (in_space space (first_key_from s (space, page + 1))) as [q|]; cbn [from_option id].
    - destruct Ha as (Hq & Hqs & Habove). eexists. split; [reflexivity|]. split; [lia|]. split; [intros p Hp; apply Habove; lia|].
      destruct (Z.le_gt_cases end_page q) as [|]; [left; lia|]. right. replace (Z.max (Z.min q end_page) (page + 1)) with q by lia. destruct Hqs as [m ->]. done.
    - eexists. split; [reflexivity|]. split; [lia|]. split; [intros p Hp; apply Ha; lia|]. left. lia. }
  destruct Hlow as (first & -> & Hf & Hfm & Hfe), Hhigh as (end_ & -> & He & Hem & Hee). split; [done|]. split; [lia|].
  pose proof Hst as Hnone. rewrite state_none in Hnone by done. split; [|split].
  - intros q Hq. rewrite Hst. apply state_none; [done|]. destruct (Z.lt_trichotomy q page) as [|[->|]]; [apply Hfm; lia|done|apply Hem; lia].
  - destruct Hfe as [|Hfe]; [by left|]. right. rewrite Hst. intros Hn. apply Hfe. by apply state_none.
  - destruct Hee as [|Hee]; [by left|]. right. rewrite Hst. intros Hn. apply Hee. by apply state_none.
Qed.

(** The byte range of a run of pages, as [memory_query_result] reports it. *)
Lemma query_result_run first end_ state :
  0 <= first <= end_ ->
  memory_query_result first end_ state =
    if end_ * 4096 <? 2 ^ 64
    then Some (let '(region, permissions, purpose, attributes) :=
                 match state with
                 | Some (region, permissions, purpose, attributes) => (Some region, permissions, purpose, attributes)
                 | None => (None, PERM_NONE, PurposeNormal, ATTR_NONE)
                 end in mkQuery (first * 4096) (end_ * 4096 - first * 4096) region permissions attributes purpose)
    else None.
Proof using.
  intros Hf. unfold memory_query_result, checked_mul, PAGE_SIZE, SYNTHETIC_PAGE_SIZE, address_checked_sub.
  destruct (Z.ltb_spec (end_ * 4096) (2 ^ 64)).
  - rewrite (proj2 (Z.ltb_lt (first * 4096) (2 ^ 64))) by lia. destruct state as [[[[r p] u] a]|]; by rewrite (proj2 (Z.leb_le _ _)) by lia.
  - by destruct (first * 4096 <? 2 ^ 64).
Qed.

Lemma virtual_page_range a : in_range 64 a -> in_range 52 (virtual_page a).
Proof using.
  intros [H1 H2]. unfold virtual_page, PAGE_SIZE, SYNTHETIC_PAGE_SIZE. split; [apply Z.div_pos; lia|apply Z.div_lt_upper_bound; lia].
Qed.
End Query.

(** ** Claims *)

(** A memory query below the bound of the address space answers with the
    maximal page-aligned range around the address whose pages all share its
    mapping state (region, permissions, purpose and attributes, or unmapped):
    the range contains the address, every page in it has that state, and it
    cannot be extended on either side below the bound.  There is no answer
    exactly when that range ends at the end of the 64-bit space. *)
Theorem synthetic_query_spec {Dev : Type} `{SyntheticMmio Dev, !SyntheticMmioLaws Dev} (s : SyntheticMemory Dev) space address end_ :
  synthetic_ok s -> keys_u64 s -> in_range 64 address -> in_range 64 end_ -> address < end_ ->
  exists first last, maximal_run s space (virtual_page address) (virtual_page end_) first last /\
    first * 4096 <= address < last * 4096 /\
    query_memory s space address end_ =
      if last * 4096 <? 2 ^ 64
      then Some (let '(region, permissions, purpose, attributes) :=
                 match synthetic_mapping_state s space (virtual_page address) with
                 | Some (region, permissions, purpose, attributes) => (Some region, permissions, purpose, attributes)
                 | None => (None, PERM_NONE, PurposeNormal, ATTR_NONE)
                 end in mkQuery (first * 4096) (last * 4096 - first * 4096) region permissions attributes purpose)
      else None.
Proof.
  intros Hs Hkeys Ha He Hlt. pose proof (virtual_page_range address Ha) as Hp. pose proof (virtual_page_range end_ He) as Hep.
  assert (Hfin : forall first last, maximal_run s space (virtual_page address) (virtual_page end_) first last -> first * 4096 <= address < last * 4096).
  { intros first last (H1 & H2 & _). pose proof (page_split address). pose proof (page_offset_bound address). unfold SYNTHETIC_PAGE_SIZE in *. lia. }
  unfold query_memory. rewrite (proj2 (Z.leb_gt _ _)) by lia.
  destruct (synthetic_mapping_state s space (virtual_page address)) as [state|] eqn:Hst.
  - pose proof (mapped_run s space _ _ state Hp Hep Hst) as Hrun. destruct (coalesce_mapped_pages _ _ _ _) as [first last].
    exists first, last. split; [done|]. split; [by apply Hfin|]. apply query_result_run. destruct Hrun as (? & ? & _). lia.
  - pose proof (unmapped_run s space _ _ Hs Hkeys Hp Hep Hst) as Hrun. cbv zeta.
    set (first := Z.min _ (virtual_page address)) in *. set (last := Z.max _ (virtual_page address + 1)) in *.
    exists first, last. split; [done|]. split; [by apply Hfin|]. apply (query_result_run first last None). destruct Hrun as (? & ? & _). lia.
Qed.

(** 0x1000 is mapped to RAM, 0x2000 is not: the answer is one page. *)
Lemma synthetic_query_spec_witness :
  query_memory alias_memory 1 0x1234 0x10000 = Some (mkQuery 0x1000 0x1000 (Some Ram) 3 0 PurposeNormal).
Proof.
  destruct (synthetic_query_spec alias_memory 1 0x1234 0x10000) as (first & last & Hrun & Hin & ->).
  - apply alias_memory_ok.
  - intros space page [m Hm]. cbn in Hm. rewrite lookup_insert_Some, lookup_singleton_Some in Hm.
    destruct Hm as [[[=] _]|[_ [[=] _]]]; lia.
  - split; lia.
  - split; lia.
  - lia.
  - assert (first = 1 /\ last = 2) as [-> ->]; [|vm_compute; reflexivity].
    destruct Hrun as (H1 & H2 & H3 & _). change (virtual_page 0x1234) with 1 in H1, H2, H3. split.
    + destruct (Z.eq_dec first 0) as [->|]; [|lia]. specialize (H3 0 ltac:(lia)). vm_compute in H3. discriminate.
    + destruct (Z_lt_le_dec 2 last) as [Hl|]; [|lia]. specialize (H3 2 ltac:(lia)). vm_compute in H3. discriminate.
Defined.
