(* ===== verification/MemSyntheticClaims.v ===== *)
(** * The synthetic backend as a process memory

    Reachable states, atomicity of the transactions, and round trips: the
    properties the runtime relies on. *)

From S2P Require Import Prelude Bytes MemBase MemInvalidation CpuMemory MemCommon MemSynthetic.
From S2P Require Import MemSyntheticSpec MemSyntheticCpu MemSyntheticProcess MemSyntheticTx MemSyntheticGrow.

(** Every operation of the backend. *)
Inductive MemOp (Dev : Type) :=
| Cpu (op : CpuOp)
| Fetch (space address : Z)
| Install (space : Z) (requests : list SyntheticRamPage)
| SetPurpose (space start size : Z) (purpose : MemoryMappingPurpose)
| AddRam (page : Z)
| AddMmio (page : Z) (handler : Dev)
| MapPage (space address page permissions : Z)
| InitializeRam (page offset : Z) (bytes : list Z)
| InjectInstructionFault (space address : Z) (reason : string)
| InjectDataFault (space address : Z) (kind : DataAccessKind) (reason : string)
| InjectInstallFailure (stage : SyntheticInstallStage) (index : Z) (reason : string)
| ReadBytes (space address count : Z)
| WriteBytes (space address : Z) (bytes : list Z)
| Resize (space start old_size new_size permissions : Z) (purpose : MemoryMappingPurpose)
| MapAlias (request : MemoryAliasRequest)
| UnmapAlias (request : MemoryAliasRequest)
| SetPermissions (space start size permissions : Z)
| SetAttributes (space start size mask value : Z).
Arguments Cpu {Dev}.
Arguments Fetch {Dev}.
Arguments Install {Dev}.
Arguments SetPurpose {Dev}.
Arguments AddRam {Dev}.
Arguments AddMmio {Dev}.
Arguments MapPage {Dev}.
Arguments InitializeRam {Dev}.
Arguments InjectInstructionFault {Dev}.
Arguments InjectDataFault {Dev}.
Arguments InjectInstallFailure {Dev}.
Arguments ReadBytes {Dev}.
Arguments WriteBytes {Dev}.
Arguments Resize {Dev}.
Arguments MapAlias {Dev}.
Arguments UnmapAlias {Dev}.
Arguments SetPermissions {Dev}.
Arguments SetAttributes {Dev}.

Inductive Outcome := Completed | Failed | Panicked.

Section Claims.
Context {Dev : Type} `{SyntheticMmio Dev} {dev_laws : SyntheticMmioLaws Dev}.
Notation Mem := (SyntheticMemory Dev).

Definition outcome {E A} (r : Result E A * Mem) : Outcome * Mem :=
  (match r.1 with Ok _ => Completed | Err _ => Failed | Panic => Panicked end, r.2).
(** A fixture answers [false] where a method returns an error. *)
Definition outcome_bool (r : Result Empty_set bool * Mem) : Outcome * Mem :=
  (match r.1 with Ok true => Completed | Ok false => Failed | _ => Panicked end, r.2).

Definition cpu_outcome (s : Mem) (op : CpuOp) : Outcome * Mem :=
  match op with
  | OpRead space a acc => outcome (read space a acc s)
  | OpWrite space a acc v => outcome (write space a acc v s)
  | OpRmw space a acc k v => outcome (atomic_read_modify_write space a acc k v s)
  | OpCas space a acc e v => outcome (atomic_compare_exchange space a acc e v s)
  | OpCache space k a => outcome (maintain_cache space k a s)
  | OpLoadExclusive space a acc => outcome (load_exclusive space a acc s)
  | OpStoreExclusive space a acc v r => outcome (store_exclusive space a acc v r s)
  end.

Definition mem_step (s : Mem) (op : MemOp Dev) : Outcome * Mem :=
  match op with
  | Cpu op => cpu_outcome s op
  | Fetch space a => outcome (fetch32 space a s)
  | Install space requests => outcome (install_ram_pages_atomic space requests s)
  | SetPurpose space start size purpose => outcome_bool (set_mapping_purpose space start size purpose s)
  | AddRam page => (if (add_ram_page page s).1 then Completed else Failed, (add_ram_page page s).2)
  | AddMmio page handler => (if (add_mmio_page page handler s).1 then Completed else Failed, (add_mmio_page page handler s).2)
  | MapPage space a page permissions => outcome_bool (map_page space a page permissions s)
  | InitializeRam page offset bytes => outcome_bool (initialize_ram page offset bytes s)
  | InjectInstructionFault space a reason => (Completed, inject_instruction_fault space a reason s)
  | InjectDataFault space a kind reason => (Completed, inject_data_fault space a kind reason s)
  | InjectInstallFailure stage index reason => (Completed, inject_install_failure stage index reason s)
  | ReadBytes space a count => outcome (read_bytes space a count s)
  | WriteBytes space a bytes => outcome (write_bytes space a bytes s)
  | Resize space start old_size new_size permissions purpose =>
      outcome (resize_zeroed_mapping space start old_size new_size permissions purpose s)
  | MapAlias request => outcome (map_alias request s)
  | UnmapAlias request => outcome (unmap_alias request s)
  | SetPermissions space start size permissions => outcome (set_permissions space start size permissions s)
  | SetAttributes space start size mask value => outcome (set_attributes space start size mask value s)
  end.

(** What the types of the arguments say ([u8] slices, [u64] sizes, the private
    constructor of [MemoryAttributes]), and two preconditions of the code:
    the destination of an unmapped alias does not begin inside its source, since
    such a request panics when it passes the checks ([unmap_alias_inside_panics]);
    and the invalidation stream, which holds [2^64 - 1] records in its lifetime,
    still has room for the records of an operation that publishes several, since
    the commit of a batch that ends at the last cursor panics. *)
Definition allowed (s : Mem) (op : MemOp Dev) : Prop :=
  match op with
  | Install _ requests => Forall (fun r => bytes_ok r.(rp_bytes)) requests /\ log_room s (Z.of_nat (length requests))
  | AddMmio _ handler => dev_ok handler
  | InitializeRam _ offset bytes => 0 <= offset /\ bytes_ok bytes
  | ReadBytes _ _ count => 0 <= count
  | WriteBytes _ _ bytes => bytes_ok bytes /\ log_room s (Z.of_nat (length bytes))
  | Resize _ _ _ new_size _ _ => 0 <= new_size
  | MapAlias request => alias_request_ok request /\ log_room s 2 /\ 0 <= request.(al_size)
  | UnmapAlias request => alias_request_ok request /\ log_room s 2 /\ 0 <= request.(al_size) /\ alias_outside request
  | _ => True
  end.

Inductive reachable : Mem -> Prop :=
| reach_new : reachable SyntheticMemory_new
| reach_step s op : reachable s -> allowed s op -> reachable (mem_step s op).2.

(** The operations that must leave no trace when they fail. *)
Definition transactional (op : MemOp Dev) : bool :=
  match op with
  | Cpu (OpRead _ _ _) | Cpu (OpWrite _ _ _ _) | AddRam _ | AddMmio _ _ | InitializeRam _ _ _ => false
  | _ => true
  end.

Lemma initialize_ram_outcome s page offset bytes :
  synthetic_ok s -> 0 <= offset -> bytes_ok bytes ->
  wp (initialize_ram page offset bytes) (fun _ s' => synthetic_ok s') (fun _ _ => False) s.
Proof using.
  intros Hs Ho Hb.
  assert (Hput : forall s l g, synthetic_ok s -> page_bytes_ok l -> in_range 64 g ->
    synthetic_ok (set_pages (insert page (RamPage (Some l) g)) s)).
  { intros s0 l g Hs0 Hl Hg. split; cbn [set_pages pages mappings next_page_id invalidations]; [| |apply Hs0..].
    - intros q p [[_ <-]|[_ Hq]]%lookup_insert_Some; [done|by eapply syn_pages].
    - intros key m Hm. destruct (syn_mapped s0 Hs0 _ _ Hm) as [pg Hpg]. destruct (decide (m.(physical_page) = page)) as [->|];
        [rewrite lookup_insert_eq; eauto|rewrite lookup_insert_ne by congruence; eauto]. }
  unfold initialize_ram. eapply wp_mono; [apply (wp_or_false _ synthetic_ok synthetic_ok)|by intros []|done].
  apply wp_bind, wp_get. destruct (s.(pages) !! page) as [[contents g|d]|] eqn:Hp; [|done..].
  destruct (syn_pages s Hs _ _ Hp) as [Hok Hg]. apply wp_bind, wp_ok_or; [done|]. intros end_ _. apply wp_bind.
  assert (Hend : forall inval, match inval with Some record => reserve_with_origin s.(invalidations) (ExecutableContent page None) OriginHostWrite = Ok record | None => True end ->
    wp (do! put_ram page (Some (ram_contents contents)) g in
        let! new_contents := ok_or (splice (ram_contents contents) offset bytes) tt in
        let! next := ok_or (generation_next g) tt in
        do! put_ram page (Some new_contents) next in
        match inval with Some record => commit_one record | None => ret tt end) (fun _ => synthetic_ok) (fun _ => synthetic_ok) s).
  { intros inval Hinv. apply wp_bind, wp_modify. pose proof (Hput s (ram_contents contents) g Hs Hok Hg) as Hs1.
    apply wp_bind, wp_ok_or; [done|]. intros l Hl. apply wp_bind, wp_ok_or; [done|]. intros next Hn.
    apply generation_next_some in Hn as [-> Hlt]. apply wp_bind, wp_modify.
    assert (Hs2 : synthetic_ok (set_pages (insert page (RamPage (Some l) (g + 1))) (set_pages (insert page (RamPage (Some (ram_contents contents)) g)) s))).
    { apply Hput; [done| |destruct Hg; split; lia]. destruct Hok as [Hlen Hbk]. split; [by rewrite (splice_length _ _ _ _ Hl)|exact (splice_ok _ _ _ _ Hbk Hb Hl)]. }
    destruct inval as [record|]; [|exact Hs2]. apply wp_modify. apply set_invalidations_ok; [done|]. eapply log_ok_commit; [apply Hs|exact Hinv]. }
  destruct (any_mapping _ _); [|apply wp_ret; by apply (Hend None)].
  apply wp_bind, wp_reserve_one; [|done]. intros record Hres. apply wp_ret. by apply (Hend (Some record)).
Qed.

(** [mem_step] from a good state: no panic, a good state, and failures of the
    transactional operations that change nothing. *)
Definition step_ok (s : Mem) (trans : bool) (r : Outcome * Mem) : Prop :=
  r.1 <> Panicked /\ synthetic_ok r.2 /\ (r.1 = Failed -> trans = true -> r.2 = s).

Lemma step_ok_outcome {E A} (m : SM Mem E A) s (trans : bool) (R : E -> Mem -> Prop) :
  wp m (fun _ s' => synthetic_ok s') R s -> (forall e s', R e s' -> synthetic_ok s' /\ (trans = true -> s' = s)) ->
  step_ok s trans (outcome (m s)).
Proof using. intros Hw HR. unfold wp, step_ok, outcome in *. destruct (m s) as [[a|e|] s']; cbn; [done| |done]. destruct (HR e s' Hw). done. Qed.

Lemma step_ok_atomic {E A} (m : SM Mem E A) s (Q : A -> Mem -> Prop) :
  synthetic_ok s -> wp m Q (fun _ s' => s' = s) s -> (forall a s', Q a s' -> synthetic_ok s') -> step_ok s true (outcome (m s)).
Proof using.
  intros Hs Hw HQ. eapply (step_ok_outcome m s true (fun _ s' => s' = s)); [by eapply wp_mono|]. intros e s' ->. done.
Qed.

Lemma step_ok_bool (m : SM Mem Empty_set bool) s (P : Mem -> Prop) :
  synthetic_ok s -> wp m (fun b s' => if b then P s' else s' = s) (fun _ _ => False) s -> (forall s', P s' -> synthetic_ok s') ->
  step_ok s true (outcome_bool (m s)).
Proof using. intros Hs Hw HP. unfold wp, step_ok, outcome_bool in *. destruct (m s) as [[[]|e|] s']; cbn; [|subst; done|done|done]. split; [done|]. split; [by apply HP|done]. Qed.

Lemma cpu_step_ok s op : synthetic_ok s -> step_ok s (transactional (Cpu op)) (cpu_outcome s op).
Proof using dev_laws.
  intros Hs. destruct op as [space a acc|space a acc v|space a acc k v|space a acc e v|space k a|space a acc|space a acc v res]; cbn [cpu_outcome transactional].
  - eapply (step_ok_outcome _ s false (fun _ s' => synthetic_ok s')); [|by split]. eapply wp_mono; [by apply read_outcome| |by eauto using unchanged_ok].
    intros [v []] s'; cbn; [by intros [-> _]|intros [Hd _]; by eapply device_step_ok].
  - eapply (step_ok_outcome _ s false (fun _ s' => synthetic_ok s')); [|by split]. eapply wp_mono; [by apply write_outcome| |by eauto using unchanged_ok].
    intros [[]] s'; cbn; [naive_solver|intros Hd; by eapply device_step_ok].
  - eapply step_ok_atomic; [done|by apply rmw_outcome|naive_solver].
  - eapply step_ok_atomic; [done|by apply cas_outcome|naive_solver].
  - eapply step_ok_atomic; [done|by apply maintain_cache_outcome|naive_solver].
  - eapply step_ok_atomic; [done|by apply load_exclusive_outcome|]. intros [r res] s' [-> _]. done.
  - eapply step_ok_atomic; [done|by apply store_exclusive_outcome|]. intros [r b] s' [Hok _]. done.
Qed.

Lemma add_page_ok s page p : synthetic_ok s -> page_ok p -> synthetic_ok (set_pages (insert page p) s).
Proof using.
  intros Hs Hp. split; cbn [set_pages pages mappings next_page_id invalidations]; [| |apply Hs..].
  - intros q p' [[_ <-]|[_ Hq]]%lookup_insert_Some; [done|by eapply syn_pages].
  - intros key m Hm. destruct (syn_mapped s Hs _ _ Hm) as [pg Hpg]. destruct (decide (m.(physical_page) = page)) as [->|];
      [rewrite lookup_insert_eq; eauto|rewrite lookup_insert_ne by congruence; eauto].
Qed.

Lemma mem_step_ok s op : synthetic_ok s -> allowed s op -> step_ok s (transactional op) (mem_step s op).
Proof using dev_laws.
  intros Hs Ha. destruct op; cbn [allowed mem_step transactional] in *.
  - by apply cpu_step_ok.
  - eapply step_ok_atomic; [done|by apply fetch32_outcome|]. intros f s' [-> _]. done.
  - destruct Ha. eapply step_ok_atomic; [done|by apply install_outcome|]. by intros _ s' [Hok _].
  - eapply step_ok_bool; [done|by apply (set_mapping_purpose_outcome s)|naive_solver].
  - split; [by destruct (add_ram_page page s).1|]. split; [apply add_page_ok; [done|split; [apply zero_page_ok|split; [done|reflexivity]]]|done].
  - split; [by destruct (add_mmio_page page handler s).1|]. split; [by apply add_page_ok|done].
  - eapply step_ok_bool; [done|by apply (map_page_outcome s)|naive_solver].
  - pose proof (initialize_ram_outcome s page offset bytes Hs (proj1 Ha) (proj2 Ha)) as Hw. unfold wp in Hw. unfold step_ok, outcome_bool.
    destruct (initialize_ram page offset bytes s) as [[[]|e|] s']; cbn; done.
  - split; [done|]. split; [|done]. by destruct Hs.
  - split; [done|]. split; [|done]. by destruct Hs.
  - split; [done|]. split; [|done]. by destruct Hs.
  - eapply step_ok_atomic; [done|by apply read_bytes_outcome|]. intros l s' [-> _]. done.
  - destruct Ha. eapply step_ok_atomic; [done|by apply write_bytes_outcome|]. by intros _ s' [Hok _].
  - eapply step_ok_atomic; [done|by apply resize_outcome|]. by intros _ s' [Hok _].
  - destruct Ha as (? & ? & ?). eapply step_ok_atomic; [done|by apply map_alias_outcome|]. by intros _ s' [Hok _].
  - destruct Ha as (? & ? & ? & ?). by eapply step_ok_atomic; [|apply unmap_alias_safe|].
  - eapply step_ok_atomic; [done|by apply set_permissions_outcome|]. by intros _ s' [Hok _].
  - eapply step_ok_atomic; [done|by apply set_attributes_outcome|]. by intros _ s' [Hok _].
Qed.

Lemma new_ok : synthetic_ok (SyntheticMemory_new : Mem).
Proof using.
  split; cbn [SyntheticMemory_new pages mappings next_page_id invalidations].
  - intros page p Hp. by rewrite lookup_empty in Hp.
  - intros key m Hm. by rewrite lookup_empty in Hm.
  - intros key m Hm. by rewrite lookup_empty in Hm.
  - split; [done|reflexivity].
  - exists []. split; [apply represents_default|done].
Qed.

Lemma reachable_ok s : reachable s -> synthetic_ok s.
Proof using dev_laws. induction 1 as [|s op _ IH Ha]; [apply new_ok|]. by apply mem_step_ok. Qed.
End Claims.

(** ** Claims *)

(** C8. The invariant of the backend.  Every state reached from an empty memory
    by any sequence of its operations (CPU accesses, fetches, installations,
    mapping transactions, bulk copies, fixtures, fault injection, succeeding or
    failing) is well formed: RAM pages are 4096 bytes, every mapping points at
    an existing page, attributes are known ones and the invalidation ring
    represents its history; and from such a state no operation panics.  Two
    preconditions, [allowed], bound what the sequence may hold: no alias is
    unmapped whose destination begins inside its source, which the code does not
    refuse ([unmap_alias_inside_panics]; a destination that overlaps the source
    from below is included), and installations, bulk writes and alias
    transactions find room in the invalidation stream, which holds [2^64 - 1]
    records in its lifetime. *)
Theorem synthetic_reachable_ok {Dev : Type} `{SyntheticMmio Dev, !SyntheticMmioLaws Dev} (s : SyntheticMemory Dev) op :
  reachable s -> allowed s op ->
  synthetic_ok s /\ (mem_step s op).1 <> Panicked /\ synthetic_ok (mem_step s op).2.
Proof.
  intros Hr Ha. pose proof (reachable_ok s Hr) as Hs. split; [done|]. destruct (mem_step_ok s op Hs Ha) as (H1 & H2 & _). done.
Qed.

(** Removing an alias of a range to itself, or to a range that begins inside it,
    never succeeds: a request that fails a check changes nothing, and one that
    passes them all panics after it has removed a page it still needs as a
    source.  Three aliases of one RAM page beside each other show both. *)
Definition adjacent_aliases : SyntheticMemory Empty_set :=
  (mem_step (mem_step (mem_step (mem_step SyntheticMemory_new (AddRam 7)).2
    (MapPage 1 0x1000 7 3)).2 (MapPage 1 0x2000 7 3)).2 (MapPage 1 0x3000 7 3)).2.

Theorem unmap_alias_inside_panics :
  (forall (Dev : Type) `{SyntheticMmio Dev} (s : SyntheticMemory Dev) r,
     0 <= r.(al_size) -> r.(al_source) <= r.(al_destination) < r.(al_source) + r.(al_size) ->
     match unmap_alias r s with (Ok _, _) => False | (Err _, s') => s' = s | (Panic, _) => True end) /\
  reachable adjacent_aliases /\
  (forall destination size, (destination, size) ∈ [(0x1000, 0x1000); (0x2000, 0x2000)] ->
     let p := mkProperties 3 PurposeNormal 0 in
     (unmap_alias (mkAliasRequest 1 destination 0x1000 size p p p) adjacent_aliases).1 = Panic).
Proof.
  split; [|split].
  - intros Dev H s r Hsz Hin. apply unmap_alias_inside; [done|]. unfold alias_outside. lia.
  - repeat (apply reach_step; [|exact I]). apply reach_new.
  - intros destination size Hp p. repeat (apply elem_of_cons in Hp as [[= -> ->]|Hp]; [vm_compute; reflexivity|]).
    by apply not_elem_of_nil in Hp.
Qed.

(** C9. Transactions are all or nothing: from a well-formed memory, an
    installation, mapping, resize, alias, protection or attribute change, a bulk
    copy, an atomic or exclusive access or a fixture that reports failure leaves
    the whole memory, its mappings, pages, generations and invalidation stream,
    exactly as it was. *)
Theorem synthetic_failures_atomic {Dev : Type} `{SyntheticMmio Dev, !SyntheticMmioLaws Dev} (s s' : SyntheticMemory Dev) op :
  synthetic_ok s -> allowed s op -> transactional op = true -> mem_step s op = (Failed, s') -> s' = s.
Proof. intros Hs Ha Ht Hstep. destruct (mem_step_ok s op Hs Ha) as (_ & _ & H1). rewrite Hstep in H1. by apply H1. Qed.

(** Bulk round trip: when a bulk write of some bytes completes on a range
    in which no physical byte occurs twice, a bulk read of that range that
    completes returns exactly those bytes, and the generation of every physical
    page of the range, and of no other, advanced by one. *)
Theorem synthetic_bulk_roundtrip {Dev : Type} `{SyntheticMmio Dev, !SyntheticMmioLaws Dev}
    (s s1 s2 : SyntheticMemory Dev) space address data bytes :
  synthetic_ok s -> bytes_ok data -> log_room s (Z.of_nat (length data)) ->
  distinct_range s space address (Z.of_nat (length data)) ->
  write_bytes space address data s = (Ok tt, s1) ->
  read_bytes space address (Z.of_nat (length data)) s1 = (Ok bytes, s2) ->
  bytes = data /\ s2 = s1 /\
  forall page g, generation_of s page = Some g -> exists g', generation_of s1 page = Some g' /\
    (range_touches s space address (Z.of_nat (length data)) page -> g' = g + 1) /\
    (~ range_touches s space address (Z.of_nat (length data)) page -> g' = g).
Proof.
  intros Hs Hd Hroom Hdist Hw Hr. pose proof (write_bytes_outcome s space address data Hs Hd Hroom) as Ho.
  unfold wp in Ho. rewrite Hw in Ho. destruct Ho as (Hok & Hmap & _ & [_ Hnew] & Hgen).
  pose proof (read_bytes_outcome s1 space address (Z.of_nat (length data)) Hok ltac:(lia)) as Ho. unfold wp in Ho. rewrite Hr in Ho.
  destruct Ho as (-> & Hlen & Hbytes). split; [|done]. apply list_eq. intros k.
  destruct (decide (k < length data)%nat) as [Hk|Hk].
  - replace k with (Z.to_nat (Z.of_nat k)) by lia. rewrite Hbytes by lia. by apply (Hnew Hdist); [lia|].
  - rewrite !lookup_ge_None_2; [done|lia|lia].
Qed.

(** Aliasing a range and removing the alias again restores every mapping's
    physical page, permissions, purpose and attributes when the second request
    undoes the first: the destination is unmapped as before, the source has its
    old metadata, all other mappings are untouched and no page content changes. *)
Theorem synthetic_alias_roundtrip {Dev : Type} `{SyntheticMmio Dev, !SyntheticMmioLaws Dev}
    (s s1 s2 : SyntheticMemory Dev) r back :
  synthetic_ok s -> alias_request_ok r -> alias_request_ok back -> log_room s 2 -> log_room s1 2 -> 0 <= r.(al_size) -> alias_disjoint r ->
  back = mkAliasRequest r.(al_address_space) r.(al_destination) r.(al_source) r.(al_size)
           r.(al_source_after) r.(al_source_before) r.(al_destination_properties) ->
  map_alias r s = (Ok tt, s1) -> unmap_alias back s1 = (Ok tt, s2) ->
  s2.(pages) = s.(pages) /\
  forall key, option_map (fun m => (m.(physical_page), mapping_properties m)) (s2.(mappings) !! key) =
              option_map (fun m => (m.(physical_page), mapping_properties m)) (s.(mappings) !! key).
Proof.
  intros Hs Hr Hb Hroom Hroom1 Hsz Hdis -> Hm Hu. pose proof (map_alias_outcome s r Hs Hr Hroom Hsz) as Ho.
  unfold wp in Ho. rewrite Hm in Ho. destruct Ho as (Hs1 & Hp1 & sr & dr & g & Hsr & Hdr & Hpre & Hal).
  set (back := mkAliasRequest _ _ _ _ _ _ _) in *.
  pose proof (unmap_alias_outcome s1 back Hs1 Hb Hroom1 Hsz Hdis) as Ho. unfold wp in Ho. rewrite Hu in Ho.
  destruct Ho as (_ & Hp2 & sr' & dr' & g' & Hsr' & Hdr' & Hun). cbn [back al_source al_destination al_size] in Hsr', Hdr'.
  assert (sr' = sr) as -> by congruence. assert (dr' = dr) as -> by congruence. split; [congruence|].
  intros [sp q]. destruct (decide (sp = r.(al_address_space) /\ (q ∈ (alias_pairs sr dr).*1 \/ q ∈ (alias_pairs sr dr).*2))) as [[-> Hq]|Hk].
  - destruct Hq as [([a b] & -> & Hp)%list_elem_of_fmap|([a b] & -> & Hp)%list_elem_of_fmap]; cbn [fst snd];
      destruct (Hpre a b Hp) as (Hnone & m & Hma & Hprop); destruct (al_pair _ _ _ _ _ Hal a b Hp) as (m0 & Hm0 & Ha & Hbb);
      destruct (un_pair _ _ _ _ _ Hun a b Hp) as (m1 & Hm1 & Ha2 & Hb2); cbn [back al_address_space] in Hm1, Ha2, Hb2.
    + rewrite Ha2, Hma. assert (m0 = m) as -> by congruence. rewrite Ha in Hm1. injection Hm1 as <-.
      cbn [option_map apply_properties physical_page back al_source_after]. rewrite <- Hprop. by destruct m.
    + by rewrite Hb2, Hnone.
  - rewrite (un_frame _ _ _ _ _ Hun); [by rewrite (al_frame _ _ _ _ _ Hal)|exact Hk].
Qed.

(** Reprotection: a completed [set_permissions] gives every page of the
    range the new permissions, keeps its physical page, purpose and attributes,
    touches no other mapping, never makes a page both writable and executable,
    and never changes the permissions of a permission-locked page. *)
Theorem synthetic_set_permissions_spec {Dev : Type} `{SyntheticMmio Dev, !SyntheticMmioLaws Dev}
    (s s' : SyntheticMemory Dev) space start size perm :
  synthetic_ok s -> set_permissions space start size perm s = (Ok tt, s') ->
  exists r, nonempty_range start size = Some r /\ writable_executable perm = false /\
    range_effect s s' space r (fun m => (perm, m.(purpose), m.(attributes))) /\
    forall page m, page ∈ range_pages r -> s.(mappings) !! (space, page) = Some m ->
      attributes_contain m.(attributes) ATTR_PERMISSION_LOCKED = true -> m.(permissions) = perm.
Proof.
  intros Hs Hset. pose proof (set_permissions_outcome s space start size perm Hs) as Ho. unfold wp in Ho. rewrite Hset in Ho.
  by destruct Ho as [_ Ho].
Qed.

(** The byte behind a mapping of a RAM page. *)
Lemma byte_of_mapping {Dev : Type} (s : SyntheticMemory Dev) space page off m bytes g :
  s.(mappings) !! (space, page) = Some m -> s.(pages) !! m.(physical_page) = Some (RamPage bytes g) -> 0 <= off < 4096 ->
  byte_at s space (page * 4096 + off) = ram_contents bytes !! Z.to_nat off.
Proof.
  intros Hm Hp Ho. unfold byte_at, locate, mapping_at. rewrite virtual_page_unique, page_offset_unique, Hm by done.
  cbn [option_map]. unfold phys_byte. by rewrite Hp.
Qed.

Lemma zero_page_lookup off : 0 <= off < 4096 -> ZERO_PAGE !! Z.to_nat off = Some 0.
Proof. intros Ho. unfold ZERO_PAGE, SYNTHETIC_PAGE_SIZE. apply lookup_replicate. split; [done|lia]. Qed.

(** Growing a zeroed mapping and shrinking it back is the identity on
    mappings and physical pages; between the two, every byte of the added range
    is mapped and reads zero. *)
Theorem synthetic_resize_roundtrip {Dev : Type} `{SyntheticMmio Dev, !SyntheticMmioLaws Dev}
    (s s1 s2 : SyntheticMemory Dev) space start small large perm purpose :
  synthetic_ok s -> 0 <= small <= large ->
  resize_zeroed_mapping space start small large perm purpose s = (Ok tt, s1) ->
  resize_zeroed_mapping space start large small perm purpose s1 = (Ok tt, s2) ->
  (forall a, start + small <= a < start + large -> byte_at s1 space a = Some 0) /\
  s2.(mappings) = s.(mappings) /\ s2.(pages) = s.(pages).
Proof.
  intros Hs Hsz Hg Hsh. pose proof (resize_outcome s space start small large perm purpose Hs ltac:(lia)) as Ho.
  unfold wp in Ho. rewrite Hg in Ho. destruct Ho as (Hs1 & r1 & r2 & Hr1 & Hr2 & _ & _ & Hvac & Hgrow).
  pose proof (resize_outcome s1 space start large small perm purpose Hs1 ltac:(lia)) as Ho.
  unfold wp in Ho. rewrite Hsh in Ho. destruct Ho as (_ & r3 & r4 & Hr3 & Hr4 & _ & _ & _ & Hshr).
  assert (r3 = r2) as -> by congruence. assert (r4 = r1) as -> by congruence.
  apply PageRange_new_some in Hr1 as (Hst & Hm1 & _ & ->). apply PageRange_new_some in Hr2 as (_ & Hm2 & _ & ->). cbn [range_end] in *.
  assert (Hstart : start = start / 4096 * 4096) by (rewrite (page_split start) at 1; rewrite Hst; unfold virtual_page, PAGE_SIZE, SYNTHETIC_PAGE_SIZE; lia).
  pose proof (Z.div_mod small 4096 ltac:(lia)). pose proof (Z.div_mod large 4096 ltac:(lia)).
  unfold resized in Hgrow, Hshr. rewrite (proj2 (Z.ltb_ge _ _)) in Hgrow by lia. destruct Hgrow as (pending & Hp1 & Hnd & Hfresh & Hgr).
  set (lo := start / 4096 + small / 4096) in *. set (hi := start / 4096 + large / 4096) in *.
  assert (Hin : forall page, lo <= page < hi -> exists id, (page, id) ∈ pending).
  { intros page Hp. assert (Hpg : page ∈ pending.*1) by (rewrite Hp1; apply elem_of_seqZ; lia).
    apply list_elem_of_fmap in Hpg as ([q id] & -> & Hpg). eauto. }
  split.
  - intros a Ha. rewrite (page_split a). pose proof (page_offset_bound a) as Hoff. unfold SYNTHETIC_PAGE_SIZE in Hoff.
    destruct (Hin (virtual_page a)) as [id Hid]; [pose proof (page_split a); lia|].
    destruct (gr_mapping _ _ _ _ _ _ _ Hgr _ _ Hid) as [g Hmap].
    rewrite (byte_of_mapping s1 space _ _ _ _ _ Hmap (gr_page _ _ _ _ _ _ _ Hgr _ _ Hid) Hoff). by apply zero_page_lookup.
  - destruct (Z.ltb_spec lo hi) as [Hlt|Hge].
    2: { assert (Hempty : pending = []) by (destruct pending; [done|rewrite seqZ_nil in Hp1 by lia; done]). subst pending.
         destruct Hshr as (pend2 & Hp2 & _ & _ & Hgr2). assert (pend2 = []) as -> by (destruct pend2; [done|rewrite seqZ_nil in Hp2 by lia; done]).
         assert (Hnr : forall key, in_range_of space [] key = false) by (intros key; unfold in_range_of; rewrite bool_decide_eq_false_2 by set_solver; apply andb_false_r).
         split; apply map_eq; intros k.
         - rewrite (gr_frame _ _ _ _ _ _ _ Hgr2) by apply Hnr. by rewrite (gr_frame _ _ _ _ _ _ _ Hgr) by apply Hnr.
         - rewrite (gr_old _ _ _ _ _ _ _ Hgr2) by set_solver. by rewrite (gr_old _ _ _ _ _ _ _ Hgr) by set_solver. }
    assert (Hms : s2.(mappings) = s.(mappings)).
    { apply map_eq. intros key. rewrite (rm_mappings _ _ _ _ _ Hshr). destruct (in_range_of space _ key) eqn:Hk.
      - destruct key as [sp q]. unfold in_range_of in Hk. cbn [fst snd] in Hk. rewrite andb_true_iff, Z.eqb_eq, bool_decide_eq_true in Hk.
        destruct Hk as [-> Hq]. symmetry. by apply Hvac.
      - rewrite (gr_frame _ _ _ _ _ _ _ Hgr); [done|]. by rewrite Hp1. }
    split; [done|]. apply map_eq. intros p. destruct (decide (p ∈ pending.*2)) as [Hpin|Hpin].
    + rewrite (Hfresh p Hpin). apply list_elem_of_fmap in Hpin as ([page id] & -> & Hpair). cbn [snd].
      destruct (gr_mapping _ _ _ _ _ _ _ Hgr _ _ Hpair) as [g Hmap]. apply (rm_gone _ _ _ _ _ Hshr page (mkMapping id g perm purpose ATTR_NONE)); [|exact Hmap|].
      * rewrite <- Hp1. by apply (list_elem_of_fmap_2 fst) in Hpair.
      * intros key m' Hm'. rewrite Hms in Hm'. destruct (syn_mapped s Hs _ _ Hm') as [pg Hpg]. cbn [physical_page].
        intros Heq. rewrite Heq, Hfresh in Hpg; [done|]. by apply (list_elem_of_fmap_2 snd) in Hpair.
    + rewrite (rm_other _ _ _ _ _ Hshr); [by apply (gr_old _ _ _ _ _ _ _ Hgr)|]. intros page m Hpg Hm.
      destruct (Hin page) as [id Hid]; [apply elem_of_seqZ in Hpg; lia|]. destruct (gr_mapping _ _ _ _ _ _ _ Hgr _ _ Hid) as [g Hmap].
      rewrite Hmap in Hm. injection Hm as <-. cbn [physical_page]. intros ->. apply Hpin. by apply (list_elem_of_fmap_2 snd) in Hid.
Qed.

(** Installation: when it completes, every requested page holds exactly the
    requested bytes with the requested permissions, and every other virtual
    byte, in every address space, is what it was. *)
Theorem synthetic_install_spec {Dev : Type} `{SyntheticMmio Dev, !SyntheticMmioLaws Dev} (s s' : SyntheticMemory Dev) space requests :
  synthetic_ok s -> Forall (fun r => bytes_ok r.(rp_bytes)) requests -> log_room s (Z.of_nat (length requests)) ->
  install_ram_pages_atomic space requests s = (Ok tt, s') ->
  (forall r i, r ∈ requests -> 0 <= i < 4096 -> byte_at s' space (r.(rp_virtual_address) + i) = r.(rp_bytes) !! Z.to_nat i /\
     exists m, mapping_at s' space (r.(rp_virtual_address) + i) = Some m /\ m.(permissions) = r.(rp_permissions)) /\
  (forall sp a, (sp <> space \/ forall r, r ∈ requests -> virtual_page a <> virtual_page r.(rp_virtual_address)) ->
     byte_at s' sp a = byte_at s sp a).
Proof.
  intros Hs Hb Hroom Hi. pose proof (install_outcome s space requests Hs Hb Hroom) as Ho. unfold wp in Ho. rewrite Hi in Ho.
  destruct Ho as (Hs' & page_list & pending & Hreq & Hnd & Hfor & Hfresh & Hin).
  assert (Hpend : forall x, x ∈ pending -> exists r, r ∈ requests /\ pending_page x = virtual_page r.(rp_virtual_address) /\ x.2 = r.(rp_bytes)).
  { intros x Hx. apply list_elem_of_lookup_1 in Hx as [k Hk]. destruct (Forall2_lookup_r _ _ _ _ _ Hfor Hk) as ([r page] & Hrp & id & ->).
    assert (Hrk : requests !! k = Some r /\ page_list !! k = Some page) by (by apply lookup_zip_Some).
    destruct Hrk as [Hrk Hpk]. destruct (Forall2_lookup_lr _ _ _ _ _ _ Hreq Hrk Hpk) as (Ha & _).
    exists r. split; [by eapply list_elem_of_lookup_2|]. split; [|done]. unfold pending_page. cbn [fst]. rewrite Ha.
    unfold page_address, PAGE_SIZE, SYNTHETIC_PAGE_SIZE. replace (page * 4096) with (page * 4096 + 0) by lia. by rewrite virtual_page_unique by lia. }
  split.
  - intros r i Hr Hii. apply list_elem_of_lookup_1 in Hr as [k Hk]. destruct (Forall2_lookup_l _ _ _ _ _ Hreq Hk) as (page & Hpk & Ha & Hlen & _).
    assert (Hzip : combine requests page_list !! k = Some (r, page)) by (by apply lookup_zip_Some).
    destruct (Forall2_lookup_l _ _ _ _ _ Hfor Hzip) as (x & Hx & id & ->). cbn [fst snd] in Hx.
    destruct (in_entry _ _ _ _ _ Hin _ _ _ _ (list_elem_of_lookup_2 _ _ _ Hx)) as [[g Hmap] Hpg].
    rewrite Ha. unfold page_address, PAGE_SIZE, SYNTHETIC_PAGE_SIZE. split.
    + exact (byte_of_mapping s' space page i _ _ _ Hmap Hpg Hii).
    + eexists. unfold mapping_at. rewrite virtual_page_unique by done. split; [exact Hmap|done].
  - intros sp a Hno. assert (Hframe : s'.(mappings) !! (sp, virtual_page a) = s.(mappings) !! (sp, virtual_page a)).
    { apply (in_frame _ _ _ _ _ Hin). unfold in_range_of. cbn [fst snd]. destruct Hno as [Hne|Hno]; [by rewrite (proj2 (Z.eqb_neq _ _))|].
      apply andb_false_iff. right. apply bool_decide_eq_false. intros (x & Hx1 & Hx2)%list_elem_of_fmap.
      destruct (Hpend x Hx2) as (r & Hr & Hpp & _). apply (Hno r Hr). congruence. }
    unfold byte_at, locate, mapping_at. rewrite Hframe. destruct (s.(mappings) !! (sp, virtual_page a)) as [m|] eqn:Hm; [|done].
    cbn [option_map]. unfold phys_byte. rewrite (in_old _ _ _ _ _ Hin); [done|]. intros Hid%Hfresh.
    destruct (syn_mapped s Hs _ _ Hm) as [pg Hpg]. congruence.
Qed.

(** ** Witnesses *)

Lemma synthetic_reachable_ok_witness :
  let s := (mem_step (SyntheticMemory_new : SyntheticMemory Empty_set) (AddRam 7)).2 in
  synthetic_ok s /\ (mem_step s (MapPage 1 0x1000 7 3)).1 <> Panicked /\ synthetic_ok (mem_step s (MapPage 1 0x1000 7 3)).2.
Proof. intros s. exact (synthetic_reachable_ok s (MapPage 1 0x1000 7 3) (reach_step _ (AddRam 7) reach_new I) I). Defined.

(** An executable and writable reprotection is refused. *)
Lemma synthetic_failures_atomic_witness : (mem_step alias_memory (SetPermissions 1 0x1000 0x1000 7)).2 = alias_memory.
Proof.
  apply (synthetic_failures_atomic alias_memory _ (SetPermissions 1 0x1000 0x1000 7) alias_memory_ok I eq_refl).
  rewrite (surjective_pairing (mem_step alias_memory (SetPermissions 1 0x1000 0x1000 7))) at 1.
  apply (f_equal (fun r => (r, _))). vm_compute. reflexivity.
Defined.

Lemma alias_memory_room n : 0 <= n < 1000 -> log_room alias_memory n.
Proof. intros Hn. unfold log_room. cbn. lia. Qed.

Lemma synthetic_bulk_roundtrip_witness :
  let s1 := (write_bytes 1 0x1002 [10; 20; 30] alias_memory).2 in
  (read_bytes 1 0x1002 3 s1).1 = Ok [10; 20; 30] /\ generation_of s1 7 = Some 2.
Proof.
  intros s1.
  assert (Hr : exists bytes, (read_bytes 1 0x1002 3 s1).1 = Ok bytes) by (eexists; vm_compute; reflexivity).
  destruct Hr as [bytes Hr].
  destruct (synthetic_bulk_roundtrip alias_memory s1 (read_bytes 1 0x1002 3 s1).2 1 0x1002 [10; 20; 30] bytes) as (-> & _ & Hg).
  - apply alias_memory_ok.
  - repeat constructor; lia.
  - apply alias_memory_room. cbn. lia.
  - intros i j Hi Hj. cbn in Hi, Hj. assert (i = 0 \/ i = 1 \/ i = 2) as [->|[->| ->]] by lia;
      assert (j = 0 \/ j = 1 \/ j = 2) as [->|[->| ->]] by lia; vm_compute; (reflexivity || discriminate).
  - unfold s1. rewrite (surjective_pairing (write_bytes 1 0x1002 [10; 20; 30] alias_memory)) at 1.
    apply (f_equal (fun r => (r, _))). vm_compute. reflexivity.
  - rewrite (surjective_pairing (read_bytes 1 0x1002 3 s1)) at 1. by rewrite <- Hr.
  - split; [done|]. destruct (Hg 7 1 eq_refl) as (g' & Hg' & Ht & _). rewrite Hg'. f_equal. apply Ht.
    exists 0, (mkMapping 7 1 3 PurposeNormal 0). split; [cbn; lia|]. split; reflexivity.
Defined.

Definition sample_alias : MemoryAliasRequest :=
  mkAliasRequest 1 0x8000 0x1000 0x1000 (mkProperties 3 PurposeNormal 0) (mkProperties 0 PurposeNormal 0) (mkProperties 3 PurposeNormal 0).
Definition sample_unalias : MemoryAliasRequest :=
  mkAliasRequest 1 0x8000 0x1000 0x1000 (mkProperties 0 PurposeNormal 0) (mkProperties 3 PurposeNormal 0) (mkProperties 3 PurposeNormal 0).

Lemma synthetic_alias_roundtrip_witness :
  let s1 := (map_alias sample_alias alias_memory).2 in let s2 := (unmap_alias sample_unalias s1).2 in
  s2.(pages) = alias_memory.(pages) /\ s2.(mappings) !! (1, 8) = None.
Proof.
  intros s1 s2. destruct (synthetic_alias_roundtrip alias_memory s1 s2 sample_alias sample_unalias) as [Hp Hm].
  - apply alias_memory_ok.
  - split; reflexivity.
  - split; reflexivity.
  - by apply alias_memory_room.
  - vm_compute. reflexivity.
  - cbn. lia.
  - left. cbn. lia.
  - reflexivity.
  - unfold s1. rewrite (surjective_pairing (map_alias sample_alias alias_memory)) at 1.
    apply (f_equal (fun r => (r, _))). vm_compute. reflexivity.
  - unfold s2. rewrite (surjective_pairing (unmap_alias sample_unalias s1)) at 1.
    apply (f_equal (fun r => (r, _))). vm_compute. reflexivity.
  - split; [exact Hp|]. specialize (Hm (1, 8)). destruct (mappings s2 !! (1, 8)); [discriminate Hm|reflexivity].
Defined.

Lemma synthetic_set_permissions_spec_witness :
  let s' := (set_permissions 1 0x5000 0x1000 1 alias_memory).2 in
  option_map permissions (s'.(mappings) !! (1, 5)) = Some 1 /\ s'.(mappings) !! (1, 1) = alias_memory.(mappings) !! (1, 1).
Proof.
  intros s'. destruct (synthetic_set_permissions_spec alias_memory s' 1 0x5000 0x1000 1 alias_memory_ok) as (r & Hr & _ & He & _).
  - unfold s'. rewrite (surjective_pairing (set_permissions 1 0x5000 0x1000 1 alias_memory)) at 1.
    apply (f_equal (fun r => (r, _))). vm_compute. reflexivity.
  - vm_compute in Hr. injection Hr as <-. split.
    + vm_compute. reflexivity.
    + vm_compute. reflexivity.
Defined.

Lemma synthetic_resize_roundtrip_witness :
  let s1 := (resize_zeroed_mapping 1 0x10000 0 0x1000 3 PurposeNormal alias_memory).2 in
  let s2 := (resize_zeroed_mapping 1 0x10000 0x1000 0 3 PurposeNormal s1).2 in
  byte_at s1 1 0x10010 = Some 0 /\ s2.(mappings) = alias_memory.(mappings) /\ s2.(pages) = alias_memory.(pages).
Proof.
  intros s1 s2. destruct (synthetic_resize_roundtrip alias_memory s1 s2 1 0x10000 0 0x1000 3 PurposeNormal) as (Hz & Hm & Hp).
  - apply alias_memory_ok.
  - lia.
  - unfold s1. rewrite (surjective_pairing (resize_zeroed_mapping 1 0x10000 0 0x1000 3 PurposeNormal alias_memory)) at 1.
    apply (f_equal (fun r => (r, _))). vm_compute. reflexivity.
  - unfold s2. rewrite (surjective_pairing (resize_zeroed_mapping 1 0x10000 0x1000 0 3 PurposeNormal s1)) at 1.
    apply (f_equal (fun r => (r, _))). vm_compute. reflexivity.
  - split; [apply Hz; lia|]. split; [exact Hm|exact Hp].
Defined.

Definition sample_page : SyntheticRamPage := mkRamPage 0x3000 (replicate 4096 5) 1.

Lemma synthetic_install_spec_witness :
  let s' := (install_ram_pages_atomic 1 [sample_page] alias_memory).2 in
  byte_at s' 1 (0x3000 + 17) = Some 5 /\ byte_at s' 1 0x1000 = byte_at alias_memory 1 0x1000.
Proof.
  intros s'. destruct (synthetic_install_spec alias_memory s' 1 [sample_page]) as [Hin Hout].
  - apply alias_memory_ok.
  - constructor; [|constructor]. apply Forall_replicate. by vm_compute.
  - apply alias_memory_room. cbn. lia.
  - unfold s'. rewrite (surjective_pairing (install_ram_pages_atomic 1 [sample_page] alias_memory)) at 1.
    apply (f_equal (fun r => (r, _))). vm_compute. reflexivity.
  - split; [destruct (Hin sample_page 17) as [Hb _]; [constructor|lia|exact Hb]|].
    apply Hout. right. intros r Hr. apply list_elem_of_singleton in Hr as ->. vm_compute. discriminate.
Defined.
