(* ===== verification/CpuA64Sem.v ===== *)
(** * Architectural decisions shared by the engines (crates/cpu/src/semantics/a64.rs)

    Tables that classify operand fields: hints, runtime registers, barriers,
    cache maintenance, scalar and exclusive transfers, and the shapes of the
    Advanced SIMD structure transfers. *)

From S2P Require Import Prelude CpuMemory DecodeA64.

(** ** platform.rs *)

Definition profile_id (p : TargetPlatform) : Z := match p with Switch1 => 1 | Switch2 => 2 end.

Definition data_zero_block_bytes (p : TargetPlatform) : Z := match p with Switch1 | Switch2 => 64 end.

Definition user_cache_maintenance_prohibited (p : TargetPlatform) : bool :=
  match p with Switch1 => true | Switch2 => false end.

(** ** SIMD structure transfers *)

Inductive SimdMemoryMode := Multiple | Lane (lane : Z) | Replicate.

Record SimdMemoryShape := mkShape {
  element_size : MemoryAccessSize;
  vector_bytes : Z;
  repetitions : Z;
  elements_per_register : Z;
  structure_registers : Z;
  mode : SimdMemoryMode;
  transfer_bytes : Z;
  immediate_post_index : Z
}.

(** The fields of [fp_simd::Operands] the two shape functions read. *)
Record StructureFields := mkStructure {
  s_structure_opcode : Z;
  s_element_size : Z;
  s_vector_128 : bool;
  s_structure_r : bool;
  s_load : bool
}.

Definition register_count (s : SimdMemoryShape) : Z := s.(repetitions) * s.(structure_registers).

Definition multiple_element (s : SimdMemoryShape) (index : Z) : Z * Z :=
  let per_repetition := s.(elements_per_register) * s.(structure_registers) in
  let repetition := index / per_repetition in
  let element := index mod per_repetition in
  (repetition + element mod s.(structure_registers), element / s.(structure_registers)).

Definition element_access_size (v : Z) : option MemoryAccessSize :=
  match v with
  | 0 => Some Byte | 1 => Some Halfword | 2 => Some Word | 3 => Some Doubleword | _ => None
  end.

Definition simd_multiple_structure_shape (f : StructureFields) : option SimdMemoryShape :=
  match match f.(s_structure_opcode) with
        | 0 => Some (4, 1) | 2 => Some (1, 4) | 4 => Some (3, 1) | 6 => Some (1, 3)
        | 7 => Some (1, 1) | 8 => Some (2, 1) | 10 => Some (1, 2) | _ => None end,
        element_access_size f.(s_element_size) with
  | Some (registers, repetitions), Some size =>
      if negb f.(s_vector_128) && (f.(s_element_size) =? 3) && negb (registers =? 1) then None
      else
        let vector_bytes := if f.(s_vector_128) then 16 else 8 in
        let transfer := vector_bytes * registers * repetitions in
        Some (mkShape size vector_bytes repetitions (vector_bytes / size_bytes size) registers
                Multiple transfer transfer)
  | _, _ => None
  end.

Definition simd_single_structure_shape (f : StructureFields) : option SimdMemoryShape :=
  let opcode := shr f.(s_structure_opcode) 1 in
  let registers := 1 + b2z f.(s_structure_r) + 2 * Z.land opcode 1 in
  let vector_bytes := if f.(s_vector_128) then 16 else 8 in
  let s := Z.land f.(s_structure_opcode) 1 in
  let q := b2z f.(s_vector_128) in
  let chosen :=
    match opcode with
    | 0 | 1 => Some (Byte, Lane (Z.lor (Z.lor (shl 8 q 3) (shl 8 s 2)) f.(s_element_size)))
    | 2 | 3 =>
        if Z.land f.(s_element_size) 1 =? 0
        then Some (Halfword, Lane (Z.lor (Z.lor (shl 8 q 2) (shl 8 s 1)) (shr f.(s_element_size) 1)))
        else None
    | 4 | 5 =>
        if f.(s_element_size) =? 0 then Some (Word, Lane (Z.lor (shl 8 q 1) s))
        else if (f.(s_element_size) =? 1) && (s =? 0) then Some (Doubleword, Lane q)
        else None
    | 6 | 7 =>
        if f.(s_load)
        then match element_access_size f.(s_element_size) with
             | Some size => Some (size, Replicate) | None => None end
        else None
    | _ => None
    end in
  match chosen with
  | None => None
  | Some (size, mode) =>
      let transfer := registers * size_bytes size in
      Some (mkShape size vector_bytes 1 (vector_bytes / size_bytes size) registers mode transfer transfer)
  end.

Definition simd_pair_access_size (size_bits : Z) : option MemoryAccessSize :=
  match size_bits with 0 => Some Word | 1 => Some Doubleword | 2 => Some Quadword | _ => None end.

Definition simd_memory_access_size (size_bits opcode : Z) : option MemoryAccessSize :=
  match size_bits + Z.shiftl (Z.land opcode 2) 1 with
  | 0 => Some Byte | 1 => Some Halfword | 2 => Some Word | 3 => Some Doubleword | 4 => Some Quadword
  | _ => None
  end.

(** ** Hints and system registers *)

Inductive HintOperation :=
| NoOperation | Yield | WaitForEvent | WaitForInterrupt | SendEvent | SendEventLocal.

Definition hint_operation (platform : TargetPlatform) (immediate : Z) : option HintOperation :=
  match immediate with
  | 0 => Some NoOperation
  | 1 => Some Yield
  | 2 => Some WaitForEvent
  | 3 => Some WaitForInterrupt
  | 4 => Some SendEvent
  | 5 => Some SendEventLocal
  | 7 | 8 | 10 | 12 | 14 | 24 | 25 | 26 | 27 | 28 | 29 | 30 | 31 =>
      match platform with Switch1 => Some NoOperation | Switch2 => None end
  | _ => None
  end.

Inductive RuntimeRegisterRead := Constant (value : Z) | TimerFrequency | TimerCounter.

(** [u32::trailing_zeros] of a block size. *)
Definition trailing_zeros_32 (v : Z) : Z :=
  from_option id 32 (List.find (fun k => Z.testbit v k) (seqZ 0 32)).

Definition runtime_register_read (platform : TargetPlatform) (system_key : Z)
  : option RuntimeRegisterRead :=
  if system_key =? 0xd53b0020 then Some (Constant (Z.lor (shl 64 4 16) 4))
  else if system_key =? 0xd53b00e0 then
    let bytes := data_zero_block_bytes platform in
    let prohibited := if user_cache_maintenance_prohibited platform then shl 64 1 4 else 0 in
    Some (Constant (Z.lor prohibited (trailing_zeros_32 bytes - 2)))
  else if system_key =? 0xd53be000 then Some TimerFrequency
  else if system_key =? 0xd53be020 then Some TimerCounter
  else None.

(** ** Barriers and cache maintenance *)

Definition barrier_operation (opcode option_ : Z) : option BarrierOperation :=
  if opcode =? 6 then (if option_ =? 15 then Some InstructionSynchronization else None)
  else if negb (opcode =? 4) && negb (opcode =? 5) then None
  else
    match match Z.land option_ 3 with
          | 1 => Some Reads | 2 => Some Writes | 3 => Some ReadsAndWrites | _ => None end,
          match shr option_ 2 with
          | 0 => Some OuterShareable | 1 => Some NonShareable | 2 => Some InnerShareable
          | 3 => Some FullSystem | _ => None end with
    | Some access, Some domain =>
        Some (if opcode =? 4 then DataSynchronization domain access else DataMemory domain access)
    | _, _ => None
    end.

Record CacheMaintenanceOperation := mkCacheOp { cache_kind : CacheMaintenanceKind; uses_address : bool }.

Definition cache_maintenance_operation (system_key : Z) : option CacheMaintenanceOperation :=
  if system_key =? 0xd5087500 then Some (mkCacheOp InstructionInvalidate false)
  else if system_key =? 0xd50b7520 then Some (mkCacheOp InstructionInvalidate true)
  else if system_key =? 0xd5087620 then Some (mkCacheOp DataInvalidate true)
  else if system_key =? 0xd50b7b20 then Some (mkCacheOp DataClean true)
  else if system_key =? 0xd50b7e20 then Some (mkCacheOp DataCleanAndInvalidate true)
  else None.

(** ** Scalar transfers *)

Record LoadSpec := mkLoad { signed : bool; destination_bits : Z }.

Definition LoadSpec_unsigned (size : MemoryAccessSize) : LoadSpec :=
  mkLoad false (match size with Doubleword => 64 | _ => 32 end).
Definition LoadSpec_signed (destination_bits : Z) : LoadSpec := mkLoad true destination_bits.

Inductive ScalarTransfer := Store | Load (spec : LoadSpec).

(** The panic is the "two-bit field" assertion. *)
Definition memory_size (size_bits : Z) : Result Empty_set MemoryAccessSize :=
  match size_bits with
  | 0 => Ok Byte | 1 => Ok Halfword | 2 => Ok Word | 3 => Ok Doubleword | _ => Panic
  end.

Definition scalar_transfer (opc : Z) (size : MemoryAccessSize) : option ScalarTransfer :=
  match opc, size with
  | 0, _ => Some Store
  | 1, _ => Some (Load (LoadSpec_unsigned size))
  | 2, (Byte | Halfword | Word) => Some (Load (LoadSpec_signed 64))
  | 3, (Byte | Halfword) => Some (Load (LoadSpec_signed 32))
  | _, _ => None
  end.

Definition literal_load (opc : Z) : option (MemoryAccessSize * LoadSpec) :=
  match opc with
  | 0 => Some (Word, LoadSpec_unsigned Word)
  | 1 => Some (Doubleword, LoadSpec_unsigned Doubleword)
  | 2 => Some (Word, LoadSpec_signed 64)
  | _ => None
  end.

Definition pair_transfer (size_bits : Z) (load : bool) : option (MemoryAccessSize * LoadSpec) :=
  match size_bits, load with
  | 0, _ => Some (Word, LoadSpec_unsigned Word)
  | 1, true => Some (Word, LoadSpec_signed 64)
  | 2, _ => Some (Doubleword, LoadSpec_unsigned Doubleword)
  | _, _ => None
  end.

Definition atomic_ordering (acquire release : bool) : MemoryOrdering :=
  match acquire, release with
  | false, false => Relaxed
  | true, false => Acquire
  | false, true => Release
  | true, true => AcquireRelease
  end.

Definition atomic_rmw_kind (opcode : Z) : option AtomicRmwKind :=
  match opcode with
  | 0 => Some Add | 1 => Some Clear | 2 => Some Xor | 3 => Some Set_
  | 4 => Some SignedMaximum | 5 => Some SignedMinimum
  | 6 => Some UnsignedMaximum | 7 => Some UnsignedMinimum
  | 8 => Some Swap
  | _ => None
  end.

Definition compare_exchange_pair_sizes (size_bits : Z) : option (MemoryAccessSize * MemoryAccessSize) :=
  match size_bits with
  | 0 => Some (Word, Doubleword)
  | 1 => Some (Doubleword, Quadword)
  | _ => None
  end.

Definition exclusive_transfer_sizes (size_bits : Z) (pair : bool)
  : Result Empty_set (option (MemoryAccessSize * MemoryAccessSize)) :=
  if negb pair then
    let? size := memory_size size_bits in Ok (Some (size, size))
  else Ok match size_bits with
       | 2 => Some (Word, Doubleword)
       | 3 => Some (Doubleword, Quadword)
       | _ => None
       end.

(** ** Structure shapes are well formed *)

Definition shape_ok (f : StructureFields) (s : SimdMemoryShape) : bool :=
  (1 <=? register_count s) && (register_count s <=? 4) &&
  (s.(immediate_post_index) =? s.(transfer_bytes)) &&
  (s.(elements_per_register) * size_bytes s.(element_size) =? s.(vector_bytes)) &&
  match s.(mode) with
  | Multiple => s.(transfer_bytes) =? s.(vector_bytes) * register_count s
  | Lane l => (0 <=? l) && (l <? s.(elements_per_register)) &&
              (s.(transfer_bytes) =? register_count s * size_bytes s.(element_size))
  | Replicate => f.(s_load) && (s.(transfer_bytes) =? register_count s * size_bytes s.(element_size))
  end.

(** Every (register, lane) pair of the transfer is the image of exactly one index. *)
Definition covers (s : SimdMemoryShape) : bool :=
  let total := register_count s * s.(elements_per_register) in
  forallb (fun r => forallb (fun l =>
    Nat.eqb (length (List.filter (fun i => let '(r', l') := multiple_element s i in (r' =? r) && (l' =? l))
                       (seqZ 0 total))) 1) (seqZ 0 s.(elements_per_register)))
    (seqZ 0 (register_count s)).

Definition bools : list bool := [false; true].
Definition all_structures : list StructureFields :=
  flat_map (fun op => flat_map (fun sz => flat_map (fun q => flat_map (fun r =>
    map (fun ld => mkStructure op sz q r ld) bools) bools) bools) (seqZ 0 4)) (seqZ 0 16).

Lemma all_structures_complete f :
  0 <= f.(s_structure_opcode) < 16 -> 0 <= f.(s_element_size) < 4 -> List.In f all_structures.
Proof.
  intros Hop Hsz. destruct f as [op sz q r ld]. cbn in Hop, Hsz. unfold all_structures.
  assert (Hb : forall b, List.In b bools) by (intros []; simpl; auto).
  apply in_flat_map. exists op. split; [apply list_elem_of_In, elem_of_seqZ; lia|].
  apply in_flat_map. exists sz. split; [apply list_elem_of_In, elem_of_seqZ; lia|].
  apply in_flat_map. exists q. split; [apply Hb|]. apply in_flat_map. exists r. split; [apply Hb|].
  apply in_map_iff. exists ld. split; [done|apply Hb].
Qed.

Definition shapes_checked (f : StructureFields) : bool :=
  match simd_multiple_structure_shape f with
  | Some s => shape_ok f s && covers s
  | None => true
  end &&
  match simd_single_structure_shape f with Some s => shape_ok f s | None => true end.

Lemma shapes_all : forallb shapes_checked all_structures = true.
Proof. vm_compute. reflexivity. Qed.

(** Every Advanced SIMD structure shape is well formed for all operand
    fields: one to four registers, the lane inside the vector, the transfer
    and post-index sizes equal to the bytes moved, replication only for loads;
    and [multiple_element] visits every (register, lane) pair exactly once. *)
Theorem simd_shapes_ok f s :
  0 <= f.(s_structure_opcode) < 16 -> 0 <= f.(s_element_size) < 4 ->
  (simd_multiple_structure_shape f = Some s -> shape_ok f s = true /\ covers s = true) /\
  (simd_single_structure_shape f = Some s -> shape_ok f s = true).
Proof.
  intros Hop Hsz. pose proof shapes_all as Hall. rewrite forallb_forall in Hall.
  specialize (Hall f (all_structures_complete f Hop Hsz)). unfold shapes_checked in Hall.
  apply andb_true_iff in Hall as [Hm Hs]. split; intros Heq; rewrite Heq in *; [|done].
  by apply andb_true_iff in Hm.
Qed.

Lemma simd_shapes_ok_witness :
  exists s, simd_multiple_structure_shape (mkStructure 8 2 true false true) = Some s /\
    shape_ok (mkStructure 8 2 true false true) s = true /\ covers s = true.
Proof.
  eexists. split; [reflexivity|].
  apply (simd_shapes_ok (mkStructure 8 2 true false true) _ ltac:(cbn; lia) ltac:(cbn; lia)). reflexivity.
Defined.
