(* ===== verification/InterpCore.v ===== *)
(** * The interpreter's machine and step results

    crates/cpu-interpreter/src/interpreter/mod.rs ([InterpreterContext],
    [InstructionStep], [InterpreterError]), crates/cpu/src/execution.rs
    ([VcpuEventState], [TimerSnapshot], the exits an instruction can produce)
    and crates/cpu/src/location.rs.

    What the Rust code reaches through references and cells is explicit here: a
    [Machine] holds the CPU state, the memory implementation's state, the local
    exclusive monitor and the vCPU events; a [Context] holds the immutable
    inputs.  A step is a state method over [Machine]. *)

From S2P Require Import Prelude CpuBits CpuArith CpuState CpuMemory MemCommon DecodeTable DecodeA64 CpuA64Sem.

Record LocationDescriptor := mkLocation { loc_pc : Z; loc_profile : Z }.

Record DecodedInstruction := mkDecoded {
  d_location : LocationDescriptor;
  d_encoding : Z;
  d_opcode : DecodedOpcode
}.

Inductive ExceptionKind :=
| ESupervisorCall | EBreakpoint | EUndefinedInstruction | EInstructionAbort | EDataAbort
| EAlignmentFault | EFloatingPoint | ESystemRegisterTrap.

Inductive SchedulerRequest := RYield | RWaitForEvent | RWaitForInterrupt | RSendEvent.

(** [UnallocatedEncoding] and its [InstructionDiagnostic] (crates/cpu/src/error.rs) *)
Record UnallocatedEncodingError := mkUnallocated {
  ue_location : LocationDescriptor; ue_encoding : Z; ue_reason : string
}.

(** [CpuExit].  An instruction step constructs [Scheduled],
    [ArchitecturalException], [SupervisorCallExit] and [DataFault]; the executor
    around the steps constructs the rest. *)
Inductive CpuExit :=
| UnsupportedSemantics (source : LocationDescriptor) (encoding : Z) (disassembly : string) (coverage_id : Z)
| UnallocatedEncoding (error : UnallocatedEncodingError)
| FetchFault (fault : InstructionFetchFault)
| BudgetExhausted
| Safepoint
| PendingEvent (mask : Z)
| Scheduled (source : LocationDescriptor) (request : SchedulerRequest)
| ArchitecturalException (source : LocationDescriptor) (kind : ExceptionKind) (syndrome : option Z)
| SupervisorCallExit (source : LocationDescriptor) (immediate : Z)
| DataFault (source : LocationDescriptor) (fault : DataAccessFault)
| LoaderReturn (source : LocationDescriptor) (result_code : Z).

Inductive InstructionStep := Continue | Exit (e : CpuExit).

Inductive InterpreterError :=
| UnsupportedInstruction (source : LocationDescriptor) (encoding coverage_id : Z)
| InvalidInstructionStream (source : LocationDescriptor) (encoding : Z) (reason : string)
| DirectMemoryError (source : LocationDescriptor) (detail : string).

Definition unsupported (d : DecodedInstruction) : InterpreterError :=
  UnsupportedInstruction d.(d_location) d.(d_encoding) d.(d_opcode).(o_pattern).(p_coverage_id).

(** [VcpuEventState]: the shared atomics as their current values. *)
Record VcpuEventState := mkEvents { event_register : bool; pending_interrupts : Z }.

Definition VcpuEventState_default : VcpuEventState := mkEvents false 0.
Definition signal_event (e : VcpuEventState) : VcpuEventState := mkEvents true e.(pending_interrupts).
Definition consume_event (e : VcpuEventState) : bool * VcpuEventState :=
  (e.(event_register), mkEvents false e.(pending_interrupts)).
Definition post_interrupts (e : VcpuEventState) (mask : Z) : VcpuEventState :=
  if negb (mask =? 0) then signal_event (mkEvents e.(event_register) (Z.lor e.(pending_interrupts) mask))
  else e.
Definition interrupts_pending (e : VcpuEventState) : bool := negb (e.(pending_interrupts) =? 0).
Definition take_pending_interrupts (e : VcpuEventState) : Z * VcpuEventState :=
  (e.(pending_interrupts), mkEvents e.(event_register) 0).

Record TimerSnapshot := mkTimer { counter : Z; frequency : Z }.

(** [DirectMemoryAccessError]: a guest fault or another failure, reported as text. *)
Inductive DirectError := DirectFault (fault : DataAccessFault) | DirectOther (detail : string).

(** The direct-memory slice of the worker, when one is attached. *)
Record DirectMemory (M : Type) := mkDirect {
  direct_read : Z -> MemoryAccess -> SM M DirectError MemoryValue;
  direct_write : Z -> MemoryAccess -> MemoryValue -> SM M DirectError unit
}.
Arguments mkDirect {M}. Arguments direct_read {M}. Arguments direct_write {M}.

Record Context (M : Type) := mkContext {
  platform : TargetPlatform;
  address_space_id : Z;
  architectural_timer : TimerSnapshot;
  direct_memory : option (DirectMemory M)
}.
Arguments mkContext {M}. Arguments platform {M}. Arguments address_space_id {M}.
Arguments architectural_timer {M}. Arguments direct_memory {M}.

Record Machine (M : Type) := mkMachine {
  cpu : A64State;
  mem : M;
  monitor : ExclusiveMonitorState;
  events : VcpuEventState
}.
Arguments mkMachine {M}. Arguments cpu {M}. Arguments mem {M}. Arguments monitor {M}. Arguments events {M}.

Section Access.
Context {M : Type}.

Definition with_cpu (m : Machine M) (s : A64State) : Machine M := mkMachine s m.(mem) m.(monitor) m.(events).
Definition with_mem (m : Machine M) (x : M) : Machine M := mkMachine m.(cpu) x m.(monitor) m.(events).
Definition with_monitor (m : Machine M) (x : ExclusiveMonitorState) : Machine M :=
  mkMachine m.(cpu) m.(mem) x m.(events).
Definition with_events (m : Machine M) (x : VcpuEventState) : Machine M :=
  mkMachine m.(cpu) m.(mem) m.(monitor) x.

Definition Step : Type := SM (Machine M) InterpreterError InstructionStep.

(** Run a memory method inside the machine. *)
Definition on_memory {E A} (op : SM M E A) : SM (Machine M) E A := fun m =>
  let '(r, x) := op m.(mem) in (r, with_mem m x).

(** [advance(state)] and [Ok(InstructionStep::Continue)] *)
Definition continue (m : Machine M) : Result InterpreterError InstructionStep * Machine M :=
  (Ok Continue, with_cpu m (advance m.(cpu))).
End Access.
Arguments Step M : clear implicits.
