(* ===== verification/InterpControl.v ===== *)
(** * Control-flow semantics (crates/cpu-interpreter/src/interpreter/a64/control.rs)

    [execute] touches only the CPU state; it returns a step outcome and the
    state it leaves.  An exception or a supervisor call leaves the PC at the
    instruction. *)

From S2P Require Import Prelude CpuBits CpuArith CpuState CpuMemory DecodeTable DecodeControl.
From S2P Require Import InterpCore.

Definition branch_target (pc immediate bits : Z) : Z :=
  wrap 64 (pc + to_signed 64 (wrap 64 (Z.shiftl (signed_immediate immediate bits) 2))).

Definition execute (d : DecodedInstruction) (instruction : Instruction)
  : SM A64State InterpreterError InstructionStep := fun state =>
  let fields := operands instruction in
  let source := d.(d_location) in
  let next_pc := wrap 64 (source.(loc_pc) + 4) in
  match instruction with
  | Nop _ => (Ok Continue, advance state)
  | BranchImmediate _ =>
      (Ok Continue, set_pc state (branch_target source.(loc_pc) fields.(immediate_26) 26))
  | BranchLinkImmediate _ =>
      let state := write_x state (zero_register 30) next_pc in
      (Ok Continue, set_pc state (branch_target source.(loc_pc) fields.(immediate_26) 26))
  | BranchRegister _ =>
      let branch_kind := fields.(branch_register_key) in
      if negb ((branch_kind =? 0xd61f0000) || (branch_kind =? 0xd63f0000) || (branch_kind =? 0xd65f0000))
      then (Err (unsupported d), state)
      else
        let target := read_x state (zero_register fields.(rn)) in
        if negb (Z.land target 3 =? 0)
        then (Ok (Exit (ArchitecturalException source EAlignmentFault None)), state)
        else
          let state := if branch_kind =? 0xd63f0000 then write_x state (zero_register 30) next_pc else state in
          (Ok Continue, set_pc state target)
  | ConditionalBranch _ =>
      let taken := evaluate_a64 (Condition_from_encoding fields.(condition)) state.(nzcv) in
      (Ok Continue, set_pc state
        (if taken then branch_target source.(loc_pc) fields.(immediate_19) 19 else next_pc))
  | CompareBranch _ =>
      let value := if fields.(width_64) then read_x state (zero_register fields.(rd))
                   else read_w state (zero_register fields.(rd)) in
      (Ok Continue, set_pc state
        (if Bool.eqb (negb (value =? 0)) fields.(nonzero)
         then branch_target source.(loc_pc) fields.(immediate_19) 19 else next_pc))
  | TestBranch _ =>
      let value := read_x state (zero_register fields.(rd)) in
      let bit_set := negb (Z.land value (shl 64 1 fields.(bit_index)) =? 0) in
      (Ok Continue, set_pc state
        (if Bool.eqb bit_set fields.(nonzero)
         then branch_target source.(loc_pc) fields.(immediate_14) 14 else next_pc))
  | SupervisorCall _ => (Ok (Exit (SupervisorCallExit source fields.(immediate_16))), state)
  | Breakpoint _ =>
      (Ok (Exit (ArchitecturalException source EBreakpoint (Some fields.(immediate_16)))), state)
  end.

(** ** Lemmas *)

(** The target is the PC plus four times the signed immediate. *)
Lemma branch_target_arith pc imm b :
  1 <= b <= 60 -> branch_target pc imm b = wrap 64 (pc + 4 * to_signed b (wrap b imm)).
Proof.
  intros Hb. unfold branch_target. pose proof (signed_immediate_range imm b ltac:(lia)) as Hr.
  rewrite signed_immediate_arith in * by lia.
  rewrite Z.shiftl_mul_pow2 by lia. change (2 ^ 2) with 4.
  assert (Hp : 2 ^ (b - 1) * 4 <= 2 ^ 63).
  { change 4 with (2 ^ 2). rewrite <- Z.pow_add_r by lia. apply Z.pow_le_mono_r; lia. }
  rewrite to_signed_wrap by (change (64 - 1) with 63; lia). f_equal. lia.
Qed.

Lemma bit_index_range bits : 0 <= (normalize_operands bits).(bit_index) < 64.
Proof.
  unfold normalize_operands. cbn [bit_index].
  assert (Hh : in_range 6 (shl 32 (field bits 31 1) 5)).
  { pose proof (field_bound bits 31 1 ltac:(lia)) as Hf. change (Z.ones 1) with 1 in Hf.
    change (2 ^ 1) with 2 in Hf.
    assert (Hc : field bits 31 1 = 0 \/ field bits 31 1 = 1) by lia.
    destruct Hc as [-> | ->]; vm_compute; split; (discriminate || reflexivity). }
  assert (Hl : in_range 6 (field bits 19 31)).
  { pose proof (field_1f bits 19). split; [lia|]. change (2 ^ 6) with 64. lia. }
  apply (in_range_lor 6 _ _ ltac:(lia) Hh Hl).
Qed.

Lemma branch_target_range pc imm b : in_range 64 (branch_target pc imm b).
Proof. apply wrap_range. lia. Qed.

(** ** Claims *)

(** The outcome of every instruction of the family; the client of this file is [Interp]. *)
Lemma control_execute_outcome d i s :
  state_ok s -> in_range 64 d.(d_location).(loc_pc) ->
  exists r s', execute d i s = (r, s') /\ state_ok s' /\
    match r with
    | Ok Continue =>
        s' = set_pc s s'.(pc) \/
        (s' = set_pc (write_x s (General 30) (wrap 64 (d.(d_location).(loc_pc) + 4))) s'.(pc) /\
         match i with BranchLinkImmediate _ | BranchRegister _ => True | _ => False end)
    | Ok (Exit _) | Err _ => s' = s
    | Panic => False
    end.
Proof.
  intros Hs Hpc. assert (Hn : in_range 64 (wrap 64 (d.(d_location).(loc_pc) + 4))) by (apply wrap_range; lia).
  assert (Hl : state_ok (write_x s (zero_register 30) (wrap 64 (d.(d_location).(loc_pc) + 4))))
    by (by apply write_x_ok).
  destruct i; cbn [execute operands]; cbv zeta.
  - do 2 eexists. split; [reflexivity|]. split; [by apply advance_ok|]. by left.
  - do 2 eexists. split; [reflexivity|]. split; [apply set_pc_ok; [done|apply branch_target_range]|]. by left.
  - do 2 eexists. split; [reflexivity|]. split; [apply set_pc_ok; [done|apply branch_target_range]|]. by right.
  - destruct (negb (_ || _)); [by do 2 eexists|]. destruct (negb (Z.land _ _ =? 0)); [by do 2 eexists|].
    do 2 eexists. split; [reflexivity|].
    pose proof (read_x_range s (zero_register value.(rn)) Hs).
    destruct (_ =? _); (split; [by apply set_pc_ok|]); [by right|by left].
  - do 2 eexists. split; [reflexivity|]. split; [|by left].
    apply set_pc_ok; [done|]. destruct (evaluate_a64 _ _); [apply branch_target_range|done].
  - do 2 eexists. split; [reflexivity|]. split; [|by left].
    apply set_pc_ok; [done|]. destruct (Bool.eqb _ _); [apply branch_target_range|done].
  - do 2 eexists. split; [reflexivity|]. split; [|by left].
    apply set_pc_ok; [done|]. destruct (Bool.eqb _ _); [apply branch_target_range|done].
  - by do 2 eexists.
  - by do 2 eexists.
Qed.

(** Control flow never panics and keeps the register-file invariant; an
    exit (supervisor call, breakpoint, misaligned register branch) or an
    unsupported instruction leaves the whole CPU state unchanged; a completed
    branch changes the PC and, for the linking forms only, X30, which receives
    the address of the next instruction. *)
Theorem control_execute_safe d i s :
  state_ok s -> in_range 64 d.(d_location).(loc_pc) ->
  exists r s', execute d i s = (r, s') /\ state_ok s' /\
    match r with
    | Ok Continue =>
        s' = set_pc s s'.(pc) \/
        (s' = set_pc (write_x s (General 30) (wrap 64 (d.(d_location).(loc_pc) + 4))) s'.(pc) /\
         match i with BranchLinkImmediate _ | BranchRegister _ => True | _ => False end)
    | Ok (Exit _) | Err _ => s' = s
    | Panic => False
    end.
Proof. exact (control_execute_outcome d i s). Qed.

Lemma control_execute_safe_witness :
  let d := mkDecoded (mkLocation 0 1) 0x14000002
             (DecodeTable.mkOpcode (pattern "b" 0xfc000000 0x14000000 0x2 199 B_FIELDS) 0x14000002) in
  exists i r s', normalize 0x2 0x14000002 = Ok i /\
    execute d i A64State_default = (r, s') /\ state_ok s'.
Proof.
  cbn zeta. eexists.
  destruct (control_execute_safe (mkDecoded (mkLocation 0 1) 0x14000002
    (DecodeTable.mkOpcode (pattern "b" 0xfc000000 0x14000000 0x2 199 B_FIELDS) 0x14000002))
    (BranchImmediate (normalize_operands 0x14000002)) A64State_default A64State_default_ok
    ltac:(vm_compute; split; [discriminate|reflexivity])) as (r & s' & He & Hok & _).
  exists r, s'. split; [reflexivity|]. split; [exact He|exact Hok].
Defined.

(** Branch destinations: an immediate branch goes to the PC plus four times
    its signed field and the linking form sets X30; a conditional branch, CBZ /
    CBNZ and TBZ / TBNZ go there exactly when the condition, the (32- or
    64-bit) register against zero, or the tested bit says so, and to the next
    instruction otherwise. *)
Theorem branch_spec d bits s :
  let f := normalize_operands bits in
  let src := d.(d_location).(loc_pc) in
  let next := wrap 64 (src + 4) in
  let target imm b := wrap 64 (src + 4 * to_signed b (wrap b imm)) in
  execute d (BranchImmediate f) s = (Ok Continue, set_pc s (target f.(immediate_26) 26)) /\
  execute d (BranchLinkImmediate f) s =
    (Ok Continue, set_pc (write_x s (General 30) next) (target f.(immediate_26) 26)) /\
  execute d (ConditionalBranch f) s = (Ok Continue, set_pc s
    (if evaluate_a64 (Condition_from_encoding f.(condition)) s.(nzcv)
     then target f.(immediate_19) 19 else next)) /\
  execute d (CompareBranch f) s = (Ok Continue, set_pc s
    (if Bool.eqb (read s f.(rd) (if f.(width_64) then 64 else 32) false =? 0) (negb f.(nonzero))
     then target f.(immediate_19) 19 else next)) /\
  execute d (TestBranch f) s = (Ok Continue, set_pc s
    (if Bool.eqb (Z.testbit (read s f.(rd) 64 false) f.(bit_index)) f.(nonzero)
     then target f.(immediate_14) 14 else next)).
Proof.
  cbn zeta. set (f := normalize_operands bits). unfold execute. cbn [operands].
  rewrite !branch_target_arith by lia. split_and!; try done.
  - do 3 f_equal. unfold read, select_register. destruct (f.(width_64)); cbn [Z.eqb Pos.eqb];
      destruct (_ =? 0), (f.(nonzero)); done.
  - do 3 f_equal. pose proof (bit_index_range bits) as Hb. fold f in Hb.
    rewrite shl_one by lia. unfold read, select_register. cbn [Z.eqb Pos.eqb].
    by rewrite <- bit_set_pow2 by lia.
Qed.
