(* ===== verification/InterpSystem.v ===== *)
(** * System instruction semantics (crates/cpu-interpreter/src/interpreter/a64/system.rs) *)

From S2P Require Import Prelude CpuBits CpuArith CpuState CpuMemory DecodeTable.
From S2P Require Import DecodeA64 CpuA64Sem DecodeSystem InterpCore.

Section System.
Context {M : Type} `{CpuMemory M} (context : Context M).

Definition execute_hint (fields : Operands) : bool :=
  match fields.(hint) with 32 | 34 | 36 | 38 => true | _ => false end.

(** The closure [scheduled]: advance, then report the request. *)
Definition scheduled (source : LocationDescriptor) (request : SchedulerRequest) : Step M := fun m =>
  (Ok (Exit (Scheduled source request)), with_cpu m (advance m.(cpu))).

Definition execute_architectural_hint (d : DecodedInstruction) (operation : HintOperation) : Step M :=
  fun m =>
  let source := d.(d_location) in
  match operation with
  | NoOperation => continue m
  | Yield => scheduled source RYield m
  | WaitForEvent =>
      let '(consumed, e) := consume_event m.(events) in
      let m := with_events m e in
      if consumed then continue m else scheduled source RWaitForEvent m
  | WaitForInterrupt =>
      if interrupts_pending m.(events) then continue m else scheduled source RWaitForInterrupt m
  | SendEvent => scheduled source RSendEvent m
  | SendEventLocal => continue (with_events m (signal_event m.(events)))
  end.

(** [execute_mrs]: [None] is the [return false]. *)
Definition system_register_value (state : A64State) (system_key : Z) : option Z :=
  if system_key =? 0xd53b4200 then Some state.(nzcv)
  else if system_key =? 0xd53b4400 then Some state.(fpcr)
  else if system_key =? 0xd53b4420 then Some state.(fpsr)
  else if system_key =? 0xd53bd040 then Some state.(tpidr_el0)
  else if system_key =? 0xd53bd060 then Some state.(tpidrro_el0)
  else match runtime_register_read context.(platform) system_key with
  | Some (Constant value) => Some value
  | Some TimerFrequency => Some context.(architectural_timer).(frequency)
  | Some TimerCounter => Some context.(architectural_timer).(counter)
  | None => None
  end.

Definition execute_mrs (state : A64State) (fields : Operands) : bool * A64State :=
  match system_register_value state fields.(system_key) with
  | Some value => (true, write state fields.(rt) 64 false value)
  | None => (false, state)
  end.

Definition execute_msr (state : A64State) (fields : Operands) : bool * A64State :=
  let value := read state fields.(rt) 64 false in
  let key := fields.(system_key) in
  if key =? 0xd51b4200 then (true, set_nzcv state (StateNzcv.from_bits (wrap 32 value)))
  else if key =? 0xd51b4400 then (true, set_fpcr state (wrap 32 value))
  else if key =? 0xd51b4420 then (true, set_fpsr state (wrap 32 value))
  else if key =? 0xd51bd040 then (true, set_tpidr_el0 state value)
  else (false, state).

Definition execute_barrier (fields : Operands) (m : Machine M) : bool * Machine M :=
  match barrier_operation fields.(barrier_opcode) fields.(barrier_option) with
  | None => (false, m)
  | Some operation => (true, with_mem m (mem_barrier operation m.(mem)))
  end.

Definition execute_system (fields : Operands) : SM (Machine M) DataAccessFault bool := fun m =>
  match cache_maintenance_operation fields.(system_key) with
  | None => (Ok false, m)
  | Some operation =>
      let address := if operation.(uses_address) then Some (read m.(cpu) fields.(rt) 64 false) else None in
      match on_memory (mem_maintain_cache context.(address_space_id) operation.(cache_kind) address) m with
      | (Ok _, m) => (Ok true, m)
      | (Err fault, m) => (Err fault, m)
      | (Panic, m) => (Panic, m)
      end
  end.

(** The tail of [execute]: [!outcome] is unsupported, otherwise advance. *)
Definition finish_outcome (d : DecodedInstruction) (outcome : bool) (m : Machine M)
  : Result InterpreterError InstructionStep * Machine M :=
  if negb outcome then (Err (unsupported d), m) else continue m.

Definition execute (d : DecodedInstruction) (instruction : Instruction) : Step M := fun m =>
  let fields := operands instruction in
  match instruction with
  | Hint _ =>
      match hint_operation context.(platform) fields.(hint) with
      | Some operation => execute_architectural_hint d operation m
      | None => finish_outcome d (execute_hint fields) m
      end
  | ReadRegister _ =>
      let '(outcome, s) := execute_mrs m.(cpu) fields in finish_outcome d outcome (with_cpu m s)
  | WriteRegister _ =>
      let '(outcome, s) := execute_msr m.(cpu) fields in finish_outcome d outcome (with_cpu m s)
  | Barrier _ =>
      let '(outcome, m) := execute_barrier fields m in finish_outcome d outcome m
  | ClearExclusive _ => continue (with_monitor m (monitor_clear m.(monitor)))
  | System _ =>
      match execute_system fields m with
      | (Ok outcome, m) => finish_outcome d outcome m
      | (Err fault, m) => (Ok (Exit (DataFault d.(d_location) fault)), m)
      | (Panic, m) => (Panic, m)
      end
  end.
End System.

(** ** Safety *)

Lemma set_fpcr_ok s v : state_ok s -> in_range 32 v -> state_ok (set_fpcr s v).
Proof. intros [] Hv. by split. Qed.
Lemma set_fpsr_ok s v : state_ok s -> in_range 32 v -> state_ok (set_fpsr s v).
Proof. intros [] Hv. by split. Qed.
Lemma set_tpidr_ok s v : state_ok s -> in_range 64 v -> state_ok (set_tpidr_el0 s v).
Proof. intros [] Hv. by split. Qed.

Lemma nzcv_range s : state_ok s -> in_range 32 s.(nzcv).
Proof.
  intros Hs. rewrite <- (ok_nzcv s Hs). rewrite Z.land_comm. apply in_range_land; [lia| |].
  - vm_compute. split; [discriminate|reflexivity].
  - rewrite <- (ok_nzcv s Hs). apply Z.land_nonneg. right. vm_compute. discriminate.
Qed.

(** A timer whose values are 64-bit integers. *)
Definition timer_ok (t : TimerSnapshot) : Prop := in_range 64 t.(counter) /\ in_range 64 t.(frequency).

Section Safety.
Context {M : Type} `{CpuMemory M} (context : Context M) (Ht : timer_ok context.(architectural_timer)).

Lemma system_register_value_range s key v :
  state_ok s -> system_register_value context s key = Some v -> in_range 64 v.
Proof using Ht.
  intros Hs Hv. unfold system_register_value in Hv.
  repeat match type of Hv with (if ?b then _ else _) = _ => destruct b; [injection Hv as <-; auto|] end.
  - apply in_range_32_64. by apply nzcv_range.
  - apply in_range_32_64, Hs.
  - apply in_range_32_64, Hs.
  - apply Hs.
  - apply Hs.
  - unfold runtime_register_read in Hv.
    repeat match type of Hv with context [if ?b then _ else _] => destruct b end;
      try discriminate Hv; injection Hv as <-; try apply Ht;
      destruct context.(platform); vm_compute; split; (discriminate || reflexivity).
Qed.

Lemma mrs_ok s f : state_ok s -> state_ok (execute_mrs context s f).2.
Proof using Ht.
  intros Hs. unfold execute_mrs. destruct (system_register_value _ _ _) eqn:Hv; [|done].
  apply write_ok; [done|]. by eapply system_register_value_range.
Qed.

Lemma msr_ok s f : state_ok s -> state_ok (execute_msr s f).2.
Proof using.
  intros Hs. unfold execute_msr. pose proof (read_range_64 s f.(rt) 64 false Hs).
  repeat match goal with |- context [if ?b then _ else _] => destruct b end; cbn [snd]; try done;
    [by apply set_nzcv_ok|apply set_fpcr_ok|apply set_fpsr_ok|by apply set_tpidr_ok]; try done;
    apply wrap_range; lia.
Qed.
End Safety.

(** ** Claims *)

(** The outcome of every instruction of the family; the client of this file is [Interp]. *)
Lemma system_execute_outcome {M : Type} `{CpuMemory M, !CpuMemoryLaws M} (context : Context M) d i m :
  timer_ok context.(architectural_timer) -> state_ok m.(cpu) -> mem_ok m.(mem) ->
  exists r m', execute context d i m = (r, m') /\ state_ok m'.(cpu) /\ mem_ok m'.(mem) /\
    m'.(cpu).(tpidrro_el0) = m.(cpu).(tpidrro_el0) /\
    match r with
    | Ok Continue | Ok (Exit (Scheduled _ _)) => m'.(cpu).(pc) = wrap 64 (m.(cpu).(pc) + 4)
    | Ok (Exit (DataFault _ _)) | Err _ => m'.(cpu) = m.(cpu)
    | _ => False
    end.
Proof.
  intros Ht Hs Hmem. unfold execute, finish_outcome, execute_architectural_hint, scheduled, continue.
  assert (Hadv : forall s : A64State, (advance s).(tpidrro_el0) = s.(tpidrro_el0)) by done.
  destruct i as [f|f|f|f|f|f]; cbn [operands]; cbv zeta.
  - destruct (hint_operation _ _) as [[]|]; cbn [consume_event].
    all: repeat match goal with |- context [if ?b then _ else _] => destruct b end.
    all: do 2 eexists; (split; [reflexivity|]); (split; [by try apply advance_ok|by split]).
  - pose proof (mrs_ok context Ht m.(cpu) f Hs) as Hok. unfold execute_mrs in *.
    destruct (system_register_value _ _ _) as [v|]; cbn [negb snd] in *.
    + do 2 eexists. split; [reflexivity|]. split; [by apply advance_ok|]. split; [done|]. split.
      * cbn. unfold write, write_w, write_x. by repeat case_match.
      * unfold advance. cbn [pc cpu with_cpu set_pc]. by rewrite write_pc.
    + do 2 eexists. split; [reflexivity|]. by destruct m.
  - pose proof (msr_ok m.(cpu) f Hs) as Hok. unfold execute_msr in *.
    repeat match goal with |- context [if ?b then _ else _] =>
      match b with negb _ => fail 1 | _ => destruct b end end; cbn [negb snd] in *.
    all: do 2 eexists; (split; [reflexivity|]).
    all: first [by split; [apply advance_ok|split] | by destruct m].
  - unfold execute_barrier. destruct (barrier_operation _ _); cbn [negb];
      do 2 eexists; (split; [reflexivity|]); [|done].
    split; [by apply advance_ok|]. split; [by apply barrier_law|by split].
  - do 2 eexists. split; [reflexivity|]. split; [by apply advance_ok|by split].
  - unfold execute_system, on_memory. destruct (cache_maintenance_operation _) as [op|].
    + pose proof (cache_law context.(address_space_id) op.(cache_kind)
        (if op.(uses_address) then Some (read m.(cpu) f.(rt) 64 false) else None) m.(mem) Hmem) as [Hx Hc].
      destruct (mem_maintain_cache _ _ _ _) as [[u|e|] x]; cbn [fst snd negb] in *; [| |done].
      * do 2 eexists. split; [reflexivity|]. split; [by apply advance_ok|by split].
      * do 2 eexists. split; [reflexivity|]. done.
    + do 2 eexists. split; [reflexivity|]. done.
Qed.

(** System instructions never panic over any lawful memory and keep the
    register-file invariant; an unsupported instruction or a data fault leaves
    the CPU state unchanged, every other outcome advances the PC by 4; and no
    system instruction can change the runtime-owned TPIDRRO_EL0.  The memory
    stays in a lawful state. *)
Theorem system_execute_safe {M : Type} `{CpuMemory M, !CpuMemoryLaws M} (context : Context M) d i m :
  timer_ok context.(architectural_timer) -> state_ok m.(cpu) -> mem_ok m.(mem) ->
  exists r m', execute context d i m = (r, m') /\ state_ok m'.(cpu) /\ mem_ok m'.(mem) /\
    m'.(cpu).(tpidrro_el0) = m.(cpu).(tpidrro_el0) /\
    match r with
    | Ok Continue | Ok (Exit (Scheduled _ _)) => m'.(cpu).(pc) = wrap 64 (m.(cpu).(pc) + 4)
    | Ok (Exit (DataFault _ _)) | Err _ => m'.(cpu) = m.(cpu)
    | _ => False
    end.
Proof. exact (system_execute_outcome context d i m). Qed.

(** A memory in which every access faults (the empty address space). *)
Definition unmapped (kind : DataAccessKind) (a addr : Z) : DataAccessFault := mkFault a addr kind Unmapped.
#[global] Instance EmptyMemory : CpuMemory unit := {|
  mem_read a addr _ := throw (unmapped ReadAccess a addr);
  mem_write a addr _ _ := throw (unmapped WriteAccess a addr);
  mem_atomic_rmw a addr _ _ _ := throw (unmapped WriteAccess a addr);
  mem_atomic_cas a addr _ _ _ := throw (unmapped WriteAccess a addr);
  mem_barrier _ m := m;
  mem_maintain_cache a _ addr := throw (unmapped ReadAccess a (default 0 addr));
  mem_load_exclusive a addr _ := throw (unmapped ReadAccess a addr);
  mem_store_exclusive a addr _ _ _ := throw (unmapped WriteAccess a addr)
|}.
#[global] Instance EmptyMemoryLaws : CpuMemoryLaws unit.
Proof. by exists (fun _ => True). Defined.

Definition empty_context : Context unit := mkContext Switch1 0 (mkTimer 0 0) None.
Definition empty_machine : Machine unit := mkMachine A64State_default tt None VcpuEventState_default.
Definition sample_decoded (bits id : Z) : DecodedInstruction :=
  mkDecoded (mkLocation 0 1) bits (mkOpcode (pattern "sample" 0 0 id 0 []) bits).

Lemma system_execute_safe_witness :
  exists r m', execute empty_context (sample_decoded 0xd503205f 0xb)
      (Hint (normalize_operands 0xd503205f)) empty_machine = (r, m') /\ state_ok m'.(cpu).
Proof.
  destruct (system_execute_safe empty_context (sample_decoded 0xd503205f 0xb)
    (Hint (normalize_operands 0xd503205f)) empty_machine) as (r & m' & He & Hok & _).
  - split; vm_compute; split; (discriminate || reflexivity).
  - apply A64State_default_ok.
  - exact I.
  - exists r, m'. split; [exact He|exact Hok].
Defined.

(** The write and read keys of a user-visible system register. *)
Definition register_keys : list (Z * Z) :=
  [(0xd51b4200, 0xd53b4200); (0xd51b4400, 0xd53b4400); (0xd51b4420, 0xd53b4420); (0xd51bd040, 0xd53bd040)].

(** Writing a system register with MSR and reading it back with MRS returns
    the value written: all 64 bits of TPIDR_EL0, the low 32 bits of FPCR and
    FPSR, and the four flag bits of NZCV; TPIDRRO_EL0 cannot be written. *)
Theorem msr_mrs_roundtrip {M : Type} `{CpuMemory M} (context : Context M) s f g :
  state_ok s -> 0 <= g.(rt) < 31 -> (f.(system_key), g.(system_key)) ∈ register_keys ->
  let v := read s f.(rt) 64 false in
  exists s1 s2, execute_msr s f = (true, s1) /\ execute_mrs context s1 g = (true, s2) /\
    read s2 g.(rt) 64 false =
      if g.(system_key) =? 0xd53b4200 then Z.land v StateNzcv.MASK
      else if g.(system_key) =? 0xd53bd040 then v else wrap 32 v.
Proof.
  intros Hs Hg Hk v. pose proof (read_range_64 s f.(rt) 64 false Hs) as Hv. fold v in Hv.
  pose proof (msr_ok s f Hs) as Hok. unfold execute_msr in *. fold v in Hok |- *.
  assert (Hrb : forall s' z, state_ok s' -> in_range 64 z ->
    read (write s' g.(rt) 64 false z) g.(rt) 64 false = z)
    by (intros; apply read_write_same; auto).
  assert (Hmask : StateNzcv.from_bits (wrap 32 v) = Z.land v StateNzcv.MASK).
  { unfold StateNzcv.from_bits. rewrite <- (land_ones_wrap 32) by lia.
    rewrite <- Z.land_assoc. f_equal. }
  assert (Hn : forall z, in_range 64 (Z.land z StateNzcv.MASK)).
  { intros z. apply in_range_32_64. rewrite Z.land_comm. change StateNzcv.MASK with (Z.land (Z.ones 32) StateNzcv.MASK).
    rewrite <- Z.land_assoc, Z.land_comm, land_ones_wrap by lia. apply wrap_range. lia. }
  unfold register_keys in Hk. rewrite !elem_of_cons, elem_of_nil in Hk.
  destruct Hk as [Hk|[Hk|[Hk|[Hk|[]]]]]; injection Hk as Hf Hgk; unfold execute_mrs, system_register_value;
    rewrite Hf in *; rewrite Hgk; cbn [Z.eqb Pos.eqb] in *; do 2 eexists;
    (split; [reflexivity|]); (split; [reflexivity|]); rewrite Hrb; try done; cbn [nzcv fpcr fpsr tpidr_el0 set_nzcv set_fpcr set_fpsr set_tpidr_el0];
    rewrite ?Hmask; try done; try apply Hn; apply in_range_32_64, wrap_range; lia.
Qed.

Lemma msr_mrs_roundtrip_witness :
  exists s1 s2, execute_msr A64State_default (normalize_operands 0xd51bd041) = (true, s1) /\
    execute_mrs empty_context s1 (normalize_operands 0xd53bd042) = (true, s2) /\
    read s2 2 64 false = 0.
Proof.
  destruct (msr_mrs_roundtrip empty_context A64State_default (normalize_operands 0xd51bd041)
    (normalize_operands 0xd53bd042) A64State_default_ok) as (s1 & s2 & H1 & H2 & H3).
  - vm_compute. split; [discriminate|reflexivity].
  - unfold register_keys. rewrite !elem_of_cons. right. right. right. left. reflexivity.
  - exists s1, s2. split; [exact H1|]. split; [exact H2|]. exact H3.
Defined.
