(* ===== verification/InterpMemory.v ===== *)
(** * Scalar memory semantics (crates/cpu-interpreter/src/interpreter/a64/memory.rs)

    Loads, stores, pairs, acquire/release, exclusives and atomics over any
    implementation of the memory contract.  [MemoryStep] is the Rust type
    [Result<Option<()>, MemoryStepError>]: [Ok false] stands for [Ok(None)], an
    unsupported encoding.  Register writes happen where the code makes them, so
    that a fault between two accesses shows what is left behind. *)

From S2P Require Import Prelude CpuBits CpuArith CpuState CpuMemory DecodeTable.
From S2P Require Import DecodeA64 CpuA64Sem DecodeMemory InterpCore.

Inductive MemoryStepError := Data (fault : DataAccessFault) | Direct (detail : string).

(** [impl From<DirectMemoryAccessError> for MemoryStepError] *)
Definition from_direct (e : DirectError) : MemoryStepError :=
  match e with DirectFault fault => Data fault | DirectOther detail => Direct detail end.

Section Memory.
Context {M : Type} `{CpuMemory M} (context : Context M).

Definition MM (A : Type) : Type := SM (Machine M) MemoryStepError A.
Definition MemoryStep : Type := MM bool.

(** [?] on a memory method: [From] converts the error. *)
Definition lift_memory {E A} (conv : E -> MemoryStepError) (op : SM M E A) : MM A := fun m =>
  let '(r, x) := op m.(mem) in (map_err conv r, with_mem m x).

Definition lift_result {A} (r : Result Empty_set A) : MM A := fun m =>
  match r with Ok a => (Ok a, m) | _ => (Panic, m) end.

Definition cpu_state : MM A64State := fun m => (Ok m.(cpu), m).
Definition set_cpu (s : A64State) : MM unit := fun m => (Ok tt, with_cpu m s).

(** [access]: ordinary access descriptions. *)
Definition access (size : MemoryAccessSize) (ordering : MemoryOrdering) (aligned : bool) : MemoryAccess :=
  mkAccess size (if aligned then Natural else Unaligned) ordering Normal.

Definition uses_direct (descriptor : MemoryAccess) : option (DirectMemory M) :=
  if bool_decide (descriptor.(a_ordering) = Relaxed) && bool_decide (descriptor.(a_class) = Normal)
  then context.(direct_memory) else None.

Definition ordinary_read (address : Z) (descriptor : MemoryAccess) : MM MemoryValue :=
  match uses_direct descriptor with
  | Some direct => lift_memory from_direct (direct.(direct_read) address descriptor)
  | None => lift_memory Data (mem_read context.(address_space_id) address descriptor)
  end.

Definition ordinary_write (address : Z) (value : MemoryValue) (descriptor : MemoryAccess) : MM unit :=
  match uses_direct descriptor with
  | Some direct => lift_memory from_direct (direct.(direct_write) address descriptor value)
  | None => lift_memory Data (mem_write context.(address_space_id) address descriptor value)
  end.

Definition register_value (state : A64State) (register : Z) (size : MemoryAccessSize)
  : Result Empty_set MemoryValue :=
  let value := read state register (match size with Doubleword => 64 | _ => 32 end) false in
  match size with
  | Byte => Ok (U8 (wrap 8 value))
  | Halfword => Ok (U16 (wrap 16 value))
  | Word => Ok (U32 (wrap 32 value))
  | Doubleword => Ok (U64 value)
  | Quadword => Panic
  end.

Definition loaded_value (size : MemoryAccessSize) (load : LoadSpec) (value : MemoryValue)
  : Result Empty_set Z :=
  let? raw := match value with
             | U8 v | U16 v | U32 v | U64 v => Ok v
             | U128 _ => Panic
             end in
  Ok (if load.(signed) then wrap 64 (signed_immediate raw (size_bytes size * 8)) else raw).

Definition write_loaded (register : Z) (size : MemoryAccessSize) (load : LoadSpec) (value : MemoryValue)
  : MM unit :=
  let! state := cpu_state in
  let! result := lift_result (loaded_value size load value) in
  set_cpu (write state register load.(destination_bits) false result).

Definition transfer (fields : Operands) (address : Z) (size : MemoryAccessSize) (descriptor : MemoryAccess)
  : MemoryStep :=
  match scalar_transfer fields.(opc) size with
  | Some Store =>
      let! state := cpu_state in
      let! value := lift_result (register_value state fields.(rt) size) in
      do! ordinary_write address value descriptor in
      ret true
  | Some (Load load) =>
      let! value := ordinary_read address descriptor in
      do! write_loaded fields.(rt) size load value in
      ret true
  | None => ret false
  end.

Definition literal (d : DecodedInstruction) (fields : Operands) : MemoryStep :=
  match literal_load fields.(size) with
  | None => ret false
  | Some (sz, load) =>
      let offset := to_signed 64 (wrap 64 (Z.shiftl (signed_immediate fields.(immediate_19) 19) 2)) in
      let address := wrap 64 (d.(d_location).(loc_pc) + offset) in
      let! value := ordinary_read address (access sz Relaxed false) in
      do! write_loaded fields.(rt) sz load value in
      ret true
  end.

Definition unsigned (fields : Operands) : MemoryStep :=
  let! sz := lift_result (memory_size fields.(size)) in
  let! state := cpu_state in
  let base := read state fields.(rn) 64 true in
  let address := wrap 64 (base + wrap 64 (fields.(immediate_12) * size_bytes sz)) in
  transfer fields address sz (access sz Relaxed false).

Definition is_unscaled (i : Instruction) : bool := match i with Unscaled _ => true | _ => false end.
Definition is_pre_index (i : Instruction) : bool := match i with PreIndex _ => true | _ => false end.

Definition indexed (fields : Operands) (instruction : Instruction) : MemoryStep :=
  if negb (is_unscaled instruction) && negb (fields.(rn) =? 31) && (fields.(rn) =? fields.(rt))
  then ret false
  else
    let! sz := lift_result (memory_size fields.(size)) in
    let! state := cpu_state in
    let base := read state fields.(rn) 64 true in
    let offset := signed_immediate fields.(immediate_9) 9 in
    let address := if is_unscaled instruction || is_pre_index instruction
                   then wrap 64 (base + offset) else base in
    let! done := transfer fields address sz (access sz Relaxed false) in
    if negb done then ret false
    else if negb (is_unscaled instruction) then
      let! state := cpu_state in
      do! set_cpu (write state fields.(rn) 64 true (wrap 64 (base + offset))) in
      ret true
    else ret true.

(** [size.bytes().trailing_zeros()] *)
Definition size_log2 (sz : MemoryAccessSize) : Z := Z.log2 (size_bytes sz).

Definition register_offset (fields : Operands) : MemoryStep :=
  let! sz := lift_result (memory_size fields.(size)) in
  let! state := cpu_state in
  match register_offset_address state fields.(rn) fields.(rm) fields.(option_) fields.(scaled) (size_log2 sz) with
  | None => ret false
  | Some address => transfer fields address sz (access sz Relaxed false)
  end.

Definition pair (fields : Operands) : MemoryStep :=
  match pair_transfer fields.(size) fields.(load) with
  | None => ret false
  | Some (sz, load_spec) =>
    let writeback := (fields.(mode) =? 1) || (fields.(mode) =? 3) in
    if (fields.(load) && (fields.(rt) =? fields.(rt2))) ||
       (writeback && negb (fields.(rn) =? 31) &&
        ((fields.(rn) =? fields.(rt)) || (fields.(rn) =? fields.(rt2))))
    then ret false
    else
      let! state := cpu_state in
      let base := read state fields.(rn) 64 true in
      let offset := signed_immediate fields.(immediate_7) 7 * size_bytes sz in
      let transfer_base := if fields.(mode) =? 1 then base else wrap 64 (base + offset) in
      let first := transfer_base in
      let second := wrap 64 (first + size_bytes sz) in
      let descriptor := access sz Relaxed false in
      do! (if fields.(load) then
             let! first_value := ordinary_read first descriptor in
             let! second_value := ordinary_read second descriptor in
             do! write_loaded fields.(rt) sz load_spec first_value in
             write_loaded fields.(rt2) sz load_spec second_value
           else
             let! v1 := lift_result (register_value state fields.(rt) sz) in
             do! ordinary_write first v1 descriptor in
             let! v2 := lift_result (register_value state fields.(rt2) sz) in
             ordinary_write second v2 descriptor) in
      if writeback then
        let! state := cpu_state in
        do! set_cpu (write state fields.(rn) 64 true (wrap 64 (base + offset))) in
        ret true
      else ret true
  end.

Definition acquire_release (fields : Operands) (instruction : Instruction) : MemoryStep :=
  let load := match instruction with LoadAcquire _ => true | _ => false end in
  let ordering := if load then Acquire else Release in
  let! sz := lift_result (memory_size fields.(size)) in
  let! state := cpu_state in
  let address := read state fields.(rn) 64 true in
  let descriptor := access sz ordering true in
  if load then
    let! value := lift_memory Data (mem_read context.(address_space_id) address descriptor) in
    do! write_loaded fields.(rt) sz (LoadSpec_unsigned sz) value in
    ret true
  else
    let! value := lift_result (register_value state fields.(rt) sz) in
    do! lift_memory Data (mem_write context.(address_space_id) address descriptor value) in
    ret true.

(** [low | (high << (element_size.bytes() * 8))] as a value of [access_size] *)
Definition pair_value (state : A64State) (r1 r2 : Z) (element_size access_size : MemoryAccessSize)
  : Result Empty_set MemoryValue :=
  let? low := register_value state r1 element_size in
  let? high := register_value state r2 element_size in
  Ok (value_from_bits access_size
        (Z.lor (value_bits low) (shl 128 (value_bits high) (size_bytes element_size * 8)))).

(** The two register writes of a pair result. *)
Definition write_pair (r1 r2 : Z) (element_size : MemoryAccessSize) (bits : Z) : MM unit :=
  let w := wrap 8 (size_bytes element_size * 8) in
  let! state := cpu_state in
  do! set_cpu (write state r1 w false (wrap 64 bits)) in
  let! state := cpu_state in
  set_cpu (write state r2 w false (wrap 64 (shr bits (size_bytes element_size * 8)))).

Definition exclusive (fields : Operands) (instruction : Instruction) : MemoryStep :=
  let pair := match instruction with LoadExclusivePair _ | StoreExclusivePair _ => true | _ => false end in
  let! sizes := lift_result (exclusive_transfer_sizes fields.(size) pair) in
  match sizes with
  | None => ret false
  | Some (element_size, access_size) =>
    let! state := cpu_state in
    let address := read state fields.(rn) 64 true in
    let load := match instruction with LoadExclusive _ | LoadExclusivePair _ => true | _ => false end in
    let ordering := match load, fields.(ordered) with
                    | true, true => Acquire | false, true => Release | _, false => Relaxed end in
    let descriptor := mkAccess access_size Natural ordering Exclusive in
    if load then
      let! vr := lift_memory Data (mem_load_exclusive context.(address_space_id) address descriptor) in
      do! modify (fun m => with_monitor m (monitor_reserve m.(monitor) vr.2)) in
      if pair then
        do! write_pair fields.(rt) fields.(rt2) element_size (value_bits vr.1) in
        ret true
      else
        do! write_loaded fields.(rt) element_size (LoadSpec_unsigned element_size) vr.1 in
        ret true
    else
      let! m0 := get in
      let reservation := m0.(monitor) in
      do! modify (fun m => with_monitor m (monitor_clear m.(monitor))) in
      let! value := lift_result (if pair then pair_value state fields.(rt) fields.(rt2) element_size access_size
                                 else register_value state fields.(rt) element_size) in
      let! succeeded := match reservation with
                        | Some r => lift_memory Data (mem_store_exclusive context.(address_space_id) address
                                                        descriptor value r)
                        | None => ret false
                        end in
      let! state := cpu_state in
      do! set_cpu (write state fields.(rm) 32 false (b2z (negb succeeded))) in
      ret true
  end.

Definition atomic (fields : Operands) (instruction : Instruction) : MemoryStep :=
  let! state := cpu_state in
  let address := read state fields.(rn) 64 true in
  let ordering := atomic_ordering fields.(acquire) fields.(release) in
  match instruction with
  | AtomicReadModifyWrite _ =>
      match atomic_rmw_kind fields.(atomic_opcode) with
      | None => ret false
      | Some kind =>
          let! sz := lift_result (memory_size fields.(size)) in
          let descriptor := mkAccess sz Natural ordering Atomic in
          let! operand := lift_result (register_value state fields.(rm) sz) in
          let! previous := lift_memory Data (mem_atomic_rmw context.(address_space_id) address descriptor kind operand) in
          do! write_loaded fields.(rt) sz (LoadSpec_unsigned sz) previous in
          ret true
      end
  | CompareAndSwap _ =>
      let! sz := lift_result (memory_size fields.(size)) in
      let descriptor := mkAccess sz Natural ordering Atomic in
      let! expected := lift_result (register_value state fields.(rm) sz) in
      let! replacement := lift_result (register_value state fields.(rt) sz) in
      let! previous := lift_memory Data (mem_atomic_cas context.(address_space_id) address descriptor expected replacement) in
      do! write_loaded fields.(rm) sz (LoadSpec_unsigned sz) previous in
      ret true
  | CompareAndSwapPair _ =>
      if (1 <? fields.(size)) || negb (Z.land fields.(rm) 1 =? 0) || negb (Z.land fields.(rt) 1 =? 0)
      then ret false
      else match compare_exchange_pair_sizes fields.(size) with
      | None => ret false
      | Some (element_size, access_size) =>
          let descriptor := mkAccess access_size Natural ordering Atomic in
          let! expected := lift_result (pair_value state fields.(rm) (fields.(rm) + 1) element_size access_size) in
          let! replacement := lift_result (pair_value state fields.(rt) (fields.(rt) + 1) element_size access_size) in
          let! previous := lift_memory Data (mem_atomic_cas context.(address_space_id) address descriptor expected replacement) in
          do! write_pair fields.(rm) (fields.(rm) + 1) element_size (value_bits previous) in
          ret true
      end
  | _ => panic
  end.

(** The [match] of [execute]. *)
Definition dispatch (d : DecodedInstruction) (instruction : Instruction) : MemoryStep :=
  let fields := operands instruction in
  match instruction with
  | Literal _ => literal d fields
  | Unsigned _ => unsigned fields
  | Unscaled _ | PostIndex _ | PreIndex _ => indexed fields instruction
  | Register_ _ => register_offset fields
  | Pair _ => pair fields
  | LoadAcquire _ | StoreRelease _ => acquire_release fields instruction
  | LoadExclusive _ | StoreExclusive _ | LoadExclusivePair _ | StoreExclusivePair _ =>
      exclusive fields instruction
  | AtomicReadModifyWrite _ | CompareAndSwap _ | CompareAndSwapPair _ => atomic fields instruction
  end.

Definition execute (d : DecodedInstruction) (instruction : Instruction) : Step M := fun m =>
  if is_prefetch instruction then continue m
  else match dispatch d instruction m with
  | (Ok true, m) => continue m
  | (Ok false, m) => (Err (unsupported d), m)
  | (Err (Data fault), m) => (Ok (Exit (DataFault d.(d_location) fault)), m)
  | (Err (Direct detail), m) => (Err (DirectMemoryError d.(d_location) detail), m)
  | (Panic, m) => (Panic, m)
  end.
End Memory.
