(* ===== verification/InterpMemorySpec.v ===== *)
(** * Safety and behaviour of the scalar memory instructions

    The handlers of [InterpMemory] are verified against the memory contract
    [CpuMemoryLaws] with the weakest preconditions of the prelude: any
    implementation of the contract will do.  The central property is precision:
    a fault leaves every register as it was. *)

From S2P Require Import Prelude CpuBits CpuArith CpuState CpuMemory DecodeTable.
From S2P Require Import DecodeA64 CpuA64Sem InterpCore InterpSystem DecodeMemory InterpMemory.

(** What a memory instruction may touch in the CPU: general registers and SP. *)
Record reg_only (s s' : A64State) : Prop := {
  ro_pc : s'.(pc) = s.(pc);
  ro_vector : s'.(vector) = s.(vector);
  ro_tpidr : s'.(tpidr_el0) = s.(tpidr_el0);
  ro_tpidrro : s'.(tpidrro_el0) = s.(tpidrro_el0);
  ro_nzcv : s'.(nzcv) = s.(nzcv);
  ro_fpcr : s'.(fpcr) = s.(fpcr);
  ro_fpsr : s'.(fpsr) = s.(fpsr)
}.

Lemma reg_only_refl s : reg_only s s.
Proof. by split. Qed.

Lemma reg_only_write s s' i w b v : reg_only s s' -> reg_only s (write s' i w b v).
Proof.
  intros []. unfold write, write_w, write_x. repeat case_match; by split.
Qed.

#[export] Hint Resolve reg_only_refl reg_only_write : nixe_state.

(** What the operand normalizer guarantees. *)
Record mem_fields_ok (f : Operands) : Prop := {
  mok_size : 0 <= f.(size) < 4;
  mok_rt : 0 <= f.(rt) < 32;
  mok_rn : 0 <= f.(rn) < 32;
  mok_rt2 : 0 <= f.(rt2) < 32;
  mok_rm : 0 <= f.(rm) < 32
}.

Lemma mem_normalize_ok id bits : in_range 32 bits -> mem_fields_ok (normalize_operands id bits).
Proof.
  intros Hb. split; cbn [normalize_operands size rt rn rt2 rm]; try apply field_1f.
  assert (Hs : in_range 2 (shr bits 30)).
  { unfold shr. rewrite Z.shiftr_div_pow2 by lia. destruct Hb as [Hb1 Hb2].
    split; [apply Z.div_pos; lia|]. apply Z.div_lt_upper_bound; lia. }
  rewrite wrap_small; [exact Hs|]. by apply (in_range_le 2); [lia|].
Qed.

Section Safe.
Context {M : Type} `{CpuMemory M} {laws : CpuMemoryLaws M} (context : Context M).

(** The direct slice, when present, obeys the same contract. *)
Definition direct_lawful : Prop :=
  match context.(direct_memory) with
  | None => True
  | Some dm => (forall addr acc m, mem_ok m -> returns mem_ok (value_ok acc.(a_size)) (dm.(direct_read) addr acc m)) /\
               (forall addr acc v m, mem_ok m -> returns mem_ok (fun _ => True) (dm.(direct_write) addr acc v m))
  end.

Context (Hdirect : direct_lawful).

(** A method of the memory changes the memory only. *)
Lemma wp_lift {E A} conv (op : SM M E A) (P : A -> Prop) (Q : A -> Machine M -> Prop) (R : MemoryStepError -> Machine M -> Prop) m :
  returns mem_ok P (op m.(mem)) ->
  (forall a x, P a -> mem_ok x -> Q a (with_mem m x)) -> (forall e x, mem_ok x -> R e (with_mem m x)) ->
  wp (lift_memory conv op) Q R m.
Proof using.
  intros [Hx Hr] HQ HR. unfold wp, lift_memory in *. destruct (op m.(mem)) as [[a|e|] x0]; cbn in *; [by apply HQ|by apply HR|done].
Qed.

Lemma wp_ordinary_read addr acc (Q : MemoryValue -> Machine M -> Prop) (R : MemoryStepError -> Machine M -> Prop) m :
  mem_ok m.(mem) -> (forall v x, value_ok acc.(a_size) v -> mem_ok x -> Q v (with_mem m x)) ->
  (forall e x, mem_ok x -> R e (with_mem m x)) -> wp (ordinary_read context addr acc) Q R m.
Proof using Hdirect laws.
  intros Hm HQ HR. unfold ordinary_read, uses_direct.
  destruct (_ && _); [|by eapply wp_lift; [by apply read_law|..]].
  unfold direct_lawful in Hdirect. destruct context.(direct_memory) as [dm|].
  - by eapply wp_lift; [by apply Hdirect|..].
  - by eapply wp_lift; [by apply read_law|..].
Qed.

Lemma wp_ordinary_write addr v acc (Q : unit -> Machine M -> Prop) (R : MemoryStepError -> Machine M -> Prop) m :
  mem_ok m.(mem) -> (forall x, mem_ok x -> Q tt (with_mem m x)) ->
  (forall e x, mem_ok x -> R e (with_mem m x)) -> wp (ordinary_write context addr v acc) Q R m.
Proof using Hdirect laws.
  intros Hm HQ HR. assert (HQ' : forall (a : unit) x, True -> mem_ok x -> Q a (with_mem m x)) by (intros [] x _; apply HQ).
  unfold ordinary_write, uses_direct. destruct (_ && _); [|by eapply wp_lift; [by apply write_law|..]].
  unfold direct_lawful in Hdirect. destruct context.(direct_memory) as [dm|].
  - by eapply wp_lift; [by apply Hdirect|..].
  - by eapply wp_lift; [by apply write_law|..].
Qed.

Context (m0 : Machine M) (Hs0 : state_ok m0.(cpu)) (Hm0 : mem_ok m0.(mem)).

(** Faults and unsupported encodings leave the registers as they were. *)
Definition precise (e : MemoryStepError) (m : Machine M) : Prop :=
  m.(cpu) = m0.(cpu) /\ mem_ok m.(mem).

Definition stepped (b : bool) (m : Machine M) : Prop :=
  if b then state_ok m.(cpu) /\ reg_only m0.(cpu) m.(cpu) /\ mem_ok m.(mem) else m = m0.

(** Running inside the step: the registers are still the initial ones. *)
Definition untouched (m : Machine M) : Prop := m.(cpu) = m0.(cpu) /\ mem_ok m.(mem).
(** After a register write nothing can fault any more. *)
Definition written (m : Machine M) : Prop :=
  state_ok m.(cpu) /\ reg_only m0.(cpu) m.(cpu) /\ mem_ok m.(mem).

Lemma untouched0 : untouched m0.
Proof using Hm0. by split. Qed.

Ltac still_untouched := first [done | apply untouched0].

Lemma untouched_written m : untouched m -> written m.
Proof using Hs0. intros [Hu Hm]. unfold written. rewrite Hu. split; [done|]. split; [apply reg_only_refl|done]. Qed.

Lemma wp_lift_memory {E A} conv (op : SM M E A) (P : A -> Prop) (Q : A -> Machine M -> Prop) m :
  (mem_ok m.(mem) -> returns mem_ok P (op m.(mem))) -> untouched m ->
  (forall a m', P a -> untouched m' -> m'.(monitor) = m.(monitor) -> Q a m') ->
  wp (lift_memory conv op) Q precise m.
Proof using.
  intros Hp [Hu Hm] HQ. apply (wp_lift _ _ P); [by apply Hp| |]; intros; [by apply HQ|by split].
Qed.

Lemma wp_lift_result {A} (r : Result Empty_set A) a (Q : A -> Machine M -> Prop) m :
  r = Ok a -> Q a m -> wp (lift_result r) Q precise m.
Proof using. intros -> HQ. exact HQ. Qed.

Lemma wp_cpu_state (Q : A64State -> Machine M -> Prop) m : Q m.(cpu) m -> wp cpu_state Q precise m.
Proof using. done. Qed.

Lemma wp_set_cpu s (Q : unit -> Machine M -> Prop) m : Q tt (with_cpu m s) -> wp (set_cpu s) Q precise m.
Proof using. done. Qed.

Lemma wp_read addr acc (Q : MemoryValue -> Machine M -> Prop) m :
  untouched m -> (forall v m', value_ok acc.(a_size) v -> untouched m' -> m'.(monitor) = m.(monitor) -> Q v m') ->
  wp (ordinary_read context addr acc) Q precise m.
Proof using Hdirect laws. intros [Hu Hm] HQ. apply wp_ordinary_read; [done| |]; intros; [by apply HQ|by split]. Qed.

Lemma wp_write addr v acc (Q : unit -> Machine M -> Prop) m :
  untouched m -> (forall m', untouched m' -> m'.(monitor) = m.(monitor) -> Q tt m') ->
  wp (ordinary_write context addr v acc) Q precise m.
Proof using Hdirect laws. intros [Hu Hm] HQ. apply wp_ordinary_write; [done| |]; intros; [by apply HQ|by split]. Qed.

Lemma loaded_value_ok sz load v :
  value_ok sz v -> sz <> Quadword -> exists r, loaded_value sz load v = Ok r /\ in_range 64 r.
Proof using.
  intros [Hsz Hr] Hq. unfold loaded_value.
  assert (Hraw : exists raw, (match v with U8 v | U16 v | U32 v | U64 v => Ok v | U128 _ => @Panic Empty_set Z end) = Ok raw
            /\ in_range 64 raw).
  { destruct v as [x|x|x|x|x]; cbn [value_size value_bits] in *; subst sz; try done; cbn [size_bytes] in Hr;
      exists x; (split; [reflexivity|]).
    - by apply (in_range_le 8); [lia|].
    - by apply (in_range_le 16); [lia|].
    - by apply (in_range_le 32); [lia|].
    - exact Hr. }
  destruct Hraw as (raw & -> & Hraw). cbn [result_bind]. destruct (load.(signed)); eexists; (split; [reflexivity|]); [|done].
  apply wrap_range. lia.
Qed.

Lemma wp_write_loaded r sz load v (Q : unit -> Machine M -> Prop) m :
  value_ok sz v -> sz <> Quadword -> written m -> (forall m', written m' -> m'.(monitor) = m.(monitor) -> Q tt m') ->
  wp (write_loaded r sz load v) Q precise m.
Proof using.
  intros Hv Hq (Hok & Hro & Hm) HQ. unfold write_loaded. apply wp_bind, wp_cpu_state, wp_bind.
  destruct (loaded_value_ok sz load v Hv Hq) as (res & Hres & Hrange).
  eapply wp_lift_result; [exact Hres|]. apply wp_set_cpu, HQ; [|done].
  split; cbn; [by apply write_ok|]. split; [by apply reg_only_write|done].
Qed.

Lemma register_value_ok s r sz : state_ok s -> sz <> Quadword -> exists v, register_value s r sz = Ok v /\ value_ok sz v.
Proof using.
  intros Hs Hq. unfold register_value. destruct sz; try done; eexists; (split; [reflexivity|]); split; try done;
    try (apply wrap_range; lia). by apply read_range_64.
Qed.

Lemma memory_size_ok f : mem_fields_ok f -> exists sz, memory_size f.(size) = Ok sz /\ sz <> Quadword.
Proof using.
  intros Hf. pose proof (mok_size f Hf) as Hz. unfold memory_size.
  assert (f.(size) = 0 \/ f.(size) = 1 \/ f.(size) = 2 \/ f.(size) = 3) as Hc by lia.
  destruct Hc as [->|[->|[->| ->]]]; by eexists.
Qed.

(** [transfer]: either nothing happened, or the access completed. *)
Lemma wp_transfer f addr sz acc (Q : bool -> Machine M -> Prop) m :
  acc.(a_size) = sz -> sz <> Quadword -> m = m0 ->
  Q false m0 -> (forall m', written m' -> Q true m') ->
  wp (transfer context f addr sz acc) Q precise m.
Proof using Hdirect Hs0 Hm0 laws.
  intros Ha Hq -> Hf Ht. unfold transfer. destruct (scalar_transfer _ _) as [[|load]|]; [| |exact Hf].
  - apply wp_bind, wp_cpu_state, wp_bind.
    destruct (register_value_ok m0.(cpu) f.(rt) sz Hs0 Hq) as (v & Hv & _).
    eapply wp_lift_result; [exact Hv|]. apply wp_bind, wp_write; [still_untouched|].
    intros m' Hu _. apply Ht. by apply untouched_written.
  - apply wp_bind, wp_read; [still_untouched|]. intros v m' Hv Hu _. rewrite Ha in Hv.
    apply wp_bind, wp_write_loaded; [done|done|by apply untouched_written|].
    intros m'' Hw _. by apply Ht.
Qed.

Lemma write_reg_written m i w b v : written m -> in_range 64 v -> written (with_cpu m (write m.(cpu) i w b v)).
Proof using. intros (Hok & Hro & Hm) Hv. split; cbn; [by apply write_ok|]. split; [by apply reg_only_write|done]. Qed.

Lemma wp_write_pair r1 r2 sz bits (Q : unit -> Machine M -> Prop) m :
  written m -> (forall m', written m' -> m'.(monitor) = m.(monitor) -> Q tt m') ->
  wp (write_pair r1 r2 sz bits) Q precise m.
Proof using.
  intros Hw HQ. unfold write_pair. apply wp_bind, wp_cpu_state, wp_bind, wp_set_cpu, wp_bind, wp_cpu_state, wp_set_cpu.
  apply HQ; [|done]. do 2 (apply write_reg_written; [|apply wrap_range; lia]). done.
Qed.

Lemma pair_value_ok s r1 r2 esz asz : state_ok s -> esz <> Quadword -> exists v, pair_value s r1 r2 esz asz = Ok v.
Proof using.
  intros Hs Hq. unfold pair_value.
  destruct (register_value_ok s r1 esz Hs Hq) as (v1 & -> & _).
  destruct (register_value_ok s r2 esz Hs Hq) as (v2 & -> & _). by eexists.
Qed.

(** The base register update of the indexed forms. *)
Lemma wp_writeback rn v (Q : bool -> Machine M -> Prop) m :
  written m -> in_range 64 v -> (forall m', written m' -> Q true m') ->
  wp (let! state := cpu_state in do! set_cpu (write state rn 64 true v) in ret true) Q precise m.
Proof using. intros Hw Hv HQ. apply wp_bind, wp_cpu_state, wp_bind, wp_set_cpu, HQ. by apply write_reg_written. Qed.

Lemma wp_load_done r sz load v m :
  value_ok sz v -> sz <> Quadword -> written m ->
  wp (do! write_loaded r sz load v in ret true) stepped precise m.
Proof using. intros. apply wp_bind, (wp_write_loaded r sz load v); [done..|]. by intros m' Hw _. Qed.

Lemma literal_safe d f : wp (literal context d f) stepped precise m0.
Proof using Hdirect Hs0 Hm0 laws.
  unfold literal. destruct (literal_load _) as [[sz load]|] eqn:Hl; [|done].
  assert (Hq : sz <> Quadword) by (unfold literal_load in Hl; repeat case_match; simplify_eq; done).
  apply wp_bind, wp_read; [still_untouched|]. intros v m' Hv Hu _. apply wp_load_done; [done..|]. by apply untouched_written.
Qed.

Lemma unsigned_safe f : mem_fields_ok f -> wp (unsigned context f) stepped precise m0.
Proof using Hdirect Hs0 Hm0 laws.
  intros Hf. unfold unsigned. destruct (memory_size_ok f Hf) as (sz & Hsz & Hq).
  apply wp_bind. eapply wp_lift_result; [exact Hsz|]. apply wp_bind, wp_cpu_state.
  by apply wp_transfer.
Qed.

Lemma indexed_safe f i : mem_fields_ok f -> wp (indexed context f i) stepped precise m0.
Proof using Hdirect Hs0 Hm0 laws.
  intros Hf. unfold indexed. destruct (_ && _); [done|].
  destruct (memory_size_ok f Hf) as (sz & Hsz & Hq).
  apply wp_bind. eapply wp_lift_result; [exact Hsz|]. apply wp_bind, wp_cpu_state, wp_bind.
  apply wp_transfer; try done. intros m' Hw. cbn [negb]. destruct (negb (is_unscaled i)); [|done].
  apply wp_writeback; [done|apply wrap_range; lia|done].
Qed.

Lemma register_offset_safe f : mem_fields_ok f -> wp (register_offset context f) stepped precise m0.
Proof using Hdirect Hs0 Hm0 laws.
  intros Hf. unfold register_offset. destruct (memory_size_ok f Hf) as (sz & Hsz & Hq).
  apply wp_bind. eapply wp_lift_result; [exact Hsz|]. apply wp_bind, wp_cpu_state.
  destruct (register_offset_address _ _ _ _ _ _); [|done]. by apply wp_transfer.
Qed.

Lemma pair_transfer_size sb ld sz spec : pair_transfer sb ld = Some (sz, spec) -> sz <> Quadword.
Proof using. unfold pair_transfer. intros Hp. by repeat case_match; simplify_eq. Qed.

(** Both accesses of a pair complete before a register changes. *)
Lemma pair_safe f : wp (pair context f) stepped precise m0.
Proof using Hdirect Hs0 Hm0 laws.
  unfold pair. destruct (pair_transfer _ _) as [[sz spec]|] eqn:Hp; [|done]. cbv zeta.
  pose proof (pair_transfer_size _ _ _ _ Hp) as Hq. destruct (_ || _) in |- *; [done|].
  apply wp_bind, wp_cpu_state, wp_bind.
  assert (Hend : forall m' v, written m' -> in_range 64 v ->
    wp (if (f.(mode) =? 1) || (f.(mode) =? 3)
        then let! state := cpu_state in do! set_cpu (write state f.(rn) 64 true v) in ret true
        else ret true) stepped precise m').
  { intros m' v Hw Hv. destruct (_ || _); [|done]. by apply wp_writeback. }
  destruct (f.(load)).
  - apply wp_bind, wp_read; [still_untouched|]. intros v1 m1 Hv1 Hu1 _.
    apply wp_bind, wp_read; [done|]. intros v2 m2 Hv2 Hu2 _.
    apply wp_bind, (wp_write_loaded _ sz); [done|done|by apply untouched_written|]. intros m3 Hw3 _.
    apply (wp_write_loaded _ sz); [done..|]. intros m4 Hw4 _. apply Hend; [done|apply wrap_range; lia].
  - destruct (register_value_ok m0.(cpu) f.(rt) sz Hs0 Hq) as (v1 & Hv1 & _).
    destruct (register_value_ok m0.(cpu) f.(rt2) sz Hs0 Hq) as (v2 & Hv2 & _).
    apply wp_bind. eapply wp_lift_result; [exact Hv1|]. apply wp_bind, wp_write; [still_untouched|]. intros m1 Hu1 _.
    apply wp_bind. eapply wp_lift_result; [exact Hv2|]. apply wp_write; [done|]. intros m2 Hu2 _.
    apply Hend; [by apply untouched_written|apply wrap_range; lia].
Qed.

Lemma acquire_release_safe f i : mem_fields_ok f -> wp (acquire_release context f i) stepped precise m0.
Proof using Hs0 Hm0 laws.
  intros Hf. unfold acquire_release. destruct (memory_size_ok f Hf) as (sz & Hsz & Hq).
  apply wp_bind. eapply wp_lift_result; [exact Hsz|]. apply wp_bind, wp_cpu_state.
  destruct (match i with LoadAcquire _ => true | _ => false end); apply wp_bind.
  - eapply wp_lift_memory; [apply read_law|still_untouched|]. intros v m' Hv Hu _.
    apply wp_load_done; [done..|]. by apply untouched_written.
  - destruct (register_value_ok m0.(cpu) f.(rt) sz Hs0 Hq) as (v & Hv & _).
    eapply wp_lift_result; [exact Hv|]. apply wp_bind.
    eapply wp_lift_memory; [apply write_law|still_untouched|]. intros [] m' _ Hu _. by apply untouched_written.
Qed.

Lemma exclusive_sizes_ok f p :
  mem_fields_ok f -> exists o, exclusive_transfer_sizes f.(size) p = Ok o /\
    forall e a, o = Some (e, a) -> e <> Quadword /\ (p = false -> a = e).
Proof using.
  intros Hf. unfold exclusive_transfer_sizes. destruct p; cbn [negb].
  - eexists. split; [reflexivity|]. intros e a Ho. by repeat case_match; simplify_eq.
  - destruct (memory_size_ok f Hf) as (sz & -> & Hq). eexists. split; [reflexivity|].
    intros e a Ho. by simplify_eq.
Qed.

Lemma exclusive_safe f i : mem_fields_ok f -> wp (exclusive context f i) stepped precise m0.
Proof using Hs0 Hm0 laws.
  intros Hf. unfold exclusive.
  set (p := match i with LoadExclusivePair _ | StoreExclusivePair _ => true | _ => false end).
  destruct (exclusive_sizes_ok f p Hf) as (o & Ho & Hsz). apply wp_bind.
  eapply wp_lift_result; [exact Ho|]. destruct o as [[esz asz]|]; [|done].
  destruct (Hsz esz asz eq_refl) as [Hq Hp]. apply wp_bind, wp_cpu_state.
  destruct (match i with LoadExclusive _ | LoadExclusivePair _ => true | _ => false end); apply wp_bind.
  - eapply wp_lift_memory; [apply ldx_law|still_untouched|]. intros [v r] m1 Hv Hu _. cbn [fst snd] in *.
    apply wp_bind. change (wp (modify ?f) ?Q ?R m1) with (Q tt (f m1)). cbv beta.
    assert (Hw : written (with_monitor m1 (monitor_reserve m1.(monitor) r))) by (by apply untouched_written).
    destruct p.
    + apply wp_bind, wp_write_pair; [done|]. by intros m2 Hw2 _.
    + rewrite (Hp eq_refl) in Hv. by apply wp_load_done.
  - change (wp get ?Q ?R m0) with (Q m0 m0). cbv beta zeta. apply wp_bind.
    change (wp (modify ?f) ?Q ?R m0) with (Q tt (f m0)). cbv beta. apply wp_bind.
    assert (Hv : exists v, (if p then pair_value m0.(cpu) f.(rt) f.(rt2) esz asz
                            else register_value m0.(cpu) f.(rt) esz) = Ok v).
    { destruct p; [by apply pair_value_ok|].
      destruct (register_value_ok m0.(cpu) f.(rt) esz Hs0 Hq) as (v & Hv & _). by exists v. }
    destruct Hv as (v & Hv). eapply wp_lift_result; [exact Hv|]. apply wp_bind.
    assert (Hend : forall b m', untouched m' ->
      wp (let! state := cpu_state in
          do! set_cpu (write state f.(rm) 32 false (b2z (negb b))) in ret true) stepped precise m').
    { intros b m' Hu. apply wp_bind, wp_cpu_state, wp_bind, wp_set_cpu.
      apply write_reg_written; [by apply untouched_written|]. destruct b; split; simpl; lia. }
    destruct m0.(monitor) as [r|].
    + eapply wp_lift_memory; [apply stx_law|still_untouched|]. intros b m' _ Hu _. by apply Hend.
    + apply Hend, untouched0.
Qed.

Lemma atomic_safe f i :
  mem_fields_ok f ->
  match i with AtomicReadModifyWrite _ | CompareAndSwap _ | CompareAndSwapPair _ => True | _ => False end ->
  wp (atomic context f i) stepped precise m0.
Proof using Hs0 Hm0 laws.
  intros Hf Hi. unfold atomic. apply wp_bind, wp_cpu_state. cbv zeta.
  destruct (memory_size_ok f Hf) as (sz & Hsz & Hq).
  destruct (register_value_ok m0.(cpu) f.(rm) sz Hs0 Hq) as (vm & Hvm & _).
  destruct (register_value_ok m0.(cpu) f.(rt) sz Hs0 Hq) as (vt & Hvt & _).
  destruct i; try done.
  - destruct (atomic_rmw_kind _); [|done]. apply wp_bind. eapply wp_lift_result; [exact Hsz|].
    apply wp_bind. eapply wp_lift_result; [exact Hvm|]. apply wp_bind.
    eapply wp_lift_memory; [apply rmw_law|still_untouched|]. intros v m' Hv Hu _.
    apply wp_load_done; [done..|]. by apply untouched_written.
  - apply wp_bind. eapply wp_lift_result; [exact Hsz|].
    apply wp_bind. eapply wp_lift_result; [exact Hvm|].
    apply wp_bind. eapply wp_lift_result; [exact Hvt|]. apply wp_bind.
    eapply wp_lift_memory; [apply cas_law|still_untouched|]. intros v m' Hv Hu _.
    apply wp_load_done; [done..|]. by apply untouched_written.
  - destruct (_ || _); [done|]. destruct (compare_exchange_pair_sizes _) as [[esz asz]|] eqn:Hc; [|done].
    assert (He : esz <> Quadword) by (unfold compare_exchange_pair_sizes in Hc; by repeat case_match; simplify_eq).
    destruct (pair_value_ok m0.(cpu) f.(rm) (f.(rm) + 1) esz asz Hs0 He) as (v1 & Hv1).
    destruct (pair_value_ok m0.(cpu) f.(rt) (f.(rt) + 1) esz asz Hs0 He) as (v2 & Hv2).
    apply wp_bind. eapply wp_lift_result; [exact Hv1|]. apply wp_bind. eapply wp_lift_result; [exact Hv2|].
    apply wp_bind. eapply wp_lift_memory; [apply cas_law|still_untouched|]. intros v m' _ Hu _.
    apply wp_bind, wp_write_pair; [by apply untouched_written|]. by intros m2 Hw2 _.
Qed.

Lemma dispatch_safe d i : mem_fields_ok (operands i) -> wp (dispatch context d i) stepped precise m0.
Proof using Hdirect Hs0 Hm0 laws.
  intros Hf. destruct i; cbn [dispatch operands] in *.
  - apply literal_safe.
  - by apply unsigned_safe.
  - by apply indexed_safe.
  - by apply indexed_safe.
  - by apply indexed_safe.
  - by apply register_offset_safe.
  - apply pair_safe.
  - by apply acquire_release_safe.
  - by apply acquire_release_safe.
  - by apply exclusive_safe.
  - by apply exclusive_safe.
  - by apply exclusive_safe.
  - by apply exclusive_safe.
  - by apply atomic_safe.
  - by apply atomic_safe.
  - by apply atomic_safe.
Qed.
End Safe.

(** ** Claims *)

(** The outcome of every instruction of the family; the client of this file is [Interp]. *)
Lemma memory_execute_outcome {M : Type} `{CpuMemory M, !CpuMemoryLaws M} (context : Context M) d i m :
  direct_lawful context -> state_ok m.(cpu) -> mem_ok m.(mem) -> mem_fields_ok (operands i) ->
  exists r m', execute context d i m = (r, m') /\ state_ok m'.(cpu) /\ mem_ok m'.(mem) /\
    match r with
    | Ok Continue => m'.(cpu).(pc) = wrap 64 (m.(cpu).(pc) + 4) /\
                     reg_only m.(cpu) (set_pc m'.(cpu) m.(cpu).(pc))
    | Ok (Exit (DataFault _ _)) | Err _ => m'.(cpu) = m.(cpu)
    | _ => False
    end.
Proof.
  intros Hd Hs Hmem Hf. unfold execute.
  assert (Hcont : forall m' : Machine M, state_ok m'.(cpu) -> reg_only m.(cpu) m'.(cpu) -> mem_ok m'.(mem) ->
    exists r m'', continue m' = (r, m'') /\ state_ok m''.(cpu) /\ mem_ok m''.(mem) /\
    match r with
    | Ok Continue => m''.(cpu).(pc) = wrap 64 (m.(cpu).(pc) + 4) /\
                     reg_only m.(cpu) (set_pc m''.(cpu) m.(cpu).(pc))
    | Ok (Exit (DataFault _ _)) | Err _ => m''.(cpu) = m.(cpu)
    | _ => False
    end).
  { intros m' Hok [] Hx. do 2 eexists. split; [reflexivity|]. cbn [cpu mem with_cpu]. split; [by apply advance_ok|].
    split; [done|].
    unfold advance. cbn [pc set_pc]. split; [by rewrite ro_pc0|by split]. }
  destruct (is_prefetch i); [by apply Hcont; [|apply reg_only_refl|]|].
  pose proof (dispatch_safe context Hd m Hs Hmem d i Hf) as Hwp. unfold wp in Hwp.
  destruct (dispatch context d i m) as [[[|]|[|]|] m']; cbn in Hwp; [| | | |done].
  - destruct Hwp as (? & ? & ?). by apply Hcont.
  - subst. by do 2 eexists.
  - destruct Hwp as [Hcpu Hx]. do 2 eexists. split; [reflexivity|]. by rewrite Hcpu.
  - destruct Hwp as [Hcpu Hx]. do 2 eexists. split; [reflexivity|]. by rewrite Hcpu.
Qed.

(** Precise faults.  Over any lawful memory and direct slice, a scalar
    memory instruction never panics and keeps the register-file invariant.  A
    data fault (also one raised by the second access of a pair, or after the
    monitor was cleared) or an engine error leaves every CPU register
    unchanged; a completed instruction advances the PC by 4 and changes nothing
    in the CPU but the general registers and SP. *)
Theorem memory_execute_safe {M : Type} `{CpuMemory M, !CpuMemoryLaws M} (context : Context M) d i m :
  direct_lawful context -> state_ok m.(cpu) -> mem_ok m.(mem) -> mem_fields_ok (operands i) ->
  exists r m', execute context d i m = (r, m') /\ state_ok m'.(cpu) /\ mem_ok m'.(mem) /\
    match r with
    | Ok Continue => m'.(cpu).(pc) = wrap 64 (m.(cpu).(pc) + 4) /\
                     reg_only m.(cpu) (set_pc m'.(cpu) m.(cpu).(pc))
    | Ok (Exit (DataFault _ _)) | Err _ => m'.(cpu) = m.(cpu)
    | _ => False
    end.
Proof. exact (memory_execute_outcome context d i m). Qed.

(** LDP X0, X1, [SP] in the empty address space faults precisely. *)
Lemma memory_execute_safe_witness :
  exists r m', normalize 0x28 0xa94007e0 = Ok (Pair (normalize_operands 0x28 0xa94007e0)) /\
    execute empty_context (sample_decoded 0xa94007e0 0x28) (Pair (normalize_operands 0x28 0xa94007e0))
      empty_machine = (r, m') /\ state_ok m'.(cpu).
Proof.
  destruct (memory_execute_safe empty_context (sample_decoded 0xa94007e0 0x28)
    (Pair (normalize_operands 0x28 0xa94007e0)) empty_machine) as (r & m' & He & Hok & _).
  - exact I.
  - apply A64State_default_ok.
  - exact I.
  - apply mem_normalize_ok. vm_compute. split; [discriminate|reflexivity].
  - exists r, m'. split; [reflexivity|]. split; [exact He|exact Hok].
Defined.

(** ** Functional behaviour *)

Section Functional.
Context {M : Type} `{CpuMemory M} (context : Context M) (Hnone : context.(direct_memory) = None).

Lemma ordinary_read_canonical addr acc :
  ordinary_read context addr acc = lift_memory Data (mem_read context.(address_space_id) addr acc).
Proof using Hnone. unfold ordinary_read, uses_direct. rewrite Hnone. by destruct (_ && _). Qed.

Lemma ordinary_write_canonical addr v acc :
  ordinary_write context addr v acc = lift_memory Data (mem_write context.(address_space_id) addr acc v).
Proof using Hnone. unfold ordinary_write, uses_direct. rewrite Hnone. by destruct (_ && _). Qed.

(** The value a load puts in its register. *)
Definition extended (sz : MemoryAccessSize) (load : LoadSpec) (v : MemoryValue) : Z :=
  if load.(signed) then wrap 64 (to_signed (8 * size_bytes sz) (value_bits v)) else value_bits v.

Lemma loaded_value_extended sz load v :
  value_ok sz v -> sz <> Quadword -> loaded_value sz load v = Ok (extended sz load v).
Proof using.
  intros [Hsz Hr] Hq. unfold loaded_value, extended.
  assert (Hs : signed_immediate (value_bits v) (size_bytes sz * 8) = to_signed (8 * size_bytes sz) (value_bits v)).
  { rewrite (Z.mul_comm (size_bytes sz)), signed_immediate_arith.
    - f_equal. by apply wrap_small.
    - destruct sz; simpl in *; (lia || done). }
  rewrite <- Hs. by destruct v; simpl in *; subst.
Qed.

(** The value a store takes from its register. *)
Lemma register_value_from_bits s r sz :
  state_ok s -> sz <> Quadword -> register_value s r sz = Ok (value_from_bits sz (read s r 64 false)).
Proof using.
  intros Hs Hq. unfold register_value.
  destruct sz; try done; cbn [value_from_bits]; do 2 f_equal.
  - change (read s r 32 false) with (wrap 32 (read s r 64 false)). by rewrite wrap_wrap_le by lia.
  - change (read s r 32 false) with (wrap 32 (read s r 64 false)). by rewrite wrap_wrap_le by lia.
  - change (read s r 32 false) with (wrap 32 (read s r 64 false)). by rewrite wrap_wrap_le by lia.
  - rewrite wrap_small; [done|]. by apply read_range_64.
Qed.

(** What a completed or faulting single access leaves, [after] being the
    register update of a completed one. *)
Definition access_outcome {A} (d : DecodedInstruction) (m : Machine M) (after : A -> A64State)
    (r : Result DataAccessFault A * M) : Result InterpreterError InstructionStep * Machine M :=
  match r with
  | (Ok a, x) => (Ok Continue, with_cpu (with_mem m x) (advance (after a)))
  | (Err fault, x) => (Ok (Exit (DataFault d.(d_location) fault)), with_mem m x)
  | (Panic, x) => (Panic, with_mem m x)
  end.

(** The reference meaning of a single scalar transfer at [ea]. *)
Definition reference_access (d : DecodedInstruction) (m : Machine M) (t : ScalarTransfer)
    (sz : MemoryAccessSize) (rt ea : Z) (writeback : A64State -> A64State)
  : Result InterpreterError InstructionStep * Machine M :=
  let acc := mkAccess sz Unaligned Relaxed Normal in
  match t with
  | Store => access_outcome d m (fun _ => writeback m.(cpu))
      (mem_write context.(address_space_id) ea acc (value_from_bits sz (read m.(cpu) rt 64 false)) m.(mem))
  | Load load => access_outcome d m
      (fun v => writeback (write m.(cpu) rt load.(destination_bits) false (extended sz load v)))
      (mem_read context.(address_space_id) ea acc m.(mem))
  end.

Lemma transfer_reference {laws : CpuMemoryLaws M} f ea sz t m :
  state_ok m.(cpu) -> mem_ok m.(mem) -> sz <> Quadword -> scalar_transfer f.(opc) sz = Some t ->
  transfer context f ea sz (access sz Relaxed false) m =
  match t with
  | Store =>
      match mem_write context.(address_space_id) ea (access sz Relaxed false)
              (value_from_bits sz (read m.(cpu) f.(rt) 64 false)) m.(mem) with
      | (Ok _, x) => (Ok true, with_mem m x)
      | (Err e, x) => (Err (Data e), with_mem m x)
      | (Panic, x) => (Panic, with_mem m x)
      end
  | Load load =>
      match mem_read context.(address_space_id) ea (access sz Relaxed false) m.(mem) with
      | (Ok v, x) => (Ok true, with_cpu (with_mem m x)
                        (write m.(cpu) f.(rt) load.(destination_bits) false (extended sz load v)))
      | (Err e, x) => (Err (Data e), with_mem m x)
      | (Panic, x) => (Panic, with_mem m x)
      end
  end.
Proof using Hnone.
  intros Hs Hmem Hq Ht. unfold transfer. rewrite Ht. destruct t as [|load].
  - unfold bind, cpu_state, lift_result.
    rewrite register_value_from_bits, ordinary_write_canonical by done. unfold lift_memory, ret.
    by destruct (mem_write _ _ _ _ _) as [[] ?].
  - rewrite ordinary_read_canonical. unfold bind, lift_memory, write_loaded, cpu_state, lift_result.
    pose proof (read_law context.(address_space_id) ea (access sz Relaxed false) m.(mem) Hmem) as [_ Hr].
    destruct (mem_read _ _ _ _) as [[v|e|] x]; [|done..]. cbn [fst map_err a_size access] in *.
    unfold bind. by rewrite (loaded_value_extended sz load v Hr Hq).
Qed.
End Functional.

(** The effective address of the immediate forms and their base update. *)
Definition effective_address (i : Instruction) (sz : MemoryAccessSize) (base : Z) : Z :=
  let f := operands i in
  match i with
  | Unsigned _ => wrap 64 (base + f.(immediate_12) * size_bytes sz)
  | PostIndex _ => base
  | _ => wrap 64 (base + to_signed 9 (wrap 9 f.(immediate_9)))
  end.

Definition base_update (i : Instruction) (base : Z) (s : A64State) : A64State :=
  let f := operands i in
  match i with
  | PostIndex _ | PreIndex _ => write s f.(rn) 64 true (wrap 64 (base + to_signed 9 (wrap 9 f.(immediate_9))))
  | _ => s
  end.

Definition immediate_form (i : Instruction) : bool :=
  match i with Unsigned _ | Unscaled _ | PostIndex _ | PreIndex _ => true | _ => false end.

(** The immediate addressing forms, on every branch.  Unsigned-offset,
    unscaled, pre- and post-indexed loads and stores make exactly one access at
    the architectural effective address; a load writes the zero- or
    sign-extended value, a store writes the low bits of the register, the
    indexed forms then update the base; a fault is reported at the instruction
    with no register changed. *)
Theorem immediate_access_spec {M : Type} `{CpuMemory M, !CpuMemoryLaws M} (context : Context M) d i sz t m :
  context.(direct_memory) = None -> state_ok m.(cpu) -> mem_ok m.(mem) -> immediate_form i = true ->
  mem_fields_ok (operands i) ->
  memory_size (operands i).(size) = Ok sz -> scalar_transfer (operands i).(opc) sz = Some t ->
  0 <= (operands i).(immediate_12) < 4096 ->
  (match i with PostIndex f | PreIndex f => f.(rn) = 31 \/ f.(rn) <> f.(rt) | _ => True end) ->
  let base := read m.(cpu) (operands i).(rn) 64 true in
  execute context d i m =
    reference_access context d m t sz (operands i).(rt) (effective_address i sz base) (base_update i base).
Proof.
  intros Hnone Hs Hmem Hi Hf Hsz Ht H12 Hwb base. unfold execute.
  assert (Hq : sz <> Quadword).
  { destruct (memory_size_ok _ Hf) as (sz' & Hsz' & Hq'). congruence. }
  assert (Hpf : is_prefetch i = false).
  { unfold is_prefetch. destruct i; try done; cbn [operands] in *;
      (destruct (Z.eqb_spec value.(size) 3) as [E|]; [|done]); (destruct (Z.eqb_spec value.(opc) 2) as [E2|]; [|done]);
      rewrite E in Hsz; simplify_eq/=; rewrite E2 in Ht; done. }
  rewrite Hpf.
  assert (Himm : forall v, wrap 64 (base + signed_immediate v 9) = wrap 64 (base + to_signed 9 (wrap 9 v)))
    by (intros v; rewrite signed_immediate_arith by lia; done).
  assert (Hguard : match i with PostIndex f | PreIndex f => negb (f.(rn) =? 31) && (f.(rn) =? f.(rt)) | _ => false end = false).
  { destruct i; try done; destruct Hwb as [E|E]; destruct (Z.eqb_spec value.(rn) 31), (Z.eqb_spec value.(rn) value.(rt)); done. }
  unfold reference_access, access_outcome.
  destruct i as [f|f|f|f|f|f|f|f|f|f|f|f|f|f|f|f]; try done;
    cbn [dispatch operands effective_address base_update] in *;
    unfold unsigned, indexed, bind, lift_result, cpu_state;
    cbn [is_unscaled is_pre_index negb andb orb] in *; rewrite ?Hguard; unfold bind;
    rewrite Hsz; fold base;
    rewrite ?(wrap_small 64 (f.(immediate_12) * _)) by (destruct sz; split; simpl; lia);
    rewrite ?Himm, (transfer_reference context Hnone f _ sz t m Hs Hmem Hq Ht).
  all: destruct t; [destruct (mem_write _ _ _ _ _) as [[] ?]|destruct (mem_read _ _ _ _) as [[] ?]];
    cbv beta iota; cbn [negb]; rewrite ?Himm; reflexivity.
Qed.

(** LDRSB X1, [X2], #-8: the post-indexed load faults in the empty address space. *)
Lemma immediate_access_spec_witness :
  let i := PostIndex (normalize_operands 0x25 0x389f8441) in
  execute empty_context (sample_decoded 0x389f8441 0x25) i empty_machine =
    reference_access empty_context (sample_decoded 0x389f8441 0x25) empty_machine (Load (LoadSpec_signed 64)) Byte 1
      (effective_address i Byte 0) (base_update i 0).
Proof.
  apply (immediate_access_spec empty_context (sample_decoded 0x389f8441 0x25)
    (PostIndex (normalize_operands 0x25 0x389f8441)) Byte (Load (LoadSpec_signed 64)) empty_machine).
  - reflexivity.
  - apply A64State_default_ok.
  - exact I.
  - reflexivity.
  - apply mem_normalize_ok. vm_compute. split; [discriminate|reflexivity].
  - reflexivity.
  - reflexivity.
  - vm_compute. split; [discriminate|reflexivity].
  - right. vm_compute. discriminate.
Defined.

(** A store-exclusive with no local reservation never reaches memory: the
    status register becomes 1, memory and every other register keep their
    values, the monitor stays empty and the PC advances. *)
Theorem store_exclusive_unreserved {M : Type} `{CpuMemory M} (context : Context M) d f m :
  state_ok m.(cpu) -> mem_fields_ok f -> m.(monitor) = None ->
  execute context d (StoreExclusive f) m =
    (Ok Continue, with_cpu m (advance (write m.(cpu) f.(rm) 32 false 1))).
Proof.
  intros Hs Hf Hm. destruct (memory_size_ok f Hf) as (sz & Hsz & Hq).
  unfold execute. cbn [is_prefetch dispatch operands]. unfold exclusive, exclusive_transfer_sizes. cbn [negb].
  rewrite Hsz. unfold bind. cbn [result_bind lift_result cpu_state get modify].
  rewrite Hm, register_value_from_bits by done. destruct m; cbn in Hm; by subst.
Qed.

Lemma store_exclusive_unreserved_witness :
  execute empty_context (sample_decoded 0xc8037c41 0x2c) (StoreExclusive (normalize_operands 0x2c 0xc8037c41))
    empty_machine = (Ok Continue, with_cpu empty_machine (advance (write A64State_default 3 32 false 1))).
Proof.
  apply (store_exclusive_unreserved empty_context).
  - apply A64State_default_ok.
  - apply mem_normalize_ok. vm_compute. split; [discriminate|reflexivity].
  - reflexivity.
Defined.
