(* ===== verification/InterpFpSimd.v ===== *)
(** * FP/SIMD interpreter (crates/cpu-interpreter/src/interpreter/a64/fp_simd.rs)

    An FP/SIMD instruction runs in the shared semantics first; the forms those
    report as unsupported are the vector loads and stores, which run here over
    the memory contract.  A structure transfer commits each element as it is
    read, so a fault can leave part of it in the destination registers. *)

From S2P Require Import Prelude CpuBits CpuArith CpuState CpuMemory CpuVector DecodeTable DecodeA64.
From S2P Require Import CpuA64Sem InterpCore InterpMemory DecodeFpSimd DecodeFpOperands.
From S2P Require SimdInteger FpSimdExec.

(** The profile the program was built with: whether arithmetic overflow panics. *)
Class BuildProfile := { overflow_checks : bool }.

Section FpSimd.
Context {M : Type} `{CpuMemory M} (context : Context M).

Definition vector_access (size : MemoryAccessSize) : MemoryAccess := mkAccess size Unaligned Relaxed Normal.

(** [state.vector(register).expect(..)] *)
Definition vector_register (register : Z) : MM (M := M) Z :=
  let! s := cpu_state in expect (vector_value s register).

(** [assert!(state.set_vector(register, value))] *)
Definition set_register (register value : Z) : MM (M := M) unit :=
  let! s := cpu_state in
  let '(s', ok) := set_vector s register value in
  do! set_cpu s' in
  if ok then ret tt else panic.

(** [super::write(state, rn, 64, true, value)] *)
Definition write_base (register value : Z) : MM (M := M) unit :=
  let! s := cpu_state in set_cpu (write s register 64 true value).

Definition read_vector (address : Z) (size : MemoryAccessSize) : MM Z :=
  let! value := ordinary_read context address (vector_access size) in
  ret (match value with U8 v | U16 v | U32 v | U64 v | U128 v => v end).

Definition write_vector (address : Z) (size : MemoryAccessSize) (register : Z) : MM unit :=
  let! value := vector_register register in
  let value := match size with
               | Byte => U8 (wrap 8 value)
               | Halfword => U16 (wrap 16 value)
               | Word => U32 (wrap 32 value)
               | Doubleword => U64 (wrap 64 value)
               | Quadword => U128 value
               end in
  ordinary_write context address value (vector_access size).

Definition vector_transfer (f : Operands) (address : Z) (size : MemoryAccessSize) : MM unit :=
  if f.(load) then
    let! value := read_vector address size in
    set_register f.(rd) value
  else write_vector address size f.(rd).

Definition write_lane (address : Z) (size : MemoryAccessSize) (value : Z) : MM unit :=
  let! value := match size with
                | Byte => ret (U8 (wrap 8 value))
                | Halfword => ret (U16 (wrap 16 value))
                | Word => ret (U32 (wrap 32 value))
                | Doubleword => ret (U64 (wrap 64 value))
                | Quadword => panic
                end in
  ordinary_write context address value (vector_access size).

Definition insert_lane (register lane lane_bits value : Z) : MM (M := M) unit :=
  let shift := lane * lane_bits in
  let mask := shl 128 (shl 128 1 lane_bits - 1) shift in
  let! previous := vector_register register in
  set_register register (Z.lor (Z.land previous (unot 128 mask)) (Z.land (shl 128 value shift) mask)).

Definition vector_lane (register lane lane_bits : Z) : MM (M := M) Z :=
  let! vector := vector_register register in
  ret (Z.land (shr vector (lane * lane_bits)) (shl 128 1 lane_bits - 1)).

(** The loop over the elements or registers of a structure; the address of the
    [index]-th element is the base plus its offset, advanced with wrap-around. *)
Fixpoint structure_loop (indices : list Z) (step address : Z) (body : Z -> Z -> MM (M := M) unit) : MM unit :=
  match indices with
  | [] => ret tt
  | index :: rest =>
      do! body index address in
      structure_loop rest step (wrap 64 (address + step)) body
  end.

(** The base update of the post-indexed structure forms. *)
Definition structure_post_index (f : Operands) (shape : SimdMemoryShape) (base : Z) (post_index : bool) : MM (M := M) unit :=
  if post_index then
    let! s := cpu_state in
    let offset := if f.(rm) =? 31 then shape.(immediate_post_index) else read s f.(rm) 64 false in
    write_base f.(rn) (wrap 64 (base + offset))
  else ret tt.

Definition vector_multiple_structures (f : Operands) (shape : SimdMemoryShape) (post_index : bool) : MM unit :=
  let! s := cpu_state in
  let base := read s f.(rn) 64 true in
  let size := shape.(CpuA64Sem.element_size) in
  let lane_bits := size_bytes size * 8 in
  do! structure_loop (seqZ 0 (shape.(transfer_bytes) / size_bytes size)) (size_bytes size) base (fun index address =>
    let '(register_offset, lane) := multiple_element shape index in
    let register := Z.land (wrap 8 (f.(rd) + register_offset)) 31 in
    if f.(load) then
      let! value := read_vector address size in
      do! insert_lane register lane lane_bits value in
      if negb f.(vector_128) && (lane =? 0) then
        let! v := vector_register register in
        set_register register (Z.land v (2 ^ 64 - 1))
      else ret tt
    else
      let! value := vector_lane register lane lane_bits in
      write_lane address size value) in
  structure_post_index f shape base post_index.

Definition vector_single_structure (f : Operands) (shape : SimdMemoryShape) (post_index : bool) : MM unit :=
  let! s := cpu_state in
  let base := read s f.(rn) 64 true in
  let size := shape.(CpuA64Sem.element_size) in
  let lane_bits := size_bytes size * 8 in
  do! structure_loop (seqZ 0 shape.(structure_registers)) (size_bytes size) base (fun register_offset address =>
    let register := Z.land (wrap 8 (f.(rd) + register_offset)) 31 in
    match shape.(CpuA64Sem.mode) with
    | Lane lane =>
        if f.(load) then
          let! value := read_vector address size in
          insert_lane register lane lane_bits value
        else
          let! value := vector_lane register lane lane_bits in
          write_lane address size value
    | Replicate =>
        let! value := read_vector address size in
        set_register register
          (fold_left (fun vector lane => Z.lor vector (shl 128 value (lane * lane_bits))) (seqZ 0 shape.(elements_per_register)) 0)
    | Multiple => panic
    end) in
  structure_post_index f shape base post_index.

Definition vector_pair (f : Operands) : MM unit :=
  let! size := expect (simd_pair_access_size f.(size)) in
  let! s := cpu_state in
  let base := read s f.(rn) 64 true in
  let offset := signed_immediate f.(immediate_7) 7 * size_bytes size in
  let transfer_base := if f.(mode) =? 1 then base else wrap 64 (base + offset) in
  let first := transfer_base in
  let second := wrap 64 (first + size_bytes size) in
  do! (if f.(load) then
         let! first_value := read_vector first size in
         let! second_value := read_vector second size in
         do! set_register f.(rd) first_value in
         set_register f.(rt2) second_value
       else
         do! write_vector first size f.(rd) in
         write_vector second size f.(rt2)) in
  if (f.(mode) =? 1) || (f.(mode) =? 3) then write_base f.(rn) (wrap 64 (base + offset)) else ret tt.

(** The single-register forms with an immediate offset. *)
Definition vector_indexed (v : Variant) (f : Operands) : MM unit :=
  let! size := expect (simd_memory_access_size f.(size) f.(opc)) in
  let! s := cpu_state in
  let base := read s f.(rn) 64 true in
  let offset := match v with
                | MemoryUnsigned => wrap 64 (f.(immediate_12) * size_bytes size)
                | _ => wrap 64 (signed_immediate f.(immediate_9) 9)
                end in
  let address := match v with MemoryPostIndex => base | _ => wrap 64 (base + offset) end in
  do! vector_transfer f address size in
  match v with
  | MemoryPostIndex | MemoryPreIndex => write_base f.(rn) (wrap 64 (base + offset))
  | _ => ret tt
  end.

(** The fields of the operands that the structure shapes read. *)
Definition structure_fields (f : Operands) : StructureFields :=
  mkStructure f.(structure_opcode) f.(element_size) f.(vector_128) f.(structure_r) f.(load).

(** The second [match] of [execute]; [Ok false] is an unsupported form. *)
Definition memory_form (v : Variant) (f : Operands) : MM bool :=
  match v with
  | MemoryUnsigned | MemoryUnscaled | MemoryPostIndex | MemoryPreIndex => do! vector_indexed v f in ret true
  | MemoryPair => do! vector_pair f in ret true
  | MemoryRegister =>
      let! size := expect (simd_memory_access_size f.(size) f.(opc)) in
      let! s := cpu_state in
      match register_offset_address s f.(rn) f.(rm) f.(option_) f.(scaled) (size_log2 size) with
      | None => ret false
      | Some address => do! vector_transfer f address size in ret true
      end
  | MemoryMultipleStructures | MemoryMultipleStructuresPostIndex =>
      match simd_multiple_structure_shape (structure_fields f) with
      | None => ret false
      | Some shape =>
          do! vector_multiple_structures f shape (match v with MemoryMultipleStructuresPostIndex => true | _ => false end) in ret true
      end
  | MemorySingleStructure | MemorySingleStructurePostIndex =>
      match simd_single_structure_shape (structure_fields f) with
      | None => ret false
      | Some shape =>
          do! vector_single_structure f shape (match v with MemorySingleStructurePostIndex => true | _ => false end) in ret true
      end
  | _ => ret false
  end.

(** The end of [execute]: errors become exits. *)
Definition finish_memory (d : DecodedInstruction) (op : MM bool) : Step M := fun m =>
  match op m with
  | (Ok true, m) => continue m
  | (Ok false, m) => (Err (unsupported d), m)
  | (Err (Data fault), m) => (Ok (Exit (DataFault d.(d_location) fault)), m)
  | (Err (Direct detail), m) => (Err (DirectMemoryError d.(d_location) detail), m)
  | (Panic, m) => (Panic, m)
  end.

Definition execute `{BuildProfile} (d : DecodedInstruction) (v : Variant) (f : Operands) : Step M := fun m =>
  match FpSimdExec.execute overflow_checks v f m.(cpu) with
  | (Ok tt, s) => continue (with_cpu m s)
  | (Err SimdInteger.Trap, s) => (Ok (Exit (ArchitecturalException d.(d_location) EFloatingPoint None)), with_cpu m s)
  | (Err SimdInteger.UnsupportedFpSimd, s) => finish_memory d (memory_form v f) (with_cpu m s)
  | (Panic, s) => (Panic, with_cpu m s)
  end.
End FpSimd.
