(* ===== verification/InterpFpSimdSpec.v ===== *)
(** * Safety of the FP/SIMD interpreter

    Every allocated FP/SIMD word runs over any lawful memory without a panic in
    a build without overflow checks, the reserved DUP words apart.  The register
    forms and the single-register and pair transfers are precise; a structure
    transfer that faults leaves the elements it has already moved, in vector
    registers only. *)

From S2P Require Import Prelude CpuBits CpuArith CpuState CpuMemory CpuVector DecodeTable DecodeAllocation DecodeA64.
From S2P Require Import CpuA64Sem InterpCore InterpMemory InterpMemorySpec DecodeFpSimd DecodeFpOperands SimdInteger SimdSpec.
From S2P Require Import FpSimdExecSpec FpSimdShape InterpFpSimd.

(** Only vector registers differ. *)
Definition vector_only (s s' : A64State) : Prop := s' = set_vectors s s'.(vector).

Lemma vector_only_refl s : vector_only s s.
Proof. by destruct s. Qed.

Lemma vector_only_set s s' i v : vector_only s s' -> vector_only s (vset s' i v).
Proof. unfold vector_only, vset, set_vector. intros Hv. destruct (_ !! _); cbn; [|done]. by rewrite Hv. Qed.

(** A load or store of vectors may also update the base register. *)
Record vector_base_only (s s' : A64State) : Prop := {
  vo_pc : s'.(pc) = s.(pc);
  vo_tpidr : s'.(tpidr_el0) = s.(tpidr_el0);
  vo_tpidrro : s'.(tpidrro_el0) = s.(tpidrro_el0);
  vo_nzcv : s'.(nzcv) = s.(nzcv);
  vo_fpcr : s'.(fpcr) = s.(fpcr);
  vo_fpsr : s'.(fpsr) = s.(fpsr)
}.

Section Safe.
Context {M : Type} `{CpuMemory M} {laws : CpuMemoryLaws M} (context : Context M) (Hdirect : direct_lawful context).
Context (m0 : Machine M).

(** In the middle of a transfer, and after it. *)
Definition moving (m : Machine M) : Prop := state_ok m.(cpu) /\ vector_only m0.(cpu) m.(cpu) /\ mem_ok m.(mem).
Definition moved (m : Machine M) : Prop := state_ok m.(cpu) /\ vector_base_only m0.(cpu) m.(cpu) /\ mem_ok m.(mem).
Definition interrupted (e : MemoryStepError) (m : Machine M) : Prop := moving m.
Definition untouched (m : Machine M) : Prop := m.(cpu) = m0.(cpu) /\ mem_ok m.(mem).
Definition precise (e : MemoryStepError) (m : Machine M) : Prop := untouched m.

Lemma moving_moved m : moving m -> moved m.
Proof using. intros (Hs & Hv & Hm). split; [done|]. split; [|done]. unfold vector_only in Hv. rewrite Hv. by split. Qed.

Lemma untouched_moving m : state_ok m0.(cpu) -> untouched m -> moving m.
Proof using. intros Hs [Hu Hm]. unfold moving. rewrite Hu. split; [done|]. split; [apply vector_only_refl|done]. Qed.

Lemma wp_vector_register r (Q : Z -> Machine M -> Prop) R m :
  state_ok m.(cpu) -> 0 <= r < 32 -> (in_range 128 (vreg m.(cpu) r) -> Q (vreg m.(cpu) r) m) -> wp (vector_register r) Q R m.
Proof using.
  intros Hs Hr HQ. unfold vector_register. apply wp_bind. change (wp cpu_state ?Q ?R m) with (Q m.(cpu) m). cbv beta.
  destruct (vector_value_ok m.(cpu) r Hs Hr) as [Hv Hrange]. rewrite Hv. apply HQ, Hrange.
Qed.

Lemma wp_set_register r v (Q : unit -> Machine M -> Prop) R m :
  state_ok m.(cpu) -> 0 <= r < 32 -> Q tt (with_cpu m (vset m.(cpu) r v)) -> wp (set_register r v) Q R m.
Proof using.
  intros Hs Hr HQ. unfold set_register. apply wp_bind. change (wp cpu_state ?Q ?R m) with (Q m.(cpu) m). cbv beta.
  by rewrite (set_vector_ok m.(cpu) r v Hs Hr).
Qed.

Lemma moving_set m r v : moving m -> moving (with_cpu m (vset m.(cpu) r v)).
Proof using. intros (Hs & Hv & Hm). split; [by apply vset_ok|]. split; [by apply vector_only_set|done]. Qed.

Lemma moving_mem m x : moving m -> mem_ok x -> moving (with_mem m x).
Proof using. by intros (? & ? & _). Qed.

Lemma wp_read_vector addr sz (Q : Z -> Machine M -> Prop) (R : MemoryStepError -> Machine M -> Prop) m :
  mem_ok m.(mem) -> (forall v x, mem_ok x -> Q v (with_mem m x)) -> (forall e x, mem_ok x -> R e (with_mem m x)) ->
  wp (read_vector context addr sz) Q R m.
Proof using Hdirect laws.
  intros Hm HQ HR. unfold read_vector. apply wp_bind, wp_ordinary_read; [done|done| |done]. intros v x _ Hx. apply wp_ret. by apply HQ.
Qed.

Lemma wp_write_vector addr sz r (Q : unit -> Machine M -> Prop) (R : MemoryStepError -> Machine M -> Prop) m :
  state_ok m.(cpu) -> mem_ok m.(mem) -> 0 <= r < 32 -> (forall x, mem_ok x -> Q tt (with_mem m x)) -> (forall e x, mem_ok x -> R e (with_mem m x)) ->
  wp (write_vector context addr sz r) Q R m.
Proof using Hdirect laws.
  intros Hs Hm Hr HQ HR. unfold write_vector. apply wp_bind, wp_vector_register; [done..|]. intros _. by apply wp_ordinary_write.
Qed.

Lemma wp_write_base r v m : moving m -> in_range 64 v -> wp (write_base r v) (fun _ => moved) interrupted m.
Proof using.
  intros Hm Hv. pose proof (moving_moved m Hm) as (Hs & Hb & Hx). unfold write_base.
  apply wp_bind. change (wp cpu_state ?Q ?R m) with (Q m.(cpu) m). cbv beta. change (wp (set_cpu ?s) ?Q ?R m) with (Q tt (with_cpu m s)). cbv beta.
  split; [by apply write_ok|]. split; [|done]. cbn [cpu with_cpu]. destruct Hb. unfold write, write_w, write_x. by repeat case_match; split.
Qed.

(** The elements of a structure one after the other. *)
Lemma wp_structure_loop indices step (body : Z -> Z -> MM unit) :
  (forall i a m, i ∈ indices -> moving m -> wp (body i a) (fun _ => moving) interrupted m) ->
  forall address m, moving m -> wp (structure_loop indices step address body) (fun _ => moving) interrupted m.
Proof using.
  induction indices as [|i rest IH]; intros Hbody address m Hm; [done|]. cbn [structure_loop]. apply wp_bind.
  eapply wp_mono; [apply Hbody; [by left|done]| |done]. intros [] m' Hm'. apply IH; [|done]. intros; apply Hbody; [by right|done].
Qed.

Context (f : Operands) (Hf : operands_ok f) (Hs0 : state_ok m0.(cpu)) (Hm0 : mem_ok m0.(mem)).

Lemma moving_start : moving m0.
Proof using Hs0 Hm0. by apply untouched_moving. Qed.

Lemma precise_mem e x : mem_ok x -> precise e (with_mem m0 x).
Proof using. by split. Qed.

(** One register: the access comes first, so an error changes no register. *)
Lemma vector_transfer_safe address sz : wp (vector_transfer context f address sz) (fun _ => moving) precise m0.
Proof using Hdirect laws Hf Hs0 Hm0.
  pose proof (fr_rd f Hf) as Hrd. unfold vector_transfer. destruct (f.(load)).
  - apply wp_bind, wp_read_vector; [done| |by apply precise_mem]. intros v x Hx. apply wp_set_register; [done..|]. by apply moving_set, moving_mem, Hx; apply moving_start.
  - apply wp_write_vector; [done..| |by apply precise_mem]. intros x Hx. by apply moving_mem, Hx; apply moving_start.
Qed.

Lemma vector_pair_safe : negb (f.(size) =? 3) = true -> wp (vector_pair context f) (fun _ => moved) precise m0.
Proof using Hdirect laws Hf Hs0 Hm0.
  intros Hz. pose proof (fr_rd f Hf) as Hrd. pose proof (fr_rt2 f Hf) as Hrt2. unfold vector_pair. apply wp_bind.
  assert (Hsz : exists sz, simd_pair_access_size f.(size) = Some sz).
  { pose proof (fr_size f Hf). assert (f.(size) = 0 \/ f.(size) = 1 \/ f.(size) = 2) as [->|[->| ->]] by lia; by eexists. }
  destruct Hsz as [sz ->]. change (wp (expect (Some sz)) ?Q ?R m0) with (Q sz m0). cbv beta.
  apply wp_bind. change (wp cpu_state ?Q ?R m0) with (Q m0.(cpu) m0). cbv beta zeta. apply wp_bind.
  assert (Hend : forall m v, moving m -> in_range 64 v ->
    wp (if (f.(mode) =? 1) || (f.(mode) =? 3) then write_base f.(rn) v else ret tt) (fun _ => moved) precise m).
  { intros m v Hm Hv. destruct (_ || _); [|by apply moving_moved]. exact (wp_write_base _ _ m Hm Hv). }
  destruct (f.(load)).
  - apply wp_bind, wp_read_vector; [done| |by apply precise_mem]. intros v1 x1 Hx1.
    apply wp_bind, wp_read_vector; [done| |by intros e x Hx; split]. intros v2 x2 Hx2.
    apply wp_bind, wp_set_register; [done..|]. apply wp_set_register; [by apply vset_ok|done|].
    apply Hend; [|apply wrap_range; lia]. apply (moving_set (with_cpu _ _)), moving_set. by apply moving_mem, Hx2; apply moving_mem, Hx1; apply moving_start.
  - apply wp_bind, wp_write_vector; [done..| |by apply precise_mem]. intros x1 Hx1.
    apply wp_write_vector; [done..| |by intros e x Hx; split]. intros x2 Hx2. apply Hend; [|apply wrap_range; lia].
    by apply moving_mem, Hx2; apply moving_mem, Hx1; apply moving_start.
Qed.

Lemma access_size_present : (Z.land f.(opc) 2 =? 0) || (f.(size) =? 0) = true -> exists sz, simd_memory_access_size f.(size) f.(opc) = Some sz.
Proof using Hf.
  intros Hz. pose proof (fr_size f Hf). pose proof (fr_opc f Hf). unfold simd_memory_access_size.
  assert (f.(size) = 0 \/ f.(size) = 1 \/ f.(size) = 2 \/ f.(size) = 3) as Hc by lia.
  assert (f.(opc) = 0 \/ f.(opc) = 1 \/ f.(opc) = 2 \/ f.(opc) = 3) as Hd by lia.
  destruct Hc as [Hc|[Hc|[Hc|Hc]]], Hd as [Hd|[Hd|[Hd|Hd]]]; rewrite Hc, Hd in Hz |- *; (discriminate Hz || (eexists; reflexivity)).
Qed.

Lemma vector_indexed_safe v : (Z.land f.(opc) 2 =? 0) || (f.(size) =? 0) = true -> wp (vector_indexed context v f) (fun _ => moved) precise m0.
Proof using Hdirect laws Hf Hs0 Hm0.
  intros Hz. destruct (access_size_present Hz) as [sz Hsz]. unfold vector_indexed. rewrite Hsz.
  apply wp_bind. change (wp (expect (Some sz)) ?Q ?R m0) with (Q sz m0). cbv beta.
  apply wp_bind. change (wp cpu_state ?Q ?R m0) with (Q m0.(cpu) m0). cbv beta zeta. apply wp_bind.
  eapply wp_mono; [apply vector_transfer_safe| |done]. intros [] m Hm.
  destruct v; try (by apply moving_moved); exact (wp_write_base _ _ m Hm (wrap_range 64 _ ltac:(lia))).
Qed.

(** ** Structures *)

Lemma register_index_range v : 0 <= Z.land v 31 < 32.
Proof using. change 31 with (Z.ones 5). rewrite Z.land_ones by lia. apply Z.mod_pos_bound. lia. Qed.

Lemma insert_lane_safe r lane bits v m : moving m -> 0 <= r < 32 -> wp (insert_lane r lane bits v) (fun _ => moving) interrupted m.
Proof using.
  intros Hm Hr. unfold insert_lane. apply wp_bind, wp_vector_register; [apply Hm|done|]. intros _.
  apply wp_set_register; [apply Hm|done|]. by apply moving_set.
Qed.

Lemma read_vector_safe addr sz (k : Z -> MM unit) m : moving m ->
  (forall v m', moving m' -> wp (k v) (fun _ => moving) interrupted m') ->
  wp (let! v := read_vector context addr sz in k v) (fun _ => moving) interrupted m.
Proof using Hdirect laws.
  intros Hm Hk. apply wp_bind, wp_read_vector; [apply Hm| |by intros e x Hx; apply moving_mem]. intros v x Hx. by apply Hk, moving_mem.
Qed.

Lemma store_lane_safe r lane bits addr sz m : moving m -> 0 <= r < 32 -> sz <> Quadword ->
  wp (let! v := vector_lane r lane bits in write_lane context addr sz v) (fun _ => moving) interrupted m.
Proof using Hdirect laws.
  intros Hm Hr Hq. apply wp_bind. unfold vector_lane. apply wp_bind, wp_vector_register; [apply Hm|done|]. intros _. apply wp_ret.
  unfold write_lane. apply wp_bind. destruct sz; [apply wp_ret..|done];
    (apply wp_ordinary_write; [done|apply Hm| |]; intros; by apply moving_mem).
Qed.

Lemma post_index_safe shape base b m : moving m -> wp (structure_post_index f shape base b) (fun _ => moved) interrupted m.
Proof using.
  intros Hm. unfold structure_post_index. destruct b; [|by apply moving_moved].
  apply wp_bind. change (wp cpu_state ?Q ?R m) with (Q m.(cpu) m). cbv beta zeta. apply wp_write_base; [done|apply wrap_range; lia].
Qed.

Lemma multiple_structures_safe shape b : shape.(CpuA64Sem.element_size) <> Quadword ->
  wp (vector_multiple_structures context f shape b) (fun _ => moved) interrupted m0.
Proof using Hdirect laws Hs0 Hm0.
  intros Hq. unfold vector_multiple_structures. apply wp_bind. change (wp cpu_state ?Q ?R m0) with (Q m0.(cpu) m0). cbv beta zeta.
  apply wp_bind. eapply (wp_mono _ _ (fun _ => moving)); [|intros [] m Hm; by apply post_index_safe|by intros].
  apply wp_structure_loop; [|apply moving_start]. intros i a m _ Hm. destruct (multiple_element shape i) as [ro lane].
  pose proof (register_index_range (wrap 8 (f.(rd) + ro))) as Hr. destruct (f.(load)); [|by apply store_lane_safe].
  apply read_vector_safe; [done|]. intros v m1 Hm1. apply wp_bind. eapply wp_mono; [by apply insert_lane_safe| |done]. intros [] m2 Hm2.
  destruct (_ && _); [|done]. apply wp_bind, wp_vector_register; [apply Hm2|done|]. intros _. apply wp_set_register; [apply Hm2|done|]. by apply moving_set.
Qed.

Lemma single_structure_safe shape b : shape.(CpuA64Sem.element_size) <> Quadword -> shape.(CpuA64Sem.mode) <> Multiple ->
  wp (vector_single_structure context f shape b) (fun _ => moved) interrupted m0.
Proof using Hdirect laws Hs0 Hm0.
  intros Hq Hmode. unfold vector_single_structure. apply wp_bind. change (wp cpu_state ?Q ?R m0) with (Q m0.(cpu) m0). cbv beta zeta.
  apply wp_bind. eapply (wp_mono _ _ (fun _ => moving)); [|intros [] m Hm; by apply post_index_safe|by intros].
  apply wp_structure_loop; [|apply moving_start]. intros i a m _ Hm.
  pose proof (register_index_range (wrap 8 (f.(rd) + i))) as Hr. destruct (shape.(CpuA64Sem.mode)) as [|lane|]; [done| |].
  - destruct (f.(load)); [|by apply store_lane_safe]. apply read_vector_safe; [done|]. intros v m1 Hm1. by apply insert_lane_safe.
  - apply read_vector_safe; [done|]. intros v m1 Hm1. apply wp_set_register; [apply Hm1|done|]. by apply moving_set.
Qed.

Lemma structure_sizes g shape :
  simd_multiple_structure_shape g = Some shape -> shape.(CpuA64Sem.element_size) <> Quadword.
Proof using. unfold simd_multiple_structure_shape, element_access_size. intros Hs. repeat case_match; simplify_eq; done. Qed.

Lemma single_sizes g shape :
  simd_single_structure_shape g = Some shape -> shape.(CpuA64Sem.element_size) <> Quadword /\ shape.(CpuA64Sem.mode) <> Multiple.
Proof using. unfold simd_single_structure_shape, element_access_size. intros Hs. repeat case_match; simplify_eq; done. Qed.

(** What a transfer leaves behind when it is cut short. *)
Definition is_structure (v : Variant) : bool :=
  match v with
  | MemoryMultipleStructures | MemoryMultipleStructuresPostIndex | MemorySingleStructure | MemorySingleStructurePostIndex => true
  | _ => false
  end.
Definition left_behind (v : Variant) (e : MemoryStepError) (m : Machine M) : Prop :=
  is_memory v = true /\ if is_structure v then moving m else untouched m.

Lemma memory_form_safe v : variant_shape v f = true ->
  wp (memory_form context v f) (fun b m => if b then is_memory v = true /\ moved m else m = m0) (left_behind v) m0.
Proof using Hdirect laws Hf Hs0 Hm0.
  intros Hv. destruct v; try done; cbn [memory_form variant_shape] in *.
  - apply wp_bind. eapply wp_mono; [by apply vector_pair_safe|by intros|by intros].
  - apply wp_bind. eapply wp_mono; [by apply vector_indexed_safe|by intros|by intros].
  - apply wp_bind. eapply wp_mono; [by apply vector_indexed_safe|by intros|by intros].
  - apply wp_bind. eapply wp_mono; [by apply vector_indexed_safe|by intros|by intros].
  - apply wp_bind. eapply wp_mono; [by apply vector_indexed_safe|by intros|by intros].
  - destruct (access_size_present Hv) as [sz Hsz]. rewrite Hsz. apply wp_bind. change (wp (expect (Some sz)) ?Q ?R m0) with (Q sz m0). cbv beta.
    apply wp_bind. change (wp cpu_state ?Q ?R m0) with (Q m0.(cpu) m0). cbv beta zeta. destruct (register_offset_address _ _ _ _ _ _) as [a|]; [|done].
    apply wp_bind. eapply wp_mono; [apply vector_transfer_safe| |by intros]. intros [] m Hm. split; [done|]. by apply moving_moved.
  - destruct (simd_multiple_structure_shape _) as [shape|] eqn:Hs; [|done]. apply wp_bind.
    eapply wp_mono; [apply multiple_structures_safe, (structure_sizes _ _ Hs)|by intros|by intros].
  - destruct (simd_multiple_structure_shape _) as [shape|] eqn:Hs; [|done]. apply wp_bind.
    eapply wp_mono; [apply multiple_structures_safe, (structure_sizes _ _ Hs)|by intros|by intros].
  - destruct (simd_single_structure_shape _) as [shape|] eqn:Hs; [|done]. apply wp_bind. destruct (single_sizes _ _ Hs).
    eapply wp_mono; [by apply single_structure_safe|by intros|by intros].
  - destruct (simd_single_structure_shape _) as [shape|] eqn:Hs; [|done]. apply wp_bind. destruct (single_sizes _ _ Hs).
    eapply wp_mono; [by apply single_structure_safe|by intros|by intros].
Qed.
End Safe.

(** The outcomes of one FP/SIMD instruction from [m]: it completes and moves to
    the next instruction, traps with nothing changed, is rejected with nothing
    changed, or stops in a memory access. *)
Definition fp_outcome {M} (v : Variant) (m : Machine M) (r : Result InterpreterError InstructionStep) (m' : Machine M) : Prop :=
  match r with
  | Ok Continue => m'.(cpu).(pc) = wrap 64 (m.(cpu).(pc) + 4) /\ m'.(cpu).(fpcr) = m.(cpu).(fpcr) /\
      m'.(cpu).(tpidr_el0) = m.(cpu).(tpidr_el0) /\ m'.(cpu).(tpidrro_el0) = m.(cpu).(tpidrro_el0)
  | Ok (Exit (ArchitecturalException _ EFloatingPoint None)) => is_memory v = false /\ m' = m
  | Ok (Exit (DataFault _ _)) | Err (DirectMemoryError _ _) =>
      is_memory v = true /\ if is_structure v then vector_only m.(cpu) m'.(cpu) else m'.(cpu) = m.(cpu)
  | Err (UnsupportedInstruction _ _ _) => m' = m
  | _ => False
  end.

Lemma with_cpu_same {M} (m : Machine M) : with_cpu m m.(cpu) = m.
Proof. by destruct m. Qed.

Lemma finish_memory_outcome {M} `{CpuMemory M} `{!CpuMemoryLaws M} d v m (op : MM bool) : state_ok m.(cpu) -> mem_ok m.(mem) ->
  wp op (fun b m' => if b then is_memory v = true /\ moved m m' else m' = m) (left_behind m v) m ->
  exists r m', finish_memory d op m = (r, m') /\ state_ok m'.(cpu) /\ mem_ok m'.(mem) /\ fp_outcome v m r m'.
Proof.
  intros Hs Hm. unfold wp, finish_memory. destruct (op m) as [[[]|[fault|detail]|] m'].
  - intros (Hv & Hok & Hb & Hx). do 2 eexists. split; [reflexivity|]. cbn [cpu with_cpu mem]. split; [by apply advance_ok|].
    split; [done|]. destruct Hb. cbn. by rewrite vo_pc0.
  - intros ->. do 2 eexists. split; [reflexivity|]. done.
  - intros (Hv & Hl). do 2 eexists. split; [reflexivity|]. unfold moving, untouched in Hl. cbn [fp_outcome]. destruct (is_structure v).
    + destruct Hl as (? & ? & ?). done.
    + destruct Hl as [Hc ?]. by rewrite Hc.
  - intros (Hv & Hl). do 2 eexists. split; [reflexivity|]. unfold moving, untouched in Hl. cbn [fp_outcome]. destruct (is_structure v).
    + destruct Hl as (? & ? & ?). done.
    + destruct Hl as [Hc ?]. by rewrite Hc.
  - done.
Qed.

Lemma execute_fp_outcome {M} `{CpuMemory M} `{!CpuMemoryLaws M} `{BuildProfile} context d v f m :
  overflow_checks = false -> direct_lawful context -> operands_ok f -> variant_shape v f = true -> state_ok m.(cpu) -> mem_ok m.(mem) ->
  exists r m', execute context d v f m = (r, m') /\ state_ok m'.(cpu) /\ mem_ok m'.(mem) /\ fp_outcome v m r m'.
Proof.
  intros Hbuild Hd Hf Hv Hs Hm. unfold execute. rewrite Hbuild. destruct (is_memory v) eqn:Hmem.
  - assert (He : FpSimdExec.execute false v f m.(cpu) = (Err UnsupportedFpSimd, m.(cpu))) by (by destruct v).
    rewrite He, with_cpu_same. apply finish_memory_outcome; [done..|]. by apply memory_form_safe.
  - pose proof (execute_completes f Hf m.(cpu) Hs v Hv Hmem) as Hc. unfold wp in Hc.
    destruct (FpSimdExec.execute false v f m.(cpu)) as [[[]|e|] s']; [|destruct Hc as [-> ->]|done].
    + destruct Hc as (Hok & Hpc & Hsp & Hfp & Ht & Htr). do 2 eexists. split; [reflexivity|]. cbn [cpu with_cpu mem].
      split; [by apply advance_ok|]. split; [done|]. cbn. by rewrite Hpc.
    + do 2 eexists. split; [reflexivity|]. rewrite with_cpu_same. done.
Qed.

Lemma execute_duplicate_reserved {M} `{CpuMemory M, BuildProfile} (context : Context M) d f m : operands_ok f -> state_ok m.(cpu) ->
  f.(immediate_5) = 16 -> f.(vector_128) = false -> execute context d DuplicateGeneral f m = (Panic, m).
Proof.
  intros Hf Hs Hi Hq. pose proof (duplicate_reserved f Hf m.(cpu) Hs Hi) as Hp. rewrite Hq in Hp.
  unfold execute. cbn [FpSimdExec.execute]. rewrite Hp. by rewrite with_cpu_same.
Qed.
