(* ===== verification/Interp.v ===== *)
(** * One instruction, end to end (crates/cpu-interpreter/src/interpreter/{mod,a64/mod}.rs)

    [execute] routes a decoded instruction to its family and
    [execute_one_with_context] decodes a fetched word and runs it.  Every family
    is modelled; the profile of the build decides whether an arithmetic overflow
    panics, which matters to the FP/SIMD family. *)

From Stdlib Require Import String.
From S2P Require Import Prelude DecodeControl DecodeSystem DecodeInteger DecodeMemory DecodeFpSimd.
From S2P Require Import DecodeAllocation InterpInteger InterpMemory InterpMemorySpec.
From S2P Require Import FpSimdExecSpec FpSimdShape InterpFpSimd InterpFpSimdSpec.
From S2P Require Import InterpControl InterpSystem CpuBits CpuArith CpuState DecodeTable.
From S2P Require Import DecodeA64 CpuMemory CpuA64Sem InterpCore.
From S2P Require SimdSpec.

#[local] Opaque decode normalize.

Section Interp.
Context {M : Type} `{CpuMemory M, BuildProfile} (context : Context M).

(** A handler of the CPU state alone. *)
Definition on_cpu {E A} (op : SM A64State E A) : SM (Machine M) E A := fun m =>
  let '(r, s) := op m.(cpu) in (r, with_cpu m s).

Definition integer_step (d : DecodedInstruction) (i : DecodeInteger.Instruction) : Step M := fun m =>
  match on_cpu (InterpInteger.execute d.(d_location).(loc_pc) i) m with
  | (Ok _, m) => (Ok Continue, m)
  | (Err _, m) => (Err (unsupported d), m)
  | (Panic, m) => (Panic, m)
  end.

Definition execute (decoded : DecodedInstruction) : Step M := fun m =>
  match normalize decoded.(d_opcode) decoded.(d_encoding) with
  | Ok (Control i) => on_cpu (InterpControl.execute decoded i) m
  | Ok (System i) => InterpSystem.execute context decoded i m
  | Ok (Integer i) => integer_step decoded i m
  | Ok (Memory i) => InterpMemory.execute context decoded i m
  | Ok (FpSimd v operands) => InterpFpSimd.execute context decoded v operands m
  | Ok (RecognizedUnsupported _) => (Err (unsupported decoded), m)
  | _ => (Panic, m)
  end.

Definition execute_decoded (decoded : DecodedInstruction) : Step M := execute decoded.

(** The [match] of [execute_one_with_context] on the decoder's answer. *)
Definition execute_result (source : LocationDescriptor) (encoding : Z) (result : Result Empty_set DecodeResult)
  : Step M := fun m =>
  match result with
  | Ok (Decoded op) => execute_decoded (mkDecoded source encoding op) m
  | Ok (DecodeRecognizedUnimplemented op) => (Err (unsupported (mkDecoded source encoding op)), m)
  | Ok (DecodeUnallocated reason) => (Err (InvalidInstructionStream source encoding reason), m)
  | Ok (DecodeReserved name reason) =>
      (Err (InvalidInstructionStream source encoding (name ++ ": reserved: " ++ reason)%string), m)
  | _ => (Panic, m)
  end.

Definition execute_one_with_context (encoding : Z) : Step M := fun m =>
  let source := mkLocation m.(cpu).(pc) (profile_id context.(platform)) in
  execute_result source encoding (decode context.(platform) encoding) m.
End Interp.

(** The word is an FP/SIMD instruction. *)
Definition routed_to_fp_simd (bits : Z) (result : Result Empty_set DecodeResult) : bool :=
  match result with
  | Ok (Decoded op) => match normalize op bits with Ok (FpSimd _ _) => true | _ => false end
  | _ => false
  end.
Definition is_fp_simd (platform : TargetPlatform) (bits : Z) : bool :=
  routed_to_fp_simd bits (decode platform bits).

(** ** Lemmas *)

Lemma mem_operands_of id bits i :
  DecodeMemory.normalize id bits = Ok i -> DecodeMemory.operands i = DecodeMemory.normalize_operands id bits.
Proof.
  unfold DecodeMemory.normalize. cbv zeta. intros Hn.
  repeat match type of Hn with
  | Ok _ = Ok _ => injection Hn as <-
  | Panic = Ok _ => discriminate Hn
  | context [match ?v with _ => _ end] => is_var v; destruct v
  end; reflexivity.
Qed.

(** What one step guarantees: no panic, the invariant, and errors, faults and
    exceptions that leave the registers as they were. *)
Definition step_sound {M} (m : Machine M) (r : Result InterpreterError InstructionStep) (m' : Machine M) : Prop :=
  state_ok m'.(cpu) /\
  match r with
  | Ok Continue | Ok (Exit (Scheduled _ _)) => True
  | Ok (Exit _) | Err _ => m'.(cpu) = m.(cpu)
  | Panic => False
  end.

Section Sound.
Context {M : Type} `{CpuMemory M} {laws : CpuMemoryLaws M} `{BuildProfile} (context : Context M).
Context (Ht : timer_ok context.(architectural_timer)) (Hd : direct_lawful context).

Lemma execute_sound d bits m i :
  d.(d_encoding) = bits -> in_range 32 bits -> state_ok m.(cpu) -> mem_ok m.(mem) -> in_range 64 d.(d_location).(loc_pc) ->
  normalize d.(d_opcode) bits = Ok i -> (forall v b, i <> FpSimd v b) ->
  exists r m', execute context d m = (r, m') /\ step_sound m r m' /\ mem_ok m'.(mem).
Proof using Ht Hd laws.
  intros He Hb Hs Hmem Hpc Hn Hfp. unfold execute. rewrite He, Hn. pose proof (normalize_family _ _ _ Hn) as Hfam.
  destruct i as [i|i|i|i|v b|c].
  - destruct (control_execute_outcome d i m.(cpu) Hs Hpc) as (r & s' & Hr & Hok & Hm).
    unfold on_cpu. rewrite Hr. do 2 eexists. split; [reflexivity|]. split; [|exact Hmem]. split; [exact Hok|].
    by destruct r as [[|[]]| |].
  - destruct (system_execute_outcome context d i m Ht Hs Hmem) as (r & m' & Hr & Hok & Hx & _ & Hm).
    do 2 eexists. split; [exact Hr|]. split; [|exact Hx]. split; [exact Hok|]. by destruct r as [[|[]]| |].
  - destruct Hfam as [id Hid].
    destruct (integer_execute_outcome d.(d_location).(loc_pc) id bits i m.(cpu) Hid Hs) as (r & s' & Hr & Hok & Hm).
    unfold integer_step, on_cpu. rewrite Hr.
    destruct Hm as [(-> & _)|(-> & ->)]; do 2 eexists; (split; [reflexivity|]); (split; [by split|exact Hmem]).
  - destruct Hfam as [id Hid].
    destruct (memory_execute_outcome context d i m Hd Hs Hmem) as (r & m' & Hr & Hok & Hx & Hm).
    { rewrite (mem_operands_of id bits i Hid). by apply mem_normalize_ok. }
    do 2 eexists. split; [exact Hr|]. split; [|exact Hx]. split; [exact Hok|]. by destruct r as [[|[]]| |].
  - by destruct (Hfp v b).
  - do 2 eexists. split; [reflexivity|]. split; [by split|exact Hmem].
Qed.

Lemma execute_fp_sound d bits m v f :
  overflow_checks = false -> d.(d_encoding) = bits -> in_range 32 bits -> state_ok m.(cpu) -> mem_ok m.(mem) ->
  d.(d_opcode).(o_pattern) ∈ patterns -> candidate validate bits d.(d_opcode).(o_pattern) = true ->
  normalize d.(d_opcode) bits = Ok (FpSimd v f) ->
  (reserved_word bits = true /\ execute context d m = (Panic, m)) \/
  exists r m', execute context d m = (r, m') /\ state_ok m'.(cpu) /\ mem_ok m'.(mem) /\ fp_outcome v m r m'.
Proof using Hd laws.
  intros Hbuild He Hb Hs Hm Hin Hc Hn. unfold execute. rewrite He, Hn.
  destruct (decoded_operands d.(d_opcode).(o_pattern) bits v f Hb Hin Hc) as [Hf [Hv|(Hr & -> & Hi & Hq)]]; [exact (normalize_family _ _ _ Hn)|right|left].
  - exact (execute_fp_outcome context d v f m Hbuild Hd Hf Hv Hs Hm).
  - split; [exact Hr|]. exact (execute_duplicate_reserved context d f m Hf Hs Hi Hq).
Qed.
End Sound.

(** ** Claims *)

(** C3. One step of the interpreter is safe for every 32-bit word outside the
    FP/SIMD family, allocated or not, over any lawful memory: it decodes and
    executes without a panic, keeps the register-file invariant, and an
    unsupported or invalid word, a data fault, an exception or a supervisor
    call leaves every CPU register as it was; the memory stays lawful. *)
Theorem execute_one_safe {M : Type} `{CpuMemory M, !CpuMemoryLaws M, BuildProfile} (context : Context M) bits m :
  timer_ok context.(architectural_timer) -> direct_lawful context ->
  state_ok m.(cpu) -> mem_ok m.(mem) -> in_range 32 bits -> is_fp_simd context.(platform) bits = false ->
  exists r m', execute_one_with_context context bits m = (r, m') /\ step_sound m r m' /\ mem_ok m'.(mem).
Proof.
  intros Ht Hd Hs Hmem Hb Hfp. unfold execute_one_with_context, execute_result, execute_decoded, is_fp_simd, routed_to_fp_simd in *.
  destruct (decode_returns context.(platform) bits) as [r Hr]. rewrite Hr in *.
  destruct r as [op|reason|name reason|op]; try (do 2 eexists; split; [reflexivity|]; split; [split; [exact Hs|reflexivity]|exact Hmem]).
  destruct (decode_from_catalog _ _ _ (or_introl Hr)) as (_ & Hin & Hc & _).
  destruct (catalog_routed op bits Hin Hc) as [i Hi]. rewrite Hi in Hfp.
  apply (execute_sound context Ht Hd _ bits m i); [reflexivity|exact Hb|exact Hs|exact Hmem|apply Hs|exact Hi|].
  intros v b ->. discriminate Hfp.
Qed.

(** A build without overflow checks, the default of a release. *)
#[global] Instance release_build : BuildProfile := {| overflow_checks := false |}.

Lemma execute_one_safe_witness :
  exists r m', execute_one_with_context empty_context 0xd4000001 empty_machine = (r, m') /\
    step_sound empty_machine r m' /\ mem_ok m'.(mem).
Proof.
  apply (execute_one_safe empty_context 0xd4000001 empty_machine).
  - split; vm_compute; split; (discriminate || reflexivity).
  - exact I.
  - apply A64State_default_ok.
  - exact I.
  - vm_compute. split; [discriminate|reflexivity].
  - unfold is_fp_simd. rewrite decode_scan. vm_compute. reflexivity.
Defined.

(** C7. One step of the interpreter is safe for every FP/SIMD word, over any
    lawful memory, in a build without overflow checks, the reserved words of DUP
    (general) apart: it completes at the next instruction with the control
    register and the thread pointers unchanged, or raises an enabled
    floating-point exception, or is rejected as unsupported, in both cases with
    nothing changed, or stops in a memory access.  Such a stop leaves every
    register as it was, except that a structure transfer keeps the vector
    elements it has already moved. *)
Theorem execute_one_fp_simd_safe {M : Type} `{CpuMemory M, !CpuMemoryLaws M, BuildProfile} (context : Context M) bits m :
  overflow_checks = false -> direct_lawful context -> state_ok m.(cpu) -> mem_ok m.(mem) -> in_range 32 bits ->
  is_fp_simd context.(platform) bits = true -> reserved_word bits = false ->
  exists v f r m', execute_one_with_context context bits m = (r, m') /\ state_ok m'.(cpu) /\ mem_ok m'.(mem) /\
    (exists op, decode context.(platform) bits = Ok (Decoded op) /\ normalize op bits = Ok (FpSimd v f)) /\ fp_outcome v m r m'.
Proof.
  intros Hbuild Hd Hs Hm Hb Hfp Hres. unfold execute_one_with_context, execute_result, execute_decoded, is_fp_simd, routed_to_fp_simd in *.
  destruct (decode context.(platform) bits) as [[op| | |]| |] eqn:Hdec; try discriminate Hfp.
  destruct (decode_from_catalog _ _ _ (or_introl Hdec)) as (_ & Hin & Hc & _).
  destruct (normalize op bits) as [[| | | |v f|]| |] eqn:Hn; try discriminate Hfp.
  destruct (execute_fp_sound context Hd (mkDecoded (mkLocation m.(cpu).(pc) (profile_id context.(platform))) bits op) bits m v f)
    as [[Hr _]|(r & m' & He & Hok & Hx & Ho)];
    [exact Hbuild|reflexivity|exact Hb|exact Hs|exact Hm|exact Hin|exact Hc|exact Hn|rewrite Hr in Hres; discriminate Hres|].
  exists v, f, r, m'. split; [exact He|]. split; [exact Hok|]. split; [exact Hx|]. split; [|exact Ho]. exists op. split; [reflexivity|exact Hn].
Qed.

(** FADD S0, S0, S0 *)
Lemma execute_one_fp_simd_safe_witness :
  exists v f r m', execute_one_with_context empty_context 0x1e202800 empty_machine = (r, m') /\ state_ok m'.(cpu) /\ mem_ok m'.(mem) /\
    (exists op, decode Switch1 0x1e202800 = Ok (Decoded op) /\ normalize op 0x1e202800 = Ok (FpSimd v f)) /\ fp_outcome v empty_machine r m'.
Proof.
  apply (execute_one_fp_simd_safe empty_context 0x1e202800 empty_machine).
  - reflexivity.
  - exact I.
  - apply A64State_default_ok.
  - exact I.
  - vm_compute. split; [discriminate|reflexivity].
  - unfold is_fp_simd. rewrite decode_scan. vm_compute. reflexivity.
  - vm_compute. reflexivity.
Defined.

(** ADD XZR, X1, X2 *)
Definition ADD_XZR_X1_X2 : Z := 0x8b02003f.

Lemma decode_add_xzr p :
  exists op, decode p ADD_XZR_X1_X2 = Ok (Decoded op) /\
    normalize op ADD_XZR_X1_X2 = Ok (Integer (DecodeInteger.AddSubShifted (DecodeInteger.normalize_operands ADD_XZR_X1_X2))).
Proof.
  rewrite decode_scan.
  exists (mkOpcode ((pattern "add-sub-shifted" 0x1f200000 0x0b000000 0x11 66 [])) ADD_XZR_X1_X2).
  split; vm_compute; reflexivity.
Qed.

(** The handler with register 31 as destination and no flags. *)
Lemma add_sub_shifted_31 f s :
  state_ok s -> f.(DecodeInteger.rd) = 31 -> f.(DecodeInteger.set_flags) = false ->
  f.(DecodeInteger.width_64) = true -> f.(DecodeInteger.shift_amount) = 0 -> f.(DecodeInteger.shift_kind) = 0 ->
  InterpInteger.add_sub_shifted f s = (Ok true, set_sp s
    (add_sub_value f (read s f.(DecodeInteger.rn) 64 false) (read s f.(DecodeInteger.rm) 64 false)
       f.(DecodeInteger.subtract))).
Proof.
  intros Hs Hrd Hset Hw Ha Hk.
  assert (Hwidth : InterpInteger.width f = 64) by (unfold InterpInteger.width; by rewrite Hw).
  assert (Hread : forall i, in_range 64 (read s i 64 false)) by (intros; by apply read_range_64).
  unfold InterpInteger.add_sub_shifted, InterpInteger.shifted, InterpInteger.bit_width.
  rewrite Hwidth, Ha, Hk. cbn [Z.eqb Pos.eqb andb CpuState.shift_kind].
  assert (Hsh : a64_shift_with_carry (read s f.(DecodeInteger.rm) 64 false) 64 LogicalLeft 0 false
    = Ok (mkShift (read s f.(DecodeInteger.rm) 64 false) false)).
  { unfold a64_shift_with_carry, shift. cbn [Z.eqb Pos.eqb orb negb]. by rewrite truncate_wrap, wrap_small by (done || lia). }
  rewrite Hsh. cbn [expect_result result_bind shift_result].
  rewrite wrap_small by apply Hread.
  unfold InterpInteger.apply_add_sub. rewrite add_sub_result_value by (rewrite Hwidth; apply Hread).
  by rewrite Hset, Hrd, Hwidth.
Qed.

(** The shifted-register ADD whose destination is register 31 does not
    discard its result: from every state, the word for ADD XZR, X1, X2 executes
    to completion with the stack pointer replaced by X1 + X2.  The architecture
    reads register 31 as the zero register in this form. *)
Theorem add_to_xzr_writes_sp {M : Type} `{CpuMemory M, BuildProfile} (context : Context M) m :
  state_ok m.(cpu) ->
  execute_one_with_context context ADD_XZR_X1_X2 m =
    (Ok Continue, with_cpu m (advance (set_sp m.(cpu)
       (wrap 64 (read_x m.(cpu) (General 1) + read_x m.(cpu) (General 2)))))).
Proof.
  intros Hs. destruct (decode_add_xzr context.(platform)) as (op & Hd & Hn).
  unfold execute_one_with_context. rewrite Hd. cbn [execute_result]. unfold execute_decoded, execute.
  cbn [d_opcode d_encoding]. rewrite Hn. unfold integer_step, on_cpu. cbn [d_location loc_pc].
  unfold InterpInteger.execute, InterpInteger.dispatch. cbn [DecodeInteger.operands].
  rewrite add_sub_shifted_31 by (exact Hs || reflexivity).
  unfold add_sub_value. cbn [b2z]. change (DecodeInteger.subtract _) with false. cbv iota. by rewrite Z.add_0_r.
Qed.

Lemma add_to_xzr_writes_sp_witness :
  execute_one_with_context empty_context ADD_XZR_X1_X2 empty_machine =
    (Ok Continue, with_cpu empty_machine (advance (set_sp A64State_default 0))).
Proof. exact (add_to_xzr_writes_sp empty_context empty_machine A64State_default_ok). Defined.

(** PACIA X0, X1 and RBIT X0, X1 differ only in the field opcode2 (bits 20:16). *)
Definition PACIA_X0_X1 : Z := 0xdac10020.
Definition RBIT_X0_X1 : Z := 0xdac00020.

Lemma decode_one_source p bits :
  bits = PACIA_X0_X1 \/ bits = RBIT_X0_X1 ->
  exists op, decode p bits = Ok (Decoded op) /\
    normalize op bits = Ok (Integer (DecodeInteger.OneSource (DecodeInteger.normalize_operands bits))).
Proof.
  intros Hb. rewrite decode_scan.
  exists (mkOpcode (fixture32 0xdac01000 (pattern "data-processing-one-source" 0x5fe00000 0x5ac00000 0x1d 76 [])) bits).
  destruct Hb as [-> | ->]; split; vm_compute; reflexivity.
Qed.

(** The one-source pattern does not look at opcode2: from every state, the
    word for the pointer-authentication instruction PACIA X0, X1 decodes and
    executes exactly as RBIT X0, X1. *)
Theorem pacia_executes_as_rbit {M : Type} `{CpuMemory M, BuildProfile} (context : Context M) m :
  exists s', execute_one_with_context context PACIA_X0_X1 m = (Ok Continue, with_cpu m s') /\
    execute_one_with_context context RBIT_X0_X1 m = (Ok Continue, with_cpu m s') /\
    s' = advance (write m.(cpu) 0 64 false (InterpInteger.reverse_bits 64 (read m.(cpu) 1 64 false))).
Proof.
  destruct (decode_one_source context.(platform) PACIA_X0_X1 (or_introl eq_refl)) as (op & Hd & Hn).
  destruct (decode_one_source context.(platform) RBIT_X0_X1 (or_intror eq_refl)) as (op' & Hd' & Hn').
  eexists. unfold execute_one_with_context. rewrite Hd, Hd'. cbn [execute_result]. unfold execute_decoded, execute.
  cbn [d_opcode d_encoding]. rewrite Hn, Hn'. split; [reflexivity|]. split; reflexivity.
Qed.

(** DUP V0, W0 with imm5 = 0b10000, and SSHLL V0, V0, #0 with immh = 0b1000:
    encodings the architecture reserves. *)
Definition DUP_RESERVED : Z := 0x0e100c00.
Definition SSHLL_RESERVED : Z := 0x0f40a400.

Lemma decode_reserved p bits v entry :
  (bits = DUP_RESERVED /\ v = DuplicateGeneral /\ entry = fixture32 0x4e010c20 (pattern "simd-duplicate-general" 0xbfe0fc00 0x0e000c00 0x48 130 [])) \/
  (bits = SSHLL_RESERVED /\ v = ShiftLeftLong /\ entry = fixture32 0x0f20a7fe (pattern "simd-shift-left-long" 0x9f80fc00 0x0f00a400 0xa0 210 [])) ->
  exists f, decode p bits = Ok (Decoded (mkOpcode entry bits)) /\ normalize (mkOpcode entry bits) bits = Ok (FpSimd v f) /\
    SimdSpec.operands_ok f /\ DecodeFpOperands.normalize_operands entry.(p_coverage_id) bits = Ok f.
Proof.
  intros Hb. rewrite decode_scan. destruct (DecodeFpOperands.normalize_operands entry.(p_coverage_id) bits) as [f|[]|] eqn:Hf.
  2: { exfalso. destruct Hb as [(-> & -> & ->)|(-> & -> & ->)]; discriminate Hf. }
  exists f. split; [destruct Hb as [(-> & -> & ->)|(-> & -> & ->)]; vm_compute; reflexivity|].
  split; [|split; [by eapply SimdSpec.normalize_operands_ok|done]].
  destruct Hb as [(-> & -> & ->)|(-> & -> & ->)]; apply Ok_inj in Hf; subst f; vm_compute; reflexivity.
Qed.

(** The reserved DUP word is decoded as allocated and panics, from every state
    and in every build, instead of being reported as an invalid encoding. *)
Theorem reserved_dup_panics {M : Type} `{CpuMemory M, BuildProfile} (context : Context M) m :
  state_ok m.(cpu) -> execute_one_with_context context DUP_RESERVED m = (Panic, m).
Proof.
  intros Hs. destruct (decode_reserved context.(platform) DUP_RESERVED DuplicateGeneral _ (or_introl (conj eq_refl (conj eq_refl eq_refl))))
    as (f & Hd & Hn & Hok & Hf).
  assert (Hi : f.(DecodeFpOperands.immediate_5) = 16 /\ f.(DecodeFpOperands.vector_128) = false) by (apply Ok_inj in Hf; subst f; by split).
  destruct Hi as [Hi Hq]. unfold execute_one_with_context. rewrite Hd. cbn [execute_result]. unfold execute_decoded, execute.
  cbn [d_opcode d_encoding]. rewrite Hn. by apply execute_duplicate_reserved.
Qed.

(** The reserved SSHLL word is decoded as allocated too: it panics in a build
    with overflow checks, and otherwise clears the destination register. *)
Theorem reserved_sshll_panics {M : Type} `{CpuMemory M, BuildProfile} (context : Context M) m :
  state_ok m.(cpu) ->
  execute_one_with_context context SSHLL_RESERVED m =
    if overflow_checks then (Panic, m) else (Ok Continue, with_cpu m (advance (SimdSpec.vset m.(cpu) 0 0))).
Proof.
  intros Hs. destruct (decode_reserved context.(platform) SSHLL_RESERVED ShiftLeftLong _ (or_intror (conj eq_refl (conj eq_refl eq_refl))))
    as (f & Hd & Hn & Hok & Hf).
  unfold execute_one_with_context. rewrite Hd. cbn [execute_result]. unfold execute_decoded, execute. cbn [d_opcode d_encoding]. rewrite Hn.
  assert (Hi : f.(DecodeFpOperands.shift_immediate) = 64 /\ f.(DecodeFpOperands.rd) = 0) by (apply Ok_inj in Hf; subst f; by split).
  destruct Hi as [Hi Hr]. pose proof (SimdSpec.shift_left_long_reserved f Hok m.(cpu) Hs overflow_checks Hi) as Hp. rewrite Hr in Hp.
  unfold InterpFpSimd.execute. cbn [FpSimdExec.execute]. rewrite Hp. destruct overflow_checks; [by rewrite with_cpu_same|reflexivity].
Qed.
