(* ===== verification/CpuExecution.v ===== *)
(** * The execution contract (crates/cpu/src/execution.rs)

    Thread identities, the control word through which other threads stop or
    synchronise an executing CPU, the reports and faults of a slice, and the
    exception a stop asks the runtime to dispatch.  Shared atomics are their
    current values; each operation is one atomic action.  The halt callback of a
    native backend is the number of times it was invoked. *)

From S2P Require Import Prelude CpuBits CpuArith CpuState CpuMemory InterpCore.

Definition CpuThreadId : Type := Z.

(** [ExceptionDispatchRequest] *)
Record ExceptionDispatchRequest := mkDispatch {
  dr_source : LocationDescriptor; dr_kind : ExceptionKind; dr_syndrome : option Z
}.

Definition exception_dispatch_request (e : CpuExit) : option ExceptionDispatchRequest :=
  match e with
  | ArchitecturalException source kind syndrome => Some (mkDispatch source kind syndrome)
  | SupervisorCallExit source immediate => Some (mkDispatch source ESupervisorCall (Some immediate))
  | DataFault source _ => Some (mkDispatch source EDataAbort None)
  | UnallocatedEncoding error => Some (mkDispatch error.(ue_location) EUndefinedInstruction None)
  | _ => None
  end.

Record ExecutionReport := mkReport { er_progress : Z; er_stop : CpuExit; er_context : option RegisterContext }.

Inductive CpuFaultKind := InvalidRequest | Internal | Unavailable.

(** What the message of a fault is rendered from. *)
Inductive FaultMessage :=
| Text (text : string)
| StreamError (source : LocationDescriptor) (encoding : Z) (reason : string)
| StepError (error : InterpreterError).

Record CpuFault := mkCpuFault {
  cf_backend : string;
  cf_kind : CpuFaultKind;
  cf_progress : Z;
  cf_message : FaultMessage;
  cf_context : option RegisterContext
}.

(** ** [CpuControl] *)

Definition CONTROL_PREEMPT : Z := Z.shiftl 1 0.
Definition CONTROL_CODE_INVALIDATION : Z := Z.shiftl 1 1.

Inductive ControlRequest := Preempt | CodeInvalidation.

Definition request_bit (r : ControlRequest) : Z :=
  match r with Preempt => CONTROL_PREEMPT | CodeInvalidation => CONTROL_CODE_INVALIDATION end.

Record ControlSnapshot := mkSnapshot { cs_requests : Z; cs_invalidation_epoch : Z }.

Definition snapshot_contains (s : ControlSnapshot) (r : ControlRequest) : bool :=
  negb (Z.land s.(cs_requests) (request_bit r) =? 0).

Record CpuControl := mkControl {
  requests : Z;
  invalidation_epoch : Z;
  acknowledged_invalidation_epoch : Z;
  active_executions : Z;
  interrupt : option Z
}.

Definition CpuControl_default : CpuControl := mkControl 0 0 0 0 None.
Definition with_interrupt : CpuControl := mkControl 0 0 0 0 (Some 0).

(** [enter_execution], and the drop of its guard. *)
Definition enter_execution (c : CpuControl) : CpuControl :=
  mkControl c.(requests) c.(invalidation_epoch) c.(acknowledged_invalidation_epoch)
    (wrap 32 (c.(active_executions) + 1)) c.(interrupt).
Definition leave_execution (c : CpuControl) : CpuControl :=
  mkControl c.(requests) c.(invalidation_epoch) c.(acknowledged_invalidation_epoch)
    (wrap 32 (c.(active_executions) - 1)) c.(interrupt).
Definition execution_active (c : CpuControl) : bool := negb (c.(active_executions) =? 0).

Definition request (c : CpuControl) (r : ControlRequest) : CpuControl :=
  mkControl (Z.lor c.(requests) (request_bit r)) c.(invalidation_epoch) c.(acknowledged_invalidation_epoch)
    c.(active_executions) (option_map (Z.add 1) c.(interrupt)).

Definition request_invalidation (c : CpuControl) (epoch : Z) : CpuControl :=
  request (mkControl c.(requests) (Z.max c.(invalidation_epoch) epoch) c.(acknowledged_invalidation_epoch)
             c.(active_executions) c.(interrupt)) CodeInvalidation.

Definition take_pending (c : CpuControl) : option ControlSnapshot * CpuControl :=
  (if c.(requests) =? 0 then None else Some (mkSnapshot c.(requests) c.(invalidation_epoch)),
   mkControl 0 c.(invalidation_epoch) c.(acknowledged_invalidation_epoch) c.(active_executions) c.(interrupt)).

Definition acknowledge_invalidation (c : CpuControl) (epoch : Z) : CpuControl :=
  mkControl c.(requests) c.(invalidation_epoch) (Z.max c.(acknowledged_invalidation_epoch) epoch)
    c.(active_executions) c.(interrupt).

Definition acknowledge (c : CpuControl) (snapshot : ControlSnapshot) : CpuControl :=
  if negb (Z.land snapshot.(cs_requests) CONTROL_CODE_INVALIDATION =? 0)
  then acknowledge_invalidation c snapshot.(cs_invalidation_epoch)
  else c.

Definition acknowledged_invalidation (c : CpuControl) (epoch : Z) : bool :=
  epoch <=? c.(acknowledged_invalidation_epoch).

(** ** Properties *)

(** The control word and its epochs: what every sequence of the operations
    keeps.  A request that is not yet acknowledged is still pending. *)
Record control_ok (c : CpuControl) : Prop := {
  ctl_requests : 0 <= c.(requests) < 4;
  ctl_epoch : 0 <= c.(invalidation_epoch);
  ctl_active : in_range 32 c.(active_executions);
  ctl_pending : c.(acknowledged_invalidation_epoch) < c.(invalidation_epoch) ->
    Z.testbit c.(requests) 1 = true
}.

Ltac control_simpl :=
  cbn [request_invalidation request acknowledge_invalidation requests invalidation_epoch
       acknowledged_invalidation_epoch active_executions interrupt].

Lemma request_bits_range r b : 0 <= b < 4 -> 0 <= Z.lor b (request_bit r) < 4.
Proof. intros Hb. assert (b = 0 \/ b = 1 \/ b = 2 \/ b = 3) as [->|[->|[->| ->]]] by lia; destruct r; vm_compute; split; congruence. Qed.

Lemma request_pending c r : 0 <= c.(requests) < 4 ->
  exists s, (take_pending (request c r)).1 = Some s /\ snapshot_contains s r = true.
Proof.
  intros Hb. unfold take_pending, request, snapshot_contains. cbn [requests fst].
  assert (c.(requests) = 0 \/ c.(requests) = 1 \/ c.(requests) = 2 \/ c.(requests) = 3) as [->|[->|[->| ->]]] by lia;
    destruct r; eexists; split; reflexivity.
Qed.

Lemma land_bit1 b : 0 <= b < 4 -> negb (Z.land b CONTROL_CODE_INVALIDATION =? 0) = Z.testbit b 1.
Proof. intros Hb. assert (b = 0 \/ b = 1 \/ b = 2 \/ b = 3) as [->|[->|[->| ->]]] by lia; reflexivity. Qed.

Lemma control_default_ok : control_ok CpuControl_default.
Proof. split; cbn; [lia|lia|split; [done|reflexivity]|lia]. Qed.

Lemma request_ok c r : control_ok c -> control_ok (request c r).
Proof.
  intros [H1 H2 H3 H4]. split; control_simpl; [by apply request_bits_range|done|done|]. intros Hlt. rewrite Z.lor_spec, H4 by done. done.
Qed.

Lemma request_invalidation_ok c epoch : control_ok c -> control_ok (request_invalidation c epoch).
Proof.
  intros [H1 H2 H3 H4]. split; control_simpl; [by apply (request_bits_range CodeInvalidation)|lia|done|].
  intros _. by rewrite Z.lor_spec, orb_comm.
Qed.

(** Taking the pending requests and acknowledging them is one round of the
    executor; in between [control_ok] does not hold. *)
Definition service (c : CpuControl) : CpuControl :=
  match take_pending c with
  | (Some s, c) => acknowledge c s
  | (None, c) => c
  end.

Lemma service_ok c : control_ok c -> control_ok (service c) /\ (service c).(requests) = 0 /\
  (service c).(invalidation_epoch) <= Z.max (service c).(acknowledged_invalidation_epoch) c.(acknowledged_invalidation_epoch).
Proof.
  intros [H1 H2 H3 H4]. unfold service, take_pending. destruct (Z.eqb_spec c.(requests) 0) as [H0|H0].
  - assert (~ c.(acknowledged_invalidation_epoch) < c.(invalidation_epoch)) by (intros Hlt; apply H4 in Hlt; by rewrite H0 in Hlt).
    split; [split; control_simpl; [lia|done|done|lia]|]. control_simpl. lia.
  - unfold acknowledge. cbn [cs_requests cs_invalidation_epoch]. rewrite land_bit1 by done. destruct (Z.testbit c.(requests) 1) eqn:Hb.
    + split; [split; control_simpl; [lia|done|done|lia]|]. control_simpl. lia.
    + assert (~ c.(acknowledged_invalidation_epoch) < c.(invalidation_epoch)) by (intros Hlt; apply H4 in Hlt; congruence).
      split; [split; control_simpl; [lia|done|done|lia]|]. control_simpl. lia.
Qed.

(** ** Claims *)

(** C13. The invalidation handshake: once another thread has requested an
    invalidation up to an epoch, every later round of the executor, whatever
    requests were made before, in between or together with it, acknowledges
    that epoch; until then the request stays pending, and acknowledgements never
    go back. *)
Theorem invalidation_acknowledged c epoch others :
  control_ok c ->
  let pending := fold_left request others (request_invalidation c epoch) in
  snapshot_contains (mkSnapshot pending.(requests) pending.(invalidation_epoch)) CodeInvalidation = true /\
  acknowledged_invalidation (service pending) epoch = true /\
  c.(acknowledged_invalidation_epoch) <= (service pending).(acknowledged_invalidation_epoch).
Proof.
  intros Hc pending.
  assert (Hp : control_ok pending /\ Z.testbit pending.(requests) 1 = true /\ epoch <= pending.(invalidation_epoch) /\
    pending.(acknowledged_invalidation_epoch) = c.(acknowledged_invalidation_epoch)).
  { subst pending. assert (H0 : let c1 := request_invalidation c epoch in
      control_ok c1 /\ Z.testbit c1.(requests) 1 = true /\ epoch <= c1.(invalidation_epoch) /\
      c1.(acknowledged_invalidation_epoch) = c.(acknowledged_invalidation_epoch)).
    { split; [by apply request_invalidation_ok|]. control_simpl. rewrite Z.lor_spec, orb_comm. split; [done|lia]. }
    revert H0. generalize (request_invalidation c epoch) as c1. induction others as [|r others IH]; intros c1 (H1 & H2 & H3 & H4); [done|].
    cbn [fold_left]. apply IH. split; [by apply request_ok|]. control_simpl. rewrite Z.lor_spec, H2. done. }
  destruct Hp as (Hok & Hbit & He & Hack). pose proof (ctl_requests _ Hok) as Hr.
  unfold snapshot_contains. cbn [cs_requests request_bit]. rewrite land_bit1 by done. split; [done|].
  unfold service, take_pending. destruct (Z.eqb_spec pending.(requests) 0) as [H0|H0]; [by rewrite H0 in Hbit|].
  unfold acknowledge. cbn [cs_requests cs_invalidation_epoch]. rewrite land_bit1, Hbit by done.
  unfold acknowledged_invalidation. cbn. split; [apply Z.leb_le; lia|lia].
Qed.

Lemma invalidation_acknowledged_witness :
  acknowledged_invalidation (service (request (request_invalidation CpuControl_default 9) Preempt)) 9 = true.
Proof. exact (proj1 (proj2 (invalidation_acknowledged CpuControl_default 9 [Preempt] control_default_ok))). Defined.
