(* ===== verification/InterpProcess.v ===== *)
(** * The interpreter process and its run loop (crates/cpu-interpreter/src/process.rs)

    [InterpreterProcess] and [InterpreterThread] with their memory-backend
    binding, and [run_slice], the bounded execution loop.

    The loop shares its control word, its vCPU events and its memory with other
    threads.  Those threads are an environment: for every turn of the loop, the
    signals they send before the interrupt check, between that check and the
    control check, and between the fetch and the execution, and the timer value
    the turn sees.  The theorems hold for every environment.  The loop itself
    runs on fuel, a binary number, and answers [None] only when it runs out. *)

From Stdlib Require Import String.
From S2P Require Import Prelude Loops CpuBits CpuArith CpuState CpuMemory MemCommon.
From S2P Require Import DecodeTable DecodeA64 CpuA64Sem InterpCore InterpSystem InterpMemorySpec InterpFpSimd Interp CpuExecution.

#[local] Opaque decode normalize.

(** ** Memory backends (crates/memory/src/direct.rs, crates/cpu/src/memory/contracts.rs) *)

Inductive CpuMemoryBackend := Checked | LinuxDirect.

Record DirectAddressSpaceView := mkView {
  base : Z; address_space_size : Z; exclusive_page_table : Z
}.

(** [DirectAddressSpaceView::host_address] *)
Definition host_address (v : DirectAddressSpaceView) (guest : Z) : option Z :=
  if v.(address_space_size) <=? guest then None
  else if v.(base) + guest <? 2 ^ 64 then Some (v.(base) + guest) else None.

(** The remaining methods of [InstructionMemory] and [CpuMemory] that the
    process calls. *)
Class InterpreterMemory (M : Type) := {
  im_fetch32 : Z -> Z -> SM M InstructionFetchFault FetchedInstruction;
  im_cpu_memory_backend : M -> Z -> CpuMemoryBackend;
  im_direct_view : M -> Z -> option DirectAddressSpaceView;
  im_gate_identity : M -> option Z
}.

Class InterpreterMemoryLaws (M : Type) `{CpuMemoryLaws M, InterpreterMemory M} := {
  fetch_law space address m : mem_ok m -> returns mem_ok (fun f => in_range 32 f.(fi_bits)) (im_fetch32 space address m)
}.

(** [DirectMemoryFrontend] and [begin_slice] on a worker of type [W]
    (crates/cpu-direct-memory). *)
Record DirectMemoryFrontend := mkFrontend { fe_arena : DirectAddressSpaceView; fe_address_space : Z }.
Class DirectSlices (M W : Type) := {
  begin_slice : DirectMemoryFrontend -> W -> Result string (DirectMemory M) * W
}.

Inductive InterpreterMemoryBackend :=
| BackendChecked
| BackendLinuxDirect (space : Z) (view : DirectAddressSpaceView).

#[global] Instance DirectAddressSpaceView_eq_dec : EqDecision DirectAddressSpaceView.
Proof. solve_decision. Defined.
#[global] Instance InterpreterMemoryBackend_eq_dec : EqDecision InterpreterMemoryBackend.
Proof. solve_decision. Defined.

(** ** Process and thread *)

Record ProcessCpuContext := mkProcessCpu { pc_platform : TargetPlatform; pc_address_space : Z }.

Record InterpreterProcess := mkProcess {
  ip_cpu : ProcessCpuContext;
  ip_memory_backend : option InterpreterMemoryBackend
}.

Record InterpreterThread := mkThread {
  it_id : CpuThreadId;
  it_cpu : ProcessCpuContext;
  it_memory_backend : option InterpreterMemoryBackend;
  it_exclusive_monitor : ExclusiveMonitorState;
  it_control : CpuControl;
  it_direct_memory : option DirectMemoryFrontend
}.

Definition InterpreterProcess_new (cpu : ProcessCpuContext) : InterpreterProcess := mkProcess cpu None.

Definition backend_fault (message : string) : CpuFault := mkCpuFault "interpreter" Internal 0 (Text message) None.

Definition instruction_fault (kind : CpuFaultKind) (progress : Z) (s : A64State) (message : FaultMessage) : CpuFault :=
  mkCpuFault "interpreter" kind progress message (Some (register_context s)).

(** The backend of a memory for an address space, with the fault of a direct
    binding that has no view. *)
Definition actual_backend {M} `{InterpreterMemory M} (memory : M) (space : Z) (missing : string)
  : Result CpuFault InterpreterMemoryBackend :=
  match im_cpu_memory_backend memory space with
  | Checked => Ok BackendChecked
  | LinuxDirect =>
      match im_direct_view memory space with
      | Some view => Ok (BackendLinuxDirect space view)
      | None => Err (backend_fault missing)
      end
  end.

(** [bind_memory] *)
Definition bind_memory {M} `{InterpreterMemory M} (memory : M) (space : Z) : SM InterpreterProcess CpuFault unit := fun p =>
  match actual_backend memory space "LinuxDirect binding has no arena view" with
  | Ok backend =>
      match p.(ip_memory_backend) with
      | Some current =>
          if bool_decide (current = backend) then (Ok tt, mkProcess p.(ip_cpu) (Some backend))
          else (Err (backend_fault "interpreter memory backend cannot change after binding"), p)
      | None => (Ok tt, mkProcess p.(ip_cpu) (Some backend))
      end
  | Err e => (Err e, p)
  | Panic => (Panic, p)
  end.

(** [InterpreterThread::new]; [DirectMemoryFrontend::new] cannot fail. *)
Definition InterpreterThread_new (id : CpuThreadId) (cpu : ProcessCpuContext)
    (backend : option InterpreterMemoryBackend) : Result CpuFault InterpreterThread :=
  let direct :=
    match backend with
    | Some (BackendLinuxDirect space view) => Some (mkFrontend view space)
    | Some BackendChecked | None => None
    end in
  Ok (mkThread id cpu backend None CpuControl_default direct).

Definition create_thread (p : InterpreterProcess) (id : CpuThreadId) : Result CpuFault InterpreterThread :=
  InterpreterThread_new id p.(ip_cpu) p.(ip_memory_backend).

Definition set_control (t : InterpreterThread) (c : CpuControl) : InterpreterThread :=
  mkThread t.(it_id) t.(it_cpu) t.(it_memory_backend) t.(it_exclusive_monitor) c t.(it_direct_memory).
Definition set_monitor (t : InterpreterThread) (x : ExclusiveMonitorState) : InterpreterThread :=
  mkThread t.(it_id) t.(it_cpu) t.(it_memory_backend) x t.(it_control) t.(it_direct_memory).

Definition clear_local_exclusive_reservation (t : InterpreterThread) : InterpreterThread := set_monitor t None.

Definition validate_memory_backend {M} `{InterpreterMemory M} (t : InterpreterThread) (memory : M) : Result CpuFault unit :=
  let expected := default BackendChecked t.(it_memory_backend) in
  result_bind (actual_backend memory t.(it_cpu).(pc_address_space) "LinuxDirect execution has no arena view") (fun actual =>
  if bool_decide (actual = expected) then Ok tt
  else Err (backend_fault "interpreter execution memory differs from its immutable process binding")).

(** [ExecutionMemoryLease::authorizes]: a lease is the identity of its gate. *)
Definition authorizes {M} `{InterpreterMemory M} (lease : Z) (memory : M) : bool :=
  bool_decide (im_gate_identity memory = Some lease).

Definition validate_memory_lease {M} `{InterpreterMemory M} (t : InterpreterThread) (memory : M) (lease : option Z)
  : Result CpuFault unit :=
  match t.(it_memory_backend) with
  | Some (BackendLinuxDirect _ _) =>
      if negb (match lease with Some l => authorizes l memory | None => false end)
      then Err (backend_fault "LinuxDirect interpreter execution requires its live mapping lease")
      else Ok tt
  | _ => Ok tt
  end.

Definition synchronize_address_space {M} `{InterpreterMemory M} (memory : M) (cursor : Z)
  : SM InterpreterThread CpuFault unit := fun t =>
  match validate_memory_backend t memory with
  | Ok _ => (Ok tt, set_control t (acknowledge_invalidation t.(it_control) cursor))
  | Err e => (Err e, t)
  | Panic => (Panic, t)
  end.

Definition prepare_shutdown {M} `{InterpreterMemory M} (memory : M) (cursor : Z)
  : SM InterpreterThread CpuFault unit := fun t =>
  match synchronize_address_space memory cursor t with
  | (Ok _, t) => (Ok tt, clear_local_exclusive_reservation t)
  | r => r
  end.

(** ** The environment of a slice *)

(** What another thread does to the state the slice shares with it. *)
Inductive Signal (M : Type) :=
| SignalEvent
| PostInterrupts (mask : Z)
| Request (r : ControlRequest)
| RequestInvalidation (epoch : Z)
| Interfere (f : M -> M).
Arguments SignalEvent {M}. Arguments PostInterrupts {M}. Arguments Request {M}.
Arguments RequestInvalidation {M}. Arguments Interfere {M}.

(** The windows of one turn: before the interrupts are taken, before the control
    word is read, and after that, which is before the execution where there is
    one and before the next turn where the turn only acknowledges a request.
    Every signal of a turn that does not end the slice is thus delivered. *)
Record Turn (M : Type) := mkTurn {
  before_events : list (Signal M);
  before_control : list (Signal M);
  before_execute : list (Signal M);
  turn_timer : TimerSnapshot
}.
Arguments mkTurn {M}. Arguments before_events {M}. Arguments before_control {M}.
Arguments before_execute {M}. Arguments turn_timer {M}.

(** What the slice and its environment act on: the machine, the control word
    and the number of turns taken. *)
Record World (M : Type) := mkWorld { machine : Machine M; control : CpuControl; turn : Z }.
Arguments mkWorld {M}. Arguments machine {M}. Arguments control {M}. Arguments turn {M}.

(** The variables of [run_slice]. *)
Record Running (M : Type) := mkRunning { world : World M; remaining : Z; executed : Z }.
Arguments mkRunning {M}. Arguments world {M}. Arguments remaining {M}. Arguments executed {M}.

Record RunRequest (M : Type) := mkRunRequest {
  rq_memory : M;
  rq_memory_lease : option Z;
  rq_state : A64State;
  rq_instruction_budget : Z;
  rq_events : VcpuEventState
}.
Arguments mkRunRequest {M}. Arguments rq_memory {M}. Arguments rq_memory_lease {M}. Arguments rq_state {M}.
Arguments rq_instruction_budget {M}. Arguments rq_events {M}.

(** What [run_slice] leaves behind: the thread, the worker and the borrowed
    memory, state and events. *)
Record SliceEnd (M W : Type) := mkSliceEnd { se_thread : InterpreterThread; se_worker : W; se_machine : Machine M }.
Arguments mkSliceEnd {M W}. Arguments se_thread {M W}. Arguments se_worker {M W}. Arguments se_machine {M W}.

Section RunSlice.
Context {M W : Type} `{CpuMemory M, InterpreterMemory M, BuildProfile, DirectSlices M W}.

Definition with_machine (w : World M) (m : Machine M) : World M := mkWorld m w.(control) w.(turn).
Definition with_control (w : World M) (c : CpuControl) : World M := mkWorld w.(machine) c w.(turn).
Definition next_turn (w : World M) : World M := mkWorld w.(machine) w.(control) (w.(turn) + 1).

Definition signal (w : World M) (s : Signal M) : World M :=
  let m := w.(machine) in
  match s with
  | SignalEvent => with_machine w (with_events m (signal_event m.(events)))
  | PostInterrupts mask => with_machine w (with_events m (post_interrupts m.(events) mask))
  | Request q => with_control w (request w.(control) q)
  | RequestInvalidation epoch => with_control w (request_invalidation w.(control) epoch)
  | Interfere f => with_machine w (with_mem m (f m.(mem)))
  end.
Definition signals (w : World M) (l : list (Signal M)) : World M := fold_left signal l w.

Definition with_world (r : Running M) (w : World M) : Running M := mkRunning w r.(remaining) r.(executed).
(** [executed += 1; remaining -= 1] *)
Definition count (r : Running M) : Running M := mkRunning r.(world) (r.(remaining) - 1) (r.(executed) + 1).

Definition report (progress : Z) (stop : CpuExit) (s : A64State) : ExecutionReport :=
  mkReport progress stop (Some (register_context s)).

Definition SliceResult : Type := Result CpuFault ExecutionReport * Running M.

Definition stop_with (r : Running M) (e : CpuExit) : Running M + SliceResult :=
  inr (Ok (report r.(executed) e r.(world).(machine).(cpu)), r).
Definition fault_with (r : Running M) (kind : CpuFaultKind) (message : FaultMessage) : Running M + SliceResult :=
  inr (Err (instruction_fault kind r.(executed) r.(world).(machine).(cpu) message), r).

(** The [map_err] of [execute_decoded]. *)
Definition fault_kind (e : InterpreterError) : CpuFaultKind :=
  match e with
  | UnsupportedInstruction _ _ _ => Unavailable
  | InvalidInstructionStream _ _ _ | DirectMemoryError _ _ => Internal
  end.

(** From [execute_decoded] to the end of the turn. *)
Definition finish_step (r : Running M) (step : Result InterpreterError InstructionStep * Machine M)
  : Running M + SliceResult :=
  let r := with_world r (with_machine r.(world) step.2) in
  match step.1 with
  | Err error => fault_with r (fault_kind error) (StepError error)
  | Panic => inr (Panic, r)
  | Ok Continue => inl (with_world (count r) (next_turn r.(world)))
  | Ok (Exit e) => stop_with (count r) e
  end.

(** From [decode] to the end of the turn. *)
Definition run_decoded (context : Context M) (source : LocationDescriptor) (encoding : Z)
    (result : Result Empty_set DecodeResult) (r : Running M) : Running M + SliceResult :=
  match result with
  | Ok (Decoded op) | Ok (DecodeRecognizedUnimplemented op) =>
      finish_step r (execute_decoded context (mkDecoded source encoding op) r.(world).(machine))
  | Ok (DecodeUnallocated reason) => fault_with r InvalidRequest (StreamError source encoding reason)
  | Ok (DecodeReserved name reason) =>
      fault_with r InvalidRequest (StreamError source encoding (name ++ ": reserved: " ++ reason)%string)
  | _ => inr (Panic, r)
  end.

(** From the fetch to the end of the turn. *)
Definition run_instruction (context : Context M) (late : list (Signal M)) (r : Running M) : Running M + SliceResult :=
  let source := mkLocation r.(world).(machine).(cpu).(pc) (profile_id context.(platform)) in
  match on_memory (im_fetch32 context.(address_space_id) source.(loc_pc)) r.(world).(machine) with
  | (Ok fetched, m) =>
      run_decoded context source fetched.(fi_bits) (decode context.(platform) fetched.(fi_bits))
        (with_world r (signals (with_machine r.(world) m) late))
  | (Err fault, m) => stop_with (with_world r (with_machine r.(world) m)) (FetchFault fault)
  | (Panic, m) => inr (Panic, with_world r (with_machine r.(world) m))
  end.

(** One turn of the loop. *)
Definition run_turn (env : Z -> Turn M) (context_at : TimerSnapshot -> Context M) (r : Running M) : Running M + SliceResult :=
  let t := env r.(world).(turn) in
  let w := signals r.(world) t.(before_events) in
  let '(pending_interrupts, ev) := take_pending_interrupts w.(machine).(events) in
  let w := with_machine w (with_events w.(machine) ev) in
  if negb (pending_interrupts =? 0) then stop_with (with_world r w) (PendingEvent pending_interrupts)
  else
    let w := signals w t.(before_control) in
    match take_pending w.(control) with
    | (Some snapshot, c) =>
        let w := with_control w (acknowledge c snapshot) in
        if snapshot_contains snapshot Preempt then stop_with (with_world r w) Safepoint
        else inl (with_world r (next_turn (signals w t.(before_execute))))
    | (None, c) =>
        let r := with_world r (with_control w c) in
        if r.(remaining) =? 0 then stop_with r BudgetExhausted
        else run_instruction (context_at t.(turn_timer)) t.(before_execute) r
    end.

(** The direct-memory slice of the thread's frontend, when it has one. *)
Definition open_direct (t : InterpreterThread) (worker : W) : Result string (option (DirectMemory M)) * W :=
  match t.(it_direct_memory) with
  | None => (Ok None, worker)
  | Some frontend =>
      match begin_slice frontend worker with
      | (Ok d, worker) => (Ok (Some d), worker)
      | (Err e, worker) => (Err e, worker)
      | (Panic, worker) => (Panic, worker)
      end
  end.

Definition slice_context (t : InterpreterThread) (direct : option (DirectMemory M)) (timer : TimerSnapshot) : Context M :=
  mkContext t.(it_cpu).(pc_platform) t.(it_cpu).(pc_address_space) timer direct.

Definition request_machine (t : InterpreterThread) (q : RunRequest M) : Machine M :=
  mkMachine q.(rq_state) q.(rq_memory) t.(it_exclusive_monitor) q.(rq_events).

Definition slice_end (t : InterpreterThread) (worker : W) (w : World M) : SliceEnd M W :=
  mkSliceEnd (set_control (set_monitor t w.(machine).(monitor)) w.(control)) worker w.(machine).

Definition run_slice (fuel : positive) (env : Z -> Turn M) (t : InterpreterThread) (worker : W) (q : RunRequest M)
  : option (Result CpuFault ExecutionReport * SliceEnd M W) :=
  let m := request_machine t q in
  let unchanged := mkSliceEnd t worker m in
  match validate_memory_backend t q.(rq_memory) with
  | Err e => Some (Err e, unchanged)
  | Panic => Some (Panic, unchanged)
  | Ok _ =>
      match validate_memory_lease t q.(rq_memory) q.(rq_memory_lease) with
      | Err e => Some (Err e, unchanged)
      | Panic => Some (Panic, unchanged)
      | Ok _ =>
          match open_direct t worker with
          | (Err e, worker) => Some (Err (instruction_fault Internal 0 q.(rq_state) (Text e)), mkSliceEnd t worker m)
          | (Panic, worker) => Some (Panic, mkSliceEnd t worker m)
          | (Ok direct, worker) =>
              match loop (run_turn env (slice_context t direct)) fuel
                      (mkRunning (mkWorld m t.(it_control) 0) q.(rq_instruction_budget) 0) with
              | inl _ => None
              | inr (result, r) =>
                  Some (result, slice_end t worker r.(world))
              end
          end
      end
  end.

(** ** The abstract machine

    What a slice is a run of: the world takes transitions, one per turn.  A
    transition either completes one instruction, as [execute_one_with_context]
    (the single-step oracle) does it, or acknowledges a control request.  There
    is no budget and no counter here. *)

Section Abstract.
Context (env : Z -> Turn M) (context_at : TimerSnapshot -> Context M).

(** The world at the control check of a turn in which no interrupt is pending. *)
Definition at_control (w : World M) : option (World M) :=
  let t := env w.(turn) in
  let w := signals w t.(before_events) in
  if interrupts_pending w.(machine).(events) then None else Some (signals w t.(before_control)).

(** The fetched word and the world at the execution. *)
Definition at_execute (w : World M) (timer_world : World M) (bits : Z) : Prop :=
  let context := context_at (env w.(turn)).(turn_timer) in
  exists fetched m, im_fetch32 context.(address_space_id) w.(machine).(cpu).(pc) w.(machine).(mem) = (Ok fetched, m) /\
    bits = fetched.(fi_bits) /\
    timer_world = signals (with_machine w (with_mem w.(machine) m)) (env w.(turn)).(before_execute).

Inductive world_step : World M -> Z -> World M -> Prop :=
| step_synchronise w w1 :
    at_control w = Some w1 -> w1.(control).(requests) <> 0 ->
    Z.testbit w1.(control).(requests) 0 = false ->
    world_step w 0 (next_turn (signals (with_control w1 (service w1.(control))) (env w.(turn)).(before_execute)))
| step_instruction w w1 w2 bits m :
    at_control w = Some w1 -> w1.(control).(requests) = 0 ->
    at_execute w1 w2 bits ->
    execute_one_with_context (context_at (env w.(turn)).(turn_timer)) bits w2.(machine) = (Ok Continue, m) ->
    world_step w 1 (next_turn (with_machine w2 m)).

Inductive world_run : World M -> Z -> World M -> Prop :=
| run_nil w : world_run w 0 w
| run_snoc w n w1 k w2 : world_run w n w1 -> world_step w1 k w2 -> world_run w (n + k) w2.

(** Why a run stops in a world: the last turn, the instructions it completes
    and the world it leaves. *)
Inductive world_stop : World M -> Z -> CpuExit -> World M -> Prop :=
| stop_interrupt w mask :
    let w1 := signals w (env w.(turn)).(before_events) in
    mask = w1.(machine).(events).(pending_interrupts) -> mask <> 0 ->
    world_stop w 0 (PendingEvent mask) (with_machine w1 (with_events w1.(machine) (mkEvents w1.(machine).(events).(event_register) 0)))
| stop_safepoint w w1 :
    at_control w = Some w1 -> Z.testbit w1.(control).(requests) 0 = true ->
    world_stop w 0 Safepoint (with_control w1 (service w1.(control)))
| stop_budget w w1 :
    at_control w = Some w1 -> w1.(control).(requests) = 0 -> world_stop w 0 BudgetExhausted w1
| stop_fetch w w1 fault m :
    at_control w = Some w1 -> w1.(control).(requests) = 0 ->
    im_fetch32 (context_at (env w.(turn)).(turn_timer)).(address_space_id) w1.(machine).(cpu).(pc) w1.(machine).(mem) = (Err fault, m) ->
    world_stop w 0 (FetchFault fault) (with_machine w1 (with_mem w1.(machine) m))
| stop_exit w w1 w2 bits e m :
    at_control w = Some w1 -> w1.(control).(requests) = 0 -> at_execute w1 w2 bits ->
    execute_one_with_context (context_at (env w.(turn)).(turn_timer)) bits w2.(machine) = (Ok (Exit e), m) ->
    world_stop w 1 e (with_machine w2 m).

(** The last instruction of a run that faults: it is not counted. *)
Inductive world_fault : World M -> World M -> Prop :=
| fault_instruction w w1 w2 bits err m :
    at_control w = Some w1 -> w1.(control).(requests) = 0 -> at_execute w1 w2 bits ->
    execute_one_with_context (context_at (env w.(turn)).(turn_timer)) bits w2.(machine) = (Err err, m) ->
    world_fault w (with_machine w2 m).
End Abstract.
End RunSlice.
