(* ===== verification/InterpProcessSpec.v ===== *)
(** * The run loop: refinement, termination and safety

    [run_slice] is related to the abstract machine of [InterpProcess]: every
    slice is a run of it, the report counts its instructions, and the slice
    ends.  Safety composes the single-step theorem of [Interp] with the laws of
    the memory. *)

From Stdlib Require Import String.
From S2P Require Import Prelude Loops CpuBits CpuArith CpuState CpuMemory MemCommon.
From S2P Require Import DecodeTable DecodeA64 CpuA64Sem InterpCore InterpSystem InterpMemorySpec FpSimdShape InterpFpSimd InterpFpSimdSpec Interp CpuExecution InterpProcess.

#[local] Opaque decode normalize execute_one_with_context.

Lemma preempt_bit s : snapshot_contains s Preempt = Z.testbit s.(cs_requests) 0.
Proof.
  unfold snapshot_contains. change (request_bit Preempt) with (Z.ones 1). rewrite Z.land_ones by lia. change (2 ^ 1) with 2.
  pose proof (Z.bit0_mod s.(cs_requests)) as Hb. rewrite <- Hb. by destruct (Z.testbit _ 0).
Qed.

Section Refine.
Context {M : Type} `{CpuMemory M, InterpreterMemory M, BuildProfile}.
Context (env : Z -> Turn M) (context_at : TimerSnapshot -> Context M).

Lemma signal_cpu (w : World M) s : (signal w s).(machine).(cpu) = w.(machine).(cpu).
Proof using. by destruct s. Qed.
Lemma signals_cpu (w : World M) l : (signals w l).(machine).(cpu) = w.(machine).(cpu).
Proof using. revert w. induction l as [|s l IH]; intros w; [done|]. cbn [signals fold_left]. fold (signals (signal w s) l). by rewrite IH, signal_cpu. Qed.
Lemma signal_turn (w : World M) s : (signal w s).(turn) = w.(turn).
Proof using. by destruct s. Qed.
Lemma signals_turn (w : World M) l : (signals w l).(turn) = w.(turn).
Proof using. revert w. induction l as [|s l IH]; intros w; [done|]. cbn [signals fold_left]. fold (signals (signal w s) l). by rewrite IH, signal_turn. Qed.

(** Taking no interrupt and no request changes nothing. *)
Lemma take_no_interrupt (w : World M) :
  w.(machine).(events).(pending_interrupts) = 0 ->
  with_machine w (with_events w.(machine) (mkEvents w.(machine).(events).(event_register) 0)) = w.
Proof using. destruct w as [[c x mo [er p]] ct t]; cbn. by intros ->. Qed.

Lemma take_no_request c :
  c.(requests) = 0 -> mkControl 0 c.(invalidation_epoch) c.(acknowledged_invalidation_epoch) c.(active_executions) c.(interrupt) = c.
Proof using. destruct c; cbn. by intros ->. Qed.

Lemma at_control_turn w w1 : at_control env w = Some w1 -> w1.(turn) = w.(turn).
Proof using.
  unfold at_control. destruct (interrupts_pending _); [done|]. intros [= <-]. by rewrite !signals_turn.
Qed.

(** The loop executes a word exactly as the single-step oracle. *)
Lemma run_decoded_oracle context bits (r : Running M) :
  let source := mkLocation r.(world).(machine).(cpu).(pc) (profile_id context.(platform)) in
  match execute_one_with_context context bits r.(world).(machine) with
  | (Err e, m) => exists kind message, run_decoded context source bits (decode context.(platform) bits) r =
      fault_with (with_world r (with_machine r.(world) m)) kind message
  | step => run_decoded context source bits (decode context.(platform) bits) r = finish_step r step
  end.
Proof using.
  intros source. Transparent execute_one_with_context. unfold execute_one_with_context. Opaque execute_one_with_context. fold source. destruct (decode_returns context.(platform) bits) as [d Hd]. rewrite Hd.
  assert (Hsame : forall r : Running M, with_world r (with_machine r.(world) r.(world).(machine)) = r) by (by intros [[] ? ?]).
  destruct d as [op|reason|name reason|op]; cbn [execute_result run_decoded].
  - destruct (execute_decoded _ _ _) as [[s|e|] m]; [done| |done]. by exists (fault_kind e), (StepError e).
  - rewrite Hsame. eauto.
  - rewrite Hsame. eauto.
  - rewrite Hsame. destruct (decode_from_catalog _ _ _ (or_intror Hd)) as (_ & _ & _ & Ho).
    unfold execute_decoded, execute. cbn [d_opcode d_encoding].
    assert (Hn : exists c, normalize op bits = Ok (RecognizedUnsupported c)).
    { rewrite Hd in Ho. unfold outcome in Ho. Transparent normalize. unfold normalize. Opaque normalize.
      destruct (op.(o_pattern).(p_decoder)) eqn:E; [discriminate Ho|eauto]. }
    destruct Hn as [c ->]. unfold finish_step. cbn [fst snd]. rewrite Hsame. eauto.
Qed.

(** What one turn of the loop is in the abstract machine. *)
Definition turn_refines (r : Running M) (result : Running M + SliceResult) : Prop :=
  match result with
  | inl r' => exists k, world_step env context_at r.(world) k r'.(world) /\ 0 <= k <= 1 /\
      r'.(executed) = r.(executed) + k /\ r'.(remaining) = r.(remaining) - k /\ (k = 1 -> r.(remaining) <> 0)
  | inr (Ok rep, r') => exists k e, world_stop env context_at r.(world) k e r'.(world) /\ 0 <= k <= 1 /\
      rep = report (r.(executed) + k) e r'.(world).(machine).(cpu) /\
      (k = 1 -> r.(remaining) <> 0) /\ (k = 0 -> e = BudgetExhausted -> r.(remaining) = 0)
  | inr (Err f, r') => world_fault env context_at r.(world) r'.(world) /\
      f.(cf_progress) = r.(executed) /\ f.(cf_context) = Some (register_context r'.(world).(machine).(cpu))
  | inr (Panic, _) => True
  end.

Lemma run_instruction_refines (r : Running M) w1 :
  at_control env r.(world) = Some w1 -> w1.(control).(requests) = 0 -> r.(remaining) <> 0 ->
  let t := env r.(world).(turn) in
  turn_refines r (run_instruction (context_at t.(turn_timer)) t.(before_execute) (with_world r w1)).
Proof using.
  intros Hc Hreq Hrem t. unfold run_instruction, on_memory. cbn [loc_pc world with_world].
  destruct (im_fetch32 _ _ _) as [[f|fault|] m] eqn:Hf.
  3: done.
  2: { exists 0, (FetchFault fault). split; [by eapply stop_fetch|]. split; [lia|]. split; [by rewrite Z.add_0_r|]. split; [lia|done]. }
  set (w2 := signals (with_machine w1 (with_mem w1.(machine) m)) t.(before_execute)).
  assert (Hx : at_execute env context_at w1 w2 f.(fi_bits)).
  { exists f, m. unfold w2. rewrite (at_control_turn _ _ Hc). done. }
  replace (w1.(machine).(cpu).(pc)) with (w2.(machine).(cpu).(pc)) by (unfold w2; by rewrite signals_cpu).
  pose proof (run_decoded_oracle (context_at t.(turn_timer)) f.(fi_bits) (with_world r w2)) as Ho.
  cbv zeta in Ho. change (with_world (with_world r w1) w2) with (with_world r w2).
  change ((with_world r w2).(world)) with w2 in Ho.
  destruct (execute_one_with_context _ _ _) as [[[|e]|err|] m'] eqn:He.
  - rewrite Ho. exists 1. split; [|cbn; lia]. exact (step_instruction env context_at r.(world) w1 w2 f.(fi_bits) m' Hc Hreq Hx He).
  - rewrite Ho. exists 1, e. split; [exact (stop_exit env context_at r.(world) w1 w2 f.(fi_bits) e m' Hc Hreq Hx He)|]. split; [lia|]. split; [reflexivity|]. split; [intros _; exact Hrem|lia].
  - destruct Ho as (kind & message & ->). split; [exact (fault_instruction env context_at r.(world) w1 w2 f.(fi_bits) err m' Hc Hreq Hx He)|]. split; reflexivity.
  - by rewrite Ho.
Qed.

Lemma run_turn_refines (r : Running M) : turn_refines r (run_turn env context_at r).
Proof using.
  unfold run_turn, take_pending_interrupts. set (t := env r.(world).(turn)). set (w0 := signals r.(world) t.(before_events)).
  destruct (Z.eqb_spec w0.(machine).(events).(pending_interrupts) 0) as [Hi|Hi]; cbn [negb].
  2: { eexists 0, _. split; [by apply (stop_interrupt env context_at r.(world))|]. split; [lia|]. cbn. split; [by rewrite Z.add_0_r|]. split; [lia|done]. }
  rewrite take_no_interrupt by done. set (w1 := signals w0 t.(before_control)).
  assert (Hc : at_control env r.(world) = Some w1) by (unfold at_control, interrupts_pending; fold t w0; by rewrite Hi).
  unfold take_pending. destruct (Z.eqb_spec w1.(control).(requests) 0) as [Hr|Hr].
  - rewrite take_no_request by done. replace (with_control w1 w1.(control)) with w1 by (by destruct w1).
    destruct (Z.eqb_spec (with_world r w1).(remaining) 0) as [Hrem|Hrem]; cbn [remaining with_world] in Hrem.
    + exists 0, BudgetExhausted. split; [by apply stop_budget|]. split; [lia|]. cbn. split; [by rewrite Z.add_0_r|]. split; [lia|done].
    + by apply run_instruction_refines.
  - rewrite preempt_bit. cbn [cs_requests].
    assert (Hs : acknowledge (mkControl 0 w1.(control).(invalidation_epoch) w1.(control).(acknowledged_invalidation_epoch)
        w1.(control).(active_executions) w1.(control).(interrupt)) (mkSnapshot w1.(control).(requests) w1.(control).(invalidation_epoch))
      = service w1.(control)) by (unfold service, take_pending; by rewrite (proj2 (Z.eqb_neq _ _)) by done).
    rewrite Hs. destruct (Z.testbit w1.(control).(requests) 0) eqn:Hb.
    + exists 0, Safepoint. split; [by apply stop_safepoint|]. split; [lia|]. cbn. split; [by rewrite Z.add_0_r|]. split; [lia|done].
    + exists 0. split; [by apply step_synchronise|]. cbn. lia.
Qed.
End Refine.

(** ** Lawful environments *)

Section Safe.
Context {M : Type} `{CpuMemory M} {laws : CpuMemoryLaws M} `{InterpreterMemory M}.
Context {flaws : InterpreterMemoryLaws M} `{BuildProfile} (Hbuild : overflow_checks = false).

(** One word: it leaves a well-formed machine, or it is one of the reserved DUP
    words and panics. *)
Lemma execute_one_outcome (context : Context M) bits m :
  timer_ok context.(architectural_timer) -> direct_lawful context -> state_ok m.(cpu) -> mem_ok m.(mem) -> in_range 32 bits ->
  exists r m', execute_one_with_context context bits m = (r, m') /\
    ((r = Panic /\ reserved_word bits = true) \/ (r <> Panic /\ state_ok m'.(cpu) /\ mem_ok m'.(mem))).
Proof using laws Hbuild.
  intros Ht Hd Hs Hm Hb. Transparent execute_one_with_context. unfold execute_one_with_context. Opaque execute_one_with_context.
  destruct (decode_returns context.(platform) bits) as [d Hdec]. rewrite Hdec.
  destruct d as [op|reason|name reason|op]; cbn [execute_result];
    try (do 2 eexists; split; [reflexivity|]; right; split; [discriminate|]; split; [exact Hs|exact Hm]).
  destruct (decode_from_catalog _ _ _ (or_introl Hdec)) as (_ & Hin & Hc & _). destruct (catalog_routed op bits Hin Hc) as [j Hi].
  unfold execute_decoded. set (d := mkDecoded _ bits op). destruct j as [j|j|j|j|v f|c].
  5: { destruct (execute_fp_sound context Hd d bits m v f Hbuild eq_refl Hb Hs Hm Hin Hc Hi) as [[Hr He]|(r & m' & He & Hok & Hx & Ho)].
       - do 2 eexists. split; [exact He|]. left. split; [reflexivity|exact Hr].
       - do 2 eexists. split; [exact He|]. right. split; [intros ->; exact Ho|]. split; [exact Hok|exact Hx]. }
  all: edestruct (execute_sound context Ht Hd d bits m) as (r & m' & He & [Hok Hst] & Hx);
    [reflexivity|exact Hb|exact Hs|exact Hm|apply Hs|exact Hi|discriminate|];
    (do 2 eexists; split; [exact He|]; right; split; [intros ->; exact Hst|]; split; [exact Hok|exact Hx]).
Qed.

Definition interferes_ok (s : Signal M) : Prop :=
  match s with Interfere f => forall x, mem_ok x -> mem_ok (f x) | _ => True end.

(** Other threads keep the memory lawful, and the timer is a pair of [u64]. *)
Record env_ok (env : Z -> Turn M) : Prop := {
  env_timer i : timer_ok (env i).(turn_timer);
  env_events i : Forall interferes_ok (env i).(before_events);
  env_control i : Forall interferes_ok (env i).(before_control);
  env_execute i : Forall interferes_ok (env i).(before_execute)
}.

Definition not_request (s : Signal M) : Prop :=
  match s with Request _ | RequestInvalidation _ => False | _ => True end.

(** No control request is made in turn [n] or later. *)
Definition quiet (env : Z -> Turn M) (n : Z) : Prop :=
  forall i, n <= i -> Forall not_request (env i).(before_events) /\ Forall not_request (env i).(before_control) /\
    Forall not_request (env i).(before_execute).

Definition world_ok (w : World M) : Prop := state_ok w.(machine).(cpu) /\ mem_ok w.(machine).(mem).

Lemma signals_ok w l : Forall interferes_ok l -> world_ok w -> world_ok (signals w l).
Proof using.
  intros Hl. revert w. induction Hl as [|s l Hs _ IH]; intros w [Hcpu Hmem]; [done|]. apply IH.
  destruct s; try done. split; [done|]. by apply Hs.
Qed.

Lemma signals_quiet (w : World M) l : Forall not_request l -> (signals w l).(control) = w.(control).
Proof using.
  intros Hl. revert w. induction Hl as [|s l Hs _ IH]; intros w; [done|]. cbn [signals fold_left]. fold (signals (signal w s) l).
  rewrite IH. by destruct s.
Qed.

Context (env : Z -> Turn M) (Henv : env_ok env).
Context (context_at : TimerSnapshot -> Context M).
Context (Htimer : forall t, (context_at t).(architectural_timer) = t) (Hdirect : forall t, direct_lawful (context_at t)).

Lemma at_control_ok w w1 : world_ok w -> at_control env w = Some w1 -> world_ok w1.
Proof using Henv.
  intros Hw. unfold at_control. destruct (interrupts_pending _); [done|]. intros [= <-].
  apply signals_ok; [apply Henv|]. by apply signals_ok; [apply Henv|].
Qed.

Lemma at_execute_ok w w2 bits :
  world_ok w -> at_execute env context_at w w2 bits -> world_ok w2 /\ in_range 32 bits.
Proof using Henv flaws.
  intros [Hcpu Hmem] (f & m & Hf & -> & ->). destruct (fetch_law (context_at (env w.(turn)).(turn_timer)).(address_space_id) w.(machine).(cpu).(pc) _ Hmem) as [Hm Hb].
  rewrite Hf in Hm, Hb. split; [|exact Hb]. apply signals_ok; [apply Henv|]. by split.
Qed.

Lemma oracle_ok w timer bits :
  world_ok w -> in_range 32 bits -> timer_ok timer ->
  exists r m', execute_one_with_context (context_at timer) bits w.(machine) = (r, m') /\
    ((r = Panic /\ reserved_word bits = true) \/ (r <> Panic /\ world_ok (with_machine w m'))).
Proof using laws Hbuild Htimer Hdirect. intros [Hcpu Hmem] Hb Ht. by apply execute_one_outcome; [rewrite Htimer|..]. Qed.

Lemma world_step_ok w k w' : world_ok w -> world_step env context_at w k w' -> world_ok w'.
Proof using Henv laws flaws Hbuild Htimer Hdirect.
  intros Hw Hs. destruct Hs as [w w1 Hc _ _|w w1 w2 bits m Hc _ Hx He].
  - apply (signals_ok (with_control w1 (service w1.(control))) _ (env_execute _ Henv _)). by apply (at_control_ok w w1 Hw Hc).
  - destruct (at_execute_ok w1 w2 bits (at_control_ok _ _ Hw Hc) Hx) as [Hw2 Hb].
    destruct (oracle_ok w2 (env w.(turn)).(turn_timer) bits Hw2 Hb (env_timer _ Henv _)) as (r & m' & He' & [[-> _]|(_ & Hok)]);
      rewrite He in He'; [discriminate He'|]. injection He' as <- <-. exact Hok.
Qed.

Lemma world_stop_ok w k e w' : world_ok w -> world_stop env context_at w k e w' -> world_ok w'.
Proof using Henv laws flaws Hbuild Htimer Hdirect.
  intros Hw Hs. destruct Hs as [w mask w1 _ _|w w1 Hc _|w w1 Hc _|w w1 fault m Hc _ Hf|w w1 w2 bits e m Hc _ Hx He].
  - by apply (signals_ok w (env w.(turn)).(before_events) (env_events _ Henv _)) in Hw.
  - by apply (at_control_ok w w1 Hw Hc).
  - by apply (at_control_ok w w1 Hw Hc).
  - destruct (at_control_ok w w1 Hw Hc) as [Hcpu Hmem].
    destruct (fetch_law (context_at (env w.(turn)).(turn_timer)).(address_space_id) w1.(machine).(cpu).(pc) _ Hmem) as [Hm _].
    rewrite Hf in Hm. by split.
  - destruct (at_execute_ok w1 w2 bits (at_control_ok _ _ Hw Hc) Hx) as [Hw2 Hb].
    destruct (oracle_ok w2 (env w.(turn)).(turn_timer) bits Hw2 Hb (env_timer _ Henv _)) as (r & m' & He' & [[-> _]|(_ & Hok)]);
      rewrite He in He'; [discriminate He'|]. injection He' as <- <-. exact Hok.
Qed.

Lemma world_fault_ok w w' : world_ok w -> world_fault env context_at w w' -> world_ok w'.
Proof using Henv laws flaws Hbuild Htimer Hdirect.
  intros Hw Hs. destruct Hs as [w w1 w2 bits err m Hc _ Hx He].
  destruct (at_execute_ok w1 w2 bits (at_control_ok _ _ Hw Hc) Hx) as [Hw2 Hb].
  destruct (oracle_ok w2 (env w.(turn)).(turn_timer) bits Hw2 Hb (env_timer _ Henv _)) as (r & m' & He' & [[-> _]|(_ & Hok)]);
    rewrite He in He'; [discriminate He'|]. injection He' as <- <-. exact Hok.
Qed.

(** The word the next turn executes is a reserved one. *)
Definition reaches_reserved (w : World M) : Prop :=
  exists w1 w2 bits, at_control env w = Some w1 /\ at_execute env context_at w1 w2 bits /\ reserved_word bits = true.

(** A turn panics on a reserved word only. *)
Lemma run_turn_no_panic (r : Running M) :
  world_ok r.(world) -> match run_turn env context_at r with inr (Panic, _) => reaches_reserved r.(world) | _ => True end.
Proof using Henv laws flaws Hbuild Htimer Hdirect.
  intros Hw. unfold run_turn, take_pending_interrupts. set (t := env r.(world).(turn)). set (w0 := signals r.(world) t.(before_events)).
  destruct (Z.eqb_spec w0.(machine).(events).(pending_interrupts) 0) as [Hi|Hi]; cbn [negb]; [|done].
  rewrite take_no_interrupt by done. set (w1 := signals w0 t.(before_control)).
  assert (Hc : at_control env r.(world) = Some w1) by (unfold at_control, interrupts_pending; fold t w0; by rewrite Hi).
  pose proof (at_control_ok _ _ Hw Hc) as Hw1. unfold take_pending. destruct (Z.eqb_spec w1.(control).(requests) 0) as [Hr|Hr].
  2: { by destruct (snapshot_contains _ _). }
  rewrite take_no_request by done. replace (with_control w1 w1.(control)) with w1 by (by destruct w1).
  destruct (_ =? 0); [done|]. unfold run_instruction, on_memory. cbn [loc_pc world with_world].
  destruct Hw1 as [Hcpu Hmem]. destruct (fetch_law (context_at t.(turn_timer)).(address_space_id) w1.(machine).(cpu).(pc) _ Hmem) as [Hm Hb].
  destruct (im_fetch32 _ _ _) as [[f|fault|] m] eqn:Hf; [|done|done].
  set (w2 := signals (with_machine w1 (with_mem w1.(machine) m)) t.(before_execute)).
  assert (Hw2 : world_ok w2) by (apply signals_ok; [apply Henv|by split]).
  assert (Hx : at_execute env context_at w1 w2 f.(fi_bits)) by (exists f, m; unfold w2; rewrite (at_control_turn _ _ _ Hc); done).
  replace (w1.(machine).(cpu).(pc)) with (w2.(machine).(cpu).(pc)) by (unfold w2; by rewrite signals_cpu).
  change (with_world (with_world r w1) w2) with (with_world r w2).
  pose proof (run_decoded_oracle (context_at t.(turn_timer)) f.(fi_bits) (with_world r w2)) as Ho. cbv zeta in Ho.
  change ((with_world r w2).(world)) with w2 in Ho.
  destruct (oracle_ok w2 t.(turn_timer) f.(fi_bits) Hw2 Hb (env_timer _ Henv _)) as (res & m' & He & Hs). rewrite He in Ho.
  destruct res as [[|e]|err|]; [rewrite Ho; exact I|rewrite Ho; exact I|destruct Ho as (kind & message & ->); exact I|].
  rewrite Ho. destruct Hs as [[_ Hword]|[Hne _]]; [|by destruct Hne]. exists w1, w2, f.(fi_bits). split; [exact Hc|]. split; [exact Hx|exact Hword].
Qed.

(** ** Progress of the turns *)

Lemma service_requests c : (service c).(requests) = 0.
Proof using. unfold service, take_pending, acknowledge. destruct (_ =? 0); [done|]. by destruct (negb _). Qed.

Lemma world_step_turn w k w' : world_step env context_at w k w' -> w'.(turn) = w.(turn) + 1.
Proof using.
  intros Hs. destruct Hs as [w w1 Hc _ _|w w1 w2 bits m Hc _ (f & x & _ & _ & ->) _]; cbn [next_turn with_control with_machine turn].
  - rewrite signals_turn. cbn. by rewrite (at_control_turn env _ _ Hc).
  - rewrite signals_turn. cbn. by rewrite (at_control_turn env _ _ Hc).
Qed.

Lemma at_control_quiet n w w1 : quiet env n -> n <= w.(turn) -> at_control env w = Some w1 -> w1.(control) = w.(control).
Proof using.
  intros Hq Hn. unfold at_control. destruct (interrupts_pending _); [done|]. intros [= <-]. destruct (Hq _ Hn) as (Hq1 & Hq2 & _).
  by rewrite !signals_quiet.
Qed.

(** After a quiet turn nothing is pending, and then every turn executes. *)
Lemma world_step_quiet n w k w' :
  quiet env n -> n <= w.(turn) -> world_step env context_at w k w' ->
  w'.(control).(requests) = 0 /\ (w.(control).(requests) = 0 -> k = 1).
Proof using.
  intros Hq Hn Hs. destruct Hs as [w w1 Hc Hr _|w w1 w2 bits m Hc Hr (f & x & _ & _ & ->) _]; cbn [next_turn with_control with_machine control].
  - split; [rewrite signals_quiet; [apply service_requests|by apply Hq]|]. intros Hz. by rewrite (at_control_quiet n w w1 Hq Hn Hc) in Hr.
  - split; [|done]. rewrite signals_quiet; [done|]. rewrite (at_control_turn env _ _ Hc). by apply Hq.
Qed.

(** The invariant of the loop, and what its result is. *)
Record running_ok (w0 : World M) (budget n : Z) (r : Running M) : Prop := {
  ro_world : world_ok r.(world);
  ro_run : world_run env context_at w0 r.(executed) r.(world);
  ro_remaining : 0 <= r.(remaining);
  ro_executed : 0 <= r.(executed);
  ro_budget : r.(executed) + r.(remaining) = budget;
  ro_quiet : n < r.(world).(turn) -> r.(world).(control).(requests) = 0
}.

Definition slice_done (w0 : World M) (budget : Z) (result : SliceResult) : Prop :=
  match result.1 with
  | Ok rep => world_ok result.2.(world) /\ 0 <= rep.(er_progress) <= budget
  | Err f => world_ok result.2.(world) /\ 0 <= f.(cf_progress) <= budget
  | Panic => exists n w, world_run env context_at w0 n w /\ n <= budget /\ reaches_reserved w
  end.

Lemma run_turn_progress w0 budget n (r : Running M) :
  quiet env n -> running_ok w0 budget n r ->
  match run_turn env context_at r with
  | inl r' => running_ok w0 budget n r' /\ r'.(remaining) + Z.max 0 (n + 1 - r'.(world).(turn)) < r.(remaining) + Z.max 0 (n + 1 - r.(world).(turn))
  | inr result => slice_done w0 budget result
  end.
Proof using Henv laws flaws Hbuild Htimer Hdirect.
  intros Hq [Hw Hrun Hrem Hex Hb Hquiet]. pose proof (run_turn_refines env context_at r) as Hr. pose proof (run_turn_no_panic r Hw) as Hp.
  destruct (run_turn env context_at r) as [r'|[[rep|f|] r']]; cbn [turn_refines] in Hr.
  - destruct Hr as (k & Hs & Hk & He & Hre & Hk1). pose proof (world_step_turn _ _ _ Hs) as Ht. split.
    + split; [by eapply world_step_ok|rewrite He; by eapply run_snoc| | |lia|].
      * assert (k = 0 \/ k = 1) as [->| ->] by lia; lia.
      * lia.
      * intros Hn. apply (world_step_quiet n _ _ _ Hq) in Hs as [Hs _]; [done|lia].
    + assert (k = 0 \/ k = 1) as [->| ->] by lia; [|lia]. destruct (Z_lt_le_dec n r.(world).(turn)) as [Hlt|]; [|lia].
      apply (world_step_quiet n _ _ _ Hq) in Hs as [_ Hs]; [|lia]. specialize (Hs (Hquiet Hlt)). lia.
  - destruct Hr as (k & e & Hs & Hk & -> & Hk1 & _). split; [by eapply world_stop_ok|]. cbn.
    assert (k = 0 \/ k = 1) as [->| ->] by lia; lia.
  - destruct Hr as (Hf & Hpr & _). split; [by eapply world_fault_ok|]. cbn. lia.
  - exists r.(executed), r.(world). split; [done|]. split; [lia|done].
Qed.
End Safe.

(** ** Whole slices *)

Section Slice.
Context {M W : Type} `{CpuMemory M} {laws : CpuMemoryLaws M} `{InterpreterMemory M}.
Context {flaws : InterpreterMemoryLaws M} `{BuildProfile} `{DirectSlices M W}.

(** What a thread asks of its worker: slices that are lawful direct memories. *)
Definition worker_ok (t : InterpreterThread) (worker : W) : Prop :=
  match open_direct t worker with
  | (Ok direct, _) => forall timer, direct_lawful (slice_context t direct timer)
  | (Err _, _) => True
  | (Panic, _) => False
  end.

Lemma validate_backend_returns t (memory : M) : validate_memory_backend t memory <> Panic.
Proof using.
  unfold validate_memory_backend, actual_backend. destruct (im_cpu_memory_backend _ _); cbn [result_bind].
  - by destruct (bool_decide _).
  - destruct (im_direct_view _ _); cbn [result_bind]; [by destruct (bool_decide _)|done].
Qed.

Lemma validate_lease_returns t (memory : M) lease : validate_memory_lease t memory lease <> Panic.
Proof using. unfold validate_memory_lease. destruct t.(it_memory_backend) as [[]|]; [done| |done]. by destruct (negb _). Qed.
End Slice.
