(* ===== verification/InterpProcessClaims.v ===== *)
(** * What a slice of the interpreter guarantees

    The claims about [run_slice], and their instance at the synthetic backend:
    the interpreter over that memory, end to end. *)

From Stdlib Require Import String.
From S2P Require Import Prelude Loops Bytes CpuBits CpuArith CpuState CpuMemory MemCommon MemSynthetic MemSyntheticSpec MemSyntheticCpu.
From S2P Require Import DecodeTable DecodeA64 CpuA64Sem InterpCore InterpSystem InterpMemorySpec InterpFpSimd Interp CpuExecution InterpProcess InterpProcessSpec.

#[local] Opaque decode normalize execute_one_with_context.

(** ** The synthetic backend under the interpreter *)

(** The trait's default methods: a checked backend, no arena, no gate. *)
#[global] Instance SyntheticInterpreterMemory {Dev : Type} `{SyntheticMmio Dev} : InterpreterMemory (SyntheticMemory Dev) := {|
  im_fetch32 := fetch32;
  im_cpu_memory_backend _ _ := Checked;
  im_direct_view _ _ := None;
  im_gate_identity _ := None
|}.

#[global] Instance SyntheticInterpreterLaws {Dev : Type} `{SyntheticMmio Dev, !SyntheticMmioLaws Dev} :
  InterpreterMemoryLaws (SyntheticMemory Dev).
Proof.
  split. intros space address m Hm. pose proof (fetch32_outcome space address m Hm) as Ho. unfold wp in Ho. unfold returns.
  cbn [im_fetch32 SyntheticInterpreterMemory]. destruct (fetch32 space address m) as [[f|e|] m']; cbn [fst snd]; [|by subst|done].
  destruct Ho as (-> & _ & mp & bytes & _ & _ & _ & Hlen & Hb & -> & _). split; [done|].
  pose proof (from_le_bytes_range bytes Hb) as Hr. by rewrite Hlen in Hr.
Qed.

Section Slices.
Context {M W : Type} `{CpuMemory M} {laws : CpuMemoryLaws M} `{InterpreterMemory M}.
Context {flaws : InterpreterMemoryLaws M} `{BuildProfile} `{DirectSlices M W}.

Definition start_world (t : InterpreterThread) (q : RunRequest M) : World M := mkWorld (request_machine t q) t.(it_control) 0.

(** A slice that gets past its validation is its loop. *)
Definition slice_loop (fuel : positive) (env : Z -> Turn M) (t : InterpreterThread) (direct : option (DirectMemory M)) (q : RunRequest M) :=
  loop (run_turn env (slice_context t direct)) fuel (mkRunning (start_world t q) q.(rq_instruction_budget) 0).

(** The slice was refused before its loop: nothing changed but the worker. *)
Definition refused (t : InterpreterThread) (q : RunRequest M) (result : Result CpuFault ExecutionReport) (e : SliceEnd M W) : Prop :=
  exists f, result = Err f /\ f.(cf_progress) = 0 /\ e.(se_thread) = t /\ e.(se_machine) = request_machine t q.

Lemma run_slice_cases fuel env t (worker : W) q :
  (open_direct t worker).1 <> Panic ->
  (exists result e, run_slice fuel env t worker q = Some (result, e) /\ refused t q result e) \/
  (exists direct worker', open_direct t worker = (Ok direct, worker') /\
    validate_memory_backend t q.(rq_memory) = Ok tt /\
    run_slice fuel env t worker q =
      match slice_loop fuel env t direct q with
      | inl _ => None
      | inr (result, r) => Some (result, slice_end t worker' r.(world))
      end).
Proof using.
  intros Hwk. unfold run_slice. pose proof (validate_backend_returns t q.(rq_memory)) as H1'.
  destruct (validate_memory_backend _ _) as [[]|f|] eqn:Hv; [|left|done].
  2: { do 2 eexists. split; [reflexivity|]. exists f. split; [done|]. split; [|done].
       unfold validate_memory_backend, actual_backend in Hv. destruct (im_cpu_memory_backend _ _); cbn [result_bind] in Hv.
       - destruct (bool_decide _); [done|]. by injection Hv as <-.
       - destruct (im_direct_view _ _); cbn [result_bind] in Hv; [|by injection Hv as <-].
         destruct (bool_decide _); [done|]. by injection Hv as <-. }
  pose proof (validate_lease_returns t q.(rq_memory) q.(rq_memory_lease)) as H2'.
  destruct (validate_memory_lease _ _ _) as [[]|f|] eqn:Hl; [|left|done].
  2: { do 2 eexists. split; [reflexivity|]. exists f. split; [done|]. split; [|done].
       unfold validate_memory_lease in Hl. destruct t.(it_memory_backend) as [[]|]; [done| |done]. destruct (negb _); [|done]. by injection Hl as <-. }
  destruct (open_direct t worker) as [[direct|f|] worker'] eqn:Ho; [right|left|done].
  - exists direct, worker'. split; [done|]. split; [done|]. unfold slice_loop, start_world. by destruct (loop _ _ _) as [?|[]].
  - do 2 eexists. split; [reflexivity|]. by exists (instruction_fault Internal 0 q.(rq_state) (Text f)).
Qed.

Lemma worker_ok_returns t (worker : W) : worker_ok t worker -> (open_direct t worker).1 <> Panic.
Proof using. unfold worker_ok. by destruct (open_direct t worker) as [[]]. Qed.

(** What a completed loop is a run of. *)
Definition explains (env : Z -> Turn M) (context_at : TimerSnapshot -> Context M) (w0 : World M) (budget : Z) (result : SliceResult) : Prop :=
  let w' := result.2.(world) in
  exists n w, world_run env context_at w0 n w /\ n <= budget /\
  match result.1 with
  | Ok rep => exists k stop, world_stop env context_at w k stop w' /\ rep = report (n + k) stop w'.(machine).(cpu) /\
      n + k <= budget /\ (k = 0 -> stop = BudgetExhausted -> n = budget)
  | Err f => world_fault env context_at w w' /\ f.(cf_progress) = n /\ f.(cf_context) = Some (register_context w'.(machine).(cpu))
  | Panic => True
  end.

Lemma loop_explained fuel env context_at w0 budget (result : SliceResult) :
  0 <= budget -> loop (run_turn env context_at) fuel (mkRunning w0 budget 0) = inr result -> explains env context_at w0 budget result.
Proof using.
  intros Hb. eapply (loop_invariant _ (fun r : Running M => world_run env context_at w0 r.(executed) r.(world) /\
    0 <= r.(remaining) /\ r.(executed) + r.(remaining) = budget)).
  - intros r (Hrun & Hrem & Hbud). pose proof (run_turn_refines env context_at r) as Hr.
    destruct (run_turn env context_at r) as [r'|[[rep|f|] r']]; cbn [turn_refines] in Hr.
    + destruct Hr as (k & Hs & Hk & -> & -> & Hk1). split; [by eapply run_snoc|].
      assert (k = 0 \/ k = 1) as [->| ->] by lia; lia.
    + destruct Hr as (k & e & Hs & Hk & -> & Hk1 & Hk0). exists r.(executed), r.(world). split; [done|]. split; [lia|].
      exists k, e. split; [done|]. split; [done|]. split; [assert (k = 0 \/ k = 1) as [->| ->] by lia; lia|].
      intros -> Hst. specialize (Hk0 eq_refl Hst). lia.
    + exists r.(executed), r.(world). split; [done|]. split; [lia|done].
    + exists r.(executed), r.(world). split; [done|]. split; [lia|done].
  - cbn. split; [constructor|lia].
Qed.

(** A loop that other threads stop asking leaves in time. *)
Lemma loop_returns fuel env context_at w0 budget n :
  overflow_checks = false -> env_ok env -> (forall t, (context_at t).(architectural_timer) = t) -> (forall t, direct_lawful (context_at t)) ->
  quiet env n -> 0 <= n -> world_ok w0 -> w0.(turn) = 0 -> 0 <= budget -> budget + n + 1 < Z.pos fuel ->
  exists result, loop (run_turn env context_at) fuel (mkRunning w0 budget 0) = inr result /\ slice_done env context_at w0 budget result.
Proof using laws flaws.
  intros Hbuild Henv Ht Hd Hq Hn Hw H0' Hb Hf.
  apply (loop_terminates _ (running_ok env context_at w0 budget n) (slice_done env context_at w0 budget)
    (fun r => r.(remaining) + Z.max 0 (n + 1 - r.(world).(turn)))).
  - intros r Hr. split; [pose proof (ro_remaining _ _ _ _ _ _ Hr); lia|]. by apply run_turn_progress.
  - split; cbn; [done|constructor|lia..].
  - cbn. lia.
Qed.

(** ** Preemption *)

(** A preemption request that the control check of turn [k] is the first to see:
    it came in turn [k] before that check, or in turn [k - 1] after its own. *)
Definition preempts (env : Z -> Turn M) (k : Z) : Prop :=
  Request Preempt ∈ (env k).(before_events) \/ Request Preempt ∈ (env k).(before_control) \/
  (0 < k /\ Request Preempt ∈ (env (k - 1)).(before_execute)).

Lemma signal_keeps_preempt (w : World M) s : Z.testbit w.(control).(requests) 0 = true -> Z.testbit (signal w s).(control).(requests) 0 = true.
Proof using. intros Hb. destruct s; [exact Hb|exact Hb| | |exact Hb]; unfold signal, with_control, request_invalidation, request; cbn [control requests]; by rewrite Z.lor_spec, Hb. Qed.

Lemma signals_keep_preempt (w : World M) l : Z.testbit w.(control).(requests) 0 = true -> Z.testbit (signals w l).(control).(requests) 0 = true.
Proof using. revert w. induction l as [|s l IH]; intros w Hb; [done|]. apply IH. by apply signal_keeps_preempt. Qed.

Lemma signals_preempt (w : World M) l : Request Preempt ∈ l -> Z.testbit (signals w l).(control).(requests) 0 = true.
Proof using.
  revert w. induction l as [|s l IH]; intros w Hin; [by apply elem_of_nil in Hin|]. apply elem_of_cons in Hin as [<-|Hin].
  - apply (signals_keep_preempt (signal w (Request Preempt)) l). unfold signal, with_control, request. cbn [control requests]. by rewrite Z.lor_spec, orb_comm.
  - by apply (IH (signal w s)).
Qed.

(** Preemption is pending at the control check of the turn: it was posted before
    it, or is pending from an earlier turn. *)
Definition preempted (env : Z -> Turn M) (w : World M) : Prop :=
  Request Preempt ∈ (env w.(turn)).(before_events) \/ Request Preempt ∈ (env w.(turn)).(before_control) \/
  Z.testbit w.(control).(requests) 0 = true.

Lemma preempts_at_control env w w1 : preempted env w -> at_control env w = Some w1 -> Z.testbit w1.(control).(requests) 0 = true.
Proof using.
  intros Hp. unfold at_control. destruct (interrupts_pending _); [done|]. intros [= <-]. destruct Hp as [Hp|[Hp|Hp]].
  - by apply signals_keep_preempt, signals_preempt.
  - by apply signals_preempt.
  - by do 2 apply signals_keep_preempt.
Qed.

(** A turn with a preemption request completes no instruction. *)
Lemma preempted_turn env context_at (w w' : World M) k :
  preempted env w -> (world_step env context_at w k w' -> False) /\ forall e, world_stop env context_at w k e w' -> k = 0.
Proof using.
  intros Hp. split.
  - intros Hs. destruct Hs as [w w1 Hc _ Hb|w w1 w2 bits m Hc Hr _ _]; pose proof (preempts_at_control _ _ _ Hp Hc) as Hb'; [congruence|].
    by rewrite Hr in Hb'.
  - intros e Hs. destruct Hs as [| | | |w w1 w2 bits e m Hc Hr _ _]; try done.
    pose proof (preempts_at_control _ _ _ Hp Hc) as Hb'. by rewrite Hr in Hb'.
Qed.

(** A request made after the control check of a turn is pending in the next. *)
Lemma late_preempt env context_at (w w' : World M) k :
  Request Preempt ∈ (env w.(turn)).(before_execute) -> world_step env context_at w k w' -> Z.testbit w'.(control).(requests) 0 = true.
Proof using.
  intros Hp Hs. destruct Hs as [w w1 Hc _ _|w w1 w2 bits m Hc _ (f & x & _ & _ & ->) _]; cbn [next_turn with_machine control].
  - by apply signals_preempt.
  - apply signals_preempt. by rewrite (at_control_turn env _ _ Hc).
Qed.

Lemma loop_preempted fuel env context_at w0 budget k :
  overflow_checks = false -> env_ok env -> (forall t, (context_at t).(architectural_timer) = t) -> (forall t, direct_lawful (context_at t)) ->
  preempts env k -> 0 <= k -> world_ok w0 -> w0.(turn) = 0 -> k < Z.pos fuel ->
  exists result, loop (run_turn env context_at) fuel (mkRunning w0 budget 0) = inr result /\ slice_done env context_at w0 k result.
Proof using laws flaws.
  intros Hbuild Henv Ht Hd Hp Hk Hw H0' Hf.
  apply (loop_terminates _ (fun r : Running M => world_ok r.(world) /\ world_run env context_at w0 r.(executed) r.(world) /\
      0 <= r.(executed) <= r.(world).(turn) /\ r.(world).(turn) <= k /\ (r.(world).(turn) = k -> preempted env r.(world)))
    (slice_done env context_at w0 k) (fun r => k - r.(world).(turn))); [| |cbn; lia].
  2: { cbn. rewrite H0'. split; [done|split; [constructor|split; [lia|split; [lia|]]]]. intros <-. unfold preempted. rewrite H0'.
       destruct Hp as [?|[?|[? _]]]; [by left|by right; left|lia]. }
  intros r (Hwo & Hrun & Hex & Htu & Hpre). split; [lia|]. pose proof (run_turn_refines env context_at r) as Hr.
  pose proof (run_turn_no_panic Hbuild env Henv context_at Ht Hd r Hwo) as Hnp.
  destruct (run_turn env context_at r) as [r'|[[rep|f|] r']]; cbn [turn_refines] in Hr.
  - destruct Hr as (j & Hs & Hj & He & _). pose proof (world_step_turn env context_at _ _ _ Hs) as Htn.
    pose proof (world_step_ok Hbuild env Henv context_at Ht Hd _ _ _ Hwo Hs) as Hwo'.
    destruct (Z.eq_dec r.(world).(turn) k) as [Hk'|].
    { by destruct (preempted_turn env context_at r.(world) r'.(world) j (Hpre Hk')) as [Hno _]; destruct Hno. }
    split; [|lia]. split; [done|]. split; [rewrite He; by eapply run_snoc|]. split; [lia|]. split; [lia|].
    intros Hk'. unfold preempted. rewrite Hk'. destruct Hp as [?|[?|[_ Hlate]]]; [by left|by right; left|]. right; right.
    apply (late_preempt env context_at r.(world) _ j); [|done]. by replace r.(world).(turn) with (k - 1) by lia.
  - destruct Hr as (j & e & Hs & Hj & -> & _). split; [by eapply world_stop_ok|]. cbn.
    destruct (Z.eq_dec r.(world).(turn) k) as [He|]; [|lia].
    destruct (preempted_turn env context_at r.(world) r'.(world) j (Hpre He)) as [_ Hz]. rewrite (Hz e Hs). lia.
  - destruct Hr as (Hfl & Hpr & _). split; [by eapply world_fault_ok|]. cbn. lia.
  - exists r.(executed), r.(world). split; [done|]. split; [lia|done].
Qed.

(** What a slice may end in: a panic is a reserved word that it reached. *)
Definition ends_within (env : Z -> Turn M) (t : InterpreterThread) (worker : W) (q : RunRequest M) (bound : Z)
    (result : Result CpuFault ExecutionReport) (e : SliceEnd M W) : Prop :=
  match result with
  | Ok rep => state_ok e.(se_machine).(cpu) /\ mem_ok e.(se_machine).(mem) /\ 0 <= rep.(er_progress) <= bound
  | Err f => state_ok e.(se_machine).(cpu) /\ mem_ok e.(se_machine).(mem) /\ 0 <= f.(cf_progress) <= bound
  | Panic => exists direct n w, (open_direct t worker).1 = Ok direct /\
      world_run env (slice_context t direct) (start_world t q) n w /\ n <= bound /\ reaches_reserved env (slice_context t direct) w
  end.

Lemma slice_done_ends env t (worker : W) q bound direct worker' result r :
  open_direct t worker = (Ok direct, worker') ->
  slice_done env (slice_context t direct) (start_world t q) bound (result, r) ->
  ends_within env t worker q bound result (slice_end t worker' r.(world)).
Proof using.
  intros Ho. unfold slice_done, ends_within, world_ok. cbn [fst snd]. destruct result as [rep|f|].
  - by intros [[? ?] ?].
  - by intros [[? ?] ?].
  - intros (n & w & Hw & Hn & Hr). exists direct, n, w. by rewrite Ho.
Qed.
End Slices.

(** ** Claims *)

(** C4. A slice is a run of the abstract machine.  Over any memory, whatever
    other threads do between its turns, a slice that answers either was refused
    before it started (nothing changed), or is a sequence of single-step-oracle
    instructions and acknowledged control requests ended by the event it
    reports: the progress is exactly the number of instructions completed, never
    above the budget and equal to it when the budget is the reason, the register
    snapshot is that of the final state, and a faulting instruction is not
    counted. *)
Theorem run_slice_refines {M W : Type} `{CpuMemory M, InterpreterMemory M, BuildProfile, DirectSlices M W}
    fuel env t (worker : W) (q : RunRequest M) result e :
  0 <= q.(rq_instruction_budget) -> (open_direct t worker).1 <> Panic ->
  run_slice fuel env t worker q = Some (result, e) ->
  refused t q result e \/
  exists direct w', (open_direct t worker).1 = Ok direct /\ e = slice_end t (open_direct t worker).2 w' /\
  exists n w, world_run env (slice_context t direct) (start_world t q) n w /\ n <= q.(rq_instruction_budget) /\
  match result with
  | Ok rep => exists k stop, world_stop env (slice_context t direct) w k stop w' /\
      rep = mkReport (n + k) stop (Some (register_context w'.(machine).(cpu))) /\
      n + k <= q.(rq_instruction_budget) /\ (k = 0 -> stop = BudgetExhausted -> n = q.(rq_instruction_budget))
  | Err f => world_fault env (slice_context t direct) w w' /\ f.(cf_progress) = n /\
      f.(cf_context) = Some (register_context w'.(machine).(cpu))
  | Panic => True
  end.
Proof.
  intros Hb Hd Hrun. destruct (run_slice_cases fuel env t worker q) as [(result' & e' & Hr & Href)|(direct & worker' & Ho & _ & Hr)]; [done|..];
    rewrite Hr in Hrun.
  - injection Hrun as <- <-. by left.
  - destruct (slice_loop fuel env t direct q) as [?|[result' r]] eqn:Hl; [discriminate Hrun|]. injection Hrun as <- <-. right.
    exists direct, r.(world). rewrite Ho. split; [done|]. split; [done|].
    destruct (loop_explained _ _ _ _ _ _ Hb Hl) as (n & w & Hw & Hn & Hm). by exists n, w.
Qed.

(** C5. A slice ends.  In a build without overflow checks, over a lawful memory and
    from a well-formed state, with interference of other threads that keeps the
    memory lawful and sends no control request from turn [n] on, the loop leaves
    within [budget + n + 2] turns: one for each instruction of the budget, at most
    [n + 1] that acknowledge requests, and the one that leaves.  It keeps the
    register file and the memory well formed and reports between 0 and [budget]
    instructions, for every instruction of the machine.  It panics only when it
    has reached one of the reserved DUP words. *)
Theorem run_slice_returns {M W : Type} `{CpuMemory M, !CpuMemoryLaws M, InterpreterMemory M, !InterpreterMemoryLaws M}
    `{BuildProfile, DirectSlices M W} fuel env t (worker : W) (q : RunRequest M) n :
  overflow_checks = false -> env_ok env -> quiet env n -> 0 <= n -> worker_ok t worker ->
  state_ok q.(rq_state) -> mem_ok q.(rq_memory) -> 0 <= q.(rq_instruction_budget) ->
  q.(rq_instruction_budget) + n + 2 <= Z.pos fuel ->
  exists result e, run_slice fuel env t worker q = Some (result, e) /\ ends_within env t worker q q.(rq_instruction_budget) result e.
Proof.
  intros Hbuild Henv Hq Hn Hwk Hs Hm Hb Hf. pose proof Hwk as Hwk'. unfold worker_ok in Hwk'.
  destruct (run_slice_cases fuel env t worker q) as [(result & e & Hr & f & -> & Hp & _ & He)|(direct & worker' & Ho & _ & Hr)].
  - by apply worker_ok_returns.
  - exists (Err f), e. split; [done|]. cbn [ends_within]. rewrite He, Hp. split; [done|]. split; [done|]. lia.
  - rewrite Ho in Hwk'. destruct (loop_returns fuel env (slice_context t direct) (start_world t q) q.(rq_instruction_budget) n)
      as ([result r] & Hl & Hd); try (done || lia).
    exists result, (slice_end t worker' r.(world)). rewrite Hr. unfold slice_loop. rewrite Hl. split; [done|].
    by eapply slice_done_ends.
Qed.

(** C6. Preemption is prompt.  In a build without overflow checks, over a lawful
    memory and with interference of other threads that keeps it lawful: if
    another thread requests preemption at any point of turn [k] up to its control
    check, or at any point after the check of turn [k - 1], the slice ends in turn
    [k] at the latest, whatever its budget and whatever else happens, having
    completed at most [k] instructions.  It panics only when it has reached one of
    the reserved DUP words before. *)
Theorem run_slice_preempted {M W : Type} `{CpuMemory M, !CpuMemoryLaws M, InterpreterMemory M, !InterpreterMemoryLaws M}
    `{BuildProfile, DirectSlices M W} fuel env t (worker : W) (q : RunRequest M) k :
  overflow_checks = false -> env_ok env -> preempts env k -> 0 <= k -> worker_ok t worker ->
  state_ok q.(rq_state) -> mem_ok q.(rq_memory) -> k < Z.pos fuel ->
  exists result e, run_slice fuel env t worker q = Some (result, e) /\ ends_within env t worker q k result e.
Proof.
  intros Hbuild Henv Hp Hk Hwk Hs Hm Hf. pose proof Hwk as Hwk'. unfold worker_ok in Hwk'.
  destruct (run_slice_cases fuel env t worker q) as [(result & e & Hr & f & -> & Hpr & _ & He)|(direct & worker' & Ho & _ & Hr)].
  - by apply worker_ok_returns.
  - exists (Err f), e. split; [done|]. cbn [ends_within]. rewrite He, Hpr. split; [done|]. split; [done|]. lia.
  - rewrite Ho in Hwk'. destruct (loop_preempted fuel env (slice_context t direct) (start_world t q) q.(rq_instruction_budget) k)
      as ([result r] & Hl & Hd); try done.
    exists result, (slice_end t worker' r.(world)). rewrite Hr. unfold slice_loop. rewrite Hl. split; [done|].
    by eapply slice_done_ends.
Qed.

(** The memory binding of a process is immutable: after a memory has been
    bound, binding another one succeeds exactly when it has the same backend and
    changes nothing; a thread created from the process runs a slice, or
    synchronises its address space, only on such a memory and otherwise reports
    a fault and leaves everything as it was. *)
Theorem binding_is_immutable {M W : Type} `{CpuMemory M, InterpreterMemory M, BuildProfile, DirectSlices M W}
    p p1 (memory memory' : M) id t :
  bind_memory memory p.(ip_cpu).(pc_address_space) p = (Ok tt, p1) -> create_thread p1 id = Ok t ->
  exists backend, actual_backend memory p.(ip_cpu).(pc_address_space) EmptyString = Ok backend /\
    p1.(ip_memory_backend) = Some backend /\
    let same := actual_backend memory' p.(ip_cpu).(pc_address_space) EmptyString = Ok backend in
    (forall p2, bind_memory memory' p.(ip_cpu).(pc_address_space) p1 = (Ok tt, p2) <-> same /\ p2 = p1) /\
    (~ same -> forall fuel env (worker : W) (q : RunRequest M), q.(rq_memory) = memory' ->
       exists f, run_slice fuel env t worker q = Some (Err f, mkSliceEnd t worker (request_machine t q))) /\
    (~ same -> forall cursor, exists f, synchronize_address_space memory' cursor t = (Err f, t)).
Proof.
  intros Hb Ht. unfold bind_memory, create_thread, InterpreterThread_new in *.
  assert (Hmsg : forall (x : M) a s s', actual_backend x a s = match actual_backend x a s' with Err _ => Err (backend_fault s) | r => r end).
  { intros x a s s'. unfold actual_backend. destruct (im_cpu_memory_backend _ _); [done|]. by destruct (im_direct_view _ _). }
  rewrite (Hmsg _ _ _ EmptyString) in Hb.
  destruct (actual_backend memory _ _) as [backend|f|] eqn:Ha; [|discriminate Hb|discriminate Hb]. exists backend. split; [done|].
  assert (Hp1 : p1 = mkProcess p.(ip_cpu) (Some backend)).
  { destruct p.(ip_memory_backend) as [cur|]; [|congruence]. destruct (bool_decide _); congruence. }
  subst p1. injection Ht as <-. split; [done|]. pose (same := actual_backend memory' p.(ip_cpu).(pc_address_space) EmptyString = Ok backend). fold same.
  assert (Hval : ~ same -> exists f, forall d, validate_memory_backend (mkThread id p.(ip_cpu) (Some backend) None CpuControl_default d) memory' = Err f).
  { intros Hne. unfold validate_memory_backend. cbn [it_memory_backend it_cpu from_option]. rewrite (Hmsg _ _ _ EmptyString).
    unfold same in Hne. destruct (actual_backend memory' _ EmptyString) as [b|f|] eqn:Ha'; cbn [result_bind].
    - rewrite bool_decide_false by (intros Heq; apply Hne; by rewrite Heq). eauto.
    - eauto.
    - exfalso. revert Ha'. unfold actual_backend. destruct (im_cpu_memory_backend _ _); [done|]. by destruct (im_direct_view _ _). }
  split; [|split].
  - intros p2. rewrite (Hmsg _ _ _ EmptyString). unfold same. destruct (actual_backend memory' _ EmptyString) as [b|f|] eqn:Ha'.
    + cbn [ip_memory_backend ip_cpu]. destruct (decide (backend = b)) as [<-|Hne]; [rewrite bool_decide_true by done|rewrite bool_decide_false by done].
      * split; [intros [= <-]; done|by intros [_ ->]].
      * split; [done|]. intros [[= ->] _]. done.
    + split; [done|by intros [? _]].
    + split; [done|by intros [? _]].
  - intros Hne fuel env worker q Hq. destruct (Hval Hne) as [f Hf]. exists f. unfold run_slice. by rewrite Hq, Hf.
  - intros Hne cursor. destruct (Hval Hne) as [f Hf]. exists f. unfold synchronize_address_space. by rewrite Hf.
Qed.

(** ** Witnesses *)

(** A worker without native faults, and a page of NOP instructions at 0x1000. *)
#[global] Instance NoDirectSlices {M} : DirectSlices M unit := {| begin_slice _ w := (Err "native faults are not available"%string, w) |}.

Definition nop_page : list Z := List.concat (repeat [0x1f; 0x20; 0x03; 0xd5] 1024).
Definition code_memory : SyntheticMemory Empty_set :=
  mkSynthetic {[(1, 1) := mkMapping 7 1 5 PurposeNormal 0]} {[7 := RamPage (Some nop_page) 1]} ∅ ∅ 8 (Some 2) None MemInvalidation.log_default.

Lemma nop_page_ok : page_bytes_ok nop_page.
Proof.
  split; [reflexivity|]. unfold nop_page. apply List.Forall_concat, List.Forall_forall. intros l ->%repeat_spec.
  repeat constructor; (done || vm_compute; reflexivity).
Qed.

Lemma code_memory_ok : synthetic_ok code_memory.
Proof.
  split; cbn [code_memory pages mappings next_page_id invalidations].
  - intros page p Hp. apply lookup_singleton_Some in Hp as [<- <-]. split; [apply nop_page_ok|split; lia].
  - intros key m Hm. apply lookup_singleton_Some in Hm as [_ <-]. eauto.
  - intros key m Hm. by apply lookup_singleton_Some in Hm as [_ <-].
  - split; lia.
  - exists []. split; [apply MemInvalidation.represents_default|done].
Qed.

Definition sample_thread : InterpreterThread := mkThread 1 (mkProcessCpu Switch1 1) None None CpuControl_default None.
Definition sample_request : RunRequest (SyntheticMemory Empty_set) :=
  mkRunRequest code_memory None (set_pc A64State_default 0x1000) 100 VcpuEventState_default.
(** Another thread requests preemption in turn 3 after its control check, and
    nothing else happens. *)
Definition sample_env : Z -> Turn (SyntheticMemory Empty_set) := fun i =>
  mkTurn [] [] (if i =? 3 then [Request Preempt] else []) (mkTimer (wrap 64 i) 19200000).

Lemma sample_env_ok : env_ok sample_env.
Proof.
  split; intros i; cbn; [|constructor|constructor|by destruct (i =? 3); repeat constructor].
  split; [apply wrap_range; lia|vm_compute; split; [discriminate|reflexivity]].
Qed.

Lemma sample_env_quiet : quiet sample_env 4.
Proof. intros i Hi. cbn. rewrite (proj2 (Z.eqb_neq _ _)) by lia. repeat split; constructor. Qed.

Lemma sample_state_ok : state_ok sample_request.(rq_state).
Proof. apply set_pc_ok; [apply A64State_default_ok|split; lia]. Qed.

Lemma run_slice_refines_witness :
  exists result e, run_slice 200 sample_env sample_thread tt sample_request = Some (result, e) /\
  (refused sample_thread sample_request result e \/
   exists direct w', (open_direct sample_thread tt).1 = Ok direct /\ e = slice_end sample_thread tt w' /\
   exists n w, world_run sample_env (slice_context sample_thread direct) (start_world sample_thread sample_request) n w /\ n <= 100).
Proof.
  destruct (run_slice_cases 200 sample_env sample_thread tt sample_request) as [(result & e & Hr & Href)|(direct & [] & Ho & _ & Hr)].
  - discriminate.
  - exists result, e. split; [exact Hr|]. left. exact Href.
  - injection Ho as <-. destruct (loop_returns 200 sample_env (slice_context sample_thread None) (start_world sample_thread sample_request) 100 4)
      as ([result r] & Hl & _).
    { reflexivity. } { apply sample_env_ok. } { reflexivity. } { intros t. exact I. } { apply sample_env_quiet. } { lia. }
    { split; [apply sample_state_ok|exact code_memory_ok]. } { reflexivity. } { lia. } { lia. }
    unfold slice_loop in Hr. cbn [sample_request rq_instruction_budget] in Hr. rewrite Hl in Hr.
    exists result, (slice_end sample_thread tt r.(world)). split; [exact Hr|].
    destruct (run_slice_refines 200 sample_env sample_thread tt sample_request result (slice_end sample_thread tt r.(world))) as [Href|Hd].
    + cbn. lia.
    + discriminate.
    + exact Hr.
    + left. exact Href.
    + right. destruct Hd as (direct & w' & H1 & H2 & n & w & H3 & H4 & _). exists direct, w'. split; [exact H1|]. split; [exact H2|].
      exists n, w. split; [exact H3|exact H4].
Defined.

Lemma run_slice_returns_witness :
  exists result e, run_slice 200 sample_env sample_thread tt sample_request = Some (result, e) /\
    ends_within sample_env sample_thread tt sample_request 100 result e.
Proof.
  apply (run_slice_returns 200 sample_env sample_thread tt sample_request 4).
  - reflexivity.
  - apply sample_env_ok.
  - apply sample_env_quiet.
  - lia.
  - intros timer. exact I.
  - apply sample_state_ok.
  - exact code_memory_ok.
  - cbn. lia.
  - cbn. lia.
Defined.

(** The budget is 100 instructions; the slice ends after at most 4. *)
Lemma run_slice_preempted_witness :
  exists result e, run_slice 10 sample_env sample_thread tt sample_request = Some (result, e) /\
    ends_within sample_env sample_thread tt sample_request 4 result e.
Proof.
  apply (run_slice_preempted 10 sample_env sample_thread tt sample_request 4).
  - reflexivity.
  - apply sample_env_ok.
  - right. right. split; [reflexivity|constructor].
  - lia.
  - intros timer. exact I.
  - apply sample_state_ok.
  - exact code_memory_ok.
  - lia.
Defined.

(** A synthetic memory has the checked backend. *)
Lemma binding_is_immutable_witness :
  let p := InterpreterProcess_new (mkProcessCpu Switch1 1) in
  let p1 := mkProcess (mkProcessCpu Switch1 1) (Some BackendChecked) in
  bind_memory alias_memory 1 p1 = (Ok tt, p1).
Proof.
  intros p p1.
  destruct (binding_is_immutable (W := unit) p p1 code_memory alias_memory 1 (mkThread 1 (mkProcessCpu Switch1 1) (Some BackendChecked) None CpuControl_default None))
    as (backend & Ha & Hp & Hiff & _).
  - reflexivity.
  - reflexivity.
  - apply Hiff. split; [|reflexivity]. injection Hp as <-. reflexivity.
Defined.
