(* ===== verification/RtEvent.v ===== *)
(** * Runtime events (crates/runtime/src/handle/event.rs)

    An [EventObject] is a reference to a shared [EventState]; clones, the
    writable and readable views and duplicated handles all denote the same
    state.  The sequential operations therefore act on a heap of event states
    addressed by identity, so that what one holder signals another one sees.
    A watcher is a callback: the model gives it an identity and records in
    [heap_called] every call the code makes, in order.  States are never freed:
    an identity that is still held keeps its state alive. *)

From S2P Require Import Prelude.

Inductive ExternalEventSource : Set :=
| Timer | Device | GpuCompletion | Display | Input | Ipc | Worker.
#[export] Instance ExternalEventSource_eq_dec : EqDecision ExternalEventSource.
Proof. solve_decision. Defined.

Definition EventId := Z.
Definition Watcher := Z.

Record EventState := mkEvent {
  signalled : bool;
  source : option ExternalEventSource;
  generation_value : Z;
  next_watcher_id : Z;
  watchers : gmap Z Watcher;
}.

Inductive EventWaitOutcome : Set := Signalled | TimedOut.
#[export] Instance EventWaitOutcome_eq_dec : EqDecision EventWaitOutcome.
Proof. solve_decision. Defined.

Record EventHeap := mkHeap {
  heap_events : gmap EventId EventState;
  heap_next : EventId;
  heap_called : list Watcher;
}.

Definition empty_heap : EventHeap := mkHeap ∅ 0 [].

(** ** The state of one event *)

Definition event_with_source (src : option ExternalEventSource) : EventState :=
  mkEvent false src 0 1 ∅.

Definition store_flag (b : bool) (e : EventState) : EventState :=
  mkEvent b (source e) (generation_value e) (next_watcher_id e) (watchers e).

(** What [signal] does while it holds the generation lock. *)
Definition publish (e : EventState) : EventState :=
  mkEvent (signalled e) (source e) (wrap 64 (generation_value e + 1)) (next_watcher_id e) ∅.

(** [watchers.into_values()]: in increasing registration order. *)
Definition watcher_list (e : EventState) : list Watcher := (btree_iter (watchers e)).*2.

(** What [watch] does while it holds the lock, [notify_now] having been loaded. *)
Definition register_watcher (w : Watcher) (notify_now : bool) (e : EventState) : EventState :=
  let id := next_watcher_id e in
  mkEvent (signalled e) (source e) (generation_value e) (Z.max (wrap 64 (id + 1)) 1)
    (if notify_now then watchers e else <[id := w]> (watchers e)).

Definition unregister_watcher (id : Z) (e : EventState) : EventState :=
  mkEvent (signalled e) (source e) (generation_value e) (next_watcher_id e)
    (delete id (watchers e)).

(** ** The methods, on the heap *)

Section Methods.
Context {E : Type}.
Notation M := (SM EventHeap E).

(** The state behind a live reference. *)
Definition deref (id : EventId) : M EventState :=
  fun h => match heap_events h !! id with Some e => (Ok e, h) | None => (Panic, h) end.

Definition assign (id : EventId) (e : EventState) : M unit :=
  modify (fun h => mkHeap (<[id := e]> (heap_events h)) (heap_next h) (heap_called h)).

Definition call (ws : list Watcher) : M unit :=
  modify (fun h => mkHeap (heap_events h) (heap_next h) (heap_called h ++ ws)).

Definition with_source (src : option ExternalEventSource) : M EventId :=
  fun h =>
    (Ok (heap_next h),
     mkHeap (<[heap_next h := event_with_source src]> (heap_events h)) (heap_next h + 1)
       (heap_called h)).

Definition new : M EventId := with_source None.

(** The writable and the readable view are the same reference. *)
Definition create_pair : M (EventId * EventId) :=
  let! event := new in ret (event, event).

Definition create_pair_with_source (src : ExternalEventSource) : M (EventId * EventId) :=
  let! event := with_source (Some src) in ret (event, event).

Definition is_signalled (id : EventId) : M bool :=
  let! e := deref id in ret (signalled e).

Definition signal (id : EventId) : M unit :=
  let! e := deref id in
  do! assign id (publish (store_flag true e)) in
  call (watcher_list e).

Definition clear (id : EventId) : M unit :=
  let! e := deref id in assign id (store_flag false e).

(** Returns the registration's watcher id. *)
Definition watch (id : EventId) (w : Watcher) : M Z :=
  let! e := deref id in
  let notify_now := signalled e in
  do! assign id (register_watcher w notify_now e) in
  do! (if notify_now then call [w] else ret tt) in
  ret (next_watcher_id e).

(** [EventWatchRegistration::drop] *)
Definition drop_registration (id : EventId) (watcher : Z) : M unit :=
  let! e := deref id in assign id (unregister_watcher watcher e).

End Methods.

(** ** Laws of the heap *)

Definition event_signalled (h : EventHeap) (id : EventId) : bool :=
  match heap_events h !! id with Some e => signalled e | None => false end.

(** Every allocated identity is below the next one. *)
Definition heap_wf (h : EventHeap) : Prop :=
  forall id, is_Some (heap_events h !! id) -> id < heap_next h.

Definition allocated (h : EventHeap) (id : EventId) : Prop := is_Some (heap_events h !! id).

(** [h'] has the events of [h] and the same flags but for those of [fired],
    which are set. *)
Record heap_extends (fired : EventId -> Prop) (h h' : EventHeap) : Prop := {
  extends_alloc : forall id, allocated h id -> allocated h' id;
  extends_flag : forall id, ~ fired id -> event_signalled h' id = event_signalled h id;
  extends_fired : forall id, fired id -> event_signalled h' id = true;
}.

Section HeapLaws.
Context {E : Type} (R : E -> EventHeap -> Prop).

Lemma with_source_wp src Q h :
  heap_wf h ->
  (forall h', heap_wf h' -> heap_extends (fun _ => False) h h' ->
     allocated h' (heap_next h) -> ~ allocated h (heap_next h) ->
     event_signalled h' (heap_next h) = false -> heap_called h' = heap_called h ->
     Q (heap_next h) h') ->
  wp (E := E) (with_source src) Q R h.
Proof.
  intros Hwf HQ. unfold wp, with_source.
  assert (Hfresh : ~ allocated h (heap_next h)) by (intros Ha; apply Hwf in Ha; lia).
  apply HQ; cbn; [| |unfold allocated; cbn; by rewrite lookup_insert_eq|done| |done].
  - intros id. cbn. destruct (decide (id = heap_next h)) as [->|]; [lia|].
    rewrite lookup_insert_ne by done. intros Ha%Hwf. lia.
  - split; [| |done]; intros id Ha; unfold allocated, event_signalled in *; cbn;
      (destruct (decide (id = heap_next h)) as [->|];
       [rewrite lookup_insert_eq|by rewrite lookup_insert_ne]); [by eexists|].
    destruct (heap_events h !! heap_next h); [|done]. exfalso. apply Hfresh. by eexists.
  - unfold event_signalled. cbn. by rewrite lookup_insert_eq.
Qed.

Lemma signal_wp id Q h :
  heap_wf h -> allocated h id ->
  (forall e h', heap_wf h' -> heap_extends (fun i => i = id) h h' ->
     heap_events h !! id = Some e ->
     heap_events h' = <[id := publish (store_flag true e)]> (heap_events h) ->
     heap_next h' = heap_next h -> heap_called h' = heap_called h ++ watcher_list e -> Q tt h') ->
  wp (E := E) (signal id) Q R h.
Proof.
  intros Hwf [e He] HQ. unfold signal, deref, assign, call, wp, bind, modify.
  rewrite He. apply (HQ e); cbn; [| |done|done|done|done].
  - intros i. cbn. destruct (decide (i = id)) as [->|].
    + intros _. apply Hwf. by eexists.
    + rewrite lookup_insert_ne by done. apply Hwf.
  - split; unfold allocated, event_signalled; cbn; intros i.
    + intros Ha. destruct (decide (id = i)) as [->|]; [by rewrite lookup_insert_eq|].
      by rewrite lookup_insert_ne.
    + intros Hn. by rewrite lookup_insert_ne.
    + intros ->. by rewrite lookup_insert_eq.
Qed.
End HeapLaws.

Lemma signal_ok {E} h id :
  heap_wf h -> allocated h id ->
  exists h', signal (E := E) id h = (Ok tt, h') /\ heap_wf h' /\ heap_next h' = heap_next h
    /\ heap_extends (fun i => i = id) h h'.
Proof.
  intros Hwf Ha.
  assert (Hwp : wp (E := E) (signal id) (fun _ h' => heap_wf h' /\ heap_next h' = heap_next h
    /\ heap_extends (fun i => i = id) h h') (fun _ _ => False) h) by by apply signal_wp.
  unfold wp in Hwp. destruct (signal id h) as [[[]|e|] h']; [|done|done].
  by exists h'.
Qed.

Lemma create_pair_ok {E} h :
  heap_wf h ->
  exists h', create_pair (E := E) h = (Ok (heap_next h, heap_next h), h')
    /\ heap_wf h' /\ heap_next h' = heap_next h + 1 /\ ~ allocated h (heap_next h)
    /\ allocated h' (heap_next h) /\ event_signalled h' (heap_next h) = false
    /\ heap_extends (fun _ => False) h h'.
Proof.
  intros Hwf.
  assert (Hwp : wp (E := E) (with_source None) (fun _ h' => heap_wf h'
    /\ ~ allocated h (heap_next h) /\ allocated h' (heap_next h)
    /\ event_signalled h' (heap_next h) = false /\ heap_extends (fun _ => False) h h')
    (fun _ _ => False) h) by by apply with_source_wp.
  unfold create_pair, new, bind. unfold wp in Hwp. cbn in *.
  eexists. split; [reflexivity|]. naive_solver.
Qed.

(** * Events under concurrency (crates/runtime/src/handle/event.rs)

    The methods of one [EventObject] as programs of host threads that
    interleave.  The flag is an atomic accessed without the lock; the
    generation and the watchers are protected by the [generation] mutex.  A
    thread's control state is the point it has reached in its method, and every
    access to the flag, every acquisition of the mutex and every release is a
    step of its own, so the interleavings of the source are interleavings of
    the model.  What a thread does between acquiring and releasing the mutex to
    data only the mutex protects is part of the step that releases it. *)

Definition HostThread := Z.

Inductive Pc : Type :=
| Idle
| SignalStored                                   (* the flag is set, the mutex not yet taken *)
| SignalLocked
| SignalCalling (ws : list Watcher)              (* the mutex is released, callbacks remain *)
| WatchEntered (w : Watcher)
| WatchLocked (w : Watcher)
| WatchLoaded (w : Watcher) (notify_now : bool)
| WatchCalling (w : Watcher)
| DropEntered (id : Z)
| WaitEntered (deadline : bool)                  (* the flag was clear at the first load *)
| WaitLocked (observed : Z) (deadline : bool)
| WaitLoaded (observed : Z) (deadline : bool) (flag : bool)
| WaitAsleep (observed : Z) (deadline : bool)    (* in [Condvar::wait], mutex released *)
| WaitWoken (observed : Z) (deadline timed_out : bool)
| WaitDone (outcome : EventWaitOutcome).

#[export] Instance Pc_eq_dec : EqDecision Pc.
Proof. solve_decision. Defined.

(** What starts a method, or resolves the choices the host makes: whether the
    deadline has passed, and when a sleeping thread wakes up without being
    notified. *)
Inductive Action : Type :=
| CallSignal | CallClear | CallWatch (w : Watcher) | CallDrop (id : Z) | CallWait (deadline : bool)
| Proceed
| Expired
| SpuriousWake
| TimeoutWake
| Return.
#[export] Instance Action_eq_dec : EqDecision Action.
Proof. solve_decision. Defined.

Record EventSystem := mkSystem {
  state : EventState;
  lock : option HostThread;
  pcs : gmap HostThread Pc;
  called : list Watcher;
}.

Definition initial (src : option ExternalEventSource) (threads : gset HostThread) : EventSystem :=
  mkSystem (event_with_source src) None (gset_to_gmap Idle threads) [].

Definition at_pc (t : HostThread) (pc : Pc) (s : EventSystem) : EventSystem :=
  mkSystem (state s) (lock s) (<[t := pc]> (pcs s)) (called s).

Definition with_state (e : EventState) (s : EventSystem) : EventSystem :=
  mkSystem e (lock s) (pcs s) (called s).

Definition with_lock (l : option HostThread) (s : EventSystem) : EventSystem :=
  mkSystem (state s) l (pcs s) (called s).

Definition with_called (w : Watcher) (s : EventSystem) : EventSystem :=
  mkSystem (state s) (lock s) (pcs s) (called s ++ [w]).

(** [Condvar::notify_all] *)
Definition wake_pc (pc : Pc) : Pc :=
  match pc with WaitAsleep observed dl => WaitWoken observed dl false | _ => pc end.

Definition notify_all (s : EventSystem) : EventSystem :=
  mkSystem (state s) (lock s) (wake_pc <$> pcs s) (called s).

(** Acquire the mutex and move to [pc]; blocked while another thread has it. *)
Definition acquire (t : HostThread) (pc : Pc) (s : EventSystem) : option EventSystem :=
  match lock s with
  | Some _ => None
  | None => Some (with_lock (Some t) (at_pc t pc s))
  end.

Definition release (t : HostThread) (pc : Pc) (s : EventSystem) : EventSystem :=
  with_lock None (at_pc t pc s).

(** [EventObject::signal] *)
Definition step_signal (t : HostThread) (pc : Pc) (s : EventSystem) : option EventSystem :=
  match pc with
  | Idle => Some (at_pc t SignalStored (with_state (store_flag true (state s)) s))
  | SignalStored => acquire t SignalLocked s
  | SignalLocked =>
      Some (release t (SignalCalling (watcher_list (state s)))
              (notify_all (with_state (publish (state s)) s)))
  | SignalCalling [] => Some (at_pc t Idle s)
  | SignalCalling (w :: ws) => Some (at_pc t (SignalCalling ws) (with_called w s))
  | _ => None
  end.

(** [EventObject::watch] *)
Definition step_watch (t : HostThread) (pc : Pc) (s : EventSystem) : option EventSystem :=
  match pc with
  | WatchEntered w => acquire t (WatchLocked w) s
  | WatchLocked w => Some (at_pc t (WatchLoaded w (signalled (state s))) s)
  | WatchLoaded w notify_now =>
      Some (release t (if notify_now then WatchCalling w else Idle)
              (with_state (register_watcher w notify_now (state s)) s))
  | WatchCalling w => Some (at_pc t Idle (with_called w s))
  | _ => None
  end.

(** [EventWatchRegistration::drop]: one critical section that does not touch
    the flag. *)
Definition step_drop (t : HostThread) (id : Z) (s : EventSystem) : option EventSystem :=
  match lock s with
  | Some _ => None
  | None => Some (at_pc t Idle (with_state (unregister_watcher id (state s)) s))
  end.

(** [EventObject::wait_until].  [expired]: the clock read past the deadline. *)
Definition step_wait (t : HostThread) (pc : Pc) (expired : bool) (s : EventSystem) :
    option EventSystem :=
  match pc with
  | WaitEntered dl => acquire t (WaitLocked (generation_value (state s)) dl) s
  | WaitLocked observed dl => Some (at_pc t (WaitLoaded observed dl (signalled (state s))) s)
  | WaitLoaded observed dl flag =>
      if flag || negb (generation_value (state s) =? observed)
      then Some (release t (WaitDone Signalled) s)
      else if dl && expired then Some (release t (WaitDone TimedOut) s)
      else Some (release t (WaitAsleep observed dl) s)
  | WaitWoken observed dl timed_out =>
      if timed_out && dl && expired
      then match lock s with None => Some (at_pc t (WaitDone TimedOut) s) | Some _ => None end
      else acquire t (WaitLocked observed dl) s
  | _ => None
  end.

(** One step of thread [t], [None] when it cannot take it. *)
Definition step (t : HostThread) (a : Action) (s : EventSystem) : option EventSystem :=
  match pcs s !! t with
  | None => None
  | Some pc =>
      match a, pc with
      | CallSignal, Idle => step_signal t Idle s
      | CallClear, Idle => Some (with_state (store_flag false (state s)) s)
      | CallWatch w, Idle => Some (at_pc t (WatchEntered w) s)
      | CallDrop id, Idle => Some (at_pc t (DropEntered id) s)
      | CallWait dl, Idle =>
          Some (at_pc t (if signalled (state s) then WaitDone Signalled else WaitEntered dl) s)
      | Proceed, (SignalStored | SignalLocked | SignalCalling _) => step_signal t pc s
      | Proceed, (WatchEntered _ | WatchLocked _ | WatchLoaded _ _ | WatchCalling _) =>
          step_watch t pc s
      | Proceed, DropEntered id => step_drop t id s
      | Proceed, (WaitEntered _ | WaitLocked _ _ | WaitLoaded _ _ _ | WaitWoken _ _ _) =>
          step_wait t pc false s
      | Expired, (WaitLoaded _ _ _ | WaitWoken _ _ _) => step_wait t pc true s
      | SpuriousWake, WaitAsleep observed dl => Some (at_pc t (WaitWoken observed dl false) s)
      | TimeoutWake, WaitAsleep observed true => Some (at_pc t (WaitWoken observed true true) s)
      | Return, WaitDone _ => Some (at_pc t Idle s)
      | _, _ => None
      end
  end.

Fixpoint run (schedule : list (HostThread * Action)) (s : EventSystem) : option EventSystem :=
  match schedule with
  | [] => Some s
  | (t, a) :: rest => match step t a s with Some s' => run rest s' | None => None end
  end.

Inductive reachable (s0 : EventSystem) : EventSystem -> Prop :=
| reach_init : reachable s0 s0
| reach_step s t a s' : reachable s0 s -> step t a s = Some s' -> reachable s0 s'.

(** ** The invariant *)

Definition holds_lock (pc : Pc) : bool :=
  match pc with
  | SignalLocked | WatchLocked _ | WatchLoaded _ _ | WaitLocked _ _ | WaitLoaded _ _ _ => true
  | _ => false
  end.

(** A signal whose flag is set and whose publication is still to come. *)
Definition publishing (pc : Pc) : bool :=
  match pc with SignalStored | SignalLocked => true | _ => false end.

(** A thread that read the flag as clear under the lock and depends on the next
    publication to be told. *)
Definition committed (pc : Pc) : bool :=
  match pc with
  | WatchLoaded _ false | WaitLoaded _ _ false | WaitAsleep _ _ => true
  | _ => false
  end.

Definition depends (s : EventSystem) : Prop :=
  watchers (state s) <> ∅ \/ exists t pc, pcs s !! t = Some pc /\ committed pc = true.

Record Inv (s : EventSystem) : Prop := {
  inv_lock : forall t pc, pcs s !! t = Some pc -> holds_lock pc = true -> lock s = Some t;
  inv_held : forall t, lock s = Some t -> exists pc, pcs s !! t = Some pc /\ holds_lock pc = true;
  inv_told : signalled (state s) = true -> depends s ->
    exists t pc, pcs s !! t = Some pc /\ publishing pc = true;
}.

Lemma initial_inv src threads : Inv (initial src threads).
Proof.
  split; cbn; [|done|done].
  intros t pc [_ <-]%lookup_gset_to_gmap_Some. done.
Qed.

(** *** How a step of one thread preserves it *)

Definition lock_ok (s : EventSystem) (t : HostThread) (pc pc' : Pc) (l' : option HostThread) : Prop :=
  (l' = lock s /\ holds_lock pc' = holds_lock pc)
  \/ (lock s = None /\ l' = Some t /\ holds_lock pc' = true)
  \/ (holds_lock pc = true /\ l' = None /\ holds_lock pc' = false).

Definition told_ok (s : EventSystem) (pc pc' : Pc) (e' : EventState) : Prop :=
  signalled e' = false
  \/ publishing pc' = true
  \/ (signalled e' = signalled (state s) /\ publishing pc = false
      /\ (watchers e' <> ∅ -> watchers (state s) <> ∅ \/ committed pc = true)
      /\ (committed pc' = true -> committed pc = true)).

Lemma move_inv s t pc pc' e' l' c' :
  Inv s -> pcs s !! t = Some pc -> lock_ok s t pc pc' l' -> told_ok s pc pc' e' ->
  Inv (mkSystem e' l' (<[t := pc']> (pcs s)) c').
Proof.
  intros [HL HH HT] Hpc Hlock Htold. split; cbn.
  - intros u q. destruct (decide (u = t)) as [->|Hne].
    + rewrite lookup_insert_eq. intros [= <-] Hq.
      destruct Hlock as [[-> Heq]|[(_ & -> & _)|(_ & _ & Hf)]]; [|done|congruence].
      apply (HL t pc); congruence.
    + rewrite lookup_insert_ne by done. intros Hu Hq. pose proof (HL _ _ Hu Hq) as HLu.
      destruct Hlock as [[-> _]|[(Hn & _)|(Hh & _)]]; [done|congruence|].
      pose proof (HL _ _ Hpc Hh). congruence.
  - intros u Hu. destruct (decide (u = t)) as [->|Hne].
    + exists pc'. rewrite lookup_insert_eq. split; [done|].
      destruct Hlock as [[-> Heq]|[(_ & _ & ?)|(_ & -> & _)]]; [|done|done].
      destruct (HH t Hu) as (q & Hq & Hh). congruence.
    + destruct Hlock as [[-> _]|[(_ & -> & _)|(_ & -> & _)]]; [|congruence|done].
      destruct (HH u Hu) as (q & Hq & Hh). exists q. by rewrite lookup_insert_ne.
  - intros Hsig Hdep. destruct Htold as [Hf|[Hp|(Hs & Hnp & Hw & Hc)]]; [congruence| |].
    + exists t, pc'. by rewrite lookup_insert_eq.
    + destruct HT as (u & q & Hu & Hq); [congruence| |].
      * destruct Hdep as [Hne|(u & q & Hu & Hq)].
        -- destruct (Hw Hne) as [|]; [by left|right; by exists t, pc].
        -- right. destruct (decide (u = t)) as [->|].
           ++ cbn in Hu. rewrite lookup_insert_eq in Hu. injection Hu as <-. exists t, pc. auto.
           ++ cbn in Hu. rewrite lookup_insert_ne in Hu by done. by exists u, q.
      * exists u, q. rewrite lookup_insert_ne; [done|]. intros ->. congruence.
Qed.

Lemma wake_pc_holds pc : holds_lock (wake_pc pc) = holds_lock pc.
Proof. by destruct pc. Qed.

Lemma wake_pc_committed pc : committed (wake_pc pc) = true -> holds_lock pc = true.
Proof. by destruct pc. Qed.

(** The publication leaves nobody depending on it: it holds the lock, so no
    thread is between its load and its registration. *)
Lemma publish_inv s t :
  Inv s -> pcs s !! t = Some SignalLocked ->
  Inv (release t (SignalCalling (watcher_list (state s)))
         (notify_all (with_state (publish (state s)) s))).
Proof.
  intros HI Hpc. assert (Hl : lock s = Some t) by by eapply (inv_lock s HI t).
  assert (Honly : forall u q, u <> t -> (wake_pc <$> pcs s) !! u = Some q -> holds_lock q = false).
  { intros u q Hne Hu. rewrite lookup_fmap in Hu. apply fmap_Some in Hu as (q0 & Hq0 & ->).
    rewrite wake_pc_holds. destruct (holds_lock q0) eqn:Hh; [|done].
    pose proof (inv_lock s HI u q0 Hq0 Hh). congruence. }
  split; cbn; [|done|].
  - intros u q. destruct (decide (u = t)) as [->|Hne]; [rewrite lookup_insert_eq; by intros [= <-]|].
    rewrite lookup_insert_ne by done. intros Hu. rewrite (Honly u q); done.
  - intros _ [?|(u & q & Hu & Hq)]; [done|]. cbn in Hu. exfalso.
    destruct (decide (u = t)) as [->|Hne].
    + rewrite lookup_insert_eq in Hu. by injection Hu as <-.
    + rewrite lookup_insert_ne in Hu by done.
      pose proof (Honly u q Hne Hu) as Hf. rewrite lookup_fmap in Hu.
      apply fmap_Some in Hu as (q0 & Hq0 & ->).
      apply wake_pc_committed in Hq. by rewrite wake_pc_holds, Hq in Hf.
Qed.

Lemma clear_inv s : Inv s -> Inv (with_state (store_flag false (state s)) s).
Proof. intros [HL HH HT]. by split. Qed.

Ltac step_cases H :=
  unfold step, step_signal, step_watch, step_drop, step_wait, acquire in H;
  repeat (case_match; simplify_eq); try done.

Lemma step_inv s t a s' : Inv s -> step t a s = Some s' -> Inv s'.
Proof.
  intros HI H. step_cases H; try (by apply publish_inv); try (by apply clear_inv).
  all: unfold release, with_lock, at_pc, with_state, with_called; cbn.
  all: eapply move_inv; [done|done| |].
  all: unfold lock_ok, told_ok; cbn; try tauto.
  all: try (destruct flag; cbn in *; simplify_eq; tauto).
  all: try (destruct (signalled (state s)); tauto).
  right; right; repeat split; try done. intros Hne. left. intros He. apply Hne.
  rewrite He. apply delete_empty.
Qed.

Lemma reachable_inv src threads s : reachable (initial src threads) s -> Inv s.
Proof. induction 1; [apply initial_inv|by eapply step_inv]. Qed.

(** *** Generations: a published signal survives a [clear] *)

(** The publications a schedule performs. *)
Definition publishes (t : HostThread) (a : Action) (s : EventSystem) : bool :=
  bool_decide (pcs s !! t = Some SignalLocked) && match a with Proceed => true | _ => false end.

Fixpoint publications (schedule : list (HostThread * Action)) (s : EventSystem) : Z :=
  match schedule with
  | [] => 0
  | (t, a) :: rest =>
      match step t a s with
      | Some s' => b2z (publishes t a s) + publications rest s'
      | None => 0
      end
  end.

Lemma publications_nonneg schedule s : 0 <= publications schedule s.
Proof.
  revert s. induction schedule as [|[t a] rest IH]; cbn; intros s; [done|].
  case_match; [|done]. specialize (IH e). destruct (publishes t a s); cbn; lia.
Qed.

(** The control states of a wait that observed generation [observed], [g]
    publications after it did. *)
Definition waiting (observed : Z) (dl : bool) (g : Z) (pc : Pc) : Prop :=
  match pc with
  | WaitAsleep o d => o = observed /\ d = dl /\ g = 0
  | WaitWoken o d _ | WaitLocked o d | WaitLoaded o d _ => o = observed /\ d = dl
  | WaitDone Signalled => True
  | WaitDone TimedOut => dl = true
  | _ => False
  end.

Lemma step_generation t a s s' :
  step t a s = Some s' ->
  generation_value (state s')
  = if publishes t a s then wrap 64 (generation_value (state s) + 1)
    else generation_value (state s).
Proof.
  intros H. unfold publishes.
  destruct (decide (pcs s !! t = Some SignalLocked)) as [Hp|Hp].
  - rewrite bool_decide_eq_true_2 by done. unfold step in H. rewrite Hp in H.
    destruct a; cbn in H; by simplify_eq.
  - rewrite bool_decide_eq_false_2 by done. cbn. step_cases H.
Qed.

(** Another thread's step only ever wakes [t] up, and only by publishing. *)
Lemma step_other t u a s s' pc :
  u <> t -> step u a s = Some s' -> pcs s !! t = Some pc ->
  pcs s' !! t = Some (if publishes u a s then wake_pc pc else pc).
Proof.
  intros Hne H Hpc. unfold publishes.
  destruct (decide (pcs s !! u = Some SignalLocked)) as [Hp|Hp].
  - rewrite bool_decide_eq_true_2 by done. unfold step in H. rewrite Hp in H.
    destruct a; cbn in H; simplify_eq. cbn. by rewrite lookup_insert_ne, lookup_fmap, Hpc.
  - rewrite bool_decide_eq_false_2 by done.
    step_cases H; cbn; try rewrite lookup_insert_ne; done.
Qed.

Lemma generation_moved o g : in_range 64 o -> 0 < g < 2 ^ 64 -> (wrap 64 (o + g) =? o) = false.
Proof.
  unfold in_range, wrap. intros Ho Hg. apply Z.eqb_neq.
  destruct (Z.lt_ge_cases (o + g) (2 ^ 64)).
  - rewrite Z.mod_small by lia. lia.
  - rewrite <- (Z_mod_plus_full _ (-1)), Z.mod_small by lia. lia.
Qed.

Lemma step_own t a s s' observed dl g pc :
  step t a s = Some s' -> a <> Return -> pcs s !! t = Some pc -> waiting observed dl g pc ->
  generation_value (state s) = wrap 64 (observed + g) -> in_range 64 observed -> 0 <= g < 2 ^ 64 ->
  publishes t a s = false /\ exists pc', pcs s' !! t = Some pc' /\ waiting observed dl g pc'.
Proof.
  intros H Ha Hpc Hw Hg Ho Hr. unfold publishes, step in *. rewrite Hpc in *.
  destruct pc as [| | | | | | | | | | | | | |[]]; cbn in Hw; try done;
    (split; [by rewrite bool_decide_eq_false_2|]);
    unfold step_wait, acquire in H.
  all: destruct a; try done; repeat (case_match; simplify_eq); destruct_and?; simplify_eq;
    try done; eexists; (split; [cbn; by rewrite lookup_insert_eq|]); cbn; try done.
  all: try (split_and!; try done).
  all: try (repeat match goal with Hb : _ && _ = true |- _ => apply andb_true_iff in Hb as [? ?] end;
            done).
  all: apply orb_false_iff in H0 as [_ H0]; apply negb_false_iff in H0; rewrite Hg in H0;
    destruct (decide (g = 0)); [done|]; rewrite generation_moved in H0; done || lia.
Qed.

Lemma run_waiting t observed dl schedule s s' g pc :
  run schedule s = Some s' -> (t, Return) ∉ schedule ->
  pcs s !! t = Some pc -> waiting observed dl g pc ->
  generation_value (state s) = wrap 64 (observed + g) -> in_range 64 observed ->
  0 <= g -> g + publications schedule s < 2 ^ 64 ->
  generation_value (state s') = wrap 64 (observed + (g + publications schedule s))
  /\ exists pc', pcs s' !! t = Some pc' /\ waiting observed dl (g + publications schedule s) pc'.
Proof.
  revert s g pc. induction schedule as [|[u a] rest IH]; cbn; intros s g pc H Hret Hpc Hw Hg Ho H0 Hlt.
  { simplify_eq. rewrite Z.add_0_r. eauto. }
  destruct (step u a s) as [s1|] eqn:Hs; [|done].
  apply not_elem_of_cons in Hret as [Hne Hret].
  pose proof (publications_nonneg rest s1) as Hpos.
  assert (Hb : 0 <= b2z (publishes u a s) <= 1) by (destruct (publishes u a s); cbn; lia).
  pose proof (step_generation _ _ _ _ Hs) as Hgen.
  assert (exists pc1, pcs s1 !! t = Some pc1 /\ waiting observed dl (g + b2z (publishes u a s)) pc1)
    as (pc1 & Hpc1 & Hw1).
  { destruct (decide (u = t)) as [->|Hu].
    - destruct (step_own t a s s1 observed dl g pc) as (Hp & pc' & ? & ?);
        try done; [congruence|lia|]. rewrite Hp. cbn. rewrite Z.add_0_r. eauto.
    - exists (if publishes u a s then wake_pc pc else pc).
      split; [by apply (step_other t u a)|].
      destruct (publishes u a s); cbn; [|by rewrite Z.add_0_r].
      destruct pc; cbn in *; tauto. }
  rewrite (Z.add_assoc g).
  apply (IH s1 _ pc1); try done; [|lia|lia].
  rewrite Hgen, Hg. destruct (publishes u a s); cbn; [|by rewrite Z.add_0_r].
  unfold wrap. rewrite Zplus_mod_idemp_l. f_equal. lia.
Qed.

(** ** Claims *)

(** C14. No wake-up is lost, whatever the interleaving.  In every state the
    threads can reach, if the event's flag is set while a watcher is still
    registered, a thread sleeps on the condition variable, or a thread has read
    the flag as clear and is about to do either, then some [signal] has set the
    flag and has yet to publish: that publication wakes the sleepers and calls
    the watchers.  An event that is signalled and has no [signal] under way has
    neither sleepers nor watchers. *)
Theorem event_no_lost_wakeup src threads s :
  reachable (initial src threads) s -> signalled (state s) = true -> depends s ->
  exists t pc, pcs s !! t = Some pc /\ publishing pc = true.
Proof. intros Hr%reachable_inv. apply (inv_told s Hr). Qed.

(** Thread 1 reads the flag as clear; thread 2 signals before thread 1 sleeps. *)
Definition race_schedule : list (HostThread * Action) :=
  [(1, CallWait false); (1, Proceed); (1, Proceed); (2, CallSignal); (1, Proceed)].

Definition race_state : EventSystem :=
  default (initial None ∅) (run race_schedule (initial None {[1; 2]})).

Lemma run_reachable s0 schedule s :
  run schedule s0 = Some s -> forall r, reachable r s0 -> reachable r s.
Proof.
  revert s0. induction schedule as [|[t a] rest IH]; cbn; intros s0 H r Hr; [by simplify_eq|].
  destruct (step t a s0) eqn:Hs; [|done]. eapply IH; [done|]. by eapply reach_step.
Qed.

Lemma event_no_lost_wakeup_witness :
  pcs race_state !! 1 = Some (WaitAsleep 0 false)
  /\ exists t pc, pcs race_state !! t = Some pc /\ publishing pc = true.
Proof.
  split; [vm_compute; reflexivity|].
  apply (event_no_lost_wakeup None {[1; 2]}).
  - apply (run_reachable (initial None {[1; 2]}) race_schedule);
      [vm_compute; reflexivity|constructor].
  - vm_compute. reflexivity.
  - right. exists 1, (WaitAsleep 0 false). split; vm_compute; reflexivity.
Defined.

(** A wait that a publication has reached ends, even if the event is cleared
    before the waiting thread runs.  Thread [t] sleeps having observed the
    current generation; whatever the threads then do, spurious and timed
    wake-ups and any number of [clear]s included, once between 1 and [2^64 - 1]
    signals have been published [t] is not asleep and cannot fall asleep again:
    it is on its way to its check, where the generation differs from the one it
    observed, or it has returned; and it returns [TimedOut] only if it was given
    a deadline. *)
Theorem event_published_wait_returns t observed dl schedule s s' :
  run schedule s = Some s' -> (t, Return) ∉ schedule ->
  pcs s !! t = Some (WaitAsleep observed dl) -> generation_value (state s) = observed ->
  in_range 64 observed -> 0 < publications schedule s < 2 ^ 64 ->
  generation_value (state s') <> observed
  /\ exists pc, pcs s' !! t = Some pc /\
     match pc with
     | WaitWoken o d _ | WaitLocked o d | WaitLoaded o d _ => o = observed /\ d = dl
     | WaitDone Signalled => True
     | WaitDone TimedOut => dl = true
     | _ => False
     end.
Proof.
  intros H Hret Hpc Hg Ho Hk.
  destruct (run_waiting t observed dl schedule s s' 0 (WaitAsleep observed dl))
    as (Hg' & pc & Hpc' & Hw); try done; [by rewrite Z.add_0_r, wrap_small|lia|].
  cbn in Hg', Hw. rewrite Z.add_0_l in Hg', Hw. split.
  - rewrite Hg'. by apply Z.eqb_neq, generation_moved.
  - exists pc. split; [done|]. destruct pc as [| | | | | | | | | | | | | |[]]; cbn in Hw; try done. lia.
Qed.

(** A sleeper, a signal and a clear before the sleeper gets the mutex back. *)
Definition cleared_schedule : list (HostThread * Action) :=
  [(2, CallSignal); (2, Proceed); (2, Proceed); (3, CallClear); (1, Proceed); (1, Proceed);
   (1, Proceed)].

Definition asleep_state : EventSystem :=
  default (initial None ∅)
    (run [(1, CallWait false); (1, Proceed); (1, Proceed); (1, Proceed)]
       (initial None {[1; 2; 3]})).

Definition cleared_state : EventSystem :=
  default (initial None ∅) (run cleared_schedule asleep_state).

Lemma event_published_wait_returns_witness :
  signalled (state cleared_state) = false
  /\ pcs cleared_state !! 1 = Some (WaitDone Signalled)
  /\ generation_value (state cleared_state) <> 0.
Proof.
  split; [vm_compute; reflexivity|]. split; [vm_compute; reflexivity|].
  apply (event_published_wait_returns 1 0 false cleared_schedule asleep_state).
  - vm_compute. reflexivity.
  - apply (bool_decide_unpack _). vm_compute. exact I.
  - vm_compute. reflexivity.
  - vm_compute. reflexivity.
  - split; vm_compute; [discriminate|reflexivity].
  - split; vm_compute; reflexivity.
Defined.
