(* ===== verification/RtPriorityWait.v ===== *)
(** * Priority-ordered address waits (crates/runtime/src/address_wait/priority.rs)

    [PriorityAddressWaitQueue] keeps four tables that must agree: the queues by
    address and priority, the position of each active thread, the pending
    deadlines and the results not yet taken.  Every method is a state method on
    the queue and the heap of events, as the code reaches both through
    [&mut self]; each [expect] of the source yields [Panic]. *)

From S2P Require Import Prelude Loops RtEvent.

Inductive AddressWaitResult : Set := WaitSignalled | WaitTimedOut.
#[export] Instance AddressWaitResult_eq_dec : EqDecision AddressWaitResult.
Proof. solve_decision. Defined.

Record Waiter := mkWaiter {
  waiter_thread : Z;
  waiter_deadline : option Z;
  waiter_event : EventId;
}.
#[export] Instance Waiter_eq_dec : EqDecision Waiter.
Proof. solve_decision. Defined.

Abbreviation Queues := (gmap Z (gmap Z (list Waiter))) (only parsing).

Record PriorityAddressWaitQueue := mkQueue {
  queues : Queues;
  positions : gmap Z (Z * Z);
  deadlines : gset (Z * Z);
  completed : gmap Z AddressWaitResult;
}.

Definition empty_queue : PriorityAddressWaitQueue := mkQueue ∅ ∅ ∅ ∅.

(** The queue and the events its waiters own. *)
Record WaitWorld := mkWorld {
  world_events : EventHeap;
  world_queue : PriorityAddressWaitQueue;
}.

Notation M := (SM WaitWorld Empty_set).

(** A method of an event, from a method of the queue. *)
Definition on_events {A} (m : SM EventHeap Empty_set A) : M A :=
  fun w => let '(r, h) := m (world_events w) in (r, mkWorld h (world_queue w)).

Definition update_queue (f : PriorityAddressWaitQueue -> PriorityAddressWaitQueue) : M unit :=
  modify (fun w => mkWorld (world_events w) (f (world_queue w))).

Definition set_queues (v : Queues) : M unit :=
  update_queue (fun q => mkQueue v (positions q) (deadlines q) (completed q)).
Definition set_positions (v : gmap Z (Z * Z)) : M unit :=
  update_queue (fun q => mkQueue (queues q) v (deadlines q) (completed q)).
Definition set_deadlines (v : gset (Z * Z)) : M unit :=
  update_queue (fun q => mkQueue (queues q) (positions q) v (completed q)).
Definition set_completed (v : gmap Z AddressWaitResult) : M unit :=
  update_queue (fun q => mkQueue (queues q) (positions q) (deadlines q) v).

(** [queues.entry(address).or_default().entry(priority).or_default().push_back(w)] *)
Definition push_waiter (address priority : Z) (w : Waiter) (qs : Queues) : Queues :=
  let priorities := default ∅ (qs !! address) in
  let queue := default [] (priorities !! priority) in
  <[address := <[priority := queue ++ [w]]> priorities]> qs.

(** Writing a shortened queue back: an empty queue is removed from its address,
    an empty address from the map. *)
Definition store_bucket (address priority : Z) (queue : list Waiter)
    (priorities : gmap Z (list Waiter)) (qs : Queues) : Queues :=
  let priorities' :=
    match queue with [] => delete priority priorities | _ => <[priority := queue]> priorities end in
  if decide (priorities' = ∅) then delete address qs else <[address := priorities']> qs.

Definition insert_deadline (deadline : option Z) (thread : Z) (ds : gset (Z * Z)) : gset (Z * Z) :=
  match deadline with Some d => {[(d, thread)]} ∪ ds | None => ds end.

Definition remove_deadline (deadline : option Z) (thread : Z) (ds : gset (Z * Z)) : gset (Z * Z) :=
  match deadline with Some d => ds ∖ {[(d, thread)]} | None => ds end.

Definition contains (thread : Z) (q : PriorityAddressWaitQueue) : bool :=
  bool_decide (is_Some (positions q !! thread)) || bool_decide (is_Some (completed q !! thread)).

Definition enqueue (address thread priority : Z) (deadline : option Z) : M (option EventId) :=
  let! w := get in
  if contains thread (world_queue w) then ret None
  else
    let! pair := on_events create_pair in
    let! w := get in
    let q := world_queue w in
    do! set_queues (push_waiter address priority (mkWaiter thread deadline pair.1) (queues q)) in
    do! set_positions (<[thread := (address, priority)]> (positions q)) in
    do! set_deadlines (insert_deadline deadline thread (deadlines q)) in
    ret (Some pair.2).

Definition take_result (thread : Z) : M (option AddressWaitResult) :=
  let! w := get in
  let c := completed (world_queue w) in
  do! set_completed (delete thread c) in
  ret (c !! thread).

Definition waiting_count (address : Z) (q : PriorityAddressWaitQueue) : Z :=
  match queues q !! address with
  | None => 0
  | Some priorities => map_fold (fun _ queue n => Z.of_nat (length queue) + n) 0 priorities
  end.

Definition len (q : PriorityAddressWaitQueue) : Z :=
  Z.of_nat (size (positions q)) + Z.of_nat (size (completed q)).

Definition is_empty (q : PriorityAddressWaitQueue) : bool := len q =? 0.

Definition complete (waiter : Waiter) (result : AddressWaitResult) : M unit :=
  let! w := get in
  let q := world_queue w in
  do! set_deadlines (remove_deadline (waiter_deadline waiter) (waiter_thread waiter) (deadlines q)) in
  do! set_completed (<[waiter_thread waiter := result]> (completed q)) in
  on_events (signal (waiter_event waiter)).

(** One turn of [signal]'s loop; [false] leaves it. *)
Definition signal_one (address : Z) : M bool :=
  let! w := get in
  let q := world_queue w in
  match queues q !! address with
  | None => ret false
  | Some priorities =>
      let! entry := expect (first_entry priorities) in
      match entry.2 with
      | [] => panic
      | waiter :: rest =>
          do! set_queues (store_bucket address entry.1 rest priorities (queues q)) in
          do! set_positions (delete (waiter_thread waiter) (positions q)) in
          do! complete waiter WaitSignalled in
          ret true
      end
  end.

Definition signal_turn (address : Z) (w : WaitWorld) :
    WaitWorld + (Result Empty_set unit * WaitWorld) :=
  match signal_one address w with
  | (Ok true, w') => inl w'
  | (Ok false, w') => inr (Ok tt, w')
  | (Err e, w') => inr (Err e, w')
  | (Panic, w') => inr (Panic, w')
  end.

(** [for _ in 0..count] *)
Definition signal_waiters (address count : Z) : M unit :=
  fun w =>
    match count with
    | Z.pos n => match loop (signal_turn address) n w with inl w' => (Ok tt, w') | inr r => r end
    | _ => (Ok tt, w)
    end.

Definition remove_active (thread : Z) : M (option Waiter) :=
  let! w := get in
  let q := world_queue w in
  match positions q !! thread with
  | None => ret None
  | Some (address, priority) =>
      do! set_positions (delete thread (positions q)) in
      let! priorities := expect (queues q !! address) in
      let! queue := expect (priorities !! priority) in
      let! found := expect (list_find (fun x => waiter_thread x = thread) queue) in
      let waiter := found.2 in
      do! set_queues (store_bucket address priority (delete found.1 queue) priorities (queues q)) in
      do! set_deadlines (remove_deadline (waiter_deadline waiter) thread (deadlines q)) in
      ret (Some waiter)
  end.

(** The [while let] of [expire], each turn of which removes a deadline. *)
Fixpoint expire_loop (fuel : nat) (now : Z) : M unit :=
  let! w := get in
  match pairs_first (deadlines (world_queue w)) with
  | None => ret tt
  | Some (deadline, thread) =>
      if now <? deadline then ret tt
      else
        match fuel with
        | O => panic
        | S fuel =>
            let! removed := remove_active thread in
            let! waiter := expect removed in
            do! complete waiter WaitTimedOut in
            expire_loop fuel now
        end
  end.

Definition expire (now : Z) : M unit :=
  fun w => expire_loop (size (deadlines (world_queue w))) now w.

Definition change_priority (thread priority : Z) : M unit :=
  let! w := get in
  match positions (world_queue w) !! thread with
  | None => ret tt
  | Some (address, old_priority) =>
      if old_priority =? priority then ret tt
      else
        let! removed := remove_active thread in
        let! waiter := expect removed in
        let! w := get in
        let q := world_queue w in
        do! set_deadlines (insert_deadline (waiter_deadline waiter) thread (deadlines q)) in
        do! set_queues (push_waiter address priority waiter (queues q)) in
        set_positions (<[thread := (address, priority)]> (positions q))
  end.

Definition remove (thread : Z) : M unit :=
  do! remove_active thread in
  let! w := get in
  set_completed (delete thread (completed (world_queue w))).

(** * What priority-ordered address waits promise

    The four tables of [PriorityAddressWaitQueue] implement a plain list: the
    active waits in order of arrival, beside the results not yet taken.  A
    signal takes the first wait of the least priority at its address, an expiry
    takes every overdue wait, and a change of priority moves a wait to the end
    of the list.  [refines] relates the two, and every method of the code is
    shown to preserve it, to return what the list specification returns and
    never to panic. *)

(** ** The specification *)

Record Wait := mkWait {
  thread : Z;
  address : Z;
  priority : Z;
  deadline : option Z;
  event : EventId;
}.

Record WaitSpec := mkSpec {
  active : list Wait;
  results : gmap Z AddressWaitResult;
  fired : gset EventId;
  next_event : EventId;
}.

Definition without (t : Z) (l : list Wait) : list Wait := filter (fun x => thread x <> t) l.

Definition pending (t : Z) (s : WaitSpec) : bool :=
  bool_decide (t ∈ thread <$> active s) || bool_decide (is_Some (results s !! t)).

(** The wait a signal takes: least priority, then first to arrive. *)
Fixpoint next_wait (a : Z) (l : list Wait) : option Wait :=
  match l with
  | [] => None
  | x :: l =>
      match next_wait a l with
      | None => if address x =? a then Some x else None
      | Some y => if (address x =? a) && (priority x <=? priority y) then Some x else Some y
      end
  end.

Definition finish (x : Wait) (r : AddressWaitResult) (s : WaitSpec) : WaitSpec :=
  mkSpec (without (thread x) (active s)) (<[thread x := r]> (results s))
    ({[event x]} ∪ fired s) (next_event s).

Definition spec_enqueue (a t p : Z) (d : option Z) (s : WaitSpec) : option EventId * WaitSpec :=
  if pending t s then (None, s)
  else (Some (next_event s),
        mkSpec (active s ++ [mkWait t a p d (next_event s)]) (results s) (fired s)
          (next_event s + 1)).

Definition spec_take_result (t : Z) (s : WaitSpec) : option AddressWaitResult * WaitSpec :=
  (results s !! t, mkSpec (active s) (delete t (results s)) (fired s) (next_event s)).

Fixpoint spec_signal_loop (n : nat) (a : Z) (s : WaitSpec) : WaitSpec :=
  match n with
  | O => s
  | S n =>
      match next_wait a (active s) with
      | None => s
      | Some x => spec_signal_loop n a (finish x WaitSignalled s)
      end
  end.

Definition spec_signal (a count : Z) (s : WaitSpec) : WaitSpec :=
  spec_signal_loop (Z.to_nat (Z.min count (Z.of_nat (length (active s))))) a s.

Definition overdue (now : Z) (x : Wait) : Prop :=
  match deadline x with Some d => d <= now | None => False end.

#[export] Instance overdue_dec now x : Decision (overdue now x).
Proof. unfold overdue. destruct (deadline x); apply _. Defined.

Definition time_out (l : list Wait) (m : gmap Z AddressWaitResult) : gmap Z AddressWaitResult :=
  foldr (fun x m => <[thread x := WaitTimedOut]> m) m l.

Definition spec_expire (now : Z) (s : WaitSpec) : WaitSpec :=
  let late := filter (overdue now) (active s) in
  mkSpec (filter (fun x => ~ overdue now x) (active s)) (time_out late (results s))
    (list_to_set (event <$> late) ∪ fired s) (next_event s).

Definition spec_change_priority (t p : Z) (s : WaitSpec) : WaitSpec :=
  match list_find (fun x => thread x = t) (active s) with
  | None => s
  | Some (_, x) =>
      if priority x =? p then s
      else mkSpec (without t (active s) ++ [mkWait t (address x) p (deadline x) (event x)])
             (results s) (fired s) (next_event s)
  end.

Definition spec_remove (t : Z) (s : WaitSpec) : WaitSpec :=
  mkSpec (without t (active s)) (delete t (results s)) (fired s) (next_event s).

(** ** The relation *)

Definition waiter_of (x : Wait) : Waiter := mkWaiter (thread x) (deadline x) (event x).

Definition at_queue (a p : Z) (x : Wait) : Prop := address x = a /\ priority x = p.
#[export] Instance at_queue_dec a p x : Decision (at_queue a p x).
Proof. unfold at_queue. apply _. Defined.

Definition bucket (qs : Queues) (a p : Z) : list Waiter :=
  default [] (qs !! a ≫= fun m => m !! p).

Definition expected (l : list Wait) (a p : Z) : list Waiter :=
  waiter_of <$> filter (at_queue a p) l.

(** No empty queue is kept. *)
Definition tight (qs : Queues) : Prop :=
  forall a m, qs !! a = Some m -> m <> ∅ /\ forall p q, m !! p = Some q -> q <> [].

(** The three tables of the active waits. *)
Record tables (qs : Queues) (pos : gmap Z (Z * Z)) (ds : gset (Z * Z)) (l : list Wait) : Prop := {
  tables_tight : tight qs;
  tables_bucket : forall a p, bucket qs a p = expected l a p;
  tables_position : forall t a p,
    pos !! t = Some (a, p) <-> exists x, x ∈ l /\ thread x = t /\ address x = a /\ priority x = p;
  tables_deadline : forall d t, (d, t) ∈ ds <-> exists x, x ∈ l /\ thread x = t /\ deadline x = Some d;
  tables_nodup : NoDup (thread <$> l);
}.

Record events_ok (h : EventHeap) (s : WaitSpec) : Prop := {
  events_wf : heap_wf h;
  events_next : heap_next h = next_event s;
  events_fired : forall id, event_signalled h id = true <-> id ∈ fired s;
  events_active : forall x, x ∈ active s -> allocated h (event x) /\ event x ∉ fired s;
  events_nodup : NoDup (event <$> active s);
}.

Record refines (w : WaitWorld) (s : WaitSpec) : Prop := {
  refines_tables : tables (queues (world_queue w)) (positions (world_queue w))
                     (deadlines (world_queue w)) (active s);
  refines_results : completed (world_queue w) = results s;
  refines_disjoint : forall x, x ∈ active s -> results s !! thread x = None;
  refines_events : events_ok (world_events w) s;
}.

(** ** The queues by address and priority *)

Lemma bucket_insert qs a m a' p' :
  bucket (<[a := m]> qs) a' p' = if decide (a' = a) then default [] (m !! p') else bucket qs a' p'.
Proof.
  unfold bucket. case_decide as Ha; [subst; by rewrite lookup_insert_eq|].
  by rewrite lookup_insert_ne.
Qed.

Lemma bucket_some qs a p w l :
  bucket qs a p = w :: l -> exists m, qs !! a = Some m /\ m !! p = Some (w :: l).
Proof.
  unfold bucket. destruct (qs !! a) as [m|] eqn:Hm; cbn; [|done].
  destruct (m !! p) eqn:Hp; cbn; [|done]. intros ->. eauto.
Qed.

Lemma bucket_push qs a p w a' p' :
  bucket (push_waiter a p w qs) a' p'
  = if decide (a' = a /\ p' = p) then bucket qs a p ++ [w] else bucket qs a' p'.
Proof.
  unfold push_waiter. rewrite bucket_insert. unfold bucket.
  destruct (decide (a' = a)) as [->|]; destruct (decide (p' = p)) as [->|];
    repeat case_decide; try tauto.
  - rewrite lookup_insert_eq. by destruct (qs !! a).
  - rewrite lookup_insert_ne by done. by destruct (qs !! a).
Qed.

Lemma bucket_store qs a p q m a' p' :
  qs !! a = Some m ->
  bucket (store_bucket a p q m qs) a' p' = if decide (a' = a /\ p' = p) then q else bucket qs a' p'.
Proof.
  intros Hm. unfold store_bucket.
  set (m' := match q with [] => delete p m | _ => <[p := q]> m end).
  assert (Hm' : forall p', default [] (m' !! p') = if decide (p' = p) then q else default [] (m !! p')).
  { intros x. subst m'. case_decide as Hx; [subst x|];
      destruct q; rewrite ?lookup_delete_eq, ?lookup_insert_eq, ?lookup_delete_ne, ?lookup_insert_ne; done. }
  assert (Hb : bucket (if decide (m' = ∅) then delete a qs else <[a := m']> qs) a' p'
               = if decide (a' = a) then default [] (m' !! p') else bucket qs a' p').
  { destruct (decide (m' = ∅)) as [->|]; [|apply bucket_insert]. unfold bucket.
    case_decide as Ha; [subst; by rewrite lookup_delete_eq, lookup_empty|].
    by rewrite lookup_delete_ne. }
  rewrite Hb, Hm'. unfold bucket.
  destruct (decide (a' = a)) as [->|]; destruct (decide (p' = p)) as [->|];
    repeat case_decide; try tauto; by rewrite Hm.
Qed.

Lemma push_tight qs a p w : tight qs -> tight (push_waiter a p w qs).
Proof.
  intros Ht a' m'. unfold push_waiter. destruct (decide (a' = a)) as [->|].
  - rewrite lookup_insert_eq. intros [= <-]. split; [apply insert_non_empty|].
    intros p' q. destruct (decide (p' = p)) as [->|].
    + rewrite lookup_insert_eq. intros [= <-]. by destruct (default [] _).
    + rewrite lookup_insert_ne by done. destruct (qs !! a) as [m|] eqn:Hm; cbn; [|done].
      apply (Ht _ _ Hm).
  - rewrite lookup_insert_ne by done. apply Ht.
Qed.

Lemma store_tight qs a p q m : tight qs -> qs !! a = Some m -> tight (store_bucket a p q m qs).
Proof.
  intros Ht Hm a' m'. unfold store_bucket. destruct (decide _) as [He|He].
  - destruct (decide (a' = a)) as [->|]; [by rewrite lookup_delete_eq|].
    rewrite lookup_delete_ne by done. apply Ht.
  - destruct (decide (a' = a)) as [->|]; [|rewrite lookup_insert_ne by done; apply Ht].
    rewrite lookup_insert_eq. intros [= <-]. split; [done|]. intros p' q'.
    destruct (decide (p' = p)) as [->|].
    + destruct q; [by rewrite lookup_delete_eq|]. rewrite lookup_insert_eq. by intros [= <-].
    + destruct q; [rewrite lookup_delete_ne by done|rewrite lookup_insert_ne by done];
        apply (Ht _ _ Hm).
Qed.

(** ** Adding and removing a wait in the tables *)

Lemma filter_ext_in {A} (P Q : A -> Prop) `{!forall x, Decision (P x), !forall x, Decision (Q x)} (l : list A) :
  (forall x, x ∈ l -> P x <-> Q x) -> filter P l = filter Q l.
Proof.
  induction l as [|x l IH]; intros Hiff; [done|]. rewrite !filter_cons.
  rewrite IH by (intros y Hy; apply Hiff; by right).
  assert (Hx : P x <-> Q x) by (apply Hiff; by left).
  repeat case_decide; tauto.
Qed.

Lemma nodup_key {A B} (f : A -> B) (l : list A) x y :
  NoDup (f <$> l) -> x ∈ l -> y ∈ l -> f x = f y -> x = y.
Proof.
  induction l as [|z l IH]; cbn; intros Hnd Hx Hy He; [by apply not_elem_of_nil in Hx|].
  apply NoDup_cons in Hnd as [Hz Hnd].
  apply elem_of_cons in Hx as [Hx|Hx]; apply elem_of_cons in Hy as [Hy|Hy]; subst; try done.
  - exfalso. apply Hz. rewrite He. by apply list_elem_of_fmap_2.
  - exfalso. apply Hz. rewrite <- He. by apply list_elem_of_fmap_2.
  - by apply IH.
Qed.

Lemma elem_of_without t l x : x ∈ without t l <-> thread x <> t /\ x ∈ l.
Proof. unfold without. by rewrite list_elem_of_filter. Qed.

Lemma filter_fmap_nodup {A B} (f : A -> B) (P : A -> Prop) `{!forall x, Decision (P x)} (l : list A) :
  NoDup (f <$> l) -> NoDup (f <$> filter P l).
Proof.
  induction l as [|x l IH]; [done|]. rewrite fmap_cons. intros [Hx Hnd]%NoDup_cons.
  rewrite filter_cons. case_decide; [|by apply IH]. rewrite fmap_cons. apply NoDup_cons. split; [|by apply IH].
  intros (y & He & Hy)%list_elem_of_fmap. apply Hx, list_elem_of_fmap. exists y. split; [done|].
  by apply list_elem_of_filter in Hy as [_ ?].
Qed.

Lemma without_nodup {B} (f : Wait -> B) t l : NoDup (f <$> l) -> NoDup (f <$> without t l).
Proof. apply filter_fmap_nodup. Qed.

Lemma tables_push qs pos ds l x :
  tables qs pos ds l -> thread x ∉ thread <$> l ->
  tables (push_waiter (address x) (priority x) (waiter_of x) qs)
    (<[thread x := (address x, priority x)]> pos)
    (insert_deadline (deadline x) (thread x) ds) (l ++ [x]).
Proof.
  intros [Ht Hb Hp Hd Hn] Hx. split.
  - by apply push_tight.
  - intros a p. rewrite bucket_push. unfold expected. rewrite filter_app, fmap_app, !Hb.
    rewrite (filter_cons _ x []), filter_nil. unfold expected, at_queue.
    repeat case_decide; destruct_and?; subst; try tauto. by rewrite app_nil_r.
  - intros t a p. destruct (decide (t = thread x)) as [->|Hne].
    + rewrite lookup_insert_eq. split.
      * intros [= <- <-]. exists x. rewrite elem_of_app, list_elem_of_singleton. auto.
      * intros (y & Hy & He & <- & <-). apply elem_of_app in Hy as [Hy|Hy%list_elem_of_singleton];
          [|by subst]. exfalso. apply Hx. rewrite <- He. by apply list_elem_of_fmap_2.
    + rewrite lookup_insert_ne by done. rewrite Hp. apply exist_proper. intros y.
      rewrite elem_of_app, list_elem_of_singleton. naive_solver.
  - intros d t. unfold insert_deadline.
    assert (Hs : (exists y, y ∈ l ++ [x] /\ thread y = t /\ deadline y = Some d)
                 <-> (thread x = t /\ deadline x = Some d) \/ (d, t) ∈ ds).
    { rewrite Hd. setoid_rewrite elem_of_app. setoid_rewrite list_elem_of_singleton. naive_solver. }
    rewrite Hs. destruct (deadline x) as [d'|]; [|naive_solver]. set_solver.
  - rewrite fmap_app. apply NoDup_app. split; [done|]. split; [|apply NoDup_singleton].
    intros t Ht1 Ht2%list_elem_of_singleton. by subst.
Qed.

(** The queue a wait is in, and what is left of it. *)
Lemma tables_find qs pos ds l x :
  tables qs pos ds l -> x ∈ l ->
  exists m, qs !! address x = Some m
    /\ m !! priority x = Some (expected l (address x) (priority x))
    /\ waiter_of x ∈ expected l (address x) (priority x).
Proof.
  intros [Ht Hb Hp Hd Hn] Hx.
  assert (Hin : waiter_of x ∈ expected l (address x) (priority x)).
  { apply list_elem_of_fmap_2. by apply list_elem_of_filter. }
  destruct (expected l (address x) (priority x)) as [|w r] eqn:He; [by apply not_elem_of_nil in Hin|].
  rewrite <- Hb in He. destruct (bucket_some _ _ _ _ _ He) as (m & Hm & Hq). eauto.
Qed.

Lemma tables_remove qs pos ds l x m :
  tables qs pos ds l -> x ∈ l -> qs !! address x = Some m ->
  tables
    (store_bucket (address x) (priority x)
       (expected (without (thread x) l) (address x) (priority x)) m qs)
    (delete (thread x) pos) (remove_deadline (deadline x) (thread x) ds) (without (thread x) l).
Proof.
  intros [Ht Hb Hp Hd Hn] Hx Hm. split.
  - by apply store_tight.
  - intros a p. rewrite (bucket_store _ _ _ _ m) by done. case_decide as Hap.
    { by destruct Hap as [-> ->]. }
    rewrite Hb. unfold expected, without. f_equal. rewrite list_filter_filter.
    apply filter_ext_in. intros y Hy. split; [|tauto]. intros Haq. split; [done|].
    intros He. apply Hap. assert (y = x) as -> by by apply (nodup_key thread l).
    destruct Haq. done.
  - intros t a p. setoid_rewrite elem_of_without. destruct (decide (t = thread x)) as [->|Hne].
    + rewrite lookup_delete_eq. naive_solver.
    + rewrite lookup_delete_ne, Hp by done. apply exist_proper. intros y. naive_solver.
  - intros d t. setoid_rewrite elem_of_without.
    assert (Hs : (exists y, (thread y <> thread x /\ y ∈ l) /\ thread y = t /\ deadline y = Some d)
                 <-> t <> thread x /\ (d, t) ∈ ds).
    { rewrite Hd. naive_solver. }
    rewrite Hs. unfold remove_deadline. destruct (deadline x) as [d'|] eqn:Hdl.
    + rewrite elem_of_difference, elem_of_singleton. split.
      * intros [Hin Hne]. split; [|done]. intros ->. apply Hd in Hin as (y & Hy & He & Hdy).
        assert (y = x) as -> by by apply (nodup_key thread l). congruence.
      * naive_solver.
    + split; [|naive_solver]. intros Hin. split; [|done]. intros ->.
      apply Hd in Hin as (y & Hy & He & Hdy).
      assert (y = x) as -> by by apply (nodup_key thread l). congruence.
  - by apply without_nodup.
Qed.

(** ** The wait a signal takes *)

Lemma next_wait_none a l : (forall y, y ∈ l -> address y <> a) -> next_wait a l = None.
Proof.
  induction l as [|x l IH]; intros H; [done|]. cbn. rewrite IH by (intros y Hy; apply H; by right).
  case_match eqn:He; [|done]. apply Z.eqb_eq in He. exfalso. by apply (H x); [left|].
Qed.

(** The decomposition that characterises it. *)
Definition selects (a : Z) (l : list Wait) (x : Wait) : Prop :=
  exists l1 l2, l = l1 ++ x :: l2 /\ address x = a
    /\ (forall y, y ∈ l1 -> address y = a -> priority x < priority y)
    /\ (forall y, y ∈ l2 -> address y = a -> priority x <= priority y).

Lemma next_wait_elem a l x : next_wait a l = Some x -> x ∈ l /\ address x = a.
Proof.
  revert x. induction l as [|y l IH]; cbn; intros x H; [done|].
  destruct (next_wait a l) as [z|].
  - destruct (IH z eq_refl) as [Hz Ha].
    destruct ((address y =? a) && (priority y <=? priority z)) eqn:Hc; simplify_eq.
    + apply andb_true_iff in Hc as [Hc%Z.eqb_eq _]. split; [by left|done].
    + split; [by right|done].
  - destruct (address y =? a) eqn:Hc; simplify_eq. apply Z.eqb_eq in Hc. split; [by left|done].
Qed.

Lemma selects_next_wait a l x : selects a l x -> next_wait a l = Some x.
Proof.
  intros (l1 & l2 & -> & Ha & H1 & H2). induction l1 as [|y l1 IH]; cbn [app next_wait].
  - destruct (next_wait a l2) as [z|] eqn:Hz.
    + apply next_wait_elem in Hz as [Hz Hza]. specialize (H2 z Hz Hza).
      replace (address x =? a) with true by (symmetry; by apply Z.eqb_eq). cbn.
      replace (priority x <=? priority z) with true by (symmetry; by apply Z.leb_le). done.
    + by replace (address x =? a) with true by (symmetry; by apply Z.eqb_eq).
  - rewrite IH by (intros z Hz; apply H1; by right).
    destruct (address y =? a) eqn:Hy; [|done]. apply Z.eqb_eq in Hy. cbn.
    specialize (H1 y ltac:(by left) Hy).
    replace (priority y <=? priority x) with false by (symmetry; apply Z.leb_gt; lia). done.
Qed.

Lemma next_wait_selects a l x : next_wait a l = Some x -> selects a l x.
Proof.
  revert x. induction l as [|y l IH]; cbn; intros x H; [done|].
  destruct (next_wait a l) as [z|] eqn:Hz.
  - destruct (IH z eq_refl) as (l1 & l2 & -> & Hza & H1 & H2).
    destruct ((address y =? a) && (priority y <=? priority z)) eqn:Hc; simplify_eq.
    + apply andb_true_iff in Hc as [Hc%Z.eqb_eq Hle%Z.leb_le]. exists [], (l1 ++ z :: l2).
      split; [done|]. split; [done|]. split; [intros u Hu; by apply not_elem_of_nil in Hu|].
      intros u Hu Hua. apply elem_of_app in Hu as [Hu|Hu].
      * specialize (H1 u Hu Hua). lia.
      * apply elem_of_cons in Hu as [->|Hu]; [done|]. specialize (H2 u Hu Hua). lia.
    + exists (y :: l1), l2. split; [done|]. split; [done|]. split; [|done].
      intros u Hu Hua. apply elem_of_cons in Hu as [->|Hu]; [|by apply H1].
      apply andb_false_iff in Hc as [Hc|Hc]; [apply Z.eqb_neq in Hc; done|].
      apply Z.leb_gt in Hc. lia.
  - destruct (address y =? a) eqn:Hc; simplify_eq. apply Z.eqb_eq in Hc.
    exists [], l. split; [done|]. split; [done|]. split; [intros u Hu; by apply not_elem_of_nil in Hu|].
    intros u Hu Hua. exfalso. clear -Hz Hu Hua. induction l as [|v l IH]; [by apply not_elem_of_nil in Hu|].
    cbn in Hz. destruct (next_wait a l); [by case_match|].
    apply elem_of_cons in Hu as [->|Hu]; [|apply IH; [by destruct (address v =? a)|done]].
    by rewrite Hua, Z.eqb_refl in Hz.
Qed.

(** The first element a filter keeps. *)
Lemma filter_head {A} (P : A -> Prop) `{!forall x, Decision (P x)} (l : list A) x r :
  filter P l = x :: r ->
  exists l1 l2, l = l1 ++ x :: l2 /\ P x /\ (forall y, y ∈ l1 -> ~ P y) /\ r = filter P l2.
Proof.
  induction l as [|y l IH]; [done|]. rewrite filter_cons. case_decide as Hy.
  - intros Heq. injection Heq as -> <-. exists [], l. split; [done|]. split; [done|]. split; [|done].
    intros z Hz. by apply not_elem_of_nil in Hz.
  - intros (l1 & l2 & -> & Hx & Hl1 & Hr)%IH. exists (y :: l1), l2. split; [done|].
    split; [done|]. split; [|done]. intros z Hz. apply elem_of_cons in Hz as [->|Hz]; auto.
Qed.

Lemma filter_drop_all {A} (P : A -> Prop) `{!forall x, Decision (P x)} (l : list A) :
  (forall y, y ∈ l -> ~ P y) -> filter P l = [].
Proof.
  induction l as [|x l IH]; intros Hnone; [done|]. rewrite filter_cons.
  case_decide as Hx; [exfalso; by apply (Hnone x); [left|]|].
  apply IH. intros y Hy. apply Hnone. by right.
Qed.

Lemma without_notin t l : t ∉ thread <$> l -> without t l = l.
Proof.
  unfold without. induction l as [|x l IH]; [done|]. rewrite fmap_cons, not_elem_of_cons.
  intros [Hx Hl]. rewrite filter_cons, IH by done. by case_decide; [|congruence].
Qed.

Lemma without_cut t l1 x l2 :
  NoDup (thread <$> l1 ++ x :: l2) -> thread x = t -> without t (l1 ++ x :: l2) = l1 ++ l2.
Proof.
  intros Hnd <-. rewrite fmap_app, fmap_cons in Hnd. unfold without. rewrite filter_app, filter_cons.
  apply NoDup_app in Hnd as (_ & Hd & Hnd). apply NoDup_cons in Hnd as [Hx _].
  case_decide; [congruence|]. f_equal; apply without_notin; [|done].
  intros Hin. apply (Hd _ Hin). by left.
Qed.

(** The least-priority queue of an address starts with the selected wait. *)
Lemma first_selects qs pos ds l a m p w r :
  tables qs pos ds l -> qs !! a = Some m -> first_entry m = Some (p, w :: r) ->
  exists x, next_wait a l = Some x /\ x ∈ l /\ w = waiter_of x /\ address x = a /\ priority x = p
    /\ r = expected (without (thread x) l) a p.
Proof.
  intros [Ht Hb Hp Hd Hn] Hm Hfirst. apply first_entry_spec in Hfirst as [Hmp Hmin].
  assert (Hw : expected l a p = w :: r) by (rewrite <- Hb; unfold bucket; rewrite Hm; cbn; by rewrite Hmp).
  unfold expected in Hw. destruct (filter (at_queue a p) l) as [|x r'] eqn:Hf; [done|].
  rewrite fmap_cons in Hw. injection Hw as Hwx Hr.
  apply filter_head in Hf as (l1 & l2 & Hl & [Hxa Hxp] & Hl1 & Hr'). exists x.
  assert (Hge : forall y, y ∈ l -> address y = a -> p <= priority y).
  { intros y Hy Hya. apply Hmin.
    assert (Hin : waiter_of y ∈ expected l a (priority y))
      by (apply list_elem_of_fmap_2, list_elem_of_filter; done).
    rewrite <- Hb in Hin. unfold bucket in Hin. rewrite Hm in Hin. cbn in Hin.
    destruct (m !! priority y); [by eexists|]. by apply not_elem_of_nil in Hin. }
  assert (Hin : x ∈ l) by (subst l; rewrite elem_of_app; right; by left).
  split; [|split; [done|split; [done|split; [done|split; [done|]]]]].
  - apply selects_next_wait. exists l1, l2. split; [done|]. split; [done|]. split.
    + intros y Hy Hya. specialize (Hge y ltac:(subst l; rewrite elem_of_app; by left) Hya).
      assert (priority y <> p) by (intros He; by apply (Hl1 y Hy)). lia.
    + intros y Hy Hya. rewrite Hxp. apply Hge; [|done]. subst l. rewrite elem_of_app. right. by right.
  - subst l. rewrite (without_cut _ l1 x l2) by done. unfold expected. rewrite filter_app, <- Hr, Hr'.
    by rewrite (filter_drop_all _ l1).
Qed.

(** * The priority wait queue implements its specification

    One lemma per method of [PriorityAddressWaitQueue]: from related states it
    returns, without panicking, what the list specification returns, and leaves
    related states.  The command language at the end composes them into the
    refinement theorem for arbitrary histories. *)

(** ** Events *)

Lemma events_finish h s x r :
  events_ok h s -> x ∈ active s -> NoDup (thread <$> active s) ->
  exists h', signal (E := Empty_set) (event x) h = (Ok tt, h') /\ events_ok h' (finish x r s).
Proof.
  intros [Hwf Hnext Hfired Hact Hnd] Hx Hth. destruct (Hact x Hx) as [Ha Hnf].
  destruct (signal_ok (E := Empty_set) h (event x) Hwf Ha) as (h' & Hs & Hwf' & Hnext' & [Ea Ef Et]).
  exists h'. split; [done|]. split; cbn; [done|congruence| | |by apply without_nodup].
  - intros id. rewrite elem_of_union, elem_of_singleton.
    destruct (decide (id = event x)) as [->|Hne]; [rewrite Et by done; tauto|].
    rewrite Ef, Hfired by done. tauto.
  - intros y [Hne Hy]%elem_of_without. destruct (Hact y Hy) as [Hya Hyf]. split; [by apply Ea|].
    rewrite not_elem_of_union, not_elem_of_singleton. split; [|done].
    intros He. apply Hne. by rewrite (nodup_key event (active s) y x).
Qed.

#[local] Opaque create_pair signal.

(** ** Removing an active wait *)

Lemma find_delete {A} (P : A -> Prop) `{!forall x, Decision (P x)} (q1 : list A) y q2 :
  (forall z, z ∈ q1 -> ~ P z) -> P y ->
  list_find P (q1 ++ y :: q2) = Some (length q1, y) /\ delete (length q1) (q1 ++ y :: q2) = q1 ++ q2.
Proof.
  intros Hq Hy. split; [|apply delete_middle]. apply list_find_Some.
  split; [by rewrite list_lookup_middle|]. split; [done|].
  intros j z Hj Hlt. rewrite lookup_app_l in Hj by done. apply Hq. by eapply list_elem_of_lookup_2.
Qed.

Lemma find_expected l x :
  NoDup (thread <$> l) -> x ∈ l ->
  exists i, list_find (fun w => waiter_thread w = thread x) (expected l (address x) (priority x))
            = Some (i, waiter_of x)
    /\ delete i (expected l (address x) (priority x))
       = expected (without (thread x) l) (address x) (priority x).
Proof.
  intros Hnd Hx. apply list_elem_of_split in Hx as (l1 & l2 & ->).
  rewrite (without_cut _ l1 x l2) by done. unfold expected.
  rewrite !filter_app, filter_cons, !fmap_app. rewrite decide_True by done. rewrite fmap_cons.
  eexists. apply find_delete; [|done].
  intros w (y & -> & [_ Hy]%list_elem_of_filter)%list_elem_of_fmap. cbn.
  rewrite fmap_app in Hnd. apply NoDup_app in Hnd as (_ & Hd & _).
  intros He. apply (Hd (thread y)); [by apply list_elem_of_fmap_2|]. rewrite He. by left.
Qed.

Lemma remove_active_none h qs pos ds c l t :
  tables qs pos ds l -> t ∉ thread <$> l ->
  remove_active t (mkWorld h (mkQueue qs pos ds c)) = (Ok None, mkWorld h (mkQueue qs pos ds c)).
Proof.
  intros HT Ht. unfold remove_active, bind, get. cbn.
  destruct (pos !! t) as [[a p]|] eqn:Hp; [|done].
  apply (tables_position _ _ _ _ HT) in Hp as (x & Hx & <- & _).
  exfalso. apply Ht. by apply list_elem_of_fmap_2.
Qed.

Lemma tables_lookup qs pos ds l x :
  tables qs pos ds l -> x ∈ l -> pos !! thread x = Some (address x, priority x).
Proof. intros HT Hx. apply (tables_position _ _ _ _ HT). eauto. Qed.

Lemma remove_active_some h qs pos ds c l x :
  tables qs pos ds l -> x ∈ l ->
  exists qs', remove_active (thread x) (mkWorld h (mkQueue qs pos ds c))
    = (Ok (Some (waiter_of x)),
       mkWorld h (mkQueue qs' (delete (thread x) pos) (remove_deadline (deadline x) (thread x) ds) c))
    /\ tables qs' (delete (thread x) pos) (remove_deadline (deadline x) (thread x) ds)
         (without (thread x) l).
Proof.
  intros HT Hx. destruct (tables_find _ _ _ _ _ HT Hx) as (m & Hm & Hq & _).
  destruct (find_expected l x (tables_nodup _ _ _ _ HT) Hx) as (i & Hf & Hdel).
  unfold remove_active, bind, get. cbn. rewrite (tables_lookup _ _ _ _ _ HT Hx). cbn.
  rewrite Hm. cbn. rewrite Hq. cbn. rewrite Hf. cbn. rewrite Hdel.
  eexists. split; [reflexivity|]. by apply tables_remove.
Qed.

(** ** Completing a removed wait *)

Lemma deadline_gone qs pos ds l x :
  tables qs pos ds (without (thread x) l) -> remove_deadline (deadline x) (thread x) ds = ds.
Proof.
  intros HT. unfold remove_deadline. destruct (deadline x) as [d|]; [|done].
  apply leibniz_equiv. intros [d' t']. rewrite elem_of_difference, elem_of_singleton.
  split; [tauto|]. intros Hin. split; [done|]. intros [= -> ->].
  apply (tables_deadline _ _ _ _ HT) in Hin as (y & [Hne _]%elem_of_without & He & _). done.
Qed.

(** [complete] on a wait taken out of the queues, whether its deadline has been
    dropped already ([remove_active]) or not ([signal]). *)
Lemma complete_refines h qs pos ds ds' c s x r :
  events_ok h s -> c = results s -> x ∈ active s -> NoDup (thread <$> active s) ->
  (forall y, y ∈ active s -> results s !! thread y = None) ->
  remove_deadline (deadline x) (thread x) ds = ds' ->
  tables qs pos ds' (without (thread x) (active s)) ->
  exists w', complete (waiter_of x) r (mkWorld h (mkQueue qs pos ds c)) = (Ok tt, w')
    /\ refines w' (finish x r s) /\ deadlines (world_queue w') = ds'.
Proof.
  intros HE -> Hx Hnd Hdis Hds HT.
  destruct (events_finish h s x r HE Hx Hnd) as (h' & Hsig & HE').
  unfold complete, bind, get, on_events, set_deadlines, set_completed, update_queue, modify. cbn.
  rewrite Hsig, Hds. eexists. split; [reflexivity|]. split; [|done].
  split; cbn; [done|done| |done].
  intros y [Hne Hy]%elem_of_without. rewrite lookup_insert_ne by done. by apply Hdis.
Qed.

#[local] Opaque complete remove_active.

(** ** The methods *)

Lemma enqueue_refines w s a t p d :
  refines w s ->
  exists w', enqueue a t p d w = (Ok (spec_enqueue a t p d s).1, w')
    /\ refines w' (spec_enqueue a t p d s).2.
Proof.
  intros HR. destruct w as [h [qs pos ds c]]. pose proof HR as [HT Hc Hdis HE]. cbn in *. subst c.
  assert (Hcont : contains t (mkQueue qs pos ds (results s)) = pending t s).
  { unfold contains, pending. cbn. f_equal. apply bool_decide_ext. split.
    - intros [[a' p'] Hp]. apply (tables_position _ _ _ _ HT) in Hp as (x & Hx & <- & _).
      by apply list_elem_of_fmap_2.
    - intros (x & -> & Hx)%list_elem_of_fmap. rewrite (tables_lookup _ _ _ _ _ HT Hx). by eexists. }
  unfold enqueue, bind, get, spec_enqueue. cbn. rewrite Hcont.
  destruct (pending t s) eqn:Hpend; [by eexists|].
  apply orb_false_iff in Hpend as [Hn%bool_decide_eq_false Hr%bool_decide_eq_false].
  destruct HE as [Hwf Hnext Hfired Hact Hnd].
  destruct (create_pair_ok (E := Empty_set) h Hwf) as (h' & Hp & Hwf' & Hnext' & Hfresh & Hal & Hsig & [Ea Ef Et]).
  unfold on_events. cbn. rewrite Hp. cbn. rewrite Hnext in *. eexists. split; [reflexivity|].
  split; cbn.
  - apply (tables_push _ _ _ _ (mkWait t a p d (next_event s))); done.
  - done.
  - intros x Hx. apply elem_of_app in Hx as [Hx|Hx%list_elem_of_singleton]; [by apply Hdis|].
    subst x. cbn. destruct (results s !! t); [|done]. exfalso. apply Hr. by eexists.
  - split; cbn; [done|done| | |].
    + intros id. rewrite Ef by tauto. apply Hfired.
    + intros x Hx. apply elem_of_app in Hx as [Hx|Hx%list_elem_of_singleton].
      * destruct (Hact x Hx). auto.
      * subst x. cbn. split; [done|]. rewrite <- Hfired, <- Ef, Hsig by tauto. done.
    + rewrite fmap_app. apply NoDup_app. split; [done|]. split; [|apply NoDup_singleton].
      intros e (x & -> & Hx)%list_elem_of_fmap He%list_elem_of_singleton. cbn in He.
      apply Hfresh. rewrite <- He. by apply Hact.
Qed.

Lemma take_result_refines w s t :
  refines w s ->
  exists w', take_result t w = (Ok (spec_take_result t s).1, w')
    /\ refines w' (spec_take_result t s).2.
Proof.
  intros HR. destruct w as [h [qs pos ds c]]. pose proof HR as [HT Hc Hdis HE]. cbn in *. subst c.
  eexists. split; [reflexivity|]. split; cbn; [done|done| |].
  - intros x Hx. apply lookup_delete_None. right. by apply Hdis.
  - by destruct HE; split.
Qed.

Lemma signal_one_refines w s a :
  refines w s ->
  match next_wait a (active s) with
  | None => signal_one a w = (Ok false, w)
  | Some x => exists w', signal_one a w = (Ok true, w') /\ refines w' (finish x WaitSignalled s)
  end.
Proof.
  intros HR. destruct w as [h [qs pos ds c]]. pose proof HR as [HT Hc Hdis HE]. cbn in *.
  unfold signal_one, bind, get. cbn. destruct (qs !! a) as [m|] eqn:Hm.
  - destruct (tables_tight _ _ _ _ HT a m Hm) as [Hne Hne'].
    destruct (first_entry_some m Hne) as (p & q & Hfirst).
    pose proof (first_entry_spec _ _ _ Hfirst) as [Hq _].
    destruct q as [|wt rest]; [by apply Hne' in Hq|].
    destruct (first_selects _ _ _ _ _ _ _ _ _ HT Hm Hfirst)
      as (x & Hnx & Hx & -> & <- & <- & ->).
    rewrite Hnx, Hfirst. cbn.
    destruct (complete_refines h
      (store_bucket (address x) (priority x)
         (expected (without (thread x) (active s)) (address x) (priority x)) m qs)
      (delete (thread x) pos) ds _ c s x WaitSignalled HE Hc Hx (tables_nodup _ _ _ _ HT) Hdis eq_refl)
      as (w' & Hcomp & HR' & _); [by apply tables_remove|].
    exists w'. split; [|done]. by rewrite Hcomp.
  - rewrite next_wait_none; [done|]. intros y Hy Hya.
    destruct (tables_find _ _ _ _ _ HT Hy) as (m & Hm' & _). congruence.
Qed.

Lemma length_without t l : t ∈ thread <$> l -> (length (without t l) < length l)%nat.
Proof.
  intros (x & -> & Hx)%list_elem_of_fmap. unfold without.
  apply (length_filter_lt _ l x); [done|]. intros Hne. by apply Hne.
Qed.

Lemma spec_signal_loop_cap a n m s :
  (length (active s) <= n)%nat -> (length (active s) <= m)%nat ->
  spec_signal_loop n a s = spec_signal_loop m a s.
Proof.
  revert m s. induction n as [|n IH]; intros m s Hn Hm; destruct m as [|m]; try done; cbn.
  - by destruct (active s) eqn:Ha; [|cbn in Hn; lia].
  - by destruct (active s) eqn:Ha; [|cbn in Hm; lia].
  - destruct (next_wait a (active s)) as [x|] eqn:Hx; [|done].
    apply next_wait_elem in Hx as [Hx _].
    pose proof (length_without (thread x) (active s) ltac:(by apply list_elem_of_fmap_2)).
    apply IH; cbn; lia.
Qed.

Lemma loop_signal_refines a n w s :
  refines w s ->
  exists w', (loop_nat (signal_turn a) n w = inl w' \/ loop_nat (signal_turn a) n w = inr (Ok tt, w'))
    /\ refines w' (spec_signal_loop n a s).
Proof.
  revert w s. induction n as [|n IH]; intros w s HR; cbn; [eauto|].
  pose proof (signal_one_refines w s a HR) as Hone. unfold signal_turn at 1 3.
  destruct (next_wait a (active s)) as [x|].
  - destruct Hone as (w1 & Hone & HR1). rewrite Hone. cbn. by apply IH.
  - rewrite Hone. cbn. eauto.
Qed.

Lemma signal_refines w s a count :
  0 <= count -> refines w s ->
  exists w', signal_waiters a count w = (Ok tt, w') /\ refines w' (spec_signal a count s).
Proof.
  intros Hc HR. unfold signal_waiters, spec_signal. destruct count as [|n|]; [| |lia].
  { exists w. split; [done|]. rewrite Z.min_l by lia. done. }
  rewrite loop_is_loop_nat.
  assert (Hcap : spec_signal_loop (Z.to_nat (Z.min (Z.pos n) (Z.of_nat (length (active s))))) a s
                 = spec_signal_loop (Pos.to_nat n) a s).
  { destruct (Z.le_ge_cases (Z.pos n) (Z.of_nat (length (active s)))).
    - by rewrite Z.min_l by done.
    - apply spec_signal_loop_cap; lia. }
  rewrite Hcap. destruct (loop_signal_refines a (Pos.to_nat n) w s HR) as (w' & [->| ->] & HR'); eauto.
Qed.

(** *** Expiry *)

Lemma filter_keep_all {A} (P : A -> Prop) `{!forall x, Decision (P x)} (l : list A) :
  (forall y, y ∈ l -> P y) -> filter P l = l.
Proof.
  induction l as [|x l IH]; intros Hall; [done|]. rewrite filter_cons.
  rewrite decide_True by (apply Hall; by left). f_equal. apply IH. intros y Hy. apply Hall. by right.
Qed.

Lemma time_out_lookup l m t :
  time_out l m !! t = if decide (t ∈ thread <$> l) then Some WaitTimedOut else m !! t.
Proof.
  induction l as [|x l IH]; [done|]. cbn [time_out foldr]. rewrite fmap_cons.
  destruct (decide (t = thread x)) as [->|Hne].
  - rewrite lookup_insert_eq, decide_True by by left. done.
  - rewrite lookup_insert_ne by done. unfold time_out in IH. rewrite IH.
    apply decide_ext. rewrite elem_of_cons. tauto.
Qed.

Lemma spec_expire_idle now s :
  (forall x, x ∈ active s -> ~ overdue now x) -> spec_expire now s = s.
Proof.
  intros Hno. unfold spec_expire. rewrite (filter_drop_all (overdue now)) by done.
  rewrite filter_keep_all by done. cbn. destruct s as [l r f n]. cbn. f_equal. set_solver.
Qed.

Lemma spec_expire_finish now s x :
  x ∈ active s -> overdue now x -> NoDup (thread <$> active s) ->
  spec_expire now (finish x WaitTimedOut s) = spec_expire now s.
Proof.
  intros Hx Ho Hnd. unfold spec_expire, finish. destruct s as [l r f n].
  cbn [active results fired next_event] in *.
  assert (Hlate : forall y, y ∈ filter (overdue now) (without (thread x) l)
    <-> y <> x /\ y ∈ filter (overdue now) l).
  { intros y. rewrite !list_elem_of_filter, elem_of_without. split.
    - intros (? & Hne & ?). split; [|done]. intros ->. done.
    - intros (Hne & ? & ?). split; [done|]. split; [|done]. intros He. apply Hne.
      by apply (nodup_key thread l). }
  f_equal.
  - unfold without. rewrite list_filter_filter. apply filter_ext_in. intros y Hy.
    split; [tauto|]. intros Hno. split; [done|]. intros He.
    rewrite (nodup_key thread l y x) in Hno; done.
  - apply map_eq. intros t. rewrite !time_out_lookup.
    assert (Hin : t ∈ thread <$> filter (overdue now) l
      <-> t = thread x \/ t ∈ thread <$> filter (overdue now) (without (thread x) l)).
    { rewrite !list_elem_of_fmap. setoid_rewrite Hlate. split.
      - intros (y & -> & Hy). destruct (decide (thread y = thread x)); [by left|].
        right. exists y. split; [done|]. split; [congruence|done].
      - intros [->|(y & -> & _ & Hy)]; [|by exists y]. exists x. split; [done|].
        by apply list_elem_of_filter. }
    destruct (decide (t = thread x)) as [->|Hne].
    + rewrite lookup_insert_eq, (decide_True (P := _ ∈ thread <$> filter (overdue now) l)) by (apply Hin; by left).
      by case_decide.
    + rewrite lookup_insert_ne by done. apply decide_ext. rewrite Hin. tauto.
  - apply leibniz_equiv. intros e. rewrite !elem_of_union, elem_of_singleton, !elem_of_list_to_set.
    rewrite !list_elem_of_fmap. setoid_rewrite Hlate. split.
    + intros [(y & -> & _ & Hy)|[->|?]]; [by left; exists y| |by right].
      left. exists x. split; [done|]. by apply list_elem_of_filter.
    + intros [(y & -> & Hy)|?]; [|tauto]. destruct (decide (event y = event x)); [tauto|].
      left. exists y. split; [done|]. split; [congruence|done].
Qed.

(** Nothing is overdue when the first deadline is not. *)
Lemma none_overdue now qs pos ds l :
  tables qs pos ds l -> (forall d t, pairs_first ds = Some (d, t) -> now < d) ->
  forall x, x ∈ l -> ~ overdue now x.
Proof.
  intros HT Hfirst x Hx. unfold overdue. destruct (deadline x) as [dx|] eqn:Hd; [|tauto].
  assert (Hin : (dx, thread x) ∈ ds) by (apply (tables_deadline _ _ _ _ HT); eauto).
  destruct (pairs_first ds) as [[d t]|] eqn:Hp.
  - specialize (Hfirst d t eq_refl). apply pairs_first_spec in Hp as [_ Hmin].
    destruct (Hmin _ Hin) as [|[]]; cbn in *; lia.
  - apply pairs_first_none in Hp. subst ds. by apply not_elem_of_empty in Hin.
Qed.

(** One turn: the owner of an overdue first deadline is removed and completed. *)
Lemma expire_turn_refines w s d t :
  refines w s -> pairs_first (deadlines (world_queue w)) = Some (d, t) ->
  exists x w1 w2, x ∈ active s /\ thread x = t /\ deadline x = Some d
    /\ remove_active t w = (Ok (Some (waiter_of x)), w1)
    /\ complete (waiter_of x) WaitTimedOut w1 = (Ok tt, w2)
    /\ refines w2 (finish x WaitTimedOut s)
    /\ (size (deadlines (world_queue w2)) < size (deadlines (world_queue w)))%nat.
Proof.
  intros HR Hp. destruct w as [h [qs pos ds c]]. pose proof HR as [HT Hc Hdis HE]. cbn in *.
  apply pairs_first_spec in Hp as [Hin _].
  pose proof Hin as Hx. apply (tables_deadline _ _ _ _ HT) in Hx as (x & Hx & <- & Hd).
  destruct (remove_active_some h _ _ _ c _ _ HT Hx) as (qs' & Hrem & HT').
  destruct (complete_refines h qs' (delete (thread x) pos)
    (remove_deadline (deadline x) (thread x) ds) _ c s x WaitTimedOut
    HE Hc Hx (tables_nodup _ _ _ _ HT) Hdis (deadline_gone _ _ _ _ _ HT') HT')
    as (w2 & Hcomp & HR2 & Hds).
  exists x. eexists. exists w2. split; [done|]. split; [done|]. split; [done|].
  split; [exact Hrem|]. split; [exact Hcomp|]. split; [done|].
  rewrite Hds. unfold remove_deadline. rewrite Hd.
  rewrite size_difference by set_solver. rewrite size_singleton.
  assert (size ds <> 0)%nat; [|lia]. intros Hz%size_empty_inv. set_solver.
Qed.

Lemma expire_loop_refines fuel now w s :
  refines w s -> (size (deadlines (world_queue w)) <= fuel)%nat ->
  exists w', expire_loop fuel now w = (Ok tt, w') /\ refines w' (spec_expire now s).
Proof.
  revert w s. induction fuel as [|fuel IH]; intros w s HR Hsize; pose proof HR as [HT _ _ _];
    cbn [expire_loop]; unfold bind at 1; cbn [get];
    (destruct (pairs_first (deadlines (world_queue w))) as [[d t]|] eqn:Hfirst;
     [destruct (now <? d) eqn:Hd|]);
    try (exists w; split; [done|]; rewrite spec_expire_idle; [done|];
         eapply none_overdue; [done|]; intros d' t' Hf; rewrite Hfirst in Hf; simplify_eq;
         by apply Z.ltb_lt).
  - apply pairs_first_spec in Hfirst as [Hin _]. exfalso.
    assert (Hz : size (deadlines (world_queue w)) = 0%nat) by lia.
    apply size_empty_inv in Hz. set_solver.
  - destruct (expire_turn_refines w s d t HR Hfirst)
      as (x & w1 & w2 & Hx & <- & Hdl & Hrem & Hcomp & HR2 & Hlt).
    unfold bind. rewrite Hrem. cbn [expect ret]. rewrite Hcomp.
    destruct (IH w2 _ HR2 ltac:(lia)) as (w3 & Hloop & HR3). exists w3. split; [done|].
    rewrite spec_expire_finish in HR3; [done|done| |by apply (tables_nodup _ _ _ _ HT)].
    unfold overdue. rewrite Hdl. by apply Z.ltb_ge.
Qed.

Lemma expire_refines now w s :
  refines w s -> exists w', expire now w = (Ok tt, w') /\ refines w' (spec_expire now s).
Proof. intros HR. by apply expire_loop_refines. Qed.

(** *** Priority changes and removal *)

Lemma find_active l t :
  match list_find (fun x => thread x = t) l with
  | Some (_, x) => x ∈ l /\ thread x = t
  | None => t ∉ thread <$> l
  end.
Proof.
  destruct (list_find _ l) as [[i x]|] eqn:Hf.
  - apply list_find_Some in Hf as (Hi & Ht & _). split; [by eapply list_elem_of_lookup_2|done].
  - intros (x & -> & Hx)%list_elem_of_fmap. apply list_find_None in Hf.
    by eapply Forall_forall in Hf.
Qed.

Lemma change_priority_refines w s t p :
  refines w s ->
  exists w', change_priority t p w = (Ok tt, w') /\ refines w' (spec_change_priority t p s)
    /\ world_events w' = world_events w.
Proof.
  intros HR. destruct w as [h [qs pos ds c]]. pose proof HR as [HT Hc Hdis HE]. cbn in *. subst c.
  unfold change_priority, spec_change_priority, bind, get. cbn.
  pose proof (find_active (active s) t) as Hf.
  destruct (list_find (fun x => thread x = t) (active s)) as [[i x]|].
  - destruct Hf as [Hx <-]. rewrite (tables_lookup _ _ _ _ _ HT Hx).
    destruct (priority x =? p); [eauto|].
    destruct (remove_active_some h _ _ _ (results s) _ _ HT Hx) as (qs' & Hrem & HT').
    rewrite Hrem. cbn. eexists. split; [reflexivity|]. split; [|done]. split; cbn; [|done| |].
    + apply (tables_push _ _ _ _ (mkWait (thread x) (address x) p (deadline x) (event x)));
        [done|]. cbn. intros (y & He & [Hne _]%elem_of_without)%list_elem_of_fmap. congruence.
    + intros y [Hy|Hy%list_elem_of_singleton]%elem_of_app; [|subst y; by apply (Hdis x)].
      apply elem_of_without in Hy as [_ Hy]. by apply Hdis.
    + destruct HE as [Hwf Hnext Hfired Hact Hnd]. split; cbn; [done|done|done| |].
      * intros y [Hy|Hy%list_elem_of_singleton]%elem_of_app; [|subst y; by apply (Hact x)].
        apply elem_of_without in Hy as [_ Hy]. by apply Hact.
      * rewrite fmap_app. apply NoDup_app. split; [by apply without_nodup|].
        split; [|apply NoDup_singleton].
        intros e (y & -> & [Hne Hy]%elem_of_without)%list_elem_of_fmap He%list_elem_of_singleton.
        apply Hne. by rewrite (nodup_key event (active s) y x).
  - destruct (pos !! t) as [[a q]|] eqn:Hp; [|eauto].
    apply (tables_position _ _ _ _ HT) in Hp as (x & Hx & <- & _).
    exfalso. apply Hf. by apply list_elem_of_fmap_2.
Qed.

Lemma remove_refines w s t :
  refines w s ->
  exists w', remove t w = (Ok tt, w') /\ refines w' (spec_remove t s) /\ world_events w' = world_events w.
Proof.
  intros HR. destruct w as [h [qs pos ds c]]. pose proof HR as [HT Hc Hdis HE]. cbn in *. subst c.
  assert (HE' : events_ok h (spec_remove t s)).
  { destruct HE as [Hwf Hnext Hfired Hact Hnd]. split; cbn; try done.
    - intros y [_ Hy]%elem_of_without. by apply Hact.
    - by apply without_nodup. }
  assert (Hdis' : forall y, y ∈ without t (active s) -> delete t (results s) !! thread y = None).
  { intros y [_ Hy]%elem_of_without. apply lookup_delete_None. right. by apply Hdis. }
  unfold remove, bind, get. destruct (decide (t ∈ thread <$> active s)) as [Hin|Hin].
  - apply list_elem_of_fmap in Hin as (x & -> & Hx).
    destruct (remove_active_some h _ _ _ (results s) _ _ HT Hx) as (qs' & Hrem & HT').
    rewrite Hrem. eexists. split; [reflexivity|]. by split.
  - rewrite (remove_active_none h _ _ _ (results s) _ _ HT Hin).
    eexists. split; [reflexivity|]. split; [|done]. split; cbn; [|done|done|done]. by rewrite without_notin.
Qed.

(** ** Queries *)

Lemma length_filter_split {A} (P Q : A -> Prop)
    `{!forall x, Decision (P x), !forall x, Decision (Q x)} (l : list A) :
  length (filter P l)
  = (length (filter (fun x => P x /\ Q x) l) + length (filter P (filter (fun x => ~ Q x) l)))%nat.
Proof.
  induction l as [|x l IH]; [done|]. rewrite !filter_cons.
  repeat case_decide; cbn [length]; rewrite ?filter_cons; repeat case_decide; cbn [length];
    try tauto; lia.
Qed.

(** The lengths of an address's queues add up to its waits. *)
Lemma queue_lengths a (m : gmap Z (list Waiter)) l :
  (forall p, default [] (m !! p) = expected l a p) ->
  map_fold (fun _ queue n => Z.of_nat (length queue) + n) 0 m
  = Z.of_nat (length (filter (fun x => address x = a) l)).
Proof.
  revert l. induction m as [|p q m Hp IH] using map_ind; intros l Hm.
  - rewrite map_fold_empty. rewrite filter_drop_all; [done|]. intros x Hx Ha.
    specialize (Hm (priority x)). rewrite lookup_empty in Hm. cbn in Hm.
    assert (Hin : waiter_of x ∈ expected l a (priority x))
      by (apply list_elem_of_fmap_2, list_elem_of_filter; done).
    rewrite <- Hm in Hin. by apply not_elem_of_nil in Hin.
  - rewrite map_fold_insert_L; [|intros; lia|done].
    rewrite (IH (filter (fun x => priority x <> p) l)).
    + pose proof (Hm p) as Hq. rewrite lookup_insert_eq in Hq. cbn in Hq. rewrite Hq.
      unfold expected. rewrite length_fmap.
      rewrite (length_filter_split (fun x => address x = a) (fun x => priority x = p) l).
      rewrite (filter_ext_in (at_queue a p) (fun x => address x = a /\ priority x = p) l) by done.
      rewrite Nat2Z.inj_add. done.
    + intros p'. unfold expected. rewrite list_filter_filter.
      destruct (decide (p' = p)) as [->|Hne].
      * rewrite Hp. rewrite filter_drop_all; [done|]. unfold at_queue. intros x _. tauto.
      * specialize (Hm p'). rewrite lookup_insert_ne in Hm by done. rewrite Hm. unfold expected.
        f_equal. apply filter_ext_in. unfold at_queue. intros x _. naive_solver.
Qed.

Definition spec_waiting_count (a : Z) (s : WaitSpec) : Z :=
  Z.of_nat (length (filter (fun x => address x = a) (active s))).

Lemma waiting_count_refines w s a :
  refines w s -> waiting_count a (world_queue w) = spec_waiting_count a s.
Proof.
  intros [HT _ _ _]. unfold waiting_count, spec_waiting_count.
  pose proof (tables_bucket _ _ _ _ HT a) as Hb. unfold bucket in Hb.
  destruct (queues (world_queue w) !! a) as [m|]; [by apply queue_lengths|].
  symmetry in Hb. rewrite <- (queue_lengths a ∅ (active s)); [done|].
  intros p. rewrite lookup_empty. cbn in *. congruence.
Qed.

Definition spec_len (s : WaitSpec) : Z :=
  Z.of_nat (length (active s)) + Z.of_nat (size (results s)).

Lemma len_refines w s : refines w s -> len (world_queue w) = spec_len s.
Proof.
  intros [HT Hc _ _]. unfold len, spec_len. rewrite Hc. f_equal. f_equal.
  rewrite <- size_dom.
  assert (Hd : dom (positions (world_queue w)) = list_to_set (C := gset Z) (thread <$> active s)).
  { apply leibniz_equiv. intros t. rewrite elem_of_dom, elem_of_list_to_set, list_elem_of_fmap. split.
    - intros [[a p] Hp]. apply (tables_position _ _ _ _ HT) in Hp as (x & Hx & <- & _). eauto.
    - intros (x & -> & Hx). rewrite (tables_lookup _ _ _ _ _ HT Hx). by eexists. }
  rewrite Hd, size_list_to_set by apply (tables_nodup _ _ _ _ HT). by rewrite length_fmap.
Qed.

Lemma contains_refines w s t : refines w s -> contains t (world_queue w) = pending t s.
Proof.
  intros [HT Hc _ _]. unfold contains, pending. rewrite Hc. f_equal. apply bool_decide_ext. split.
  - intros [[a' p'] Hp]. apply (tables_position _ _ _ _ HT) in Hp as (x & Hx & <- & _).
    by apply list_elem_of_fmap_2.
  - intros (x & -> & Hx)%list_elem_of_fmap. rewrite (tables_lookup _ _ _ _ _ HT Hx). by eexists.
Qed.

(** ** Histories *)

Inductive Command : Type :=
| Enqueue (a t p : Z) (d : option Z)
| TakeResult (t : Z)
| Signal (a count : Z)
| Expire (now : Z)
| ChangePriority (t p : Z)
| Remove (t : Z)
| Contains (t : Z)
| WaitingCount (a : Z)
| Len.

Inductive Reply : Type :=
| Event (e : option EventId)
| Taken (r : option AddressWaitResult)
| Done
| Found (b : bool)
| Count (n : Z).

Definition apply_command (c : Command) : M Reply :=
  match c with
  | Enqueue a t p d => let! e := enqueue a t p d in ret (Event e)
  | TakeResult t => let! r := take_result t in ret (Taken r)
  | Signal a count => do! signal_waiters a count in ret Done
  | Expire now => do! expire now in ret Done
  | ChangePriority t p => do! change_priority t p in ret Done
  | Remove t => do! remove t in ret Done
  | Contains t => let! w := get in ret (Found (contains t (world_queue w)))
  | WaitingCount a => let! w := get in ret (Count (waiting_count a (world_queue w)))
  | Len => let! w := get in ret (Count (len (world_queue w)))
  end.

Definition spec_command (c : Command) (s : WaitSpec) : Reply * WaitSpec :=
  match c with
  | Enqueue a t p d => let '(e, s') := spec_enqueue a t p d s in (Event e, s')
  | TakeResult t => let '(r, s') := spec_take_result t s in (Taken r, s')
  | Signal a count => (Done, spec_signal a count s)
  | Expire now => (Done, spec_expire now s)
  | ChangePriority t p => (Done, spec_change_priority t p s)
  | Remove t => (Done, spec_remove t s)
  | Contains t => (Found (pending t s), s)
  | WaitingCount a => (Count (spec_waiting_count a s), s)
  | Len => (Count (spec_len s), s)
  end.

(** The count of a signal is a [usize]. *)
Definition command_ok (c : Command) : Prop :=
  match c with Signal _ count => in_range 64 count | _ => True end.

Fixpoint run_commands (cs : list Command) : M (list Reply) :=
  match cs with
  | [] => ret []
  | c :: cs => let! r := apply_command c in let! rs := run_commands cs in ret (r :: rs)
  end.

Fixpoint spec_commands (cs : list Command) (s : WaitSpec) : list Reply * WaitSpec :=
  match cs with
  | [] => ([], s)
  | c :: cs =>
      let '(r, s1) := spec_command c s in
      let '(rs, s2) := spec_commands cs s1 in (r :: rs, s2)
  end.

Lemma command_refines c w s :
  command_ok c -> refines w s ->
  exists w', apply_command c w = (Ok (spec_command c s).1, w') /\ refines w' (spec_command c s).2.
Proof.
  intros Hok HR. destruct c; cbn [apply_command spec_command]; unfold bind, get.
  - destruct (enqueue_refines w s a t p d HR) as (w' & Hw & HR'). rewrite Hw.
    destruct (spec_enqueue a t p d s). eauto.
  - destruct (take_result_refines w s t HR) as (w' & Hw & HR'). rewrite Hw. eauto.
  - destruct (signal_refines w s a count ltac:(apply Hok) HR) as (w' & Hw & HR'). rewrite Hw. eauto.
  - destruct (expire_refines now w s HR) as (w' & Hw & HR'). rewrite Hw. eauto.
  - destruct (change_priority_refines w s t p HR) as (w' & Hw & HR' & _). rewrite Hw. eauto.
  - destruct (remove_refines w s t HR) as (w' & Hw & HR' & _). rewrite Hw. eauto.
  - rewrite (contains_refines w s t HR). eauto.
  - rewrite (waiting_count_refines w s a HR). eauto.
  - rewrite (len_refines w s HR). eauto.
Qed.

Lemma commands_refine cs w s :
  Forall command_ok cs -> refines w s ->
  exists w', run_commands cs w = (Ok (spec_commands cs s).1, w') /\ refines w' (spec_commands cs s).2.
Proof.
  revert w s. induction cs as [|c cs IH]; intros w s Hok HR; [eauto|].
  apply Forall_cons in Hok as [Hc Hok].
  destruct (command_refines c w s Hc HR) as (w1 & Hw1 & HR1). cbn. unfold bind. rewrite Hw1.
  destruct (spec_command c s) as [r s1]. cbn in *.
  destruct (IH w1 s1 Hok HR1) as (w2 & Hw2 & HR2). rewrite Hw2.
  destruct (spec_commands cs s1). eauto.
Qed.

Definition empty_spec : WaitSpec := mkSpec [] ∅ ∅ 0.

Lemma empty_refines : refines (mkWorld empty_heap empty_queue) empty_spec.
Proof.
  split; cbn; [|done| |].
  - split; cbn; [intros a m; by rewrite lookup_empty|done| | |constructor].
    + intros t a p. rewrite lookup_empty. split; [done|]. intros (x & Hx & _).
      by apply not_elem_of_nil in Hx.
    + intros d t. split; [set_solver|]. intros (x & Hx & _). by apply not_elem_of_nil in Hx.
  - intros x Hx. by apply not_elem_of_nil in Hx.
  - split; cbn; [|done| | |constructor].
    + intros id [e He]. cbn in He. by rewrite lookup_empty in He.
    + intros id. unfold event_signalled. cbn. rewrite lookup_empty. set_solver.
    + intros x Hx. by apply not_elem_of_nil in Hx.
Qed.

(** ** What the methods leave alone

    For the registry, which keeps other waits beside these: no event ceases to
    exist, no event is cleared, and an active wait has the event it had or a new
    one. *)

#[local] Transparent create_pair signal complete remove_active.

Definition keeps {A} (m : M A) : Prop :=
  forall w id, allocated (world_events w) id -> allocated (world_events (m w).2) id.

Lemma keeps_ret {A} (x : A) : keeps (ret x).
Proof. by intros w id. Qed.

Lemma keeps_get : keeps get.
Proof. by intros w id. Qed.

Lemma keeps_panic {A} : keeps (panic : M A).
Proof. by intros w id. Qed.

Lemma keeps_expect {A} (o : option A) : keeps (expect o).
Proof. by destruct o; intros w id. Qed.

Lemma keeps_update f : keeps (update_queue f).
Proof. by intros w id. Qed.

Lemma keeps_bind {A B} (m : M A) (f : A -> M B) : keeps m -> (forall x, keeps (f x)) -> keeps (bind m f).
Proof.
  intros Hm Hf w id Hid. unfold bind. specialize (Hm w id Hid).
  destruct (m w) as [[x|e|] w1]; cbn in *; [by apply Hf|done|done].
Qed.

Lemma keeps_create : keeps (on_events create_pair).
Proof. intros w id Hid. apply (lookup_insert_is_Some' (heap_events (world_events w))). by right. Qed.

Lemma keeps_signal e : keeps (on_events (signal e)).
Proof.
  intros w id Hid. unfold on_events, signal, deref, bind.
  destruct (heap_events (world_events w) !! e); [|done].
  apply (lookup_insert_is_Some' (heap_events (world_events w))). by right.
Qed.

#[local] Hint Resolve keeps_ret keeps_get keeps_panic keeps_expect keeps_update keeps_create keeps_signal : keeps.

(** Follows the shape of a method. *)
Ltac keeps_step :=
  match goal with
  | |- keeps (bind _ _) => apply keeps_bind; [|intros ?]
  | |- keeps (match ?x with _ => _ end) => destruct x
  | |- _ => solve [eauto with keeps]
  end.
Ltac keeps := repeat keeps_step.

Lemma keeps_enqueue a t p d : keeps (enqueue a t p d).
Proof. unfold enqueue, set_queues, set_positions, set_deadlines. keeps. Qed.

Lemma keeps_take_result t : keeps (take_result t).
Proof. unfold take_result, set_completed. keeps. Qed.

Lemma keeps_complete x r : keeps (complete x r).
Proof. unfold complete, set_deadlines, set_completed. keeps. Qed.

Lemma keeps_remove_active t : keeps (remove_active t).
Proof. unfold remove_active, set_queues, set_positions, set_deadlines. keeps. Qed.

#[local] Hint Resolve keeps_complete keeps_remove_active : keeps.

Lemma keeps_signal_one a : keeps (signal_one a).
Proof. unfold signal_one, set_queues, set_positions. keeps. Qed.

Lemma keeps_signal_waiters a count : keeps (signal_waiters a count).
Proof.
  intros w id Hid. unfold signal_waiters. destruct count as [|n|n]; [done| |done].
  rewrite loop_is_loop_nat. generalize (Pos.to_nat n). clear n. intros n. revert w Hid.
  induction n as [|n IH]; intros w Hid; [done|]. cbn.
  pose proof (keeps_signal_one a w id Hid) as Hone. unfold signal_turn.
  destruct (signal_one a w) as [[[]|e|] w1]; cbn in *; [by apply IH|done|done|done].
Qed.

Lemma keeps_expire now : keeps (expire now).
Proof.
  intros w. unfold expire. generalize (size (deadlines (world_queue w))). intros n. revert w.
  enough (keeps (expire_loop n now)) by done.
  induction n as [|n IH]; cbn; keeps; exact IH.
Qed.

Lemma keeps_change_priority t p : keeps (change_priority t p).
Proof. unfold change_priority, set_queues, set_positions, set_deadlines. keeps. Qed.

Lemma keeps_remove t : keeps (remove t).
Proof. unfold remove, set_completed. keeps. Qed.

#[local] Hint Resolve keeps_enqueue keeps_take_result keeps_signal_waiters keeps_expire
  keeps_change_priority keeps_remove : keeps.

Lemma keeps_command c : keeps (apply_command c).
Proof. destruct c; cbn; keeps. Qed.

(** A step of the specification sets events and adds at most one. *)
Record advances (s s' : WaitSpec) : Prop := {
  advances_fired : fired s ⊆ fired s';
  advances_active : forall x, x ∈ active s' ->
    (exists y, y ∈ active s /\ event y = event x) \/ event x = next_event s;
}.

Lemma advances_sub s l r f n :
  (forall x, x ∈ l -> x ∈ active s) -> fired s ⊆ f -> advances s (mkSpec l r f n).
Proof. intros Hl Hf. split; [done|]. intros x Hx%Hl. left. by exists x. Qed.

Lemma advances_signal n a s : advances s (spec_signal_loop n a s).
Proof.
  revert s. induction n as [|n IH]; intros s; cbn; [destruct s; by apply advances_sub|].
  destruct (next_wait a (active s)) as [x|]; [|destruct s; by apply advances_sub].
  destruct (IH (finish x WaitSignalled s)) as [Hf Ha]. cbn in Hf. split; [set_solver|].
  intros y Hy. destruct (Ha y Hy) as [(z & [_ Hz]%elem_of_without & He)|He]; [|by right].
  left. by exists z.
Qed.

Lemma spec_command_advances c s : advances s (spec_command c s).2.
Proof.
  assert (Hrefl : advances s s) by (destruct s; by apply advances_sub).
  destruct c; cbn; try done.
  - unfold spec_enqueue. destruct (pending t s); [done|]. split; [done|]. cbn.
    intros x [Hx| ->%list_elem_of_singleton]%elem_of_app; [left; by exists x|by right].
  - by apply advances_sub.
  - apply advances_signal.
  - apply advances_sub; [|set_solver]. by intros x [_ Hx]%list_elem_of_filter.
  - unfold spec_change_priority. pose proof (find_active (active s) t) as Hf.
    destruct (list_find _ _) as [[i x]|]; [|done]. case_match; [done|]. split; [done|]. cbn.
    intros y [[_ Hy]%elem_of_without| ->%list_elem_of_singleton]%elem_of_app; left; [by exists y|].
    exists x. cbn. split; [by destruct Hf|done].
  - apply advances_sub; [|done]. by intros x [_ Hx]%elem_of_without.
Qed.

(** Without one thread's wait the tables are the same tables without that
    thread's entries. *)
Lemma tables_without w w' s t :
  refines w s -> refines w' (spec_remove t s) ->
  let q := world_queue w in let q' := world_queue w' in
  positions q' = delete t (positions q) /\ completed q' = delete t (completed q)
  /\ deadlines q' = filter (fun e => e.2 <> t) (deadlines q)
  /\ forall a p, bucket (queues q') a p = filter (fun x => waiter_thread x <> t) (bucket (queues q) a p).
Proof.
  intros [[_ Hb Hp Hd _] Hc _ _] [[_ Hb' Hp' Hd' _] Hc' _ _]. cbn in *. split; [|split; [|split]].
  - apply map_eq. intros u. apply option_eq. intros [a p]. rewrite Hp'. setoid_rewrite elem_of_without.
    destruct (decide (u = t)) as [->|Hne]; [rewrite lookup_delete_eq; naive_solver|].
    rewrite lookup_delete_ne, Hp by done. naive_solver.
  - by rewrite Hc', Hc.
  - apply set_eq. intros [d u]. rewrite elem_of_filter, Hd', Hd. setoid_rewrite elem_of_without. naive_solver.
  - intros a p. rewrite Hb', Hb. unfold expected, without. clear. induction (active s) as [|x l IH]; [done|].
    destruct (decide (thread x <> t)) as [Ht|Ht], (decide (at_queue a p x)) as [Ha|Ha].
    + rewrite !(filter_cons_True _ x), !fmap_cons, filter_cons_True by done. by rewrite IH.
    + by rewrite (filter_cons_True _ x), !(filter_cons_False _ x) by done.
    + by rewrite (filter_cons_False _ x), (filter_cons_True _ x), fmap_cons, filter_cons_False by done.
    + by rewrite !(filter_cons_False _ x) by done.
Qed.

(** ** Claims *)

(** C15. The priority wait queue implements its list specification.  For every
    history of method calls on a fresh queue, the code returns, without
    panicking at any of its [expect]s and without looping in [expire], exactly
    the replies of the specification in which active waits form one list in
    order of arrival; the state it reaches is related to the specification's:
    the queues by address and priority, the positions and the deadlines describe
    the same waits, no queue is kept empty, and exactly the events of completed
    waits have been signalled. *)
Theorem priority_wait_refines cs :
  Forall command_ok cs ->
  exists w, run_commands cs (mkWorld empty_heap empty_queue) = (Ok (spec_commands cs empty_spec).1, w)
    /\ refines w (spec_commands cs empty_spec).2.
Proof. intros Hok. by apply commands_refine, empty_refines. Qed.

(** Signals by priority then arrival, a priority change, an expiry before a
    signal, a removed wait. *)
Definition sample_history : list Command :=
  [Enqueue 4096 1 40 None; Enqueue 4096 2 20 (Some 100); Enqueue 4096 3 20 None;
   Enqueue 4096 3 20 None; Enqueue 8192 4 7 (Some 10); Signal 4096 1; ChangePriority 1 10;
   Expire 10; Signal 4096 1; WaitingCount 4096; TakeResult 2; TakeResult 1; TakeResult 4;
   Remove 3; Signal 4096 18446744073709551615; Len].

Definition sample_replies : list Reply :=
  [Event (Some 0); Event (Some 1); Event (Some 2); Event None; Event (Some 3); Done; Done; Done;
   Done; Count 1; Taken (Some WaitSignalled); Taken (Some WaitSignalled);
   Taken (Some WaitTimedOut); Done; Done; Count 0].

Lemma priority_wait_refines_witness :
  exists w, run_commands sample_history (mkWorld empty_heap empty_queue) = (Ok sample_replies, w)
    /\ refines w (spec_commands sample_history empty_spec).2.
Proof.
  apply (priority_wait_refines sample_history).
  repeat constructor; vm_compute; discriminate.
Defined.

(** A signal wakes one wait, chosen by priority and then by arrival.  When a
    wait is active at the address, [signal(address, 1)] takes the wait whose
    priority is least there and which arrived (or was given that priority)
    first: no earlier wait of the address has a priority as low and no later one
    a lower priority.  That thread's result is [Signalled] and it is no longer
    queued, its event is set, and every other event, queued thread and result is
    as before. *)
Theorem signal_wakes_best w s a x :
  refines w s -> x ∈ active s -> address x = a ->
  exists w' y, signal_waiters a 1 w = (Ok tt, w') /\ selects a (active s) y
    /\ contains (thread y) (world_queue w') = true
    /\ positions (world_queue w') = delete (thread y) (positions (world_queue w))
    /\ completed (world_queue w') = <[thread y := WaitSignalled]> (completed (world_queue w))
    /\ (forall id, event_signalled (world_events w') id
                   = bool_decide (id = event y) || event_signalled (world_events w) id).
Proof.
  intros HR Hx Hxa. pose proof (signal_one_refines w s a HR) as Hone.
  destruct (next_wait a (active s)) as [y|] eqn:Hnext.
  - destruct Hone as (w' & Hone & HR'). exists w', y.
    apply next_wait_selects in Hnext as Hsel. apply next_wait_elem in Hnext as [Hy Hya].
    split; [unfold signal_waiters; cbn; unfold signal_turn; by rewrite Hone|]. split; [done|].
    pose proof (refines_results _ _ HR') as Hc'. pose proof (refines_results _ _ HR) as Hc.
    pose proof (events_fired _ _ (refines_events _ _ HR)) as Hf.
    pose proof (events_fired _ _ (refines_events _ _ HR')) as Hf'. cbn in Hc', Hf'.
    split.
    { unfold contains. rewrite Hc', lookup_insert_eq. apply orb_true_iff. right. done. }
    split; [|split; [by rewrite Hc', Hc|]].
    + apply map_eq. intros t. apply option_eq. intros [b p].
      rewrite (tables_position _ _ _ _ (refines_tables _ _ HR')). cbn.
      setoid_rewrite elem_of_without. destruct (decide (t = thread y)) as [->|Hne].
      * rewrite lookup_delete_eq. naive_solver.
      * rewrite lookup_delete_ne, (tables_position _ _ _ _ (refines_tables _ _ HR)) by done.
        apply exist_proper. naive_solver.
    + intros id. apply eq_bool_prop_intro. rewrite !Is_true_true, orb_true_iff, bool_decide_eq_true.
      rewrite Hf', Hf. set_solver.
  - exfalso. clear -Hnext Hx Hxa. revert Hnext Hx.
    induction (active s) as [|z l IH]; cbn; intros Hn Hx; [by apply not_elem_of_nil in Hx|].
    destruct (next_wait a l); [by case_match|].
    apply elem_of_cons in Hx as [->|Hx]; [by rewrite Hxa, Z.eqb_refl in Hn|].
    apply IH; [by destruct (address z =? a)|done].
Qed.

Lemma signal_wakes_best_witness :
  exists w w' y,
    run_commands [Enqueue 4096 1 40 None; Enqueue 4096 2 20 None] (mkWorld empty_heap empty_queue)
      = (Ok [Event (Some 0); Event (Some 1)], w)
    /\ signal_waiters 4096 1 w = (Ok tt, w') /\ thread y = 2
    /\ completed (world_queue w') = <[2 := WaitSignalled]> (completed (world_queue w)).
Proof.
  destruct (commands_refine [Enqueue 4096 1 40 None; Enqueue 4096 2 20 None]
    (mkWorld empty_heap empty_queue) empty_spec ltac:(repeat constructor) empty_refines)
    as (w & Hrun & HR).
  destruct (signal_wakes_best w _ 4096 (mkWait 2 4096 20 None 1) HR) as (w' & y & Hs & Hsel & _ & _ & Hc & _).
  - right. left.
  - reflexivity.
  - exists w, w', y. apply selects_next_wait in Hsel. vm_compute in Hsel. injection Hsel as <-.
    split; [exact Hrun|]. split; [exact Hs|]. split; [reflexivity|exact Hc].
Defined.
