(* ===== verification/RtAddressWait.v ===== *)
(** * Address wait registry (crates/runtime/src/address_wait.rs)

    Mutex and condition-variable waits of a process, keyed by guest address,
    with the mutex ownership records and the priority waits beside them.  A
    waiter owns one event through its writable and its readable view; a wait is
    over when that event is signalled, and its [completion] says how.  The
    methods act on the registry and the heap of events; [expect] and [unwrap]
    yield [Panic]. *)

From S2P Require Import Prelude RtEvent.
From S2P Require RtPriorityWait.

Inductive AddressWaitCompletion : Set := Success | InvalidOwner | InvalidMemory | CompletionTimedOut.
#[export] Instance AddressWaitCompletion_eq_dec : EqDecision AddressWaitCompletion.
Proof. solve_decision. Defined.

Record AddressWaiter := mkAddressWaiter {
  thread : Z;
  value : Z;
  lock_address : option Z;
  priority : Z;
  completion : AddressWaitCompletion;
  writable : EventId;
  readable : EventId;
}.
#[export] Instance AddressWaiter_eq_dec : EqDecision AddressWaiter.
Proof. solve_decision. Defined.

Record AddressWaitRegistry := mkRegistry {
  waiters : gmap Z (list AddressWaiter);
  owners : gmap Z Z;
  priority_waits : RtPriorityWait.PriorityAddressWaitQueue;
}.

Definition empty_registry : AddressWaitRegistry := mkRegistry ∅ ∅ RtPriorityWait.empty_queue.

Record RegistryWorld := mkRegistryWorld {
  events : EventHeap;
  registry : AddressWaitRegistry;
}.

Notation RM := (SM RegistryWorld Empty_set).

Definition on_heap {A} (m : SM EventHeap Empty_set A) : RM A :=
  fun w => let '(r, h) := m (events w) in (r, mkRegistryWorld h (registry w)).

(** A method of [self.priority_waits]. *)
Definition on_priority {A} (m : SM RtPriorityWait.WaitWorld Empty_set A) : RM A :=
  fun w =>
    let '(r, v) := m (RtPriorityWait.mkWorld (events w) (priority_waits (registry w))) in
    (r, mkRegistryWorld (RtPriorityWait.world_events v)
          (mkRegistry (waiters (registry w)) (owners (registry w)) (RtPriorityWait.world_queue v))).

Definition set_waiters (v : gmap Z (list AddressWaiter)) : RM unit :=
  modify (fun w => mkRegistryWorld (events w)
    (mkRegistry v (owners (registry w)) (priority_waits (registry w)))).

Definition set_owners (v : gmap Z Z) : RM unit :=
  modify (fun w => mkRegistryWorld (events w)
    (mkRegistry (waiters (registry w)) v (priority_waits (registry w)))).

(** ** Queries *)

Definition queue_at (r : AddressWaitRegistry) (address : Z) : list AddressWaiter :=
  default [] (waiters r !! address).

Definition find_thread (t : Z) (l : list AddressWaiter) : option AddressWaiter :=
  snd <$> list_find (fun x => thread x = t) l.

Definition contains (address t : Z) (w : RegistryWorld) : bool :=
  match waiters (registry w) !! address with
  | None => false
  | Some l => existsb (fun x => thread x =? t) l
  end.

Definition waiter_signalled (h : EventHeap) (x : AddressWaiter) : bool :=
  event_signalled h (readable x).

Definition is_signalled (address t : Z) (w : RegistryWorld) : bool :=
  match waiters (registry w) !! address with
  | None => false
  | Some l =>
      match find_thread t l with Some x => waiter_signalled (events w) x | None => false end
  end.

Definition wait_value (address t : Z) (w : RegistryWorld) : option Z :=
  l ← waiters (registry w) !! address; value <$> find_thread t l.

Definition wait_completion (address t : Z) (w : RegistryWorld) : option AddressWaitCompletion :=
  l ← waiters (registry w) !! address; completion <$> find_thread t l.

(** A mutex wait that is not over; a condition wait that is not over. *)
Definition mutex_waiting (h : EventHeap) (x : AddressWaiter) : Prop :=
  lock_address x = None /\ waiter_signalled h x = false.
Definition condition_waiting (h : EventHeap) (x : AddressWaiter) : Prop :=
  lock_address x <> None /\ waiter_signalled h x = false.
#[export] Instance mutex_waiting_dec h x : Decision (mutex_waiting h x).
Proof. unfold mutex_waiting. apply _. Defined.
#[export] Instance condition_waiting_dec h x : Decision (condition_waiting h x).
Proof. unfold condition_waiting. apply _. Defined.

Definition unsignalled_count (address : Z) (w : RegistryWorld) : Z :=
  match waiters (registry w) !! address with
  | None => 0
  | Some l => Z.of_nat (length (filter (mutex_waiting (events w)) l))
  end.

(** [.enumerate()] *)
Definition enumerate {A} (l : list A) : list (Z * A) := imap (fun i x => (Z.of_nat i, x)) l.

(** The order [min_by_key] uses: priority, then position. *)
Definition key_le (a b : Z * AddressWaiter) : Prop :=
  pair_le (priority a.2, a.1) (priority b.2, b.1).
#[export] Instance key_le_dec : RelDecision key_le.
Proof. intros a b. unfold key_le. apply _. Defined.

Definition min_by_key (l : list (Z * AddressWaiter)) : option AddressWaiter :=
  snd <$> least key_le l.

Definition next_waiter (address : Z) (w : RegistryWorld) : option (Z * Z) :=
  l ← waiters (registry w) !! address;
  x ← min_by_key (filter (fun e => mutex_waiting (events w) e.2) (enumerate l));
  Some (thread x, value x).

Definition next_condition (address : Z) (w : RegistryWorld) : option (Z * Z * Z) :=
  l ← waiters (registry w) !! address;
  x ← min_by_key (filter (fun e => condition_waiting (events w) e.2) (enumerate l));
  lock ← lock_address x;
  Some (thread x, value x, lock).

Definition pending_threads (address : Z) (w : RegistryWorld) : list Z :=
  thread <$> filter (mutex_waiting (events w)) (queue_at (registry w) address).

Definition owner (address : Z) (w : RegistryWorld) : option Z := owners (registry w) !! address.

Definition waiter_count (w : RegistryWorld) : Z :=
  map_fold (fun _ l n => Z.of_nat (length l) + n) 0 (waiters (registry w))
  + RtPriorityWait.len (priority_waits (registry w)).

(** ** Updates *)

Definition i32_max : Z := 2147483647.

Definition enqueue_with_lock (address t val : Z) (lock : option Z) : RM EventId :=
  let! pair := on_heap create_pair in
  let! w := get in
  let l := queue_at (registry w) address in
  do! set_waiters
        (<[address := l ++ [mkAddressWaiter t val lock i32_max Success pair.1 pair.2]]>
           (waiters (registry w))) in
  ret pair.2.

Definition enqueue (address t val : Z) : RM EventId := enqueue_with_lock address t val None.

Definition enqueue_condition (address t val lock : Z) : RM EventId :=
  enqueue_with_lock address t val (Some lock).

Definition remove (address t : Z) : RM unit :=
  let! w := get in
  let ws := waiters (registry w) in
  let ws :=
    match ws !! address with
    | Some l =>
        match list_find (fun x => thread x = t) l with
        | Some (i, _) => <[address := delete i l]> ws
        | None => ws
        end
    | None => ws
    end in
  set_waiters (if decide (ws !! address = Some []) then delete address ws else ws).

Definition with_priority (p : Z) (x : AddressWaiter) : AddressWaiter :=
  mkAddressWaiter (thread x) (value x) (lock_address x) p (completion x) (writable x) (readable x).

Definition with_completion (c : AddressWaitCompletion) (x : AddressWaiter) : AddressWaiter :=
  mkAddressWaiter (thread x) (value x) (lock_address x) (priority x) c (writable x) (readable x).

Definition without_lock (x : AddressWaiter) : AddressWaiter :=
  mkAddressWaiter (thread x) (value x) None (priority x) (completion x) (writable x) (readable x).

Definition change_priority (t p : Z) : RM unit :=
  do! on_priority (RtPriorityWait.change_priority t p) in
  let! w := get in
  set_waiters
    ((fun l : list AddressWaiter => (fun x => if thread x =? t then with_priority p x else x) <$> l)
       <$> waiters (registry w)).

Definition refresh_mutex_priorities (prio : Z -> Z) : RM unit :=
  let! w := get in
  set_waiters
    ((fun l : list AddressWaiter => (fun x => with_priority (prio (thread x)) x) <$> l)
       <$> waiters (registry w)).

(** Set a waiter's completion in place and signal its event. *)
Definition conclude (address : Z) (i : nat) (c : AddressWaitCompletion) : RM unit :=
  let! w := get in
  let l := queue_at (registry w) address in
  match l !! i with
  | None => ret tt
  | Some x =>
      do! set_waiters (<[address := <[i := with_completion c x]> l]> (waiters (registry w))) in
      on_heap (signal (writable x))
  end.

Definition signal_result (address t : Z) (c : AddressWaitCompletion) : RM unit :=
  let! w := get in
  match waiters (registry w) !! address with
  | None => ret tt
  | Some l =>
      match list_find (fun x => thread x = t) l with
      | None => ret tt
      | Some (i, _) => conclude address i c
      end
  end.

(** The first address, in order, whose first wait of [t] is not over. *)
Fixpoint find_unexpired (h : EventHeap) (t : Z) (entries : list (Z * list AddressWaiter)) :
    option (Z * nat) :=
  match entries with
  | [] => None
  | (a, l) :: rest =>
      match list_find (fun x => thread x = t) l with
      | Some (i, x) => if waiter_signalled h x then find_unexpired h t rest else Some (a, i)
      | None => find_unexpired h t rest
      end
  end.

Definition expire_thread_wait (t : Z) : RM bool :=
  let! w := get in
  match find_unexpired (events w) t (btree_iter (waiters (registry w))) with
  | Some (a, i) => do! conclude a i CompletionTimedOut in ret true
  | None => ret false
  end.

Definition move_waiter (from to t : Z) : RM unit :=
  let! w := get in
  let ws := waiters (registry w) in
  let! l := expect (ws !! from) in
  let! found := expect (list_find (fun x => thread x = t) l) in
  let rest := delete found.1 l in
  let ws := match rest with [] => delete from ws | _ => <[from := rest]> ws end in
  set_waiters (<[to := default [] (ws !! to) ++ [without_lock found.2]]> ws).

Definition set_owner (address t : Z) : RM unit :=
  let! w := get in set_owners (<[address := t]> (owners (registry w))).

Definition remove_owner (address : Z) : RM (option Z) :=
  let! w := get in
  do! set_owners (delete address (owners (registry w))) in
  ret (owners (registry w) !! address).

(** [while let Some((waiter, _)) = self.next_waiter(address)]: running out of
    fuel is reported as [Panic], and shown not to happen. *)
Fixpoint cancel_waiters (fuel : nat) (address : Z) : RM unit :=
  let! w := get in
  match next_waiter address w with
  | None => ret tt
  | Some (t, _) =>
      match fuel with
      | O => panic
      | S fuel => do! signal_result address t InvalidOwner in cancel_waiters fuel address
      end
  end.

Fixpoint for_each {A} (l : list A) (body : A -> RM unit) : RM unit :=
  match l with
  | [] => ret tt
  | x :: l => do! body x in for_each l body
  end.

Definition cancel_owned (address : Z) : RM unit :=
  let! w := get in
  do! set_owners (delete address (owners (registry w))) in
  cancel_waiters (length (queue_at (registry w) address)) address.

Definition owned_by (t : Z) (o : gmap Z Z) : list Z :=
  (btree_iter (filter (fun '(_, v) => v = t) o)).*1.

Definition release_thread (t : Z) : RM unit :=
  do! on_priority (RtPriorityWait.remove t) in
  let! w := get in
  do! for_each ((btree_iter (waiters (registry w))).*1) (fun a => remove a t) in
  let! w := get in
  for_each (owned_by t (owners (registry w))) cancel_owned.

(** * The address wait registry keeps its waits apart

    The invariant of the registry: a thread waits at most once at an address,
    no queue is kept empty, and every wait has an event of its own.  Under it
    the methods never panic, the loop of [release_thread] ends, and what they do
    is a function of the queues, the owners and the event flags. *)

Record reg_ok (h : EventHeap) (ws : gmap Z (list AddressWaiter)) : Prop := {
  reg_heap : heap_wf h;
  reg_tight : forall a, ws !! a <> Some [];
  reg_threads : forall a, NoDup (thread <$> default [] (ws !! a));
  reg_views : forall a x, x ∈ default [] (ws !! a) ->
    writable x = readable x /\ allocated h (readable x);
  reg_events : forall a b x y, x ∈ default [] (ws !! a) -> y ∈ default [] (ws !! b) ->
    readable x = readable y -> a = b /\ thread x = thread y;
}.

(** The priority waits are in a state their own specification describes, and
    share no event with the other waits. *)
Definition priority_ok (h : EventHeap) (ws : gmap Z (list AddressWaiter))
    (pw : RtPriorityWait.PriorityAddressWaitQueue) : Prop :=
  exists s, RtPriorityWait.refines (RtPriorityWait.mkWorld h pw) s
    /\ forall a x y, x ∈ default [] (ws !! a) -> y ∈ RtPriorityWait.active s ->
       readable x <> RtPriorityWait.event y.

Definition registry_ok (w : RegistryWorld) : Prop :=
  reg_ok (events w) (waiters (registry w))
  /\ priority_ok (events w) (waiters (registry w)) (priority_waits (registry w)).

(** ** Finding a thread's wait *)

Lemma find_thread_spec l t :
  match list_find (fun x => thread x = t) l with
  | Some (i, x) => l !! i = Some x /\ thread x = t
      /\ (NoDup (thread <$> l) -> delete i l = filter (fun y => thread y <> t) l)
  | None => filter (fun y => thread y <> t) l = l
  end.
Proof.
  destruct (list_find _ l) as [[i x]|] eqn:Hf.
  - apply list_find_Some in Hf as (Hi & Ht & Hmin). split; [done|]. split; [done|].
    intros Hnd. apply list_elem_of_split_length in Hi as (l1 & l2 & -> & ->).
    rewrite delete_middle, filter_app, filter_cons, decide_False by tauto.
    rewrite fmap_app, fmap_cons in Hnd. apply NoDup_app in Hnd as (_ & Hd & Hnd).
    apply NoDup_cons in Hnd as [Hx _].
    rewrite !RtPriorityWait.filter_keep_all; [done| |].
    + intros y Hy He. apply Hx. rewrite Ht, <- He. by apply list_elem_of_fmap_2.
    + intros y Hy He. apply (Hd (thread y)); [by apply list_elem_of_fmap_2|].
      rewrite He, <- Ht. by left.
  - apply list_find_None in Hf. apply RtPriorityWait.filter_keep_all.
    intros y Hy. by eapply Forall_forall in Hf.
Qed.

Lemma contains_spec a t w : contains a t w = true <-> t ∈ thread <$> queue_at (registry w) a.
Proof.
  unfold contains, queue_at. destruct (waiters (registry w) !! a) as [l|]; cbn.
  - rewrite existsb_exists, list_elem_of_fmap. setoid_rewrite <- list_elem_of_In.
    setoid_rewrite Z.eqb_eq. naive_solver.
  - split; [done|]. intros Hin. by apply not_elem_of_nil in Hin.
Qed.

(** ** Selection: current priority, then position *)

#[export] Instance key_le_preorder : PreOrder key_le.
Proof.
  split; [intros x|intros x y z]; unfold key_le; [done|apply (transitivity (R := pair_le))].
Qed.
#[export] Instance key_le_total : Total key_le.
Proof. intros x y. unfold key_le. apply pair_le_total. Qed.

Lemma elem_of_enumerate {A} (l : list A) i x :
  (i, x) ∈ enumerate l <-> 0 <= i /\ l !! Z.to_nat i = Some x.
Proof.
  unfold enumerate. rewrite list_elem_of_lookup. setoid_rewrite list_lookup_imap. split.
  - intros (j & Hj). apply fmap_Some in Hj as (y & Hy & [= -> ->]). split; [lia|]. by rewrite Nat2Z.id.
  - intros [Hi Hx]. exists (Z.to_nat i). rewrite Hx. cbn. by rewrite Z2Nat.id.
Qed.

Section Select.
Context (P : AddressWaiter -> Prop) `{!forall x, Decision (P x)}.

(** [x] at position [i] is the wait the code picks among those satisfying [P]. *)
Definition picked (l : list AddressWaiter) (i : nat) (x : AddressWaiter) : Prop :=
  l !! i = Some x /\ P x
  /\ (forall j y, l !! j = Some y -> P y -> priority x < priority y \/ (priority x = priority y /\ (i <= j)%nat)).

Lemma min_by_key_some l x :
  min_by_key (filter (fun e => P e.2) (enumerate l)) = Some x -> exists i, picked l i x.
Proof.
  unfold min_by_key. intros Hk. apply fmap_Some in Hk as ([i y] & Hl & ->). cbn.
  apply least_spec in Hl as [Hin Hmin]; [|apply _..].
  apply list_elem_of_filter in Hin as [HP [Hi Hx]%elem_of_enumerate]. cbn in HP.
  exists (Z.to_nat i). split; [done|]. split; [done|]. intros j z Hj Hz.
  assert (Hle : key_le (i, y) (Z.of_nat j, z)).
  { apply Hmin. apply list_elem_of_filter. split; [done|]. apply elem_of_enumerate.
    split; [lia|]. by rewrite Nat2Z.id. }
  destruct Hle as [Hlt|[He Hle]]; cbn in *; [by left|]. right. split; [done|]. lia.
Qed.

Lemma min_by_key_none l :
  min_by_key (filter (fun e => P e.2) (enumerate l)) = None -> forall x, x ∈ l -> ~ P x.
Proof.
  unfold min_by_key. intros Hk%fmap_None%least_none x [i Hi]%list_elem_of_lookup HP.
  assert (Hin : (Z.of_nat i, x) ∈ filter (fun e : Z * AddressWaiter => P e.2) (enumerate l)).
  { apply list_elem_of_filter. split; [done|]. apply elem_of_enumerate. split; [lia|].
    by rewrite Nat2Z.id. }
  rewrite Hk in Hin. by apply not_elem_of_nil in Hin.
Qed.
End Select.

Lemma next_waiter_some a w t v :
  next_waiter a w = Some (t, v) ->
  exists i x, picked (mutex_waiting (events w)) (queue_at (registry w) a) i x /\ thread x = t /\ value x = v.
Proof.
  unfold next_waiter, queue_at. intros H. apply bind_Some in H as (l & Hl & H).
  apply bind_Some in H as (x & Hx & H). simplify_eq. rewrite Hl. cbn.
  apply (min_by_key_some (mutex_waiting (events w))) in Hx as (i & Hp). eauto.
Qed.

Lemma next_waiter_none a w :
  next_waiter a w = None -> forall x, x ∈ queue_at (registry w) a -> ~ mutex_waiting (events w) x.
Proof.
  unfold next_waiter, queue_at. destruct (waiters (registry w) !! a) as [l|]; cbn.
  - destruct (min_by_key _) eqn:Hm; cbn; [done|]. intros _.
    by apply (min_by_key_none (mutex_waiting (events w))).
  - intros _ x Hx. by apply not_elem_of_nil in Hx.
Qed.

(** ** Preserving the invariant *)

Definition same_wait (x y : AddressWaiter) : Prop :=
  thread x = thread y /\ writable x = writable y /\ readable x = readable y.

Lemma same_refl l : Forall2 same_wait l l.
Proof. apply Forall_Forall2_diag, Forall_true. by intros x. Qed.

Lemma same_threads l k : Forall2 same_wait l k -> thread <$> l = thread <$> k.
Proof. induction 1 as [|x y l k [He _] _ IH]; [done|]. rewrite !fmap_cons. by f_equal. Qed.

(** Updating waits in place keeps threads and events. *)
Lemma reg_ok_same h h' (ws ws' : gmap Z (list AddressWaiter)) P :
  reg_ok h ws -> heap_wf h' -> heap_extends P h h' -> (forall a, ws' !! a <> Some []) ->
  (forall a, Forall2 same_wait (default [] (ws' !! a)) (default [] (ws !! a))) ->
  reg_ok h' ws'.
Proof.
  intros [_ _ Ht Hv He] Hwf [Ea _ _] Htight Hsame.
  assert (Hback : forall a x, x ∈ default [] (ws' !! a) ->
    exists y, y ∈ default [] (ws !! a) /\ same_wait x y).
  { intros a x Hx. specialize (Hsame a). apply list_elem_of_lookup in Hx as [i Hi].
    eapply Forall2_lookup_l in Hsame as (y & Hy & Hs); [|done].
    exists y. split; [by eapply list_elem_of_lookup_2|done]. }
  split; [done|done| | |].
  - intros a. specialize (Ht a). replace (thread <$> default [] (ws' !! a))
      with (thread <$> default [] (ws !! a)); [done|]. symmetry.
    by apply same_threads.
  - intros a x (y & Hy & _ & Hw & Hr)%Hback. rewrite Hw, Hr.
    destruct (Hv a y Hy). auto.
  - intros a b x y (x' & Hx' & Htx & _ & Hrx)%Hback (y' & Hy' & Hty & _ & Hry)%Hback Heq.
    destruct (He a b x' y' Hx' Hy') as [-> Hth]; [congruence|]. split; [done|congruence].
Qed.

(** Dropping waits keeps the rest apart. *)
Lemma reg_ok_sub h (ws ws' : gmap Z (list AddressWaiter)) t a :
  reg_ok h ws -> (forall b, ws' !! b <> Some []) ->
  (forall b, default [] (ws' !! b)
     = if decide (b = a) then filter (fun y => thread y <> t) (default [] (ws !! b))
       else default [] (ws !! b)) ->
  reg_ok h ws'.
Proof.
  intros [Hh _ Ht Hv He] Htight Hq.
  assert (Hback : forall b x, x ∈ default [] (ws' !! b) -> x ∈ default [] (ws !! b)).
  { intros b x. rewrite Hq. case_decide; [|done]. by intros [_ ?]%list_elem_of_filter. }
  split; [done|done| | |].
  - intros b. rewrite Hq. case_decide; [|done].
    apply RtPriorityWait.filter_fmap_nodup, Ht.
  - intros b x Hx%Hback. by apply (Hv b).
  - intros b c x y Hx%Hback Hy%Hback. by apply He.
Qed.

(** ** Removing a wait *)

Lemma remove_ok a t h ws o pw :
  reg_ok h ws ->
  exists ws', remove a t (mkRegistryWorld h (mkRegistry ws o pw))
    = (Ok tt, mkRegistryWorld h (mkRegistry ws' o pw))
    /\ (forall b, default [] (ws' !! b)
          = if decide (b = a) then filter (fun y => thread y <> t) (default [] (ws !! b))
            else default [] (ws !! b))
    /\ reg_ok h ws'.
Proof.
  intros HI. unfold remove, bind, get. cbn.
  set (ws1 := match ws !! a with Some l => _ | None => ws end).
  assert (Hq1 : forall b, default [] (ws1 !! b)
     = if decide (b = a) then filter (fun y => thread y <> t) (default [] (ws !! b))
       else default [] (ws !! b)).
  { intros b. subst ws1. destruct (ws !! a) as [l|] eqn:Hl.
    - pose proof (find_thread_spec l t) as Hf. pose proof (reg_threads _ _ HI a) as Hnd.
      rewrite Hl in Hnd. cbn in Hnd.
      destruct (list_find _ l) as [[i x]|].
      + destruct Hf as (_ & _ & Hdel). case_decide as Hb; [subst b|].
        * rewrite lookup_insert_eq, Hl. cbn. by apply Hdel.
        * by rewrite lookup_insert_ne.
      + case_decide as Hb; [subst b; rewrite Hl; cbn; by rewrite Hf|done].
    - case_decide as Hb; [subst b; by rewrite Hl|done]. }
  assert (Htail : forall b, (if decide (ws1 !! a = Some []) then delete a ws1 else ws1) !! b <> Some []).
  { intros b. assert (Hother : b <> a -> ws1 !! b = ws !! b).
    { intros Hne. subst ws1. destruct (ws !! a); [|done].
      destruct (list_find _ l) as [[i x]|]; [by rewrite lookup_insert_ne|done]. }
    case_decide as Hd; destruct (decide (b = a)) as [->|Hne]; [by rewrite lookup_delete_eq| |done|].
    - rewrite lookup_delete_ne, Hother by done. apply (reg_tight _ _ HI).
    - rewrite Hother by done. apply (reg_tight _ _ HI). }
  assert (Hq : forall b, default [] ((if decide (ws1 !! a = Some []) then delete a ws1 else ws1) !! b)
     = if decide (b = a) then filter (fun y => thread y <> t) (default [] (ws !! b))
       else default [] (ws !! b)).
  { intros b. rewrite <- Hq1. case_decide as Hd; [|done].
    destruct (decide (b = a)) as [->|]; [by rewrite lookup_delete_eq, Hd|by rewrite lookup_delete_ne]. }
  eexists. split; [reflexivity|]. split; [done|]. by eapply (reg_ok_sub h ws _ t a).
Qed.

Lemma remove_all_ok t l h ws o pw :
  reg_ok h ws ->
  exists ws', for_each l (fun a => remove a t) (mkRegistryWorld h (mkRegistry ws o pw))
    = (Ok tt, mkRegistryWorld h (mkRegistry ws' o pw))
    /\ (forall b, default [] (ws' !! b)
          = if decide (b ∈ l) then filter (fun y => thread y <> t) (default [] (ws !! b))
            else default [] (ws !! b))
    /\ reg_ok h ws'.
Proof.
  revert ws. induction l as [|a l IH]; intros ws HI.
  - exists ws. split; [done|]. split; [|done]. intros b. by rewrite decide_False by apply not_elem_of_nil.
  - cbn [for_each]. unfold bind.
    destruct (remove_ok a t h ws o pw HI) as (ws1 & Hr & Hq1 & HI1). rewrite Hr.
    destruct (IH ws1 HI1) as (ws2 & Hf & Hq2 & HI2). exists ws2. split; [done|]. split; [|done].
    intros b. rewrite Hq2, Hq1. destruct (decide (b = a)) as [->|Hne].
    + rewrite (decide_True (P := a ∈ a :: l)) by by left. case_decide; [|done].
      rewrite list_filter_filter. apply RtPriorityWait.filter_ext_in. tauto.
    + apply decide_ext. rewrite elem_of_cons. tauto.
Qed.

(** ** Concluding a wait *)

Lemma conclude_ok a i x c h ws o pw :
  reg_ok h ws -> default [] (ws !! a) !! i = Some x ->
  exists h', conclude a i c (mkRegistryWorld h (mkRegistry ws o pw))
    = (Ok tt, mkRegistryWorld h'
         (mkRegistry (<[a := <[i := with_completion c x]> (default [] (ws !! a))]> ws) o pw))
    /\ heap_extends (fun e => e = readable x) h h'
    /\ reg_ok h' (<[a := <[i := with_completion c x]> (default [] (ws !! a))]> ws).
Proof.
  intros HI Hx. destruct (reg_views _ _ HI a x) as [Hw Ha]; [by eapply list_elem_of_lookup_2|].
  destruct (signal_ok (E := Empty_set) h (readable x) (reg_heap _ _ HI) Ha)
    as (h' & Hs & Hwf & _ & Hext).
  unfold conclude, bind, get, queue_at, on_heap. cbn [registry waiters events].
  rewrite Hx. unfold set_waiters, modify. cbn [registry waiters owners priority_waits events].
  rewrite Hw, Hs. eexists. split; [reflexivity|]. split; [done|].
  eapply reg_ok_same; [done|done|done| |].
  - intros b. destruct (decide (b = a)) as [->|]; [|rewrite lookup_insert_ne by done; apply (reg_tight _ _ HI)].
    rewrite lookup_insert_eq. intros [= He]. apply (f_equal length) in He.
    rewrite length_insert in He. apply lookup_lt_Some in Hx. cbn in He. lia.
  - intros b. destruct (decide (b = a)) as [->|];
      [|rewrite lookup_insert_ne by done; apply same_refl].
    rewrite lookup_insert_eq. cbn. set (l := default [] (ws !! a)) in *.
    rewrite <- (list_insert_id l i x) at 2 by done.
    apply Forall2_insert; [|done]. apply same_refl.
Qed.

(** ** Cancelling the waits on a mutex *)

Definition cancel_wait (h : EventHeap) (x : AddressWaiter) : AddressWaiter :=
  if decide (mutex_waiting h x) then with_completion InvalidOwner x else x.

Definition cancelled (h : EventHeap) (l : list AddressWaiter) : list AddressWaiter :=
  cancel_wait h <$> l.

(** [h'] is [h] with the events of the mutex waits of [l] set. *)
Definition fires (h h' : EventHeap) (l : list AddressWaiter) : Prop :=
  heap_extends (fun e => exists x, x ∈ l /\ mutex_waiting h x /\ readable x = e) h h'.

Lemma fires_waiting h h' l x :
  fires h h' l -> (forall y, y ∈ l -> readable x <> readable y) ->
  mutex_waiting h' x <-> mutex_waiting h x.
Proof.
  intros [_ Ef _] Hne. unfold mutex_waiting, waiter_signalled. rewrite Ef; [done|].
  intros (y & Hy & _ & He). by apply (Hne y Hy).
Qed.

Lemma heap_extends_iff P Q h h' :
  (forall e, P e <-> Q e) -> heap_extends P h h' -> heap_extends Q h h'.
Proof. intros HPQ [Ea Ef Et]. split; [done| |]; intros e; rewrite <- HPQ; auto. Qed.

Lemma heap_extends_compose P Q h1 h2 h3 :
  heap_extends P h1 h2 -> heap_extends Q h2 h3 -> heap_extends (fun e => P e \/ Q e) h1 h3.
Proof.
  intros [A1 F1 T1] [A2 F2 T2]. split; [auto| |].
  - intros e Hn. rewrite F2, F1; tauto.
  - intros e [HP|HQ]; [|auto]. destruct (event_signalled h3 e) eqn:He; [done|].
    assert (~ Q e) by (intros HQ; rewrite T2 in He by done; done).
    rewrite F2, T1 in He; done.
Qed.

Definition remaining (h : EventHeap) (l : list AddressWaiter) : nat :=
  length (filter (mutex_waiting h) l).

(** One turn concludes the picked wait and leaves the others as they were. *)
Lemma cancel_step h h1 (l : list AddressWaiter) i x :
  l !! i = Some x -> mutex_waiting h x -> heap_extends (fun e => e = readable x) h h1 ->
  (forall j y, l !! j = Some y -> readable y = readable x -> j = i) ->
  let l1 := <[i := with_completion InvalidOwner x]> l in
  cancelled h1 l1 = cancelled h l
  /\ (remaining h1 l1 < remaining h l)%nat
  /\ (forall h', fires h1 h' l1 -> fires h h' l).
Proof.
  intros Hx Hw Hext Hinj l1.
  assert (Hx1 : forall c, ~ mutex_waiting h1 (with_completion c x)).
  { intros c [_ Hs]. unfold waiter_signalled in Hs. cbn in Hs.
    by rewrite (extends_fired _ _ _ Hext) in Hs. }
  assert (Hoth : forall j y, l !! j = Some y -> j <> i -> mutex_waiting h1 y <-> mutex_waiting h y).
  { intros j y Hj Hne. unfold mutex_waiting, waiter_signalled.
    rewrite (extends_flag _ _ _ Hext); [done|]. intros He. apply Hne. eauto. }
  destruct (list_elem_of_split_length l i x Hx) as (k1 & k2 & Hl & Hi).
  assert (Hl1 : l1 = k1 ++ with_completion InvalidOwner x :: k2).
  { subst l1. rewrite Hl, Hi, <- (Nat.add_0_r (length k1)), insert_app_r. done. }
  assert (Hk : forall y, y ∈ k1 \/ y ∈ k2 -> mutex_waiting h1 y <-> mutex_waiting h y).
  { intros y [Hy|Hy]; apply list_elem_of_lookup in Hy as [j Hj].
    - apply (Hoth j); [rewrite Hl; by apply lookup_app_l_Some|]. apply lookup_lt_Some in Hj. lia.
    - apply (Hoth (length k1 + S j)%nat); [|lia].
      rewrite Hl, lookup_app_r by lia. by replace (length k1 + S j - length k1)%nat with (S j) by lia. }
  assert (Hc : forall k, (forall y, y ∈ k -> y ∈ k1 \/ y ∈ k2) -> cancelled h1 k = cancelled h k).
  { intros k Hsub. unfold cancelled. apply list_fmap_ext. intros j y Hj. unfold cancel_wait.
    apply decide_ext. apply Hk, Hsub. by eapply list_elem_of_lookup_2. }
  assert (Hf : forall k : list AddressWaiter, (forall y, y ∈ k -> y ∈ k1 \/ y ∈ k2) ->
    filter (mutex_waiting h1) k = filter (mutex_waiting h) k).
  { intros k Hsub. apply RtPriorityWait.filter_ext_in. auto. }
  split; [|split].
  - rewrite Hl1, Hl. unfold cancelled in *. rewrite !fmap_app, !fmap_cons, !Hc by auto.
    f_equal. f_equal. unfold cancel_wait at 1 2. rewrite decide_False, decide_True by auto. done.
  - unfold remaining. rewrite Hl1, Hl, !filter_app, !filter_cons, !Hf by auto.
    rewrite decide_False, decide_True by auto. rewrite !length_app. cbn. lia.
  - intros h' Hf'. unfold fires in *.
    eapply heap_extends_iff; [|exact (heap_extends_compose _ _ _ _ _ Hext Hf')].
    intros e. rewrite Hl1, Hl. split.
    + intros [->|(y & Hy & Hwy & <-)].
      * exists x. split; [rewrite elem_of_app; right; by left|done].
      * apply elem_of_app in Hy as [Hy|[->|Hy]%elem_of_cons]; [|by apply Hx1 in Hwy|];
          exists y; rewrite <- Hk by auto; rewrite elem_of_app, elem_of_cons; auto.
    + intros (y & Hy & Hwy & <-).
      apply elem_of_app in Hy as [Hy|[->|Hy]%elem_of_cons]; [|by left|];
        right; exists y; rewrite Hk by auto; rewrite elem_of_app, elem_of_cons; auto.
Qed.

Lemma cancelled_idle h l : (forall x, x ∈ l -> ~ mutex_waiting h x) -> cancelled h l = l.
Proof.
  intros Hno. unfold cancelled. rewrite <- (list_fmap_id l) at 2. apply list_fmap_ext.
  intros i x Hx. unfold cancel_wait. rewrite decide_False; [done|].
  apply Hno. by eapply list_elem_of_lookup_2.
Qed.

Lemma fires_idle h l : (forall x, x ∈ l -> ~ mutex_waiting h x) -> fires h h l.
Proof. intros Hno. split; [done|done|]. intros e (x & Hx & Hw & _). by apply Hno in Hw. Qed.

Lemma reg_position h ws a x y i j :
  reg_ok h ws -> default [] (ws !! a) !! i = Some x -> default [] (ws !! a) !! j = Some y ->
  readable y = readable x -> j = i.
Proof.
  intros HI Hx Hy He. destruct (reg_events _ _ HI a a y x) as [_ Ht];
    [by eapply list_elem_of_lookup_2..|done|].
  eapply (NoDup_lookup (thread <$> default [] (ws !! a))); [apply (reg_threads _ _ HI)| |].
  - rewrite list_lookup_fmap, Hy. done.
  - rewrite list_lookup_fmap, Hx. cbn. by rewrite Ht.
Qed.

(** The wait [signal_result] finds is the picked one. *)
Lemma signal_result_ok a i x c h ws o pw :
  reg_ok h ws -> default [] (ws !! a) !! i = Some x ->
  signal_result a (thread x) c (mkRegistryWorld h (mkRegistry ws o pw))
  = conclude a i c (mkRegistryWorld h (mkRegistry ws o pw)).
Proof.
  intros HI Hx. unfold signal_result, bind, get. cbn.
  pose proof (reg_threads _ _ HI a) as Hnd. destruct (ws !! a) as [l|] eqn:Hl; [|done]. cbn in *.
  destruct (list_find (fun y => thread y = thread x) l) as [[j y]|] eqn:Hf.
  - apply list_find_Some in Hf as (Hj & Ht & _).
    assert (j = i) as ->; [|done]. eapply (NoDup_lookup (thread <$> l)); [done| |].
    + rewrite list_lookup_fmap, Hj. done.
    + rewrite list_lookup_fmap, Hx. cbn. by rewrite Ht.
  - apply list_find_None in Hf. eapply Forall_lookup_1 in Hf; [|exact Hx]. done.
Qed.

Lemma cancel_waiters_ok fuel a h ws o pw :
  reg_ok h ws -> (remaining h (default [] (ws !! a)) <= fuel)%nat ->
  exists h' ws', cancel_waiters fuel a (mkRegistryWorld h (mkRegistry ws o pw))
    = (Ok tt, mkRegistryWorld h' (mkRegistry ws' o pw))
    /\ reg_ok h' ws'
    /\ default [] (ws' !! a) = cancelled h (default [] (ws !! a))
    /\ (forall b, b <> a -> ws' !! b = ws !! b)
    /\ fires h h' (default [] (ws !! a)).
Proof.
  revert h ws. induction fuel as [|fuel IH]; intros h ws HI Hrem; cbn [cancel_waiters];
    unfold bind at 1; cbn [get];
    destruct (next_waiter a (mkRegistryWorld h (mkRegistry ws o pw))) as [[t v]|] eqn:Hnext.
  1, 3: apply next_waiter_some in Hnext as (i & x & (Hx & Hw & _) & <- & _); cbn in Hx, Hw;
    unfold queue_at in Hx; cbn in Hx.
  3, 4: pose proof (next_waiter_none _ _ Hnext) as Hno; cbn in Hno; unfold queue_at in Hno; cbn in Hno;
    exists h, ws; rewrite cancelled_idle by done; split_and!; try done; by apply fires_idle.
  - exfalso. unfold remaining in Hrem.
    assert (Hin : x ∈ filter (mutex_waiting h) (default [] (ws !! a)))
      by (apply list_elem_of_filter; split; [done|by eapply list_elem_of_lookup_2]).
    destruct (filter _ _); [by apply not_elem_of_nil in Hin|cbn in Hrem; lia].
  - unfold bind. rewrite (signal_result_ok a i x _ h ws o pw HI Hx).
    destruct (conclude_ok a i x InvalidOwner h ws o pw HI Hx) as (h1 & Hc & Hext & HI1).
    rewrite Hc.
    destruct (cancel_step h h1 _ i x Hx Hw Hext) as (Hcan & Hlt & Hfires).
    { intros j y Hy He. by eapply (reg_position h ws a x y). }
    destruct (IH h1 _ HI1) as (h' & ws' & Hrun & HI' & Hq & Hoth & Hf).
    { rewrite lookup_insert_eq. cbn in *. apply Nat.lt_succ_r. by eapply Nat.lt_le_trans. }
    rewrite lookup_insert_eq in Hq, Hf. cbn in Hq, Hf. exists h', ws'.
    split; [done|]. split; [done|]. split; [rewrite Hq; exact Hcan|]. split; [|by apply Hfires].
    intros b Hb. rewrite Hoth by done. by rewrite lookup_insert_ne.
Qed.

Lemma remaining_le h l : (remaining h l <= length l)%nat.
Proof. unfold remaining. apply length_filter. Qed.

Lemma cancel_owned_ok l h ws o pw :
  reg_ok h ws -> NoDup l ->
  exists h' ws', for_each l cancel_owned (mkRegistryWorld h (mkRegistry ws o pw))
    = (Ok tt, mkRegistryWorld h' (mkRegistry ws' (foldr delete o (reverse l)) pw))
    /\ reg_ok h' ws'
    /\ (forall b, default [] (ws' !! b)
          = if decide (b ∈ l) then cancelled h (default [] (ws !! b)) else default [] (ws !! b))
    /\ heap_extends (fun e => exists b x, b ∈ l /\ x ∈ default [] (ws !! b) /\ mutex_waiting h x
         /\ readable x = e) h h'.
Proof.
  revert h ws o. induction l as [|a l IH]; intros h ws o HI Hnd.
  { exists h, ws. split; [done|]. split; [done|]. split.
    - intros b. by rewrite decide_False by apply not_elem_of_nil.
    - split; [done|done|]. intros e (b & x & Hb & _). by apply not_elem_of_nil in Hb. }
  apply NoDup_cons in Hnd as [Ha Hnd]. cbn [for_each]. unfold bind at 1.
  unfold cancel_owned at 1, bind at 1 2, get. cbn [registry owners]. unfold set_owners, modify.
  cbn [registry waiters owners priority_waits events].
  destruct (cancel_waiters_ok (length (queue_at (mkRegistry ws o pw) a)) a h ws (delete a o) pw HI
    ltac:(apply remaining_le)) as (h1 & ws1 & Hc & HI1 & Hq1 & Hoth1 & Hf1).
  rewrite Hc. destruct (IH h1 ws1 (delete a o) HI1 Hnd) as (h' & ws' & Hr & HI' & Hq & Hext).
  exists h', ws'. rewrite reverse_cons, foldr_app. split; [exact Hr|]. split; [done|].
  assert (Hapart : forall b x, b <> a -> x ∈ default [] (ws !! b) -> mutex_waiting h1 x <-> mutex_waiting h x).
  { intros b x Hb Hx. eapply fires_waiting; [exact Hf1|]. intros y Hy He.
    by destruct (reg_events _ _ HI b a x y Hx Hy He). }
  split.
  - intros b. rewrite Hq. destruct (decide (b = a)) as [->|Hne].
    + rewrite decide_False, decide_True by (done || by left). done.
    + rewrite Hoth1 by done. assert (Heq : b ∈ a :: l <-> b ∈ l) by (rewrite elem_of_cons; tauto).
      rewrite (decide_ext (b ∈ a :: l) (b ∈ l) _ _ Heq). case_decide; [|done].
      unfold cancelled. apply list_fmap_ext. intros i x Hx. unfold cancel_wait.
      apply decide_ext. apply (Hapart b); [done|]. by eapply list_elem_of_lookup_2.
  - eapply heap_extends_iff; [|exact (heap_extends_compose _ _ _ _ _ Hf1 Hext)].
    intros e. split.
    + intros [(x & Hx & Hw & He)|(b & x & Hb & Hx & Hw & He)].
      * exists a, x. split; [by left|done].
      * assert (b <> a) by (intros ->; done). rewrite Hoth1 in Hx by done.
        exists b, x. split; [by right|]. by rewrite <- (Hapart b) by done.
    + intros (b & x & [->|Hb]%elem_of_cons & Hx & Hw & He); [left; eauto|].
      assert (b <> a) by (intros ->; done). right. exists b, x. rewrite Hoth1 by done.
      by rewrite (Hapart b) by done.
Qed.

(** * Histories of the address wait registry

    Every method, called within its contract, keeps the registry's invariant
    and returns; what the exit of a thread does to the waits of its process. *)

(** ** The priority waits while the rest of the registry changes *)

Definition signalled_set (h : EventHeap) : gset EventId :=
  dom (filter (fun '(_, e) => signalled e = true) (heap_events h)).

Lemma elem_of_signalled_set h e : e ∈ signalled_set h <-> event_signalled h e = true.
Proof.
  unfold signalled_set, event_signalled. rewrite elem_of_dom. unfold is_Some.
  setoid_rewrite map_lookup_filter_Some. destruct (heap_events h !! e); naive_solver.
Qed.

Lemma priority_frame P h h' ws ws' pw :
  priority_ok h ws pw -> heap_wf h' -> heap_extends P h h' ->
  (forall e, P e -> exists a x, x ∈ default [] (ws !! a) /\ readable x = e) ->
  (forall a x, x ∈ default [] (ws' !! a) ->
     (exists b y, y ∈ default [] (ws !! b) /\ readable y = readable x) \/ ~ allocated h (readable x)) ->
  priority_ok h' ws' pw.
Proof.
  intros (s & [HT Hr Hd [Ewf En Ef Ea End]] & Hdis) Hwf' [Xa Xf Xt] HP Hsub. cbn in *.
  assert (HnP : forall y, y ∈ RtPriorityWait.active s -> ~ P (RtPriorityWait.event y)).
  { intros y Hy (a & x & Hx & He)%HP. by apply (Hdis a x y Hx Hy). }
  exists (RtPriorityWait.mkSpec (RtPriorityWait.active s) (RtPriorityWait.results s)
            (signalled_set h') (heap_next h')).
  split.
  - split; cbn; [done|done|done|]. split; cbn; [done|done| | |done].
    + intros e. by rewrite elem_of_signalled_set.
    + intros y Hy. destruct (Ea y Hy) as [Hal Hnf]. split; [by apply Xa|].
      rewrite elem_of_signalled_set, Xf by by apply HnP. by rewrite Ef.
  - cbn. intros a x y Hx Hy He. destruct (Hsub a x Hx) as [(b & z & Hz & Hrz)|Hna].
    + apply (Hdis b z y Hz Hy). congruence.
    + apply Hna. rewrite He. by apply Ea.
Qed.

Lemma heap_extends_none h : heap_extends (fun _ => False) h h.
Proof. by split. Qed.

(** When the heap does not change and the waits keep or lose events. *)
Lemma priority_keep h ws ws' pw :
  priority_ok h ws pw -> heap_wf h ->
  (forall a x, x ∈ default [] (ws' !! a) ->
     exists b y, y ∈ default [] (ws !! b) /\ readable y = readable x) ->
  priority_ok h ws' pw.
Proof. intros HP Hwf Hsub. eapply priority_frame; eauto using heap_extends_none. done. Qed.

(** ** The other methods *)

(** Appending a wait with an event of its own. *)
Lemma elem_of_appended (ws : gmap Z (list AddressWaiter)) a x b y :
  y ∈ default [] (<[a := default [] (ws !! a) ++ [x]]> ws !! b) ->
  y ∈ default [] (ws !! b) \/ (b = a /\ y = x).
Proof.
  destruct (decide (b = a)) as [->|]; [|rewrite lookup_insert_ne by done; tauto].
  rewrite lookup_insert_eq. cbn. intros [?|?%list_elem_of_singleton]%elem_of_app; auto.
Qed.

Lemma append_ok h (ws : gmap Z (list AddressWaiter)) a x :
  reg_ok h ws -> thread x ∉ thread <$> default [] (ws !! a) -> writable x = readable x ->
  allocated h (readable x) ->
  (forall b y, y ∈ default [] (ws !! b) -> readable y <> readable x) ->
  reg_ok h (<[a := default [] (ws !! a) ++ [x]]> ws).
Proof.
  intros HI Hx Hw Hal Hnew. split; [apply HI| | | |].
  - intros b. destruct (decide (b = a)) as [->|].
    + rewrite lookup_insert_eq. intros [= Hn]. by apply app_eq_nil in Hn as [_ ?].
    + rewrite lookup_insert_ne by done. apply (reg_tight _ _ HI).
  - intros b. destruct (decide (b = a)) as [->|].
    + rewrite lookup_insert_eq. cbn. rewrite fmap_app. apply NoDup_app.
      split; [apply (reg_threads _ _ HI)|]. split; [|apply NoDup_singleton].
      intros u Hu ->%list_elem_of_singleton. done.
    + rewrite lookup_insert_ne by done. apply (reg_threads _ _ HI).
  - intros b y [Hy|[-> ->]]%elem_of_appended; [|done]. by apply (reg_views _ _ HI b).
  - intros b c y z [Hy|[-> ->]]%elem_of_appended [Hz|[-> ->]]%elem_of_appended.
    + by apply (reg_events _ _ HI).
    + intros He. by apply Hnew in Hy.
    + intros He. symmetry in He. by apply Hnew in Hz.
    + done.
Qed.

Lemma not_contains a t h ws o pw :
  contains a t (mkRegistryWorld h (mkRegistry ws o pw)) = false ->
  t ∉ thread <$> default [] (ws !! a).
Proof.
  intros Hc Hin. pose proof (contains_spec a t (mkRegistryWorld h (mkRegistry ws o pw))) as Hcs.
  unfold queue_at in Hcs. cbn in Hcs. rewrite <- Hcs in Hin. congruence.
Qed.

Lemma enqueue_ok a t v lk w :
  registry_ok w -> contains a t w = false ->
  exists w', enqueue_with_lock a t v lk w = (Ok (heap_next (events w)), w') /\ registry_ok w'.
Proof.
  intros [HI HP] Hc. destruct w as [h [ws o pw]]. cbn in HI, HP. apply not_contains in Hc.
  destruct (create_pair_ok (E := Empty_set) h (reg_heap _ _ HI))
    as (h' & Hp & Hwf' & _ & Hfresh & Hal & _ & Hext).
  unfold enqueue_with_lock, bind, on_heap. cbn [events]. rewrite Hp.
  eexists. split; [reflexivity|]. split.
  - apply append_ok; [|done|done|done|].
    + eapply reg_ok_same; [done|done|exact Hext|apply (reg_tight _ _ HI)|].
      intros b. apply same_refl.
    + intros b y Hy He. apply Hfresh. cbn in He. rewrite <- He. by apply (reg_views _ _ HI b).
  - eapply priority_frame; [done|done|exact Hext|done|].
    intros b y [Hy|[-> ->]]%elem_of_appended; [left; eauto|right]. done.
Qed.

Lemma remove_registry_ok a t w :
  registry_ok w -> exists w', remove a t w = (Ok tt, w') /\ registry_ok w'.
Proof.
  intros [HI HP]. destruct w as [h [ws o pw]]. cbn in HI, HP.
  destruct (remove_ok a t h ws o pw HI) as (ws' & Hr & Hq & HI').
  eexists. split; [exact Hr|]. split; [done|]. cbn.
  eapply priority_keep; [done|apply HI|]. intros b x. rewrite Hq. case_decide; [|eauto].
  intros [_ ?]%list_elem_of_filter. eauto.
Qed.

Lemma conclude_registry_ok a i x c w :
  registry_ok w -> queue_at (registry w) a !! i = Some x ->
  exists w', conclude a i c w = (Ok tt, w') /\ registry_ok w'
    /\ queue_at (registry w') a = <[i := with_completion c x]> (queue_at (registry w) a)
    /\ waiter_signalled (events w') x = true.
Proof.
  intros [HI HP] Hx. destruct w as [h [ws o pw]]. cbn in HI, HP.
  destruct (conclude_ok a i x c h ws o pw HI Hx) as (h' & Hc & Hext & HI').
  eexists. split; [exact Hc|]. split; [split; [exact HI'|]|]; cbn.
  - eapply priority_frame; [exact HP|apply HI'|exact Hext| |].
    + intros e ->. exists a, x. split; [by eapply list_elem_of_lookup_2|done].
    + intros b y. destruct (decide (b = a)) as [->|]; [|rewrite lookup_insert_ne by done; eauto].
      rewrite lookup_insert_eq. cbn. intros [j Hj]%list_elem_of_lookup. left.
      apply list_lookup_insert_Some in Hj as [(_ & <- & _)|(_ & Hj)].
      * exists a, x. split; [by eapply list_elem_of_lookup_2|done].
      * exists a, y. split; [by eapply list_elem_of_lookup_2|done].
  - unfold queue_at. cbn. rewrite lookup_insert_eq. split; [done|].
    unfold waiter_signalled. by apply (extends_fired _ _ _ Hext).
Qed.

Lemma signal_result_registry_ok a t c w :
  registry_ok w -> exists w', signal_result a t c w = (Ok tt, w') /\ registry_ok w'.
Proof.
  intros HR. unfold signal_result, bind, get.
  destruct (waiters (registry w) !! a) as [l|] eqn:Hl; [|by exists w].
  pose proof (find_thread_spec l t) as Hf. destruct (list_find _ l) as [[i x]|]; [|by exists w].
  destruct Hf as (Hi & _ & _).
  destruct (conclude_registry_ok a i x c w HR) as (w' & Hc & HR' & _); [|by exists w'].
  unfold queue_at. by rewrite Hl.
Qed.

Lemma find_unexpired_some h t entries a i :
  find_unexpired h t entries = Some (a, i) ->
  exists l x, (a, l) ∈ entries /\ l !! i = Some x /\ thread x = t /\ waiter_signalled h x = false.
Proof.
  induction entries as [|[b l] rest IH]; [done|]. cbn.
  pose proof (find_thread_spec l t) as Hf.
  assert (Hrest : find_unexpired h t rest = Some (a, i) -> exists l0 x, (a, l0) ∈ (b, l) :: rest
    /\ l0 !! i = Some x /\ thread x = t /\ waiter_signalled h x = false).
  { intros (l0 & x & Hin & Hx)%IH. exists l0, x. split; [by right|done]. }
  destruct (list_find _ l) as [[j x]|]; [|done].
  destruct Hf as (Hj & Ht & _). destruct (waiter_signalled h x) eqn:Hs; [done|].
  intros [= <- <-]. exists l, x. split; [by left|done].
Qed.

Lemma expire_registry_ok t w :
  registry_ok w -> exists b w', expire_thread_wait t w = (Ok b, w') /\ registry_ok w'.
Proof.
  intros HR. unfold expire_thread_wait, bind, get.
  destruct (find_unexpired _ _ _) as [[a i]|] eqn:Hf; [|by exists false, w].
  apply find_unexpired_some in Hf as (l & x & Hin & Hx & _). apply btree_iter_elem in Hin.
  destruct (conclude_registry_ok a i x CompletionTimedOut w HR) as (w' & Hc & HR' & _).
  { unfold queue_at. by rewrite Hin. }
  rewrite Hc. by exists true, w'.
Qed.

(** Rewriting priorities in place. *)
Lemma reprioritise_ok (f : AddressWaiter -> AddressWaiter) h (ws : gmap Z (list AddressWaiter)) pw :
  (forall x, same_wait (f x) x) -> reg_ok h ws -> priority_ok h ws pw ->
  reg_ok h ((fun l : list AddressWaiter => f <$> l) <$> ws)
  /\ priority_ok h ((fun l : list AddressWaiter => f <$> l) <$> ws) pw.
Proof.
  intros Hsame HI HP.
  assert (Hq : forall a, default [] (((fun l : list AddressWaiter => f <$> l) <$> ws) !! a)
                         = f <$> default [] (ws !! a)).
  { intros a. rewrite lookup_fmap. by destruct (ws !! a). }
  split.
  - eapply reg_ok_same; [done|apply HI|apply heap_extends_none| |].
    + intros a. rewrite lookup_fmap. pose proof (reg_tight _ _ HI a) as Ht.
      destruct (ws !! a) as [[|y l]|]; done.
    + intros a. rewrite Hq. apply Forall2_fmap_l, Forall_Forall2_diag, Forall_true. apply Hsame.
  - eapply priority_keep; [done|apply HI|]. intros a x. rewrite Hq.
    intros (y & -> & Hy)%list_elem_of_fmap. exists a, y. split; [done|]. by destruct (Hsame y) as (_ & _ & ->).
Qed.

Lemma change_priority_registry_ok t p w :
  registry_ok w -> exists w', change_priority t p w = (Ok tt, w') /\ registry_ok w'.
Proof.
  intros [HI (s & Hs & Hdis)]. destruct w as [h [ws o pw]]. cbn in HI, Hs, Hdis.
  destruct (RtPriorityWait.change_priority_refines _ s t p Hs) as ([h' pw'] & Hc & Hs' & Hh).
  cbn in Hh. subst h'.
  unfold change_priority, bind, on_priority, get.
  cbn [events registry priority_waits]. rewrite Hc. cbn.
  eexists. split; [reflexivity|]. apply reprioritise_ok; cbn.
  - intros x. by destruct (thread x =? t).
  - done.
  - eexists. split; [exact Hs'|]. intros a x y Hx. unfold RtPriorityWait.spec_change_priority.
    pose proof (RtPriorityWait.find_active (RtPriorityWait.active s) t) as Hf.
    destruct (list_find _ _) as [[i z]|]; [|by apply (Hdis a)].
    case_match; [by apply (Hdis a)|]. cbn.
    intros [Hy|Hy%list_elem_of_singleton]%elem_of_app.
    + apply RtPriorityWait.elem_of_without in Hy as [_ Hy]. by apply (Hdis a).
    + subst y. cbn. apply (Hdis a x z Hx). by destruct Hf.
Qed.

(** Taking a wait out of its queue. *)
Lemma take_out_ok h (ws : gmap Z (list AddressWaiter)) from t i x :
  reg_ok h ws -> list_find (fun y => thread y = t) (default [] (ws !! from)) = Some (i, x) ->
  let rest := delete i (default [] (ws !! from)) in
  let ws1 := match rest with [] => delete from ws | _ => <[from := rest]> ws end in
  reg_ok h ws1
  /\ (forall b, default [] (ws1 !! b)
       = if decide (b = from) then filter (fun y => thread y <> t) (default [] (ws !! b))
         else default [] (ws !! b)).
Proof.
  intros HI Hfind rest ws1. pose proof (find_thread_spec (default [] (ws !! from)) t) as Hf.
  rewrite Hfind in Hf. destruct Hf as (_ & _ & Hdel). specialize (Hdel (reg_threads _ _ HI from)).
  assert (Hq : forall b, default [] (ws1 !! b)
       = if decide (b = from) then filter (fun y => thread y <> t) (default [] (ws !! b))
         else default [] (ws !! b)).
  { intros b. case_decide as Hb; subst ws1.
    - subst b. rewrite <- Hdel. fold rest.
      destruct rest; [by rewrite lookup_delete_eq|by rewrite lookup_insert_eq].
    - destruct rest; by rewrite ?lookup_delete_ne, ?lookup_insert_ne. }
  split; [|done]. eapply (reg_ok_sub h ws _ t from); [done| |done]. intros b. subst ws1.
  destruct (decide (b = from)) as [->|].
  - destruct rest; [by rewrite lookup_delete_eq|by rewrite lookup_insert_eq].
  - pose proof (reg_tight _ _ HI b). destruct rest; by rewrite ?lookup_delete_ne, ?lookup_insert_ne.
Qed.

Lemma move_ok from to t w :
  registry_ok w -> contains from t w = true -> (from = to \/ contains to t w = false) ->
  exists w', move_waiter from to t w = (Ok tt, w') /\ registry_ok w'.
Proof.
  intros [HI HP] Hfrom Hto. destruct w as [h [ws o pw]]. cbn in HI, HP.
  rewrite contains_spec in Hfrom. unfold queue_at in Hfrom. cbn in Hfrom.
  unfold move_waiter, bind, get. cbn [registry waiters].
  destruct (ws !! from) as [l|] eqn:Hl; [|by apply not_elem_of_nil in Hfrom]. cbn [default] in Hfrom.
  cbn [expect ret]. pose proof (find_thread_spec l t) as Hf.
  destruct (list_find (fun y => thread y = t) l) as [[i x]|] eqn:Hfind.
  2: { exfalso. apply list_find_None in Hfind. apply list_elem_of_fmap in Hfrom as (y & -> & Hy).
       by eapply Forall_forall in Hfind. }
  destruct Hf as (Hi & Ht & _). cbn [expect ret fst snd].
  destruct (take_out_ok h ws from t i x HI) as [HI1 Hq1]; [by rewrite Hl|]. rewrite Hl in HI1, Hq1.
  cbn [default] in HI1, Hq1. revert HI1 Hq1.
  set (ws1 := match delete i l with [] => delete from ws | _ => <[from := delete i l]> ws end).
  intros HI1 Hq1.
  assert (Hx : x ∈ default [] (ws !! from)) by (rewrite Hl; by eapply list_elem_of_lookup_2).
  assert (Hback : forall b y, y ∈ default [] (ws1 !! b) ->
    y ∈ default [] (ws !! b) /\ (b = from -> thread y <> t)).
  { intros b y. rewrite Hq1. case_decide; [|tauto]. intros [? ?]%list_elem_of_filter. done. }
  eexists. split; [reflexivity|]. split; cbn [events registry waiters priority_waits].
  - apply append_ok; cbn; [done| |by apply (reg_views _ _ HI from)..|].
    + intros (y & He & [Hy Hne]%Hback)%list_elem_of_fmap. rewrite Ht in He.
      destruct Hto as [->|Hto]; [by apply Hne|]. apply not_contains in Hto. apply Hto.
      rewrite He. by apply list_elem_of_fmap_2.
    + intros b y [Hy Hne]%Hback He. destruct (reg_events _ _ HI b from y x Hy Hx He) as [-> Hth].
      apply Hne; [done|]. congruence.
  - eapply priority_keep; [done|apply HI|].
    intros b y [[Hy _]%Hback|[-> ->]]%elem_of_appended; [eauto|]. exists from, x. done.
Qed.

(** ** The exit of a thread *)

Lemma owned_by_elem t o a : a ∈ owned_by t o <-> o !! a = Some t.
Proof.
  unfold owned_by. rewrite list_elem_of_fmap. split.
  - intros ([b u] & -> & Hin%btree_iter_elem). apply map_lookup_filter_Some in Hin as [? ->]. done.
  - intros Ho. exists (a, t). split; [done|]. apply btree_iter_elem. by apply map_lookup_filter_Some.
Qed.

Lemma owned_by_nodup t o : NoDup (owned_by t o).
Proof.
  unfold owned_by, btree_iter. rewrite merge_sort_Permutation. apply NoDup_fst_map_to_list.
Qed.

Lemma foldr_delete_lookup {V} (o : gmap Z V) l a :
  foldr delete o l !! a = if decide (a ∈ l) then None else o !! a.
Proof.
  induction l as [|b l IH]; cbn; [by rewrite decide_False by apply not_elem_of_nil|].
  destruct (decide (a = b)) as [->|Hne].
  - rewrite lookup_delete_eq, decide_True by by left. done.
  - rewrite lookup_delete_ne, IH by done. apply decide_ext. rewrite elem_of_cons. tauto.
Qed.

(** What is left of an address's waits when [t] is gone. *)
Definition after_exit (w : RegistryWorld) (t a : Z) : list AddressWaiter :=
  let l := filter (fun y => thread y <> t) (queue_at (registry w) a) in
  if decide (owner a w = Some t) then cancelled (events w) l else l.

(** The waits whose mutex [t] owned. *)
Definition orphaned (w : RegistryWorld) (t : Z) (e : EventId) : Prop :=
  exists a x, owner a w = Some t /\ x ∈ queue_at (registry w) a /\ thread x <> t
    /\ mutex_waiting (events w) x /\ readable x = e.

(** The priority waits without the thread's: its position, its deadline, its
    result and its place in its queue, and nothing else. *)
Definition priority_gone (t : Z) (pw pw' : RtPriorityWait.PriorityAddressWaitQueue) : Prop :=
  RtPriorityWait.positions pw' = delete t (RtPriorityWait.positions pw)
  /\ RtPriorityWait.completed pw' = delete t (RtPriorityWait.completed pw)
  /\ RtPriorityWait.deadlines pw' = filter (fun e => e.2 <> t) (RtPriorityWait.deadlines pw)
  /\ forall a p, RtPriorityWait.bucket (RtPriorityWait.queues pw') a p
       = filter (fun x => RtPriorityWait.waiter_thread x <> t) (RtPriorityWait.bucket (RtPriorityWait.queues pw) a p).

Lemma priority_remove_ok t h ws pw :
  priority_ok h ws pw ->
  exists pw', RtPriorityWait.remove t (RtPriorityWait.mkWorld h pw)
    = (Ok tt, RtPriorityWait.mkWorld h pw')
    /\ priority_ok h ws pw' /\ priority_gone t pw pw'.
Proof.
  intros (s & Hs & Hdis).
  destruct (RtPriorityWait.remove_refines _ s t Hs) as ([h' pw'] & Hr & Hs' & Hh).
  cbn in Hh. subst h'. exists pw'. split; [done|]. split.
  - eexists. split; [exact Hs'|]. cbn. intros a x y Hx [_ Hy]%RtPriorityWait.elem_of_without.
    by apply (Hdis a).
  - exact (RtPriorityWait.tables_without _ _ s t Hs Hs').
Qed.

Lemma release_thread_ok t w :
  registry_ok w ->
  exists w', release_thread t w = (Ok tt, w') /\ registry_ok w'
    /\ (forall a, owner a w' = if decide (owner a w = Some t) then None else owner a w)
    /\ (forall a, queue_at (registry w') a = after_exit w t a)
    /\ heap_extends (orphaned w t) (events w) (events w')
    /\ priority_gone t (priority_waits (registry w)) (priority_waits (registry w')).
Proof.
  intros [HI HP]. destruct w as [h [ws o pw]]. cbn in HI, HP.
  destruct (priority_remove_ok t h ws pw HP) as (pw' & Hrem & HP1 & Hgone).
  unfold release_thread, bind, on_priority, get. cbn [events registry priority_waits].
  rewrite Hrem. cbn [registry waiters owners RtPriorityWait.world_events RtPriorityWait.world_queue].
  destruct (remove_all_ok t ((btree_iter ws).*1) h ws o pw' HI) as (ws1 & Hall & Hq1 & HI1).
  rewrite Hall. cbn [registry waiters owners].
  destruct (cancel_owned_ok (owned_by t o) h ws1 o pw' HI1 (owned_by_nodup t o))
    as (h' & ws' & Hrun & HI' & Hq & Hext).
  rewrite Hrun.
  assert (Hq1' : forall a, default [] (ws1 !! a) = filter (fun y => thread y <> t) (default [] (ws !! a))).
  { intros a. rewrite Hq1. case_decide as Hin; [done|].
    destruct (ws !! a) as [l|] eqn:Hl; [|done]. exfalso. apply Hin.
    apply list_elem_of_fmap. exists (a, l). split; [done|]. by apply btree_iter_elem. }
  assert (Hext' : heap_extends (orphaned (mkRegistryWorld h (mkRegistry ws o pw)) t) h h').
  { eapply heap_extends_iff; [|exact Hext]. intros e. unfold orphaned, owner, queue_at. cbn.
    setoid_rewrite owned_by_elem. setoid_rewrite Hq1'. setoid_rewrite list_elem_of_filter. naive_solver. }
  eexists. split; [reflexivity|]. split; [split; [done|]|split; [|split; [|split; [done|done]]]]; cbn.
  - eapply priority_frame; [exact HP1|apply HI'|exact Hext'| |].
    + intros e (a & x & _ & Hx & _ & _ & He). eauto.
    + intros a x. rewrite Hq, Hq1'. intros Hx. left.
      assert (Hx' : exists y, y ∈ filter (fun y => thread y <> t) (default [] (ws !! a))
                      /\ readable y = readable x).
      { case_decide; [|eauto]. unfold cancelled in Hx. apply list_elem_of_fmap in Hx as (y & -> & Hy).
        exists y. split; [done|]. unfold cancel_wait. by case_decide. }
      destruct Hx' as (y & [_ Hy]%list_elem_of_filter & He). eauto.
  - intros a. unfold owner. cbn. rewrite foldr_delete_lookup. apply decide_ext.
    rewrite elem_of_reverse. apply owned_by_elem.
  - intros a. unfold after_exit, queue_at, owner. cbn. rewrite Hq, Hq1'.
    apply decide_ext. apply owned_by_elem.
Qed.

(** ** The calls through [priority_waits_mut] *)

(** They keep the registry's own waits and their events apart. *)
Lemma priority_command_ok c w :
  registry_ok w -> RtPriorityWait.command_ok c ->
  exists r w', on_priority (RtPriorityWait.apply_command c) w = (Ok r, w') /\ registry_ok w'.
Proof.
  intros [HI (s & Hs & Hdis)] Hc. destruct w as [h [ws o pw]]. cbn in HI, Hs, Hdis.
  destruct (RtPriorityWait.command_refines c _ s Hc Hs) as ([h' pw'] & Hrun & Hs').
  pose proof (RtPriorityWait.keeps_command c (RtPriorityWait.mkWorld h pw)) as Hkeep.
  rewrite Hrun in Hkeep. cbn in Hkeep.
  destruct (RtPriorityWait.spec_command_advances c s) as [Hf Ha].
  pose proof (RtPriorityWait.refines_events _ _ Hs) as [Hwf Hn Hfi _ _].
  pose proof (RtPriorityWait.refines_events _ _ Hs') as [Hwf' _ Hfi' _ _]. cbn in Hwf, Hn, Hfi, Hwf', Hfi'.
  assert (Hext : heap_extends (fun e => event_signalled h' e = true) h h').
  { split; [done| |done]. intros e He. destruct (event_signalled h e) eqn:Hh.
    - apply Hfi, Hf, Hfi' in Hh. done.
    - by destruct (event_signalled h' e). }
  unfold on_priority. cbn [events registry priority_waits]. rewrite Hrun. do 2 eexists. split; [reflexivity|].
  split; cbn.
  - eapply reg_ok_same; [done|done|exact Hext|apply (reg_tight _ _ HI)|]. intros a. apply same_refl.
  - eexists. split; [exact Hs'|]. intros a x y Hx Hy He. destruct (Ha y Hy) as [(z & Hz & Hez)|Hnew].
    + apply (Hdis a x z Hx Hz). congruence.
    + destruct (reg_views _ _ HI a x Hx) as [_ Hal]. apply Hwf in Hal. lia.
Qed.

(** ** Histories *)

(** Every method that changes the registry, and every method of the priority
    waits it hands out through [priority_waits] and [priority_waits_mut]. *)
Inductive RegistryCall : Type :=
| CallEnqueue (a t v : Z)
| CallEnqueueCondition (a t v lock : Z)
| CallRemove (a t : Z)
| CallChangePriority (t p : Z)
| CallRefreshPriorities (prio : Z -> Z)
| CallSignalResult (a t : Z) (c : AddressWaitCompletion)
| CallExpire (t : Z)
| CallMove (from to t : Z)
| CallSetOwner (a t : Z)
| CallRemoveOwner (a : Z)
| CallRelease (t : Z)
| CallPriority (c : RtPriorityWait.Command).

Definition apply_call (c : RegistryCall) : RM unit :=
  match c with
  | CallEnqueue a t v => do! enqueue a t v in ret tt
  | CallEnqueueCondition a t v lock => do! enqueue_condition a t v lock in ret tt
  | CallRemove a t => remove a t
  | CallChangePriority t p => change_priority t p
  | CallRefreshPriorities prio => refresh_mutex_priorities prio
  | CallSignalResult a t r => signal_result a t r
  | CallExpire t => do! expire_thread_wait t in ret tt
  | CallMove from to t => move_waiter from to t
  | CallSetOwner a t => set_owner a t
  | CallRemoveOwner a => do! remove_owner a in ret tt
  | CallRelease t => release_thread t
  | CallPriority c => do! on_priority (RtPriorityWait.apply_command c) in ret tt
  end.

(** What the callers guarantee: a thread is not queued twice at an address, and
    a moved wait exists; the count of a priority signal is a [usize]. *)
Definition call_ok (c : RegistryCall) (w : RegistryWorld) : Prop :=
  match c with
  | CallEnqueue a t _ | CallEnqueueCondition a t _ _ => contains a t w = false
  | CallMove from to t => contains from t w = true /\ (from = to \/ contains to t w = false)
  | CallPriority c => RtPriorityWait.command_ok c
  | _ => True
  end.

Lemma apply_call_ok c w :
  registry_ok w -> call_ok c w -> exists w', apply_call c w = (Ok tt, w') /\ registry_ok w'.
Proof.
  intros HR Hc. destruct c; cbn [apply_call call_ok] in *.
  - destruct (enqueue_ok a t v None w HR Hc) as (w' & He & HR'). exists w'. split; [|done].
    unfold enqueue, bind. by rewrite He.
  - destruct (enqueue_ok a t v (Some lock) w HR Hc) as (w' & He & HR'). exists w'. split; [|done].
    unfold enqueue_condition, bind. by rewrite He.
  - by apply remove_registry_ok.
  - by apply change_priority_registry_ok.
  - destruct w as [h [ws o pw]]. destruct HR as [HI HP]. eexists. split; [reflexivity|].
    by apply reprioritise_ok.
  - by apply signal_result_registry_ok.
  - destruct (expire_registry_ok t w HR) as (b & w' & He & HR'). exists w'. split; [|done].
    unfold bind. by rewrite He.
  - destruct Hc. by apply move_ok.
  - by eexists.
  - by eexists.
  - destruct (release_thread_ok t w HR) as (w' & He & HR' & _). eauto.
  - destruct (priority_command_ok c w HR Hc) as (r & w' & He & HR'). exists w'. split; [|done].
    unfold bind. by rewrite He.
Qed.

Definition empty_world : RegistryWorld := mkRegistryWorld empty_heap empty_registry.

Lemma empty_registry_ok : registry_ok empty_world.
Proof.
  split.
  - split; cbn.
    + intros id [e He]. cbn in He. by rewrite lookup_empty in He.
    + intros a. by rewrite lookup_empty.
    + intros a. rewrite lookup_empty. constructor.
    + intros a x. rewrite lookup_empty. intros Hx. by apply not_elem_of_nil in Hx.
    + intros a b x y. rewrite lookup_empty. intros Hx. by apply not_elem_of_nil in Hx.
  - exists RtPriorityWait.empty_spec. split; [apply RtPriorityWait.empty_refines|].
    intros a x y _ Hy. by apply not_elem_of_nil in Hy.
Qed.

Inductive registry_reachable : RegistryWorld -> Prop :=
| registry_start : registry_reachable empty_world
| registry_next w c w' : registry_reachable w -> call_ok c w -> apply_call c w = (Ok tt, w') ->
    registry_reachable w'.

Lemma reachable_registry_ok w : registry_reachable w -> registry_ok w.
Proof.
  induction 1 as [|w c w' _ IH Hc Ha]; [apply empty_registry_ok|].
  destruct (apply_call_ok c w IH Hc) as (w1 & Ha1 & HR1). congruence.
Qed.

(** The orphaned waits, listed. *)
Definition orphans (w : RegistryWorld) (t : Z) : list AddressWaiter :=
  owned_by t (owners (registry w))
    ≫= fun a => filter (fun x => thread x <> t /\ mutex_waiting (events w) x) (queue_at (registry w) a).

Lemma orphaned_list w t e : orphaned w t e <-> e ∈ readable <$> orphans w t.
Proof.
  unfold orphaned, orphans, owner. rewrite list_elem_of_fmap.
  setoid_rewrite list_elem_of_bind. setoid_rewrite list_elem_of_filter.
  setoid_rewrite owned_by_elem. naive_solver.
Qed.

#[export] Instance orphaned_dec w t e : Decision (orphaned w t e).
Proof.
  refine (cast_if (decide (e ∈ readable <$> orphans w t))); by rewrite orphaned_list.
Defined.

(** ** Claims *)

(** C16. The registry's methods do not panic and keep its waits apart.  In every
    state that the methods reach from an empty registry, those of the priority
    waits it hands out through [priority_waits_mut] included, a call within its
    contract (a thread is not queued twice at one address, a moved wait exists)
    returns, [release_thread]'s loop and the methods of the priority waits
    included, and leads to a state where again no queue is empty, a thread waits
    at most once at each address, two waits with the same event are the same
    thread's wait at the same address, and the four tables of the priority waits
    describe one list of waits, each with an event of its own that is not set and
    that no other wait has. *)
Theorem registry_calls_return w c :
  registry_reachable w -> call_ok c w ->
  exists w', apply_call c w = (Ok tt, w') /\ registry_reachable w'
    /\ (forall a, waiters (registry w') !! a <> Some [])
    /\ (forall a, NoDup (thread <$> queue_at (registry w') a))
    /\ (forall a b x y, x ∈ queue_at (registry w') a -> y ∈ queue_at (registry w') b ->
          readable x = readable y -> a = b /\ thread x = thread y)
    /\ exists s, RtPriorityWait.refines (RtPriorityWait.mkWorld (events w') (priority_waits (registry w'))) s
         /\ forall a x y, x ∈ queue_at (registry w') a -> y ∈ RtPriorityWait.active s ->
              readable x <> RtPriorityWait.event y.
Proof.
  intros Hr Hc. destruct (apply_call_ok c w (reachable_registry_ok w Hr) Hc) as (w' & Ha & HI & HP).
  exists w'. split; [done|]. split; [by eapply registry_next|]. destruct HI. by repeat (split; [done|]).
Qed.

Definition after (c : RegistryCall) (w : RegistryWorld) : RegistryWorld := (apply_call c w).2.

(** A mutex owned by thread 1, on which threads 2 and 3 wait; a condition wait
    of thread 4 at the same address; priority waits of threads 1 and 5 at
    another one. *)
Definition sample_world : RegistryWorld :=
  after (CallPriority (RtPriorityWait.Enqueue 12288 5 20 (Some 100)))
    (after (CallPriority (RtPriorityWait.Enqueue 12288 1 20 (Some 50)))
      (after (CallEnqueueCondition 4096 4 7 8192)
        (after (CallEnqueue 4096 3 22136)
          (after (CallEnqueue 4096 2 4660) (after (CallSetOwner 4096 1) empty_world))))).

Lemma after_reachable w c :
  registry_reachable w -> call_ok c w -> (apply_call c w).1 = Ok tt -> registry_reachable (after c w).
Proof.
  intros Hr Hc Ha. apply (registry_next w c); [done|done|].
  unfold after. rewrite (surjective_pairing (apply_call c w)) at 1. by rewrite Ha.
Qed.

Lemma sample_reachable : registry_reachable sample_world.
Proof.
  unfold sample_world.
  repeat (apply after_reachable; [|vm_compute; first [reflexivity|exact I]|vm_compute; reflexivity]).
  constructor.
Qed.

(** A priority change with a mutex wait, a condition wait and priority waits
    present. *)
Lemma registry_calls_return_witness :
  RtPriorityWait.contains 5 (priority_waits (registry sample_world)) = true
  /\ exists w', apply_call (CallChangePriority 5 10) sample_world = (Ok tt, w')
    /\ NoDup (thread <$> queue_at (registry w') 4096).
Proof.
  split; [vm_compute; reflexivity|].
  destruct (registry_calls_return sample_world (CallChangePriority 5 10)) as (w' & Ha & _ & _ & Hn & _).
  - exact sample_reachable.
  - exact I.
  - exists w'. split; [exact Ha|apply Hn].
Defined.

(** C17. The exit of a thread cancels the waits on its mutexes and nothing else.
    [release_thread] returns; the thread owns no mutex and has no wait left,
    mutexes of other threads keep their owner; at an address it owned, every
    mutex wait that was not over completes with [InvalidOwner], and exactly the
    events of these waits become signalled; condition waits, waits that were
    over and waits at other addresses are unchanged and stay in order.  Of the
    priority waits, the thread's own is gone from all four tables, with its
    deadline or its result, and those of the other threads are unchanged and in
    the same order. *)
Theorem thread_exit_cancels w t :
  registry_reachable w ->
  exists w', release_thread t w = (Ok tt, w') /\ registry_reachable w'
    /\ (forall a, owner a w' = if decide (owner a w = Some t) then None else owner a w)
    /\ (forall a, contains a t w' = false)
    /\ (let pw := priority_waits (registry w) in let pw' := priority_waits (registry w') in
        RtPriorityWait.positions pw' = delete t (RtPriorityWait.positions pw)
        /\ RtPriorityWait.completed pw' = delete t (RtPriorityWait.completed pw)
        /\ RtPriorityWait.deadlines pw' = filter (fun e => e.2 <> t) (RtPriorityWait.deadlines pw)
        /\ forall a p, RtPriorityWait.bucket (RtPriorityWait.queues pw') a p
             = filter (fun x => RtPriorityWait.waiter_thread x <> t) (RtPriorityWait.bucket (RtPriorityWait.queues pw) a p))
    /\ (forall a, queue_at (registry w') a
          = let l := filter (fun y => thread y <> t) (queue_at (registry w) a) in
            if decide (owner a w = Some t) then
              (fun x => if decide (lock_address x = None /\ event_signalled (events w) (readable x) = false)
                        then with_completion InvalidOwner x else x) <$> l
            else l)
    /\ (forall e, event_signalled (events w') e = true <->
          event_signalled (events w) e = true \/ orphaned w t e).
Proof.
  intros Hr. destruct (release_thread_ok t w (reachable_registry_ok w Hr))
    as (w' & He & _ & Ho & Hq & [_ Ef Et] & Hp).
  exists w'. split; [done|]. split; [by apply (registry_next w (CallRelease t))|].
  split; [done|]. split; [|split; [exact Hp|split; [|]]].
  - intros a. destruct (contains a t w') eqn:Hc; [|done]. apply contains_spec in Hc.
    rewrite Hq in Hc. apply list_elem_of_fmap in Hc as (x & -> & Hx). unfold after_exit in Hx.
    case_decide; [unfold cancelled in Hx; apply list_elem_of_fmap in Hx as (y & -> & Hx)|];
      apply list_elem_of_filter in Hx as [Hne _]; exfalso; apply Hne; [|done].
    unfold cancel_wait. by case_decide.
  - exact Hq.
  - intros e. split.
    + intros Hs. destruct (event_signalled (events w) e) eqn:Hw; [by left|].
      destruct (orphaned_dec w t e) as [Hor|Hor]; [by right|]. rewrite Ef in Hs; congruence.
    + intros [Hs|Hor]; [|by apply Et]. destruct (orphaned_dec w t e) as [Hor|Hor]; [by apply Et|].
      by rewrite Ef.
Qed.

(** Thread 1 leaves: the waits on its mutex end, the condition wait does not,
    and thread 5 keeps its priority wait. *)
Lemma thread_exit_cancels_witness :
  exists w', release_thread 1 sample_world = (Ok tt, w')
    /\ owner 4096 w' = None
    /\ (completion <$> queue_at (registry w') 4096) = [InvalidOwner; InvalidOwner; Success]
    /\ event_signalled (events w') 2 = false
    /\ (RtPriorityWait.waiter_thread <$> RtPriorityWait.bucket (RtPriorityWait.queues (priority_waits (registry sample_world))) 12288 20) = [1; 5]
    /\ (RtPriorityWait.waiter_thread <$> RtPriorityWait.bucket (RtPriorityWait.queues (priority_waits (registry w'))) 12288 20) = [5].
Proof.
  destruct (thread_exit_cancels sample_world 1 sample_reachable)
    as (w' & He & _ & Ho & _ & (_ & _ & _ & Hb) & Hq & Hf).
  exists w'. split; [exact He|]. split; [rewrite Ho; vm_compute; reflexivity|].
  split; [rewrite Hq; vm_compute; reflexivity|].
  split; [|split; [vm_compute; reflexivity|rewrite Hb; vm_compute; reflexivity]].
  destruct (event_signalled (events w') 2) eqn:H2; [|reflexivity].
  apply Hf in H2 as [H2|H2]; [vm_compute in H2; discriminate|].
  apply orphaned_list, (bool_decide_eq_true_2 _) in H2. vm_compute in H2. discriminate.
Defined.
