(* ===== verification/RtHandle.v ===== *)
(** * Process handle tables (crates/runtime/src/handle.rs)

    A [HandleObject] is a shared reference: its model is the object's identity.
    A table holds the live handles, the numbers returned by [close] and the next
    number never used; its [changed] event is signalled by every update.  The
    methods act on the heap of events and the table. *)

From S2P Require Import Prelude RtEvent.

Definition ObjectId := Z.

Definition FIRST_HANDLE : Z := 1.
Definition LAST_HANDLE : Z := 2147483647.

Inductive HandleError : Type :=
| Exhausted
| AllocationFailed
| InvalidHandle (handle : Z)
| ObjectTooLarge (size : Z)
| InvalidRange
| BackingAccess
| MemoryWrite.

Record HandleTable := mkTable {
  objects : gmap Z ObjectId;
  recycled : gset Z;
  next_handle : Z;
  capacity_limit : Z;
  changed : EventId;
}.

(** [HandleTable::with_capacity_limit]; the [changed] event is allocated by the
    caller of the model. *)
Definition with_capacity_limit (limit : Z) (event : EventId) : HandleTable :=
  mkTable ∅ ∅ FIRST_HANDLE limit event.

Definition new_table (event : EventId) : HandleTable :=
  mkTable ∅ ∅ FIRST_HANDLE (LAST_HANDLE - FIRST_HANDLE + 1) event.

Record TableWorld := mkTableWorld { table_events : EventHeap; table : HandleTable }.

Notation TM := (SM TableWorld HandleError).

Definition notify_changed : TM unit :=
  fun w => let '(r, h) := signal (changed (table w)) (table_events w) in (r, mkTableWorld h (table w)).

Definition set_table (t : HandleTable) : TM unit :=
  modify (fun w => mkTableWorld (table_events w) t).

Definition len (t : HandleTable) : Z := Z.of_nat (size (objects t)).

Definition is_empty (t : HandleTable) : bool := bool_decide (objects t = ∅).

Definition get_object (t : HandleTable) (handle : Z) : option ObjectId := objects t !! handle.

(** [u32::saturating_add] *)
Definition saturating_add_u32 (x y : Z) : Z := Z.min (x + y) (2 ^ 32 - 1).

Definition insert_object (object : ObjectId) : TM Z :=
  let! w := get in
  let t := table w in
  do! guard (capacity_limit t <=? len t) Exhausted in
  let! allocated :=
    match set_first (recycled t) with
    | Some handle => ret (handle, recycled t ∖ {[handle]}, next_handle t)
    | None =>
        let handle := next_handle t in
        do! guard (LAST_HANDLE <? handle) Exhausted in
        ret (handle, recycled t, saturating_add_u32 handle 1)
    end in
  let '(handle, recycled', next') := allocated in
  do! set_table (mkTable (<[handle := object]> (objects t)) recycled' next' (capacity_limit t) (changed t)) in
  do! notify_changed in
  ret handle.

Definition duplicate (handle : Z) : TM Z :=
  let! w := get in
  let! object := ok_or (objects (table w) !! handle) (InvalidHandle handle) in
  insert_object object.

Definition close (handle : Z) : TM ObjectId :=
  let! w := get in
  let t := table w in
  let! object := ok_or (objects t !! handle) (InvalidHandle handle) in
  do! set_table (mkTable (delete handle (objects t)) ({[handle]} ∪ recycled t) (next_handle t)
                   (capacity_limit t) (changed t)) in
  do! notify_changed in
  ret object.

(** Two tables of different processes, and the events of both. *)
Record TransferWorld := mkTransfer {
  transfer_events : EventHeap;
  source_table : HandleTable;
  destination_table : HandleTable;
}.

Definition on_source {A} (m : TM A) : SM TransferWorld HandleError A :=
  fun w =>
    let '(r, v) := m (mkTableWorld (transfer_events w) (source_table w)) in
    (r, mkTransfer (table_events v) (table v) (destination_table w)).

Definition on_destination {A} (m : TM A) : SM TransferWorld HandleError A :=
  fun w =>
    let '(r, v) := m (mkTableWorld (transfer_events w) (destination_table w)) in
    (r, mkTransfer (table_events v) (source_table w) (table v)).

(** [.expect(..)] on the result of a method: an error panics. *)
Definition expect_method {S E A} (m : SM S E A) : SM S E A :=
  fun s => match m s with (Ok a, s') => (Ok a, s') | (_, s') => (Panic, s') end.

Definition transfer_to (handle : Z) : SM TransferWorld HandleError Z :=
  let! w := get in
  do! guard (negb (bool_decide (is_Some (objects (source_table w) !! handle)))) (InvalidHandle handle) in
  let d := destination_table w in
  do! guard ((capacity_limit d <=? len d)
             || ((LAST_HANDLE <? next_handle d) && bool_decide (recycled d = ∅))) Exhausted in
  let! object := on_source (close handle) in
  expect_method (on_destination (insert_object object)).

(** ** The invariant *)

(** The numbers below [next_handle] are the live and the recycled handles. *)
Record table_ok (t : HandleTable) : Prop := {
  table_next : FIRST_HANDLE <= next_handle t <= LAST_HANDLE + 1;
  table_used : forall k, FIRST_HANDLE <= k < next_handle t <->
    is_Some (objects t !! k) \/ k ∈ recycled t;
  table_apart : forall k, k ∈ recycled t -> objects t !! k = None;
}.

Definition world_ok (w : TableWorld) : Prop :=
  heap_wf (table_events w) /\ allocated (table_events w) (changed (table w)) /\ table_ok (table w).

Lemma new_table_ok limit event : table_ok (with_capacity_limit limit event).
Proof.
  split; cbn.
  - unfold FIRST_HANDLE, LAST_HANDLE. lia.
  - intros k. rewrite lookup_empty. split; [lia|]. intros [[]|?]; [done|set_solver].
  - set_solver.
Qed.

(** The least handle number that is not live. *)
Definition lowest_free (m : gmap Z ObjectId) (k : Z) : Prop :=
  FIRST_HANDLE <= k /\ m !! k = None /\ forall j, FIRST_HANDLE <= j < k -> is_Some (m !! j).

Lemma lowest_free_unique m j k : lowest_free m j -> lowest_free m k -> j = k.
Proof.
  intros (Hj1 & Hj2 & Hj) (Hk1 & Hk2 & Hk). destruct (Z.lt_trichotomy j k) as [Hlt|[?|Hlt]]; [|done|].
  - destruct (Hk j) as [o Ho]; [lia|congruence].
  - destruct (Hj k) as [o Ho]; [lia|congruence].
Qed.

(** ** Notification *)

Lemma notify_changed_ok w :
  world_ok w ->
  exists h', notify_changed w = (Ok tt, mkTableWorld h' (table w))
    /\ world_ok (mkTableWorld h' (table w))
    /\ event_signalled h' (changed (table w)) = true
    /\ heap_extends (fun e => e = changed (table w)) (table_events w) h'.
Proof.
  intros (Hwf & Ha & Ht).
  destruct (signal_ok (E := HandleError) (table_events w) (changed (table w)) Hwf Ha)
    as (h' & Hs & Hwf' & _ & Hext).
  exists h'. unfold notify_changed. rewrite Hs. split; [done|].
  split; [|split; [by apply (extends_fired _ _ _ Hext)|done]].
  split; [done|]. split; [by apply (extends_alloc _ _ _ Hext)|done].
Qed.

#[local] Opaque notify_changed.

(** ** Insertion *)

(** Where the code looks for a number, and what that leaves. *)
Lemma recycled_first_lowest t h :
  table_ok t -> set_first (recycled t) = Some h -> lowest_free (objects t) h /\ h <= LAST_HANDLE.
Proof.
  intros [Hn Hu Ha] [Hin Hmin]%set_first_spec.
  assert (Hr : FIRST_HANDLE <= h < next_handle t) by (apply Hu; by right).
  split; [|lia]. split; [lia|]. split; [by apply Ha|]. intros j Hj.
  destruct (proj1 (Hu j)) as [|Hjr]; [lia|done|]. apply Hmin in Hjr. lia.
Qed.

Lemma next_lowest t :
  table_ok t -> set_first (recycled t) = None -> lowest_free (objects t) (next_handle t).
Proof.
  intros [Hn Hu Ha] Hnone%set_first_none. split; [lia|]. split.
  - destruct (objects t !! next_handle t) eqn:Ho; [|done].
    assert (FIRST_HANDLE <= next_handle t < next_handle t) by (apply Hu; left; by eexists). lia.
  - intros j Hj. destruct (proj1 (Hu j)) as [|Hjr]; [lia|done|]. rewrite Hnone in Hjr. set_solver.
Qed.

(** The table after [handle] has been taken from the recycled numbers or from
    the end. *)
Lemma table_ok_recycled t h o :
  table_ok t -> set_first (recycled t) = Some h ->
  table_ok (mkTable (<[h := o]> (objects t)) (recycled t ∖ {[h]}) (next_handle t)
              (capacity_limit t) (changed t)).
Proof.
  intros [Hn Hu Ha] [Hin _]%set_first_spec. split; cbn; [done| |].
  - intros k. rewrite Hu, elem_of_difference, elem_of_singleton.
    destruct (decide (k = h)) as [->|Hne].
    + rewrite lookup_insert_eq. split; [left; by eexists|by right].
    + rewrite lookup_insert_ne by done. tauto.
  - intros k [Hk Hne]%elem_of_difference. rewrite lookup_insert_ne by set_solver. by apply Ha.
Qed.

Lemma table_ok_next t o :
  table_ok t -> next_handle t <= LAST_HANDLE ->
  table_ok (mkTable (<[next_handle t := o]> (objects t)) (recycled t)
              (saturating_add_u32 (next_handle t) 1) (capacity_limit t) (changed t)).
Proof.
  intros [Hn Hu Ha] Hl.
  assert (Hs : saturating_add_u32 (next_handle t) 1 = next_handle t + 1)
    by (unfold saturating_add_u32, LAST_HANDLE in *; lia).
  assert (Hfresh : next_handle t ∉ recycled t).
  { intros Hin. assert (FIRST_HANDLE <= next_handle t < next_handle t) by (apply Hu; by right). lia. }
  rewrite Hs. split; cbn; [lia| |].
  - intros k. destruct (decide (k = next_handle t)) as [->|Hne].
    + rewrite lookup_insert_eq. split; [left; by eexists|lia].
    + rewrite lookup_insert_ne, <- Hu by done. lia.
  - intros k Hk. rewrite lookup_insert_ne by (intros Heq; by rewrite Heq in Hfresh). by apply Ha.
Qed.

(** What a successful update leaves: the new table, its event signalled. *)
Definition updated (w w' : TableWorld) (m : gmap Z ObjectId) : Prop :=
  world_ok w' /\ objects (table w') = m /\ capacity_limit (table w') = capacity_limit (table w)
  /\ changed (table w') = changed (table w)
  /\ event_signalled (table_events w') (changed (table w)) = true
  /\ heap_extends (fun e => e = changed (table w)) (table_events w) (table_events w').

Definition exhausted (t : HandleTable) (k : Z) : bool :=
  (capacity_limit t <=? len t) || (LAST_HANDLE <? k).

Lemma store_ok w t' :
  world_ok w -> table_ok t' -> capacity_limit t' = capacity_limit (table w) ->
  changed t' = changed (table w) ->
  exists w', notify_changed (mkTableWorld (table_events w) t') = (Ok tt, w')
    /\ updated w w' (objects t').
Proof.
  intros (Hwf & Ha & _) Ht Hcap Hch.
  destruct (notify_changed_ok (mkTableWorld (table_events w) t')) as (h' & Hs & Hok & Hsig & Hext).
  { split; [done|]. cbn. by rewrite Hch. }
  cbn in *. rewrite Hch in *. eexists. split; [exact Hs|]. split; [done|].
  split; [done|]. split; [done|]. split; [done|]. by split.
Qed.

Lemma insert_object_ok o w :
  world_ok w ->
  exists k, lowest_free (objects (table w)) k
    /\ if exhausted (table w) k then insert_object o w = (Err Exhausted, w)
       else exists w', insert_object o w = (Ok k, w') /\ updated w w' (<[k := o]> (objects (table w))).
Proof.
  intros Hw. pose proof Hw as (_ & _ & Ht). unfold insert_object, exhausted, bind, get, guard.
  destruct (set_first (recycled (table w))) as [h|] eqn:Hfirst.
  - destruct (recycled_first_lowest _ _ Ht Hfirst) as [Hlow Hle]. exists h. split; [done|].
    replace (LAST_HANDLE <? h) with false by (symmetry; apply Z.ltb_ge; lia). rewrite orb_false_r.
    destruct (capacity_limit (table w) <=? len (table w)); [done|]. cbn.
    destruct (store_ok w _ Hw (table_ok_recycled _ _ o Ht Hfirst) eq_refl eq_refl) as (w' & Hs & Hup).
    rewrite Hs. exists w'. by split.
  - pose proof (next_lowest _ Ht Hfirst) as Hlow. exists (next_handle (table w)). split; [done|].
    destruct (capacity_limit (table w) <=? len (table w)); [done|]. cbn.
    destruct (LAST_HANDLE <? next_handle (table w)) eqn:Hl; [done|]. apply Z.ltb_ge in Hl. cbn.
    destruct (store_ok w _ Hw (table_ok_next _ o Ht Hl) eq_refl eq_refl) as (w' & Hs & Hup).
    rewrite Hs. exists w'. by split.
Qed.

Lemma table_ok_close t h o :
  table_ok t -> objects t !! h = Some o ->
  table_ok (mkTable (delete h (objects t)) ({[h]} ∪ recycled t) (next_handle t)
              (capacity_limit t) (changed t)).
Proof.
  intros [Hn Hu Ha] Ho. split; cbn; [done| |].
  - intros k. rewrite Hu, elem_of_union, elem_of_singleton. destruct (decide (k = h)) as [->|Hne].
    + rewrite lookup_delete_eq. split; [by right; left|]. left. by eexists.
    + rewrite lookup_delete_ne by done. tauto.
  - intros k [->%elem_of_singleton|Hk]%elem_of_union; [apply lookup_delete_eq|].
    apply lookup_delete_None. right. by apply Ha.
Qed.

Lemma close_ok h w :
  world_ok w ->
  match objects (table w) !! h with
  | None => close h w = (Err (InvalidHandle h), w)
  | Some o => exists w', close h w = (Ok o, w') /\ updated w w' (delete h (objects (table w)))
  end.
Proof.
  intros Hw. pose proof Hw as (_ & _ & Ht). unfold close, bind, get, ok_or.
  destruct (objects (table w) !! h) as [o|] eqn:Ho; [|done]. cbn.
  destruct (store_ok w _ Hw (table_ok_close _ _ _ Ht Ho) eq_refl eq_refl) as (w' & Hs & Hup).
  rewrite Hs. exists w'. by split.
Qed.

#[local] Opaque insert_object close.

(** ** Claims *)

(** C32. A handle table allocates the lowest free number.  For a table in any
    state its methods can leave, [insert_object] fails with [Exhausted] and no
    effect when the table is at its capacity or its lowest free number exceeds
    the last handle; otherwise it returns the least handle from 1 up that is not
    live, maps it to the object, leaves every other handle as it was and signals
    the table's event and no other; the invariant is kept. *)
Theorem insert_takes_lowest o w :
  world_ok w ->
  exists k, lowest_free (objects (table w)) k
    /\ if exhausted (table w) k then insert_object o w = (Err Exhausted, w)
       else exists w', insert_object o w = (Ok k, w')
         /\ get_object (table w') k = Some o
         /\ (forall j, j <> k -> get_object (table w') j = get_object (table w) j)
         /\ updated w w' (<[k := o]> (objects (table w))).
Proof.
  intros Hw. destruct (insert_object_ok o w Hw) as (k & Hk & Hins). exists k. split; [done|].
  destruct (exhausted (table w) k); [done|]. destruct Hins as (w' & Hins & Hup). exists w'.
  split; [done|]. unfold get_object. pose proof Hup as (_ & -> & _).
  split; [by rewrite lookup_insert_eq|]. split; [|done]. intros j Hj. by rewrite lookup_insert_ne.
Qed.

(** Moving a handle between processes is atomic.  [transfer_to] of an unknown
    handle fails with [InvalidHandle], and of a known one with [Exhausted] when
    the destination has no capacity or no number left; either way both tables
    are unchanged.  Otherwise it never reaches its [expect]'s panic: the handle is
    gone from the source, the destination maps its lowest free number to the same
    object, and nothing else changes in either table. *)
Theorem transfer_is_atomic h w :
  world_ok (mkTableWorld (transfer_events w) (source_table w)) ->
  world_ok (mkTableWorld (transfer_events w) (destination_table w)) ->
  match objects (source_table w) !! h with
  | None => transfer_to h w = (Err (InvalidHandle h), w)
  | Some o =>
      exists k, lowest_free (objects (destination_table w)) k
        /\ if exhausted (destination_table w) k then transfer_to h w = (Err Exhausted, w)
           else exists w', transfer_to h w = (Ok k, w')
             /\ objects (source_table w') = delete h (objects (source_table w))
             /\ objects (destination_table w') = <[k := o]> (objects (destination_table w))
             /\ table_ok (source_table w') /\ table_ok (destination_table w')
  end.
Proof.
  destruct w as [ev src dst]. cbn [transfer_events source_table destination_table]. intros Hs Hd.
  pose proof (close_ok h _ Hs) as Hclose. cbn [table] in Hclose.
  unfold transfer_to, bind, get, guard. cbn [source_table destination_table].
  destruct (objects src !! h) as [o|] eqn:Ho; [|done].
  destruct Hclose as ([ev1 src1] & Hclose & Hup1).
  assert (Hd1 : world_ok (mkTableWorld ev1 dst)).
  { destruct Hup1 as ((Hwf1 & _) & _ & _ & _ & _ & Hext). destruct Hd as (_ & Ha & Ht).
    split; [done|]. split; [|done]. by apply (extends_alloc _ _ _ Hext). }
  destruct (insert_object_ok o _ Hd1) as (k & Hlow & Hins). cbn [table] in Hlow, Hins.
  assert (Hguard : (capacity_limit dst <=? len dst)
    || ((LAST_HANDLE <? next_handle dst) && bool_decide (recycled dst = ∅)) = exhausted dst k).
  { unfold exhausted. f_equal. destruct Hd as (_ & _ & Ht). cbn in Ht.
    destruct (set_first (recycled dst)) as [r|] eqn:Hr.
    - destruct (recycled_first_lowest _ _ Ht Hr) as [Hlr Hle].
      rewrite (lowest_free_unique _ _ _ Hlow Hlr). apply set_first_spec in Hr as [Hin _].
      rewrite bool_decide_eq_false_2 by set_solver. rewrite andb_false_r. symmetry. by apply Z.ltb_ge.
    - rewrite (lowest_free_unique _ _ _ Hlow (next_lowest _ Ht Hr)).
      apply set_first_none in Hr. rewrite bool_decide_eq_true_2 by done. apply andb_true_r. }
  exists k. split; [done|]. rewrite bool_decide_eq_true_2 by by eexists. cbn [negb ret]. rewrite Hguard.
  destruct (exhausted dst k); [done|]. destruct Hins as ([ev2 dst2] & Hins & Hup2). cbn [ret].
  unfold on_source at 1. cbn [transfer_events source_table destination_table]. rewrite Hclose.
  unfold expect_method, on_destination. cbn [transfer_events source_table destination_table table_events table].
  rewrite Hins. eexists. split; [reflexivity|]. cbn.
  destruct Hup1 as ((_ & _ & Ht1) & Ho1 & _), Hup2 as ((_ & _ & Ht2) & Ho2 & _). done.
Qed.

(** ** Witnesses: a source with handle 1 closed and 2 live, a full destination
    slot at 1. *)

Definition two_events : EventHeap :=
  mkHeap (<[1 := event_with_source None]> {[0 := event_with_source None]}) 2 [].

Lemma two_events_wf : heap_wf two_events.
Proof.
  intros id [e He]. cbn in *. apply lookup_insert_Some in He as [[<- _]|[_ He]]; [lia|].
  apply lookup_singleton_Some in He as [<- _]. lia.
Qed.

Definition sample_source : HandleTable := mkTable {[2 := 77]} {[1]} 3 8 0.
Definition sample_destination : HandleTable := mkTable {[1 := 55]} ∅ 2 8 1.

Lemma sample_source_ok : world_ok (mkTableWorld two_events sample_source).
Proof.
  split; [apply two_events_wf|]. split; [by eexists|]. split; cbn.
  - unfold FIRST_HANDLE, LAST_HANDLE. lia.
  - intros k. unfold FIRST_HANDLE. rewrite elem_of_singleton.
    destruct (decide (k = 2)) as [->|Hk]; [rewrite lookup_singleton_eq; split; [left; by eexists|lia]|].
    rewrite lookup_singleton_ne by done. split; [lia|]. intros [[]|]; [done|lia].
  - intros k ->%elem_of_singleton. done.
Qed.

Lemma sample_destination_ok : world_ok (mkTableWorld two_events sample_destination).
Proof.
  split; [apply two_events_wf|]. split; [by eexists|]. split; cbn.
  - unfold FIRST_HANDLE, LAST_HANDLE. lia.
  - intros k. unfold FIRST_HANDLE. destruct (decide (k = 1)) as [->|Hk].
    + rewrite lookup_singleton_eq. split; [left; by eexists|lia].
    + rewrite lookup_singleton_ne by done. split; [lia|]. intros [[]|]; [done|set_solver].
  - set_solver.
Qed.

Lemma insert_takes_lowest_witness :
  exists w', insert_object 99 (mkTableWorld two_events sample_source) = (Ok 1, w')
    /\ get_object (table w') 1 = Some 99 /\ get_object (table w') 2 = Some 77.
Proof.
  destruct (insert_takes_lowest 99 _ sample_source_ok) as (k & Hk & Hins).
  assert (k = 1) as ->.
  { apply (lowest_free_unique _ _ _ Hk). split; [done|]. split; [reflexivity|].
    unfold FIRST_HANDLE. intros j Hj. lia. }
  vm_compute (exhausted _ _) in Hins. destruct Hins as (w' & Hi & Hg & Ho & _).
  exists w'. split; [exact Hi|]. split; [exact Hg|]. rewrite Ho by lia. reflexivity.
Defined.

Lemma transfer_is_atomic_witness :
  exists w', transfer_to 2 (mkTransfer two_events sample_source sample_destination) = (Ok 2, w')
    /\ objects (source_table w') = delete 2 {[2 := 77]}
    /\ objects (destination_table w') = <[2 := 77]> {[1 := 55]}.
Proof.
  pose proof (transfer_is_atomic 2 (mkTransfer two_events sample_source sample_destination)
    sample_source_ok sample_destination_ok) as Ht.
  cbn [source_table objects sample_source destination_table sample_destination] in Ht.
  change (({[2 := 77]} : gmap Z ObjectId) !! 2) with (Some 77) in Ht.
  destruct Ht as (k & Hk & Hins).
  assert (k = 2) as ->.
  { apply (lowest_free_unique _ _ _ Hk). split; [done|]. split; [reflexivity|].
    unfold FIRST_HANDLE. intros j Hj. assert (j = 1) as -> by lia. by eexists. }
  vm_compute (exhausted _ _) in Hins. destruct Hins as (w' & Hi & Hs & Hd & _).
  exists w'. split; [exact Hi|]. split; [exact Hs|exact Hd].
Defined.
