(* ===== verification/RtSession.v ===== *)
(** * Session transport (crates/runtime/src/handle/session.rs)

    A session pair is a client and a server endpoint on one shared state:
    requests queue up in order, the server holds one of them at a time, and a
    reply waits under its request's id until the owner polls for it.  Every
    method takes the state's mutex once ([request] twice, through
    [poll_request]); it is modelled as a state method on the session and the
    heap of events, with the wake generation and the wake event updated where
    the code does. *)

From S2P Require Import Prelude RtEvent.

Inductive SessionEndpoint : Set := Server | Client.
#[export] Instance SessionEndpoint_eq_dec : EqDecision SessionEndpoint.
Proof. solve_decision. Defined.

Definition MAX_SESSION_REQUESTS : Z := 64.

(** Handle objects are shared references, given by identity. *)
Inductive SessionMessage : Type :=
| Buffer (bytes : list Z)
| TransportedBuffer (bytes : list Z) (copy_handles move_handles : list (option Z))
| Light (words : list Z).

Definition is_light_message (m : SessionMessage) : bool :=
  match m with Light _ => true | _ => false end.

(** [SessionRequestOwner]: process id and thread id. *)
Abbreviation SessionRequestOwner := (Z * Z)%type (only parsing).

Record SessionRequest := mkRequest {
  id : Z;
  owner : SessionRequestOwner;
  message : SessionMessage;
}.

Record SessionState := mkSession {
  server_open : bool;
  client_open : bool;
  next_request_id : Z;
  queued : list SessionRequest;
  current : option SessionRequest;
  pending_by_owner : gmap SessionRequestOwner Z;
  responses : gmap Z SessionMessage;
}.

Definition new_session : SessionState := mkSession true true 1 [] None ∅ ∅.

Inductive SessionRequestResult : Type :=
| Submitted
| Waiting
| Response (m : SessionMessage).

Inductive SessionError : Set :=
| WrongEndpoint | PeerClosed | QueueFull | NoRequest | ReplyPending | MessageKindMismatch.

(** [SessionIdentity], with the heap its wake event lives in. *)
Record SessionWorld := mkSessionWorld {
  session_events : EventHeap;
  session : SessionState;
  wake_generation : Z;
  wake_event : EventId;
}.

Notation SsM := (SM SessionWorld SessionError).

Definition set_session (s : SessionState) : SsM unit :=
  modify (fun w => mkSessionWorld (session_events w) s (wake_generation w) (wake_event w)).

(** [wake_generation.fetch_add(1); wake_event.signal()] *)
Definition wake : SsM unit :=
  fun w =>
    let '(r, h) := signal (wake_event w) (session_events w) in
    (r, mkSessionWorld h (session w) (wrap 64 (wake_generation w + 1)) (wake_event w)).

Definition endpoint_eqb (a b : SessionEndpoint) : bool := bool_decide (a = b).

Definition is_signalled (endpoint : SessionEndpoint) (s : SessionState) : bool :=
  match endpoint with
  | Server => negb (bool_decide (queued s = [])) || negb (client_open s)
  | Client => negb (bool_decide (responses s = ∅)) || negb (server_open s)
  end.

Definition with_pending (p : gmap SessionRequestOwner Z) (r : gmap Z SessionMessage) (s : SessionState) :
    SessionState :=
  mkSession (server_open s) (client_open s) (next_request_id s) (queued s) (current s) p r.

Definition poll_request (endpoint : SessionEndpoint) (o : SessionRequestOwner) :
    SsM (option SessionRequestResult) :=
  do! guard (negb (endpoint_eqb endpoint Client)) WrongEndpoint in
  let! w := get in
  let s := session w in
  match pending_by_owner s !! o with
  | None => ret None
  | Some request_id =>
      match responses s !! request_id with
      | Some response =>
          do! set_session (with_pending (delete o (pending_by_owner s)) (delete request_id (responses s)) s) in
          do! wake in
          ret (Some (Response response))
      | None =>
          if negb (server_open s) then
            do! set_session (with_pending (delete o (pending_by_owner s)) (responses s) s) in
            do! wake in
            throw PeerClosed
          else ret (Some Waiting)
      end
  end.

(** [u64::saturating_add(1)] *)
Definition next_id (x : Z) : Z := Z.min (x + 1) u64_max.

Definition submit (o : SessionRequestOwner) (m : SessionMessage) (s : SessionState) : SessionState :=
  mkSession (server_open s) (client_open s) (next_id (next_request_id s))
    (queued s ++ [mkRequest (next_request_id s) o m]) (current s)
    (<[o := next_request_id s]> (pending_by_owner s)) (responses s).

Definition request (endpoint : SessionEndpoint) (is_light : bool) (o : SessionRequestOwner)
    (m : SessionMessage) : SsM SessionRequestResult :=
  do! guard (negb (endpoint_eqb endpoint Client)) WrongEndpoint in
  do! guard (negb (Bool.eqb is_light (is_light_message m))) MessageKindMismatch in
  let! polled := poll_request endpoint o in
  match polled with
  | Some result => ret result
  | None =>
      let! w := get in
      let s := session w in
      do! guard (negb (server_open s)) PeerClosed in
      do! guard (MAX_SESSION_REQUESTS <=? Z.of_nat (size (pending_by_owner s))) QueueFull in
      do! set_session (submit o m s) in
      do! wake in
      ret Submitted
  end.

Definition receive (endpoint : SessionEndpoint) : SsM SessionMessage :=
  do! guard (negb (endpoint_eqb endpoint Server)) WrongEndpoint in
  let! w := get in
  let s := session w in
  do! guard (match current s with Some _ => true | None => false end) ReplyPending in
  match queued s with
  | [] => throw (if client_open s then NoRequest else PeerClosed)
  | r :: rest =>
      do! set_session (mkSession (server_open s) (client_open s) (next_request_id s) rest (Some r)
                         (pending_by_owner s) (responses s)) in
      do! wake in
      ret (message r)
  end.

Definition reply (endpoint : SessionEndpoint) (is_light : bool) (m : SessionMessage) : SsM unit :=
  do! guard (negb (endpoint_eqb endpoint Server)) WrongEndpoint in
  do! guard (negb (Bool.eqb is_light (is_light_message m))) MessageKindMismatch in
  let! w := get in
  let s := session w in
  do! guard (negb (client_open s)) PeerClosed in
  let! r := ok_or (current s) NoRequest in
  do! set_session (mkSession (server_open s) (client_open s) (next_request_id s) (queued s) None
                     (pending_by_owner s) (responses s)) in
  do! debug_assert (bool_decide (pending_by_owner s !! owner r = Some (id r))) in
  do! set_session (mkSession (server_open s) (client_open s) (next_request_id s) (queued s) None
                     (pending_by_owner s) (<[id r := m]> (responses s))) in
  wake.

(** [SessionEndpointLease::drop]: the last reference to an endpoint is gone. *)
Definition drop_endpoint (endpoint : SessionEndpoint) : SsM unit :=
  let! w := get in
  let s := session w in
  do! set_session (mkSession (match endpoint with Server => false | Client => server_open s end)
                     (match endpoint with Client => false | Server => client_open s end)
                     (next_request_id s) [] None ∅ ∅) in
  wake.

(** ** Specification: owners instead of request ids

    Requests wait in order, one is being served, and answers wait for their
    owners. *)
Record Transport := mkTransport {
  server_up : bool;
  client_up : bool;
  waiting : list (SessionRequestOwner * SessionMessage);
  serving : option (SessionRequestOwner * SessionMessage);
  answers : gmap SessionRequestOwner SessionMessage;
}.

Definition in_flight (t : Transport) : list SessionRequestOwner :=
  ((waiting t).*1 ++ match serving t with Some (o, _) => [o] | None => [] end).

Definition outstanding (t : Transport) : Z :=
  Z.of_nat (length (in_flight t) + size (answers t)).

Definition spec_poll (o : SessionRequestOwner) (t : Transport) : option SessionRequestResult * Transport :=
  match answers t !! o with
  | Some a => (Some (Response a),
               mkTransport (server_up t) (client_up t) (waiting t) (serving t) (delete o (answers t)))
  | None => (if bool_decide (o ∈ in_flight t) then Some Waiting else None, t)
  end.

Definition spec_request (light : bool) (o : SessionRequestOwner) (m : SessionMessage) (t : Transport) :
    Result SessionError SessionRequestResult * Transport :=
  if negb (Bool.eqb light (is_light_message m)) then (Err MessageKindMismatch, t)
  else
    match spec_poll o t with
    | (Some result, t') => (Ok result, t')
    | (None, _) =>
        if negb (server_up t) then (Err PeerClosed, t)
        else if MAX_SESSION_REQUESTS <=? outstanding t then (Err QueueFull, t)
        else (Ok Submitted,
              mkTransport (server_up t) (client_up t) (waiting t ++ [(o, m)]) (serving t) (answers t))
    end.

Definition spec_receive (t : Transport) : Result SessionError SessionMessage * Transport :=
  match serving t, waiting t with
  | Some _, _ => (Err ReplyPending, t)
  | None, [] => (Err (if client_up t then NoRequest else PeerClosed), t)
  | None, (o, m) :: rest =>
      (Ok m, mkTransport (server_up t) (client_up t) rest (Some (o, m)) (answers t))
  end.

Definition spec_reply (light : bool) (m : SessionMessage) (t : Transport) :
    Result SessionError unit * Transport :=
  if negb (Bool.eqb light (is_light_message m)) then (Err MessageKindMismatch, t)
  else if negb (client_up t) then (Err PeerClosed, t)
  else match serving t with
       | None => (Err NoRequest, t)
       | Some (o, _) =>
           (Ok tt, mkTransport (server_up t) (client_up t) (waiting t) None (<[o := m]> (answers t)))
       end.

Definition spec_drop (endpoint : SessionEndpoint) (t : Transport) : Transport :=
  mkTransport (match endpoint with Server => false | Client => server_up t end)
    (match endpoint with Client => false | Server => client_up t end) [] None ∅.

(** ** The relation *)

Definition live (s : SessionState) : list SessionRequest :=
  queued s ++ match current s with Some r => [r] | None => [] end.

Definition pair_of (r : SessionRequest) : SessionRequestOwner * SessionMessage := (owner r, message r).

Record transports (s : SessionState) (t : Transport) : Prop := {
  tr_server : server_open s = server_up t;
  tr_client : client_open s = client_up t;
  tr_waiting : pair_of <$> queued s = waiting t;
  tr_serving : pair_of <$> current s = serving t;
  (** requests in flight are pending under their id and have no answer *)
  tr_live : forall r, r ∈ live s ->
    pending_by_owner s !! owner r = Some (id r) /\ responses s !! id r = None;
  (** the answers of the owners *)
  tr_answers : forall o m, answers t !! o = Some m <->
    exists i, pending_by_owner s !! o = Some i /\ responses s !! i = Some m;
  (** a pending owner is in flight or has an answer *)
  tr_pending : forall o i, pending_by_owner s !! o = Some i ->
    (exists r, r ∈ live s /\ owner r = o) \/ is_Some (responses s !! i);
  tr_owned : forall i m, responses s !! i = Some m -> exists o, pending_by_owner s !! o = Some i;
  tr_inj : forall o o' i, pending_by_owner s !! o = Some i -> pending_by_owner s !! o' = Some i -> o = o';
  tr_fresh : forall o i, pending_by_owner s !! o = Some i -> i < next_request_id s;
  tr_nodup : NoDup (owner <$> live s);
  (** requests are only kept while the server is open *)
  tr_closed : server_open s = false -> pending_by_owner s = ∅;
}.

(** * A session transports each owner's answer to that owner

    The code's tables of request ids refine the [Transport] specification, in
    which requests and answers are kept by owner: the [debug_assert!] of [reply]
    never fails, a request is answered at most once, and to the thread that sent
    it. *)

Definition session_ok (w : SessionWorld) (t : Transport) : Prop :=
  heap_wf (session_events w) /\ allocated (session_events w) (wake_event w) /\ transports (session w) t.

(** What a method that changes the session leaves. *)
Definition woken (w w' : SessionWorld) (t' : Transport) : Prop :=
  session_ok w' t' /\ wake_event w' = wake_event w
  /\ wake_generation w' = wrap 64 (wake_generation w + 1)
  /\ event_signalled (session_events w') (wake_event w) = true.

Lemma wake_ok w s' t' :
  heap_wf (session_events w) -> allocated (session_events w) (wake_event w) -> transports s' t' ->
  exists w', wake (mkSessionWorld (session_events w) s' (wake_generation w) (wake_event w)) = (Ok tt, w')
    /\ woken w w' t' /\ session w' = s'.
Proof.
  intros Hwf Ha Ht.
  destruct (signal_ok (E := SessionError) (session_events w) (wake_event w) Hwf Ha)
    as (h' & Hs & Hwf' & _ & Hext).
  unfold wake. cbn [wake_event session_events session wake_generation]. rewrite Hs.
  eexists. split; [reflexivity|]. split; [|done].
  split; [split; [done|split; [by apply (extends_alloc _ _ _ Hext)|done]]|].
  split; [done|]. split; [done|]. by apply (extends_fired _ _ _ Hext).
Qed.

#[local] Opaque wake.

(** ** Consequences of the relation *)

Section Relation.
Context (s : SessionState) (t : Transport) (HT : transports s t).

Lemma in_flight_owners : in_flight t = owner <$> live s.
Proof using HT.
  unfold in_flight, live. rewrite fmap_app, <- (tr_waiting _ _ HT), <- (tr_serving _ _ HT).
  f_equal; [rewrite <- list_fmap_compose; by apply list_fmap_ext|]. by destruct (current s).
Qed.

Lemma answer_of o i m :
  pending_by_owner s !! o = Some i -> responses s !! i = Some m -> answers t !! o = Some m.
Proof using HT. intros Hp Hr. apply (tr_answers _ _ HT). eauto. Qed.

Lemma no_answer o i :
  pending_by_owner s !! o = Some i -> responses s !! i = None -> answers t !! o = None.
Proof using HT.
  intros Hp Hr. destruct (answers t !! o) as [m|] eqn:Ha; [|done].
  apply (tr_answers _ _ HT) in Ha as (j & Hj & Hm). congruence.
Qed.

Lemma pending_in_flight o i :
  pending_by_owner s !! o = Some i -> responses s !! i = None -> o ∈ in_flight t.
Proof using HT.
  intros Hp Hr. rewrite in_flight_owners.
  destruct (tr_pending _ _ HT o i Hp) as [(r & Hin & <-)|[m Hm]]; [by apply list_elem_of_fmap_2|congruence].
Qed.

Lemma not_pending o : pending_by_owner s !! o = None -> answers t !! o = None /\ o ∉ in_flight t.
Proof using HT.
  intros Hp. split.
  - destruct (answers t !! o) as [m|] eqn:Ha; [|done].
    apply (tr_answers _ _ HT) in Ha as (i & Hi & _). congruence.
  - rewrite in_flight_owners. intros (r & -> & Hr)%list_elem_of_fmap.
    apply (tr_live _ _ HT) in Hr as [Hr _]. congruence.
Qed.

(** Every pending owner is counted once. *)
Lemma pending_count : Z.of_nat (size (pending_by_owner s)) = outstanding t.
Proof using HT.
  unfold outstanding. rewrite <- !size_dom.
  assert (Hd : dom (pending_by_owner s)
    = (list_to_set (in_flight t) : gset SessionRequestOwner) ∪ dom (answers t)).
  { apply leibniz_equiv. intros o. rewrite elem_of_union, elem_of_list_to_set, !elem_of_dom. split.
    - intros [i Hi]. destruct (responses s !! i) as [m|] eqn:Hm.
      + right. exists m. by eapply answer_of.
      + left. by eapply pending_in_flight.
    - rewrite in_flight_owners. intros [(r & -> & Hr)%list_elem_of_fmap|[m Hm]].
      + apply (tr_live _ _ HT) in Hr as [Hr _]. by eexists.
      + apply (tr_answers _ _ HT) in Hm as (i & Hi & _). by eexists. }
  rewrite Hd, size_union, size_list_to_set; [done| |].
  - rewrite in_flight_owners. apply (tr_nodup _ _ HT).
  - intros o Ho1 Ho2. rewrite elem_of_list_to_set, in_flight_owners in Ho1.
    apply list_elem_of_fmap in Ho1 as (r & -> & Hr). apply elem_of_dom in Ho2 as [m Hm].
    apply (tr_live _ _ HT) in Hr as [Hp Hn]. rewrite (no_answer _ _ Hp Hn) in Hm. done.
Qed.
End Relation.

(** ** The steps *)

Lemma answered_transports s t o i m :
  transports s t -> pending_by_owner s !! o = Some i -> responses s !! i = Some m ->
  transports (with_pending (delete o (pending_by_owner s)) (delete i (responses s)) s)
    (mkTransport (server_up t) (client_up t) (waiting t) (serving t) (delete o (answers t))).
Proof.
  intros HT Hp Hr. pose proof HT as [H1 H2 H3 H4 Hlive Hans Hpend Hown Hinj Hfr Hnd Hcl].
  split; cbn; try done.
  - intros r Hin. destruct (Hlive r Hin) as [Hl1 Hl2].
    rewrite lookup_delete_ne by congruence.
    split; [done|]. apply lookup_delete_None. by right.
  - intros o' m'. destruct (decide (o' = o)) as [->|Hne].
    + rewrite !lookup_delete_eq. naive_solver.
    + rewrite lookup_delete_ne, Hans by done. apply exist_proper. intros j.
      rewrite lookup_delete_ne by done. split; intros [Hj Hm]; (split; [done|]).
      * rewrite lookup_delete_ne; [done|]. intros <-. apply Hne. by eapply Hinj.
      * by apply lookup_delete_Some in Hm as [_ ?].
  - intros o' j [Hne Hj]%lookup_delete_Some. destruct (Hpend o' j Hj) as [?|Hm]; [by left|right].
    rewrite lookup_delete_ne; [done|]. intros <-. apply Hne. by eapply Hinj.
  - intros j m' [Hne Hj]%lookup_delete_Some. destruct (Hown j m' Hj) as [o' Ho'].
    exists o'. rewrite lookup_delete_ne; [done|]. intros <-. congruence.
  - intros o1 o2 j [_ Hj1]%lookup_delete_Some [_ Hj2]%lookup_delete_Some. by eapply Hinj.
  - intros o' j [_ Hj]%lookup_delete_Some. by eapply Hfr.
  - intros Hc. rewrite Hcl by done. apply delete_empty.
Qed.

Lemma submit_transports s t o m :
  transports s t -> pending_by_owner s !! o = None -> server_open s = true ->
  next_request_id s < u64_max ->
  transports (submit o m s)
    (mkTransport (server_up t) (client_up t) (waiting t ++ [(o, m)]) (serving t) (answers t)).
Proof.
  intros HT Hp Hopen Hid. destruct (not_pending s t HT o Hp) as [Hna Hnf].
  rewrite (in_flight_owners s t HT) in Hnf.
  pose proof HT as [H1 H2 H3 H4 Hlive Hans Hpend Hown Hinj Hfr Hnd Hcl].
  assert (Hnext : next_id (next_request_id s) = next_request_id s + 1) by (unfold next_id; lia).
  assert (Hnr : responses s !! next_request_id s = None).
  { destruct (responses s !! next_request_id s) eqn:Hr; [|done].
    destruct (Hown _ _ Hr) as [o' Ho']. apply Hfr in Ho'. lia. }
  assert (Hl : forall r, r ∈ live (submit o m s)
    <-> r ∈ live s \/ r = mkRequest (next_request_id s) o m).
  { intros r. unfold live. cbn. rewrite !elem_of_app, list_elem_of_singleton. tauto. }
  split; cbn; try done.
  - by rewrite fmap_app, H3.
  - intros r [Hr| ->]%Hl; cbn; [|by rewrite lookup_insert_eq].
    destruct (Hlive r Hr) as [Hl1 Hl2]. split; [|done].
    rewrite lookup_insert_ne by congruence. done.
  - intros o' m'. rewrite Hans. apply exist_proper. intros j.
    destruct (decide (o' = o)) as [->|]; [|by rewrite lookup_insert_ne].
    rewrite lookup_insert_eq. split; [naive_solver|]. intros [[= <-] ?]. congruence.
  - intros o' j Hj. destruct (decide (o' = o)) as [->|Hne].
    + left. exists (mkRequest (next_request_id s) o m). split; [by apply Hl; right|done].
    + rewrite lookup_insert_ne in Hj by done. destruct (Hpend o' j Hj) as [(r & Hr & Ho)|?]; [|by right].
      left. exists r. split; [by apply Hl; left|done].
  - intros j m' Hj. destruct (Hown j m' Hj) as [o' Ho']. exists o'.
    rewrite lookup_insert_ne by congruence. done.
  - intros o1 o2 j. destruct (decide (o1 = o)) as [->|], (decide (o2 = o)) as [->|];
      rewrite ?lookup_insert_eq, ?lookup_insert_ne by done; [done| | |apply Hinj].
    + intros [= <-] Hj%Hfr. lia.
    + intros Hj%Hfr [= <-]. lia.
  - intros o' j. rewrite Hnext. destruct (decide (o' = o)) as [->|].
    + rewrite lookup_insert_eq. intros [= <-]. lia.
    + rewrite lookup_insert_ne by done. intros Hj%Hfr. lia.
  - unfold live. cbn. rewrite !fmap_app. cbn.
    assert (Hperm : (owner <$> queued s) ++ [o] ++ (owner <$> match current s with Some r => [r] | None => [] end)
      ≡ₚ o :: (owner <$> live s)).
    { unfold live. rewrite fmap_app. by rewrite (Permutation_app_comm [o]), app_assoc, Permutation_app_comm. }
    rewrite <- app_assoc, Hperm. by apply NoDup_cons.
  - congruence.
Qed.

Lemma receive_transports s t r rest :
  transports s t -> current s = None -> queued s = r :: rest ->
  transports
    (mkSession (server_open s) (client_open s) (next_request_id s) rest (Some r)
       (pending_by_owner s) (responses s))
    (mkTransport (server_up t) (client_up t) (pair_of <$> rest) (Some (pair_of r)) (answers t)).
Proof.
  intros HT Hc Hq. pose proof HT as [H1 H2 H3 H4 Hlive Hans Hpend Hown Hinj Hfr Hnd Hcl].
  assert (Hperm : live s ≡ₚ rest ++ [r]).
  { unfold live. rewrite Hc, Hq, app_nil_r. apply Permutation_cons_append. }
  split; cbn; try done; unfold live; cbn.
  - intros x Hx. apply Hlive. by rewrite Hperm.
  - intros o i Hp. destruct (Hpend o i Hp) as [(x & Hx & Ho)|?]; [|by right].
    left. exists x. by rewrite <- Hperm.
  - by rewrite <- Hperm.
Qed.

Lemma reply_transports s t r m :
  transports s t -> current s = Some r ->
  transports
    (mkSession (server_open s) (client_open s) (next_request_id s) (queued s) None
       (pending_by_owner s) (<[id r := m]> (responses s)))
    (mkTransport (server_up t) (client_up t) (waiting t) None (<[owner r := m]> (answers t))).
Proof.
  intros HT Hc. pose proof HT as [H1 H2 H3 H4 Hlive Hans Hpend Hown Hinj Hfr Hnd Hcl].
  assert (Hl : live s = queued s ++ [r]) by (unfold live; by rewrite Hc).
  rewrite Hl in Hlive, Hnd. rewrite fmap_app in Hnd. apply NoDup_app in Hnd as (Hnd & Hdis & _).
  destruct (Hlive r) as [Hrp Hrn]; [rewrite elem_of_app; right; by left|].
  split; cbn; try done; unfold live; cbn; rewrite ?app_nil_r.
  - intros x Hx. destruct (Hlive x) as [Hxp Hxn]; [rewrite elem_of_app; by left|]. split; [done|].
    rewrite lookup_insert_ne; [done|]. intros He. apply (Hdis (owner x)).
    + by apply list_elem_of_fmap_2.
    + apply list_elem_of_singleton. rewrite He in Hrp. by eapply Hinj.
  - intros o m'. destruct (decide (o = owner r)) as [->|Hne].
    + rewrite lookup_insert_eq. split.
      * intros [= <-]. exists (id r). by rewrite lookup_insert_eq.
      * intros (i & Hi & Hm). assert (i = id r) as -> by congruence.
        by rewrite lookup_insert_eq in Hm.
    + rewrite lookup_insert_ne, Hans by done. apply exist_proper. intros i. split; intros [Hi Hm].
      * split; [done|]. rewrite lookup_insert_ne; [done|]. congruence.
      * split; [done|]. rewrite lookup_insert_ne in Hm; [done|]. intros <-. apply Hne. by eapply Hinj.
  - intros o i Hp. destruct (Hpend o i Hp) as [(x & Hx & Ho)|Hs].
    + rewrite Hl in Hx. apply elem_of_app in Hx as [Hx|Hx%list_elem_of_singleton]; [left; eauto|].
      subst x o. right. assert (i = id r) as -> by congruence. by rewrite lookup_insert_eq.
    + right. destruct (decide (i = id r)) as [->|]; [by rewrite lookup_insert_eq|by rewrite lookup_insert_ne].
  - intros i m'. destruct (decide (i = id r)) as [->|].
    + intros _. eauto.
    + rewrite lookup_insert_ne by done. apply Hown.
  - done.
Qed.

Lemma drop_transports s t e :
  transports s t ->
  transports
    (mkSession (match e with Server => false | Client => server_open s end)
       (match e with Client => false | Server => client_open s end) (next_request_id s) [] None ∅ ∅)
    (spec_drop e t).
Proof.
  intros [H1 H2 _ _ _ _ _ _ _ _ _ _]. split; cbn; try done.
  - by destruct e.
  - by destruct e.
  - intros r Hr. by apply not_elem_of_nil in Hr.
  - intros o m. rewrite lookup_empty. split; [done|]. intros (i & Hi & _). by rewrite lookup_empty in Hi.
  - constructor.
Qed.

(** ** The methods *)

(** A failed method changes nothing; a successful one leaves the session of the
    specification. *)
Definition returns {A} (w : SessionWorld) (m : SsM A) (spec : Result SessionError A * Transport) : Prop :=
  exists w', m w = (spec.1, w') /\ session_ok w' spec.2 /\ wake_event w' = wake_event w
    /\ next_request_id (session w') <= next_request_id (session w) + 1
    /\ match spec.1 with
       | Ok _ => True
       | _ => w' = w
       end.

Lemma poll_ok o w t :
  session_ok w t ->
  returns w (poll_request Client o) (Ok (spec_poll o t).1, (spec_poll o t).2)
  /\ (pending_by_owner (session w) !! o = None -> poll_request Client o w = (Ok None, w)).
Proof.
  intros Hw. pose proof Hw as (Hwf & Ha & HT). unfold returns, poll_request, bind, get, guard, spec_poll.
  change (endpoint_eqb Client Client) with true. cbn.
  destruct (pending_by_owner (session w) !! o) as [i|] eqn:Hp.
  - split; [|done]. destruct (responses (session w) !! i) as [m|] eqn:Hr.
    + rewrite (answer_of _ _ HT _ _ _ Hp Hr). cbn.
      destruct (wake_ok w _ _ Hwf Ha (answered_transports _ _ _ _ _ HT Hp Hr)) as (w' & Hw' & Hwk & Hs).
      cbn in Hw'. rewrite Hw'. exists w'. destruct Hwk as (Hok & Hev & _).
      split; [done|]. split; [done|]. split; [done|]. split; [rewrite Hs; cbn; lia|done].
    + rewrite (no_answer _ _ HT _ _ Hp Hr).
      rewrite bool_decide_eq_true_2 by by eapply pending_in_flight.
      destruct (server_open (session w)) eqn:Ho; cbn.
      * exists w. split; [done|]. split; [done|]. split; [done|]. split; [lia|done].
      * rewrite (tr_closed _ _ HT Ho) in Hp. by rewrite lookup_empty in Hp.
  - destruct (not_pending _ _ HT o Hp) as [-> Hnf]. rewrite bool_decide_eq_false_2 by done.
    split; [|done]. exists w. split; [done|]. split; [done|]. split; [done|]. split; [lia|done].
Qed.

Lemma unchanged {A} (w : SessionWorld) (m : SsM A) (r : Result SessionError A) t :
  session_ok w t -> m w = (r, w) -> returns w m (r, t).
Proof.
  intros Hw Hm. exists w. split; [done|]. split; [done|]. split; [done|]. split; [lia|]. by destruct r.
Qed.

Lemma session_request_ok light o m w t :
  session_ok w t -> next_request_id (session w) < u64_max ->
  returns w (request Client light o m) (spec_request light o m t).
Proof.
  intros Hw Hid. pose proof Hw as (Hwf & Ha & HT). unfold spec_request.
  destruct (Bool.eqb light (is_light_message m)) eqn:Hl.
  2: { apply unchanged; [done|]. unfold request, bind, guard.
       change (endpoint_eqb Client Client) with true. cbn. by rewrite Hl. }
  destruct (poll_ok o w t Hw) as [(w1 & Hp1 & Hok1 & Hev1 & Hn1 & _) Hnone].
  assert (Hrun : request Client light o m w =
    match poll_request Client o w with
    | (Ok (Some res), w1) => (Ok res, w1)
    | (Ok None, w1) =>
        bind (guard (negb (server_open (session w1))) PeerClosed) (fun _ =>
        bind (guard (MAX_SESSION_REQUESTS <=? Z.of_nat (size (pending_by_owner (session w1)))) QueueFull)
          (fun _ => bind (set_session (submit o m (session w1))) (fun _ =>
             bind wake (fun _ => ret Submitted)))) w1
    | (Err e, w1) => (Err e, w1)
    | (Panic, w1) => (Panic, w1)
    end).
  { unfold request, bind at 1 2 3, guard at 1 2. change (endpoint_eqb Client Client) with true.
    rewrite Hl. cbn [negb ret]. destruct (poll_request Client o w) as [[[]| |] ?]; done. }
  destruct (spec_poll o t) as [[res|] t1] eqn:Hspec; cbn [fst snd] in Hp1, Hok1.
  - exists w1. rewrite Hrun, Hp1. split; [done|]. by split_and!.
  - destruct (pending_by_owner (session w) !! o) as [i|] eqn:Hp.
    { exfalso. unfold spec_poll in Hspec. destruct (responses (session w) !! i) as [a|] eqn:Hr.
      - by rewrite (answer_of _ _ HT _ _ _ Hp Hr) in Hspec.
      - rewrite (no_answer _ _ HT _ _ Hp Hr) in Hspec.
        by rewrite bool_decide_eq_true_2 in Hspec by by eapply pending_in_flight. }
    rewrite (Hnone eq_refl) in Hrun. rewrite <- (tr_server _ _ HT), <- (pending_count _ _ HT).
    unfold bind, guard in Hrun.
    destruct (server_open (session w)) eqn:Ho; cbn [negb] in *; [|by apply unchanged].
    destruct (MAX_SESSION_REQUESTS <=? _); [by apply unchanged|].
    destruct (wake_ok w _ _ Hwf Ha (submit_transports _ _ o m HT Hp Ho Hid)) as (w' & Hw' & (Hok & Hev & _) & Hs).
    exists w'. cbn in Hrun. cbn in Hw'. rewrite Hrun, Hw'. split; [done|].
    rewrite <- (tr_server _ _ HT), Ho in Hok. split; [done|]. split; [done|].
    split; [rewrite Hs; cbn; unfold next_id; lia|done].
Qed.

Lemma receive_ok w t : session_ok w t -> returns w (receive Server) (spec_receive t).
Proof.
  intros Hw. pose proof Hw as (Hwf & Ha & HT). unfold spec_receive.
  rewrite <- (tr_serving _ _ HT), <- (tr_waiting _ _ HT), <- (tr_client _ _ HT).
  assert (Hrun : forall c, current (session w) = c -> receive Server w =
    match c with
    | Some _ => (Err ReplyPending, w)
    | None =>
        match queued (session w) with
        | [] => (Err (if client_open (session w) then NoRequest else PeerClosed), w)
        | r :: rest => bind (set_session (mkSession (server_open (session w)) (client_open (session w))
            (next_request_id (session w)) rest (Some r) (pending_by_owner (session w))
            (responses (session w)))) (fun _ => bind wake (fun _ => ret (message r))) w
        end
    end).
  { intros c <-. unfold receive, bind, guard, get. change (endpoint_eqb Server Server) with true. cbn.
    destruct (current (session w)); [done|]. cbn. by destruct (queued (session w)). }
  specialize (Hrun _ eq_refl). destruct (current (session w)) as [c|] eqn:Hc; cbn; [by apply unchanged|].
  destruct (queued (session w)) as [|r rest] eqn:Hq; cbn; [by apply unchanged|].
  destruct (wake_ok w _ _ Hwf Ha (receive_transports _ _ _ _ HT Hc Hq)) as (w' & Hw' & (Hok & Hev & _) & Hs).
  exists w'. unfold bind in Hrun. cbn in Hrun. rewrite Hrun, Hw'.
  split; [done|]. rewrite (tr_client _ _ HT) in *. split; [done|]. split; [done|].
  split; [rewrite Hs; cbn; lia|done].
Qed.

Lemma reply_ok light m w t : session_ok w t -> returns w (reply Server light m) (spec_reply light m t).
Proof.
  intros Hw. pose proof Hw as (Hwf & Ha & HT). unfold spec_reply.
  rewrite <- (tr_serving _ _ HT), <- (tr_client _ _ HT).
  assert (Hrun : reply Server light m w =
    if negb (Bool.eqb light (is_light_message m)) then (Err MessageKindMismatch, w)
    else if negb (client_open (session w)) then (Err PeerClosed, w)
    else match current (session w) with
         | None => (Err NoRequest, w)
         | Some r => wake (mkSessionWorld (session_events w)
             (mkSession (server_open (session w)) (client_open (session w)) (next_request_id (session w))
                (queued (session w)) None (pending_by_owner (session w)) (<[id r := m]> (responses (session w))))
             (wake_generation w) (wake_event w))
         end).
  { unfold reply, bind, guard, get, ok_or, debug_assert. change (endpoint_eqb Server Server) with true. cbn.
    destruct (Bool.eqb _ _); [|done]. cbn. destruct (client_open (session w)); [|done]. cbn.
    destruct (current (session w)) as [r|] eqn:Hc; [|done]. cbn.
    destruct (tr_live _ _ HT r) as [Hp _]; [unfold live; rewrite Hc, elem_of_app; right; by left|].
    by rewrite bool_decide_eq_true_2. }
  destruct (Bool.eqb _ _); cbn in *; [|by apply unchanged].
  destruct (client_open (session w)) eqn:Ho; cbn in *; [|by apply unchanged].
  destruct (current (session w)) as [r|] eqn:Hc; cbn in *; [|by apply unchanged].
  destruct (wake_ok w _ _ Hwf Ha (reply_transports _ _ _ m HT Hc)) as (w' & Hw' & (Hok & Hev & _) & Hs).
  rewrite Ho in Hw'. exists w'. rewrite Hrun, Hw'. split; [done|].
  rewrite <- (tr_client _ _ HT), Ho in Hok. split; [done|]. split; [done|].
  split; [rewrite Hs; cbn; lia|done].
Qed.

Lemma drop_ok e w t : session_ok w t -> returns w (drop_endpoint e) (Ok tt, spec_drop e t).
Proof.
  intros Hw. pose proof Hw as (Hwf & Ha & HT).
  destruct (wake_ok w _ _ Hwf Ha (drop_transports _ _ e HT)) as (w' & Hw' & (Hok & Hev & _) & Hs).
  exists w'. unfold drop_endpoint, bind, get. cbn. rewrite Hw'. split; [done|]. split; [done|].
  split; [done|]. split; [rewrite Hs; cbn; lia|done].
Qed.

(** ** Histories *)

Inductive SessionCall : Type :=
| CallRequest (e : SessionEndpoint) (o : SessionRequestOwner) (m : SessionMessage)
| CallPoll (e : SessionEndpoint) (o : SessionRequestOwner)
| CallReceive (e : SessionEndpoint)
| CallReply (e : SessionEndpoint) (m : SessionMessage)
| CallDrop (e : SessionEndpoint).

Inductive SessionAnswer : Type :=
| Requested (r : Result SessionError SessionRequestResult)
| Polled (r : Result SessionError (option SessionRequestResult))
| Received (r : Result SessionError SessionMessage)
| Replied (r : Result SessionError unit)
| Dropped (r : Result SessionError unit).

Definition answer {A} (f : A -> SessionAnswer) (p : A * SessionWorld) : SessionAnswer * SessionWorld :=
  (f p.1, p.2).

Definition apply_session (light : bool) (c : SessionCall) (w : SessionWorld) : SessionAnswer * SessionWorld :=
  match c with
  | CallRequest e o m => answer Requested (request e light o m w)
  | CallPoll e o => answer Polled (poll_request e o w)
  | CallReceive e => answer Received (receive e w)
  | CallReply e m => answer Replied (reply e light m w)
  | CallDrop e => answer Dropped (drop_endpoint e w)
  end.

Definition spec_answer {A} (f : A -> SessionAnswer) (p : A * Transport) : SessionAnswer * Transport :=
  (f p.1, p.2).

Definition spec_session (light : bool) (c : SessionCall) (t : Transport) : SessionAnswer * Transport :=
  match c with
  | CallRequest Client o m => spec_answer Requested (spec_request light o m t)
  | CallPoll Client o => spec_answer (fun r => Polled (Ok r)) (spec_poll o t)
  | CallReceive Server => spec_answer Received (spec_receive t)
  | CallReply Server m => spec_answer Replied (spec_reply light m t)
  | CallDrop e => (Dropped (Ok tt), spec_drop e t)
  | CallRequest Server _ _ => (Requested (Err WrongEndpoint), t)
  | CallPoll Server _ => (Polled (Err WrongEndpoint), t)
  | CallReceive Client => (Received (Err WrongEndpoint), t)
  | CallReply Client _ => (Replied (Err WrongEndpoint), t)
  end.

Fixpoint run_session (light : bool) (cs : list SessionCall) (w : SessionWorld) :
    list SessionAnswer * SessionWorld :=
  match cs with
  | [] => ([], w)
  | c :: cs =>
      let '(a, w1) := apply_session light c w in
      let '(l, w2) := run_session light cs w1 in (a :: l, w2)
  end.

Fixpoint spec_sessions (light : bool) (cs : list SessionCall) (t : Transport) :
    list SessionAnswer * Transport :=
  match cs with
  | [] => ([], t)
  | c :: cs =>
      let '(a, t1) := spec_session light c t in
      let '(l, t2) := spec_sessions light cs t1 in (a :: l, t2)
  end.

Lemma apply_session_ok light c w t :
  session_ok w t -> next_request_id (session w) < u64_max ->
  exists w', apply_session light c w = ((spec_session light c t).1, w')
    /\ session_ok w' (spec_session light c t).2
    /\ next_request_id (session w') <= next_request_id (session w) + 1.
Proof.
  intros Hw Hid.
  assert (Hret : forall A (m : SsM A) spec (f : _ -> SessionAnswer), returns w m spec ->
    exists w', answer f (m w) = ((spec_answer f spec).1, w') /\ session_ok w' (spec_answer f spec).2
      /\ next_request_id (session w') <= next_request_id (session w) + 1).
  { intros A m spec f (w' & Hm & Hok & _ & Hn & _). exists w'. unfold answer. by rewrite Hm. }
  assert (Hwrong : forall A (m : SsM A) (f : _ -> SessionAnswer), m w = (Err WrongEndpoint, w) ->
    exists w', answer f (m w) = (f (Err WrongEndpoint), w') /\ session_ok w' t
      /\ next_request_id (session w') <= next_request_id (session w) + 1).
  { intros A m f Hm. exists w. unfold answer. rewrite Hm. split; [done|]. split; [done|lia]. }
  destruct c as [[] o m|[] o|[]|[] m|e]; cbn [apply_session spec_session].
  - by apply Hwrong.
  - by apply Hret, session_request_ok.
  - by apply Hwrong.
  - exact (Hret _ _ (Ok (spec_poll o t).1, (spec_poll o t).2) Polled (proj1 (poll_ok o w t Hw))).
  - by apply Hret, receive_ok.
  - by apply Hwrong.
  - by apply Hret, reply_ok.
  - by apply Hwrong.
  - exact (Hret _ _ (Ok tt, spec_drop e t) Dropped (drop_ok e w t Hw)).
Qed.

Lemma run_session_ok light cs w t :
  session_ok w t -> next_request_id (session w) + Z.of_nat (length cs) <= u64_max ->
  exists w', run_session light cs w = ((spec_sessions light cs t).1, w')
    /\ session_ok w' (spec_sessions light cs t).2.
Proof.
  revert w t. induction cs as [|c cs IH]; intros w t Hw Hid; [by exists w|].
  cbn [length] in Hid. destruct (apply_session_ok light c w t Hw ltac:(lia)) as (w1 & Ha & Hw1 & Hn).
  cbn [run_session spec_sessions]. rewrite Ha. destruct (spec_session light c t) as [a t1]. cbn in *.
  destruct (IH w1 t1 Hw1 ltac:(lia)) as (w2 & Hr & Hw2). rewrite Hr.
  destruct (spec_sessions light cs t1) as [l t2]. by exists w2.
Qed.

Definition fresh_session : SessionWorld :=
  mkSessionWorld (mkHeap {[0 := event_with_source None]} 1 []) new_session 0 0.

Definition empty_transport : Transport := mkTransport true true [] None ∅.

Lemma fresh_session_ok : session_ok fresh_session empty_transport.
Proof.
  split; [|split; [by eexists|]].
  - intros i [e He]. cbn in *. apply lookup_singleton_Some in He as [<- _]. lia.
  - split; cbn; try done.
    + intros r Hr. by apply not_elem_of_nil in Hr.
    + intros o m. rewrite lookup_empty. split; [done|]. intros (i & Hi & _). by rewrite lookup_empty in Hi.
    + constructor.
Qed.

(** ** Claims *)

(** C18. A session delivers every answer to the owner of its request.  For every
    history of calls on a fresh session pair (of fewer than [2^64 - 1] calls, so
    that request ids do not saturate), the code answers exactly like the
    specification that has no ids: requests of different owners are received in
    the order they were submitted, one is served at a time, its reply is handed
    to its owner once, an owner has at most one outstanding request and the
    session at most 64, and dropping an endpoint discards everything.  No call
    panics; in particular the [debug_assert!] of [reply] holds. *)
Theorem session_refines light cs :
  Z.of_nat (length cs) < u64_max ->
  exists w, run_session light cs fresh_session = ((spec_sessions light cs empty_transport).1, w)
    /\ session_ok w (spec_sessions light cs empty_transport).2.
Proof. intros Hlen. apply run_session_ok; [apply fresh_session_ok|]. cbn. lia. Qed.

Definition sample_session : list SessionCall :=
  [CallRequest Client (1, 1) (Buffer [10]); CallRequest Client (1, 2) (Buffer [20]);
   CallRequest Client (1, 1) (Buffer [11]); CallReceive Server; CallReceive Server;
   CallReply Server (Buffer [30]); CallReply Client (Buffer [0]); CallReceive Server;
   CallReply Server (Light [1; 2; 3; 4; 5; 6; 7]); CallReply Server (Buffer [40]);
   CallPoll Client (1, 2); CallPoll Client (1, 1); CallPoll Client (1, 1); CallReply Server (Buffer [50]);
   CallRequest Client (1, 1) (Buffer [12]); CallDrop Server; CallRequest Client (1, 1) (Buffer [13])].

Definition sample_answers : list SessionAnswer :=
  [Requested (Ok Submitted); Requested (Ok Submitted); Requested (Ok Waiting);
   Received (Ok (Buffer [10])); Received (Err ReplyPending); Replied (Ok tt);
   Replied (Err WrongEndpoint); Received (Ok (Buffer [20])); Replied (Err MessageKindMismatch);
   Replied (Ok tt); Polled (Ok (Some (Response (Buffer [40])))); Polled (Ok (Some (Response (Buffer [30]))));
   Polled (Ok None); Replied (Err NoRequest); Requested (Ok Submitted); Dropped (Ok tt);
   Requested (Err PeerClosed)].

Lemma session_refines_witness :
  exists w, run_session false sample_session fresh_session = (sample_answers, w)
    /\ session_ok w (spec_sessions false sample_session empty_transport).2.
Proof. apply (session_refines false sample_session). vm_compute. reflexivity. Defined.
