(* ===== verification/RtPort.v ===== *)
(** * Ports (crates/runtime/src/handle/port.rs)

    A port hands out sessions: the client connects, the server accepts in order,
    and the number of sessions alive at a time is bounded.  A session is its
    identity here (its transport is [RtSession]); [sessions] are the identities
    that some endpoint still refers to, the pending ones through the port itself.
    [drop_session] is [SessionIdentity::drop], when the last endpoint of a
    session is gone. *)

From S2P Require Import Prelude RtEvent.

Inductive PortEndpoint : Set := PortServer | PortClient.
#[export] Instance PortEndpoint_eq_dec : EqDecision PortEndpoint.
Proof. solve_decision. Defined.

Inductive PortError : Set := PortWrongEndpoint | PortPeerClosed | SessionLimit | NoPendingSession.

Record PortState := mkPort {
  port_server_open : bool;
  port_client_open : bool;
  max_sessions : Z;
  active_sessions : Z;
  is_light : bool;
  pending : list Z;
}.

Record PortWorld := mkPortWorld {
  port_events : EventHeap;
  port : PortState;
  port_generation : Z;
  port_wake_event : EventId;
  sessions : gset Z;
  next_session : Z;
}.

Definition create_port (max : Z) (light : bool) : PortState := mkPort true true max 0 light [].

Notation PM := (SM PortWorld PortError).

Definition set_port (p : PortState) : PM unit :=
  modify (fun w => mkPortWorld (port_events w) p (port_generation w) (port_wake_event w)
                     (sessions w) (next_session w)).

Definition on_port_events {A} (m : SM EventHeap PortError A) : PM A :=
  fun w =>
    let '(r, h) := m (port_events w) in
    (r, mkPortWorld h (port w) (port_generation w) (port_wake_event w) (sessions w) (next_session w)).

(** [wake_generation.fetch_add(1); wake_event.signal()] *)
Definition port_wake : PM unit :=
  do! modify (fun w => mkPortWorld (port_events w) (port w) (wrap 64 (port_generation w + 1))
                         (port_wake_event w) (sessions w) (next_session w)) in
  let! w := get in
  on_port_events (signal (port_wake_event w)).

(** [SessionObject::create_pair_with_kind]: a new identity, whose wake event is
    allocated too. *)
Definition create_session : PM Z :=
  do! on_port_events new in
  fun w =>
    (Ok (next_session w),
     mkPortWorld (port_events w) (port w) (port_generation w) (port_wake_event w)
       ({[next_session w]} ∪ sessions w) (next_session w + 1)).

Definition port_is_signalled (endpoint : PortEndpoint) (p : PortState) : bool :=
  bool_decide (endpoint = PortServer) && (negb (bool_decide (pending p = [])) || negb (port_client_open p)).

Definition connect (endpoint : PortEndpoint) : PM Z :=
  do! guard (negb (bool_decide (endpoint = PortClient))) PortWrongEndpoint in
  let! w := get in
  let p := port w in
  do! guard (negb (port_server_open p)) PortPeerClosed in
  do! guard (max_sessions p <=? active_sessions p) SessionLimit in
  let! s := create_session in
  do! set_port (mkPort (port_server_open p) (port_client_open p) (max_sessions p)
                  (active_sessions p + 1) (is_light p) (pending p ++ [s])) in
  do! port_wake in
  ret s.

Definition accept (endpoint : PortEndpoint) : PM Z :=
  do! guard (negb (bool_decide (endpoint = PortServer))) PortWrongEndpoint in
  let! w := get in
  let p := port w in
  match pending p with
  | [] => throw (if port_client_open p then NoPendingSession else PortPeerClosed)
  | s :: rest =>
      do! set_port (mkPort (port_server_open p) (port_client_open p) (max_sessions p)
                      (active_sessions p) (is_light p) rest) in
      do! port_wake in
      ret s
  end.

(** [PortEndpointLease::drop] *)
Definition drop_port_endpoint (endpoint : PortEndpoint) : PM unit :=
  let! w := get in
  let p := port w in
  do! set_port (mkPort (match endpoint with PortServer => false | PortClient => port_server_open p end)
                  (match endpoint with PortClient => false | PortServer => port_client_open p end)
                  (max_sessions p) (active_sessions p) (is_light p) (pending p)) in
  port_wake.

(** [SessionIdentity::drop] of a session of this port. *)
Definition drop_session (s : Z) : PM unit :=
  let! w := get in
  let p := port w in
  do! set_port (mkPort (port_server_open p) (port_client_open p) (max_sessions p)
                  (Z.max (active_sessions p - 1) 0) (is_light p) (pending p)) in
  modify (fun w => mkPortWorld (port_events w) (port w) (port_generation w) (port_wake_event w)
                     (sessions w ∖ {[s]}) (next_session w)).

(** ** The invariant *)

Record port_ok (w : PortWorld) : Prop := {
  port_heap : heap_wf (port_events w);
  port_event : allocated (port_events w) (port_wake_event w);
  port_count : active_sessions (port w) = Z.of_nat (size (sessions w));
  port_bound : Z.of_nat (size (sessions w)) <= Z.max (max_sessions (port w)) 0;
  port_pending : forall s, s ∈ pending (port w) -> s ∈ sessions w;
  port_nodup : NoDup (pending (port w));
  port_fresh : forall s, s ∈ sessions w -> s < next_session w;
}.

Lemma port_wake_ok w :
  port_ok w ->
  exists w', port_wake w = (Ok tt, w') /\ port_ok w' /\ port w' = port w
    /\ sessions w' = sessions w /\ next_session w' = next_session w
    /\ event_signalled (port_events w') (port_wake_event w) = true.
Proof.
  intros HI. destruct (signal_ok (E := PortError) (port_events w) (port_wake_event w)
    (port_heap _ HI) (port_event _ HI)) as (h' & Hs & Hwf & _ & Hext).
  unfold port_wake, bind, modify, get, on_port_events. cbn [port_events port_wake_event].
  rewrite Hs. eexists. split; [reflexivity|]. cbn.
  split; [|repeat split; by apply (extends_fired _ _ _ Hext)].
  destruct HI. split; cbn; try done. by apply (extends_alloc _ _ _ Hext).
Qed.

Lemma create_session_ok w :
  port_ok w ->
  exists h', create_session w
    = (Ok (next_session w),
       mkPortWorld h' (port w) (port_generation w) (port_wake_event w)
         ({[next_session w]} ∪ sessions w) (next_session w + 1))
    /\ heap_wf h' /\ allocated h' (port_wake_event w).
Proof.
  intros HI.
  assert (Hwp : wp (E := PortError) new (fun _ h' => heap_wf h' /\ heap_extends (fun _ => False) (port_events w) h')
    (fun _ _ => False) (port_events w)) by (apply with_source_wp; [apply HI|done]).
  unfold create_session, bind, on_port_events. unfold wp in Hwp.
  destruct (new (port_events w)) as [[i|e|] h']; [|done|done]. destruct Hwp as [Hwf Hext].
  eexists. split; [reflexivity|]. split; [done|]. apply (extends_alloc _ _ _ Hext), HI.
Qed.

#[local] Opaque port_wake create_session.

Lemma connect_ok w :
  port_ok w ->
  (port_server_open (port w) = false -> connect PortClient w = (Err PortPeerClosed, w))
  /\ (port_server_open (port w) = true -> max_sessions (port w) <= active_sessions (port w) ->
      connect PortClient w = (Err SessionLimit, w))
  /\ (port_server_open (port w) = true -> active_sessions (port w) < max_sessions (port w) ->
      exists w', connect PortClient w = (Ok (next_session w), w') /\ port_ok w'
        /\ pending (port w') = pending (port w) ++ [next_session w]
        /\ sessions w' = {[next_session w]} ∪ sessions w
        /\ active_sessions (port w') = active_sessions (port w) + 1
        /\ event_signalled (port_events w') (port_wake_event w) = true).
Proof.
  intros HI. unfold connect, bind, guard, get.
  change (bool_decide (PortClient = PortClient)) with true. cbn [negb ret].
  split; [by intros ->|]. split; [intros -> Hle; cbn; by rewrite (proj2 (Z.leb_le _ _) Hle)|].
  intros Ho Hlt. rewrite Ho. cbn [negb ret]. rewrite (proj2 (Z.leb_gt _ _) Hlt). cbn [ret].
  destruct (create_session_ok w HI) as (h' & Hc & Hwf & Hal). rewrite Hc. cbn [set_port modify].
  set (w1 := mkPortWorld h' (port w) _ _ _ _).
  set (p1 := mkPort _ _ _ _ _ _).
  assert (Hfresh : next_session w ∉ sessions w) by (intros Hin%(port_fresh _ HI); lia).
  assert (HI1 : port_ok (mkPortWorld h' p1 (port_generation w) (port_wake_event w)
    ({[next_session w]} ∪ sessions w) (next_session w + 1))).
  { destruct HI as [Hh He Hcnt Hb Hp Hn Hf].
    assert (Hsz : size ({[next_session w]} ∪ sessions w) = S (size (sessions w)))
      by (rewrite size_union, size_singleton by set_solver; done).
    split; cbn; try done.
    - rewrite Hsz, Hcnt. lia.
    - rewrite Hsz. lia.
    - intros s [Hs|Hs%list_elem_of_singleton]%elem_of_app; set_solver.
    - apply NoDup_app. split; [done|]. split; [|apply NoDup_singleton].
      intros s Hs ->%list_elem_of_singleton. by apply Hfresh, Hp.
    - intros s [->%elem_of_singleton|Hs%Hf]%elem_of_union; lia. }
  destruct (port_wake_ok _ HI1) as (w' & Hw & HI' & Hpt & Hss & _ & Hsig).
  exists w'. unfold set_port, modify. subst w1. cbn [port_events port_generation port_wake_event sessions next_session].
  rewrite Hw. rewrite Hpt, Hss. by split_and!.
Qed.

Lemma accept_ok w :
  port_ok w ->
  match pending (port w) with
  | [] => accept PortServer w
          = (Err (if port_client_open (port w) then NoPendingSession else PortPeerClosed), w)
  | s :: rest =>
      exists w', accept PortServer w = (Ok s, w') /\ port_ok w' /\ pending (port w') = rest
        /\ sessions w' = sessions w
        /\ event_signalled (port_events w') (port_wake_event w) = true
  end.
Proof.
  intros HI. unfold accept, bind, guard, get.
  change (bool_decide (PortServer = PortServer)) with true. cbn [negb ret].
  destruct (pending (port w)) as [|s rest] eqn:Hp; [done|]. cbn [set_port modify].
  set (p1 := mkPort _ _ _ _ _ _).
  assert (HI1 : port_ok (mkPortWorld (port_events w) p1 (port_generation w) (port_wake_event w)
    (sessions w) (next_session w))).
  { destruct HI as [Hh He Hcnt Hb Hpd Hn Hf]. rewrite Hp in *. split; cbn; try done.
    - intros x Hx. apply Hpd. by right.
    - by apply NoDup_cons in Hn as [_ ?]. }
  destruct (port_wake_ok _ HI1) as (w' & Hw & HI' & Hpt & Hss & _ & Hsig).
  exists w'. unfold set_port, modify. rewrite Hw, Hpt, Hss. by split_and!.
Qed.

Lemma drop_port_ok e w :
  port_ok w -> exists w', drop_port_endpoint e w = (Ok tt, w') /\ port_ok w'
    /\ pending (port w') = pending (port w) /\ sessions w' = sessions w.
Proof.
  intros HI. unfold drop_port_endpoint, bind, get, set_port, modify.
  set (p1 := mkPort _ _ _ _ _ _).
  assert (HI1 : port_ok (mkPortWorld (port_events w) p1 (port_generation w) (port_wake_event w)
    (sessions w) (next_session w))) by (by destruct HI).
  destruct (port_wake_ok _ HI1) as (w' & Hw & HI' & Hpt & Hss & _).
  exists w'. rewrite Hw, Hpt, Hss. by split_and!.
Qed.

Lemma drop_session_ok s w :
  port_ok w -> s ∈ sessions w -> s ∉ pending (port w) ->
  exists w', drop_session s w = (Ok tt, w') /\ port_ok w' /\ pending (port w') = pending (port w)
    /\ sessions w' = sessions w ∖ {[s]}.
Proof.
  intros HI Hs Hp. unfold drop_session, bind, get, set_port, modify. eexists. split; [reflexivity|]. cbn.
  split; [|done]. destruct HI as [Hh He Hcnt Hb Hpd Hn Hf].
  assert (Hsz : size (sessions w) = S (size (sessions w ∖ {[s]}))).
  { rewrite size_difference by set_solver. rewrite size_singleton.
    assert (size (sessions w) <> 0)%nat; [|lia]. intros Hz%size_empty_inv. set_solver. }
  split; cbn; try done; try lia.
  - intros x Hx. rewrite elem_of_difference, elem_of_singleton. split; [by apply Hpd|]. by intros ->.
  - intros x [Hx _]%elem_of_difference. by apply Hf.
Qed.

(** ** Histories *)

Inductive port_step : PortWorld -> PortWorld -> Prop :=
| step_connect e w r w' : connect e w = (r, w') -> port_step w w'
| step_accept e w r w' : accept e w = (r, w') -> port_step w w'
| step_drop_port e w r w' : drop_port_endpoint e w = (r, w') -> port_step w w'
| step_drop_session s w r w' : s ∈ sessions w -> s ∉ pending (port w) ->
    drop_session s w = (r, w') -> port_step w w'.

Definition fresh_port (max : Z) (light : bool) : PortWorld :=
  mkPortWorld (mkHeap {[0 := event_with_source None]} 1 []) (create_port max light) 0 0 ∅ 0.

Inductive port_reachable (max : Z) (light : bool) : PortWorld -> Prop :=
| port_start : port_reachable max light (fresh_port max light)
| port_next w w' : port_reachable max light w -> port_step w w' -> port_reachable max light w'.

Lemma connect_any e w :
  port_ok w -> exists r w', connect e w = (r, w') /\ is_panic r = false /\ port_ok w'.
Proof.
  intros HI. destruct e; [by exists (Err PortWrongEndpoint), w|].
  destruct (connect_ok w HI) as (H1 & H2 & H3).
  destruct (port_server_open (port w)); [|rewrite H1 by done; eauto].
  destruct (Z.le_gt_cases (max_sessions (port w)) (active_sessions (port w))) as [Hle|Hlt].
  - rewrite H2 by done. eauto.
  - destruct (H3 eq_refl Hlt) as (w' & -> & HI' & _). eauto.
Qed.

Lemma accept_any e w :
  port_ok w -> exists r w', accept e w = (r, w') /\ is_panic r = false /\ port_ok w'.
Proof.
  intros HI. destruct e; [|by exists (Err PortWrongEndpoint), w].
  pose proof (accept_ok w HI) as Ha. destruct (pending (port w)); [rewrite Ha; eauto|].
  destruct Ha as (w' & -> & HI' & _). eauto.
Qed.

Lemma port_step_ok w w' : port_ok w -> port_step w w' -> port_ok w'.
Proof.
  intros HI Hstep. destruct Hstep as [e w r w' H|e w r w' H|e w r w' H|s w r w' Hs Hp H].
  - destruct (connect_any e _ HI) as (? & ? & ? & _ & ?). congruence.
  - destruct (accept_any e _ HI) as (? & ? & ? & _ & ?). congruence.
  - destruct (drop_port_ok e _ HI) as (? & ? & ? & _). congruence.
  - destruct (drop_session_ok s _ HI Hs Hp) as (? & ? & ? & _). congruence.
Qed.

Lemma fresh_port_ok max light : port_ok (fresh_port max light).
Proof.
  split; cbn; [|by eexists|done|rewrite size_empty; lia| |constructor|set_solver].
  - intros i [e He]. cbn in *. apply lookup_singleton_Some in He as [<- _]. lia.
  - intros s Hs. by apply not_elem_of_nil in Hs.
Qed.

Lemma port_reachable_ok max light w : port_reachable max light w -> port_ok w.
Proof. induction 1; [apply fresh_port_ok|by eapply port_step_ok]. Qed.


(** ** Claims *)

(** A port never has more sessions alive than its limit, and its counter is
    exact.  In every state a port reaches, whatever the order of connections,
    acceptances, endpoint closes and session drops, [active_sessions] equals the
    number of its sessions that are still referred to, and a client of an open
    server can connect exactly when that number is below [max_sessions]: then it
    gets a session of its own, queued last for the server, and the server is
    woken; at the limit it gets [SessionLimit] and nothing changes.  No call
    panics. *)
Theorem port_limits_sessions max light w :
  port_reachable max light w ->
  active_sessions (port w) = Z.of_nat (size (sessions w))
  /\ (forall e, is_panic (connect e w).1 = false /\ is_panic (accept e w).1 = false)
  /\ (port_server_open (port w) = true ->
      if Z.of_nat (size (sessions w)) <? max_sessions (port w) then
        exists s w', connect PortClient w = (Ok s, w') /\ port_reachable max light w'
          /\ s ∉ sessions w /\ sessions w' = {[s]} ∪ sessions w
          /\ pending (port w') = pending (port w) ++ [s]
          /\ event_signalled (port_events w') (port_wake_event w) = true
      else connect PortClient w = (Err SessionLimit, w)).
Proof.
  intros Hr. pose proof (port_reachable_ok _ _ _ Hr) as HI. split; [apply HI|]. split.
  - intros e. destruct (connect_any e w HI) as (r & w1 & -> & Hp & _).
    destruct (accept_any e w HI) as (r' & w2 & -> & Hp' & _). done.
  - intros Ho. destruct (connect_ok w HI) as (_ & Hlim & Hok). rewrite <- (port_count _ HI).
    destruct (active_sessions (port w) <? max_sessions (port w)) eqn:Hlt.
    + apply Z.ltb_lt in Hlt. destruct (Hok Ho Hlt) as (w' & Hc & _ & Hpd & Hss & _ & Hsig).
      exists (next_session w), w'. split; [done|].
      split; [eapply port_next; [done|by eapply step_connect]|].
      split; [intros Hin%(port_fresh _ HI); lia|done].
    + apply Z.ltb_ge in Hlt. by apply Hlim.
Qed.

Definition connected_port : PortWorld := (connect PortClient (fresh_port 1 false)).2.

Lemma port_limits_sessions_witness :
  active_sessions (port connected_port) = 1
  /\ connect PortClient connected_port = (Err SessionLimit, connected_port).
Proof.
  destruct (port_limits_sessions 1 false connected_port) as (Hc & _ & Hl).
  - eapply port_next; [apply port_start|].
    apply (step_connect PortClient _ (Ok 0)). vm_compute. reflexivity.
  - split; [rewrite Hc; vm_compute; reflexivity|]. apply Hl. vm_compute. reflexivity.
Defined.
