(* ===== verification/RtVirtualTime.v ===== *)
(** * The virtual clock (crates/runtime/src/virtual_time.rs)

    The clock of a process keeps, in one 64-bit word, either the host time it
    has been paused in total or, with the top bit set, the elapsed time it is
    frozen at.  The host's monotonic clock is the argument [host] of each method,
    in nanoseconds since the clock was created. *)

From S2P Require Import Prelude.

Inductive VirtualClockMode : Type :=
| Realtime
| Fixed (unix_seconds : Z).

Record VirtualClock := mkClock {
  mode : VirtualClockMode;
  wall_anchor : Z;
  scheduler_time : Z;
  pause : Z;
}.

Definition PAUSED : Z := Z.shiftl 1 63.

(** [u64::saturating_sub] *)
Definition saturating_sub (x y : Z) : Z := Z.max (x - y) 0.

Definition pause_transition (state now : Z) (paused : bool) : Z :=
  if paused then Z.lor PAUSED (saturating_sub now state)
  else saturating_sub now (Z.land state (unot 64 PAUSED)).

(** [VirtualClock::new], the host's wall clock being an argument. *)
Definition new (m : VirtualClockMode) (host_unix_seconds : Z) : VirtualClock :=
  mkClock m (match m with Realtime => host_unix_seconds | Fixed s => s end) 0 0.

Definition is_paused (c : VirtualClock) : bool := bit_set (pause c) PAUSED.

Definition host_elapsed_ns (host : Z) : Z := Z.min host (PAUSED - 1).

(** [host_elapsed], in nanoseconds: the pause word is read again after the host
    clock, and the loop ends when it has not changed in between. *)
Definition host_elapsed (c : VirtualClock) (host : Z) : Z :=
  if is_paused c then Z.land (pause c) (unot 64 PAUSED)
  else saturating_sub (host_elapsed_ns host) (pause c).

Definition elapsed (c : VirtualClock) (host : Z) : Z :=
  match mode c with Realtime => host_elapsed c host | Fixed _ => 0 end.

Definition i64_max : Z := 2 ^ 63 - 1.
Definition i64_min : Z := - 2 ^ 63.

Definition saturating_add_i64 (x y : Z) : Z := Z.max i64_min (Z.min (x + y) i64_max).

Definition duration_seconds (nanoseconds : Z) : Z := Z.min (nanoseconds / 1000000000) i64_max.

Definition unix_seconds (c : VirtualClock) (host : Z) : Z :=
  saturating_add_i64 (wall_anchor c)
    (match mode c with Realtime => duration_seconds (elapsed c host) | Fixed _ => 0 end).

Definition set_paused (c : VirtualClock) (host : Z) (paused : bool) : VirtualClock :=
  if Bool.eqb (is_paused c) paused then c
  else mkClock (mode c) (wall_anchor c) (scheduler_time c)
         (pause_transition (pause c) (host_elapsed_ns host) paused).

Definition scheduler_time_ns (c : VirtualClock) (host : Z) : Z :=
  match mode c with
  | Realtime => Z.max (scheduler_time c) (Z.min (elapsed c host) u64_max)
  | Fixed _ => scheduler_time c
  end.

Definition advance_scheduler_to (c : VirtualClock) (nanoseconds : Z) : VirtualClock :=
  mkClock (mode c) (wall_anchor c) (Z.max (scheduler_time c) nanoseconds) (pause c).

(** ** Specification: a stopwatch *)

Record Stopwatch := mkStopwatch { accumulated : Z; running_since : option Z }.

Definition start : Stopwatch := mkStopwatch 0 (Some 0).

Definition reading (s : Stopwatch) (now : Z) : Z :=
  accumulated s + match running_since s with Some since => now - since | None => 0 end.

Definition press (s : Stopwatch) (now : Z) (paused : bool) : Stopwatch :=
  match running_since s, paused with
  | Some _, true => mkStopwatch (reading s now) None
  | None, false => mkStopwatch (accumulated s) (Some now)
  | _, _ => s
  end.

(** ** The pause word encodes the stopwatch *)

Lemma PAUSED_pow : PAUSED = 2 ^ 63.
Proof. reflexivity. Qed.

Lemma lor_paused x : 0 <= x < 2 ^ 63 -> Z.lor PAUSED x = 2 ^ 63 + x.
Proof.
  intros Hx. rewrite PAUSED_pow.
  assert (Hl : Z.land (2 ^ 63) x = 0).
  { apply Z.bits_inj'. intros i Hi. rewrite Z.land_spec, Z.bits_0, Z.pow2_bits_eqb by lia.
    destruct (Z.eqb_spec 63 i) as [<-|Hne]; [|done].
    rewrite (testbit_high 63) by (unfold in_range; lia). done. }
  by rewrite Z.add_nocarry_lxor, Z.lxor_lor.
Qed.

Lemma paused_test x : in_range 64 x -> bit_set x PAUSED = (2 ^ 63 <=? x).
Proof.
  intros Hx. rewrite PAUSED_pow, bit_set_pow2 by lia.
  rewrite (testbit_top 64) by (lia || done). reflexivity.
Qed.

Lemma unpaused x : 0 <= x < 2 ^ 63 -> Z.land (2 ^ 63 + x) (unot 64 PAUSED) = x.
Proof.
  intros Hx. assert (Hm : unot 64 PAUSED = Z.ones 63) by reflexivity.
  rewrite Hm, land_ones_wrap by lia. unfold wrap.
  rewrite Z.add_comm, <- (Z.mul_1_l (2 ^ 63)) at 1. rewrite Z.mod_add, Z.mod_small by lia. done.
Qed.

Definition encodes (c : VirtualClock) (s : Stopwatch) (now : Z) : Prop :=
  0 <= accumulated s < 2 ^ 63
  /\ match running_since s with
     | None => pause c = 2 ^ 63 + accumulated s /\ accumulated s <= now
     | Some since => pause c = since - accumulated s /\ accumulated s <= since <= now
     end.

Lemma encodes_paused c s now :
  encodes c s now -> now < 2 ^ 63 ->
  is_paused c = match running_since s with None => true | Some _ => false end.
Proof.
  intros [Ha Hr] Hn. unfold is_paused.
  destruct (running_since s) as [since|]; destruct Hr as [Hp Hr];
    rewrite Hp, paused_test by (unfold in_range; lia); [apply Z.leb_gt|apply Z.leb_le]; lia.
Qed.

Lemma host_clamp host : 0 <= host -> 0 <= host_elapsed_ns host < 2 ^ 63.
Proof. intros Hh. unfold host_elapsed_ns. rewrite PAUSED_pow. lia. Qed.

Lemma encodes_elapsed c s host :
  encodes c s (host_elapsed_ns host) -> 0 <= host ->
  host_elapsed c host = reading s (host_elapsed_ns host).
Proof.
  intros He Hh. pose proof (host_clamp host Hh) as Hn. unfold host_elapsed.
  rewrite (encodes_paused c s _ He) by lia. destruct He as [Ha Hr]. unfold reading.
  destruct (running_since s) as [since|]; destruct Hr as [-> Hr].
  - unfold saturating_sub. lia.
  - rewrite unpaused by lia. lia.
Qed.

Lemma set_paused_encodes c s host paused :
  encodes c s (host_elapsed_ns host) -> 0 <= host ->
  encodes (set_paused c host paused) (press s (host_elapsed_ns host) paused) (host_elapsed_ns host).
Proof.
  intros He Hh. pose proof (host_clamp host Hh) as Hn. unfold set_paused.
  rewrite (encodes_paused c s _ He) by lia. unfold press. pose proof He as [Ha Hr].
  destruct (running_since s) as [since|] eqn:Hs, paused; cbn [Bool.eqb]; try done.
  - destruct Hr as [Hp Hr]. unfold encodes, reading. cbn. rewrite Hs. split; [lia|].
    unfold pause_transition, saturating_sub. rewrite Hp. rewrite lor_paused by lia. split; lia.
  - destruct Hr as [Hp Hr]. unfold encodes. cbn. split; [done|].
    unfold pause_transition, saturating_sub. rewrite Hp, unpaused by lia. split; lia.
Qed.

Lemma encodes_later c s now now' : encodes c s now -> now <= now' -> encodes c s now'.
Proof. intros [Ha Hr] Hle. split; [done|]. destruct (running_since s); destruct Hr; split; lia || done. Qed.

(** ** Histories of pauses *)

Fixpoint toggles (l : list (Z * bool)) (c : VirtualClock) : VirtualClock :=
  match l with
  | [] => c
  | (host, paused) :: l => toggles l (set_paused c host paused)
  end.

Fixpoint presses (l : list (Z * bool)) (s : Stopwatch) : Stopwatch :=
  match l with
  | [] => s
  | (host, paused) :: l => presses l (press s (host_elapsed_ns host) paused)
  end.

Lemma host_elapsed_ns_mono a b : a <= b -> host_elapsed_ns a <= host_elapsed_ns b.
Proof. unfold host_elapsed_ns. lia. Qed.

Lemma toggles_encode l c s from host :
  encodes c s (host_elapsed_ns from) -> 0 <= from -> Sorted Z.le (from :: l.*1 ++ [host]) ->
  encodes (toggles l c) (presses l s) (host_elapsed_ns host) /\ 0 <= host.
Proof.
  revert c s from. induction l as [|[h p] l IH]; intros c s from He Hf Hs.
  - cbn in *. inversion Hs as [|? ? _ Hd]; subst. inversion Hd; subst. split; [|lia].
    eapply encodes_later; [done|]. by apply host_elapsed_ns_mono.
  - cbn in Hs. inversion Hs as [|? ? Hs' Hd]; subst. inversion Hd as [|? ? Hle]; subst.
    cbn [toggles presses]. apply (IH _ _ h); [|lia|done].
    apply set_paused_encodes; [|lia]. eapply encodes_later; [done|]. by apply host_elapsed_ns_mono.
Qed.

Lemma new_encodes m w : encodes (new m w) start (host_elapsed_ns 0).
Proof. unfold encodes, host_elapsed_ns. cbn. split; [lia|]. split; [done|]. rewrite PAUSED_pow. lia. Qed.

(** ** Claims *)

(** The clock excludes exactly the time it was paused.  For every sequence of
    pause and resume requests at non-decreasing host times (redundant requests
    included), the elapsed time a realtime clock reports is the reading of a
    stopwatch pressed at the same times, with host time capped at [2^63 - 1]
    nanoseconds: it stands still while paused, and advances with the host
    otherwise. *)
Theorem clock_excludes_pauses wall l host :
  Sorted Z.le (0 :: l.*1 ++ [host]) ->
  elapsed (toggles l (new Realtime wall)) host = reading (presses l start) (host_elapsed_ns host).
Proof.
  intros Hs. destruct (toggles_encode l (new Realtime wall) start 0 host (new_encodes _ _)) as [He Hh];
    [lia|done|].
  assert (Hm : mode (toggles l (new Realtime wall)) = Realtime).
  { generalize (eq_refl : mode (new Realtime wall) = Realtime). generalize (new Realtime wall).
    clear. induction l as [|[h p] l IH]; intros c Hc; [done|]. apply IH. unfold set_paused. by case_match. }
  unfold elapsed. rewrite Hm. by apply encodes_elapsed.
Qed.

Lemma clock_excludes_pauses_witness :
  elapsed (toggles [(100, true); (1100, false); (1150, true); (1200, true)] (new Realtime 5)) 9000 = 150.
Proof.
  rewrite (clock_excludes_pauses 5 [(100, true); (1100, false); (1150, true); (1200, true)] 9000).
  - vm_compute. reflexivity.
  - repeat constructor; vm_compute; discriminate.
Defined.
