(* ===== verification/GpuPacket.v ===== *)
(** * Pushbuffer packets (crates/gpu-maxwell/src/pushbuffer/packet.rs and packet/methods.rs)

    The command words of a GPU submission are decoded to packets before any
    engine sees them.  A packet of methods keeps its arguments as a block of
    words and their provenance as runs of consecutive source locations; a
    [MethodSpan] expands it again.  The reference is a grammar of headers and
    arguments, written with the fields of a header as numbers. *)

From S2P Require Import Prelude.

(** ** Data *)

(** [MaxwellGpfifoSourceLocation]; the identifiers are newtypes of integers. *)
Record Location := mkLocation {
  channel : Z;
  frontend : Z;
  entry_index : Z;
  pushbuffer : Z;
  word_offset : Z;
  mapping : Z;
  generation : Z;
}.

#[export] Instance Location_eq_dec : EqDecision Location.
Proof. solve_decision. Defined.

Definition set_word_offset (n : Z) (l : Location) : Location :=
  mkLocation (channel l) (frontend l) (entry_index l) (pushbuffer l) n (mapping l) (generation l).

Record Word := mkWord { word_value : Z; word_location : Location }.

Definition METHOD_ADDRESS_MASK : Z := 0xfff.
Definition METHOD_RESERVED_BIT : Z := 2 ^ 12.
Definition SUBCHANNEL_SHIFT : Z := 13.
Definition SUBCHANNEL_MASK : Z := 7.
Definition COUNT_SHIFT : Z := 16.
Definition COUNT_MASK : Z := 0x1fff.
Definition SECONDARY_OPCODE_SHIFT : Z := 29.
Definition SECONDARY_OPCODE_MASK : Z := 7.
Definition MAX_METHOD_DWORD : Z := METHOD_ADDRESS_MASK.

Definition OPCODE_GROUP_ZERO : Z := 0.
Definition OPCODE_INCREMENTING : Z := 1.
Definition OPCODE_NON_INCREMENTING : Z := 3.
Definition OPCODE_IMMEDIATE : Z := 4.
Definition OPCODE_INCREMENT_ONCE : Z := 5.
Definition OPCODE_END_SEGMENT : Z := 7.

Definition CONTROL_SET_SUBDEVICE_MASK : Z := 1.
Definition CONTROL_STORE_SUBDEVICE_MASK : Z := 2.
Definition CONTROL_USE_SUBDEVICE_MASK : Z := 3.

Inductive PacketMode := Incrementing | NonIncrementing | Immediate | IncrementOnce.

#[export] Instance PacketMode_eq_dec : EqDecision PacketMode.
Proof. solve_decision. Defined.

Definition METHOD_ENCODINGS : list (Z * PacketMode) :=
  [(OPCODE_INCREMENTING, Incrementing); (OPCODE_NON_INCREMENTING, NonIncrementing);
   (OPCODE_IMMEDIATE, Immediate); (OPCODE_INCREMENT_ONCE, IncrementOnce)].

(** [MaxwellPushbufferSubchannel::try_new] *)
Definition subchannel_try_new (value : Z) : option Z :=
  if value <=? SUBCHANNEL_MASK then Some value else None.

Record DecodedMethod := mkMethod {
  method : Z;
  argument : Z;
  argument_source : Location;
}.

Record SourceRun := mkRun { run_index : Z; run_location : Location }.

Inductive PacketMethods : Type :=
| Empty
| One (m : DecodedMethod)
| Many (first_method : Z) (arguments : list Z) (first_source : Location) (sources : list SourceRun).

Record MethodPacket := mkPacket {
  mode : PacketMode;
  header : Location;
  subchannel : option Z;
  methods : PacketMethods;
}.

Inductive Control : Type :=
| Nop
| SetSubdeviceMask (mask : Z)
| StoreSubdeviceMask (mask : Z)
| UseSubdeviceMask
| EndSegment.

Inductive DecodedPacket : Type :=
| Methods (packet : MethodPacket)
| ControlPacket (operation : Control) (source : Location).

Definition packet_source (p : DecodedPacket) : Location :=
  match p with
  | Methods packet => header packet
  | ControlPacket _ source => source
  end.

(** [MaxwellDecodedMethodPacket::source_runs] *)
Definition source_runs (p : MethodPacket) : list Location :=
  match methods p with
  | Empty => []
  | One m => [argument_source m]
  | Many _ _ first_source sources => first_source :: map run_location sources
  end.

(** ** Method addresses *)

(** The sums stay far below 2^32: [first] has 12 bits and [index] 16. *)
Definition method_dword (m : PacketMode) (first index : Z) : Z :=
  match m with
  | Incrementing => first + index
  | IncrementOnce => if negb (index =? 0) then first + 1 else first
  | NonIncrementing | Immediate => first
  end.

Definition method_id (dword : Z) : Z := dword * 4.

(** ** The decoder *)

Section Decoder.
(** The errors of the word source are passed through. *)
Context {SourceError : Type}.

Inductive DecodeError : Type :=
| Source (error : SourceError)
| UnknownEncoding (source : Location) (word secondary_opcode : Z)
| InvalidControlEncoding (source : Location) (word : Z)
| ReservedMethodBit (source : Location) (word : Z)
| MethodRangeOverflow (source : Location) (m : PacketMode) (first_method count : Z)
| TruncatedPacket (source : Location) (expected_arguments available_arguments : Z)
| ResourceExhausted.

(** [PacketScratch]: buffers reused from packet to packet. *)
Record PacketScratch := mkScratch {
  scratch_arguments : list Z;
  scratch_sources : list SourceRun;
}.

Definition scratch_default : PacketScratch := mkScratch [] [].

(** [DecodedPackets]: the remaining words are the items the iterator has still to
    yield. *)
Record DecodedPackets := mkDecoder {
  words : list (SourceError + Word);
  end_entry : option Z;
  finished : bool;
  scratch : PacketScratch;
}.

Notation M := (SM DecodedPackets DecodeError).

Definition set_words (l : list (SourceError + Word)) (d : DecodedPackets) : DecodedPackets :=
  mkDecoder l (end_entry d) (finished d) (scratch d).
Definition set_end_entry (e : option Z) (d : DecodedPackets) : DecodedPackets :=
  mkDecoder (words d) e (finished d) (scratch d).
Definition set_finished (b : bool) (d : DecodedPackets) : DecodedPackets :=
  mkDecoder (words d) (end_entry d) b (scratch d).
Definition set_scratch (s : PacketScratch) (d : DecodedPackets) : DecodedPackets :=
  mkDecoder (words d) (end_entry d) (finished d) s.

Definition decoder_new (l : list (SourceError + Word)) : DecodedPackets :=
  mkDecoder l None false scratch_default.
Definition with_scratch (l : list (SourceError + Word)) (s : PacketScratch) : DecodedPackets :=
  mkDecoder l None false s.
Definition into_scratch (d : DecodedPackets) : PacketScratch := scratch d.

Definition recycle (p : DecodedPacket) (d : DecodedPackets) : DecodedPackets :=
  match p with
  | Methods packet =>
      match methods packet with
      | Many _ arguments _ sources => set_scratch (mkScratch arguments sources) d
      | _ => d
      end
  | _ => d
  end.

Definition next_word : M (option Word) :=
  let! d := get in
  match words d with
  | [] => ret None
  | item :: rest =>
      do! modify (set_words rest) in
      match item with
      | inl error => throw (Source error)
      | inr word => ret (Some word)
      end
  end.

(** The loop of [skip_entry_tail], over the remaining words. *)
Fixpoint skip_words (entry : Z) (l : list (SourceError + Word)) : Result DecodeError unit * list (SourceError + Word) :=
  match l with
  | inr word :: rest =>
      if entry_index (word_location word) =? entry then skip_words entry rest else (Ok tt, l)
  | inl error :: rest => (Err (Source error), rest)
  | [] => (Ok tt, [])
  end.

Definition skip_entry_tail (entry : Z) : M unit :=
  fun d => let '(r, rest) := skip_words entry (words d) in (r, set_words rest d).

Definition validate_method_range (source : Location) (m : PacketMode) (first_method_dword count : Z) : M unit :=
  let last :=
    match m with
    | Incrementing =>
        match checked_add 32 first_method_dword (count - 1) with
        | Some last => if last <=? MAX_METHOD_DWORD then Some last else None
        | None => None
        end
    | IncrementOnce =>
        if 1 <? count then
          match checked_add 32 first_method_dword 1 with
          | Some last => if last <=? MAX_METHOD_DWORD then Some last else None
          | None => None
          end
        else Some first_method_dword
    | NonIncrementing | Immediate => Some first_method_dword
    end in
  match last with
  | None => throw (MethodRangeOverflow source m (method_id first_method_dword) count)
  | Some _ => ret tt
  end.

(** The local variables of the loop over the arguments. *)
Record ArgumentLoop := mkLoop {
  loop_arguments : list Z;
  loop_sources : list SourceRun;
  loop_first : Location;
  loop_base : Z;
  loop_previous : Location;
}.

(** One turn: the argument continues the current run of locations, or starts a
    new one.  [expected.word_offset += ..] overflows with a panic. *)
Definition push_argument (index : Z) (word : Word) (l : ArgumentLoop) : M ArgumentLoop :=
  let location := word_location word in
  let l1 := if index =? 0
            then mkLoop (loop_arguments l) (loop_sources l) location (loop_base l) location else l in
  let! offset := expect (checked_add 64 (word_offset (loop_previous l1)) (index - loop_base l1)) in
  let expected := set_word_offset offset (loop_previous l1) in
  let l2 := if negb (bool_decide (expected = location))
            then mkLoop (loop_arguments l1) (loop_sources l1 ++ [mkRun index location]) (loop_first l1)
                   index location
            else l1 in
  ret (mkLoop (loop_arguments l2 ++ [word_value word]) (loop_sources l2) (loop_first l2)
         (loop_base l2) (loop_previous l2)).

(** [for argument_index in index..index + left] *)
Fixpoint read_arguments (source : Location) (count : Z) (left : nat) (index : Z) (l : ArgumentLoop) : M ArgumentLoop :=
  match left with
  | O => ret l
  | S left' =>
      let! word := next_word in
      match word with
      | None => throw (TruncatedPacket source count index)
      | Some word =>
          let! l' := push_argument index word l in
          read_arguments source count left' (index + 1) l'
      end
  end.

Definition read_many (source : Location) (first_method_dword count : Z) : M PacketMethods :=
  do! modify (set_scratch scratch_default) in
  let! l := read_arguments source count (Z.to_nat count) 0 (mkLoop [] [] source 0 source) in
  ret (Many first_method_dword (loop_arguments l) (loop_first l) (loop_sources l)).

Definition read_one (w : Word) (m : PacketMode) (first_method_dword encoded_count count : Z) : M PacketMethods :=
  let! word :=
    (if bool_decide (m = Immediate) then ret (mkWord encoded_count (word_location w))
     else let! next := next_word in
          ok_or next (TruncatedPacket (word_location w) count 0)) in
  ret (One (mkMethod (method_id first_method_dword) (word_value word) (word_location word))).

Definition decode_method_packet (w : Word) (m : PacketMode) : M DecodedPacket :=
  let encoded_count := Z.land (shr (word_value w) COUNT_SHIFT) COUNT_MASK in
  let count := if bool_decide (m = Immediate) then 1 else encoded_count in
  if count =? 0 then ret (Methods (mkPacket m (word_location w) None Empty))
  else
    do! guard (bit_set (word_value w) METHOD_RESERVED_BIT)
          (ReservedMethodBit (word_location w) (word_value w)) in
    let first_method_dword := Z.land (word_value w) METHOD_ADDRESS_MASK in
    do! validate_method_range (word_location w) m first_method_dword count in
    let sub := Z.land (shr (word_value w) SUBCHANNEL_SHIFT) SUBCHANNEL_MASK in
    let! ms := (if count =? 1 then read_one w m first_method_dword encoded_count count
                else read_many (word_location w) first_method_dword count) in
    ret (Methods (mkPacket m (word_location w) (Some sub) ms)).

Definition control_packet (operation : Control) (w : Word) : DecodedPacket :=
  ControlPacket operation (word_location w).

Definition decode_group_zero_control (w : Word) : M DecodedPacket :=
  let opcode := wrap 16 (shr (word_value w) 16) in
  let low := wrap 16 (word_value w) in
  if (opcode =? CONTROL_SET_SUBDEVICE_MASK) && (Z.land low 0xf =? 0)
  then ret (control_packet (SetSubdeviceMask (shr low 4)) w)
  else if (opcode =? CONTROL_STORE_SUBDEVICE_MASK) && (Z.land low 0xf =? 0)
  then ret (control_packet (StoreSubdeviceMask (shr low 4)) w)
  else if (opcode =? CONTROL_USE_SUBDEVICE_MASK) && (low =? 0)
  then ret (control_packet UseSubdeviceMask w)
  else throw (InvalidControlEncoding (word_location w) (word_value w)).

Definition decode_packet (w : Word) : M DecodedPacket :=
  let word := word_value w in
  if word =? 0 then ret (control_packet Nop w)
  else
    let opcode := Z.land (shr word SECONDARY_OPCODE_SHIFT) SECONDARY_OPCODE_MASK in
    if opcode =? OPCODE_GROUP_ZERO then decode_group_zero_control w
    else if opcode =? OPCODE_END_SEGMENT then ret (control_packet EndSegment w)
    else
      match List.find (fun encoding => fst encoding =? opcode) METHOD_ENCODINGS with
      | None => throw (UnknownEncoding (word_location w) word opcode)
      | Some (_, m) => decode_method_packet w m
      end.

(** [DecodedPackets::read] *)
Definition read : M (option DecodedPacket) :=
  let! d := get in
  do! modify (set_end_entry None) in
  do! (match end_entry d with Some entry => skip_entry_tail entry | None => ret tt end) in
  let! w := next_word in
  match w with
  | None => ret None
  | Some w =>
      let! packet := decode_packet w in
      do! (match packet with
           | ControlPacket EndSegment _ => modify (set_end_entry (Some (entry_index (word_location w))))
           | _ => ret tt
           end) in
      ret (Some packet)
  end.

(** [Iterator::next] *)
Definition next (d : DecodedPackets) : option (Result DecodeError DecodedPacket) * DecodedPackets :=
  if finished d then (None, d)
  else match read d with
       | (Ok (Some packet), d') => (Some (Ok packet), d')
       | (Ok None, d') => (None, set_finished true d')
       | (Err error, d') => (Some (Err error), set_finished true d')
       | (Panic, d') => (Some Panic, d')
       end.

(** The loop of [decode_maxwell_pushbuffer]; [None] when the fuel runs out. *)
Fixpoint collect (fuel : nat) (d : DecodedPackets) (packets : list DecodedPacket) :
  option (Result DecodeError (list DecodedPacket)) :=
  match fuel with
  | O => None
  | S fuel' =>
      match next d with
      | (None, _) => Some (Ok packets)
      | (Some (Ok packet), d') => collect fuel' d' (packets ++ [packet])
      | (Some (Err error), _) => Some (Err error)
      | (Some Panic, _) => Some Panic
      end
  end.

(** Every turn of the loop consumes a word. *)
Definition decode_maxwell_pushbuffer (l : list (SourceError + Word)) :
  option (Result DecodeError (list DecodedPacket)) :=
  collect (S (length l)) (decoder_new l) [].
End Decoder.

(** ** Method spans (packet/methods.rs) *)

Record MethodSpan := mkSpan { span_packet : MethodPacket; span_begin : Z; span_end : Z }.

(** [MaxwellDecodedMethodPacket::methods] *)
Definition span_new (p : MethodPacket) : MethodSpan :=
  mkSpan p 0 (match methods p with
              | Empty => 0
              | One _ => 1
              | Many _ arguments _ _ => Z.of_nat (length arguments)
              end).

Definition span_len (s : MethodSpan) : Z := span_end s - span_begin s.
Definition span_is_empty (s : MethodSpan) : bool := span_begin s =? span_end s.

(** The location of the argument [index] of a packet. *)
Definition argument_location (first_source : Location) (sources : list SourceRun) (index : Z) :
  Result unit Location :=
  let run := partition_point (fun run => run_index run <=? index) sources in
  let? start :=
    match run with
    | O => Ok (mkRun 0 first_source)
    | S last => match sources !! last with Some run => Ok run | None => Panic end
    end in
  match checked_add 64 (word_offset (run_location start)) (index - run_index start) with
  | Some offset => Ok (set_word_offset offset (run_location start))
  | None => Panic
  end.

(** [MaxwellMethodSpan::get]; [Err tt] is [None]. *)
Definition span_get (s : MethodSpan) (index : Z) : Result unit DecodedMethod :=
  if span_len s <=? index then Err tt
  else
    let index := span_begin s + index in
    match methods (span_packet s) with
    | Empty => Panic
    | One m => Ok m
    | Many first_method arguments first_source sources =>
        let? location := argument_location first_source sources index in
        match arguments !! Z.to_nat index with
        | Some value =>
            Ok (mkMethod (method_id (method_dword (mode (span_packet s)) first_method (wrap 16 index)))
                  value location)
        | None => Panic
        end
    end.

Definition span_first (s : MethodSpan) : Result unit DecodedMethod := span_get s 0.

Definition span_last (s : MethodSpan) : Result unit DecodedMethod :=
  if span_len s <? 1 then Err tt else span_get s (span_len s - 1).

(** [MaxwellMethodSpan::arguments] *)
Definition span_arguments (s : MethodSpan) : list Z :=
  let cut (l : list Z) := take (Z.to_nat (span_len s)) (drop (Z.to_nat (span_begin s)) l) in
  match methods (span_packet s) with
  | Empty => []
  | One m => cut [argument m]
  | Many _ arguments _ _ => cut arguments
  end.

(** [slice(begin..end)]; the assertion panics. *)
Definition span_slice (s : MethodSpan) (first last : Z) : Result unit MethodSpan :=
  if (first <=? last) && (last <=? span_len s)
  then Ok (mkSpan (span_packet s) (span_begin s + first) (span_begin s + last)) else Panic.

(** [MaxwellMethodIterator]: the methods from both ends. *)
Record MethodIterator := mkIterator { iter_span : MethodSpan; iter_next : Z }.

Definition span_iter (s : MethodSpan) : MethodIterator := mkIterator s 0.

Definition iterator_next (it : MethodIterator) : Result unit DecodedMethod * MethodIterator :=
  match span_get (iter_span it) (iter_next it) with
  | Ok m => (Ok m, mkIterator (iter_span it) (iter_next it + 1))
  | r => (r, it)
  end.

Definition iterator_next_back (it : MethodIterator) : Result unit DecodedMethod * MethodIterator :=
  if iter_next it =? span_len (iter_span it) then (Err tt, it)
  else
    let s := iter_span it in
    (span_last s, mkIterator (mkSpan (span_packet s) (span_begin s) (span_end s - 1)) (iter_next it)).

(** [last_writes]: one call of its closure. *)
Definition last_write (s : MethodSpan) : Result unit DecodedMethod * MethodSpan :=
  match span_last s with
  | Ok m =>
      (Ok m,
       mkSpan (span_packet s) (span_begin s)
         (match mode (span_packet s) with
          | Incrementing => span_end s - 1
          | IncrementOnce => if (span_begin s =? 0) && (1 <? span_end s) then 1 else span_begin s
          | _ => span_begin s
          end))
  | r => (r, s)
  end.

(** The whole iteration: at most one turn per method. *)
Fixpoint last_writes (turns : nat) (s : MethodSpan) : list DecodedMethod :=
  match turns with
  | O => []
  | S turns' =>
      match last_write s with
      | (Ok m, s') => m :: last_writes turns' s'
      | _ => []
      end
  end.

(** ** Runs of locations *)

(** A run that starts later does not change the location of an earlier argument. *)
Lemma argument_location_snoc first sources r k :
  k < run_index r -> argument_location first (sources ++ [r]) k = argument_location first sources k.
Proof.
  intros Hk. unfold argument_location. rewrite partition_point_snoc by (apply Z.leb_gt; lia).
  pose proof (partition_point_le (fun run => run_index run <=? k) sources) as Hle.
  destruct (partition_point _ sources) as [|last]; [done|]. by rewrite lookup_app_l by lia.
Qed.

(** An argument at or after the start of the last run. *)
Lemma argument_location_last first sources base previous k :
  last (mkRun 0 first :: sources) = Some (mkRun base previous) ->
  Forall (fun r => run_index r <= base) sources -> base <= k ->
  word_offset previous + (k - base) < 2 ^ 64 ->
  argument_location first sources k = Ok (set_word_offset (word_offset previous + (k - base)) previous).
Proof.
  intros Hlast Hb Hk Ho. unfold argument_location.
  rewrite partition_point_all by (eapply Forall_impl; [done|]; intros r Hr; apply Z.leb_le; cbn beta in Hr; lia).
  assert (match length sources with
          | O => Ok (mkRun 0 first)
          | S last => match sources !! last with Some run => Ok run | None => Panic end
          end = (Ok (mkRun base previous) : Result unit SourceRun)) as ->.
  { destruct sources as [|r sources] using rev_ind; [by injection Hlast as -> ->|].
    rewrite length_app, Nat.add_1_r. rewrite lookup_app_r, Nat.sub_diag by lia. cbn.
    change (mkRun 0 first :: sources ++ [r]) with ((mkRun 0 first :: sources) ++ [r]) in Hlast.
    rewrite last_snoc in Hlast. by injection Hlast as ->. }
  cbn [result_bind run_location run_index]. unfold checked_add.
  by destruct (Z.ltb_spec (word_offset previous + (k - base)) (2 ^ 64)); [|lia].
Qed.

(** A word of a submission: 32 bits, at an offset a packet cannot run past. *)
Definition word_ok (w : Word) : Prop :=
  in_range 32 (word_value w) /\ 0 <= word_offset (word_location w) <= 2 ^ 64 - 2 ^ 13.

(** The loop after the arguments [pre]. *)
Record loop_inv (pre : list Word) (l : ArgumentLoop) : Prop := {
  loop_values : loop_arguments l = map word_value pre;
  loop_bounds : 0 <= loop_base l <= Z.of_nat (length pre);
  loop_runs : Forall (fun r => run_index r <= loop_base l) (loop_sources l);
  loop_current : pre <> [] ->
    last (mkRun 0 (loop_first l) :: loop_sources l) = Some (mkRun (loop_base l) (loop_previous l)) /\
    0 <= word_offset (loop_previous l) <= 2 ^ 64 - 2 ^ 13;
  loop_start : pre = [] -> loop_sources l = [] /\ loop_base l = 0;
  loop_locations : forall k w, pre !! k = Some w ->
    argument_location (loop_first l) (loop_sources l) (Z.of_nat k) = Ok (word_location w);
}.

Lemma set_word_offset_same l : set_word_offset (word_offset l) l = l.
Proof. by destruct l. Qed.

(** The turn as a pure function, once the sum cannot overflow. *)
Definition pushed (index : Z) (word : Word) (l : ArgumentLoop) : ArgumentLoop :=
  if bool_decide (set_word_offset (word_offset (loop_previous l) + (index - loop_base l)) (loop_previous l)
                  = word_location word)
  then mkLoop (loop_arguments l ++ [word_value word]) (loop_sources l) (loop_first l) (loop_base l) (loop_previous l)
  else mkLoop (loop_arguments l ++ [word_value word]) (loop_sources l ++ [mkRun index (word_location word)])
         (loop_first l) index (word_location word).

Lemma push_argument_pushed {E} pre l w (d : DecodedPackets (SourceError := E)) :
  loop_inv pre l -> word_ok w -> Z.of_nat (length pre) < 2 ^ 13 ->
  push_argument (Z.of_nat (length pre)) w l d =
    (Ok (match pre with
         | [] => mkLoop [word_value w] [] (word_location w) 0 (word_location w)
         | _ => pushed (Z.of_nat (length pre)) w l
         end), d).
Proof.
  intros Hl [_ Hw] Hn. pose proof (loop_bounds _ _ Hl). unfold push_argument, bind, expect, checked_add.
  destruct pre as [|w0 pre].
  - destruct (loop_start _ _ Hl eq_refl) as [Hs Hb]. change (Z.of_nat (length [])) with 0. rewrite Z.eqb_refl.
    cbn [loop_previous loop_base loop_arguments loop_sources loop_first]. rewrite Hb, Hs, (loop_values _ _ Hl).
    rewrite Z.sub_diag, Z.add_0_r. destruct (Z.ltb_spec (word_offset (word_location w)) (2 ^ 64)); [|lia].
    cbn [ret]. by rewrite set_word_offset_same, bool_decide_eq_true_2 by done.
  - destruct (loop_current _ _ Hl) as [_ Ho]; [done|].
    destruct (Z.eqb_spec (Z.of_nat (length (w0 :: pre))) 0); [cbn in *; lia|].
    destruct (Z.ltb_spec (word_offset (loop_previous l) + (Z.of_nat (length (w0 :: pre)) - loop_base l)) (2 ^ 64));
      [|lia].
    unfold pushed, ret. by case_bool_decide.
Qed.

Lemma loop_inv_first w : word_ok w ->
  loop_inv [w] (mkLoop [word_value w] [] (word_location w) 0 (word_location w)).
Proof.
  intros [_ Hw]. split; cbn; try done; try lia.
  intros k w' [-> <-]%list_lookup_singleton_Some.
  unfold argument_location. cbn. unfold checked_add. rewrite Z.sub_diag, Z.add_0_r.
  destruct (Z.ltb_spec (word_offset (word_location w)) (2 ^ 64)); [|lia].
  by rewrite set_word_offset_same.
Qed.

Lemma loop_inv_pushed pre l w :
  pre <> [] -> loop_inv pre l -> word_ok w -> Z.of_nat (length pre) < 2 ^ 13 ->
  loop_inv (pre ++ [w]) (pushed (Z.of_nat (length pre)) w l).
Proof.
  intros Hpre Hl [_ Hw] Hn. destruct (loop_current _ _ Hl Hpre) as [Hlast Ho].
  pose proof (loop_bounds _ _ Hl) as Hb. pose proof (loop_runs _ _ Hl) as Hruns.
  set (n := Z.of_nat (length pre)) in *.
  assert (forall k w', (pre ++ [w]) !! k = Some w' -> (pre !! k = Some w' /\ Z.of_nat k < n) \/ (Z.of_nat k = n /\ w' = w))
    as Hcases.
  { intros k w' Hk. subst n. destruct (decide (k < length pre)%nat) as [Hlt|Hge].
    - left. rewrite lookup_app_l in Hk by done. split; [done|lia].
    - right. rewrite lookup_app_r in Hk by lia. apply list_lookup_singleton_Some in Hk as [? ->]. split; [lia|done]. }
  unfold pushed. case_bool_decide as He.
  - split; cbn; try done.
    + by rewrite (loop_values _ _ Hl), map_app.
    + rewrite length_app. cbn. lia.
    + by intros [? ?]%app_nil.
    + intros k w' [[Hk _]|[Hk ->]]%Hcases; [by apply Hl|].
      rewrite Hk, (argument_location_last _ _ _ _ _ Hlast Hruns) by lia. by rewrite <- He.
  - split; cbn; try done.
    + by rewrite (loop_values _ _ Hl), map_app.
    + rewrite length_app. cbn. lia.
    + apply Forall_app. split; [|by repeat constructor]. eapply Forall_impl; [done|]. cbn. intros; lia.
    + intros _. split; [|done].
      change (mkRun 0 (loop_first l) :: loop_sources l ++ [mkRun n (word_location w)])
        with ((mkRun 0 (loop_first l) :: loop_sources l) ++ [mkRun n (word_location w)]).
      by rewrite last_snoc.
    + by intros [? ?]%app_nil.
    + intros k w' [[Hk Hlt]|[Hk ->]]%Hcases.
      * rewrite argument_location_snoc by done. by apply Hl.
      * rewrite Hk, (argument_location_last _ _ n (word_location w)).
        -- by rewrite Z.sub_diag, Z.add_0_r, set_word_offset_same.
        -- change (mkRun 0 (loop_first l) :: loop_sources l ++ [mkRun n (word_location w)])
             with ((mkRun 0 (loop_first l) :: loop_sources l) ++ [mkRun n (word_location w)]).
           by rewrite last_snoc.
        -- apply Forall_app. split; [|by repeat constructor]. eapply Forall_impl; [done|]. cbn. intros; lia.
        -- lia.
        -- lia.
Qed.

Lemma loop_inv_push {E} pre l w (d : DecodedPackets (SourceError := E)) :
  loop_inv pre l -> word_ok w -> Z.of_nat (length pre) < 2 ^ 13 ->
  exists l', push_argument (Z.of_nat (length pre)) w l d = (Ok l', d) /\ loop_inv (pre ++ [w]) l'.
Proof.
  intros Hl Hw Hn. eexists. split; [by apply push_argument_pushed|].
  destruct pre; [by apply loop_inv_first|by apply loop_inv_pushed].
Qed.

Lemma bind_step {S E A B} (m : SM S E A) (k : A -> SM S E B) s a s' :
  m s = (Ok a, s') -> bind m k s = k a s'.
Proof. unfold bind. by intros ->. Qed.

Lemma bind_error {S E A B} (m : SM S E A) (k : A -> SM S E B) s e s' :
  m s = (Err e, s') -> bind m k s = (Err e, s').
Proof. unfold bind. by intros ->. Qed.

Lemma next_word_cons {E} w ws (d : DecodedPackets (SourceError := E)) :
  words d = map inr (w :: ws) -> next_word d = (Ok (Some w), set_words (map inr ws) d).
Proof. intros Hd. unfold next_word, bind, get. by rewrite Hd. Qed.

Lemma next_word_nil {E} (d : DecodedPackets (SourceError := E)) :
  words d = [] -> next_word d = (Ok None, d).
Proof. intros Hd. unfold next_word, bind, get. by rewrite Hd. Qed.

Lemma read_arguments_spec {E} source count left ws pre l (d : DecodedPackets (SourceError := E)) :
  words d = map inr ws -> Forall word_ok ws -> loop_inv pre l -> Z.of_nat (length pre + left) < 2 ^ 13 ->
  if decide (left <= length ws)%nat
  then exists l', read_arguments source count left (Z.of_nat (length pre)) l d =
         (Ok l', set_words (map inr (drop left ws)) d) /\ loop_inv (pre ++ take left ws) l'
  else exists e d', read_arguments source count left (Z.of_nat (length pre)) l d = (Err e, d').
Proof.
  revert ws pre l d. induction left as [|left IH]; intros ws pre l d Hd Hws Hl Hn.
  { rewrite decide_True by lia. exists l. rewrite drop_0, take_0, app_nil_r, <- Hd. split; [by destruct d|done]. }
  cbn [read_arguments]. destruct ws as [|w ws].
  { rewrite decide_False by (cbn; lia). rewrite (bind_step _ _ _ _ _ (next_word_nil d Hd)). by do 2 eexists. }
  apply Forall_cons in Hws as [Hw Hws]. rewrite (bind_step _ _ _ _ _ (next_word_cons w ws d Hd)).
  destruct (loop_inv_push pre l w (set_words (map inr ws) d) Hl Hw ltac:(lia)) as (l' & Hpush & Hl').
  rewrite (bind_step _ _ _ _ _ Hpush).
  specialize (IH ws (pre ++ [w]) l' (set_words (map inr ws) d) eq_refl Hws Hl').
  rewrite !length_app in IH. cbn [length] in IH |- *.
  replace (Z.of_nat (length pre + 1)) with (Z.of_nat (length pre) + 1) in IH by lia.
  specialize (IH ltac:(lia)). destruct (decide (left <= length ws)%nat) as [Hle|Hgt].
  - rewrite decide_True by lia. destruct IH as (l2 & Hr & Hl2). exists l2. split; [done|].
    by rewrite <- app_assoc in Hl2.
  - rewrite decide_False by lia. done.
Qed.

(** ** Expansion *)

(** The methods of a packet, expanded from its header and its arguments. *)
Definition expanded (m : PacketMode) (first : Z) (args : list Word) : list DecodedMethod :=
  imap (fun k w => mkMethod (4 * method_dword m first (Z.of_nat k)) (word_value w) (word_location w)) args.

(** What [get] returns for each index of a packet. *)
Definition packet_methods (p : MethodPacket) : list (Result unit DecodedMethod) :=
  map (span_get (span_new p)) (seqZ 0 (span_len (span_new p))).

Lemma many_expands m h sub first args l :
  loop_inv args l -> Z.of_nat (length args) < 2 ^ 13 ->
  packet_methods (mkPacket m h sub (Many first (loop_arguments l) (loop_first l) (loop_sources l))) =
    map Ok (expanded m first args).
Proof.
  intros Hl Hn. unfold packet_methods, span_len, span_new, expanded. cbn [methods span_end span_begin].
  rewrite (loop_values _ _ Hl), length_map, Z.sub_0_r. apply list_eq. intros k.
  rewrite !list_lookup_fmap, list_lookup_imap.
  destruct (args !! k) as [w|] eqn:Hw; cbn.
  - pose proof (lookup_lt_Some _ _ _ Hw). rewrite lookup_seqZ_lt by lia. cbn. f_equal.
    unfold span_get, span_len. cbn [span_end span_begin span_packet methods mode]. rewrite !Z.add_0_l.
    destruct (Z.leb_spec (Z.of_nat (length args) - 0) (Z.of_nat k)); [lia|].
    rewrite (loop_locations _ _ Hl k w Hw). cbn [result_bind].
    rewrite Nat2Z.id, list_lookup_fmap, Hw. cbn. unfold method_id, wrap.
    by rewrite Z.mod_small, Z.mul_comm by lia.
  - apply lookup_ge_None in Hw. rewrite lookup_seqZ_ge by lia. done.
Qed.

Lemma one_expands m h sub first w :
  packet_methods (mkPacket m h sub (One (mkMethod (method_id first) (word_value w) (word_location w)))) =
    map Ok (expanded m first [w]).
Proof.
  cbn. unfold method_id. rewrite Z.mul_comm. destruct m; cbn; by rewrite ?Z.add_0_r.
Qed.

(** ** The grammar of a pushbuffer *)

Inductive View : Type :=
| ViewControl (operation : Control) (source : Location)
| ViewMethods (m : PacketMode) (source : Location) (sub : option Z) (ms : list (Result unit DecodedMethod)).

Definition view (p : DecodedPacket) : View :=
  match p with
  | ControlPacket operation source => ViewControl operation source
  | Methods p => ViewMethods (mode p) (header p) (subchannel p) (packet_methods p)
  end.

Definition mode_opcode (m : PacketMode) : Z :=
  match m with Incrementing => 1 | NonIncrementing => 3 | Immediate => 4 | IncrementOnce => 5 end.

(** A header from its fields. *)
Definition encode_header (opcode count sub dword : Z) : Z :=
  opcode * 2 ^ 29 + count * 2 ^ 16 + sub * 2 ^ 13 + dword.

(** [one_packet w args v]: the header [w] followed by the words [args] is the
    packet [v]. *)
Inductive one_packet (w : Word) : list Word -> View -> Prop :=
| packet_nop :
    word_value w = 0 -> one_packet w [] (ViewControl Nop (word_location w))
| packet_end :
    7 * 2 ^ 29 <= word_value w -> one_packet w [] (ViewControl EndSegment (word_location w))
| packet_set_mask mask :
    0 <= mask < 2 ^ 12 -> word_value w = 2 ^ 16 + 16 * mask ->
    one_packet w [] (ViewControl (SetSubdeviceMask mask) (word_location w))
| packet_store_mask mask :
    0 <= mask < 2 ^ 12 -> word_value w = 2 * 2 ^ 16 + 16 * mask ->
    one_packet w [] (ViewControl (StoreSubdeviceMask mask) (word_location w))
| packet_use_mask :
    word_value w = 3 * 2 ^ 16 -> one_packet w [] (ViewControl UseSubdeviceMask (word_location w))
| packet_empty m ignored :
    m <> Immediate -> 0 <= ignored < 2 ^ 16 -> word_value w = mode_opcode m * 2 ^ 29 + ignored ->
    one_packet w [] (ViewMethods m (word_location w) None [])
| packet_immediate value sub dword :
    0 <= value < 2 ^ 13 -> 0 <= sub < 8 -> 0 <= dword < 2 ^ 12 ->
    word_value w = encode_header 4 value sub dword ->
    one_packet w [] (ViewMethods Immediate (word_location w) (Some sub)
      [Ok (mkMethod (4 * dword) value (word_location w))])
| packet_methods_of m sub dword args :
    m <> Immediate -> 0 < Z.of_nat (length args) < 2 ^ 13 -> 0 <= sub < 8 -> 0 <= dword < 2 ^ 12 ->
    word_value w = encode_header (mode_opcode m) (Z.of_nat (length args)) sub dword ->
    method_dword m dword (Z.of_nat (length args) - 1) < 2 ^ 12 ->
    one_packet w args (ViewMethods m (word_location w) (Some sub) (map Ok (expanded m dword args))).

(** The entry whose remaining words are dropped after a packet. *)
Definition ended (w : Word) (v : View) : option Z :=
  match v with
  | ViewControl EndSegment _ => Some (entry_index (word_location w))
  | _ => None
  end.

(** [stream e ws vs]: the words [ws] are the packets [vs]; the words of entry [e]
    at the front are dropped. *)
Inductive stream : option Z -> list Word -> list View -> Prop :=
| stream_end e : stream e [] []
| stream_skip w ws vs :
    stream (Some (entry_index (word_location w))) ws vs ->
    stream (Some (entry_index (word_location w))) (w :: ws) vs
| stream_packet e w args v rest vs :
    e <> Some (entry_index (word_location w)) -> one_packet w args v -> stream (ended w v) rest vs ->
    stream e (w :: args ++ rest) (v :: vs).

(** ** The fields of a header *)

Record header_fields (v op cnt sub res dw : Z) : Prop := {
  fields_sum : v = op * 2 ^ 29 + cnt * 2 ^ 16 + sub * 2 ^ 13 + res * 2 ^ 12 + dw;
  fields_op : 0 <= op < 8;
  fields_cnt : 0 <= cnt < 2 ^ 13;
  fields_sub : 0 <= sub < 8;
  fields_res : 0 <= res < 2;
  fields_dw : 0 <= dw < 2 ^ 12;
}.

Ltac euclid := unfold in_range in *; Z.div_mod_to_equations; lia.

Lemma header_fields_exist v :
  in_range 32 v ->
  header_fields v (v / 2 ^ 29) ((v / 2 ^ 16) mod 2 ^ 13) ((v / 2 ^ 13) mod 8) ((v / 2 ^ 12) mod 2) (v mod 2 ^ 12).
Proof. intros Hv. split; euclid. Qed.

Lemma land_shr v k n : 0 <= k -> 0 <= n -> Z.land (shr v k) (Z.ones n) = (v / 2 ^ k) mod 2 ^ n.
Proof. intros. unfold shr. by rewrite Z.land_ones, Z.shiftr_div_pow2. Qed.

Section Fields.
Context {v op cnt sub res dw : Z} (Hf : header_fields v op cnt sub res dw).

Lemma field_opcode : Z.land (shr v SECONDARY_OPCODE_SHIFT) SECONDARY_OPCODE_MASK = op.
Proof. destruct Hf. change SECONDARY_OPCODE_MASK with (Z.ones 3). rewrite land_shr by done. unfold SECONDARY_OPCODE_SHIFT. euclid. Qed.

Lemma field_count : Z.land (shr v COUNT_SHIFT) COUNT_MASK = cnt.
Proof. destruct Hf. change COUNT_MASK with (Z.ones 13). rewrite land_shr by done. unfold COUNT_SHIFT. euclid. Qed.

Lemma field_subchannel : Z.land (shr v SUBCHANNEL_SHIFT) SUBCHANNEL_MASK = sub.
Proof. destruct Hf. change SUBCHANNEL_MASK with (Z.ones 3). rewrite land_shr by done. unfold SUBCHANNEL_SHIFT. euclid. Qed.

Lemma field_dword : Z.land v METHOD_ADDRESS_MASK = dw.
Proof. destruct Hf. change METHOD_ADDRESS_MASK with (Z.ones 12). rewrite Z.land_ones by done. euclid. Qed.

Lemma field_reserved : bit_set v METHOD_RESERVED_BIT = (res =? 1).
Proof.
  destruct Hf. unfold METHOD_RESERVED_BIT. rewrite bit_set_pow2 by done.
  rewrite Z.testbit_odd, Z.shiftr_div_pow2 by done.
  replace (v / 2 ^ 12) with (res + 2 * (op * 2 ^ 16 + cnt * 2 ^ 3 + sub)) by euclid.
  rewrite Z.odd_add_mul_2. assert (res = 0 \/ res = 1) as [-> | ->] by lia; done.
Qed.
End Fields.

(** The header of a method packet decodes by its fields. *)
Lemma decode_packet_methods {E} w m cnt sub res dw (d : DecodedPackets (SourceError := E)) :
  header_fields (word_value w) (mode_opcode m) cnt sub res dw ->
  decode_packet w d = decode_method_packet w m d.
Proof.
  intros Hf. unfold decode_packet. rewrite (field_opcode Hf).
  destruct (Z.eqb_spec (word_value w) 0) as [H0|_]; [destruct Hf; destruct m; cbn in *; lia|]. by destruct m.
Qed.

(** The last method of a packet fits into the class's methods. *)
Lemma validate_method_range_ok {E} source m dw cnt (d : DecodedPackets (SourceError := E)) :
  0 <= dw < 2 ^ 12 -> 0 < cnt < 2 ^ 13 ->
  (method_dword m dw (cnt - 1) < 2 ^ 12 /\ validate_method_range source m dw cnt d = (Ok tt, d)) \/
  (2 ^ 12 <= method_dword m dw (cnt - 1) /\ exists e, validate_method_range source m dw cnt d = (Err e, d)).
Proof.
  intros Hd Hc. unfold validate_method_range, MAX_METHOD_DWORD, METHOD_ADDRESS_MASK, checked_add.
  destruct m; cbn [method_dword].
  - destruct (Z.ltb_spec (dw + (cnt - 1)) (2 ^ 32)); [|lia].
    destruct (Z.leb_spec (dw + (cnt - 1)) 4095); [left|right]; (split; [lia|]); eauto.
  - left. split; [lia|done].
  - left. split; [lia|done].
  - destruct (Z.ltb_spec 1 cnt).
    + destruct (Z.eqb_spec (cnt - 1) 0); [lia|]. cbn [negb]. destruct (Z.ltb_spec (dw + 1) (2 ^ 32)); [|lia].
      destruct (Z.leb_spec (dw + 1) 4095); [left|right]; (split; [lia|]); eauto.
    + destruct (Z.eqb_spec (cnt - 1) 0); [|lia]. left. split; [cbn; lia|done].
Qed.

Lemma loop_inv_new l : loop_inv [] (mkLoop [] [] l 0 l).
Proof. split; cbn; try done. Qed.

(** ** One packet *)

Section OnePacket.
Context {E : Type}.
Notation D := (DecodedPackets (SourceError := E)).
Notation R := (Result (DecodeError (SourceError := E)) DecodedPacket * DecodedPackets (SourceError := E))%type.

(** The outcome [r] of decoding from [d]: the packet [v], with [rest] left. *)
Definition reads (r : R) (d : D) (rest : list Word) (v : View) : Prop :=
  exists p d', r = (Ok p, d') /\ words d' = map inr rest /\ end_entry d' = end_entry d /\
    finished d' = finished d /\ view p = v.

Definition fails (r : R) : Prop := exists e d', r = (Err e, d').

Lemma reads_ret p (d : D) ws : words d = map inr ws -> reads (ret p d) d ws (view p).
Proof. intros Hd. by exists p, d. Qed.

(** A header with arguments. *)
Lemma decode_methods_spec w m cnt sub dw ws (d : D) :
  m <> Immediate -> header_fields (word_value w) (mode_opcode m) cnt sub 0 dw -> 0 < cnt ->
  method_dword m dw (cnt - 1) < 2 ^ 12 -> words d = map inr ws -> Forall word_ok ws ->
  if decide (Z.to_nat cnt <= length ws)%nat
  then reads (decode_method_packet w m d) d (drop (Z.to_nat cnt) ws)
         (ViewMethods m (word_location w) (Some sub) (map Ok (expanded m dw (take (Z.to_nat cnt) ws))))
  else fails (decode_method_packet w m d).
Proof.
  intros Hm Hf Hc Hr Hd Hws. pose proof (fields_cnt _ _ _ _ _ _ Hf).
  assert (decode_method_packet w m d =
    (let! ms := (if cnt =? 1 then read_one w m dw cnt cnt else read_many (word_location w) dw cnt) in
     ret (Methods (mkPacket m (word_location w) (Some sub) ms))) d) as ->.
  { unfold decode_method_packet. rewrite (field_count Hf), (field_reserved Hf), (field_dword Hf), (field_subchannel Hf).
    rewrite (bool_decide_eq_false_2 (m = Immediate)) by done.
    destruct (Z.eqb_spec cnt 0); [lia|]. cbn [Z.eqb guard].
    destruct (validate_method_range_ok (word_location w) m dw cnt d) as [[_ Hv]|[? _]];
      [apply Hf|lia| |lia].
    by rewrite (bind_step _ _ d tt d), (bind_step _ _ _ _ _ Hv) by done. }
  destruct (Z.eqb_spec cnt 1) as [->|Hne].
  - unfold read_one. rewrite (bool_decide_eq_false_2 (m = Immediate)) by done. destruct ws as [|a ws].
    + rewrite decide_False by (cbn; lia). unfold bind at 1 2 3. rewrite next_word_nil by done. by do 2 eexists.
    + rewrite decide_True by (cbn; lia). cbn [Z.to_nat Pos.to_nat Pos.iter_op drop take].
      eexists _, (set_words (map inr ws) d). split.
      { unfold bind at 1 2 3. rewrite (next_word_cons a ws) by done. reflexivity. }
      repeat (split; [done|]). cbn [view mode header subchannel]. by rewrite one_expands.
  - unfold read_many.
    pose proof (read_arguments_spec (word_location w) cnt (Z.to_nat cnt) ws [] _
      (set_scratch scratch_default d) Hd Hws (loop_inv_new (word_location w))) as Hread.
    cbn [length] in Hread. specialize (Hread ltac:(lia)). change (Z.of_nat 0) with 0 in Hread.
    destruct (decide (Z.to_nat cnt <= length ws)%nat).
    + destruct Hread as (lp & Hl & Hinv). eexists _, _. split.
      { unfold bind at 1 2 3. cbn [modify]. rewrite Hl. reflexivity. }
      repeat (split; [done|]). cbn [view mode header subchannel]. rewrite (many_expands _ _ _ _ _ _ Hinv); [done|].
      cbn [app]. rewrite length_take. lia.
    + destruct Hread as (e & d' & Hl). exists e, d'. unfold bind at 1 2 3. cbn [modify]. by rewrite Hl.
Qed.

(** A header without arguments: an empty packet, or an immediate value. *)
Lemma decode_empty_spec w m sub res dw ws (d : D) :
  m <> Immediate -> header_fields (word_value w) (mode_opcode m) 0 sub res dw -> words d = map inr ws ->
  reads (decode_method_packet w m d) d ws (ViewMethods m (word_location w) None []).
Proof.
  intros Hm Hf Hd. unfold decode_method_packet. rewrite (field_count Hf).
  rewrite (bool_decide_eq_false_2 (m = Immediate)) by done.
  exact (reads_ret (Methods (mkPacket m (word_location w) None Empty)) d ws Hd).
Qed.

Lemma decode_immediate_spec w value sub dw ws (d : D) :
  header_fields (word_value w) 4 value sub 0 dw -> words d = map inr ws ->
  reads (decode_method_packet w Immediate d) d ws
    (ViewMethods Immediate (word_location w) (Some sub) [Ok (mkMethod (4 * dw) value (word_location w))]).
Proof.
  intros Hf Hd. unfold decode_method_packet.
  rewrite (field_count Hf), (field_reserved Hf), (field_dword Hf), (field_subchannel Hf). cbn.
  do 2 eexists. split; [reflexivity|]. repeat (split; [done|]). cbn [view mode header subchannel].
  by rewrite (one_expands Immediate _ _ dw (mkWord value (word_location w))).
Qed.

Lemma decode_reserved_fails w m cnt sub dw (d : D) :
  (m = Immediate \/ 0 < cnt) -> header_fields (word_value w) (mode_opcode m) cnt sub 1 dw ->
  fails (decode_method_packet w m d).
Proof.
  intros Hc Hf. unfold decode_method_packet. rewrite (field_count Hf), (field_reserved Hf).
  destruct (Z.eqb_spec (if bool_decide (m = Immediate) then 1 else cnt) 0) as [H0|].
  - case_bool_decide; [done|]. destruct Hc; [done|lia].
  - by do 2 eexists.
Qed.

(** The group-zero controls, in the arithmetic of the word. *)
Lemma decode_group_zero_arith w (d : D) :
  in_range 32 (word_value w) ->
  decode_group_zero_control w d =
    let opcode := word_value w / 2 ^ 16 in
    let low := word_value w mod 2 ^ 16 in
    if (opcode =? 1) && (low mod 16 =? 0) then ret (control_packet (SetSubdeviceMask (low / 16)) w) d
    else if (opcode =? 2) && (low mod 16 =? 0) then ret (control_packet (StoreSubdeviceMask (low / 16)) w) d
    else if (opcode =? 3) && (low =? 0) then ret (control_packet UseSubdeviceMask w) d
    else throw (InvalidControlEncoding (word_location w) (word_value w)) d.
Proof.
  intros Hv. unfold decode_group_zero_control.
  change 0xf with (Z.ones 4). rewrite Z.land_ones by lia. unfold wrap, shr. rewrite !Z.shiftr_div_pow2 by lia.
  replace ((word_value w / 2 ^ 16) mod 2 ^ 16) with (word_value w / 2 ^ 16) by euclid.
  unfold CONTROL_SET_SUBDEVICE_MASK, CONTROL_STORE_SUBDEVICE_MASK, CONTROL_USE_SUBDEVICE_MASK.
  change (2 ^ 4) with 16. cbv zeta. by do 3 (destruct (_ && _); [done|]).
Qed.

Lemma decode_group_zero w (d : D) :
  in_range 32 (word_value w) -> 0 < word_value w < 2 ^ 29 -> decode_packet w d = decode_group_zero_control w d.
Proof.
  intros Hv Hr. unfold decode_packet. rewrite (field_opcode (header_fields_exist _ Hv)).
  destruct (Z.eqb_spec (word_value w) 0); [lia|].
  by replace (word_value w / 2 ^ 29) with 0 by euclid.
Qed.

(** The outcome is a packet of the grammar, or an error. *)
Definition sound (w : Word) (ws : list Word) (d : D) (r : R) : Prop :=
  (exists args rest v, ws = args ++ rest /\ one_packet w args v /\ reads r d rest v) \/ fails r.

Lemma sound_leaf w ws d r v : one_packet w [] v -> reads r d ws v -> sound w ws d r.
Proof. left. by exists [], ws, v. Qed.

Lemma decode_range_fails w m cnt sub dw e (d : D) :
  m <> Immediate -> header_fields (word_value w) (mode_opcode m) cnt sub 0 dw -> 0 < cnt ->
  validate_method_range (word_location w) m dw cnt d = (Err e, d) -> fails (decode_method_packet w m d).
Proof.
  intros Hm Hf Hc He. exists e, d. unfold decode_method_packet.
  rewrite (field_count Hf), (field_reserved Hf), (field_dword Hf), (bool_decide_eq_false_2 (m = Immediate)) by done.
  destruct (Z.eqb_spec cnt 0); [lia|]. cbn [Z.eqb guard]. unfold bind at 1 2, ret at 1. by rewrite He.
Qed.

Lemma decode_methods_sound w m cnt sub dw ws (d : D) :
  m <> Immediate -> header_fields (word_value w) (mode_opcode m) cnt sub 0 dw -> 0 < cnt ->
  words d = map inr ws -> Forall word_ok ws -> sound w ws d (decode_method_packet w m d).
Proof.
  intros Hm Hf Hc Hd Hws. pose proof Hf as [Hsum _ Hcnt Hsub _ Hdw].
  destruct (validate_method_range_ok (word_location w) m dw cnt d Hdw) as [[Hr _]|[_ [e He]]]; [lia| |].
  - pose proof (decode_methods_spec w m cnt sub dw ws d Hm Hf Hc Hr Hd Hws) as Hspec.
    destruct (decide (Z.to_nat cnt <= length ws)%nat); [|by right]. left.
    eexists (take (Z.to_nat cnt) ws), (drop (Z.to_nat cnt) ws), _. split; [by rewrite take_drop|]. split; [|done].
    assert (Z.of_nat (length (take (Z.to_nat cnt) ws)) = cnt) as Hl by (rewrite length_take; lia).
    apply packet_methods_of; rewrite ?Hl; [done|lia|done|done| |done]. unfold encode_header. lia.
  - right. by eapply decode_range_fails.
Qed.

Lemma decode_mode_sound w m cnt sub res dw ws (d : D) :
  header_fields (word_value w) (mode_opcode m) cnt sub res dw ->
  words d = map inr ws -> Forall word_ok ws -> sound w ws d (decode_packet w d).
Proof.
  intros Hf Hd Hws. rewrite (decode_packet_methods _ _ _ _ _ _ d Hf). pose proof Hf as [Hsum _ Hcnt Hsub Hres Hdw].
  destruct (decide (m = Immediate)) as [->|Hm], (decide (res = 1)) as [->|Hr].
  - right. eapply decode_reserved_fails; [by left|done].
  - assert (res = 0) as -> by lia. eapply sound_leaf; [|by apply (decode_immediate_spec w cnt sub dw)].
    apply packet_immediate; [done..|]. unfold encode_header. cbn [mode_opcode] in Hsum. lia.
  - destruct (decide (cnt = 0)) as [->|]; [|right; eapply (decode_reserved_fails w m cnt sub dw); [right; lia|done]].
    eapply sound_leaf; [|by eapply decode_empty_spec].
    eapply (packet_empty w m (sub * 2 ^ 13 + 1 * 2 ^ 12 + dw)); [done|lia|lia].
  - assert (res = 0) as -> by lia. destruct (decide (cnt = 0)) as [->|]; [|by apply (decode_methods_sound w m cnt sub dw); [..|lia|done|done]].
    eapply sound_leaf; [|by eapply decode_empty_spec].
    eapply (packet_empty w m (sub * 2 ^ 13 + dw)); [done|lia|lia].
Qed.

Lemma decode_group_zero_sound w ws (d : D) :
  in_range 32 (word_value w) -> words d = map inr ws -> sound w ws d (decode_group_zero_control w d).
Proof.
  intros Hv Hd. rewrite decode_group_zero_arith by done. cbv zeta.
  destruct (_ && _) eqn:H1 at 1.
  { apply andb_true_iff in H1 as [Ho%Z.eqb_eq Hl%Z.eqb_eq]. eapply sound_leaf; [|by apply reads_ret].
    apply packet_set_mask; euclid. }
  destruct (_ && _) eqn:H2 at 1.
  { apply andb_true_iff in H2 as [Ho%Z.eqb_eq Hl%Z.eqb_eq]. eapply sound_leaf; [|by apply reads_ret].
    apply packet_store_mask; euclid. }
  destruct (_ && _) eqn:H3 at 1.
  { apply andb_true_iff in H3 as [Ho%Z.eqb_eq Hl%Z.eqb_eq]. eapply sound_leaf; [|by apply reads_ret].
    apply packet_use_mask. euclid. }
  right. by do 2 eexists.
Qed.

(** Whatever the decoder accepts is in the grammar. *)
Lemma decode_packet_sound w ws (d : D) :
  word_ok w -> Forall word_ok ws -> words d = map inr ws -> sound w ws d (decode_packet w d).
Proof.
  intros [Hv _] Hws Hd. pose proof (header_fields_exist _ Hv) as Hf.
  pose proof (fields_op _ _ _ _ _ _ Hf) as Ho.
  assert (forall m, word_value w / 2 ^ 29 = mode_opcode m -> sound w ws d (decode_packet w d)) as Hmode.
  { intros m Hm. rewrite Hm in Hf. by eapply decode_mode_sound. }
  assert (let op := word_value w / 2 ^ 29 in
    op = 0 \/ op = 1 \/ op = 2 \/ op = 3 \/ op = 4 \/ op = 5 \/ op = 6 \/ op = 7) as Hop by lia.
  destruct Hop as [Hop|[Hop|[Hop|[Hop|[Hop|[Hop|[Hop|Hop]]]]]]].
  - destruct (decide (word_value w = 0)) as [H0|H0].
    + eapply sound_leaf; [by apply packet_nop|]. unfold decode_packet. rewrite H0. by apply reads_ret.
    + rewrite decode_group_zero; [by apply decode_group_zero_sound|done|euclid].
  - by apply (Hmode Incrementing).
  - right. unfold decode_packet. rewrite (field_opcode Hf), Hop.
    destruct (Z.eqb_spec (word_value w) 0); [euclid|by do 2 eexists].
  - by apply (Hmode NonIncrementing).
  - by apply (Hmode Immediate).
  - by apply (Hmode IncrementOnce).
  - right. unfold decode_packet. rewrite (field_opcode Hf), Hop.
    destruct (Z.eqb_spec (word_value w) 0); [euclid|by do 2 eexists].
  - eapply sound_leaf; [apply packet_end; euclid|]. unfold decode_packet. rewrite (field_opcode Hf), Hop.
    destruct (Z.eqb_spec (word_value w) 0); [euclid|]. by apply reads_ret.
Qed.

(** Whatever is in the grammar is decoded. *)
Lemma decode_packet_complete w args rest v (d : D) :
  word_ok w -> Forall word_ok (args ++ rest) -> words d = map inr (args ++ rest) -> one_packet w args v ->
  reads (decode_packet w d) d rest v.
Proof.
  intros [Hv _] Hws Hd. pose proof (header_fields_exist _ Hv) as Hf.
  destruct 1 as [H0|H7|mask Hm He|mask Hm He|He|m ignored Hm Hi He|value sub dw Hx Hs Hdw He|m sub dw args Hm Hl Hs Hdw He Hr].
  - unfold decode_packet. rewrite H0. by apply (reads_ret (control_packet Nop w)).
  - unfold decode_packet. rewrite (field_opcode Hf). replace (word_value w / 2 ^ 29) with 7 by euclid.
    destruct (Z.eqb_spec (word_value w) 0); [lia|]. by apply (reads_ret (control_packet EndSegment w)).
  - rewrite decode_group_zero, decode_group_zero_arith by (done || lia). cbv zeta. rewrite He.
    replace ((2 ^ 16 + 16 * mask) / 2 ^ 16) with 1 by euclid.
    replace ((2 ^ 16 + 16 * mask) mod 2 ^ 16) with (16 * mask) by euclid.
    replace ((16 * mask) mod 16) with 0 by euclid. replace (16 * mask / 16) with mask by euclid.
    by apply (reads_ret (control_packet (SetSubdeviceMask mask) w)).
  - rewrite decode_group_zero, decode_group_zero_arith by (done || lia). cbv zeta. rewrite He.
    replace ((2 * 2 ^ 16 + 16 * mask) / 2 ^ 16) with 2 by euclid.
    replace ((2 * 2 ^ 16 + 16 * mask) mod 2 ^ 16) with (16 * mask) by euclid.
    replace ((16 * mask) mod 16) with 0 by euclid. replace (16 * mask / 16) with mask by euclid.
    by apply (reads_ret (control_packet (StoreSubdeviceMask mask) w)).
  - rewrite decode_group_zero, decode_group_zero_arith by (done || lia). cbv zeta. rewrite He.
    by apply (reads_ret (control_packet UseSubdeviceMask w)).
  - assert (header_fields (word_value w) (mode_opcode m) 0 ((ignored / 2 ^ 13) mod 8) ((ignored / 2 ^ 12) mod 2)
      (ignored mod 2 ^ 12)) as Hf' by (split; [euclid|destruct m; cbn; lia|lia|euclid|euclid|euclid]).
    rewrite (decode_packet_methods _ _ _ _ _ _ d Hf'). by eapply decode_empty_spec.
  - unfold encode_header in He.
    assert (header_fields (word_value w) 4 value sub 0 dw) as Hf' by (split; lia).
    rewrite (decode_packet_methods w Immediate _ _ _ _ d Hf'). by apply decode_immediate_spec.
  - unfold encode_header in He.
    assert (header_fields (word_value w) (mode_opcode m) (Z.of_nat (length args)) sub 0 dw) as Hf'
      by (split; [lia|destruct m; cbn; lia|lia..]).
    rewrite (decode_packet_methods _ _ _ _ _ _ d Hf').
    pose proof (decode_methods_spec w m _ sub dw _ d Hm Hf' ltac:(lia) Hr Hd Hws) as Hspec.
    rewrite Nat2Z.id, take_app_length, drop_app_length, decide_True in Hspec; [done|]. rewrite length_app. lia.
Qed.
End OnePacket.

(** ** The stream *)

(** The words after those of the entry at the front. *)
Fixpoint skip_entry (e : option Z) (ws : list Word) : list Word :=
  match ws with
  | w :: rest => if bool_decide (e = Some (entry_index (word_location w))) then skip_entry e rest else ws
  | [] => []
  end.

Lemma skip_entry_none ws : skip_entry None ws = ws.
Proof. by destruct ws. Qed.

Lemma skip_entry_head e w ws rest : skip_entry e ws = w :: rest -> e <> Some (entry_index (word_location w)).
Proof.
  induction ws as [|x ws IH]; cbn; [done|]. case_bool_decide as Hx; [done|]. by intros [= -> ->].
Qed.

Lemma skip_entry_suffix e ws : exists pre, ws = pre ++ skip_entry e ws.
Proof.
  induction ws as [|w ws [pre IH]]; [by exists []|]. cbn. case_bool_decide; [|by exists []].
  exists (w :: pre). cbn. by rewrite <- IH.
Qed.

(** The grammar drops the same words. *)
Lemma stream_skips e ws vs : stream e ws vs <-> stream e (skip_entry e ws) vs.
Proof.
  induction ws as [|w ws IH]; [done|]. cbn. case_bool_decide as He; [|done]. subst e. rewrite <- IH. split.
  - inversion 1; simplify_eq; done.
  - apply stream_skip.
Qed.

Section Stream.
Context {E : Type}.
Notation D := (DecodedPackets (SourceError := E)).

Lemma skip_words_ok e ws :
  skip_words (SourceError := E) e (map inr ws) = (Ok tt, map inr (skip_entry (Some e) ws)).
Proof.
  induction ws as [|w ws IH]; [done|]. cbn [map skip_words skip_entry].
  destruct (Z.eqb_spec (entry_index (word_location w)) e) as [->|Hn].
  - by rewrite bool_decide_eq_true_2.
  - rewrite bool_decide_eq_false_2; [done|congruence].
Qed.

(** [read] after the words of an ended entry. *)
Lemma read_skips ws (d : D) :
  words d = map inr ws ->
  read d = (let! w := next_word in
    match w with
    | None => ret None
    | Some w =>
        let! packet := decode_packet w in
        do! (match packet with
             | ControlPacket EndSegment _ => modify (set_end_entry (Some (entry_index (word_location w))))
             | _ => ret tt
             end) in
        ret (Some packet)
    end) (mkDecoder (SourceError := E) (map inr (skip_entry (end_entry d) ws)) None (finished d) (scratch d)).
Proof.
  intros Hd. unfold read. rewrite (bind_step _ _ d d d) by done.
  rewrite (bind_step _ _ d tt (set_end_entry None d)) by done. destruct (end_entry d) as [e|].
  - erewrite bind_step; [|unfold skip_entry_tail; cbn [set_end_entry words]; rewrite Hd, skip_words_ok; reflexivity].
    done.
  - rewrite (bind_step _ _ _ tt (set_end_entry None d)) by done. unfold set_end_entry. by rewrite Hd, skip_entry_none.
Qed.

(** A packet that was read, seen by the iterator. *)
Lemma next_reads w rest rest' ws v (d : D) :
  words d = map inr ws -> finished d = false -> skip_entry (end_entry d) ws = w :: rest ->
  reads (decode_packet w (mkDecoder (SourceError := E) (map inr rest) None (finished d) (scratch d)))
    (mkDecoder (SourceError := E) (map inr rest) None (finished d) (scratch d)) rest' v ->
  exists p d', next d = (Some (Ok p), d') /\ view p = v /\ words d' = map inr rest' /\ finished d' = false /\
    end_entry d' = ended w v.
Proof.
  intros Hd Hfin Hskip (p & d1 & Hp & Hw & He & Hf & <-). unfold next. rewrite Hfin, (read_skips ws) by done.
  rewrite Hskip. erewrite bind_step by (by apply next_word_cons). cbn [set_words].
  rewrite (bind_step _ _ _ _ _ Hp). cbn in He, Hf. rewrite Hfin in Hf.
  destruct p as [p|[] l]; cbn; eexists _, _; (split; [reflexivity|]); by rewrite ?He, ?Hf.
Qed.

Lemma next_finished ws (d : D) :
  words d = map inr ws -> finished d = false -> skip_entry (end_entry d) ws = [] -> exists d', next d = (None, d').
Proof.
  intros Hd Hfin Hskip. unfold next. rewrite Hfin, (read_skips ws) by done. rewrite Hskip. cbn. eauto.
Qed.

Lemma next_fails w rest ws (d : D) :
  words d = map inr ws -> finished d = false -> skip_entry (end_entry d) ws = w :: rest ->
  fails (decode_packet w (mkDecoder (SourceError := E) (map inr rest) None (finished d) (scratch d))) ->
  exists e d', next d = (Some (Err e), d').
Proof.
  intros Hd Hfin Hskip (e & d1 & Hp). unfold next. rewrite Hfin, (read_skips ws) by done.
  rewrite Hskip. erewrite bind_step by (by apply next_word_cons). cbn [set_words].
  rewrite (bind_error _ _ _ _ _ Hp). eauto.
Qed.

(** The decoder's loop is sound for the grammar and returns. *)
Lemma collect_sound fuel ws acc (d : D) :
  words d = map inr ws -> finished d = false -> Forall word_ok ws -> (length ws < fuel)%nat ->
  (exists ps, collect fuel d acc = Some (Ok (acc ++ ps)) /\ stream (end_entry d) ws (map view ps)) \/
  (exists e, collect fuel d acc = Some (Err e)).
Proof.
  revert ws acc d. induction fuel as [|fuel IH]; intros ws acc d Hd Hfin Hws Hf; [lia|]. cbn [collect].
  setoid_rewrite stream_skips. destruct (skip_entry_suffix (end_entry d) ws) as [pre Hpre].
  destruct (skip_entry (end_entry d) ws) as [|w rest] eqn:Hskip.
  { destruct (next_finished ws d Hd Hfin Hskip) as [d' ->]. left. exists []. rewrite app_nil_r. split; [done|constructor]. }
  rewrite Hpre in Hws. apply Forall_app in Hws as [_ [Hw Hrest]%Forall_cons].
  destruct (decode_packet_sound w rest (mkDecoder (SourceError := E) (map inr rest) None (finished d) (scratch d)) Hw Hrest eq_refl)
    as [(args & rest' & v & -> & Hone & Hreads)|Hfails].
  - destruct (next_reads _ _ _ _ _ _ Hd Hfin Hskip Hreads) as (p & d' & -> & <- & Hw' & Hfin' & He').
    apply Forall_app in Hrest as [_ Hrest'].
    destruct (IH rest' (acc ++ [p]) d' Hw' Hfin' Hrest') as [(ps & Hps & Hs)|[e Hc]].
    + rewrite Hpre in Hf. rewrite length_app in Hf. cbn in Hf. rewrite length_app in Hf. lia.
    + left. exists (p :: ps). rewrite <- app_assoc in Hps. split; [done|]. cbn. apply stream_packet; [|done|].
      * by eapply skip_entry_head.
      * by rewrite <- He'.
    + right. by exists e.
  - destruct (next_fails _ _ _ _ Hd Hfin Hskip Hfails) as (e & d' & ->). right. by exists e.
Qed.

Lemma collect_complete fuel ws acc vs (d : D) :
  words d = map inr ws -> finished d = false -> Forall word_ok ws -> (length ws < fuel)%nat ->
  stream (end_entry d) ws vs -> exists ps, collect fuel d acc = Some (Ok (acc ++ ps)) /\ map view ps = vs.
Proof.
  revert ws acc vs d. induction fuel as [|fuel IH]; intros ws acc vs d Hd Hfin Hws Hf; [lia|]. cbn [collect].
  rewrite stream_skips. destruct (skip_entry_suffix (end_entry d) ws) as [pre Hpre].
  destruct (skip_entry (end_entry d) ws) as [|w rest] eqn:Hskip; intros Hs.
  { destruct (next_finished ws d Hd Hfin Hskip) as [d' ->]. inversion Hs; subst.
    exists []. by rewrite app_nil_r. }
  pose proof (skip_entry_head _ _ _ _ Hskip) as Hne.
  inversion Hs as [|w0 ws0 vs0 Hst He0 Hw0 Hv0|e0 w0 args v rest' vs' He Hone Hrest He0 Hw0 Hv0]; subst; [congruence|].
  apply Forall_app in Hws as [_ [Hw Hall]%Forall_cons].
  pose proof (decode_packet_complete w args rest' v
    (mkDecoder (SourceError := E) (map inr (args ++ rest')) None (finished d) (scratch d)) Hw Hall eq_refl Hone) as Hreads.
  destruct (next_reads _ _ _ _ _ _ Hd Hfin Hskip Hreads) as (p & d' & -> & Hv & Hw' & Hfin' & He').
  apply Forall_app in Hall as [_ Hall']. rewrite <- He' in Hrest.
  destruct (IH rest' (acc ++ [p]) vs' d' Hw' Hfin' Hall') as (ps & Hps & Hvs); [|done|].
  { rewrite length_app in Hf. cbn in Hf. rewrite length_app in Hf. lia. }
  exists (p :: ps). rewrite <- app_assoc in Hps. split; [done|]. cbn. by rewrite Hv, Hvs.
Qed.
End Stream.

(** C30. The pushbuffer decoder accepts exactly the grammar of the pushbuffer and
    returns its packets.  A list of command words (32 bits each, at offsets
    that a packet cannot run past) decodes to packets whose expanded methods are
    [vs] if and only if [vs] is a parse of the words: headers built from the
    opcode, count, subchannel and method fields, arguments that may cross
    entries, the rest of an ended entry dropped.  Each method expands to the
    address its mode gives it, its argument, and the exact location of the
    word it came from, although the decoder keeps locations as runs. *)
Theorem decode_pushbuffer_grammar {E : Type} (ws : list Word) (Hws : Forall word_ok ws) (vs : list View) :
  (exists ps, decode_maxwell_pushbuffer (SourceError := E) (map inr ws) = Some (Ok ps) /\ map view ps = vs) <->
  stream None ws vs.
Proof.
  unfold decode_maxwell_pushbuffer. rewrite length_map. split.
  - intros (ps & Hps & <-).
    destruct (collect_sound (E := E) (S (length ws)) ws [] (decoder_new (map inr ws))) as [(ps' & Hps' & Hs)|[e He]];
      [done..|lia| |congruence]. rewrite Hps in Hps'. by injection Hps' as ->.
  - intros Hs. destruct (collect_complete (E := E) (S (length ws)) ws [] vs (decoder_new (map inr ws)))
      as (ps & Hps & Hv); [done..|lia|done|]. by exists ps.
Qed.

(** *** Termination on any items *)

Section Returns.
Context {E : Type}.
Notation D := (DecodedPackets (SourceError := E)).

Definition at_most (n : nat) (d : D) : Prop := (length (words d) <= n)%nat.

Lemma at_most_next_word n : stable (at_most n) (next_word (SourceError := E)).
Proof.
  intros d Hd. unfold next_word, bind, get, at_most in *.
  destruct (words d) as [|[e|w] rest] eqn:Hw; cbn in *; [by rewrite Hw|lia..].
Qed.

Lemma at_most_read_arguments n source count left index l :
  stable (at_most n) (read_arguments (SourceError := E) source count left index l).
Proof.
  revert index l. induction left as [|left IH]; intros index l; [apply stable_ret|]. cbn [read_arguments].
  apply stable_bind; [apply at_most_next_word|]. intros [w|]; [|apply stable_throw].
  apply stable_bind; [|intros; apply IH]. unfold push_argument. apply stable_bind; [apply stable_expect|].
  intros; apply stable_ret.
Qed.

Lemma at_most_decode_packet n w : stable (at_most n) (decode_packet (SourceError := E) w).
Proof.
  unfold decode_packet, decode_group_zero_control, decode_method_packet, validate_method_range, read_one, read_many.
  repeat first [ apply at_most_next_word | apply at_most_read_arguments | apply stable_modify; intros d Hd; exact Hd
               | stable_step | progress cbv zeta ].
Qed.

Lemma skip_words_shorter e (l : list (E + Word)) : (length (snd (skip_words e l)) <= length l)%nat.
Proof. induction l as [|[?|w] l IH]; cbn; [done|lia|]. case_match; cbn; lia. Qed.

(** A packet consumes its header. *)
Lemma read_consumes (d d' : D) p :
  read d = (Ok (Some p), d') -> (length (words d') < length (words d))%nat.
Proof.
  unfold read. rewrite (bind_step _ _ d d d) by done.
  rewrite (bind_step _ _ d tt (set_end_entry None d)) by done.
  assert (forall m d0, (length (words d0) <= length (words d))%nat -> bind (m : SM D _ unit) (fun _ =>
    let! w := next_word in
    match w with
    | None => ret None
    | Some w =>
        let! packet := decode_packet w in
        do! (match packet with
             | ControlPacket EndSegment _ => modify (set_end_entry (Some (entry_index (word_location w))))
             | _ => ret tt
             end) in
        ret (Some packet)
    end) d0 = (Ok (Some p), d') -> (forall n, stable (at_most n) m) ->
    (length (words d') < length (words d))%nat) as Hmain.
  { intros m d0 Hle Hm Hst. pose proof (Hst (length (words d)) d0 Hle) as H1. unfold bind at 1 in Hm.
    destruct (m d0) as [[[]| |] d1]; [|done..]. cbn in H1.
    destruct (words d1) as [|[e|w] rest] eqn:Hw.
    { by rewrite (bind_step _ _ d1 None d1) in Hm by (unfold next_word, bind, get; by rewrite Hw). }
    { by rewrite (bind_error _ _ d1 (Source e) (set_words rest d1)) in Hm by (unfold next_word, bind, get; by rewrite Hw). }
    rewrite (bind_step _ _ d1 (Some w) (set_words rest d1)) in Hm by (unfold next_word, bind, get; by rewrite Hw).
    pose proof (at_most_decode_packet (length rest) w (set_words rest d1) (le_n _)) as H2. unfold bind at 1 in Hm.
    destruct (decode_packet w (set_words rest d1)) as [[p'| |] d2]; [|done..]. cbn in H2.
    unfold at_most in H1, H2. rewrite Hw in H1. cbn in H1.
    destruct p' as [|[] ?]; cbn in Hm; injection Hm as <- <-; cbn; lia. }
  intros Hr. apply (Hmain _ (set_end_entry None d) (le_n _) Hr). intros n. destruct (end_entry d); [|apply stable_ret].
  intros d0 Hd0. unfold skip_entry_tail. pose proof (skip_words_shorter z (words d0)) as Hs.
  destruct (skip_words z (words d0)); cbn in *. unfold at_most in *. cbn. lia.
Qed.

Lemma collect_returns fuel (d : D) acc : (length (words d) < fuel)%nat -> is_Some (collect fuel d acc).
Proof.
  revert d acc. induction fuel as [|fuel IH]; intros d acc Hf; [lia|]. cbn [collect]. unfold next.
  destruct (finished d); [by eexists|]. destruct (read d) as [[[p|]|e|] d'] eqn:Hr; [|by eexists..].
  apply read_consumes in Hr. apply IH. lia.
Qed.

(** Decoding ends on every finite source, also one that fails in the middle. *)
Theorem decode_pushbuffer_returns (items : list (E + Word)) : is_Some (decode_maxwell_pushbuffer items).
Proof. apply collect_returns. cbn. lia. Qed.
End Returns.

(** ** Examples *)

Definition at_word (entry n : Z) : Location := mkLocation 3 7 entry (0x8000 + entry * 0x100) n (11 + entry) 5.

(** Two arguments across two entries: the second starts a new run. *)
Definition crossing : list Word :=
  [mkWord (encode_header 1 2 3 0x40) (at_word 0 0); mkWord 8 (at_word 0 1); mkWord 9 (at_word 1 0);
   mkWord (7 * 2 ^ 29) (at_word 1 1); mkWord 0xffffffff (at_word 1 2); mkWord (encode_header 4 77 2 5) (at_word 2 0)].

Lemma decode_pushbuffer_grammar_witness :
  stream None crossing
    [ViewMethods Incrementing (at_word 0 0) (Some 3)
       [Ok (mkMethod 0x100 8 (at_word 0 1)); Ok (mkMethod 0x104 9 (at_word 1 0))];
     ViewControl EndSegment (at_word 1 1);
     ViewMethods Immediate (at_word 2 0) (Some 2) [Ok (mkMethod 20 77 (at_word 2 0))]].
Proof.
  assert (Forall word_ok crossing) as Hok
    by (unfold crossing; repeat (apply Forall_cons; split;
          [unfold word_ok, in_range, encode_header; cbn [word_value word_location at_word word_offset]; lia|]);
        by apply Forall_nil).
  apply (decode_pushbuffer_grammar (E := Empty_set) crossing Hok).
  exists [Methods (mkPacket Incrementing (at_word 0 0) (Some 3)
            (Many 0x40 [8; 9] (at_word 0 1) [mkRun 1 (at_word 1 0)]));
          ControlPacket EndSegment (at_word 1 1);
          Methods (mkPacket Immediate (at_word 2 0) (Some 2) (One (mkMethod 20 77 (at_word 2 0))))].
  split; vm_compute; reflexivity.
Defined.

(** The last write of each register, latest first. *)
Example last_writes_examples :
  let args := [10; 11; 12] in
  let packet m := span_new (mkPacket m (at_word 0 0) (Some 0) (Many 4 args (at_word 0 1) [])) in
  map (fun m => map (fun x => (method x, argument x)) (last_writes 4 (packet m)))
    [Incrementing; NonIncrementing; IncrementOnce] =
  [[(24, 12); (20, 11); (16, 10)]; [(16, 12)]; [(20, 12); (16, 10)]].
Proof. reflexivity. Qed.

(** Malformed headers. *)
Example decode_errors :
  map (fun v => decode_maxwell_pushbuffer (SourceError := Empty_set) [inr (mkWord v (at_word 0 0))])
    [encode_header 2 0 0 0; encode_header 1 1 0 0x1000; encode_header 1 2 0 0xfff; encode_header 1 1 0 0; 0x10001] =
  [Some (Err (UnknownEncoding (at_word 0 0) 0x40000000 2));
   Some (Err (ReservedMethodBit (at_word 0 0) 0x20011000));
   Some (Err (MethodRangeOverflow (at_word 0 0) Incrementing 0x3ffc 2));
   Some (Err (TruncatedPacket (at_word 0 0) 1 0));
   Some (Err (InvalidControlEncoding (at_word 0 0) 0x10001))].
Proof. reflexivity. Qed.
