(* ===== verification/GpuMme.v ===== *)
(** * The Macro Method Expander (crates/gpu-maxwell/src/engines/threed/mme.rs)

    The program memory of the macro processor (a sparse 32-bit space kept in
    pages of 64 words), its instruction decoder and the interpreter that runs a
    macro against a host.  A register of the instruction memory keeps its raw
    word with its provenance ([MaxwellThreeDRegister]); the interpreter reads the
    decoded copy beside it.  The host (the class's register file and method
    sink) is an interface, as the trait of the source is. *)

From S2P Require Import Prelude GpuPacket.

(** ** Registers with provenance (engines/threed/state.rs) *)

(** [MaxwellMethodSource]: a method write with the word it came from
    (pushbuffer/dispatch.rs). *)
Record MethodSource := mkSource {
  source_location : Location;
  source_subchannel : Z;
  source_method : Z;
  source_argument : Z;
}.

Record Register (T : Type) := mkRegister {
  reg_raw : option Z;
  reg_value : option T;
  reg_source : option MethodSource;
}.
Arguments mkRegister {T} _ _ _.
Arguments reg_raw {T} _.
Arguments reg_value {T} _.
Arguments reg_source {T} _.

Definition register_default {T} : Register T := mkRegister None None None.
Definition programmed {T} (raw : Z) (value : T) (source : MethodSource) : Register T :=
  mkRegister (Some raw) (Some value) (Some source).
Definition verified_reset {T} (raw : Z) (value : option T) : Register T :=
  mkRegister (Some raw) value None.

(** ** Instructions *)

Definition EXECUTION_INSTRUCTION_LIMIT : Z := 65536.
Definition EMITTED_METHOD_LIMIT : Z := 16384.
Definition METHOD_DWORD_MASK : Z := 4095.
Definition INSTRUCTION_PAGE_WORDS : Z := 64.

(** [(raw as i32) >> 14] *)
Definition signed_immediate (raw : Z) : Z := shr (to_signed 32 raw) 14.

(** [(1_u32 << ((raw >> 22) & 0x1f)).wrapping_sub(1)] *)
Definition bitfield_mask (raw : Z) : Z :=
  wrap 32 (shl 32 1 (Z.land (shr raw 22) 31) - 1).

Record MmeInstruction := mkInstruction {
  immediate : Z;
  bitmask : Z;
  operation : Z;
  result : Z;
  destination : Z;
  src_a : Z;
  src_b : Z;
  alu_code : Z;
  source_bit : Z;
  destination_bit : Z;
  exit : bool;
  branch_nonzero : bool;
  branch_annul : bool;
}.

(** [MmeInstruction::decode] *)
Definition decode_instruction (raw : Z) : MmeInstruction :=
  mkInstruction (signed_immediate raw) (bitfield_mask raw)
    (Z.land raw 7)
    (Z.land (shr raw 4) 7)
    (Z.land (shr raw 8) 7)
    (Z.land (shr raw 11) 7)
    (Z.land (shr raw 14) 7)
    (Z.land (shr raw 17) 31)
    (Z.land (shr raw 17) 31)
    (Z.land (shr raw 27) 31)
    (bit_set raw (2 ^ 7)) (bit_set raw (2 ^ 4)) (bit_set raw (2 ^ 5)).

(** ** Instruction memory *)

(** The two arrays of a page have [INSTRUCTION_PAGE_WORDS] elements. *)
Record MmeInstructionPage := mkPage {
  page_registers : list (option (Register Z));
  page_decoded : list (option MmeInstruction);
}.

(** [vec![None; MME_INSTRUCTION_PAGE_WORDS]] twice. *)
Definition empty_page : MmeInstructionPage :=
  mkPage (replicate (Z.to_nat INSTRUCTION_PAGE_WORDS) None) (replicate (Z.to_nat INSTRUCTION_PAGE_WORDS) None).

(** The part of [MmeInstructionRam] that a macro reads: the pages and the number
    of distinct words. *)
Record Ram := mkRam { pages : gmap Z MmeInstructionPage; ram_count : Z }.

Definition ram_default : Ram := mkRam ∅ 0.

(** [MmeInstructionRam::page] *)
Definition page (r : Ram) (address : Z) : option MmeInstructionPage :=
  pages r !! (address / INSTRUCTION_PAGE_WORDS).

Definition page_index (address : Z) : nat := Z.to_nat (address mod INSTRUCTION_PAGE_WORDS).

(** [MmeInstructionRam::get] *)
Definition ram_get (r : Ram) (address : Z) : option (Register Z) :=
  match page r address with
  | Some p => default None (page_registers p !! page_index address)
  | None => None
  end.

(** [MmeInstructionRam::insert] on the pages (the compiled programs are dropped
    by the caller of this function in GpuMmeState). *)
Definition ram_insert (r : Ram) (address : Z) (register : Register Z) : Ram :=
  let p := default empty_page (page r address) in
  let index := page_index address in
  let fresh := match page_registers p !! index with Some (Some _) => false | _ => true end in
  mkRam
    (<[address / INSTRUCTION_PAGE_WORDS :=
         mkPage (<[index := Some register]> (page_registers p))
           (<[index := option_map decode_instruction (reg_value register)]> (page_decoded p))]> (pages r))
    (if fresh then ram_count r + 1 else ram_count r).

Definition ram_len (r : Ram) : Z := ram_count r.

(** The decoded word at an address, as the interpreter and the compiler of
    direct programs index it. *)
Definition decoded_at (r : Ram) (address : Z) : option MmeInstruction :=
  match page r address with
  | Some p => default None (page_decoded p !! page_index address)
  | None => None
  end.

(** ** The host *)

Inductive ExecutionError : Type :=
| DataWithoutCall
| MissingStartAddress (macro_index : Z)
| MissingInstruction (address : Z)
| InvalidOperation (address operation : Z)
| InvalidAluOperation (address operation : Z)
| BranchInDelaySlot (address : Z)
| ProgramCounterOverflow (address : Z)
| ParameterUnavailable (index : Z)
| UnconsumedParameters (consumed supplied : Z)
| RegisterReadUnavailable (method_dword : Z)
| RecursiveMacroCall (method_dword : Z)
| InstructionLimitExceeded (limit : Z)
| EmittedMethodLimitExceeded (limit : Z).

Inductive RunError (E : Type) : Type :=
| Execution (error : ExecutionError)
| Host (error : E).
Arguments Execution {E} error.
Arguments Host {E} error.

(** The trait [MaxwellThreeDMmeHost]: [H] is the host's state.  [emit_method]
    takes [&mut self], so it leaves a state also when it fails. *)
Class MmeHost (H E : Type) := {
  read_register : H -> Z -> E + Z;
  emit_method : H -> Z -> Z -> (E + unit) * H;
}.

(** ** The interpreter *)

Section Interpreter.
Context {H E : Type} `{MmeHost H E}.
Variable ram : Ram.
Variable parameters : list Z.

Record Interpreter := mkInterp {
  instruction_page : option (list (option MmeInstruction));
  instruction_page_index : Z;
  host : H;
  registers : list Z;
  pc : Z;
  delayed_pc : option Z;
  next_parameter : Z;
  method_address : Z;
  method_increment : Z;
  carry : bool;
  instructions : Z;
  emitted_methods : Z;
}.

Notation M := (SM Interpreter (RunError E)).

Definition set_page (p : option (list (option MmeInstruction))) (index : Z) (s : Interpreter) : Interpreter :=
  mkInterp p index (host s) (registers s) (pc s) (delayed_pc s) (next_parameter s) (method_address s)
    (method_increment s) (carry s) (instructions s) (emitted_methods s).
Definition set_host (h : H) (s : Interpreter) : Interpreter :=
  mkInterp (instruction_page s) (instruction_page_index s) h (registers s) (pc s) (delayed_pc s)
    (next_parameter s) (method_address s) (method_increment s) (carry s) (instructions s) (emitted_methods s).
Definition set_registers (l : list Z) (s : Interpreter) : Interpreter :=
  mkInterp (instruction_page s) (instruction_page_index s) (host s) l (pc s) (delayed_pc s)
    (next_parameter s) (method_address s) (method_increment s) (carry s) (instructions s) (emitted_methods s).
Definition set_pc (v : Z) (s : Interpreter) : Interpreter :=
  mkInterp (instruction_page s) (instruction_page_index s) (host s) (registers s) v (delayed_pc s)
    (next_parameter s) (method_address s) (method_increment s) (carry s) (instructions s) (emitted_methods s).
Definition set_delayed (v : option Z) (s : Interpreter) : Interpreter :=
  mkInterp (instruction_page s) (instruction_page_index s) (host s) (registers s) (pc s) v
    (next_parameter s) (method_address s) (method_increment s) (carry s) (instructions s) (emitted_methods s).
Definition set_next_parameter (v : Z) (s : Interpreter) : Interpreter :=
  mkInterp (instruction_page s) (instruction_page_index s) (host s) (registers s) (pc s) (delayed_pc s)
    v (method_address s) (method_increment s) (carry s) (instructions s) (emitted_methods s).
Definition set_method (address increment : Z) (s : Interpreter) : Interpreter :=
  mkInterp (instruction_page s) (instruction_page_index s) (host s) (registers s) (pc s) (delayed_pc s)
    (next_parameter s) address increment (carry s) (instructions s) (emitted_methods s).
Definition set_carry (c : bool) (s : Interpreter) : Interpreter :=
  mkInterp (instruction_page s) (instruction_page_index s) (host s) (registers s) (pc s) (delayed_pc s)
    (next_parameter s) (method_address s) (method_increment s) c (instructions s) (emitted_methods s).
Definition set_instructions (n : Z) (s : Interpreter) : Interpreter :=
  mkInterp (instruction_page s) (instruction_page_index s) (host s) (registers s) (pc s) (delayed_pc s)
    (next_parameter s) (method_address s) (method_increment s) (carry s) n (emitted_methods s).
Definition set_emitted (n : Z) (s : Interpreter) : Interpreter :=
  mkInterp (instruction_page s) (instruction_page_index s) (host s) (registers s) (pc s) (delayed_pc s)
    (next_parameter s) (method_address s) (method_increment s) (carry s) (instructions s) n.

(** [execution_error], thrown *)
Definition fail {A} (error : ExecutionError) : M A := throw (Execution error).

(** [self.registers[register]]: out of range panics. *)
Definition register (r : Z) : M Z :=
  let! s := get in
  expect (registers s !! Z.to_nat r).

Definition set_register (r value : Z) : M unit :=
  if negb (r =? 0) then
    let! s := get in
    do! debug_assert (bool_decide (is_Some (registers s !! Z.to_nat r))) in
    modify (set_registers (<[Z.to_nat r := value]> (registers s)))
  else ret tt.

Definition fetch_parameter : M Z :=
  let! s := get in
  let index := next_parameter s in
  let! value := ok_or (parameters !! Z.to_nat index) (Execution (ParameterUnavailable index)) in
  do! modify (set_next_parameter (index + 1)) in
  ret value.

Definition set_method_address (raw : Z) : M unit :=
  modify (set_method (Z.land raw METHOD_DWORD_MASK) (Z.land (shr raw 12) 63)).

Definition send (value : Z) : M unit :=
  let! s := get in
  do! guard (emitted_methods s =? EMITTED_METHOD_LIMIT)
        (Execution (EmittedMethodLimitExceeded EMITTED_METHOD_LIMIT)) in
  let '(outcome, h) := emit_method (host s) (method_address s) value in
  do! modify (set_host h) in
  match outcome with
  | inl error => throw (Host error)
  | inr _ =>
      do! modify (set_emitted (emitted_methods s + 1)) in
      modify (fun s => set_method
        (Z.land (wrap 32 (method_address s + method_increment s)) METHOD_DWORD_MASK) (method_increment s) s)
  end.

(** [u32::overflowing_add] and [overflowing_sub] *)
Definition overflowing_add (a b : Z) : Z * bool := (wrap 32 (a + b), 2 ^ 32 <=? a + b).
Definition overflowing_sub (a b : Z) : Z * bool := (wrap 32 (a - b), a <? b).

Definition alu (address op a b : Z) : M Z :=
  let! s := get in
  match op with
  | 0 => let '(r, c) := overflowing_add a b in
         do! modify (set_carry c) in ret r
  | 1 => let '(partial, first) := overflowing_add a b in
         let '(r, second) := overflowing_add partial (b2z (carry s)) in
         do! modify (set_carry (first || second)) in ret r
  | 2 => let '(r, borrow) := overflowing_sub a b in
         do! modify (set_carry (negb borrow)) in ret r
  | 3 => let borrow_in := b2z (negb (carry s)) in
         let '(partial, first) := overflowing_sub a b in
         let '(r, second) := overflowing_sub partial borrow_in in
         do! modify (set_carry (negb (first || second))) in ret r
  | 8 => ret (Z.lxor a b)
  | 9 => ret (Z.lor a b)
  | 10 => ret (Z.land a b)
  | 11 => ret (Z.land a (unot 32 b))
  | 12 => ret (unot 32 (Z.land a b))
  | _ => fail (InvalidAluOperation address op)
  end.

Definition process_result (op destination value : Z) : M unit :=
  match op with
  | 0 => let! parameter := fetch_parameter in
         set_register destination parameter
  | 1 => set_register destination value
  | 2 => do! set_register destination value in
         set_method_address value
  | 3 => let! parameter := fetch_parameter in
         do! set_register destination parameter in
         send value
  | 4 => do! set_register destination value in
         send value
  | 5 => let! parameter := fetch_parameter in
         do! set_register destination parameter in
         set_method_address value
  | 6 => do! set_register destination value in
         do! set_method_address value in
         let! parameter := fetch_parameter in
         send parameter
  | 7 => do! set_register destination value in
         do! set_method_address value in
         send (Z.land (shr value 12) 63)
  | _ => panic
  end.

Definition add_signed_18 (base immediate : Z) : option Z :=
  if 0 <=? immediate then checked_add 32 base immediate
  else if base <? - immediate then None else Some (base - - immediate).

(** The window on the current page: refilled when the program counter leaves it. *)
Definition load_page : M unit :=
  let! s := get in
  let index := pc s / INSTRUCTION_PAGE_WORDS in
  if negb (bool_decide (is_Some (instruction_page s))) || negb (instruction_page_index s =? index) then
    modify (set_page (option_map page_decoded (page ram (pc s))) index)
  else ret tt.

(** [self.instruction_page.and_then(|page| page[..])]: a page has 64 words, an
    index outside of it panics. *)
Definition fetch : M MmeInstruction :=
  let! s := get in
  match instruction_page s with
  | None => fail (MissingInstruction (pc s))
  | Some words =>
      let! word := expect (words !! page_index (pc s)) in
      ok_or word (Execution (MissingInstruction (pc s)))
  end.

(** The value computed by a non-branch instruction. *)
Definition compute (address : Z) (i : MmeInstruction) : M Z :=
  let! a := register (src_a i) in
  let! b := register (src_b i) in
  match operation i with
  | 0 => alu address (alu_code i) a b
  | 1 => ret (wrap 32 (a + immediate i))
  | 2 => let source := Z.land (shr b (source_bit i)) (bitmask i) in
         ret (Z.lor (Z.land a (unot 32 (shl 32 (bitmask i) (destination_bit i))))
                    (shl 32 source (destination_bit i)))
  | 3 => ret (shl 32 (Z.land (shr b (Z.land a 31)) (bitmask i)) (destination_bit i))
  | 4 => ret (shl 32 (Z.land (shr b (source_bit i)) (bitmask i)) (Z.land a 31))
  | 5 => let method := wrap 32 (a + immediate i) in
         do! guard (METHOD_DWORD_MASK <? method) (Execution (RegisterReadUnavailable (wrap 16 method))) in
         let! s := get in
         match read_register (host s) method with
         | inl error => throw (Host error)
         | inr value => ret value
         end
  | _ => fail (InvalidOperation address (operation i))
  end.

(** [step]; [again] is the recursive call [self.step(true)]. *)
Definition step_body (again : M bool) (is_delay_slot : bool) : M bool :=
  let! s := get in
  do! guard (instructions s =? EXECUTION_INSTRUCTION_LIMIT)
        (Execution (InstructionLimitExceeded EXECUTION_INSTRUCTION_LIMIT)) in
  let address := pc s in
  do! load_page in
  let! i := fetch in
  do! modify (set_instructions (instructions s + 1)) in
  let! next := ok_or (checked_add 32 (pc s) 1) (Execution (ProgramCounterOverflow address)) in
  do! modify (fun s' => match delayed_pc s' with
                        | Some target => set_delayed None (set_pc target s')
                        | None => set_pc next s'
                        end) in
  let! left :=
    (if operation i =? 7 then
       do! guard is_delay_slot (Execution (BranchInDelaySlot address)) in
       let! value := register (src_a i) in
       let taken := if negb (branch_nonzero i) then value =? 0 else negb (value =? 0) in
       if taken then
         let! target := ok_or (add_signed_18 (pc s) (immediate i)) (Execution (ProgramCounterOverflow address)) in
         if branch_annul i then
           do! modify (set_pc target) in ret (Some true)
         else
           do! modify (set_delayed (Some target)) in
           let! continues := again in
           ret (Some continues)
       else ret None
     else
       let! value := compute address i in
       do! process_result (result i) (destination i) value in
       ret None) in
  match left with
  | Some continues => ret continues
  | None =>
      if exit i && negb is_delay_slot then
        do! again in
        ret false
      else ret true
  end.

(** The recursion of [step] is one level deep: [step(true)] neither branches nor
    exits ([delay_step_alone]). *)
Definition delay_step : M bool := step_body panic true.
Definition step : M bool := step_body delay_step false.

(** [while interpreter.step(false)? {}]; [None] when the fuel runs out. *)
Fixpoint run (fuel : nat) (s : Interpreter) : option (Result (RunError E) unit * Interpreter) :=
  match fuel with
  | O => None
  | S fuel' =>
      match step s with
      | (Ok true, s') => run fuel' s'
      | (Ok false, s') => Some (Ok tt, s')
      | (Err e, s') => Some (Err e, s')
      | (Panic, s') => Some (Panic, s')
      end
  end.

(** Every turn of the loop retires an instruction, and the watchdog stops it. *)
Definition run_fuel : nat := Z.to_nat (EXECUTION_INSTRUCTION_LIMIT + 1).

Definition interpreter_new (start first : Z) (h : H) : Interpreter :=
  mkInterp None 0 h (<[1%nat := first]> (replicate 8 0)) start None 1 0 0 false 0 0.

(** The interpreting part of [MaxwellThreeDMmeProgram::execute]. *)
Definition interpret (start first : Z) (h : H) : option (Result (RunError E) unit * H) :=
  match run run_fuel (interpreter_new start first h) with
  | None => None
  | Some (Ok _, s) =>
      let supplied := Z.of_nat (length parameters) in
      Some (if negb (next_parameter s =? supplied)
            then Err (Execution (UnconsumedParameters (next_parameter s) supplied)) else Ok tt, host s)
  | Some (r, s) => Some (r, host s)
  end.
End Interpreter.

(** ** The paged memory is a sparse map *)

Definition page_ok (p : MmeInstructionPage) : Prop :=
  length (page_registers p) = 64%nat /\
  page_decoded p = map (fun o => o ≫= fun register => option_map decode_instruction (reg_value register))
                       (page_registers p).

(** [m] maps the addresses written so far to their last register. *)
Record ram_refines (r : Ram) (m : gmap Z (Register Z)) : Prop := {
  refines_pages : map_Forall (fun _ => page_ok) (pages r);
  refines_get : forall address, ram_get r address = m !! address;
  refines_count : ram_count r = Z.of_nat (size m);
}.

Lemma page_index_lt address : (page_index address < 64)%nat.
Proof. unfold page_index, INSTRUCTION_PAGE_WORDS. pose proof (Z.mod_pos_bound address 64). lia. Qed.

Lemma page_address_eq a b :
  a / INSTRUCTION_PAGE_WORDS = b / INSTRUCTION_PAGE_WORDS -> page_index a = page_index b -> a = b.
Proof.
  unfold page_index, INSTRUCTION_PAGE_WORDS. intros Hd Hm.
  pose proof (Z.mod_pos_bound a 64). pose proof (Z.mod_pos_bound b 64).
  apply Z2Nat.inj in Hm; [|lia..]. rewrite (Z.div_mod a 64), (Z.div_mod b 64) by lia. congruence.
Qed.

Lemma empty_page_ok : page_ok empty_page.
Proof. split; reflexivity. Qed.

Lemma page_default_ok r m address :
  ram_refines r m -> page_ok (default empty_page (page r address)).
Proof.
  intros Hr. unfold page. destruct (pages r !! _) as [p|] eqn:Hp; cbn; [|apply empty_page_ok].
  apply (refines_pages _ _ Hr _ _ Hp).
Qed.

Lemma ram_get_default r address :
  ram_get r address = default None (page_registers (default empty_page (page r address)) !! page_index address).
Proof.
  unfold ram_get. destruct (page r address) as [p|]; [done|].
  cbn [default empty_page page_registers]. by rewrite lookup_replicate_2 by apply page_index_lt.
Qed.

Lemma ram_default_refines : ram_refines ram_default ∅.
Proof. split; [apply map_Forall_empty|intros; done|done]. Qed.

Lemma ram_insert_get r m address register b :
  ram_refines r m ->
  ram_get (ram_insert r address register) b = if decide (b = address) then Some register else ram_get r b.
Proof.
  intros Hr. destruct (page_default_ok r m address Hr) as [Hlen _].
  unfold ram_get at 1, page, ram_insert. cbn [pages].
  destruct (decide (b / INSTRUCTION_PAGE_WORDS = address / INSTRUCTION_PAGE_WORDS)) as [He|Hn].
  - rewrite He, lookup_insert_eq. cbn [page_registers].
    destruct (decide (b = address)) as [->|Hb].
    + rewrite list_lookup_insert_eq; [done|]. rewrite Hlen. apply page_index_lt.
    + rewrite list_lookup_insert_ne by (intros Hi; apply Hb; symmetry; by apply page_address_eq).
      rewrite ram_get_default. unfold page. by rewrite He.
  - rewrite lookup_insert_ne by congruence. by rewrite decide_False by (intros ->; done).
Qed.

Lemma page_insert_ok p index register :
  page_ok p ->
  page_ok (mkPage (<[index := Some register]> (page_registers p))
             (<[index := option_map decode_instruction (reg_value register)]> (page_decoded p))).
Proof.
  intros [Hlen Hdec]. split; cbn [page_registers page_decoded].
  - by rewrite length_insert.
  - by rewrite Hdec, list_fmap_insert.
Qed.

Lemma ram_insert_refines r m address register :
  ram_refines r m -> ram_refines (ram_insert r address register) (<[address := register]> m).
Proof.
  intros Hr. pose proof (page_default_ok r m address Hr) as Hp. split.
  - cbn [ram_insert pages]. apply map_Forall_insert_2; [|apply Hr]. by apply page_insert_ok.
  - intros b. rewrite (ram_insert_get r m) by done. destruct (decide (b = address)) as [->|].
    + by rewrite lookup_insert_eq.
    + rewrite lookup_insert_ne by done. apply Hr.
  - pose proof (refines_get _ _ Hr address) as Hg. rewrite ram_get_default in Hg.
    cbn [ram_insert ram_count]. rewrite (refines_count _ _ Hr), map_size_insert.
    pose proof (proj1 Hp) as Hlen. pose proof (page_index_lt address).
    destruct (lookup_lt_is_Some_2 (page_registers (default empty_page (page r address))) (page_index address))
      as [o Ho]; [lia|]. rewrite Ho in Hg |- *. cbn in Hg. rewrite <- Hg.
    destruct o; [done|lia].
Qed.

(** The decoded word of an address is the decoding of the register's value. *)
Lemma decoded_at_refines r m address :
  ram_refines r m ->
  decoded_at r address = m !! address ≫= fun register => option_map decode_instruction (reg_value register).
Proof.
  intros Hr. rewrite <- (refines_get _ _ Hr). unfold decoded_at, ram_get.
  destruct (page r address) as [p|] eqn:Hp; [|done].
  destruct (refines_pages _ _ Hr _ _ Hp) as [_ ->]. rewrite list_lookup_fmap.
  by destruct (page_registers p !! _) as [[]|].
Qed.

(** What the interpreter needs of a program's memory. *)
Definition ram_ok (r : Ram) : Prop := map_Forall (fun _ => page_ok) (pages r).

Record instruction_ok (i : MmeInstruction) : Prop := {
  instruction_result : 0 <= result i < 8;
  instruction_destination : 0 <= destination i < 8;
  instruction_src_a : 0 <= src_a i < 8;
  instruction_src_b : 0 <= src_b i < 8;
}.

Lemma land_range x n : 0 <= n -> 0 <= Z.land x (Z.ones n) < 2 ^ n.
Proof. intros Hn. rewrite Z.land_ones by done. apply Z.mod_pos_bound. lia. Qed.

Lemma decode_instruction_ok raw : instruction_ok (decode_instruction raw).
Proof. split; cbn [decode_instruction result destination src_a src_b]; apply (land_range _ 3); lia. Qed.

Lemma page_decoded_length p : page_ok p -> length (page_decoded p) = 64%nat.
Proof. intros [? ->]. by rewrite length_map. Qed.

Lemma page_decoded_instruction p n i :
  page_ok p -> page_decoded p !! n = Some (Some i) -> instruction_ok i.
Proof.
  intros [_ ->]. rewrite list_lookup_fmap. destruct (page_registers p !! n) as [[g|]|]; cbn; [|done..].
  destruct (reg_value g); cbn; [|done]. intros [= <-]. apply decode_instruction_ok.
Qed.

Lemma bind_ext {S E A B} (m : SM S E A) (k k' : A -> SM S E B) s :
  (forall a s', k a s' = k' a s') -> bind m k s = bind m k' s.
Proof. intros Hk. unfold bind. by destruct (m s) as [[] ?]. Qed.

(** A step in a delay slot makes no recursive call. *)
Lemma delay_step_alone {H E} `{MmeHost H E} ram parameters again s :
  step_body ram parameters again true s = delay_step ram parameters s.
Proof.
  unfold delay_step, step_body.
  do 7 (apply bind_ext; intros ??). destruct (operation _ =? 7); [done|].
  apply bind_ext. intros ??. by rewrite andb_false_r.
Qed.

(** ** The interpreter returns within its limits *)

Section Returns.
Context {H E : Type} `{MmeHost H E}.
Variable ram : Ram.
Variable parameters : list Z.
Hypothesis ram_wf : ram_ok ram.

(** A measure of the host's calls of [emit_method]. *)
Variable calls : H -> Z.
Hypothesis calls_emit : forall h method value, calls (snd (emit_method h method value)) <= calls h + 1.
Variable calls0 : Z.

Notation I := (Interpreter (H := H)).

(** The page window is a page of the memory. *)
Definition window_ok (s : I) : Prop :=
  forall words, instruction_page s = Some words ->
  exists p, pages ram !! instruction_page_index s = Some p /\ words = page_decoded p.

Record interp_ok (n : Z) (s : I) : Prop := {
  interp_instructions : instructions s = n;
  interp_emitted : 0 <= emitted_methods s <= EMITTED_METHOD_LIMIT;
  interp_calls : calls (host s) <= calls0 + emitted_methods s;
  interp_registers : length (registers s) = 8%nat;
  interp_window : window_ok s;
}.

(** What is left when a step fails. *)
Definition failed (e : RunError E) (s : I) : Prop :=
  instructions s <= EXECUTION_INSTRUCTION_LIMIT /\ calls (host s) <= calls0 + EMITTED_METHOD_LIMIT.

Lemma failed_ok n e s : n <= EXECUTION_INSTRUCTION_LIMIT -> interp_ok n s -> failed e s.
Proof. intros Hn []. split; lia. Qed.

Lemma wp_load_register n r s (Q : Z -> I -> Prop) :
  0 <= r < 8 -> interp_ok n s -> (forall v, Q v s) -> wp (register r) Q failed s.
Proof.
  intros Hr Hs HQ. unfold register. apply wp_bind, wp_get.
  destruct (lookup_lt_is_Some_2 (registers s) (Z.to_nat r)) as [v Hv]; [destruct Hs; lia|].
  eapply wp_expect; [done|]. apply HQ.
Qed.

Lemma wp_store_register n r value s (Q : unit -> I -> Prop) :
  0 <= r < 8 -> interp_ok n s -> (forall s', interp_ok n s' -> Q tt s') ->
  wp (set_register r value) Q failed s.
Proof.
  intros Hr Hs HQ. unfold set_register. destruct (negb (r =? 0)); [|by apply wp_ret, HQ].
  apply wp_bind, wp_get, wp_bind, wp_debug_assert.
  - apply bool_decide_eq_true_2, lookup_lt_is_Some_2. destruct Hs; lia.
  - apply wp_modify, HQ. destruct Hs. split; cbn; auto. by rewrite length_insert.
Qed.

Lemma wp_fetch_parameter n s (Q : Z -> I -> Prop) :
  n <= EXECUTION_INSTRUCTION_LIMIT -> interp_ok n s -> (forall v s', interp_ok n s' -> Q v s') ->
  wp (fetch_parameter parameters) Q failed s.
Proof.
  intros Hn Hs HQ. unfold fetch_parameter. apply wp_bind, wp_get, wp_bind, wp_ok_or.
  - intros _. by apply (failed_ok n).
  - intros v _. apply wp_bind, wp_modify, wp_ret, HQ. by destruct Hs.
Qed.

Lemma wp_set_method_address n raw s (Q : unit -> I -> Prop) :
  interp_ok n s -> (forall s', interp_ok n s' -> Q tt s') -> wp (set_method_address raw) Q failed s.
Proof. intros Hs HQ. apply wp_modify, HQ. by destruct Hs. Qed.

Lemma wp_send n value s (Q : unit -> I -> Prop) :
  n <= EXECUTION_INSTRUCTION_LIMIT -> interp_ok n s -> (forall s', interp_ok n s' -> Q tt s') ->
  wp (send value) Q failed s.
Proof.
  intros Hn Hs HQ. unfold send. apply wp_bind, wp_get, wp_bind, wp_guard.
  { intros _. by apply (failed_ok n). }
  intros Hlim%Z.eqb_neq. pose proof (calls_emit (host s) (method_address s) value) as Hc.
  destruct (emit_method _ _ _) as [outcome h]; cbn [snd] in Hc.
  apply wp_bind, wp_modify. destruct Hs. destruct outcome.
  - apply wp_throw. split; cbn; lia.
  - apply wp_bind, wp_modify, wp_modify, HQ. split; cbn; auto; lia.
Qed.

Lemma wp_alu n address op a b s (Q : Z -> I -> Prop) :
  n <= EXECUTION_INSTRUCTION_LIMIT -> interp_ok n s -> (forall v s', interp_ok n s' -> Q v s') ->
  wp (alu address op a b) Q failed s.
Proof.
  intros Hn Hs HQ. unfold alu. apply wp_bind, wp_get. unfold overflowing_add, overflowing_sub.
  repeat match goal with
  | |- wp (match ?x with _ => _ end) _ _ _ => destruct x
  end; first [ by apply wp_throw, (failed_ok n) | apply wp_ret, HQ, Hs
             | apply wp_bind, wp_modify, wp_ret, HQ; by destruct Hs ].
Qed.

Lemma wp_compute n address i s (Q : Z -> I -> Prop) :
  n <= EXECUTION_INSTRUCTION_LIMIT -> instruction_ok i -> interp_ok n s ->
  (forall v s', interp_ok n s' -> Q v s') -> wp (compute address i) Q failed s.
Proof.
  intros Hn Hi Hs HQ. unfold compute.
  apply wp_bind, (wp_load_register n); [apply Hi|done|intros a].
  apply wp_bind, (wp_load_register n); [apply Hi|done|intros b].
  destruct (operation i) as [|p|]; [by apply (wp_alu n)| |by apply wp_throw, (failed_ok n)].
  do 3 (try destruct p as [p|p|]); try (by apply wp_throw, (failed_ok n)); try (by apply wp_ret, HQ).
  apply wp_bind, wp_guard; intros _; [by apply (failed_ok n)|]. apply wp_bind, wp_get.
  destruct (read_register _ _); [by apply wp_throw, (failed_ok n)|by apply wp_ret, HQ].
Qed.

Lemma wp_process_result n op d value s (Q : unit -> I -> Prop) :
  n <= EXECUTION_INSTRUCTION_LIMIT -> 0 <= op < 8 -> 0 <= d < 8 -> interp_ok n s ->
  (forall s', interp_ok n s' -> Q tt s') -> wp (process_result parameters op d value) Q failed s.
Proof.
  intros Hn Hop Hd Hs HQ.
  assert (op = 0 \/ op = 1 \/ op = 2 \/ op = 3 \/ op = 4 \/ op = 5 \/ op = 6 \/ op = 7) as Hc by lia.
  destruct_or! Hc; subst op; cbn [process_result];
  repeat lazymatch goal with
  | |- wp (bind _ _) _ _ _ => apply wp_bind
  | |- wp (fetch_parameter _) _ _ _ => eapply (wp_fetch_parameter n); [done..|intros ???]
  | |- wp (set_register _ _) _ _ _ => eapply (wp_store_register n); [done..|intros ??]
  | |- wp (set_method_address _) _ _ _ => eapply (wp_set_method_address n); [done..|intros ??]
  | |- wp (send _) _ _ _ => eapply (wp_send n); [done..|intros ??]
  end; auto.
Qed.

(** The window after [load_page]: the page of the program counter. *)
Definition window_at (s : I) : Prop :=
  instruction_page s = option_map page_decoded (page ram (pc s)).

Lemma wp_load_page n s (Q : unit -> I -> Prop) :
  interp_ok n s ->
  (forall s', interp_ok n s' -> window_at s' -> pc s' = pc s -> delayed_pc s' = delayed_pc s -> Q tt s') ->
  wp (load_page ram) Q failed s.
Proof.
  intros Hs HQ. unfold load_page. apply wp_bind, wp_get.
  destruct (negb _ || _) eqn:Hc.
  - apply wp_modify, HQ; [|done..]. destruct Hs. split; cbn; auto.
    intros words. cbn. unfold page. destruct (pages ram !! _) as [p|]; cbn; [|done].
    intros [= <-]. by exists p.
  - apply wp_ret, HQ; [done| |done..]. apply orb_false_iff in Hc as [Hp Hi].
    apply negb_false_iff, bool_decide_eq_true in Hp as [words Hw].
    apply negb_false_iff, Z.eqb_eq in Hi. unfold window_at, page. rewrite <- Hi, Hw.
    destruct (interp_window _ _ Hs words Hw) as (p & -> & ->). done.
Qed.

Lemma wp_fetch n s (Q : MmeInstruction -> I -> Prop) :
  n <= EXECUTION_INSTRUCTION_LIMIT -> interp_ok n s -> window_at s ->
  (forall i, instruction_ok i -> decoded_at ram (pc s) = Some i -> Q i s) -> wp fetch Q failed s.
Proof.
  intros Hn Hs Hw HQ. unfold fetch. apply wp_bind, wp_get. unfold window_at in Hw. unfold decoded_at in HQ.
  rewrite Hw. destruct (page ram (pc s)) as [p|] eqn:Hp; cbn [option_map]; [|by apply wp_throw, (failed_ok n)].
  pose proof (ram_wf _ _ Hp) as Hok. pose proof (page_index_lt (pc s)).
  destruct (lookup_lt_is_Some_2 (page_decoded p) (page_index (pc s))) as [o Ho];
    [by rewrite page_decoded_length|].
  rewrite Ho in HQ |- *. apply wp_bind, wp_ret. destruct o as [i|].
  - apply wp_ret, HQ; [|done]. by eapply page_decoded_instruction.
  - by apply wp_throw, (failed_ok n).
Qed.

(** At least one instruction was retired, within the limit. *)
Definition advanced (n : Z) (s : I) : Prop :=
  exists n', interp_ok n' s /\ n < n' <= EXECUTION_INSTRUCTION_LIMIT.

Definition advances (m : SM I (RunError E) bool) : Prop :=
  forall n s, 0 <= n <= EXECUTION_INSTRUCTION_LIMIT -> interp_ok n s -> wp m (fun _ => advanced n) failed s.

(** The recursive call, made after this instruction is retired. *)
Lemma wp_again again n s (Q : bool -> I -> Prop) :
  advances again -> 0 <= n < EXECUTION_INSTRUCTION_LIMIT -> interp_ok (n + 1) s ->
  (forall b s', advanced n s' -> Q b s') -> wp again Q failed s.
Proof.
  intros Ha Hn Hs HQ. eapply wp_mono; [apply (Ha (n + 1)); [lia|done]| |auto].
  intros b s' (n' & ? & ?). apply HQ. exists n'. split; [done|lia].
Qed.

Lemma advances_step_body again is_delay_slot :
  (is_delay_slot = false -> advances again) -> advances (step_body ram parameters again is_delay_slot).
Proof.
  intros Hagain n s Hn Hs. unfold step_body. apply wp_bind, wp_get, wp_bind, wp_guard.
  { intros _. apply (failed_ok n); [lia|done]. }
  intros Hlim%Z.eqb_neq. pose proof (interp_instructions _ _ Hs) as Hin. rewrite Hin in Hlim.
  assert (forall e s', interp_ok (n + 1) s' -> failed e s') as Hfail
    by (intros; apply (failed_ok (n + 1)); [lia|done]).
  assert (forall s', interp_ok (n + 1) s' -> advanced n s') as Hdone
    by (intros; exists (n + 1); split; [done|lia]).
  apply wp_bind, (wp_load_page n); [done|intros s1 Hs1 Hw Hpc _].
  apply wp_bind, (wp_fetch n); [lia|done..|intros i Hi _].
  apply wp_bind, wp_modify. rewrite Hin.
  assert (interp_ok (n + 1) (set_instructions (n + 1) s1)) as Hs2 by (by destruct Hs1).
  apply wp_bind, wp_ok_or; [auto|intros next _].
  apply wp_bind, wp_modify.
  match goal with |- wp _ _ _ ?x => set (s3 := x) end.
  assert (interp_ok (n + 1) s3) as Hs3 by (subst s3; destruct (delayed_pc _); by destruct Hs2).
  clearbody s3. apply wp_bind.
  assert (forall s4, interp_ok (n + 1) s4 -> wp
    (if exit i && negb is_delay_slot then do! again in ret false else ret true) (fun _ => advanced n) failed s4)
    as Hend.
  { intros s4 Hs4. destruct (exit i); [|by apply wp_ret, Hdone].
    destruct is_delay_slot; [by apply wp_ret, Hdone|].
    apply wp_bind, (wp_again _ n); [auto|lia|done|intros; by apply wp_ret]. }
  destruct (operation i =? 7).
  - apply wp_bind, wp_guard; [auto|intros ->].
    apply wp_bind, (wp_load_register (n + 1)); [apply Hi|done|intros value].
    destruct (if negb _ then _ else _); [|by apply wp_ret, Hend].
    apply wp_bind, wp_ok_or; [auto|intros target _].
    destruct (branch_annul i); apply wp_bind, wp_modify.
    + apply wp_ret, wp_ret, Hdone. by destruct Hs3.
    + apply wp_bind, (wp_again _ n); [auto|lia|by destruct Hs3|]. intros. by apply wp_ret, wp_ret.
  - apply wp_bind, (wp_compute (n + 1)); [lia|done..|intros value s4 Hs4].
    apply wp_bind, (wp_process_result (n + 1)); [lia|apply Hi..|done|intros s5 Hs5].
    by apply wp_ret, Hend.
Qed.

Lemma advances_step : advances (step ram parameters).
Proof. apply advances_step_body. intros _. by apply advances_step_body. Qed.

Lemma run_returns_from fuel n s :
  0 <= n <= EXECUTION_INSTRUCTION_LIMIT -> interp_ok n s ->
  (Z.to_nat (EXECUTION_INSTRUCTION_LIMIT - n) < fuel)%nat ->
  exists r s', run ram parameters fuel s = Some (r, s') /\ r <> Panic /\
    instructions s' <= EXECUTION_INSTRUCTION_LIMIT /\ calls (host s') <= calls0 + EMITTED_METHOD_LIMIT.
Proof.
  revert n s. induction fuel as [|fuel IH]; intros n s Hn Hs Hf; [lia|]. cbn [run].
  pose proof (advances_step n s Hn Hs) as Hw. unfold wp in Hw.
  destruct (step ram parameters s) as [[[]|e|] s'].
  - destruct Hw as (n' & Hs' & Hn'). apply (IH n'); [lia|done|lia].
  - destruct Hw as (n' & Hs' & Hn'). exists (Ok tt), s'. destruct Hs'. repeat split; [done|lia|lia].
  - destruct Hw. by exists (Err e), s'.
  - done.
Qed.
End Returns.

(** A host that records the methods, and fails at the [fail_at]-th: the one the
    tests of direct.rs use. *)
Record LogHost := mkLog { sent : list (Z * Z); fail_at : option Z }.

#[export] Instance log_host : MmeHost LogHost Z := {
  read_register _ _ := inr 0;
  emit_method h method value :=
    if bool_decide (fail_at h = Some (Z.of_nat (length (sent h)))) then (inl 23, h)
    else (inr tt, mkLog (sent h ++ [(method, value)]) (fail_at h));
}.

(** A memory holding the words from an address on. *)
Definition load_words (start : Z) (words : list Z) : Ram :=
  foldl (fun r '(k, w) => ram_insert r (start + Z.of_nat k) (programmed w w (mkSource (at_word 0 (Z.of_nat k)) 0 0x118 w))) ram_default
    (imap (fun k w => (k, w)) words).

Lemma load_words_refines start words : exists m, ram_refines (load_words start words) m.
Proof.
  unfold load_words. generalize (imap (fun k w => (k, w)) words) as l.
  assert (exists m, ram_refines ram_default m) as Hr by (exists ∅; apply ram_default_refines).
  generalize dependent ram_default. intros r Hr l. revert r Hr.
  induction l as [|[k w] l IH]; intros r [m Hr]; [by exists m|]. apply IH. eexists. by apply ram_insert_refines.
Qed.

(** C31. The interpreter of macros always returns.  For every program memory built
    by the loads, start address, parameters and host, the loop of [execute]
    returns without a panic; it retires at most 65,536 instructions, and calls
    [emit_method] at most 16,384 times, whatever the host does ([calls] is any
    measure that one call raises by at most one). *)
Theorem mme_interpreter_returns {H E} `{MmeHost H E} (calls : H -> Z)
    (Hcalls : forall h method value, calls (snd (emit_method h method value)) <= calls h + 1)
    (r : Ram) (m : gmap Z (Register Z)) (Hr : ram_refines r m)
    (parameters : list Z) (start first : Z) (h : H) :
  (exists outcome s, run r parameters run_fuel (interpreter_new start first h) = Some (outcome, s) /\
     instructions s <= EXECUTION_INSTRUCTION_LIMIT) /\
  exists outcome h', interpret r parameters start first h = Some (outcome, h') /\ outcome <> Panic /\
    calls h' <= calls h + EMITTED_METHOD_LIMIT.
Proof.
  destruct (run_returns_from r parameters (refines_pages _ _ Hr) calls Hcalls (calls h) run_fuel 0
              (interpreter_new start first h)) as (outcome & s & Hrun & Hp & Hi & Hc).
  { unfold EXECUTION_INSTRUCTION_LIMIT. lia. }
  { split; cbn; [done|unfold EMITTED_METHOD_LIMIT; lia|lia|done|by intros ?]. }
  { unfold run_fuel, EXECUTION_INSTRUCTION_LIMIT. lia. }
  split; [by exists outcome, s|]. unfold interpret. rewrite Hrun.
  destruct outcome as [[]| |]; [|by eexists _, _|done].
  eexists _, _. split; [reflexivity|]. split; [by case_match|done].
Qed.

(** A branch to itself runs into the limit; three instructions that write two
    methods end. *)
Example mme_runs :
  interpret (load_words 0 [0x00001007; 0x11]) [5] 0 5 (mkLog [] None) =
    Some (Err (Execution (InstructionLimitExceeded 65536)), mkLog [] None) /\
  interpret (load_words 0 [0x00400021; 0x00000841; 0x000008c1; 0x11]) [7] 0 7 (mkLog [] None) =
    Some (Ok tt, mkLog [(256, 7); (256, 7)] None).
Proof. split; vm_compute; reflexivity. Qed.

Lemma mme_interpreter_returns_witness :
  exists outcome h', interpret (load_words 0 [0x00001007; 0x11]) [5] 0 5 (mkLog [] None) = Some (outcome, h') /\
    outcome <> Panic /\ Z.of_nat (length (sent h')) <= 0 + EMITTED_METHOD_LIMIT.
Proof.
  destruct (load_words_refines 0 [0x00001007; 0x11]) as [m Hm].
  refine (proj2 (mme_interpreter_returns (fun h => Z.of_nat (length (sent h))) _ _ m Hm [5] 0 5 (mkLog [] None))).
  intros h method value. cbn. case_bool_decide; cbn; [lia|]. rewrite length_app. cbn. lia.
Defined.
