(* ===== verification/GpuMmeDirect.v ===== *)
(** * Direct macro programs (crates/gpu-maxwell/src/engines/threed/mme/direct.rs)

    A straight-line macro is compiled to a list of parameter checks and method
    writes, executed without the interpreter.  The theorem of this file is that
    the compiled program and the interpreter agree on every parameter list and
    every host: same result, same error, same methods in the same order. *)

From S2P Require Import Prelude GpuMme.

Inductive Value : Type :=
| Constant (value : Z)
| ParameterAt (index : Z).

Inductive Operation : Type :=
| CheckParameter (index : Z)
| Send (method : Z) (value : Value).

Record DirectProgram := mkDirect {
  operations : list Operation;
  program_parameters : Z;
}.

(** ** The compiler

    [None] of the source is [Err tt]; [Panic] is an index outside an array. *)

(** The local variables of [compile]. *)
Record Compiler := mkCompiler {
  c_registers : list Value;
  c_parameters : Z;
  c_method : Z;
  c_increment : Z;
  c_operations : list Operation;
}.

Definition is_constant (k : Z) (v : Value) : bool :=
  match v with Constant value => value =? k | ParameterAt _ => false end.

Definition one_of (l : list Z) (x : Z) : bool := existsb (Z.eqb x) l.

(** The arms of the match on [(instruction.alu, a, b)], in order. *)
Definition direct_alu (code : Z) (a b : Value) : Result unit Value :=
  if one_of [0; 8; 9] code && is_constant 0 a then Ok b
  else if one_of [0; 2; 8; 9] code && is_constant 0 b then Ok a
  else if (code =? 10) && is_constant (umax 32) b then Ok a
  else if (code =? 10) && is_constant (umax 32) a then Ok b
  else match a, b with
       | Constant a, Constant b =>
           match code with
           | 0 => Ok (Constant (wrap 32 (a + b)))
           | 2 => Ok (Constant (wrap 32 (a - b)))
           | 8 => Ok (Constant (Z.lxor a b))
           | 9 => Ok (Constant (Z.lor a b))
           | 10 => Ok (Constant (Z.land a b))
           | 11 => Ok (Constant (Z.land a (unot 32 b)))
           | 12 => Ok (Constant (unot 32 (Z.land a b)))
           | _ => Err tt
           end
       | _, _ => Err tt
       end.

(** [let value = match instruction.operation { .. }] *)
Definition direct_value (i : MmeInstruction) (a b : Value) : Result unit Value :=
  match operation i with
  | 1 => match a with
         | Constant value => Ok (Constant (wrap 32 (value + immediate i)))
         | _ => if immediate i =? 0 then Ok a else Err tt
         end
  | 0 => direct_alu (alu_code i) a b
  | _ => Err tt
  end.

(** [let Value::Constant(raw) = value else { return None }] *)
Definition constant_of (v : Value) : Result unit Z :=
  match v with Constant raw => Ok raw | ParameterAt _ => Err tt end.

(** [registers[index]] *)
Definition lookup_value (l : list Value) (r : Z) : Result unit Value :=
  match l !! Z.to_nat r with Some v => Ok v | None => Panic end.

(** [if destination != 0 { registers[destination] = .. }] *)
Definition assign_value (l : list Value) (r : Z) (v : Value) : Result unit (list Value) :=
  if negb (r =? 0) then
    match l !! Z.to_nat r with Some _ => Ok (<[Z.to_nat r := v]> l) | None => Panic end
  else Ok l.

(** The parameter fetched by the result codes 0, 3, 5 and 6. *)
Definition compile_fetch (code : Z) (c : Compiler) : option Value * Compiler :=
  if one_of [0; 3; 5; 6] code then
    (Some (ParameterAt (c_parameters c)),
     mkCompiler (c_registers c) (c_parameters c + 1) (c_method c) (c_increment c)
       (c_operations c ++ [CheckParameter (c_parameters c)]))
  else (None, c).

(** The method address taken from the result by the codes 2, 5, 6 and 7. *)
Definition compile_method (code : Z) (value : Value) (c : Compiler) : Result unit Compiler :=
  if one_of [2; 5; 6; 7] code then
    let? raw := constant_of value in
    Ok (mkCompiler (c_registers c) (c_parameters c) (Z.land raw METHOD_DWORD_MASK)
          (Z.land (shr raw 12) 63) (c_operations c))
  else Ok c.

(** [let sent = match result { .. }] *)
Definition sent_value (code : Z) (value : Value) (fetched : option Value) : Result unit (option Value) :=
  if one_of [3; 4] code then Ok (Some value)
  else if code =? 6 then Ok fetched
  else if code =? 7 then
    let? raw := constant_of value in
    Ok (Some (Constant (Z.land (shr raw 12) 63)))
  else Ok None.

Definition compile_send (sent : option Value) (c : Compiler) : Compiler :=
  match sent with
  | Some value =>
      mkCompiler (c_registers c) (c_parameters c)
        (Z.land (wrap 16 (c_method c + c_increment c)) METHOD_DWORD_MASK) (c_increment c)
        (c_operations c ++ [Send (c_method c) value])
  | None => c
  end.

(** What the result code does with the value. *)
Definition compile_result (code destination : Z) (value : Value) (c : Compiler) : Result unit Compiler :=
  let '(fetched, c1) := compile_fetch code c in
  let written := default value (if code =? 6 then None else fetched) in
  let? registers' := assign_value (c_registers c1) destination written in
  let c2 := mkCompiler registers' (c_parameters c1) (c_method c1) (c_increment c1) (c_operations c1) in
  let? c3 := compile_method code value c2 in
  let? sent := sent_value code value fetched in
  Ok (compile_send sent c3).

(** One turn of the loop, after the fetch. *)
Definition compile_instruction (i : MmeInstruction) (c : Compiler) : Result unit Compiler :=
  let? a := lookup_value (c_registers c) (src_a i) in
  let? b := lookup_value (c_registers c) (src_b i) in
  let? value := direct_value i a b in
  compile_result (result i) (destination i) value c.

(** [ram.page(pc)?.decoded[pc % 64]?] *)
Definition compile_word (r : Ram) (pc : Z) : Result unit MmeInstruction :=
  match page r pc with
  | None => Err tt
  | Some p =>
      match page_decoded p !! page_index pc with
      | Some (Some i) => Ok i
      | Some None => Err tt
      | None => Panic
      end
  end.

(** [for _ in 0..turns] *)
Fixpoint compile_loop (r : Ram) (turns : nat) (pc : Z) (delay : bool) (c : Compiler) : Result unit DirectProgram :=
  match turns with
  | O => Err tt
  | S turns' =>
      let? i := compile_word r pc in
      match checked_add 32 pc 1 with
      | None => Err tt
      | Some pc' =>
          let? c' := compile_instruction i c in
          if delay then Ok (mkDirect (c_operations c') (c_parameters c'))
          else compile_loop r turns' pc' (exit i) c'
      end
  end.

Definition compiler_new : Compiler :=
  mkCompiler (<[1%nat := ParameterAt 0]> (replicate 8 (Constant 0))) 1 0 0 [].

Definition compile (r : Ram) (pc : Z) : Result unit DirectProgram :=
  compile_loop r 256 pc false compiler_new.

(** ** Execution *)

Section Execute.
Context {H E : Type} `{MmeHost H E}.
Variable parameters : list Z.

(** [parameters[index]]: out of range panics. *)
Definition value_of (v : Value) : SM H (RunError E) Z :=
  match v with
  | Constant value => ret value
  | ParameterAt index => expect (parameters !! Z.to_nat index)
  end.

Definition execute_operation (op : Operation) : SM H (RunError E) unit :=
  match op with
  | CheckParameter index =>
      guard (Z.of_nat (length parameters) <=? index) (Execution (ParameterUnavailable index))
  | Send method value =>
      let! argument := value_of value in
      fun h => match emit_method h method argument with
               | (inl error, h') => (Err (Host error), h')
               | (inr _, h') => (Ok tt, h')
               end
  end.

Fixpoint execute_operations (ops : list Operation) : SM H (RunError E) unit :=
  match ops with
  | [] => ret tt
  | op :: rest => do! execute_operation op in execute_operations rest
  end.

(** [DirectProgram::execute] *)
Definition direct_execute (p : DirectProgram) : SM H (RunError E) unit :=
  do! execute_operations (operations p) in
  guard (negb (Z.of_nat (length parameters) =? program_parameters p))
    (Execution (UnconsumedParameters (program_parameters p) (Z.of_nat (length parameters)))).

Lemma execute_operations_app a b h :
  execute_operations (a ++ b) h = (do! execute_operations a in execute_operations b) h.
Proof.
  revert h. induction a as [|op a IH]; intros h; [done|]. cbn [app execute_operations].
  unfold bind in *. destruct (execute_operation op h) as [[] h']; [apply IH|done..].
Qed.
End Execute.

(** ** The simulation *)

Section Simulation.
Context {H E : Type} `{MmeHost H E}.
Variable ram : Ram.
Variable parameters : list Z.
Hypothesis ram_wf : ram_ok ram.
Hypothesis parameters_u32 : Forall (in_range 32) parameters.

Notation I := (Interpreter (H := H)).

(** [m] does from [s] what the operations do from the host of [s]: the same
    error, or the same host and a result satisfying [Q]. *)
Definition agrees {A} (ops : list Operation) (m : SM I (RunError E) A) (Q : A -> I -> Prop) (s : I) : Prop :=
  match execute_operations parameters ops (host s) with
  | (Ok _, h) => exists a s', m s = (Ok a, s') /\ host s' = h /\ Q a s'
  | (Err e, h) => exists s', m s = (Err e, s') /\ host s' = h
  | (Panic, _) => False
  end.

Lemma agrees_silent {A} (m : SM I (RunError E) A) (Q : A -> I -> Prop) s a s' :
  m s = (Ok a, s') -> host s' = host s -> Q a s' -> agrees [] m Q s.
Proof. intros. by exists a, s'. Qed.

Lemma agrees_bind {A B} o1 o2 (m : SM I (RunError E) A) (k : A -> SM I (RunError E) B) Q s :
  agrees o1 m (fun a s' => agrees o2 (k a) Q s') s -> agrees (o1 ++ o2) (bind m k) Q s.
Proof.
  unfold agrees. rewrite execute_operations_app. unfold bind.
  destruct (execute_operations parameters o1 (host s)) as [[] h].
  - intros (a & s' & -> & <- & Hk). done.
  - intros (s' & -> & <-). by exists s'.
  - done.
Qed.

Lemma agrees_mono {A} ops (m : SM I (RunError E) A) (Q Q' : A -> I -> Prop) s :
  agrees ops m Q s -> (forall a s', Q a s' -> Q' a s') -> agrees ops m Q' s.
Proof.
  unfold agrees. intros Hm HQ. destruct (execute_operations _ _ _) as [[] h]; [|done..].
  destruct Hm as (a & s' & ? & ? & ?). exists a, s'. auto.
Qed.

(** The value of a symbolic value. *)
Definition denotes (v : Value) (z : Z) : Prop :=
  match v with
  | Constant value => value = z
  | ParameterAt index => 0 <= index /\ parameters !! Z.to_nat index = Some z
  end.

Record sim (n e : Z) (c : Compiler) (s : I) : Prop := {
  sim_registers : Forall2 denotes (c_registers c) (registers s);
  sim_range : Forall (in_range 32) (registers s);
  sim_length : length (registers s) = 8%nat;
  sim_next : next_parameter s = c_parameters c;
  sim_parameters : 0 < c_parameters c;
  sim_method : method_address s = c_method c;
  sim_increment : method_increment s = c_increment c;
  sim_method_range : 0 <= c_method c <= 4095 /\ 0 <= c_increment c <= 63;
  sim_delayed : delayed_pc s = None;
  sim_window : window_ok ram s;
  sim_instructions : instructions s = n;
  sim_emitted : 0 <= emitted_methods s <= e;
}.

Lemma value_of_denotes v z h : denotes v z -> value_of (H := H) (E := E) parameters v h = (Ok z, h).
Proof. destruct v; cbn; [by intros ->|]. by intros [_ ->]. Qed.

Lemma agrees_fetch n e c s :
  sim n e c s ->
  agrees [CheckParameter (c_parameters c)] (fetch_parameter parameters)
    (fun z s' => s' = set_next_parameter (c_parameters c + 1) s /\
       denotes (ParameterAt (c_parameters c)) z /\ in_range 32 z) s.
Proof.
  intros Hs. pose proof (sim_parameters _ _ _ _ Hs). unfold agrees. cbn [execute_operations execute_operation].
  unfold fetch_parameter, bind, get, guard. rewrite (sim_next _ _ _ _ Hs).
  destruct (Z.leb_spec (Z.of_nat (length parameters)) (c_parameters c)).
  - rewrite lookup_ge_None_2 by lia. cbn. by eexists.
  - destruct (lookup_lt_is_Some_2 parameters (Z.to_nat (c_parameters c))) as [z Hz]; [lia|].
    rewrite Hz. cbn. do 2 eexists. split; [reflexivity|]. repeat split; [lia|done|..];
    by eapply (Forall_lookup_1 _ _ _ _ parameters_u32).
Qed.

Lemma agrees_send n e c s v z :
  sim n e c s -> e < EMITTED_METHOD_LIMIT -> denotes v z ->
  agrees [Send (c_method c) v] (send z)
    (fun _ s' => exists h, s' = set_method (Z.land (wrap 16 (c_method c + c_increment c)) METHOD_DWORD_MASK)
       (c_increment c) (set_emitted (emitted_methods s + 1) (set_host h s))) s.
Proof.
  intros Hs He Hv. pose proof (sim_emitted _ _ _ _ Hs). pose proof (sim_method_range _ _ _ _ Hs) as [? ?].
  unfold agrees. cbn [execute_operations execute_operation]. unfold bind at 1 2.
  rewrite (value_of_denotes v z) by done.
  unfold send, bind, get, guard. destruct (Z.eqb_spec (emitted_methods s) EMITTED_METHOD_LIMIT); [lia|]. cbn.
  rewrite (sim_method _ _ _ _ Hs).
  destruct (emit_method (host s) (c_method c) z) as [[err|[]] h]; cbn.
  - by eexists.
  - do 2 eexists. split; [reflexivity|]. split; [done|]. exists h.
    cbn [set_emitted set_host method_address method_increment].
    rewrite (sim_method _ _ _ _ Hs), (sim_increment _ _ _ _ Hs).
    unfold wrap. rewrite !Z.mod_small by lia. done.
Qed.

(** The states after the pieces of a result. *)
Lemma sim_fetched n e c s ops :
  sim n e c s ->
  sim n e (mkCompiler (c_registers c) (c_parameters c + 1) (c_method c) (c_increment c) ops)
    (set_next_parameter (c_parameters c + 1) s).
Proof. intros []. split; cbn; auto; lia. Qed.

Lemma land_method_range raw : 0 <= Z.land raw METHOD_DWORD_MASK <= 4095.
Proof. pose proof (land_range raw 12 ltac:(lia)) as Hr. change (Z.ones 12) with METHOD_DWORD_MASK in Hr. lia. Qed.

Lemma land_increment_range raw : 0 <= Z.land raw 63 <= 63.
Proof. pose proof (land_range raw 6 ltac:(lia)) as Hr. change (Z.ones 6) with 63 in Hr. lia. Qed.

Lemma sim_addressed n e c s raw ops :
  sim n e c s ->
  sim n e (mkCompiler (c_registers c) (c_parameters c) (Z.land raw METHOD_DWORD_MASK)
             (Z.land (shr raw 12) 63) ops)
    (set_method (Z.land raw METHOD_DWORD_MASK) (Z.land (shr raw 12) 63) s).
Proof. intros []. split; cbn; auto using land_method_range, land_increment_range. Qed.

Lemma sim_sent n e c s h ops :
  sim n e c s ->
  sim n (e + 1) (mkCompiler (c_registers c) (c_parameters c)
             (Z.land (wrap 16 (c_method c + c_increment c)) METHOD_DWORD_MASK) (c_increment c) ops)
    (set_method (Z.land (wrap 16 (c_method c + c_increment c)) METHOD_DWORD_MASK) (c_increment c)
       (set_emitted (emitted_methods s + 1) (set_host h s))).
Proof. intros []. split; cbn; auto; [|lia]. split; [apply land_method_range|tauto]. Qed.

Lemma sim_weaken n e c s ops :
  sim n e c s -> sim n (e + 1) (mkCompiler (c_registers c) (c_parameters c) (c_method c) (c_increment c) ops) s.
Proof. intros []. split; cbn; auto; lia. Qed.

(** A register write on both sides. *)
Lemma agrees_assign n e c s d v z l :
  sim n e c s -> 0 <= d < 8 -> denotes v z -> in_range 32 z -> assign_value (c_registers c) d v = Ok l ->
  exists s', set_register (E := E) d z s = (Ok tt, s') /\ host s' = host s /\ pc s' = pc s /\
    forall ops, sim n e (mkCompiler l (c_parameters c) (c_method c) (c_increment c) ops) s'.
Proof.
  intros Hs Hd Hv Hz. unfold assign_value, set_register. destruct (negb (d =? 0)).
  - destruct (c_registers c !! Z.to_nat d); [|done]. intros [= <-].
    unfold bind, get, debug_assert. rewrite bool_decide_eq_true_2
      by (apply lookup_lt_is_Some_2; rewrite (sim_length _ _ _ _ Hs); lia).
    eexists. split; [reflexivity|]. split; [done|]. split; [done|]. intros ops. destruct Hs.
    split; cbn; auto; [by apply Forall2_insert|by apply Forall_insert|by rewrite length_insert].
  - intros [= <-]. exists s. repeat split; try done; apply Hs.
Qed.

Lemma constant_of_denotes v z raw : denotes v z -> constant_of v = Ok raw -> raw = z.
Proof. destruct v; cbn; [|done]. intros -> [= ->]. done. Qed.

Lemma result_bind_inv {F A B} (r : Result F A) (k : A -> Result F B) b :
  result_bind r k = Ok b -> exists a, r = Ok a /\ k a = Ok b.
Proof. destruct r; cbn; [|done..]. eauto. Qed.

(** Composition of a silent method with the rest. *)
Lemma agrees_after {A B} ops (m : SM I (RunError E) A) (k : A -> SM I (RunError E) B) Q s a s' :
  m s = (Ok a, s') -> host s' = host s -> agrees ops (k a) Q s' -> agrees ops (bind m k) Q s.
Proof. intros Hm Hh Hk. apply (agrees_bind [] ops). by eapply agrees_silent. Qed.

Definition result_post n e c pc0 : unit -> I -> Prop := fun _ s => sim n e c s /\ pc s = pc0.

Lemma agrees_sent n e c s v z ops :
  sim n e c s -> e < EMITTED_METHOD_LIMIT -> denotes v z ->
  agrees [Send (c_method c) v] (send z)
    (result_post n (e + 1) (mkCompiler (c_registers c) (c_parameters c)
       (Z.land (wrap 16 (c_method c + c_increment c)) METHOD_DWORD_MASK) (c_increment c) ops) (pc s)) s.
Proof.
  intros Hs He Hv. eapply agrees_mono; [by eapply agrees_send|].
  intros [] s' [h ->]. split; [by apply sim_sent|done].
Qed.

(** The fetch of a parameter into a register, then the rest. *)
Lemma agrees_fetch_assign {B} n e c s d l ops (k : SM I (RunError E) B) Q :
  sim n e c s -> 0 <= d < 8 -> assign_value (c_registers c) d (ParameterAt (c_parameters c)) = Ok l ->
  (forall s', sim n e (mkCompiler l (c_parameters c + 1) (c_method c) (c_increment c) []) s' -> pc s' = pc s ->
     agrees ops k Q s') ->
  agrees (CheckParameter (c_parameters c) :: ops)
    (let! parameter := fetch_parameter parameters in do! set_register d parameter in k) Q s.
Proof.
  intros Hs Hd Hl Hk. apply (agrees_bind [CheckParameter (c_parameters c)] ops).
  eapply agrees_mono; [by eapply agrees_fetch|]. intros z s' (-> & Hz & Hr).
  pose proof (sim_fetched _ _ _ _ [] Hs) as Hs1.
  destruct (agrees_assign _ _ _ _ d _ z l Hs1 Hd Hz Hr Hl) as (s2 & Hset & Hh & Hpc & Hs2).
  eapply agrees_after; [done|done|]. apply Hk; [apply Hs2|done].
Qed.

(** A register write, then the rest. *)
Lemma agrees_assign_then {B} n e c s d v z l ops (k : SM I (RunError E) B) Q :
  sim n e c s -> 0 <= d < 8 -> denotes v z -> in_range 32 z -> assign_value (c_registers c) d v = Ok l ->
  (forall s', sim n e (mkCompiler l (c_parameters c) (c_method c) (c_increment c) []) s' -> pc s' = pc s ->
     agrees ops k Q s') ->
  agrees ops (do! set_register d z in k) Q s.
Proof.
  intros Hs Hd Hv Hz Hl Hk.
  destruct (agrees_assign _ _ _ _ d _ z l Hs Hd Hv Hz Hl) as (s2 & Hset & Hh & Hpc & Hs2).
  eapply agrees_after; [done|done|]. apply Hk; [apply Hs2|done].
Qed.

Lemma agrees_done n e c s ops :
  sim n e c s ->
  agrees [] (ret tt) (result_post n (e + 1) (mkCompiler (c_registers c) (c_parameters c) (c_method c)
    (c_increment c) ops) (pc s)) s.
Proof. intros Hs. eapply agrees_silent; [done|done|]. split; [by apply sim_weaken|done]. Qed.

Lemma bind_ret_unit {S E'} (m : SM S E' unit) s : (do! m in ret tt) s = m s.
Proof. unfold bind. by destruct (m s) as [[[]| |] ?]. Qed.

Lemma agrees_ext {A} ops (m m' : SM I (RunError E) A) Q s :
  m' s = m s -> agrees ops m' Q s -> agrees ops m Q s.
Proof. unfold agrees. by intros ->. Qed.

Lemma agrees_addressed {B} ops raw (k : SM I (RunError E) B) Q s :
  agrees ops k Q (set_method (Z.land raw METHOD_DWORD_MASK) (Z.land (shr raw 12) 63) s) ->
  agrees ops (do! set_method_address raw in k) Q s.
Proof. intros Hk. by eapply agrees_after. Qed.

Lemma result_agrees n e code d value z c c' s :
  sim n e c s -> e < EMITTED_METHOD_LIMIT -> 0 <= code < 8 -> 0 <= d < 8 ->
  denotes value z -> in_range 32 z -> compile_result code d value c = Ok c' ->
  exists ops, c_operations c' = c_operations c ++ ops /\
    agrees ops (process_result parameters code d z) (result_post n (e + 1) c' (pc s)) s.
Proof.
  intros Hs He Hcode Hd Hv Hz Hc.
  assert (code = 0 \/ code = 1 \/ code = 2 \/ code = 3 \/ code = 4 \/ code = 5 \/ code = 6 \/ code = 7) as Hk by lia.
  unfold compile_result in Hc. destruct_or! Hk; subst code; cbn in Hc;
  apply result_bind_inv in Hc as (l & Hl & Hc); cbn in Hc;
  try (apply result_bind_inv in Hc as (c3 & Hc3 & Hc); apply result_bind_inv in Hc3 as (raw & Hraw & Hc3);
       pose proof (constant_of_denotes _ _ _ Hv Hraw) as ->; injection Hc3 as <-; cbn in Hc);
  try (rewrite Hraw in Hc; cbn in Hc); injection Hc as <-; cbn [process_result c_operations compile_send].
  - exists [CheckParameter (c_parameters c)]. split; [done|].
    eapply agrees_ext; [apply bind_ext; intros; apply bind_ret_unit|].
    eapply agrees_fetch_assign; [done..|]. intros s' Hs' <-. by apply (agrees_done _ _ _ _ _ Hs').
  - exists []. split; [by rewrite app_nil_r|]. eapply agrees_ext; [apply bind_ret_unit|].
    eapply agrees_assign_then; [done..|]. intros s' Hs' <-. by apply (agrees_done _ _ _ _ _ Hs').
  - exists []. split; [by rewrite app_nil_r|].
    eapply agrees_assign_then; [done..|]. intros s' Hs' <-. eapply agrees_ext; [apply bind_ret_unit|].
    apply agrees_addressed. by apply (agrees_done _ _ _ _ _ (sim_addressed _ _ _ _ z [] Hs')).
  - exists [CheckParameter (c_parameters c); Send (c_method c) value]. split; [by rewrite <- app_assoc|].
    eapply agrees_fetch_assign; [done..|]. intros s' Hs' <-. by apply (agrees_sent _ _ _ _ _ _ _ Hs').
  - exists [Send (c_method c) value]. split; [done|].
    eapply agrees_assign_then; [done..|]. intros s' Hs' <-. by apply (agrees_sent _ _ _ _ _ _ _ Hs').
  - exists [CheckParameter (c_parameters c)]. split; [done|].
    eapply agrees_fetch_assign; [done..|]. intros s' Hs' <-. eapply agrees_ext; [apply bind_ret_unit|].
    apply agrees_addressed. by apply (agrees_done _ _ _ _ _ (sim_addressed _ _ _ _ z [] Hs')).
  - eexists [CheckParameter (c_parameters c); Send _ (ParameterAt (c_parameters c))].
    split; [by rewrite <- app_assoc|].
    eapply agrees_assign_then; [done..|]. intros s' Hs' <-. apply agrees_addressed.
    pose proof (sim_addressed _ _ _ _ z [] Hs') as Hs2.
    apply (agrees_bind [CheckParameter (c_parameters c)] [_]).
    eapply agrees_mono; [by eapply (agrees_fetch _ _ _ _ Hs2)|]. intros p s3 (-> & Hp & Hr).
    by apply (agrees_sent _ _ _ _ _ _ _ (sim_fetched _ _ _ _ [] Hs2)).
  - eexists [Send _ (Constant (Z.land (shr z 12) 63))]. split; [done|].
    eapply agrees_assign_then; [done..|]. intros s' Hs' <-. apply agrees_addressed.
    by apply (agrees_sent _ _ _ _ _ _ _ (sim_addressed _ _ _ _ z [] Hs')).
Qed.

(** The value of an instruction. *)
Lemma register_denotes n e c s r v :
  sim n e c s -> lookup_value (c_registers c) r = Ok v ->
  exists z, register (E := E) r s = (Ok z, s) /\ denotes v z /\ in_range 32 z.
Proof.
  intros Hs. unfold lookup_value. destruct (c_registers c !! Z.to_nat r) as [v'|] eqn:Hv; [|done]. intros [= ->].
  destruct (Forall2_lookup_l _ _ _ _ _ (sim_registers _ _ _ _ Hs) Hv) as (z & Hz & Hd).
  exists z. split; [|split; [done|by eapply (Forall_lookup_1 _ _ _ _ (sim_range _ _ _ _ Hs))]].
  unfold register, bind, get. by rewrite Hz.
Qed.

Lemma sim_carry n e c s b : sim n e c s -> sim n e c (set_carry b s).
Proof. by intros []. Qed.

(** The result of the operations a direct program may contain. *)
Definition alu_value (code a b : Z) : option Z :=
  match code with
  | 0 => Some (wrap 32 (a + b))
  | 2 => Some (wrap 32 (a - b))
  | 8 => Some (Z.lxor a b)
  | 9 => Some (Z.lor a b)
  | 10 => Some (Z.land a b)
  | 11 => Some (Z.land a (unot 32 b))
  | 12 => Some (unot 32 (Z.land a b))
  | _ => None
  end.

Ltac alu_cases code :=
  destruct code as [|code|code]; [|do 4 (try destruct code as [code|code|])|].

(** The ALU changes the carry, and nothing else. *)
Lemma alu_value_ok address code a b z (s : I) :
  alu_value code a b = Some z -> exists carry', alu (E := E) address code a b s = (Ok z, set_carry carry' s).
Proof.
  assert (set_carry (carry s) s = s) as Hc by (by destruct s).
  alu_cases code; cbn; try done; intros [= <-]; eexists; try reflexivity; by rewrite Hc.
Qed.

Lemma alu_value_range code a b z :
  in_range 32 a -> in_range 32 b -> alu_value code a b = Some z -> in_range 32 z.
Proof.
  intros Ha Hb. alu_cases code; cbn; try done; intros [= <-].
  all: first [ apply wrap_range; lia | apply in_range_lxor; [lia|done..] | apply in_range_lor; [lia|done..]
             | apply in_range_land; [lia|done|]; first [apply Hb|apply wrap_range; lia] ].
Qed.

Lemma is_constant_denotes k v z : denotes v z -> is_constant k v = true -> z = k.
Proof. destruct v; cbn; [|done]. intros <- Hk. by apply Z.eqb_eq in Hk. Qed.

Lemma one_of_elem l x : one_of l x = true -> x ∈ l.
Proof. unfold one_of. intros (y & Hy & ->%Z.eqb_eq)%existsb_exists. by apply list_elem_of_In. Qed.

(** The neutral operands. *)
Lemma alu_value_zero_l code b : code ∈ [0; 8; 9] -> in_range 32 b -> alu_value code 0 b = Some b.
Proof.
  intros Hc Hb. repeat setoid_rewrite elem_of_cons in Hc. destruct Hc as [->|[->|[->|[]%elem_of_nil]]]; [|done..].
  cbn. f_equal. by apply wrap_small.
Qed.

Lemma alu_value_zero_r code a : code ∈ [0; 2; 8; 9] -> in_range 32 a -> alu_value code a 0 = Some a.
Proof.
  intros Hc Ha. repeat setoid_rewrite elem_of_cons in Hc.
  destruct Hc as [->|[->|[->|[->|[]%elem_of_nil]]]]; cbn [alu_value]; f_equal.
  - rewrite Z.add_0_r. by apply wrap_small.
  - rewrite Z.sub_0_r. by apply wrap_small.
  - apply Z.lxor_0_r.
  - apply Z.lor_0_r.
Qed.

Lemma land_umax a : in_range 32 a -> Z.land a (umax 32) = a.
Proof.
  intros Ha. change (umax 32) with (Z.ones 32). rewrite land_ones_wrap by lia. by apply wrap_small.
Qed.

(** The arms of the match, in the terms of [alu_value]. *)
Lemma direct_alu_ok code va vb v a b :
  denotes va a -> denotes vb b -> in_range 32 a -> in_range 32 b -> direct_alu code va vb = Ok v ->
  exists z, alu_value code a b = Some z /\ denotes v z.
Proof.
  intros Ha Hb Ra Rb. unfold direct_alu.
  destruct (one_of [0; 8; 9] code && is_constant 0 va) eqn:H1.
  { apply andb_true_iff in H1 as [Hc%one_of_elem Hk]. pose proof (is_constant_denotes _ _ _ Ha Hk) as ->.
    intros [= <-]. exists b. split; [by apply alu_value_zero_l|done]. }
  destruct (one_of [0; 2; 8; 9] code && is_constant 0 vb) eqn:H2.
  { apply andb_true_iff in H2 as [Hc%one_of_elem Hk]. pose proof (is_constant_denotes _ _ _ Hb Hk) as ->.
    intros [= <-]. exists a. split; [by apply alu_value_zero_r|done]. }
  destruct ((code =? 10) && is_constant (umax 32) vb) eqn:H3.
  { apply andb_true_iff in H3 as [->%Z.eqb_eq Hk]. pose proof (is_constant_denotes _ _ _ Hb Hk) as ->.
    intros [= <-]. exists a. cbn [alu_value]. by rewrite land_umax. }
  destruct ((code =? 10) && is_constant (umax 32) va) eqn:H4.
  { apply andb_true_iff in H4 as [->%Z.eqb_eq Hk]. pose proof (is_constant_denotes _ _ _ Ha Hk) as ->.
    intros [= <-]. exists b. cbn [alu_value]. by rewrite Z.land_comm, land_umax. }
  destruct va as [ca|], vb as [cb|]; try done. cbn in Ha, Hb. subst ca cb.
  alu_cases code; try done; intros [= <-]; by eexists.
Qed.

Lemma compute_agrees n e c s address i a b v :
  sim n e c s -> lookup_value (c_registers c) (src_a i) = Ok a -> lookup_value (c_registers c) (src_b i) = Ok b ->
  direct_value i a b = Ok v ->
  exists z carry', compute (E := E) address i s = (Ok z, set_carry carry' s) /\ denotes v z /\ in_range 32 z.
Proof.
  intros Hs Ha Hb Hv.
  destruct (register_denotes _ _ _ _ _ _ Hs Ha) as (za & Hra & Hda & Hza).
  destruct (register_denotes _ _ _ _ _ _ Hs Hb) as (zb & Hrb & Hdb & Hzb).
  assert (set_carry (carry s) s = s) as Hc by (by destruct s).
  unfold compute, bind at 1 2. rewrite Hra, Hrb. unfold direct_value in Hv.
  destruct (operation i) as [|[|p|]|]; try done.
  - destruct (direct_alu_ok _ _ _ _ _ _ Hda Hdb Hza Hzb Hv) as (z & Hz & Hd).
    destruct (alu_value_ok address _ _ _ _ s Hz) as [carry' Halu].
    exists z, carry'. split; [done|]. split; [done|exact (alu_value_range _ _ _ _ Hza Hzb Hz)].
  - exists (wrap 32 (za + immediate i)), (carry s). rewrite Hc. split; [done|].
    split; [|apply wrap_range; lia]. destruct a as [ca|k].
    + injection Hv as <-. cbn in Hda |- *. by subst.
    + destruct (Z.eqb_spec (immediate i) 0) as [->|]; [|done]. injection Hv as <-.
      by rewrite Z.add_0_r, wrap_small.
Qed.

(** The body of a non-branch instruction. *)
Lemma instruction_agrees n e c c' s address i :
  sim n e c s -> e < EMITTED_METHOD_LIMIT -> instruction_ok i -> compile_instruction i c = Ok c' ->
  operation i <> 7 /\
  exists ops, c_operations c' = c_operations c ++ ops /\
    agrees ops (let! value := compute address i in process_result parameters (result i) (destination i) value)
      (result_post n (e + 1) c' (pc s)) s.
Proof.
  intros Hs He Hi Hc. unfold compile_instruction in Hc.
  apply result_bind_inv in Hc as (a & Ha & Hc). apply result_bind_inv in Hc as (b & Hb & Hc).
  apply result_bind_inv in Hc as (v & Hv & Hc). split.
  { intros H7. unfold direct_value in Hv. by rewrite H7 in Hv. }
  destruct (compute_agrees _ _ _ _ address _ _ _ _ Hs Ha Hb Hv) as (z & carry' & Hz & Hd & Hr).
  destruct (result_agrees n e (result i) (destination i) v z c c' (set_carry carry' s)) as (ops & Hops & Hag);
    [by apply sim_carry|done|apply Hi..|done|done|done|].
  exists ops. split; [done|]. by eapply agrees_after.
Qed.

Lemma load_page_sim n e c s :
  sim n e c s ->
  exists s', load_page (E := E) ram s = (Ok tt, s') /\ host s' = host s /\ pc s' = pc s /\
    instructions s' = n /\ window_at ram s' /\ sim n e c s'.
Proof.
  intros Hs. unfold load_page, bind, get. destruct (negb _ || _) eqn:Hc.
  - eexists. split; [reflexivity|]. repeat (split; [done || apply Hs|]). destruct Hs. split; cbn; auto.
    intros words. cbn. unfold page. destruct (pages ram !! _) as [p|]; cbn; [|done].
    intros [= <-]. by exists p.
  - exists s. repeat (split; [done || apply Hs|]). split; [|done].
    apply orb_false_iff in Hc as [Hp Hi].
    apply negb_false_iff, bool_decide_eq_true in Hp as [words Hw].
    apply negb_false_iff, Z.eqb_eq in Hi. unfold window_at, page. rewrite <- Hi, Hw.
    destruct (sim_window _ _ _ _ Hs words Hw) as (p & -> & ->). done.
Qed.

Lemma fetch_word (s : I) i :
  window_at ram s -> compile_word ram (pc s) = Ok i -> fetch (E := E) s = (Ok i, s) /\ instruction_ok i.
Proof.
  unfold window_at, compile_word, fetch, bind, get. intros ->.
  destruct (page ram (pc s)) as [p|] eqn:Hp; [|done]. cbn.
  destruct (page_decoded p !! _) as [[j|]|] eqn:Hj; [|done..]. intros [= ->]. split; [done|].
  eapply page_decoded_instruction; [|done]. by apply (ram_wf _ _ Hp).
Qed.

Lemma sim_advance n e c s next :
  sim n e c s -> sim (n + 1) e c (set_pc next (set_instructions (n + 1) s)).
Proof. by intros []. Qed.

(** One compiled instruction is one step. *)
Lemma step_agrees n e c c' s i next again is_delay_slot :
  sim n e c s -> n < EXECUTION_INSTRUCTION_LIMIT -> e < EMITTED_METHOD_LIMIT ->
  compile_word ram (pc s) = Ok i -> checked_add 32 (pc s) 1 = Some next -> compile_instruction i c = Ok c' ->
  exists ops, c_operations c' = c_operations c ++ ops /\
    forall ops' Q,
    (forall s', sim (n + 1) (e + 1) c' s' -> pc s' = next ->
       agrees ops' (if exit i && negb is_delay_slot then do! again in ret false else ret true) Q s') ->
    agrees (ops ++ ops') (step_body ram parameters again is_delay_slot) Q s.
Proof.
  intros Hs Hn He Hw Hnext Hc.
  destruct (load_page_sim _ _ _ _ Hs) as (s1 & Hload & Hh1 & Hpc1 & Hin1 & Hwin & Hs1).
  rewrite <- Hpc1 in Hw. destruct (fetch_word s1 i Hwin Hw) as [Hfetch Hi].
  set (s2 := set_pc next (set_instructions (n + 1) s1)).
  assert (sim (n + 1) e c s2) as Hs2 by (by apply sim_advance).
  destruct (instruction_agrees _ _ _ _ _ (pc s) i Hs2 He Hi Hc) as (H7 & ops & Hops & Hag).
  exists ops. split; [done|]. intros ops' Q HQ.
  pose (tail := let! value := compute (pc s) i in
    do! process_result parameters (result i) (destination i) value in
    if exit i && negb is_delay_slot then do! again in ret false else ret true).
  assert (step_body ram parameters again is_delay_slot s = tail s2) as Hstep.
  { unfold step_body, bind at 1 2, get at 1, guard. rewrite (sim_instructions _ _ _ _ Hs).
    destruct (Z.eqb_spec n EXECUTION_INSTRUCTION_LIMIT); [lia|]. unfold ret at 1.
    unfold bind at 1. rewrite Hload. unfold bind at 1. rewrite Hfetch. unfold bind at 1, modify at 1.
    unfold bind at 1. rewrite Hnext. unfold ok_or at 1, ret at 1. unfold bind at 1, modify at 1.
    cbn [set_instructions delayed_pc]. rewrite (sim_delayed _ _ _ _ Hs1).
    destruct (Z.eqb_spec (operation i) 7); [done|]. unfold tail, bind.
    change (set_pc next (set_instructions (n + 1) s1)) with s2.
    destruct (compute (pc s) i s2) as [[] ?]; [|done..].
    by destruct (process_result _ _ _ _ _) as [[] ?]. }
  unfold agrees. rewrite Hstep. replace (host s) with (host s2) by (subst s2; cbn; done).
  change (agrees (ops ++ ops') tail Q s2).
  apply (agrees_ext _ _ (do! (let! value := compute (pc s) i in
    process_result parameters (result i) (destination i) value) in
    if exit i && negb is_delay_slot then do! again in ret false else ret true)).
  { unfold tail, bind. by destruct (compute (pc s) i s2) as [[] ?]. }
  apply agrees_bind. eapply agrees_mono; [done|]. intros [] s' [Hs' Hpc']. by apply HQ.
Qed.

(** Operations are only appended. *)
Lemma compile_result_extends code d v c c' :
  compile_result code d v c = Ok c' -> c_operations c `prefix_of` c_operations c'.
Proof.
  unfold compile_result. destruct (compile_fetch code c) as [fetched c1] eqn:Hf.
  assert (c_operations c `prefix_of` c_operations c1) as H1.
  { unfold compile_fetch in Hf. case_match; injection Hf as _ <-; [by apply prefix_app_r|done]. }
  intros (l & _ & Hc)%result_bind_inv. apply result_bind_inv in Hc as (c3 & Hc3 & Hc).
  apply result_bind_inv in Hc as (sent & _ & Hc). injection Hc as <-.
  assert (c_operations c3 = c_operations c1) as H3.
  { unfold compile_method in Hc3. case_match; [|by injection Hc3 as <-].
    apply result_bind_inv in Hc3 as (raw & _ & Hraw). by injection Hraw as <-. }
  destruct sent; cbn; rewrite H3; [by apply prefix_app_r|done].
Qed.

Lemma compile_instruction_extends i c c' :
  compile_instruction i c = Ok c' -> c_operations c `prefix_of` c_operations c'.
Proof.
  intros (a & _ & Hc)%result_bind_inv. apply result_bind_inv in Hc as (b & _ & Hc).
  apply result_bind_inv in Hc as (v & _ & Hc). by eapply compile_result_extends.
Qed.

(** One turn of a successful compilation. *)
Lemma compile_loop_inv turns pc0 delay c prog :
  compile_loop ram turns pc0 delay c = Ok prog ->
  exists turns' i next c', turns = S turns' /\ compile_word ram pc0 = Ok i /\ checked_add 32 pc0 1 = Some next /\
    compile_instruction i c = Ok c' /\
    if delay then prog = mkDirect (c_operations c') (c_parameters c')
    else compile_loop ram turns' next (exit i) c' = Ok prog.
Proof.
  destruct turns as [|turns]; [done|]. cbn [compile_loop].
  intros (i & Hi & Hc)%result_bind_inv. destruct (checked_add 32 pc0 1) as [next|] eqn:Hn; [|done].
  apply result_bind_inv in Hc as (c' & Hc' & Hc). exists turns, i, next, c'. repeat split; [done..|].
  destruct delay; [by injection Hc as <-|done].
Qed.

Lemma compile_loop_extends turns pc0 delay c prog :
  compile_loop ram turns pc0 delay c = Ok prog -> c_operations c `prefix_of` operations prog.
Proof.
  revert pc0 delay c. induction turns as [|turns IH]; intros pc0 delay c Hc; [done|].
  apply compile_loop_inv in Hc as (t & i & next & c' & [= <-] & _ & _ & Hc' & Hrest).
  apply compile_instruction_extends in Hc'. destruct delay; [by subst prog|].
  etrans; [done|by eapply IH].
Qed.

(** The rest of the program, from a state the compiler describes. *)
Lemma loop_agrees turns n e c s prog fuel ops :
  sim n e c s -> compile_loop ram turns (pc s) false c = Ok prog ->
  n + Z.of_nat turns <= 256 -> e + Z.of_nat turns <= 256 -> (turns <= fuel)%nat ->
  operations prog = c_operations c ++ ops ->
  match execute_operations parameters ops (host s) with
  | (Ok _, h) => exists s', run ram parameters fuel s = Some (Ok tt, s') /\ host s' = h /\
                   next_parameter s' = program_parameters prog
  | (Err err, h) => exists s', run ram parameters fuel s = Some (Err err, s') /\ host s' = h
  | (Panic, _) => False
  end.
Proof.
  revert n e c s fuel ops. induction turns as [|turns IH]; intros n e c s fuel ops Hs Hc Hn He Hf Hops; [done|].
  apply compile_loop_inv in Hc as (t & i & next & c1 & [= <-] & Hw & Hnext & Hc1 & Hrest).
  destruct fuel as [|fuel]; [lia|]. cbn [run].
  assert (n < EXECUTION_INSTRUCTION_LIMIT /\ e < EMITTED_METHOD_LIMIT) as [Hn' He']
    by (unfold EXECUTION_INSTRUCTION_LIMIT, EMITTED_METHOD_LIMIT; lia).
  destruct (step_agrees _ _ _ _ _ _ _ (delay_step ram parameters) false Hs Hn' He' Hw Hnext Hc1)
    as (ops1 & Hops1 & Hstep).
  destruct (exit i) eqn:Hexit.
  - (* the exit instruction and its delay slot *)
    apply compile_loop_inv in Hrest as (t' & i2 & next2 & c2 & -> & Hw2 & Hnext2 & Hc2 & ->).
    cbn [operations program_parameters] in Hops |- *.
    destruct (compile_instruction_extends _ _ _ Hc2) as [ops2 Hops2].
    assert (ops = ops1 ++ ops2) as -> by (rewrite Hops2, Hops1, <- app_assoc in Hops; by simplify_list_eq).
    assert (agrees (ops1 ++ ops2) (step ram parameters)
      (fun b s' => b = false /\ sim (n + 2) (e + 2) c2 s') s) as Hag.
    { apply Hstep. intros s1 Hs1 <-. cbn [andb negb].
      rewrite <- (app_nil_r ops2). apply agrees_bind.
      assert (n + 1 < EXECUTION_INSTRUCTION_LIMIT /\ e + 1 < EMITTED_METHOD_LIMIT) as [Hn1 He1]
        by (unfold EXECUTION_INSTRUCTION_LIMIT, EMITTED_METHOD_LIMIT; lia).
      destruct (step_agrees _ _ _ _ _ _ _ panic true Hs1 Hn1 He1 Hw2 Hnext2 Hc2) as (ops2' & Hops2' & Hstep2).
      assert (ops2' = ops2) as -> by (rewrite Hops2' in Hops2; by simplify_list_eq).
      rewrite <- (app_nil_r ops2). apply Hstep2. intros s2 Hs2 _. rewrite andb_false_r.
      eapply agrees_silent; [done|done|]. eapply agrees_silent; [done|done|].
      replace (n + 2) with (n + 1 + 1) by lia. by replace (e + 2) with (e + 1 + 1) by lia. }
    unfold agrees in Hag. destruct (execute_operations _ _ _) as [[] h].
    + destruct Hag as (b & s' & -> & <- & -> & Hs'). exists s'. by rewrite (sim_next _ _ _ _ Hs').
    + destruct Hag as (s' & -> & <-). by exists s'.
    + done.
  - (* an ordinary instruction *)
    destruct (compile_loop_extends _ _ _ _ _ Hrest) as [ops2 Hops2].
    assert (ops = ops1 ++ ops2) as -> by (rewrite Hops2, Hops1, <- app_assoc in Hops; by simplify_list_eq).
    rewrite execute_operations_app. unfold bind.
    assert (agrees ops1 (step ram parameters) (fun b s' => b = true /\ sim (n + 1) (e + 1) c1 s' /\ pc s' = next) s)
      as Hag.
    { rewrite <- (app_nil_r ops1). apply Hstep. intros s1 Hs1 Hpc. by eapply agrees_silent. }
    unfold agrees in Hag. destruct (execute_operations _ ops1 _) as [[] h].
    + destruct Hag as (b & s' & -> & <- & -> & Hs' & Hpc'). rewrite <- Hpc' in Hrest.
      apply (IH (n + 1) (e + 1) c1); [done|done|lia|lia|lia|done].
    + destruct Hag as (s' & -> & <-). by exists s'.
    + done.
Qed.
End Simulation.

Lemma sim_initial {H E} `{MmeHost H E} ram first rest start (h : H) :
  Forall (in_range 32) (first :: rest) ->
  sim ram (first :: rest) 0 0 compiler_new (interpreter_new start first h).
Proof.
  intros [Hf _]%Forall_cons. split; cbn; try done; try lia.
  - repeat (apply Forall2_cons; split; [done|]). apply Forall2_nil. done.
  - repeat (apply Forall_cons; split; [done || (unfold in_range; lia)|]). by apply Forall_nil.
Qed.

Lemma direct_interprets {H E} `{MmeHost H E} r start first rest program (h : H) :
  ram_ok r -> Forall (in_range 32) (first :: rest) -> compile r start = Ok program ->
  interpret r (first :: rest) start first h = Some (direct_execute (first :: rest) program h).
Proof.
  intros Hr Hu32 Hcompile.
  pose proof (loop_agrees r (first :: rest) Hr Hu32 256 0 0 compiler_new
    (interpreter_new start first h) program run_fuel (operations program)
    (sim_initial _ _ _ _ _ Hu32) Hcompile ltac:(lia) ltac:(lia)) as Hloop.
  specialize (Hloop ltac:(unfold run_fuel, EXECUTION_INSTRUCTION_LIMIT; lia) eq_refl).
  unfold interpret, direct_execute, bind. cbn [interpreter_new host] in Hloop.
  destruct (execute_operations _ _ h) as [[[]|e|] h']; [| |done].
  - destruct Hloop as (s & -> & <- & ->). unfold guard. rewrite Z.eqb_sym. by case_match.
  - by destruct Hloop as (s & -> & <-).
Qed.

(** C28. A direct program does exactly what the interpreter does.  Whenever
    [compile] accepts the macro at an address, for every host and every nonempty
    list of 32-bit parameters, executing the compiled operations and running the
    instruction set give the same result, the same error after the same
    methods (a parameter missing in the middle, a host failure, parameters left
    over) and the same final host. *)
Theorem direct_matches_interpreter {H E} `{MmeHost H E} (r : Ram) (m : gmap Z (Register Z))
    (Hr : ram_refines r m) (start first : Z) (rest : list Z)
    (Hu32 : Forall (in_range 32) (first :: rest)) (program : DirectProgram)
    (Hcompile : compile r start = Ok program) (h : H) :
  interpret r (first :: rest) start first h = Some (direct_execute (first :: rest) program h).
Proof. apply direct_interprets; [apply (refines_pages _ _ Hr)|done..]. Qed.

Lemma direct_matches_interpreter_witness :
  interpret (load_words 0 [0x07ff8021; 0x00000931; 0x000009b1; 0x00000841]) [5; 6; 7] 0 5 (mkLog [] (Some 1)) =
  Some (Err (Host 23), mkLog [(4094, 5)] (Some 1)).
Proof.
  destruct (load_words_refines 0 [0x07ff8021; 0x00000931; 0x000009b1; 0x00000841]) as [m Hm].
  assert (Forall (in_range 32) [5; 6; 7]) as Hu32 by (repeat (apply Forall_cons; split; [unfold in_range; lia|]); by apply Forall_nil).
  rewrite (direct_matches_interpreter _ m Hm 0 5 [6; 7] Hu32
    (mkDirect [CheckParameter 1; Send 4094 (ParameterAt 0); CheckParameter 2; Send 4095 (ParameterAt 1);
               Send 0 (ParameterAt 2)] 3)); vm_compute; reflexivity.
Defined.

(** What the tests of the source check: the compiled operations of a macro, and
    programs that are left to the interpreter. *)
Example compiled_and_refused :
  compile (load_words 0 [0x07ff8021; 0x00000931; 0x000009b1; 0x00000841]) 0 =
    Ok (mkDirect [CheckParameter 1; Send 4094 (ParameterAt 0); CheckParameter 2; Send 4095 (ParameterAt 1);
                  Send 0 (ParameterAt 2)] 3) /\
  map (fun words => compile (load_words 0 words) 0)
    [[0x91]; [7; 0x91; 0x11]; [5 + 2 ^ 7; 0x11]; [2 ^ 17 + 2 ^ 7; 0x11]] = replicate 4 (Err tt).
Proof. split; vm_compute; reflexivity. Qed.
