(* ===== verification/GpuMmeState.v ===== *)
(** * The macro state of a channel (crates/gpu-maxwell/src/engines/threed/mme.rs, state.rs, mod.rs)

    The program memory is behind an [Arc]: a program that runs keeps the memory
    it was taken from while the channel loads new words, and the compiled
    direct programs are cached inside the shared memory.  The model keeps the
    shared cells in a store; the strong count of a cell is the number of its
    holders.  The theorem is that neither the sharing nor the cache is visible:
    the state behaves as if every program had its own copy of the memory and
    were interpreted. *)

From S2P Require Import Prelude GpuPacket GpuMme GpuMmeDirect.

(** ** The raw register file (engines/threed/state.rs) *)

Record RegisterFile := mkFile {
  file_values : list Z;
  file_valid : list Z;
  file_sources : list (option MethodSource);
}.

Definition file_default : RegisterFile :=
  mkFile (replicate 4096 0) (replicate 64 0) (replicate 4096 None).

(** [MaxwellThreeDRawRegisterFile::raw] *)
Definition file_raw (f : RegisterFile) (method : Z) : option Z :=
  if negb (method mod 4 =? 0) then None
  else
    let index := method / 4 in
    if (index <? Z.of_nat (length (file_values f)))
       && bit_set (default 0 (file_valid f !! Z.to_nat (index / 64))) (2 ^ (index mod 64))
    then file_values f !! Z.to_nat index else None.

Definition file_inspect (f : RegisterFile) (method : Z) : option (Register Z) :=
  match file_raw f method with
  | None => None
  | Some value =>
      Some (match default None (file_sources f !! Z.to_nat (method / 4)) with
            | Some source => programmed value value source
            | None => verified_reset value (Some value)
            end)
  end.

(** The three assignments shared by [set_reset] and [write]; an index outside
    the file panics. *)
Definition file_store (f : RegisterFile) (method value : Z) (source : option MethodSource) : Result unit RegisterFile :=
  let index := Z.to_nat (method / 4) in
  if bool_decide (is_Some (file_values f !! index)) then
    Ok (mkFile (<[index := value]> (file_values f))
          (alter (fun word => Z.lor word (2 ^ ((method / 4) mod 64))) (Z.to_nat (method / 4 / 64)) (file_valid f))
          (<[index := source]> (file_sources f)))
  else Panic.

Definition file_set_reset (f : RegisterFile) (method value : Z) : Result unit RegisterFile :=
  file_store f method value None.
Definition file_write (f : RegisterFile) (method value : Z) (source : MethodSource) : Result unit RegisterFile :=
  file_store f method value (Some source).

(** [lo..=hi] *)
Definition between (lo hi x : Z) : bool := (lo <=? x) && (x <=? hi).
Definition aligned (k x : Z) : bool := x mod k =? 0.

(** The reset table, its arms in order. *)
Definition verified_raw_register_reset (raw : Z) : option Z :=
  if one_of [0x1208; 0x15b8] raw then Some 0
  else if between 0x3400 0x35fc raw && aligned 4 raw then Some 0
  else if between 0x0c00 0x0cff raw && ((raw - 0x0c00) mod 0x10 =? 8) then Some 0
  else if between 0x0c00 0x0cff raw && ((raw - 0x0c00) mod 0x10 =? 12) then Some 0x3f800000
  else if (0x1e00 <=? raw) && (raw <? 0x1e00 + 8 * 0x20) && aligned 0x20 (raw - 0x1e00) then Some 1
  else if raw =? 0x133c then Some 1
  else if raw =? 0x135c then Some 0
  else if raw =? 0x192c then Some 1
  else if raw =? 0x193c then Some 0x2c1c
  else if raw =? 0x0d7c then Some 0
  else if raw =? 0x121c then Some 0x0fac6881
  else if raw =? 0x1538 then Some 1
  else if one_of [0x0210; 0x0744; 0x0dc8; 0x0dd0; 0x0e00; 0x0f1c; 0x0f40; 0x0fb4; 0x0ff4; 0x0ff8;
                  0x1148; 0x11f8; 0x1224; 0x12cc; 0x12ec; 0x1380; 0x1534; 0x153c; 0x15d0;
                  0x1944; 0x19bc; 0x19c4] raw then Some 0
  else if one_of [0x037c; 0x0754] raw then Some 1
  else if raw =? 0x0a18 then Some 0x6420
  else if one_of [0x0d68; 0x0fbc; 0x0fc0; 0x0fc4; 0x0fc8] raw then Some 0xffff
  else if one_of [0x11e0; 0x11e4; 0x11e8; 0x11ec] raw then Some 0x88888888
  else if between 0x0c00 0x0cff raw && ((raw - 0x0c00) mod 0x10 <? 8) && aligned 4 raw then Some 0
  else if between 0x0800 0x09ff raw && aligned 4 raw then
    let register := (raw - 0x0800) mod 0x40 in
    if one_of [0; 4; 0x1c; 0x20] register then Some 0
    else if register =? 8 then Some 0x400
    else if register =? 0x0c then Some 0x300
    else if register =? 0x10 then Some (if raw =? 0x0810 then 0xcf else 0)
    else if register =? 0x14 then Some 0x40
    else if register =? 0x18 then Some 1
    else None
  else if raw =? 0x1918 then Some 0
  else if raw =? 0x191c then Some 0x900
  else if raw =? 0x1920 then Some 0x405
  else if raw =? 0x1a00 then Some 0x1111
  else if between 0x1360 0x137c raw && aligned 4 raw then Some 0
  else if between 0x1a04 0x1a1c raw && aligned 4 raw then Some 0
  else if one_of [0x0f8c; 0x166c] raw then Some 0
  else if one_of [0x0dac; 0x0db0] raw then Some 0x1b02
  else if raw =? 0x13ac then Some 0
  else if raw =? 0x179c then Some 0
  else if (0x19e0 <=? raw) && (raw <? 0x19e0 + 8 * 4) && aligned 4 (raw - 0x19e0) then Some 0
  else if (0x0800 <=? raw) && (raw <? 0x0800 + 8 * 0x40) then
    if (raw - 0x0800) mod 0x40 =? 0x20 then Some 0 else None
  else if 0x2000 <=? raw then
    let offset := raw - 0x2000 in
    let pipeline := offset / 0x40 in
    let register := offset mod 0x40 in
    if pipeline <? 6 then
      if register =? 0 then [0; 0x11; 0x20; 0x30; 0x40; 0x51] !! Z.to_nat pipeline
      else if register =? 0x10 then [0; 0; 1; 2; 3; 4] !! Z.to_nat pipeline
      else None
    else None
  else None.

(** ** The state *)

Inductive ShadowRamControl := MethodTrack | MethodTrackWithFilter | MethodPassthrough | MethodReplay.

#[export] Instance ShadowRamControl_eq_dec : EqDecision ShadowRamControl.
Proof. solve_decision. Defined.

Definition shadow_control_parse (raw : Z) : option ShadowRamControl :=
  match raw with
  | 0 => Some MethodTrack
  | 1 => Some MethodTrackWithFilter
  | 2 => Some MethodPassthrough
  | 3 => Some MethodReplay
  | _ => None
  end.

Definition shadow_control_raw (c : ShadowRamControl) : Z :=
  match c with MethodTrack => 0 | MethodTrackWithFilter => 1 | MethodPassthrough => 2 | MethodReplay => 3 end.

Definition tracks (c : ShadowRamControl) : bool :=
  match c with MethodTrack | MethodTrackWithFilter => true | _ => false end.

Inductive MutableMethodControl := Lightweight | Heavyweight.

Definition mutable_control_parse (raw : Z) : option MutableMethodControl :=
  match raw with 0 => Some Lightweight | 1 => Some Heavyweight | _ => None end.

Definition treats_mutable_as_heavyweight (c : MutableMethodControl) : bool :=
  match c with Heavyweight => true | Lightweight => false end.

Definition mutable_control_raw (c : MutableMethodControl) : Z := b2z (treats_mutable_as_heavyweight c).

Definition CellId := Z.

(** [MaxwellThreeDMmeState]; the start addresses are behind an [Arc] that is
    only written through [Arc::make_mut], so they are a value. *)
Record MmeState := mkMme {
  instruction_pointer : Register Z;
  next_instruction_address : option Z;
  instructions_arc : CellId;
  start_address_pointer : Register Z;
  next_start_address_index : option Z;
  start_addresses : gmap Z (Register Z);
  shadow_ram_control : Register ShadowRamControl;
  mutable_method_control : Register MutableMethodControl;
  shadow_registers : RegisterFile;
  shadow_scratch : gmap Z (Register Z);
}.

(** An [MmeInstructionRam]: the words, and per macro the [OnceLock] of its direct
    program. *)
Record Cell := mkCell {
  cell_ram : Ram;
  cell_programs : list (option (option DirectProgram));
}.

Definition fresh_programs : list (option (option DirectProgram)) := replicate 256 None.

(** [MaxwellThreeDMmeProgram] *)
Record Program := mkProgram {
  program_arc : CellId;
  program_starts : gmap Z (Register Z);
}.

(** The channel's state, the programs taken from it and the shared memories. *)
Record World := mkWorld {
  cells : gmap CellId Cell;
  next_cell : CellId;
  mme : MmeState;
  programs : gmap Z Program;
}.

Definition world_new : World :=
  mkWorld {[ 0 := mkCell ram_default fresh_programs ]} 1
    (mkMme register_default None 0 register_default None ∅
       (verified_reset (shadow_control_raw MethodTrack) (Some MethodTrack)) register_default file_default ∅) ∅.

Definition set_mme (f : MmeState -> MmeState) (w : World) : World :=
  mkWorld (cells w) (next_cell w) (f (mme w)) (programs w).

Definition with_arc (c : CellId) (s : MmeState) : MmeState :=
  mkMme (instruction_pointer s) (next_instruction_address s) c (start_address_pointer s)
    (next_start_address_index s) (start_addresses s) (shadow_ram_control s) (mutable_method_control s)
    (shadow_registers s) (shadow_scratch s).
Definition with_instruction (pointer : Register Z) (address : option Z) (s : MmeState) : MmeState :=
  mkMme pointer address (instructions_arc s) (start_address_pointer s)
    (next_start_address_index s) (start_addresses s) (shadow_ram_control s) (mutable_method_control s)
    (shadow_registers s) (shadow_scratch s).
Definition with_start (pointer : Register Z) (index : option Z) (starts : gmap Z (Register Z)) (s : MmeState) : MmeState :=
  mkMme (instruction_pointer s) (next_instruction_address s) (instructions_arc s) pointer index starts
    (shadow_ram_control s) (mutable_method_control s) (shadow_registers s) (shadow_scratch s).
Definition with_controls (shadow : Register ShadowRamControl) (mutable : Register MutableMethodControl) (s : MmeState) : MmeState :=
  mkMme (instruction_pointer s) (next_instruction_address s) (instructions_arc s) (start_address_pointer s)
    (next_start_address_index s) (start_addresses s) shadow mutable (shadow_registers s) (shadow_scratch s).
Definition with_shadow (file : RegisterFile) (scratch : gmap Z (Register Z)) (s : MmeState) : MmeState :=
  mkMme (instruction_pointer s) (next_instruction_address s) (instructions_arc s) (start_address_pointer s)
    (next_start_address_index s) (start_addresses s) (shadow_ram_control s) (mutable_method_control s) file scratch.

(** [Arc::strong_count]: the state, and the programs that hold the cell. *)
Definition strong_count (w : World) (c : CellId) : nat :=
  ((if decide (instructions_arc (mme w) = c) then 1 else 0)
   + size (filter (fun p : Z * Program => program_arc p.2 = c) (programs w)))%nat.

Notation M := (SM World Empty_set).

(** [Arc::make_mut(&mut self.instructions)]: in place when the state is the only
    holder, otherwise on a clone, whose programs are fresh
    ([MmeInstructionRam::clone]). *)
Definition make_mut (f : Cell -> Cell) : M unit :=
  let! w := get in
  let c := instructions_arc (mme w) in
  let! cell := expect (cells w !! c) in
  if decide (strong_count w c = 1%nat) then
    modify (fun w => mkWorld (<[c := f cell]> (cells w)) (next_cell w) (mme w) (programs w))
  else
    modify (fun w => mkWorld (<[next_cell w := f (mkCell (cell_ram cell) fresh_programs)]> (cells w))
                       (next_cell w + 1) (with_arc (next_cell w) (mme w)) (programs w)).

Inductive StateWrite : Type :=
| InstructionPointer (value : Z) (source : MethodSource)
| Instruction (address value : Z) (source : MethodSource)
| StartAddressPointer (value : Z) (source : MethodSource)
| StartAddress (index address : Z) (source : MethodSource)
| WriteShadowRamControl (value : ShadowRamControl) (source : MethodSource)
| WriteMutableMethodControl (value : MutableMethodControl) (source : MethodSource)
| ShadowScratch (index value : Z) (source : MethodSource).

(** [MmeInstructionRam::insert]: the pages, and every compiled program taken. *)
Definition cell_insert (address : Z) (register : Register Z) (cell : Cell) : Cell :=
  mkCell (ram_insert (cell_ram cell) address register) (map (fun _ => None) (cell_programs cell)).

(** [programs.get_mut(index)] and [take] *)
Definition cell_take (index : Z) (cell : Cell) : Cell :=
  mkCell (cell_ram cell) (<[Z.to_nat index := None]> (cell_programs cell)).

(** [MaxwellThreeDMmeState::apply] *)
Definition apply (write : StateWrite) : M unit :=
  match write with
  | InstructionPointer value source =>
      modify (set_mme (fun s => with_instruction (programmed value value source) (Some value) s))
  | Instruction address value source =>
      do! make_mut (cell_insert address (programmed value value source)) in
      let! next := expect (checked_add 32 address 1) in
      modify (set_mme (fun s => with_instruction (instruction_pointer s) (Some next) s))
  | StartAddressPointer value source =>
      modify (set_mme (fun s => with_start (programmed value value source) (Some value) (start_addresses s) s))
  | StartAddress index address source =>
      do! make_mut (cell_take index) in
      do! modify (set_mme (fun s => with_start (start_address_pointer s) (next_start_address_index s)
                     (<[index := programmed address address source]> (start_addresses s)) s)) in
      let! next := expect (checked_add 32 index 1) in
      modify (set_mme (fun s => with_start (start_address_pointer s) (Some next) (start_addresses s) s))
  | WriteShadowRamControl value source =>
      modify (set_mme (fun s => with_controls (programmed (shadow_control_raw value) value source)
                                  (mutable_method_control s) s))
  | WriteMutableMethodControl value source =>
      modify (set_mme (fun s => with_controls (shadow_ram_control s)
                                  (programmed (mutable_control_raw value) value source) s))
  | ShadowScratch index value source =>
      modify (set_mme (fun s => with_shadow (shadow_registers s)
                                  (<[index := programmed value value source]> (shadow_scratch s)) s))
  end.

(** ** Loads (engines/threed/mod.rs, [preflight_mme_state]) *)

Definition CAPTURED_INSTRUCTION_WORDS : Z := 4096.
Definition CAPTURED_START_ADDRESSES : Z := 256.

Inductive MmeRam := InstructionRam | StartAddressRam.
Inductive LoadError :=
| PointerUnset
| PointerOverflow
| StorageLimitExceeded (limit : Z).
Inductive RamLoadError := MmeRamLoad (source : MethodSource) (ram : MmeRam) (error : LoadError).

(** A load of one of the two memories at its next address. *)
Definition preflight_load (source : MethodSource) (ram : MmeRam) (next : option Z) (present : Z -> bool) (count limit : Z)
  (write : Z -> StateWrite) : Result RamLoadError StateWrite :=
  match next with
  | None => Err (MmeRamLoad source ram PointerUnset)
  | Some address =>
      if address =? umax 32 then Err (MmeRamLoad source ram PointerOverflow)
      else if negb (present address) && (limit <=? count)
      then Err (MmeRamLoad source ram (StorageLimitExceeded limit))
      else Ok (write address)
  end.

(** [preflight_mme_state]; [None] when the method is not one of the MME's. *)
Definition preflight_mme_state (source : MethodSource) (w : World) : Result RamLoadError (option StateWrite) :=
  let method := source_method source in
  let argument := source_argument source in
  let s := mme w in
  if (0x3400 <=? method) && (method <? 0x3800)
  then Ok (Some (ShadowScratch (wrap 8 ((method - 0x3400) / 4)) argument source))
  else if method =? 0x0114 then Ok (Some (InstructionPointer argument source))
  else if method =? 0x0118 then
    match cells w !! instructions_arc s with
    | None => Panic
    | Some cell =>
        let? write := preflight_load source InstructionRam (next_instruction_address s)
          (fun address => bool_decide (is_Some (ram_get (cell_ram cell) address)))
          (ram_len (cell_ram cell)) CAPTURED_INSTRUCTION_WORDS
          (fun address => Instruction address argument source) in
        Ok (Some write)
    end
  else if method =? 0x011c then Ok (Some (StartAddressPointer argument source))
  else if method =? 0x0120 then
    let? write := preflight_load source StartAddressRam (next_start_address_index s)
      (fun index => bool_decide (is_Some (start_addresses s !! index)))
      (Z.of_nat (size (start_addresses s))) CAPTURED_START_ADDRESSES
      (fun index => StartAddress index argument source) in
    Ok (Some write)
  else Ok None.

(** ** Shadow registers *)

Inductive ShadowRamError := ReplayRegisterUnavailable (method_dword : Z).

Definition resolve_shadow_argument (s : MmeState) (method submitted_argument : Z) : Result ShadowRamError Z :=
  if (method =? 0x0124) || negb (bool_decide (reg_value (shadow_ram_control s) = Some MethodReplay))
  then Ok submitted_argument
  else
    match file_raw (shadow_registers s) method with
    | Some value => Ok value
    | None =>
        match verified_raw_register_reset method with
        | Some value => Ok value
        | None => Err (ReplayRegisterUnavailable (wrap 16 (method / 4)))
        end
    end.

Definition track_shadow_register (control : option ShadowRamControl) (source : MethodSource) : M unit :=
  match control with
  | Some c =>
      if tracks c then
        let! w := get in
        let! file := expect_ok (file_write (shadow_registers (mme w)) (source_method source)
                                  (source_argument source) source) in
        modify (set_mme (fun s => with_shadow file (shadow_scratch s) s))
      else ret tt
  | None => ret tt
  end.

(** ** Programs *)

(** [MaxwellThreeDMmeState::program], kept under a number. *)
Definition take_program (id : Z) : M unit :=
  modify (fun w => mkWorld (cells w) (next_cell w) (mme w)
    (<[id := mkProgram (instructions_arc (mme w)) (start_addresses (mme w))]> (programs w))).

Definition drop_program (id : Z) : M unit :=
  modify (fun w => mkWorld (cells w) (next_cell w) (mme w) (delete id (programs w))).

(** [programs[macro_index].get_or_init(..)]: the compiled program, and the cell
    with the cache filled. *)
Definition get_or_init (p : Program) (macro_index start : Z) : M (option DirectProgram) :=
  let! w := get in
  let! cell := expect (cells w !! program_arc p) in
  let! cached := expect (cell_programs cell !! Z.to_nat macro_index) in
  match cached with
  | Some program => ret program
  | None =>
      let! program := (match compile (cell_ram cell) start with
                       | Ok program => ret (Some program)
                       | Err _ => ret None
                       | Panic => panic
                       end) in
      do! modify (fun w => mkWorld
            (<[program_arc p := mkCell (cell_ram cell)
                 (<[Z.to_nat macro_index := Some program]> (cell_programs cell))]> (cells w))
            (next_cell w) (mme w) (programs w)) in
      ret program
  end.

(** [MaxwellThreeDMmeProgram::execute]: the outcome on the host and the world with
    the cache filled.  [None] is a panic or a loop that does not end. *)
Definition execute {H E} `{MmeHost H E} (p : Program) (macro_index : Z) (parameters : list Z) (h : H) (w : World) :
  option (Result (RunError E) unit * H) * World :=
  match program_starts p !! macro_index ≫= reg_value with
  | None => (Some (Err (Execution (MissingStartAddress macro_index)), h), w)
  | Some start =>
      match parameters with
      | [] => (Some (Err (Execution (ParameterUnavailable 0)), h), w)
      | first :: _ =>
          match get_or_init p macro_index start w with
          | (Ok (Some program), w') => (Some (direct_execute parameters program h), w')
          | (Ok None, w') =>
              (match cells w' !! program_arc p with
               | Some cell => interpret (cell_ram cell) parameters start first h
               | None => None
               end, w')
          | (_, w') => (None, w')
          end
      end
  end.

(** ** Compilation does not panic *)

Lemma compile_instruction_safe i c :
  instruction_ok i -> length (c_registers c) = 8%nat ->
  match compile_instruction i c with
  | Ok c' => length (c_registers c') = 8%nat
  | Err _ => True
  | Panic => False
  end.
Proof.
  intros Hi Hlen. unfold compile_instruction, lookup_value.
  destruct (lookup_lt_is_Some_2 (c_registers c) (Z.to_nat (src_a i))) as [a ->]; [destruct Hi; lia|].
  destruct (lookup_lt_is_Some_2 (c_registers c) (Z.to_nat (src_b i))) as [b ->]; [destruct Hi; lia|].
  cbn [result_bind].
  assert (direct_value i a b <> Panic) as Hv.
  { unfold direct_value, direct_alu. repeat case_match; done. }
  destruct (direct_value i a b) as [v| |]; [|done..]. cbn [result_bind].
  unfold compile_result. destruct (compile_fetch (result i) c) as [fetched c1] eqn:Hf.
  assert (length (c_registers c1) = 8%nat) as Hlen1
    by (unfold compile_fetch in Hf; case_match; by injection Hf as _ <-).
  assert (forall written, exists l, assign_value (c_registers c1) (destination i) written = Ok l /\ length l = 8%nat)
    as Hassign.
  { intros written. unfold assign_value.
    destruct (lookup_lt_is_Some_2 (c_registers c1) (Z.to_nat (destination i))) as [x ->]; [destruct Hi; lia|].
    destruct (negb _); eexists; (split; [done|]); by rewrite ?length_insert. }
  destruct (Hassign (default v (if result i =? 6 then None else fetched))) as (l & -> & Hl). cbn [result_bind].
  unfold compile_method, sent_value.
  destruct (one_of [2; 5; 6; 7] (result i)), v; cbn [constant_of result_bind]; try done;
    (destruct (one_of [3; 4] (result i)); [done|]); (destruct (result i =? 6); [by destruct fetched|]);
    by destruct (result i =? 7).
Qed.

Lemma compile_safe r pc0 : ram_ok r -> compile r pc0 <> Panic.
Proof.
  intros Hr. unfold compile. assert (length (c_registers compiler_new) = 8%nat) as Hlen by done.
  generalize dependent compiler_new. generalize false as delay. revert pc0.
  generalize 256%nat as turns. induction turns as [|turns IH]; intros pc0 delay c Hlen; [done|]. cbn [compile_loop].
  unfold compile_word. destruct (page r pc0) as [p|] eqn:Hp; [|done]. pose proof (Hr _ _ Hp) as Hok.
  destruct (lookup_lt_is_Some_2 (page_decoded p) (page_index pc0)) as [o Ho];
    [rewrite page_decoded_length by done; apply page_index_lt|].
  rewrite Ho. destruct o as [i|]; [|done]. cbn [result_bind]. destruct (checked_add 32 pc0 1); [|done].
  pose proof (compile_instruction_safe i c (page_decoded_instruction _ _ _ Hok Ho) Hlen) as Hs.
  destruct (compile_instruction i c) as [c'| |]; [|done..]. cbn [result_bind]. destruct delay; [done|]. by apply IH.
Qed.

(** ** The invariant *)

(** [c] is held with the start addresses [starts], by the state or a program. *)
Definition holder (w : World) (c : CellId) (starts : gmap Z (Register Z)) : Prop :=
  (instructions_arc (mme w) = c /\ start_addresses (mme w) = starts) \/
  exists id p, programs w !! id = Some p /\ program_arc p = c /\ program_starts p = starts.

(** Whatever is cached is what the compiler gives. *)
Record cell_ok (cell : Cell) (starts : gmap Z (Register Z)) : Prop := {
  cell_refines : exists m, ram_refines (cell_ram cell) m;
  cell_length : length (cell_programs cell) = 256%nat;
  cell_cache : forall i program, cell_programs cell !! Z.to_nat i = Some (Some program) -> 0 <= i ->
    exists start, starts !! i ≫= reg_value = Some start /\
      compile (cell_ram cell) start = match program with Some p => Ok p | None => Err tt end;
}.

Record world_ok (w : World) : Prop := {
  ok_cells : forall c starts, holder w c starts ->
    exists cell, cells w !! c = Some cell /\ cell_ok cell starts /\ c < next_cell w;
  ok_agree : forall c starts1 starts2, holder w c starts1 -> holder w c starts2 -> starts1 = starts2;
}.

Lemma fresh_programs_none i x : fresh_programs !! i = Some x -> x = None.
Proof. unfold fresh_programs. by intros [-> _]%lookup_replicate. Qed.

Lemma world_new_ok : world_ok world_new.
Proof.
  split.
  - intros c starts [[<- <-]|(id & p & Hp & _)]; [|done]. eexists. split; [reflexivity|]. split; [|done].
    split; [exists ∅; apply ram_default_refines|done|]. intros i program Hi%fresh_programs_none. done.
  - intros c s1 s2 [[<- <-]|(? & ? & ? & _)] [[_ <-]|(? & ? & ? & _)]; done.
Qed.

(** The only holder is the state. *)
Lemma strong_one w c :
  strong_count w c = 1%nat -> instructions_arc (mme w) = c ->
  forall id p, programs w !! id = Some p -> program_arc p <> c.
Proof.
  intros Hs Hc id p Hp Harc. unfold strong_count in Hs. rewrite decide_True in Hs by done.
  assert (filter (fun p : Z * Program => program_arc p.2 = c) (programs w) = ∅) as He.
  { apply map_size_empty_inv. lia. }
  assert (filter (fun p : Z * Program => program_arc p.2 = c) (programs w) !! id = Some p) as Hf
    by (by apply map_lookup_filter_Some). by rewrite He in Hf.
Qed.

(** ** The specification: copies, and the interpreter *)

Record Spec := mkSpec {
  spec_ram : Ram;
  spec_starts : gmap Z (Register Z);
  spec_programs : gmap Z (Ram * gmap Z (Register Z));
}.

Definition ram_of (w : World) (c : CellId) : Ram :=
  match cells w !! c with Some cell => cell_ram cell | None => ram_default end.

Definition abstract (w : World) : Spec :=
  mkSpec (ram_of w (instructions_arc (mme w))) (start_addresses (mme w))
    ((fun p => (ram_of w (program_arc p), program_starts p)) <$> programs w).

Definition spec_apply (write : StateWrite) (s : Spec) : Spec :=
  match write with
  | Instruction address value source =>
      mkSpec (ram_insert (spec_ram s) address (programmed value value source)) (spec_starts s) (spec_programs s)
  | StartAddress index address source =>
      mkSpec (spec_ram s) (<[index := programmed address address source]> (spec_starts s)) (spec_programs s)
  | _ => s
  end.

(** Running a macro of a copy, without a cache. *)
Definition spec_execute {H E} `{MmeHost H E} (ram : Ram) (starts : gmap Z (Register Z)) (macro_index : Z)
  (parameters : list Z) (h : H) : option (Result (RunError E) unit * H) :=
  match starts !! macro_index ≫= reg_value with
  | None => Some (Err (Execution (MissingStartAddress macro_index)), h)
  | Some start =>
      match parameters with
      | [] => Some (Err (Execution (ParameterUnavailable 0)), h)
      | first :: _ => interpret ram parameters start first h
      end
  end.

Lemma abstract_ext w w' :
  mme w' = mme w -> programs w' = programs w -> (forall c, ram_of w' c = ram_of w c) -> abstract w' = abstract w.
Proof.
  intros Hm Hp Hr. unfold abstract. rewrite Hm, Hp, Hr. f_equal. apply map_fmap_ext. intros id p _. by rewrite Hr.
Qed.

Lemma holder_program w id p :
  programs w !! id = Some p -> holder w (program_arc p) (program_starts p).
Proof. intros Hp. right. by exists id, p. Qed.

(** ** Execution *)

Lemma cell_ok_fill cell starts i start program :
  cell_ok cell starts -> starts !! i ≫= reg_value = Some start -> 0 <= i ->
  compile (cell_ram cell) start = match program with Some q => Ok q | None => Err tt end ->
  cell_ok (mkCell (cell_ram cell) (<[Z.to_nat i := Some program]> (cell_programs cell))) starts.
Proof.
  intros [Hr Hl Hc] Hs Hi Hcompile. split; cbn; [done|by rewrite length_insert|].
  intros j program' Hj Hj0. destruct (decide (Z.to_nat j = Z.to_nat i)) as [He|Hne].
  - assert (j = i) as -> by lia. apply list_lookup_insert_Some in Hj as [(_ & [= <-] & _)|[? _]]; [|done].
    by exists start.
  - rewrite list_lookup_insert_ne in Hj by done. by apply Hc.
Qed.

(** Filling the cache of a held cell. *)
Lemma world_ok_fill w c cell cell' :
  world_ok w -> cells w !! c = Some cell -> cell_ram cell' = cell_ram cell ->
  (forall starts, holder w c starts -> cell_ok cell starts -> cell_ok cell' starts) ->
  let w' := mkWorld (<[c := cell']> (cells w)) (next_cell w) (mme w) (programs w) in
  world_ok w' /\ abstract w' = abstract w.
Proof.
  intros Hw Hc Hr Hfill w'. split.
  - split; [|apply Hw]. intros x starts Hx. destruct (ok_cells _ Hw x starts Hx) as (cx & Hcx & Hok & Hlt).
    cbn. destruct (decide (x = c)) as [->|Hne].
    + rewrite lookup_insert_eq. exists cell'. split; [done|]. split; [|done]. apply Hfill; [done|]. congruence.
    + rewrite lookup_insert_ne by done. by exists cx.
  - apply abstract_ext; [done..|]. intros x. unfold ram_of. cbn. destruct (decide (x = c)) as [->|Hne].
    + by rewrite lookup_insert_eq, Hc.
    + by rewrite lookup_insert_ne.
Qed.

Lemma get_or_init_ok w id p macro_index start :
  world_ok w -> programs w !! id = Some p -> 0 <= macro_index < 256 ->
  program_starts p !! macro_index ≫= reg_value = Some start ->
  exists program w', get_or_init p macro_index start w = (Ok program, w') /\ world_ok w' /\
    abstract w' = abstract w /\ programs w' = programs w /\
    compile (ram_of w (program_arc p)) start = match program with Some q => Ok q | None => Err tt end.
Proof.
  intros Hw Hp Hi Hstart. pose proof (holder_program _ _ _ Hp) as Hh.
  destruct (ok_cells _ Hw _ _ Hh) as (cell & Hcell & Hok & Hfresh).
  unfold get_or_init, ram_of. rewrite (bind_step _ _ w w w), Hcell by done.
  rewrite (bind_step _ _ w cell w) by done.
  destruct (lookup_lt_is_Some_2 (cell_programs cell) (Z.to_nat macro_index)) as [cached Hcached];
    [rewrite (cell_length _ _ Hok); lia|].
  rewrite Hcached, (bind_step _ _ w cached w) by done. destruct cached as [program|].
  { exists program, w. destruct (cell_cache _ _ Hok _ _ Hcached) as (start' & Hs & Hc); [lia|].
    rewrite Hstart in Hs. injection Hs as <-. done. }
  destruct (cell_refines _ _ Hok) as [m Hm].
  assert (exists program, compile (cell_ram cell) start = match program with Some q => Ok q | None => Err tt end)
    as [program Hcompile].
  { pose proof (compile_safe _ start (refines_pages _ _ Hm)).
    destruct (compile (cell_ram cell) start) as [q|[]|] eqn:He; [by exists (Some q)|by exists None|done]. }
  exists program. eexists. split; [rewrite Hcompile; by destruct program|].
  destruct (world_ok_fill w (program_arc p) cell (mkCell (cell_ram cell)
    (<[Z.to_nat macro_index := Some program]> (cell_programs cell))) Hw Hcell eq_refl) as [? ?]; [|done].
  intros starts Hstarts Hcok. rewrite (ok_agree _ Hw _ _ _ Hstarts Hh) in *.
  eapply cell_ok_fill; [done..|lia|done].
Qed.

(** Executing a program is interpreting its copy. *)
Lemma execute_spec {H E} `{MmeHost H E} w id p macro_index parameters (h : H) :
  world_ok w -> programs w !! id = Some p -> 0 <= macro_index < 256 -> Forall (in_range 32) parameters ->
  let '(outcome, w') := execute p macro_index parameters h w in
  outcome = spec_execute (ram_of w (program_arc p)) (program_starts p) macro_index parameters h /\
  world_ok w' /\ abstract w' = abstract w /\ programs w' = programs w.
Proof.
  intros Hw Hp Hi Hu. unfold execute, spec_execute.
  destruct (program_starts p !! macro_index ≫= reg_value) as [start|] eqn:Hstart; [|done].
  destruct parameters as [|first rest]; [done|].
  destruct (get_or_init_ok w id p macro_index start Hw Hp Hi Hstart) as (program & w' & -> & Hw' & Habs & Hps & Hc).
  destruct (ok_cells _ Hw _ _ (holder_program _ _ _ Hp)) as (cell & Hcell & Hok & _).
  destruct (cell_refines _ _ Hok) as [m Hm]. unfold ram_of in Hc |- *. rewrite Hcell in Hc |- *.
  destruct program as [program|].
  - split; [|done]. symmetry. apply direct_interprets; [apply (refines_pages _ _ Hm)|done..].
  - split; [|done].
    assert (ram_of w' (program_arc p) = cell_ram cell) as Hr.
    { apply (f_equal spec_programs) in Habs. cbn in Habs. rewrite Hps in Habs.
      apply (f_equal (fun f => f !! id)) in Habs. rewrite !lookup_fmap, Hp in Habs. cbn in Habs.
      injection Habs as Habs. rewrite Habs. unfold ram_of. by rewrite Hcell. }
    unfold ram_of in Hr. assert (programs w' !! id = Some p) as Hp' by (by rewrite Hps).
    destruct (ok_cells _ Hw' _ _ (holder_program _ _ _ Hp')) as (cell' & Hcell' & _).
    rewrite Hcell' in Hr |- *. by rewrite Hr.
Qed.

(** ** Writes *)

(** A change of the memory through [Arc::make_mut], with the start addresses the
    state has afterwards: the state sees the change, no program does. *)
Lemma make_mut_ok f g starts' w :
  world_ok w -> (forall cell, cell_ram (f cell) = g (cell_ram cell)) ->
  (forall cell, cell_ok cell (start_addresses (mme w)) -> cell_ok (f cell) starts') ->
  exists w', make_mut f w = (Ok tt, w') /\ programs w' = programs w /\
    (exists c, mme w' = with_arc c (mme w)) /\
    forall s', instructions_arc s' = instructions_arc (mme w') -> start_addresses s' = starts' ->
      let w'' := mkWorld (cells w') (next_cell w') s' (programs w') in
      world_ok w'' /\
      abstract w'' = mkSpec (g (spec_ram (abstract w))) starts' (spec_programs (abstract w)).
Proof.
  intros Hw Hg Hf. set (c := instructions_arc (mme w)).
  destruct (ok_cells _ Hw c (start_addresses (mme w))) as (cell & Hcell & Hok & Hlt); [by left|].
  unfold make_mut. rewrite (bind_step _ _ w w w) by done. fold c. rewrite Hcell, (bind_step _ _ w cell w) by done.
  destruct (decide (strong_count w c = 1%nat)) as [Hone|_].
  - pose proof (strong_one w c Hone eq_refl) as Halone.
    eexists. split; [reflexivity|]. split; [done|]. split; [exists c; by destruct w as [? ? [] ?]|].
    intros s' Harc Hst. cbn in Harc |- *. fold c in Harc. split; [split|].
    + intros x starts [[Hx Hs]|(id & p & Hp & Hx & Hs)]; cbn in *.
      * rewrite Harc in Hx. subst x starts. rewrite lookup_insert_eq. exists (f cell).
        rewrite Hst. auto.
      * subst x. rewrite lookup_insert_ne by (intros He; by apply (Halone id p Hp)).
        apply (ok_cells _ Hw). right. by exists id, p.
    + intros x s1 s2 [[Hx1 Hs1]|(i1 & p1 & Hp1 & Hx1 & Hs1)] [[Hx2 Hs2]|(i2 & p2 & Hp2 & Hx2 & Hs2)]; cbn in *.
      * congruence.
      * exfalso. apply (Halone i2 p2 Hp2). congruence.
      * exfalso. apply (Halone i1 p1 Hp1). congruence.
      * apply (ok_agree _ Hw x); right; [by exists i1, p1|by exists i2, p2].
    + unfold abstract, ram_of. cbn. rewrite Harc, Hst. fold c. rewrite lookup_insert_eq, Hcell, Hg. f_equal.
      apply map_fmap_ext. intros id p Hp. rewrite lookup_insert_ne; [done|]. intros He. by apply (Halone id p Hp).
  - assert (forall id p, programs w !! id = Some p -> program_arc p <> next_cell w) as Hnew.
    { intros id p Hp He. destruct (ok_cells _ Hw _ _ (holder_program _ _ _ Hp)) as (? & _ & _ & ?). lia. }
    eexists. split; [reflexivity|]. split; [done|]. split; [by exists (next_cell w)|].
    intros s' Harc Hst. cbn in Harc |- *. split; [split|].
    + intros x starts [[Hx Hs]|(id & p & Hp & Hx & Hs)]; cbn in *.
      * rewrite Harc in Hx. subst x starts. rewrite lookup_insert_eq. eexists. split; [done|]. split; [|lia].
        rewrite Hst. apply Hf. destruct Hok. split; cbn; [done|done|]. by intros i q Hi%fresh_programs_none.
      * subst x. pose proof (Hnew id p Hp). rewrite lookup_insert_ne by congruence.
        destruct (ok_cells _ Hw _ starts (or_intror (ex_intro _ id (ex_intro _ p (conj Hp (conj eq_refl Hs))))))
          as (cell' & ? & ? & ?). exists cell'. split; [done|]. split; [done|lia].
    + intros x s1 s2 [[Hx1 Hs1]|(i1 & p1 & Hp1 & Hx1 & Hs1)] [[Hx2 Hs2]|(i2 & p2 & Hp2 & Hx2 & Hs2)]; cbn in *.
      * congruence.
      * exfalso. apply (Hnew i2 p2 Hp2). congruence.
      * exfalso. apply (Hnew i1 p1 Hp1). congruence.
      * apply (ok_agree _ Hw x); right; [by exists i1, p1|by exists i2, p2].
    + unfold abstract, ram_of. cbn. rewrite Harc, Hst. fold c. rewrite lookup_insert_eq, Hcell, Hg. cbn. f_equal.
      apply map_fmap_ext. intros id p Hp. pose proof (Hnew id p Hp). by rewrite lookup_insert_ne by congruence.
Qed.

Lemma cell_insert_ok address value source cell starts :
  cell_ok cell starts -> cell_ok (cell_insert address (programmed value value source) cell) starts.
Proof.
  intros [[m Hm] Hl Hc]. split; cbn.
  - eexists. by apply ram_insert_refines.
  - by rewrite length_map.
  - intros i program. rewrite list_lookup_fmap. by destruct (cell_programs cell !! _).
Qed.

Lemma cell_take_ok index register cell starts :
  0 <= index -> cell_ok cell starts -> cell_ok (cell_take index cell) (<[index := register]> starts).
Proof.
  intros Hi [Hr Hl Hc]. split; cbn; [done|by rewrite length_insert|].
  intros j program Hj Hj0. destruct (decide (j = index)) as [->|Hne].
  - apply list_lookup_insert_Some in Hj as [(_ & ? & _)|[? _]]; done.
  - rewrite list_lookup_insert_ne in Hj by lia. rewrite lookup_insert_ne by done. by apply Hc.
Qed.

(** A change of the state that touches neither the memory nor the start
    addresses. *)
Lemma set_mme_ok f w :
  (forall s, instructions_arc (f s) = instructions_arc s /\ start_addresses (f s) = start_addresses s) ->
  world_ok w -> world_ok (set_mme f w) /\ abstract (set_mme f w) = abstract w.
Proof.
  intros Hf [Hc Ha]. destruct (Hf (mme w)) as [H1 H2].
  assert (forall c starts, holder (set_mme f w) c starts <-> holder w c starts) as Hh.
  { intros c starts. unfold holder, set_mme. cbn. by rewrite H1, H2. }
  split; [split|].
  - intros c starts Hx%Hh. by apply Hc.
  - intros c s1 s2 Hx%Hh Hy%Hh. by apply (Ha c).
  - unfold abstract, set_mme, ram_of. cbn. by rewrite H1, H2.
Qed.

(** The addresses of a write, as the preflight passes them. *)
Definition write_ok (write : StateWrite) : Prop :=
  match write with
  | Instruction address _ _ => 0 <= address < umax 32
  | StartAddress index _ _ => 0 <= index < umax 32
  | _ => True
  end.

Lemma apply_ok write w :
  world_ok w -> write_ok write ->
  exists w', apply write w = (Ok tt, w') /\ world_ok w' /\ abstract w' = spec_apply write (abstract w) /\
    programs w' = programs w.
Proof.
  intros Hw Hwr. destruct write as [v src|a v src|v src|i a src|v src|v src|i v src]; cbn [apply spec_apply].
  1,3,5,6,7: eexists; (split; [reflexivity|]); split; [|split; [|done]]; by apply set_mme_ok.
  - destruct (make_mut_ok (cell_insert a (programmed v v src)) (fun r => ram_insert r a (programmed v v src))
      (start_addresses (mme w)) w Hw) as (w' & Hmut & Hp & [c Hm] & Hspec);
      [done|intros; by apply cell_insert_ok|].
    rewrite (bind_step _ _ _ _ _ Hmut). cbn in Hwr. unfold umax in Hwr. unfold checked_add.
    destruct (Z.ltb_spec (a + 1) (2 ^ 32)); [|lia]. rewrite (bind_step _ _ w' (a + 1) w') by done.
    eexists. split; [reflexivity|]. unfold set_mme. split; [|split; [|done]]; apply Hspec; rewrite Hm; done.
  - destruct (make_mut_ok (cell_take i) (fun r => r) (<[i := programmed a a src]> (start_addresses (mme w))) w Hw)
      as (w' & Hmut & Hp & [c Hm] & Hspec); [done|intros; apply cell_take_ok; [cbn in Hwr; lia|done]|].
    rewrite (bind_step _ _ _ _ _ Hmut). cbn in Hwr. unfold umax in Hwr. unfold checked_add.
    destruct (Z.ltb_spec (i + 1) (2 ^ 32)); [|lia].
    erewrite bind_step by reflexivity. erewrite bind_step by reflexivity.
    eexists. split; [reflexivity|]. unfold set_mme. cbn [cells next_cell mme programs].
    split; [|split; [|done]]; apply Hspec; rewrite ?Hm; done.
Qed.

(** ** Histories *)

(** What happens to a channel: loads, programs taken and dropped, executions
    (with the parameters and the host of the call). *)
Inductive Event : Type :=
| Apply (write : StateWrite)
| TakeProgram (id : Z)
| DropProgram (id : Z)
| Execute (id macro_index : Z) (parameters : list Z).

Section Histories.
Context {H E : Type} `{MmeHost H E}.
Variable h0 : H.

(** The world after an event, and the outcome of an execution on [h0]. *)
Definition run_event (e : Event) (w : World) : option (option (Result (RunError E) unit * H)) * World :=
  match e with
  | Apply write => match apply write w with (Ok _, w') => (None, w') | (_, w') => (Some None, w') end
  | TakeProgram id => (None, snd (take_program id w))
  | DropProgram id => (None, snd (drop_program id w))
  | Execute id macro_index parameters =>
      match programs w !! id with
      | Some p => let '(outcome, w') := execute p macro_index parameters h0 w in (Some outcome, w')
      | None => (None, w)
      end
  end.

Definition spec_event (e : Event) (s : Spec) : option (option (Result (RunError E) unit * H)) * Spec :=
  match e with
  | Apply write => (None, spec_apply write s)
  | TakeProgram id =>
      (None, mkSpec (spec_ram s) (spec_starts s) (<[id := (spec_ram s, spec_starts s)]> (spec_programs s)))
  | DropProgram id => (None, mkSpec (spec_ram s) (spec_starts s) (delete id (spec_programs s)))
  | Execute id macro_index parameters =>
      match spec_programs s !! id with
      | Some (ram, starts) => (Some (spec_execute ram starts macro_index parameters h0), s)
      | None => (None, s)
      end
  end.

Definition event_ok (e : Event) : Prop :=
  match e with
  | Apply write => write_ok write
  | Execute _ macro_index parameters => 0 <= macro_index < 256 /\ Forall (in_range 32) parameters
  | _ => True
  end.

Fixpoint outcomes {S O} (step : Event -> S -> O * S) (events : list Event) (s : S) : list O * S :=
  match events with
  | [] => ([], s)
  | e :: rest =>
      let '(o, s') := step e s in
      let '(os, s'') := outcomes step rest s' in (o :: os, s'')
  end.

Lemma take_program_ok id w :
  world_ok w -> world_ok (snd (take_program id w)) /\
    abstract (snd (take_program id w)) =
      mkSpec (spec_ram (abstract w)) (spec_starts (abstract w))
        (<[id := (spec_ram (abstract w), spec_starts (abstract w))]> (spec_programs (abstract w))).
Proof.
  intros Hw. cbn.
  assert (forall c starts, holder (snd (take_program id w)) c starts -> holder w c starts) as Hh.
  { intros c starts [Hs|(j & p & Hp & Hc & Hs)]; [by left|]. cbn in Hp.
    destruct (decide (j = id)) as [->|Hne].
    - rewrite lookup_insert_eq in Hp. injection Hp as <-. by left.
    - rewrite lookup_insert_ne in Hp by done. right. by exists j, p. }
  split; [split|].
  - intros c starts Hx%Hh. by apply (ok_cells _ Hw).
  - intros c s1 s2 Hx%Hh Hy%Hh. by apply (ok_agree _ Hw c).
  - unfold abstract, ram_of. cbn. by rewrite fmap_insert.
Qed.

Lemma drop_program_ok id w :
  world_ok w -> world_ok (snd (drop_program id w)) /\
    abstract (snd (drop_program id w)) =
      mkSpec (spec_ram (abstract w)) (spec_starts (abstract w)) (delete id (spec_programs (abstract w))).
Proof.
  intros Hw. cbn.
  assert (forall c starts, holder (snd (drop_program id w)) c starts -> holder w c starts) as Hh.
  { intros c starts [Hs|(j & p & Hp & Hc & Hs)]; [by left|]. cbn in Hp.
    apply lookup_delete_Some in Hp as [_ Hp]. right. by exists j, p. }
  split; [split|].
  - intros c starts Hx%Hh. by apply (ok_cells _ Hw).
  - intros c s1 s2 Hx%Hh Hy%Hh. by apply (ok_agree _ Hw c).
  - unfold abstract, ram_of. cbn. by rewrite fmap_delete.
Qed.

Lemma event_refines e w :
  world_ok w -> event_ok e ->
  let '(o, w') := run_event e w in
  world_ok w' /\ spec_event e (abstract w) = (o, abstract w').
Proof.
  intros Hw He. destruct e as [write|id|id|id i ps]; cbn [run_event spec_event].
  - destruct (apply_ok write w Hw He) as (w' & -> & Hw' & -> & _). done.
  - destruct (take_program_ok id w Hw) as [? ->]. done.
  - destruct (drop_program_ok id w Hw) as [? ->]. done.
  - unfold abstract at 1. cbn [spec_programs]. rewrite lookup_fmap.
    destruct (programs w !! id) as [p|] eqn:Hp; cbn; [|done]. destruct He as [Hi Hu].
    pose proof (execute_spec w id p i ps h0 Hw Hp Hi Hu) as Hx.
    destruct (execute p i ps h0 w) as [o w']. destruct Hx as (-> & Hw' & -> & _). done.
Qed.
End Histories.

(** C29. The shared memory and the cache of compiled macros are invisible.  For
    every history of loads (with the addresses the preflight lets through),
    programs taken from the state, dropped, and executed on any host, every
    outcome is the one of a specification in which each program owns a copy of
    the instruction words and start addresses of the moment it was taken, and
    is interpreted; no load panics. *)
Theorem mme_programs_refine_copies {H E} `{MmeHost H E} (h0 : H) (events : list Event)
    (Hev : Forall event_ok events) :
  let '(os, w) := outcomes (run_event h0) events world_new in
  world_ok w /\ outcomes (spec_event h0) events (abstract world_new) = (os, abstract w).
Proof.
  assert (forall w, world_ok w -> let '(os, w') := outcomes (run_event h0) events w in
    world_ok w' /\ outcomes (spec_event h0) events (abstract w) = (os, abstract w')) as Hall.
  { induction Hev as [|e events He _ IH]; intros w Hw; [done|]. cbn [outcomes].
    pose proof (event_refines h0 e w Hw He) as Hstep. destruct (run_event h0 e w) as [o w1].
    destruct Hstep as [Hw1 ->]. specialize (IH w1 Hw1). destruct (outcomes (run_event h0) events w1) as [os w2].
    destruct IH as [Hw2 ->]. done. }
  apply Hall, world_new_ok.
Qed.

(** A macro is loaded and taken; while the program is live its last word and its
    start address are overwritten; the program still runs the old words, a new
    program the new ones. *)
Definition source_of (method argument : Z) : MethodSource := mkSource (at_word 0 0) 0 method argument.

Definition overwrite_history : list Event :=
  [Apply (Instruction 0 0x00400021 (source_of 0x118 0x00400021));
   Apply (Instruction 1 0x000008c1 (source_of 0x118 0x000008c1));
   Apply (Instruction 2 0x11 (source_of 0x118 0x11));
   Apply (StartAddress 5 0 (source_of 0x120 0));
   TakeProgram 1; Execute 1 5 [7];
   Apply (Instruction 2 0x00000841 (source_of 0x118 0x00000841));
   TakeProgram 2;
   Apply (StartAddress 5 1 (source_of 0x120 1));
   Execute 1 5 [7]; Execute 2 5 [7]; Execute 2 6 [7]].

Lemma mme_programs_refine_copies_witness :
  fst (outcomes (spec_event (mkLog [] None)) overwrite_history (abstract world_new)) =
  [None; None; None; None; None; Some (Some (Ok tt, mkLog [(256, 7)] None)); None; None; None;
   Some (Some (Ok tt, mkLog [(256, 7)] None));
   Some (Some (Ok tt, mkLog [(256, 7); (256, 7)] None));
   Some (Some (Err (Execution (MissingStartAddress 6)), mkLog [] None))].
Proof.
  assert (Forall event_ok overwrite_history) as Hev.
  { unfold overwrite_history. assert (Forall (in_range 32) [7]) as H7
      by (apply Forall_singleton; unfold in_range; lia).
    repeat (apply Forall_cons; split; [cbn; unfold umax; first [done|lia|split; [lia|done]]|]). by apply Forall_nil. }
  pose proof (mme_programs_refine_copies (mkLog [] None) overwrite_history Hev) as Hr.
  destruct (outcomes (run_event (mkLog [] None)) overwrite_history world_new) as [os w] eqn:Ho.
  destruct Hr as [_ ->]. apply (f_equal fst) in Ho. vm_compute in Ho. by rewrite <- Ho.
Defined.

(** ** Loads stay within the captured storage *)

Lemma preflight_load_inv source ram next present count limit write w :
  preflight_load source ram next present count limit write = Ok w ->
  exists address, next = Some address /\ address <> umax 32 /\ w = write address /\
    (present address = true \/ count < limit).
Proof.
  unfold preflight_load. destruct next as [address|]; [|done]. destruct (Z.eqb_spec address (umax 32)); [done|].
  destruct (present address) eqn:Hp; cbn.
  - intros [= <-]. exists address. auto.
  - destruct (Z.leb_spec limit count); [done|]. intros [= <-]. exists address. auto.
Qed.

(** The addresses of the next loads are 32-bit numbers. *)
Definition pointers_ok (s : MmeState) : Prop :=
  (forall a, next_instruction_address s = Some a -> in_range 32 a) /\
  (forall a, next_start_address_index s = Some a -> in_range 32 a).

(** The words and start addresses held are within the limits. *)
Definition storage_ok (w : World) : Prop :=
  ram_count (spec_ram (abstract w)) <= CAPTURED_INSTRUCTION_WORDS /\
  Z.of_nat (size (spec_starts (abstract w))) <= CAPTURED_START_ADDRESSES.

(** A write leaves the storage within the limits. *)
Definition spec_bounded (s : Spec) : Prop :=
  ram_count (spec_ram s) <= CAPTURED_INSTRUCTION_WORDS /\ Z.of_nat (size (spec_starts s)) <= CAPTURED_START_ADDRESSES.

Lemma preflight_ok source write w :
  world_ok w -> pointers_ok (mme w) -> storage_ok w -> preflight_mme_state source w = Ok (Some write) ->
  write_ok write /\ spec_bounded (spec_apply write (abstract w)).
Proof.
  intros Hw [Hpi Hps] Hst Hpre. pose proof Hst as [Hsi Hss].
  destruct (ok_cells _ Hw _ _ (or_introl (conj eq_refl eq_refl))) as (cell & Hcell & Hok & _).
  destruct (cell_refines _ _ Hok) as [m Hm].
  assert (spec_ram (abstract w) = cell_ram cell) as Hram by (cbn; unfold ram_of; by rewrite Hcell).
  unfold preflight_mme_state in Hpre. rewrite Hcell in Hpre.
  destruct (_ && _); [by injection Hpre as <-|].
  destruct (source_method source =? 0x0114); [by injection Hpre as <-|].
  destruct (source_method source =? 0x0118).
  { apply result_bind_inv in Hpre as (x & Hx & [= ->]).
    apply preflight_load_inv in Hx as (a & Ha & Hmax & -> & Hroom). apply Hpi in Ha. unfold in_range in Ha.
    split; [cbn; unfold umax in *; lia|]. split; [|done]. cbn [spec_apply spec_ram]. rewrite Hram in Hsi |- *.
    set (register := programmed _ _ _). pose proof (ram_insert_refines _ m a register Hm) as Hm'.
    rewrite (refines_count _ _ Hm'). rewrite (refines_count _ _ Hm) in Hsi. rewrite map_size_insert.
    rewrite <- (refines_get _ _ Hm a). destruct Hroom as [Hin%bool_decide_eq_true|Hroom].
    - destruct Hin as [x ->]. done.
    - unfold ram_len in Hroom. rewrite (refines_count _ _ Hm) in Hroom. case_match; unfold id; lia. }
  destruct (source_method source =? 0x011c); [by injection Hpre as <-|].
  destruct (source_method source =? 0x0120); [|done].
  apply result_bind_inv in Hpre as (x & Hx & [= ->]).
  apply preflight_load_inv in Hx as (a & Ha & Hmax & -> & Hroom). apply Hps in Ha. unfold in_range in Ha.
  split; [cbn; unfold umax in *; lia|]. split; [done|]. cbn [spec_apply spec_starts abstract] in Hss |- *.
  rewrite map_size_insert. destruct Hroom as [Hin%bool_decide_eq_true|Hroom].
  - by destruct Hin as [x ->].
  - case_match; unfold id; lia.
Qed.

(** What the preflight lets through is applied without a panic, and the storage
    limits hold afterwards. *)
Theorem preflight_then_apply source write w :
  world_ok w -> pointers_ok (mme w) -> storage_ok w -> preflight_mme_state source w = Ok (Some write) ->
  exists w', apply write w = (Ok tt, w') /\ world_ok w' /\ storage_ok w'.
Proof.
  intros Hw Hp Hst Hpre. destruct (preflight_ok _ _ _ Hw Hp Hst Hpre) as [Hwr Hb].
  destruct (apply_ok write w Hw Hwr) as (w' & Ha & Hw' & Habs & _).
  exists w'. split; [done|]. split; [done|]. unfold storage_ok. by rewrite Habs.
Qed.

(** ** The register file and the replay of shadow registers *)

Record file_ok (f : RegisterFile) : Prop := {
  file_values_length : length (file_values f) = 4096%nat;
  file_valid_length : length (file_valid f) = 64%nat;
}.

Lemma bit_set_lor a j k : 0 <= j -> 0 <= k ->
  bit_set (Z.lor a (2 ^ k)) (2 ^ j) = bit_set a (2 ^ j) || (j =? k).
Proof.
  intros Hj Hk. rewrite !bit_set_pow2, Z.lor_spec, Z.pow2_bits_eqb by done. by rewrite Z.eqb_sym.
Qed.

(** A register reads the last value stored to it; the others are unchanged. *)
Lemma file_store_raw f method value source :
  file_ok f -> 0 <= method < 0x4000 -> method mod 4 = 0 ->
  exists f', file_store f method value source = Ok f' /\ file_ok f' /\
    forall other, 0 <= other -> file_raw f' other = if other =? method then Some value else file_raw f other.
Proof.
  intros [Hv Hb] Hm Hmod. unfold file_store. rewrite bool_decide_eq_true_2
    by (apply lookup_lt_is_Some_2; rewrite Hv; euclid).
  eexists. split; [reflexivity|]. split.
  { split; cbn; [by rewrite length_insert|by rewrite length_alter]. }
  intros other Ho. unfold file_raw. cbn [file_values file_valid]. rewrite length_insert, Hv.
  destruct (Z.eqb_spec (other mod 4) 0) as [Ho4|Ho4]; cbn [negb].
  2: { destruct (Z.eqb_spec other method); [congruence|done]. }
  destruct (Z.ltb_spec (other / 4) (Z.of_nat 4096)) as [Hlt|Hge]; cbn [andb].
  2: { destruct (Z.eqb_spec other method); [euclid|done]. }
  destruct (Z.eqb_spec other method) as [->|Hne].
  - rewrite list_lookup_alter_eq. destruct (lookup_lt_is_Some_2 (file_valid f) (Z.to_nat (method / 4 / 64))) as [x ->];
      [rewrite Hb; euclid|]. cbn. rewrite bit_set_lor, Z.eqb_refl, orb_true_r by euclid.
    apply list_lookup_insert_eq. rewrite Hv. euclid.
  - assert (Z.to_nat (method / 4) <> Z.to_nat (other / 4)) as Hidx by euclid.
    rewrite (list_lookup_insert_ne _ _ _ _ Hidx).
    destruct (decide (method / 4 / 64 = other / 4 / 64)) as [He|Hne'].
    + rewrite He, list_lookup_alter_eq.
      destruct (lookup_lt_is_Some_2 (file_valid f) (Z.to_nat (other / 4 / 64))) as [x ->]; [rewrite Hb; euclid|].
      cbn. rewrite bit_set_lor by euclid.
      destruct (Z.eqb_spec ((other / 4) mod 64) ((method / 4) mod 64)); [euclid|]. by rewrite orb_false_r.
    + rewrite list_lookup_alter_ne by euclid. done.
Qed.

(** A register tracked and then replayed gives the tracked argument, whatever
    argument is submitted. *)
Theorem replay_returns_tracked c source w w' submitted :
  tracks c = true -> file_ok (shadow_registers (mme w)) -> 0 <= source_method source < 0x4000 ->
  source_method source mod 4 = 0 -> source_method source <> 0x0124 ->
  track_shadow_register (Some c) source w = (Ok tt, w') ->
  reg_value (shadow_ram_control (mme w')) = Some MethodReplay ->
  resolve_shadow_argument (mme w') (source_method source) submitted = Ok (source_argument source).
Proof.
  intros Hc Hf Hm Hmod Hne Ht Hreplay. unfold track_shadow_register in Ht. rewrite Hc in Ht.
  rewrite (bind_step _ _ w w w) in Ht by done.
  destruct (file_store_raw _ _ (source_argument source) (Some source) Hf Hm Hmod) as (f' & Hstore & _ & Hraw).
  unfold file_write in Ht. rewrite Hstore, (bind_step _ _ w f' w) in Ht by done. injection Ht as <-.
  unfold resolve_shadow_argument. rewrite bool_decide_eq_true_2 by done.
  destruct (Z.eqb_spec (source_method source) 0x0124); [done|]. cbn.
  by rewrite Hraw, Z.eqb_refl by lia.
Qed.
