(* ===== verification/LoadStorage.v ===== *)
(** * Random-access storage (crates/loader/storage)

    A [Storage] answers its length and reads of exact ranges; every format
    loader works on one and hands out bounded views of it.  The view
    ([SubStorage]) is modelled with the overflow checks of its offsets, the
    local file ([FileStorage]) with the position its reads share.

    The specification is a byte array: [Represents s b] is what a storage that
    holds the bytes [b] promises to its clients.  Views refine slices, files
    refine their contents, and a view asks its parent nothing outside its
    window. *)

From S2P Require Import Prelude Bytes.

Inductive StorageError :=
| OutOfBounds
| Io (error : string)
| InvalidData (reason : string).

Inductive LoadError :=
| StorageFailure (error : StorageError)
| InvalidFormat (format reason : string)
| MissingKey (key : string).

#[global] Instance StorageError_eq_dec : EqDecision StorageError.
Proof. solve_decision. Defined.
#[global] Instance LoadError_eq_dec : EqDecision LoadError.
Proof. solve_decision. Defined.

(** [LoadError::invalid] *)
Definition invalid {A} (format reason : string) : Result LoadError A := Err (InvalidFormat format reason).

(** [format!("{name} reason")] *)
Definition says (name reason : string) : string := String.append name reason.

(** The [From<StorageError>] conversion of [?]. *)
Definition stored {A} (r : Result StorageError A) : Result LoadError A := map_err StorageFailure r.

(** [opt.ok_or(e)?] *)
Definition some_or {E A} (o : option A) (e : E) : Result E A :=
  match o with Some a => Ok a | None => Err e end.

(** The trait: [read_at s offset count] fills a buffer of [count] bytes. *)
Record Storage := mkStorage {
  storage_len : Result StorageError Z;
  read_at : Z -> Z -> Result StorageError (list Z);
}.

Definition is_empty (s : Storage) : Result StorageError bool :=
  let? n := storage_len s in Ok (n =? 0).

(** ** Views (sub.rs) *)

Record SubStorage := mkSub { sub_parent : Storage; sub_offset : Z; sub_len : Z }.

Definition SubStorage_new (parent : Storage) (offset len : Z) : Result StorageError SubStorage :=
  let? end_ := some_or (checked_add 64 offset len) OutOfBounds in
  let? parent_len := storage_len parent in
  if parent_len <? end_ then Err OutOfBounds else Ok (mkSub parent offset len).

Definition sub_read_at (s : SubStorage) (offset count : Z) : Result StorageError (list Z) :=
  let? end_ := some_or (checked_add 64 offset count) OutOfBounds in
  if sub_len s <? end_ then Err OutOfBounds
  else
    let? parent_offset := some_or (checked_add 64 (sub_offset s) offset) OutOfBounds in
    read_at (sub_parent s) parent_offset count.

(** [Arc::new(sub) as StorageRef] *)
Definition sub_storage (s : SubStorage) : Storage := mkStorage (Ok (sub_len s)) (sub_read_at s).

(** [Ok(Arc::new(SubStorage::new(..)?))] *)
Definition sub_view (parent : Storage) (offset len : Z) : Result StorageError Storage :=
  let? s := SubStorage_new parent offset len in Ok (sub_storage s).

(** ** Local files (file.rs)

    The open file of the standard library: its present contents, the position
    that [seek] sets, and the error the operating system reports for an
    operation, if any. *)

Record File := mkFile {
  file_contents : list Z;
  file_position : Z;
  seek_fault : Z -> option string;
  read_fault : Z -> Z -> option string;
}.

Record FileStorage := mkFileStorage { file : File; file_poisoned : bool; file_len : Z }.

(** [File::seek(SeekFrom::Start(offset))] *)
Definition seek (offset : Z) : SM File StorageError unit := fun f =>
  match seek_fault f offset with
  | Some e => (Err (Io e), f)
  | None => (Ok tt, mkFile (file_contents f) offset (seek_fault f) (read_fault f))
  end.

(** [Read::read_exact] *)
Definition read_exact (count : Z) : SM File StorageError (list Z) := fun f =>
  match read_fault f (file_position f) count with
  | Some e => (Err (Io e), f)
  | None =>
      match slice (file_contents f) (file_position f) count with
      | Some bytes => (Ok bytes, mkFile (file_contents f) (file_position f + count) (seek_fault f) (read_fault f))
      | None =>
          (Err (Io "failed to fill whole buffer"),
           mkFile (file_contents f) (Z.max (file_position f) (Z.of_nat (length (file_contents f))))
             (seek_fault f) (read_fault f))
      end
  end.

(** [FileStorage::open] on a file that opens. *)
Definition FileStorage_open (f : File) : FileStorage :=
  mkFileStorage f false (Z.of_nat (length (file_contents f))).

Definition file_read_at (offset count : Z) : SM FileStorage StorageError (list Z) := fun s =>
  match checked_add 64 offset count with
  | None => (Err OutOfBounds, s)
  | Some end_ =>
      if file_len s <? end_ then (Err OutOfBounds, s)
      else if file_poisoned s then (Err (Io "file storage lock is poisoned"), s)
      else
        let '(r, f) := (do! seek offset in read_exact count) (file s) in
        (r, mkFileStorage f (file_poisoned s) (file_len s))
  end.

(** The shared reference: a read's answer, whatever was read before. *)
Definition file_storage (s : FileStorage) : Storage :=
  mkStorage (Ok (file_len s)) (fun offset count => fst (file_read_at offset count s)).

(** ** Fields of a validated buffer (content/src/binary.rs) *)

Definition read_field (bytes : list Z) (offset width : Z) : Result LoadError Z :=
  match slice bytes offset width with
  | Some field => Ok (from_le_bytes field)
  | None => Panic
  end.

Definition read_u16 (bytes : list Z) (offset : Z) : Result LoadError Z := read_field bytes offset 2.
Definition read_u32 (bytes : list Z) (offset : Z) : Result LoadError Z := read_field bytes offset 4.
Definition read_u64 (bytes : list Z) (offset : Z) : Result LoadError Z := read_field bytes offset 8.
Definition read_i32 (bytes : list Z) (offset : Z) : Result LoadError Z :=
  let? v := read_u32 bytes offset in Ok (to_signed 32 v).
Definition read_i64 (bytes : list Z) (offset : Z) : Result LoadError Z :=
  let? v := read_u64 bytes offset in Ok (to_signed 64 v).

(** ** The contract

    [Storage::len] and [Storage::read_at] of a source that holds [b]. *)

Class Represents (s : Storage) (b : list Z) : Prop := {
  rep_bytes : bytes_ok b;
  rep_short : in_range 64 (Z.of_nat (length b));
  rep_len : storage_len s = Ok (Z.of_nat (length b));
  rep_read : forall offset count, in_range 64 offset -> in_range 64 count ->
    read_at s offset count = match slice b offset count with Some r => Ok r | None => Err OutOfBounds end;
}.

(** What every implementation of the trait promises by its types: the length
    is a [u64] and a read fills the buffer it was given. *)
Class Lawful (s : Storage) : Prop := {
  lawful_len : forall n, storage_len s = Ok n -> in_range 64 n;
  lawful_read : forall offset count r, in_range 64 offset -> in_range 64 count ->
    read_at s offset count = Ok r -> length r = Z.to_nat count /\ bytes_ok r;
  lawful_returns : storage_len s <> Panic /\
    forall offset count, in_range 64 offset -> in_range 64 count -> read_at s offset count <> Panic;
}.

(** A source in memory. *)
Definition of_bytes (b : list Z) : Storage :=
  mkStorage (Ok (Z.of_nat (length b)))
    (fun offset count => match slice b offset count with Some r => Ok r | None => Err OutOfBounds end).

Lemma of_bytes_represents b : bytes_ok b -> in_range 64 (Z.of_nat (length b)) -> Represents (of_bytes b) b.
Proof. by split. Qed.

#[global] Instance represents_lawful s b `{!Represents s b} : Lawful s.
Proof.
  split.
  - intros n. rewrite rep_len. intros [= <-]. apply rep_short.
  - intros offset count r Ho Hc. rewrite rep_read by done. destruct (slice b offset count) as [x|] eqn:E; [|done].
    intros [= <-]. split; [by eapply slice_length|]. eapply slice_ok; [apply rep_bytes|done].
  - split; [by rewrite rep_len|]. intros offset count Ho Hc. rewrite rep_read by done. by case_match.
Qed.

(** ** Fields *)

Lemma checked_add_inv w x y z : checked_add w x y = Some z -> z = x + y /\ x + y < 2 ^ w.
Proof. unfold checked_add. destruct (Z.ltb_spec (x + y) (2 ^ w)); naive_solver. Qed.

Lemma checked_add_small w x y : x + y < 2 ^ w -> checked_add w x y = Some (x + y).
Proof. intros. unfold checked_add. by rewrite (proj2 (Z.ltb_lt _ _)). Qed.

Lemma checked_add_large w x y : 2 ^ w <= x + y -> checked_add w x y = None.
Proof. intros. unfold checked_add. by rewrite (proj2 (Z.ltb_ge _ _)). Qed.

Lemma slice_is_some l off n r : slice l off n = Some r -> 0 <= off /\ 0 <= n /\ off + n <= Z.of_nat (length l).
Proof. unfold slice. destruct (_ && _) eqn:E; [|done]. rewrite !andb_true_iff, !Z.leb_le in E. lia. Qed.

Lemma slice_none l off n : 0 <= off -> 0 <= n -> Z.of_nat (length l) < off + n -> slice l off n = None.
Proof. intros. unfold slice. rewrite (proj2 (Z.leb_gt (off + n) _)) by lia. by rewrite andb_false_r. Qed.

Lemma slice_exists l off n :
  0 <= off -> 0 <= n -> off + n <= Z.of_nat (length l) -> exists r, slice l off n = Some r.
Proof. intros. rewrite slice_some by lia. eauto. Qed.

(** A slice of a slice. *)
Lemma slice_slice l o1 n1 m o2 n2 :
  slice l o1 n1 = Some m -> 0 <= o2 -> 0 <= n2 -> o2 + n2 <= n1 -> slice m o2 n2 = slice l (o1 + o2) n2.
Proof.
  intros H1 H2 H3 H4. pose proof (slice_is_some _ _ _ _ H1) as (? & ? & ?).
  pose proof (slice_length _ _ _ _ H1) as Hlen. rewrite (slice_some l) in H1 by lia. injection H1 as <-.
  rewrite !slice_some by lia. f_equal. rewrite skipn_firstn_comm, take_take, drop_drop. do 2 f_equal; lia.
Qed.

Lemma slice_whole l : slice l 0 (Z.of_nat (length l)) = Some l.
Proof. rewrite slice_some by lia. f_equal. rewrite Nat2Z.id. by apply take_ge. Qed.

Lemma slice_range l off n r : bytes_ok l -> slice l off n = Some r -> in_range (8 * n) (from_le_bytes r).
Proof.
  intros Hl Hs. pose proof (slice_is_some _ _ _ _ Hs). pose proof (slice_length _ _ _ _ Hs) as Hlen.
  pose proof (from_le_bytes_range r ltac:(by eapply slice_ok)) as Hr. rewrite Hlen in Hr.
  by replace (8 * n) with (8 * Z.of_nat (Z.to_nat n)) by lia.
Qed.

Lemma read_field_ok bytes offset width :
  0 <= offset -> 0 <= width -> offset + width <= Z.of_nat (length bytes) -> bytes_ok bytes ->
  exists v, read_field bytes offset width = Ok v /\ in_range (8 * width) v.
Proof.
  intros Ho Hw Hl Hb. destruct (slice_exists bytes offset width) as [r Hr]; [done..|].
  unfold read_field. rewrite Hr. eexists. split; [done|]. by eapply slice_range.
Qed.

Lemma read_field_inv bytes offset width v :
  read_field bytes offset width = Ok v -> exists r, slice bytes offset width = Some r /\ v = from_le_bytes r.
Proof. unfold read_field. destruct (slice _ _ _); naive_solver. Qed.

(** A field of a range that was read is the field of the source. *)
Lemma read_field_slice b start count r offset width :
  slice b start count = Some r -> 0 <= offset -> 0 <= width -> offset + width <= count ->
  read_field r offset width = read_field b (start + offset) width.
Proof. intros. unfold read_field. by erewrite slice_slice by done. Qed.

(** ** Views refine slices *)

Lemma sub_read_unfold s b offset count :
  Represents (sub_parent s) b -> 0 <= sub_offset s -> 0 <= sub_len s -> sub_offset s + sub_len s <= Z.of_nat (length b) ->
  in_range 64 offset -> in_range 64 count ->
  sub_read_at s offset count =
  match slice b (sub_offset s) (sub_len s) ≫= (fun w => slice w offset count) with Some r => Ok r | None => Err OutOfBounds end.
Proof.
  intros Hrep Hso Hsl Hin Ho Hc. pose proof (@rep_short _ _ Hrep) as Hshort. unfold in_range in *.
  destruct (slice_exists b (sub_offset s) (sub_len s)) as [w Hw]; [lia..|]. rewrite Hw. cbn [mbind option_bind].
  pose proof (slice_length _ _ _ _ Hw) as Hlen.
  unfold sub_read_at. destruct (Z.lt_ge_cases (offset + count) (2 ^ 64)).
  2:{ rewrite checked_add_large by lia. cbn [some_or result_bind]. rewrite slice_none; [done|lia..]. }
  rewrite checked_add_small by lia. cbn [some_or result_bind]. destruct (Z.ltb_spec (sub_len s) (offset + count)).
  { rewrite slice_none; [done|lia..]. }
  rewrite checked_add_small by lia. cbn [some_or result_bind].
  rewrite (rep_read (Represents := Hrep)) by (unfold in_range; lia).
  by rewrite (slice_slice b _ _ _ _ _ Hw) by lia.
Qed.

(** [SubStorage::new] accepts exactly the windows inside its parent, and the
    view is then the window. *)
Lemma sub_view_refines s b offset len :
  Represents s b -> in_range 64 offset -> in_range 64 len ->
  match slice b offset len with
  | Some w => exists v, sub_view s offset len = Ok v /\ Represents v w
  | None => sub_view s offset len = Err OutOfBounds
  end.
Proof.
  intros Hrep Ho Hl. pose proof (@rep_short _ _ Hrep) as Hshort. unfold in_range in *. unfold sub_view, SubStorage_new.
  destruct (Z.le_gt_cases (offset + len) (Z.of_nat (length b))) as [Hin|Hout].
  - destruct (slice_exists b offset len) as [w Hw]; [lia..|]. rewrite Hw.
    rewrite checked_add_small by lia. cbn [some_or result_bind]. rewrite (rep_len (Represents := Hrep)). cbn [result_bind].
    destruct (Z.ltb_spec (Z.of_nat (length b)) (offset + len)); [lia|]. eexists. split; [done|].
    pose proof (slice_length _ _ _ _ Hw) as Hlen. split.
    + eapply slice_ok; [apply (rep_bytes (Represents := Hrep))|done].
    + unfold in_range. lia.
    + cbn. f_equal. lia.
    + intros o c Hro Hrc. cbn [read_at sub_storage]. erewrite sub_read_unfold; [|done|cbn; lia..|done|done].
      cbn [sub_offset sub_len]. by rewrite Hw.
  - rewrite slice_none by lia. destruct (Z.lt_ge_cases (offset + len) (2 ^ 64)).
    + rewrite checked_add_small by lia. cbn [some_or result_bind]. rewrite (rep_len (Represents := Hrep)). cbn [result_bind].
      destruct (Z.ltb_spec (Z.of_nat (length b)) (offset + len)); [done|lia].
    + by rewrite checked_add_large by lia.
Qed.

(** Two parents that agree on a window give the same view of it, whatever they
    answer elsewhere: a view asks nothing outside its window. *)
Lemma sub_view_confined s s' offset len :
  storage_len s = storage_len s' ->
  (forall o c, offset <= o -> 0 <= c -> o + c <= offset + len -> read_at s o c = read_at s' o c) ->
  match sub_view s offset len, sub_view s' offset len with
  | Ok v, Ok v' => storage_len v = storage_len v' /\
      forall o c, in_range 64 o -> in_range 64 c -> read_at v o c = read_at v' o c
  | Err e, Err e' => e = e'
  | Panic, Panic => True
  | _, _ => False
  end.
Proof.
  intros Hlen Hread. unfold sub_view, SubStorage_new. rewrite <- Hlen.
  destruct (checked_add 64 offset len) as [e|]; [|done]. cbn [some_or result_bind].
  destruct (storage_len s) as [n| |]; [|done..]. cbn [result_bind]. destruct (n <? e); [done|]. cbn [result_bind].
  split; [done|]. intros o c Ho Hc. unfold sub_storage, sub_read_at. cbn [read_at sub_len sub_offset sub_parent].
  destruct (checked_add 64 o c) as [e'|] eqn:E; [|done]. cbn [some_or result_bind].
  apply checked_add_inv in E as [-> ?]. destruct (Z.ltb_spec len (o + c)); [done|].
  destruct (checked_add 64 offset o) as [p|] eqn:E; [|done]. apply checked_add_inv in E as [-> ?].
  cbn [some_or result_bind]. unfold in_range in *. apply Hread; lia.
Qed.

(** A tower of views: the loaders nest them (an archive in a partition in a
    package). *)
Fixpoint open_views (windows : list (Z * Z)) (s : Storage) : Result StorageError Storage :=
  match windows with
  | [] => Ok s
  | (offset, len) :: rest => let? v := sub_view s offset len in open_views rest v
  end.

Fixpoint slices (windows : list (Z * Z)) (b : list Z) : option (list Z) :=
  match windows with
  | [] => Some b
  | (offset, len) :: rest => slice b offset len ≫= slices rest
  end.

(** C27. A tower of [SubStorage] views of any depth over a source holding the
    bytes [b] opens exactly when every window lies inside the one before it,
    and fails with [OutOfBounds] otherwise; the view on top then holds exactly
    the slice of the slices: its length is the last window's, a read of a range
    inside it returns those bytes and a read that leaves it, or whose end
    overflows, is refused.  Offsets and lengths are arbitrary 64-bit integers. *)
Theorem nested_views_refine_slices (windows : list (Z * Z)) (s : Storage) (b : list Z) :
  Represents s b -> Forall (fun w => in_range 64 w.1 /\ in_range 64 w.2) windows ->
  match slices windows b with
  | Some w => exists v, open_views windows s = Ok v /\ Represents v w
  | None => open_views windows s = Err OutOfBounds
  end.
Proof.
  intros Hrep Hw. revert s b Hrep. induction Hw as [|[o l] ws [Ho Hl] Hws IH]; intros s b Hrep; cbn [slices open_views].
  { by exists s. }
  pose proof (sub_view_refines s b o l Hrep Ho Hl) as Hv. destruct (slice b o l) as [w|]; cbn [mbind option_bind].
  - destruct Hv as (v & -> & Hv). cbn [result_bind]. by apply IH.
  - by rewrite Hv.
Qed.

Lemma nested_views_refine_slices_witness :
  let s := of_bytes [10; 11; 12; 13; 14; 15; 16; 17] in
  let windows := [(1, 6); (2, 3)] in
  match slices windows [10; 11; 12; 13; 14; 15; 16; 17] with
  | Some w => w = [13; 14; 15] /\ exists v, open_views windows s = Ok v /\ Represents v w
  | None => False
  end.
Proof.
  split; [reflexivity|].
  apply (nested_views_refine_slices [(1, 6); (2, 3)] (of_bytes [10; 11; 12; 13; 14; 15; 16; 17])
           [10; 11; 12; 13; 14; 15; 16; 17]).
  - apply of_bytes_represents; [repeat constructor; discriminate|split; [discriminate|reflexivity]].
  - repeat constructor; discriminate.
Defined.

(** ** Files refine their contents *)

Lemma file_read_spec s offset count :
  match file_read_at offset count s with
  | (r, s') =>
      file_len s' = file_len s /\ file_poisoned s' = file_poisoned s /\
      file_contents (file s') = file_contents (file s) /\
      seek_fault (file s') = seek_fault (file s) /\ read_fault (file s') = read_fault (file s)
  end.
Proof.
  unfold file_read_at. destruct (checked_add 64 offset count) as [e|]; [|done].
  destruct (file_len s <? e); [done|]. destruct (file_poisoned s) eqn:Hp; [by rewrite Hp|].
  unfold bind, seek, read_exact. destruct (seek_fault (file s) offset); cbn; [done|].
  destruct (read_fault (file s) offset count); cbn; [done|]. by destruct (slice _ _ _).
Qed.

(** The position that earlier reads left does not change an answer. *)
Lemma file_read_position s s' offset count :
  file_len s' = file_len s -> file_poisoned s' = file_poisoned s ->
  file_contents (file s') = file_contents (file s) ->
  seek_fault (file s') = seek_fault (file s) -> read_fault (file s') = read_fault (file s) ->
  fst (file_read_at offset count s') = fst (file_read_at offset count s).
Proof.
  intros Hl Hp Hc Hsf Hrf. unfold file_read_at. rewrite Hl, Hp. destruct (checked_add 64 offset count) as [e|]; [|done].
  destruct (file_len s <? e); [done|]. destruct (file_poisoned s); [done|].
  unfold bind, seek, read_exact. rewrite Hsf. destruct (seek_fault (file s) offset); cbn; [done|].
  rewrite Hc, Hrf. destruct (read_fault (file s) offset count); cbn; [done|]. by destruct (slice _ _ _).
Qed.

Fixpoint file_reads (ranges : list (Z * Z)) (s : FileStorage) : list (Result StorageError (list Z)) :=
  match ranges with
  | [] => []
  | (offset, count) :: rest => let '(r, s') := file_read_at offset count s in r :: file_reads rest s'
  end.

(** Reads of one open file do not interfere: each answers as the shared,
    position-free [file_storage] does. *)
Lemma file_reads_do_not_interfere ranges s :
  file_reads ranges s = map (fun w => read_at (file_storage s) w.1 w.2) ranges.
Proof.
  enough (H : forall s', file_len s' = file_len s -> file_poisoned s' = file_poisoned s ->
    file_contents (file s') = file_contents (file s) -> seek_fault (file s') = seek_fault (file s) ->
    read_fault (file s') = read_fault (file s) ->
    file_reads ranges s' = map (fun w => read_at (file_storage s) w.1 w.2) ranges) by by apply H.
  induction ranges as [|[o c] rest IH]; intros s' ? ? ? ? ?; [done|]. cbn [file_reads map].
  pose proof (file_read_spec s' o c) as Hs. pose proof (file_read_position s s' o c) as Hr.
  destruct (file_read_at o c s') as [r s''] eqn:E. destruct Hs as (? & ? & ? & ? & ?).
  f_equal; [by apply Hr|]. apply IH; congruence.
Qed.

Lemma file_storage_represents f :
  bytes_ok (file_contents f) -> in_range 64 (Z.of_nat (length (file_contents f))) ->
  (forall o, seek_fault f o = None) -> (forall o c, read_fault f o c = None) ->
  Represents (file_storage (FileStorage_open f)) (file_contents f).
Proof.
  intros Hb Hl Hsf Hrf. split; [done|done|done|]. intros o c Ho Hc. unfold file_storage, file_read_at, FileStorage_open.
  cbn [read_at file_len file_poisoned file]. unfold in_range in *.
  destruct (Z.lt_ge_cases (o + c) (2 ^ 64)).
  2:{ rewrite checked_add_large by lia. by rewrite slice_none by lia. }
  rewrite checked_add_small by lia. destruct (Z.ltb_spec (Z.of_nat (length (file_contents f))) (o + c)).
  { by rewrite slice_none by lia. }
  unfold bind, seek, read_exact. rewrite Hsf. cbn [file_contents file_position read_fault fst]. rewrite Hrf.
  destruct (slice_exists (file_contents f) o c) as [r Hr]; [lia..|]. by rewrite Hr.
Qed.

(** A file that was truncated after it was opened fails the reads of its lost
    part with an I/O error; it never returns short data. *)
Lemma truncated_file_fails contents position len offset count :
  in_range 64 offset -> in_range 64 count -> Z.of_nat (length contents) < offset + count <= len -> len < 2 ^ 64 ->
  read_at (file_storage (mkFileStorage (mkFile contents position (fun _ => None) (fun _ _ => None)) false len)) offset count
  = Err (Io "failed to fill whole buffer").
Proof.
  intros Ho Hc Hr Hl. unfold file_storage, file_read_at. cbn [read_at file_len file_poisoned file]. unfold in_range in *.
  rewrite checked_add_small by lia. rewrite (proj2 (Z.ltb_ge len _)) by lia.
  unfold bind, seek, read_exact. cbn. by rewrite slice_none by lia.
Qed.
