(* ===== verification/LoadCrypto.v ===== *)
(** * Encrypted storage (crates/loader/content/src/crypto.rs)

    AES-CTR and AES-XTS views of a storage.  The block cipher is the [aes]
    crate's [Aes128]: a parameter, of which only the types are used (a block is
    sixteen bytes).  The theorems state what the random-access code owes to the
    modes: a read of any range at any alignment returns the bytes of the image
    decrypted as a whole. *)

From S2P Require Import Prelude Bytes LoadStorage.

Definition AES_BLOCK_SIZE : Z := 16.

(** [slice::chunks(n)]: all chunks but the last have [n] elements. *)
Fixpoint chunks_from {A} (fuel n : nat) (l : list A) : list (list A) :=
  match fuel, l with
  | S fuel, _ :: _ => take n l :: chunks_from fuel n (drop n l)
  | _, _ => []
  end.
Definition chunks {A} (n : nat) (l : list A) : list (list A) := chunks_from (length l) n l.

Definition to_be_bytes (count v : Z) : list Z := reverse (to_le_bytes count v).

(** [for (byte, mask_byte) in block.iter_mut().zip(mask) { *byte ^= mask_byte }] *)
Fixpoint xor_block (block mask : list Z) : list Z :=
  match block, mask with
  | b :: block, m :: mask => Z.lxor b m :: xor_block block mask
  | block, _ => block
  end.

(** [u64::div_ceil] *)
Definition div_ceil (x y : Z) : Z := (x + y - 1) / y.

(** [a + b] on [u64] in a build with overflow checks. *)
Definition add_u64 {E} (x y : Z) : Result E Z :=
  match checked_add 64 x y with Some z => Ok z | None => Panic end.

Fixpoint map_result {E A B} (f : A -> Result E B) (l : list A) : Result E (list B) :=
  match l with
  | [] => Ok []
  | a :: rest => let? b := f a in let? bs := map_result f rest in Ok (b :: bs)
  end.

Definition align_up (value alignment : Z) : Result StorageError Z :=
  let? value := some_or (checked_add 64 value (alignment - 1)) OutOfBounds in
  Ok (value / alignment * alignment).

Definition validate_range (s : Storage) (offset len : Z) : Result StorageError unit :=
  let? end_ := some_or (checked_add 64 offset len) OutOfBounds in
  let? n := storage_len s in
  if n <? end_ then Err OutOfBounds else Ok tt.

Section Cipher.
(** [Aes128::new(key).encrypt_block(block)] and [decrypt_block]. *)
Context (encrypt_block decrypt_block : list Z -> list Z -> list Z).

(** ** Counter mode *)

Definition counter_block (prefix : list Z) (block_number : Z) : list Z := prefix ++ to_be_bytes 8 block_number.

(** One turn of the loop over batches of eight blocks. *)
Definition apply_batch {E} (key prefix : list Z) (block_number : Z) (batch : list Z) : Result E (list Z * Z) :=
  let count := div_ceil (Z.of_nat (length batch)) AES_BLOCK_SIZE in
  let? counters := map_result (fun i => let? n := add_u64 block_number i in Ok (counter_block prefix n)) (seqZ 0 count) in
  let counters := map (encrypt_block key) counters in
  let out := concat (zip_with xor_block (chunks 16 batch) counters) in
  let? next := add_u64 block_number count in
  Ok (out, next).

Fixpoint apply_batches {E} (key prefix : list Z) (block_number : Z) (batches : list (list Z)) : Result E (list Z) :=
  match batches with
  | [] => Ok []
  | batch :: rest =>
      let? step := apply_batch key prefix block_number batch in
      let? tail := apply_batches key prefix (snd step) rest in
      Ok (fst step ++ tail)
  end.

Definition apply_ctr_blocks {E} (key prefix : list Z) (block_number : Z) (data : list Z) : Result E (list Z) :=
  apply_batches key prefix block_number (chunks 128 data).

Definition apply_ctr {E} (key prefix : list Z) (first_block : Z) (data : list Z) : Result E (list Z) :=
  apply_ctr_blocks key prefix first_block data.

Definition apply_ctr_at {E} (key prefix : list Z) (absolute_offset : Z) (data : list Z) : Result E (list Z) :=
  let within := absolute_offset mod AES_BLOCK_SIZE in
  let block_number := absolute_offset / AES_BLOCK_SIZE in
  if negb (within =? 0) then
    let counter := encrypt_block key (counter_block prefix block_number) in
    let count := Z.to_nat (Z.min (AES_BLOCK_SIZE - within) (Z.of_nat (length data))) in
    let head := xor_block (take count data) (drop (Z.to_nat within) counter) in
    let? block_number := add_u64 block_number 1 in
    let? rest := apply_ctr_blocks key prefix block_number (drop count data) in
    Ok (head ++ rest)
  else apply_ctr_blocks key prefix block_number data.

Record AesCtrStorage := mkCtr {
  ctr_parent : Storage; ctr_key : list Z; ctr_prefix : list Z; ctr_absolute_offset : Z
}.

Definition ctr_read_at (s : AesCtrStorage) (offset count : Z) : Result StorageError (list Z) :=
  let? _ := validate_range (ctr_parent s) offset count in
  if count =? 0 then Ok []
  else
    let? absolute_start := some_or (checked_add 64 (ctr_absolute_offset s) offset) OutOfBounds in
    let? buffer := read_at (ctr_parent s) offset count in
    apply_ctr_at (ctr_key s) (ctr_prefix s) absolute_start buffer.

Definition ctr_dyn (s : AesCtrStorage) : Storage := mkStorage (storage_len (ctr_parent s)) (ctr_read_at s).

Definition ctr_storage (parent : Storage) (key section_counter : list Z) (absolute_offset : Z) : Storage :=
  ctr_dyn (mkCtr parent key (reverse section_counter) absolute_offset).

(** ** XTS mode *)

(** [multiply_tweak]: the carry runs through the bytes in order. *)
Fixpoint multiply_bytes (carry : Z) (tweak : list Z) : list Z * Z :=
  match tweak with
  | [] => ([], carry)
  | byte :: rest =>
      let '(out, last) := multiply_bytes (shr byte 7) rest in
      (Z.lor (shl 8 byte 1) carry :: out, last)
  end.

Definition multiply_tweak (tweak : list Z) : list Z :=
  let '(out, carry) := multiply_bytes 0 tweak in
  if carry =? 0 then out else alter (fun byte => Z.lxor byte 0x87) O out.

Fixpoint decrypt_blocks (data_key tweak : list Z) (blocks : list (list Z)) : list Z :=
  match blocks with
  | [] => []
  | block :: rest =>
      xor_block (decrypt_block data_key (xor_block block tweak)) tweak
      ++ decrypt_blocks data_key (multiply_tweak tweak) rest
  end.

Definition decrypt_sector (key : list Z) (sector_number : Z) (sector : list Z) : list Z :=
  let tweak := encrypt_block (drop 16 key) (replicate 8 0 ++ to_be_bytes 8 sector_number) in
  decrypt_blocks (take 16 key) tweak (chunks 16 sector).

Fixpoint decrypt_sectors {E} (key : list Z) (first_sector sector_offset : Z) (sectors : list (list Z)) :
  Result E (list Z) :=
  match sectors with
  | [] => Ok []
  | sector :: rest =>
      let? sector_number := add_u64 first_sector sector_offset in
      let? tail := decrypt_sectors key first_sector (sector_offset + 1) rest in
      Ok (decrypt_sector key sector_number sector ++ tail)
  end.

(** The assertions on the sizes are [debug_assert!]s. *)
Definition decrypt_xts {E} (key data : list Z) (first_sector sector_size : Z) : Result E (list Z) :=
  if (sector_size <? AES_BLOCK_SIZE) || negb (sector_size mod AES_BLOCK_SIZE =? 0)
     || negb (Z.of_nat (length data) mod sector_size =? 0) then Panic
  else decrypt_sectors key first_sector 0 (chunks (Z.to_nat sector_size) data).

Record AesXtsStorage := mkXts { xts_parent : Storage; xts_key : list Z; xts_sector_size : Z }.

Definition xts_read_at (s : AesXtsStorage) (offset count : Z) : Result StorageError (list Z) :=
  let? _ := validate_range (xts_parent s) offset count in
  if count =? 0 then Ok []
  else
    let? request_end := some_or (checked_add 64 offset count) OutOfBounds in
    let aligned_start := offset / xts_sector_size s * xts_sector_size s in
    let? aligned_end := align_up request_end (xts_sector_size s) in
    let? encrypted := read_at (xts_parent s) aligned_start (aligned_end - aligned_start) in
    let? plain := decrypt_xts (xts_key s) encrypted (aligned_start / xts_sector_size s) (xts_sector_size s) in
    match slice plain (offset - aligned_start) count with
    | Some buffer => Ok buffer
    | None => Panic
    end.

Definition xts_dyn (s : AesXtsStorage) : Storage := mkStorage (storage_len (xts_parent s)) (xts_read_at s).

Definition xts_storage (parent : Storage) (key : list Z) : Storage := xts_dyn (mkXts parent key 0x200).

(** [decrypt_ecb_blocks] *)
Definition decrypt_ecb_blocks {E} (key data : list Z) : Result E (list Z) :=
  if negb (Z.of_nat (length data) mod AES_BLOCK_SIZE =? 0) then Panic
  else Ok (concat (map (decrypt_block key) (chunks 16 data))).
End Cipher.

(** ** Chunks *)

Lemma chunks_from_fuel {A} n (l : list A) fuel fuel' :
  (0 < n)%nat -> (length l <= fuel)%nat -> (length l <= fuel')%nat -> chunks_from fuel n l = chunks_from fuel' n l.
Proof.
  intros Hn. revert l fuel'. induction fuel as [|fuel IH]; intros l [|fuel'] H1 H2; destruct l as [|x l]; simpl in *; try done; try lia.
  f_equal. apply IH; rewrite length_drop; simpl; lia.
Qed.

Lemma chunks_cons {A} n (l : list A) : (0 < n)%nat -> l <> [] -> chunks n l = take n l :: chunks n (drop n l).
Proof.
  intros Hn Hl. destruct l as [|x l]; [done|]. unfold chunks at 1. cbn [length chunks_from]. f_equal.
  apply chunks_from_fuel; [done|rewrite length_drop; simpl; lia|done].
Qed.

(** Induction over the chunks of a list. *)
Lemma chunks_ind {A} (n : nat) (P : list A -> Prop) :
  (0 < n)%nat -> P [] -> (forall l, l <> [] -> P (drop n l) -> P l) -> forall l, P l.
Proof.
  intros Hn H0 Hs l. remember (length l) as k eqn:Hk. assert (Hle : (length l <= k)%nat) by lia. clear Hk. revert l Hle.
  induction k as [|k IH]; intros [|x l] Hle; simpl in *; try done; try lia.
  apply Hs; [done|]. apply IH. rewrite length_drop. simpl. lia.
Qed.

Lemma chunks_app {A} n (a b : list A) :
  (0 < n)%nat -> (exists k, length a = k * n)%nat -> chunks n (a ++ b) = chunks n a ++ chunks n b.
Proof.
  intros Hn. revert a. apply (chunks_ind n (fun a => (exists k, length a = k * n)%nat -> chunks n (a ++ b) = chunks n a ++ chunks n b)).
  - done.
  - done.
  - intros a Ha IH [k Hk]. assert (Hna : (n <= length a)%nat).
    { destruct k as [|k]; [|nia]. destruct a; simpl in *; [done|lia]. }
    rewrite (chunks_cons n (a ++ b)), (chunks_cons n a) by (done || by destruct a). cbn [app]. f_equal.
    + by rewrite take_app_le.
    + rewrite drop_app_le by done. apply IH. exists (pred k). rewrite length_drop. destruct k; simpl; lia.
Qed.

Lemma div_ceil_step x y : 0 < y -> y <= x -> div_ceil x y = 1 + div_ceil (x - y) y.
Proof. intros. unfold div_ceil. replace (x + y - 1) with ((x - y + y - 1) + 1 * y) by lia. rewrite Z.div_add by lia. lia. Qed.

Lemma div_ceil_small x y : 0 < x <= y -> div_ceil x y = 1.
Proof. intros. unfold div_ceil. replace (x + y - 1) with ((x - 1) + 1 * y) by lia. rewrite Z.div_add, Z.div_small by lia. lia. Qed.

Lemma div_ceil_bounds x y : 0 <= x -> 0 < y -> 0 <= div_ceil x y /\ x <= y * div_ceil x y < x + y.
Proof.
  intros. unfold div_ceil. pose proof (Z.div_mod (x + y - 1) y ltac:(lia)). pose proof (Z.mod_pos_bound (x + y - 1) y ltac:(lia)).
  assert (0 <= (x + y - 1) / y) by (apply Z.div_pos; lia). lia.
Qed.

(** ** Counter mode decrypts byte by byte *)

Lemma add_u64_small {E} x y : x + y < 2 ^ 64 -> add_u64 (E := E) x y = Ok (x + y).
Proof. intros. unfold add_u64. by rewrite checked_add_small. Qed.

Lemma map_result_ok {E A B} (f : A -> Result E B) (g : A -> B) l :
  (forall a, a ∈ l -> f a = Ok (g a)) -> map_result f l = Ok (map g l).
Proof.
  induction l as [|a l IH]; intros H; [done|]. cbn [map_result map]. rewrite H by set_solver. cbn [result_bind].
  rewrite IH by set_solver. done.
Qed.

Lemma map_seqZ_succ {A} (f : Z -> A) start count :
  map f (seqZ (Z.succ start) count) = map (fun i => f (1 + i)) (seqZ start count).
Proof.
  replace (Z.succ start) with (1 + start) by lia. rewrite <- fmap_add_seqZ. rewrite map_map. done.
Qed.

Lemma length_xor_block b m : length (xor_block b m) = length b.
Proof. revert m. induction b as [|x b IH]; intros [|y m]; simpl; [done..|]. by rewrite IH. Qed.

Lemma xor_block_imap b m :
  (length b <= length m)%nat -> xor_block b m = imap (fun i x => Z.lxor x (default 0 (m !! i))) b.
Proof.
  revert m. induction b as [|x b IH]; intros [|y m] Hl; simpl in *; try done; try lia.
  f_equal. rewrite IH by lia. apply imap_ext. by intros i z Hz.
Qed.

Section Counter.
Context (encrypt_block : list Z -> list Z -> list Z).
Context (encrypt_length : forall key block, length (encrypt_block key block) = 16%nat).
Context (encrypt_bytes : forall key block, bytes_ok (encrypt_block key block)).

(** The key stream of the mode, by position in the encrypted image. *)
Definition keystream (key prefix : list Z) (position : Z) : Z :=
  default 0 (encrypt_block key (counter_block prefix (position / 16)) !! Z.to_nat (position mod 16)).

(** The image decrypted as a whole. *)
Definition ctr_image (key prefix : list Z) (start : Z) (data : list Z) : list Z :=
  imap (fun i x => Z.lxor x (keystream key prefix (start + Z.of_nat i))) data.

Lemma ctr_image_app key prefix start a b :
  ctr_image key prefix start (a ++ b)
  = ctr_image key prefix start a ++ ctr_image key prefix (start + Z.of_nat (length a)) b.
Proof.
  unfold ctr_image. rewrite imap_app. f_equal. apply imap_ext. intros i x _. do 2 f_equal. lia.
Qed.

Lemma length_ctr_image key prefix start data : length (ctr_image key prefix start data) = length data.
Proof. apply length_imap. Qed.

Lemma ctr_image_lookup key prefix start data i :
  ctr_image key prefix start data !! i = (fun x => Z.lxor x (keystream key prefix (start + Z.of_nat i))) <$> data !! i.
Proof. apply list_lookup_imap. Qed.

Lemma keystream_range key prefix p : in_range 8 (keystream key prefix p).
Proof.
  unfold keystream. destruct (_ !! _) as [x|] eqn:E; cbn; [|done].
  eapply Forall_lookup_1; [apply encrypt_bytes|done].
Qed.

Lemma ctr_image_bytes key prefix start data : bytes_ok data -> bytes_ok (ctr_image key prefix start data).
Proof.
  intros Hd. apply Forall_lookup_2. intros i x. rewrite ctr_image_lookup. intros (y & Hy & ->)%fmap_Some.
  apply in_range_lxor; [done| |apply keystream_range]. by eapply Forall_lookup_1.
Qed.

(** A slice of the image is the image of the slice, at its position. *)
Lemma ctr_image_slice key prefix start data offset count :
  slice (ctr_image key prefix start data) offset count
  = ctr_image key prefix (start + offset) <$> slice data offset count.
Proof.
  unfold slice. rewrite length_ctr_image. destruct (_ && _) eqn:E; [|done]. cbn. f_equal.
  rewrite !andb_true_iff, !Z.leb_le in E. apply list_eq. intros i.
  rewrite ctr_image_lookup, !lookup_take, !lookup_drop, ctr_image_lookup. case_decide; [|done].
  replace (start + offset + Z.of_nat i) with (start + Z.of_nat (Z.to_nat offset + i)) by lia. done.
Qed.

(** One block at an offset within it. *)
Lemma xor_counter key prefix position data :
  0 <= position -> Z.of_nat (length data) <= 16 - position mod 16 ->
  xor_block data (drop (Z.to_nat (position mod 16)) (encrypt_block key (counter_block prefix (position / 16))))
  = ctr_image key prefix position data.
Proof.
  intros Hp Hl. pose proof (Z.mod_pos_bound position 16 ltac:(lia)) as Hm. pose proof (Z.div_mod position 16 ltac:(lia)) as Hdm.
  rewrite xor_block_imap by (rewrite length_drop, encrypt_length; lia). apply imap_ext. intros i x Hi.
  apply lookup_lt_Some in Hi. rewrite lookup_drop. unfold keystream. f_equal.
  assert (Hq : (position + Z.of_nat i) / 16 = position / 16 /\ (position + Z.of_nat i) mod 16 = position mod 16 + Z.of_nat i).
  { replace (position + Z.of_nat i) with ((position mod 16 + Z.of_nat i) + position / 16 * 16) by lia.
    rewrite Z.div_add, Z_mod_plus_full, Z.div_small, Z.mod_small by lia. lia. }
  destruct Hq as [-> ->]. do 2 f_equal. lia.
Qed.

Lemma xor_blocks key prefix n data :
  0 <= n ->
  concat (zip_with xor_block (chunks 16 data)
    (map (fun i => encrypt_block key (counter_block prefix (n + i))) (seqZ 0 (div_ceil (Z.of_nat (length data)) 16))))
  = ctr_image key prefix (16 * n) data.
Proof.
  revert n. revert data. apply (chunks_ind 16 (fun data => forall n, 0 <= n -> _ = _)); [lia|done|].
  intros data Hne IH n Hn. assert (Hpos : 0 < Z.of_nat (length data)) by (destruct data; [done|simpl; lia]).
  rewrite chunks_cons by (lia || done).
  assert (Hc : div_ceil (Z.of_nat (length data)) 16 = 1 + div_ceil (Z.of_nat (length (drop 16 data))) 16).
  { rewrite length_drop. destruct (Z.le_gt_cases 16 (Z.of_nat (length data))).
    - rewrite div_ceil_step by lia. do 2 f_equal. lia.
    - rewrite div_ceil_small by lia. replace (length data - 16)%nat with 0%nat by lia. done. }
  pose proof (div_ceil_bounds (Z.of_nat (length (drop 16 data))) 16 ltac:(lia) ltac:(lia)) as [Hb _].
  rewrite Hc, seqZ_cons by lia. cbn [map zip_with concat].
  replace (Z.pred (1 + div_ceil (Z.of_nat (length (drop 16 data))) 16)) with (div_ceil (Z.of_nat (length (drop 16 data))) 16) by lia.
  rewrite map_seqZ_succ.
  rewrite <- (take_drop 16 data) at 4. rewrite ctr_image_app. f_equal.
  - pose proof (xor_counter key prefix (16 * n) (take 16 data)) as Hx.
    replace ((16 * n) mod 16) with 0 in Hx by (rewrite Z.mul_comm; symmetry; apply Z_mod_mult).
    replace (16 * n / 16) with n in Hx by (rewrite Z.mul_comm, Z_div_mult; lia). rewrite Z.add_0_r. apply Hx; [lia|].
    rewrite length_take. lia.
  - destruct (decide (16 <= length data)%nat).
    + rewrite length_take, Nat.min_l by done. replace (16 * n + Z.of_nat 16) with (16 * (n + 1)) by lia.
      rewrite <- IH by lia. do 2 f_equal. apply map_ext. intros i. do 2 f_equal. lia.
    + rewrite (drop_ge data) by lia. done.
Qed.

Lemma apply_batch_ok {E} key prefix n data :
  0 <= n -> n + div_ceil (Z.of_nat (length data)) 16 < 2 ^ 64 ->
  apply_batch (E := E) encrypt_block key prefix n data
  = Ok (ctr_image key prefix (16 * n) data, n + div_ceil (Z.of_nat (length data)) 16).
Proof.
  intros Hn Hb. unfold apply_batch, AES_BLOCK_SIZE.
  rewrite (map_result_ok _ (fun i => counter_block prefix (n + i))).
  2:{ intros i Hi%elem_of_seqZ. rewrite add_u64_small by lia. done. }
  cbn [result_bind]. rewrite map_map, xor_blocks by done. rewrite add_u64_small by done. done.
Qed.

(** [apply_ctr_blocks] is the whole-image decryption from a block boundary. *)
Lemma apply_ctr_blocks_ok {E} key prefix n data :
  0 <= n -> n + div_ceil (Z.of_nat (length data)) 16 < 2 ^ 64 ->
  apply_ctr_blocks (E := E) encrypt_block key prefix n data = Ok (ctr_image key prefix (16 * n) data).
Proof.
  unfold apply_ctr_blocks. revert n. revert data. apply (chunks_ind 128 (fun data => forall n, _ -> _ -> _)); [lia|done|].
  intros data Hne IH n Hn Hb. rewrite chunks_cons by (lia || done). cbn [apply_batches].
  assert (Hsplit : div_ceil (Z.of_nat (length data)) 16
    = div_ceil (Z.of_nat (length (take 128 data))) 16 + div_ceil (Z.of_nat (length (drop 128 data))) 16).
  { rewrite length_take, length_drop. destruct (Nat.le_gt_cases 128 (length data)).
    - rewrite Nat.min_l by done. replace (Z.of_nat (length data)) with (Z.of_nat (length data - 128) + 128) by lia.
      unfold div_ceil. replace (Z.of_nat (length data - 128) + 128 + 16 - 1) with (Z.of_nat (length data - 128) + 16 - 1 + 8 * 16) by lia.
      rewrite Z.div_add by lia. change ((Z.of_nat 128 + 16 - 1) / 16) with 8. lia.
    - rewrite Nat.min_r by lia. replace (length data - 128)%nat with 0%nat by lia. change (div_ceil (Z.of_nat 0) 16) with 0. lia. }
  pose proof (div_ceil_bounds (Z.of_nat (length (drop 128 data))) 16 ltac:(lia) ltac:(lia)) as [Hd _].
  pose proof (div_ceil_bounds (Z.of_nat (length (take 128 data))) 16 ltac:(lia) ltac:(lia)) as [Ht _].
  rewrite apply_batch_ok by lia. cbn [result_bind fst snd]. rewrite IH by lia. cbn [result_bind]. f_equal.
  rewrite <- (take_drop 128 data) at 4. rewrite ctr_image_app. f_equal.
  destruct (Nat.le_gt_cases 128 (length data)).
  - rewrite length_take, Nat.min_l by done. f_equal. change (div_ceil (Z.of_nat 128) 16) with 8. lia.
  - by rewrite drop_ge by lia.
Qed.

(** [apply_ctr_at] is the whole-image decryption from any byte. *)
Lemma apply_ctr_at_ok {E} key prefix start data :
  0 <= start -> start + Z.of_nat (length data) + 16 < 2 ^ 64 ->
  apply_ctr_at (E := E) encrypt_block key prefix start data = Ok (ctr_image key prefix start data).
Proof.
  intros Hs Hb. unfold apply_ctr_at, AES_BLOCK_SIZE.
  pose proof (Z.mod_pos_bound start 16 ltac:(lia)) as Hm. pose proof (Z.div_mod start 16 ltac:(lia)) as Hdm.
  assert (Hq : 0 <= start / 16) by (apply Z.div_pos; lia).
  destruct (Z.eqb_spec (start mod 16) 0) as [H0|H0]; cbn [negb].
  - pose proof (div_ceil_bounds (Z.of_nat (length data)) 16 ltac:(lia) ltac:(lia)). rewrite apply_ctr_blocks_ok by lia.
    do 2 f_equal. lia.
  - set (count := Z.to_nat (Z.min (16 - start mod 16) (Z.of_nat (length data)))).
    rewrite add_u64_small by lia. cbn [result_bind].
    pose proof (div_ceil_bounds (Z.of_nat (length (drop count data))) 16 ltac:(lia) ltac:(lia)). rewrite length_drop in *.
    rewrite apply_ctr_blocks_ok by (rewrite ?length_drop; lia). cbn [result_bind]. f_equal.
    rewrite xor_counter by (rewrite ?length_take; lia). rewrite <- (take_drop count data) at 3. rewrite ctr_image_app. f_equal.
    destruct (decide (length data <= count)%nat).
    + by rewrite drop_ge by done.
    + f_equal. rewrite length_take. lia.
Qed.

(** The view decrypts: it holds the image of its parent's bytes. *)
Lemma ctr_dyn_represents s b :
  Represents (ctr_parent s) b -> 0 <= ctr_absolute_offset s ->
  ctr_absolute_offset s + Z.of_nat (length b) + 16 < 2 ^ 64 ->
  Represents (ctr_dyn encrypt_block s) (ctr_image (ctr_key s) (ctr_prefix s) (ctr_absolute_offset s) b).
Proof.
  intros Hrep Ha Hb. split.
  - apply ctr_image_bytes, Hrep.
  - rewrite length_ctr_image. apply Hrep.
  - rewrite length_ctr_image. apply Hrep.
  - intros offset count Ho Hc. rewrite ctr_image_slice. cbn [ctr_dyn read_at]. unfold ctr_read_at, validate_range.
    unfold in_range in *. rewrite (rep_len (Represents := Hrep)).
    destruct (Z.lt_ge_cases (offset + count) (2 ^ 64)).
    2:{ rewrite checked_add_large by lia. rewrite slice_none by lia. done. }
    rewrite checked_add_small by lia. cbn [some_or result_bind].
    destruct (Z.ltb_spec (Z.of_nat (length b)) (offset + count)).
    { rewrite slice_none by lia. done. }
    cbn [result_bind]. destruct (slice_exists b offset count) as [r Hr]; [lia..|]. rewrite Hr. cbn [fmap option_fmap option_map].
    pose proof (slice_length _ _ _ _ Hr) as Hl. destruct (Z.eqb_spec count 0) as [->|].
    { destruct r; [done|discriminate]. }
    rewrite checked_add_small by lia. cbn [some_or result_bind].
    rewrite (rep_read (Represents := Hrep)) by (unfold in_range; lia). rewrite Hr. cbn [result_bind].
    by rewrite apply_ctr_at_ok by lia.
Qed.
End Counter.

(** ** XTS decrypts sector by sector *)

Section Xts.
Context (encrypt_block decrypt_block : list Z -> list Z -> list Z).
Context (encrypt_bytes : forall key block, bytes_ok (encrypt_block key block)).
Context (decrypt_length : forall key block, length (decrypt_block key block) = 16%nat).
Context (decrypt_bytes : forall key block, bytes_ok (decrypt_block key block)).

Fixpoint xts_sectors (key : list Z) (first : Z) (sectors : list (list Z)) : list Z :=
  match sectors with
  | [] => []
  | sector :: rest => decrypt_sector encrypt_block decrypt_block key first sector ++ xts_sectors key (first + 1) rest
  end.

(** The image decrypted as a whole. *)
Definition xts_image (key : list Z) (sector_size first : Z) (data : list Z) : list Z :=
  xts_sectors key first (chunks (Z.to_nat sector_size) data).

Lemma xts_sectors_app key first a b :
  xts_sectors key first (a ++ b) = xts_sectors key first a ++ xts_sectors key (first + Z.of_nat (length a)) b.
Proof.
  revert first. induction a as [|x a IH]; intros first; cbn [app xts_sectors length].
  - f_equal. lia.
  - rewrite IH, <- app_assoc. do 3 f_equal. lia.
Qed.

Lemma decrypt_sectors_ok {E} key first offset sectors :
  first + offset + Z.of_nat (length sectors) <= 2 ^ 64 ->
  decrypt_sectors (E := E) encrypt_block decrypt_block key first offset sectors
  = Ok (xts_sectors key (first + offset) sectors).
Proof.
  revert offset. induction sectors as [|s rest IH]; intros offset Hb; [done|]. cbn [decrypt_sectors xts_sectors length] in *.
  rewrite add_u64_small by lia. cbn [result_bind]. rewrite IH by lia. cbn [result_bind]. do 3 f_equal. lia.
Qed.

Lemma length_chunks {A} n k (l : list A) : (0 < n)%nat -> length l = (k * n)%nat -> length (chunks n l) = k.
Proof.
  intros Hn. revert l k. refine (chunks_ind n _ Hn _ _).
  - intros k Hk. simpl in *. destruct k; simpl in *; [done|lia].
  - intros l Hl IH k Hk. rewrite chunks_cons by done. cbn [length]. destruct k as [|k].
    { destruct l; [done|discriminate]. }
    f_equal. apply IH. rewrite length_drop. simpl in *. lia.
Qed.

Lemma decrypt_blocks_shape key tweak data k :
  length data = (k * 16)%nat -> bytes_ok tweak ->
  length (decrypt_blocks decrypt_block key tweak (chunks 16 data)) = length data /\
  bytes_ok (decrypt_blocks decrypt_block key tweak (chunks 16 data)).
Proof.
  assert (Hx : forall b m, bytes_ok b -> bytes_ok m -> bytes_ok (xor_block b m)).
  { intros b m Hb. revert m. induction Hb as [|x b ? Hb IH]; intros [|y m] Hm; simpl; try done; [by constructor|].
    inversion Hm; subst. constructor; [by apply in_range_lxor|by apply IH]. }
  assert (Hm : forall t, bytes_ok t -> bytes_ok (multiply_tweak t)).
  { assert (Hc : forall t c, bytes_ok t -> in_range 8 c -> bytes_ok (fst (multiply_bytes c t)) /\ in_range 8 (snd (multiply_bytes c t))).
    { induction t as [|x t IH]; intros c Ht Hc; [done|]. cbn [multiply_bytes]. inversion Ht; subst.
      destruct (IH (shr x 7)) as [IH1 IH2]; [done|by apply in_range_shr|]. destruct (multiply_bytes (shr x 7) t) as [out last].
      cbn [fst snd] in *. split; [|done]. constructor; [|done]. apply in_range_lor; [done|by apply wrap_range|done]. }
    intros t Ht. unfold multiply_tweak. destruct (Hc t 0 Ht) as [Ho _]; [done|]. destruct (multiply_bytes 0 t) as [out c].
    cbn [fst] in Ho. destruct (c =? 0); [done|]. apply Forall_alter; [done|]. intros x _ Hr. by apply in_range_lxor. }
  revert k tweak. revert data. refine (chunks_ind 16 _ ltac:(lia) _ _); [done|].
  intros data Hne IH [|k] tweak Hk Ht; [destruct data; done|]. rewrite chunks_cons by (lia || done). cbn [decrypt_blocks].
  destruct (IH k (multiply_tweak tweak)) as [IH1 IH2]; [rewrite length_drop; lia|by apply Hm|].
  rewrite length_app, length_xor_block, decrypt_length, IH1, length_drop. split; [lia|].
  apply Forall_app. split; [|done]. by apply Hx.
Qed.

Lemma decrypt_sector_shape key n data k :
  length data = (k * 16)%nat ->
  length (decrypt_sector encrypt_block decrypt_block key n data) = length data /\
  bytes_ok (decrypt_sector encrypt_block decrypt_block key n data).
Proof. intros Hk. unfold decrypt_sector. by eapply decrypt_blocks_shape. Qed.

Section Sectors.
Context (sector_size : Z) (sector_blocks : nat).
Context (sector_shape : sector_size = 16 * Z.of_nat sector_blocks) (sector_pos : 0 < sector_size).

Lemma xts_image_app key first a b k :
  length a = (k * Z.to_nat sector_size)%nat ->
  xts_image key sector_size first (a ++ b)
  = xts_image key sector_size first a ++ xts_image key sector_size (first + Z.of_nat k) b.
Proof.
  intros Hk. unfold xts_image. rewrite chunks_app by (lia || by exists k). rewrite xts_sectors_app.
  by rewrite (length_chunks _ k) by (lia || done).
Qed.

Lemma xts_image_shape key first data k :
  length data = (k * Z.to_nat sector_size)%nat ->
  length (xts_image key sector_size first data) = length data /\ bytes_ok (xts_image key sector_size first data).
Proof.
  unfold xts_image. revert k first. revert data. refine (chunks_ind (Z.to_nat sector_size) _ ltac:(lia) _ _); [done|].
  intros data Hne IH [|k] first Hk; [destruct data; done|]. rewrite chunks_cons by (lia || done). cbn [xts_sectors].
  destruct (IH k (first + 1)) as [IH1 IH2]; [rewrite length_drop; lia|].
  destruct (decrypt_sector_shape key first (take (Z.to_nat sector_size) data) sector_blocks) as [Hl Hb].
  { rewrite length_take. lia. }
  rewrite length_app, Hl, IH1, length_take, length_drop, Forall_app. split; [lia|done].
Qed.

(** An aligned range of the image is the range decrypted on its own. *)
Lemma xts_image_slice key b first count r k :
  slice b (first * sector_size) (count * sector_size) = Some r -> 0 <= first -> 0 <= count ->
  length b = (k * Z.to_nat sector_size)%nat ->
  slice (xts_image key sector_size 0 b) (first * sector_size) (count * sector_size) = Some (xts_image key sector_size first r).
Proof.
  intros Hr Hf Hc Hk. pose proof (slice_is_some _ _ _ _ Hr) as (H1 & H2 & H3).
  rewrite slice_some in Hr by lia. injection Hr as Hr.
  assert (Hb : b = take (Z.to_nat (first * sector_size)) b ++ r ++ drop (Z.to_nat (count * sector_size)) (drop (Z.to_nat (first * sector_size)) b)).
  { rewrite <- Hr, take_drop, take_drop. done. }
  assert (Hlen : forall n (l : list Z), 0 <= n -> length l = Z.to_nat (n * sector_size) -> length l = (Z.to_nat n * Z.to_nat sector_size)%nat).
  { intros n l Hn ->. by rewrite Z2Nat.inj_mul by lia. }
  pose proof (xts_image_shape key 0 b k Hk) as [Hil _].
  rewrite slice_some by (rewrite ?Hil; lia). f_equal. rewrite Hb at 1.
  assert (Htake : length (take (Z.to_nat (first * sector_size)) b) = (Z.to_nat first * Z.to_nat sector_size)%nat).
  { apply Hlen; [done|]. rewrite length_take. lia. }
  assert (Hrl : length r = (Z.to_nat count * Z.to_nat sector_size)%nat).
  { apply Hlen; [done|]. rewrite <- Hr, length_take, length_drop. lia. }
  rewrite (xts_image_app _ _ _ _ _ Htake), (xts_image_app _ _ _ _ _ Hrl).
  pose proof (xts_image_shape key 0 _ _ Htake) as [Hl1 _]. pose proof (xts_image_shape key (0 + Z.of_nat (Z.to_nat first)) _ _ Hrl) as [Hl2 _].
  rewrite drop_app_length' by (rewrite Hl1, Htake, Z2Nat.inj_mul; lia).
  rewrite take_app_length' by (rewrite Hl2, Hrl, Z2Nat.inj_mul; lia). f_equal. lia.
Qed.

Lemma xts_dyn_represents s b k :
  xts_sector_size s = sector_size -> Represents (xts_parent s) b ->
  length b = (k * Z.to_nat sector_size)%nat -> Z.of_nat (length b) + sector_size < 2 ^ 64 ->
  Represents (xts_dyn encrypt_block decrypt_block s) (xts_image (xts_key s) sector_size 0 b).
Proof.
  intros Hss Hrep Hk Hb. destruct (xts_image_shape (xts_key s) 0 b k Hk) as [Hl Hbytes]. split.
  - done.
  - rewrite Hl. apply Hrep.
  - rewrite Hl. apply Hrep.
  - intros offset count Ho Hc. cbn [xts_dyn read_at]. unfold xts_read_at, validate_range.
    unfold in_range in *. rewrite (rep_len (Represents := Hrep)).
    destruct (Z.lt_ge_cases (offset + count) (2 ^ 64)).
    2:{ rewrite checked_add_large by lia. rewrite slice_none by lia. done. }
    rewrite checked_add_small by lia. cbn [some_or result_bind].
    destruct (Z.ltb_spec (Z.of_nat (length b)) (offset + count)).
    { rewrite slice_none by lia. done. }
    cbn [result_bind]. destruct (Z.eqb_spec count 0) as [->|].
    { by rewrite slice_some by lia. }
    unfold align_up. rewrite Hss, checked_add_small by lia. cbn [some_or result_bind].
    set (first := offset / sector_size). set (last := (offset + count + (sector_size - 1)) / sector_size).
    pose proof (Z.div_mod offset sector_size ltac:(lia)) as Hdm. pose proof (Z.mod_pos_bound offset sector_size ltac:(lia)).
    pose proof (Z.div_mod (offset + count + (sector_size - 1)) sector_size ltac:(lia)) as Hdm2.
    pose proof (Z.mod_pos_bound (offset + count + (sector_size - 1)) sector_size ltac:(lia)).
    fold first in Hdm. fold last in Hdm2. assert (0 <= first) by (apply Z.div_pos; lia).
    assert (Hlast : last <= Z.of_nat k) by nia. assert (Hfl : first <= last) by nia.
    assert (Hkz : Z.of_nat (length b) = Z.of_nat k * sector_size) by (rewrite Hk, Nat2Z.inj_mul, Z2Nat.id by lia; done).
    assert (Hend : last * sector_size <= Z.of_nat (length b)) by (rewrite Hkz; by apply Z.mul_le_mono_nonneg_r; lia).
    assert (Hwide : last <= Z.of_nat (length b)) by nia.
    assert (0 <= first * sector_size /\ 0 <= (last - first) * sector_size) by nia.
    destruct (slice_exists b (first * sector_size) ((last - first) * sector_size)) as [r Hr]; [lia..|].
    replace (last * sector_size - first * sector_size) with ((last - first) * sector_size) by lia.
    rewrite (rep_read (Represents := Hrep)) by (unfold in_range; lia). rewrite Hr. cbn [result_bind].
    pose proof (slice_length _ _ _ _ Hr) as Hrl. rewrite Z2Nat.inj_mul in Hrl by lia.
    unfold decrypt_xts, AES_BLOCK_SIZE. rewrite Hrl.
    assert (Hmod : sector_size mod 16 = 0) by (rewrite sector_shape, Z.mul_comm; apply Z_mod_mult).
    rewrite (proj2 (Z.ltb_ge sector_size 16)) by lia. rewrite Hmod.
    replace (Z.of_nat (Z.to_nat (last - first) * Z.to_nat sector_size)) with ((last - first) * sector_size) by (rewrite Nat2Z.inj_mul, !Z2Nat.id by lia; done).
    rewrite Z_mod_mult. cbn [negb orb Z.eqb].
    rewrite Z_div_mult by lia. rewrite decrypt_sectors_ok; cycle 1.
    { rewrite (length_chunks _ (Z.to_nat (last - first))) by (lia || done).
      lia. }
    cbn [result_bind]. rewrite Z.add_0_r. fold (xts_image (xts_key s) sector_size first r).
    pose proof (xts_image_slice (xts_key s) b first (last - first) r k Hr ltac:(lia) ltac:(lia) Hk) as Hs.
    rewrite (slice_slice _ _ _ _ _ _ Hs) by lia. replace (first * sector_size + (offset - first * sector_size)) with offset by lia.
    destruct (slice_exists (xts_image (xts_key s) sector_size 0 b) offset count) as [x Hx]; [lia..|]. by rewrite Hx.
Qed.
End Sectors.
End Xts.
