(* ===== verification/LoadArchive.v ===== *)
(** * Flat archives (crates/loader/content/src/pfs0.rs, hfs0.rs)

    The parsers of partition archives, with every check of the header, the entry
    table and the string table in the order of the source.  A Rust [String] is
    its UTF-8 bytes, so names are lists of bytes.

    The specification is the format: which byte images are archives of which
    entries.  The parser accepts exactly those images. *)

From S2P Require Import Prelude Bytes LoadStorage LoadCrypto.

(** ** UTF-8 ([std::str::from_utf8]) *)

Definition continuation (b : Z) : bool := (0x80 <=? b) && (b <=? 0xbf).
Definition within (lo hi b : Z) : bool := (lo <=? b) && (b <=? hi).

(** The second byte of a three- and of a four-byte sequence: no overlong
    forms, no surrogates, nothing above U+10FFFF. *)
Definition second_of_three (a b : Z) : bool :=
  if a =? 0xe0 then within 0xa0 0xbf b
  else if a =? 0xed then within 0x80 0x9f b
  else within 0xe1 0xef a && continuation b.
Definition second_of_four (a b : Z) : bool :=
  if a =? 0xf0 then within 0x90 0xbf b
  else if a =? 0xf4 then within 0x80 0x8f b
  else within 0xf1 0xf3 a && continuation b.

Fixpoint utf8_valid (l : list Z) : bool :=
  match l with
  | [] => true
  | a :: t1 =>
      if a <? 0x80 then utf8_valid t1
      else
        match t1 with
        | b :: t2 =>
            if within 0xc2 0xdf a then continuation b && utf8_valid t2
            else
              match t2 with
              | c :: t3 =>
                  if within 0xe0 0xef a then second_of_three a b && continuation c && utf8_valid t3
                  else
                    match t3 with
                    | d :: t4 => second_of_four a b && continuation c && continuation d && utf8_valid t4
                    | [] => false
                    end
              | [] => false
              end
        | [] => false
        end
  end.

(** [bytes.iter().position(|byte| *byte == 0)] *)
Fixpoint zero_position (l : list Z) : option nat :=
  match l with
  | [] => None
  | b :: rest => if b =? 0 then Some O else S <$> zero_position rest
  end.

(** [for index in first..]: a loop with early return over a list of indices. *)
Fixpoint for_each {E S} (body : Z -> S -> Result E S) (indices : list Z) (s : S) : Result E S :=
  match indices with
  | [] => Ok s
  | i :: rest => let? s := body i s in for_each body rest s
  end.

(** [metadata[start..end]] and [string_table.get(offset..)] *)
Definition index_range (l : list Z) (start end_ : Z) : Result LoadError (list Z) :=
  match slice l start (end_ - start) with Some r => Ok r | None => Panic end.
Definition get_from (l : list Z) (offset : Z) : option (list Z) := slice l offset (Z.of_nat (length l) - offset).

(** ** The parts the two formats share *)

Definition HEADER_SIZE : Z := 0x10.
Definition MAX_FILE_COUNT : Z := 65536.
Definition MAX_METADATA_SIZE : Z := 64 * 1024 * 1024.

(** [storage.read_at(offset, &mut buffer)?] *)
Definition read (s : Storage) (offset count : Z) : Result LoadError (list Z) := stored (read_at s offset count).

(** The end of a name in the bytes that follow its start. *)
Definition name_end (format : string) (implicit : bool) (s : Storage) (metadata_size : Z) (name_bytes : list Z) :
  Result LoadError nat :=
  match zero_position name_bytes with
  | Some end_ => Ok end_
  | None =>
      if implicit then
        let? terminator := read s metadata_size 1 in
        match terminator !! O with
        | Some t => if negb (t =? 0) then invalid format "file name is not null-terminated" else Ok (length name_bytes)
        | None => Panic
        end
      else invalid format "file name is not null-terminated"
  end.

(** From the end of the name to the duplicate check. *)
Definition check_name (format : string) (names : gset (list Z)) (name_bytes : list Z) (end_ : nat) :
  Result LoadError (list Z) :=
  if (end_ =? 0)%nat then invalid format "file name is empty"
  else
    let name := take end_ name_bytes in
    if negb (utf8_valid name) then invalid format "file name is not valid UTF-8"
    else if bool_decide (name ∈ names) then invalid format "file names are duplicated"
    else Ok name.

(** The absolute range of an entry. *)
Definition entry_range (format : string) (metadata_size relative_offset size storage_len : Z) : Result LoadError Z :=
  let? offset := some_or (checked_add 64 metadata_size relative_offset) (InvalidFormat format "file offset overflows") in
  let? end_ := some_or (checked_add 64 offset size) (InvalidFormat format "file range overflows") in
  if storage_len <? end_ then invalid format "file entry points outside the source" else Ok offset.

(** The sizes of the entry table and of the metadata.  [checked_mul] of a count
    of at most 65,536 entries does not overflow. *)
Definition metadata_sizes (format : string) (entry_size file_count string_table_size storage_len : Z) :
  Result LoadError (Z * Z) :=
  if MAX_FILE_COUNT <? file_count then invalid format "file count exceeds the 65536-entry safety limit"
  else
    let entry_table_size := file_count * entry_size in
    let? metadata_size :=
      some_or (checked_add 64 HEADER_SIZE entry_table_size ≫= fun size => checked_add 64 size string_table_size)
        (InvalidFormat format "metadata size overflows") in
    if MAX_METADATA_SIZE <? metadata_size then invalid format "metadata exceeds the 64 MiB safety limit"
    else if storage_len <? metadata_size then invalid format "metadata is truncated"
    else Ok (entry_table_size, metadata_size).

(** ** PFS0 (pfs0.rs) *)

Module Pfs0.
Definition ENTRY_SIZE : Z := 0x18.

Record Pfs0Entry := mkEntry { name : list Z; offset : Z; size : Z }.

Record Pfs0Archive := mkArchive { storage : Storage; entries : list Pfs0Entry; data_offset : Z }.

(** One turn of the loop over the entry table; the state is [(names, entries)]. *)
Definition parse_entry (format : string) (implicit : bool) (s : Storage) (storage_len metadata_size : Z)
  (metadata string_table : list Z) (index : Z) (state : gset (list Z) * list Pfs0Entry) :
  Result LoadError (gset (list Z) * list Pfs0Entry) :=
  let entry_start := HEADER_SIZE + index * ENTRY_SIZE in
  let? relative_offset := read_u64 metadata entry_start in
  let? size := read_u64 metadata (entry_start + 8) in
  let? name_offset := read_u32 metadata (entry_start + 16) in
  let? name_bytes := some_or (get_from string_table name_offset) (InvalidFormat format "file name is outside string table") in
  let? end_ := name_end format implicit s metadata_size name_bytes in
  let? name := check_name format (fst state) name_bytes end_ in
  let? offset := entry_range format metadata_size relative_offset size storage_len in
  Ok ({[ name ]} ∪ fst state, snd state ++ [mkEntry name offset size]).

Definition parse_internal (s : Storage) (format : string) (implicit : bool) : Result LoadError Pfs0Archive :=
  let? storage_len := stored (storage_len s) in
  if storage_len <? HEADER_SIZE then invalid format "header is truncated"
  else
    let? header := read s 0 HEADER_SIZE in
    if negb (bool_decide (take 4 header = [0x50; 0x46; 0x53; 0x30])) then invalid format "expected PFS0 magic"
    else
      let? file_count := read_u32 header 4 in
      let? string_table_size := read_u32 header 8 in
      let? sizes := metadata_sizes format ENTRY_SIZE file_count string_table_size storage_len in
      let metadata_size := snd sizes in
      let? metadata := read s 0 metadata_size in
      let? string_table := index_range metadata (HEADER_SIZE + fst sizes) metadata_size in
      let? state := for_each (parse_entry format implicit s storage_len metadata_size metadata string_table)
                      (seqZ 0 file_count) (∅, []) in
      Ok (mkArchive s (snd state) metadata_size).

Definition parse (s : Storage) (format : string) := parse_internal s format false.
Definition parse_nsz (s : Storage) (format : string) := parse_internal s format true.
Definition load (s : Storage) := parse s "PFS0".

Definition entry (a : Pfs0Archive) (wanted : list Z) : option Pfs0Entry :=
  snd <$> list_find (fun e => name e = wanted) (entries a).

Definition open_entry (a : Pfs0Archive) (e : Pfs0Entry) : Result LoadError Storage :=
  stored (sub_view (storage a) (offset e) (size e)).

Definition open (a : Pfs0Archive) (wanted : list Z) : Result LoadError (option Storage) :=
  match entry a wanted with
  | None => Ok None
  | Some e => let? v := open_entry a e in Ok (Some v)
  end.
End Pfs0.

(** ** HFS0 (hfs0.rs) *)

Module Hfs0.
Definition ENTRY_SIZE : Z := 0x40.
Definition HASH_BUFFER_SIZE : Z := 1024 * 1024.

Record Hfs0Entry := mkEntry {
  name : list Z; offset : Z; size : Z; hashed_region_size : Z; expected_hash : list Z; reserved : list Z
}.

Definition has_advertised_hash (e : Hfs0Entry) : bool := negb (bool_decide (expected_hash e = replicate 32 0)).

Record Hfs0HashResult := mkHashResult {
  result_name : list Z; result_region_size : Z; expected : list Z; actual : list Z
}.
Definition is_valid (r : Hfs0HashResult) : bool := bool_decide (expected r = actual r).

Record Hfs0Archive := mkArchive { storage : Storage; entries : list Hfs0Entry; data_offset : Z }.

(** The check that a name starts at the table's start or after a terminator. *)
Definition starts_a_name (string_table : list Z) (name_offset : Z) : bool :=
  (name_offset =? 0) || bool_decide (string_table !! Z.to_nat (name_offset - 1) = Some 0).

Definition parse_entry (format : string) (implicit : bool) (s : Storage) (storage_len metadata_size : Z)
  (metadata string_table : list Z) (index : Z) (state : gset (list Z) * list Hfs0Entry) :
  Result LoadError (gset (list Z) * list Hfs0Entry) :=
  let entry_start := HEADER_SIZE + index * ENTRY_SIZE in
  let? relative_offset := read_u64 metadata entry_start in
  let? size := read_u64 metadata (entry_start + 8) in
  let? name_offset := read_u32 metadata (entry_start + 16) in
  let? hashed_region_size := read_u32 metadata (entry_start + 20) in
  if size <? hashed_region_size then invalid format "hashed region is larger than its file entry"
  else
    let? reserved := index_range metadata (entry_start + 24) (entry_start + 32) in
    if negb (bool_decide (reserved = replicate 8 0)) then invalid format "entry reserved field is non-zero"
    else
      let? expected_hash := index_range metadata (entry_start + 32) (entry_start + 64) in
      let? name_bytes := some_or (get_from string_table name_offset) (InvalidFormat format "file name is outside string table") in
      if negb (starts_a_name string_table name_offset) then
        invalid format "file name offset does not point to the start of a name"
      else
        let? end_ := name_end format implicit s metadata_size name_bytes in
        let? name := check_name format (fst state) name_bytes end_ in
        let? offset := entry_range format metadata_size relative_offset size storage_len in
        Ok ({[ name ]} ∪ fst state,
            snd state ++ [mkEntry name offset size hashed_region_size expected_hash reserved]).

Definition parse_internal (s : Storage) (format : string) (implicit : bool) : Result LoadError Hfs0Archive :=
  let? storage_len := stored (storage_len s) in
  if storage_len <? HEADER_SIZE then invalid format "header is truncated"
  else
    let? header := read s 0 HEADER_SIZE in
    if negb (bool_decide (take 4 header = [0x48; 0x46; 0x53; 0x30])) then invalid format "expected HFS0 magic"
    else
      let? field := index_range header 12 16 in
      if negb (bool_decide (field = replicate 4 0)) then invalid format "header reserved field is non-zero"
      else
        let? file_count := read_u32 header 4 in
        let? string_table_size := read_u32 header 8 in
        let? sizes := metadata_sizes format ENTRY_SIZE file_count string_table_size storage_len in
        let metadata_size := snd sizes in
        let? metadata := read s 0 metadata_size in
        let? string_table := index_range metadata (HEADER_SIZE + fst sizes) (Z.of_nat (length metadata)) in
        let? state := for_each (parse_entry format implicit s storage_len metadata_size metadata string_table)
                        (seqZ 0 file_count) (∅, []) in
        Ok (mkArchive s (snd state) metadata_size).

Definition parse (s : Storage) (format : string) := parse_internal s format false.
Definition parse_xcz (s : Storage) (format : string) := parse_internal s format true.
Definition load (s : Storage) := parse s "HFS0".

Definition entry (a : Hfs0Archive) (wanted : list Z) : option Hfs0Entry :=
  snd <$> list_find (fun e => name e = wanted) (entries a).

Definition open_entry (a : Hfs0Archive) (e : Hfs0Entry) : Result LoadError Storage :=
  stored (sub_view (storage a) (offset e) (size e)).

Definition open (a : Hfs0Archive) (wanted : list Z) : Result LoadError (option Storage) :=
  match entry a wanted with
  | None => Ok None
  | Some e => let? v := open_entry a e in Ok (Some v)
  end.

Section Hash.
(** The [sha2] crate's incremental hasher. *)
Context {Hasher : Type} (new : Hasher) (update : Hasher -> list Z -> Hasher) (finalize : Hasher -> list Z).

(** [while offset < size]: the fuel is the number of buffers. *)
Fixpoint hash_loop (fuel : nat) (s : Storage) (size offset : Z) (hasher : Hasher) : Result LoadError Hasher :=
  match fuel with
  | O => Ok hasher
  | S fuel =>
      if offset <? size then
        let read_size := Z.min (size - offset) HASH_BUFFER_SIZE in
        let? buffer := read s offset read_size in
        hash_loop fuel s size (offset + read_size) (update hasher buffer)
      else Ok hasher
  end.

Definition hash_prefix (s : Storage) (size : Z) : Result LoadError (list Z) :=
  let? hasher := hash_loop (Z.to_nat (div_ceil size HASH_BUFFER_SIZE)) s size 0 new in
  Ok (finalize hasher).

Definition validate_entry (a : Hfs0Archive) (e : Hfs0Entry) : Result LoadError Hfs0HashResult :=
  let? s := open_entry a e in
  let? actual := hash_prefix s (hashed_region_size e) in
  Ok (mkHashResult (name e) (hashed_region_size e) (expected_hash e) actual).

Definition validate_all (a : Hfs0Archive) : Result LoadError (list Hfs0HashResult) :=
  map_result (validate_entry a) (entries a).
End Hash.
End Hfs0.

(** ** The formats *)

(** A little-endian field of the image. *)
Definition field_at (b : list Z) (offset width v : Z) : Prop := read_field b offset width = Ok v.

(** A name: nonempty, valid UTF-8 without a zero byte, ended by one inside the
    string table, or, where the final terminator may be implicit, by the first
    byte after it. *)
Definition name_at (implicit : bool) (b : list Z) (table_end start : Z) (name : list Z) : Prop :=
  name <> [] /\ 0 ∉ name /\ utf8_valid name = true /\
  slice b start (Z.of_nat (length name)) = Some name /\
  slice b (start + Z.of_nat (length name)) 1 = Some [0] /\
  (start + Z.of_nat (length name) < table_end \/ implicit = true /\ start + Z.of_nat (length name) = table_end).

(** The header: [count] entries and the start of the data. *)
Definition header_at (b magic : list Z) (entry_size count data : Z) : Prop :=
  slice b 0 4 = Some magic /\ field_at b 4 4 count /\
  exists strings, field_at b 8 4 strings /\ data = HEADER_SIZE + count * entry_size + strings /\
  count <= MAX_FILE_COUNT /\ data <= MAX_METADATA_SIZE /\ data <= Z.of_nat (length b).

(** The fields every entry begins with. *)
Definition entry_at (implicit : bool) (b : list Z) (count entry_size data index : Z) (name : list Z) (offset size : Z) : Prop :=
  let start := HEADER_SIZE + index * entry_size in
  exists relative name_offset,
    field_at b start 8 relative /\ field_at b (start + 8) 8 size /\ field_at b (start + 16) 4 name_offset /\
    name_at implicit b data (HEADER_SIZE + count * entry_size + name_offset) name /\
    offset = data + relative /\ offset + size <= Z.of_nat (length b).

Definition pfs0_image (implicit : bool) (b : list Z) (es : list Pfs0.Pfs0Entry) (data : Z) : Prop :=
  exists count, header_at b [0x50; 0x46; 0x53; 0x30] Pfs0.ENTRY_SIZE count data /\
    Z.of_nat (length es) = count /\ NoDup (map Pfs0.name es) /\
    forall i e, es !! i = Some e ->
      entry_at implicit b count Pfs0.ENTRY_SIZE data (Z.of_nat i) (Pfs0.name e) (Pfs0.offset e) (Pfs0.size e).

Definition hfs0_entry_at (implicit : bool) (b : list Z) (count data index : Z) (e : Hfs0.Hfs0Entry) : Prop :=
  let start := HEADER_SIZE + index * Hfs0.ENTRY_SIZE in
  let strings := HEADER_SIZE + count * Hfs0.ENTRY_SIZE in
  entry_at implicit b count Hfs0.ENTRY_SIZE data index (Hfs0.name e) (Hfs0.offset e) (Hfs0.size e) /\
  field_at b (start + 20) 4 (Hfs0.hashed_region_size e) /\ Hfs0.hashed_region_size e <= Hfs0.size e /\
  Hfs0.reserved e = replicate 8 0 /\ slice b (start + 24) 8 = Some (Hfs0.reserved e) /\
  slice b (start + 32) 32 = Some (Hfs0.expected_hash e) /\
  exists name_offset, field_at b (start + 16) 4 name_offset /\
    (name_offset = 0 \/ slice b (strings + name_offset - 1) 1 = Some [0]).

Definition hfs0_image (implicit : bool) (b : list Z) (es : list Hfs0.Hfs0Entry) (data : Z) : Prop :=
  exists count, header_at b [0x48; 0x46; 0x53; 0x30] Hfs0.ENTRY_SIZE count data /\
    slice b 12 4 = Some (replicate 4 0) /\
    Z.of_nat (length es) = count /\ NoDup (map Hfs0.name es) /\
    forall i e, es !! i = Some e -> hfs0_entry_at implicit b count data (Z.of_nat i) e.

(** ** Tables of named entries *)

Section Table.
Context {Entry : Type} (key : Entry -> list Z).
Context (body : Z -> gset (list Z) * list Entry -> Result LoadError (gset (list Z) * list Entry)).
Context (ok : Z -> Entry -> Prop).
Context (first last : Z).
Context (body_ok : forall i st st', first <= i < last ->
  (body i st = Ok st' <-> exists e, ok i e /\ key e ∉ fst st /\ st' = ({[ key e ]} ∪ fst st, snd st ++ [e]))).
Context (body_returns : forall i st, first <= i < last -> body i st <> Panic).

Lemma for_each_returns l st : (forall i, i ∈ l -> first <= i < last) -> for_each body l st <> Panic.
Proof.
  revert st. induction l as [|i l IH]; intros st Hl; [done|]. cbn [for_each].
  pose proof (body_returns i st (Hl i ltac:(by left))). destruct (body i st); [|done..]. cbn [result_bind].
  apply IH. intros j Hj. apply Hl. by right.
Qed.

Lemma for_each_table (n : nat) start names es st' :
  first <= start -> start + Z.of_nat n <= last ->
  for_each body (seqZ start (Z.of_nat n)) (names, es) = Ok st' <->
  exists added, length added = n /\ snd st' = es ++ added /\ fst st' = list_to_set (map key added) ∪ names /\
    NoDup (map key added) /\ (forall k, k ∈ map key added -> k ∉ names) /\
    forall j e, added !! j = Some e -> ok (start + Z.of_nat j) e.
Proof.
  revert start names es. induction n as [|n IH]; intros start names es Hf Hl.
  - cbn. split.
    + intros [= <-]. exists []. cbn. rewrite app_nil_r. repeat split; [set_solver|constructor|set_solver|done].
    + intros (added & Ha & Hs & Hfs & _). destruct added; [|done]. cbn in *. destruct st' as [ns l]. cbn in *.
      rewrite app_nil_r in Hs. subst. do 2 f_equal. set_solver.
  - rewrite seqZ_cons by lia. replace (Z.pred (Z.of_nat (S n))) with (Z.of_nat n) by lia. cbn [for_each]. split.
    + destruct (body start (names, es)) as [st| |] eqn:E; [|done..]. cbn [result_bind].
      apply body_ok in E as (e & He & Hk & ->); [|lia]. cbn [fst snd].
      intros (added & Hlen & Hs & Hfs & Hnd & Hfresh & Hall)%IH; [|lia..]. exists (e :: added). cbn [length map].
      split; [lia|]. split; [by rewrite Hs, <- app_assoc|]. split; [rewrite Hfs; cbn; set_solver|].
      split; [constructor; [intros Hin; apply (Hfresh (key e) Hin); set_solver|done]|].
      split; [set_solver|]. intros [|j] e' Hj; cbn in Hj.
      * injection Hj as <-. by replace (start + Z.of_nat 0) with start by lia.
      * replace (start + Z.of_nat (S j)) with (Z.succ start + Z.of_nat j) by lia. by apply Hall.
    + intros (added & Hlen & Hs & Hfs & Hnd & Hfresh & Hall). destruct added as [|e added]; [done|]. cbn [length map] in *.
      inversion Hnd as [|? ? Hne Hnd']; subst.
      assert (He : body start (names, es) = Ok ({[ key e ]} ∪ names, es ++ [e])).
      { apply body_ok; [lia|]. exists e. split; [|split; [|done]].
        - replace start with (start + Z.of_nat 0) by lia. by apply Hall.
        - cbn. apply Hfresh. by left. }
      rewrite He. cbn [result_bind]. apply IH; [lia..|]. exists added. split; [lia|].
      split; [by rewrite Hs, <- app_assoc|]. split; [rewrite Hfs; cbn; set_solver|]. split; [done|].
      split; [intros k Hk; rewrite not_elem_of_union, not_elem_of_singleton; split; [by intros ->|apply Hfresh; by right]|].
      intros j e' Hj. replace (Z.succ start + Z.of_nat j) with (start + Z.of_nat (S j)) by lia. by apply Hall.
Qed.

(** The whole table: the entries it yields are exactly the ones that are there. *)
Lemma table_spec :
  first = 0 -> 0 <= last ->
  for_each body (seqZ 0 last) (∅, []) <> Panic /\
  forall es, (exists names, for_each body (seqZ 0 last) (∅, []) = Ok (names, es)) <->
    Z.of_nat (length es) = last /\ NoDup (map key es) /\ forall i e, es !! i = Some e -> ok (Z.of_nat i) e.
Proof.
  intros Hf Hl. split.
  { apply for_each_returns. intros i Hi%elem_of_seqZ. lia. }
  pose proof (for_each_table (Z.to_nat last) 0 ∅ []) as Ht. rewrite Z2Nat.id in Ht by done. intros es. split.
  - intros (names & (added & Hlen & Hs & _ & Hnd & _ & Hall)%Ht); [|lia..]. cbn in Hs. subst es. split; [lia|]. by split.
  - intros (Hlen & Hnd & Hall). eexists. apply Ht; [lia..|]. exists es. cbn [fst snd].
    split; [lia|]. split; [done|]. split; [reflexivity|]. split; [done|]. split; [set_solver|]. exact Hall.
Qed.
End Table.

(** ** Names *)

Lemma zero_position_some l n : zero_position l = Some n <-> l !! n = Some 0 /\ 0 ∉ take n l.
Proof.
  revert n. induction l as [|x l IH]; intros n; cbn [zero_position].
  { split; [done|]. intros [? _]. done. }
  destruct (Z.eqb_spec x 0) as [->|Hx].
  - split; [intros [= <-]; split; [done|set_solver]|]. intros [Hn Ht]. destruct n as [|n]; [done|].
    exfalso. apply Ht. by left.
  - rewrite fmap_Some. split.
    + intros (m & Hm & ->). apply IH in Hm as [H1 H2]. split; [done|]. cbn [take]. intros [?|?]%elem_of_cons; [by symmetry in H|done].
    + intros [Hn Ht]. destruct n as [|n]; [cbn in Hn; congruence|]. exists n. split; [|done]. apply IH. split; [done|].
      intros Hin. apply Ht. by right.
Qed.

Lemma zero_position_none l : zero_position l = None <-> 0 ∉ l.
Proof.
  induction l as [|x l IH]; cbn [zero_position]; [set_solver|]. destruct (Z.eqb_spec x 0) as [->|Hx]; [set_solver|].
  rewrite fmap_None, IH. set_solver.
Qed.

Lemma slice_one l k x : 0 <= k -> slice l k 1 = Some [x] <-> l !! Z.to_nat k = Some x.
Proof.
  intros Hk. split.
  - intros Hs. pose proof (slice_lookup l k 1 [x] 0 Hs ltac:(lia)) as H. rewrite Z.add_0_r in H. by rewrite <- H.
  - intros Hx. pose proof (lookup_lt_Some _ _ _ Hx). rewrite slice_some by lia. f_equal.
    rewrite (drop_S _ _ _ Hx). done.
Qed.

Lemma slice_prefix l n : (n <= length l)%nat -> slice l 0 (Z.of_nat n) = Some (take n l).
Proof. intros. rewrite slice_some by lia. by rewrite Nat2Z.id. Qed.

Section Image.
Context (s : Storage) (b : list Z) `{Hrep : !Represents s b}.

Lemma read_slice offset count :
  0 <= offset -> 0 <= count -> offset + count <= Z.of_nat (length b) ->
  exists r, read s offset count = Ok r /\ slice b offset count = Some r.
Proof using Hrep.
  intros Ho Hc Hl. destruct (slice_exists b offset count) as [r Hr]; [done..|]. exists r. split; [|done].
  pose proof (rep_short (Represents := Hrep)). unfold read. rewrite rep_read by (unfold in_range in *; lia). by rewrite Hr.
Qed.

Lemma read_total offset count : in_range 64 offset -> in_range 64 count -> read s offset count <> Panic.
Proof using Hrep.
  intros Ho Hc. unfold read. rewrite (rep_read (Represents := Hrep)) by done. by destruct (slice b offset count).
Qed.

Context (implicit : bool) (start data : Z) (table : list Z).
Context (Hstart : 0 <= start) (Htable : slice b start (data - start) = Some table) (Hdata : data <= MAX_METADATA_SIZE).

Lemma get_from_spec name_offset :
  0 <= name_offset ->
  match get_from table name_offset with
  | Some nb => name_offset <= data - start /\ slice b (start + name_offset) (data - start - name_offset) = Some nb
  | None => data - start < name_offset
  end.
Proof using Htable Hstart.
  intros Hn. unfold get_from. pose proof (slice_length _ _ _ _ Htable) as Hl. pose proof (slice_is_some _ _ _ _ Htable) as (_ & ? & ?).
  destruct (Z.le_gt_cases name_offset (data - start)).
  - destruct (slice_exists table name_offset (Z.of_nat (length table) - name_offset)) as [nb Hnb]; [lia..|]. rewrite Hnb. split; [done|].
    rewrite <- Hnb, Hl, Z2Nat.id by lia. symmetry. by apply slice_slice with (n1 := data - start); [|lia..].
  - destruct (slice table name_offset _) as [x|] eqn:Hx; [|done]. pose proof (slice_is_some _ _ _ _ Hx). lia.
Qed.

Lemma name_spec format names name_offset nb name :
  0 <= name_offset -> get_from table name_offset = Some nb ->
  (let? end_ := name_end format implicit s data nb in check_name format names nb end_) = Ok name
  <-> name_at implicit b data (start + name_offset) name /\ name ∉ names.
Proof.
  intros Hn Hnb. pose proof (get_from_spec name_offset Hn) as Hg. rewrite Hnb in Hg. destruct Hg as [Hle Hs].
  pose proof (slice_length _ _ _ _ Hs) as Hl. pose proof (slice_is_some _ _ _ _ Hs) as (_ & _ & Hin).
  assert (Hcheck : forall n, (n <= length nb)%nat -> 0 ∉ take n nb ->
    slice b (start + name_offset + Z.of_nat n) 1 = Some [0] ->
    ((n < length nb)%nat \/ implicit = true /\ n = length nb) ->
    check_name format names nb n = Ok name <-> name_at implicit b data (start + name_offset) name /\ name ∉ names /\ name = take n nb).
  { intros n Hlen Hz Hstop Hend. unfold check_name, name_at, invalid.
    assert (Htake : slice b (start + name_offset) (Z.of_nat n) = Some (take n nb)).
    { rewrite <- (slice_prefix nb n) by done. rewrite (slice_slice b _ _ _ _ _ Hs) by lia. f_equal. lia. }
    assert (Hln : length (take n nb) = n) by (rewrite length_take; lia).
    destruct (Nat.eqb_spec n 0) as [->|Hn0].
    { split; [done|]. intros ((Hne & _) & _ & ->). done. }
    destruct (utf8_valid (take n nb)) eqn:Hu; cbn [negb].
    2:{ split; [done|]. intros ((_ & _ & ? & _) & _ & ->). congruence. }
    destruct (decide (take n nb ∈ names)) as [Hd|Hd].
    { rewrite bool_decide_true by done. split; [done|]. intros (_ & ? & ->). done. }
    rewrite bool_decide_false by done. split; [intros [= <-]|intros (_ & _ & ->); done].
    split; [|done]. rewrite Hln. split; [intros Heq; rewrite Heq in Hln; cbn in Hln; lia|]. do 4 (split; [done|]). destruct Hend as [?|[? ?]]; [left; lia|right; split; [done|lia]]. }
  assert (Hunique : forall n, name_at implicit b data (start + name_offset) name ->
    0 ∉ take n nb -> (n < length nb)%nat \/ n = length nb -> slice b (start + name_offset + Z.of_nat n) 1 = Some [0] ->
    name = take n nb).
  { intros n (Hne & Hz & _ & Hname & Hstop & Hend) Hz' Hn' Hstop'.
    assert (Hm : (length name <= length nb)%nat) by lia.
    assert (Hname' : name = take (length name) nb).
    { pose proof (slice_prefix nb (length name) Hm) as Hp. rewrite (slice_slice b _ _ _ _ _ Hs) in Hp by lia.
      rewrite Z.add_0_r in Hp. congruence. }
    rewrite slice_one in Hstop, Hstop' by lia.
    assert (Hlook : forall j, (j < length nb)%nat -> nb !! j = b !! Z.to_nat (start + name_offset + Z.of_nat j)).
    { intros j Hj. pose proof (slice_lookup b _ _ nb (Z.of_nat j) Hs ltac:(lia)) as H. by rewrite Nat2Z.id in H. }
    assert (Hin_take : forall j k, (j < k)%nat -> (j < length nb)%nat -> b !! Z.to_nat (start + name_offset + Z.of_nat j) = Some 0 -> 0 ∈ take k nb).
    { intros j k Hjk Hj Hb. rewrite <- Hlook in Hb by done. apply list_elem_of_lookup. exists j. by rewrite lookup_take, decide_True. }
    destruct (Nat.lt_trichotomy n (length name)) as [?|[->|?]]; [|done|].
    - exfalso. apply Hz. rewrite Hname'. apply (Hin_take n); [done|lia|done].
    - exfalso. apply Hz'. apply (Hin_take (length name)); [done|lia|done]. }
  unfold name_end, invalid. destruct (zero_position nb) as [n|] eqn:Hzp; cbn [result_bind].
  - apply zero_position_some in Hzp as [Hz0 Hz]. pose proof (lookup_lt_Some _ _ _ Hz0).
    assert (Hstop : slice b (start + name_offset + Z.of_nat n) 1 = Some [0]).
    { rewrite <- (slice_slice b _ _ _ (Z.of_nat n) 1 Hs) by lia. rewrite slice_one by lia. by rewrite Nat2Z.id. }
    rewrite Hcheck by (done || lia || by left). split; [naive_solver|]. intros [Hna Hnn]. split; [done|]. split; [done|].
    eapply Hunique; try done. by left.
  - apply zero_position_none in Hzp. assert (Htw : take (length nb) nb = nb) by by apply take_ge.
    assert (Hend : start + name_offset + Z.of_nat (length nb) = data) by lia.
    assert (Hstopped : name_at implicit b data (start + name_offset) name -> implicit = true /\ slice b data 1 = Some [0]).
    { intros (Hne & Hz & _ & Hname & Hstop & [Hlt|[Hi Heq]]).
      - exfalso. apply Hzp. apply list_elem_of_lookup. exists (length name). rewrite <- (slice_slice b _ _ _ (Z.of_nat (length name)) 1 Hs) in Hstop by lia.
        rewrite slice_one in Hstop by lia. by rewrite Nat2Z.id in Hstop.
      - by rewrite Heq in Hstop. }
    destruct implicit eqn:Hi; [|split; [done|intros [Hna _]; by destruct (Hstopped Hna)]].
    pose proof (rep_short (Represents := Hrep)). unfold MAX_METADATA_SIZE, in_range in *.
    unfold read. rewrite (rep_read (Represents := Hrep)) by (unfold in_range; lia).
    destruct (slice b data 1) as [r|] eqn:Hr; cbn [stored map_err result_bind].
    2:{ split; [done|]. intros [Hna _]. by destruct (Hstopped Hna). }
    pose proof (slice_length _ _ _ _ Hr) as Hrl. destruct r as [|x [|]]; try done. cbn [lookup list_lookup].
    destruct (Z.eqb_spec x 0) as [->|Hx]; cbn [negb].
    2:{ split; [done|]. intros [Hna _]. destruct (Hstopped Hna). congruence. }
    cbn [result_bind]. rewrite Hcheck; [|done|by rewrite Htw|by rewrite Hend|by right].
    split; [naive_solver|]. intros [Hna Hnn]. split; [done|]. split; [done|].
    eapply Hunique; try done; [by rewrite Htw|by right|by rewrite Hend].
Qed.

Lemma name_end_returns format nb : name_end format implicit s data nb <> Panic.
Proof.
  unfold name_end, invalid. destruct (zero_position nb); [done|]. destruct implicit; [|done].
  pose proof (slice_is_some _ _ _ _ Htable). unfold read. rewrite (rep_read (Represents := Hrep)) by (unfold in_range, MAX_METADATA_SIZE in *; lia).
  destruct (slice b data 1) as [r|] eqn:Hr; cbn [stored map_err result_bind]; [|done].
  pose proof (slice_length _ _ _ _ Hr). destruct r as [|x [|]]; try done. cbn. by destruct (x =? 0).
Qed.
End Image.

Lemma check_name_returns format names nb n : check_name format names nb n <> Panic.
Proof. unfold check_name, invalid. repeat case_match; done. Qed.

(** ** The parser accepts exactly the format *)

Lemma entry_range_spec format data relative size n offset :
  0 <= data -> 0 <= relative -> 0 <= size -> n < 2 ^ 64 ->
  entry_range format data relative size n = Ok offset <-> offset = data + relative /\ offset + size <= n.
Proof.
  intros Hd Hr Hs Hn. unfold entry_range, invalid. destruct (checked_add 64 data relative) as [o|] eqn:E1; cbn [some_or result_bind].
  - apply checked_add_inv in E1 as [-> ?]. destruct (checked_add 64 (data + relative) size) as [e|] eqn:E2; cbn [some_or result_bind].
    + apply checked_add_inv in E2 as [-> ?]. destruct (Z.ltb_spec n (data + relative + size)); [split; [done|lia]|].
      split; [intros [= <-]; lia|]. by intros [-> _].
    + split; [done|]. intros [-> ?]. unfold checked_add in E2. destruct (Z.ltb_spec (data + relative + size) (2 ^ 64)); [done|lia].
  - split; [done|]. intros [-> ?]. unfold checked_add in E1. destruct (Z.ltb_spec (data + relative) (2 ^ 64)); [done|lia].
Qed.

Lemma entry_range_returns format data relative size n : entry_range format data relative size n <> Panic.
Proof.
  unfold entry_range, invalid. destruct (checked_add 64 data relative) as [o|]; [|done]. cbn [some_or result_bind].
  destruct (checked_add 64 o size); [|done]. cbn. by destruct (_ <? _).
Qed.

Lemma metadata_sizes_spec format entry_size count strings n sizes :
  0 <= entry_size <= 64 -> 0 <= count -> in_range 32 strings ->
  metadata_sizes format entry_size count strings n = Ok sizes <->
  sizes = (count * entry_size, HEADER_SIZE + count * entry_size + strings) /\ count <= MAX_FILE_COUNT /\
  snd sizes <= MAX_METADATA_SIZE /\ snd sizes <= n.
Proof.
  intros He Hc Hs. unfold metadata_sizes, invalid, MAX_FILE_COUNT, HEADER_SIZE, in_range in *.
  destruct (Z.ltb_spec 65536 count); [split; [done|lia]|]. assert (0 <= count * entry_size <= 65536 * 64) by nia.
  rewrite checked_add_small by lia. cbn [mbind option_bind]. rewrite checked_add_small by lia. cbn [some_or result_bind].
  destruct (Z.ltb_spec MAX_METADATA_SIZE (0x10 + count * entry_size + strings)).
  { split; [done|]. intros (-> & _ & ? & _). cbn in *. lia. }
  destruct (Z.ltb_spec n (0x10 + count * entry_size + strings)).
  { split; [done|]. intros (-> & _ & _ & ?). cbn in *. lia. }
  split; [intros [= <-]; cbn; split; [done|lia]|]. by intros (-> & _).
Qed.

Lemma metadata_sizes_returns format entry_size count strings n : metadata_sizes format entry_size count strings n <> Panic.
Proof.
  unfold metadata_sizes, invalid. destruct (_ <? _); [done|]. destruct (checked_add 64 HEADER_SIZE _) as [x|]; [|done].
  cbn [mbind option_bind]. destruct (checked_add 64 x strings); [|done]. cbn. by repeat case_match.
Qed.

Lemma field_at_inj b offset width v w : field_at b offset width v -> field_at b offset width w -> v = w.
Proof. unfold field_at. congruence. Qed.

Lemma header_inv b magic entry_size count data :
  bytes_ok b -> 0 <= entry_size -> header_at b magic entry_size count data ->
  0 <= count /\ HEADER_SIZE <= data <= Z.of_nat (length b).
Proof.
  intros Hb He (_ & (rc & Hrc & ->)%read_field_inv & strings & (rs & Hrs & ->)%read_field_inv & -> & _ & _ & Hl).
  pose proof (slice_range _ _ _ _ Hb Hrc). pose proof (slice_range _ _ _ _ Hb Hrs). unfold in_range in *. nia.
Qed.

Lemma header_read s b `{!Represents s b} :
  HEADER_SIZE <= Z.of_nat (length b) ->
  exists header, read s 0 HEADER_SIZE = Ok header /\ slice b 0 HEADER_SIZE = Some header /\ slice b 0 4 = Some (take 4 header).
Proof.
  intros Hl. destruct (read_slice s b 0 HEADER_SIZE) as (header & Hr & Hs); [done..|]. exists header. split; [done|]. split; [done|].
  pose proof (slice_length _ _ _ _ Hs) as Hlen. pose proof (slice_prefix header 4 ltac:(rewrite Hlen; unfold HEADER_SIZE; lia)) as Hp.
  by rewrite (slice_slice b 0 HEADER_SIZE header 0 (Z.of_nat 4) Hs) in Hp.
Qed.

(** The table of an archive inside its image. *)
Section Metadata.
Context (s : Storage) (b : list Z) `{Hrep : !Represents s b}.
Context (implicit : bool) (format : string) (entry_size count data : Z) (metadata table : list Z).
Context (Hsize : 0 < entry_size) (Hcount : 0 <= count).
Context (Hmeta : slice b 0 data = Some metadata) (Hmax : data <= MAX_METADATA_SIZE).
Context (Htable : slice b (HEADER_SIZE + count * entry_size) (data - (HEADER_SIZE + count * entry_size)) = Some table).

Lemma metadata_field offset width :
  0 <= offset -> 0 <= width -> offset + width <= data ->
  exists v, read_field metadata offset width = Ok v /\ field_at b offset width v /\ in_range (8 * width) v.
Proof using Hrep Hmeta.
  intros Ho Hw Hl. pose proof (slice_is_some _ _ _ _ Hmeta).
  rewrite (read_field_slice b 0 data metadata) by done. rewrite Z.add_0_l.
  destruct (read_field_ok b offset width) as (v & Hv & Hr); [lia..|apply Hrep|]. by exists v.
Qed.

Lemma metadata_range start width :
  0 <= start -> 0 <= width -> start + width <= data ->
  exists r, index_range metadata start (start + width) = Ok r /\ slice b start width = Some r.
Proof using Hmeta.
  intros Ho Hw Hl. unfold index_range. replace (start + width - start) with width by lia.
  rewrite (slice_slice b 0 data metadata start width Hmeta) by lia. pose proof (slice_is_some _ _ _ _ Hmeta).
  destruct (slice_exists b start width) as [r Hr]; [lia..|]. exists r. rewrite Z.add_0_l. by rewrite Hr.
Qed.

Lemma table_start : 0 <= HEADER_SIZE + count * entry_size <= data.
Proof using Htable. pose proof (slice_is_some _ _ _ _ Htable). lia. Qed.

Lemma entry_inside index : 0 <= index < count -> 0 <= HEADER_SIZE + index * entry_size /\ HEADER_SIZE + index * entry_size + entry_size <= data.
Proof using Hsize Hcount Htable. pose proof table_start. unfold HEADER_SIZE in *. intros. nia. Qed.
End Metadata.

Module Pfs0Proofs.
Import Pfs0.
Section Entries.
Context (s : Storage) (b : list Z) `{Hrep : !Represents s b}.
Context (implicit : bool) (format : string) (count data : Z) (metadata table : list Z).
Context (Hcount : 0 <= count).
Context (Hmeta : slice b 0 data = Some metadata) (Hmax : data <= MAX_METADATA_SIZE).
Context (Htable : slice b (HEADER_SIZE + count * ENTRY_SIZE) (data - (HEADER_SIZE + count * ENTRY_SIZE)) = Some table).

Lemma parse_entry_ok index st st' :
  0 <= index < count ->
  parse_entry format implicit s (Z.of_nat (length b)) data metadata table index st = Ok st' <->
  exists e, entry_at implicit b count ENTRY_SIZE data index (name e) (offset e) (size e) /\ name e ∉ fst st /\
            st' = ({[ name e ]} ∪ fst st, snd st ++ [e]).
Proof using Hrep Hcount Hmeta Hmax Htable.
  intros Hi. pose proof (entry_inside b ENTRY_SIZE count data table ltac:(done) Hcount Htable index Hi) as [H0 H1].
  pose proof (table_start b ENTRY_SIZE count data table Htable) as Hts. pose proof (rep_short (Represents := Hrep)) as Hshort.
  unfold ENTRY_SIZE, in_range in *. unfold parse_entry, read_u64, read_u32. unfold ENTRY_SIZE.
  destruct (metadata_field s b data metadata Hmeta (HEADER_SIZE + index * 24) 8) as (rel & -> & Hrel & Hrr); [lia..|].
  destruct (metadata_field s b data metadata Hmeta (HEADER_SIZE + index * 24 + 8) 8) as (sz & -> & Hsz & Hsr); [lia..|].
  destruct (metadata_field s b data metadata Hmeta (HEADER_SIZE + index * 24 + 16) 4) as (no & -> & Hno & Hnr); [lia..|].
  unfold in_range in *. cbn [result_bind].
  pose proof (get_from_spec b _ data table (proj1 Hts) Htable no ltac:(lia)) as Hg.
  assert (Hunfold : forall nm off size, entry_at implicit b count 24 data index nm off size <->
     size = sz /\ off = data + rel /\ off + size <= Z.of_nat (length b) /\ name_at implicit b data (HEADER_SIZE + count * 24 + no) nm).
  { intros nm off size. unfold entry_at. split.
    - intros (r & n & F1 & F2 & F3 & Hn & -> & Hb). rewrite (field_at_inj _ _ _ _ _ F1 Hrel), (field_at_inj _ _ _ _ _ F2 Hsz) in *.
      by rewrite (field_at_inj _ _ _ _ _ F3 Hno) in Hn.
    - intros (-> & -> & Hb & Hn). by exists rel, no. }
  destruct (get_from table no) as [nb|] eqn:Hnb; cbn [some_or result_bind].
  2:{ split; [done|]. intros (e & (_ & _ & _ & Hn)%Hunfold & _). destruct Hn as (Hne & _ & _ & _ & _ & Hend).
      assert (0 < Z.of_nat (length (name e))) by (destruct (name e); [done|simpl; lia]). unfold HEADER_SIZE in *. lia. }
  pose proof (fun nm => name_spec s b implicit _ data table (proj1 Hts) Htable Hmax format (fst st) no nb nm ltac:(lia) Hnb) as Hname.
  destruct (name_end format implicit s data nb) as [n| |]; cbn [result_bind] in *.
  2,3: split; [done|]; intros (e & (_ & _ & _ & Hn)%Hunfold & Hf & _); discriminate (proj2 (Hname (name e)) (conj Hn Hf)).
  destruct (check_name format (fst st) nb n) as [nm| |]; cbn [result_bind].
  2,3: split; [done|]; intros (e & (_ & _ & _ & Hn)%Hunfold & Hf & _); discriminate (proj2 (Hname (name e)) (conj Hn Hf)).
  pose proof (fun off => entry_range_spec format data rel sz (Z.of_nat (length b)) off ltac:(unfold HEADER_SIZE in *; lia) ltac:(lia) ltac:(lia) ltac:(lia)) as Hrange.
  destruct (proj1 (Hname nm) eq_refl) as [Hna Hnf].
  destruct (entry_range format data rel sz (Z.of_nat (length b))) as [off| |]; cbn [result_bind].
  2,3: split; [done|]; intros (e & (Hs & Ho & Hb & _)%Hunfold & _); subst sz; discriminate (proj2 (Hrange (offset e)) (conj Ho Hb)).
  destruct (proj1 (Hrange off) eq_refl) as [-> Hb]. split.
  - intros [= <-]. exists (mkEntry nm (data + rel) sz). cbn [name offset size]. rewrite Hunfold. auto 10.
  - intros (e & (Hs & Ho & _ & Hn)%Hunfold & Hf & ->). destruct e as [nm' off' sz']. cbn [name offset size] in *. subst.
    by injection (proj2 (Hname nm') (conj Hn Hf)) as ->.
Qed.

Lemma parse_entry_returns index st :
  0 <= index < count -> parse_entry format implicit s (Z.of_nat (length b)) data metadata table index st <> Panic.
Proof using Hrep Hcount Hmeta Hmax Htable.
  intros Hi. pose proof (entry_inside b ENTRY_SIZE count data table ltac:(done) Hcount Htable index Hi) as [H0 H1].
  unfold ENTRY_SIZE in *. unfold parse_entry, read_u64, read_u32, ENTRY_SIZE.
  destruct (metadata_field s b data metadata Hmeta (HEADER_SIZE + index * 24) 8) as (rel & -> & _); [lia..|].
  destruct (metadata_field s b data metadata Hmeta (HEADER_SIZE + index * 24 + 8) 8) as (sz & -> & _); [lia..|].
  destruct (metadata_field s b data metadata Hmeta (HEADER_SIZE + index * 24 + 16) 4) as (no & -> & _); [lia..|].
  cbn [result_bind]. destruct (get_from table no) as [nb|]; [|done]. cbn [some_or result_bind].
  pose proof (name_end_returns s b implicit _ data table Htable Hmax format nb).
  destruct (name_end format implicit s data nb) as [n| |]; [|done..]. cbn [result_bind].
  pose proof (check_name_returns format (fst st) nb n). destruct (check_name format (fst st) nb n); [|done..]. cbn [result_bind].
  pose proof (entry_range_returns format data rel sz (Z.of_nat (length b))). by destruct (entry_range _ _ _ _ _).
Qed.
End Entries.

Section Parse.
Context (s : Storage) (b : list Z) `{Hrep : !Represents s b} (format : string) (implicit : bool).

Lemma parse_internal_spec :
  parse_internal s format implicit <> Panic /\
  forall a, parse_internal s format implicit = Ok a <->
    exists es data, a = mkArchive s es data /\ pfs0_image implicit b es data.
Proof using Hrep.
  unfold parse_internal. rewrite (rep_len (Represents := Hrep)). cbn [stored map_err result_bind].
  destruct (Z.ltb_spec (Z.of_nat (length b)) HEADER_SIZE) as [Hshort|Hlong].
  { split; [done|]. intros a. split; [done|]. intros (es & data & _ & count & Hh & _).
    apply header_inv in Hh; [lia|apply Hrep|done]. }
  destruct (header_read s b Hlong) as (header & -> & Hheader & Hmagic). cbn [result_bind].
  destruct (decide (take 4 header = [0x50; 0x46; 0x53; 0x30])) as [Hm|Hm].
  2:{ rewrite bool_decide_false by done. split; [done|]. intros a. split; [done|]. intros (es & data & _ & count & (Hm' & _) & _).
      by rewrite Hmagic in Hm'; injection Hm'. }
  rewrite bool_decide_true by done. cbn [negb]. unfold read_u32.
  destruct (metadata_field s b HEADER_SIZE header Hheader 4 4) as (count & -> & Hcount & Hcr); [done..|].
  destruct (metadata_field s b HEADER_SIZE header Hheader 8 4) as (strings & -> & Hstrings & Hsr); [done..|]. cbn [result_bind].
  pose proof (fun z => metadata_sizes_spec format ENTRY_SIZE count strings (Z.of_nat (length b)) z ltac:(done) (proj1 Hcr) Hsr) as Hsizes.
  pose proof (metadata_sizes_returns format ENTRY_SIZE count strings (Z.of_nat (length b))) as Hret.
  assert (Hheads : forall c data, header_at b [0x50; 0x46; 0x53; 0x30] ENTRY_SIZE c data ->
    c = count /\ data = HEADER_SIZE + count * ENTRY_SIZE + strings /\ count <= MAX_FILE_COUNT /\ data <= MAX_METADATA_SIZE /\ data <= Z.of_nat (length b)).
  { intros c data (_ & Hc & x & Hx & Hd & ? & ? & ?). rewrite (field_at_inj _ _ _ _ _ Hc Hcount), (field_at_inj _ _ _ _ _ Hx Hstrings) in *. done. }
  destruct (metadata_sizes _ _ _ _ _) as [sizes| |]; [|split; [done|]|done]; cbn [result_bind].
  2:{ intros a. split; [done|]. intros (es & data & _ & c & Hh & _). destruct (Hheads c data Hh) as (-> & -> & ? & ? & ?).
      discriminate (proj2 (Hsizes (_, _)) (conj eq_refl (conj H (conj H0 H1)))). }
  destruct (proj1 (Hsizes sizes) eq_refl) as (-> & Hcm & Hmax & Hfit). cbn [fst snd] in *. clear Hsizes Hret.
  set (data := HEADER_SIZE + count * ENTRY_SIZE + strings) in *.
  assert (Hts : 0 <= HEADER_SIZE + count * ENTRY_SIZE <= data) by (unfold in_range, data, HEADER_SIZE, ENTRY_SIZE in *; lia).
  destruct (read_slice s b 0 data) as (metadata & -> & Hmeta); [lia..|]. cbn [result_bind].
  destruct (metadata_range b data metadata Hmeta (HEADER_SIZE + count * ENTRY_SIZE) (data - (HEADER_SIZE + count * ENTRY_SIZE))) as (table & Hir & Htable); [lia..|].
  replace (HEADER_SIZE + count * ENTRY_SIZE + (data - (HEADER_SIZE + count * ENTRY_SIZE))) with data in Hir by lia.
  rewrite Hir. cbn [result_bind].
  assert (H0c : 0 <= count) by apply Hcr.
  pose proof (parse_entry_ok s b implicit format count data metadata table H0c Hmeta Hmax Htable) as Hok.
  pose proof (fun i st => parse_entry_returns s b implicit format count data metadata table H0c Hmeta Hmax Htable i st) as Hreturns.
  destruct (table_spec name _ _ 0 count Hok Hreturns eq_refl H0c) as [Hloop Htab].
  assert (Hequiv : forall es data', pfs0_image implicit b es data' <->
    data' = data /\ exists names, for_each (parse_entry format implicit s (Z.of_nat (length b)) data metadata table) (seqZ 0 count) (∅, []) = Ok (names, es)).
  { intros es data'. rewrite Htab. split.
    - intros (c & Hh & Hrest). destruct (Hheads c data' Hh) as (-> & -> & _). split; [done|exact Hrest].
    - intros [-> Hrest]. exists count. split; [|exact Hrest]. split; [by rewrite Hmagic, Hm|]. split; [done|]. by exists strings. }
  destruct (for_each _ _ _) as [[names es]| |]; cbn [result_bind snd]; [| |done].
  - split; [done|]. intros a. split.
    + intros [= <-]. exists es, data. split; [done|]. apply Hequiv. split; [done|]. by exists names.
    + intros (es' & data' & -> & (-> & names' & [= _ ->])%Hequiv). done.
  - split; [done|]. intros a. split; [done|]. by intros (es' & data' & _ & (_ & names' & ?)%Hequiv).
Qed.
End Parse.
End Pfs0Proofs.

Module Hfs0Proofs.
Import Hfs0.
Section Entries.
Context (s : Storage) (b : list Z) `{Hrep : !Represents s b}.
Context (implicit : bool) (format : string) (count data : Z) (metadata table : list Z).
Context (Hcount : 0 <= count).
Context (Hmeta : slice b 0 data = Some metadata) (Hmax : data <= MAX_METADATA_SIZE).
Context (Htable : slice b (HEADER_SIZE + count * ENTRY_SIZE) (data - (HEADER_SIZE + count * ENTRY_SIZE)) = Some table).

Lemma starts_a_name_spec no :
  0 <= no <= data - (HEADER_SIZE + count * ENTRY_SIZE) ->
  starts_a_name table no = true <-> no = 0 \/ slice b (HEADER_SIZE + count * ENTRY_SIZE + no - 1) 1 = Some [0].
Proof using Hcount Htable.
  intros Hn. pose proof (table_start b ENTRY_SIZE count data table Htable). unfold starts_a_name. rewrite orb_true_iff, Z.eqb_eq, bool_decide_eq_true.
  destruct (decide (no = 0)) as [->|]; [naive_solver|].
  rewrite <- slice_one by lia. rewrite (slice_slice b _ _ table (no - 1) 1 Htable) by lia.
  by replace (HEADER_SIZE + count * ENTRY_SIZE + (no - 1)) with (HEADER_SIZE + count * ENTRY_SIZE + no - 1) by lia.
Qed.

Lemma hfs0_entry_ok index st st' :
  0 <= index < count ->
  parse_entry format implicit s (Z.of_nat (length b)) data metadata table index st = Ok st' <->
  exists e, hfs0_entry_at implicit b count data index e /\ name e ∉ fst st /\
            st' = ({[ name e ]} ∪ fst st, snd st ++ [e]).
Proof using Hrep Hcount Hmeta Hmax Htable.
  intros Hi. pose proof (entry_inside b ENTRY_SIZE count data table ltac:(done) Hcount Htable index Hi) as [H0 H1].
  pose proof (table_start b ENTRY_SIZE count data table Htable) as Hts. pose proof (rep_short (Represents := Hrep)) as Hshort.
  pose proof starts_a_name_spec as Hstart. unfold hfs0_entry_at.
  unfold ENTRY_SIZE, in_range in *. unfold parse_entry, read_u64, read_u32. unfold ENTRY_SIZE.
  set (start := HEADER_SIZE + index * 64) in *.
  destruct (metadata_field s b data metadata Hmeta start 8) as (rel & -> & Hrel & Hrr); [lia..|].
  destruct (metadata_field s b data metadata Hmeta (start + 8) 8) as (sz & -> & Hsz & Hsr); [lia..|].
  destruct (metadata_field s b data metadata Hmeta (start + 16) 4) as (no & -> & Hno & Hnr); [lia..|].
  destruct (metadata_field s b data metadata Hmeta (start + 20) 4) as (hs & -> & Hhs & Hhr); [lia..|].
  destruct (metadata_range b data metadata Hmeta (start + 24) 8) as (res & Hres & Hress); [lia..|].
  destruct (metadata_range b data metadata Hmeta (start + 32) 32) as (hash & Hhash & Hhashs); [lia..|].
  replace (start + 24 + 8) with (start + 32) in Hres by lia. replace (start + 32 + 32) with (start + 64) in Hhash by lia.
  rewrite Hres, Hhash. clear Hres Hhash. unfold in_range in *. cbn [result_bind].
  pose proof (get_from_spec b _ data table (proj1 Hts) Htable no ltac:(lia)) as Hg.
  assert (Hunfold : forall e, (entry_at implicit b count 64 data index (name e) (offset e) (size e) /\
     field_at b (start + 20) 4 (hashed_region_size e) /\ hashed_region_size e <= size e /\
     reserved e = replicate 8 0 /\ slice b (start + 24) 8 = Some (reserved e) /\
     slice b (start + 32) 32 = Some (expected_hash e) /\
     exists n, field_at b (start + 16) 4 n /\ (n = 0 \/ slice b (HEADER_SIZE + count * 64 + n - 1) 1 = Some [0])) <->
     (hs <= sz /\ res = replicate 8 0 /\ (no = 0 \/ slice b (HEADER_SIZE + count * 64 + no - 1) 1 = Some [0])) /\
     name_at implicit b data (HEADER_SIZE + count * 64 + no) (name e) /\
     (data + rel) + sz <= Z.of_nat (length b) /\ e = mkEntry (name e) (data + rel) sz hs hash res).
  { intros [nm off esize hsize h r]. unfold entry_at. cbn [name offset size hashed_region_size expected_hash reserved]. split.
    - intros ((re & n & F1 & F2 & F3 & Hn & -> & Hb) & F4 & Hle & -> & F5 & F6 & (n' & F7 & Hn')). fold start in F1, F2, F3.
      rewrite (field_at_inj _ _ _ _ _ F1 Hrel), (field_at_inj _ _ _ _ _ F2 Hsz), (field_at_inj _ _ _ _ _ F4 Hhs) in *.
      rewrite (field_at_inj _ _ _ _ _ F3 Hno) in *. rewrite (field_at_inj _ _ _ _ _ F7 Hno) in *.
      rewrite Hhashs in F6. injection F6 as ->. rewrite Hress in F5. injection F5 as ->. auto.
    - intros ((Hle & Hr & Hn') & Hn & Hb & [= -> -> -> -> ->]). split; [by exists rel, no|].
      split_and!; try done. by exists no. }
  destruct (Z.ltb_spec sz hs).
  { split; [done|]. intros (e & ((? & _) & _)%Hunfold & _). lia. }
  destruct (decide (res = replicate 8 0)) as [Hr0|Hr0].
  2:{ rewrite bool_decide_false by done. split; [done|]. by intros (e & ((_ & ? & _) & _)%Hunfold & _). }
  rewrite bool_decide_true by done. cbn [negb].
  destruct (get_from table no) as [nb|] eqn:Hnb; cbn [some_or result_bind].
  2:{ split; [done|]. intros (e & (_ & Hn & _)%Hunfold & _). destruct Hn as (Hne & _ & _ & _ & _ & Hend).
      assert (0 < Z.of_nat (length (name e))) by (destruct (name e); [done|simpl; lia]). unfold HEADER_SIZE in *. lia. }
  specialize (Hstart no ltac:(lia)). destruct (starts_a_name table no); cbn [negb].
  2:{ split; [done|]. intros (e & ((_ & _ & Hs) & _)%Hunfold & _). by apply Hstart in Hs. }
  pose proof (fun nm => name_spec s b implicit _ data table (proj1 Hts) Htable Hmax format (fst st) no nb nm ltac:(lia) Hnb) as Hname.
  destruct (name_end format implicit s data nb) as [n| |]; cbn [result_bind] in *.
  2,3: split; [done|]; intros (e & (_ & Hn & _)%Hunfold & Hf & _); discriminate (proj2 (Hname (name e)) (conj Hn Hf)).
  destruct (check_name format (fst st) nb n) as [nm| |]; cbn [result_bind].
  2,3: split; [done|]; intros (e & (_ & Hn & _)%Hunfold & Hf & _); discriminate (proj2 (Hname (name e)) (conj Hn Hf)).
  pose proof (fun off => entry_range_spec format data rel sz (Z.of_nat (length b)) off ltac:(unfold HEADER_SIZE in *; lia) ltac:(lia) ltac:(lia) ltac:(lia)) as Hrange.
  destruct (proj1 (Hname nm) eq_refl) as [Hna Hnf].
  destruct (entry_range format data rel sz (Z.of_nat (length b))) as [off| |]; cbn [result_bind].
  2,3: split; [done|]; intros (e & (_ & _ & Hb & _)%Hunfold & _); discriminate (proj2 (Hrange _) (conj eq_refl Hb)).
  destruct (proj1 (Hrange off) eq_refl) as [-> Hb]. split.
  - intros [= <-]. exists (mkEntry nm (data + rel) sz hs hash res). rewrite Hunfold. cbn [name].
    split; [|done]. split; [split; [done|]; split; [done|by apply Hstart]|done].
  - intros (e & (_ & Hn & _ & ->)%Hunfold & Hf & ->). cbn [name] in *.
    by injection (proj2 (Hname (name e)) (conj Hn Hf)) as ->.
Qed.

Lemma hfs0_entry_returns index st :
  0 <= index < count -> parse_entry format implicit s (Z.of_nat (length b)) data metadata table index st <> Panic.
Proof using Hrep Hcount Hmeta Hmax Htable.
  intros Hi. pose proof (entry_inside b ENTRY_SIZE count data table ltac:(done) Hcount Htable index Hi) as [H0 H1].
  unfold ENTRY_SIZE in *. unfold parse_entry, read_u64, read_u32, ENTRY_SIZE, invalid. set (start := HEADER_SIZE + index * 64) in *.
  destruct (metadata_field s b data metadata Hmeta start 8) as (rel & -> & _); [lia..|].
  destruct (metadata_field s b data metadata Hmeta (start + 8) 8) as (sz & -> & _); [lia..|].
  destruct (metadata_field s b data metadata Hmeta (start + 16) 4) as (no & -> & _); [lia..|].
  destruct (metadata_field s b data metadata Hmeta (start + 20) 4) as (hs & -> & _); [lia..|]. cbn [result_bind].
  destruct (sz <? hs); [done|].
  destruct (metadata_range b data metadata Hmeta (start + 24) 8) as (res & Hres & _); [lia..|].
  destruct (metadata_range b data metadata Hmeta (start + 32) 32) as (hash & Hhash & _); [lia..|].
  replace (start + 24 + 8) with (start + 32) in Hres by lia. replace (start + 32 + 32) with (start + 64) in Hhash by lia.
  rewrite Hres, Hhash. cbn [result_bind]. destruct (negb _); [done|].
  destruct (get_from table no) as [nb|]; [|done]. cbn [some_or result_bind]. destruct (negb _); [done|].
  pose proof (name_end_returns s b implicit _ data table Htable Hmax format nb).
  destruct (name_end format implicit s data nb) as [n| |]; [|done..]. cbn [result_bind].
  pose proof (check_name_returns format (fst st) nb n). destruct (check_name format (fst st) nb n); [|done..]. cbn [result_bind].
  pose proof (entry_range_returns format data rel sz (Z.of_nat (length b))). by destruct (entry_range _ _ _ _ _).
Qed.
End Entries.

Section Parse.
Context (s : Storage) (b : list Z) `{Hrep : !Represents s b} (format : string) (implicit : bool).

Lemma hfs0_internal_spec :
  parse_internal s format implicit <> Panic /\
  forall a, parse_internal s format implicit = Ok a <->
    exists es data, a = mkArchive s es data /\ hfs0_image implicit b es data.
Proof using Hrep.
  unfold parse_internal. rewrite (rep_len (Represents := Hrep)). cbn [stored map_err result_bind].
  destruct (Z.ltb_spec (Z.of_nat (length b)) HEADER_SIZE) as [Hshort|Hlong].
  { split; [done|]. intros a. split; [done|]. intros (es & data & _ & count & Hh & _).
    apply header_inv in Hh; [lia|apply Hrep|done]. }
  destruct (header_read s b Hlong) as (header & -> & Hheader & Hmagic). cbn [result_bind].
  destruct (decide (take 4 header = [0x48; 0x46; 0x53; 0x30])) as [Hm|Hm].
  2:{ rewrite bool_decide_false by done. split; [done|]. intros a. split; [done|]. intros (es & data & _ & count & (Hm' & _) & _).
      by rewrite Hmagic in Hm'; injection Hm'. }
  rewrite bool_decide_true by done. cbn [negb]. unfold read_u32.
  destruct (metadata_range b HEADER_SIZE header Hheader 12 4) as (res & Hres & Hress); [done..|].
  change (12 + 4) with 16 in Hres. rewrite Hres. cbn [result_bind].
  destruct (decide (res = replicate 4 0)) as [Hr0|Hr0].
  2:{ rewrite bool_decide_false by done. split; [done|]. intros a. split; [done|]. intros (es & data & _ & count & _ & Hr & _). congruence. }
  rewrite bool_decide_true by done. cbn [negb].
  destruct (metadata_field s b HEADER_SIZE header Hheader 4 4) as (count & -> & Hcount & Hcr); [done..|].
  destruct (metadata_field s b HEADER_SIZE header Hheader 8 4) as (strings & -> & Hstrings & Hsr); [done..|]. cbn [result_bind].
  pose proof (fun z => metadata_sizes_spec format ENTRY_SIZE count strings (Z.of_nat (length b)) z ltac:(done) (proj1 Hcr) Hsr) as Hsizes.
  pose proof (metadata_sizes_returns format ENTRY_SIZE count strings (Z.of_nat (length b))) as Hret.
  assert (Hheads : forall c data, header_at b [0x48; 0x46; 0x53; 0x30] ENTRY_SIZE c data ->
    c = count /\ data = HEADER_SIZE + count * ENTRY_SIZE + strings /\ count <= MAX_FILE_COUNT /\ data <= MAX_METADATA_SIZE /\ data <= Z.of_nat (length b)).
  { intros c data (_ & Hc & x & Hx & Hd & ? & ? & ?). rewrite (field_at_inj _ _ _ _ _ Hc Hcount), (field_at_inj _ _ _ _ _ Hx Hstrings) in *. done. }
  destruct (metadata_sizes _ _ _ _ _) as [sizes| |]; [|split; [done|]|done]; cbn [result_bind].
  2:{ intros a. split; [done|]. intros (es & data & _ & c & Hh & _). destruct (Hheads c data Hh) as (-> & -> & ? & ? & ?).
      discriminate (proj2 (Hsizes (_, _)) (conj eq_refl (conj H (conj H0 H1)))). }
  destruct (proj1 (Hsizes sizes) eq_refl) as (-> & Hcm & Hmax & Hfit). cbn [fst snd] in *. clear Hsizes Hret.
  set (data := HEADER_SIZE + count * ENTRY_SIZE + strings) in *.
  assert (Hts : 0 <= HEADER_SIZE + count * ENTRY_SIZE <= data) by (unfold in_range, data, HEADER_SIZE, ENTRY_SIZE in *; lia).
  destruct (read_slice s b 0 data) as (metadata & -> & Hmeta); [lia..|]. cbn [result_bind].
  destruct (metadata_range b data metadata Hmeta (HEADER_SIZE + count * ENTRY_SIZE) (data - (HEADER_SIZE + count * ENTRY_SIZE))) as (table & Hir & Htable); [lia..|].
  replace (HEADER_SIZE + count * ENTRY_SIZE + (data - (HEADER_SIZE + count * ENTRY_SIZE))) with data in Hir by lia.
  replace (Z.of_nat (length metadata)) with data by (rewrite (slice_length _ _ _ _ Hmeta); lia).
  rewrite Hir. cbn [result_bind].
  assert (H0c : 0 <= count) by apply Hcr.
  pose proof (hfs0_entry_ok s b implicit format count data metadata table H0c Hmeta Hmax Htable) as Hok.
  pose proof (fun i st => hfs0_entry_returns s b implicit format count data metadata table H0c Hmeta Hmax Htable i st) as Hreturns.
  destruct (table_spec name _ _ 0 count Hok Hreturns eq_refl H0c) as [Hloop Htab].
  assert (Hequiv : forall es data', hfs0_image implicit b es data' <->
    data' = data /\ exists names, for_each (parse_entry format implicit s (Z.of_nat (length b)) data metadata table) (seqZ 0 count) (∅, []) = Ok (names, es)).
  { intros es data'. rewrite Htab. split.
    - intros (c & Hh & _ & Hrest). destruct (Hheads c data' Hh) as (-> & -> & _). split; [done|exact Hrest].
    - intros [-> Hrest]. exists count. split; [|split; [by rewrite Hress, Hr0|exact Hrest]].
      split; [by rewrite Hmagic, Hm|]. split; [done|]. by exists strings. }
  destruct (for_each _ _ _) as [[names es]| |]; cbn [result_bind snd]; [| |done].
  - split; [done|]. intros a. split.
    + intros [= <-]. exists es, data. split; [done|]. apply Hequiv. split; [done|]. by exists names.
    + intros (es' & data' & -> & (-> & names' & [= _ ->])%Hequiv). done.
  - split; [done|]. intros a. split; [done|]. by intros (es' & data' & _ & (_ & names' & ?)%Hequiv).
Qed.
End Parse.
End Hfs0Proofs.

(** ** Opening entries by name *)

Section Named.
Context {Entry : Type} (key : Entry -> list Z).

Lemma find_named (es : list Entry) wanted :
  NoDup (map key es) ->
  match snd <$> list_find (fun e => key e = wanted) es with
  | Some e => e ∈ es /\ key e = wanted
  | None => wanted ∉ map key es
  end.
Proof.
  intros Hnd. destruct (list_find _ es) as [[i e]|] eqn:E; cbn.
  - apply list_find_Some in E as (Hi & Hk & _). split; [by eapply list_elem_of_lookup_2|done].
  - apply list_find_None in E. intros (e & -> & He)%list_elem_of_fmap.
    rewrite Forall_forall in E. by apply (E e He).
Qed.

(** With unique names an entry is found by its own name. *)
Lemma find_own (es : list Entry) e :
  NoDup (map key es) -> e ∈ es -> snd <$> list_find (fun x => key x = key e) es = Some e.
Proof.
  intros Hnd He. pose proof (find_named es (key e) Hnd) as H. destruct (snd <$> _) as [x|].
  - destruct H as [Hx Hk]. f_equal. apply list_elem_of_lookup in Hx as [i Hi], He as [j Hj].
    assert (i = j); [|naive_solver]. eapply (NoDup_lookup _ _ _ (key x) Hnd).
    + change (map key es) with (key <$> es). by rewrite list_lookup_fmap, Hi.
    + change (map key es) with (key <$> es). rewrite list_lookup_fmap, Hj. cbn. by rewrite Hk.
  - exfalso. apply H. by apply list_elem_of_fmap_2.
Qed.
End Named.

(** The window of an entry is inside the image, so its view opens. *)
Lemma entry_view s b implicit count entry_size data index name offset size :
  Represents s b -> bytes_ok b -> 0 <= data ->
  entry_at implicit b count entry_size data index name offset size ->
  exists v w, stored (sub_view s offset size) = Ok v /\ slice b offset size = Some w /\ Represents v w.
Proof.
  intros Hrep Hb Hd (rel & no & (rr & Hrr & ->)%read_field_inv & (rs & Hrs & ->)%read_field_inv & _ & _ & -> & Hin).
  pose proof (slice_range _ _ _ _ Hb Hrr). pose proof (slice_range _ _ _ _ Hb Hrs). pose proof (rep_short (Represents := Hrep)).
  unfold in_range in *. pose proof (sub_view_refines s b (data + from_le_bytes rr) (from_le_bytes rs) Hrep) as Hv.
  unfold in_range in *. specialize (Hv ltac:(lia) ltac:(lia)).
  destruct (slice_exists b (data + from_le_bytes rr) (from_le_bytes rs)) as [w Hw]; [lia..|]. rewrite Hw in Hv.
  destruct Hv as (v & -> & Hv). by exists v, w.
Qed.

(** C25. On every source the PFS0 parser returns without a panic, and it accepts
    exactly the images of the format: it returns the archive with entries [es]
    and data offset [data] if and only if the image holds that entry table (magic,
    the three limits, every name nonempty, valid UTF-8, terminated in the string
    table, or implicitly after it for NSZ, and unique, every range inside the
    source, offsets without overflow).  Opening a name of an accepted archive then
    always succeeds and gives a view of exactly that entry's bytes, and any other
    name gives nothing. *)
Theorem pfs0_parse_exact (s : Storage) (b : list Z) (format : string) (implicit : bool) :
  Represents s b ->
  Pfs0.parse_internal s format implicit <> Panic /\
  (forall a, Pfs0.parse_internal s format implicit = Ok a <->
     exists es data, a = Pfs0.mkArchive s es data /\ pfs0_image implicit b es data) /\
  forall a, Pfs0.parse_internal s format implicit = Ok a ->
    (forall wanted, wanted ∉ map Pfs0.name (Pfs0.entries a) -> Pfs0.open a wanted = Ok None) /\
    forall e, e ∈ Pfs0.entries a ->
      exists v w, Pfs0.open a (Pfs0.name e) = Ok (Some v) /\
        slice b (Pfs0.offset e) (Pfs0.size e) = Some w /\ Represents v w.
Proof.
  intros Hrep. destruct (Pfs0Proofs.parse_internal_spec s b format implicit) as [Hp Hspec]. split; [done|]. split; [done|].
  intros a (es & data & -> & count & Hh & _ & Hnd & Hall)%Hspec. cbn [Pfs0.entries].
  pose proof (header_inv b _ Pfs0.ENTRY_SIZE count data (rep_bytes (Represents := Hrep)) ltac:(done) Hh) as [_ [Hd _]]. unfold HEADER_SIZE in Hd. split.
  - intros wanted Hw. pose proof (find_named Pfs0.name es wanted Hnd) as Hf. unfold Pfs0.open, Pfs0.entry. cbn [Pfs0.entries].
    destruct (snd <$> _) as [e|]; [|done]. destruct Hf as [He <-]. exfalso. apply Hw. by apply list_elem_of_fmap_2.
  - intros e He. unfold Pfs0.open, Pfs0.entry. cbn [Pfs0.entries]. rewrite find_own by done.
    apply list_elem_of_lookup in He as [i Hi]. specialize (Hall i e Hi).
    apply (entry_view s) in Hall as (v & w & Hv & Hw & Hvw); [|done|apply Hrep|lia].
    exists v, w. unfold Pfs0.open_entry. cbn [Pfs0.storage]. by rewrite Hv.
Qed.

Section Hashes.
Context {Hasher : Type} (new : Hasher) (update : Hasher -> list Z -> Hasher) (finalize : Hasher -> list Z).
Context (update_nil : forall h, update h [] = h).
Context (update_app : forall h x y, update (update h x) y = update h (x ++ y)).

Lemma slice_app l o n m x y :
  slice l o n = Some x -> slice l (o + n) m = Some y -> slice l o (n + m) = Some (x ++ y).
Proof.
  intros Hx Hy. pose proof (slice_is_some _ _ _ _ Hx). pose proof (slice_is_some _ _ _ _ Hy).
  rewrite slice_some in Hx, Hy by lia. injection Hx as <-. injection Hy as <-. rewrite slice_some by lia. f_equal.
  rewrite (Z2Nat.inj_add n m), (Z2Nat.inj_add o n) by lia. by rewrite <- drop_drop, take_take_drop.
Qed.

Lemma hash_loop_ok s b size fuel offset h :
  Represents s b -> 0 <= offset <= size -> size <= Z.of_nat (length b) ->
  size - offset <= Z.of_nat fuel * Hfs0.HASH_BUFFER_SIZE ->
  exists r, slice b offset (size - offset) = Some r /\ Hfs0.hash_loop update fuel s size offset h = Ok (update h r).
Proof using update_app update_nil.
  intros Hrep Ho Hs. revert offset h Ho. induction fuel as [|fuel IH]; intros offset h Ho Hf; cbn [Hfs0.hash_loop].
  { replace (size - offset) with 0 by lia. exists []. split; [by rewrite slice_some by lia|by rewrite update_nil]. }
  destruct (Z.ltb_spec offset size).
  2:{ replace (size - offset) with 0 by lia. exists []. split; [by rewrite slice_some by lia|by rewrite update_nil]. }
  set (n := Z.min (size - offset) Hfs0.HASH_BUFFER_SIZE). assert (0 < n <= size - offset) by (unfold n, Hfs0.HASH_BUFFER_SIZE; lia).
  destruct (read_slice s b offset n) as (x & -> & Hx); [lia..|]. cbn [result_bind].
  destruct (IH (offset + n) (update h x)) as (y & Hy & ->); [lia|unfold n, Hfs0.HASH_BUFFER_SIZE in *; lia|].
  exists (x ++ y). rewrite update_app. split; [|done].
  replace (size - offset) with (n + (size - (offset + n))) by lia. by apply slice_app.
Qed.

Lemma hash_prefix_ok s b size :
  Represents s b -> 0 <= size <= Z.of_nat (length b) ->
  exists r, slice b 0 size = Some r /\ Hfs0.hash_prefix new update finalize s size = Ok (finalize (update new r)).
Proof using update_app update_nil.
  intros Hrep Hs. unfold Hfs0.hash_prefix.
  destruct (hash_loop_ok s b size (Z.to_nat (div_ceil size Hfs0.HASH_BUFFER_SIZE)) 0 new) as (r & Hr & ->); [done|lia|lia| |].
  - pose proof (div_ceil_bounds size Hfs0.HASH_BUFFER_SIZE ltac:(lia) ltac:(done)). rewrite Z2Nat.id by lia. lia.
  - rewrite Z.sub_0_r in Hr. by exists r.
Qed.

(** C26. The HFS0 parser accepts exactly the images of its format and never
    panics; on every accepted archive [validate_all] returns, in order, one
    result per entry that carries the advertised digest and the digest of
    exactly the entry's hashed prefix, however the hasher was fed: it is valid
    if and only if the two are equal.  The hasher is the [sha2] crate's: that
    feeding it in pieces is feeding it the concatenation is its documented
    contract. *)
Theorem hfs0_parse_and_validate (s : Storage) (b : list Z) (format : string) (implicit : bool) :
  Represents s b ->
  Hfs0.parse_internal s format implicit <> Panic /\
  (forall a, Hfs0.parse_internal s format implicit = Ok a <->
     exists es data, a = Hfs0.mkArchive s es data /\ hfs0_image implicit b es data) /\
  forall a, Hfs0.parse_internal s format implicit = Ok a ->
    exists results, Hfs0.validate_all new update finalize a = Ok results /\
      Forall2 (fun e r => exists prefix,
        slice b (Hfs0.offset e) (Hfs0.hashed_region_size e) = Some prefix /\
        Hfs0.result_name r = Hfs0.name e /\ Hfs0.result_region_size r = Hfs0.hashed_region_size e /\
        Hfs0.expected r = Hfs0.expected_hash e /\ Hfs0.actual r = finalize (update new prefix) /\
        (Hfs0.is_valid r = true <-> finalize (update new prefix) = Hfs0.expected_hash e))
      (Hfs0.entries a) results.
Proof using update_app update_nil.
  intros Hrep. destruct (Hfs0Proofs.hfs0_internal_spec s b format implicit) as [Hp Hspec]. split; [done|]. split; [done|].
  intros a (es & data & -> & count & Hh & _ & _ & _ & Hall)%Hspec. cbn [Hfs0.entries]. unfold Hfs0.validate_all. cbn [Hfs0.entries].
  pose proof (header_inv b _ Hfs0.ENTRY_SIZE count data (rep_bytes (Represents := Hrep)) ltac:(done) Hh) as [_ [Hd _]]. unfold HEADER_SIZE in Hd.
  assert (Heach : forall e, e ∈ es -> exists r prefix,
    Hfs0.validate_entry new update finalize (Hfs0.mkArchive s es data) e = Ok r /\
    slice b (Hfs0.offset e) (Hfs0.hashed_region_size e) = Some prefix /\
    r = Hfs0.mkHashResult (Hfs0.name e) (Hfs0.hashed_region_size e) (Hfs0.expected_hash e) (finalize (update new prefix))).
  { intros e [i Hi]%list_elem_of_lookup. destruct (Hall i e Hi) as (He & (rh & Hrh & Hhs)%read_field_inv & Hle & _).
    apply (entry_view s) in He as (v & w & Hv & Hw & Hvw); [|done|apply Hrep|lia].
    pose proof (slice_range _ _ _ _ (rep_bytes (Represents := Hrep)) Hrh) as Hr. rewrite <- Hhs in Hr. unfold in_range in Hr.
    pose proof (slice_length _ _ _ _ Hw) as Hlen. pose proof (slice_is_some _ _ _ _ Hw).
    destruct (hash_prefix_ok v w (Hfs0.hashed_region_size e) Hvw) as (prefix & Hpre & Hhash); [lia|].
    rewrite (slice_slice b _ _ _ _ _ Hw), Z.add_0_r in Hpre by lia.
    eexists _, prefix. split; [|by split]. unfold Hfs0.validate_entry, Hfs0.open_entry. cbn [Hfs0.storage].
    rewrite Hv. cbn [result_bind]. by rewrite Hhash. }
  clear Hall Hspec Hp Hh. generalize (Hfs0.mkArchive s es data) as a, Heach. clear Heach. intros a.
  induction es as [|e es IH]; intros Heach; cbn [map_result]; [by exists []|].
  destruct (Heach e) as (r & prefix & -> & Hpre & Hr); [by left|]. cbn [result_bind].
  destruct IH as (rs & -> & Hrs); [intros x Hx; apply Heach; by right|]. cbn [result_bind]. exists (r :: rs). split; [done|].
  constructor; [|done]. exists prefix. subst r. cbn. split_and!; try done. unfold Hfs0.is_valid. cbn.
  rewrite bool_decide_eq_true. by split.
Qed.
End Hashes.

(** ** Witnesses *)

(** An archive of [a] and [é.nca]. *)
Definition pfs0_example : list Z :=
  [80; 70; 83; 48; 2; 0; 0; 0; 9; 0; 0; 0; 0; 0; 0; 0; 0; 0; 0; 0; 0; 0; 0; 0; 3; 0; 0; 0; 0; 0; 0; 0; 0; 0;
   0; 0; 0; 0; 0; 0; 3; 0; 0; 0; 0; 0; 0; 0; 5; 0; 0; 0; 0; 0; 0; 0; 2; 0; 0; 0; 0; 0; 0; 0; 97; 0; 195;
   169; 46; 110; 99; 97; 0; 120; 121; 122; 104; 101; 108; 108; 111].

Lemma pfs0_example_ok : Represents (of_bytes pfs0_example) pfs0_example.
Proof. apply of_bytes_represents; [|done]. by repeat constructor. Qed.

Lemma pfs0_parse_exact_witness :
  exists a v, Pfs0.load (of_bytes pfs0_example) = Ok a /\
    Pfs0.open a [0xc3; 0xa9; 0x2e; 0x6e; 0x63; 0x61] = Ok (Some v) /\ Represents v [104; 101; 108; 108; 111].
Proof.
  destruct (pfs0_parse_exact (of_bytes pfs0_example) pfs0_example "PFS0" false pfs0_example_ok) as (_ & _ & H).
  specialize (H (Pfs0.mkArchive (of_bytes pfs0_example)
    [Pfs0.mkEntry [97] 73 3; Pfs0.mkEntry [0xc3; 0xa9; 0x2e; 0x6e; 0x63; 0x61] 76 5] 73)).
  destruct H as [_ H]; [vm_compute; reflexivity|].
  destruct (H (Pfs0.mkEntry [0xc3; 0xa9; 0x2e; 0x6e; 0x63; 0x61] 76 5)) as (v & w & Hv & Hw & Hr).
  { right. left. }
  vm_compute in Hw. injection Hw as <-.
  eexists _, v. split; [vm_compute; reflexivity|]. split; [exact Hv|exact Hr].
Defined.

(** The string table may omit its last terminator in an NSZ only, and only if a
    zero byte follows it. *)
Example implicit_terminator :
  let b := [0x50; 0x46; 0x53; 0x30; 1; 0; 0; 0; 1; 0; 0; 0; 0; 0; 0; 0;
            1; 0; 0; 0; 0; 0; 0; 0; 1; 0; 0; 0; 0; 0; 0; 0; 0; 0; 0; 0; 0; 0; 0; 0; 97; 0; 120] in
  Pfs0.parse (of_bytes b) "PFS0" = Err (InvalidFormat "PFS0" "file name is not null-terminated") /\
  (let? a := Pfs0.parse_nsz (of_bytes b) "NSZ" in Ok (Pfs0.entries a)) = Ok [Pfs0.mkEntry [97] 42 1].
Proof. by vm_compute. Qed.

Definition hfs0_example : list Z :=
  [72; 70; 83; 48; 2; 0; 0; 0; 4; 0; 0; 0; 0; 0; 0; 0; 0; 0; 0; 0; 0; 0; 0; 0; 3; 0; 0; 0; 0; 0; 0; 0; 0; 0;
   0; 0; 2; 0; 0; 0; 0; 0; 0; 0; 0; 0; 0; 0; 120; 121; 0; 0; 0; 0; 0; 0; 0; 0; 0; 0; 0; 0; 0; 0; 0; 0; 0; 0;
   0; 0; 0; 0; 0; 0; 0; 0; 0; 0; 0; 0; 3; 0; 0; 0; 0; 0; 0; 0; 2; 0; 0; 0; 0; 0; 0; 0; 2; 0; 0; 0; 1; 0; 0;
   0; 0; 0; 0; 0; 0; 0; 0; 0; 0; 0; 0; 0; 0; 0; 0; 0; 0; 0; 0; 0; 0; 0; 0; 0; 0; 0; 0; 0; 0; 0; 0; 0; 0; 0;
   0; 0; 0; 0; 0; 0; 97; 0; 98; 0; 120; 121; 122; 112; 113].

Lemma hfs0_parse_and_validate_witness :
  exists a results, Hfs0.load (of_bytes hfs0_example) = Ok a /\
    Hfs0.validate_all [] app (fun l => take 32 (l ++ replicate 32 0)) a = Ok results /\
    map Hfs0.is_valid results = [true; false].
Proof.
  destruct (hfs0_parse_and_validate [] app (fun l => take 32 (l ++ replicate 32 0)) (fun h => app_nil_r h)
              (fun h x y => eq_sym (app_assoc h x y)) (of_bytes hfs0_example) hfs0_example "HFS0" false) as (_ & _ & H).
  { apply of_bytes_represents; [by repeat constructor|done]. }
  destruct (Hfs0.load (of_bytes hfs0_example)) as [a| |] eqn:E; [|vm_compute in E; discriminate E..].
  destruct (H a E) as (results & Hres & _). exists a, results. split; [reflexivity|]. split; [exact Hres|].
  vm_compute in E. injection E as <-. vm_compute in Hres. injection Hres as <-. reflexivity.
Defined.
