(* ===== verification/LoadRomFs.v ===== *)
(** * RomFS images (crates/loader/content/src/romfs.rs)

    The directory tree of an image is a graph of offsets into two metadata
    tables, written by whoever made the image: the parser walks it with sets of
    visited entries.  The recursion is modelled with fuel, and [None] is "out of
    fuel": the fuel [parse] computes from the size of the tables is proved to be
    enough for every source. *)

From S2P Require Import Prelude Bytes LoadStorage LoadCrypto LoadArchive.

Module RomFs.
Definition HEADER_SIZE : Z := 0x50.
Definition DIRECTORY_ENTRY_SIZE : Z := 0x18.
Definition FILE_ENTRY_SIZE : Z := 0x20.
Definition EMPTY_ENTRY : Z := 0xffffffff.
Definition MAX_NAME_SIZE : Z := 0x1000.

Definition bad {A} (reason : string) : Result LoadError A := invalid "RomFS" reason.

Record RomFsFile := mkFile { path : list Z; offset : Z; size : Z }.

Record RomFsArchive := mkArchive { storage : Storage; archive_data_offset : Z; files : list RomFsFile }.

Record Region := mkRegion { region_offset : Z; region_size : Z }.

Definition validate (r : Region) (container_size : Z) (name : string) : Result LoadError unit :=
  let? end_ := some_or (checked_add 64 (region_offset r) (region_size r)) (InvalidFormat "RomFS" (says name " range overflows")) in
  if (region_offset r <? HEADER_SIZE) || (container_size <? end_) then bad (says name " points outside the image") else Ok tt.

Record DirectoryEntry := mkDirectory {
  d_parent : Z; d_sibling : Z; child_directory : Z; child_file : Z; d_name : list Z
}.
Record FileEntry := mkFileEntry { f_parent : Z; f_sibling : Z; f_offset : Z; f_size : Z; f_name : list Z }.

Definition join_path (parent name : list Z) : list Z :=
  match parent with [] => 0x2f :: name | _ => parent ++ 0x2f :: name end.

(** The immutable fields of [TreeParser]. *)
Record Tables := mkTables {
  source : Storage; storage_len : Z; directory_meta : Region; file_meta : Region; file_data_offset : Z
}.

(** Its mutable fields. *)
Record Parser := mkParser {
  visited_directories : gset Z; visited_files : gset Z; paths : gset (list Z); found : list RomFsFile
}.

Section Parser.
Context (t : Tables).

Definition metadata_offset (region : Region) (relative_offset fixed_size : Z) (kind : string) : Result LoadError Z :=
  if negb (relative_offset mod 4 =? 0) then bad (says kind " metadata offset is not aligned")
  else
    let? end_ := some_or (checked_add 64 relative_offset fixed_size) (InvalidFormat "RomFS" (says kind " entry overflows")) in
    if region_size region <? end_ then bad (says kind " entry points outside its metadata table")
    else some_or (checked_add 64 (region_offset region) relative_offset) (InvalidFormat "RomFS" (says kind " offset overflows")).

Definition read_name (offset name_size : Z) (region : Region) (kind : string) : Result LoadError (list Z) :=
  if MAX_NAME_SIZE <? name_size then bad (says kind " name is unreasonably large")
  else
    let? end_ := some_or (checked_add 64 offset name_size) (InvalidFormat "RomFS" (says kind " name overflows")) in
    let? region_end := add_u64 (region_offset region) (region_size region) in
    if region_end <? end_ then bad (says kind " name points outside its metadata table")
    else
      let? name := read (source t) offset name_size in
      if negb (utf8_valid name) then bad (says kind " name is not UTF-8")
      else if bool_decide (0x2f ∈ name) || bool_decide (0 ∈ name) then bad (says kind " name is invalid")
      else Ok name.

Definition read_directory (relative_offset : Z) : Result LoadError DirectoryEntry :=
  let? offset := metadata_offset (directory_meta t) relative_offset DIRECTORY_ENTRY_SIZE "directory" in
  let? fixed := read (source t) offset DIRECTORY_ENTRY_SIZE in
  let? name_offset := add_u64 offset DIRECTORY_ENTRY_SIZE in
  let? name_size := read_u32 fixed 0x14 in
  let? name := read_name name_offset name_size (directory_meta t) "directory" in
  if negb (relative_offset =? 0) && bool_decide (name = []) then bad "directory name is empty"
  else
    let? parent := read_u32 fixed 0 in
    let? sibling := read_u32 fixed 4 in
    let? directory := read_u32 fixed 8 in
    let? file := read_u32 fixed 0x0c in
    Ok (mkDirectory parent sibling directory file name).

Definition read_file (relative_offset : Z) : Result LoadError FileEntry :=
  let? offset := metadata_offset (file_meta t) relative_offset FILE_ENTRY_SIZE "file" in
  let? fixed := read (source t) offset FILE_ENTRY_SIZE in
  let? name_offset := add_u64 offset FILE_ENTRY_SIZE in
  let? name_size := read_u32 fixed 0x1c in
  let? name := read_name name_offset name_size (file_meta t) "file" in
  if bool_decide (name = []) then bad "file name is empty"
  else
    let? parent := read_u32 fixed 0 in
    let? sibling := read_u32 fixed 4 in
    let? offset := read_u64 fixed 8 in
    let? size := read_u64 fixed 0x10 in
    Ok (mkFileEntry parent sibling offset size name).

(** The end of a file's data, checked. *)
Definition check_data (e : FileEntry) : Result LoadError unit :=
  let? end_ := some_or (checked_add 64 (file_data_offset t) (f_offset e) ≫= fun start => checked_add 64 start (f_size e))
                 (InvalidFormat "RomFS" "file data range overflows") in
  if storage_len t <? end_ then bad "file data points outside the image" else Ok tt.

(** One turn of [parse_file_chain]; the state is [(chain, parser)]. *)
Definition file_turn (offset parent : Z) (parent_path : list Z) (chain : gset Z) (p : Parser) :
  Result LoadError (Z * gset Z * Parser) :=
  if bool_decide (offset ∈ chain) || bool_decide (offset ∈ visited_files p) then
    bad "file metadata contains a cycle or duplicate reference"
  else
    let? entry := read_file offset in
    if negb (f_parent entry =? parent) then bad "file has an inconsistent parent reference"
    else
      let? _ := check_data entry in
      let path := join_path parent_path (f_name entry) in
      if bool_decide (path ∈ paths p) then bad "duplicate file path"
      else
        Ok (f_sibling entry, {[ offset ]} ∪ chain,
            mkParser (visited_directories p) ({[ offset ]} ∪ visited_files p) ({[ path ]} ∪ paths p)
              (found p ++ [mkFile path (f_offset entry) (f_size entry)])).

Fixpoint file_loop (fuel : nat) (offset parent : Z) (parent_path : list Z) (chain : gset Z) (p : Parser) :
  option (Result LoadError Parser) :=
  if offset =? EMPTY_ENTRY then Some (Ok p)
  else
    match fuel with
    | O => None
    | S fuel =>
        match file_turn offset parent parent_path chain p with
        | Ok (next, chain, p) => file_loop fuel next parent parent_path chain p
        | Err e => Some (Err e)
        | Panic => Some Panic
        end
    end.

Definition parse_file_chain (fuel : nat) (offset parent : Z) (parent_path : list Z) (p : Parser) :=
  file_loop fuel offset parent parent_path ∅ p.

Definition and_then {A B} (m : option (Result LoadError A)) (k : A -> option (Result LoadError B)) :=
  match m with
  | Some (Ok a) => k a
  | Some (Err e) => Some (Err e)
  | Some Panic => Some Panic
  | None => None
  end.

(** The part of [parse_directory] before the chains: the entry and its path. *)
Definition enter_directory (offset : Z) (expected_parent : option Z) (parent_path : list Z) (p : Parser) :
  Result LoadError (DirectoryEntry * list Z * Parser) :=
  if bool_decide (offset ∈ visited_directories p) then bad "directory metadata contains a cycle or duplicate reference"
  else
    let? entry := read_directory offset in
    if match expected_parent with Some expected => negb (d_parent entry =? expected) | None => false end then
      bad "directory has an inconsistent parent reference"
    else
      let? path :=
        if offset =? 0 then
          if negb (bool_decide (d_name entry = [])) then bad "root directory has a non-empty name" else Ok []
        else Ok (join_path parent_path (d_name entry)) in
      Ok (entry, path, mkParser ({[ offset ]} ∪ visited_directories p) (visited_files p) (paths p) (found p)).

(** The file chains have their own fuel [files_fuel]. *)
Fixpoint parse_directory (files_fuel fuel : nat) (offset : Z) (expected_parent : option Z) (parent_path : list Z)
  (p : Parser) : option (Result LoadError Parser) :=
  match fuel with
  | O => None
  | S fuel =>
      and_then (Some (enter_directory offset expected_parent parent_path p)) (fun '(entry, path, p) =>
      and_then (parse_file_chain files_fuel (child_file entry) offset path p) (fun p =>
      directory_loop files_fuel fuel (child_directory entry) offset path ∅ p))
  end
(** [parse_directory_chain] from one of its turns; [chain] is its local set. *)
with directory_loop (files_fuel fuel : nat) (offset parent : Z) (parent_path : list Z) (chain : gset Z)
  (p : Parser) : option (Result LoadError Parser) :=
  match fuel with
  | O => None
  | S fuel =>
      if offset =? EMPTY_ENTRY then Some (Ok p)
      else if bool_decide (offset ∈ chain) then Some (bad "directory sibling chain contains a cycle")
      else
        and_then (Some (read_directory offset)) (fun entry =>
        and_then (parse_directory files_fuel fuel offset (Some parent) parent_path p) (fun p =>
        directory_loop files_fuel fuel (d_sibling entry) parent parent_path ({[ offset ]} ∪ chain) p))
  end.

Definition parse_directory_chain (files_fuel fuel : nat) (offset parent : Z) (parent_path : list Z) (p : Parser) :=
  directory_loop files_fuel fuel offset parent parent_path ∅ p.
End Parser.

(** [str::cmp]: by bytes. *)
Fixpoint path_cmp (a b : list Z) : comparison :=
  match a, b with
  | [], [] => Eq
  | [], _ => Lt
  | _, [] => Gt
  | x :: a, y :: b => match Z.compare x y with Eq => path_cmp a b | c => c end
  end.

Definition path_le (x y : RomFsFile) : Prop := path_cmp (path x) (path y) <> Gt.
#[global] Instance path_le_dec : RelDecision path_le.
Proof. intros x y. unfold path_le. apply _. Defined.

(** [for (name, region) in [..] { region.validate(storage_len, name)? }] *)
Fixpoint validate_all (regions : list (string * Region)) (container_size : Z) : Result LoadError unit :=
  match regions with
  | [] => Ok tt
  | (name, r) :: rest => let? _ := validate r container_size name in validate_all rest container_size
  end.

(** Entries fit a table every four bytes, and offsets are 32-bit. *)
Definition table_fuel (r : Region) : nat := Z.to_nat (Z.min (region_size r) (2 ^ 32) / 4).

(** The header of [RomFsArchive::parse]. *)
Definition parse_tables (s : Storage) : Result LoadError Tables :=
  let? storage_len := stored (LoadStorage.storage_len s) in
  if storage_len <? HEADER_SIZE then bad "header is truncated"
  else
    let? header := read s 0 HEADER_SIZE in
    let? header_size := read_u64 header 0 in
    if negb (header_size =? HEADER_SIZE) then bad "header size is not 0x50"
    else
      let? o1 := read_u64 header 0x08 in let? s1 := read_u64 header 0x10 in
      let? o2 := read_u64 header 0x18 in let? s2 := read_u64 header 0x20 in
      let? o3 := read_u64 header 0x28 in let? s3 := read_u64 header 0x30 in
      let? o4 := read_u64 header 0x38 in let? s4 := read_u64 header 0x40 in
      let? file_data_offset := read_u64 header 0x48 in
      let directory_meta := mkRegion o2 s2 in
      let file_meta := mkRegion o4 s4 in
      let? _ := validate_all [("directory hash table", mkRegion o1 s1); ("directory metadata table", directory_meta);
                             ("file hash table", mkRegion o3 s3); ("file metadata table", file_meta)]%string storage_len in
      if region_size directory_meta <? DIRECTORY_ENTRY_SIZE then
        bad "directory metadata table does not contain a root entry"
      else if storage_len <? file_data_offset then bad "file data offset points outside the image"
      else Ok (mkTables s storage_len directory_meta file_meta file_data_offset).

Definition parse (s : Storage) : option (Result LoadError RomFsArchive) :=
  and_then (Some (parse_tables s)) (fun t =>
  and_then (parse_directory t (table_fuel (file_meta t) + 1) (2 * table_fuel (directory_meta t) + 2) 0 None []
              (mkParser ∅ ∅ ∅ [])) (fun p =>
  Some (Ok (mkArchive s (file_data_offset t) (merge_sort path_le (found p)))))).

Definition load (s : Storage) := parse s.

(** [slice::binary_search_by]: [size] halves until one candidate is left. *)
Fixpoint search_base (fuel : nat) (cmp : RomFsFile -> comparison) (l : list RomFsFile) (base size : nat) : option nat :=
  match fuel with
  | O => Some base
  | S fuel =>
      if (size <=? 1)%nat then Some base
      else
        let half := Nat.div2 size in
        let mid := (base + half)%nat in
        match l !! mid with
        | Some x => search_base fuel cmp l (match cmp x with Gt => base | _ => mid end) (size - half)
        | None => None
        end
  end.

(** [Err(())] is "not found". *)
Definition binary_search_by (cmp : RomFsFile -> comparison) (l : list RomFsFile) : Result unit nat :=
  match l with
  | [] => Err tt
  | _ =>
      match search_base (length l) cmp l 0 (length l) with
      | Some base => match l !! base with
                     | Some x => match cmp x with Eq => Ok base | _ => Err tt end
                     | None => Panic
                     end
      | None => Panic
      end
  end.

Definition file (a : RomFsArchive) (wanted : list Z) : Result unit RomFsFile :=
  let? index := binary_search_by (fun e => path_cmp (path e) wanted) (files a) in
  match files a !! index with Some f => Ok f | None => Panic end.

Definition open_file (a : RomFsArchive) (f : RomFsFile) : Result LoadError Storage :=
  let? absolute_offset := some_or (checked_add 64 (archive_data_offset a) (offset f))
                            (InvalidFormat "RomFS" "file offset overflows") in
  stored (sub_view (storage a) absolute_offset (size f)).

Definition open (a : RomFsArchive) (wanted : list Z) : Result LoadError (option Storage) :=
  match file a wanted with
  | Ok f => let? v := open_file a f in Ok (Some v)
  | Err _ => Ok None
  | Panic => Panic
  end.
End RomFs.

(** ** Outcomes without panics *)

Definition returns {A} (P : A -> Prop) (r : Result LoadError A) : Prop :=
  match r with Ok a => P a | Err _ => True | Panic => False end.

Lemma returns_bind {A B} (Q : A -> Prop) (P : B -> Prop) m k :
  returns Q m -> (forall a, Q a -> returns P (k a)) -> returns P (result_bind m k).
Proof. destruct m; cbn; auto. Qed.

Lemma returns_mono {A} (P Q : A -> Prop) r : returns P r -> (forall a, P a -> Q a) -> returns Q r.
Proof. destruct r; cbn; auto. Qed.

Lemma returns_some_or {A} (P : A -> Prop) o e : (forall a, o = Some a -> P a) -> returns P (some_or o e).
Proof. destruct o; cbn; auto. Qed.

Lemma returns_ok {A} (P : A -> Prop) r a : returns P r -> r = Ok a -> P a.
Proof. by intros H ->. Qed.

Lemma read_field_returns bytes offset width :
  bytes_ok bytes -> 0 <= offset -> 0 <= width -> offset + width <= Z.of_nat (length bytes) ->
  returns (in_range (8 * width)) (read_field bytes offset width).
Proof. intros Hb Ho Hw Hl. by destruct (read_field_ok bytes offset width) as (v & -> & Hv). Qed.

(** One field of a buffer whose length is known. *)
Ltac next_field := eapply returns_bind; [apply (read_field_returns _ _ 8); [done|lia..]|].

Lemma storage_read_returns s `{!Lawful s} offset count :
  in_range 64 offset -> in_range 64 count ->
  returns (fun r => length r = Z.to_nat count /\ bytes_ok r) (read s offset count).
Proof.
  intros Ho Hc. unfold read. pose proof (proj2 (lawful_returns (s := s)) offset count Ho Hc) as Hp.
  destruct (read_at s offset count) eqn:E; cbn; [|done|congruence]. exact (lawful_read _ _ _ Ho Hc E).
Qed.

Module RomFsProofs.
Import RomFs.

(** ** The entries of a table *)

Definition valid_region (n : Z) (r : Region) : Prop :=
  HEADER_SIZE <= region_offset r /\ 0 <= region_size r /\ region_offset r + region_size r <= n.

(** The offsets a table has room for. *)
Definition slots (r : Region) : gset Z := list_to_set (map (fun k => 4 * k) (seqZ 0 (Z.of_nat (table_fuel r)))).

Lemma slots_size r : base.size (slots r) = table_fuel r.
Proof.
  unfold slots. rewrite size_list_to_set.
  - by rewrite length_map, length_seqZ, Nat2Z.id.
  - apply NoDup_fmap_2; [intros x y Hxy; cbn in Hxy; lia|apply NoDup_seqZ].
Qed.

Lemma slot_in r offset fixed :
  in_range 32 offset -> offset mod 4 = 0 -> 4 <= fixed -> offset + fixed <= region_size r -> offset ∈ slots r.
Proof.
  intros [H0 H1] Hm Hf Hl. apply elem_of_list_to_set, list_elem_of_fmap. exists (offset / 4).
  pose proof (Z.div_mod offset 4 ltac:(lia)). split; [lia|]. apply elem_of_seqZ. unfold table_fuel.
  assert (offset / 4 + 1 <= Z.min (region_size r) (2 ^ 32) / 4); [|assert (0 <= offset / 4) by (apply Z.div_pos; lia); lia].
  apply Z.div_le_lower_bound; [lia|]. change (2 ^ 32) with (4 * 2 ^ 30) in *. lia.
Qed.

(** A name the parser accepts: one path component. *)
Definition component (name : list Z) : Prop := name <> [] /\ 0x2f ∉ name /\ 0 ∉ name /\ utf8_valid name = true.

Section Entries.
Context (t : Tables) `{Hlaw : !Lawful (source t)}.
Context (Hlen : storage_len t < 2 ^ 64) (Hdir : valid_region (storage_len t) (directory_meta t))
  (Hfile : valid_region (storage_len t) (file_meta t)).

Lemma metadata_offset_returns region relative fixed kind :
  valid_region (storage_len t) region -> in_range 32 relative -> 4 <= fixed <= 64 ->
  returns (fun o => o = region_offset region + relative /\ relative ∈ slots region /\
             relative + fixed <= region_size region) (metadata_offset region relative fixed kind).
Proof using Hlen.
  intros (H1 & H2 & H3) Hr Hf. unfold metadata_offset, bad, invalid. pose proof Hr as [Hr0 Hr1].
  destruct (Z.eqb_spec (relative mod 4) 0) as [Hm|]; [|done]. cbn [negb].
  rewrite checked_add_small by lia. cbn [some_or result_bind]. destruct (Z.ltb_spec (region_size region) (relative + fixed)); [done|].
  rewrite checked_add_small by lia. cbn. split; [done|]. split; [apply (slot_in _ _ fixed); [done|done|lia|done]|done].
Qed.

Lemma read_name_returns offset name_size region kind :
  valid_region (storage_len t) region -> 0 <= offset < 2 ^ 64 -> in_range 32 name_size ->
  returns (fun name => name = [] \/ component name) (read_name t offset name_size region kind).
Proof using Hlaw Hlen.
  intros (H1 & H2 & H3) Ho [Hn0 Hn1]. unfold HEADER_SIZE in *. unfold read_name, bad, invalid. destruct (MAX_NAME_SIZE <? name_size); [done|].
  apply (returns_bind (fun _ => True)); [by apply returns_some_or|]. intros end_ _.
  rewrite add_u64_small by lia. cbn [result_bind]. destruct (_ <? end_); [done|].
  eapply returns_bind; [apply (storage_read_returns (source t)); [done|unfold in_range; lia]|]. intros name _.
  destruct (utf8_valid name) eqn:Hu; [|done]. cbn [negb].
  destruct (decide (0x2f ∈ name)); [by rewrite bool_decide_true|]. rewrite (bool_decide_false (0x2f ∈ name)) by done. cbn [orb].
  destruct (decide (0 ∈ name)); [by rewrite bool_decide_true|]. rewrite bool_decide_false by done. cbn.
  destruct (decide (name = [])); [by left|]. by right.
Qed.

Lemma read_directory_returns relative :
  in_range 32 relative ->
  returns (fun e => relative ∈ slots (directory_meta t) /\ in_range 32 (d_sibling e) /\ in_range 32 (child_directory e) /\
             in_range 32 (child_file e) /\ (d_name e = [] \/ component (d_name e)) /\ (relative <> 0 -> component (d_name e)))
    (read_directory t relative).
Proof using Hlaw Hlen Hdir Hfile.
  intros Hr. unfold read_directory. pose proof Hdir as (H1 & H2 & H3). pose proof Hr as [Hr0 Hr1].
  eapply returns_bind; [by apply metadata_offset_returns|]. intros offset (-> & Hslot & Hin).
  unfold DIRECTORY_ENTRY_SIZE, HEADER_SIZE in *.
  eapply returns_bind; [apply (storage_read_returns (source t)); [unfold in_range; lia|done]|]. intros fixed [Hl Hb]. change (Z.to_nat 24) with 24%nat in Hl.
  rewrite add_u64_small by lia. cbn [result_bind].
  eapply returns_bind; [apply (read_field_returns _ _ 4); [done|lia..]|]. intros name_size Hs.
  eapply returns_bind; [apply read_name_returns; [done|lia|done]|]. intros name Hname. unfold bad, invalid.
  destruct (decide (relative <> 0 /\ name = [])) as [[Hr' ->]|Hnn].
  { destruct (Z.eqb_spec relative 0); [done|]. by rewrite bool_decide_true. }
  replace (negb (relative =? 0) && bool_decide (name = [])) with false; cycle 1.
  { destruct (Z.eqb_spec relative 0); [done|]. cbn. rewrite bool_decide_false; [done|]. naive_solver. }
  do 4 (eapply returns_bind; [apply (read_field_returns _ _ 4); [done|lia..]|]; intros ? ?). cbn.
  split_and!; try done. intros Hne. destruct Hname as [->|]; [|done]. naive_solver.
Qed.

Lemma read_file_returns relative :
  in_range 32 relative ->
  returns (fun e => relative ∈ slots (file_meta t) /\ in_range 32 (f_sibling e) /\ in_range 64 (f_offset e) /\
             in_range 64 (f_size e) /\ component (f_name e)) (read_file t relative).
Proof using Hlaw Hlen Hdir Hfile.
  intros Hr. unfold read_file. pose proof Hfile as (H1 & H2 & H3). pose proof Hr as [Hr0 Hr1].
  eapply returns_bind; [by apply metadata_offset_returns|]. intros offset (-> & Hslot & Hin).
  unfold FILE_ENTRY_SIZE, HEADER_SIZE in *.
  eapply returns_bind; [apply (storage_read_returns (source t)); [unfold in_range; lia|done]|]. intros fixed [Hl Hb]. change (Z.to_nat 32) with 32%nat in Hl.
  rewrite add_u64_small by lia. cbn [result_bind].
  eapply returns_bind; [apply (read_field_returns _ _ 4); [done|lia..]|]. intros name_size Hs.
  eapply returns_bind; [apply read_name_returns; [done|lia|done]|]. intros name Hname. unfold bad, invalid.
  destruct (decide (name = [])) as [->|Hnn]; [by rewrite bool_decide_true|]. rewrite bool_decide_false by done.
  do 2 (eapply returns_bind; [apply (read_field_returns _ _ 4); [done|lia..]|]; intros ? ?).
  do 2 (eapply returns_bind; [apply (read_field_returns _ _ 8); [done|lia..]|]; intros ? ?). cbn.
  split_and!; try done. by destruct Hname.
Qed.

(** ** The walk ends

    Every turn that goes on visits a new slot of its table, so the slots that
    are left bound the turns. *)

Notation dirs := (directory_meta t).
Notation nfiles := (table_fuel (file_meta t)).
Notation ndirs := (table_fuel (directory_meta t)).

Definition parser_ok (p : Parser) : Prop := visited_directories p ⊆ slots dirs /\ visited_files p ⊆ slots (file_meta t).

Lemma visit_slot (v : gset Z) r offset :
  v ⊆ slots r -> offset ∈ slots r -> offset ∉ v ->
  {[ offset ]} ∪ v ⊆ slots r /\ base.size ({[ offset ]} ∪ v) = S (base.size v) /\ (S (base.size v) <= table_fuel r)%nat.
Proof.
  intros Hv Ho Hn. assert (Hsub : {[ offset ]} ∪ v ⊆ slots r) by set_solver. split; [done|].
  assert (Hs : base.size ({[ offset ]} ∪ v) = S (base.size v)) by (rewrite size_union, size_singleton by set_solver; done).
  split; [done|]. rewrite <- Hs, <- slots_size. by apply subseteq_size.
Qed.

Lemma file_turn_returns offset parent pp chain p :
  in_range 32 offset -> parser_ok p ->
  returns (fun r => let '(next, _, p') := r in in_range 32 next /\ parser_ok p' /\
             visited_directories p' = visited_directories p /\
             base.size (visited_files p') = S (base.size (visited_files p)) /\
             (S (base.size (visited_files p)) <= nfiles)%nat)
    (file_turn t offset parent pp chain p).
Proof using Hlaw Hlen Hdir Hfile.
  intros Ho [Hd Hf]. unfold file_turn, bad, invalid. destruct (bool_decide (offset ∈ chain)); [done|]. cbn [orb].
  destruct (decide (offset ∈ visited_files p)) as [|Hn]; [by rewrite bool_decide_true|]. rewrite bool_decide_false by done.
  eapply returns_bind; [by apply read_file_returns|]. intros e (Hslot & Hs & _). destruct (negb _); [done|].
  eapply (returns_bind (fun _ => True)).
  { unfold check_data, bad, invalid. apply (returns_bind (fun _ => True)); [by apply returns_some_or|]. intros end_ _. by destruct (_ <? _). }
  intros _ _. destruct (bool_decide _); [done|]. cbn.
  destruct (visit_slot _ _ _ Hf Hslot Hn) as (H1 & H2 & H3). done.
Qed.

Lemma file_loop_returns fuel offset parent pp chain p :
  in_range 32 offset -> parser_ok p -> (nfiles - base.size (visited_files p) < fuel)%nat ->
  exists r, file_loop t fuel offset parent pp chain p = Some r /\
    returns (fun p' => parser_ok p' /\ visited_directories p' = visited_directories p) r.
Proof using Hlaw Hlen Hdir Hfile.
  revert offset chain p. induction fuel as [|fuel IH]; intros offset chain p Ho Hp Hf; [lia|]. cbn [file_loop].
  destruct (offset =? EMPTY_ENTRY); [by eexists|].
  pose proof (file_turn_returns offset parent pp chain p Ho Hp) as Hturn.
  destruct (file_turn t offset parent pp chain p) as [[[next chain'] p']|e|]; [|by eexists|done].
  destruct Hturn as (Hn & Hp' & Hd & Hs & Hb). destruct (IH next chain' p') as (r & -> & Hr); [done|done|lia|].
  exists r. split; [done|]. eapply returns_mono; [done|]. intros q [? ->]. by split.
Qed.

Lemma enter_directory_returns offset expected pp p :
  in_range 32 offset -> parser_ok p ->
  returns (fun r => let '(e, _, p') := r in in_range 32 (child_directory e) /\ in_range 32 (child_file e) /\ parser_ok p' /\
             base.size (visited_directories p') = S (base.size (visited_directories p)) /\
             (S (base.size (visited_directories p)) <= ndirs)%nat)
    (enter_directory t offset expected pp p).
Proof using Hlaw Hlen Hdir Hfile.
  intros Ho [Hd Hf]. unfold enter_directory, bad, invalid.
  destruct (decide (offset ∈ visited_directories p)) as [|Hn]; [by rewrite bool_decide_true|]. rewrite bool_decide_false by done.
  eapply returns_bind; [by apply read_directory_returns|]. intros e (Hslot & _ & Hc & Hcf & _).
  destruct (match expected with Some _ => _ | None => _ end); [done|].
  eapply (returns_bind (fun _ => True)).
  { destruct (offset =? 0); [|done]. by destruct (negb _). }
  intros path _. cbn. destruct (visit_slot _ _ _ Hd Hslot Hn) as (H1 & H2 & H3). done.
Qed.

Lemma walk_returns fuel :
  (forall offset expected pp p, in_range 32 offset -> parser_ok p ->
     (2 * (ndirs - base.size (visited_directories p)) + 1 <= fuel)%nat ->
     exists r, parse_directory t (nfiles + 1) fuel offset expected pp p = Some r /\
       returns (fun p' => parser_ok p' /\ (base.size (visited_directories p) < base.size (visited_directories p') <= ndirs)%nat) r) /\
  (forall offset parent pp chain p, in_range 32 offset -> parser_ok p ->
     (2 * (ndirs - base.size (visited_directories p)) + 2 <= fuel)%nat ->
     exists r, directory_loop t (nfiles + 1) fuel offset parent pp chain p = Some r /\
       returns (fun p' => parser_ok p' /\ (base.size (visited_directories p) <= base.size (visited_directories p') <= ndirs)%nat) r).
Proof using Hlaw Hlen Hdir Hfile.
  assert (Hbound : forall p, parser_ok p -> (base.size (visited_directories p) <= ndirs)%nat).
  { intros p [Hd _]. rewrite <- slots_size. by apply subseteq_size. }
  induction fuel as [|fuel [IHd IHl]]; [split; intros; lia|]. split.
  - intros offset expected pp p Ho Hp Hf. cbn [parse_directory].
    pose proof (enter_directory_returns offset expected pp p Ho Hp) as Henter.
    destruct (enter_directory t offset expected pp p) as [[[e path] p']|e|]; cbn [and_then]; [|by eexists|done].
    destruct Henter as (Hc & Hcf & Hp' & Hs & Hb). unfold parse_file_chain.
    destruct (file_loop_returns (nfiles + 1) (child_file e) offset path ∅ p') as (r & -> & Hr); [done|done|lia|].
    destruct r as [q|e'|]; cbn [and_then returns] in *; [|by eexists|done]. destruct Hr as [Hq Hqd].
    destruct (IHl (child_directory e) offset path ∅ q) as (r & -> & Hr); [done|done|rewrite Hqd; lia|].
    exists r. split; [done|]. eapply returns_mono; [done|]. intros p'' [? ?]. split; [done|]. rewrite Hqd in *. lia.
  - intros offset parent pp chain p Ho Hp Hf. cbn [directory_loop]. unfold bad, invalid.
    destruct (offset =? EMPTY_ENTRY).
    { eexists. split; [done|]. cbn. pose proof (Hbound p Hp). split; [done|lia]. }
    destruct (bool_decide (offset ∈ chain)); [by eexists|].
    pose proof (read_directory_returns offset Ho) as He.
    destruct (read_directory t offset) as [e|e|]; cbn [and_then]; [|by eexists|done]. destruct He as (Hslot & Hsib & _).
    destruct (IHd offset (Some parent) pp p) as (r & -> & Hr); [done|done|lia|].
    destruct r as [q|e'|]; cbn [and_then returns] in *; [|by eexists|done]. destruct Hr as [Hq Hqd].
    destruct (IHl (d_sibling e) parent pp ({[ offset ]} ∪ chain) q) as (r & -> & Hr); [done|done|lia|].
    exists r. split; [done|]. eapply returns_mono; [done|]. intros p'' [? ?]. split; [done|]. lia.
Qed.
End Entries.

(** ** The header *)

Lemma validate_returns r n name :
  in_range 64 (region_offset r) -> in_range 64 (region_size r) ->
  returns (fun _ => valid_region n r) (validate r n name).
Proof.
  intros [Ho ?] [Hs ?]. unfold validate, bad, invalid. apply (returns_bind (fun e => e = region_offset r + region_size r)).
  { apply returns_some_or. intros a Ha. by apply checked_add_inv in Ha as [-> _]. }
  intros end_ ->. destruct (Z.ltb_spec (region_offset r) HEADER_SIZE); [done|]. cbn [orb].
  destruct (Z.ltb_spec n (region_offset r + region_size r)); [done|]. done.
Qed.

Lemma parse_tables_returns s `{!Lawful s} :
  returns (fun t => source t = s /\ LoadStorage.storage_len s = Ok (storage_len t) /\ in_range 64 (storage_len t) /\
             valid_region (storage_len t) (directory_meta t) /\ valid_region (storage_len t) (file_meta t) /\
             0 <= file_data_offset t <= storage_len t)
    (parse_tables s).
Proof.
  unfold parse_tables, bad, invalid. pose proof (proj1 (lawful_returns (s := s))) as Hp.
  destruct (LoadStorage.storage_len s) as [n| |] eqn:En; cbn [stored map_err result_bind]; [|done|done].
  pose proof (lawful_len n En) as Hn. destruct (n <? HEADER_SIZE); [done|].
  eapply returns_bind; [by apply (storage_read_returns s)|]. intros header [Hl Hb]. change (Z.to_nat HEADER_SIZE) with 80%nat in Hl.
  eapply returns_bind; [apply (read_field_returns _ _ 8); [done|lia..]|]. intros hs _. destruct (negb _); [done|].
  next_field. intros o1 Ho1. next_field. intros s1 Hs1. next_field. intros o2 Ho2. next_field. intros s2 Hs2. next_field. intros o3 Ho3.
  next_field. intros s3 Hs3. next_field. intros o4 Ho4. next_field. intros s4 Hs4. next_field. intros fdo Hfdo. cbn [validate_all].
  eapply (returns_bind (fun _ => valid_region n (mkRegion o2 s2) /\ valid_region n (mkRegion o4 s4))).
  { eapply returns_bind; [by apply validate_returns|]. intros ? _. eapply returns_bind; [by apply validate_returns|]. intros ? H1'.
    eapply returns_bind; [by apply validate_returns|]. intros ? _. eapply returns_bind; [by apply validate_returns|]. intros ? H2'. done. }
  intros _ [Hd Hf]. destruct (_ <? _); [done|]. destruct (Z.ltb_spec n fdo); [done|]. cbn.
  unfold in_range in *. split_and!; try done; lia.
Qed.

(** ** The tree of an image *)

Section Tree.
Context (t : Tables).

(** The entries of a sibling chain. *)
Inductive chain (sibling : Z -> Result LoadError Z) : Z -> Z -> Prop :=
| chain_first o : o <> EMPTY_ENTRY -> chain sibling o o
| chain_next o n x : o <> EMPTY_ENTRY -> sibling o = Ok n -> chain sibling n x -> chain sibling o x.

Definition directory_sibling (o : Z) : Result LoadError Z := let? e := read_directory t o in Ok (d_sibling e).
Definition file_sibling (o : Z) : Result LoadError Z := let? e := read_file t o in Ok (f_sibling e).

Definition directory_path (o : Z) (parent_path : list Z) (e : DirectoryEntry) : list Z :=
  if o =? 0 then [] else join_path parent_path (d_name e).

Definition listed (parent_path : list Z) (fe : FileEntry) : RomFsFile :=
  mkFile (join_path parent_path (f_name fe)) (f_offset fe) (f_size fe).

(** [under o parent_path f]: the metadata at [o] leads to the file [f]. *)
Inductive under : Z -> list Z -> RomFsFile -> Prop :=
| under_file o pp e fo fe :
    read_directory t o = Ok e -> chain file_sibling (child_file e) fo -> read_file t fo = Ok fe ->
    under o pp (listed (directory_path o pp e) fe)
| under_directory o pp e d f :
    read_directory t o = Ok e -> chain directory_sibling (child_directory e) d ->
    under d (directory_path o pp e) f -> under o pp f.

Definition data_inside (f : RomFsFile) : Prop := file_data_offset t + offset f + size f <= storage_len t.

(** What a part of the walk adds: the files of [F], each under a new path. *)
Definition yields (p p' : Parser) (F : RomFsFile -> Prop) : Prop :=
  exists added, found p' = found p ++ added /\ (forall f, f ∈ added <-> F f) /\
    paths p' = list_to_set (map path added) ∪ paths p /\ NoDup (map path added) /\
    (forall k, k ∈ map path added -> k ∉ paths p) /\ Forall data_inside added.

Lemma yields_none p p' F : found p' = found p -> paths p' = paths p -> (forall f, ~ F f) -> yields p p' F.
Proof.
  intros Hf Hp HF. exists []. cbn. rewrite app_nil_r, Hp. split_and!; try done; [|set_solver|constructor|set_solver].
  intros f. split; [set_solver|]. intros H. by destruct (HF f).
Qed.

Lemma yields_trans p q r F G H :
  yields p q F -> yields q r G -> (forall f, H f <-> F f \/ G f) -> yields p r H.
Proof.
  intros (a & Ha1 & Ha2 & Ha3 & Ha4 & Ha5 & Ha6) (b & Hb1 & Hb2 & Hb3 & Hb4 & Hb5 & Hb6) HH. exists (a ++ b).
  split; [by rewrite Hb1, Ha1, app_assoc|]. split; [intros f; rewrite elem_of_app, HH, Ha2, Hb2; done|].
  rewrite map_app. split; [rewrite Hb3, Ha3, list_to_set_app_L; set_solver|].
  split. { apply NoDup_app. split; [done|]. split; [|done]. intros k Hk1 Hk2. apply (Hb5 k Hk2). rewrite Ha3. set_solver. }
  split; [|by apply Forall_app]. intros k [Hk|Hk]%elem_of_app; [by apply Ha5|]. specialize (Hb5 k Hk). rewrite Ha3 in Hb5. set_solver.
Qed.

Lemma yields_iff p q F G : yields p q F -> (forall f, F f <-> G f) -> yields p q G.
Proof. intros (a & H1 & H2 & H3) HG. exists a. split; [done|]. split; [intros f; by rewrite <- HG|done]. Qed.

(** The same files found from a parser with the same paths and files. *)
Lemma yields_from p q r F : found q = found p -> paths q = paths p -> yields q r F -> yields p r F.
Proof. intros Hf Hp (a & H). exists a. by rewrite <- Hf, <- Hp. Qed.

(** The files of a chain. *)
Definition in_files (o : Z) (pp : list Z) (f : RomFsFile) : Prop :=
  exists fo fe, chain file_sibling o fo /\ read_file t fo = Ok fe /\ f = listed pp fe.

Lemma chain_empty s x : ~ chain s EMPTY_ENTRY x.
Proof. inversion 1; done. Qed.

Lemma chain_step s o n x : o <> EMPTY_ENTRY -> s o = Ok n -> chain s o x <-> x = o \/ chain s n x.
Proof.
  intros Ho Hn. split.
  - inversion 1; subst; [by left|]. right. congruence.
  - intros [->|Hx]; [by constructor|by econstructor].
Qed.

Lemma file_turn_yields o parent pp ch p next ch' p' :
  o <> EMPTY_ENTRY -> 0 <= file_data_offset t ->
  file_turn t o parent pp ch p = Ok (next, ch', p') ->
  file_sibling o = Ok next /\
  exists fe, read_file t o = Ok fe /\ yields p p' (fun f => f = listed pp fe).
Proof.
  intros Hne Hd. unfold file_turn, file_sibling, bad, invalid. destruct (_ || _); [done|].
  destruct (read_file t o) as [e| |]; [|done..]. cbn [result_bind]. destruct (negb _); [done|].
  destruct (check_data t e) as [[]| |] eqn:Hc; [|done..]. cbn [result_bind].
  destruct (decide (join_path pp (f_name e) ∈ paths p)) as [|Hnew]; [by rewrite bool_decide_true|]. rewrite bool_decide_false by done.
  intros [= <- <- <-]. split; [done|]. exists e. split; [done|].
  exists [listed pp e]. cbn [found paths map]. split; [done|]. split; [set_solver|]. split; [cbn; set_solver|].
  split; [apply NoDup_singleton|]. split; [set_solver|]. constructor; [|done]. unfold data_inside. cbn [listed offset size].
  unfold check_data, bad, invalid in Hc.
  destruct (checked_add 64 (file_data_offset t) (f_offset e)) as [x|] eqn:E1; [|done]. apply checked_add_inv in E1 as [-> ?].
  cbn [mbind option_bind] in Hc. destruct (checked_add 64 _ (f_size e)) as [y|] eqn:E2; [|done]. apply checked_add_inv in E2 as [-> ?].
  cbn [some_or result_bind] in Hc. destruct (Z.ltb_spec (storage_len t) (file_data_offset t + f_offset e + f_size e)); [done|]. lia.
Qed.

Lemma file_loop_yields fuel offset parent pp ch p p' :
  0 <= file_data_offset t ->
  file_loop t fuel offset parent pp ch p = Some (Ok p') -> yields p p' (in_files offset pp).
Proof.
  intros Hd. revert offset ch p. induction fuel as [|fuel IH]; intros offset ch p; cbn [file_loop]; destruct (Z.eqb_spec offset EMPTY_ENTRY) as [->|Hne].
  - intros [= <-]. apply yields_none; [done|done|]. by intros f (fo & fe & []%chain_empty & _).
  - done.
  - intros [= <-]. apply yields_none; [done|done|]. by intros f (fo & fe & []%chain_empty & _).
  - destruct (file_turn t offset parent pp ch p) as [[[next ch'] q]| |] eqn:Ht; [|done..]. intros Hl.
    apply file_turn_yields in Ht as (Hs & fe & Hfe & Hy); [|done..]. apply IH in Hl.
    eapply yields_trans; [exact Hy|exact Hl|]. intros f. unfold in_files. split.
    + intros (fo & fe' & Hc & Hr & ->). rewrite chain_step in Hc by done. destruct Hc as [->|Hc]; [left; congruence|right; by exists fo, fe'].
    + intros [->|(fo & fe' & Hc & Hr & ->)].
      * exists offset, fe. split; [by constructor|done].
      * exists fo, fe'. split; [by econstructor|done].
Qed.

(** The directories of a chain. *)
Definition in_directories (o : Z) (pp : list Z) (f : RomFsFile) : Prop :=
  exists d, chain directory_sibling o d /\ under d pp f.

Lemma enter_directory_inv offset expected pp p e path p' :
  enter_directory t offset expected pp p = Ok (e, path, p') ->
  read_directory t offset = Ok e /\ path = directory_path offset pp e /\ found p' = found p /\ paths p' = paths p.
Proof.
  unfold enter_directory, directory_path, bad, invalid. destruct (bool_decide _); [done|].
  destruct (read_directory t offset) as [x| |]; [|done..]. cbn [result_bind].
  destruct (match expected with Some _ => _ | None => _ end); [done|].
  destruct (offset =? 0); [|cbn; by intros [= -> <- <-]].
  destruct (negb _); [done|]. cbn. by intros [= -> <- <-].
Qed.

Lemma under_unfold o pp e f :
  read_directory t o = Ok e ->
  under o pp f <-> in_files (child_file e) (directory_path o pp e) f \/ in_directories (child_directory e) (directory_path o pp e) f.
Proof.
  intros He. split.
  - inversion 1 as [? ? e' fo fe He'|? ? e' d f' He']; subst; rewrite He in He'; injection He' as <-; [left; by exists fo, fe|right; by exists d].
  - intros [(fo & fe & Hc & Hr & ->)|(d & Hc & Hu)]; [by eapply under_file|by eapply under_directory].
Qed.

Lemma walk_yields files_fuel fuel :
  0 <= file_data_offset t ->
  (forall offset expected pp p p',
     parse_directory t files_fuel fuel offset expected pp p = Some (Ok p') -> yields p p' (under offset pp)) /\
  (forall offset parent pp ch p p',
     directory_loop t files_fuel fuel offset parent pp ch p = Some (Ok p') -> yields p p' (in_directories offset pp)).
Proof.
  intros Hd. induction fuel as [|fuel [IHd IHl]]; [done|]. split.
  - intros offset expected pp p p'. cbn [parse_directory].
    destruct (enter_directory t offset expected pp p) as [[[e path] q]| |] eqn:He; cbn [and_then]; [|done..].
    apply enter_directory_inv in He as (He & -> & Hf & Hp).
    destruct (parse_file_chain t files_fuel (child_file e) offset (directory_path offset pp e) q) as [[r| |]|] eqn:Hfile; cbn [and_then]; [|done..].
    intros Hl%IHl. apply file_loop_yields in Hfile; [|done]. apply (yields_from _ q); [done..|].
    eapply yields_trans; [exact Hfile|exact Hl|]. intros f. by apply under_unfold.
  - intros offset parent pp ch p p'. cbn [directory_loop]. unfold bad, invalid. destruct (Z.eqb_spec offset EMPTY_ENTRY) as [->|Hne].
    { intros [= <-]. apply yields_none; [done|done|]. by intros f (d & []%chain_empty & _). }
    destruct (bool_decide _); [done|]. destruct (read_directory t offset) as [e| |] eqn:He; cbn [and_then]; [|done..].
    destruct (parse_directory t files_fuel fuel offset (Some parent) pp p) as [[q| |]|] eqn:Hpd; cbn [and_then]; [|done..].
    intros Hl%IHl. apply IHd in Hpd. eapply yields_trans; [exact Hpd|exact Hl|]. intros f. unfold in_directories.
    assert (Hs : directory_sibling offset = Ok (d_sibling e)) by (unfold directory_sibling; by rewrite He).
    split.
    + intros (d & Hc & Hu). rewrite chain_step in Hc by done. destruct Hc as [->|Hc]; [by left|right; by exists d].
    + intros [Hu|(d & Hc & Hu)]; [exists offset; split; [by constructor|done]|exists d; split; [by econstructor|done]].
Qed.
End Tree.

(** ** Paths *)

Definition components (cs : list (list Z)) : list Z := concat (map (fun c => 0x2f :: c) cs).

Lemma join_components cs c : join_path (components cs) c = components (cs ++ [c]).
Proof.
  unfold components. rewrite map_app, concat_app. cbn. rewrite app_nil_r. destruct cs as [|d cs]; [done|]. done.
Qed.

(** An absolute path: one or more components. *)
Definition absolute (l : list Z) : Prop := exists cs, cs <> [] /\ Forall component cs /\ l = components cs.

Section Absolute.
Context (t : Tables) `{Hlaw : !Lawful (source t)}.
Context (Hlen : storage_len t < 2 ^ 64) (Hdir : valid_region (storage_len t) (directory_meta t))
  (Hfile : valid_region (storage_len t) (file_meta t)).

Lemma chain_range (next : Z -> Result LoadError Z) o x :
  (forall o n, in_range 32 o -> next o = Ok n -> in_range 32 n) -> in_range 32 o -> chain next o x -> in_range 32 x.
Proof using. intros Hn Ho. induction 1; [done|]. apply IHchain. by eapply Hn. Qed.

Lemma under_absolute o pp f :
  under t o pp f -> in_range 32 o -> (exists cs, Forall component cs /\ pp = components cs) -> absolute (path f) /\ in_range 64 (offset f) /\ in_range 64 (size f).
Proof using Hlaw Hlen Hdir Hfile.
  assert (Hds : forall o n, in_range 32 o -> directory_sibling t o = Ok n -> in_range 32 n).
  { intros x n Hx. unfold directory_sibling. pose proof (read_directory_returns t Hlen Hdir Hfile x Hx) as Hr.
    destruct (read_directory t x); [|done..]. intros [= <-]. apply Hr. }
  assert (Hfs : forall o n, in_range 32 o -> file_sibling t o = Ok n -> in_range 32 n).
  { intros x n Hx. unfold file_sibling. pose proof (read_file_returns t Hlen Hdir Hfile x Hx) as Hr.
    destruct (read_file t x); [|done..]. intros [= <-]. apply Hr. }
  assert (Hpath : forall o pp e, in_range 32 o -> read_directory t o = Ok e -> (exists cs, Forall component cs /\ pp = components cs) ->
    exists cs, Forall component cs /\ directory_path o pp e = components cs).
  { intros x q e Hx He (cs & Hcs & ->). unfold directory_path. destruct (Z.eqb_spec x 0); [by exists []|].
    exists (cs ++ [d_name e]). rewrite join_components. split; [|done]. apply Forall_app. split; [done|]. constructor; [|done].
    pose proof (read_directory_returns t Hlen Hdir Hfile x Hx) as Hr. rewrite He in Hr. by apply Hr. }
  induction 1 as [o pp e fo fe He Hc Hf|o pp e d f He Hc Hu IH]; intros Ho Hpp.
  - destruct (Hpath o pp e Ho He Hpp) as (cs & Hcs & ->). unfold listed. cbn [path offset size].
    pose proof (read_directory_returns t Hlen Hdir Hfile o Ho) as Hr. rewrite He in Hr. destruct Hr as (_ & _ & _ & Hcf & _).
    pose proof (read_file_returns t Hlen Hdir Hfile fo (chain_range _ _ _ Hfs Hcf Hc)) as Hr. rewrite Hf in Hr.
    destruct Hr as (_ & _ & ? & ? & ?). split; [|done]. exists (cs ++ [f_name fe]). rewrite join_components.
    split; [by destruct cs|]. split; [|done]. apply Forall_app. by split; [|constructor].
  - pose proof (read_directory_returns t Hlen Hdir Hfile o Ho) as Hr. rewrite He in Hr. destruct Hr as (_ & _ & Hcd & _).
    apply IH; [exact (chain_range _ _ _ Hds Hcd Hc)|by apply Hpath].
Qed.
End Absolute.

(** ** Order and search *)

Lemma path_cmp_eq a b : path_cmp a b = Eq <-> a = b.
Proof.
  revert b. induction a as [|x a IH]; intros [|y b]; cbn; [done..|]. destruct (Z.compare_spec x y) as [->| |].
  - rewrite IH. naive_solver.
  - split; [done|]. intros [= -> _]. lia.
  - split; [done|]. intros [= -> _]. lia.
Qed.

Lemma path_cmp_antisym a b : path_cmp b a = CompOpp (path_cmp a b).
Proof.
  revert b. induction a as [|x a IH]; intros [|y b]; cbn; [done..|]. rewrite (Z.compare_antisym x y).
  destruct (x ?= y); cbn; [apply IH|done..].
Qed.

Lemma path_cmp_trans a b c : path_cmp a b = Lt -> path_cmp b c = Lt -> path_cmp a c = Lt.
Proof.
  revert b c. induction a as [|x a IH]; intros [|y b] [|z c]; cbn; try done.
  destruct (Z.compare_spec x y) as [->|Hxy|]; [| |done].
  - intros H1. destruct (Z.compare_spec y z); [|done|done]. by apply IH.
  - intros _. destruct (Z.compare_spec y z) as [<-|Hyz|]; [|intros _|done].
    + intros _. by rewrite (proj2 (Z.compare_lt_iff _ _)).
    + by rewrite (proj2 (Z.compare_lt_iff _ _)) by lia.
Qed.

Definition path_lt (x y : RomFsFile) : Prop := path_cmp (path x) (path y) = Lt.

#[global] Instance path_le_total : Total path_le.
Proof. intros x y. unfold path_le. rewrite (path_cmp_antisym (path x) (path y)). destruct (path_cmp (path x) (path y)); cbn; auto. Qed.

#[global] Instance path_le_trans : Transitive path_le.
Proof.
  intros x y z Hxy Hyz. unfold path_le in *. destruct (path_cmp (path x) (path y)) eqn:E1; [| |done].
  - apply path_cmp_eq in E1. by rewrite E1.
  - destruct (path_cmp (path y) (path z)) eqn:E2; [| |done].
    + apply path_cmp_eq in E2. by rewrite <- E2, E1.
    + by rewrite (path_cmp_trans _ _ _ E1 E2).
Qed.

(** Sorting files with unique paths puts them in strict path order. *)
Lemma sorted_files l : NoDup (map path l) -> StronglySorted path_lt (merge_sort path_le l).
Proof.
  intros Hnd. assert (Hs : StronglySorted path_le (merge_sort path_le l)) by (apply (StronglySorted_merge_sort path_le)).
  assert (Hnd' : NoDup (map path (merge_sort path_le l))).
  { change (NoDup (path <$> merge_sort path_le l)). by rewrite merge_sort_Permutation. }
  clear Hnd. induction Hs as [|x m Hs IH Hx]; cbn in *; [constructor|]. inversion Hnd' as [|? ? Hni Hnd'']; subst. constructor; [by apply IH|].
  rewrite Forall_forall in Hx |- *. intros y Hy. specialize (Hx y Hy). unfold path_le, path_lt in *.
  destruct (path_cmp (path x) (path y)) eqn:E; [|done|done]. exfalso. apply path_cmp_eq in E. apply Hni. rewrite E. by apply list_elem_of_fmap_2.
Qed.

Lemma sorted_lookup l i j x y :
  StronglySorted path_lt l -> l !! i = Some x -> l !! j = Some y -> path_cmp (path x) (path y) = Nat.compare i j.
Proof.
  intros Hs. revert i j. induction Hs as [|z l Hs IH Hz]; intros i j Hi Hj; [done|]. rewrite Forall_forall in Hz.
  destruct i as [|i], j as [|j]; cbn in Hi, Hj.
  - injection Hi as ->. injection Hj as ->. by apply path_cmp_eq.
  - injection Hi as ->. apply (Hz y). by eapply list_elem_of_lookup_2.
  - injection Hj as ->. rewrite path_cmp_antisym. assert (H : path_lt y x) by (apply Hz; by eapply list_elem_of_lookup_2).
    unfold path_lt in H. by rewrite H.
  - cbn. by apply IH.
Qed.

Section Search.
Context (l : list RomFsFile) (wanted : list Z) (Hsorted : StronglySorted path_lt l).
Notation cmp := (fun e => path_cmp (path e) wanted).

Lemma search_base_spec fuel base n :
  (1 <= n <= fuel)%nat -> (base + n <= length l)%nat ->
  (forall k x, l !! k = Some x -> path x = wanted -> (base <= k < base + n)%nat) ->
  exists b, search_base fuel cmp l base n = Some b /\ (b < length l)%nat /\
    forall k x, l !! k = Some x -> path x = wanted -> k = b.
Proof using Hsorted.
  revert base n. induction fuel as [|fuel IH]; intros base n Hn Hb Hk; [lia|]. cbn [search_base].
  destruct (Nat.leb_spec n 1).
  { exists base. split; [done|]. split; [lia|]. intros k x Hx Hw. specialize (Hk k x Hx Hw). lia. }
  pose proof (Nat.div2_odd n) as Hodd. set (half := Nat.div2 n) in *.
  assert (Hhalf : (1 <= half)%nat /\ (half <= n - half)%nat) by (destruct (Nat.odd n); cbn in Hodd; lia).
  destruct (lookup_lt_is_Some_2 l (base + half)) as [x Hx]; [lia|]. rewrite Hx.
  assert (Hcmp : forall k y, l !! k = Some y -> path y = wanted -> path_cmp (path x) wanted = Nat.compare (base + half) k).
  { intros k y Hy <-. by apply (sorted_lookup l). }
  apply IH; [lia|destruct (path_cmp _ _); lia|]. intros k y Hy Hw. specialize (Hk k y Hy Hw). specialize (Hcmp k y Hy Hw).
  rewrite Hcmp. destruct (Nat.compare_spec (base + half) k); lia.
Qed.

Lemma binary_search_spec :
  match binary_search_by cmp l with
  | Ok i => exists x, l !! i = Some x /\ path x = wanted
  | Err _ => wanted ∉ map path l
  | Panic => False
  end.
Proof using Hsorted.
  destruct (decide (l = [])) as [Hnil|Hnil].
  { assert (H : binary_search_by cmp l = Err tt) by by rewrite Hnil. rewrite H, Hnil. set_solver. }
  assert (Hpos : (1 <= length l)%nat) by (destruct l; [done|simpl; lia]).
  assert (H : binary_search_by cmp l =
    match search_base (length l) cmp l 0 (length l) with
    | Some base => match l !! base with Some x => match cmp x with Eq => Ok base | _ => Err tt end | None => Panic end
    | None => Panic
    end) by (unfold binary_search_by; clear Hpos; by destruct l).
  rewrite H. clear H. destruct (search_base_spec (length l) 0 (length l)) as (b & -> & Hb & Hk); [lia|lia| |].
  { intros k x Hx _. apply lookup_lt_Some in Hx. lia. }
  destruct (lookup_lt_is_Some_2 l b Hb) as [y Hy]. rewrite Hy. destruct (path_cmp (path y) wanted) eqn:E.
  - apply path_cmp_eq in E. by exists y.
  - intros (z & -> & [k Hz]%list_elem_of_lookup)%list_elem_of_fmap. rewrite (Hk k z Hz eq_refl) in Hz. rewrite Hy in Hz. injection Hz as ->.
    by rewrite (proj2 (path_cmp_eq _ _) eq_refl) in E.
  - intros (z & -> & [k Hz]%list_elem_of_lookup)%list_elem_of_fmap. rewrite (Hk k z Hz eq_refl) in Hz. rewrite Hy in Hz. injection Hz as ->.
    by rewrite (proj2 (path_cmp_eq _ _) eq_refl) in E.
Qed.

Lemma file_spec s o :
  match file (mkArchive s o l) wanted with
  | Ok f => f ∈ l /\ path f = wanted
  | Err _ => wanted ∉ map path l
  | Panic => False
  end.
Proof using Hsorted.
  unfold file. cbn [files]. pose proof binary_search_spec as H. destruct (binary_search_by _ l) as [i|e|]; cbn [result_bind]; [|done|done].
  destruct H as (x & Hx & Hw). rewrite Hx. split; [by eapply list_elem_of_lookup_2|done].
Qed.
End Search.
End RomFsProofs.

Import RomFs RomFsProofs.

(** C24. On every source, lawful or not in its contents, the RomFS parser ends
    with a result: the fuel computed from the sizes of the two metadata tables
    is enough whatever cycles, shared entries or malformed offsets the tables
    hold, and no slice index, unwrap or addition of the walk panics, even when
    reads fail. *)
Theorem romfs_parse_returns (s : Storage) : Lawful s -> exists r, parse s = Some r /\ r <> Panic.
Proof.
  intros Hlaw. unfold parse. pose proof (parse_tables_returns s) as Ht.
  destruct (parse_tables s) as [t|e|]; cbn [and_then]; [|by eexists|done]. destruct Ht as (Hsrc & _ & [_ Hlen] & Hd & Hf & _).
  assert (Lawful (source t)) by by rewrite Hsrc.
  destruct (proj1 (walk_returns t Hlen Hd Hf (2 * table_fuel (directory_meta t) + 2)) 0 None [] (mkParser ∅ ∅ ∅ []))
    as (r & -> & Hr); [done|done|cbn; rewrite size_empty; lia|]. destruct r as [q|e|]; cbn [and_then]; [by eexists|by eexists|by destruct Hr].
Qed.

(** C23. A RomFS image that the parser accepts is listed exactly: the files of the
    archive are precisely the ones its metadata lead to from the root directory
    (through child and sibling offsets, to any depth), each once, in strict
    order of their paths; every path is absolute, made of nonempty components
    without separators or zero bytes.  Looking a path up by binary search finds
    the file of exactly that path and opens exactly its bytes, which lie inside
    the image; any other path is absent. *)
Theorem romfs_lists_tree (s : Storage) (b : list Z) (a : RomFsArchive) :
  Represents s b -> parse s = Some (Ok a) ->
  exists t, parse_tables s = Ok t /\
    (forall f, f ∈ files a <-> under t 0 [] f) /\
    StronglySorted path_lt (files a) /\
    (forall f, f ∈ files a -> absolute (path f)) /\
    (forall wanted, wanted ∉ map path (files a) -> RomFs.open a wanted = Ok None) /\
    forall f, f ∈ files a -> exists v w, RomFs.open a (path f) = Ok (Some v) /\
      slice b (file_data_offset t + offset f) (RomFs.size f) = Some w /\ Represents v w.
Proof.
  intros Hrep. unfold parse. pose proof (parse_tables_returns s) as Ht.
  destruct (parse_tables s) as [t|e|]; cbn [and_then]; [|done|done]. destruct Ht as (Hsrc & Hsl & Hn & Hd & Hf & Hfdo).
  assert (Lawful (source t)) by (rewrite Hsrc; apply _).
  rewrite (rep_len (Represents := Hrep)) in Hsl. injection Hsl as Hsl.
  destruct (parse_directory _ _ _ _ _ _ _) as [[p| |]|] eqn:Hp; cbn [and_then]; [|done..]. intros [= <-].
  apply (proj1 (walk_yields t _ _ (proj1 Hfdo))) in Hp as (added & Hfound & Hunder & _ & Hnd & _ & Hinside).
  cbn [found app] in Hfound. subst added. exists t. cbn [files].
  assert (Hperm : forall f, f ∈ merge_sort path_le (found p) <-> under t 0 [] f) by (intros f; by rewrite merge_sort_Permutation).
  pose proof (sorted_files (found p) Hnd) as Hsorted.
  assert (Habs : forall f, under t 0 [] f -> absolute (path f) /\ in_range 64 (offset f) /\ in_range 64 (RomFs.size f)).
  { intros f Hu. apply (under_absolute t (proj2 Hn) Hd Hf 0 []); [done|done|]. by exists []. }
  split; [done|]. split; [done|]. split; [done|]. split; [intros f Hu; by apply Habs, Hperm|].
  split.
  - intros wanted Hw. unfold RomFs.open. pose proof (file_spec (merge_sort path_le (found p)) wanted Hsorted s (file_data_offset t)) as Hs.
    destruct (file _ wanted) as [g|e|]; [|done|done]. destruct Hs as [Hg <-]. exfalso. apply Hw. by apply list_elem_of_fmap_2.
  - intros f Hin. unfold RomFs.open. pose proof (file_spec (merge_sort path_le (found p)) (path f) Hsorted s (file_data_offset t)) as Hs.
    destruct (file _ (path f)) as [g|e|]; [| |done]; cycle 1.
    { exfalso. apply Hs. by apply list_elem_of_fmap_2. }
    destruct Hs as [Hg Hpath]. assert (g = f) as ->.
    { apply list_elem_of_lookup in Hg as [i Hi], Hin as [j Hj]. pose proof (sorted_lookup _ _ _ _ _ Hsorted Hi Hj) as Hc.
      rewrite Hpath, (proj2 (path_cmp_eq _ _) eq_refl) in Hc. symmetry in Hc. apply Nat.compare_eq in Hc. congruence. }
    destruct (Habs f (proj1 (Hperm f) Hin)) as (_ & [Ho Ho'] & [Hz Hz']).
    rewrite Forall_forall in Hinside. pose proof (Hinside f (proj2 (Hunder f) (proj1 (Hperm f) Hin))) as Hi. unfold data_inside in Hi.
    unfold in_range in *. unfold open_file. cbn [archive_data_offset RomFs.storage].
    rewrite checked_add_small by lia. cbn [some_or result_bind].
    pose proof (sub_view_refines s b (file_data_offset t + offset f) (RomFs.size f) Hrep) as Hv. unfold in_range in Hv.
    specialize (Hv ltac:(lia) ltac:(lia)).
    destruct (slice_exists b (file_data_offset t + offset f) (RomFs.size f)) as [w Hw]; [lia..|]. rewrite Hw in Hv.
    destruct Hv as (v & -> & Hv). by exists v, w.
Qed.

(** An image with a file [/z] and a directory [/d] that holds [b]. *)
Definition romfs_example : list Z :=
  [80; 0; 0; 0; 0; 0; 0; 0; 80; 0; 0; 0; 0; 0; 0; 0; 0; 0; 0; 0; 0; 0; 0; 0; 80; 0; 0; 0; 0; 0; 0; 0; 52; 0;
   0; 0; 0; 0; 0; 0; 80; 0; 0; 0; 0; 0; 0; 0; 0; 0; 0; 0; 0; 0; 0; 0; 132; 0; 0; 0; 0; 0; 0; 0; 72; 0; 0; 0;
   0; 0; 0; 0; 204; 0; 0; 0; 0; 0; 0; 0; 0; 0; 0; 0; 255; 255; 255; 255; 24; 0; 0; 0; 0; 0; 0; 0; 255; 255;
   255; 255; 0; 0; 0; 0; 0; 0; 0; 0; 255; 255; 255; 255; 255; 255; 255; 255; 36; 0; 0; 0; 255; 255; 255;
   255; 1; 0; 0; 0; 100; 0; 0; 0; 0; 0; 0; 0; 255; 255; 255; 255; 0; 0; 0; 0; 0; 0; 0; 0; 2; 0; 0; 0; 0; 0;
   0; 0; 255; 255; 255; 255; 1; 0; 0; 0; 122; 0; 0; 0; 24; 0; 0; 0; 255; 255; 255; 255; 2; 0; 0; 0; 0; 0; 0;
   0; 3; 0; 0; 0; 0; 0; 0; 0; 255; 255; 255; 255; 1; 0; 0; 0; 98; 0; 0; 0; 104; 105; 97; 98; 99].

Lemma romfs_example_ok : Represents (of_bytes romfs_example) romfs_example.
Proof. apply of_bytes_represents; [|done]. by repeat constructor. Qed.

Lemma romfs_parse_returns_witness : exists r, parse (of_bytes romfs_example) = Some r /\ r <> Panic.
Proof. apply (romfs_parse_returns (of_bytes romfs_example)). exact (represents_lawful _ _ (Represents0 := romfs_example_ok)). Defined.

Lemma romfs_lists_tree_witness :
  exists a v, parse (of_bytes romfs_example) = Some (Ok a) /\
    map path (files a) = [[47; 100; 47; 98]; [47; 122]] /\
    RomFs.open a [47; 100; 47; 98] = Ok (Some v) /\ Represents v [97; 98; 99].
Proof.
  destruct (parse (of_bytes romfs_example)) as [[a| |]|] eqn:E; [|vm_compute in E; discriminate E..].
  destruct (romfs_lists_tree (of_bytes romfs_example) romfs_example a romfs_example_ok E) as (t & Ht & _ & _ & _ & _ & H).
  vm_compute in E. injection E as <-. vm_compute in Ht. injection Ht as <-.
  destruct (H (RomFs.mkFile [47; 100; 47; 98] 2 3)) as (v & w & Hv & Hw & Hr); [left|].
  vm_compute in Hw. injection Hw as <-. eexists _, v. split; [reflexivity|]. split; [reflexivity|]. split; [exact Hv|exact Hr].
Defined.

(** A directory that is its own sibling is refused. *)
Example romfs_sibling_cycle :
  parse (of_bytes (<[Z.to_nat (0x50 + 0x18 + 4) := 0x18]> (<[Z.to_nat (0x50 + 0x18 + 5) := 0]>
    (<[Z.to_nat (0x50 + 0x18 + 6) := 0]> (<[Z.to_nat (0x50 + 0x18 + 7) := 0]> romfs_example)))))
  = Some (Err (InvalidFormat "RomFS" "directory sibling chain contains a cycle")).
Proof. by vm_compute. Qed.
