(* ===== verification/LoadNca.v ===== *)
(** * Content archives (crates/loader/content/src/nca.rs, integrity.rs)

    The NCA header (plain or AES-XTS encrypted), its section table, the keys of
    its sections, the plaintext views, and the hash hierarchies that check them.
    The key store is the caller's: a parameter with the three queries of
    [NcaKeyProvider]. *)

From stdpp Require Import pretty.
From S2P Require Import Prelude Bytes LoadStorage LoadCrypto LoadArchive LoadRomFs.

#[local] Open Scope Z_scope.

(** ** Formatting of messages *)

Definition hex_digit (v : Z) : Ascii.ascii := Ascii.ascii_of_N (Z.to_N (if v <? 10 then 48 + v else 87 + v)).

Fixpoint hex_digits (fuel : nat) (v : Z) (acc : string) : string :=
  match fuel with
  | O => acc
  | S fuel =>
      let acc := String (hex_digit (v mod 16)) acc in
      if v / 16 =? 0 then acc else hex_digits fuel (v / 16) acc
  end.

(** [{:#x}] and [{:02x}] *)
Definition hex_prefixed (v : Z) : string := String.append "0x" (hex_digits 16 v EmptyString).
Definition hex_byte (v : Z) : string := String (hex_digit (v / 16)) (String (hex_digit (v mod 16)) EmptyString).

(** [fn hex] *)
Definition hex (bytes : list Z) : string := foldr (fun b acc => String.append (hex_byte b) acc) EmptyString bytes.

(** ** Keys (keys.rs) *)

Inductive KeyAreaKeyIndex := Application | Ocean | System.

Definition from_raw (value : Z) : option KeyAreaKeyIndex :=
  match value with 0 => Some Application | 1 => Some Ocean | 2 => Some System | _ => None end.

Definition key_name (i : KeyAreaKeyIndex) : string :=
  match i with
  | Application => "key_area_key_application" | Ocean => "key_area_key_ocean" | System => "key_area_key_system"
  end.

Record NcaKeyProvider := mkKeys {
  header_key : option (list Z);
  key_area_key : Z -> KeyAreaKeyIndex -> option (list Z);
  title_key : list Z -> Z -> option (list Z);
}.

Definition EmptyKeyProvider : NcaKeyProvider := mkKeys None (fun _ _ => None) (fun _ _ => None).

(** ** Types *)

Inductive NcaFormatVersion := Nca2 | Nca3.
Inductive NcaDistributionType := Download | GameCard | UnknownDistribution (value : Z).
Inductive NcaContentType := Program | Meta | Control | Manual | Data | PublicData | UnknownContent (value : Z).
Inductive NcaSectionType := SectionPfs0 | SectionRomFs | SectionBktr | UnknownSection (partition_type file_system_type : Z).
Inductive NcaEncryptionType := EncryptionNone | AesXts | AesCtr | AesCtrEx.

#[global] Instance NcaEncryptionType_eq_dec : EqDecision NcaEncryptionType.
Proof. solve_decision. Defined.
#[global] Instance NcaSectionType_eq_dec : EqDecision NcaSectionType.
Proof. solve_decision. Defined.

(** [BucketTreeHeader] (bktr.rs) *)
Record BucketTreeHeader := mkTreeHeader { entry_count : Z }.

Record BktrPatchInfo := mkPatchInfo {
  indirect_offset : Z; indirect_size : Z; indirect_header : BucketTreeHeader;
  aes_ctr_ex_offset : Z; aes_ctr_ex_size : Z; aes_ctr_ex_header : BucketTreeHeader
}.

Record BktrCryptoContext := mkCryptoContext {
  raw_storage : Storage; bktr_key : option (list Z); secure_value : Z; counter_offset : Z; bktr_decrypted : bool
}.

Record Sha256Layout := mkSha256Layout {
  master_hash : list Z; hash_table_offset : Z; hash_table_size : Z; data_offset : Z; data_size : Z; sha_block_size : Z
}.
Record IvfcLevel := mkLevel { level_offset : Z; level_size : Z; level_block_size : Z }.
Record IvfcLayout := mkIvfc { master_hashes : list (list Z); levels : list IvfcLevel }.
Inductive IntegrityLayout :=
| LayoutNone
| HierarchicalSha256 (layout : Sha256Layout)
| Ivfc (layout : IvfcLayout)
| Bktr (layout : IvfcLayout).

Record NcaHeader := mkHeader {
  version : NcaFormatVersion; distribution_type : NcaDistributionType; content_type : NcaContentType;
  archive_size : Z; title_id : Z; sdk_version : Z; key_generation : Z; key_area_key_index : Z;
  rights_id : option (list Z); source_is_decrypted : bool
}.

Record NcaSection := mkSection {
  section_index : Z; section_offset : Z; section_size : Z; section_type : NcaSectionType;
  encryption_type : NcaEncryptionType; fs_header_hash_valid : bool; section_storage : Storage;
  integrity : IntegrityLayout; patch_info : option BktrPatchInfo; patch_crypto : option BktrCryptoContext
}.

Record NcaArchive := mkNca { header : NcaHeader; sections : list NcaSection }.

Record SectionEntry := mkSectionEntry { se_index : Z; se_offset : Z; se_size : Z }.

Inductive ContentKeys := Rights (key : list Z) | KeyArea (slots : list (list Z)).

Definition HEADER_SIZE : Z := 0xc00.
Definition MAIN_HEADER_SIZE : Z := 0x400.
Definition FS_HEADER_SIZE : Z := 0x200.
Definition MEDIA_UNIT_SIZE : Z := 0x200.
Definition MAX_INTEGRITY_BLOCK_SIZE : Z := 64 * 1024 * 1024.

Definition nca_error {A} (reason : string) : Result LoadError A := invalid "NCA" reason.
Definition bktr_error {A} (reason : string) : Result LoadError A := invalid "BKTR" reason.

(** [bytes[index]] *)
Definition byte_at (l : list Z) (index : Z) : Result LoadError Z :=
  match l !! Z.to_nat index with Some b => Ok b | None => Panic end.

(** [opt.expect(..)] *)
Definition expect_some {A} (o : option A) : Result LoadError A :=
  match o with Some a => Ok a | None => Panic end.

(** ** Layouts *)

Definition is_power_of_two (v : Z) : bool := (0 <? v) && (Z.land v (v - 1) =? 0).

Definition validate_block_size (block_size : Z) : Result LoadError unit :=
  if negb ((0x20 <=? block_size) && (block_size <=? MAX_INTEGRITY_BLOCK_SIZE)) || negb (is_power_of_two block_size) then
    nca_error (says "invalid integrity block size " (hex_prefixed block_size))
  else Ok tt.

Definition validate_subrange (offset size container_size : Z) (name : string) : Result LoadError unit :=
  let? end_ := some_or (checked_add 64 offset size) (InvalidFormat "NCA" (says name " range overflows")) in
  if container_size <? end_ then nca_error (says name " range points outside its section") else Ok tt.

(** [checked_mul] *)
Definition checked_mul (w x y : Z) : option Z := if x * y <? 2 ^ w then Some (x * y) else None.

Definition parse_sha256_layout (fs_header : list Z) (section_size : Z) : Result LoadError Sha256Layout :=
  let? master_hash := index_range fs_header 0x08 0x28 in
  let? block_size := read_u32 fs_header 0x28 in
  let? hash_table_offset := read_u64 fs_header 0x30 in
  let? hash_table_size := read_u64 fs_header 0x38 in
  let? data_offset := read_u64 fs_header 0x40 in
  let? data_size := read_u64 fs_header 0x48 in
  let? _ := validate_block_size block_size in
  let? _ := validate_subrange hash_table_offset hash_table_size section_size "hash table" in
  let? _ := validate_subrange data_offset data_size section_size "PFS0 data" in
  let? required_hashes := some_or (checked_mul 64 (div_ceil data_size block_size) 0x20)
                            (InvalidFormat "NCA" "PFS0 hash table size overflows") in
  if hash_table_size <? required_hashes then nca_error "PFS0 hash table is too small for its data"
  else Ok (mkSha256Layout master_hash hash_table_offset hash_table_size data_offset data_size block_size).

(** [1_u64.checked_shl(exponent)] *)
Definition checked_shl_one (exponent : Z) : option Z := if exponent <? 64 then Some (2 ^ exponent) else None.

Definition parse_level (fs_header : list Z) (section_size index : Z) : Result LoadError IvfcLevel :=
  let start := 0x18 + index * 0x18 in
  let? offset := read_u64 fs_header start in
  let? size := read_u64 fs_header (start + 8) in
  let? exponent := read_u32 fs_header (start + 0x10) in
  let? block_size := some_or (checked_shl_one exponent) (InvalidFormat "NCA" "IVFC block size exponent is invalid") in
  let? _ := validate_block_size block_size in
  let? _ := validate_subrange offset size section_size "IVFC level" in
  Ok (mkLevel offset size block_size).

(** The hashes of each level but the first fit the level before it. *)
Fixpoint validate_levels (index : Z) (previous : IvfcLevel) (rest : list IvfcLevel) : Result LoadError unit :=
  match rest with
  | [] => Ok tt
  | level :: rest =>
      let? required := some_or (checked_mul 64 (div_ceil (level_size level) (level_block_size level)) 0x20)
                         (InvalidFormat "NCA" "IVFC hash count overflows") in
      if level_size previous <? required then
        nca_error (says (says "IVFC level " (pretty (index - 1))) " hash table is truncated")
      else validate_levels (index + 1) level rest
  end.

Definition parse_ivfc_layout (fs_header : list Z) (section_size : Z) : Result LoadError IvfcLayout :=
  let? magic := index_range fs_header 0x08 0x0c in
  if negb (bool_decide (magic = [0x49; 0x56; 0x46; 0x43])) then nca_error "RomFS IVFC magic is invalid"
  else
    let? master_hash_size := read_u32 fs_header 0x10 in
    let? level_count_with_master := read_u32 fs_header 0x14 in
    if negb ((2 <=? level_count_with_master) && (level_count_with_master <=? 7)) then
      nca_error (says "unsupported IVFC level count " (pretty level_count_with_master))
    else
      let level_count := level_count_with_master - 1 in
      if (master_hash_size =? 0) || (0x20 <? master_hash_size) || negb (master_hash_size mod 0x20 =? 0) then
        nca_error "IVFC master hash table has an invalid size"
      else
        let? levels := map_result (parse_level fs_header section_size) (seqZ 0 level_count) in
        let master_hash_count := master_hash_size / 0x20 in
        match levels with
        | [] => Panic
        | first :: rest =>
            if master_hash_count <? div_ceil (level_size first) (level_block_size first) then
              nca_error "IVFC master hash table is too small for level zero"
            else
              let? _ := validate_levels 1 first rest in
              let? hashes := index_range fs_header 0xc8 (0xc8 + master_hash_size) in
              Ok (mkIvfc (chunks 0x20 hashes) levels)
        end.

Definition parse_ivfc_layout_unbounded (fs_header : list Z) : Result LoadError IvfcLayout :=
  parse_ivfc_layout fs_header u64_max.

Definition result_map {E A B} (f : A -> B) (r : Result E A) : Result E B := let? a := r in Ok (f a).

Definition parse_integrity_layout (section_type : NcaSectionType) (fs_header : list Z) (section_size : Z) :
  Result LoadError IntegrityLayout :=
  match section_type with
  | SectionPfs0 => result_map HierarchicalSha256 (parse_sha256_layout fs_header section_size)
  | SectionRomFs => result_map Ivfc (parse_ivfc_layout fs_header section_size)
  | SectionBktr => result_map Bktr (parse_ivfc_layout_unbounded fs_header)
  | UnknownSection _ _ => Ok LayoutNone
  end.

(** ** Patch metadata *)

Definition MAX_ENTRY_COUNT : Z := 1000000.

(** [BucketTreeHeader::parse] (bktr.rs) *)
Definition BucketTreeHeader_parse (bytes : list Z) : Result LoadError BucketTreeHeader :=
  if negb (Z.of_nat (length bytes) =? 0x10) || negb (bool_decide (take 4 bytes = [0x42; 0x4b; 0x54; 0x52])) then
    bktr_error "bucket-tree magic is invalid"
  else
    let? version := read_u32 bytes 4 in
    if negb (version =? 1) then bktr_error (says "unsupported bucket-tree version " (pretty version))
    else
      let? entry_count := read_u32 bytes 8 in
      if (entry_count =? 0) || (MAX_ENTRY_COUNT <? entry_count) then
        bktr_error (says "invalid bucket-tree entry count " (pretty entry_count))
      else
        let? reserved := read_u32 bytes 0xc in
        if negb (reserved =? 0) then bktr_error "bucket-tree header reserved field is nonzero"
        else Ok (mkTreeHeader entry_count).

Definition validate_patch_range (offset size section_size : Z) (name : string) : Result LoadError unit :=
  let? end_ := some_or (checked_add 64 offset size) (InvalidFormat "BKTR" (says name " range overflows")) in
  if section_size <? end_ then bktr_error (says name " is outside the physical update section") else Ok tt.

Definition parse_patch_info (fs_header : list Z) (section_size : Z) : Result LoadError BktrPatchInfo :=
  let? indirect_offset := read_u64 fs_header 0x100 in
  let? indirect_size := read_u64 fs_header 0x108 in
  let? bytes := index_range fs_header 0x110 0x120 in
  let? indirect_header := BucketTreeHeader_parse bytes in
  let? aes_ctr_ex_offset := read_u64 fs_header 0x120 in
  let? aes_ctr_ex_size := read_u64 fs_header 0x128 in
  let? bytes := index_range fs_header 0x130 0x140 in
  let? aes_ctr_ex_header := BucketTreeHeader_parse bytes in
  if (indirect_size =? 0) || (aes_ctr_ex_size =? 0) then bktr_error "patch table size is zero"
  else
    let? _ := validate_patch_range indirect_offset indirect_size section_size "relocation table" in
    let? _ := validate_patch_range aes_ctr_ex_offset aes_ctr_ex_size section_size "subsection table" in
    let? indirect_end := some_or (checked_add 64 indirect_offset indirect_size)
                           (InvalidFormat "BKTR" "relocation table range overflows") in
    if aes_ctr_ex_offset <? indirect_end then
      bktr_error "relocation table overlaps the subsection table or patch data"
    else Ok (mkPatchInfo indirect_offset indirect_size indirect_header aes_ctr_ex_offset aes_ctr_ex_size aes_ctr_ex_header).

(** ** The section table *)

Definition parse_magic (magic : list Z) : option NcaFormatVersion :=
  if bool_decide (magic = [0x4e; 0x43; 0x41; 0x32]) then Some Nca2
  else if bool_decide (magic = [0x4e; 0x43; 0x41; 0x33]) then Some Nca3
  else None.

Definition parse_section_entry (header : list Z) (storage_len index : Z) (entries : list SectionEntry) :
  Result LoadError (list SectionEntry) :=
  let offset := 0x240 + index * 0x10 in
  let? media_start := read_u32 header offset in
  let? media_end := read_u32 header (offset + 4) in
  if (media_start =? 0) && (media_end =? 0) then Ok entries
  else if (media_start =? 0) || (media_end <=? media_start) then
    nca_error (says (says "section " (pretty index)) " has an invalid media-unit range")
  else
    let? start := some_or (checked_mul 64 media_start MEDIA_UNIT_SIZE) (InvalidFormat "NCA" "section offset overflows") in
    let? end_ := some_or (checked_mul 64 media_end MEDIA_UNIT_SIZE) (InvalidFormat "NCA" "section end overflows") in
    if (start <? HEADER_SIZE) || (storage_len <? end_) then
      nca_error (says (says "section " (pretty index)) " points outside the archive")
    else Ok (entries ++ [mkSectionEntry index start (end_ - start)]).

Definition offset_le (x y : SectionEntry) : Prop := se_offset x <= se_offset y.
#[global] Instance offset_le_dec : RelDecision offset_le.
Proof. intros x y. unfold offset_le. apply _. Defined.

(** [by_offset.windows(2)] *)
Fixpoint check_overlaps (l : list SectionEntry) : Result LoadError unit :=
  match l with
  | x :: ((y :: _) as rest) =>
      let? end_ := add_u64 (se_offset x) (se_size x) in
      if se_offset y <? end_ then nca_error "section ranges overlap" else check_overlaps rest
  | _ => Ok tt
  end.

Definition parse_section_entries (header : list Z) (storage_len : Z) : Result LoadError (list SectionEntry) :=
  let? entries := for_each (parse_section_entry header storage_len) (seqZ 0 4) [] in
  let? _ := check_overlaps (merge_sort offset_le entries) in
  Ok entries.

Definition parse_encryption_type (value : Z) : Result LoadError NcaEncryptionType :=
  match value with
  | 1 => Ok EncryptionNone
  | 2 => Ok AesXts
  | 3 => Ok AesCtr
  | 4 => Ok AesCtrEx
  | _ => nca_error (says "unsupported section encryption type " (pretty value))
  end.

Definition parse_section_type (partition_type file_system_type : Z) (encryption : NcaEncryptionType) : NcaSectionType :=
  if (partition_type =? 1) && (file_system_type =? 2) then SectionPfs0
  else if (partition_type =? 0) && (file_system_type =? 3) then
    if bool_decide (encryption = AesCtrEx) then SectionBktr else SectionRomFs
  else UnknownSection partition_type file_system_type.

Section Nca.
(** [Aes128] and [Sha256::digest]. *)
Context (encrypt_block decrypt_block : list Z -> list Z -> list Z) (digest : list Z -> list Z).

Definition decrypt_header (raw_header : list Z) (keys : NcaKeyProvider) :
  Result LoadError (list Z * NcaFormatVersion * bool) :=
  let? magic := index_range raw_header 0x200 0x204 in
  match parse_magic magic with
  | Some version => Ok (raw_header, version, true)
  | None =>
      let? key := some_or (header_key keys) (MissingKey "header_key") in
      let? first := index_range raw_header 0 MAIN_HEADER_SIZE in
      let? first := decrypt_xts encrypt_block decrypt_block key first 0 MEDIA_UNIT_SIZE in
      let? magic := index_range first 0x200 0x204 in
      let? version := some_or (parse_magic magic)
                        (InvalidFormat "NCA" "header magic is invalid after AES-XTS decryption") in
      let? decrypted :=
        match version with
        | Nca3 => decrypt_xts encrypt_block decrypt_block key raw_header 0 MEDIA_UNIT_SIZE
        | Nca2 =>
            let? headers := map_result (fun index =>
                let? fs := index_range raw_header (0x400 + index * FS_HEADER_SIZE) (0x400 + index * FS_HEADER_SIZE + FS_HEADER_SIZE) in
                decrypt_xts encrypt_block decrypt_block key fs 0 MEDIA_UNIT_SIZE) (seqZ 0 4) in
            Ok (first ++ concat headers)
        end in
      Ok (decrypted, version, false)
  end.

Definition resolve_content_keys (header_bytes : list Z) (h : NcaHeader) (keys : NcaKeyProvider) :
  Result LoadError ContentKeys :=
  match rights_id h with
  | Some id =>
      let? key := some_or (title_key keys id (key_generation h))
                    (MissingKey (says "title key for rights ID " (hex id))) in
      Ok (Rights key)
  | None =>
      let? index := some_or (from_raw (key_area_key_index h))
                      (InvalidFormat "NCA" (says "unsupported key-area encryption-key index " (pretty (key_area_key_index h)))) in
      let? key := some_or (key_area_key keys (key_generation h) index)
                    (MissingKey (says (key_name index) (says "_" (hex_byte (key_generation h))))) in
      let? area := index_range header_bytes 0x300 0x340 in
      let? decrypted := decrypt_ecb_blocks decrypt_block key area in
      Ok (KeyArea (chunks 16 decrypted))
  end.

(** [slots[i]] of four slots. *)
Definition slot (slots : list (list Z)) (i : nat) : Result LoadError (list Z) := expect_some (slots !! i).

Definition open_plaintext_section (raw : Storage) (absolute_offset : Z) (encryption : NcaEncryptionType)
  (section_counter : list Z) (decrypted : bool) (content_keys : option ContentKeys) : Result LoadError Storage :=
  if decrypted || bool_decide (encryption = EncryptionNone) then Ok raw
  else
    let? keys := expect_some content_keys in
    match encryption with
    | EncryptionNone => Ok raw
    | AesXts =>
        match keys with
        | Rights _ => nca_error "rights-ID sections cannot use AES-XTS"
        | KeyArea slots =>
            let? k0 := slot slots 0 in
            let? k1 := slot slots 1 in
            Ok (xts_storage encrypt_block decrypt_block raw (k0 ++ k1))
        end
    | AesCtr | AesCtrEx =>
        let? key := match keys with Rights key => Ok key | KeyArea slots => slot slots 2 end in
        Ok (ctr_storage encrypt_block raw key section_counter absolute_offset)
    end.

(** One turn of the loop over the section entries. *)
Definition parse_section (s : Storage) (header_bytes : list Z) (decrypted : bool) (content_keys : option ContentKeys)
  (entry : SectionEntry) : Result LoadError NcaSection :=
  let fs_start := 0x400 + se_index entry * FS_HEADER_SIZE in
  let? fs_header := index_range header_bytes fs_start (fs_start + FS_HEADER_SIZE) in
  let? expected_hash := index_range header_bytes (0x280 + se_index entry * 0x20) (0x2a0 + se_index entry * 0x20) in
  let hash_valid := bool_decide (digest fs_header = expected_hash) in
  let? partition_type := byte_at fs_header 2 in
  let? file_system_type := byte_at fs_header 3 in
  let? encryption_byte := byte_at fs_header 4 in
  let? encryption := parse_encryption_type encryption_byte in
  let type := parse_section_type partition_type file_system_type encryption in
  let? raw := stored (sub_view s (se_offset entry) (se_size entry)) in
  let? section_counter := index_range fs_header 0x140 0x148 in
  let? plaintext := open_plaintext_section raw (se_offset entry) encryption section_counter decrypted content_keys in
  let? layout := parse_integrity_layout type fs_header (se_size entry) in
  if bool_decide (type = SectionBktr) then
    let? info := parse_patch_info fs_header (se_size entry) in
    let? key :=
      if decrypted then Ok None
      else
        let? keys := expect_some content_keys in
        let? key := match keys with Rights key => Ok key | KeyArea slots => slot slots 2 end in
        Ok (Some key) in
    let? secure := read_u32 fs_header 0x144 in
    Ok (mkSection (se_index entry) (se_offset entry) (se_size entry) type encryption hash_valid plaintext layout
          (Some info) (Some (mkCryptoContext raw key secure (se_offset entry) decrypted)))
  else
    Ok (mkSection (se_index entry) (se_offset entry) (se_size entry) type encryption hash_valid plaintext layout None None).

Definition parse_distribution (value : Z) : NcaDistributionType :=
  match value with 0 => Download | 1 => GameCard | _ => UnknownDistribution value end.
Definition parse_content (value : Z) : NcaContentType :=
  match value with
  | 0 => Program | 1 => Meta | 2 => Control | 3 => Manual | 4 => Data | 5 => PublicData | _ => UnknownContent value
  end.

(** The main header. *)
Definition parse_main_header (header_bytes : list Z) (version : NcaFormatVersion) (decrypted : bool) (declared_size : Z) :
  Result LoadError NcaHeader :=
  let? crypto_type := byte_at header_bytes 0x206 in
  let? crypto_type_2 := byte_at header_bytes 0x220 in
  let key_generation := Z.max 0 (Z.max crypto_type crypto_type_2 - 1) in
  let? rights_id_raw := index_range header_bytes 0x230 0x240 in
  let rights_id := if existsb (fun byte => negb (byte =? 0)) rights_id_raw then Some rights_id_raw else None in
  let? distribution := byte_at header_bytes 0x204 in
  let? content := byte_at header_bytes 0x205 in
  let? title_id := read_u64 header_bytes 0x210 in
  let? sdk_version := read_u32 header_bytes 0x21c in
  let? key_area_key_index := byte_at header_bytes 0x207 in
  Ok (mkHeader version (parse_distribution distribution) (parse_content content) declared_size title_id sdk_version
        key_generation key_area_key_index rights_id decrypted).

(** [entries.iter().any(..)]: a section is encrypted. *)
Fixpoint any_encrypted (header_bytes : list Z) (entries : list SectionEntry) : Result LoadError bool :=
  match entries with
  | [] => Ok false
  | entry :: rest =>
      let? b := byte_at header_bytes (0x400 + se_index entry * FS_HEADER_SIZE + 4) in
      if negb (b =? 1) then Ok true else any_encrypted header_bytes rest
  end.

Definition parse_nca (s : Storage) (keys : NcaKeyProvider) : Result LoadError NcaArchive :=
  let? storage_len := stored (storage_len s) in
  if storage_len <? HEADER_SIZE then nca_error "header is truncated"
  else
    let? raw_header := read s 0 HEADER_SIZE in
    let? parsed := decrypt_header raw_header keys in
    let '(header_bytes, version, decrypted) := parsed in
    let? declared_size := read_u64 header_bytes 0x208 in
    if negb (declared_size =? storage_len) then
      nca_error (says (says (says "declared archive size " (hex_prefixed declared_size)) " does not match source size ")
                   (hex_prefixed storage_len))
    else
      let? h := parse_main_header header_bytes version decrypted declared_size in
      let? entries := parse_section_entries header_bytes storage_len in
      let? needs := if decrypted then Ok false else any_encrypted header_bytes entries in
      let? content_keys :=
        if needs then result_map Some (resolve_content_keys header_bytes h keys) else Ok None in
      let? sections := map_result (parse_section s header_bytes decrypted content_keys) entries in
      Ok (mkNca h sections).

Definition load (s : Storage) : Result LoadError NcaArchive := parse_nca s EmptyKeyProvider.

Definition section (a : NcaArchive) (index : Z) : option NcaSection :=
  snd <$> list_find (fun x => section_index x = index) (sections a).

Definition bktr_ivfc (x : NcaSection) : option IvfcLayout :=
  match integrity x with Bktr layout => Some layout | _ => None end.
Definition romfs_ivfc (x : NcaSection) : option IvfcLayout :=
  match integrity x with Ivfc layout => Some layout | _ => None end.

Definition payload_storage (x : NcaSection) : Result LoadError Storage :=
  let? range :=
    match integrity x with
    | HierarchicalSha256 layout => Ok (data_offset layout, data_size layout)
    | Ivfc layout =>
        match last (levels layout) with
        | Some level => Ok (level_offset level, level_size level)
        | None => nca_error "IVFC section has no data level"
        end
    | LayoutNone | Bktr _ => Ok (0, section_size x)
    end in
  stored (sub_view (section_storage x) (fst range) (snd range)).
End Nca.

(** ** Integrity hierarchies (integrity.rs) *)

Inductive IntegrityCheckKind :=
| FsHeader | HierarchicalSha256Master | HierarchicalSha256Data | IvfcLevelCheck (level : Z) | BktrVirtualImage.
Inductive IntegrityStatus := Valid | Invalid | Unchecked.
#[global] Instance IntegrityStatus_eq_dec : EqDecision IntegrityStatus.
Proof. solve_decision. Defined.

Record IntegrityCheck := mkCheck { check_kind : IntegrityCheckKind; check_status : IntegrityStatus }.
Record IntegrityReport := mkReport { report_section : Z; report_checks : list IntegrityCheck }.

(** [IntegrityReport::is_valid] *)
Definition report_is_valid (r : IntegrityReport) : bool :=
  match report_checks r with
  | [] => false
  | checks => forallb (fun c => bool_decide (check_status c = Valid)) checks
  end.

Definition HASH_SIZE : Z := 0x20.
Definition HASH_BUFFER_SIZE : Z := 1024 * 1024.
Definition ZEROS : Z := 8192.

Definition status (valid : bool) : IntegrityStatus := if valid then Valid else Invalid.

Inductive ExpectedHashes := Inline (hashes : list (list Z)) | InStorage (offset : Z).

Section Integrity.
Context {Hasher : Type} (new : Hasher) (update : Hasher -> list Z -> Hasher) (finalize : Hasher -> list Z).

(** [while consumed < size]; the fuel is the number of buffers. *)
Fixpoint hash_range_loop (fuel : nat) (s : Storage) (offset size consumed : Z) (hasher : Hasher) : Result LoadError Hasher :=
  match fuel with
  | O => Ok hasher
  | S fuel =>
      if consumed <? size then
        let chunk_size := Z.min (size - consumed) HASH_BUFFER_SIZE in
        let? start := some_or (checked_add 64 offset consumed) (InvalidFormat "NCA" "hash read offset overflows") in
        let? buffer := read s start chunk_size in
        hash_range_loop fuel s offset size (consumed + chunk_size) (update hasher buffer)
      else Ok hasher
  end.

(** [while padding != 0]; the fuel is the number of pieces. *)
Fixpoint pad_loop (fuel : nat) (padding : Z) (hasher : Hasher) : Hasher :=
  match fuel with
  | O => hasher
  | S fuel =>
      if padding =? 0 then hasher
      else
        let chunk := Z.min padding ZEROS in
        pad_loop fuel (padding - chunk) (update hasher (replicate (Z.to_nat chunk) 0))
  end.

Definition hash_padded_range (s : Storage) (offset size : Z) (padded_size : option Z) : Result LoadError (list Z) :=
  let? hasher := hash_range_loop (Z.to_nat (div_ceil size HASH_BUFFER_SIZE)) s offset size 0 new in
  match padded_size with
  | None => Ok (finalize hasher)
  | Some padded_size =>
      if padded_size <? size then nca_error "integrity padded size is smaller than its data"
      else
        let padding := padded_size - size in
        Ok (finalize (pad_loop (Z.to_nat (div_ceil padding ZEROS)) padding hasher))
  end.

Definition hash_range (s : Storage) (offset size : Z) : Result LoadError (list Z) := hash_padded_range s offset size None.

Definition expected_hash (s : Storage) (hashes : ExpectedHashes) (block_index : Z) : Result LoadError (list Z) :=
  match hashes with
  | Inline hashes => some_or (hashes !! Z.to_nat block_index) (InvalidFormat "NCA" "master hash table is truncated")
  | InStorage offset =>
      let? hash_offset := some_or (checked_mul 64 block_index HASH_SIZE ≫= checked_add 64 offset)
                            (InvalidFormat "NCA" "hash offset overflows") in
      read s hash_offset HASH_SIZE
  end.

(** The loop over blocks, left at the first mismatch. *)
Fixpoint validate_blocks (s : Storage) (data_offset data_size block_size : Z) (pad_last_block : bool)
  (hashes : ExpectedHashes) (blocks : list Z) : Result LoadError bool :=
  match blocks with
  | [] => Ok true
  | block_index :: rest =>
      let? relative_offset := some_or (checked_mul 64 block_index block_size)
                                (InvalidFormat "NCA" "integrity block offset overflows") in
      let? offset := some_or (checked_add 64 data_offset relative_offset)
                       (InvalidFormat "NCA" "integrity data offset overflows") in
      let remaining := data_size - relative_offset in
      let read_size := Z.min remaining block_size in
      let? actual := hash_padded_range s offset read_size (if pad_last_block then Some block_size else None) in
      let? expected := expected_hash s hashes block_index in
      if bool_decide (actual = expected) then
        validate_blocks s data_offset data_size block_size pad_last_block hashes rest
      else Ok false
  end.

Definition validate_hash_layer (s : Storage) (data_offset data_size block_size : Z) (pad_last_block : bool)
  (hashes : ExpectedHashes) : Result LoadError bool :=
  validate_blocks s data_offset data_size block_size pad_last_block hashes (seqZ 0 (div_ceil data_size block_size)).

(** The levels of an IVFC layout from [index] on; [hashes] is where the hashes
    of the first of them are. *)
Fixpoint validate_ivfc (s : Storage) (index : Z) (hashes : ExpectedHashes) (levels : list IvfcLevel) :
  Result LoadError (list IntegrityCheck) :=
  match levels with
  | [] => Ok []
  | level :: rest =>
      let? valid := validate_hash_layer s (level_offset level) (level_size level) (level_block_size level) true hashes in
      let? checks := validate_ivfc s (index + 1) (InStorage (level_offset level)) rest in
      Ok (mkCheck (IvfcLevelCheck index) (status valid) :: checks)
  end.

Definition validate_layout (s : Storage) (layout : IntegrityLayout) : Result LoadError (list IntegrityCheck) :=
  match layout with
  | LayoutNone => Ok []
  | Bktr _ => Ok [mkCheck BktrVirtualImage Unchecked]
  | HierarchicalSha256 layout =>
      let? actual_master := hash_range s (hash_table_offset layout) (hash_table_size layout) in
      let? valid := validate_hash_layer s (data_offset layout) (data_size layout) (sha_block_size layout) false
                      (InStorage (hash_table_offset layout)) in
      Ok [mkCheck HierarchicalSha256Master (status (bool_decide (actual_master = master_hash layout)));
          mkCheck HierarchicalSha256Data (status valid)]
  | Ivfc layout => validate_ivfc s 0 (Inline (master_hashes layout)) (levels layout)
  end.

(** [integrity::validate] *)
Definition validate (section_index : Z) (header_hash_valid : bool) (s : Storage) (layout : IntegrityLayout) :
  Result LoadError IntegrityReport :=
  let? checks := validate_layout s layout in
  Ok (mkReport section_index (mkCheck FsHeader (status header_hash_valid) :: checks)).

(** [NcaSection::validate_integrity] and [NcaArchive::validate_integrity] *)
Definition section_validate_integrity (x : NcaSection) : Result LoadError IntegrityReport :=
  validate (section_index x) (fs_header_hash_valid x) (section_storage x) (integrity x).
Definition validate_integrity (a : NcaArchive) : Result LoadError (list IntegrityReport) :=
  map_result section_validate_integrity (sections a).

(** *** What a report says *)

Context (update_nil : forall h, update h [] = h).
Context (update_app : forall h x y, update (update h x) y = update h (x ++ y)).

Definition digest_of (l : list Z) : list Z := finalize (update new l).

Lemma hash_range_loop_ok s b offset size fuel consumed h :
  Represents s b -> 0 <= offset -> 0 <= consumed <= size -> offset + size <= Z.of_nat (length b) ->
  size - consumed <= Z.of_nat fuel * HASH_BUFFER_SIZE ->
  exists r, slice b (offset + consumed) (size - consumed) = Some r /\
    hash_range_loop fuel s offset size consumed h = Ok (update h r).
Proof using update_app update_nil.
  intros Hrep Ho Hc Hs. pose proof (rep_short (Represents := Hrep)) as Hshort. unfold in_range in Hshort.
  revert consumed h Hc. induction fuel as [|fuel IH]; intros consumed h Hc Hf; cbn [hash_range_loop].
  { replace (size - consumed) with 0 by lia. exists []. split; [by rewrite slice_some by lia|by rewrite update_nil]. }
  destruct (Z.ltb_spec consumed size).
  2:{ replace (size - consumed) with 0 by lia. exists []. split; [by rewrite slice_some by lia|by rewrite update_nil]. }
  set (n := Z.min (size - consumed) HASH_BUFFER_SIZE). assert (0 < n <= size - consumed) by (unfold n, HASH_BUFFER_SIZE; lia).
  rewrite checked_add_small by lia. cbn [some_or result_bind].
  destruct (read_slice s b (offset + consumed) n) as (x & -> & Hx); [lia..|]. cbn [result_bind].
  destruct (IH (consumed + n) (update h x)) as (y & Hy & ->); [lia|unfold n, HASH_BUFFER_SIZE in *; lia|].
  exists (x ++ y). rewrite update_app. split; [|done].
  replace (size - consumed) with (n + (size - (consumed + n))) by lia. apply slice_app; [done|].
  by replace (offset + consumed + n) with (offset + (consumed + n)) by lia.
Qed.

Lemma pad_loop_ok fuel padding h :
  0 <= padding <= Z.of_nat fuel * ZEROS -> pad_loop fuel padding h = update h (replicate (Z.to_nat padding) 0).
Proof using update_app update_nil.
  revert padding h. induction fuel as [|fuel IH]; intros padding h Hp; cbn [pad_loop].
  { replace padding with 0 by lia. by rewrite update_nil. }
  destruct (Z.eqb_spec padding 0) as [->|]; [by rewrite update_nil|].
  rewrite IH by (unfold ZEROS in *; lia). rewrite update_app, <- replicate_add. do 2 f_equal. unfold ZEROS in *. lia.
Qed.

(** A range, filled up with zeros. *)
Definition padded (r : list Z) (padded_size : option Z) : list Z :=
  match padded_size with None => r | Some n => r ++ replicate (Z.to_nat n - length r) 0 end.

Lemma hash_padded_range_ok s b offset size pad :
  Represents s b -> 0 <= offset -> 0 <= size -> offset + size <= Z.of_nat (length b) ->
  (forall n, pad = Some n -> size <= n) ->
  exists r, slice b offset size = Some r /\ hash_padded_range s offset size pad = Ok (digest_of (padded r pad)).
Proof using update_app update_nil.
  intros Hrep Ho Hs Hl Hpad. unfold hash_padded_range.
  destruct (hash_range_loop_ok s b offset size (Z.to_nat (div_ceil size HASH_BUFFER_SIZE)) 0 new) as (r & Hr & ->); [done|lia|lia|lia| |].
  { pose proof (div_ceil_bounds size HASH_BUFFER_SIZE Hs ltac:(done)). rewrite Z2Nat.id by lia. lia. }
  rewrite Z.add_0_r, Z.sub_0_r in Hr. exists r. split; [done|]. cbn [result_bind]. destruct pad as [n|]; [|done].
  specialize (Hpad n eq_refl). rewrite (proj2 (Z.ltb_ge n size)) by done. rewrite pad_loop_ok.
  - rewrite update_app. unfold digest_of, padded. rewrite (slice_length _ _ _ _ Hr). do 5 f_equal. lia.
  - pose proof (div_ceil_bounds (n - size) ZEROS ltac:(lia) ltac:(done)). rewrite Z2Nat.id by lia. lia.
Qed.

(** *** Layers *)

Definition hash_of_block (b : list Z) (hashes : ExpectedHashes) (i : Z) : option (list Z) :=
  match hashes with
  | Inline hashes => hashes !! Z.to_nat i
  | InStorage offset => slice b (offset + i * HASH_SIZE) HASH_SIZE
  end.

(** Block [i] of a layer, as it is hashed. *)
Definition block_of (b : list Z) (offset size block_size : Z) (pad : bool) (i : Z) : option (list Z) :=
  (fun r => padded r (if pad then Some block_size else None)) <$>
    slice b (offset + i * block_size) (Z.min (size - i * block_size) block_size).

(** Every block of a layer has the hash that is recorded for it. *)
Definition layer_matches (b : list Z) (offset size block_size : Z) (pad : bool) (hashes : ExpectedHashes) : Prop :=
  forall i, 0 <= i < div_ceil size block_size ->
    digest_of <$> block_of b offset size block_size pad i = hash_of_block b hashes i.

(** The hashes of a layer are there: [room] bytes of them. *)
Definition hashes_there (n : Z) (hashes : ExpectedHashes) (room : Z) : Prop :=
  match hashes with
  | Inline hashes => room = HASH_SIZE * Z.of_nat (length hashes)
  | InStorage offset => 0 <= offset /\ 0 <= room /\ offset + room <= n
  end.

Definition layer_inside (n offset size block_size : Z) : Prop :=
  0 <= offset /\ 0 <= size /\ offset + size <= n /\ 0 < block_size <= MAX_INTEGRITY_BLOCK_SIZE.

Section Layers.
Context (s : Storage) (b : list Z) `{Hrep : !Represents s b}.
Notation n := (Z.of_nat (length b)).

Lemma expected_hash_ok hashes room i :
  hashes_there n hashes room -> 0 <= i -> (i + 1) * HASH_SIZE <= room ->
  exists e, hash_of_block b hashes i = Some e /\ expected_hash s hashes i = Ok e.
Proof using Hrep.
  intros Hh Hi Hroom. pose proof (rep_short (Represents := Hrep)) as Hshort. unfold in_range, HASH_SIZE in *.
  destruct hashes as [hs|o]; cbn [hashes_there hash_of_block expected_hash] in *.
  - unfold HASH_SIZE in Hh. destruct (lookup_lt_is_Some_2 hs (Z.to_nat i)) as [e He]; [lia|]. exists e. by rewrite He.
  - unfold checked_mul, HASH_SIZE. rewrite (proj2 (Z.ltb_lt (i * 0x20) _)) by lia. cbn [mbind option_bind].
    rewrite checked_add_small by lia. cbn [some_or result_bind].
    destruct (read_slice s b (o + i * 0x20) 0x20) as (e & He & Hs); [lia..|]. by exists e.
Qed.

Lemma validate_blocks_ok offset size block_size pad hashes room blocks :
  layer_inside n offset size block_size -> hashes_there n hashes room ->
  div_ceil size block_size * HASH_SIZE <= room ->
  (forall i, i ∈ blocks -> 0 <= i < div_ceil size block_size) ->
  exists v, validate_blocks s offset size block_size pad hashes blocks = Ok v /\
    (v = true <-> forall i, i ∈ blocks ->
       digest_of <$> block_of b offset size block_size pad i = hash_of_block b hashes i).
Proof using update_app update_nil Hrep.
  intros Hin Hh Hroom. pose proof (rep_short (Represents := Hrep)) as Hshort. unfold in_range in Hshort.
  pose proof Hin as (Ho & Hs & Hl & Hb & _). pose proof (div_ceil_bounds size block_size Hs Hb) as [_ Hd].
  induction blocks as [|i blocks IH]; intros Hblocks; cbn [validate_blocks].
  { exists true. split; [done|]. split; [set_solver|done]. }
  pose proof (Hblocks i ltac:(by left)) as Hi. assert (Hib : 0 <= i * block_size < size) by nia.
  unfold checked_mul. rewrite (proj2 (Z.ltb_lt (i * block_size) _)) by lia. cbn [some_or result_bind].
  rewrite checked_add_small by lia. cbn [some_or result_bind].
  destruct (hash_padded_range_ok s b (offset + i * block_size)
              (Z.min (size - i * block_size) block_size) (if pad then Some block_size else None))
    as (r & Hr & ->); [done|lia|lia|lia|destruct pad; [intros ? [= <-]; lia|done]|]. cbn [result_bind].
  destruct (expected_hash_ok hashes room i Hh) as (e & He & ->); [lia|unfold HASH_SIZE in *; lia|]. cbn [result_bind].
  assert (Hblock : digest_of <$> block_of b offset size block_size pad i = Some (digest_of (padded r (if pad then Some block_size else None)))).
  { unfold block_of. by rewrite Hr. }
  destruct (decide (digest_of (padded r (if pad then Some block_size else None)) = e)) as [Heq|Hne].
  - rewrite bool_decide_true by done. destruct IH as (v & Hv & Hiff); [intros j Hj; apply Hblocks; by right|]. exists v. split; [done|].
    rewrite Hiff. split.
    + intros H j [->|Hj]%elem_of_cons; [rewrite Hblock, He; by f_equal|by apply H].
    + intros H j Hj. apply H. by right.
  - rewrite bool_decide_false by done. exists false. split; [done|]. split; [done|]. intros H.
    specialize (H i ltac:(by left)). rewrite Hblock, He in H. by injection H.
Qed.

(** [validate_hash_layer] returns whether every block matches. *)
Lemma validate_hash_layer_ok offset size block_size pad hashes room :
  layer_inside n offset size block_size -> hashes_there n hashes room ->
  div_ceil size block_size * HASH_SIZE <= room ->
  exists v, validate_hash_layer s offset size block_size pad hashes = Ok v /\
    (v = true <-> layer_matches b offset size block_size pad hashes).
Proof using update_app update_nil Hrep.
  intros Hin Hh Hroom. destruct (validate_blocks_ok offset size block_size pad hashes room (seqZ 0 (div_ceil size block_size)))
    as (v & Hv & Hiff); [done..|intros i Hi%elem_of_seqZ; lia|].
  exists v. split; [done|]. rewrite Hiff. unfold layer_matches. split; intros H i Hi; apply H.
  - apply elem_of_seqZ. lia.
  - apply elem_of_seqZ in Hi. lia.
Qed.

(** The levels of a hierarchy, each inside the section and with room for its
    hashes in the level before it. *)
Fixpoint levels_ok (room : Z) (ls : list IvfcLevel) : Prop :=
  match ls with
  | [] => True
  | l :: rest =>
      layer_inside n (level_offset l) (level_size l) (level_block_size l) /\
      div_ceil (level_size l) (level_block_size l) * HASH_SIZE <= room /\ levels_ok (level_size l) rest
  end.

Fixpoint ivfc_matches (hashes : ExpectedHashes) (ls : list IvfcLevel) : Prop :=
  match ls with
  | [] => True
  | l :: rest =>
      layer_matches b (level_offset l) (level_size l) (level_block_size l) true hashes /\
      ivfc_matches (InStorage (level_offset l)) rest
  end.

Lemma validate_ivfc_ok index hashes room ls :
  hashes_there n hashes room -> levels_ok room ls ->
  exists checks, validate_ivfc s index hashes ls = Ok checks /\
    (forallb (fun c => bool_decide (check_status c = Valid)) checks = true <-> ivfc_matches hashes ls).
Proof using update_app update_nil Hrep.
  revert index hashes room. induction ls as [|l ls IH]; intros index hashes room Hh Hok; cbn [validate_ivfc ivfc_matches].
  { by exists []. }
  destruct Hok as (Hin & Hroom & Hok).
  destruct (validate_hash_layer_ok (level_offset l) (level_size l) (level_block_size l) true hashes room) as (v & -> & Hv); [done..|].
  cbn [result_bind]. destruct (IH (index + 1) (InStorage (level_offset l)) (level_size l)) as (checks & -> & Hc); [|done|].
  { destruct Hin as (? & ? & ? & _). done. }
  cbn [result_bind]. eexists. split; [done|]. cbn [forallb check_status]. rewrite andb_true_iff, Hc, <- Hv.
  destruct v; cbn; naive_solver.
Qed.

(** What the layout parser guarantees of a layout of a section of this size. *)
Definition layout_ok (layout : IntegrityLayout) : Prop :=
  match layout with
  | LayoutNone => True
  | Bktr l => Forall (fun level => in_range 64 (level_offset level) /\ in_range 64 (level_size level)) (levels l)
  | HierarchicalSha256 l =>
      layer_inside n (data_offset l) (data_size l) (sha_block_size l) /\
      hashes_there n (InStorage (hash_table_offset l)) (hash_table_size l) /\
      div_ceil (data_size l) (sha_block_size l) * HASH_SIZE <= hash_table_size l
  | Ivfc l => levels l <> [] /\ levels_ok (HASH_SIZE * Z.of_nat (length (master_hashes l))) (levels l)
  end.

(** What a valid report asserts of the section's bytes. *)
Definition layout_matches (layout : IntegrityLayout) : Prop :=
  match layout with
  | LayoutNone => True
  | Bktr _ => False
  | HierarchicalSha256 l =>
      (exists table, slice b (hash_table_offset l) (hash_table_size l) = Some table /\ digest_of table = master_hash l) /\
      layer_matches b (data_offset l) (data_size l) (sha_block_size l) false (InStorage (hash_table_offset l))
  | Ivfc l => ivfc_matches (Inline (master_hashes l)) (levels l)
  end.

Lemma status_valid v : bool_decide (status v = Valid) = v.
Proof using. by destruct v. Qed.

Lemma validate_spec index hash_valid layout :
  layout_ok layout ->
  exists r, validate index hash_valid s layout = Ok r /\
    (report_is_valid r = true <-> hash_valid = true /\ layout_matches layout).
Proof using update_app update_nil Hrep.
  intros Hok. unfold validate, validate_layout. destruct layout as [|l|l|l]; cbn [layout_ok layout_matches] in *.
  - eexists. split; [done|]. unfold report_is_valid. cbn. rewrite status_valid, andb_true_r. naive_solver.
  - destruct Hok as (Hin & Hh & Hroom). destruct Hh as (H1 & H2 & H3) eqn:Heq. clear Heq.
    destruct (hash_padded_range_ok s b (hash_table_offset l) (hash_table_size l) None)
      as (r & Hr & Hhash); [done|done|done|done|done|]. unfold hash_range. rewrite Hhash. cbn [result_bind padded].
    destruct (validate_hash_layer_ok (data_offset l) (data_size l) (sha_block_size l) false (InStorage (hash_table_offset l)) (hash_table_size l))
      as (v & -> & Hv); [done|by repeat split|done|]. cbn [result_bind]. eexists. split; [done|]. unfold report_is_valid. cbn.
    rewrite !status_valid, andb_true_r, !andb_true_iff, bool_decide_eq_true, Hv, Hr. naive_solver.
  - destruct (validate_ivfc_ok 0 (Inline (master_hashes l)) (HASH_SIZE * Z.of_nat (length (master_hashes l))) (levels l)) as (checks & -> & Hc); [done|apply Hok|].
    cbn [result_bind]. eexists. split; [done|]. unfold report_is_valid. cbn. rewrite status_valid, andb_true_iff, Hc. done.
  - eexists. split; [done|]. unfold report_is_valid. cbn. rewrite andb_false_r. naive_solver.
Qed.
End Layers.
End Integrity.

(** ** Parsed layouts *)

Lemma returns_result_map {A B} (P : B -> Prop) (f : A -> B) r :
  returns (fun a => P (f a)) r -> returns P (result_map f r).
Proof. unfold result_map. by destruct r. Qed.

Lemma map_result_returns2 {A B} (P : A -> B -> Prop) (f : A -> Result LoadError B) l :
  (forall a, a ∈ l -> returns (P a) (f a)) -> returns (Forall2 P l) (map_result f l).
Proof.
  induction l as [|a l IH]; intros H; cbn [map_result]; [constructor|]. eapply returns_bind; [apply H; by left|]. intros x Hx.
  eapply returns_bind; [apply IH; intros y Hy; apply H; by right|]. intros xs Hxs. by constructor.
Qed.

Lemma map_result_returns {A B} (P : B -> Prop) (f : A -> Result LoadError B) l :
  (forall a, a ∈ l -> returns P (f a)) -> returns (fun r => Forall P r /\ length r = length l) (map_result f l).
Proof.
  induction l as [|a l IH]; intros H; cbn [map_result]; [done|]. apply (returns_bind P); [apply H; by left|]. intros x Hx.
  eapply returns_bind; [apply IH; intros y Hy; apply H; by right|]. intros xs [Hxs Hl]. cbn. split; [by constructor|by f_equal].
Qed.

Lemma index_range_returns l start end_ :
  bytes_ok l -> 0 <= start <= end_ -> end_ <= Z.of_nat (length l) ->
  returns (fun r => bytes_ok r /\ length r = Z.to_nat (end_ - start) /\ slice l start (end_ - start) = Some r) (index_range l start end_).
Proof.
  intros Hb Hs He. unfold index_range. destruct (slice_exists l start (end_ - start)) as [r Hr]; [lia..|]. rewrite Hr. cbn.
  split; [by eapply slice_ok|]. split; [by eapply slice_length|done].
Qed.

Lemma byte_at_returns l index : bytes_ok l -> 0 <= index < Z.of_nat (length l) -> returns (in_range 8) (byte_at l index).
Proof.
  intros Hb Hi. unfold byte_at. destruct (lookup_lt_is_Some_2 l (Z.to_nat index)) as [x Hx]; [lia|]. rewrite Hx. cbn.
  by eapply Forall_lookup_1.
Qed.

Lemma validate_block_size_returns bs : returns (fun _ => 0 < bs <= MAX_INTEGRITY_BLOCK_SIZE) (validate_block_size bs).
Proof.
  unfold validate_block_size, nca_error, invalid. destruct (Z.leb_spec 0x20 bs); [|done].
  destruct (Z.leb_spec bs MAX_INTEGRITY_BLOCK_SIZE); [|done]. destruct (is_power_of_two bs); [|done]. cbn. lia.
Qed.

Lemma validate_subrange_returns offset size container name :
  returns (fun _ => offset + size <= container) (validate_subrange offset size container name).
Proof.
  unfold validate_subrange, nca_error, invalid. destruct (checked_add 64 offset size) eqn:E; [|done].
  apply checked_add_inv in E as [-> ?]. cbn. by destruct (Z.ltb_spec container (offset + size)).
Qed.

Lemma required_returns size bs e :
  returns (fun r => r = div_ceil size bs * 0x20) (some_or (checked_mul 64 (div_ceil size bs) 0x20) e).
Proof. apply returns_some_or. unfold checked_mul. intros a. destruct (_ <? _); by intros [= <-]. Qed.

Lemma validate_levels_total index previous rest : returns (fun _ => True) (validate_levels index previous rest).
Proof.
  revert index previous. induction rest as [|l rest IH]; intros index previous; cbn [validate_levels]; [done|].
  eapply returns_bind; [apply required_returns|]. intros r ->. unfold nca_error, invalid. destruct (_ <? _); [done|]. apply IH.
Qed.

Section Layout.
Context (b fs : list Z) (Hfs : bytes_ok fs) (Hlen : length fs = Z.to_nat FS_HEADER_SIZE).
Context (Hn : in_range 64 (Z.of_nat (length b))).
Notation n := (Z.of_nat (length b)).

Lemma fs_u32 offset : 0 <= offset <= 508 -> returns (in_range 32) (read_u32 fs offset).
Proof using Hfs Hlen. intros. apply (read_field_returns fs offset 4); [done|lia|lia|]. rewrite Hlen. unfold FS_HEADER_SIZE. lia. Qed.
Lemma fs_u64 offset : 0 <= offset <= 504 -> returns (in_range 64) (read_u64 fs offset).
Proof using Hfs Hlen. intros. apply (read_field_returns fs offset 8); [done|lia|lia|]. rewrite Hlen. unfold FS_HEADER_SIZE. lia. Qed.
Lemma fs_range start end_ :
  0 <= start <= end_ -> end_ <= 512 -> returns (fun r => bytes_ok r /\ length r = Z.to_nat (end_ - start)) (index_range fs start end_).
Proof using Hfs Hlen.
  intros Hs He. eapply returns_mono; [apply index_range_returns; [done|done|rewrite Hlen; unfold FS_HEADER_SIZE; lia]|]. tauto.
Qed.

Lemma parse_sha256_layout_returns :
  returns (fun l => layout_ok (b) (HierarchicalSha256 l)) (parse_sha256_layout fs n).
Proof using Hfs Hlen Hn.
  unfold parse_sha256_layout. eapply returns_bind; [by apply fs_range|]. intros mh _.
  eapply returns_bind; [by apply fs_u32|]. intros bs Hbs. eapply returns_bind; [by apply fs_u64|]. intros ho Hho.
  eapply returns_bind; [by apply fs_u64|]. intros hs Hhs. eapply returns_bind; [by apply fs_u64|]. intros doff Hdo.
  eapply returns_bind; [by apply fs_u64|]. intros ds Hds.
  eapply returns_bind; [apply validate_block_size_returns|]. intros ? Hb.
  eapply returns_bind; [apply validate_subrange_returns|]. intros ? H1. eapply returns_bind; [apply validate_subrange_returns|]. intros ? H2.
  eapply returns_bind; [apply required_returns|]. intros r ->. unfold nca_error, invalid. destruct (Z.ltb_spec hs (div_ceil ds bs * 0x20)); [done|].
  cbn. unfold layer_inside, HASH_SIZE, in_range in *. lia.
Qed.

Lemma parse_level_returns container index :
  0 <= index < 6 ->
  returns (fun l => 0 <= level_offset l /\ 0 <= level_size l /\ level_offset l + level_size l <= container /\
             0 < level_block_size l <= MAX_INTEGRITY_BLOCK_SIZE) (parse_level fs container index).
Proof using Hfs Hlen Hn.
  intros Hi. unfold parse_level. eapply returns_bind; [apply fs_u64; lia|]. intros o Ho.
  eapply returns_bind; [apply fs_u64; lia|]. intros sz Hsz. eapply returns_bind; [apply fs_u32; lia|]. intros ex _.
  apply (returns_bind (fun _ => True)); [by apply returns_some_or|]. intros bs _.
  eapply returns_bind; [apply validate_block_size_returns|]. intros ? Hb.
  eapply returns_bind; [apply validate_subrange_returns|]. intros ? H1. cbn. unfold in_range in *. lia.
Qed.

Lemma validate_levels_returns container index previous rest :
  container <= n ->
  Forall (fun l => 0 <= level_offset l /\ 0 <= level_size l /\ level_offset l + level_size l <= container /\
             0 < level_block_size l <= MAX_INTEGRITY_BLOCK_SIZE) rest ->
  returns (fun _ => levels_ok b (level_size previous) rest) (validate_levels index previous rest).
Proof using Hfs Hlen Hn.
  intros Hc Hr. revert index previous. induction Hr as [|l rest Hl Hr IH]; intros index previous; cbn [validate_levels levels_ok]; [done|].
  eapply returns_bind; [apply required_returns|]. intros r ->. unfold nca_error, invalid.
  destruct (Z.ltb_spec (level_size previous) (div_ceil (level_size l) (level_block_size l) * 0x20)); [done|].
  eapply returns_mono; [apply IH|]. intros [] Hok. unfold layer_inside, HASH_SIZE. split_and!; try done; lia.
Qed.

Lemma parse_ivfc_layout_returns container :
  returns (fun l => levels l <> [] /\
      (container < 2 ^ 64 -> Forall (fun level => in_range 64 (level_offset level) /\ in_range 64 (level_size level)) (levels l)) /\
      (container <= n -> levels_ok b (HASH_SIZE * Z.of_nat (length (master_hashes l))) (levels l)))
    (parse_ivfc_layout fs container).
Proof using Hfs Hlen Hn.
  unfold parse_ivfc_layout, nca_error, invalid. eapply returns_bind; [by apply fs_range|]. intros magic _. destruct (negb _); [done|].
  eapply returns_bind; [by apply fs_u32|]. intros mhs Hmhs. eapply returns_bind; [by apply fs_u32|]. intros lc Hlc.
  destruct (Z.leb_spec 2 lc); [|done]. destruct (Z.leb_spec lc 7); [|done]. cbn [andb negb].
  destruct (Z.eqb_spec mhs 0); [done|]. destruct (Z.ltb_spec 0x20 mhs); [done|]. destruct (Z.eqb_spec (mhs mod 0x20) 0) as [Hmod|]; [|done]. cbn [orb negb].
  assert (mhs = 0x20) as -> by (unfold in_range in Hmhs; pose proof (Z.div_mod mhs 0x20 ltac:(lia)); nia).
  eapply returns_bind.
  { apply map_result_returns. intros i Hi%elem_of_seqZ. apply (parse_level_returns container i). lia. }
  intros ls [Hls Hll]. rewrite length_seqZ in Hll. destruct ls as [|first rest]; [cbn in Hll; lia|].
  change (0x20 / 0x20) with 1. destruct (Z.ltb_spec 1 (div_ceil (level_size first) (level_block_size first))); [done|].
  assert (Htyped : container < 2 ^ 64 -> Forall (fun level => in_range 64 (level_offset level) /\ in_range 64 (level_size level)) (first :: rest)).
  { intros Hc. eapply Forall_impl; [exact Hls|]. intros level (L1 & L2 & L3 & _). unfold in_range. lia. }
  inversion Hls as [|? ? Hfirst Hrest]; subst.
  destruct (decide (container <= Z.of_nat (length b))) as [Hc|Hc].
  - eapply returns_bind; [by apply (validate_levels_returns container)|]. intros ? Hok.
    eapply returns_bind; [apply fs_range; lia|]. intros hashes [_ Hh]. cbn [returns levels master_hashes]. split; [done|]. split; [done|]. intros _.
    rewrite (length_chunks 0x20 1) by (done || lia). cbn [levels_ok]. unfold layer_inside, HASH_SIZE in *. split_and!; try done; lia.
  - apply (returns_bind (fun _ => True)).
    { apply validate_levels_total. }
    intros _ _. eapply returns_bind; [apply fs_range; lia|]. intros hashes _. cbn [returns levels master_hashes]. split; [done|]. split; [done|]. lia.
Qed.

(** Every accepted layout fits its section. *)
Lemma parse_integrity_layout_returns type : returns (layout_ok b) (parse_integrity_layout type fs n).
Proof using Hfs Hlen Hn.
  destruct type; cbn [parse_integrity_layout]; [| | |done]; apply returns_result_map.
  - apply parse_sha256_layout_returns.
  - eapply returns_mono; [apply parse_ivfc_layout_returns|]. intros l (Hne & _ & H). cbn [layout_ok]. split; [done|]. by apply H.
  - eapply returns_mono; [apply parse_ivfc_layout_returns|]. intros l (_ & H & _). by apply H.
Qed.
End Layout.

(** ** What validation establishes *)

Section Report.
Context {Hasher : Type} (new : Hasher) (update : Hasher -> list Z -> Hasher) (finalize : Hasher -> list Z).
Context (update_nil : forall h, update h [] = h).
Context (update_app : forall h x y, update (update h x) y = update h (x ++ y)).

(** C22. Every layout the header parser accepts for a section is validated without
    an error or a panic, and the report is valid exactly when the header hash
    was and every hash the layout advertises matches: the master hash and every
    block of a PFS0 section, every block of every level of an IVFC section (zero
    padded, against the master hashes or the level before).  A patch section,
    whose hierarchy covers another image, is never reported valid.  The hasher's
    contract is that feeding it in pieces is feeding it the concatenation. *)
Theorem integrity_report_exact (section_index : Z) (hash_valid : bool) (type : NcaSectionType) (fs : list Z)
  (s : Storage) (b : list Z) (layout : IntegrityLayout) :
  Represents s b -> bytes_ok fs -> length fs = Z.to_nat FS_HEADER_SIZE ->
  parse_integrity_layout type fs (Z.of_nat (length b)) = Ok layout ->
  exists r, validate new update finalize section_index hash_valid s layout = Ok r /\
    (report_is_valid r = true <-> hash_valid = true /\ layout_matches new update finalize b layout).
Proof using update_app update_nil.
  intros Hrep Hfs Hlen Hp. pose proof (parse_integrity_layout_returns b fs Hfs Hlen (rep_short (Represents := Hrep)) type) as Hok.
  rewrite Hp in Hok. by apply validate_spec.
Qed.

(** A level [l] and a block of it that differs between two images, whose padded
    bytes nevertheless have the same digest. *)
Definition block_collision (b1 b2 : list Z) (l : IvfcLevel) : Prop :=
  exists i x y, 0 <= i < div_ceil (level_size l) (level_block_size l) /\
    let n := Z.min (level_size l - i * level_block_size l) (level_block_size l) in
    slice b1 (level_offset l + i * level_block_size l) n = Some x /\
    slice b2 (level_offset l + i * level_block_size l) n = Some y /\ x <> y /\
    digest_of new update finalize (padded x (Some (level_block_size l)))
      = digest_of new update finalize (padded y (Some (level_block_size l))).

Lemma padded_inj x y pad : length x = length y -> padded x pad = padded y pad -> x = y.
Proof using. intros Hl. destruct pad as [n|]; cbn; [|done]. intros H. by apply app_inj_1 in H as [-> _]. Qed.

Lemma layer_agrees (b1 b2 : list Z) offset size bs hashes :
  layer_inside (Z.of_nat (length b1)) offset size bs -> layer_inside (Z.of_nat (length b2)) offset size bs ->
  (forall i, 0 <= i < div_ceil size bs -> hash_of_block b1 hashes i = hash_of_block b2 hashes i) ->
  layer_matches new update finalize b1 offset size bs true hashes ->
  layer_matches new update finalize b2 offset size bs true hashes ->
  slice b1 offset size = slice b2 offset size \/ block_collision b1 b2 (mkLevel offset size bs).
Proof using.
  remember true as pad eqn:Hpad. intros (Ho & Hs & Hl1 & Hb) (_ & _ & Hl2 & _) Hh H1 H2. pose proof (div_ceil_bounds size bs Hs ltac:(lia)) as [_ Hd].
  assert (Hblock : forall b i, offset + size <= Z.of_nat (length b) -> 0 <= i < div_ceil size bs ->
    exists r, slice b (offset + i * bs) (Z.min (size - i * bs) bs) = Some r /\
      block_of b offset size bs pad i = Some (padded r (if pad then Some bs else None))).
  { intros b i Hb' Hi. assert (0 <= i * bs < size) by nia.
    destruct (slice_exists b (offset + i * bs) (Z.min (size - i * bs) bs)) as [r Hr]; [lia..|]. exists r. unfold block_of. by rewrite Hr. }
  destruct (decide (Forall (fun i => block_of b1 offset size bs pad i = block_of b2 offset size bs pad i) (seqZ 0 (div_ceil size bs))))
    as [Hall|Hsome].
  - left. rewrite Forall_forall in Hall.
    destruct (slice_exists b1 offset size) as [r1 Hr1]; [lia..|]. destruct (slice_exists b2 offset size) as [r2 Hr2]; [lia..|].
    rewrite Hr1, Hr2. f_equal. apply list_eq_same_length with (n := Z.to_nat size);
      [by erewrite slice_length|by erewrite slice_length|].
    intros p x y Hp Hx Hy. set (i := Z.of_nat p / bs).
    pose proof (Z.div_mod (Z.of_nat p) bs ltac:(lia)) as Hdm. pose proof (Z.mod_pos_bound (Z.of_nat p) bs ltac:(lia)). fold i in Hdm.
    assert (Hi : 0 <= i < div_ceil size bs) by (split; [apply Z.div_pos; lia|nia]).
    destruct (Hblock b1 i Hl1 Hi) as (x1 & Hs1 & Hx1). destruct (Hblock b2 i Hl2 Hi) as (x2 & Hs2 & Hx2).
    specialize (Hall i ltac:(apply elem_of_seqZ; lia)). rewrite Hx1, Hx2 in Hall. injection Hall as Hall.
    apply padded_inj in Hall as ->; [|by rewrite (slice_length _ _ _ _ Hs1), (slice_length _ _ _ _ Hs2)].
    pose proof (slice_lookup _ _ _ _ (Z.of_nat p) Hr1 ltac:(lia)) as E1. pose proof (slice_lookup _ _ _ _ (Z.of_nat p) Hr2 ltac:(lia)) as E2.
    pose proof (slice_lookup _ _ _ _ (Z.of_nat p mod bs) Hs1 ltac:(lia)) as F1. pose proof (slice_lookup _ _ _ _ (Z.of_nat p mod bs) Hs2 ltac:(lia)) as F2.
    rewrite Nat2Z.id in E1, E2. replace (offset + i * bs + Z.of_nat p mod bs) with (offset + Z.of_nat p) in F1, F2 by lia. congruence.
  - right. apply not_Forall_Exists in Hsome; [|intros i; apply _]. apply Exists_exists in Hsome as (i & Hi%elem_of_seqZ & Hne).
    assert (Hi' : 0 <= i < div_ceil size bs) by lia.
    destruct (Hblock b1 i Hl1 Hi') as (x1 & Hs1 & Hx1). destruct (Hblock b2 i Hl2 Hi') as (x2 & Hs2 & Hx2).
    specialize (H1 i Hi'). specialize (H2 i Hi'). rewrite (Hh i Hi'), <- H2, Hx1, Hx2 in H1. cbn [option_map fmap option_fmap] in H1. injection H1 as H1.
    exists i, x1, x2. cbn [level_offset level_size level_block_size]. split; [done|]. split; [done|]. split; [done|]. split; [|by subst pad].
    cbn beta in Hne. unfold compose in Hne. rewrite Hx1, Hx2 in Hne. intros ->. by apply Hne.
Qed.

Lemma levels_agree (b1 b2 : list Z) hashes room ls :
  levels_ok b1 room ls -> levels_ok b2 room ls ->
  (forall i, 0 <= i -> (i + 1) * HASH_SIZE <= room -> hash_of_block b1 hashes i = hash_of_block b2 hashes i) ->
  ivfc_matches new update finalize b1 hashes ls -> ivfc_matches new update finalize b2 hashes ls ->
  (forall l, l ∈ ls -> slice b1 (level_offset l) (level_size l) = slice b2 (level_offset l) (level_size l))
  \/ exists l, l ∈ ls /\ block_collision b1 b2 l.
Proof using update_app update_nil.
  revert hashes room. induction ls as [|l ls IH]; intros hashes room Hok1 Hok2 Hh Hm1 Hm2; cbn [levels_ok ivfc_matches] in *; [left; set_solver|].
  destruct Hok1 as (Hi1 & Hr1 & Hok1), Hok2 as (Hi2 & Hr2 & Hok2), Hm1 as [Hm1 Hms1], Hm2 as [Hm2 Hms2].
  destruct (layer_agrees b1 b2 (level_offset l) (level_size l) (level_block_size l) hashes Hi1 Hi2) as [Heq|Hc]; [|done|done| |right; exists l; split; [by left|by destruct l]].
  { intros i Hi. apply Hh; [lia|]. unfold HASH_SIZE in *. lia. }
  destruct (IH (InStorage (level_offset l)) (level_size l) Hok1 Hok2) as [Hrest|(x & Hx & Hc)]; [|done|done| |right; exists x; split; [by right|done]].
  - intros i Hi Hroom. cbn [hash_of_block]. unfold HASH_SIZE in *. destruct Hi1 as (? & ? & ? & _), Hi2 as (_ & _ & ? & _).
    destruct (slice_exists b1 (level_offset l) (level_size l)) as [w Hw]; [lia..|]. pose proof Hw as Hw'. rewrite Heq in Hw'.
    rewrite <- (slice_slice b1 _ _ _ (i * 32) 32 Hw) by lia. by rewrite <- (slice_slice b2 _ _ _ (i * 32) 32 Hw') by lia.
  - left. intros x [->|Hx]%elem_of_cons; [done|by apply Hrest].
Qed.

(** C21. The hash hierarchy of a RomFS section authenticates it: two images of the
    same length that both validate under one section header agree on every byte of
    every level, the data level included, or else the images themselves exhibit a
    collision of the hash: some block of some level differs between them, and the
    two versions of it, padded, have the same digest.  No assumption is made on
    the hash function but that feeding it in pieces is feeding it at once. *)
Theorem ivfc_authenticates (fs : list Z) (s1 s2 : Storage) (b1 b2 : list Z) (layout : IvfcLayout)
  (i1 i2 : Z) (r1 r2 : IntegrityReport) :
  Represents s1 b1 -> Represents s2 b2 -> length b1 = length b2 ->
  bytes_ok fs -> length fs = Z.to_nat FS_HEADER_SIZE ->
  parse_integrity_layout SectionRomFs fs (Z.of_nat (length b1)) = Ok (Ivfc layout) ->
  validate new update finalize i1 true s1 (Ivfc layout) = Ok r1 -> report_is_valid r1 = true ->
  validate new update finalize i2 true s2 (Ivfc layout) = Ok r2 -> report_is_valid r2 = true ->
  (forall l, l ∈ levels layout -> slice b1 (level_offset l) (level_size l) = slice b2 (level_offset l) (level_size l))
  \/ exists l, l ∈ levels layout /\ block_collision b1 b2 l.
Proof using update_app update_nil.
  intros Hrep1 Hrep2 Hlen Hfs Hfl Hp Hv1 Hr1 Hv2 Hr2.
  pose proof (parse_integrity_layout_returns b1 fs Hfs Hfl (rep_short (Represents := Hrep1)) SectionRomFs) as Hok1.
  pose proof (parse_integrity_layout_returns b2 fs Hfs Hfl (rep_short (Represents := Hrep2)) SectionRomFs) as Hok2.
  rewrite <- Hlen in Hok2. rewrite Hp in Hok1, Hok2. cbn [returns] in Hok1, Hok2. pose proof Hok1 as [_ Hlv1]. pose proof Hok2 as [_ Hlv2].
  destruct (validate_spec new update finalize update_nil update_app s1 b1 i1 true (Ivfc layout) Hok1) as (x1 & Hx1 & Hm1).
  destruct (validate_spec new update finalize update_nil update_app s2 b2 i2 true (Ivfc layout) Hok2) as (x2 & Hx2 & Hm2).
  rewrite Hv1 in Hx1. injection Hx1 as <-. rewrite Hv2 in Hx2. injection Hx2 as <-.
  apply (levels_agree b1 b2 (Inline (master_hashes layout)) (HASH_SIZE * Z.of_nat (length (master_hashes layout)))); try done.
  - by apply Hm1.
  - by apply Hm2.
Qed.
End Report.

(** ** Sections *)

(** A loop over consecutive indices with an invariant by index. *)
Lemma for_each_range {S} (body : Z -> S -> Result LoadError S) (I : Z -> S -> Prop) start (count : nat) s :
  (forall i s, start <= i < start + Z.of_nat count -> I i s -> returns (I (i + 1)) (body i s)) -> I start s ->
  returns (I (start + Z.of_nat count)) (for_each body (seqZ start (Z.of_nat count)) s).
Proof.
  revert start s. induction count as [|count IH]; intros start s Hb Hs.
  { rewrite seqZ_nil by lia. cbn. by rewrite Z.add_0_r. }
  rewrite seqZ_cons by lia. replace (Z.pred (Z.of_nat (Datatypes.S count))) with (Z.of_nat count) by lia. cbn [for_each].
  eapply returns_bind; [apply Hb; [lia|done]|]. intros s' Hs'.
  replace (start + Z.of_nat (Datatypes.S count)) with (Z.succ start + Z.of_nat count) by lia.
  apply IH; [intros i x Hi; apply Hb; lia|by replace (Z.succ start) with (start + 1) by lia].
Qed.

Definition entry_ok (n : Z) (e : SectionEntry) : Prop :=
  0 <= se_index e < 4 /\ HEADER_SIZE <= se_offset e /\ 0 < se_size e /\ se_offset e + se_size e <= n /\
  se_offset e + se_size e <= 2 ^ 41 /\ se_offset e mod MEDIA_UNIT_SIZE = 0 /\ se_size e mod MEDIA_UNIT_SIZE = 0.

(** The ranges of two entries do not meet. *)
Definition apart (x y : SectionEntry) : Prop :=
  se_offset x + se_size x <= se_offset y \/ se_offset y + se_size y <= se_offset x.

Definition entries_ok (n : Z) (es : list SectionEntry) : Prop :=
  Forall (entry_ok n) es /\ NoDup (map se_index es) /\
  forall x y, x ∈ es -> y ∈ es -> se_index x <> se_index y -> apart x y.

#[global] Instance offset_le_total : Total offset_le.
Proof. intros x y. unfold offset_le. lia. Qed.
#[global] Instance offset_le_trans : Transitive offset_le.
Proof. intros x y z. unfold offset_le. lia. Qed.

Lemma check_overlaps_returns n l :
  n < 2 ^ 64 -> Forall (entry_ok n) l -> StronglySorted offset_le l ->
  returns (fun _ => StronglySorted (fun x y => se_offset x + se_size x <= se_offset y) l) (check_overlaps l).
Proof.
  intros Hn Hl Hs. induction Hs as [|x l Hs IH Hx]; cbn [check_overlaps]; [constructor|]. inversion Hl as [|? ? Hxo Hl']; subst.
  destruct l as [|y l]; [repeat constructor|]. pose proof Hxo as (_ & H1 & H2 & H3 & _). unfold HEADER_SIZE in H1.
  rewrite add_u64_small by lia. cbn [result_bind]. unfold nca_error, invalid.
  destruct (Z.ltb_spec (se_offset y) (se_offset x + se_size x)); [done|].
  eapply returns_mono; [by apply IH|]. intros [] Hy. constructor; [done|]. constructor; [lia|].
  inversion Hy as [|? ? _ Hyl]; subst. inversion Hl' as [|? ? (_ & _ & Hys & _) _]; subst.
  eapply Forall_impl; [exact Hyl|]. cbn. intros z Hz. lia.
Qed.

Lemma strongly_sorted_apart l x y :
  StronglySorted (fun x y => se_offset x + se_size x <= se_offset y) l -> x ∈ l -> y ∈ l -> x <> y -> apart x y.
Proof.
  intros Hs. induction Hs as [|z l Hs IH Hz]; [set_solver|]. rewrite Forall_forall in Hz. unfold apart in *.
  intros [->|Hx]%elem_of_cons [->|Hy]%elem_of_cons Hne; [done|left; by apply Hz|right; by apply Hz|by apply IH].
Qed.

Lemma parse_section_entries_returns header n :
  bytes_ok header -> length header = Z.to_nat HEADER_SIZE -> n < 2 ^ 64 ->
  returns (entries_ok n) (parse_section_entries header n).
Proof.
  intros Hb Hl Hn. unfold parse_section_entries.
  apply (returns_bind (fun es => Forall (entry_ok n) es /\ NoDup (map se_index es) /\ forall e, e ∈ es -> se_index e < 4)).
  { change 4 with (0 + Z.of_nat 4).
    apply (for_each_range (parse_section_entry header n)
             (fun i es => Forall (entry_ok n) es /\ NoDup (map se_index es) /\ forall e, e ∈ es -> se_index e < i) 0 4 []);
      [|split_and!; [constructor|constructor|set_solver]].
    intros i es Hi (Hall & Hnd & Hlt). unfold parse_section_entry, nca_error, invalid.
    eapply returns_bind; [apply (read_field_returns header _ 4); [done|lia|lia|rewrite Hl; unfold HEADER_SIZE; lia]|]. intros ms Hms.
    eapply returns_bind; [apply (read_field_returns header _ 4); [done|lia|lia|rewrite Hl; unfold HEADER_SIZE; lia]|]. intros me Hme.
    assert (Hkeep : forall e, e ∈ es -> se_index e < i + 1) by (intros e He; specialize (Hlt e He); lia).
    destruct (Z.eqb_spec ms 0), (Z.eqb_spec me 0); cbn [andb orb]; try done.
    all: destruct (Z.leb_spec me ms); [done|]; unfold in_range in *; try lia. unfold checked_mul, MEDIA_UNIT_SIZE in *.
    rewrite !(proj2 (Z.ltb_lt _ (2 ^ 64))) by lia. cbn [some_or result_bind]. unfold HEADER_SIZE.
    destruct (Z.ltb_spec (ms * 0x200) 0xc00); [done|]. destruct (Z.ltb_spec n (me * 0x200)); [done|]. cbn [orb returns].
    split; [|split].
    - apply Forall_app. split; [done|]. constructor; [|done]. unfold entry_ok, HEADER_SIZE, MEDIA_UNIT_SIZE.
      cbn [se_index se_offset se_size]. rewrite <- Z.mul_sub_distr_r, !Z_mod_mult. split_and!; lia.
    - rewrite map_app. apply NoDup_app. split; [done|]. split; [|apply NoDup_singleton].
      intros k (x & -> & Hx)%list_elem_of_fmap. specialize (Hlt x Hx). cbn. intros Hin%list_elem_of_singleton. lia.
    - intros x [He|He%list_elem_of_singleton]%elem_of_app; [by apply Hkeep|]. subst x. cbn. lia. }
  intros es (Hall & Hnd & _).
  assert (Hperm : merge_sort offset_le es ≡ₚ es) by apply merge_sort_Permutation.
  eapply returns_bind.
  { apply (check_overlaps_returns n); [done|by rewrite Hperm|apply (StronglySorted_merge_sort offset_le)]. }
  intros ? Hs. cbn. split; [done|]. split; [done|]. intros x y Hx Hy Hne.
  apply (strongly_sorted_apart (merge_sort offset_le es)); [done|by rewrite Hperm..|congruence].
Qed.

Lemma any_encrypted_returns header es :
  bytes_ok header -> length header = Z.to_nat HEADER_SIZE -> (forall e, e ∈ es -> 0 <= se_index e < 4) ->
  returns (fun r => r = false -> forall e, e ∈ es -> header !! Z.to_nat (0x400 + se_index e * FS_HEADER_SIZE + 4) = Some 1)
    (any_encrypted header es).
Proof.
  intros Hb Hl. induction es as [|e es IH]; intros Hes; cbn [any_encrypted]; [intros _; set_solver|].
  pose proof (Hes e ltac:(by left)) as He. unfold byte_at, FS_HEADER_SIZE, HEADER_SIZE in *.
  destruct (lookup_lt_is_Some_2 header (Z.to_nat (0x400 + se_index e * 0x200 + 4))) as [v Hv]; [lia|]. rewrite Hv. cbn [result_bind].
  destruct (Z.eqb_spec v 1) as [->|]; cbn [negb]; [|done].
  eapply returns_mono; [apply IH; intros x Hx; apply Hes; by right|]. intros r Hr Hf x [->|Hx]%elem_of_cons; [done|by apply Hr].
Qed.

Lemma byte_at_some l i : 0 <= i < Z.of_nat (length l) -> exists v, byte_at l i = Ok v /\ l !! Z.to_nat i = Some v.
Proof.
  intros Hi. unfold byte_at. destruct (lookup_lt_is_Some_2 l (Z.to_nat i)) as [v Hv]; [lia|]. exists v. by rewrite Hv.
Qed.

(** The fields that choose the content keys. *)
Definition key_fields (header : list Z) (h : NcaHeader) : Prop :=
  exists t1 t2 id, header !! Z.to_nat 0x206 = Some t1 /\ header !! Z.to_nat 0x220 = Some t2 /\ slice header 0x230 16 = Some id /\
    key_generation h = Z.max 0 (Z.max t1 t2 - 1) /\ header !! Z.to_nat 0x207 = Some (key_area_key_index h) /\
    rights_id h = if bool_decide (Forall (eq 0) id) then None else Some id.

Lemma some_byte_set id : existsb (fun byte => negb (byte =? 0)) id = negb (bool_decide (Forall (eq 0) id)).
Proof.
  induction id as [|x l IH]; cbn [existsb]; [done|]. rewrite IH. destruct (Z.eqb_spec x 0) as [->|Hx]; cbn [negb orb].
  - f_equal. apply bool_decide_ext. rewrite Forall_cons. tauto.
  - rewrite bool_decide_false; [done|]. rewrite Forall_cons. intros [? _]. congruence.
Qed.

Lemma parse_main_header_returns header v decrypted size :
  bytes_ok header -> length header = Z.to_nat HEADER_SIZE ->
  returns (fun h => archive_size h = size /\ source_is_decrypted h = decrypted /\ version h = v /\ key_fields header h)
    (parse_main_header header v decrypted size).
Proof.
  intros Hb Hl. unfold parse_main_header, HEADER_SIZE in *. assert (Hlen : Z.of_nat (length header) = 0xc00) by (rewrite Hl; done).
  destruct (byte_at_some header 0x206) as (t1 & -> & Ht1); [by rewrite Hlen|]. cbn [result_bind].
  destruct (byte_at_some header 0x220) as (t2 & -> & Ht2); [by rewrite Hlen|]. cbn [result_bind].
  eapply returns_bind; [by apply index_range_returns; [done|done|rewrite Hlen]|]. intros id (_ & _ & Hid).
  eapply returns_bind; [by apply byte_at_returns; [done|rewrite Hlen]|]. intros ? _.
  eapply returns_bind; [by apply byte_at_returns; [done|rewrite Hlen]|]. intros ? _.
  eapply returns_bind; [by apply (read_field_returns header _ 8); [done|done|done|rewrite Hlen]|]. intros ? _.
  eapply returns_bind; [by apply (read_field_returns header _ 4); [done|done|done|rewrite Hlen]|]. intros ? _.
  destruct (byte_at_some header 0x207) as (k & -> & Hk); [by rewrite Hlen|]. cbn [result_bind returns].
  do 3 (split; [done|]). exists t1, t2, id. do 5 (split; [done|]). cbn [rights_id]. rewrite some_byte_set.
  by destruct (bool_decide _).
Qed.

Lemma map_result_forall2 {A B} (f : A -> Result LoadError B) l r :
  map_result f l = Ok r -> Forall2 (fun a x => f a = Ok x) l r.
Proof.
  revert r. induction l as [|a l IH]; intros r; cbn [map_result]; [by intros [= <-]|].
  destruct (f a) as [x| |] eqn:E; [|done..]. cbn [result_bind]. destruct (map_result f l) as [xs| |]; [|done..]. cbn [result_bind].
  intros [= <-]. constructor; [done|by apply IH].
Qed.

(** A section's payload is inside its plaintext, so it opens. *)
Lemma payload_storage_opens x p :
  Represents (section_storage x) p -> layout_ok p (integrity x) -> section_size x = Z.of_nat (length p) ->
  exists v w o n, payload_storage x = Ok v /\ slice p o n = Some w /\ Represents v w.
Proof.
  intros Hrep Hok Hsize. unfold payload_storage. pose proof (rep_short (Represents := Hrep)) as [_ Hshort].
  assert (Hview : forall o n, 0 <= o -> 0 <= n -> o + n <= Z.of_nat (length p) ->
    exists v w o' n', stored (sub_view (section_storage x) o n) = Ok v /\ slice p o' n' = Some w /\ Represents v w).
  { intros o n Ho Hn Hl. pose proof (sub_view_refines (section_storage x) p o n Hrep) as Hv. unfold in_range in Hv.
    specialize (Hv ltac:(lia) ltac:(lia)). destruct (slice_exists p o n) as [w Hw]; [done..|]. rewrite Hw in Hv.
    destruct Hv as (v & -> & Hv). by exists v, w, o, n. }
  destruct (integrity x) as [|l|l|l]; cbn [layout_ok] in Hok; cbn [result_bind fst snd].
  - apply Hview; lia.
  - destruct Hok as ((? & ? & ? & _) & _). by apply Hview.
  - destruct Hok as [Hne Hls]. destruct (last (levels l)) as [lv|] eqn:Hlast; [|by apply last_None in Hlast].
    cbn [result_bind fst snd]. assert (Hin : layer_inside (Z.of_nat (length p)) (level_offset lv) (level_size lv) (level_block_size lv)).
    { clear -Hls Hlast. revert Hls. generalize (HASH_SIZE * Z.of_nat (length (master_hashes l))) as room. induction (levels l) as [|y ls IH]; intros room; [done|].
      cbn [levels_ok]. intros (H1 & _ & H2). destruct ls as [|z ls]; [by injection Hlast as <-|]. by eapply IH. }
    destruct Hin as (? & ? & ? & _). by apply Hview.
  - apply Hview; lia.
Qed.

Section Parse.
Context (encrypt_block decrypt_block : list Z -> list Z -> list Z).
Context (encrypt_length : forall key block, length (encrypt_block key block) = 16%nat).
Context (encrypt_bytes : forall key block, bytes_ok (encrypt_block key block)).
Context (decrypt_length : forall key block, length (decrypt_block key block) = 16%nat).
Context (decrypt_bytes : forall key block, bytes_ok (decrypt_block key block)).

Lemma decrypt_xts_returns key data k :
  length data = (k * Z.to_nat MEDIA_UNIT_SIZE)%nat -> Z.of_nat (length data) < 2 ^ 64 ->
  returns (fun r => r = xts_image encrypt_block decrypt_block key MEDIA_UNIT_SIZE 0 data /\ length r = length data /\ bytes_ok r)
    (decrypt_xts encrypt_block decrypt_block key data 0 MEDIA_UNIT_SIZE).
Proof using encrypt_bytes decrypt_length decrypt_bytes.
  intros Hk Hl. unfold decrypt_xts, AES_BLOCK_SIZE. rewrite Hk.
  replace (Z.of_nat (k * Z.to_nat MEDIA_UNIT_SIZE)) with (Z.of_nat k * MEDIA_UNIT_SIZE)
    by (rewrite Nat2Z.inj_mul, Z2Nat.id by done; done).
  rewrite Z_mod_mult. cbn [negb orb Z.eqb Z.ltb]. change (MEDIA_UNIT_SIZE <? 16) with false. change (MEDIA_UNIT_SIZE mod 16 =? 0) with true.
  cbn [negb orb]. rewrite decrypt_sectors_ok.
  2:{ rewrite (length_chunks _ k) by (done || unfold MEDIA_UNIT_SIZE; lia). unfold MEDIA_UNIT_SIZE in *. lia. }
  rewrite <- Hk. split; [done|]. exact (xts_image_shape encrypt_block decrypt_block encrypt_bytes decrypt_length decrypt_bytes
                          MEDIA_UNIT_SIZE 32 eq_refl eq_refl key 0 data k Hk).
Qed.

Definition magic (v : NcaFormatVersion) : list Z :=
  match v with Nca2 => [0x4e; 0x43; 0x41; 0x32] | Nca3 => [0x4e; 0x43; 0x41; 0x33] end.

Lemma parse_magic_some m v : parse_magic m = Some v <-> m = magic v.
Proof using.
  unfold parse_magic. split.
  - intros H. repeat case_bool_decide; by simplify_eq.
  - intros ->. by destruct v.
Qed.

(** [hb] are the bytes of the header [raw] in the clear: these bytes themselves
    when they hold a magic, otherwise their AES-XTS decryption under the header
    key, in media units from sector 0: of the whole header, or in the older
    version of the main header and of each section header by itself. *)
Definition header_in_clear (keys : NcaKeyProvider) (raw : list Z) (v : NcaFormatVersion) (decrypted : bool) (hb : list Z) : Prop :=
  if decrypted then hb = raw /\ slice raw 0x200 4 = Some (magic v)
  else
    (forall v', slice raw 0x200 4 <> Some (magic v')) /\
    exists key main, header_key keys = Some key /\ slice raw 0 0x400 = Some main /\
      let xts := xts_image encrypt_block decrypt_block key 0x200 0 in
      slice (xts main) 0x200 4 = Some (magic v) /\
      match v with
      | Nca3 => hb = xts raw
      | Nca2 => exists fs, Forall2 (fun i h => slice raw (0x400 + i * 0x200) 0x200 = Some h) [0; 1; 2; 3] fs /\
                  hb = xts main ++ concat (map xts fs)
      end.

Lemma forall2_images {A B C} (P : A -> B -> Prop) (f : B -> C) (l : list A) (cs : list C) :
  Forall2 (fun a c => exists b, P a b /\ c = f b) l cs -> exists bs, Forall2 P l bs /\ cs = map f bs.
Proof using.
  induction 1 as [|a c l cs (b & Hb & ->) _ (bs & Hbs & ->)]; [by exists []|]. exists (b :: bs). split; [by constructor|done].
Qed.

Lemma section_header_returns raw key i :
  bytes_ok raw -> length raw = Z.to_nat HEADER_SIZE -> 0 <= i < 4 ->
  returns (fun h => bytes_ok h /\ length h = 512%nat /\
             exists f, slice raw (0x400 + i * 0x200) 0x200 = Some f /\ h = xts_image encrypt_block decrypt_block key 0x200 0 f)
    (let? fs := index_range raw (0x400 + i * FS_HEADER_SIZE) (0x400 + i * FS_HEADER_SIZE + FS_HEADER_SIZE) in
     decrypt_xts encrypt_block decrypt_block key fs 0 MEDIA_UNIT_SIZE).
Proof using encrypt_bytes decrypt_length decrypt_bytes.
  intros Hb Hl Hi. unfold FS_HEADER_SIZE, HEADER_SIZE in *.
  eapply returns_bind; [apply index_range_returns; [done|lia|rewrite Hl; lia]|]. intros f (_ & Hf & Hs).
  replace (0x400 + i * 0x200 + 0x200 - (0x400 + i * 0x200)) with 0x200 in Hf, Hs by lia. change (Z.to_nat 0x200) with 512%nat in Hf.
  eapply returns_mono; [apply (decrypt_xts_returns _ _ 1); rewrite Hf; done|]. intros r (-> & Hrl & Hr). rewrite Hf in Hrl. eauto.
Qed.

Lemma decrypt_header_returns raw keys :
  bytes_ok raw -> length raw = Z.to_nat HEADER_SIZE ->
  returns (fun r => bytes_ok (fst (fst r)) /\ length (fst (fst r)) = Z.to_nat HEADER_SIZE /\
             header_in_clear keys raw (snd (fst r)) (snd r) (fst (fst r))) (decrypt_header encrypt_block decrypt_block raw keys).
Proof using encrypt_bytes decrypt_length decrypt_bytes.
  intros Hb Hl. assert (Hrange : forall lo hi, 0 <= lo <= hi -> hi <= 0xc00 ->
    returns (fun r => bytes_ok r /\ length r = Z.to_nat (hi - lo) /\ slice raw lo (hi - lo) = Some r) (index_range raw lo hi)).
  { intros lo hi H1 H2. apply index_range_returns; [done|done|rewrite Hl; unfold HEADER_SIZE; lia]. }
  unfold decrypt_header. eapply returns_bind; [by apply Hrange|]. intros m (_ & _ & Hm). change (0x204 - 0x200) with 4 in Hm.
  destruct (parse_magic m) as [v|] eqn:Hpm.
  { apply parse_magic_some in Hpm as ->. cbn [returns fst snd]. split; [done|]. split; [done|]. by split. }
  assert (Hno : forall v', slice raw 0x200 4 <> Some (magic v')).
  { intros v' Hv'. rewrite Hm in Hv'. injection Hv' as ->. by rewrite (proj2 (parse_magic_some _ v') eq_refl) in Hpm. }
  apply (returns_bind (fun k => header_key keys = Some k)); [by apply returns_some_or|]. intros key Hkey.
  eapply returns_bind; [by apply Hrange|]. intros first (Hfb & Hfl & Hfs). unfold MAIN_HEADER_SIZE in *.
  eapply returns_bind; [apply (decrypt_xts_returns _ _ 2); rewrite Hfl; done|]. intros first' (Hfi & Hl' & Hb').
  eapply returns_bind; [apply index_range_returns; [done|done|rewrite Hl', Hfl; done]|]. intros m' (_ & _ & Hm').
  change (0x204 - 0x200) with 4 in Hm'.
  apply (returns_bind (fun v => m' = magic v)); [apply returns_some_or; by intros v Hv%parse_magic_some|]. intros v ->.
  eapply (returns_bind (fun d => bytes_ok d /\ length d = Z.to_nat HEADER_SIZE /\ header_in_clear keys raw v false d)); [|intros d Hd; exact Hd].
  unfold header_in_clear. unfold MEDIA_UNIT_SIZE in *. rewrite Hfi in Hm'. destruct v.
  - eapply returns_bind; [apply map_result_returns2; intros i Hi%elem_of_seqZ; apply section_header_returns; [done|done|lia]|].
    intros hs Hhs. cbn [returns].
    assert (Hall : Forall (fun h => bytes_ok h /\ length h = 512%nat) hs).
    { clear -Hhs. induction Hhs as [|i h l hs (? & ? & _) _ IH]; by constructor. }
    pose proof (Forall2_length _ _ _ Hhs) as Hlen. change (length (seqZ 0 4)) with 4%nat in Hlen.
    split; [|split; [|split; [done|]]].
    + apply Forall_app. split; [done|]. apply Forall_concat. eapply Forall_impl; [exact Hall|]. by intros h [? _].
    + rewrite length_app, Hl', Hfl.
      destruct hs as [|h1 [|h2 [|h3 [|h4 [|]]]]]; try done. repeat (apply Forall_cons in Hall as [[_ ?] Hall]).
      cbn [concat]. rewrite !length_app. cbn [length]. change (Z.to_nat (0x400 - 0)) with 1024%nat. change (Z.to_nat HEADER_SIZE) with 3072%nat. lia.
    + exists key, first. do 3 (split; [done|]).
      destruct (forall2_images (fun i f => slice raw (0x400 + i * 0x200) 0x200 = Some f) (xts_image encrypt_block decrypt_block key 0x200 0) [0; 1; 2; 3] hs)
        as (fs & Hfs' & ->); [|exists fs; split; [done|by rewrite Hfi]].
      change [0; 1; 2; 3] with (seqZ 0 4). eapply Forall2_impl; [exact Hhs|]. by intros i h (_ & _ & Hx).
  - eapply returns_mono; [apply (decrypt_xts_returns _ _ 6); rewrite Hl; done|]. intros r (-> & Hrl & Hr). rewrite Hrl.
    split; [done|]. split; [done|]. split; [done|]. by exists key, first.
Qed.

Definition keys_ok (ck : ContentKeys) : Prop := match ck with Rights _ => True | KeyArea slots => length slots = 4%nat end.

Lemma length_decrypted key (blocks : list (list Z)) : length (concat (map (decrypt_block key) blocks)) = (length blocks * 16)%nat.
Proof using decrypt_length. induction blocks as [|x l IH]; cbn; [done|]. rewrite length_app, decrypt_length, IH. lia. Qed.

Lemma chunks_blocks key blocks : chunks 16 (concat (map (decrypt_block key) blocks)) = map (decrypt_block key) blocks.
Proof using decrypt_length.
  induction blocks as [|x l IH]; [done|]. cbn [map concat]. rewrite chunks_cons.
  - rewrite take_app_length', drop_app_length' by (symmetry; apply decrypt_length). by rewrite IH.
  - lia.
  - intros Hn%(f_equal length). rewrite length_app, decrypt_length in Hn. cbn in Hn. lia.
Qed.

Lemma chunks_slices (l area : list Z) o :
  slice l o 64 = Some area -> Forall2 (fun i x => slice l (o + i * 16) 16 = Some x) [0; 1; 2; 3] (chunks 16 area).
Proof using.
  intros Hs. pose proof (slice_length _ _ _ _ Hs) as Hl. change (Z.to_nat 64) with 64%nat in Hl.
  pose proof (slice_is_some _ _ _ _ Hs) as (? & ? & ?).
  assert (Hget : forall k, (k < 4)%nat -> slice l (o + Z.of_nat k * 16) 16 = Some (take 16 (drop (16 * k) area))).
  { intros k Hk. rewrite <- (slice_slice l o 64 area (Z.of_nat k * 16) 16 Hs) by lia. rewrite slice_some by lia.
    by replace (Z.to_nat (Z.of_nat k * 16)) with (16 * k)%nat by lia. }
  do 4 (rewrite chunks_cons; [|lia|intros Hn%(f_equal length); rewrite ?length_drop, Hl in Hn; discriminate Hn]).
  rewrite !drop_drop. cbn [Nat.add]. rewrite (drop_ge area 64) by lia.
  repeat constructor; [exact (Hget 0%nat ltac:(lia))|exact (Hget 1%nat ltac:(lia))|exact (Hget 2%nat ltac:(lia))|exact (Hget 3%nat ltac:(lia))].
Qed.

(** The content keys of a header: the title key of its rights ID at its key
    generation when it has one, otherwise the four blocks of the key area at
    0x300, decrypted under the key-area key of its index and generation. *)
Definition content_keys_of (keys : NcaKeyProvider) (hb : list Z) (ck : ContentKeys) : Prop :=
  exists t1 t2 id, hb !! Z.to_nat 0x206 = Some t1 /\ hb !! Z.to_nat 0x220 = Some t2 /\ slice hb 0x230 16 = Some id /\
    let generation := Z.max 0 (Z.max t1 t2 - 1) in
    if bool_decide (Forall (eq 0) id) then
      exists index kind key blocks, hb !! Z.to_nat 0x207 = Some index /\
        (index, kind) ∈ [(0, Application); (1, Ocean); (2, System)] /\ key_area_key keys generation kind = Some key /\
        Forall2 (fun i block => slice hb (0x300 + i * 16) 16 = Some block) [0; 1; 2; 3] blocks /\
        ck = KeyArea (map (decrypt_block key) blocks)
    else exists key, title_key keys id generation = Some key /\ ck = Rights key.

Lemma resolve_content_keys_returns header h keys :
  bytes_ok header -> length header = Z.to_nat HEADER_SIZE -> key_fields header h ->
  returns (fun ck => keys_ok ck /\ content_keys_of keys header ck) (resolve_content_keys decrypt_block header h keys).
Proof using decrypt_length.
  intros Hb Hl (t1 & t2 & id & H1 & H2 & Hid & Hg & Hk & Hr). unfold resolve_content_keys. rewrite Hr, Hg.
  set (generation := Z.max 0 (Z.max t1 t2 - 1)). unfold content_keys_of. destruct (bool_decide (Forall (eq 0) id)) eqn:Hz.
  - apply (returns_bind (fun i => (key_area_key_index h, i) ∈ [(0, Application); (1, Ocean); (2, System)])).
    { apply returns_some_or. unfold from_raw. intros i Hi. clear -Hi. repeat case_match; simplify_eq; set_solver. }
    intros kind Hkind. apply (returns_bind (fun k => key_area_key keys generation kind = Some k)); [by apply returns_some_or|]. intros key Hkey.
    eapply returns_bind; [apply index_range_returns; [done|done|rewrite Hl; done]|]. intros area (_ & Ha & Hs).
    change (0x340 - 0x300) with 64 in Ha, Hs. change (Z.to_nat 64) with 64%nat in Ha. unfold decrypt_ecb_blocks. rewrite Ha.
    change (negb (Z.of_nat 64 mod AES_BLOCK_SIZE =? 0)) with false. cbn [result_bind returns keys_ok].
    rewrite chunks_blocks. pose proof (chunks_slices _ _ _ Hs) as Hc. split.
    { rewrite length_map. by rewrite (length_chunks 16 4) by (done || lia). }
    exists t1, t2, id. do 3 (split; [done|]). rewrite Hz. by exists (key_area_key_index h), kind, key, (chunks 16 area).
  - apply (returns_bind (fun k => title_key keys id generation = Some k)); [by apply returns_some_or|]. intros key Hkey. cbn [returns].
    split; [done|]. exists t1, t2, id. do 3 (split; [done|]). rewrite Hz. by exists key.
Qed.

(** The plaintext of a section's bytes [w]. *)
Definition section_plain (decrypted : bool) (ck : option ContentKeys) (encryption : NcaEncryptionType)
  (counter : list Z) (offset : Z) (w : list Z) : option (list Z) :=
  if decrypted || bool_decide (encryption = EncryptionNone) then Some w
  else
    match ck, encryption with
    | Some (KeyArea slots), AesXts =>
        Some (xts_image encrypt_block decrypt_block (default [] (slots !! 0%nat) ++ default [] (slots !! 1%nat)) 0x200 0 w)
    | Some (Rights _), AesXts | None, _ => None
    | Some (KeyArea slots), _ => Some (ctr_image encrypt_block (default [] (slots !! 2%nat)) (reverse counter) offset w)
    | Some (Rights key), _ => Some (ctr_image encrypt_block key (reverse counter) offset w)
    end.

Definition needs_keys (decrypted : bool) (encryption : NcaEncryptionType) : bool :=
  negb (decrypted || bool_decide (encryption = EncryptionNone)).

Lemma slot_ok slots i : length slots = 4%nat -> (i < 4)%nat -> slot slots i = Ok (default [] (slots !! i)).
Proof using. intros Hl Hi. unfold slot. destruct (lookup_lt_is_Some_2 slots i) as [x ->]; [lia|done]. Qed.

Lemma ctr_storage_represents raw w key counter offset :
  Represents raw w -> 0 <= offset -> offset + Z.of_nat (length w) + 16 < 2 ^ 64 ->
  Represents (ctr_storage encrypt_block raw key counter offset) (ctr_image encrypt_block key (reverse counter) offset w).
Proof using encrypt_length encrypt_bytes.
  intros Hrep Ho Hl. unfold ctr_storage.
  exact (ctr_dyn_represents encrypt_block encrypt_length encrypt_bytes (mkCtr raw key (reverse counter) offset) w Hrep Ho Hl).
Qed.

Lemma open_plaintext_section_returns raw w offset encryption counter decrypted ck :
  Represents raw w -> 0 <= offset -> offset + Z.of_nat (length w) <= 2 ^ 41 -> Z.of_nat (length w) mod MEDIA_UNIT_SIZE = 0 ->
  (needs_keys decrypted encryption = true -> exists k, ck = Some k /\ keys_ok k) ->
  returns (fun st => exists p, section_plain decrypted ck encryption counter offset w = Some p /\
             length p = length w /\ Represents st p)
    (open_plaintext_section encrypt_block decrypt_block raw offset encryption counter decrypted ck).
Proof using encrypt_length encrypt_bytes decrypt_length decrypt_bytes.
  intros Hrep Ho Hl Hmod Hck. unfold open_plaintext_section, section_plain, needs_keys in *.
  destruct (decrypted || bool_decide (encryption = EncryptionNone)) eqn:Hplain; [by exists w|].
  destruct Hck as (k & -> & Hk); [done|]. cbn [expect_some result_bind].
  assert (Hctr : forall key, returns (fun st => exists p, Some (ctr_image encrypt_block key (reverse counter) offset w) = Some p /\
      length p = length w /\ Represents st p) (Ok (ctr_storage encrypt_block raw key counter offset))).
  { intros key. eexists. split; [done|]. split; [apply length_ctr_image|]. apply ctr_storage_represents; [done|done|lia]. }
  destruct encryption; [by apply orb_false_iff in Hplain as [_ ?%bool_decide_eq_false_1]| | |].
  - destruct k as [key|slots]; [done|]. cbn [keys_ok] in Hk. rewrite !slot_ok by (done || lia). cbn [result_bind].
    unfold xts_storage. set (key := default [] (slots !! 0%nat) ++ default [] (slots !! 1%nat)).
    assert (Hblocks : length w = (Z.to_nat (Z.of_nat (length w) / MEDIA_UNIT_SIZE) * Z.to_nat 0x200)%nat).
    { unfold MEDIA_UNIT_SIZE in *. pose proof (Z.div_mod (Z.of_nat (length w)) 0x200 ltac:(lia)). lia. }
    eexists. split; [done|].
    split; [by apply (xts_image_shape encrypt_block decrypt_block encrypt_bytes decrypt_length decrypt_bytes 0x200 32 eq_refl eq_refl key 0 w _ Hblocks)|].
    apply (xts_dyn_represents encrypt_block decrypt_block encrypt_bytes decrypt_length decrypt_bytes 0x200 32 eq_refl eq_refl
             (mkXts raw key 0x200) w _ eq_refl Hrep Hblocks). lia.
  - destruct k as [key|slots]; cbn [keys_ok] in Hk; [|rewrite slot_ok by (done || lia)]; apply Hctr.
  - destruct k as [key|slots]; cbn [keys_ok] in Hk; [|rewrite slot_ok by (done || lia)]; apply Hctr.
Qed.

(** Patch metadata inside a section of [n] bytes. *)
Definition patch_ok (n : Z) (info : BktrPatchInfo) : Prop :=
  0 <= indirect_offset info /\ 0 < indirect_size info /\ 0 < aes_ctr_ex_size info /\
  indirect_offset info + indirect_size info <= aes_ctr_ex_offset info /\
  aes_ctr_ex_offset info + aes_ctr_ex_size info <= n /\
  0 < entry_count (indirect_header info) <= MAX_ENTRY_COUNT /\ 0 < entry_count (aes_ctr_ex_header info) <= MAX_ENTRY_COUNT.

Lemma BucketTreeHeader_parse_returns bytes :
  bytes_ok bytes -> returns (fun h => 0 < entry_count h <= MAX_ENTRY_COUNT) (BucketTreeHeader_parse bytes).
Proof using.
  intros Hb. unfold BucketTreeHeader_parse, bktr_error, invalid. destruct (Z.eqb_spec (Z.of_nat (length bytes)) 0x10) as [Hl|]; [|done].
  cbn [negb orb]. destruct (negb _); [done|].
  eapply returns_bind; [apply (read_field_returns bytes _ 4); [done|lia..]|]. intros v _. destruct (negb _); [done|].
  eapply returns_bind; [apply (read_field_returns bytes _ 4); [done|lia..]|]. intros c [Hc _].
  destruct (Z.eqb_spec c 0); [done|]. destruct (Z.ltb_spec MAX_ENTRY_COUNT c); [done|]. cbn [orb].
  eapply returns_bind; [apply (read_field_returns bytes _ 4); [done|lia..]|]. intros r _. destruct (negb _); [done|]. cbn. lia.
Qed.

Lemma parse_patch_info_returns fs n :
  bytes_ok fs -> length fs = Z.to_nat FS_HEADER_SIZE -> returns (patch_ok n) (parse_patch_info fs n).
Proof using.
  intros Hb Hl. unfold parse_patch_info, validate_patch_range, bktr_error, invalid.
  eapply returns_bind; [by apply fs_u64|]. intros io [Hio _]. eapply returns_bind; [by apply fs_u64|]. intros isz [His _].
  eapply returns_bind; [by apply fs_range|]. intros b1 [Hb1 _]. eapply returns_bind; [by apply BucketTreeHeader_parse_returns|]. intros h1 Hh1.
  eapply returns_bind; [by apply fs_u64|]. intros ao [Hao _]. eapply returns_bind; [by apply fs_u64|]. intros as_ [Has _].
  eapply returns_bind; [by apply fs_range|]. intros b2 [Hb2 _]. eapply returns_bind; [by apply BucketTreeHeader_parse_returns|]. intros h2 Hh2.
  destruct (Z.eqb_spec isz 0); [done|]. destruct (Z.eqb_spec as_ 0); [done|]. cbn [orb].
  destruct (checked_add 64 io isz) as [e1|] eqn:E1; [|done]. apply checked_add_inv in E1 as [-> _]. cbn [some_or result_bind].
  destruct (Z.ltb_spec n (io + isz)); [done|]. cbn [result_bind].
  destruct (checked_add 64 ao as_) as [e2|] eqn:E2; [|done]. apply checked_add_inv in E2 as [-> _]. cbn [some_or result_bind].
  destruct (Z.ltb_spec n (ao + as_)); [done|]. cbn [result_bind]. destruct (Z.ltb_spec ao (io + isz)); [done|].
  cbn [returns]. unfold patch_ok. cbn [indirect_offset indirect_size aes_ctr_ex_size aes_ctr_ex_offset indirect_header aes_ctr_ex_header]. cbn beta in Hh1, Hh2. lia.
Qed.

Definition encryption_code (e : NcaEncryptionType) : Z :=
  match e with EncryptionNone => 1 | AesXts => 2 | AesCtr => 3 | AesCtrEx => 4 end.

(** What parsing establishes of a section of the image [b], whose header is
    [header] in the clear. *)
Definition section_ok (b header : list Z) (decrypted : bool) (ck : option ContentKeys) (e : SectionEntry) (x : NcaSection) : Prop :=
  section_index x = se_index e /\ section_offset x = se_offset e /\ section_size x = se_size e /\
  exists w p counter, slice b (section_offset x) (section_size x) = Some w /\
    header !! Z.to_nat (0x400 + se_index e * 0x200 + 4) = Some (encryption_code (encryption_type x)) /\
    slice header (0x400 + se_index e * 0x200 + 0x140) 8 = Some counter /\
    section_plain decrypted ck (encryption_type x) counter (section_offset x) w = Some p /\
    length p = length w /\ Represents (section_storage x) p /\ layout_ok p (integrity x) /\
    (forall info, patch_info x = Some info -> patch_ok (section_size x) info) /\
    forall c, patch_crypto x = Some c -> Represents (raw_storage c) w /\ counter_offset c = section_offset x /\
      bktr_decrypted c = decrypted /\ (decrypted = false -> is_Some (bktr_key c)) /\ in_range 32 (secure_value c).

Context (digest : list Z -> list Z).

Lemma parse_section_type_bktr p f enc : parse_section_type p f enc = SectionBktr -> enc = AesCtrEx.
Proof using.
  unfold parse_section_type. destruct (_ && _); [done|]. destruct (_ && _); [|done].
  destruct (decide (enc = AesCtrEx)); [done|]. by rewrite bool_decide_false.
Qed.

Lemma layout_ok_length b p layout : length p = length b -> layout_ok b layout -> layout_ok p layout.
Proof using. intros Hl. destruct layout as [|l|l|l]; cbn; rewrite ?Hl; try done. generalize (HASH_SIZE * Z.of_nat (length (master_hashes l))) as room.
  intros room [Hne Hls]. split; [done|]. clear Hne. revert room Hls.
  induction (levels l) as [|x ls IH]; intros room; cbn; [done|]. rewrite Hl. intros (? & ? & ?). split_and!; try done. by apply IH.
Qed.

Lemma parse_encryption_type_returns v :
  returns (fun e => v = encryption_code e) (parse_encryption_type v).
Proof using.
  unfold parse_encryption_type, nca_error, invalid. by repeat (case_match; try done).
Qed.

Lemma parse_section_returns s b header decrypted ck e :
  Represents s b -> bytes_ok header -> length header = Z.to_nat HEADER_SIZE -> entry_ok (Z.of_nat (length b)) e ->
  (decrypted = false -> header !! Z.to_nat (0x400 + se_index e * FS_HEADER_SIZE + 4) <> Some 1 -> exists k, ck = Some k /\ keys_ok k) ->
  returns (section_ok b header decrypted ck e) (parse_section encrypt_block decrypt_block digest s header decrypted ck e).
Proof using encrypt_length encrypt_bytes decrypt_length decrypt_bytes.
  intros Hrep Hb Hl (Hi & Ho & Hs & Hin & Hmax & Hm1 & Hm2) Hck. unfold parse_section, HEADER_SIZE, FS_HEADER_SIZE in *.
  eapply returns_bind; [apply index_range_returns; [done|lia|rewrite Hl; lia]|]. intros fs (Hfb & Hfl & Hfs).
  replace (0x400 + se_index e * 0x200 + 0x200 - (0x400 + se_index e * 0x200)) with 0x200 in Hfl, Hfs by lia.
  eapply returns_bind; [apply index_range_returns; [done|lia|rewrite Hl; lia]|]. intros hash _.
  eapply returns_bind; [apply byte_at_returns; [done|rewrite Hfl; lia]|]. intros pt _.
  eapply returns_bind; [apply byte_at_returns; [done|rewrite Hfl; lia]|]. intros ft _.
  assert (Henc : exists v, byte_at fs 4 = Ok v /\ header !! Z.to_nat (0x400 + se_index e * 0x200 + 4) = Some v).
  { unfold byte_at. destruct (lookup_lt_is_Some_2 fs (Z.to_nat 4)) as [v Hv]; [lia|]. exists v. rewrite Hv. split; [done|].
    pose proof (slice_lookup _ _ _ _ 4 Hfs ltac:(lia)) as H. by rewrite H in Hv. }
  destruct Henc as (v & -> & Hv). cbn [result_bind].
  eapply returns_bind; [apply parse_encryption_type_returns|]. intros enc ->.
  pose proof (sub_view_refines s b (se_offset e) (se_size e) Hrep) as Hview. unfold in_range in Hview.
  specialize (Hview ltac:(lia) ltac:(lia)). destruct (slice_exists b (se_offset e) (se_size e)) as [w Hw]; [lia..|].
  rewrite Hw in Hview. destruct Hview as (raw & -> & Hraw). cbn [stored map_err result_bind].
  pose proof (slice_length _ _ _ _ Hw) as Hwl.
  eapply returns_bind; [apply index_range_returns; [done|lia|rewrite Hfl; lia]|]. intros counter (_ & _ & Hcounter).
  change (0x148 - 0x140) with 8 in Hcounter. rewrite (slice_slice _ _ _ _ 0x140 8 Hfs) in Hcounter by lia.
  eapply returns_bind; [apply (open_plaintext_section_returns raw w); [done|lia|lia|rewrite Hwl, Z2Nat.id by lia; done|]|].
  { unfold needs_keys. intros Hnk. apply negb_true_iff, orb_false_iff in Hnk as [-> Hne%bool_decide_eq_false_1]. apply Hck; [done|].
    rewrite Hv. intros [= He]. apply Hne. by destruct enc. }
  intros plain (p & Hp & Hpl & Hplain).
  pose proof (parse_integrity_layout_returns w fs Hfb Hfl (rep_short (Represents := Hraw)) (parse_section_type pt ft enc)) as Hlay.
  rewrite Hwl, Z2Nat.id in Hlay by lia. eapply returns_bind; [exact Hlay|]. intros layout Hlok.
  assert (Hbase : forall info crypto, (forall i, info = Some i -> patch_ok (se_size e) i) ->
    (forall c, crypto = Some c -> Represents (raw_storage c) w /\ counter_offset c = se_offset e /\
      bktr_decrypted c = decrypted /\ (decrypted = false -> is_Some (bktr_key c)) /\ in_range 32 (secure_value c)) ->
    section_ok b header decrypted ck e (mkSection (se_index e) (se_offset e) (se_size e) (parse_section_type pt ft enc) enc
      (bool_decide (digest fs = hash)) plain layout info crypto)).
  { intros info crypto H1 H2. unfold section_ok. cbn. split_and!; try done. exists w, p, counter. split_and!; try done.
    by apply (layout_ok_length w). }
  destruct (decide (parse_section_type pt ft enc = SectionBktr)) as [Ht|Ht].
  2:{ rewrite bool_decide_false by done. cbn [returns]. by apply Hbase. }
  rewrite bool_decide_true by done. eapply returns_bind; [by apply parse_patch_info_returns|]. intros info Hinfo.
  apply (returns_bind (fun k => decrypted = false -> is_Some k)).
  { destruct decrypted; [done|]. apply parse_section_type_bktr in Ht as ->. destruct Hck as (k & -> & Hk); [done| |].
    { by rewrite Hv. }
    cbn [expect_some result_bind]. destruct k as [key|slots]; cbn [keys_ok] in Hk; [|rewrite slot_ok by (done || lia)]; cbn; intros _; by eexists. }
  intros key Hkey. eapply returns_bind; [apply fs_u32; [done|done|lia]|]. intros secure Hsec. cbn [returns].
  apply Hbase; [by intros i [= <-]|]. intros c [= <-]. by cbn.
Qed.

(** What an accepted archive is. *)
Definition nca_ok (b : list Z) (keys : NcaKeyProvider) (a : NcaArchive) : Prop :=
  archive_size (header a) = Z.of_nat (length b) /\
  NoDup (map section_index (sections a)) /\
  (forall x y, x ∈ sections a -> y ∈ sections a -> section_index x <> section_index y ->
     section_offset x + section_size x <= section_offset y \/ section_offset y + section_size y <= section_offset x) /\
  exists raw hb ck, slice b 0 HEADER_SIZE = Some raw /\
    header_in_clear keys raw (version (header a)) (source_is_decrypted (header a)) hb /\
    (forall k, ck = Some k -> content_keys_of keys hb k) /\
    forall x, x ∈ sections a ->
      exists e, entry_ok (Z.of_nat (length b)) e /\ section_ok b hb (source_is_decrypted (header a)) ck e x.

Lemma parse_nca_returns s b keys :
  Represents s b -> returns (nca_ok b keys) (parse_nca encrypt_block decrypt_block digest s keys).
Proof using encrypt_length encrypt_bytes decrypt_length decrypt_bytes.
  intros Hrep. unfold parse_nca. rewrite (rep_len (Represents := Hrep)). cbn [stored map_err result_bind]. unfold nca_error, invalid.
  pose proof (rep_short (Represents := Hrep)) as [_ Hshort]. destruct (Z.ltb_spec (Z.of_nat (length b)) HEADER_SIZE); [done|].
  destruct (read_slice s b 0 HEADER_SIZE) as (raw & -> & Hraw); [done|done|lia|]. cbn [result_bind].
  eapply returns_bind.
  { apply decrypt_header_returns; [eapply slice_ok; [apply Hrep|done]|by eapply slice_length]. }
  intros [[hb v] decrypted] (Hb & Hl & Hclear). cbn [fst snd] in *.
  eapply returns_bind; [apply (read_field_returns hb _ 8); [done|done|done|rewrite Hl; done]|]. intros declared _.
  destruct (Z.eqb_spec declared (Z.of_nat (length b))) as [->|]; [|done]. cbn [negb].
  eapply returns_bind; [by apply parse_main_header_returns|]. intros h (Hsize & Hdec & Hver & Hfields).
  eapply returns_bind; [by apply (parse_section_entries_returns hb (Z.of_nat (length b)))|]. intros es (Hes & Hnd & Happ).
  eapply (returns_bind (fun needs => needs = false -> decrypted = false -> forall e, e ∈ es ->
    hb !! Z.to_nat (0x400 + se_index e * FS_HEADER_SIZE + 4) = Some 1)).
  { destruct decrypted; [done|]. eapply returns_mono; [apply any_encrypted_returns; [done|done|]|by intros r Hr Hf _; apply Hr].
    intros e He. rewrite Forall_forall in Hes. by destruct (Hes e He). }
  intros needs Hneeds.
  apply (returns_bind (fun ck => match ck with Some k => keys_ok k /\ content_keys_of keys hb k | None => needs = false end)).
  { destruct needs; [|done]. apply returns_result_map. by apply resolve_content_keys_returns. }
  intros ck Hck.
  assert (Hsec : forall e, e ∈ es -> returns (section_ok b hb decrypted ck e) (parse_section encrypt_block decrypt_block digest s hb decrypted ck e)).
  { intros e He. rewrite Forall_forall in Hes. apply parse_section_returns; [done|done|done|by apply Hes|].
    intros Hf Hne. destruct ck as [k|]; [exists k; by destruct Hck|]. exfalso. apply Hne. by apply Hneeds. }
  destruct (map_result _ es) as [xs| |] eqn:Hmap; cbn [result_bind].
  - apply map_result_forall2 in Hmap. cbn [returns].
    assert (Hx : Forall2 (section_ok b hb decrypted ck) es xs).
    { clear -Hmap Hsec. induction Hmap as [|e x es xs Hex Hmap IH]; constructor.
      - pose proof (Hsec e ltac:(by left)) as He. by rewrite Hex in He.
      - apply IH. intros e' He'. apply Hsec. by right. }
    clear Hmap. unfold nca_ok. cbn [header sections]. split; [done|].
    assert (Hback : forall x, x ∈ xs -> exists e, e ∈ es /\ section_ok b hb decrypted ck e x).
    { intros x [i Hi]%list_elem_of_lookup. destruct (Forall2_lookup_r _ _ _ _ _ Hx Hi) as (e & He & Hok). exists e. split; [|done]. by eapply list_elem_of_lookup_2. }
    split; [|split].
    + replace (map section_index xs) with (map se_index es); [done|]. clear -Hx. induction Hx as [|e x es xs Hok Hx IH]; cbn; [done|].
      f_equal; [by destruct Hok|done].
    + intros x y (e & He & Hxe)%Hback (e' & He' & Hye)%Hback. destruct Hxe as (-> & -> & -> & _), Hye as (-> & -> & -> & _).
      intros Hne. exact (Happ e e' He He' Hne).
    + exists raw, hb, ck. split; [done|]. rewrite Hver, Hdec. split; [done|]. split; [intros k ->; by destruct Hck|].
      intros x (e & He & Hok)%Hback. exists e. rewrite Forall_forall in Hes. split; [by apply Hes|]. done.
  - done.
  - pose proof (map_result_returns (fun _ => True) (parse_section encrypt_block decrypt_block digest s hb decrypted ck) es) as Hr.
    rewrite Hmap in Hr. apply Hr. intros e He. eapply returns_mono; [by apply Hsec|done].
Qed.

(** C19. Opening a content archive never panics: no key provider, header, section
    table or superblock reaches an index out of range, an [expect] or an
    overflowing addition, and [expect("encrypted sections resolved content keys")]
    in particular is never reached without keys.  An accepted archive has the size
    of its source; its sections have distinct numbers, lie inside the source past
    the header and do not overlap; the storage of each holds exactly the plaintext
    of the section's bytes: the bytes themselves when nothing is encrypted, else,
    as the section's own header says, their AES-XTS decryption under key slots 0
    and 1 or their AES-CTR decryption under slot 2 or the title key, with the
    counter at 0x140 of that header, at every alignment of every read.  The header
    is the source's, in the clear, and the content keys are those of its rights ID
    or its key area.  The integrity layout fits the section and its payload opens.
    The cipher is the [aes] crate's, of which only the block size is assumed. *)
Theorem nca_sections_exact (s : Storage) (b : list Z) (keys : NcaKeyProvider) :
  Represents s b ->
  parse_nca encrypt_block decrypt_block digest s keys <> Panic /\
  forall a, parse_nca encrypt_block decrypt_block digest s keys = Ok a ->
    archive_size (header a) = Z.of_nat (length b) /\
    NoDup (map section_index (sections a)) /\
    (forall x y, x ∈ sections a -> y ∈ sections a -> section_index x <> section_index y ->
       section_offset x + section_size x <= section_offset y \/ section_offset y + section_size y <= section_offset x) /\
    exists raw hb ck, slice b 0 HEADER_SIZE = Some raw /\
      header_in_clear keys raw (version (header a)) (source_is_decrypted (header a)) hb /\
      (forall k, ck = Some k -> content_keys_of keys hb k) /\
      forall x, x ∈ sections a ->
        HEADER_SIZE <= section_offset x /\ 0 < section_size x /\ section_offset x + section_size x <= Z.of_nat (length b) /\
        exists w p counter, slice b (section_offset x) (section_size x) = Some w /\
          hb !! Z.to_nat (0x400 + section_index x * 0x200 + 4) = Some (encryption_code (encryption_type x)) /\
          slice hb (0x400 + section_index x * 0x200 + 0x140) 8 = Some counter /\
          section_plain (source_is_decrypted (header a)) ck (encryption_type x) counter (section_offset x) w = Some p /\
          Represents (section_storage x) p /\ layout_ok p (integrity x) /\
          exists v q o n, payload_storage x = Ok v /\ slice p o n = Some q /\ Represents v q.
Proof using encrypt_length encrypt_bytes decrypt_length decrypt_bytes.
  intros Hrep. pose proof (parse_nca_returns s b keys Hrep) as Hret.
  destruct (parse_nca _ _ _ _ _) as [a|e|]; [|done|done]. split; [done|]. intros a' [= <-].
  destruct Hret as (Hsize & Hnd & Hap & raw & hb & ck & Hraw & Hclear & Hck & Hall). do 3 (split; [done|]).
  exists raw, hb, ck. do 3 (split; [done|]). intros x Hx.
  destruct (Hall x Hx) as (e & (_ & H1 & H2 & H3 & _) & (Hi & Ho & Hz & w & p & c & Hw & He & Hc & Hp & Hpl & Hst & Hlay & _)).
  rewrite Ho, Hz, Hi in *. do 3 (split; [done|]). exists w, p, c. do 6 (split; [done|]).
  apply (payload_storage_opens x p); [done|done|]. rewrite Hpl, (slice_length _ _ _ _ Hw), Hz. lia.
Qed.
End Parse.

(** ** Witnesses *)

(** A plain NCA3 of one RomFS section with one IVFC level of 32 bytes. *)
Definition nca_example : list Z :=
  foldr (fun '(o, v) l => <[Z.to_nat o := v]> l) (replicate (Z.to_nat 0xe00) 0)
    [(0x200, 0x4e); (0x201, 0x43); (0x202, 0x41); (0x203, 0x33); (0x206, 1); (0x209, 0x0e); (0x240, 6); (0x244, 7);
     (0x403, 3); (0x404, 1); (0x408, 0x49); (0x409, 0x56); (0x40a, 0x46); (0x40b, 0x43); (0x410, 0x20); (0x414, 2);
     (0x420, 32); (0x428, 5); (0x4c8, 7); (0x4c9, 8); (0xc00, 7); (0xc01, 8)].

Definition nca_example_fs : list Z := take 512 (drop (Z.to_nat 0x400) nca_example).
Definition nca_example_section : list Z := drop (Z.to_nat 0xc00) nca_example.

Lemma bytes_ok_dec_ok l : forallb (fun z => (0 <=? z) && (z <? 256)) l = true -> bytes_ok l.
Proof.
  rewrite forallb_forall. intros H. apply Forall_forall. intros x Hx. apply list_elem_of_In, H in Hx.
  apply andb_true_iff in Hx as [H1%Z.leb_le H2%Z.ltb_lt]. split; [done|exact H2].
Qed.

Lemma nca_example_ok : Represents (of_bytes nca_example) nca_example.
Proof. apply of_bytes_represents; [by apply bytes_ok_dec_ok; vm_compute|by vm_compute]. Qed.
Lemma nca_section_ok : Represents (of_bytes nca_example_section) nca_example_section.
Proof. apply of_bytes_represents; [by apply bytes_ok_dec_ok; vm_compute|by vm_compute]. Qed.

(** A block cipher and a hash for the witnesses. *)
Definition toy_cipher (key block : list Z) : list Z :=
  map (fun i => wrap 8 (default 0 (block !! i) + default 0 (key !! i) + 1)) (seq 0 16).
Definition toy_hash (l : list Z) : list Z := take 32 (l ++ replicate 32 0).

Lemma toy_cipher_length key block : length (toy_cipher key block) = 16%nat.
Proof. done. Qed.
Lemma toy_cipher_bytes key block : bytes_ok (toy_cipher key block).
Proof. apply Forall_forall. intros x (i & -> & _)%list_elem_of_fmap. by apply wrap_range. Qed.

(** The visible part of the parsed archive. *)
Definition nca_summary (a : NcaArchive) :=
  (source_is_decrypted (header a), map (fun x => (section_type x, section_offset x, section_size x)) (sections a)).

Lemma nca_example_parses :
  result_map nca_summary (load toy_cipher toy_cipher toy_hash (of_bytes nca_example))
  = Ok (true, [(SectionRomFs, 0xc00, 0x200)]).
Proof. by vm_compute. Qed.

Lemma nca_sections_exact_witness :
  exists a x, parse_nca toy_cipher toy_cipher toy_hash (of_bytes nca_example) EmptyKeyProvider = Ok a /\
    sections a = [x] /\ section_type x = SectionRomFs /\ section_offset x = 0xc00 /\
    exists w, slice nca_example 0xc00 0x200 = Some w /\ Represents (section_storage x) w.
Proof.
  destruct (nca_sections_exact toy_cipher toy_cipher toy_cipher_length toy_cipher_bytes toy_cipher_length toy_cipher_bytes toy_hash
              (of_bytes nca_example) nca_example EmptyKeyProvider nca_example_ok) as [_ H].
  pose proof nca_example_parses as Hp. unfold load in Hp.
  destruct (parse_nca toy_cipher toy_cipher toy_hash (of_bytes nca_example) EmptyKeyProvider) as [a| |]; [|discriminate Hp..].
  destruct (H a eq_refl) as (_ & _ & _ & raw & hb & ck & _ & _ & _ & Hall). injection Hp as Hd Hs.
  destruct (sections a) as [|x [|]] eqn:Ea; [discriminate Hs| |discriminate Hs]. injection Hs as Ht Ho Hz.
  exists a, x. split; [reflexivity|]. split; [exact Ea|]. split; [exact Ht|]. split; [exact Ho|].
  destruct (Hall x ltac:(left)) as (_ & _ & _ & w & p & c & Hw & _ & _ & Hp' & Hr & _). exists w. rewrite Ho, Hz in Hw. split; [exact Hw|].
  rewrite Hd in Hp'. injection Hp' as <-. exact Hr.
Defined.

Definition nca_example_layout : IvfcLayout := mkIvfc [7 :: 8 :: replicate 30 0] [mkLevel 0 32 32].
Definition nca_example_report : IntegrityReport := mkReport 0 [mkCheck FsHeader Valid; mkCheck (IvfcLevelCheck 0) Valid].

(** The section with a byte changed past the end of its level. *)
Definition nca_other_section : list Z := <[40%nat := 9]> nca_example_section.
Lemma nca_other_ok : Represents (of_bytes nca_other_section) nca_other_section.
Proof. apply of_bytes_represents; [by apply bytes_ok_dec_ok; vm_compute|by vm_compute]. Qed.

Lemma nca_example_fs_ok : bytes_ok nca_example_fs /\ length nca_example_fs = Z.to_nat FS_HEADER_SIZE.
Proof. split; [by apply bytes_ok_dec_ok; vm_compute|by vm_compute]. Qed.

Lemma nca_example_layout_ok : parse_integrity_layout SectionRomFs nca_example_fs 0x200 = Ok (Ivfc nca_example_layout).
Proof. by vm_compute. Qed.

Lemma integrity_report_exact_witness :
  exists r, validate [] app toy_hash 0 true (of_bytes nca_example_section) (Ivfc nca_example_layout) = Ok r /\
    report_is_valid r = true /\ layout_matches [] app toy_hash nca_example_section (Ivfc nca_example_layout).
Proof.
  destruct (integrity_report_exact [] app toy_hash (fun h => app_nil_r h) (fun h x y => eq_sym (app_assoc h x y))
              0 true SectionRomFs nca_example_fs (of_bytes nca_example_section) nca_example_section (Ivfc nca_example_layout)
              nca_section_ok (proj1 nca_example_fs_ok) (proj2 nca_example_fs_ok) nca_example_layout_ok) as (r & Hr & Hiff).
  assert (Hc : validate [] app toy_hash 0 true (of_bytes nca_example_section) (Ivfc nca_example_layout) = Ok nca_example_report) by by vm_compute.
  exists r. split; [exact Hr|]. assert (Hv : report_is_valid r = true) by (rewrite Hc in Hr; injection Hr as <-; reflexivity).
  split; [exact Hv|]. exact (proj2 (proj1 Hiff Hv)).
Defined.

(** The two sections differ past their level, where nothing collides. *)
Lemma ivfc_authenticates_witness :
  nca_example_section <> nca_other_section /\
  (forall l, l ∈ levels nca_example_layout ->
     slice nca_example_section (level_offset l) (level_size l) = slice nca_other_section (level_offset l) (level_size l)).
Proof.
  split; [by vm_compute|].
  destruct (ivfc_authenticates [] app toy_hash (fun h => app_nil_r h) (fun h x y => eq_sym (app_assoc h x y)) nca_example_fs
           (of_bytes nca_example_section) (of_bytes nca_other_section) nca_example_section nca_other_section
           nca_example_layout 0 0 nca_example_report nca_example_report nca_section_ok nca_other_ok) as [Hagree|(l & Hl & i & x & y & Hi & Hx & Hy & Hne & _)].
  - by vm_compute.
  - exact (proj1 nca_example_fs_ok).
  - exact (proj2 nca_example_fs_ok).
  - exact nca_example_layout_ok.
  - by vm_compute.
  - reflexivity.
  - by vm_compute.
  - reflexivity.
  - exact Hagree.
  - exfalso. apply list_elem_of_singleton in Hl as ->.
    change (div_ceil (level_size (mkLevel 0 32 32)) (level_block_size (mkLevel 0 32 32))) with 1 in Hi.
    assert (i = 0) as -> by lia. apply Hne. vm_compute in Hx, Hy. congruence.
Defined.
