(* ===== verification/LoadBktr.v ===== *)
(** * Patched images (crates/loader/content/src/bktr.rs)

    An update section stores only what changed: a relocation table composes the
    effective image from ranges of the base image and of the patch data, and a
    subsection table gives the counter of each encrypted range of the patch.
    Both are bucket trees read from the update, and both views split a read at
    the boundaries of their ranges.

    The specification resolves one byte at a time.  The theorem is that the
    views the code opens hold exactly the image so composed. *)

From stdpp Require Import pretty.
From S2P Require Import Prelude Bytes LoadStorage LoadCrypto LoadArchive LoadRomFs LoadNca.

#[local] Open Scope Z_scope.

Definition NODE_SIZE : Z := 0x4000.
Definition NODE_HEADER_SIZE : Z := 0x10.
Definition INDIRECT_ENTRY_SIZE : Z := 0x14.
Definition SUBSECTION_ENTRY_SIZE : Z := 0x10.

Definition patch_error {A} (reason : string) : Result LoadError A := invalid "Patch RomFS" reason.

Inductive RelocationSource := Base | Patch.
Record RelocationEntry := mkRelocation { virtual_offset : Z; source_offset : Z; relocation_source : RelocationSource }.
Record SubsectionEntry := mkSubsection { sub_start : Z; encrypted : bool; generation : Z }.

(** [a - b] on [u64] in a build with overflow checks. *)
Definition sub_u64 {E} (x y : Z) : Result E Z := if x <? y then Panic else Ok (x - y).

(** ** Bucket trees *)

(** The function [validate_range] of this file. *)
Definition validate_patch (offset size total : Z) (name : string) : Result LoadError unit :=
  let? end_ := some_or (checked_add 64 offset size) (InvalidFormat "BKTR" (says name " overflows")) in
  if total <? end_ then bktr_error (says name " is outside its source storage") else Ok tt.

Record NodeHeader := mkNode { node_index : Z; node_count : Z; end_offset : Z }.

Definition read_node_header (s : Storage) (offset : Z) : Result LoadError NodeHeader :=
  let? bytes := read s offset 0x10 in
  let? index := read_i32 bytes 0 in
  let? count := read_i32 bytes 4 in
  let? end_ := read_i64 bytes 8 in
  if (index <? 0) || (count <=? 0) || (end_ <=? 0) then bktr_error "invalid bucket node header"
  else Ok (mkNode index count end_).

(** One turn of [read_offsets]. *)
Definition read_offset (s : Storage) (offset index : Z) : Result LoadError Z :=
  let? position := add_u64 offset (index * 8) in
  let? bytes := read s position 8 in
  let? value := read_i64 bytes 0 in
  if value <? 0 then bktr_error "bucket offset is negative" else Ok value.

Definition read_offsets (s : Storage) (offset count : Z) : Result LoadError (list Z) :=
  map_result (read_offset s offset) (seqZ 0 count).

(** [values.windows(2).any(|pair| pair[0] >= pair[1])], negated. *)
Fixpoint strictly_increasing (values : list Z) : bool :=
  match values with
  | x :: ((y :: _) as rest) => (x <? y) && strictly_increasing rest
  | _ => true
  end.

Definition ensure_strictly_increasing (values : list Z) (description : string) : Result LoadError unit :=
  if bool_decide (values = []) || negb (strictly_increasing values) then
    bktr_error (says description " are not strictly increasing")
  else Ok tt.

Definition bucket_end (s : Storage) (table_offset : Z) : Result LoadError Z :=
  let? root := read_node_header s table_offset in Ok (end_offset root).

(** One turn of the loop over the entries of a set. *)
Definition read_set_entry (s : Storage) (set_offset entry_size index : Z) : Result LoadError (list Z) :=
  let? offset := some_or (checked_add 64 set_offset (NODE_HEADER_SIZE + index * entry_size))
                   (InvalidFormat "BKTR" "bucket entry offset overflows") in
  read s offset entry_size.

(** One turn of the loop over the entry sets; the state is
    [(result, previous_end)]. *)
Definition read_set (s : Storage) (entry_base entries_per_set entry_count entry_size : Z) (root_offsets : list Z)
  (set_index : Z) (state : list (list Z) * option Z) : Result LoadError (list (list Z) * option Z) :=
  let '(result, previous_end) := state in
  let? set_offset := some_or (checked_add 64 entry_base (set_index * NODE_SIZE))
                       (InvalidFormat "BKTR" "entry-set offset overflows") in
  let? node := read_node_header s set_offset in
  let? remaining := sub_u64 entry_count (Z.of_nat (length result)) in
  let expected_count := Z.min remaining entries_per_set in
  if negb (node_index node =? set_index) || negb (node_count node =? expected_count) || (end_offset node =? 0) then
    bktr_error "invalid bucket entry-set header"
  else
    let? set_entries := map_result (read_set_entry s set_offset entry_size) (seqZ 0 expected_count) in
    let? starts := map_result (fun entry => read_u64 entry 0) set_entries in
    let? _ := ensure_strictly_increasing starts "bucket entries" in
    if negb (bool_decide (head starts = root_offsets !! Z.to_nat set_index)) then
      bktr_error "root and entry-set offsets disagree"
    else if match previous_end with Some end_ => negb (bool_decide (head starts = Some end_)) | None => false end then
      bktr_error "bucket entry sets have a gap"
    else
      let? set_start := expect_some (head starts) in
      if end_offset node <=? set_start then bktr_error "bucket entry set is reversed"
      else Ok (result ++ set_entries, Some (end_offset node)).

Definition parse_bucket_entries (s : Storage) (table_offset table_size : Z) (tree : BucketTreeHeader) (entry_size : Z) :
  Result LoadError (list (list Z)) :=
  let entries_per_set := (NODE_SIZE - NODE_HEADER_SIZE) / entry_size in
  let entry_count := entry_count tree in
  let set_count := div_ceil entry_count entries_per_set in
  let root_capacity := (NODE_SIZE - NODE_HEADER_SIZE) / 8 in
  if root_capacity <? set_count then bktr_error "bucket tree requires an unsupported second node level"
  else
    let? entry_storage_size := some_or (checked_mul 64 set_count NODE_SIZE)
                                 (InvalidFormat "BKTR" "bucket-tree storage size overflows") in
    let? required_size := some_or (checked_add 64 NODE_SIZE entry_storage_size)
                            (InvalidFormat "BKTR" "bucket-tree storage size overflows") in
    if table_size <? required_size then bktr_error "bucket-tree storage is truncated"
    else
      let? storage_len := stored (storage_len s) in
      let? _ := validate_patch table_offset required_size storage_len "bucket-tree table" in
      let? root := read_node_header s table_offset in
      if negb (node_index root =? 0) || negb (node_count root =? set_count) || (end_offset root =? 0) then
        bktr_error "invalid root bucket node"
      else
        let? offsets_at := add_u64 table_offset NODE_HEADER_SIZE in
        let? root_offsets := read_offsets s offsets_at set_count in
        let? _ := ensure_strictly_increasing root_offsets "root bucket offsets" in
        let? entry_base := add_u64 table_offset NODE_SIZE in
        let? state := for_each (read_set s entry_base entries_per_set entry_count entry_size root_offsets)
                        (seqZ 0 set_count) ([], None) in
        if negb (bool_decide (snd state = Some (end_offset root)))
           || negb (Z.of_nat (length (fst state)) =? entry_count) then
          bktr_error "bucket-tree entry count is inconsistent"
        else Ok (fst state).

Definition parse_relocation (bytes : list Z) : Result LoadError RelocationEntry :=
  let? selector := read_u32 bytes 0x10 in
  let? source :=
    match selector with
    | 0 => Ok Base
    | 1 => Ok Patch
    | _ => bktr_error (says "invalid relocation source selector " (pretty selector))
    end in
  let? virtual_offset := read_u64 bytes 0 in
  let? source_offset := read_u64 bytes 8 in
  Ok (mkRelocation virtual_offset source_offset source).

Definition parse_relocation_table (s : Storage) (info : BktrPatchInfo) : Result LoadError (list RelocationEntry) :=
  let? raw := parse_bucket_entries s (indirect_offset info) (indirect_size info) (indirect_header info) INDIRECT_ENTRY_SIZE in
  map_result parse_relocation raw.

Definition parse_subsection (bytes : list Z) : Result LoadError SubsectionEntry :=
  let? selector := byte_at bytes 8 in
  let? encrypted :=
    match selector with
    | 0 => Ok true
    | 1 => Ok false
    | _ => bktr_error (says "invalid subsection encryption selector " (pretty selector))
    end in
  let? offset := read_u64 bytes 0 in
  let? generation := read_u32 bytes 0xc in
  Ok (mkSubsection offset encrypted generation).

Definition parse_subsection_table (s : Storage) (info : BktrPatchInfo) : Result LoadError (list SubsectionEntry) :=
  let? raw := parse_bucket_entries s (aes_ctr_ex_offset info) (aes_ctr_ex_size info) (aes_ctr_ex_header info) SUBSECTION_ENTRY_SIZE in
  map_result parse_subsection raw.

(** The loop of [validate_relocations]. *)
Fixpoint validate_ranges (base_len patch_len virtual_size : Z) (entries : list RelocationEntry) : Result LoadError unit :=
  match entries with
  | [] => Ok tt
  | entry :: rest =>
      let end_ := match rest with [] => virtual_size | next :: _ => virtual_offset next end in
      if end_ <? virtual_offset entry then bktr_error "relocation range is reversed"
      else
        let source_len := match relocation_source entry with Base => base_len | Patch => patch_len end in
        let? _ := validate_patch (source_offset entry) (end_ - virtual_offset entry) source_len "relocation source range" in
        validate_ranges base_len patch_len virtual_size rest
  end.

Definition validate_relocations (entries : list RelocationEntry) (base_len patch_len virtual_size : Z) : Result LoadError Z :=
  if negb (bool_decide (virtual_offset <$> head entries = Some 0)) then bktr_error "relocation map does not begin at zero"
  else
    let? _ := ensure_strictly_increasing (map virtual_offset entries) "relocation offsets" in
    let? _ := validate_ranges base_len patch_len virtual_size entries in
    Ok virtual_size.

Definition validate_subsections (entries : list SubsectionEntry) (physical_end : Z) : Result LoadError unit :=
  if negb (bool_decide (sub_start <$> head entries = Some 0)) then bktr_error "subsection map does not begin at zero"
  else
    let starts := map sub_start entries in
    let? _ := ensure_strictly_increasing starts "subsection offsets" in
    let? last_start := expect_some (last starts) in
    if existsb (fun offset => negb (offset mod AES_BLOCK_SIZE =? 0)) starts
       || (physical_end =? 0) || negb (physical_end mod AES_BLOCK_SIZE =? 0) || (physical_end <=? last_start) then
      bktr_error "subsection coverage is invalid"
    else Ok tt.

(** [ivfc_image_size] *)
Fixpoint image_size (levels : list IvfcLevel) (end_ : Z) : Result LoadError Z :=
  match levels with
  | [] => Ok end_
  | level :: rest =>
      let? level_end := some_or (checked_add 64 (level_offset level) (level_size level))
                          (InvalidFormat "Patch RomFS" "base IVFC range overflows") in
      image_size rest (Z.max end_ level_end)
  end.
Definition ivfc_image_size (layout : IvfcLayout) : Result LoadError Z := image_size (levels layout) 0.

(** ** Reads split at range boundaries *)

Definition storage_range (offset len total : Z) : Result StorageError unit :=
  let? end_ := some_or (checked_add 64 offset len) OutOfBounds in
  if total <? end_ then Err OutOfBounds else Ok tt.

(** The skeleton of the two [read_at] functions: [while current < end], one
    chunk of one entry per turn.  [chunk index current len] reads [len] bytes at
    [current], inside the entry [index].  The fuel is the number of entries; a
    turn ends at the end of the read or of an entry, so running out of it, like
    an index out of range, is a panic that is proved not to happen. *)
Fixpoint read_chunks (fuel : nat) (starts : list Z) (len : Z) (chunk : nat -> Z -> Z -> Result StorageError (list Z))
  (current end_ : Z) : Result StorageError (list Z) :=
  if current <? end_ then
    match fuel, partition_point (fun start => start <=? current) starts with
    | O, _ | _, O => Panic
    | S fuel, S index =>
        let next := default len (starts !! S index) in
        let chunk_end := Z.min end_ next in
        let? bytes := chunk index current (chunk_end - current) in
        let? rest := read_chunks fuel starts len chunk chunk_end end_ in
        Ok (bytes ++ rest)
    end
  else Ok [].

Definition segmented_read (starts : list Z) (len : Z) (chunk : nat -> Z -> Z -> Result StorageError (list Z))
  (offset count : Z) : Result StorageError (list Z) :=
  let? _ := storage_range offset count len in
  if count =? 0 then Ok [] else read_chunks (length starts) starts len chunk offset (offset + count).

Record RelocationStorage := mkRelocationStorage {
  rel_base : Storage; rel_patch : Storage; rel_entries : list RelocationEntry; rel_len : Z
}.

Definition relocation_chunk (s : RelocationStorage) (index : nat) (current chunk_len : Z) : Result StorageError (list Z) :=
  match rel_entries s !! index with
  | None => Panic
  | Some entry =>
      let? within := sub_u64 current (virtual_offset entry) in
      let? source_offset := some_or (checked_add 64 (source_offset entry) within) OutOfBounds in
      let source := match relocation_source entry with Base => rel_base s | Patch => rel_patch s end in
      read_at source source_offset chunk_len
  end.

Definition relocation_read_at (s : RelocationStorage) (offset count : Z) : Result StorageError (list Z) :=
  segmented_read (map virtual_offset (rel_entries s)) (rel_len s) (relocation_chunk s) offset count.

Definition relocation_dyn (s : RelocationStorage) : Storage := mkStorage (Ok (rel_len s)) (relocation_read_at s).

Record AesCtrExStorage := mkCtrEx {
  ex_parent : Storage; ex_len : Z; ex_entries : list SubsectionEntry; ex_key : option (list Z);
  ex_secure_value : Z; ex_counter_offset : Z; ex_decrypted : bool
}.

Section Bktr.
Context (encrypt_block : list Z -> list Z -> list Z).

Definition ctr_prefix_of (secure_value generation : Z) : list Z := to_be_bytes 4 secure_value ++ to_be_bytes 4 generation.

Definition ctr_ex_chunk (s : AesCtrExStorage) (index : nat) (current chunk_len : Z) : Result StorageError (list Z) :=
  match ex_entries s !! index with
  | None => Panic
  | Some entry =>
      if ex_decrypted s || negb (encrypted entry) then read_at (ex_parent s) current chunk_len
      else
        let? key := some_or (ex_key s) OutOfBounds in
        let aligned_start := Z.land current (unot 64 (AES_BLOCK_SIZE - 1)) in
        let? aligned_end := align_up (current + chunk_len) AES_BLOCK_SIZE in
        let? data := read_at (ex_parent s) aligned_start (aligned_end - aligned_start) in
        let prefix := ctr_prefix_of (ex_secure_value s) (generation entry) in
        let? absolute := some_or (checked_add 64 (ex_counter_offset s) aligned_start) OutOfBounds in
        let? plain := apply_ctr encrypt_block key prefix (absolute / AES_BLOCK_SIZE) data in
        match slice plain (current - aligned_start) chunk_len with
        | Some bytes => Ok bytes
        | None => Panic
        end
  end.

Definition ctr_ex_read_at (s : AesCtrExStorage) (offset count : Z) : Result StorageError (list Z) :=
  segmented_read (map sub_start (ex_entries s)) (ex_len s) (ctr_ex_chunk s) offset count.

Definition ctr_ex_dyn (s : AesCtrExStorage) : Storage := mkStorage (Ok (ex_len s)) (ctr_ex_read_at s).

(** ** Opening a patch *)

Record BktrPatch := mkPatch { virtual_storage : Storage; romfs_storage : Storage }.

(** The patch data of an update. *)
Definition open_patch_data (update : NcaSection) (info : BktrPatchInfo) (crypto : BktrCryptoContext) : Result LoadError Storage :=
  let? subsection_entries := parse_subsection_table (section_storage update) info in
  let? subsection_end := bucket_end (section_storage update) (aes_ctr_ex_offset info) in
  if (subsection_end <? indirect_offset info) || (aes_ctr_ex_offset info <? subsection_end) then
    bktr_error (says (says (says "subsection tree end " (hex_prefixed subsection_end))
                       (says " is outside the patch-data and metadata bounds " (hex_prefixed (indirect_offset info))))
                  (says "..=" (hex_prefixed (aes_ctr_ex_offset info))))
  else
    let? _ := validate_subsections subsection_entries subsection_end in
    Ok (ctr_ex_dyn (mkCtrEx (raw_storage crypto) (indirect_offset info) subsection_entries (bktr_key crypto)
                      (secure_value crypto) (counter_offset crypto) (bktr_decrypted crypto))).

Definition open_patch (base update : NcaSection) : Result LoadError BktrPatch :=
  if negb (bool_decide (section_type base = SectionRomFs)) then patch_error "base section is not an ordinary RomFS section"
  else if negb (bool_decide (section_type update = SectionBktr)) || negb (bool_decide (encryption_type update = AesCtrEx)) then
    patch_error "update section is not BKTR/AES-CTR-Ex"
  else
    let? info := some_or (patch_info update) (InvalidFormat "Patch RomFS" "update section has no PatchInfo") in
    let? crypto := some_or (patch_crypto update) (InvalidFormat "Patch RomFS" "update section has no crypto context") in
    if negb (indirect_offset info mod AES_BLOCK_SIZE =? 0) then
      bktr_error "physical patch-data size is not AES-block aligned"
    else
      let? patch_data := open_patch_data update info crypto in
      let? relocations := parse_relocation_table (section_storage update) info in
      let? base_layout := some_or (romfs_ivfc base) (InvalidFormat "Patch RomFS" "base section has no IVFC layout") in
      let? base_virtual_size := ivfc_image_size base_layout in
      let? patch_len := stored (storage_len patch_data) in
      let? tree_end := bucket_end (section_storage update) (indirect_offset info) in
      let? virtual_size := validate_relocations relocations base_virtual_size patch_len tree_end in
      let virtual := relocation_dyn (mkRelocationStorage (section_storage base) patch_data relocations virtual_size) in
      let? layout := some_or (bktr_ivfc update) (InvalidFormat "Patch RomFS" "virtual IVFC has no data level") in
      let? data_level := some_or (last (levels layout)) (InvalidFormat "Patch RomFS" "virtual IVFC has no data level") in
      let? _ := validate_patch (level_offset data_level) (level_size data_level) virtual_size "virtual IVFC data level" in
      let? romfs := stored (sub_view virtual (level_offset data_level) (level_size data_level)) in
      Ok (mkPatch virtual romfs).

Definition load_romfs (p : BktrPatch) : option (Result LoadError RomFs.RomFsArchive) := RomFs.load (romfs_storage p).
End Bktr.

(** ** Splitting reads is invisible *)

Lemma partition_point_first {A} (p : A -> bool) l x : head l = Some x -> p x = true -> (1 <= partition_point p l)%nat.
Proof. destruct l as [|y l]; [done|]. intros [= ->] Hp. cbn. rewrite Hp. lia. Qed.

Lemma partition_point_inv {A} (p : A -> bool) l i :
  partition_point p l = S i ->
  (forall j x, (j <= i)%nat -> l !! j = Some x -> p x = true) /\ is_Some (l !! i) /\ forall x, l !! S i = Some x -> p x = false.
Proof.
  revert i. induction l as [|y l IH]; intros i; cbn; [done|]. destruct (p y) eqn:Hy; [|done]. intros [= Hi].
  destruct i as [|i].
  - split; [intros [|j] x Hj Hx; [by injection Hx as <-|lia]|]. split; [done|]. intros x Hx. destruct l as [|z l]; [done|].
    injection Hx as <-. cbn in Hi. by destruct (p z).
  - destruct (IH i Hi) as (H1 & H2 & H3). split; [|by split]. intros [|j] x Hj Hx; [by injection Hx as <-|]. apply (H1 j); [lia|done].
Qed.

Lemma partition_point_eq {A} (p : A -> bool) l i :
  (forall j x, (j <= i)%nat -> l !! j = Some x -> p x = true) -> is_Some (l !! i) -> (forall x, l !! S i = Some x -> p x = false) ->
  partition_point p l = S i.
Proof.
  revert i. induction l as [|y l IH]; intros i H1 [x Hx] H3; [done|]. cbn. rewrite (H1 0%nat y) by (done || lia). f_equal. destruct i as [|i].
  - destruct l as [|z l]; [done|]. cbn. by rewrite (H3 z).
  - apply IH; [|by exists x|done]. intros j z Hj Hz. apply (H1 (S j)); [lia|done].
Qed.

Lemma partition_point_ge {A} (p : A -> bool) l n :
  (n <= length l)%nat -> (forall j x, (j < n)%nat -> l !! j = Some x -> p x = true) -> (n <= partition_point p l)%nat.
Proof.
  revert n. induction l as [|y l IH]; intros [|n] Hn H; cbn in *; try lia. rewrite (H 0%nat y) by (done || lia).
  enough (n <= partition_point p l)%nat by lia. apply IH; [lia|]. intros j x Hj Hx. apply (H (S j)); [lia|done].
Qed.

Section Segments.
Context (starts : list Z) (len : Z) (chunk : nat -> Z -> Z -> Result StorageError (list Z)).
Context (byte : nat -> Z -> Z).
Context (Hhead : head starts = Some 0) (Hlen : in_range 64 len).

(** The entry of a position, and the image byte by byte. *)
Definition entry_of (p : Z) : nat := pred (partition_point (fun start => start <=? p) starts).
Definition image : list Z := map (fun p => byte (entry_of p) p) (seqZ 0 len).

Context (Hbyte : forall i p, in_range 8 (byte i p)).
Context (Hchunk : forall i start current n,
  starts !! i = Some start -> start <= current -> 0 < n -> current + n <= len ->
  (forall next, starts !! S i = Some next -> current + n <= next) ->
  chunk i current n = Ok (map (byte i) (seqZ current n))).

Lemma length_image : Z.of_nat (length image) = len.
Proof using Hlen. unfold image. rewrite length_map, length_seqZ. unfold in_range in Hlen. lia. Qed.

Lemma image_slice offset count :
  0 <= offset -> 0 <= count -> offset + count <= len ->
  slice image offset count = Some (map (fun p => byte (entry_of p) p) (seqZ offset count)).
Proof using Hlen.
  intros Ho Hc Hl. pose proof length_image. rewrite slice_some by lia. f_equal. apply list_eq. intros i.
  rewrite lookup_take, lookup_drop. change (map ?f ?l) with (f <$> l). rewrite !list_lookup_fmap.
  case_decide.
  - rewrite lookup_seqZ_lt by lia. unfold image. change (map ?f ?l) with (f <$> l). rewrite list_lookup_fmap, lookup_seqZ_lt by lia.
    cbn [fmap option_fmap option_map]. by replace (0 + Z.of_nat (Z.to_nat offset + i)) with (offset + Z.of_nat i) by lia.
  - by rewrite lookup_seqZ_ge by lia.
Qed.

(** Every position of a chunk has the chunk's entry. *)
Lemma entry_of_chunk i current n :
  partition_point (fun start => start <=? current) starts = S i ->
  (forall next, starts !! S i = Some next -> current + n <= next) ->
  map (byte i) (seqZ current n) = map (fun p => byte (entry_of p) p) (seqZ current n).
Proof using.
  intros Hi Hnext. apply list_fmap_ext. intros k p Hp. apply lookup_seqZ in Hp as [-> Hk]. f_equal. unfold entry_of.
  apply partition_point_inv in Hi as (H1 & H2 & H3).
  rewrite (partition_point_eq _ _ i); [done| |done|].
  - intros j x Hj Hx. specialize (H1 j x Hj Hx). rewrite Z.leb_le in *. lia.
  - intros x Hx. specialize (Hnext x Hx). apply Z.leb_gt. lia.
Qed.

Lemma read_chunks_ok fuel current end_ :
  0 <= current <= end_ -> end_ <= len ->
  (current < end_ -> (S (length starts) <= fuel + partition_point (fun start => (start <=? current)%Z) starts)%nat) ->
  read_chunks fuel starts len chunk current end_ = Ok (map (fun p => byte (entry_of p) p) (seqZ current (end_ - current))).
Proof using Hhead Hchunk.
  revert current. induction fuel as [|fuel IH]; intros current Hc He Hf; cbn [read_chunks]; destruct (Z.ltb_spec current end_) as [Hlt|].
  - pose proof (partition_point_le (fun start => start <=? current) starts). lia.
  - by rewrite seqZ_nil by lia.
  - specialize (Hf Hlt). pose proof (partition_point_first (fun start => start <=? current) starts 0 Hhead ltac:(apply Z.leb_le; lia)) as Hpos.
    destruct (partition_point _ starts) as [|i] eqn:Hi; [lia|].
    pose proof (partition_point_inv _ _ _ Hi) as (H1 & [start Hstart] & H3).
    specialize (H1 i start (Nat.le_refl _) Hstart) as Hle. rewrite Z.leb_le in Hle.
    set (next := default len (starts !! S i)).
    assert (Hnext : (current < next \/ next = len) /\ forall x, starts !! S i = Some x -> next = x /\ current < x).
    { unfold next. destruct (starts !! S i) as [x|] eqn:Hx; cbn; [|split; [by right|done]].
      specialize (H3 x eq_refl). rewrite Z.leb_gt in H3. split; [by left|]. intros y [= <-]. done. }
    destruct Hnext as [Hgt Heq].
    assert (Hsame : forall x, starts !! S i = Some x -> current + (Z.min end_ next - current) <= x) by (intros x Hx; destruct (Heq x Hx); lia).
    rewrite (Hchunk i start) by (done || lia). cbn [result_bind]. rewrite (entry_of_chunk i current) by done.
    rewrite IH; [|lia|lia|].
    + cbn [result_bind]. f_equal. rewrite <- map_app. f_equal.
      replace (end_ - current) with ((Z.min end_ next - current) + (end_ - Z.min end_ next)) by lia.
      rewrite seqZ_app by lia. do 2 f_equal. lia.
    + intros Hmore. assert (Hmin : Z.min end_ next = next) by lia. rewrite Hmin.
      destruct (starts !! S i) as [x|] eqn:Hx; [|unfold next in *; cbn in *; lia]. destruct (Heq x eq_refl) as [-> Hcx].
      enough (S (S i) <= partition_point (fun start0 => (start0 <=? x)%Z) starts)%nat by lia.
      apply partition_point_ge; [by apply lookup_lt_Some in Hx|]. intros j y Hj Hy. rewrite Z.leb_le.
      destruct (decide (j = S i)) as [->|]; [rewrite Hx in Hy; injection Hy as ->; lia|].
      apply partition_point_inv in Hi as (K & _). specialize (K j y ltac:(lia) Hy). rewrite Z.leb_le in K. lia.
  - by rewrite seqZ_nil by lia.
Qed.

(** The split read answers as the image. *)
Lemma segmented_read_ok offset count :
  in_range 64 offset -> in_range 64 count ->
  segmented_read starts len chunk offset count =
  match slice image offset count with Some r => Ok r | None => Err OutOfBounds end.
Proof using Hhead Hchunk Hlen.
  intros [Ho _] [Hc _]. unfold segmented_read, storage_range. pose proof length_image as Hli. pose proof Hlen as [_ Hlen'].
  destruct (Z.lt_ge_cases (offset + count) (2 ^ 64)).
  2:{ rewrite checked_add_large by lia. by rewrite slice_none by lia. }
  rewrite checked_add_small by lia. cbn [some_or result_bind]. destruct (Z.ltb_spec len (offset + count)).
  { by rewrite slice_none by lia. }
  cbn [result_bind]. rewrite image_slice by lia. destruct (Z.eqb_spec count 0) as [->|].
  { by rewrite seqZ_nil by lia. }
  rewrite read_chunks_ok; [by replace (offset + count - offset) with count by lia|lia|lia|].
  intros _. pose proof (partition_point_first (fun start => start <=? offset) starts 0 Hhead ltac:(apply Z.leb_le; lia)). lia.
Qed.

Lemma segmented_represents : Represents (mkStorage (Ok len) (segmented_read starts len chunk)) image.
Proof using Hhead Hchunk Hlen Hbyte.
  split.
  - apply Forall_forall. intros x (p & -> & _)%list_elem_of_fmap. apply Hbyte.
  - by rewrite length_image.
  - cbn. by rewrite length_image.
  - intros offset count Ho Hc. by apply segmented_read_ok.
Qed.
End Segments.

(** ** Reading the trees *)

Section Trees.
Context (s : Storage) `{Hlaw : !Lawful s}.

Lemma read_i_range w v : in_range w v -> 1 <= w -> - 2 ^ (w - 1) <= to_signed w v < 2 ^ (w - 1).
Proof using. intros H Hw. by apply to_signed_range. Qed.

Lemma read_node_header_returns offset :
  in_range 64 offset ->
  returns (fun n => 0 <= node_index n /\ 0 < node_count n /\ 0 < end_offset n < 2 ^ 63) (read_node_header s offset).
Proof using Hlaw.
  intros Ho. unfold read_node_header, bktr_error, invalid. eapply returns_bind; [by apply (storage_read_returns s)|]. intros bytes [Hl Hb].
  change (Z.to_nat 0x10) with 16%nat in Hl. unfold read_i32, read_i64.
  eapply (returns_bind (fun _ => True)).
  { eapply returns_bind; [apply (read_field_returns bytes _ 4); [done|lia..]|]. done. }
  intros index _. eapply (returns_bind (fun _ => True)).
  { eapply returns_bind; [apply (read_field_returns bytes _ 4); [done|lia..]|]. done. }
  intros count _. eapply (returns_bind (fun v => v < 2 ^ 63)).
  { eapply returns_bind; [apply (read_field_returns bytes _ 8); [done|lia..]|]. intros v Hv. cbn [returns].
    apply (read_i_range 64 v Hv). lia. }
  intros end_ He. destruct (Z.ltb_spec index 0); [done|]. destruct (Z.leb_spec count 0); [done|]. destruct (Z.leb_spec end_ 0); [done|].
  cbn. lia.
Qed.

Lemma read_offsets_returns offset count :
  0 <= offset -> 0 <= count -> offset + count * 8 < 2 ^ 64 -> returns (fun _ => True) (read_offsets s offset count).
Proof using Hlaw.
  intros Ho Hc Hl. unfold read_offsets. eapply returns_mono; [apply (map_result_returns (fun _ => True))|done].
  intros i Hi%elem_of_seqZ. unfold read_offset, bktr_error, invalid. rewrite add_u64_small by lia. cbn [result_bind].
  eapply returns_bind; [apply (storage_read_returns s); unfold in_range; lia|]. intros bytes [Hlen Hb]. change (Z.to_nat 8) with 8%nat in Hlen.
  unfold read_i64. eapply (returns_bind (fun _ => True)).
  { eapply returns_bind; [apply (read_field_returns bytes _ 8); [done|lia..]|]. done. }
  intros v _. by destruct (v <? 0).
Qed.

Lemma ensure_returns values description : returns (fun _ => values <> []) (ensure_strictly_increasing values description).
Proof using.
  unfold ensure_strictly_increasing, bktr_error, invalid. destruct (decide (values = [])) as [|Hne]; [by rewrite bool_decide_true|].
  rewrite bool_decide_false by done. cbn [orb]. by destruct (negb _).
Qed.

Definition raw_ok (entry_size : Z) (bytes : list Z) : Prop := length bytes = Z.to_nat entry_size /\ bytes_ok bytes.

Lemma read_set_returns entry_base per_set count entry_size roots k result previous :
  0 <= entry_base -> 0 <= k -> entry_base + (k + 1) * NODE_SIZE < 2 ^ 64 -> 8 <= entry_size -> 0 <= per_set ->
  NODE_HEADER_SIZE + per_set * entry_size <= NODE_SIZE ->
  Forall (raw_ok entry_size) result -> Z.of_nat (length result) <= count ->
  returns (fun st => Forall (raw_ok entry_size) (fst st) /\ Z.of_nat (length (fst st)) <= count)
    (read_set s entry_base per_set count entry_size roots k (result, previous)).
Proof using Hlaw.
  intros Hb Hk Hl Hes Hps Hfit Hres Hcount. unfold read_set, sub_u64, bktr_error, invalid, NODE_SIZE, NODE_HEADER_SIZE in *.
  rewrite checked_add_small by lia. cbn [some_or result_bind].
  eapply returns_bind; [apply read_node_header_returns; unfold in_range; lia|]. intros node (_ & Hnc & _).
  destruct (Z.ltb_spec count (Z.of_nat (length result))); [lia|]. cbn [result_bind]. destruct (_ || _); [done|].
  set (expected := Z.min (count - Z.of_nat (length result)) per_set).
  eapply returns_bind.
  { apply (map_result_returns (raw_ok entry_size)). intros i Hi%elem_of_seqZ. unfold read_set_entry, NODE_HEADER_SIZE.
    assert (0 <= i * entry_size <= per_set * entry_size) by nia.
    rewrite checked_add_small by lia. cbn [some_or result_bind]. eapply returns_mono; [apply (storage_read_returns s); unfold in_range; nia|]. done. }
  intros entries [Hent Hlen]. rewrite length_seqZ in Hlen.
  eapply returns_bind.
  { apply (map_result_returns (fun _ => True)). intros e [He Hbe]%(proj1 (Forall_forall _ _) Hent).
    eapply returns_mono; [apply (read_field_returns e 0 8); [done|lia|lia|rewrite He; lia]|done]. }
  intros starts [_ Hsl]. eapply returns_bind; [apply ensure_returns|]. intros ? Hne. destruct (negb _); [done|].
  destruct (match previous with Some _ => _ | None => _ end); [done|].
  destruct starts as [|x starts]; [done|]. cbn [head expect_some result_bind]. destruct (_ <=? _); [done|]. cbn.
  split; [by apply Forall_app|]. rewrite length_app, Hlen. unfold expected. lia.
Qed.

Lemma parse_bucket_entries_returns offset size tree entry_size :
  in_range 64 offset -> 0 < entry_count tree <= MAX_ENTRY_COUNT -> 8 <= entry_size <= 0x3ff0 ->
  returns (Forall (raw_ok entry_size)) (parse_bucket_entries s offset size tree entry_size).
Proof using Hlaw.
  intros [Ho Ho'] Hec Hes. unfold parse_bucket_entries, bktr_error, invalid.
  set (per_set := (NODE_SIZE - NODE_HEADER_SIZE) / entry_size).
  assert (Hps : 1 <= per_set /\ per_set * entry_size <= NODE_SIZE - NODE_HEADER_SIZE).
  { unfold per_set. pose proof (Z.div_mod (NODE_SIZE - NODE_HEADER_SIZE) entry_size ltac:(lia)).
    pose proof (Z.mod_pos_bound (NODE_SIZE - NODE_HEADER_SIZE) entry_size ltac:(lia)). split; [|lia].
    apply Z.div_le_lower_bound; [lia|]. unfold NODE_SIZE, NODE_HEADER_SIZE. lia. }
  pose proof (div_ceil_bounds (entry_count tree) per_set ltac:(lia) ltac:(lia)) as [Hsc _].
  set (sets := div_ceil (entry_count tree) per_set) in *. change ((NODE_SIZE - NODE_HEADER_SIZE) / 8) with 2046.
  destruct (Z.ltb_spec 2046 sets); [done|]. unfold checked_mul, NODE_SIZE, NODE_HEADER_SIZE in *.
  rewrite (proj2 (Z.ltb_lt (sets * 0x4000) _)) by lia. cbn [some_or result_bind]. rewrite checked_add_small by lia. cbn [some_or result_bind].
  destruct (size <? _); [done|]. pose proof (proj1 (lawful_returns (s := s))) as Hlp.
  destruct (storage_len s) as [n| |] eqn:En; cbn [stored map_err result_bind]; [|done|done]. pose proof (lawful_len n En) as [_ Hn].
  unfold validate_patch, bktr_error, invalid. destruct (checked_add 64 offset _) as [e|] eqn:Ee; [|done]. apply checked_add_inv in Ee as [-> _].
  cbn [some_or result_bind]. destruct (Z.ltb_spec n (offset + (0x4000 + sets * 0x4000))); [done|]. cbn [result_bind].
  eapply returns_bind; [by apply read_node_header_returns|]. intros root _. destruct (_ || _); [done|].
  rewrite add_u64_small by lia. cbn [result_bind]. eapply returns_bind; [apply read_offsets_returns; lia|]. intros roots _.
  eapply returns_bind; [apply ensure_returns|]. intros ? _. rewrite add_u64_small by lia. cbn [result_bind].
  eapply (returns_bind (fun st => Forall (raw_ok entry_size) (fst st) /\ Z.of_nat (length (fst st)) <= entry_count tree)).
  { replace sets with (Z.of_nat (Z.to_nat sets)) by lia.
    apply (for_each_range _ (fun _ st => Forall (raw_ok entry_size) (fst st) /\ Z.of_nat (length (fst st)) <= entry_count tree) 0 (Z.to_nat sets)).
    - intros k [res prev] Hk [H1 H2]. apply read_set_returns; unfold NODE_SIZE, NODE_HEADER_SIZE; (done || lia).
    - cbn. split; [constructor|lia]. }
  intros [res prev] [Hres _]. by destruct (_ || _).
Qed.
End Trees.

Definition relocation_ok (e : RelocationEntry) : Prop := in_range 64 (virtual_offset e) /\ in_range 64 (source_offset e).

Lemma parse_relocation_returns bytes : raw_ok INDIRECT_ENTRY_SIZE bytes -> returns relocation_ok (parse_relocation bytes).
Proof.
  intros [Hl Hb]. change (Z.to_nat INDIRECT_ENTRY_SIZE) with 20%nat in Hl. unfold parse_relocation, bktr_error, invalid.
  eapply returns_bind; [apply (read_field_returns bytes _ 4); [done|lia..]|]. intros sel _.
  apply (returns_bind (fun _ => True)); [by repeat case_match|]. intros src _.
  eapply returns_bind; [apply (read_field_returns bytes _ 8); [done|lia..]|]. intros v Hv.
  eapply returns_bind; [apply (read_field_returns bytes _ 8); [done|lia..]|]. intros o Ho. done.
Qed.

Definition subsection_ok (e : SubsectionEntry) : Prop := in_range 64 (sub_start e) /\ in_range 32 (generation e).

Lemma parse_subsection_returns bytes : raw_ok SUBSECTION_ENTRY_SIZE bytes -> returns subsection_ok (parse_subsection bytes).
Proof.
  intros [Hl Hb]. change (Z.to_nat SUBSECTION_ENTRY_SIZE) with 16%nat in Hl. unfold parse_subsection, bktr_error, invalid.
  eapply returns_bind; [by apply byte_at_returns; [|lia]|]. intros sel _.
  apply (returns_bind (fun _ => True)); [by repeat case_match|]. intros enc _.
  eapply returns_bind; [apply (read_field_returns bytes _ 8); [done|lia..]|]. intros v Hv.
  eapply returns_bind; [apply (read_field_returns bytes _ 4); [done|lia..]|]. intros g Hg. done.
Qed.

Section Tables.
Context (s : Storage) `{Hlaw : !Lawful s} (info : BktrPatchInfo) (n : Z) (Hinfo : patch_ok n info) (Hn : n < 2 ^ 64).

Lemma parse_relocation_table_returns : returns (Forall relocation_ok) (parse_relocation_table s info).
Proof using Hlaw Hinfo Hn.
  destruct Hinfo as (H1 & H2 & H3 & H4 & H5 & H6 & H7). unfold parse_relocation_table.
  eapply returns_bind; [apply parse_bucket_entries_returns; [done|unfold in_range; lia|done|done]|]. intros raw Hraw.
  eapply returns_mono; [apply (map_result_returns relocation_ok)|by intros l [Hl _]]. intros bytes Hbytes.
  rewrite Forall_forall in Hraw. by apply parse_relocation_returns, Hraw.
Qed.

Lemma parse_subsection_table_returns : returns (Forall subsection_ok) (parse_subsection_table s info).
Proof using Hlaw Hinfo Hn.
  destruct Hinfo as (H1 & H2 & H3 & H4 & H5 & H6 & H7). unfold parse_subsection_table.
  eapply returns_bind; [apply parse_bucket_entries_returns; [done|unfold in_range; lia|done|done]|]. intros raw Hraw.
  eapply returns_mono; [apply (map_result_returns subsection_ok)|by intros l [Hl _]]. intros bytes Hbytes.
  rewrite Forall_forall in Hraw. by apply parse_subsection_returns, Hraw.
Qed.

Lemma bucket_end_returns offset : in_range 64 offset -> returns (fun e => 0 < e < 2 ^ 63) (bucket_end s offset).
Proof using Hlaw.
  intros Ho. unfold bucket_end. eapply returns_bind; [by apply read_node_header_returns|]. intros node (_ & _ & He). done.
Qed.
End Tables.

(** ** Ranges of an image, byte by byte *)

Lemma lookup_byte_range (b : list Z) i : bytes_ok b -> in_range 8 (default 0 (b !! i)).
Proof. intros Hb. destruct (b !! i) as [x|] eqn:E; [|done]. by eapply Forall_lookup_1. Qed.

Lemma slice_bytes (b : list Z) offset count :
  0 <= offset -> 0 <= count -> offset + count <= Z.of_nat (length b) ->
  slice b offset count = Some (map (fun p => default 0 (b !! Z.to_nat p)) (seqZ offset count)).
Proof.
  intros Ho Hc Hl. rewrite slice_some by lia. f_equal. apply list_eq. intros i. rewrite lookup_take, lookup_drop.
  change (map ?f ?l) with (f <$> l). rewrite list_lookup_fmap. case_decide.
  - rewrite lookup_seqZ_lt by lia. cbn. destruct (lookup_lt_is_Some_2 b (Z.to_nat offset + i)) as [x Hx]; [lia|].
    replace (Z.to_nat (offset + Z.of_nat i)) with (Z.to_nat offset + i)%nat by lia. by rewrite Hx.
  - by rewrite lookup_seqZ_ge by lia.
Qed.

Lemma map_seqZ_shift {A} (f : Z -> A) d start count :
  map f (seqZ (d + start) count) = map (fun p => f (d + p)) (seqZ start count).
Proof. rewrite <- fmap_add_seqZ. by rewrite map_map. Qed.

Lemma land_block_mask v : in_range 64 v -> Z.land v (unot 64 (AES_BLOCK_SIZE - 1)) = v / 16 * 16.
Proof.
  intros Hv. change (v / 16 * 16) with (v / 2 ^ 4 * 2 ^ 4). rewrite <- Z.shiftr_div_pow2, <- Z.shiftl_mul_pow2 by lia.
  apply Z.bits_inj'. intros i Hi. rewrite Z.land_spec, testbit_unot, Z.shiftl_spec by (done || lia).
  change (AES_BLOCK_SIZE - 1) with (Z.ones 4). rewrite testbit_ones by lia.
  destruct (Z.ltb_spec i 4).
  - rewrite (Z.testbit_neg_r _ (i - 4)) by lia. by rewrite !andb_false_r.
  - rewrite Z.shiftr_spec by lia. replace (i - 4 + 4) with i by lia. destruct (Z.ltb_spec i 64); [by rewrite andb_true_r|].
    by rewrite (testbit_high 64 v i) by (done || lia).
Qed.

(** ** The relocated image *)

(** The byte at [p], which the entry [i] covers: the byte of its source at the
    same distance from the start of the range. *)
Definition relocated_byte (entries : list RelocationEntry) (base patch : list Z) (i : nat) (p : Z) : Z :=
  match entries !! i with
  | None => 0
  | Some e =>
      let source := match relocation_source e with Base => base | Patch => patch end in
      default 0 (source !! Z.to_nat (source_offset e + (p - virtual_offset e)))
  end.

Definition relocated_image (entries : list RelocationEntry) (size : Z) (base patch : list Z) : list Z :=
  image (map virtual_offset entries) size (relocated_byte entries base patch).

Definition source_size (base_len patch_len : Z) (e : RelocationEntry) : Z :=
  match relocation_source e with Base => base_len | Patch => patch_len end.

(** What [validate_relocations] accepts. *)
Definition ranges_ok (base_len patch_len size : Z) (entries : list RelocationEntry) : Prop :=
  forall i e, entries !! i = Some e ->
    let end_ := default size (virtual_offset <$> entries !! S i) in
    virtual_offset e <= end_ /\ source_offset e + (end_ - virtual_offset e) <= source_size base_len patch_len e.

Lemma validate_ranges_returns base_len patch_len size entries :
  returns (fun _ => ranges_ok base_len patch_len size entries) (validate_ranges base_len patch_len size entries).
Proof.
  induction entries as [|e rest IH]; cbn [validate_ranges]; [by intros [|i] e|].
  set (end_ := match rest with [] => size | next :: _ => virtual_offset next end). unfold bktr_error, invalid.
  destruct (Z.ltb_spec end_ (virtual_offset e)); [done|]. unfold validate_patch, bktr_error, invalid.
  destruct (checked_add 64 _ _) as [x|] eqn:E; [|done]. apply checked_add_inv in E as [-> _]. cbn [some_or result_bind].
  destruct (Z.ltb_spec (match relocation_source e with Base => base_len | Patch => patch_len end)
              (source_offset e + (end_ - virtual_offset e))); [done|]. cbn [result_bind].
  eapply returns_mono; [exact IH|]. intros [] Hrest [|i] x Hx; cbn [lookup list_lookup] in Hx.
  - injection Hx as <-. unfold source_size. by destruct rest.
  - exact (Hrest i x Hx).
Qed.

Lemma validate_relocations_returns entries base_len patch_len size :
  returns (fun n => n = size /\ head (map virtual_offset entries) = Some 0 /\ ranges_ok base_len patch_len size entries)
    (validate_relocations entries base_len patch_len size).
Proof.
  unfold validate_relocations, bktr_error, invalid. destruct (decide (virtual_offset <$> head entries = Some 0)) as [Hh|].
  2:{ by rewrite bool_decide_false. }
  rewrite bool_decide_true by done. eapply returns_bind; [apply ensure_returns|]. intros ? _.
  eapply returns_bind; [apply validate_ranges_returns|]. intros ? Hr. cbn. split; [done|]. split; [|done]. by destruct entries.
Qed.

(** The view of the effective image holds the relocated image. *)
Lemma relocation_dyn_represents (s : RelocationStorage) (base patch : list Z) base_len patch_len :
  Represents (rel_base s) base -> Represents (rel_patch s) patch -> in_range 64 (rel_len s) ->
  base_len <= Z.of_nat (length base) -> patch_len <= Z.of_nat (length patch) ->
  Forall relocation_ok (rel_entries s) -> head (map virtual_offset (rel_entries s)) = Some 0 ->
  ranges_ok base_len patch_len (rel_len s) (rel_entries s) ->
  Represents (relocation_dyn s) (relocated_image (rel_entries s) (rel_len s) base patch).
Proof.
  intros Hbase Hpatch Hlen Hbl Hpl Hok Hhead Hranges. apply segmented_represents; [done|done| |].
  - intros i p. unfold relocated_byte. destruct (rel_entries s !! i) as [e|]; [|done]. apply lookup_byte_range.
    destruct (relocation_source e); [apply Hbase|apply Hpatch].
  - intros i start current n Hstart Hle Hn Hend Hnext. unfold relocation_chunk.
    change (map ?f ?l) with (f <$> l) in Hstart, Hnext. rewrite list_lookup_fmap in Hstart, Hnext.
    destruct (rel_entries s !! i) as [e|] eqn:He; [|done]. injection Hstart as <-.
    pose proof (proj1 (Forall_lookup _ _) Hok i e He) as [[Hv _] [Hs _]]. destruct (Hranges i e He) as [H1 H2].
    assert (Hin : current + n <= default (rel_len s) (virtual_offset <$> rel_entries s !! S i)).
    { destruct (rel_entries s !! S i) as [x|]; [by apply Hnext|done]. }
    unfold sub_u64. destruct (Z.ltb_spec current (virtual_offset e)); [lia|]. cbn [result_bind].
    set (src := match relocation_source e with Base => base | Patch => patch end).
    set (st := match relocation_source e with Base => rel_base s | Patch => rel_patch s end).
    assert (Hst : Represents st src) by (unfold st, src; by destruct (relocation_source e)).
    assert (Hsize : source_offset e + (current - virtual_offset e) + n <= Z.of_nat (length src)).
    { unfold src, source_size in *. destruct (relocation_source e); lia. }
    pose proof (rep_short (Represents := Hst)) as [_ Hshort].
    rewrite checked_add_small by lia. cbn [some_or result_bind]. rewrite (rep_read (Represents := Hst)) by (unfold in_range; lia).
    rewrite slice_bytes by lia. f_equal.
    replace (source_offset e + (current - virtual_offset e)) with ((source_offset e - virtual_offset e) + current) by lia.
    rewrite map_seqZ_shift. apply map_ext. intros p. unfold relocated_byte. rewrite He. fold src. do 3 f_equal. lia.
Qed.

(** ** The patch data *)

Section PatchData.
Context (encrypt_block decrypt_block : list Z -> list Z -> list Z) (digest : list Z -> list Z).
Context (encrypt_length : forall key block, length (encrypt_block key block) = 16%nat).
Context (encrypt_bytes : forall key block, bytes_ok (encrypt_block key block)).

(** The byte at [p] of the patch data, which the subsection [i] covers, from
    the raw bytes [b] of the section: decrypted under the counter of the
    subsection's generation unless nothing is encrypted there. *)
Definition patch_byte (s : AesCtrExStorage) (b : list Z) (i : nat) (p : Z) : Z :=
  let x := default 0 (b !! Z.to_nat p) in
  match ex_entries s !! i with
  | None => 0
  | Some e =>
      if ex_decrypted s || negb (encrypted e) then x
      else Z.lxor x (keystream encrypt_block (default [] (ex_key s)) (ctr_prefix_of (ex_secure_value s) (generation e))
                       (ex_counter_offset s + p))
  end.

Definition patch_image (s : AesCtrExStorage) (b : list Z) : list Z :=
  image (map sub_start (ex_entries s)) (ex_len s) (patch_byte s b).

(** Decrypting whole blocks around a range decrypts the range. *)
Lemma decrypt_around key prefix counter b current n :
  0 <= counter -> counter mod 16 = 0 -> 0 <= current -> 0 < n -> current + n <= Z.of_nat (length b) -> Z.of_nat (length b) mod 16 = 0 ->
  counter + Z.of_nat (length b) + 16 < 2 ^ 64 ->
  let start := current / 16 * 16 in
  let end_ := (current + n + 15) / 16 * 16 in
  exists data plain, 0 <= start <= end_ /\ end_ < 2 ^ 64 /\ slice b start (end_ - start) = Some data /\
    apply_ctr (E := StorageError) encrypt_block key prefix ((counter + start) / AES_BLOCK_SIZE) data = Ok plain /\
    slice plain (current - start) n
    = Some (map (fun p => Z.lxor (default 0 (b !! Z.to_nat p)) (keystream encrypt_block key prefix (counter + p))) (seqZ current n)).
Proof using encrypt_length.
  intros Hc Hcm Hcur Hn Hl Hlm Hb start end_. unfold start, end_, AES_BLOCK_SIZE.
  pose proof (Z.div_mod current 16 ltac:(lia)). pose proof (Z.mod_pos_bound current 16 ltac:(lia)).
  pose proof (Z.div_mod (current + n + 15) 16 ltac:(lia)). pose proof (Z.mod_pos_bound (current + n + 15) 16 ltac:(lia)).
  pose proof (Z.div_mod (Z.of_nat (length b)) 16 ltac:(lia)).
  set (first := current / 16) in *. set (last := (current + n + 15) / 16) in *.
  assert (last * 16 <= Z.of_nat (length b)) by lia.
  destruct (slice_exists b (first * 16) (last * 16 - first * 16)) as [data Hd]; [lia..|].
  pose proof (slice_length _ _ _ _ Hd) as Hdl. exists data, (ctr_image encrypt_block key prefix (counter + first * 16) data).
  split; [lia|]. split; [lia|]. split; [done|]. split.
  - unfold apply_ctr. pose proof (Z.div_mod counter 16 ltac:(lia)).
    replace (counter + first * 16) with (16 * (counter / 16 + first)) by lia.
    rewrite (Z.mul_comm 16), Z_div_mult by lia.
    pose proof (div_ceil_bounds (Z.of_nat (length data)) 16 ltac:(lia) ltac:(lia)).
    rewrite apply_ctr_blocks_ok by (done || lia). do 2 f_equal. lia.
  - rewrite ctr_image_slice, (slice_slice _ _ _ _ _ _ Hd) by lia.
    replace (first * 16 + (current - first * 16)) with current by lia. rewrite slice_bytes by lia. cbn [fmap option_fmap option_map].
    f_equal. apply list_eq. intros k. rewrite ctr_image_lookup. change (map ?f ?l) with (f <$> l). rewrite !list_lookup_fmap.
    destruct (Z.lt_ge_cases (Z.of_nat k) n); [|by rewrite lookup_seqZ_ge by lia].
    rewrite lookup_seqZ_lt by lia. cbn. do 3 f_equal. lia.
Qed.

Definition ctr_ex_ok (s : AesCtrExStorage) (b : list Z) : Prop :=
  Represents (ex_parent s) b /\ 0 <= ex_len s <= Z.of_nat (length b) /\ Z.of_nat (length b) mod 16 = 0 /\
  0 <= ex_counter_offset s /\ ex_counter_offset s mod 16 = 0 /\ ex_counter_offset s + Z.of_nat (length b) + 16 < 2 ^ 64 /\
  (ex_decrypted s = false -> is_Some (ex_key s)) /\
  Forall subsection_ok (ex_entries s) /\ head (map sub_start (ex_entries s)) = Some 0.

Lemma ctr_ex_dyn_represents s b : ctr_ex_ok s b -> Represents (ctr_ex_dyn encrypt_block s) (patch_image s b).
Proof using encrypt_length encrypt_bytes.
  intros (Hrep & Hlen & Hbm & Hc & Hcm & Hcl & Hkey & Hok & Hhead). pose proof (rep_short (Represents := Hrep)) as [_ Hshort].
  apply segmented_represents; [done|unfold in_range; lia| |].
  - intros i p. unfold patch_byte. pose proof (lookup_byte_range b (Z.to_nat p) (rep_bytes (Represents := Hrep))) as Hx.
    destruct (ex_entries s !! i) as [e|]; [|done]. destruct (_ || _); [done|]. apply in_range_lxor; [done|done|by apply keystream_range].
  - intros i start current n Hstart Hle Hn Hend _. unfold ctr_ex_chunk.
    change (map ?f ?l) with (f <$> l) in Hstart. rewrite list_lookup_fmap in Hstart.
    destruct (ex_entries s !! i) as [e|] eqn:He; [|done]. injection Hstart as <-.
    pose proof (proj1 (Forall_lookup _ _) Hok i e He) as [[Hv _] _].
    destruct (ex_decrypted s || negb (encrypted e)) eqn:Hplain.
    { rewrite (rep_read (Represents := Hrep)) by (unfold in_range; lia). rewrite slice_bytes by lia. f_equal. apply map_ext.
      intros p. unfold patch_byte. by rewrite He, Hplain. }
    apply orb_false_iff in Hplain as Hp. destruct Hp as [Hdec _]. destruct (Hkey Hdec) as [key Hk]. rewrite Hk. cbn [some_or result_bind].
    rewrite land_block_mask by (unfold in_range; lia).
    destruct (decrypt_around key (ctr_prefix_of (ex_secure_value s) (generation e)) (ex_counter_offset s) b current n)
      as (data & plain & H1 & H2 & Hd & Hpl & Hsl); [done || lia..|].
    unfold align_up, AES_BLOCK_SIZE in *. rewrite (checked_add_small 64 (current + n)) by lia. cbn [some_or result_bind].
    change (16 - 1) with 15. pose proof (slice_is_some _ _ _ _ Hd).
    rewrite (rep_read (Represents := Hrep)) by (unfold in_range; lia). rewrite Hd. cbn [result_bind].
    rewrite checked_add_small by lia. cbn [some_or result_bind]. rewrite Hpl. cbn [result_bind]. rewrite Hsl. f_equal. apply map_ext.
    intros p. unfold patch_byte. by rewrite He, Hplain, Hk.
Qed.

(** ** What opening establishes *)

Definition patch_storage (info : BktrPatchInfo) (crypto : BktrCryptoContext) (entries : list SubsectionEntry) : AesCtrExStorage :=
  mkCtrEx (raw_storage crypto) (indirect_offset info) entries (bktr_key crypto) (secure_value crypto) (counter_offset crypto)
    (bktr_decrypted crypto).

Lemma validate_subsections_returns entries physical_end :
  returns (fun _ => head (map sub_start entries) = Some 0) (validate_subsections entries physical_end).
Proof using.
  unfold validate_subsections, bktr_error, invalid. destruct (decide (sub_start <$> head entries = Some 0)) as [Hh|].
  2:{ by rewrite bool_decide_false. }
  rewrite bool_decide_true by done. eapply returns_bind; [apply ensure_returns|]. intros ? Hne.
  destruct (last (map sub_start entries)) as [x|] eqn:El; [|by apply last_None in El]. cbn [expect_some result_bind].
  destruct (_ || _); [done|]. cbn. by destruct entries.
Qed.

Lemma image_size_returns n ls room end_ :
  0 <= end_ <= Z.of_nat n -> Z.of_nat n < 2 ^ 64 -> levels_ok (replicate n 0) room ls ->
  returns (fun x => x <= Z.of_nat n) (image_size ls end_).
Proof using.
  intros He Hn. revert room end_ He. induction ls as [|l ls IH]; intros room end_ He; cbn [image_size levels_ok]; [cbn; lia|].
  rewrite length_replicate. intros ((H1 & H2 & H3 & _) & _ & Hls). rewrite checked_add_small by lia. cbn [some_or result_bind].
  apply (IH (level_size l)); [lia|done].
Qed.

Section Open.
Context (w p : list Z) (update : NcaSection) (info : BktrPatchInfo) (crypto : BktrCryptoContext).
Context (Hp : Represents (section_storage update) p) (Hinfo : patch_ok (Z.of_nat (length w)) info).
Context (Hraw : Represents (raw_storage crypto) w) (Hmod : Z.of_nat (length w) mod 16 = 0).
Context (Hc : 0 <= counter_offset crypto) (Hcm : counter_offset crypto mod 16 = 0).
Context (Hcl : counter_offset crypto + Z.of_nat (length w) + 16 < 2 ^ 64).
Context (Hkey : bktr_decrypted crypto = false -> is_Some (bktr_key crypto)).

Lemma open_patch_data_returns :
  returns (fun st => exists subsections, parse_subsection_table (section_storage update) info = Ok subsections /\
             st = ctr_ex_dyn encrypt_block (patch_storage info crypto subsections) /\ ctr_ex_ok (patch_storage info crypto subsections) w)
    (open_patch_data encrypt_block update info crypto).
Proof using Hp Hinfo Hraw Hmod Hc Hcm Hcl Hkey.
  pose proof Hinfo as (H1 & H2 & H3 & H4 & H5 & H6 & H7). pose proof (rep_short (Represents := Hraw)) as [_ Hw].
  unfold open_patch_data, bktr_error, invalid.
  pose proof (parse_subsection_table_returns (section_storage update) info _ Hinfo Hw) as Hsub.
  destruct (parse_subsection_table _ info) as [subs| |] eqn:Es; [|done|done]. cbn [returns result_bind] in *.
  eapply returns_bind; [apply (bucket_end_returns (section_storage update)); unfold in_range; lia|]. intros e _. destruct (_ || _); [done|].
  eapply returns_bind; [apply validate_subsections_returns|]. intros ? Hhead. cbn [returns]. exists subs. split_and!; [done|done|].
  unfold ctr_ex_ok, patch_storage. cbn. split_and!; (done || lia).
Qed.
End Open.
End PatchData.

Section Patched.
Context (encrypt_block decrypt_block : list Z -> list Z -> list Z) (digest : list Z -> list Z).
Context (encrypt_length : forall key block, length (encrypt_block key block) = 16%nat).
Context (encrypt_bytes : forall key block, bytes_ok (encrypt_block key block)).
Context (decrypt_length : forall key block, length (decrypt_block key block) = 16%nat).
Context (decrypt_bytes : forall key block, bytes_ok (decrypt_block key block)).

(** What an opened patch is: both of its views, from the bytes [base_bytes] of
    the base section, the raw bytes [raw] of the update section and the tables
    read from the update. *)
Definition patch_holds (p : BktrPatch) (base_bytes raw : list Z) (update : NcaSection) : Prop :=
  exists info crypto relocations subsections size level romfs,
    patch_info update = Some info /\ patch_crypto update = Some crypto /\
    parse_relocation_table (section_storage update) info = Ok relocations /\
    parse_subsection_table (section_storage update) info = Ok subsections /\
    bucket_end (section_storage update) (indirect_offset info) = Ok size /\
    (bktr_ivfc update ≫= fun layout => last (levels layout)) = Some level /\
    let patch := patch_image encrypt_block (patch_storage info crypto subsections) raw in
    let effective := relocated_image relocations size base_bytes patch in
    ranges_ok (Z.of_nat (length base_bytes)) (Z.of_nat (length patch)) size relocations /\
    Represents (virtual_storage p) effective /\
    slice effective (level_offset level) (level_size level) = Some romfs /\ Represents (romfs_storage p) romfs.

Lemma length_patch_image s b : in_range 64 (ex_len s) -> Z.of_nat (length (patch_image encrypt_block s b)) = ex_len s.
Proof using. intros Hs. by apply length_image. Qed.

Lemma ranges_ok_weaken base_len base_len' patch_len size entries :
  base_len <= base_len' -> ranges_ok base_len patch_len size entries -> ranges_ok base_len' patch_len size entries.
Proof using.
  intros Hb H i e He. destruct (H i e He) as [H1 H2]. split; [done|]. unfold source_size in *. destruct (relocation_source e); lia.
Qed.

Lemma open_patch_returns base update base_bytes update_bytes raw :
  Represents (section_storage base) base_bytes -> layout_ok base_bytes (integrity base) ->
  Represents (section_storage update) update_bytes -> layout_ok update_bytes (integrity update) ->
  (forall info, patch_info update = Some info -> patch_ok (Z.of_nat (length raw)) info) ->
  Z.of_nat (length raw) mod 16 = 0 -> 0 <= section_offset update -> section_offset update mod 16 = 0 ->
  section_offset update + Z.of_nat (length raw) + 16 < 2 ^ 64 ->
  (forall c, patch_crypto update = Some c -> Represents (raw_storage c) raw /\ counter_offset c = section_offset update /\
     (bktr_decrypted c = false -> is_Some (bktr_key c))) ->
  returns (fun p => patch_holds p base_bytes raw update) (open_patch encrypt_block base update).
Proof using encrypt_length encrypt_bytes.
  intros Hb Hbl Hu Hul Hinfo Hmod Ho Hom Hol Hcrypto. pose proof (rep_short (Represents := Hb)) as [_ Hbs].
  unfold open_patch, patch_error, bktr_error, invalid. destruct (negb _); [done|]. destruct (_ || _); [done|].
  destruct (patch_info update) as [info|] eqn:Ei; [|done]. destruct (patch_crypto update) as [crypto|] eqn:Ec; [|done].
  cbn [some_or result_bind]. destruct (negb _); [done|]. specialize (Hinfo info eq_refl) as Hi. destruct (Hcrypto crypto eq_refl) as (Hraw & Hco & Hkey).
  eapply returns_bind; [eapply open_patch_data_returns; rewrite ?Hco; done|]. intros st (subs & Hsubs & -> & Hex).
  pose proof (ctr_ex_dyn_represents encrypt_block encrypt_length encrypt_bytes _ _ Hex) as Hpatch.
  pose proof (rep_short (Represents := Hraw)) as [_ Hw]. destruct Hi as (H1 & H2 & H3 & H4 & H5 & Hi).
  pose proof (parse_relocation_table_returns (section_storage update) info (Z.of_nat (length raw)) ltac:(done) Hw) as Hrel.
  destruct (parse_relocation_table _ info) as [relocs| |] eqn:Er; [|done|done]. cbn [returns result_bind] in *.
  destruct (romfs_ivfc base) as [layout|] eqn:El; [|done]. cbn [some_or result_bind].
  assert (Hlok : levels_ok (replicate (length base_bytes) 0) (HASH_SIZE * Z.of_nat (length (master_hashes layout))) (levels layout)).
  { unfold romfs_ivfc in El. destruct (integrity base) as [| |l|]; try done. injection El as ->.
    apply (layout_ok_length base_bytes _ (Ivfc layout)); [by rewrite length_replicate|done]. }
  unfold ivfc_image_size. eapply returns_bind; [eapply (image_size_returns (length base_bytes)); [lia|done|exact Hlok]|]. intros base_size Hbase.
  rewrite (rep_len (Represents := Hpatch)). cbn [stored map_err result_bind].
  pose proof (bucket_end_returns (section_storage update) (indirect_offset info) ltac:(unfold in_range; lia)) as Hend.
  destruct (bucket_end _ (indirect_offset info)) as [size| |] eqn:Ee; [|done|done]. cbn [returns result_bind] in *.
  eapply returns_bind; [apply validate_relocations_returns|]. intros size' (-> & Hhead & Hranges).
  set (patch := patch_image encrypt_block (patch_storage info crypto subs) raw) in *.
  pose proof (relocation_dyn_represents (mkRelocationStorage (section_storage base) (ctr_ex_dyn encrypt_block (patch_storage info crypto subs)) relocs size)
    base_bytes patch base_size (Z.of_nat (length patch)) Hb Hpatch ltac:(unfold in_range; cbn; lia) Hbase (Z.le_refl _) Hrel Hhead Hranges) as Hvirtual.
  cbn [rel_entries rel_len] in Hvirtual.
  destruct (bktr_ivfc update) as [vl|] eqn:Ev; [|done]. cbn [some_or result_bind].
  destruct (last (levels vl)) as [level|] eqn:Elast; [|done]. cbn [some_or result_bind].
  assert (Hlevel : in_range 64 (level_offset level) /\ in_range 64 (level_size level)).
  { unfold bktr_ivfc in Ev. destruct (integrity update) as [| | |l]; try done. injection Ev as ->. cbn [layout_ok] in Hul.
    rewrite last_lookup in Elast. by eapply Forall_lookup_1 in Hul. }
  destruct Hlevel as [Hlo Hls]. unfold validate_patch, bktr_error, invalid.
  destruct (checked_add 64 _ _) as [x|] eqn:Ex; [|done]. apply checked_add_inv in Ex as [-> _]. cbn [some_or result_bind].
  destruct (Z.ltb_spec size (level_offset level + level_size level)); [done|]. cbn [result_bind].
  pose proof (sub_view_refines _ _ (level_offset level) (level_size level) Hvirtual Hlo Hls) as Hview.
  destruct (slice _ (level_offset level) (level_size level)) as [romfs|] eqn:Eslice.
  2:{ by rewrite Hview. }
  destruct Hview as (v & Hv & Hrep). rewrite Hv. cbn [stored map_err result_bind returns].
  exists info, crypto, relocs, subs, size, level, romfs. rewrite Ev. cbn [mbind option_bind virtual_storage romfs_storage].
  split_and!; try done. by eapply ranges_ok_weaken.
Qed.

(** C20. Opening a patch over two accepted archives never panics: the buckets,
    tables and both IVFC layouts come from files nobody trusts.  When it
    succeeds, every entry's range lies in its source, and the virtual storage
    holds exactly the effective image: the byte at [p] is the byte of the base
    section's plaintext, or of the patch data, at the distance from the source
    offset that [p] has from the start of the last entry at or before it, and a
    byte of the patch data is the raw byte of the update section, decrypted
    under the counter of its subsection's generation where the subsection is
    encrypted.  A read of any range, across any number of entries and
    subsections and at any alignment, returns that slice.  The RomFS storage is
    the data level of the image. *)
Theorem bktr_patch_exact (s1 s2 : Storage) (b1 b2 : list Z) (keys1 keys2 : NcaKeyProvider) (a1 a2 : NcaArchive)
  (base update : NcaSection) :
  Represents s1 b1 -> Represents s2 b2 ->
  parse_nca encrypt_block decrypt_block digest s1 keys1 = Ok a1 ->
  parse_nca encrypt_block decrypt_block digest s2 keys2 = Ok a2 ->
  base ∈ sections a1 -> update ∈ sections a2 ->
  open_patch encrypt_block base update <> Panic /\
  forall p, open_patch encrypt_block base update = Ok p ->
    exists base_bytes raw,
      Represents (section_storage base) base_bytes /\
      slice b2 (section_offset update) (section_size update) = Some raw /\ patch_holds p base_bytes raw update.
Proof using encrypt_length encrypt_bytes decrypt_length decrypt_bytes.
  intros H1 H2 E1 E2 Hbase Hupdate.
  pose proof (parse_nca_returns _ decrypt_block encrypt_length encrypt_bytes decrypt_length decrypt_bytes digest s1 b1 keys1 H1) as R1.
  pose proof (parse_nca_returns _ decrypt_block encrypt_length encrypt_bytes decrypt_length decrypt_bytes digest s2 b2 keys2 H2) as R2.
  rewrite E1 in R1. rewrite E2 in R2. destruct R1 as (_ & _ & _ & _ & hb1 & ck1 & _ & _ & _ & R1), R2 as (_ & _ & _ & _ & hb2 & ck2 & _ & _ & _ & R2).
  destruct (R1 base Hbase) as (e1 & _ & _ & _ & _ & w1 & p1 & c1 & _ & _ & _ & _ & _ & Hb & Hbl & _).
  destruct (R2 update Hupdate) as (e2 & (_ & Hh & _ & _ & Hend & Hom & Hsm) & (_ & Ho & Hz & raw & p2 & c2 & Hraw & _ & _ & _ & _ & Hu & Hul & Hinfo & Hcrypto)).
  pose proof (slice_length _ _ _ _ Hraw) as Hl. pose proof (slice_is_some _ _ _ _ Hraw) as (? & ? & ?).
  assert (Hrl : Z.of_nat (length raw) = section_size update) by lia. rewrite <- Hrl in Hinfo.
  assert (Hm : forall x, x mod MEDIA_UNIT_SIZE = 0 -> x mod 16 = 0).
  { unfold MEDIA_UNIT_SIZE. intros x Hx. pose proof (Z.div_mod x 0x200 ltac:(lia)). replace x with (x / 0x200 * 32 * 16) by lia. apply Z_mod_mult. }
  pose proof (open_patch_returns base update p1 p2 raw Hb Hbl Hu Hul Hinfo) as Hret.
  rewrite Hrl, Hz, Ho in Hret. specialize (Hret (Hm _ Hsm) ltac:(unfold HEADER_SIZE in *; lia) (Hm _ Hom) ltac:(lia)).
  rewrite <- Ho in Hret. destruct (open_patch _ _ _) as [p| |].
  - split; [done|]. intros ? [= <-]. exists p1, raw. split; [done|]. split; [done|]. apply Hret. intros c Hc. naive_solver.
  - done.
  - exfalso. apply Hret. intros c Hc. naive_solver.
Qed.
End Patched.

(** ** Witness *)

Definition poke (bytes : list (Z * Z)) (l : list Z) : list Z := foldr (fun '(o, v) l => <[Z.to_nat o := v]> l) l bytes.

(** The nodes of a tree of one entry set, at [at_]. *)
Definition bucket_nodes (at_ count end_ : Z) : list (Z * Z) :=
  [(at_ + 4, 1); (at_ + 8, end_); (at_ + 0x4004, count); (at_ + 0x4008, end_)].

(** An update whose 32 bytes of patch data 0, 1, 2... precede the relocation
    tree [(0, Base + 0); (4, Patch + 6); (9, Base + 1)], ending at 12, and the
    subsection tree [(0, encrypted); (16, plain)]. *)
Definition bktr_example : list Z :=
  let fs := 0x400 in
  let relocations := 0xc20 in
  let subsections := 0x8c20 in
  poke ([(0x200, 0x4e); (0x201, 0x43); (0x202, 0x41); (0x203, 0x33); (0x209, 0x0e); (0x20a, 1); (0x240, 6); (0x244, 0x87);
         (fs + 3, 3); (fs + 4, 4); (fs + 8, 0x49); (fs + 9, 0x56); (fs + 10, 0x46); (fs + 11, 0x43); (fs + 0x10, 0x20); (fs + 0x14, 2);
         (fs + 0x18, 1); (fs + 0x20, 10); (fs + 0x28, 5);
         (fs + 0x100, 0x20); (fs + 0x109, 0x80); (fs + 0x110, 0x42); (fs + 0x111, 0x4b); (fs + 0x112, 0x54); (fs + 0x113, 0x52);
         (fs + 0x114, 1); (fs + 0x118, 3);
         (fs + 0x120, 0x20); (fs + 0x121, 0x80); (fs + 0x129, 0x80); (fs + 0x130, 0x42); (fs + 0x131, 0x4b); (fs + 0x132, 0x54);
         (fs + 0x133, 0x52); (fs + 0x134, 1); (fs + 0x138, 2)]
        ++ map (fun i => (0xc00 + i, i)) (seqZ 0 32)
        ++ bucket_nodes relocations 3 12
        ++ [(relocations + 0x4024, 4); (relocations + 0x402c, 6); (relocations + 0x4034, 1);
            (relocations + 0x4038, 9); (relocations + 0x4040, 1)]
        ++ bucket_nodes subsections 2 32
        ++ [(subsections + 0x4020, 16); (subsections + 0x4028, 1)])
    (replicate (Z.to_nat 0x10e00) 0).

Lemma bktr_example_ok : Represents (of_bytes bktr_example) bktr_example.
Proof.
  apply of_bytes_represents.
  - apply bytes_ok_dec_ok. vm_compute. reflexivity.
  - replace (Z.of_nat (length bktr_example)) with 0x10e00 by (vm_compute; reflexivity). done.
Qed.

(** The first bytes of the patched RomFS. *)
Definition bktr_summary (base_archive update_archive : Result LoadError NcaArchive) : option (list Z) :=
  match base_archive, update_archive with
  | Ok a1, Ok a2 =>
      match sections a1, sections a2 with
      | [base], [update] =>
          match open_patch toy_cipher base update with
          | Ok p => match read_at (romfs_storage p) 0 10 with Ok r => Some r | _ => None end
          | _ => None
          end
      | _, _ => None
      end
  | _, _ => None
  end.

Lemma bktr_summary_ok :
  bktr_summary (parse_nca toy_cipher toy_cipher toy_hash (of_bytes nca_example) EmptyKeyProvider)
    (parse_nca toy_cipher toy_cipher toy_hash (of_bytes bktr_example) EmptyKeyProvider)
  = Some [8; 0; 0; 6; 7; 8; 9; 10; 8; 0].
Proof. vm_compute. reflexivity. Qed.

Lemma bktr_patch_exact_witness :
  exists base update p base_bytes raw,
    open_patch toy_cipher base update = Ok p /\ Represents (section_storage base) base_bytes /\
    slice bktr_example (section_offset update) (section_size update) = Some raw /\ patch_holds toy_cipher p base_bytes raw update /\
    read_at (romfs_storage p) 0 10 = Ok [8; 0; 0; 6; 7; 8; 9; 10; 8; 0].
Proof.
  pose proof bktr_summary_ok as Hs.
  destruct (parse_nca toy_cipher toy_cipher toy_hash (of_bytes nca_example) EmptyKeyProvider) as [a1| |] eqn:E1; [|discriminate Hs..].
  destruct (parse_nca toy_cipher toy_cipher toy_hash (of_bytes bktr_example) EmptyKeyProvider) as [a2| |] eqn:E2; [|discriminate Hs..].
  unfold bktr_summary in Hs. destruct (sections a1) as [|base [|]] eqn:S1; [discriminate Hs| |discriminate Hs].
  destruct (sections a2) as [|update [|]] eqn:S2; [discriminate Hs| |discriminate Hs].
  destruct (open_patch toy_cipher base update) as [p| |] eqn:Ep; [|discriminate Hs..].
  destruct (read_at (romfs_storage p) 0 10) as [r| |] eqn:Er; [|discriminate Hs..]. injection Hs as ->.
  destruct (bktr_patch_exact toy_cipher toy_cipher toy_hash toy_cipher_length toy_cipher_bytes toy_cipher_length toy_cipher_bytes
              (of_bytes nca_example) (of_bytes bktr_example) nca_example bktr_example EmptyKeyProvider EmptyKeyProvider a1 a2 base update
              nca_example_ok bktr_example_ok E1 E2 ltac:(rewrite S1; left) ltac:(rewrite S2; left)) as [_ H].
  destruct (H p Ep) as (base_bytes & raw & Hb & Hr & Hp). exists base, update, p, base_bytes, raw. repeat (split; [assumption|]). exact Er.
Defined.
